(* ===== verification/_CoqProject ===== *)
-Q . S2P
Prelude.v
Text.v
Utf8.v
Codec.v
EnvFlag.v
Runtime.v
Redact.v
ForwardWire.v
FlowControl.v
ForwardPump.v
ForwardLink.v
CreditLink.v
Net.v
ForwardPolicy.v
ForwardEngine.v
EngineInv.v
EngineSafety.v
Retry.v
ForwardReconnect.v
PeerGrant.v
Masque.v
Health.v
Shutdown.v
GrantWatch.v
ServeLoop.v
PeerPin.v
Supervisor.v
ShareLinks.v
LinkRaces.v
LocalAuth.v
SecretFile.v
CliConfig.v
Grants.v
DirOps.v
Json.v
Events.v
ManifestRun.v
HarnessRun.v
GrantRevoke.v
Login.v
ServiceHandler.v
ServiceCalls.v
AgentTools.v
Capability.v
AcmeWorld.v
Dns01.v
Acme.v
AcmeSafety.v
AcmeCert.v
AcmeCertSafety.v
SelfUpdate.v
DirectConnect.v
EdgeWire.v
JoinConfig.v
Dialing.v
Connectivity.v
Session.v
ChannelJoin.v
P2p.v
SuperPeer.v
FallbackWorker.v
FallbackPool.v
Agent.v
SshOwner.v
Origin.v
FramedRelay.v
