(* ===== verification/Prelude.v ===== *)
(** * ct-agent: a verification library for the customer agent of CADS-Tunnel

    This is a model, in Rocq, of the parts of [ct-agent] (src/native/src/) that decide what the
    agent does: how two members of a channel are joined and what may pass between them, the TCP
    forward with its two levels of flow control, the services and tools a channel serves, how the
    agent registers and serves its Origin, how it obtains certificates, logins and updates, when it
    retries and when it gives up, and what it reports about itself while it runs and stops.
    Every definition that models code is translated from the Rust source, keeps its names and is
    executable; step relations stand beside the functions, and the concrete inputs beside the theorems are evaluated by the kernel.

    ** The program and its parts

    A channel member dials the edge's broker, is admitted with an operator-signed grant and paired
    with another member; the two run a Noise session through the edge's relay, or directly where a path
    is found.  On top of it calls are made and served, or -- the persistent forward -- many TCP
    connections are multiplexed.

      - the settings and the addresses of a join ([JoinConfig]) give the ladder that presents it
        ([Dialing]); its admission is checked, pinned and gated ([ChannelJoin]) before the session
        ([Session]) runs over the relay leg, a direct path or the race of both ([Connectivity], [P2p]);
      - the accept side parks at the broker again and again ([ServeLoop]); a paired peer must be
        the pinned partner ([PeerPin]), present a valid grant before a byte passes ([PeerGrant]),
        and may be cut off while the session runs ([PeerGrant] timers, [GrantWatch]);
      - inside a session the two forward engines ([ForwardEngine]) exchange frames
        ([ForwardWire]); the accept engine asks the policy ([ForwardPolicy], on [Net]) before it
        dials; each connection is a pump ([ForwardPump]); credit per stream and one window per
        session bound what a peer can make the agent buffer ([FlowControl]);
      - the initiate side opens one session after another ([ForwardReconnect]) with the backoffs
        and the error classes of [Retry];
      - a session may serve tools and an operator's handler ([AgentTools], [ServiceHandler]), whose
        errors are redacted for the peer ([Redact]), or call those of its peer ([ServiceCalls]); one of
        the tools installs a signed manifest ([ManifestRun]) on which signed tasks run ([HarnessRun]);
      - grants are issued and withdrawn from the command line ([Grants], [GrantRevoke]) under the
        operator's login ([Login]);
      - on networks without UDP the transport runs in CONNECT-UDP capsules ([Masque]);
      - the process reports readiness ([Health]), drains when stopped ([Shutdown]) and may be
        restarted from outside ([Supervisor]).

    The same program also serves one Origin behind a public name or a tunnel.  It registers at the
    edge over QUIC ([EdgeWire]) and serves what arrives until the connection drops ([Agent]); where
    QUIC does not get through, a pool of workers ([FallbackPool]) parks TLS-TCP connections
    ([FallbackWorker]), each for one relayed client, and QUIC is probed until it may take over again.
    A relayed stream reaches the Origin raw, through the agent's own TLS and behind the owner's
    preamble ([Origin], [SshOwner]), in frames with keepalives ([FramedRelay]), or inside Noise behind
    the local gate ([LocalAuth], [ShareLinks]); clients may also come directly ([DirectConnect]), or over
    a relay in the same LAN ([SuperPeer]).  The identity it serves under is created, shared and rotated in
    files ([Capability]), its certificate is obtained and renewed over ACME ([AcmeCert], on [Acme] and
    [Dns01]), and it replaces its own binary with a verified one ([SelfUpdate]).  Operator events go to a
    ring of lines ([Events]).

    ** Files

    Shared:
      - [Prelude]: [Result] and [Poll], bytes and big-endian numbers, durations, sums over lists,
        the rewrite database [sums] and the tactics [sums], [total] and [fields];
      - [Text]: Rust's [str] at the level of UTF-8 bytes (trim, split, parse of integers,
        escapes); [Utf8]: cutting and repairing it; [Net]: std::net's textual addresses;
        [Json]: serde_json's values and accessors;
      - [Codec] (codec.rs): hexadecimal text, constant-time equality;
        [EnvFlag] (envflag.rs): the on/off switches, and the warning for anything else;
      - [Runtime]: tokio's semaphore and unbounded queue as type classes of operations
        ([SemaphoreOps], [QueueOps]) with the laws its documentation states ([SemaphoreLaws],
        [QueueLaws], the fairness [head_served]), and reference instances on which concrete inputs run;
      - [SecretFile] (secret_file.rs): a directory whose calls may fail and which may lose power, and
        [replace_atomically] on it; [DirOps]: two files replaced together; [AcmeWorld]: questions to the
        outside and their answers, as a trace.

    The channel TCP forward (channel_run/):
      - [ForwardWire] (forward_wire.rs): [Frame], [encode], [read];
      - [FlowControl] (forward_stream.rs): [Control] messages on stream 0, [StreamEntry],
        [deliver], [apply_control], [SessionRecv], [SessionSend], [SessionSending], [take_window];
      - [ForwardPump] (forward_stream.rs): [send_or_drop] and [pump_forward_stream]; the halves
        are [up_step] and [down_step], one step per await;
      - [ForwardLink], [CreditLink]: a sender and a receiver of [FlowControl] together with the
        frames in flight, as step relations [link_step] and [credit_step];
      - [ForwardPolicy] (forward.rs, forward_stream.rs): allowlists, canonical targets,
        [accept_forward_request_with], [parse_forward_spec], limits from the environment;
      - [ForwardEngine] (forward_stream.rs): [run_forward_accept_engine_with] and
        [run_forward_initiate_engine_with]; the loop state is [ForwardCommon] in [AcceptEngine] and
        [InitiateEngine], each branch of the [select!] is a definition, [env_step] is the
        writer, the pumps and their end; [EngineInv] proves the invariants and [EngineSafety]
        closes them under reachability;
      - [ForwardReconnect] (forward_stream.rs): [run_forward_initiate_reconnect_loop].

    Admission and its end (channel_run/):
      - [Retry] (reconnect.rs, errors.rs), [ServeLoop] (serving.rs), [PeerPin] (peer_pin.rs),
        [PeerGrant] (peer_grant.rs), [GrantWatch] (grant_watch.rs, grant_revoke.rs).

    The join and its session (channel_run/):
      - [JoinConfig] (join_config.rs): the settings, and the refresher of addresses as [join_event];
      - [Dialing] (dialing.rs): one dial, and [present_channel_join_via_ladder];
      - [ChannelJoin] (mod.rs): [run_channel_join_with_admission], the relay-only joins, the modes;
      - [Connectivity] (connectivity.rs): the relay leg and the race as step functions of their awaits,
        and [run_dcutr_join_loop]; [P2p] (p2p.rs): the drivers of a circuit and the hole punch;
      - [Session] (session.rs): [run_channel_session_on_stream] as a step function with the clock.

    What a channel serves and calls:
      - [ServiceHandler], [AgentTools], [ServiceCalls] (channel_run/service_calls.rs): a run of the
        handler, the tools and who may call them, the caller's side with its reconnect loop;
      - [Redact] (channel_run/redact.rs): [redact_secrets];
      - [ManifestRun] (manifest_run/mod.rs), [HarnessRun] (harness_run/mod.rs): [run_activate] on a disk,
        and the checks before a task runs.

    Commands of the operator: [CliConfig] (channel_run/cli_config.rs), [Grants]
    (channel_run/provisioning.rs), [GrantRevoke] (channel_run/grant_revoke.rs), [Login] (login.rs).

    Around it: [Masque] (masque/varint.rs, capsule.rs, socket.rs, mod.rs), [Health]
    (channel_run/health.rs), [Shutdown] (channel_run/shutdown.rs), [Supervisor]
    (bin/ct-agent-supervisor.rs).

    Serving an Origin:
      - [EdgeWire] (transport.rs): the registration messages and their acks, [await_ping_phase_end],
        the ClientHellos, [ClientConfigMemo] with the TLS sessions it keeps apart;
      - [FallbackWorker] (serve.rs, ladder.rs): [tcp_connect_register_serve] as a log of acts, the rungs,
        [run_worker]; [FallbackPool] (serve.rs): the pool's [select!] and the probes, one definition per
        branch; [Agent] (serve.rs, status.rs): [run_agent]'s loop and the status it reports;
      - [Origin] (serve.rs, config.rs): [DialTarget], [connect_origin], [OriginTerminator],
        [serve_duplex_to_origin]; [SshOwner] (ssh_owner.rs): the key file and both handshakes;
      - [FramedRelay] (serve.rs): [serve_framed_duplex_to_origin], its [up], [down] and [writer] blocks as
        states of their awaits;
      - [DirectConnect] (serve.rs): the direct listener and the token of its handshake;
      - [ShareLinks], [LocalAuth] (local_auth.rs, serve.rs): the links file and its operations; the
        credential, the limiter, the gate before the first byte, and the command line; [LinkRaces]: the
        operations of several processes on one links file, each a read and a write;
      - [SuperPeer] (super_peer.rs): the relay of datagrams, its map of clients and their return paths;
      - [Capability] (capability.rs): the serving identity over the directories of [SecretFile];
        [Events] (events.rs): lines, budgets and the ring file;
      - [Dns01] (dns01_authoritative.rs, dns01_propagation.rs), [Acme] (acme.rs, acme_jws.rs,
        acme_client.rs), [AcmeCert] (acme_orchestrate.rs): visibility of a record, the client and its
        orders, admission, renewal and installation; [AcmeSafety] and [AcmeCertSafety] hold the theorems;
      - [SelfUpdate] (self_update.rs): versions, provenance, download and installation.

    ** Conventions

    A [Result] is [result], an [Option] [option], a poll [Poll].  Machine integers are [Z]; a cast
    that can lose bits is [wrap], a saturating operation is written out, and where Rust would panic
    the definition answers so ([Panics], [Panicked], a [None] the doc comment names).  A [str] is the
    string of its UTF-8 bytes.  Durations and instants are nanoseconds, Unix times seconds.  An
    asynchronous function is a step function: its local variables and the await it stands at are
    the state, the answer of the world is the event.  [select!] is a choice of events, so every
    theorem about reachable states holds for every interleaving, whatever the scheduler prefers.

    Code outside the repository is a parameter with the laws its documentation states: tokio
    ([Runtime]), the signed grants of ct-common ([PeerGrant.GrantOps]), the random jitter
    ([Retry.Jitter]), ed25519, SHA-256, JSON and HTTP clients.  Each theorem that assumes such laws
    is also instantiated with a concrete implementation.

    ** What the theorems show

      - The engines (C1, C2): in every reachable state an accept engine has dialed nothing the policy
        refused, limits hold, ids are not reused, and the memory the peer can make it hold is bounded.
      - Flow control between honest ends (C3 to C6): neither the session window nor the credit of a
        stream is ever violated, whatever the interleaving, and when a sender waits there is always
        something in flight, or work left at the other end, that will wake it.
      - Bytes arrive as they were sent: the frame codec (C8), the capsules with the queue behind them
        (C9), the framed relay (C17); what must not be shown is masked, and nothing else (C26).
      - Who gets through: no byte before the peer's grant was verified (C7); what may be dialed (C11);
        when a session is ended (C12); the Origin behind TLS and an owner's key (C16); a revoked link
        (C18); the bridge's peer (C32); the peer of a session, attested, pinned and gated (C34).
      - Joins and sessions: slots and streaks of the serve loop (C10), the newest address (C33), the
        ladder (C39), the leg of a refused pairing (C35), the race (C37), the one-shot join (C38), the
        end of a failed session (C40).
      - Calls and installations: whose answer is printed (C27), where the installer runs and what it
        leaves (C28), on what a task may run (C29), callers of the login (C30) and its wait (C31).
      - Certificates: the CA validates only what was seen (C19), records are cleared (C20), every
        request is signed and fresh (C21), issuance ends (C22), key and chain change together (C23).
      - Files and updates: what a power loss leaves (C14), which binary may be installed (C13), the
        identity of the agent through a rotation (C24) and at its creation (C25).
      - The pool of fallback workers ends only for its cause (C15).

    Beside these the files prove what their components need of each other and further facts: both
    engines count as the abstract receiver does ([EngineSafety.engines_count_like_link]), the waits of
    every loop ([ForwardReconnect.forward_waits], [Retry.reconnect_policy_delays],
    [Agent.agent_keeps_trying]), the drain ([Shutdown.exit_status_honest], [Shutdown.drain_is_bounded]),
    the pin ([PeerPin.peer_pin_decides]), readiness ([Health.readiness_exact]), the supervisor
    ([Supervisor.supervisor_restarts]), the ring of events ([Events.ring_is_bounded_and_private]), the
    local gate ([LocalAuth.gate_lets_in_iff]), more round trips ([Masque.varint_roundtrip],
    [PeerPin.peer_pin_reads_back], [LocalAuth.credential_reads_back]).

    Some theorems show where the program does less than it says: C36, [ShareLinks.stale_write_unrevokes], [Capability.stale_capability_is_served],
    [Origin.move_is_missed_by_the_second], [Origin.renewal_during_load_is_missed],
    [Dialing.blocked_rung_hides_a_refusal], [Session.stalled_shutdown_holds_the_session],
    [ChannelJoin.gate_uses_the_address_untrimmed], [SuperPeer.idle_clock_ignores_the_client],
    [JoinConfig.confirmed_address_is_not_shared], [ManifestRun.fragment_hides_the_host],
    [HarnessRun.failed_bundle_marks_itself], [ServiceCalls.failing_attempts_lose_lines],
    [Redact.keyword_after_hex_leaks] and the ones near them.

    ** Bounds and fuel

    Loops that follow their data are structural.  Fuel appears where the source loops on a shrinking
    buffer or a counter: [Masque.take_capsules] and [ForwardWire.read_all] take the length of the
    buffer (each round consumes at least one byte, and the theorems show that this is enough),
    [EdgeWire.ping_loop] the length of the stream plus one, [ForwardEngine.free_id] the number of ids in
    use plus one ([EngineInv.free_id_total]), [FallbackPool.top_up_loop] the free slots, retry loops the
    attempts the source counts, and the drain the looks until its deadline
    ([Shutdown.drain_is_bounded]).  [Redact.redact_loop] takes the length of the text, the reads of
    [ServiceHandler] the length of what the pipe delivers, the waits of [Dns01] the rounds until their own
    deadline (C22 shows that they never run out).  Loops over what the world
    answers turn by turn ([Login], [Connectivity], [ServiceCalls], [Session]) run over the list of these
    answers; where they are proved to end the theorem says how many are enough.  The timers of ct-common
    ([FramedRelay]) are parameters, so its theorems hold for any values of them.

    ** What is not modelled

    The kernel's sockets, TLS, QUIC and HTTP (quinn, rustls, h2, reqwest), libp2p's swarms and DNS
    exchanges, and processes: they are I/O around the modelled decisions.  Of the command line the
    dispatch (main.rs), the SSH set-up (ssh_access.rs), sign-up, onboarding, diagnosis and the soak
    test are flows of prompts, files and requests and are left out, like the test certificate authority
    and the well-known files (acme_ca.rs, well_known.rs), the metrics listener (observe.rs) and the
    browser build.  What p2p.rs compiles for its tests only is left out.  Timing appears only as clock
    readings; panics of other crates and cancellation between awaits are not modelled, except where the
    source itself drops a future.  The hand-over of the pool ([FallbackPool.hand_over]) is one step.
    Logging text is modelled where it is an interface (events, excerpts, status lines) and left out
    elsewhere. *)
From stdpp Require Export base tactics list strings gmap relations pretty.
From Stdlib Require Export ZArith Lia.
From Stdlib Require Strings.Byte.

#[global] Set Default Goal Selector "1".
Declare Scope ct_scope.
Delimit Scope ct_scope with ct.
#[global] Open Scope Z_scope.

Notation byte := Byte.byte.

(** ** Results

    Rust's [Result<T, E>], with the monadic notation the models use. *)
Inductive result (A E : Type) : Type :=
| Ok (a : A)
| Err (e : E).
Arguments Ok {A E} a.
Arguments Err {A E} e.

Definition rbind {A B E} (r : result A E) (f : A -> result B E) : result B E :=
  match r with
  | Ok a => f a
  | Err e => Err e
  end.

Definition map_err {A E F} (f : E -> F) (r : result A E) : result A F :=
  match r with
  | Ok a => Ok a
  | Err e => Err (f e)
  end.

Definition is_ok {A E} (r : result A E) : bool :=
  match r with Ok _ => true | Err _ => false end.

Definition ok_or {A E} (o : option A) (e : E) : result A E :=
  match o with Some a => Ok a | None => Err e end.

Notation "'let*' x := c 'in' k" := (rbind c (fun x => k))
  (at level 200, x pattern, c at level 100, k at level 200, right associativity) : ct_scope.
Notation "'let?' x := c 'in' k" := (match c with Some x => k | None => None end)
  (at level 200, x pattern, c at level 100, k at level 200, right associativity) : ct_scope.
#[global] Open Scope ct_scope.

Lemma rbind_Ok {A B E} (r : result A E) (f : A -> result B E) b :
  rbind r f = Ok b <-> exists a, r = Ok a /\ f a = Ok b.
Proof. destruct r; simpl; split; [eauto| | |]; naive_solver. Qed.

(** [std::task::Poll]. *)
Inductive Poll (A : Type) : Type :=
| Ready (a : A)
| Pending.
Arguments Ready {A} a.
Arguments Pending {A}.

(** ** Bytes and machine integers *)

(** The value of a byte, and the truncating conversion [z as u8]. *)
Definition u8 (b : byte) : Z := Z.of_N (Byte.to_N b).
Definition to_u8 (z : Z) : byte :=
  match Byte.of_N (Z.to_N (z mod 256)) with
  | Some b => b
  | None => Byte.x00
  end.

Lemma u8_range b : 0 <= u8 b < 256.
Proof. unfold u8. pose proof (Byte.to_N_bounded b). lia. Qed.

Lemma u8_to_u8 z : u8 (to_u8 z) = z mod 256.
Proof.
  unfold u8, to_u8. pose proof (Z.mod_pos_bound z 256 ltac:(lia)).
  destruct (Byte.of_N (Z.to_N (z mod 256))) as [b|] eqn:E.
  - apply Byte.to_of_N in E. rewrite E. lia.
  - apply Byte.of_N_None_iff in E. lia.
Qed.

Lemma u8_inj a b : u8 a = u8 b -> a = b.
Proof.
  unfold u8. intros H. apply N2Z.inj in H.
  pose proof (Byte.of_to_N a) as Ha. pose proof (Byte.of_to_N b) as Hb.
  rewrite H in Ha. congruence.
Qed.

Lemma to_u8_u8 b : to_u8 (u8 b) = b.
Proof. apply u8_inj. rewrite u8_to_u8. apply Z.mod_small, u8_range. Qed.

#[global] Instance byte_eq_dec : EqDecision byte := Byte.byte_eq_dec.

(** Machine-width truncation: [z as uN]. *)
Definition wrap (w z : Z) : Z := z mod 2 ^ w.
Definition U16_MAX : Z := 65535.
Definition U32_MAX : Z := 4294967295.
Definition U64_MAX : Z := 18446744073709551615.

(** Durations and instants are nanoseconds. *)
Definition MILLI : Z := 1000000.
Definition SECOND : Z := 1000000000.

(** [Instant]: seconds in an [i64]; [Instant::checked_add]. *)
Definition INSTANT_MAX : Z := (2 ^ 63 - 1) * SECOND + (SECOND - 1).
Definition checked_add_instant (i d : Z) : option Z :=
  if i + d <=? INSTANT_MAX then Some (i + d) else None.

(** The length of a vector, slice or string as a [usize]. *)
Notation Zlen l := (Z.of_nat (length l)).
Definition str_len (s : string) : Z := Z.of_nat (String.length s).

(** [saturating_sub] on unsigned integers. *)
Definition sat_sub (a b : Z) : Z := Z.max 0 (a - b).
(** [saturating_add] on [u64]. *)
Definition sat_add64 (a b : Z) : Z := Z.min U64_MAX (a + b).

(** ** Big- and little-endian byte strings *)

(** [to_be_bytes] of an unsigned integer of [n] bytes. *)
Fixpoint be_bytes (n : nat) (z : Z) : list byte :=
  match n with
  | O => []
  | S k => to_u8 (Z.shiftr z (8 * Z.of_nat k)) :: be_bytes k z
  end.

(** [from_be_bytes]. *)
Definition be_value (l : list byte) : Z :=
  fold_left (fun acc b => acc * 256 + u8 b) l 0.

(** [to_le_bytes]. *)
Definition le_bytes (n : nat) (z : Z) : list byte := reverse (be_bytes n z).

Lemma length_be_bytes n z : length (be_bytes n z) = n.
Proof. induction n; simpl; auto. Qed.

Lemma fold_be_shift l acc :
  fold_left (fun acc b => acc * 256 + u8 b) l acc = acc * 256 ^ Zlen l + be_value l.
Proof.
  unfold be_value. revert acc. induction l as [|b l IH]; intros acc.
  - simpl. lia.
  - cbn [fold_left length]. rewrite IH, (IH (0 * 256 + u8 b)).
    rewrite Nat2Z.inj_succ, Z.pow_succ_r by lia. ring.
Qed.

Lemma be_value_cons b l : be_value (b :: l) = u8 b * 256 ^ Zlen l + be_value l.
Proof.
  transitivity (fold_left (fun acc b => acc * 256 + u8 b) l (0 * 256 + u8 b)); [done|].
  rewrite fold_be_shift. lia.
Qed.

Lemma be_value_range l : 0 <= be_value l < 256 ^ Zlen l.
Proof.
  induction l as [|b l IH]; [unfold be_value; simpl; lia|].
  rewrite be_value_cons. simpl length. rewrite Nat2Z.inj_succ, Z.pow_succ_r by lia.
  pose proof (u8_range b). nia.
Qed.

Lemma be_value_be_bytes n z : be_value (be_bytes n z) = z mod 256 ^ Z.of_nat n.
Proof.
  induction n as [|n IH]; [unfold be_value; simpl; by rewrite Z.mod_1_r|].
  cbn [be_bytes]. rewrite be_value_cons, IH, length_be_bytes, u8_to_u8.
  rewrite Z.shiftr_div_pow2 by lia.
  replace (2 ^ (8 * Z.of_nat n)) with (256 ^ Z.of_nat n)
    by (rewrite Z.pow_mul_r by lia; reflexivity).
  rewrite Nat2Z.inj_succ, Z.pow_succ_r by lia.
  rewrite (Z.mul_comm 256 (256 ^ Z.of_nat n)).
  rewrite Z.rem_mul_r by lia. lia.
Qed.

Lemma be_value_be_bytes_small n z :
  0 <= z < 256 ^ Z.of_nat n -> be_value (be_bytes n z) = z.
Proof. intros. rewrite be_value_be_bytes. by apply Z.mod_small. Qed.

Lemma be_value_inj a b : length a = length b -> be_value a = be_value b -> a = b.
Proof.
  revert b. induction a as [|x a IH]; intros [|y b] Hl Hv; try done.
  simpl in Hl. injection Hl as Hl.
  rewrite !be_value_cons, Hl in Hv.
  pose proof (be_value_range a) as Ha. pose proof (be_value_range b) as Hb. rewrite Hl in Ha.
  assert (0 < 256 ^ Zlen b) by (apply Z.pow_pos_nonneg; lia).
  assert (u8 x = u8 y) as Hxy by nia.
  f_equal; [by apply u8_inj|]. apply IH; [done|]. rewrite Hxy in Hv. lia.
Qed.

Lemma be_bytes_be_value l : be_bytes (length l) (be_value l) = l.
Proof.
  apply be_value_inj; [apply length_be_bytes|].
  rewrite be_value_be_bytes. apply Z.mod_small, be_value_range.
Qed.
Lemma be_value_single b : be_value [b] = u8 b.
Proof. unfold be_value. simpl. lia. Qed.

Lemma be_bytes_single z : be_bytes 1 z = [to_u8 z].
Proof. simpl. by rewrite Z.shiftr_0_r. Qed.

(** Setting low bits that are clear is an addition. *)
Lemma lor_low a b n : 0 <= n -> 0 <= b < 2 ^ n -> Z.lor (a * 2 ^ n) b = a * 2 ^ n + b.
Proof.
  intros Hn Hb. symmetry. apply Z.add_nocarry_lor. apply Z.bits_inj'. intros i Hi.
  rewrite Z.land_spec, Z.bits_0. destruct (Z.lt_ge_cases i n) as [Hlt|Hge].
  - by rewrite Z.mul_pow2_bits_low by lia.
  - rewrite andb_comm. destruct (Z.eq_dec b 0) as [->|Hne]; [by rewrite Z.bits_0|].
    rewrite (Z.bits_above_log2 b i); [done|lia|].
    apply Z.lt_le_trans with n; [|done]. apply Z.log2_lt_pow2; lia.
Qed.

#[global] Opaque be_bytes be_value.

(** ** Positions in a list *)

Lemma split_at {A} (b rest l1 l2 : list A) x : b ++ rest = l1 ++ x :: l2 ->
  (exists k, b = l1 ++ x :: k /\ l2 = k ++ rest) \/ exists k, l1 = b ++ k /\ rest = k ++ x :: l2.
Proof.
  intros [(k & -> & E)|(k & -> & E)]%app_eq_inv; [|right; by exists k].
  destruct k as [|y k]; [right; exists []; by rewrite !app_nil_r|]. injection E as <- ->. left. by exists k.
Qed.

(** ** Sums over lists *)

Definition sum_of {A} (f : A -> Z) (l : list A) : Z := foldr (fun x n => f x + n) 0 l.

Lemma sum_of_nil {A} (f : A -> Z) : sum_of f [] = 0.
Proof. done. Qed.

Lemma sum_of_cons {A} (f : A -> Z) x l : sum_of f (x :: l) = f x + sum_of f l.
Proof. done. Qed.

Lemma sum_of_app {A} (f : A -> Z) l1 l2 : sum_of f (l1 ++ l2) = sum_of f l1 + sum_of f l2.
Proof. induction l1 as [|x l1 IH]; simpl; [done|]. unfold sum_of in *. simpl. lia. Qed.

Lemma sum_of_nonneg {A} (g : A -> Z) l : Forall (fun x => 0 <= g x) l -> 0 <= sum_of g l.
Proof. unfold sum_of. induction 1; simpl; lia. Qed.

#[global] Arguments sum_of : simpl never.

(** ** Searching a list

    [iter_mut().find(..)]: the first element that satisfies [f], with what stands before and
    after it. *)
Fixpoint find_mut {A} (f : A -> bool) (l : list A) : option (list A * A * list A) :=
  match l with
  | [] => None
  | x :: l =>
      if f x then Some ([], x, l)
      else let? (before, y, after) := find_mut f l in Some (x :: before, y, after)
  end.

Lemma find_mut_Some {A} (f : A -> bool) l b x a :
  find_mut f l = Some (b, x, a) <-> l = b ++ x :: a /\ f x = true /\ forallb (fun y => negb (f y)) b = true.
Proof.
  revert b. induction l as [|y l IH]; intros b; simpl.
  { split; [done|]. intros [E _]. by destruct b. }
  destruct (f y) eqn:Ey.
  - split; [intros [= <- <- <-]; done|]. intros (E & Hx & Hb).
    destruct b as [|z b]; simplify_eq/=; [done|]. by rewrite Ey in Hb.
  - split.
    + destruct (find_mut f l) as [[[b' y'] a']|] eqn:Ef; [|done]. intros [= <- -> ->].
      destruct (proj1 (IH b') eq_refl) as (-> & Hx & Hb). simpl. by rewrite Ey, Hb.
    + intros (E & Hx & Hb). destruct b as [|z b]; simplify_eq/=; [congruence|].
      apply andb_true_iff in Hb as [_ Hb]. by rewrite (proj2 (IH b)).
Qed.

Lemma find_mut_None {A} (f : A -> bool) l : find_mut f l = None <-> forall x, x ∈ l -> f x = false.
Proof.
  induction l as [|y l IH]; simpl; [split; [intros _ x Hx; by apply not_elem_of_nil in Hx|done]|].
  destruct (f y) eqn:Ey.
  - split; [done|]. intros Hf. rewrite (Hf y) in Ey; [done|left].
  - destruct (find_mut f l) as [[[b z] a]|].
    + split; [done|]. intros Hf. discriminate (proj2 IH). intros x Hx. apply Hf. by right.
    + split; [|done]. intros _ x [->|Hx]%elem_of_cons; [done|]. by apply IH.
Qed.

(** The last element of a list that satisfies something, when the list grows. *)
Lemma snoc_split {A} (Q : A -> Prop) (P : list A -> A -> Prop) h r :
  (exists before x after, h ++ [r] = before ++ x :: after /\ Forall Q after /\ P before x) <->
  P h r \/ Q r /\ exists before x after, h = before ++ x :: after /\ Forall Q after /\ P before x.
Proof.
  split.
  - intros (b & x & a & E & Ha & HP). destruct a as [|y a _] using rev_ind.
    + apply app_inj_tail in E as [-> ->]. by left.
    + rewrite app_comm_cons, app_assoc in E. apply app_inj_tail in E as [-> ->].
      apply Forall_app in Ha as [Ha Hx]. right. split; [by apply Forall_singleton|]. by exists b, x, a.
  - intros [HP|(Hr & b & x & a & -> & Ha & HP)]; [by exists h, r, []|].
    exists b, x, (a ++ [r]). split; [by rewrite <-app_assoc|]. split; [|done]. apply Forall_app. split; [done|].
    by apply Forall_singleton.
Qed.

(** ** Automation

    [sums] normalizes sums over lists, goal and hypotheses, and [total] closes the accounting goals
    of the two link models: a sum that changed in one place, or an equation that holds as long as a
    condition does.  [fields] opens the proof that a record of invariants is kept. *)
Create HintDb sums.
#[export] Hint Rewrite @sum_of_nil @sum_of_cons @sum_of_app : sums.


Ltac sums := repeat (progress (autorewrite with sums in *; simpl in * )).

Ltac total :=
  sums;
  lazymatch goal with
  | |- _ /\ _ => split; total
  | |- ?a = ?b -> _ =>
      let Hc := fresh in intros Hc;
      repeat match goal with H : ?c = ?d -> _ |- _ => specialize (H ltac:(first [exact Hc | congruence])) end;
      lia
  | |- _ => lia
  end.

Ltac fields := split; simpl; try done.
