(* ===== verification/Text.v ===== *)
(** * Text: the operations of Rust's [str] the agent uses

    A Rust [str] is modelled by Rocq's [string], read as its UTF-8 bytes, so [str_len] is
    [str::len].  The functions below are the standard library's, at the level of bytes; where a
    method works on characters ([trim], [chars]) the UTF-8 encodings are written out. *)
From S2P Require Import Prelude.
From Stdlib Require Export Strings.Ascii.
From Stdlib Require Strings.String Strings.Byte.

#[local] Open Scope Z_scope.

Definition code (c : ascii) : Z := Z.of_N (N_of_ascii c).
Definition between (lo x hi : Z) : bool := (lo <=? x) && (x <=? hi).

Lemma between_spec lo x hi : between lo x hi = true <-> lo <= x <= hi.
Proof. unfold between. rewrite andb_true_iff, !Z.leb_le. done. Qed.

Definition is_ascii_digit (c : ascii) : bool := between 48 (code c) 57.
Definition is_ascii_upper (c : ascii) : bool := between 65 (code c) 90.
Definition is_ascii_lower (c : ascii) : bool := between 97 (code c) 122.
Definition is_ascii_alphanumeric (c : ascii) : bool :=
  is_ascii_digit c || is_ascii_upper c || is_ascii_lower c.
Definition is_ascii_hexdigit (c : ascii) : bool :=
  is_ascii_digit c || between 65 (code c) 70 || between 97 (code c) 102.

(** [u8::to_ascii_lowercase], [str::to_ascii_lowercase], [str::eq_ignore_ascii_case]. *)
Definition ascii_lower (c : ascii) : ascii :=
  if is_ascii_upper c then ascii_of_N (Z.to_N (code c + 32)) else c.
Fixpoint to_ascii_lowercase (s : string) : string :=
  match s with
  | EmptyString => EmptyString
  | String c s => String (ascii_lower c) (to_ascii_lowercase s)
  end.
Definition eq_ignore_ascii_case (a b : string) : bool :=
  String.eqb (to_ascii_lowercase a) (to_ascii_lowercase b).

(** [char::is_whitespace], by its UTF-8 encodings of one, two and three bytes. *)
Definition ws1 (a : ascii) : bool := between 9 (code a) 13 || (code a =? 32).
Definition ws2 (a b : ascii) : bool := (code a =? 194) && ((code b =? 133) || (code b =? 160)).
Definition ws3 (a b c : ascii) : bool :=
  ((code a =? 225) && (code b =? 154) && (code c =? 128))
  || ((code a =? 226) && (code b =? 128) &&
      (between 128 (code c) 138 || (code c =? 168) || (code c =? 169) || (code c =? 175)))
  || ((code a =? 226) && (code b =? 129) && (code c =? 159))
  || ((code a =? 227) && (code b =? 128) && (code c =? 128)).

Fixpoint trim_start_l (s : list ascii) : list ascii :=
  match s with
  | [] => []
  | a :: s1 =>
      if ws1 a then trim_start_l s1
      else match s1 with
           | [] => s
           | b :: s2 =>
               if ws2 a b then trim_start_l s2
               else match s2 with
                    | [] => s
                    | c :: s3 => if ws3 a b c then trim_start_l s3 else s
                    end
           end
  end.
(** The same on a reversed string: a trailing character's bytes come last byte first. *)
Fixpoint trim_end_l (s : list ascii) : list ascii :=
  match s with
  | [] => []
  | a :: s1 =>
      if ws1 a then trim_end_l s1
      else match s1 with
           | [] => s
           | b :: s2 =>
               if ws2 b a then trim_end_l s2
               else match s2 with
                    | [] => s
                    | c :: s3 => if ws3 c b a then trim_end_l s3 else s
                    end
           end
  end.
Definition trim (s : string) : string :=
  String.string_of_list_ascii
    (reverse (trim_end_l (reverse (trim_start_l (String.list_ascii_of_string s))))).

Definition is_empty (s : string) : bool := String.eqb s "".

(** [str::strip_prefix]; [str::split_once], [str::rsplit_once] and [str::split] on one ASCII
    character. *)
Fixpoint strip_prefix (p s : string) : option string :=
  match p, s with
  | EmptyString, _ => Some s
  | String a p, String b s => if Ascii.eqb a b then strip_prefix p s else None
  | String _ _, EmptyString => None
  end.
Fixpoint split_once (c : ascii) (s : string) : option (string * string) :=
  match s with
  | EmptyString => None
  | String a s =>
      if Ascii.eqb a c then Some (EmptyString, s)
      else match split_once c s with
           | Some (x, y) => Some (String a x, y)
           | None => None
           end
  end.
Fixpoint rsplit_once (c : ascii) (s : string) : option (string * string) :=
  match s with
  | EmptyString => None
  | String a s' =>
      match rsplit_once c s' with
      | Some (x, y) => Some (String a x, y)
      | None => if Ascii.eqb a c then Some (EmptyString, s') else None
      end
  end.
Fixpoint split_char (c : ascii) (s : string) : list string :=
  match s with
  | EmptyString => [EmptyString]
  | String a s =>
      if Ascii.eqb a c then EmptyString :: split_char c s
      else match split_char c s with
           | x :: xs => String a x :: xs
           | [] => [String a EmptyString]
           end
  end.
Fixpoint contains_char (c : ascii) (s : string) : bool :=
  match s with
  | EmptyString => false
  | String a s => Ascii.eqb a c || contains_char c s
  end.
(** [str::contains] on a string. *)
Fixpoint contains (p s : string) : bool :=
  match strip_prefix p s with
  | Some _ => true
  | None => match s with EmptyString => false | String _ s => contains p s end
  end.
Definition forall_char (f : ascii -> bool) (s : string) : bool :=
  forallb f (String.list_ascii_of_string s).

(** [str::parse] to an unsigned integer of maximum [max]: an optional [+], then one or more
    digits, an error on overflow. *)
Fixpoint digits_value (s : list ascii) (acc : Z) : option Z :=
  match s with
  | [] => Some acc
  | c :: s => if is_ascii_digit c then digits_value s (acc * 10 + (code c - 48)) else None
  end.
Definition parse_uint (max : Z) (s : string) : option Z :=
  let digits :=
    match String.list_ascii_of_string s with
    | c :: rest => if (code c =? 43) then rest else c :: rest
    | [] => []
    end in
  match digits with
  | [] => None
  | _ => match digits_value digits 0 with
         | Some v => if v <=? max then Some v else None
         | None => None
         end
  end.

(** [char::is_char_boundary] for an index inside the string, and [chars().take(n)]. *)
Definition is_continuation (c : ascii) : bool := between 128 (code c) 191.
Fixpoint take_chars_l (n : nat) (s : list ascii) : list ascii :=
  match s with
  | [] => []
  | c :: s =>
      if is_continuation c then c :: take_chars_l n s
      else match n with
           | O => []
           | S n => c :: take_chars_l n s
           end
  end.
Definition take_chars (n : nat) (s : string) : string :=
  String.string_of_list_ascii (take_chars_l n (String.list_ascii_of_string s)).

(** [String::from_utf8]: well-formed UTF-8 (no overlong form, no surrogate, at most U+10FFFF). *)
Fixpoint utf8_valid (l : list byte) : bool :=
  match l with
  | [] => true
  | a :: l1 =>
      let a := u8 a in
      if a <=? 127 then utf8_valid l1
      else match l1 with
           | [] => false
           | b :: l2 =>
               let b := u8 b in
               if between 194 a 223 then between 128 b 191 && utf8_valid l2
               else match l2 with
                    | [] => false
                    | c :: l3 =>
                        let c := u8 c in
                        if between 224 a 239 then
                          (if a =? 224 then between 160 b 191
                           else if a =? 237 then between 128 b 159
                           else between 128 b 191)
                          && between 128 c 191 && utf8_valid l3
                        else match l3 with
                             | [] => false
                             | d :: l4 =>
                                 between 240 a 244
                                 && (if a =? 240 then between 144 b 191
                                     else if a =? 244 then between 128 b 143
                                     else between 128 b 191)
                                 && between 128 c 191 && between 128 (u8 d) 191
                                 && utf8_valid l4
                             end
                    end
           end
  end.
Definition as_bytes (s : string) : list byte := String.list_byte_of_string s.
Lemma as_bytes_inj s t : as_bytes s = as_bytes t -> s = t.
Proof. intros E. rewrite <-(String.string_of_list_byte_of_string s), <-(String.string_of_list_byte_of_string t). by f_equal. Qed.
Definition str_ok (s : string) : Prop := utf8_valid (as_bytes s) = true.

(** [str::lines]: the lines without their [\n] or [\r\n]. *)
Definition strip_cr (s : string) : string :=
  match rsplit_once "013" s with Some (x, EmptyString) => x | _ => s end.
Definition lines (s : string) : list string :=
  match reverse (split_char "010" s) with
  | last :: init =>
      map strip_cr (reverse init) ++ (if is_empty last then [] else [last])
  | [] => []
  end.
(** [str::trim_end]. *)
Definition trim_end (s : string) : string :=
  String.string_of_list_ascii (reverse (trim_end_l (reverse (String.list_ascii_of_string s)))).

(** [format!("{n}")] of an unsigned integer. *)
Definition show (z : Z) : string := pretty z.

(** ** Lemmas *)

Lemma as_bytes_length s : length (as_bytes s) = String.length s.
Proof.
  unfold as_bytes, String.list_byte_of_string. rewrite length_map.
  induction s; simpl; congruence.
Qed.

Lemma code_range c : 0 <= code c < 256.
Proof. unfold code. pose proof (N_ascii_bounded c). lia. Qed.

Lemma code_inj a b : code a = code b -> a = b.
Proof.
  unfold code. intros H. apply N2Z.inj in H.
  rewrite <-(ascii_N_embedding a), <-(ascii_N_embedding b). congruence.
Qed.

Lemma code_ascii_of z : 0 <= z < 256 -> code (ascii_of_N (Z.to_N z)) = z.
Proof. intros. unfold code. rewrite N_ascii_embedding; lia. Qed.

Lemma code_ascii_lower c :
  code (ascii_lower c) = if is_ascii_upper c then code c + 32 else code c.
Proof.
  unfold ascii_lower. destruct (is_ascii_upper c) eqn:E; [|done].
  apply between_spec in E. apply code_ascii_of. lia.
Qed.

Lemma ascii_lower_idem c : ascii_lower (ascii_lower c) = ascii_lower c.
Proof.
  unfold ascii_lower at 1. destruct (is_ascii_upper (ascii_lower c)) eqn:E; [|done].
  apply between_spec in E. rewrite code_ascii_lower in E.
  destruct (is_ascii_upper c) eqn:E2.
  - apply between_spec in E2. lia.
  - assert (is_ascii_upper c = true) by (apply between_spec; lia). congruence.
Qed.

Lemma to_ascii_lowercase_idem s :
  to_ascii_lowercase (to_ascii_lowercase s) = to_ascii_lowercase s.
Proof. induction s; simpl; [done|]. by rewrite ascii_lower_idem, IHs. Qed.

Lemma to_ascii_lowercase_length s :
  String.length (to_ascii_lowercase s) = String.length s.
Proof. induction s; simpl; congruence. Qed.

Lemma string_app_assoc (a b c : string) : ((a +:+ b) +:+ c = a +:+ (b +:+ c))%string.
Proof.
  induction a as [|x a IH]; [done|].
  change (String x ((a +:+ b) +:+ c) = String x (a +:+ (b +:+ c)))%string. by rewrite IH.
Qed.

Lemma string_app_nil_r (a : string) : (a +:+ "" = a)%string.
Proof. induction a as [|x a IH]; [done|]. change (String x (a +:+ "") = String x a)%string. by rewrite IH. Qed.

Lemma length_append (a b : string) : String.length (a +:+ b) = (String.length a + String.length b)%nat.
Proof.
  induction a as [|x a IH]; [done|]. change (String x a +:+ b) with (String x (a +:+ b)). simpl. by rewrite IH.
Qed.

Lemma split_once_spec c s x y :
  split_once c s = Some (x, y) ->
  s = (x +:+ String c y)%string /\ contains_char c x = false.
Proof.
  revert x y. induction s as [|a s IH]; intros x y; simpl; [done|].
  destruct (Ascii.eqb_spec a c) as [->|Hne]; [intros [= <- <-]; done|].
  destruct (split_once c s) as [[x' y']|]; [|done]. intros [= <- <-].
  destruct (IH x' y' eq_refl) as [-> Hx]. simpl. rewrite Hx.
  split; [done|]. by destruct (Ascii.eqb_spec a c).
Qed.

Lemma split_once_app c x y :
  contains_char c x = false -> split_once c (x +:+ String c y) = Some (x, y).
Proof.
  induction x as [|a x IH]; simpl; intros H.
  - unfold String.append. simpl. by rewrite Ascii.eqb_refl.
  - apply orb_false_iff in H as [Ha Hx].
    change ((String a x +:+ String c y)) with (String a (x +:+ String c y)). simpl.
    by rewrite Ha, (IH Hx).
Qed.

Lemma rsplit_once_none c s : contains_char c s = false -> rsplit_once c s = None.
Proof.
  induction s as [|a s IH]; simpl; [done|]. intros [Ha Hs]%orb_false_iff.
  by rewrite (IH Hs), Ha.
Qed.

Lemma rsplit_once_app c x y :
  contains_char c y = false -> rsplit_once c (x +:+ String c y) = Some (x, y).
Proof.
  intros Hy. induction x as [|a x IH].
  - unfold String.append. simpl. by rewrite (rsplit_once_none _ _ Hy), Ascii.eqb_refl.
  - change ((String a x +:+ String c y)) with (String a (x +:+ String c y)). simpl. by rewrite IH.
Qed.

Lemma strip_prefix_spec p s r : strip_prefix p s = Some r <-> s = (p +:+ r)%string.
Proof.
  revert s. induction p as [|a p IH]; intros s; simpl.
  - unfold String.append. naive_solver.
  - change (String a p +:+ r) with (String a (p +:+ r)).
    destruct s as [|b s]; [naive_solver|].
    destruct (Ascii.eqb_spec a b) as [->|Hne]; [|naive_solver].
    rewrite IH. naive_solver.
Qed.

(** [contains] finds exactly the substrings. *)
Lemma contains_spec p s : contains p s = true <-> exists x y, s = (x +:+ p +:+ y)%string.
Proof.
  split.
  - induction s as [|a s IH]; simpl; (destruct (strip_prefix p _) as [r|] eqn:E).
    1,3: intros _; exists "", r; by apply strip_prefix_spec in E.
    + done.
    + intros (x & y & ->)%IH. by exists (String a x), y.
  - intros (x & y & ->). induction x as [|a x IH].
    + change ("" +:+ p +:+ y) with (p +:+ y).
      assert (strip_prefix p (p +:+ y) = Some y) as E by by apply strip_prefix_spec.
      destruct (p +:+ y); simpl; by rewrite E.
    + change (String a x +:+ p +:+ y) with (String a (x +:+ p +:+ y)). simpl.
      by destruct (strip_prefix p _).
Qed.

Lemma split_char_nonempty c s : split_char c s <> [].
Proof. destruct s as [|a s]; simpl; [done|]. destruct (Ascii.eqb a c); [done|]. by destruct (split_char c s). Qed.

Lemma parse_uint_range max s v : parse_uint max s = Some v -> 0 <= v <= max.
Proof.
  unfold parse_uint.
  assert (forall l acc v, 0 <= acc -> digits_value l acc = Some v -> 0 <= v) as Hpos.
  { induction l as [|c l IH]; intros acc w Hacc; simpl; [by intros [= <-]|].
    destruct (is_ascii_digit c) eqn:E; [|done]. apply between_spec in E.
    apply IH. lia. }
  destruct (match String.list_ascii_of_string s with [] => [] | _ => _ end) as [|d ds] eqn:E; [done|].
  destruct (digits_value (d :: ds) 0) as [w|] eqn:Ew; [|done].
  destruct (Z.leb_spec w max); [|done]. intros [= <-]. split; [|done].
  eapply Hpos; [|exact Ew]. lia.
Qed.

(** A character in the value of [trim] is never dropped by trimming again: the first character
    left by [trim_start_l] is not whitespace. *)
Lemma trim_start_l_idem l : trim_start_l (trim_start_l l) = trim_start_l l.
Proof.
  remember (length l) as n eqn:Hn. revert l Hn.
  induction n as [n IH] using lt_wf_ind. intros l ->.
  destruct l as [|a [|b [|c l]]]; simpl; [done| | |].
  - destruct (ws1 a) eqn:E; simpl; rewrite ?E; done.
  - destruct (ws1 a) eqn:E; [exact (IH 1%nat ltac:(simpl; lia) [b] eq_refl)|].
    destruct (ws2 a b) eqn:E2; [done|]. simpl. by rewrite E, E2.
  - destruct (ws1 a) eqn:E; [exact (IH (S (S (length l))) ltac:(simpl; lia) (b :: c :: l) eq_refl)|].
    destruct (ws2 a b) eqn:E2; [exact (IH (S (length l)) ltac:(simpl; lia) (c :: l) eq_refl)|].
    destruct (ws3 a b c) eqn:E3; [exact (IH (length l) ltac:(simpl; lia) l eq_refl)|].
    simpl. by rewrite E, E2, E3.
Qed.

Lemma trim_end_l_idem l : trim_end_l (trim_end_l l) = trim_end_l l.
Proof.
  remember (length l) as n eqn:Hn. revert l Hn.
  induction n as [n IH] using lt_wf_ind. intros l ->.
  destruct l as [|a [|b [|c l]]]; simpl; [done| | |].
  - destruct (ws1 a) eqn:E; simpl; rewrite ?E; done.
  - destruct (ws1 a) eqn:E; [exact (IH 1%nat ltac:(simpl; lia) [b] eq_refl)|].
    destruct (ws2 b a) eqn:E2; [done|]. simpl. by rewrite E, E2.
  - destruct (ws1 a) eqn:E; [exact (IH (S (S (length l))) ltac:(simpl; lia) (b :: c :: l) eq_refl)|].
    destruct (ws2 b a) eqn:E2; [exact (IH (S (length l)) ltac:(simpl; lia) (c :: l) eq_refl)|].
    destruct (ws3 c b a) eqn:E3; [exact (IH (length l) ltac:(simpl; lia) l eq_refl)|].
    simpl. by rewrite E, E2, E3.
Qed.

(** Both trims drop something at the front of what they get, so a prefix of a trimmed text is
    trimmed as well, and trimming twice is trimming once. *)
Lemma trim_start_l_suffix l : exists k, trim_start_l l = drop k l.
Proof.
  remember (length l) as n eqn:Hn. revert l Hn.
  induction n as [n IH] using lt_wf_ind. intros l ->.
  assert (forall j l', (0 < j)%nat -> drop j l = l' -> (j <= length l)%nat -> exists k, trim_start_l l' = drop k l) as Hd.
  { intros j l' Hj <- Hl. destruct (IH (length (drop j l)) ltac:(rewrite length_drop; lia) _ eq_refl) as [k ->]. exists (j + k)%nat. by rewrite drop_drop. }
  destruct l as [|a s1]; [by exists 0%nat|].
  assert (trim_start_l (a :: s1) = if ws1 a then trim_start_l s1 else match s1 with
            [] => a :: s1 | b :: s2 => if ws2 a b then trim_start_l s2 else match s2 with [] => a :: s1 | c :: s3 => if ws3 a b c then trim_start_l s3 else a :: s1 end end) as -> by done.
  destruct (ws1 a); [by apply (Hd 1%nat); [lia|..|cbn; lia]|]. destruct s1 as [|b s2]; [by exists 0%nat|].
  destruct (ws2 a b); [by apply (Hd 2%nat); [lia|..|cbn; lia]|]. destruct s2 as [|c s3]; [by exists 0%nat|].
  destruct (ws3 a b c); [by apply (Hd 3%nat); [lia|..|cbn; lia]|by exists 0%nat].
Qed.
Lemma trim_end_l_suffix l : exists k, trim_end_l l = drop k l.
Proof.
  remember (length l) as n eqn:Hn. revert l Hn.
  induction n as [n IH] using lt_wf_ind. intros l ->.
  assert (forall j l', (0 < j)%nat -> drop j l = l' -> (j <= length l)%nat -> exists k, trim_end_l l' = drop k l) as Hd.
  { intros j l' Hj <- Hl. destruct (IH (length (drop j l)) ltac:(rewrite length_drop; lia) _ eq_refl) as [k ->]. exists (j + k)%nat. by rewrite drop_drop. }
  destruct l as [|a s1]; [by exists 0%nat|].
  assert (trim_end_l (a :: s1) = if ws1 a then trim_end_l s1 else match s1 with
            [] => a :: s1 | b :: s2 => if ws2 b a then trim_end_l s2 else match s2 with [] => a :: s1 | c :: s3 => if ws3 c b a then trim_end_l s3 else a :: s1 end end) as -> by done.
  destruct (ws1 a); [by apply (Hd 1%nat); [lia|..|cbn; lia]|]. destruct s1 as [|b s2]; [by exists 0%nat|].
  destruct (ws2 b a); [by apply (Hd 2%nat); [lia|..|cbn; lia]|]. destruct s2 as [|c s3]; [by exists 0%nat|].
  destruct (ws3 c b a); [by apply (Hd 3%nat); [lia|..|cbn; lia]|by exists 0%nat].
Qed.
Lemma trim_start_l_prefix p q : trim_start_l (p ++ q) = p ++ q -> trim_start_l p = p.
Proof.
  assert (forall l l' : list ascii, (length l < length l')%nat -> trim_start_l l = l' -> False) as Hs.
  { intros l l' Hlt Hl. destruct (trim_start_l_suffix l) as [k Hk]. apply (f_equal length) in Hk. rewrite Hl, length_drop in Hk. lia. }
  assert (forall a s1, trim_start_l (a :: s1) = if ws1 a then trim_start_l s1 else match s1 with
            [] => a :: s1 | b :: s2 => if ws2 a b then trim_start_l s2 else match s2 with [] => a :: s1 | c :: s3 => if ws3 a b c then trim_start_l s3 else a :: s1 end end) as Hc by done.
  destruct p as [|a p1]; [done|]. cbn [app]. rewrite !Hc. destruct (ws1 a); [intros Hq; exfalso; eapply Hs; [|exact Hq]; cbn; lia|].
  destruct p1 as [|b p2]; [done|]. cbn [app]. destruct (ws2 a b); [intros Hq; exfalso; eapply Hs; [|exact Hq]; cbn; lia|].
  destruct p2 as [|c p3]; [done|]. cbn [app]. destruct (ws3 a b c); [intros Hq; exfalso; eapply Hs; [|exact Hq]; cbn; lia|done].
Qed.

(** *** Text of visible ASCII *)

Definition visible (c : ascii) : bool := between 33 (code c) 126.

Lemma visible_not_ws a : visible a = true -> ws1 a = false /\ (forall b, ws2 a b = false) /\ (forall b, ws2 b a = false) /\
  (forall b c, ws3 a b c = false) /\ forall b c, ws3 c b a = false.
Proof.
  intros Hv. apply between_spec in Hv. split_and!.
  - apply not_true_iff_false. unfold ws1. rewrite orb_true_iff, between_spec, Z.eqb_eq. lia.
  - intros b. unfold ws2. rewrite (proj2 (Z.eqb_neq _ _)) by lia. done.
  - intros b. unfold ws2. rewrite !(proj2 (Z.eqb_neq (code a) _)) by lia. apply andb_false_r.
  - intros b c. unfold ws3. rewrite !(proj2 (Z.eqb_neq (code a) _)) by lia. done.
  - intros b c. unfold ws3. rewrite !(proj2 (Z.eqb_neq (code a) _)) by lia.
    rewrite !orb_false_r, !andb_false_r, ?orb_false_r. 
    replace (between 128 (code a) 138) with false; [by rewrite !andb_false_r|].
    symmetry. apply not_true_iff_false. rewrite between_spec. lia.
Qed.

Lemma trim_start_visible a l : visible a = true -> trim_start_l (a :: l) = a :: l.
Proof.
  intros Hv. destruct (visible_not_ws a Hv) as (H1 & H2 & _ & H3 & _).
  destruct l as [|b [|c l]]; simpl; by rewrite H1, ?H2, ?H3.
Qed.
Lemma trim_end_visible a l : visible a = true -> trim_end_l (a :: l) = a :: l.
Proof.
  intros Hv. destruct (visible_not_ws a Hv) as (H1 & _ & H2 & _ & H3).
  destruct l as [|b [|c l]]; simpl; by rewrite H1, ?H2, ?H3.
Qed.

Lemma forall_char_app f a b : forall_char f (a +:+ b) = forall_char f a && forall_char f b.
Proof.
  unfold forall_char. induction a as [|x a IH]; [done|].
  change (String x a +:+ b) with (String x (a +:+ b)). simpl. by rewrite IH, andb_assoc.
Qed.

Lemma string_of_list_ascii_of s : String.string_of_list_ascii (String.list_ascii_of_string s) = s.
Proof. induction s; simpl; congruence. Qed.

Lemma list_ascii_of_string_of l : String.list_ascii_of_string (String.string_of_list_ascii l) = l.
Proof. induction l as [|a l IH]; simpl; congruence. Qed.

Lemma trim_idem s : trim (trim s) = trim s.
Proof.
  unfold trim. rewrite list_ascii_of_string_of. set (m := trim_start_l (String.list_ascii_of_string s)).
  destruct (trim_end_l_suffix (reverse m)) as [k Hk].
  assert (m = reverse (trim_end_l (reverse m)) ++ reverse (take k (reverse m))) as Hm.
  { by rewrite Hk, <-reverse_app, take_drop, reverse_involutive. }
  assert (trim_start_l (reverse (trim_end_l (reverse m))) = reverse (trim_end_l (reverse m))) as ->.
  { apply trim_start_l_prefix with (reverse (take k (reverse m))). rewrite <-Hm. apply trim_start_l_idem. }
  by rewrite reverse_involutive, trim_end_l_idem.
Qed.

(** Trimming leaves visible text alone. *)
Lemma trim_visible s : forall_char visible s = true -> trim s = s.
Proof.
  intros Hs. unfold trim, forall_char in *.
  assert (forall l, forallb visible l = true -> trim_start_l l = l) as H1.
  { intros [|a l]; [done|]. simpl. intros [Ha _]%andb_true_iff. by apply trim_start_visible. }
  assert (forall l, forallb visible l = true -> trim_end_l l = l) as H2.
  { intros [|a l]; [done|]. simpl. intros [Ha _]%andb_true_iff. by apply trim_end_visible. }
  rewrite H1, H2, reverse_involutive; [apply string_of_list_ascii_of| |done].
  revert Hs. rewrite !forallb_forall. intros Hs x Hx. apply Hs.
  apply list_elem_of_In in Hx. rewrite elem_of_reverse in Hx. by apply list_elem_of_In in Hx.
Qed.

Lemma list_ascii_app a b : String.list_ascii_of_string (a +:+ b) = String.list_ascii_of_string a ++ String.list_ascii_of_string b.
Proof. induction a as [|x a IH]; [done|]. change (String x a +:+ b) with (String x (a +:+ b)). simpl. by rewrite IH. Qed.

(** Text between two visible characters is not trimmed either. *)
Lemma trim_ends s a t m z :
  String.list_ascii_of_string s = a :: t -> visible a = true ->
  String.list_ascii_of_string s = m ++ [z] -> visible z = true -> trim s = s.
Proof.
  intros E1 Ha E2 Hz. unfold trim. rewrite E1, trim_start_visible, <-E1, E2, reverse_snoc, trim_end_visible by done.
  rewrite reverse_cons, reverse_involutive, <-E2. apply string_of_list_ascii_of.
Qed.

(** Splitting joined pieces gives the pieces. *)
Lemma split_char_none c s : contains_char c s = false -> split_char c s = [s].
Proof.
  induction s as [|a s IH]; simpl; [done|]. intros [Ha Hs]%orb_false_iff. by rewrite Ha, (IH Hs).
Qed.
Lemma split_char_app c x y : contains_char c x = false -> split_char c (x +:+ String c y) = x :: split_char c y.
Proof.
  induction x as [|a x IH]; intros H.
  - change ("" +:+ String c y) with (String c y). simpl. by rewrite Ascii.eqb_refl.
  - change (String a x +:+ String c y) with (String a (x +:+ String c y)). simpl in *.
    apply orb_false_iff in H as [Ha Hx]. by rewrite Ha, (IH Hx).
Qed.
Lemma contains_char_app c x y : contains_char c (x +:+ y) = contains_char c x || contains_char c y.
Proof.
  induction x as [|a x IH]; [done|]. change (String a x +:+ y) with (String a (x +:+ y)). simpl.
  by rewrite IH, orb_assoc.
Qed.
Lemma forall_char_no_char f c s : forall_char f s = true -> f c = false -> contains_char c s = false.
Proof.
  unfold forall_char. induction s as [|a s IH]; simpl; [done|]. intros [Ha Hs]%andb_true_iff Hc.
  rewrite (IH Hs Hc), orb_false_r. destruct (Ascii.eqb_spec a c); [congruence|done].
Qed.

(** ** Decimal numbers *)

Lemma pretty_N_char_code x : (x < 10)%N -> code (pretty_N_char x) = 48 + Z.of_N x.
Proof.
  intros Hx. assert (x = 0 \/ x = 1 \/ x = 2 \/ x = 3 \/ x = 4 \/ x = 5 \/ x = 6 \/ x = 7 \/ x = 8 \/ x = 9)%N
    as Hc by lia.
  by repeat (destruct Hc as [->|Hc]; [done|]); rewrite Hc.
Qed.

Lemma pretty_N_go_digits x s :
  forall_char is_ascii_digit s = true -> forall_char is_ascii_digit (pretty_N_go x s) = true.
Proof.
  revert s. induction (N.lt_wf_0 x) as [x _ IH]; intros s Hs.
  assert (x = 0 \/ 0 < x)%N as [->|Hx] by lia; [done|]. rewrite pretty_N_go_step by done.
  apply IH; [by apply N.div_lt|]. unfold forall_char in *. simpl. rewrite Hs, andb_true_r.
  unfold is_ascii_digit. rewrite pretty_N_char_code by (by apply N.mod_lt). apply between_spec.
  pose proof (N.mod_lt x 10 ltac:(done)) as Hm. generalize dependent (x mod 10)%N. intros m Hm. lia.
Qed.

Lemma pretty_N_go_value x s :
  digits_value (String.list_ascii_of_string (pretty_N_go x s)) 0
  = digits_value (String.list_ascii_of_string s) (Z.of_N x).
Proof.
  revert s. induction (N.lt_wf_0 x) as [x _ IH]; intros s.
  assert (x = 0 \/ 0 < x)%N as [->|Hx] by lia; [done|]. rewrite pretty_N_go_step by done.
  rewrite IH by (by apply N.div_lt).
  pose proof (N.mod_lt x 10 ltac:(done)) as Hm. pose proof (N.div_mod x 10 ltac:(done)) as Hd.
  generalize dependent (x mod 10)%N. generalize dependent (x / 10)%N. clear IH. intros q r Hr Hd. simpl.
  assert (is_ascii_digit (pretty_N_char r) = true) as ->.
  { unfold is_ascii_digit. rewrite pretty_N_char_code by done. apply between_spec. lia. }
  rewrite pretty_N_char_code by done. f_equal. lia.
Qed.

Lemma show_N z : 0 <= z -> show z = pretty (Z.to_N z).
Proof. intros Hz. by destruct z. Qed.

Lemma show_nonempty z : show z <> EmptyString.
Proof.
  assert (forall n s, s <> EmptyString -> pretty_N_go n s <> EmptyString) as Hgo.
  { intros n. induction (N.lt_wf_0 n) as [n _ IH]; intros s Hs.
    assert (n = 0 \/ 0 < n)%N as [->|Hn] by lia; [done|]. rewrite pretty_N_go_step by done.
    apply IH; [by apply N.div_lt|done]. }
  assert (forall p, pretty (Npos p) <> EmptyString) as Hp.
  { intros p. unfold pretty, pretty_N. rewrite decide_False by done. rewrite pretty_N_go_step by done. by apply Hgo. }
  destruct z; [done|apply Hp|done].
Qed.

Lemma show_digits z : 0 <= z -> forall_char is_ascii_digit (show z) = true.
Proof.
  intros Hz. rewrite show_N by done. unfold pretty, pretty_N. case_decide; [done|]. by apply pretty_N_go_digits.
Qed.

Lemma show_value z : 0 <= z -> digits_value (String.list_ascii_of_string (show z)) 0 = Some z.
Proof.
  intros Hz. rewrite show_N by done. unfold pretty, pretty_N. case_decide as E.
  - assert (z = 0) as -> by lia. done.
  - rewrite pretty_N_go_value. simpl. f_equal. lia.
Qed.

Lemma parse_uint_show max z : 0 <= z <= max -> parse_uint max (show z) = Some z.
Proof.
  intros Hz. unfold parse_uint. pose proof (show_value z ltac:(lia)) as Hv.
  pose proof (show_digits z ltac:(lia)) as Hd. unfold forall_char in Hd.
  pose proof (show_nonempty z) as Hne.
  destruct (show z) as [|c s]; [done|]. simpl in *. apply andb_true_iff in Hd as [Hc _].
  unfold is_ascii_digit in Hc. apply between_spec in Hc.
  destruct (Z.eqb_spec (code c) 43); [lia|].
  change (match c :: String.list_ascii_of_string s with [] => None | _ :: _ =>
    match digits_value (c :: String.list_ascii_of_string s) 0 with
    | Some v => if v <=? max then Some v else None | None => None end end = Some z).
  simpl digits_value. rewrite Hv. destruct (Z.leb_spec z max); [done|lia].
Qed.

Lemma show_visible z : 0 <= z -> forall_char visible (show z) = true.
Proof.
  intros Hz. pose proof (show_digits z Hz) as Hd. unfold forall_char in *. rewrite forallb_forall in *.
  intros c Hc. specialize (Hd c Hc). unfold is_ascii_digit, visible in *. rewrite between_spec in *. lia.
Qed.

(** ** Joining pieces *)

Lemma split_char_elem c s x : x ∈ split_char c s -> contains_char c x = false.
Proof.
  revert x. induction s as [|a s IH]; intros x; simpl; [by intros ->%list_elem_of_singleton|].
  destruct (Ascii.eqb_spec a c) as [->|Hne].
  - intros [->|Hx]%elem_of_cons; [done|by apply IH].
  - destruct (split_char c s) as [|y ys] eqn:E; [by destruct (split_char_nonempty c s)|].
    intros [->|Hx]%elem_of_cons; [|apply IH; by right]. simpl. rewrite (IH y) by left.
    by destruct (Ascii.eqb_spec a c).
Qed.

Lemma split_char_concat c l :
  l <> [] -> Forall (fun x => contains_char c x = false) l ->
  split_char c (String.concat (String c EmptyString) l) = l.
Proof.
  induction l as [|x [|y l] IH]; intros Hne Hl; [done| |].
  - apply Forall_cons in Hl as [Hx _]. by apply split_char_none.
  - apply Forall_cons in Hl as [Hx Hl].
    change (String.concat (String c "") (x :: y :: l))
      with (x +:+ String c (String.concat (String c "") (y :: l)))%string.
    rewrite split_char_app by done. f_equal. by apply IH.
Qed.

Lemma split_once_none c s : contains_char c s = false <-> split_once c s = None.
Proof.
  induction s as [|a s IH]; simpl; [done|]. destruct (Ascii.eqb_spec a c); simpl; [done|].
  rewrite IH. destruct (split_once c s) as [[]|]; done.
Qed.
