(* ===== verification/Utf8.v ===== *)
(** * Utf8: cutting and repairing UTF-8

    [String::from_utf8_lossy] and [str::is_char_boundary], and what they keep: a text stays UTF-8
    when it is cut at ASCII bytes or character boundaries, and a repaired one always is. *)
From S2P Require Import Prelude Text.
From Stdlib Require Strings.String.

#[local] Open Scope Z_scope.

Definition continuation (b : byte) : bool := between 128 (u8 b) 191.
(** The second byte of a sequence of three and of four bytes. *)
Definition second_of_3 (a b : byte) : bool :=
  if u8 a =? 224 then between 160 (u8 b) 191 else if u8 a =? 237 then between 128 (u8 b) 159 else continuation b.
Definition second_of_4 (a b : byte) : bool :=
  if u8 a =? 240 then between 144 (u8 b) 191 else if u8 a =? 244 then between 128 (u8 b) 143 else continuation b.

(** U+FFFD. *)
Definition REPLACEMENT : list byte := [Byte.xef; Byte.xbf; Byte.xbd].

(** Each maximal prefix of a broken sequence becomes one replacement character. *)
Fixpoint lossy (l : list byte) : list byte :=
  match l with
  | [] => []
  | a :: l1 =>
      if u8 a <=? 127 then a :: lossy l1
      else if between 194 (u8 a) 223 then
        match l1 with
        | b :: l2 => if continuation b then a :: b :: lossy l2 else REPLACEMENT ++ lossy l1
        | [] => REPLACEMENT
        end
      else if between 224 (u8 a) 239 then
        match l1 with
        | b :: l2 =>
            if second_of_3 a b then
              match l2 with
              | c :: l3 => if continuation c then a :: b :: c :: lossy l3 else REPLACEMENT ++ lossy l2
              | [] => REPLACEMENT
              end
            else REPLACEMENT ++ lossy l1
        | [] => REPLACEMENT
        end
      else if between 240 (u8 a) 244 then
        match l1 with
        | b :: l2 =>
            if second_of_4 a b then
              match l2 with
              | c :: l3 =>
                  if continuation c then
                    match l3 with
                    | d :: l4 => if continuation d then a :: b :: c :: d :: lossy l4 else REPLACEMENT ++ lossy l3
                    | [] => REPLACEMENT
                    end
                  else REPLACEMENT ++ lossy l2
              | [] => REPLACEMENT
              end
            else REPLACEMENT ++ lossy l1
        | [] => REPLACEMENT
        end
      else REPLACEMENT ++ lossy l1
  end.
Definition from_utf8_lossy (l : list byte) : string := String.string_of_list_byte (lossy l).

(** [is_char_boundary] of an index up to the length. *)
Definition is_char_boundary (l : list byte) (i : nat) : bool :=
  match drop i l with [] => true | b :: _ => negb (continuation b) end.

(** ** One character *)

Inductive character : list byte -> Prop :=
| Ascii1 a : u8 a <= 127 -> character [a]
| Two a b : 194 <= u8 a <= 223 -> continuation b = true -> character [a; b]
| Three a b c : 224 <= u8 a <= 239 -> second_of_3 a b = true -> continuation c = true -> character [a; b; c]
| Four a b c d : 240 <= u8 a <= 244 -> second_of_4 a b = true -> continuation c = true -> continuation d = true ->
    character [a; b; c; d].

Inductive characters : list byte -> Prop :=
| Chars_nil : characters []
| Chars_cons c l : character c -> characters l -> characters (c ++ l).

#[local] Hint Constructors character characters : core.

Lemma utf8_character c l : character c -> utf8_valid (c ++ l) = utf8_valid l.
Proof.
  destruct 1 as [a Ha|a b Ha Hb|a b c Ha Hb Hc|a b c d Ha Hb Hc Hd]; cbn [app utf8_valid];
    unfold second_of_3, second_of_4, continuation in *.
  - by rewrite (proj2 (Z.leb_le _ _) Ha).
  - assert (u8 a <=? 127 = false) as -> by lia. by rewrite (proj2 (between_spec _ _ _) Ha), Hb.
  - assert (u8 a <=? 127 = false) as -> by lia.
    assert (between 194 (u8 a) 223 = false) as -> by (apply not_true_is_false; rewrite between_spec; lia).
    rewrite (proj2 (between_spec _ _ _) Ha), Hc, andb_true_r. by rewrite Hb.
  - assert (u8 a <=? 127 = false) as -> by lia.
    assert (between 194 (u8 a) 223 = false) as -> by (apply not_true_is_false; rewrite between_spec; lia).
    assert (between 224 (u8 a) 239 = false) as -> by (apply not_true_is_false; rewrite between_spec; lia).
    rewrite (proj2 (between_spec _ _ _) Ha), Hc, Hd, !andb_true_r. cbn [andb]. by rewrite Hb.
Qed.

Lemma utf8_characters l : utf8_valid l = true <-> characters l.
Proof.
  split.
  - remember (length l) as n eqn:En. revert l En. induction n as [n IH] using lt_wf_ind. intros l -> H.
    destruct l as [|a l1]; [done|]. cbn [utf8_valid] in H.
    assert (forall c k, character c -> a :: l1 = c ++ k -> (length k < length (a :: l1))%nat -> utf8_valid k = true -> characters (a :: l1)) as Hc.
    { intros c k Hc E Hk Hv. rewrite E. constructor; [done|]. by apply (IH (length k)). }
    destruct (u8 a <=? 127) eqn:Ea; [apply (Hc [a] l1); [constructor; lia|done|cbn; lia|done]|].
    destruct l1 as [|b l2]; [done|]. destruct (between 194 (u8 a) 223) eqn:E2.
    { apply andb_true_iff in H as [Hb H]. apply (Hc [a; b] l2); [constructor; [by apply between_spec|done]|done|cbn; lia|done]. }
    destruct l2 as [|c l3]; [done|]. destruct (between 224 (u8 a) 239) eqn:E3.
    { rewrite !andb_true_iff in H. destruct H as [[Hb Hc'] H].
      apply (Hc [a; b; c] l3); [constructor; [by apply between_spec|done..]|done|cbn; lia|done]. }
    destruct l3 as [|d l4]; [done|]. rewrite !andb_true_iff in H. destruct H as [[[[E4 Hb] Hc'] Hd] H].
    apply (Hc [a; b; c; d] l4); [constructor; [by apply between_spec|done..]|done|cbn; lia|done].
  - induction 1 as [|c l Hc _ IH]; [done|]. by rewrite utf8_character.
Qed.

(** ** Cutting *)

Lemma characters_app l1 l2 : characters l1 -> characters l2 -> characters (l1 ++ l2).
Proof. induction 1 as [|c l Hc _ IH]; intros H; [done|]. rewrite <-app_assoc. auto. Qed.
Lemma utf8_app l1 l2 : utf8_valid l1 = true -> utf8_valid (l1 ++ l2) = utf8_valid l2.
Proof.
  intros H%utf8_characters. induction H as [|c l Hc _ IH]; [done|]. by rewrite <-app_assoc, utf8_character.
Qed.
Lemma utf8_ascii l1 l2 : Forall (fun b => u8 b <= 127) l1 -> utf8_valid (l1 ++ l2) = utf8_valid l2.
Proof. induction 1 as [|b l Hb _ IH]; [done|]. exact (eq_trans (utf8_character [b] (l ++ l2) (Ascii1 b Hb)) IH). Qed.

(** The bytes after the first of a character are continuations. *)
Lemma character_tail c : character c -> exists a l, c = a :: l /\ Forall (fun b => continuation b = true) l /\ continuation a = false.
Proof.
  assert (forall a, u8 a <= 127 \/ 194 <= u8 a -> continuation a = false) as Hn.
  { intros a Ha. apply not_true_is_false. unfold continuation. rewrite between_spec. lia. }
  assert (forall a b, second_of_3 a b = true -> continuation b = true) as H3.
  { intros a b. unfold second_of_3, continuation. destruct (u8 a =? 224), (u8 a =? 237); rewrite ?between_spec; lia. }
  assert (forall a b, second_of_4 a b = true -> continuation b = true) as H4.
  { intros a b. unfold second_of_4, continuation. destruct (u8 a =? 240), (u8 a =? 244); rewrite ?between_spec; lia. }
  destruct 1; eexists _, _; (split; [reflexivity|]); (split; [|apply Hn; lia]); eauto 6.
Qed.

(** A cut before a byte that is no continuation falls between characters. *)
Lemma utf8_cut x a y : utf8_valid (x ++ a :: y) = true -> continuation a = false ->
  utf8_valid x = true /\ utf8_valid (a :: y) = true.
Proof.
  intros H%utf8_characters Ha. rewrite !utf8_characters. remember (x ++ a :: y) as l eqn:El. revert x El.
  induction H as [|c l Hc Hl IH]; intros x El; [by destruct x|].
  destruct x as [|b x]; [split; [constructor|cbn [app] in El; rewrite <-El; by constructor]|].
  destruct (character_tail c Hc) as (a0 & t & -> & Ht & Ha0). cbn [app] in El. injection El as <- El.
  apply app_eq_app in El as (k & [[E1 E2]|[E1 E2]]).
  - destruct k as [|b k]; [cbn [app] in E2|].
    + rewrite app_nil_r in E1. subst t. split; [|by rewrite E2].
      rewrite <-(app_nil_r (a0 :: x)). by constructor.
    + exfalso. injection E2 as <- _. rewrite E1 in Ht. apply Forall_app in Ht as [_ Ht]. apply Forall_cons in Ht as [Hb _]. congruence.
  - destruct (IH k E2) as [Hk Hy]. split; [|done]. rewrite E1. exact (Chars_cons (a0 :: t) k Hc Hk).
Qed.
Lemma utf8_cut_ascii x a y : utf8_valid (x ++ a :: y) = true -> u8 a <= 127 -> utf8_valid x = true /\ utf8_valid (a :: y) = true.
Proof.
  intros H Ha. apply utf8_cut; [done|]. apply not_true_is_false. unfold continuation. rewrite between_spec. lia.
Qed.
Lemma utf8_boundary l i : utf8_valid l = true -> is_char_boundary l i = true -> utf8_valid (drop i l) = true.
Proof.
  unfold is_char_boundary. intros H Hb. rewrite <-(take_drop i l) in H.
  destruct (drop i l) as [|b y]; [done|]. apply (utf8_cut _ _ _ H). by apply negb_true_iff.
Qed.

(** ** Repairing *)

Lemma replacement_character : character REPLACEMENT.
Proof. apply Three; [cbn; lia|reflexivity|reflexivity]. Qed.

Lemma lossy_characters l : characters (lossy l).
Proof.
  remember (length l) as n eqn:En. revert l En. induction n as [n IH] using lt_wf_ind. intros l ->.
  assert (forall k, (length k < length l)%nat -> characters (lossy k)) as Hk by (intros k Hk; by apply (IH (length k))).
  assert (forall k, (length k < length l)%nat -> characters (REPLACEMENT ++ lossy k)) as Hr.
  { intros k ?. constructor; [apply replacement_character|by apply Hk]. }
  assert (characters REPLACEMENT) as H0 by exact (Chars_cons _ [] replacement_character Chars_nil).
  destruct l as [|a l1]; [constructor|]. cbn [lossy length] in *. destruct (u8 a <=? 127) eqn:Ea.
  { apply (Chars_cons [a]); [constructor; lia|apply Hk; lia]. }
  destruct (between 194 (u8 a) 223) eqn:E2.
  { apply between_spec in E2. destruct l1 as [|b l2]; [done|]. cbn [length] in *. destruct (continuation b) eqn:Eb; [|apply Hr; cbn; lia].
    apply (Chars_cons [a; b]); [by constructor|apply Hk; lia]. }
  destruct (between 224 (u8 a) 239) eqn:E3.
  { apply between_spec in E3. destruct l1 as [|b l2]; [done|]. destruct (second_of_3 a b) eqn:Eb; [|apply Hr; cbn; lia].
    destruct l2 as [|c l3]; [done|]. destruct (continuation c) eqn:Ec; [|apply Hr; cbn; lia].
    apply (Chars_cons [a; b; c]); [by constructor|apply Hk; cbn; lia]. }
  destruct (between 240 (u8 a) 244) eqn:E4; [|apply Hr; lia].
  apply between_spec in E4. destruct l1 as [|b l2]; [done|]. destruct (second_of_4 a b) eqn:Eb; [|apply Hr; cbn; lia].
  destruct l2 as [|c l3]; [done|]. destruct (continuation c) eqn:Ec; [|apply Hr; cbn; lia].
  destruct l3 as [|d l4]; [done|]. destruct (continuation d) eqn:Ed; [|apply Hr; cbn; lia].
  apply (Chars_cons [a; b; c; d]); [by constructor|apply Hk; cbn; lia].
Qed.
Lemma lossy_utf8 l : utf8_valid (lossy l) = true.
Proof. apply utf8_characters, lossy_characters. Qed.

Lemma lossy_character c l : character c -> lossy (c ++ l) = c ++ lossy l.
Proof.
  assert (forall lo x hi, x < lo \/ hi < x -> between lo x hi = false) as Hno.
  { intros lo x hi ?. apply not_true_is_false. rewrite between_spec. lia. }
  destruct 1 as [a Ha|a b Ha Hb|a b c Ha Hb Hc|a b c d Ha Hb Hc Hd]; cbn [app lossy].
  - by rewrite (proj2 (Z.leb_le _ _) Ha).
  - assert (u8 a <=? 127 = false) as -> by lia. by rewrite (proj2 (between_spec _ _ _) Ha), Hb.
  - assert (u8 a <=? 127 = false) as -> by lia. rewrite (Hno 194) by lia.
    by rewrite (proj2 (between_spec _ _ _) Ha), Hb, Hc.
  - assert (u8 a <=? 127 = false) as -> by lia. rewrite (Hno 194), (Hno 224) by lia.
    by rewrite (proj2 (between_spec _ _ _) Ha), Hb, Hc, Hd.
Qed.
Lemma lossy_id l : utf8_valid l = true -> lossy l = l.
Proof. intros H%utf8_characters. induction H as [|c l Hc _ IH]; [done|]. by rewrite lossy_character, IH. Qed.

Lemma from_utf8_lossy_ok l : str_ok (from_utf8_lossy l).
Proof. unfold str_ok, as_bytes, from_utf8_lossy. by rewrite String.list_byte_of_string_of_list_byte, lossy_utf8. Qed.
Lemma from_utf8_lossy_id l : utf8_valid l = true -> as_bytes (from_utf8_lossy l) = l.
Proof. intros H. unfold as_bytes, from_utf8_lossy. by rewrite String.list_byte_of_string_of_list_byte, lossy_id. Qed.
