(* ===== verification/Codec.v ===== *)
(** * Codec: the shared encoders of [codec.rs]

    Hexadecimal text and constant-time equality.  [base64url] is a third-party encoder and
    [now_unix] the clock: both are inputs of the models that use them. *)
From S2P Require Import Prelude Text.

#[local] Open Scope Z_scope.

(** [DIGITS[i] as char], for the nibble [i]. *)
Definition hex_digit (i : Z) : ascii :=
  ascii_of_N (Z.to_N (if i <? 10 then 48 + i else 87 + i)).

(** [char::to_digit(16)]. *)
Definition nibble (c : ascii) : option Z :=
  if is_ascii_digit c then Some (code c - 48)
  else if between 65 (code c) 70 then Some (code c - 55)
  else if between 97 (code c) 102 then Some (code c - 87)
  else None.

Fixpoint hex_encode (bytes : list byte) : string :=
  match bytes with
  | [] => EmptyString
  | b :: rest =>
      String (hex_digit (Z.shiftr (u8 b) 4))
        (String (hex_digit (Z.land (u8 b) 15)) (hex_encode rest))
  end.

(** The loop of [hex_decode] over the [N] output bytes. *)
Fixpoint hex_pairs (digits : list ascii) : option (list byte) :=
  match digits with
  | [] => Some []
  | hi :: lo :: rest =>
      let? h := nibble hi in
      let? l := nibble lo in
      let? bytes := hex_pairs rest in
      Some (to_u8 (h * 16 + l) :: bytes)
  | [_] => None
  end.

Definition hex_decode (N : nat) (s : string) : option (list byte) :=
  let digits := String.list_ascii_of_string s in
  if decide (length digits ≠ (N * 2)%nat) then None else hex_pairs digits.

Definition ct_eq (a b : list byte) : bool :=
  if decide (length a ≠ length b) then false
  else fold_left (fun acc '(x, y) => Z.lor acc (Z.lxor (u8 x) (u8 y))) (combine a b) 0 =? 0.

(** ** Hexadecimal *)

Lemma list_ascii_length s : length (String.list_ascii_of_string s) = String.length s.
Proof. induction s; simpl; congruence. Qed.

Lemma hex_encode_length bytes : String.length (hex_encode bytes) = (2 * length bytes)%nat.
Proof. induction bytes; simpl; lia. Qed.

Lemma shiftr4 b : Z.shiftr (u8 b) 4 = u8 b / 16.
Proof. rewrite Z.shiftr_div_pow2 by lia. done. Qed.

Lemma land15 z : Z.land z 15 = z mod 16.
Proof. change 15 with (Z.ones 4). rewrite Z.land_ones by lia. done. Qed.

Lemma nibble_hex_digit i : 0 <= i < 16 -> nibble (hex_digit i) = Some i.
Proof.
  intros. assert (i = 0 \/ i = 1 \/ i = 2 \/ i = 3 \/ i = 4 \/ i = 5 \/ i = 6 \/ i = 7 \/
    i = 8 \/ i = 9 \/ i = 10 \/ i = 11 \/ i = 12 \/ i = 13 \/ i = 14 \/ i = 15) as Hi by lia.
  by repeat destruct Hi as [->|Hi]; [..|subst].
Qed.

Lemma nibble_Some c i :
  nibble c = Some i -> 0 <= i < 16 /\ hex_digit i = ascii_lower c.
Proof.
  unfold nibble, hex_digit.
  destruct (is_ascii_digit c) eqn:E1.
  { intros [= <-]. pose proof E1 as R. apply between_spec in R. split; [lia|].
    destruct (Z.ltb_spec (code c - 48) 10); [|lia].
    apply code_inj. rewrite code_ascii_of, code_ascii_lower by lia.
    destruct (is_ascii_upper c) eqn:E; [|lia]. apply between_spec in E. lia. }
  destruct (between 65 (code c) 70) eqn:E2.
  { intros [= <-]. apply between_spec in E2. split; [lia|].
    destruct (Z.ltb_spec (code c - 55) 10); [lia|].
    apply code_inj. rewrite code_ascii_of, code_ascii_lower by lia.
    assert (is_ascii_upper c = true) as -> by (apply between_spec; lia). lia. }
  destruct (between 97 (code c) 102) eqn:E3; [|done].
  intros [= <-]. apply between_spec in E3. split; [lia|].
  destruct (Z.ltb_spec (code c - 87) 10); [lia|].
  apply code_inj. rewrite code_ascii_of, code_ascii_lower by lia.
  destruct (is_ascii_upper c) eqn:E; [|lia]. apply between_spec in E. lia.
Qed.

Lemma hex_pairs_encode bytes :
  hex_pairs (String.list_ascii_of_string (hex_encode bytes)) = Some bytes.
Proof.
  induction bytes as [|b bytes IH]; [done|]. simpl.
  pose proof (u8_range b). rewrite shiftr4, land15, !nibble_hex_digit.
  - simpl. rewrite IH. simpl. f_equal. f_equal.
    rewrite <-(to_u8_u8 b). f_equal. rewrite to_u8_u8.
    pose proof (Z.div_mod (u8 b) 16). lia.
  - apply Z.mod_pos_bound. lia.
  - split; [apply Z.div_pos; lia|apply Z.div_lt_upper_bound; lia].
Qed.

Lemma hex_pairs_Some digits bytes :
  hex_pairs digits = Some bytes ->
  length digits = (length bytes * 2)%nat /\
  hex_encode bytes = to_ascii_lowercase (String.string_of_list_ascii digits).
Proof.
  revert digits. induction bytes as [|b bytes IH]; intros digits H.
  - destruct digits as [|hi [|lo rest]]; simpl in H; [done|done|].
    destruct (nibble hi), (nibble lo); simpl in H; [|done..].
    by destruct (hex_pairs rest).
  - destruct digits as [|hi [|lo rest]]; simpl in H; [done|done|].
    destruct (nibble hi) as [h|] eqn:Eh; [|done].
    destruct (nibble lo) as [l|] eqn:El; [|done]. simpl in H.
    destruct (hex_pairs rest) as [r|] eqn:Er; [|done]. simpl in H. injection H as <- <-.
    destruct (IH rest Er) as [IHl IHs].
    apply nibble_Some in Eh as [Hh Hh']. apply nibble_Some in El as [Hl Hl'].
    simpl. split; [lia|].
    rewrite u8_to_u8, Z.mod_small, Z.shiftr_div_pow2, land15 by lia.
    change (2 ^ 4) with 16. rewrite Z.div_add_l, Z.div_small by lia.
    rewrite (Z.add_comm (h * 16)), Z.mod_add, (Z.mod_small l), Z.add_0_r by lia.
    by rewrite Hh', Hl', IHs.
Qed.

(** Decoding what was encoded gives the bytes back, and whatever [hex_decode] accepts is a
    spelling of its result: exactly [2 * N] hex digits, equal to the encoding up to case. *)
Lemma hex_decode_iff N s bytes :
  hex_decode N s = Some bytes <->
  length bytes = N /\ to_ascii_lowercase s = hex_encode bytes.
Proof.
  unfold hex_decode. split.
  - case_decide as Hlen; [done|]. intros H. apply hex_pairs_Some in H as [Hl Hs].
    rewrite string_of_list_ascii_of in Hs. split; [lia|done].
  - intros [Hl Hs].
    assert (String.length s = (2 * N)%nat) as Hlen.
    { rewrite <-(to_ascii_lowercase_length s), Hs, hex_encode_length. lia. }
    rewrite list_ascii_length. case_decide; [lia|].
    pose proof (hex_pairs_encode bytes) as He. rewrite <-Hs in He. rewrite <-He.
    clear. remember (String.length s) as n eqn:Hn.
    assert (forall c, nibble (ascii_lower c) = nibble c) as Hn1.
    { intros c. unfold nibble, is_ascii_digit. rewrite code_ascii_lower.
      destruct (is_ascii_upper c) eqn:E; [|done]. apply between_spec in E.
      assert (between 48 (code c + 32) 57 = false) as -> by (apply not_true_iff_false; rewrite between_spec; lia).
      assert (between 48 (code c) 57 = false) as -> by (apply not_true_iff_false; rewrite between_spec; lia).
      assert (between 65 (code c + 32) 70 = false) as -> by (apply not_true_iff_false; rewrite between_spec; lia).
      assert (between 97 (code c) 102 = false) as -> by (apply not_true_iff_false; rewrite between_spec; lia).
      destruct (between 65 (code c) 70) eqn:E1.
      - apply between_spec in E1. assert (between 97 (code c + 32) 102 = true) as -> by (apply between_spec; lia).
        f_equal. lia.
      - destruct (between 97 (code c + 32) 102) eqn:E2; [|done]. apply between_spec in E2.
        apply not_true_iff_false in E1. rewrite between_spec in E1. lia. }
    revert s Hn. induction n as [n IH] using lt_wf_ind. intros [|a [|b s]] ->; [done|done|].
    simpl. rewrite !Hn1. destruct (nibble a), (nibble b); simpl; [|done..].
    rewrite (IH (String.length s)); [done|simpl; lia|done].
Qed.

(** ** Constant-time equality *)

Lemma fold_lor_zero l acc :
  0 <= acc -> (forall p, p ∈ l -> 0 <= Z.lxor (u8 p.1) (u8 p.2)) ->
  fold_left (fun acc '(x, y) => Z.lor acc (Z.lxor (u8 x) (u8 y))) l acc = 0 <->
  acc = 0 /\ Forall (fun p : byte * byte => p.1 = p.2) l.
Proof.
  revert acc. induction l as [|[x y] l IH]; intros acc Hacc Hpos; simpl.
  - rewrite Forall_nil. naive_solver.
  - pose proof (Hpos (x, y) ltac:(left)) as Hxy. simpl in Hxy.
    rewrite IH; [|by apply Z.lor_nonneg|intros p Hp; apply Hpos; by right].
    rewrite Z.lor_eq_0_iff, Z.lxor_eq_0_iff, Forall_cons. simpl.
    pose proof (u8_inj x y). split; [naive_solver|]. intros [-> [-> ?]]. done.
Qed.

Lemma ct_eq_spec a b : ct_eq a b = true <-> a = b.
Proof.
  unfold ct_eq. case_decide as Hlen; [split; [done|intros ->; done]|].
  rewrite Z.eqb_eq, fold_lor_zero; [|done|].
  - assert (length a = length b) as Hl by lia. clear Hlen. revert b Hl.
    induction a as [|x a IH]; intros [|y b] Hl; simpl in *; try done.
    rewrite Forall_cons. simpl. specialize (IH b ltac:(lia)). naive_solver.
  - intros [x y] _. simpl. apply Z.lxor_nonneg. pose proof (u8_range x). pose proof (u8_range y). lia.
Qed.

(** ** The text of a key: visible, lower case, without separators *)

(** Characters of a hexadecimal text. *)
Definition hex_char (c : ascii) : bool := between 48 (code c) 57 || between 97 (code c) 102.

Lemma hex_digit_char i : 0 <= i < 16 -> hex_char (hex_digit i) = true.
Proof.
  intros Hi. assert (exists n : nat, (n < 16)%nat /\ i = Z.of_nat n) as (n & Hn & ->).
  { exists (Z.to_nat i). lia. }
  do 16 (destruct n as [|n]; [by vm_compute|]). lia.
Qed.
Lemma hex_encode_chars l : forall_char hex_char (hex_encode l) = true.
Proof.
  unfold forall_char. induction l as [|b l IH]; [done|]. cbn [hex_encode String.list_ascii_of_string forallb].
  pose proof (u8_range b). rewrite shiftr4, land15, !hex_digit_char, IH; [done| |].
  - apply Z.mod_pos_bound. lia.
  - split; [apply Z.div_pos; lia|apply Z.div_lt_upper_bound; lia].
Qed.
Lemma hex_char_visible s : forall_char hex_char s = true -> forall_char visible s = true.
Proof.
  unfold forall_char. rewrite !forallb_forall. intros Hs x Hx. specialize (Hs x Hx). unfold hex_char, visible in *.
  apply orb_true_iff in Hs. rewrite !between_spec in Hs. apply between_spec. lia.
Qed.
Lemma hex_visible l : forall_char visible (hex_encode l) = true.
Proof. apply hex_char_visible, hex_encode_chars. Qed.
Lemma hex_lowercase l : to_ascii_lowercase (hex_encode l) = hex_encode l.
Proof.
  pose proof (hex_encode_chars l) as Hs. revert Hs. unfold forall_char. generalize (hex_encode l) as s.
  induction s as [|a s IH]; [done|]. simpl. intros [Ha Hs]%andb_true_iff. rewrite (IH Hs). f_equal.
  apply code_inj. rewrite code_ascii_lower. unfold is_ascii_upper.
  replace (between 65 (code a) 90) with false; [done|]. symmetry. apply not_true_iff_false. rewrite between_spec.
  unfold hex_char in Ha. apply orb_true_iff in Ha. rewrite !between_spec in Ha. lia.
Qed.
Lemma hex_decode_encode n l : length l = n -> hex_decode n (hex_encode l) = Some l.
Proof. intros Hl. apply hex_decode_iff. split; [done|apply hex_lowercase]. Qed.
Lemma hex_no c l : hex_char c = false -> contains_char c (hex_encode l) = false.
Proof. intros Hc. apply (forall_char_no_char hex_char); [apply hex_encode_chars|exact Hc]. Qed.
