(* ===== verification/EnvFlag.v ===== *)
(** * EnvFlag: the shared reading of the on/off switches ([envflag.rs]) *)
From S2P Require Import Prelude Text.

#[local] Open Scope Z_scope.

Definition ON_SPELLINGS : list string := ["1"; "true"; "yes"; "on"].
Definition OFF_SPELLINGS : list string := ["0"; "false"; "no"; "off"].

Definition parse (value : option string) : option bool :=
  let? value := value in
  let v := trim value in
  if existsb (eq_ignore_ascii_case v) ON_SPELLINGS then Some true
  else if existsb (eq_ignore_ascii_case v) OFF_SPELLINGS then Some false
  else None.

Definition flag (value : option string) (default_ : bool) : bool :=
  match parse value with Some b => b | None => default_ end.

(** The warning of an unrecognised spelling: the key, the value as given, and the word naming
    the default ([{v:?}] is rendered by the formatter). *)
Record Warning := { w_key : string; w_value : string; as_what : string }.

Definition unrecognised (key : string) (value : option string) (default_ : bool) : option Warning :=
  let? v := value in
  if is_empty (trim v) || match parse (Some v) with Some _ => true | None => false end then None
  else Some {| w_key := key; w_value := v; as_what := if default_ then "on" else "off" |}.

(** [warn_once]: the process-wide list of reported keys, and the line printed, if any. *)
Definition warn_once (warned : list string) (key : string) (w : Warning) : list string * option Warning :=
  if existsb (String.eqb key) warned then (warned, None) else (warned ++ [key], Some w).

Definition flag_named (warned : list string) (key : string) (value : option string) (default_ : bool)
  : bool * list string * option Warning :=
  let '(warned', line) :=
    match unrecognised key value default_ with
    | Some w => warn_once warned key w
    | None => (warned, None)
    end in
  (flag value default_, warned', line).

(** A sequence of readings in one process: the lines printed, in order. *)
Fixpoint run_flags (warned : list string) (reads : list (string * option string * bool)) : list Warning :=
  match reads with
  | [] => []
  | (key, value, d) :: rest =>
      let '(_, warned', line) := flag_named warned key value d in
      match line with
      | Some w => w :: run_flags warned' rest
      | None => run_flags warned' rest
      end
  end.

Lemma existsb_eqb_In key l : existsb (String.eqb key) l = true <-> key ∈ l.
Proof.
  rewrite existsb_exists. split.
  - intros (x & Hx & E). apply String.eqb_eq in E as ->. by apply list_elem_of_In.
  - intros H. exists key. split; [by apply list_elem_of_In|apply String.eqb_refl].
Qed.

Lemma unrecognised_key key v d w : unrecognised key v d = Some w -> w_key w = key.
Proof. unfold unrecognised. destruct v as [v|]; simpl; [|done]. case_match; [done|]. by intros [= <-]. Qed.

Lemma run_flags_keys warned reads :
  NoDup (map w_key (run_flags warned reads)) /\
  forall k, k ∈ map w_key (run_flags warned reads) -> k ∉ warned.
Proof.
  revert warned. induction reads as [|[[key v] d] reads IH]; intros warned; simpl.
  { split; [constructor|]. intros k Hk. by apply not_elem_of_nil in Hk. }
  unfold flag_named. destruct (unrecognised key v d) as [w|] eqn:Ew; [|apply IH].
  unfold warn_once. destruct (existsb (String.eqb key) warned) eqn:E; [apply IH|].
  apply not_true_iff_false in E. rewrite existsb_eqb_In in E.
  destruct (IH (warned ++ [key])) as [Hnd Hfresh]. apply unrecognised_key in Ew. simpl.
  split.
  - constructor; [|done]. rewrite Ew. intros Hin. apply Hfresh in Hin. set_solver.
  - intros k Hk. apply elem_of_cons in Hk as [->|Hk]; [by rewrite Ew|].
    apply Hfresh in Hk. set_solver.
Qed.
