(* ===== verification/Runtime.v ===== *)
(** * Runtime: what the models use of the asynchronous runtime

    The agent runs on tokio, which is a dependency and not part of the repository.  Its
    semaphores and unbounded queues are parameters of the models: a class of operations, and a
    class of the laws its documentation states.  [RefSem] and [RefQueue] are small instances that
    satisfy the laws; the concrete inputs of the library run on them. *)
From S2P Require Import Prelude.

(** ** Semaphores

    [sem_permits] is what the semaphore holds: the permits of [available_permits] and those
    already set aside for a waiting acquire.  [acquire_many n s] is the state after an acquire of
    [n] permits completed and its permit was forgotten, [None] while it cannot complete. *)
Class SemaphoreOps (Sem : Type) := {
  sem_new : Z -> Sem;
  sem_permits : Sem -> Z;
  available_permits : Sem -> Z;
  sem_closed : Sem -> bool;
  acquire_many : Z -> Sem -> option Sem;
  add_permits : Z -> Sem -> Sem;
  sem_close : Sem -> Sem
}.

Class SemaphoreLaws (Sem : Type) `{SemaphoreOps Sem} := {
  sem_new_permits n : 0 <= n -> sem_permits (sem_new n) = n;
  sem_new_closed n : sem_closed (sem_new n) = false;
  available_bounds s : 0 <= available_permits s <= sem_permits s;
  acquire_many_permits n s s' :
    0 <= n -> acquire_many n s = Some s' ->
    sem_permits s' = sem_permits s - n /\ sem_closed s' = sem_closed s;
  acquire_many_closed n s : sem_closed s = true -> acquire_many n s = None;
  add_permits_permits n s : 0 <= n -> sem_permits (add_permits n s) = sem_permits s + n;
  add_permits_closed n s : sem_closed (add_permits n s) = sem_closed s;
  sem_close_closed s : sem_closed (sem_close s) = true;
  sem_close_permits s : sem_permits (sem_close s) = sem_permits s
}.

(** Fairness: acquires wait in a queue, and what the semaphore gains is set aside for the one at its
    head.  So among the [waiting] acquires of a state one -- the head -- completes as soon as the
    semaphore holds what it needs; the others may wait behind it. *)
Definition head_served {Sem} `{SemaphoreOps Sem} (waiting : list Z) (s : Sem) : Prop :=
  exists n, n ∈ waiting /\ (n <= sem_permits s -> is_Some (acquire_many n s)).

(** ** Unbounded queues

    [q_send] fails when the receiving half is gone; what was sent is received in order.  [q_drop]:
    the receiving half is dropped, with the messages it had not taken. *)
Class QueueOps (Q : Type -> Type) := {
  q_new : forall A, Q A;
  q_items : forall {A}, Q A -> list A;
  q_gone : forall {A}, Q A -> bool;
  q_send : forall {A}, A -> Q A -> option (Q A);
  q_recv : forall {A}, Q A -> option (A * Q A);
  q_drop : forall {A}, Q A -> Q A
}.

Class QueueLaws (Q : Type -> Type) `{QueueOps Q} := {
  q_new_items A : q_items (q_new A) = [];
  q_new_gone A : q_gone (q_new A) = false;
  q_send_items A (a : A) q q' :
    q_send a q = Some q' -> q_items q' = q_items q ++ [a] /\ q_gone q' = q_gone q;
  q_send_gone A (a : A) q : q_send a q = None <-> q_gone q = true;
  q_recv_items A (q : Q A) :
    match q_recv q with
    | Some (a, q') => q_items q = a :: q_items q' /\ q_gone q' = q_gone q
    | None => q_items q = []
    end;
  q_drop_items A (q : Q A) : q_items (q_drop q) = [] /\ q_gone (q_drop q) = true
}.

(** [let _ = tx.send(msg)]: the result is not looked at. *)
Definition send_ignored {Q : Type -> Type} `{QueueOps Q} {A} (a : A) (q : Q A) : Q A :=
  default q (q_send a q).

(** ** Reference instances *)

Record RefSem := { ref_permits : Z; ref_closed : bool }.

#[global] Instance RefSem_ops : SemaphoreOps RefSem := {
  sem_new n := {| ref_permits := n; ref_closed := false |};
  sem_permits s := Z.max 0 (ref_permits s);
  available_permits s := Z.max 0 (ref_permits s);
  sem_closed := ref_closed;
  acquire_many n s :=
    if ref_closed s then None
    else if Z.max 0 (ref_permits s) <? n then None
    else Some {| ref_permits := Z.max 0 (ref_permits s) - n; ref_closed := false |};
  add_permits n s := {| ref_permits := Z.max 0 (ref_permits s) + n; ref_closed := ref_closed s |};
  sem_close s := {| ref_permits := ref_permits s; ref_closed := true |}
}.

#[global] Instance RefSem_laws : SemaphoreLaws RefSem.
Proof.
  split; simpl; intros; try (done || lia).
  - destruct (ref_closed s) eqn:Ec; [done|].
    destruct (Z.ltb_spec (Z.max 0 (ref_permits s)) n); [done|].
    simplify_eq. simpl. split; [lia|done].
  - by destruct (ref_closed s).
Qed.

Record RefQueue (A : Type) := { ref_items : list A; ref_gone : bool }.
Arguments ref_items {A}.
Arguments ref_gone {A}.

#[global] Instance RefQueue_ops : QueueOps RefQueue := {
  q_new A := {| ref_items := []; ref_gone := false |};
  q_items A := ref_items;
  q_gone A := ref_gone;
  q_send A a q :=
    if ref_gone q then None
    else Some {| ref_items := ref_items q ++ [a]; ref_gone := false |};
  q_recv A q :=
    match ref_items q with
    | [] => None
    | a :: l => Some (a, {| ref_items := l; ref_gone := ref_gone q |})
    end;
  q_drop A q := {| ref_items := []; ref_gone := true |}
}.

#[global] Instance RefQueue_laws : QueueLaws RefQueue.
Proof.
  split; simpl; try done.
  - intros A a q q'. destruct (ref_gone q); naive_solver.
  - intros A a q. destruct (ref_gone q); naive_solver.
  - intros A q. destruct (ref_items q) eqn:E; done.
Qed.

(** ** Lemmas *)

Section Lemmas.
Context {Sem : Type} `{SemaphoreLaws Sem}.

Lemma acquire_many_enough n s s' :
  0 <= n -> acquire_many n s = Some s' -> n <= sem_permits s.
Proof.
  intros Hn Ha. destruct (acquire_many_permits n s s' Hn Ha) as [Hp _].
  pose proof (available_bounds s'). lia.
Qed.

Lemma sem_permits_nonneg s : 0 <= sem_permits s.
Proof. pose proof (available_bounds s). lia. Qed.
End Lemmas.

Section QLemmas.
Context {Q : Type -> Type} `{QueueLaws Q} {A : Type}.

Lemma send_ignored_items (a : A) (q : Q A) :
  q_items (send_ignored a q) = if q_gone q then q_items q else q_items q ++ [a].
Proof.
  unfold send_ignored. destruct (q_send a q) as [q'|] eqn:E; simpl.
  - pose proof (q_send_gone A a q) as Hg. destruct (q_gone q).
    + destruct Hg as [_ Hg]. specialize (Hg eq_refl). congruence.
    + by apply q_send_items in E as [-> _].
  - apply q_send_gone in E. by rewrite E.
Qed.

Lemma send_ignored_gone (a : A) (q : Q A) : q_gone (send_ignored a q) = q_gone q.
Proof.
  unfold send_ignored. destruct (q_send a q) as [q'|] eqn:E; simpl; [|done].
  by apply q_send_items in E as [_ ->].
Qed.
End QLemmas.
