(* ===== verification/Redact.v ===== *)
(** * Redact: masking secrets in text for a peer (channel_run/redact.rs)

    [redact_secrets] and its three rules, the shapes they are documented to mask, and the proof that
    the scan masks exactly these.  A scan function takes the bytes from the position on ([b[i..]])
    and returns them cut where the source returns an index. *)
From S2P Require Import Prelude Text Utf8.
From Stdlib Require Strings.String.

#[local] Open Scope Z_scope.

Definition MASK : list byte := as_bytes "[REDACTED]".
Definition HEX_RUN_MIN : Z := 64.
Definition KEYWORDS : list (list byte) :=
  map as_bytes ["authorization"; "api_key"; "api-key"; "apikey"; "password"; "bearer"; "secret"; "token"]%string.

(** [u8]'s methods on ASCII. *)
Definition byte_is (b : byte) (c : ascii) : bool := u8 b =? code c.
Definition alphanumeric (b : byte) : bool := is_ascii_alphanumeric (ascii_of_byte b).
Definition hexdigit (b : byte) : bool := is_ascii_hexdigit (ascii_of_byte b).
Definition lower (b : byte) : byte := byte_of_ascii (ascii_lower (ascii_of_byte b)).
Definition eq_ignore_case (a b : list byte) : bool := bool_decide (map lower a = map lower b).

Definition is_ws (b : byte) : bool := between 9 (u8 b) 13 || byte_is b " ".
Definition is_ident (b : byte) : bool := alphanumeric b || byte_is b "_" || byte_is b "-".
Definition is_b64url (b : byte) : bool := alphanumeric b || byte_is b "-" || byte_is b "_".
Definition is_quote (b : byte) : bool := (u8 b =? 34) || byte_is b "'".
Definition is_separator (b : byte) : bool := byte_is b ":" || byte_is b "=".

(** The loop [while p < b.len() && f(b[p]) { p += 1 }]: the bytes it passes and the rest. *)
Fixpoint scan (f : byte -> bool) (l : list byte) : list byte * list byte :=
  match l with
  | b :: l' => if f b then let '(u, v) := scan f l' in (b :: u, v) else ([], l)
  | [] => ([], [])
  end.
Definition at_most_one (f : byte -> bool) (l : list byte) : list byte * list byte :=
  match l with
  | b :: l' => if f b then ([b], l') else ([], l)
  | [] => ([], [])
  end.

(** The keyword as it is written, what follows it, and whether it is [bearer]. *)
Fixpoint keyword_from (keywords : list (list byte)) (l : list byte) : option (list byte * list byte * bool) :=
  match keywords with
  | [] => None
  | k :: keywords =>
      if (length k <=? length l)%nat && eq_ignore_case (take (length k) l) k
      then Some (take (length k) l, drop (length k) l, bool_decide (k = as_bytes "bearer"))
      else keyword_from keywords l
  end.
Definition keyword_at : list byte -> option (list byte * list byte * bool) := keyword_from KEYWORDS.

Definition value_end (l : list byte) : option (list byte * list byte) :=
  match scan (fun b => negb (is_ws b)) l with
  | ([], _) => None
  | hit => Some hit
  end.
Definition is_scheme (v : list byte) : bool := eq_ignore_case v (as_bytes "bearer") || eq_ignore_case v (as_bytes "basic").

(** What a rule takes from the text: the bytes it copies, those it masks, and what is left. *)
Record Hit := { copied : list byte; masked : list byte; left_ : list byte }.

(** From the end of the keyword to the value: what stands in between. *)
Definition value_start (bearer : bool) (l : list byte) : option (list byte * list byte) :=
  let '(suffix, l1) := if bearer then ([], l)
                       else let '(s, l1) := scan is_ident l in
                            let '(q, l2) := at_most_one is_quote l1 in (s ++ q, l2) in
  let '(gap, l2) := scan is_ws l1 in
  match l2 with
  | c :: l3 =>
      if is_separator c then let '(gap', l4) := scan is_ws l3 in Some (suffix ++ gap ++ c :: gap', l4)
      else if bearer && negb (bool_decide (gap = [])) then Some (suffix ++ gap, l2) else None
  | [] => if bearer && negb (bool_decide (gap = [])) then Some (suffix ++ gap, l2) else None
  end.
Definition redact_keyword_value (l : list byte) : option Hit :=
  match keyword_at l with
  | None => None
  | Some (key, l1, bearer) =>
      match value_start bearer l1 with
      | None => None
      | Some (sep, l2) =>
          match value_end l2 with
          | None => None
          | Some (v, l3) =>
              let plain := Some {| copied := key ++ sep; masked := v; left_ := l3 |} in
              if is_scheme v then
                let '(gap, l4) := scan is_ws l3 in
                match value_end l4 with
                | Some (v', l5) => Some {| copied := key ++ sep ++ v ++ gap; masked := v'; left_ := l5 |}
                | None => plain
                end
              else plain
          end
      end
  end.

Definition holds (f : byte -> bool) (o : option byte) : bool := match o with Some b => f b | None => false end.

Definition redact_jwt (prev : option byte) (l : list byte) : option Hit :=
  if negb (bool_decide (as_bytes "eyJ" `prefix_of` l)) || holds is_b64url prev then None
  else
    let '(header, l1) := scan is_b64url l in
    match l1 with
    | dot :: l2 =>
        if byte_is dot "." then
          match scan is_b64url l2 with
          | ([], _) => None
          | (body, l3) =>
              let two := Some {| copied := []; masked := header ++ dot :: body; left_ := l3 |} in
              match l3 with
              | dot' :: l4 =>
                  if byte_is dot' "." then
                    match scan is_b64url l4 with
                    | ([], _) => two
                    | (signature, l5) => Some {| copied := []; masked := header ++ dot :: body ++ dot' :: signature; left_ := l5 |}
                    end
                  else two
              | [] => two
              end
          end
        else None
    | [] => None
    end.

Definition redact_hex_run (prev : option byte) (l : list byte) : option Hit :=
  if negb (holds hexdigit (head l)) || holds hexdigit prev then None
  else let '(run, l') := scan hexdigit l in
       if Zlen run <? HEX_RUN_MIN then None else Some {| copied := []; masked := run; left_ := l' |}.

(** One turn of the loop: the rules in their order. *)
Definition hit_at (prev : option byte) (l : list byte) : option Hit :=
  match redact_keyword_value l with
  | Some h => Some h
  | None => match redact_jwt prev l with
            | Some h => Some h
            | None => redact_hex_run prev l
            end
  end.
(** A turn passes at least one byte, so the length of the text is enough. *)
Fixpoint redact_loop (fuel : nat) (prev : option byte) (l : list byte) : list byte :=
  match fuel, l with
  | S fuel, b :: l' =>
      match hit_at prev l with
      | Some h => copied h ++ MASK ++ redact_loop fuel (last (copied h ++ masked h)) (left_ h)
      | None => b :: redact_loop fuel (Some b) l'
      end
  | _, _ => []
  end.
Definition redact_bytes (l : list byte) : list byte := redact_loop (length l) None l.
Definition redact_secrets (input : string) : string := from_utf8_lossy (redact_bytes (as_bytes input)).

(** ** The documented shapes *)

Definition keyword (key : list byte) : Prop := exists k, k ∈ KEYWORDS /\ map lower key = map lower k.
Definition all (f : byte -> bool) (l : list byte) : Prop := Forall (fun b => f b = true) l.
(** A value: its first byte is no whitespace. *)
Definition value_at (l : list byte) : Prop := exists b l', l = b :: l' /\ is_ws b = false.

(** A keyword, the rest of its name with a closing quote, a separator, a value. *)
Definition assigns (l : list byte) : Prop := exists key suffix q gap c gap' v,
  l = key ++ suffix ++ q ++ gap ++ c :: gap' ++ v /\ keyword key /\
  (eq_ignore_case key (as_bytes "bearer") = true -> suffix = [] /\ q = []) /\
  all is_ident suffix /\ (q = [] \/ exists b, q = [b] /\ is_quote b = true) /\
  all is_ws gap /\ is_separator c = true /\ all is_ws gap' /\ value_at v.
(** [Bearer <token>] without a separator. *)
Definition bears (l : list byte) : Prop := exists key gap v,
  l = key ++ gap ++ v /\ eq_ignore_case key (as_bytes "bearer") = true /\ gap <> [] /\ all is_ws gap /\ value_at v /\
  holds is_separator (head v) = false.
Definition jwt (prev : option byte) (l : list byte) : Prop := exists header body l',
  l = as_bytes "eyJ" ++ header ++ as_bytes "." ++ body :: l' /\ all is_b64url header /\ is_b64url body = true /\ holds is_b64url prev = false.
Definition long_hex (prev : option byte) (l : list byte) : Prop := exists run l',
  l = run ++ l' /\ all hexdigit run /\ HEX_RUN_MIN <= Zlen run /\ holds hexdigit prev = false.
Definition secret_at (prev : option byte) (l : list byte) : Prop := assigns l \/ bears l \/ jwt prev l \/ long_hex prev l.

(** ** How far a mask reaches *)

(** A run of [f] ends ahead of [rest]; a whole word. *)
Definition ends (f : byte -> bool) (rest : list byte) : Prop := holds f (head rest) = false.
Definition word (v rest : list byte) : Prop :=
  v <> [] /\ all (fun b => negb (is_ws b)) v /\ (rest = [] \/ exists b r', rest = b :: r' /\ is_ws b = true).
(** Between a keyword and what its value starts with. *)
Definition separation (name sep next : list byte) : Prop :=
  (exists suffix q gap c gap', sep = suffix ++ q ++ gap ++ c :: gap' /\
     (eq_ignore_case name (as_bytes "bearer") = true -> suffix = [] /\ q = []) /\
     all is_ident suffix /\ (q = [] \/ exists b, q = [b] /\ is_quote b = true) /\
     all is_ws gap /\ is_separator c = true /\ all is_ws gap') \/
  eq_ignore_case name (as_bytes "bearer") = true /\ sep <> [] /\ all is_ws sep /\ holds is_separator (head next) = false.
(** The value is the whole word that follows; after the word Bearer or Basic it is the whole next one,
    if there is one. *)
Definition value_extent (skipped value rest : list byte) : Prop :=
  skipped = [] /\ word value rest /\ (is_scheme value = true -> all is_ws rest) \/
  exists scheme gap, skipped = scheme ++ gap /\ is_scheme scheme = true /\ word scheme (gap ++ value ++ rest) /\
    all is_ws gap /\ word value rest.
Definition keyword_extent (key value rest : list byte) : Prop := exists name sep skipped,
  key = name ++ sep ++ skipped /\ keyword name /\ separation name sep (skipped ++ value ++ rest) /\ value_extent skipped value rest.
(** Two whole segments, and the third where there is one. *)
Definition jwt_extent (prev : option byte) (value rest : list byte) : Prop :=
  holds is_b64url prev = false /\ exists header body tail,
    value = as_bytes "eyJ" ++ header ++ as_bytes "." ++ body ++ tail /\ all is_b64url header /\ all is_b64url body /\ body <> [] /\
    ends is_b64url rest /\
    (tail = [] /\ (forall rest', rest = as_bytes "." ++ rest' -> ends is_b64url rest') \/
     exists signature, tail = as_bytes "." ++ signature /\ signature <> [] /\ all is_b64url signature).
Definition hex_extent (prev : option byte) (value rest : list byte) : Prop :=
  all hexdigit value /\ HEX_RUN_MIN <= Zlen value /\ holds hexdigit prev = false /\ ends hexdigit rest.
(** Ahead of [rest], with [prev] before: what is copied and what is masked.  A keyword goes before a
    JWT, which goes before a hex run. *)
Definition extent (prev : option byte) (key value rest : list byte) : Prop :=
  keyword_extent key value rest \/
  key = [] /\ ~ assigns (value ++ rest) /\ ~ bears (value ++ rest) /\
    (jwt_extent prev value rest \/ ~ jwt prev (value ++ rest) /\ hex_extent prev value rest).

(** ** The scans *)

Lemma scan_spec f l u v : scan f l = (u, v) -> l = u ++ v /\ all f u /\ holds f (head v) = false.
Proof.
  revert u v. induction l as [|b l IH]; intros u v; cbn [scan]; [intros [= <- <-]; repeat split; constructor|].
  destruct (f b) eqn:Eb; [|intros [= <- <-]; repeat split; [constructor|done]].
  destruct (scan f l) as [u' v'] eqn:E. intros [= <- <-]. destruct (IH u' v' eq_refl) as (-> & Hu & Hv).
  repeat split; [by constructor|done].
Qed.
Lemma scan_all f u v : all f u -> holds f (head v) = false -> scan f (u ++ v) = (u, v).
Proof.
  intros Hu Hv. induction Hu as [|b u Hb _ IH]; cbn [app scan].
  - destruct v as [|b v]; [done|]. cbn [scan]. cbn [head holds] in Hv. by rewrite Hv.
  - by rewrite Hb, IH.
Qed.
Lemma at_most_one_spec f l u v : at_most_one f l = (u, v) -> l = u ++ v /\ (u = [] \/ exists b, u = [b] /\ f b = true).
Proof. destruct l as [|b l]; cbn; [by intros [= <- <-]; auto|]. destruct (f b) eqn:Eb; intros [= <- <-]; eauto. Qed.
Lemma value_end_spec l v r : value_end l = Some (v, r) ->
  l = v ++ r /\ v <> [] /\ all (fun b => negb (is_ws b)) v /\ (r = [] \/ exists b r', r = b :: r' /\ is_ws b = true).
Proof.
  unfold value_end. destruct (scan _ l) as [u w] eqn:E. apply scan_spec in E as (-> & Hu & Hw).
  destruct u as [|b u]; [done|]. intros [= <- <-]. repeat split; [done..|].
  destruct w as [|c w]; [by left|]. right. cbn in Hw. apply negb_false_iff in Hw. eauto.
Qed.
Lemma value_end_at l : value_end l = None <-> ~ value_at l.
Proof.
  unfold value_end, value_at. destruct l as [|b l]; cbn [scan].
  - split; [intros _ (? & ? & ? & _); done|done].
  - destruct (is_ws b) eqn:Eb; cbn [negb].
    + split; [intros _ (? & ? & [= <- <-] & ?); congruence|done].
    + destruct (scan _ l) as [u w]. split; [done|]. intros []. eauto.
Qed.

(** The classes of bytes are disjoint. *)
Lemma ident_class b : is_ident b = true -> is_quote b = false /\ is_ws b = false /\ is_separator b = false.
Proof. by destruct b. Qed.
Lemma ws_class b : is_ws b = true -> is_ident b = false /\ is_quote b = false /\ is_separator b = false.
Proof. by destruct b. Qed.
Lemma separator_class b : is_separator b = true -> is_ident b = false /\ is_quote b = false /\ is_ws b = false.
Proof. by destruct b. Qed.
Lemma quote_class b : is_quote b = true -> is_ident b = false /\ is_ws b = false /\ is_separator b = false.
Proof. by destruct b. Qed.

Lemma head_gap f gap c v : all is_ws gap -> f c = false -> (forall b, is_ws b = true -> f b = false) -> holds f (head (gap ++ c :: v)) = false.
Proof. intros Hg Hc Hf. destruct Hg; cbn; auto. Qed.

(** ** Keywords *)

Lemma keywords_distinct k1 k2 : k1 ∈ KEYWORDS -> k2 ∈ KEYWORDS -> map lower k1 `prefix_of` map lower k2 -> k1 = k2.
Proof.
  assert (Forall (fun k1 => Forall (fun k2 => map lower k1 `prefix_of` map lower k2 -> k1 = k2) KEYWORDS) KEYWORDS) as H
    by (refine (proj1 (bool_decide_eq_true _) _); vm_compute; reflexivity).
  rewrite Forall_forall in H. intros H1 H2. specialize (H k1 H1). rewrite Forall_forall in H. by apply H.
Qed.
Lemma keyword_from_Some ks l key r bearer : keyword_from ks l = Some (key, r, bearer) ->
  l = key ++ r /\ exists k, k ∈ ks /\ map lower key = map lower k /\ bearer = bool_decide (k = as_bytes "bearer").
Proof.
  induction ks as [|k ks IH]; cbn [keyword_from]; [done|]. destruct (_ && _) eqn:E.
  - apply andb_true_iff in E as [_ E]. unfold eq_ignore_case in E. apply bool_decide_eq_true in E.
    intros [= <- <- <-]. split; [by rewrite take_drop|]. exists k. repeat split; [by left|done].
  - intros H. destruct (IH H) as (-> & k' & Hk & Hr). split; [done|]. exists k'. split; [by right|done].
Qed.
Lemma keyword_from_None ks l k r : keyword_from ks (k ++ r) = None -> l ∈ ks -> map lower k = map lower l -> False.
Proof.
  intros H Hl E. assert (length k = length l) as En by (by rewrite <-(length_map lower k), E, length_map).
  induction ks as [|k' ks IH]; [by apply elem_of_nil in Hl|]. cbn [keyword_from] in H.
  destruct (_ && _) eqn:Ek in H; [done|]. apply elem_of_cons in Hl as [->|Hl]; [|by apply IH].
  rewrite <-En in Ek. rewrite take_app_length in Ek. unfold eq_ignore_case in Ek. rewrite bool_decide_true in Ek by done.
  rewrite andb_true_r, length_app in Ek. apply Nat.leb_gt in Ek. lia.
Qed.
Lemma keyword_at_Some l key r bearer : keyword_at l = Some (key, r, bearer) ->
  l = key ++ r /\ keyword key /\ bearer = eq_ignore_case key (as_bytes "bearer").
Proof.
  intros (-> & k & Hk & E & ->)%keyword_from_Some. split; [done|]. split; [by exists k|].
  apply bool_decide_ext. rewrite E. split; [by intros ->|]. intros Eb. apply keywords_distinct; [done| |by rewrite Eb].
  vm_compute. set_solver.
Qed.
Lemma keyword_at_complete key r : keyword key -> keyword_at (key ++ r) = Some (key, r, eq_ignore_case key (as_bytes "bearer")).
Proof.
  intros (k & Hk & E). destruct (keyword_at (key ++ r)) as [[[key' r'] bearer]|] eqn:Ea.
  - destruct (keyword_at_Some _ _ _ _ Ea) as (El & (k' & Hk' & E') & ->).
    assert (map lower key `prefix_of` map lower key' \/ map lower key' `prefix_of` map lower key) as Hp.
    { apply (prefix_weak_total _ _ (map lower (key ++ r))); [rewrite map_app; by eexists|rewrite El, map_app; by eexists]. }
    assert (k = k') as <- by (rewrite E, E' in Hp; destruct Hp; [|symmetry]; by apply keywords_distinct).
    apply app_inj_1 in El as [<- <-]; [done|]. by rewrite <-(length_map lower key), E, <-E', length_map.
  - exfalso. by apply (keyword_from_None KEYWORDS k key r).
Qed.

(** ** The rules and their shapes *)

Definition name_end (bearer : bool) (suffix q : list byte) : Prop :=
  (bearer = true -> suffix = [] /\ q = []) /\ all is_ident suffix /\ (q = [] \/ exists b, q = [b] /\ is_quote b = true).

Lemma value_start_Some bearer l sep r : value_start bearer l = Some (sep, r) -> l = sep ++ r /\
  ((exists suffix q gap c gap', sep = suffix ++ q ++ gap ++ c :: gap' /\ name_end bearer suffix q /\
      all is_ws gap /\ is_separator c = true /\ all is_ws gap') \/
   bearer = true /\ sep <> [] /\ all is_ws sep /\ holds is_separator (head r) = false).
Proof.
  unfold value_start. destruct (if bearer then _ else _) as [s l1] eqn:E.
  assert (exists suffix q, s = suffix ++ q /\ l = s ++ l1 /\ name_end bearer suffix q) as (suffix & q & -> & -> & Hn).
  { destruct bearer.
    - injection E as <- <-. exists [], []. unfold name_end, all. repeat split; [constructor|by left].
    - destruct (scan is_ident l) as [s' l'] eqn:Es. apply scan_spec in Es as (-> & Hs & _).
      destruct (at_most_one is_quote l') as [q l''] eqn:Eq. injection E as <- <-. apply at_most_one_spec in Eq as [-> Hq].
      exists s', q. rewrite app_assoc. by unfold name_end. }
  destruct (scan is_ws l1) as [gap l2] eqn:Eg. apply scan_spec in Eg as (-> & Hg & Hh).
  assert (forall l2, holds is_separator (head l2) = false ->
    (if bearer && negb (bool_decide (gap = [])) then Some ((suffix ++ q) ++ gap, l2) else None) = Some (sep, r) ->
    sep = (suffix ++ q) ++ gap /\ l2 = r /\ bearer = true /\ sep <> [] /\ all is_ws sep) as Hb.
  { intros l3 _ Hb. destruct (_ && _) eqn:Eb; [|done]. injection Hb as <- ->. apply andb_true_iff in Eb as [-> Eg%negb_true_iff%bool_decide_eq_false].
    destruct Hn as [[-> ->] _]; [done|]. by destruct gap. }
  destruct l2 as [|c l3].
  - intros H. apply Hb in H as (-> & <- & -> & Hn' & Ha); [|done]. split; [by rewrite <-!app_assoc|]. by right.
  - destruct (is_separator c) eqn:Ec.
    + destruct (scan is_ws l3) as [gap' l4] eqn:Eg. apply scan_spec in Eg as (-> & Hg' & _). intros [= <- <-].
      rewrite <-!app_assoc. split; [done|]. left. exists suffix, q, gap, c, gap'. done.
    + intros H. apply Hb in H as (-> & <- & -> & Hn' & Ha); [|done]. split; [by rewrite <-!app_assoc|]. by right.
Qed.

Lemma scan_name bearer suffix q k : name_end bearer suffix q -> holds is_ident (head k) = false -> holds is_quote (head k) = false ->
  (if bearer then ([], suffix ++ q ++ k)
   else let '(s, l1) := scan is_ident (suffix ++ q ++ k) in let '(q', l2) := at_most_one is_quote l1 in (s ++ q', l2)) = (suffix ++ q, k).
Proof.
  intros (Hb & Hs & Hq) Hi Hk. destruct bearer; [destruct Hb as [-> ->]; done|].
  destruct Hq as [->|(b & -> & Hq)].
  - cbn [app]. rewrite scan_all by done. destruct k as [|c k]; cbn [at_most_one]; [done|]. cbn [head holds] in Hk. by rewrite Hk.
  - rewrite scan_all; [|done|cbn; apply quote_class in Hq; tauto]. cbn [app at_most_one]. by rewrite Hq.
Qed.
Lemma value_start_assigned bearer suffix q gap c gap' v : name_end bearer suffix q -> all is_ws gap ->
  is_separator c = true -> all is_ws gap' -> value_at v ->
  value_start bearer (suffix ++ q ++ gap ++ c :: gap' ++ v) = Some (suffix ++ q ++ gap ++ c :: gap', v).
Proof.
  intros Hn Hg Hc Hg' (b & v' & -> & Hb). unfold value_start. pose proof (separator_class c Hc) as (Hc1 & Hc2 & Hc3).
  rewrite scan_name; [|done|by apply head_gap; [..|intros x Hx; by apply ws_class in Hx as (? & ? & ?)]..].
  rewrite scan_all, Hc, scan_all by done. by rewrite <-!app_assoc.
Qed.
Lemma value_start_borne gap v : gap <> [] -> all is_ws gap -> value_at v -> holds is_separator (head v) = false ->
  value_start true (gap ++ v) = Some (gap, v).
Proof.
  intros Hn Hg (b & v' & -> & Hb) Hs. unfold value_start. rewrite scan_all by done. cbn [head holds] in Hs. rewrite Hs, bool_decide_false by done. done.
Qed.

(** What every rule promises of its hit. *)
Definition fair (l : list byte) (h : Hit) : Prop := l = copied h ++ masked h ++ left_ h /\ masked h <> [].

Lemma value_end_value l v r : value_end l = Some (v, r) -> value_at l.
Proof.
  intros (-> & Hn & Hv & _)%value_end_spec. destruct v as [|b v]; [done|]. exists b, (v ++ r). split; [done|].
  apply Forall_cons in Hv as [Hb _]. by apply negb_true_iff.
Qed.
Lemma value_extent_run l v r : value_end l = Some (v, r) ->
  exists skipped value rest, value_extent skipped value rest /\ l = skipped ++ value ++ rest /\
  (forall f : list byte -> list byte -> list byte -> option Hit,
    (if is_scheme v then
       let '(gap, l4) := scan is_ws r in
       match value_end l4 with Some (v', l5) => f (v ++ gap) v' l5 | None => f [] v r end
     else f [] v r) = f skipped value rest).
Proof.
  intros (-> & Hn & Hv & Hr)%value_end_spec. destruct (is_scheme v) eqn:Ei.
  - destruct (scan is_ws r) as [gap l4] eqn:Eg. apply scan_spec in Eg as (-> & Hg & Hh).
    destruct (value_end l4) as [[v' l5]|] eqn:Ev.
    + apply value_end_spec in Ev as (-> & Hn' & Hv' & Hr'). exists (v ++ gap), v', l5. split; [|by rewrite <-app_assoc].
      right. by exists v, gap.
    + exists [], v, (gap ++ l4). split; [|done]. left. split; [done|]. split; [done|]. intros _.
      apply value_end_at in Ev. destruct l4 as [|b l4]; [by rewrite app_nil_r|]. destruct Ev. by exists b, l4.
  - exists [], v, r. split; [|done]. left. split; [done|]. split; [done|]. congruence.
Qed.
Lemma redact_keyword_value_extent l h : redact_keyword_value l = Some h -> keyword_extent (copied h) (masked h) (left_ h).
Proof.
  unfold redact_keyword_value. destruct (keyword_at l) as [[[key l1] bearer]|] eqn:Ek; [|done].
  apply keyword_at_Some in Ek as (-> & Hk & ->). destruct (value_start _ l1) as [[sep l2]|] eqn:Es; [|done].
  apply value_start_Some in Es as [-> Hs]. destruct (value_end l2) as [[v l3]|] eqn:Ev; [|done].
  destruct (value_extent_run _ _ _ Ev) as (skipped & value & rest & He & -> & Hf).
  specialize (Hf (fun k v r => Some {| copied := key ++ sep ++ k; masked := v; left_ := r |})). cbn beta in Hf.
  rewrite app_nil_r in Hf. intros H. assert (h = {| copied := key ++ sep ++ skipped; masked := value; left_ := rest |}) as ->.
  { revert H Hf. destruct (is_scheme v); [|congruence]. destruct (scan is_ws l3) as [gap l4].
    destruct (value_end l4) as [[]|]; congruence. }
  cbn [copied masked left_]. exists key, sep, skipped. split; [done|]. split; [done|]. split; [|done].
  destruct Hs as [(suffix & q & gap & c & gap' & -> & (Hb & Hsx & Hq) & Hr)|Hs]; [left|right; exact Hs].
  by exists suffix, q, gap, c, gap'.
Qed.
Lemma redact_keyword_value_Some l h : redact_keyword_value l = Some h -> fair l h /\ (assigns l \/ bears l).
Proof.
  unfold redact_keyword_value, fair. destruct (keyword_at l) as [[[key l1] bearer]|] eqn:Ek; [|done].
  apply keyword_at_Some in Ek as (-> & Hk & ->). destruct (value_start _ l1) as [[sep l2]|] eqn:Es; [|done].
  apply value_start_Some in Es as [-> Hs]. destruct (value_end l2) as [[v l3]|] eqn:Ev; [|done].
  pose proof (value_end_value _ _ _ Ev) as Hv. pose proof (value_end_spec _ _ _ Ev) as (-> & Hn & _ & _). intros H. split.
  - destruct (is_scheme v); [|injection H as <-; cbn [copied masked left_]; by rewrite <-!app_assoc].
    destruct (scan is_ws l3) as [gap l4] eqn:Eg. apply scan_spec in Eg as (-> & _ & _).
    destruct (value_end l4) as [[v' l5]|] eqn:Ev'; injection H as <-; cbn [copied masked left_]; rewrite <-!app_assoc; [|done].
    by apply value_end_spec in Ev' as (-> & ? & _ & _).
  - clear H. destruct Hs as [(suffix & q & gap & c & gap' & -> & (Hb & Hsx & Hq) & Hg & Hc & Hg')|(Eb & Hs & Ha & Hh)].
    + left. exists key, suffix, q, gap, c, gap', (v ++ l3). by rewrite <-!app_assoc.
    + right. by exists key, sep, (v ++ l3).
Qed.
Lemma keyword_value_complete key sep v : keyword key -> value_at v ->
  value_start (eq_ignore_case key (as_bytes "bearer")) (sep ++ v) = Some (sep, v) -> redact_keyword_value (key ++ sep ++ v) <> None.
Proof.
  intros Hk Hv Hs. unfold redact_keyword_value. rewrite keyword_at_complete, Hs by done.
  destruct (value_end v) as [[u r]|] eqn:Ev; [|by apply value_end_at in Ev]. destruct (is_scheme u); [|done].
  destruct (scan is_ws r) as [gap l4]. by destruct (value_end l4) as [[]|].
Qed.
Lemma redact_keyword_value_None l : redact_keyword_value l = None -> ~ assigns l /\ ~ bears l.
Proof.
  intros H. split.
  - intros (key & suffix & q & gap & c & gap' & v & -> & Hk & Hb & Hs & Hq & Hg & Hc & Hg' & Hv). revert H.
    replace (key ++ suffix ++ q ++ gap ++ c :: gap' ++ v) with (key ++ (suffix ++ q ++ gap ++ c :: gap') ++ v)
      by by rewrite <-!app_assoc.
    apply keyword_value_complete; [done..|]. rewrite <-!app_assoc. by apply value_start_assigned.
  - intros (key & gap & v & -> & Hk & Hn & Hg & Hv & Hs). revert H. apply keyword_value_complete; [|done|].
    + exists (as_bytes "bearer"). split; [vm_compute; set_solver|]. by apply bool_decide_eq_true in Hk.
    + rewrite Hk. by apply value_start_borne.
Qed.

Lemma eyJ_b64 : all is_b64url (as_bytes "eyJ").
Proof. by repeat constructor. Qed.
Lemma scan_through f u l : all f u -> scan f (u ++ l) = (let '(v, r) := scan f l in (u ++ v, r)).
Proof. induction 1 as [|b u Hb _ IH]; cbn [app scan]; [by destruct (scan f l)|]. rewrite Hb, IH. by destruct (scan f l). Qed.

Ltac joined := cbn [copied masked left_ app as_bytes]; repeat (rewrite <-app_assoc; cbn [app]).
Lemma redact_jwt_Some prev l h : redact_jwt prev l = Some h -> fair l h /\ jwt prev l.
Proof.
  unfold redact_jwt, fair. destruct (_ || _) eqn:E; [done|]. apply orb_false_iff in E as [E Hp].
  apply negb_false_iff, bool_decide_eq_true in E as [k ->]. rewrite scan_through by apply eyJ_b64.
  destruct (scan is_b64url k) as [h1 l1] eqn:Eh. apply scan_spec in Eh as (-> & Hh & _).
  destruct l1 as [|dot l2]; [done|]. destruct (byte_is dot ".") eqn:Ed; [|done].
  destruct (scan is_b64url l2) as [body l3] eqn:Eb. apply scan_spec in Eb as (-> & Hb & _). destruct body as [|b body]; [done|].
  intros H. split.
  - destruct l3 as [|dot' l4]; [injection H as <-; split; [joined; by rewrite !app_nil_r|done]|].
    destruct (byte_is dot' "."); [|injection H as <-; split; [by joined|done]].
    destruct (scan is_b64url l4) as [[|s sig] l5] eqn:Es; injection H as <-; [split; [by joined|done]|].
    apply scan_spec in Es as (-> & _ & _). split; [by joined|done].
  - apply Forall_cons in Hb as [Hb _]. exists h1, b, (body ++ l3). assert (dot = byte_of_ascii ".") as -> by by destruct dot.
    done.
Qed.
Lemma redact_jwt_extent prev l h : redact_jwt prev l = Some h -> copied h = [] /\ jwt_extent prev (masked h) (left_ h).
Proof.
  unfold redact_jwt. destruct (_ || _) eqn:E; [done|]. apply orb_false_iff in E as [E Hp].
  apply negb_false_iff, bool_decide_eq_true in E as [k ->]. rewrite scan_through by apply eyJ_b64.
  destruct (scan is_b64url k) as [h1 l1] eqn:Eh. apply scan_spec in Eh as (-> & Hh & _).
  destruct l1 as [|dot l2]; [done|]. destruct (byte_is dot ".") eqn:Ed; [|done].
  destruct (scan is_b64url l2) as [body l3] eqn:Eb. apply scan_spec in Eb as (-> & Hb & Hl3). destruct body as [|b body]; [done|].
  assert (dot = byte_of_ascii ".") as -> by by destruct dot. intros H.
  assert (forall r, r = l3 -> (forall rest', r = as_bytes "." ++ rest' -> ends is_b64url rest') ->
    jwt_extent prev ((as_bytes "eyJ" ++ h1) ++ byte_of_ascii "." :: b :: body) r) as Htwo.
  { intros r -> Hend. split; [done|]. exists h1, (b :: body), []. rewrite app_nil_r, <-app_assoc. split; [done|].
    split; [done|]. split; [done|]. split; [done|]. split; [exact Hl3|]. by left. }
  destruct l3 as [|dot' l4]; [injection H as <-; split; [done|by apply Htwo]|].
  destruct (byte_is dot' ".") eqn:Ed'; [|injection H as <-; split; [done|apply Htwo; [done|]; intros rest' [= -> _]; discriminate Ed']].
  assert (dot' = byte_of_ascii ".") as -> by by destruct dot'.
  destruct (scan is_b64url l4) as [[|s sig] l5] eqn:Es; injection H as <-; apply scan_spec in Es as (-> & Hs & Hl5);
    (split; [done|]); [apply Htwo; [done|by intros rest' [= <-]]|].
  split; [done|]. exists h1, (b :: body), (as_bytes "." ++ s :: sig). cbn [masked left_]. split; [by joined|].
  split; [done|]. split; [done|]. split; [done|]. split; [exact Hl5|]. right. by exists (s :: sig).
Qed.
Lemma redact_jwt_None prev l : redact_jwt prev l = None -> ~ jwt prev l.
Proof.
  intros H (h & b & l' & -> & Hh & Hb & Hp). unfold redact_jwt in H. rewrite Hp, bool_decide_true in H by by eexists.
  cbn [negb orb] in H. rewrite scan_through in H by apply eyJ_b64. rewrite scan_all in H by done.
  cbn [as_bytes String.list_byte_of_string String.list_ascii_of_string map app] in H.
  change (byte_is (byte_of_ascii ".") ".") with true in H. cbn [scan] in H. rewrite Hb in H. destruct (scan is_b64url l') as [body l3].
  destruct l3 as [|d l4]; [done|]. destruct (byte_is d "."); [|done]. by destruct (scan is_b64url l4) as [[] ?].
Qed.

Lemma redact_hex_run_Some prev l h : redact_hex_run prev l = Some h -> fair l h /\ long_hex prev l.
Proof.
  unfold redact_hex_run, fair. destruct (_ || _) eqn:E; [done|]. apply orb_false_iff in E as [_ Hp].
  destruct (scan hexdigit l) as [run l'] eqn:Es. apply scan_spec in Es as (-> & Hr & _). destruct (Zlen run <? HEX_RUN_MIN) eqn:En; [done|].
  intros [= <-]. cbn. apply Z.ltb_ge in En. repeat split; [|by exists run, l'].
  unfold HEX_RUN_MIN in En. by destruct run.
Qed.
Lemma redact_hex_run_extent prev l h : redact_hex_run prev l = Some h -> copied h = [] /\ hex_extent prev (masked h) (left_ h).
Proof.
  unfold redact_hex_run. destruct (_ || _) eqn:E; [done|]. apply orb_false_iff in E as [_ Hp].
  destruct (scan hexdigit l) as [run l'] eqn:Es. apply scan_spec in Es as (-> & Hr & Hl). destruct (Zlen run <? HEX_RUN_MIN) eqn:En; [done|].
  intros [= <-]. apply Z.ltb_ge in En. split; [done|]. by split_and!.
Qed.
Lemma redact_hex_run_None prev l : redact_hex_run prev l = None -> ~ long_hex prev l.
Proof.
  intros H (run & l' & -> & Hr & Hn & Hp). unfold redact_hex_run in H. rewrite Hp, orb_false_r in H.
  rewrite scan_through in H by done. destruct (scan hexdigit l') as [v r].
  assert (HEX_RUN_MIN <= Zlen (run ++ v)) as Hn' by (rewrite length_app; lia). rewrite (proj2 (Z.ltb_ge _ _) Hn') in H.
  destruct run as [|b run]; [by unfold HEX_RUN_MIN in Hn|]. apply Forall_cons in Hr as [Hb _]. cbn in H. by rewrite Hb in H.
Qed.

Lemma hit_at_Some prev l h : hit_at prev l = Some h -> fair l h /\ secret_at prev l.
Proof.
  unfold hit_at, secret_at. destruct (redact_keyword_value l) eqn:E1; [intros [= <-]; apply redact_keyword_value_Some in E1; tauto|].
  destruct (redact_jwt prev l) eqn:E2; [intros [= <-]; apply redact_jwt_Some in E2; tauto|].
  intros [? ?]%redact_hex_run_Some. tauto.
Qed.
Lemma hit_at_extent prev l h : hit_at prev l = Some h -> extent prev (copied h) (masked h) (left_ h).
Proof.
  intros Eh. pose proof (hit_at_Some _ _ _ Eh) as [[El _] _]. unfold hit_at in Eh. unfold extent.
  destruct (redact_keyword_value l) eqn:E1; [injection Eh as <-; left; by eapply redact_keyword_value_extent|].
  apply redact_keyword_value_None in E1 as [Ha Hb]. right. destruct (redact_jwt prev l) eqn:E2.
  - injection Eh as <-. apply redact_jwt_extent in E2 as [Hc Hj]. rewrite Hc in El. cbn [app] in El. rewrite El in Ha, Hb. auto.
  - apply redact_jwt_None in E2. apply redact_hex_run_extent in Eh as [Hc Hj]. rewrite Hc in El. cbn [app] in El.
    rewrite El in Ha, Hb, E2. auto 6.
Qed.
Lemma hit_at_None prev l : hit_at prev l = None -> ~ secret_at prev l.
Proof.
  unfold hit_at, secret_at. destruct (redact_keyword_value l) eqn:E1; [done|]. destruct (redact_jwt prev l) eqn:E2; [done|].
  intros E3. apply redact_keyword_value_None in E1. apply redact_jwt_None in E2. apply redact_hex_run_None in E3. tauto.
Qed.

(** ** The scan *)

(** A stretch of the text: a byte shown as it is, or a key shown before a masked value. *)
Inductive Piece := Shown (b : byte) | Masked (key value : list byte).
Definition source (p : Piece) : list byte := match p with Shown b => [b] | Masked key value => key ++ value end.
Definition shown (p : Piece) : list byte := match p with Shown b => [b] | Masked key _ => key ++ MASK end.
(** A piece after [before] and ahead of [after]: masked exactly where a shape begins, and as far as
    that shape reaches. *)
Definition right_piece (before : list byte) (p : Piece) (after : list byte) : Prop :=
  match p with
  | Shown _ => ~ secret_at (last before) (source p ++ after)
  | Masked key value => secret_at (last before) (source p ++ after) /\ value <> [] /\ extent (last before) key value after
  end.
Definition pieces_right (before : list byte) (ps : list Piece) : Prop := forall p1 p p2, ps = p1 ++ p :: p2 ->
  right_piece (before ++ concat (map source p1)) p (concat (map source p2)).

Lemma pieces_right_cons before p ps : right_piece before p (concat (map source ps)) -> pieces_right (before ++ source p) ps -> pieces_right before (p :: ps).
Proof.
  intros Hp Hps [|p' p1] x p2 E; injection E as -> E; [subst; by rewrite app_nil_r|].
  specialize (Hps p1 x p2 E). cbn [map concat]. by rewrite app_assoc.
Qed.
Lemma redact_loop_pieces fuel before l : (length l <= fuel)%nat -> exists ps,
  l = concat (map source ps) /\ redact_loop fuel (last before) l = concat (map shown ps) /\ pieces_right before ps.
Proof.
  revert before l. induction fuel as [|fuel IH]; intros before l Hl.
  { destruct l; [|cbn in Hl; lia]. exists []. repeat split. by intros [|]. }
  destruct l as [|b l]; [exists []; repeat split; by intros [|]|]. cbn [redact_loop].
  destruct (hit_at (last before) (b :: l)) as [h|] eqn:Eh.
  - pose proof (hit_at_Some _ _ _ Eh) as [[E Hn] Hs]. destruct (IH (before ++ copied h ++ masked h) (left_ h)) as (ps & El & Eo & Hr).
    { pose proof (f_equal length E) as En. rewrite !length_app in En. destruct (masked h); [done|]. cbn in *. lia. }
    exists (Masked (copied h) (masked h) :: ps). cbn [map concat source shown]. rewrite <-El, <-!app_assoc. split; [done|]. split.
    + rewrite <-Eo. f_equal. f_equal. f_equal. rewrite !last_app. destruct (last (masked h)) eqn:Em; [done|].
      by apply last_None in Em.
    + apply pieces_right_cons; [|done]. unfold right_piece. cbn [source]. rewrite <-El, <-app_assoc, <-E.
      split; [done|]. split; [done|]. by apply (hit_at_extent _ _ _ Eh).
  - apply hit_at_None in Eh. destruct (IH (before ++ [b]) l) as (ps & El & Eo & Hr); [cbn in Hl; lia|].
    exists (Shown b :: ps). cbn [map concat source shown app]. rewrite last_snoc in Eo. rewrite <-El, Eo. split; [done|]. split; [done|].
    apply pieces_right_cons; [|done]. unfold right_piece. cbn [source app]. by rewrite <-El.
Qed.

(** ** The result *)

Definition ascii (b : byte) : bool := u8 b <=? 127.
(** Every cut of a rule falls between characters. *)
Definition cuts_characters (h : Hit) : Prop := all ascii (copied h) /\
  (all ascii (masked h) \/ copied h <> [] /\ (left_ h = [] \/ exists b l, left_ h = b :: l /\ is_ws b = true)).

Lemma class_ascii b : is_ident b = true \/ is_ws b = true \/ is_separator b = true \/ is_quote b = true \/ is_b64url b = true \/ hexdigit b = true -> ascii b = true.
Proof. destruct b; try done; cbv; intros H; repeat (destruct H as [H|H]); discriminate H. Qed.
Lemma all_ascii f l : (forall b, f b = true -> ascii b = true) -> all f l -> all ascii l.
Proof. intros Hf Hl. eapply Forall_impl; [exact Hl|]. intros b Hb. by apply Hf. Qed.
Lemma lower_ascii a b : lower a = lower b -> ascii b = true -> ascii a = true.
Proof.
  intros E. assert (forall x, ascii (lower x) = ascii x) as Hl by by intros []. rewrite <-(Hl a), <-(Hl b). by rewrite E.
Qed.
Lemma map_lower_ascii l k : map lower l = map lower k -> all ascii k -> all ascii l.
Proof.
  intros E Hk. revert l E. induction Hk as [|b k Hb _ IH]; intros [|a l] [=]; [constructor|].
  constructor; [by eapply lower_ascii|by apply IH].
Qed.
Lemma keyword_ascii key : keyword key -> all ascii key.
Proof.
  intros (k & Hk & E). apply (map_lower_ascii _ _ E).
  assert (Forall (all ascii) KEYWORDS) as H by (refine (proj1 (bool_decide_eq_true _) _); vm_compute; reflexivity).
  rewrite Forall_forall in H. by apply H.
Qed.
Lemma scheme_ascii v : is_scheme v = true -> all ascii v.
Proof.
  intros [H|H]%orb_true_iff; apply bool_decide_eq_true in H; eapply map_lower_ascii; try exact H; by repeat constructor.
Qed.
#[local] Hint Resolve class_ascii : core.
Lemma separation_ascii bearer l sep r : value_start bearer l = Some (sep, r) -> all ascii sep.
Proof.
  intros [_ [(suffix & q & gap & c & gap' & -> & (_ & Hs & Hq) & Hg & Hc & Hg')|(_ & _ & Hs & _)]]%value_start_Some;
    [|by eapply all_ascii; [|exact Hs]; auto].
  apply Forall_app; split; [by eapply all_ascii; [|exact Hs]; auto|]. apply Forall_app; split.
  { destruct Hq as [->|(b & -> & Hq)]; constructor; [auto 6|constructor]. }
  apply Forall_app; split; [by eapply all_ascii; [|exact Hg]; auto|]. constructor; [auto 6|by eapply all_ascii; [|exact Hg']; auto].
Qed.

Lemma keyword_value_cuts l h : redact_keyword_value l = Some h -> cuts_characters h.
Proof.
  unfold redact_keyword_value. destruct (keyword_at l) as [[[key l1] bearer]|] eqn:Ek; [|done].
  apply keyword_at_Some in Ek as (-> & Hk & ->). destruct (value_start _ l1) as [[sep l2]|] eqn:Es; [|done].
  apply separation_ascii in Es as Ha. destruct (value_end l2) as [[v l3]|] eqn:Ev; [|done].
  apply value_end_spec in Ev as (-> & Hn & _ & Hl). apply keyword_ascii in Hk as Hka.
  assert (forall k, key ++ k <> []) as Hne by (intros k [-> _]%app_eq_nil; destruct Hk as (k' & Hk' & E);
    repeat (apply elem_of_cons in Hk' as [->|Hk']; [done|]); by apply elem_of_nil in Hk').
  assert (cuts_characters {| copied := key ++ sep; masked := v; left_ := l3 |}) as Hplain.
  { split; [by apply Forall_app|]. right. split; [apply Hne|done]. }
  destruct (is_scheme v) eqn:Ei; [|by intros [= <-]]. destruct (scan is_ws l3) as [gap l4] eqn:Eg. apply scan_spec in Eg as (-> & Hg & _).
  destruct (value_end l4) as [[v' l5]|] eqn:Ev'; intros [= <-]; [|done]. apply value_end_spec in Ev' as (-> & Hn' & _ & Hl').
  split; cbn [copied masked left_]; [|right; split; [apply Hne|done]].
  repeat (apply Forall_app; split); [done|done|by apply scheme_ascii|by eapply all_ascii; [|exact Hg]; auto].
Qed.
Lemma redact_jwt_cuts prev l h : redact_jwt prev l = Some h -> cuts_characters h.
Proof.
  assert (forall u, all is_b64url u -> all ascii u) as Hb by (intros u; apply all_ascii; auto 7).
  unfold redact_jwt. destruct (_ || _); [done|]. destruct (scan is_b64url l) as [hd l1] eqn:Eh. apply scan_spec in Eh as (_ & Hh%Hb & _).
  destruct l1 as [|dot l2]; [done|]. destruct (byte_is dot ".") eqn:Ed; [|done].
  assert (forall d, byte_is d "." = true -> ascii d = true) as Hd by by intros [].
  destruct (scan is_b64url l2) as [body l3] eqn:Eb. apply scan_spec in Eb as (_ & Hbd%Hb & _). destruct body as [|b body]; [done|].
  assert (forall r, cuts_characters {| copied := []; masked := hd ++ dot :: b :: body; left_ := r |}) as Htwo.
  { intros r. split; [constructor|left]. apply Forall_app; split; [done|]. constructor; [by apply Hd|done]. }
  destruct l3 as [|dot' l4]; [by intros [= <-]|]. destruct (byte_is dot' ".") eqn:Ed'; [|by intros [= <-]].
  destruct (scan is_b64url l4) as [[|s sig] l5] eqn:Es; intros [= <-]; [done|]. apply scan_spec in Es as (_ & Hs%Hb & _).
  split; [constructor|left]. cbn [masked]. apply Forall_app; split; [done|]. constructor; [by apply Hd|].
  rewrite app_comm_cons. apply Forall_app; split; [done|]. constructor; [by apply Hd|done].
Qed.
Lemma redact_hex_run_cuts prev l h : redact_hex_run prev l = Some h -> cuts_characters h.
Proof.
  unfold redact_hex_run. destruct (_ || _); [done|]. destruct (scan hexdigit l) as [run l'] eqn:Es. apply scan_spec in Es as (_ & Hr & _).
  destruct (_ <? _); [done|]. intros [= <-]. split; [constructor|left]. eapply all_ascii; [|exact Hr]. auto 7.
Qed.
Lemma hit_at_cuts prev l h : hit_at prev l = Some h -> cuts_characters h.
Proof.
  unfold hit_at. destruct (redact_keyword_value l) eqn:E1; [intros [= <-]; by eapply keyword_value_cuts|].
  destruct (redact_jwt prev l) eqn:E2; [intros [= <-]; by eapply redact_jwt_cuts|]. apply redact_hex_run_cuts.
Qed.

Lemma ascii_le l : all ascii l -> Forall (fun b => u8 b <= 127) l.
Proof. intros H. eapply Forall_impl; [exact H|]. intros b Hb. by apply Z.leb_le. Qed.
Lemma hit_utf8 prev x l h : hit_at prev l = Some h -> utf8_valid (x ++ l) = true ->
  utf8_valid x = true /\ utf8_valid (left_ h) = true.
Proof.
  intros Eh H. pose proof (hit_at_Some _ _ _ Eh) as [[-> Hn] _]. destruct (hit_at_cuts _ _ _ Eh) as [Hc Hm].
  assert (exists b r, copied h ++ masked h ++ left_ h = b :: r /\ u8 b <= 127) as (b & r & E & Hb).
  { destruct Hc as [|b k Hb _]; [|exists b, (k ++ masked h ++ left_ h); split; [done|by apply Z.leb_le]].
    destruct Hm as [Hm|[? _]]; [|done]. destruct Hm as [|b k Hb _]; [done|]. exists b, (k ++ left_ h). split; [done|by apply Z.leb_le]. }
  rewrite E in H. apply utf8_cut_ascii in H as [Hx H]; [|done]. split; [done|]. rewrite <-E in H.
  rewrite utf8_ascii in H by by apply ascii_le. destruct Hm as [Hm|[_ [El|(c & l & El & Hw)]]].
  - by rewrite utf8_ascii in H by by apply ascii_le.
  - by rewrite El.
  - rewrite El in H |- *. apply utf8_cut_ascii in H as [_ H]; [done|]. apply Z.leb_le, class_ascii. auto.
Qed.
Lemma redact_loop_utf8 fuel prev x l : (length l <= fuel)%nat -> utf8_valid (x ++ l) = true -> utf8_valid (x ++ redact_loop fuel prev l) = true.
Proof.
  revert prev x l. induction fuel as [|fuel IH]; intros prev x l Hl H; [destruct l; [done|cbn in Hl; lia]|].
  destruct l as [|b l]; [done|]. cbn [redact_loop]. destruct (hit_at prev (b :: l)) as [h|] eqn:Eh.
  - destruct (hit_utf8 _ _ _ _ Eh H) as [Hx Hr]. pose proof (hit_at_Some _ _ _ Eh) as [[E Hn] _]. destruct (hit_at_cuts _ _ _ Eh) as [Hc _].
    rewrite utf8_app, !utf8_ascii by (done || by apply ascii_le || by repeat constructor). apply (IH _ []); [|done].
    pose proof (f_equal length E) as En. rewrite !length_app in En. destruct (masked h); [done|]. cbn in *. lia.
  - specialize (IH (Some b) (x ++ [b]) l). rewrite <-!app_assoc in IH. apply IH; [cbn in Hl; lia|done].
Qed.

(** C26: Redaction masks exactly the documented shapes, at the leftmost place, and nothing else: the
    text is a sequence of pieces -- a byte shown as it is, or a key and its masked value -- that is
    masked exactly where a keyword with its value, a bearer token, a JWT or a run of 64 hex digits
    begins, and exactly as far as it reaches: the whole word of a value (the one after the word Bearer
    or Basic, if there is one), all segments of a JWT, the whole run of hex digits, with nothing shown
    of a JWT or a run and only name and separator of a value.  A shape that begins inside a piece is
    part of that piece.  The result is valid UTF-8, so nothing is repaired. *)
Theorem redaction_masks_exactly_the_shapes input : str_ok input ->
  str_ok (redact_secrets input) /\ exists ps,
    as_bytes input = concat (map source ps) /\ as_bytes (redact_secrets input) = concat (map shown ps) /\ pieces_right [] ps.
Proof.
  intros H. pose proof (redact_loop_utf8 (length (as_bytes input)) None [] (as_bytes input) (le_n _) H) as Hu.
  split; [apply from_utf8_lossy_ok|]. unfold redact_secrets. rewrite from_utf8_lossy_id by done. by apply (redact_loop_pieces _ []).
Qed.

(** Two places where a secret stays: a keyword whose first letters a hex run before it swallows, and
    a run of hex digits that is part of a key. *)
Definition hex_run (n : nat) : string := String.string_of_list_ascii (repeat "a"%char n).
Lemma keyword_after_hex_leaks : redact_secrets (hex_run 64 +:+ "pi_key=hunter2") = "[REDACTED]pi_key=hunter2"%string.
Proof. vm_compute. reflexivity. Qed.
Lemma hex_in_key_leaks : redact_secrets ("token_" +:+ hex_run 64 +:+ ": expired") = ("token_" +:+ hex_run 64 +:+ ": [REDACTED]")%string.
Proof. vm_compute. reflexivity. Qed.

Lemma redaction_masks_exactly_the_shapes_witness : str_ok "api_key=sk-1 Bearer tok" /\
  redact_secrets "api_key=sk-1 Bearer tok" = "api_key=[REDACTED] Bearer [REDACTED]"%string /\
  exists ps, as_bytes (redact_secrets "api_key=sk-1 Bearer tok") = concat (map shown ps) /\ pieces_right [] ps.
Proof.
  split; [reflexivity|]. split; [vm_compute; reflexivity|].
  destruct (redaction_masks_exactly_the_shapes "api_key=sk-1 Bearer tok" eq_refl) as (_ & ps & _ & H & Hr). exists ps. split; [exact H|exact Hr].
Defined.
