(* ===== verification/ForwardWire.v ===== *)
(** * ForwardWire: the frames of the channel TCP forward ([channel_run/forward_wire.rs])

    [Frame::encode] and [Frame::read] over byte lists.  The reader is the list of bytes that will
    ever arrive; [read_exact] on too few of them is the [UnexpectedEof] of a closed peer. *)
From S2P Require Import Prelude Text.

#[local] Open Scope Z_scope.

Definition TAG_OPEN : Z := 1.
Definition TAG_DATA : Z := 2.
Definition TAG_CLOSE : Z := 3.
Definition MAX_TARGET_WIRE_LEN : Z := 2048.
Definition MAX_DATA_FRAME_LEN : Z := Z.shiftl 1 20.
Definition CLOSE_REASON_ABORT : string := "abort".

Inductive Frame :=
| Open (id : Z) (target : string)
| Data (id : Z) (payload : list byte)
| Close (id : Z) (reason : option string).

#[global] Instance Frame_eq_dec : EqDecision Frame.
Proof. solve_decision. Defined.

Definition frame_id (f : Frame) : Z :=
  match f with Open id _ | Data id _ | Close id _ => id end.

Definition encode (f : Frame) : list byte :=
  match f with
  | Open id target =>
      let t := as_bytes target in
      [to_u8 TAG_OPEN] ++ be_bytes 4 id ++ be_bytes 2 (wrap 16 (Zlen t)) ++ t
  | Data id payload =>
      [to_u8 TAG_DATA] ++ be_bytes 4 id ++ be_bytes 4 (wrap 32 (Zlen payload)) ++ payload
  | Close id reason =>
      let r := match reason with Some r => r | None => "" end in
      let rb := as_bytes r in
      [to_u8 TAG_CLOSE] ++ be_bytes 4 id
        ++ [to_u8 (if decide (is_Some reason) then 1 else 0)]
        ++ be_bytes 2 (wrap 16 (Zlen rb)) ++ rb
  end.

(** The [io::Error] a read ends with: its kind, the stream id its message names once that is
    known, and what was wrong. *)
Inductive ErrorKind := UnexpectedEof | InvalidData.
Inductive Fault :=
| Truncated
| DataTooLong (len : Z)
| StringTooLong (len : Z)
| NotUtf8
| UnknownTag (tag : Z).
Record WireError := { err_kind : ErrorKind; err_stream : option Z; err_fault : Fault }.

Definition eof : WireError := {| err_kind := UnexpectedEof; err_stream := None; err_fault := Truncated |}.
Definition invalid (f : Fault) : WireError :=
  {| err_kind := InvalidData; err_stream := None; err_fault := f |}.
Definition with_id (id : Z) (e : WireError) : WireError :=
  {| err_kind := err_kind e; err_stream := Some id; err_fault := err_fault e |}.

Definition Reader (A : Type) := list byte -> result (A * list byte) WireError.

Definition read_exact (n : Z) : Reader (list byte) := fun r =>
  if Zlen r <? n then Err eof else Ok (take (Z.to_nat n) r, drop (Z.to_nat n) r).

Definition read_string (max_len : Z) : Reader string := fun r =>
  let* (lb, r) := read_exact 2 r in
  let len := be_value lb in
  if max_len <? len then Err (invalid (StringTooLong len))
  else
    let* (buf, r) := read_exact len r in
    if utf8_valid buf then Ok (String.string_of_list_byte buf, r) else Err (invalid NotUtf8).

Definition read_body (tag id : Z) : Reader Frame := fun r =>
  if tag =? TAG_OPEN then
    let* (target, r) := read_string MAX_TARGET_WIRE_LEN r in
    Ok (Open id target, r)
  else if tag =? TAG_DATA then
    let* (lb, r) := read_exact 4 r in
    let len := be_value lb in
    if MAX_DATA_FRAME_LEN <? len then Err (invalid (DataTooLong len))
    else
      let* (payload, r) := read_exact len r in
      Ok (Data id payload, r)
  else if tag =? TAG_CLOSE then
    let* (has_reason, r) := read_exact 1 r in
    let* (text, r) := read_string MAX_TARGET_WIRE_LEN r in
    let reason := if be_value has_reason =? 0 then None else Some text in
    Ok (Close id reason, r)
  else Err (invalid (UnknownTag tag)).

Definition read : Reader Frame := fun r =>
  let* (tag, r) := read_exact 1 r in
  let* (idb, r) := read_exact 4 r in
  let id := be_value idb in
  map_err (with_id id) (read_body (be_value tag) id r).

(** The reading loop: every complete frame of the byte stream, and the error that ended it. *)
Fixpoint read_all (fuel : nat) (r : list byte) : list Frame * option WireError :=
  match fuel with
  | O => ([], None)
  | S fuel =>
      match read r with
      | Ok (f, rest) => let '(fs, e) := read_all fuel rest in (f :: fs, e)
      | Err e => ([], Some e)
      end
  end.

(** The frames this program sends: ids are [u32], strings are UTF-8 within the reader's cap,
    payloads within theirs. *)
Definition frame_ok (f : Frame) : Prop :=
  0 <= frame_id f <= U32_MAX /\
  match f with
  | Open _ target => str_ok target /\ str_len target <= MAX_TARGET_WIRE_LEN
  | Data _ payload => Zlen payload <= MAX_DATA_FRAME_LEN
  | Close _ reason =>
      forall r, reason = Some r -> str_ok r /\ str_len r <= MAX_TARGET_WIRE_LEN
  end.

(** ** The readers one by one *)

Lemma read_exact_app n l r : Zlen l = n -> read_exact n (l ++ r) = Ok (l, r).
Proof.
  intros Hl. unfold read_exact. rewrite length_app.
  destruct (Z.ltb_spec (Z.of_nat (length l + length r)) n); [lia|].
  assert (Z.to_nat n = length l) as -> by lia. by rewrite take_app_length, drop_app_length.
Qed.

Lemma read_exact_Ok n r x r' : read_exact n r = Ok (x, r') -> r = x ++ r' /\ (0 <= n -> Zlen x = n).
Proof.
  unfold read_exact. destruct (Z.ltb_spec (Zlen r) n); [done|]. intros [= <- <-].
  rewrite take_drop. split; [done|]. intros. rewrite length_take. lia.
Qed.

Lemma be_value_be_bytes_wrap n z :
  0 <= z < 256 ^ Z.of_nat n -> be_value (be_bytes n z) = z.
Proof. apply be_value_be_bytes_small. Qed.

Lemma read_string_app max s r :
  str_ok s -> str_len s <= max -> max <= U16_MAX ->
  read_string max (be_bytes 2 (wrap 16 (Zlen (as_bytes s))) ++ as_bytes s ++ r) = Ok (s, r).
Proof.
  intros Hok Hlen Hmax. unfold read_string.
  assert (Zlen (as_bytes s) = str_len s) as Hl by (unfold str_len; by rewrite as_bytes_length).
  assert (0 <= str_len s) by (unfold str_len; lia). unfold U16_MAX in Hmax.
  rewrite read_exact_app by (rewrite length_be_bytes; done). cbn [rbind].
  unfold wrap. rewrite Z.mod_small, be_value_be_bytes_small by lia.
  destruct (Z.ltb_spec max (Zlen (as_bytes s))); [lia|].
  rewrite read_exact_app by done. simpl. rewrite Hok.
  unfold as_bytes. by rewrite String.string_of_list_byte_of_string.
Qed.

(** ** Round trip *)

Lemma read_encode_app f r : frame_ok f -> read (encode f ++ r) = Ok (f, r).
Proof.
  intros [Hid Hf]. unfold U32_MAX in Hid.
  assert (forall tag, be_value [to_u8 tag] = tag mod 256) as Htag.
  { intros tag. by rewrite be_value_single, u8_to_u8. }
  assert (forall tag rest, read ([to_u8 tag] ++ be_bytes 4 (frame_id f) ++ rest) =
    map_err (with_id (frame_id f)) (read_body (tag mod 256) (frame_id f) rest)) as Hread.
  { intros tag rest. unfold read. rewrite read_exact_app by done. cbn [rbind].
    rewrite read_exact_app by (rewrite length_be_bytes; done). cbn [rbind].
    by rewrite be_value_be_bytes_small, Htag by lia. }
  destruct f as [id target|id payload|id reason]; cbn [frame_id] in Hid, Hread; simpl in Hf;
    cbn [encode]; rewrite <-!app_assoc, Hread; clear Hread.
  - destruct Hf as [Hs Hl]. unfold read_body. simpl.
    by rewrite read_string_app.
  - unfold read_body. simpl. unfold MAX_DATA_FRAME_LEN in *.
    change (Z.shiftl 1 20) with 1048576 in *.
    rewrite read_exact_app by (rewrite length_be_bytes; done). cbn [rbind].
    unfold wrap. rewrite Z.mod_small, be_value_be_bytes_small by lia.
    destruct (Z.ltb_spec 1048576 (Zlen payload)); [lia|].
    by rewrite read_exact_app.
  - unfold read_body.
    change (TAG_CLOSE mod 256 =? TAG_OPEN) with false. change (TAG_CLOSE mod 256 =? TAG_DATA) with false.
    change (TAG_CLOSE mod 256 =? TAG_CLOSE) with true. cbv beta iota.
    rewrite (read_exact_app 1 [_]) by done. cbn [rbind].
    rewrite read_string_app; [| | |done].
    + cbn [rbind]. rewrite Htag. by destruct reason.
    + destruct reason as [s|]; [by apply Hf|done].
    + destruct reason as [s|]; [by apply (Hf s)|done].
Qed.

Lemma encode_nonempty f : encode f <> [].
Proof. by destruct f. Qed.

(** ** A complete frame does not depend on what follows it *)

Lemma read_exact_extend n r q :
  match read_exact n r with
  | Ok (x, r') => read_exact n (r ++ q) = Ok (x, r' ++ q)
  | Err e => err_kind e = UnexpectedEof
  end.
Proof.
  unfold read_exact. destruct (Z.ltb_spec (Zlen r) n); [done|].
  rewrite length_app. destruct (Z.ltb_spec (Z.of_nat (length r + length q)) n); [lia|].
  rewrite take_app_le, drop_app_le by lia. done.
Qed.

(** What a reader that has an answer -- a value, or an error that is not a missing byte -- says is
    not changed by later bytes. *)
Definition stable {A} (rd : Reader A) : Prop := forall r q,
  match rd r with
  | Ok (x, r') => rd (r ++ q) = Ok (x, r' ++ q)
  | Err e => err_kind e = UnexpectedEof \/ rd (r ++ q) = Err e
  end.

Lemma stable_read_exact n : stable (read_exact n).
Proof.
  intros r q. pose proof (read_exact_extend n r q).
  destruct (read_exact n r) as [[x r']|e]; [done|by left].
Qed.

Lemma stable_ret {A} (a : A) : stable (fun r => Ok (a, r)).
Proof. by intros r q. Qed.

Lemma stable_err {A} (e : WireError) : stable (fun r => Err e : result (A * list byte) WireError).
Proof. intros r q. by right. Qed.

Lemma stable_bind {A B} (rd : Reader A) (k : A -> Reader B) :
  stable rd -> (forall a, stable (k a)) -> stable (fun r => let* (a, r) := rd r in k a r).
Proof.
  intros Hrd Hk r q. specialize (Hrd r q). destruct (rd r) as [[a r']|e]; simpl.
  - rewrite Hrd. simpl. apply (Hk a).
  - destruct Hrd as [ | -> ]; [by left|by right].
Qed.

Lemma stable_map_err {A} (rd : Reader A) id :
  stable rd -> stable (fun r => map_err (with_id id) (rd r)).
Proof.
  intros Hrd r q. specialize (Hrd r q). destruct (rd r) as [[a r']|e]; simpl.
  - by rewrite Hrd.
  - destruct Hrd as [ | -> ]; [by left|by right].
Qed.

Lemma stable_read_string max : stable (read_string max).
Proof.
  apply stable_bind; [apply stable_read_exact|]. intros lb.
  destruct (max <? be_value lb); [apply stable_err|].
  apply stable_bind; [apply stable_read_exact|]. intros buf.
  destruct (utf8_valid buf); [apply stable_ret|apply stable_err].
Qed.

Lemma stable_read_body tag id : stable (read_body tag id).
Proof.
  unfold read_body. destruct (tag =? TAG_OPEN); [|destruct (tag =? TAG_DATA); [|destruct (tag =? TAG_CLOSE)]].
  - apply stable_bind; [apply stable_read_string|]. intros s. apply stable_ret.
  - apply stable_bind; [apply stable_read_exact|]. intros lb.
    destruct (_ <? _); [apply stable_err|].
    apply stable_bind; [apply stable_read_exact|]. intros p. apply stable_ret.
  - apply stable_bind; [apply stable_read_exact|]. intros h.
    apply stable_bind; [apply stable_read_string|]. intros s. apply stable_ret.
  - apply stable_err.
Qed.

Lemma stable_read : stable read.
Proof.
  apply stable_bind; [apply stable_read_exact|]. intros tag.
  apply stable_bind; [apply stable_read_exact|]. intros idb.
  apply stable_map_err, stable_read_body.
Qed.

(** ** The session's byte stream *)

(** C8: the frames written by [Frame::encode], concatenated on the wire, are read back in order,
    and the reading loop then stops at the end of the stream. *)
Theorem read_all_encode fs fuel :
  Forall frame_ok fs -> (length fs < fuel)%nat ->
  read_all fuel (concat (map encode fs)) = (fs, Some eof).
Proof.
  intros Hok. revert fuel. induction Hok as [|f fs Hf Hfs IH]; intros [|fuel] Hfuel; simpl in *; try lia.
  - done.
  - rewrite (read_encode_app f _ Hf), IH by lia. done.
Qed.

Lemma read_all_encode_witness :
  let fs := [Open 1 "127.0.0.1:22"; Data 1 [Byte.x41; Byte.x00]; Close 1 None; Close 2 (Some "abort")] in
  Forall frame_ok fs /\ read_all 5 (concat (map encode fs)) = (fs, Some eof).
Proof.
  intros fs. assert (Forall frame_ok fs) as H.
  { unfold fs. repeat apply Forall_cons_2; [| | | |apply Forall_nil_2];
      (split; [vm_compute; done|]); simpl; [vm_compute; done|vm_compute; done|done|].
    intros r [= <-]. vm_compute. done. }
  split; [exact H|]. apply (read_all_encode fs 5 H). vm_compute. lia.
Defined.

(** a frame cut anywhere is never taken for a frame, nor for a malformed one: reading a strict
    prefix of an encoding asks for more bytes ([UnexpectedEof]). *)
Theorem read_truncated f p q :
  frame_ok f -> encode f = p ++ q -> q <> [] ->
  exists e, read p = Err e /\ err_kind e = UnexpectedEof.
Proof.
  intros Hf Heq Hq. pose proof (stable_read p q) as Hst. rewrite <-Heq in Hst.
  pose proof (read_encode_app f [] Hf) as Hr. rewrite app_nil_r in Hr. rewrite Hr in Hst.
  destruct (read p) as [[g r']|e].
  - injection Hst as _ H. symmetry in H. apply app_eq_nil in H as [_ H]. done.
  - destruct Hst; [eauto|done].
Qed.

Lemma read_truncated_witness :
  let f := Open 7 "db:5432" in
  frame_ok f /\ encode f = take 9 (encode f) ++ drop 9 (encode f) /\
  exists e, read (take 9 (encode f)) = Err e /\ err_kind e = UnexpectedEof.
Proof.
  intros f. assert (frame_ok f) as H by (vm_compute; done).
  assert (encode f = take 9 (encode f) ++ drop 9 (encode f)) as E by (symmetry; apply take_drop).
  split; [exact H|]. split; [exact E|].
  apply (read_truncated f _ _ H E). vm_compute. done.
Defined.

(** whatever the peer sends, a frame that is accepted stays within the caps: its strings are
    UTF-8 of at most [MAX_TARGET_WIRE_LEN] bytes, its payload has at most [MAX_DATA_FRAME_LEN]
    bytes, and the bytes it consumed were really there. *)
Theorem read_bounded r f rest :
  read r = Ok (f, rest) ->
  frame_ok f /\ (length rest < length r)%nat /\ exists used, r = used ++ rest.
Proof.
  assert (forall max l s r', max <= U16_MAX -> read_string max l = Ok (s, r') ->
    str_ok s /\ str_len s <= max /\ exists u, l = u ++ r') as Hstr.
  { intros max l s r' Hmax H. unfold read_string in H.
    apply rbind_Ok in H as ([lb l1] & H1 & H). apply read_exact_Ok in H1 as [-> Hlb].
    destruct (Z.ltb_spec max (be_value lb)); [done|].
    apply rbind_Ok in H as ([buf l2] & H2 & H). apply read_exact_Ok in H2 as [-> Hbuf].
    destruct (utf8_valid buf) eqn:Eu; [|done]. injection H as <- <-.
    pose proof (be_value_range lb).
    unfold str_ok, str_len. rewrite <-as_bytes_length. unfold as_bytes.
    rewrite String.list_byte_of_string_of_list_byte. split; [done|].
    split; [lia|]. exists (lb ++ buf). by rewrite app_assoc. }
  unfold read. intros H.
  apply rbind_Ok in H as ([tag l1] & H1 & H). apply read_exact_Ok in H1 as [-> Htag].
  apply rbind_Ok in H as ([idb l2] & H2 & H). apply read_exact_Ok in H2 as [-> Hid].
  specialize (Htag ltac:(lia)). specialize (Hid ltac:(lia)).
  assert (0 <= be_value idb <= U32_MAX) as Hrange.
  { pose proof (be_value_range idb) as Hr. rewrite Hid in Hr. unfold U32_MAX. lia. }
  assert (frame_ok f /\ exists u, l2 = u ++ rest) as [Hok [u ->]].
  { unfold map_err in H. destruct (read_body _ _ l2) as [[g l3]|e] eqn:Eb; [|done].
    injection H as <- <-. unfold read_body in Eb.
    destruct (_ =? TAG_OPEN); [|destruct (_ =? TAG_DATA); [|destruct (_ =? TAG_CLOSE); [|done]]].
    - apply rbind_Ok in Eb as ([s l4] & E & Eb). injection Eb as <- <-.
      apply Hstr in E as (? & ? & ?); [|done]. by split.
    - apply rbind_Ok in Eb as ([lb l4] & E & Eb). apply read_exact_Ok in E as [-> Hlb].
      destruct (Z.ltb_spec MAX_DATA_FRAME_LEN (be_value lb)); [done|].
      apply rbind_Ok in Eb as ([p l5] & E & Eb). apply read_exact_Ok in E as [-> Hp].
      injection Eb as <- <-. pose proof (be_value_range lb). split.
      + split; simpl; [done|lia].
      + exists (lb ++ p). by rewrite app_assoc.
    - apply rbind_Ok in Eb as ([h l4] & E & Eb). apply read_exact_Ok in E as [-> Hh].
      apply rbind_Ok in Eb as ([s l5] & E & Eb). injection Eb as <- <-.
      apply Hstr in E as (? & ? & u & ->); [|done]. split.
      + split; simpl; [done|]. intros s'. destruct (_ =? 0); [done|]. by intros [= <-].
      + exists (h ++ u). by rewrite app_assoc. }
  split; [done|]. split.
  - rewrite !length_app. lia.
  - exists (tag ++ idb ++ u). by rewrite <-!app_assoc.
Qed.

Lemma read_bounded_witness :
  let r := encode (Data 3 [Byte.xff]) ++ [Byte.x02] in
  read r = Ok (Data 3 [Byte.xff], [Byte.x02]) /\ frame_ok (Data 3 [Byte.xff]) /\
  (length [Byte.x02] < length r)%nat /\ exists used, r = used ++ [Byte.x02].
Proof.
  intros r. assert (read r = Ok (Data 3 [Byte.xff], [Byte.x02])) as H by (vm_compute; reflexivity).
  split; [exact H|]. exact (read_bounded r _ _ H).
Defined.
