(* ===== verification/FlowControl.v ===== *)
(** * FlowControl: credit per stream and the session window

    The flow-control objects of [channel_run/forward_stream.rs]: the control messages on stream
    id 0, the inbound queue of a stream ([InTx]/[InRx], [StreamEntry]), the receive and send sides
    of the session window ([SessionRecv], [SessionSend], [SessionSending]) and [apply_control].
    Sizes are [usize] (64 bits), instants are [Z] nanoseconds. *)
From S2P Require Import Prelude Text Runtime ForwardWire.

#[local] Open Scope Z_scope.

Definition CONTROL_ID : Z := 0.
Definition DATA_CHUNK_LEN : Z := 16 * 1024.
Definition CHANNEL_CAP : Z := 64.
Definition FC_WINDOW : Z := 256 * 1024.
Definition CTL_HELLO : Z := 1.
Definition CTL_WINDOW : Z := 2.
Definition CTL_FC_ON : Z := 3.
Definition CTL_SWINDOW : Z := 4.
Definition HELLO_V2 : Z := 2.
Definition SESSION_WINDOW : Z := 256 * 1024.
Definition SESSION_WINDOW_MIN : Z := 4 * DATA_CHUNK_LEN.
Definition SESSION_WINDOW_MAX : Z := 16 * 1024 * 1024.
Definition SESSION_ACK_DELAY : Z := 100 * MILLI.
Definition SESSION_DEAD_AFTER : Z := 30 * SECOND.
Definition MAX_PENDING_FC : Z := 1024.

(** ** Settings *)

Definition flow_control_from_env (raw : option string) : bool :=
  match raw with
  | Some s => negb (String.eqb s "off" || String.eqb s "0" || String.eqb s "false")
  | None => true
  end.

Inductive WindowError :=
| NotWholeKib (raw : string)
| OutsideRange (kib : Z).

Definition session_window_from (raw : option string) : result Z WindowError :=
  match raw with
  | None => Ok SESSION_WINDOW
  | Some r =>
      let r := trim r in
      if is_empty r then Ok SESSION_WINDOW
      else
        let* kib := ok_or (parse_uint U64_MAX r) (NotWholeKib r) in
        let bytes := kib * 1024 in
        if (bytes <=? U64_MAX) && between SESSION_WINDOW_MIN bytes SESSION_WINDOW_MAX
        then Ok bytes
        else Err (OutsideRange kib)
  end.

Definition session_window_from_env (raw : option string) : Z :=
  match session_window_from raw with Ok w => w | Err _ => SESSION_WINDOW end.

(** ** Control messages *)

Definition magic_CFC : list byte := [to_u8 67; to_u8 70; to_u8 67].

Definition hello_frame (window : Z) : Frame :=
  Data CONTROL_ID ([to_u8 CTL_HELLO] ++ magic_CFC ++ [to_u8 HELLO_V2] ++ be_bytes 4 window).
Definition swindow_frame (bytes : Z) : Frame :=
  Data CONTROL_ID ([to_u8 CTL_SWINDOW] ++ be_bytes 4 bytes).
Definition window_frame (id bytes : Z) : Frame :=
  Data CONTROL_ID ([to_u8 CTL_WINDOW] ++ be_bytes 4 id ++ be_bytes 4 bytes).
Definition fc_on_frame (id : Z) : Frame :=
  Data CONTROL_ID ([to_u8 CTL_FC_ON] ++ be_bytes 4 id).
Definition abort_frame (id : Z) : Frame := Close id (Some CLOSE_REASON_ABORT).

Inductive Control :=
| Hello (window : option Z)
| Window (id bytes : Z)
| FcOn (id : Z)
| SWindow (bytes : Z).

Definition is_hello (p : list byte) : option (list byte) :=
  match p with
  | a :: b :: c :: d :: rest =>
      if (u8 a =? CTL_HELLO) && (u8 b =? 67) && (u8 c =? 70) && (u8 d =? 67)
      then Some rest else None
  | _ => None
  end.

Definition parse_control (p : list byte) : option Control :=
  let other :=
    match p with
    | [] => None
    | t :: rest =>
        if (u8 t =? CTL_WINDOW) && (8 <=? Zlen rest) then
          Some (Window (be_value (take 4 rest)) (be_value (take 4 (drop 4 rest))))
        else if (u8 t =? CTL_FC_ON) && (4 <=? Zlen rest) then
          Some (FcOn (be_value (take 4 rest)))
        else if (u8 t =? CTL_SWINDOW) && (4 <=? Zlen rest) then
          Some (SWindow (be_value (take 4 rest)))
        else None
    end in
  match is_hello p with
  | Some (v :: rest) =>
      if (HELLO_V2 <=? u8 v) && (4 <=? Zlen rest)
      then Some (Hello (Some (be_value (take 4 rest))))
      else Some (Hello None)
  | Some [] => Some (Hello None)
  | None => other
  end.

(** ** The inbound queue of a stream *)

Inductive StreamIn :=
| SData (payload : list byte)
| SClosed
| SAborted.

Definition stream_in_for_close (reason : option string) : StreamIn :=
  match reason with Some _ => SAborted | None => SClosed end.

Definition data_len (m : StreamIn) : Z :=
  match m with SData p => Zlen p | _ => 0 end.
Definition data_total (l : list StreamIn) : Z := foldr (fun m n => data_len m + n) 0 l.

(** ** The session window, receive side *)

Record SessionRecv := {
  on : bool;
  unacked : Z;
  flush_at : option Z;
  window : Z
}.

Definition granting (w : Z) : SessionRecv :=
  {| on := false; unacked := 0; flush_at := None; window := w |}.

Definition flush (s : SessionRecv) : SessionRecv * option Frame :=
  ({| on := on s; unacked := 0; flush_at := None; window := window s |},
   if 0 <? unacked s then Some (swindow_frame (wrap 32 (unacked s))) else None).

Definition received (now bytes : Z) (s : SessionRecv) : SessionRecv * option Frame :=
  if negb (on s) || (bytes =? 0) then (s, None)
  else
    let s := {| on := on s; unacked := unacked s + bytes; flush_at := flush_at s; window := window s |} in
    if window s / 4 <=? unacked s then flush s
    else
      ({| on := on s; unacked := unacked s; window := window s;
          flush_at := match flush_at s with
                      | None => Some (now + SESSION_ACK_DELAY)
                      | Some at_ => Some at_
                      end |}, None).

Definition set_on (b : bool) (s : SessionRecv) : SessionRecv :=
  {| on := b; unacked := unacked s; flush_at := flush_at s; window := window s |}.

(** ** The session window, send side *)

Record SessionOwed := { owed_first : Z; owed_budget : Z; owed_sending : Z }.

Record SessionSending := { from_first : bool; sending_bytes : Z }.

Section Semaphores.
Context {Sem : Type} `{SemaphoreOps Sem}.

Record SessionSend := {
  budget : Sem;
  first : Sem;
  budget_cap : Z;
  first_cap : Z;
  owed : SessionOwed
}.

Definition from_hello (window : Z) : result (option SessionSend) unit :=
  let window := Z.min window SESSION_WINDOW_MAX in
  if window =? 0 then Ok None
  else if window <? SESSION_WINDOW_MIN then Err tt
  else
    let first_cap := Z.min (window / 4) (4 * DATA_CHUNK_LEN) in
    let budget_cap := window - first_cap in
    Ok (Some {| budget := sem_new budget_cap; first := sem_new first_cap;
                budget_cap := budget_cap; first_cap := first_cap;
                owed := {| owed_first := 0; owed_budget := 0; owed_sending := 0 |} |}).

(** One poll of [acquire_many]: the semaphore with the permit taken and forgotten, or the
    error of a closed semaphore. *)
Definition poll_acquire (n : Z) (s : Sem) : Poll (option Sem) :=
  if sem_closed s then Ready None
  else match acquire_many n s with
       | Some s' => Ready (Some s')
       | None => Pending
       end.

Definition taken_first (bytes : Z) (f : Sem) (s : SessionSend) : SessionSend * SessionSending :=
  ({| budget := budget s; first := f; budget_cap := budget_cap s; first_cap := first_cap s;
      owed := {| owed_first := owed_first (owed s) + bytes; owed_budget := owed_budget (owed s);
                 owed_sending := owed_sending (owed s) + bytes |} |},
   {| from_first := true; sending_bytes := bytes |}).
Definition taken_budget (bytes : Z) (b : Sem) (s : SessionSend) : SessionSend * SessionSending :=
  ({| budget := b; first := first s; budget_cap := budget_cap s; first_cap := first_cap s;
      owed := {| owed_first := owed_first (owed s); owed_budget := owed_budget (owed s) + bytes;
                 owed_sending := owed_sending (owed s) + bytes |} |},
   {| from_first := false; sending_bytes := bytes |}).

(** One poll of [take]; the biased [select!] asks [first] before [budget]. *)
Definition take_window (first_chunk : bool) (bytes : Z) (s : SessionSend)
  : Poll (option (SessionSend * SessionSending)) :=
  let from_budget :=
    match poll_acquire (wrap 32 bytes) (budget s) with
    | Ready (Some b) => Ready (Some (taken_budget bytes b s))
    | Ready None => Ready None
    | Pending => Pending
    end in
  if first_chunk then
    match poll_acquire (wrap 32 bytes) (first s) with
    | Ready (Some f) => Ready (Some (taken_first bytes f s))
    | Ready None => Ready None
    | Pending => from_budget
    end
  else from_budget.

(** [SessionSending::queued]: the bytes stop counting as [sending]. *)
Definition queued (x : SessionSending) (s : SessionSend) : SessionSend :=
  {| budget := budget s; first := first s; budget_cap := budget_cap s; first_cap := first_cap s;
     owed := {| owed_first := owed_first (owed s); owed_budget := owed_budget (owed s);
                owed_sending := owed_sending (owed s) - sending_bytes x |} |}.

(** [Drop for SessionSending]. *)
Definition drop_sending (x : SessionSending) (s : SessionSend) : SessionSend :=
  if sending_bytes x =? 0 then s
  else
    let o := owed s in
    let '(own, other, f, b) :=
      if from_first x then
        let own := Z.min (sending_bytes x) (owed_first o) in
        let other := Z.min (sending_bytes x - own) (owed_budget o) in
        (own, other, owed_first o - own, owed_budget o - other)
      else
        let own := Z.min (sending_bytes x) (owed_budget o) in
        let other := Z.min (sending_bytes x - own) (owed_first o) in
        (own, other, owed_first o - other, owed_budget o - own) in
    let '(to_first, to_budget) := if from_first x then (own, other) else (other, own) in
    {| budget := add_permits to_budget (budget s); first := add_permits to_first (first s);
       budget_cap := budget_cap s; first_cap := first_cap s;
       owed := {| owed_first := f; owed_budget := b;
                  owed_sending := owed_sending o - sending_bytes x |} |}.

Definition unacknowledged (s : SessionSend) : Z :=
  owed_first (owed s) + owed_budget (owed s) - owed_sending (owed s).

(** [None]: the peer acknowledged more than is unacknowledged. *)
Definition acknowledge (bytes : Z) (s : SessionSend) : option SessionSend :=
  let o := owed s in
  if owed_first o + owed_budget o - owed_sending o <? bytes then None
  else
    let pay := Z.min bytes (owed_first o) in
    Some {| budget := add_permits (bytes - pay) (budget s); first := add_permits pay (first s);
            budget_cap := budget_cap s; first_cap := first_cap s;
            owed := {| owed_first := owed_first o - pay; owed_budget := owed_budget o - (bytes - pay);
                       owed_sending := owed_sending o |} |}.

(** [session_is_dead], with the [since] it updates. *)
Definition session_is_dead (now : Z) (send : option SessionSend) (since : option Z)
  : bool * option Z :=
  match send with
  | Some s =>
      if 0 <? unacknowledged s then
        let from := default now since in
        (SESSION_DEAD_AFTER <=? now - from, Some from)
      else (false, None)
  | None => (false, None)
  end.
End Semaphores.
Arguments SessionSend : clear implicits.

(** ** A stream as the engine sees it *)

Section Streams.
Context {Sem : Type} `{SemaphoreOps Sem} {Q : Type -> Type} `{QueueOps Q}.

(** The engine's end and the pump's end of an inbound queue share the queue and the count. *)
Inductive InTx :=
| Bounded (q : Q StreamIn)
| Credited (q : Q StreamIn) (pending : Z).

Definition inbound_queue (credited : bool) : InTx :=
  if credited then Credited (q_new StreamIn) 0 else Bounded (q_new StreamIn).

Definition in_queue (t : InTx) : Q StreamIn :=
  match t with Bounded q | Credited q _ => q end.

(** [InRx::recv] when a message is there. *)
Definition recv (t : InTx) : option (StreamIn * InTx) :=
  match t with
  | Bounded q => let? (m, q) := q_recv q in Some (m, Bounded q)
  | Credited q pending =>
      let? (m, q) := q_recv q in Some (m, Credited q (pending - data_len m))
  end.

(** The pump's end of the queue is dropped with the pump. *)
Definition dropped (t : InTx) : InTx :=
  match t with
  | Bounded q => Bounded (q_drop q)
  | Credited q pending => Credited (q_drop q) pending
  end.

Record StreamEntry := { tx : InTx; credit : option Sem }.

(** A send on the bounded queue completes when there is room or nobody receives; [None]: it
    still waits. *)
Definition bounded_send (m : StreamIn) (q : Q StreamIn) : option (Q StreamIn) :=
  if q_gone q then Some q
  else if Zlen (q_items q) <? CHANNEL_CAP then Some (send_ignored m q)
  else None.

Definition deliver (payload : list byte) (e : StreamEntry) : option (StreamEntry * bool) :=
  match tx e with
  | Bounded q =>
      let? q := bounded_send (SData payload) q in
      Some ({| tx := Bounded q; credit := credit e |}, true)
  | Credited q pending =>
      if FC_WINDOW <? pending + Zlen payload then Some (e, false)
      else
        Some ({| tx := Credited (send_ignored (SData payload) q) (pending + Zlen payload);
                 credit := credit e |}, true)
  end.

Definition notify (msg : StreamIn) (e : StreamEntry) : option StreamEntry :=
  match tx e with
  | Bounded q =>
      let? q := bounded_send msg q in Some {| tx := Bounded q; credit := credit e |}
  | Credited q pending =>
      Some {| tx := Credited (send_ignored msg q) pending; credit := credit e |}
  end.

Definition finish (e : StreamEntry) : StreamEntry :=
  {| tx := tx e; credit := sem_close <$> credit e |}.

(** ** Control messages in either engine *)

Inductive ControlOutcome :=
| CNone
| CHello (window : option Z)
| CSWindow (bytes : Z)
| CResetStream (id : Z)
| CEndSession.

Definition grant_window (id bytes : Z) (streams : gmap Z StreamEntry)
  : ControlOutcome * gmap Z StreamEntry :=
  match streams !! id with
  | Some {| tx := t; credit := Some c |} =>
      let room := sat_sub FC_WINDOW (available_permits c) in
      if room <? bytes then (CResetStream id, streams)
      else (CNone, <[id := {| tx := t; credit := Some (add_permits bytes c) |}]> streams)
  | _ => (CNone, streams)
  end.

Definition apply_control (payload : list byte) (streams : gmap Z StreamEntry) (pending_fc : gset Z)
  : ControlOutcome * gmap Z StreamEntry * gset Z :=
  match parse_control payload with
  | Some (Hello w) => (CHello w, streams, pending_fc)
  | Some (SWindow bytes) => (CSWindow bytes, streams, pending_fc)
  | Some (Window id bytes) => (grant_window id bytes streams, pending_fc)
  | Some (FcOn id) =>
      if MAX_PENDING_FC <=? Z.of_nat (size pending_fc) then (CEndSession, streams, pending_fc)
      else (CNone, streams, {[id]} ∪ pending_fc)
  | None => (CNone, streams, pending_fc)
  end.
End Streams.
Arguments InTx : clear implicits.
Arguments StreamEntry : clear implicits.

Inductive OffReason := PeerSpeaksV1 | HelloLate | PeerGrantedNone.

Definition window_off_reason (window : option Z) (late : bool) : OffReason :=
  match window with
  | None => PeerSpeaksV1
  | Some w => if late && (0 <? w) then HelloLate else PeerGrantedNone
  end.

(** ** Lemmas: control messages *)

Definition control_payload (f : Frame) : list byte :=
  match f with Data _ p => p | _ => [] end.

(** The control message a frame carries, if it is one. *)
Definition frame_control (f : Frame) : option Control :=
  match f with
  | Data id p => if id =? CONTROL_ID then parse_control p else None
  | _ => None
  end.

Lemma take_be_bytes n z r : take n (be_bytes n z ++ r) = be_bytes n z.
Proof. apply take_app_length'. by rewrite length_be_bytes. Qed.
Lemma drop_be_bytes n z r : drop n (be_bytes n z ++ r) = r.
Proof. apply drop_app_length'. by rewrite length_be_bytes. Qed.

Lemma u8_to_u8_small z : 0 <= z < 256 -> u8 (to_u8 z) = z.
Proof. intros. rewrite u8_to_u8. by apply Z.mod_small. Qed.

(** A control message with a tag other than HELLO's. *)
Lemma parse_control_other t rest :
  u8 t <> CTL_HELLO ->
  parse_control (t :: rest) =
    if (u8 t =? CTL_WINDOW) && (8 <=? Zlen rest) then
      Some (Window (be_value (take 4 rest)) (be_value (take 4 (drop 4 rest))))
    else if (u8 t =? CTL_FC_ON) && (4 <=? Zlen rest) then
      Some (FcOn (be_value (take 4 rest)))
    else if (u8 t =? CTL_SWINDOW) && (4 <=? Zlen rest) then
      Some (SWindow (be_value (take 4 rest)))
    else None.
Proof.
  intros Ht. unfold parse_control.
  assert (is_hello (t :: rest) = None) as ->; [|done].
  unfold is_hello. destruct rest as [|b [|c [|d rest]]]; try done.
  by rewrite (proj2 (Z.eqb_neq _ _) Ht).
Qed.

Lemma frame_control_hello w :
  0 <= w <= U32_MAX -> frame_control (hello_frame w) = Some (Hello (Some w)).
Proof.
  unfold U32_MAX. intros Hw. unfold frame_control, hello_frame. rewrite Z.eqb_refl.
  unfold parse_control.
  change (is_hello ([to_u8 CTL_HELLO] ++ magic_CFC ++ [to_u8 HELLO_V2] ++ be_bytes 4 w))
    with (Some (to_u8 HELLO_V2 :: be_bytes 4 w)).
  cbv beta iota. change (HELLO_V2 <=? u8 (to_u8 HELLO_V2)) with true.
  rewrite length_be_bytes, <-(app_nil_r (be_bytes 4 w)), take_be_bytes.
  by rewrite be_value_be_bytes_small by lia.
Qed.

Lemma frame_control_swindow n :
  0 <= n <= U32_MAX -> frame_control (swindow_frame n) = Some (SWindow n).
Proof.
  unfold U32_MAX. intros Hn. unfold frame_control, swindow_frame. rewrite Z.eqb_refl.
  change ([to_u8 CTL_SWINDOW] ++ be_bytes 4 n) with (to_u8 CTL_SWINDOW :: be_bytes 4 n).
  rewrite parse_control_other by done. change (u8 (to_u8 CTL_SWINDOW)) with CTL_SWINDOW.
  rewrite length_be_bytes, <-(app_nil_r (be_bytes 4 n)), take_be_bytes.
  by rewrite be_value_be_bytes_small by lia.
Qed.

Lemma frame_control_fc_on id :
  0 <= id <= U32_MAX -> frame_control (fc_on_frame id) = Some (FcOn id).
Proof.
  unfold U32_MAX. intros Hn. unfold frame_control, fc_on_frame. rewrite Z.eqb_refl.
  change ([to_u8 CTL_FC_ON] ++ be_bytes 4 id) with (to_u8 CTL_FC_ON :: be_bytes 4 id).
  rewrite parse_control_other by done. change (u8 (to_u8 CTL_FC_ON)) with CTL_FC_ON.
  rewrite length_be_bytes, <-(app_nil_r (be_bytes 4 id)), take_be_bytes.
  by rewrite be_value_be_bytes_small by lia.
Qed.

Lemma frame_control_window id n :
  0 <= id <= U32_MAX -> 0 <= n <= U32_MAX ->
  frame_control (window_frame id n) = Some (Window id n).
Proof.
  unfold U32_MAX. intros Hid Hn. unfold frame_control, window_frame. rewrite Z.eqb_refl.
  change ([to_u8 CTL_WINDOW] ++ be_bytes 4 id ++ be_bytes 4 n)
    with (to_u8 CTL_WINDOW :: (be_bytes 4 id ++ be_bytes 4 n)).
  rewrite parse_control_other by done. change (u8 (to_u8 CTL_WINDOW)) with CTL_WINDOW.
  rewrite length_app, !length_be_bytes, take_be_bytes, drop_be_bytes.
  rewrite <-(app_nil_r (be_bytes 4 n)), take_be_bytes.
  by rewrite !be_value_be_bytes_small by lia.
Qed.

(** ** The session window, send side: what is conserved *)

Definition sending_total (l : list SessionSending) : Z :=
  foldr (fun x n => sending_bytes x + n) 0 l.

Section SendSide.
Context {Sem : Type} `{SemaphoreLaws Sem}.

(** The chunks a pump holds are at most [DATA_CHUNK_LEN] bytes, never empty. *)
Definition chunk_ok (n : Z) : Prop := 0 < n <= DATA_CHUNK_LEN.

(** The operations the pumps and the engine perform on the shared window, in any order; [l] is
    the chunks that are taken but not yet in the engine's queue. *)
Inductive send_step : SessionSend Sem * list SessionSending -> SessionSend Sem * list SessionSending -> Prop :=
| send_take fc n s s' x l :
    chunk_ok n -> take_window fc n s = Ready (Some (s', x)) -> send_step (s, l) (s', x :: l)
| send_queued x s l1 l2 : send_step (s, l1 ++ x :: l2) (queued x s, l1 ++ l2)
| send_dropped x s l1 l2 : send_step (s, l1 ++ x :: l2) (drop_sending x s, l1 ++ l2)
| send_acked n s s' l :
    0 <= n -> acknowledge n s = Some s' -> send_step (s, l) (s', l).

(** Per part: free permits and owed bytes add up to the part's size, and what is [sending] is
    what the pumps hold. *)
Record send_inv (s : SessionSend Sem) (l : list SessionSending) : Prop := {
  inv_first : sem_permits (first s) + owed_first (owed s) = first_cap s;
  inv_budget : sem_permits (budget s) + owed_budget (owed s) = budget_cap s;
  inv_first_pos : 0 <= owed_first (owed s);
  inv_budget_pos : 0 <= owed_budget (owed s);
  inv_sending : owed_sending (owed s) = sending_total l;
  inv_sending_le : owed_sending (owed s) <= owed_first (owed s) + owed_budget (owed s);
  inv_chunks : Forall (fun x => chunk_ok (sending_bytes x)) l;
  inv_open : sem_closed (first s) = false /\ sem_closed (budget s) = false
}.

Lemma sending_total_app l1 l2 : sending_total (l1 ++ l2) = sending_total l1 + sending_total l2.
Proof. induction l1 as [|x l1 IH]; simpl; [done|]. rewrite IH. lia. Qed.

Lemma sending_total_nonneg l :
  Forall (fun x => chunk_ok (sending_bytes x)) l -> 0 <= sending_total l.
Proof. unfold chunk_ok. induction 1; simpl; lia. Qed.

Lemma chunk_wrap n : chunk_ok n -> wrap 32 n = n.
Proof. unfold chunk_ok, DATA_CHUNK_LEN, wrap. intros. apply Z.mod_small. lia. Qed.

Lemma poll_acquire_ready n (s s' : Sem) :
  0 <= n -> poll_acquire n s = Ready (Some s') ->
  sem_permits s' = sem_permits s - n /\ sem_closed s' = false.
Proof.
  unfold poll_acquire. intros Hn. destruct (sem_closed s) eqn:Ec; [done|].
  destruct (acquire_many n s) as [t|] eqn:E; [|done]. intros [= <-].
  apply acquire_many_permits in E as [-> ->]; auto.
Qed.

Lemma take_window_cases fc n s s' x :
  chunk_ok n -> take_window fc n s = Ready (Some (s', x)) ->
  (fc = true /\ exists f, poll_acquire n (first s) = Ready (Some f) /\ (s', x) = taken_first n f s) \/
  (exists b, poll_acquire n (budget s) = Ready (Some b) /\ (s', x) = taken_budget n b s).
Proof.
  intros Hn. unfold take_window. rewrite (chunk_wrap n Hn).
  destruct fc.
  - destruct (poll_acquire n (first s)) as [[f|]|] eqn:Ef; try done.
    + intros [= <- <-]. left. eauto.
    + destruct (poll_acquire n (budget s)) as [[b|]|] eqn:Eb; try done.
      intros [= <- <-]. right. eauto.
  - destruct (poll_acquire n (budget s)) as [[b|]|] eqn:Eb; try done.
    intros [= <- <-]. right. eauto.
Qed.

Lemma take_inv fc n s s' x l :
  chunk_ok n -> send_inv s l -> take_window fc n s = Ready (Some (s', x)) ->
  send_inv s' (x :: l) /\ sending_bytes x = n /\ unacknowledged s' = unacknowledged s /\
  first_cap s' = first_cap s /\ budget_cap s' = budget_cap s.
Proof.
  intros Hn [] Ht. pose proof Hn as [? ?].
  apply take_window_cases in Ht as [(-> & f & Hf & E)|(b & Hb & E)]; [| |done];
    injection E as -> ->.
  - apply poll_acquire_ready in Hf as [Hp Hc]; [|lia].
    split; [split; simpl; try done; try lia; [by constructor|naive_solver]|].
    unfold unacknowledged; simpl. auto with lia.
  - apply poll_acquire_ready in Hb as [Hp Hc]; [|lia].
    split; [split; simpl; try done; try lia; [by constructor|naive_solver]|].
    unfold unacknowledged; simpl. auto with lia.
Qed.

Lemma queued_inv x s l1 l2 :
  send_inv s (l1 ++ x :: l2) -> send_inv (queued x s) (l1 ++ l2).
Proof.
  intros []. rewrite sending_total_app in inv_sending0. simpl in inv_sending0.
  apply Forall_app in inv_chunks0 as [H1 [Hx H2]%Forall_cons].
  pose proof (sending_total_nonneg _ H1). pose proof (sending_total_nonneg _ H2).
  destruct Hx. split; simpl; rewrite ?sending_total_app; try done; try lia.
  by apply Forall_app.
Qed.

Lemma queued_unacknowledged x (s : SessionSend Sem) : unacknowledged (queued x s) = unacknowledged s + sending_bytes x.
Proof. unfold unacknowledged, queued. simpl. lia. Qed.

Lemma drop_inv x s l1 l2 :
  send_inv s (l1 ++ x :: l2) ->
  send_inv (drop_sending x s) (l1 ++ l2) /\ unacknowledged (drop_sending x s) = unacknowledged s.
Proof.
  intros []. rewrite sending_total_app in inv_sending0. simpl in inv_sending0.
  apply Forall_app in inv_chunks0 as [H1 [Hx H2]%Forall_cons].
  pose proof (sending_total_nonneg _ H1). pose proof (sending_total_nonneg _ H2).
  destruct Hx. unfold drop_sending. rewrite (proj2 (Z.eqb_neq _ _)) by lia.
  unfold unacknowledged.
  destruct (from_first x); simpl; (split; [|lia]);
    split; simpl; rewrite ?sending_total_app, ?add_permits_permits, ?add_permits_closed by lia;
    try done; try lia; by apply Forall_app.
Qed.

Lemma acknowledge_inv n s s' l :
  0 <= n -> send_inv s l -> acknowledge n s = Some s' ->
  send_inv s' l /\ unacknowledged s' = unacknowledged s - n /\
  first_cap s' = first_cap s /\ budget_cap s' = budget_cap s.
Proof.
  intros Hn [] Ha. unfold acknowledge in Ha.
  destruct (Z.ltb_spec (owed_first (owed s) + owed_budget (owed s) - owed_sending (owed s)) n); [done|].
  injection Ha as <-. pose proof (sending_total_nonneg _ inv_chunks0).
  split; [|unfold unacknowledged; simpl; auto with lia].
  split; simpl; rewrite ?add_permits_permits, ?add_permits_closed by lia; try done; lia.
Qed.

Lemma acknowledge_some n (s : SessionSend Sem) : n <= unacknowledged s -> is_Some (acknowledge n s).
Proof.
  unfold unacknowledged, acknowledge. intros.
  destruct (Z.ltb_spec (owed_first (owed s) + owed_budget (owed s) - owed_sending (owed s)) n); [lia|eauto].
Qed.

Lemma from_hello_inv w (s : SessionSend Sem) :
  from_hello w = Ok (Some s) ->
  send_inv s [] /\ unacknowledged s = 0 /\ 4 * DATA_CHUNK_LEN <= Z.min w SESSION_WINDOW_MAX /\
  first_cap s + budget_cap s = Z.min w SESSION_WINDOW_MAX /\
  DATA_CHUNK_LEN <= first_cap s /\ DATA_CHUNK_LEN <= budget_cap s.
Proof.
  unfold from_hello. set (w' := Z.min w SESSION_WINDOW_MAX).
  destruct (Z.eqb_spec w' 0); [done|].
  destruct (Z.ltb_spec w' SESSION_WINDOW_MIN) as [|Hmin]; [done|]. intros [= <-].
  unfold SESSION_WINDOW_MIN, DATA_CHUNK_LEN in *.
  pose proof (Z.div_mod w' 4 ltac:(lia)). pose proof (Z.mod_pos_bound w' 4 ltac:(lia)).
  split; [|unfold unacknowledged; simpl; repeat split; lia].
  split; simpl; rewrite ?sem_new_permits, ?sem_new_closed by lia; try done; try lia; constructor.
Qed.

Lemma send_step_inv s l s' l' :
  send_step (s, l) (s', l') -> send_inv s l ->
  send_inv s' l' /\ first_cap s' = first_cap s /\ budget_cap s' = budget_cap s.
Proof.
  intros Hst Hi. inversion Hst; subst.
  - edestruct take_inv as (? & _ & _ & ? & ?); eauto.
  - split; [by apply queued_inv|done].
  - split; [by apply drop_inv|]. unfold drop_sending.
    destruct (_ =? 0); [done|]. by destruct (from_first x).
  - edestruct acknowledge_inv as (? & _ & ? & ?); eauto.
Qed.

Lemma send_reach s l st :
  rtc send_step (s, l) st -> send_inv s l ->
  send_inv st.1 st.2 /\ first_cap st.1 = first_cap s /\ budget_cap st.1 = budget_cap s.
Proof.
  intros Hr Hi. remember (s, l) as st0 eqn:E. revert s l E Hi.
  induction Hr as [st0|st0 [s1 l1] st2 Hs Hr IH]; intros s l -> Hi; [done|].
  destruct (send_step_inv _ _ _ _ Hs Hi) as (Hi1 & Hf & Hb).
  destruct (IH s1 l1 eq_refl Hi1) as (? & ? & ?). split; [done|]. split; congruence.
Qed.

(** whatever the pumps and the peer do -- taking chunks, queueing their frames, giving them up
    when a stream is reset, acknowledging -- nothing of the session window is lost or created: per
    part, the permits and the bytes owed add up to the part's size, no counter goes below zero,
    the two parts make up the window of the peer's HELLO (capped at [SESSION_WINDOW_MAX]), and so
    no more than that window is ever unacknowledged. *)
Theorem session_send_conserved w (s0 s : SessionSend Sem) l :
  from_hello w = Ok (Some s0) -> rtc send_step (s0, []) (s, l) ->
  send_inv s l /\
  first_cap s + budget_cap s = Z.min w SESSION_WINDOW_MAX /\
  0 <= unacknowledged s <= Z.min w SESSION_WINDOW_MAX.
Proof.
  intros Hh Hr. destruct (from_hello_inv _ _ Hh) as (Hi & _ & _ & Hw & _).
  destruct (send_reach _ _ _ Hr Hi) as (Hi' & Hf & Hb). simpl in *.
  split; [done|]. split; [lia|]. destruct Hi'. unfold unacknowledged.
  pose proof (sem_permits_nonneg (first s)). pose proof (sem_permits_nonneg (budget s)).
  pose proof (sending_total_nonneg _ inv_chunks0). lia.
Qed.

(** a chunk whose stream is reset before its frame was queued gives its bytes back in full --
    also after acknowledgements moved debt between the two parts: the permits of the session
    grow by exactly the chunk, and what the peer owes an acknowledgement for does not change. *)
Theorem drop_gives_bytes_back x (s : SessionSend Sem) l1 l2 :
  send_inv s (l1 ++ x :: l2) ->
  sem_permits (first (drop_sending x s)) + sem_permits (budget (drop_sending x s)) =
    sem_permits (first s) + sem_permits (budget s) + sending_bytes x /\
  unacknowledged (drop_sending x s) = unacknowledged s /\
  send_inv (drop_sending x s) (l1 ++ l2).
Proof.
  intros Hi. destruct (drop_inv _ _ _ _ Hi) as [Hd Hu]. split; [|done].
  assert (first_cap (drop_sending x s) = first_cap s /\ budget_cap (drop_sending x s) = budget_cap s)
    as [Hf Hb].
  { unfold drop_sending. destruct (_ =? 0); [done|]. by destruct (from_first x). }
  unfold unacknowledged in Hu.
  assert (owed_sending (owed (drop_sending x s)) = owed_sending (owed s) - sending_bytes x) as Hs.
  { rewrite (inv_sending _ _ Hd), (inv_sending _ _ Hi), !sending_total_app. simpl. lia. }
  pose proof (inv_first _ _ Hi). pose proof (inv_first _ _ Hd).
  pose proof (inv_budget _ _ Hi). pose proof (inv_budget _ _ Hd). lia.
Qed.
End SendSide.

(** A window of 64 KiB on the reference semaphore, and a first chunk of 1000 bytes taken from it. *)
Definition send_64k : SessionSend RefSem :=
  {| budget := sem_new 49152; first := sem_new 16384; budget_cap := 49152; first_cap := 16384;
     owed := {| owed_first := 0; owed_budget := 0; owed_sending := 0 |} |}.
Definition chunk_1000 : SessionSending := {| from_first := true; sending_bytes := 1000 |}.
Definition send_64k_taken : SessionSend RefSem :=
  {| budget := sem_new 49152; first := sem_new 15384; budget_cap := 49152; first_cap := 16384;
     owed := {| owed_first := 1000; owed_budget := 0; owed_sending := 1000 |} |}.

Lemma session_send_conserved_witness :
  from_hello 65536 = Ok (Some send_64k) /\
  rtc send_step (send_64k, []) (queued chunk_1000 send_64k_taken, []) /\
  0 <= unacknowledged (queued chunk_1000 send_64k_taken) <= 65536.
Proof.
  assert (from_hello 65536 = Ok (Some send_64k)) as H by (vm_compute; reflexivity).
  assert (rtc send_step (send_64k, []) (queued chunk_1000 send_64k_taken, [])) as Hr.
  { eapply rtc_l; [|eapply rtc_once].
    - apply (send_take true 1000 send_64k send_64k_taken chunk_1000 []);
        [split; vm_compute; congruence|vm_compute; reflexivity].
    - apply (send_queued chunk_1000 send_64k_taken [] []). }
  split; [exact H|]. split; [exact Hr|].
  exact (proj2 (proj2 (session_send_conserved 65536 _ _ _ H Hr))).
Defined.

Lemma drop_gives_bytes_back_witness :
  send_inv send_64k_taken ([] ++ chunk_1000 :: []) /\
  sem_permits (first (drop_sending chunk_1000 send_64k_taken))
    + sem_permits (budget (drop_sending chunk_1000 send_64k_taken)) = 65536.
Proof.
  assert (send_inv send_64k_taken ([] ++ chunk_1000 :: [])) as H.
  { split; try (vm_compute; congruence); [|done].
    apply Forall_cons_2; [split; vm_compute; congruence|apply Forall_nil_2]. }
  split; [exact H|].
  rewrite (proj1 (drop_gives_bytes_back chunk_1000 send_64k_taken [] [] H)). vm_compute. reflexivity.
Defined.
