(* ===== verification/ForwardPump.v ===== *)
(** * ForwardPump: one forwarded connection

    [send_or_drop] and [pump_forward_stream] of [channel_run/forward_stream.rs]: the two halves of
    a pump as state machines, one step per point where the half waits.  The local socket, the
    outbound queue and the clock answer through the events; the stream's credit and the session
    window are the shared objects of [FlowControl]. *)
From S2P Require Import Prelude Text Runtime ForwardWire FlowControl.

#[local] Open Scope Z_scope.

Definition CLOSE_SEND_GRACE : Z := 2 * SECOND.

(** ** [send_or_drop] *)

(** What [try_send] said, and what each wait of [CLOSE_SEND_GRACE] for a slot ended with; a wait
    that timed out carries the writer's count before and after it. *)
Inductive TrySend := TrySent | TryClosed | TryFull.
Inductive Grace :=
| Reserved
| QueueClosed
| TimedOut (before after : Z).

(** [None]: every answer so far was a timeout with progress, the wait goes on.  [tracked]: the
    caller runs inside an engine's stream task, where [WRITTEN] is set. *)
Fixpoint grace_loop (tracked : bool) (rounds : list Grace) : option bool :=
  match rounds with
  | [] => None
  | Reserved :: _ => Some true
  | QueueClosed :: _ => Some false
  | TimedOut before after :: rounds =>
      if tracked && negb (after =? before) then grace_loop tracked rounds else Some false
  end.

Definition send_or_drop (tracked : bool) (t : TrySend) (rounds : list Grace) : option bool :=
  match t with
  | TrySent => Some true
  | TryClosed => Some false
  | TryFull => grace_loop tracked rounds
  end.

(** ** The two halves *)

Inductive Half := HalfDone | HalfStop.

Inductive ReadResult :=
| ReadEof
| ReadErr
| ReadOk (p : list byte).

(** Where the "local to peer" half waits: for the socket, for [send_or_drop] of its last frame,
    for credit, for the session window, for room in the outbound queue -- or it has returned. *)
Inductive UpPc :=
| UpReading
| UpClosing (f : Frame) (after : Half)
| UpCredit (p : list byte)
| UpWindow (p : list byte)
| UpRoom (p : list byte) (held : option SessionSending)
| UpEnd (h : Half).

Record Up := { up_pc : UpPc; first_chunk : bool; bytes_out : Z }.

Inductive UpEvent :=
| EvRead (r : ReadResult)
| EvSent (sent : bool)
| EvPoll
| EvRoom (ok : bool).

(** The "peer to local" half: waiting for the queue, writing to the socket, sending a WINDOW
    or a reset, or done. *)
Inductive DownPc :=
| DownReceiving
| DownWriting (p : list byte)
| DownReporting (bytes : Z)
| DownResetting
| DownEnd (h : Half).

Record Down := { down_pc : DownPc; unreported : Z; bytes_in : Z }.

Inductive DownEvent :=
| EvRecv (m : option StreamIn)
| EvWrote (ok : bool)
| EvReported (sent : bool).

Section Pump.
Context {Sem : Type} `{SemaphoreOps Sem}.

(** The stream's credit and the session window, shared with the engine and the other pumps. *)
Record PumpFlow := { flow_credit : option Sem; flow_session : option (SessionSend Sem) }.

Definition up_with (u : Up) (pc : UpPc) : Up :=
  {| up_pc := pc; first_chunk := first_chunk u; bytes_out := bytes_out u |}.

(** [Ok(n)] of the socket: credit first, then the session window, then the queue. *)
Definition after_credit (u : Up) (flow : PumpFlow) (p : list byte) : Up :=
  match flow_session flow with
  | Some _ => up_with u (UpWindow p)
  | None => {| up_pc := UpRoom p None; first_chunk := false; bytes_out := bytes_out u + Zlen p |}
  end.

(** One step of the half; the frame it puts into the outbound queue, if any.  [None]: the half
    is not waiting for this. *)
Definition up_step (id : Z) (u : Up) (flow : PumpFlow) (ev : UpEvent)
  : option (Up * PumpFlow * option Frame) :=
  match up_pc u, ev with
  | UpReading, EvRead ReadEof =>
      Some (up_with u (UpClosing (Close id None) HalfDone), flow, None)
  | UpReading, EvRead ReadErr =>
      Some (up_with u (UpClosing (abort_frame id) HalfStop), flow, None)
  | UpReading, EvRead (ReadOk p) =>
      match flow_credit flow with
      | Some _ => Some (up_with u (UpCredit p), flow, None)
      | None => Some (after_credit u flow p, flow, None)
      end
  | UpClosing f after, EvSent sent =>
      Some (up_with u (UpEnd (if sent then after else HalfStop)), flow,
            if sent then Some f else None)
  | UpCredit p, EvPoll =>
      match flow_credit flow with
      | Some c =>
          match poll_acquire (wrap 32 (Zlen p)) c with
          | Ready (Some c) =>
              let flow := {| flow_credit := Some c; flow_session := flow_session flow |} in
              Some (after_credit u flow p, flow, None)
          | Ready None => Some (up_with u (UpEnd HalfStop), flow, None)
          | Pending => None
          end
      | None => None
      end
  | UpWindow p, EvPoll =>
      match flow_session flow with
      | Some s =>
          match take_window (first_chunk u) (Zlen p) s with
          | Ready (Some (s, sending)) =>
              Some ({| up_pc := UpRoom p (Some sending); first_chunk := false;
                       bytes_out := bytes_out u + Zlen p |},
                    {| flow_credit := flow_credit flow; flow_session := Some s |}, None)
          | Ready None => Some (up_with u (UpEnd HalfStop), flow, None)
          | Pending => None
          end
      | None => None
      end
  | UpRoom p held, EvRoom ok =>
      let give (f : SessionSending -> SessionSend Sem -> SessionSend Sem) :=
        match held with
        | Some x => {| flow_credit := flow_credit flow; flow_session := f x <$> flow_session flow |}
        | None => flow
        end in
      if ok then Some (up_with u UpReading, give queued, Some (Data id p))
      else Some (up_with u (UpEnd HalfStop), give drop_sending, None)
  | _, _ => None
  end.

(** The engine aborts the task: a chunk still held is dropped with it. *)
Definition up_abort (u : Up) (flow : PumpFlow) : PumpFlow :=
  match up_pc u with
  | UpRoom _ (Some x) =>
      {| flow_credit := flow_credit flow; flow_session := drop_sending x <$> flow_session flow |}
  | _ => flow
  end.

Definition down_step (id : Z) (credited : bool) (d : Down) (ev : DownEvent)
  : option (Down * option Frame) :=
  match down_pc d, ev with
  | DownReceiving, EvRecv (Some (SData p)) =>
      Some ({| down_pc := DownWriting p; unreported := unreported d; bytes_in := bytes_in d |}, None)
  | DownReceiving, EvRecv (Some SClosed) | DownReceiving, EvRecv None =>
      Some ({| down_pc := DownEnd HalfDone; unreported := unreported d; bytes_in := bytes_in d |}, None)
  | DownReceiving, EvRecv (Some SAborted) =>
      Some ({| down_pc := DownEnd HalfStop; unreported := unreported d; bytes_in := bytes_in d |}, None)
  | DownWriting p, EvWrote false =>
      Some ({| down_pc := DownResetting; unreported := unreported d; bytes_in := bytes_in d |}, None)
  | DownWriting p, EvWrote true =>
      let bytes := bytes_in d + Zlen p in
      if credited then
        let unreported := unreported d + Zlen p in
        Some ({| down_pc := if FC_WINDOW / 2 <=? unreported then DownReporting unreported
                            else DownReceiving;
                 unreported := unreported; bytes_in := bytes |}, None)
      else
        Some ({| down_pc := DownReceiving; unreported := unreported d; bytes_in := bytes |}, None)
  | DownReporting n, EvReported sent =>
      if sent then
        Some ({| down_pc := DownReceiving; unreported := 0; bytes_in := bytes_in d |},
              Some (window_frame id (wrap 32 n)))
      else Some ({| down_pc := DownEnd HalfStop; unreported := unreported d; bytes_in := bytes_in d |}, None)
  | DownResetting, EvReported sent =>
      Some ({| down_pc := DownEnd HalfStop; unreported := unreported d; bytes_in := bytes_in d |},
            if sent then Some (abort_frame id) else None)
  | _, _ => None
  end.
End Pump.
Arguments PumpFlow : clear implicits.

Definition up_start : Up := {| up_pc := UpReading; first_chunk := true; bytes_out := 0 |}.
Definition down_start : Down := {| down_pc := DownReceiving; unreported := 0; bytes_in := 0 |}.

(** ** The pump's own loop *)

Definition SECS_PER_YEAR : Z := 86400 * 365.

(** [touch]: whole milliseconds since the pump's start. *)
Definition touch (start now : Z) : Z := wrap 64 ((now - start) / MILLI).
Definition last_activity (start last_ms : Z) : Z := start + last_ms * MILLI.

Definition idle_deadline (start last_ms idle : Z) : Z :=
  let last := last_activity start last_ms in
  default (last + SECS_PER_YEAR * SECOND) (checked_add_instant last idle).

(** The check in the timer branch: the deadline may have moved while the timer slept. *)
Definition idle_expired (start last_ms idle now : Z) : bool :=
  match checked_add_instant (last_activity start last_ms) idle with
  | Some d => d <=? now
  | None => false
  end.

(** How the [while] loop goes on: both halves done ends it, a half that stopped breaks it. *)
Definition pump_running (u : Up) (d : Down) : bool :=
  match up_pc u, down_pc d with
  | UpEnd HalfStop, _ | _, DownEnd HalfStop => false
  | UpEnd HalfDone, DownEnd HalfDone => false
  | _, _ => true
  end.

Definition idle_close (id : Z) : Frame := Close id (Some "idle timeout").

(** ** [send_or_drop]: when a frame is given up *)

(** [send_or_drop] gives a frame up only when the queue is closed, or when one whole grace
    passed in which the session's writer wrote nothing (any grace, outside a stream task); every
    earlier grace of the wait saw the writer move. *)
Theorem send_or_drop_gives_up tracked t rounds :
  send_or_drop tracked t rounds = Some false <->
  t = TryClosed \/
  (t = TryFull /\ exists slow last rest,
     rounds = slow ++ last :: rest /\
     Forall (fun g => exists b a, g = TimedOut b a /\ tracked = true /\ a <> b) slow /\
     (last = QueueClosed \/ exists b a, last = TimedOut b a /\ (tracked = true -> a = b))).
Proof.
  destruct t; simpl; [naive_solver|naive_solver|].
  split.
  - intros Hg. right. split; [done|].
    induction rounds as [|[| |b a] rounds IH]; simpl in Hg; try done.
    + exists [], QueueClosed, rounds. auto.
    + destruct (Z.eqb_spec a b) as [->|Hne]; simpl in Hg; rewrite ?andb_false_r, ?andb_true_r in Hg.
      { exists [], (TimedOut b b), rounds. split; [done|]. split; [done|]. right. eauto. }
      destruct tracked; simpl in Hg.
      * destruct (IH Hg) as (slow & last & rest & -> & Hs & Hl).
        exists (TimedOut b a :: slow), last, rest. split; [done|]. split; [|done].
        apply Forall_cons_2; [eauto 6|done].
      * exists [], (TimedOut b a), rounds. split; [done|]. split; [done|]. right. by exists b, a.
  - intros [|(_ & slow & last & rest & -> & Hs & Hl)]; [done|].
    induction Hs as [|g slow (b & a & -> & -> & Hne) Hs IH]; simpl.
    + destruct Hl as [->|(b & a & -> & Ha)]; simpl; [done|].
      destruct tracked; simpl; [|done]. rewrite Ha by done. by rewrite Z.eqb_refl.
    + rewrite (proj2 (Z.eqb_neq _ _) Hne). simpl. exact IH.
Qed.

(** ** The "local to peer" half is byte-transparent *)

Section UpRuns.
Context {Sem : Type} `{SemaphoreOps Sem}.

(** A run of the half, the objects it shares changing freely between its own steps: what it read
    from the socket and what it put into the outbound queue. *)
Inductive up_run (id : Z) : Up -> list (list byte) -> list Frame -> Prop :=
| up_run_start : up_run id up_start [] []
| up_run_step u reads out flow ev u' flow' f :
    up_run id u reads out -> up_step (Sem := Sem) id u flow ev = Some (u', flow', f) ->
    up_run id u'
      (reads ++ match ev with EvRead (ReadOk p) => [p] | _ => [] end) (out ++ option_list f).

Definition up_sent (id : Z) (u : Up) (reads : list (list byte)) (out : list Frame) : Prop :=
  match up_pc u with
  | UpReading | UpClosing (Close _ None) HalfDone | UpClosing _ HalfStop => out = map (Data id) reads
  | UpClosing _ HalfDone => False
  | UpCredit p | UpWindow p | UpRoom p _ =>
      exists sent, reads = sent ++ [p] /\ out = map (Data id) sent
  | UpEnd HalfDone => out = map (Data id) reads ++ [Close id None]
  | UpEnd HalfStop =>
      exists sent lost reset, reads = sent ++ lost /\ (length lost <= 1)%nat /\
        out = map (Data id) sent ++ reset /\ (reset = [] \/ reset = [abort_frame id])
  end /\
  match up_pc u with
  | UpClosing f h => f = Close id None /\ h = HalfDone \/ f = abort_frame id /\ h = HalfStop
  | _ => True
  end.

Lemma after_credit_pc u (flow : PumpFlow Sem) p :
  up_pc (after_credit u flow p) = UpWindow p \/ up_pc (after_credit u flow p) = UpRoom p None.
Proof. unfold after_credit. destruct (flow_session flow); simpl; auto. Qed.

Lemma up_sent_waiting id u p reads out :
  up_pc u = UpCredit p \/ up_pc u = UpWindow p \/ (exists h, up_pc u = UpRoom p h) ->
  up_sent id u reads out <-> exists sent, reads = sent ++ [p] /\ out = map (Data id) sent.
Proof. unfold up_sent. intros [-> | [-> | [h ->]]]; naive_solver. Qed.

Lemma up_run_sent id u reads out : up_run id u reads out -> up_sent id u reads out.
Proof.
  induction 1 as [|u reads out flow ev u' flow' f Hr IH Hs]; [done|].
  unfold up_step in Hs.
  destruct (up_pc u) as [|fr h|p|p|p held|h] eqn:Epc; destruct ev as [r|sent| |ok]; try done;
    unfold up_sent in IH; rewrite Epc in IH; destruct IH as [IH Hcl].
  - subst out. destruct r as [| |p].
    + injection Hs as <- <- <-. simpl. rewrite !app_nil_r. split; simpl; auto.
    + injection Hs as <- <- <-. simpl. rewrite !app_nil_r. split; simpl; auto.
    + destruct (flow_credit flow); injection Hs as <- <- <-; simpl; rewrite app_nil_r.
      * apply (up_sent_waiting _ _ p); [by left|eauto].
      * apply (up_sent_waiting _ _ p); [destruct (after_credit_pc u flow p); eauto|eauto].
  - injection Hs as <- <- <-. rewrite app_nil_r.
    destruct Hcl as [[-> ->]|[-> ->]]; destruct sent; simpl in *; subst out;
      (split; [|done]); simpl; rewrite ?app_nil_r; try done.
    + exists reads, [], []. rewrite !app_nil_r. simpl. eauto with lia.
    + exists reads, [], [abort_frame id]. rewrite app_nil_r. simpl. eauto with lia.
    + exists reads, [], []. rewrite !app_nil_r. simpl. eauto with lia.
  - destruct (flow_credit flow) as [c|]; [|done]. destruct IH as (sent & -> & ->).
    destruct (poll_acquire _ c) as [[c'|]|]; try done; injection Hs as <- <- <-;
      simpl; rewrite !app_nil_r.
    + apply (up_sent_waiting _ _ p); [|eauto].
      match goal with |- context [after_credit u ?fl p] => destruct (after_credit_pc u fl p); eauto end.
    + split; [|done]. simpl. exists sent, [p], []. rewrite app_nil_r. simpl. eauto with lia.
  - destruct (flow_session flow) as [c|]; [|done]. destruct IH as (sent & -> & ->).
    destruct (take_window _ _ c) as [[[c' x]|]|]; try done; injection Hs as <- <- <-;
      simpl; rewrite !app_nil_r.
    + apply (up_sent_waiting _ _ p); [simpl; eauto|eauto].
    + split; [|done]. simpl. exists sent, [p], []. rewrite app_nil_r. simpl. eauto with lia.
  - destruct IH as (sent & -> & ->). destruct ok; injection Hs as <- <- <-; simpl; rewrite !app_nil_r.
    + split; [|done]. simpl. by rewrite map_app.
    + split; [|done]. simpl. exists sent, [p], []. rewrite app_nil_r. simpl. eauto with lia.
Qed.

(** the "local to peer" half of a pump is byte-transparent: at any moment, the frames it has
    queued are exactly the chunks it read, in order, as [Data] of its stream -- all but at most
    the last one, which is being paid for -- followed by at most one [Close], its last frame.  A
    clean end queued everything that was read and then the half-close. *)
Theorem up_transparent id u reads out :
  up_run id u reads out ->
  (exists sent lost closing,
    reads = sent ++ lost /\ (length lost <= 1)%nat /\ out = map (Data id) sent ++ closing /\
    (closing = [] \/ ((exists h, up_pc u = UpEnd h) /\ exists r, closing = [Close id r]))) /\
  (up_pc u = UpEnd HalfDone -> out = map (Data id) reads ++ [Close id None]).
Proof.
  intros Hr. apply up_run_sent in Hr. split.
  - destruct Hr as [Hr Hcl].
    destruct (up_pc u) as [|fr h|p|p|p held|h] eqn:Epc.
    + exists reads, [], []. rewrite !app_nil_r. simpl. eauto with lia.
    + exists reads, [], []. rewrite !app_nil_r. simpl. split; [done|]. split; [lia|]. split; [|by left].
      by destruct Hcl as [[-> ->]|[-> ->]].
    + destruct Hr as (sent & -> & ->). exists sent, [p], []. rewrite app_nil_r. simpl. eauto with lia.
    + destruct Hr as (sent & -> & ->). exists sent, [p], []. rewrite app_nil_r. simpl. eauto with lia.
    + destruct Hr as (sent & -> & ->). exists sent, [p], []. rewrite app_nil_r. simpl. eauto with lia.
    + destruct h.
      * exists reads, [], [Close id None]. rewrite app_nil_r. simpl. eauto 10 with lia.
      * destruct Hr as (sent & lost & reset & -> & Hl & -> & [-> | ->]); exists sent, lost.
        -- exists []. eauto.
        -- exists [abort_frame id]. unfold abort_frame. eauto 10.
  - intros Hpc. destruct Hr as [Hr _]. by rewrite Hpc in Hr.
Qed.
End UpRuns.

Lemma up_transparent_witness :
  let reads := [[Byte.x61; Byte.x62]] in
  let out := [Data 5 [Byte.x61; Byte.x62]; Close 5 None] in
  exists u, up_run (Sem := RefSem) 5 u reads out /\ up_pc u = UpEnd HalfDone /\
    out = map (Data 5) reads ++ [Close 5 None].
Proof.
  intros reads out.
  set (flow := {| flow_credit := Some (sem_new 10 : RefSem); flow_session := None |}).
  set (flow' := {| flow_credit := Some (sem_new 8 : RefSem); flow_session := None |}).
  set (p := [Byte.x61; Byte.x62]).
  exists {| up_pc := UpEnd HalfDone; first_chunk := false; bytes_out := 2 |}.
  assert (up_run (Sem := RefSem) 5 {| up_pc := UpEnd HalfDone; first_chunk := false; bytes_out := 2 |}
            reads out) as H.
  { pose proof (up_run_start (Sem := RefSem) 5) as H0.
    pose proof (up_run_step 5 _ _ _ flow (EvRead (ReadOk p)) _ _ _ H0 eq_refl) as H1.
    pose proof (up_run_step 5 _ _ _ flow EvPoll _ _ _ H1 eq_refl) as H2.
    pose proof (up_run_step 5 _ _ _ flow' (EvRoom true) _ _ _ H2 eq_refl) as H3.
    pose proof (up_run_step 5 _ _ _ flow' (EvRead ReadEof) _ _ _ H3 eq_refl) as H4.
    exact (up_run_step 5 _ _ _ flow' (EvSent true) _ _ _ H4 eq_refl). }
  split; [exact H|]. split; [reflexivity|].
  exact (proj2 (up_transparent 5 _ reads out H) eq_refl).
Defined.

(** ** The "peer to local" half *)

(** A run of the half: the messages it took, the bytes the socket took, the frames it queued. *)
Inductive down_run (id : Z) (credited : bool)
  : Down -> list StreamIn -> list byte -> list Frame -> Prop :=
| down_run_start : down_run id credited down_start [] [] []
| down_run_step d msgs bytes out ev d' f :
    down_run id credited d msgs bytes out -> down_step id credited d ev = Some (d', f) ->
    down_run id credited d'
      (msgs ++ match ev with EvRecv (Some m) => [m] | _ => [] end)
      (bytes ++ match down_pc d, ev with DownWriting p, EvWrote true => p | _, _ => [] end)
      (out ++ option_list f).

Definition payload_of (m : StreamIn) : list byte := match m with SData p => p | _ => [] end.

(** The bytes of credit the frames give back. *)
Definition window_bytes (f : Frame) : Z :=
  match frame_control f with Some (Window _ n) => n | _ => 0 end.
(** The bytes the half holds between the queue and the socket. *)
Definition in_hand (d : Down) : list byte :=
  match down_pc d with DownWriting p => p | _ => [] end.

Definition down_bytes (d : Down) (msgs : list StreamIn) (bytes : list byte) : Prop :=
  match down_pc d with
  | DownWriting p => bytes ++ p = concat (map payload_of msgs)
  | DownResetting | DownEnd HalfStop => exists lost, bytes ++ lost = concat (map payload_of msgs)
  | _ => bytes = concat (map payload_of msgs)
  end.

Lemma down_run_bytes id credited d msgs bytes out :
  down_run id credited d msgs bytes out -> down_bytes d msgs bytes.
Proof.
  induction 1 as [|d msgs bytes out ev d' f Hr IH Hs]; [done|].
  unfold down_bytes, down_step in *.
  rewrite map_app, concat_app.
  destruct (down_pc d) as [|p|n| |h]; destruct ev as [[[q| |]|]|[|]|sent]; try done.
  - simplify_eq. simpl. by rewrite !app_nil_r.
  - simplify_eq. simpl. by rewrite !app_nil_r.
  - simplify_eq. simpl. exists []. by rewrite !app_nil_r.
  - simplify_eq. simpl. by rewrite !app_nil_r.
  - destruct credited; simplify_eq; simpl; rewrite app_nil_r; [|done].
    by destruct (_ <=? _).
  - simplify_eq. simpl. exists p. by rewrite !app_nil_r.
  - destruct sent; simplify_eq; simpl; rewrite !app_nil_r; [done|]. exists []. by rewrite app_nil_r.
  - destruct IH as [lost IH]. simplify_eq. simpl. exists lost. by rewrite !app_nil_r.
Qed.

(** The bytes a [WINDOW] was not sent for yet are less than half a window while the half waits for
    data; a frame of data adds at most [MAX_DATA_FRAME_LEN]. *)
Definition down_credit (d : Down) (bytes : list byte) (out : list Frame) : Prop :=
  sum_of window_bytes out + unreported d = Zlen bytes /\
  0 <= unreported d < FC_WINDOW / 2 + MAX_DATA_FRAME_LEN /\
  match down_pc d with
  | DownReceiving | DownEnd HalfDone => unreported d < FC_WINDOW / 2
  | DownWriting p => unreported d < FC_WINDOW / 2 /\ Zlen p <= MAX_DATA_FRAME_LEN
  | DownReporting n => n = unreported d
  | _ => True
  end.

Lemma down_step_credit id d bytes out ev d' f :
  0 <= id <= U32_MAX ->
  (forall m, ev = EvRecv (Some m) -> data_len m <= MAX_DATA_FRAME_LEN) ->
  down_step id true d ev = Some (d', f) -> down_credit d bytes out ->
  down_credit d' (bytes ++ match down_pc d, ev with DownWriting p, EvWrote true => p | _, _ => [] end)
    (out ++ option_list f).
Proof.
  intros Hid Hlen Hs (Hsum & Hu & Hpc). unfold down_credit, down_step in *.
  rewrite sum_of_app, length_app.
  destruct (down_pc d) as [|p|n| |h]; destruct ev as [[[q| |]|]|[|]|sent]; try done.
  - specialize (Hlen (SData q) eq_refl). simplify_eq. simpl in *. rewrite ?sum_of_cons, ?sum_of_nil. lia.
  - simplify_eq. simpl. rewrite ?sum_of_cons, ?sum_of_nil. lia.
  - simplify_eq. simpl. rewrite ?sum_of_cons, ?sum_of_nil. lia.
  - simplify_eq. simpl. rewrite ?sum_of_cons, ?sum_of_nil. lia.
  - simplify_eq. simpl. rewrite ?sum_of_cons, ?sum_of_nil. destruct (Z.leb_spec (FC_WINDOW / 2) (unreported d + Zlen p)); lia.
  - simplify_eq. simpl. rewrite ?sum_of_cons, ?sum_of_nil. lia.
  - subst n. destruct sent; simplify_eq; simpl; rewrite ?sum_of_cons, ?sum_of_nil; [|lia].
    assert (window_bytes (window_frame id (wrap 32 (unreported d))) = unreported d) as ->.
    { change (FC_WINDOW / 2) with 131072 in *. change MAX_DATA_FRAME_LEN with 1048576 in *.
      unfold window_bytes, wrap. rewrite Z.mod_small by lia.
      rewrite frame_control_window; [done|done|unfold U32_MAX; lia]. }
    change (FC_WINDOW / 2) with 131072. change MAX_DATA_FRAME_LEN with 1048576. lia.
  - simplify_eq. destruct sent; simpl; rewrite ?sum_of_cons, ?sum_of_nil; [|lia].
    change (window_bytes (abort_frame id)) with 0. lia.
Qed.

Lemma down_run_credit id d msgs bytes out :
  0 <= id <= U32_MAX -> Forall (fun m => data_len m <= MAX_DATA_FRAME_LEN) msgs ->
  down_run id true d msgs bytes out -> down_credit d bytes out.
Proof.
  intros Hid Hmsgs Hr. revert Hmsgs.
  induction Hr as [|d msgs bytes out ev d' f Hr IH Hs]; intros Hmsgs; [done|].
  apply Forall_app in Hmsgs as [Hmsgs Hev].
  eapply down_step_credit; [done| |done|by apply IH].
  intros m ->. by apply Forall_cons in Hev as [? _].
Qed.

(** the "peer to local" half writes what the peer sent, byte for byte and in order; with credit,
    the bytes its WINDOW frames gave back and the bytes not reported yet are exactly the bytes the
    socket took, and while it waits for data less than half a window is unreported -- so the
    sender is never left without at least half of its window. *)
Theorem down_transparent id d msgs bytes out :
  0 <= id <= U32_MAX -> Forall (fun m => data_len m <= MAX_DATA_FRAME_LEN) msgs ->
  down_run id true d msgs bytes out ->
  (exists rest, bytes ++ rest = concat (map payload_of msgs)) /\
  (down_pc d = DownReceiving \/ down_pc d = DownEnd HalfDone ->
    bytes = concat (map payload_of msgs) /\ unreported d < FC_WINDOW / 2) /\
  sum_of window_bytes out + unreported d = Zlen bytes.
Proof.
  intros Hid Hm Hr. pose proof (down_run_bytes _ _ _ _ _ _ Hr) as Hb.
  destruct (down_run_credit _ _ _ _ _ Hid Hm Hr) as (Hs & Hu & Hpc). unfold down_bytes in Hb.
  split; [|split; [|done]].
  - destruct (down_pc d) as [|p|n| |[|]]; eauto; exists []; by rewrite app_nil_r.
  - intros [E|E]; rewrite E in *; auto.
Qed.

Lemma down_transparent_witness :
  let p := replicate 3 Byte.x41 in
  down_run 4 true {| down_pc := DownReceiving; unreported := 3; bytes_in := 3 |} [SData p] p [] /\
  sum_of window_bytes [] + 3 = Zlen p.
Proof.
  intros p.
  assert (down_run 4 true {| down_pc := DownReceiving; unreported := 3; bytes_in := 3 |} [SData p] p []) as H.
  { pose proof (down_run_start 4 true) as H0.
    pose proof (down_run_step 4 true _ _ _ _ (EvRecv (Some (SData p))) _ _ H0 eq_refl) as H1.
    exact (down_run_step 4 true _ _ _ _ (EvWrote true) _ _ H1 eq_refl). }
  split; [exact H|].
  refine (proj2 (proj2 (down_transparent 4 _ [SData p] p [] _ _ H))); [vm_compute; split; congruence|].
  apply Forall_cons_2; [vm_compute; congruence|apply Forall_nil_2].
Defined.

(** ** The idle limit *)

Lemma touch_last start now :
  0 <= now - start < 2 ^ 64 * MILLI ->
  now - MILLI < last_activity start (touch start now) <= now.
Proof.
  unfold touch, last_activity, wrap, MILLI. intros H.
  rewrite Z.mod_small.
  - pose proof (Z.div_mod (now - start) 1000000 ltac:(lia)).
    pose proof (Z.mod_pos_bound (now - start) 1000000 ltac:(lia)). lia.
  - split; [apply Z.div_pos; lia|]. apply Z.div_lt_upper_bound; lia.
Qed.

(** the idle timer never closes a stream that moved a byte within the idle period (up to the
    millisecond the activity stamp is truncated to), an idle period past the clock's range never
    closes one at all, and a stream that has been silent for the whole period is closed. *)
Theorem idle_close_exact start last idle now :
  0 <= last - start < 2 ^ 64 * MILLI -> 0 <= idle -> now <= INSTANT_MAX ->
  (idle_expired start (touch start last) idle now = true -> idle <= now - last + (MILLI - 1)) /\
  (idle <= now - last -> idle_expired start (touch start last) idle now = true).
Proof.
  intros Hr Hi Hn. pose proof (touch_last start last Hr) as Ht. unfold MILLI in *.
  unfold idle_expired, checked_add_instant.
  set (l := last_activity start (touch start last)) in *.
  destruct (Z.leb_spec (l + idle) INSTANT_MAX) as [Hle|Hgt].
  - rewrite Z.leb_le. lia.
  - split; intros; [done|lia].
Qed.

Lemma idle_close_exact_witness :
  let t := 5 * SECOND in
  idle_expired 0 (touch 0 t) (300 * SECOND) (305 * SECOND) = true.
Proof.
  intros t. refine (proj2 (idle_close_exact 0 t (300 * SECOND) (305 * SECOND) _ _ _) _);
    vm_compute; try split; congruence.
Defined.
