(* ===== verification/ForwardLink.v ===== *)
(** * ForwardLink: the two flow-control protocols, both ends together

    [SessionLink] runs the sender's [SessionSend] against the receiver's [SessionRecv], with the
    frames between them in flight; [CreditLink] does the same for the credit of one stream.  The
    steps are the operations of [FlowControl] and [ForwardPump] in any interleaving, the wire
    delivers frames in order.  The theorems say that two honest ends never see each other as
    violators and never wait for each other for good. *)
From S2P Require Import Prelude Text Runtime ForwardWire FlowControl ForwardPump.

#[local] Open Scope Z_scope.

(** Stream data in a frame: [Data] for an id other than the control id. *)
Definition stream_bytes (f : Frame) : Z :=
  match f with Data id p => if id =? CONTROL_ID then 0 else Zlen p | _ => 0 end.
Definition is_stream_data (f : Frame) : Prop :=
  match f with Data id p => id <> CONTROL_ID /\ Zlen p <= DATA_CHUNK_LEN | _ => False end.

(** What the engines do with the session window when they read a [Data] frame: the HELLO switches
    the counting on, stream data is counted, and the acknowledgement due is queued. *)
Definition recv_frame (now : Z) (f : Frame) (r : SessionRecv) : SessionRecv * option Frame :=
  match f with
  | Data id p =>
      if id =? CONTROL_ID then
        match parse_control p with
        | Some (Hello w) => (set_on (bool_decide (is_Some w)) r, None)
        | _ => (r, None)
        end
      else received now (Zlen p) r
  | _ => (r, None)
  end.

(** ... and when they read an acknowledgement. *)
Definition ack_frame {Sem} `{SemaphoreOps Sem} (f : Frame) (s : SessionSend Sem)
  : option (SessionSend Sem) :=
  match frame_control f with
  | Some (SWindow n) => acknowledge n s
  | _ => Some s
  end.

Section SessionLink.
Context {Sem : Type} `{SemaphoreLaws Sem}.

Record SessionLink := {
  snd_ : SessionSend Sem;
  held : list SessionSending;
  wire : list Frame;
  rcv : SessionRecv;
  acks : list Frame
}.

Definition with_snd (s : SessionSend Sem) (h : list SessionSending) (w : list Frame) (k : SessionLink) :=
  {| snd_ := s; held := h; wire := w; rcv := rcv k; acks := acks k |}.

Inductive link_step : SessionLink -> SessionLink -> Prop :=
| link_take fc n s' x k :
    chunk_ok n -> take_window fc n (snd_ k) = Ready (Some (s', x)) ->
    link_step k (with_snd s' (x :: held k) (wire k) k)
| link_queue x l1 l2 id p k :
    held k = l1 ++ x :: l2 -> id <> CONTROL_ID -> Zlen p = sending_bytes x ->
    link_step k (with_snd (queued x (snd_ k)) (l1 ++ l2) (wire k ++ [Data id p]) k)
| link_drop x l1 l2 k :
    held k = l1 ++ x :: l2 ->
    link_step k (with_snd (drop_sending x (snd_ k)) (l1 ++ l2) (wire k) k)
| link_deliver now f w r' a k :
    wire k = f :: w -> recv_frame now f (rcv k) = (r', a) ->
    link_step k {| snd_ := snd_ k; held := held k; wire := w; rcv := r';
                   acks := acks k ++ option_list a |}
| link_flush at_ r' a k :
    flush_at (rcv k) = Some at_ -> flush (rcv k) = (r', a) ->
    link_step k {| snd_ := snd_ k; held := held k; wire := wire k; rcv := r';
                   acks := acks k ++ option_list a |}
| link_ack f a s' k :
    acks k = f :: a -> ack_frame f (snd_ k) = Some s' ->
    link_step k {| snd_ := s'; held := held k; wire := wire k; rcv := rcv k; acks := a |}.

(** The session starts: the receiver granted [w] in its HELLO, the sender read it; the sender's
    own HELLO (granting [own]) is the first frame on the wire. *)
Definition link_start (own w : Z) (s : SessionSend Sem) : SessionLink :=
  {| snd_ := s; held := []; wire := [hello_frame own]; rcv := granting w; acks := [] |}.

Definition counting (r : SessionRecv) (wr : list Frame) : Prop :=
  (on r = true /\ Forall is_stream_data wr) \/
  (on r = false /\ unacked r = 0 /\ exists own rest, 0 <= own <= U32_MAX /\
    wr = hello_frame own :: rest /\ Forall is_stream_data rest).

Definition ack_bytes (f : Frame) : Z :=
  match frame_control f with Some (SWindow n) => n | _ => 0 end.

Record link_inv (w : Z) (k : SessionLink) : Prop := {
  link_send : send_inv (snd_ k) (held k);
  link_caps : first_cap (snd_ k) + budget_cap (snd_ k) = w /\
    DATA_CHUNK_LEN <= first_cap (snd_ k) /\ DATA_CHUNK_LEN <= budget_cap (snd_ k);
  link_window : SESSION_WINDOW_MIN <= w <= SESSION_WINDOW_MAX;
  link_counting : counting (rcv k) (wire k);
  link_sum : sum_of stream_bytes (wire k) + unacked (rcv k)
             + sum_of ack_bytes (acks k)
             = unacknowledged (snd_ k);
  link_unacked : 0 <= unacked (rcv k);
  link_timer : 0 < unacked (rcv k) -> is_Some (flush_at (rcv k));
  link_acks : Forall (fun f => exists n, 0 < n <= U32_MAX /\ f = swindow_frame n) (acks k)
}.

Lemma ack_bytes_swindow n : 0 <= n <= U32_MAX -> ack_bytes (swindow_frame n) = n.
Proof. intros. unfold ack_bytes. by rewrite frame_control_swindow. Qed.

Lemma stream_bytes_nonneg f : 0 <= stream_bytes f.
Proof. destruct f; simpl; [lia|destruct (_ =? _); lia|lia]. Qed.

Lemma acks_nonneg l :
  Forall (fun f => exists n, 0 < n <= U32_MAX /\ f = swindow_frame n) l -> 0 <= sum_of ack_bytes l.
Proof.
  intros Hl. apply sum_of_nonneg. eapply Forall_impl; [exact Hl|].
  intros f (n & Hn & ->). rewrite ack_bytes_swindow; lia.
Qed.

Lemma wire_nonneg l : 0 <= sum_of stream_bytes l.
Proof. apply sum_of_nonneg, Forall_true, stream_bytes_nonneg. Qed.

Lemma counting_app r wr f : counting r wr -> is_stream_data f -> counting r (wr ++ [f]).
Proof.
  intros [[Hon Hw]|(Hon & Hu & own & rest & Ho & -> & Hr)] Hf.
  - left. split; [done|]. apply Forall_app; auto.
  - right. split; [done|]. split; [done|]. exists own, (rest ++ [f]).
    split; [done|]. split; [done|]. apply Forall_app; auto.
Qed.

Lemma send_le w k : link_inv w k -> 0 <= unacknowledged (snd_ k) <= w.
Proof.
  intros [[] [Hc _] _ _ _ _ _ _]. unfold unacknowledged.
  pose proof (sem_permits_nonneg (first (snd_ k))). pose proof (sem_permits_nonneg (budget (snd_ k))).
  pose proof (sending_total_nonneg _ inv_chunks). lia.
Qed.

(** What the receive side has not acknowledged is what [flush] acknowledges. *)
Lemma flush_spec r r' a :
  0 <= unacked r <= U32_MAX -> flush r = (r', a) ->
  on r' = on r /\ unacked r' = 0 /\ flush_at r' = None /\
  sum_of ack_bytes (option_list a) = unacked r /\
  Forall (fun f => exists n, 0 < n <= U32_MAX /\ f = swindow_frame n) (option_list a).
Proof.
  unfold flush. intros Hu [= <- <-]. simpl. do 3 (split; [done|]).
  assert (wrap 32 (unacked r) = unacked r) as Hw.
  { unfold wrap, U32_MAX in *. apply Z.mod_small. lia. }
  destruct (Z.ltb_spec 0 (unacked r)); simpl; [|rewrite sum_of_nil; split; [lia|done]].
  rewrite Hw. rewrite sum_of_cons, ?sum_of_nil, ack_bytes_swindow by lia. split; [lia|].
  apply Forall_cons_2; [|done]. exists (unacked r). split; [lia|done].
Qed.

Lemma received_spec now n r r' a :
  on r = true -> 0 <= n -> 0 <= unacked r + n <= U32_MAX ->
  0 <= unacked r -> (0 < unacked r -> is_Some (flush_at r)) ->
  received now n r = (r', a) ->
  on r' = true /\ 0 <= unacked r' /\ (0 < unacked r' -> is_Some (flush_at r')) /\
  unacked r' + sum_of ack_bytes (option_list a) = unacked r + n /\
  Forall (fun f => exists m, 0 < m <= U32_MAX /\ f = swindow_frame m) (option_list a).
Proof.
  intros Hon Hn Hle Hpos Ht. unfold received. rewrite Hon. simpl.
  destruct (Z.eqb_spec n 0) as [->|Hne]; simpl.
  { intros [= <- <-]. simpl. rewrite sum_of_nil. repeat split; try done; lia. }
  destruct (Z.leb_spec (window r / 4) (unacked r + n)).
  - intros Hf. apply flush_spec in Hf as (Ho & Hu & Hfl & Hs & Ha); [|simpl; lia].
    simpl in *. rewrite Hu. repeat split; try done; lia.
  - intros [= <- <-]. simpl. rewrite sum_of_nil. repeat split; try done; try lia.
    intros _. destruct (flush_at r); eauto.
Qed.

(** The receiver takes a frame from the wire: the first is the sender's HELLO, every other one
    carries bytes of a stream and is counted. *)
Lemma frame_received w now f wr r' a k :
  wire k = f :: wr -> recv_frame now f (rcv k) = (r', a) -> link_inv w k -> w <= U32_MAX ->
  link_inv w {| snd_ := snd_ k; held := held k; wire := wr; rcv := r'; acks := acks k ++ option_list a |}.
Proof.
  intros Hwr Hrf Hi Hmax. pose proof (send_le _ _ Hi) as Hle.
  destruct Hi as [Hsend Hcaps Hw Hcnt Hsum Hun Htm Hak]. pose proof (acks_nonneg _ Hak) as Hakpos.
  rewrite Hwr, ?sum_of_cons in *. pose proof (wire_nonneg wr). pose proof (stream_bytes_nonneg f).
  destruct Hcnt as [[Hon Hall]|(Hon & Hu0 & own & rest & Hown & [= -> ->] & Hall)].
  - apply Forall_cons in Hall as [Hf Hall]. destruct f as [|id p|]; try done. destruct Hf as [Hid Hp].
    simpl in *. rewrite (proj2 (Z.eqb_neq _ _) Hid) in *.
    apply received_spec in Hrf as (Hon' & Hu' & Ht' & Hsum' & Ha'); try done; try lia.
    fields; [by left|total|by apply Forall_app].
  - pose proof (frame_control_hello own Hown) as Hc.
    unfold frame_control in Hc. unfold recv_frame in Hrf. simpl in Hrf, Hc. rewrite Hc in Hrf.
    injection Hrf as <- <-. simpl. rewrite app_nil_r. fields. by left.
Qed.

Lemma link_step_inv w k k' : link_step k k' -> link_inv w k -> link_inv w k'.
Proof.
  intros Hs Hi. pose proof (send_le _ _ Hi) as Hle.
  pose proof (link_window _ _ Hi) as Hw. pose proof (link_acks _ _ Hi) as Hak.
  pose proof (acks_nonneg _ Hak) as Hakpos. pose proof (wire_nonneg (wire k)).
  assert (w <= U32_MAX) by (unfold SESSION_WINDOW_MAX, U32_MAX in *; lia).
  destruct Hs as [fc n s' x k Hn Ht|x l1 l2 id p k Hh Hid Hp|x l1 l2 k Hh|now f wr r' a k Hwr Hrf
    |at_ r' a k Hat Hfl|f a s' k Hka Haf];
    [| | |by eapply frame_received| |]; destruct Hi as [Hsend Hcaps _ Hcnt Hsum Hun Htm _].
  - destruct (take_inv _ _ _ _ _ _ Hn Hsend Ht) as (Hsend' & _ & Hu & Hf & Hb).
    fields; [by rewrite Hf, Hb|by rewrite Hu].
  - rewrite Hh in Hsend. assert (chunk_ok (sending_bytes x)) as Hx.
    { pose proof (inv_chunks _ _ Hsend) as Hc. by apply Forall_app in Hc as [_ [? _]%Forall_cons]. }
    fields; [by apply queued_inv|apply counting_app; [done|]; split; [done|]; destruct Hx; lia|].
    rewrite queued_unacknowledged. sums. rewrite (proj2 (Z.eqb_neq _ _) Hid). lia.
  - rewrite Hh in Hsend. destruct (drop_inv _ _ _ _ Hsend) as [Hd Hu].
    fields; [|by rewrite Hu]. unfold drop_sending. destruct (_ =? 0); [done|]. by destruct (from_first x).
  - destruct (flush_spec (rcv k) r' a) as (Ho & Hu & Hf & Hs' & Ha); [lia|done|].
    fields; try lia; [|total|by apply Forall_app].
    destruct Hcnt as [[? ?]|(? & ? & ?)]; [left|right]; rewrite Ho, ?Hu; auto.
  - rewrite Hka in *. apply Forall_cons in Hak as [(n & Hn & ->) Hak].
    rewrite sum_of_cons, ack_bytes_swindow in * by lia. pose proof (acks_nonneg _ Hak).
    unfold ack_frame in Haf. rewrite frame_control_swindow in Haf by lia.
    apply acknowledge_inv with (l := held k) in Haf as (Hs' & Hu & Hf & Hb); [|lia|done].
    fields; [by rewrite Hf, Hb|total].
Qed.

Lemma link_reach own w s k :
  0 <= own <= U32_MAX -> w <= SESSION_WINDOW_MAX -> from_hello w = Ok (Some s) ->
  rtc link_step (link_start own w s) k -> link_inv w k.
Proof.
  intros Ho Hw Hh Hr.
  assert (link_inv w (link_start own w s)) as Hi.
  { destruct (from_hello_inv _ _ Hh) as (Hs & Hu & Hmin & Hsum & Hf & Hb).
    rewrite Z.min_l in Hmin, Hsum by done.
    split; simpl; try done; try lia.
    right. split; [done|]. split; [done|]. exists own, []. done. }
  induction Hr as [|k1 k2 k3 Hst Hr IH]; [done|]. apply IH. by eapply link_step_inv.
Qed.

(** C3: two honest ends never take each other for a violator of the session window: whatever the
    interleaving of pumps, resets, reads, delayed acknowledgements and frames in flight, the next
    acknowledgement on the wire is always accepted; and stream data in flight or read but not
    acknowledged never exceeds the granted window. *)
Theorem session_window_no_violation own w s k f a :
  0 <= own <= U32_MAX -> w <= SESSION_WINDOW_MAX -> from_hello w = Ok (Some s) ->
  rtc link_step (link_start own w s) k ->
  sum_of stream_bytes (wire k) + unacked (rcv k) <= w /\
  (acks k = f :: a -> is_Some (ack_frame f (snd_ k))).
Proof.
  intros Ho Hw Hh Hr. pose proof (link_reach _ _ _ _ Ho Hw Hh Hr) as Hi.
  pose proof (send_le _ _ Hi) as Hle. destruct Hi as [_ _ _ _ Hsum Hun _ Hak].
  pose proof (acks_nonneg _ Hak). pose proof (wire_nonneg (wire k)).
  split; [lia|]. intros E. rewrite E in *. apply Forall_cons in Hak as [(n & Hn & ->) Hak].
  assert (sum_of ack_bytes (swindow_frame n :: a) = n + sum_of ack_bytes a) as Hcons.
  { by rewrite sum_of_cons, ack_bytes_swindow by lia. }
  pose proof (acks_nonneg _ Hak).
  unfold ack_frame. rewrite frame_control_swindow by lia. apply acknowledge_some. lia.
Qed.

(** C4: the session window is never lost: whatever number of pumps wait for it -- [waiting]: each with
    its chunk, the semaphore serving the head of its queue -- some chunk is still held by a pump that has
    taken its share, or data or an acknowledgement is on its way, or the receiver's acknowledgement timer
    is armed.  So the pumps of a session never all wait for good. *)
Theorem session_window_progress own w s k (waiting : list (bool * Z)) :
  0 <= own <= U32_MAX -> w <= SESSION_WINDOW_MAX -> from_hello w = Ok (Some s) ->
  rtc link_step (link_start own w s) k ->
  Forall (fun p => chunk_ok p.2 /\ take_window p.1 p.2 (snd_ k) = Pending) waiting ->
  head_served (map snd waiting) (budget (snd_ k)) ->
  held k <> [] \/ wire k <> [] \/ acks k <> [] \/ is_Some (flush_at (rcv k)).
Proof.
  intros Ho Hw Hh Hr Hall (n & Hin & Hhead). pose proof (link_reach _ _ _ _ Ho Hw Hh Hr) as Hi.
  apply list_elem_of_fmap in Hin as ([fc m] & -> & Hin). rewrite Forall_forall in Hall.
  apply Hall in Hin as [Hn Hp]. cbn [fst snd] in *.
  destruct Hi as [Hs [Hc [Hf Hb]] _ _ Hsum Hun Htm _].
  destruct (decide (held k = [])) as [Hheld|]; [|by left]. rewrite Hheld in Hs.
  destruct (decide (wire k = [])) as [Ew|]; [|by right; left].
  destruct (decide (acks k = [])) as [Ea|]; [|by right; right; left].
  right; right; right. apply Htm. rewrite Ew, Ea, !sum_of_nil in Hsum.
  assert (unacknowledged (snd_ k) <> 0) as Hne; [|lia].
  intros Hz. destruct Hs. simpl in *. destruct Hn as [Hn1 Hn2].
  pose proof (sem_permits_nonneg (first (snd_ k))). pose proof (sem_permits_nonneg (budget (snd_ k))).
  unfold unacknowledged in Hz.
  destruct inv_open as [Hof Hob].
  destruct Hhead as [b Eb]; [lia|].
  unfold take_window in Hp. rewrite chunk_wrap in Hp by done.
  unfold poll_acquire in Hp. rewrite Hob, Eb in Hp.
  destruct fc; [|done]. rewrite Hof in Hp. by destruct (acquire_many m (first (snd_ k))).
Qed.
End SessionLink.

(** The states of a session in which one chunk of 1000 bytes goes through. *)
Definition demo_data : Frame := Data 1 (replicate 1000 Byte.x41).
Definition demo_rcv (o : bool) (n : Z) (t : option Z) : SessionRecv :=
  {| on := o; unacked := n; flush_at := t; window := 65536 |}.
Definition demo_link (s : SessionSend RefSem) h w r a : SessionLink :=
  {| snd_ := s; held := h; wire := w; rcv := r; acks := a |}.
Definition demo_0 := link_start 262144 65536 send_64k.
Definition demo_1 :=
  demo_link send_64k_taken [chunk_1000] [hello_frame 262144] (granting 65536) [].
Definition demo_2 :=
  demo_link (queued chunk_1000 send_64k_taken) [] [hello_frame 262144; demo_data] (granting 65536) [].
Definition demo_3 :=
  demo_link (queued chunk_1000 send_64k_taken) [] [demo_data] (demo_rcv true 0 None) [].
Definition demo_4 :=
  demo_link (queued chunk_1000 send_64k_taken) [] [] (demo_rcv true 1000 (Some SESSION_ACK_DELAY)) [].
Definition demo_5 :=
  demo_link (queued chunk_1000 send_64k_taken) [] [] (demo_rcv true 0 None) [swindow_frame 1000].

Lemma demo_run : rtc link_step demo_0 demo_5.
Proof.
  apply (rtc_l _ _ demo_1).
  { apply (link_take true 1000 send_64k_taken chunk_1000 demo_0);
      [split; vm_compute; congruence|vm_compute; reflexivity]. }
  apply (rtc_l _ _ demo_2).
  { apply (link_queue chunk_1000 [] [] 1 (replicate 1000 Byte.x41) demo_1); [done|done|].
    by rewrite length_replicate. }
  apply (rtc_l _ _ demo_3).
  { apply (link_deliver 0 (hello_frame 262144) [demo_data] (demo_rcv true 0 None) None demo_2);
      vm_compute; reflexivity. }
  apply (rtc_l _ _ demo_4).
  { apply (link_deliver 0 demo_data [] (demo_rcv true 1000 (Some SESSION_ACK_DELAY)) None demo_3);
      vm_compute; reflexivity. }
  apply rtc_once.
  apply (link_flush SESSION_ACK_DELAY (demo_rcv true 0 None) (Some (swindow_frame 1000)) demo_4);
    vm_compute; reflexivity.
Qed.

(** A chunk of 1000 bytes goes through: taken, queued, read after the HELLO, acknowledged when the
    timer fires. *)
Lemma session_window_no_violation_witness :
  exists k f, rtc link_step (link_start 262144 65536 send_64k) k /\ acks k = [f] /\
    is_Some (ack_frame f (snd_ k)).
Proof.
  assert (from_hello 65536 = Ok (Some send_64k)) as Hh by (vm_compute; reflexivity).
  pose proof demo_run as Hr.
  eexists _, _. split; [exact Hr|]. split; [reflexivity|].
  refine (proj2 (session_window_no_violation 262144 65536 send_64k _ _ [] _ _ Hh Hr) eq_refl);
    [vm_compute; split; congruence|vm_compute; congruence].
Defined.

(** The whole window of 64 KiB taken and queued in four chunks: a fifth one waits. *)
Definition used (f b of_ ob sd : Z) : SessionSend RefSem :=
  {| budget := sem_new b; first := sem_new f; budget_cap := 49152; first_cap := 16384;
     owed := {| owed_first := of_; owed_budget := ob; owed_sending := sd |} |}.
Definition full_data : Frame := Data 1 (replicate (Z.to_nat 16384) Byte.x41).
Definition full_wire (n : nat) : list Frame := hello_frame 262144 :: replicate n full_data.
Definition full_at (h : list SessionSending) (n : nat) (s : SessionSend RefSem) : SessionLink :=
  demo_link s h (full_wire n) (granting 65536) [].
Definition full_chunk (fc : bool) : SessionSending := {| from_first := fc; sending_bytes := 16384 |}.

Lemma full_chunk_step fc n s s' :
  take_window fc 16384 s = Ready (Some (s', full_chunk fc)) ->
  rtc link_step (full_at [] n s) (full_at [] (S n) (queued (full_chunk fc) s')).
Proof.
  intros Ht. eapply rtc_l; [|apply rtc_once].
  - exact (link_take fc 16384 s' (full_chunk fc) (full_at [] n s)
             ltac:(split; vm_compute; congruence) Ht).
  - pose proof (link_queue (full_chunk fc) [] [] 1 (replicate (Z.to_nat 16384) Byte.x41)
                  (full_at [full_chunk fc] n s') eq_refl ltac:(done)) as Hq.
    unfold full_at, demo_link, with_snd in Hq. simpl wire in Hq.
    unfold full_wire in Hq |- *. rewrite <-app_comm_cons in Hq.
    change [Data 1 (replicate (Z.to_nat 16384) Byte.x41)] with (replicate 1 full_data) in Hq.
    rewrite <-replicate_add, Nat.add_1_r in Hq. apply Hq.
    rewrite length_replicate. by rewrite Z2Nat.id.
Qed.

Lemma full_run : rtc link_step demo_0 (full_at [] 4 (used 0 0 16384 49152 0)).
Proof.
  etrans; [exact (full_chunk_step true 0 send_64k (used 0 49152 16384 0 16384) eq_refl)|].
  etrans; [exact (full_chunk_step false 1 (used 0 49152 16384 0 0) (used 0 32768 16384 16384 16384) eq_refl)|].
  etrans; [exact (full_chunk_step false 2 (used 0 32768 16384 16384 0) (used 0 16384 16384 32768 16384) eq_refl)|].
  exact (full_chunk_step false 3 (used 0 16384 16384 32768 0) (used 0 0 16384 49152 16384) eq_refl).
Qed.

(** Two pumps wait at once, one of them with its first chunk. *)
Lemma session_window_progress_witness :
  exists k : SessionLink (Sem := RefSem), take_window false 100 (snd_ k) = Pending /\ take_window true 16384 (snd_ k) = Pending /\
    (held k <> [] \/ wire k <> [] \/ acks k <> [] \/ is_Some (flush_at (rcv k))).
Proof.
  exists (full_at [] 4 (used 0 0 16384 49152 0)). split; [vm_compute; reflexivity|]. split; [vm_compute; reflexivity|].
  apply (session_window_progress 262144 65536 send_64k _ [(false, 100); (true, 16384)]);
    [vm_compute; split; congruence|vm_compute; congruence|vm_compute; reflexivity|exact full_run| |].
  - repeat apply Forall_cons_2; [| |done]; (split; [split; vm_compute; congruence|vm_compute; reflexivity]).
  - exists 100. split; [left|]. intros Hle. exfalso. vm_compute in Hle. by apply Hle.
Defined.
