(* ===== verification/CreditLink.v ===== *)
(** * CreditLink: the credit of one stream, both ends together

    The sender's credit semaphore, the frames in flight, the receiver's queue and the receiving half
    of its pump.  The receiver reads data through [deliver], the sender reads WINDOW frames through
    [apply_control]; nothing else touches the credit. *)
From S2P Require Import Prelude Text Runtime ForwardWire FlowControl ForwardPump.

#[local] Open Scope Z_scope.

Section CreditLink.
Context {Sem : Type} `{SemaphoreLaws Sem} {Q : Type -> Type} `{QueueLaws Q}.
(** The stream, and the sender's own inbound queue (credit does not look at it). *)
Context (id : Z) (t0 : InTx Q).

Record CreditLink := {
  cr : Sem;
  paid : list Z;
  dwire : list Frame;
  entry : StreamEntry Sem Q;
  pump : Down;
  wins : list Frame;
  refused : bool   (** the receiver's outbound queue took a frame of the pump no more *)
}.

Definition sender_entries (c : Sem) : gmap Z (StreamEntry Sem Q) :=
  {[ id := {| tx := t0; credit := Some c |} ]}.

Definition with_tx (t : InTx Q) (e : StreamEntry Sem Q) : StreamEntry Sem Q :=
  {| tx := t; credit := credit e |}.

(** [send_or_drop] gave up: the session's writer stood still for the whole grace, or is gone. *)
Definition not_sent (ev : DownEvent) : bool := match ev with EvReported false => true | _ => false end.

(** The pump stops as a whole -- its other half did, or it was idle -- after it has queued the close of
    the stream, unless the queue took it no more. *)
Definition stopped (d : Down) : Down :=
  {| down_pc := DownEnd HalfStop; unreported := unreported d; bytes_in := bytes_in d |}.

Inductive credit_step : CreditLink -> CreditLink -> Prop :=
| credit_pay n c k :
    chunk_ok n -> poll_acquire n (cr k) = Ready (Some c) ->
    credit_step k {| cr := c; paid := n :: paid k; dwire := dwire k; entry := entry k;
                     pump := pump k; wins := wins k; refused := refused k |}
| credit_send n l1 l2 p k :
    paid k = l1 ++ n :: l2 -> Zlen p = n ->
    credit_step k {| cr := cr k; paid := l1 ++ l2; dwire := dwire k ++ [Data id p];
                     entry := entry k; pump := pump k; wins := wins k; refused := refused k |}
| credit_deliver p w e k :
    dwire k = Data id p :: w -> deliver p (entry k) = Some (e, true) ->
    credit_step k {| cr := cr k; paid := paid k; dwire := w; entry := e; pump := pump k;
                     wins := wins k; refused := refused k |}
| credit_recv m t d f k :
    recv (tx (entry k)) = Some (m, t) -> down_step id true (pump k) (EvRecv (Some m)) = Some (d, f) ->
    credit_step k {| cr := cr k; paid := paid k; dwire := dwire k; entry := with_tx t (entry k);
                     pump := d; wins := wins k ++ option_list f; refused := refused k |}
| credit_pump ev d f k :
    (forall m, ev <> EvRecv m) -> down_step id true (pump k) ev = Some (d, f) ->
    credit_step k {| cr := cr k; paid := paid k; dwire := dwire k; entry := entry k;
                     pump := d; wins := wins k ++ option_list f; refused := refused k || not_sent ev |}
| credit_stop told k :
    credit_step k {| cr := cr k; paid := paid k; dwire := dwire k; entry := entry k; pump := stopped (pump k);
                     wins := wins k ++ match told with Some r => [Close id r] | None => [] end;
                     refused := refused k || bool_decide (told = None) |}
| credit_gone h q q' pending k :
    down_pc (pump k) = DownEnd h -> tx (entry k) = Credited q pending ->
    q_items q' = [] ->
    credit_step k {| cr := cr k; paid := paid k; dwire := dwire k;
                     entry := with_tx (Credited q' pending) (entry k);
                     pump := pump k; wins := wins k; refused := refused k |}
| credit_window p w c m k :
    wins k = Data CONTROL_ID p :: w ->
    apply_control p (sender_entries (cr k)) ∅ = (CNone, m, ∅) ->
    m = sender_entries c ->
    credit_step k {| cr := c; paid := paid k; dwire := dwire k; entry := entry k;
                     pump := pump k; wins := w; refused := refused k |}
| credit_reset r w k :
    wins k = Close id r :: w ->
    credit_step k {| cr := sem_close (cr k); paid := paid k; dwire := dwire k; entry := entry k;
                     pump := pump k; wins := w; refused := refused k |}.

Definition credit_start : CreditLink :=
  {| cr := sem_new FC_WINDOW; paid := []; dwire := [];
     entry := {| tx := inbound_queue true; credit := Some (sem_new FC_WINDOW) |};
     pump := down_start; wins := []; refused := false |}.

Definition wire_bytes (f : Frame) : Z := match f with Data _ p => Zlen p | _ => 0 end.
Definition pending_of (t : InTx Q) : Z := match t with Credited _ n => n | Bounded _ => 0 end.
Definition hand_bytes (d : Down) : Z := match down_pc d with DownWriting p => Zlen p | _ => 0 end.

Definition ended (d : Down) : bool := match down_pc d with DownEnd _ => true | _ => false end.
Definition failed (d : Down) : bool :=
  match down_pc d with DownEnd HalfStop | DownResetting => true | _ => false end.

(** Where the credit is. *)
Definition credit_total (k : CreditLink) : Z :=
  sem_permits (cr k) + sum_of (fun n => n) (paid k) + sum_of wire_bytes (dwire k)
  + pending_of (tx (entry k)) + hand_bytes (pump k) + unreported (pump k)
  + sum_of window_bytes (wins k).

Definition win_ok (f : Frame) : Prop :=
  (exists n, 0 < n <= FC_WINDOW /\ f = window_frame id n) \/ exists r, f = Close id r.

(** The pump reports as soon as half a window is unreported. *)
Definition pump_ok (d : Down) : Prop :=
  match down_pc d with
  | DownReceiving | DownWriting _ | DownEnd HalfDone => unreported d < FC_WINDOW / 2
  | DownReporting n => n = unreported d /\ 0 < n
  | _ => True
  end.

(** A pump that ended has told the sender, which closes the credit of the stream when it reads that. *)
Definition end_told (k : CreditLink) : Prop :=
  match down_pc (pump k) with
  | DownEnd HalfStop => refused k = true \/ sem_closed (cr k) = true \/ exists r, Close id r ∈ wins k
  | DownEnd HalfDone => False
  | _ => True
  end.

(** The queue counts the bytes it holds; once the pump ended it may hold fewer. *)
Definition queue_ok (t : InTx Q) (d : Down) : Prop :=
  exists q n, t = Credited q n /\ Forall (fun m => exists p, m = SData p) (q_items q) /\
    0 <= data_total (q_items q) <= n /\
    (ended d = false -> q_gone q = false /\ n = data_total (q_items q)).

Record credit_inv (k : CreditLink) : Prop := {
  ci_total : credit_total k <= FC_WINDOW /\ (failed (pump k) = false -> credit_total k = FC_WINDOW);
  ci_paid : Forall chunk_ok (paid k);
  ci_wire : Forall (fun f => exists p, f = Data id p) (dwire k);
  ci_queue : queue_ok (tx (entry k)) (pump k);
  ci_unreported : 0 <= unreported (pump k);
  ci_pump : pump_ok (pump k);
  ci_wins : Forall win_ok (wins k);
  ci_end : end_told k
}.

Lemma wire_bytes_nonneg f : 0 <= wire_bytes f.
Proof. destruct f; simpl; lia. Qed.

Lemma data_total_nonneg l : 0 <= data_total l.
Proof. induction l as [|[p| |] l IH]; simpl; lia. Qed.

Lemma data_total_app l1 l2 : data_total (l1 ++ l2) = data_total l1 + data_total l2.
Proof. induction l1 as [|m l1 IH]; simpl; lia. Qed.

Context (Hid : 0 < id <= U32_MAX).

Lemma window_bytes_ok f : win_ok f -> 0 <= window_bytes f.
Proof.
  intros [(n & Hn & ->)|[r ->]]; [|done].
  unfold window_bytes. rewrite frame_control_window; [lia|lia|unfold FC_WINDOW, U32_MAX in *; lia].
Qed.

(** Every place a byte of credit can be is non-negative. *)
Lemma credit_parts k :
  credit_inv k ->
  0 <= sem_permits (cr k) /\ 0 <= sum_of (fun n => n) (paid k) /\
  0 <= sum_of wire_bytes (dwire k) /\ 0 <= pending_of (tx (entry k)) /\
  0 <= hand_bytes (pump k) /\ 0 <= unreported (pump k) /\ 0 <= sum_of window_bytes (wins k).
Proof.
  intros []. split; [apply sem_permits_nonneg|]. split.
  { apply sum_of_nonneg. eapply Forall_impl; [exact ci_paid0|]. intros n [? ?]. lia. }
  split; [apply sum_of_nonneg, Forall_true, wire_bytes_nonneg|]. split.
  { destruct ci_queue0 as (q & n & -> & _ & ? & _). simpl. lia. }
  split; [unfold hand_bytes; destruct (down_pc (pump k)); lia|]. split; [done|].
  apply sum_of_nonneg. eapply Forall_impl; [exact ci_wins0|]. apply window_bytes_ok.
Qed.

Lemma deliver_credited p e q n :
  tx e = Credited q n -> n + Zlen p <= FC_WINDOW ->
  deliver p e = Some (with_tx (Credited (send_ignored (SData p) q) (n + Zlen p)) e, true).
Proof.
  intros Ht Hle. unfold deliver. rewrite Ht.
  destruct (Z.ltb_spec FC_WINDOW (n + Zlen p)); [lia|done].
Qed.

Lemma window_granted c n :
  0 <= n -> sem_permits c + n <= FC_WINDOW -> n <= FC_WINDOW ->
  apply_control (control_payload (window_frame id n)) (sender_entries c) ∅ =
    (CNone, sender_entries (add_permits n c), ∅).
Proof.
  intros Hn Hle Hle'. assert (0 <= n <= U32_MAX) as Hu by (unfold FC_WINDOW, U32_MAX in *; lia).
  pose proof (frame_control_window id n ltac:(lia) Hu) as Hc.
  unfold frame_control, window_frame in Hc. rewrite Z.eqb_refl in Hc.
  unfold apply_control, window_frame, control_payload. rewrite Hc.
  unfold grant_window, sender_entries. rewrite lookup_singleton_eq.
  pose proof (available_bounds c). unfold sat_sub.
  destruct (Z.ltb_spec (Z.max 0 (FC_WINDOW - available_permits c)) n); [lia|].
  by rewrite insert_singleton_eq.
Qed.

Lemma sender_entries_inj c1 c2 : sender_entries c1 = sender_entries c2 -> c1 = c2.
Proof.
  intros E. assert (sender_entries c1 !! id = sender_entries c2 !! id) as El by by rewrite E.
  unfold sender_entries in El. rewrite !lookup_singleton_eq in El. congruence.
Qed.

Lemma end_told_kept k k' :
  down_pc (pump k') = down_pc (pump k) -> refused k' = refused k ->
  (sem_closed (cr k) = true -> sem_closed (cr k') = true) ->
  (forall r, Close id r ∈ wins k -> Close id r ∈ wins k' \/ sem_closed (cr k') = true) ->
  end_told k -> end_told k'.
Proof. unfold end_told. intros -> -> Hc Hw. destruct (down_pc (pump k)) as [| | | |[]]; try done.
  intros [?|[?|[r ?]]]; [by left|auto|]. destruct (Hw r); eauto.
Qed.

Lemma credit_start_inv : credit_inv credit_start.
Proof.
  split; simpl; try done.
  - unfold credit_total, hand_bytes; simpl. rewrite !sum_of_nil.
    rewrite sem_new_permits by (unfold FC_WINDOW; lia). lia.
  - exists (q_new StreamIn), 0. rewrite q_new_items, q_new_gone. simpl. repeat split; done.
Qed.

(** One step of the receiving half: what it took from the queue goes to its hand, then to the
    bytes it has not reported, then into a WINDOW; a failed write loses what it held. *)
Lemma pump_step_total d ev d' f :
  down_step id true d ev = Some (d', f) -> 0 <= unreported d -> unreported d + hand_bytes d <= FC_WINDOW ->
  pump_ok d ->
  let got := match ev with EvRecv (Some m) => data_len m | _ => 0 end in
  let out := sum_of window_bytes (option_list f) in
  0 <= unreported d' /\ Forall win_ok (option_list f) /\
  hand_bytes d' + unreported d' + out <= hand_bytes d + unreported d + got /\
  (failed d' = false -> failed d = false /\
    hand_bytes d' + unreported d' + out = hand_bytes d + unreported d + got) /\
  pump_ok d' /\ (ended d' = false -> ended d = false).
Proof.
  intros Hs Hu Hsum Hpc. unfold down_step, hand_bytes, failed, ended, pump_ok in *.
  change (FC_WINDOW / 2) with 131072 in *.
  assert (unreported d <= FC_WINDOW) as Hub by (destruct (down_pc d); lia).
  destruct (down_pc d) as [|p|n| |h]; destruct ev as [[[q| |]|]|[|]|sent]; try done; simplify_eq;
    try (sums; split_and!; try done; lia).
  - destruct (Z.leb_spec 131072 (unreported d + Zlen p)); sums; split_and!; try done; lia.
  - destruct Hpc as [-> Hn]. destruct sent; simplify_eq; [|sums; split_and!; try done; lia].
    simpl. unfold wrap. rewrite (Z.mod_small (unreported d)) by (unfold FC_WINDOW in *; lia).
    assert (window_bytes (window_frame id (unreported d)) = unreported d) as Hwb.
    { unfold window_bytes. rewrite frame_control_window; [done|lia|unfold U32_MAX, FC_WINDOW in *; lia]. }
    sums. rewrite Hwb. split_and!; try done; try lia.
    apply Forall_cons_2; [left; eexists; split; [|done]; lia|done].
  - destruct sent; sums; split_and!; try done; try lia. apply Forall_cons_2; [right; by eexists|done].
Qed.

(** How the half ends. *)
Lemma pump_step_end d ev d' f :
  down_step id true d ev = Some (d', f) ->
  match down_pc d' with
  | DownEnd HalfStop => not_sent ev = true \/ f = Some (abort_frame id) \/ ev = EvRecv (Some SAborted)
  | DownEnd HalfDone => ev = EvRecv (Some SClosed) \/ ev = EvRecv None
  | _ => True
  end.
Proof.
  unfold down_step. destruct (down_pc d); destruct ev as [[[]|]|[]|[]]; intros; simplify_eq; simpl; auto.
  by destruct (_ <=? _).
Qed.

(** The sender pays for a chunk and later puts it on the wire. *)
Lemma pay_inv n c k :
  chunk_ok n -> poll_acquire n (cr k) = Ready (Some c) -> credit_inv k ->
  credit_inv {| cr := c; paid := n :: paid k; dwire := dwire k; entry := entry k;
                pump := pump k; wins := wins k; refused := refused k |}.
Proof.
  intros Hn Hp [[Hle Heq] ? ? ? ? ? ? ?]. pose proof Hn as [? ?].
  assert (sem_closed (cr k) = false) as Ho by (unfold poll_acquire in Hp; by destruct (sem_closed (cr k))).
  apply poll_acquire_ready in Hp as [Hp _]; [|lia].
  fields; [|by constructor|apply (end_told_kept k); simpl; auto; congruence]. unfold credit_total in *. total.
Qed.

Lemma send_inv n l1 l2 p k :
  paid k = l1 ++ n :: l2 -> Zlen p = n -> credit_inv k ->
  credit_inv {| cr := cr k; paid := l1 ++ l2; dwire := dwire k ++ [Data id p];
                entry := entry k; pump := pump k; wins := wins k; refused := refused k |}.
Proof.
  intros Hpd Hlen [[Hle Heq] Hpaid ? ? ? ? ? ?]. unfold credit_total in *. rewrite Hpd in *.
  apply Forall_app in Hpaid as [Hp1 [Hn Hp2]%Forall_cons].
  fields; [|by apply Forall_app|apply Forall_app; eauto]. unfold credit_total. total.
Qed.

(** [deliver] moves the bytes of a frame into the queue. *)
Lemma deliver_inv p w e k :
  dwire k = Data id p :: w -> deliver p (entry k) = Some (e, true) -> credit_inv k ->
  credit_inv {| cr := cr k; paid := paid k; dwire := w; entry := e; pump := pump k; wins := wins k; refused := refused k |}.
Proof.
  intros Hw Hd Hi. pose proof (credit_parts _ Hi) as (P1 & P2 & P3 & P4 & P5 & P6 & P7).
  destruct Hi as [[Hle Heq] ? Hwire (q & n & Ht & Hall & Hn & Hg) ? ? ? ?].
  rewrite Hw in *. apply Forall_cons in Hwire as [_ Hwire].
  assert (0 <= sum_of wire_bytes w) by (apply sum_of_nonneg, Forall_true, wire_bytes_nonneg).
  unfold credit_total in *. rewrite Hw, Ht in *. sums.
  rewrite (deliver_credited p (entry k) q n Ht) in Hd by lia. injection Hd as <-.
  fields; [unfold credit_total; total|].
  exists (send_ignored (SData p) q), (n + Zlen p). rewrite send_ignored_items, send_ignored_gone.
  destruct (q_gone q) eqn:Eg; (split; [done|]).
  - split; [done|]. split; [lia|]. intros He. by destruct (Hg He).
  - rewrite data_total_app. simpl. split; [apply Forall_app; eauto|]. split; [lia|].
    intros He. destruct (Hg He) as [_ ->]. split; [done|lia].
Qed.

(** The pump takes a chunk from the queue. *)
Lemma taken_inv m t d f k :
  recv (tx (entry k)) = Some (m, t) -> down_step id true (pump k) (EvRecv (Some m)) = Some (d, f) ->
  credit_inv k ->
  credit_inv {| cr := cr k; paid := paid k; dwire := dwire k; entry := with_tx t (entry k);
                pump := d; wins := wins k ++ option_list f; refused := refused k |}.
Proof.
  intros Hr Hd Hi. pose proof (credit_parts _ Hi) as (P1 & P2 & P3 & P4 & P5 & P6 & P7).
  destruct Hi as [[Hle Heq] ? ? (q & n & Ht & Hall & Hn & Hg) ? ? ? ?].
  unfold recv in Hr. rewrite Ht in Hr. pose proof (q_recv_items StreamIn q) as Hri.
  destruct (q_recv q) as [[m' q']|]; [|done]. simpl in Hr. injection Hr as <- <-.
  destruct Hri as [Eitems Egone]. rewrite Eitems in *. apply Forall_cons in Hall as [[p ->] Hall].
  unfold credit_total in *. rewrite Ht in *. simpl in *. pose proof (data_total_nonneg (q_items q')).
  pose proof (pump_step_end _ _ _ _ Hd) as He.
  apply pump_step_total in Hd as (Hu' & Hf' & Hle' & Heq' & Hpc' & Hend'); [|done|lia|done].
  simpl in Hle', Heq'. fields.
  - unfold credit_total. sums. split; [lia|]. intros Hf. destruct (Heq' Hf) as [Hf0 ?].
    specialize (Heq Hf0). lia.
  - exists q', (n - Zlen p). split; [done|]. split; [done|]. split; [lia|].
    intros Hx. destruct (Hg (Hend' Hx)) as [? ->]. split; [congruence|lia].
  - by apply Forall_app.
  - unfold end_told. simpl. destruct (down_pc d) as [| | | |[]]; try done; [by destruct He|].
    destruct He as [He|[->|He]]; [done| |done]. right; right. eexists. apply elem_of_app. right. by left.
Qed.

(** Any other step of the pump. *)
Lemma pump_inv ev d f k :
  (forall m, ev <> EvRecv m) -> down_step id true (pump k) ev = Some (d, f) -> credit_inv k ->
  credit_inv {| cr := cr k; paid := paid k; dwire := dwire k; entry := entry k;
                pump := d; wins := wins k ++ option_list f; refused := refused k || not_sent ev |}.
Proof.
  intros Hev Hd Hi. pose proof (credit_parts _ Hi) as (P1 & P2 & P3 & P4 & P5 & P6 & P7).
  destruct Hi as [[Hle Heq] ? ? (q & n & Ht & Hall & Hn & Hg) ? ? ? ?]. unfold credit_total in *.
  pose proof (pump_step_end _ _ _ _ Hd) as He.
  apply pump_step_total in Hd as (Hu' & Hf' & Hle' & Heq' & Hpc' & Hend'); [|done|lia|done].
  replace (match ev with EvRecv (Some m) => data_len m | _ => 0 end) with 0 in *
    by (destruct ev as [m| |]; try done; by destruct (Hev m)).
  fields; [|exists q, n; eauto 10|by apply Forall_app|].
  2: { unfold end_told. simpl. destruct (down_pc d) as [| | | |[]]; try done; [by destruct He as [->| ->]; edestruct Hev|].
       destruct He as [->|[->| ->]]; [left; by rewrite orb_true_r|right; right; eexists; apply elem_of_app; right; by left|by edestruct Hev]. }
  unfold credit_total. sums. split; [lia|]. intros Hf. destruct (Heq' Hf) as [Hf0 ?].
  specialize (Heq Hf0). lia.
Qed.

(** The sender reads a WINDOW, or the reset of its stream. *)
Lemma window_inv p w c m k :
  wins k = Data CONTROL_ID p :: w ->
  apply_control p (sender_entries (cr k)) ∅ = (CNone, m, ∅) -> m = sender_entries c ->
  credit_inv k ->
  credit_inv {| cr := c; paid := paid k; dwire := dwire k; entry := entry k; pump := pump k; wins := w; refused := refused k |}.
Proof.
  intros Hw Ha Hm Hi. pose proof (credit_parts _ Hi) as (P1 & P2 & P3 & P4 & P5 & P6 & P7).
  destruct Hi as [[Hle Heq] ? ? ? ? ? Hwins Hend]. unfold credit_total in *. rewrite Hw in *.
  apply Forall_cons in Hwins as [[(n & Hn & Ef)|[r Ef]] Hwins]; [|done].
  assert (window_bytes (Data CONTROL_ID p) = n) as Hcons.
  { rewrite Ef. unfold window_bytes.
    rewrite frame_control_window; [done|lia|unfold FC_WINDOW, U32_MAX in *; lia]. }
  assert (0 <= sum_of window_bytes w).
  { apply sum_of_nonneg. eapply Forall_impl; [exact Hwins|]. apply window_bytes_ok. }
  rewrite sum_of_cons, Hcons in *.
  assert (p = control_payload (window_frame id n)) as -> by by rewrite <-Ef.
  rewrite (window_granted (cr k) n) in Ha by lia. injection Ha as Ha.
  rewrite <-Ha in Hm. apply sender_entries_inj in Hm. subst c.
  fields.
  - unfold credit_total. simpl. rewrite add_permits_permits by lia. total.
  - apply (end_told_kept k); simpl; auto; [by rewrite add_permits_closed|].
    intros r. rewrite Hw. intros [E|]%elem_of_cons; [done|by left].
Qed.

Lemma reset_inv r w k :
  wins k = Close id r :: w -> credit_inv k ->
  credit_inv {| cr := sem_close (cr k); paid := paid k; dwire := dwire k; entry := entry k;
                pump := pump k; wins := w; refused := refused k |}.
Proof.
  intros Hw [[Hle Heq] ? ? ? ? ? Hwins Hend]. unfold credit_total in *. rewrite Hw in *.
  apply Forall_cons in Hwins as [_ Hwins]. rewrite sum_of_cons in *.
  change (window_bytes (Close id r)) with 0 in *.
  fields.
  - unfold credit_total. simpl. rewrite sem_close_permits. total.
  - apply (end_told_kept k); simpl; auto; intros; [|right]; apply sem_close_closed.
Qed.

Lemma stopped_inv told k :
  credit_inv k ->
  credit_inv {| cr := cr k; paid := paid k; dwire := dwire k; entry := entry k; pump := stopped (pump k);
                wins := wins k ++ match told with Some r => [Close id r] | None => [] end;
                refused := refused k || bool_decide (told = None) |}.
Proof.
  intros Hi. pose proof (credit_parts _ Hi) as (P1 & P2 & P3 & P4 & P5 & P6 & P7).
  destruct Hi as [[Hle Heq] ? ? (q & n & Ht & Hall & Hn & Hg) ? ? ? Hend]. unfold credit_total in *.
  fields.
  - unfold credit_total. simpl. unfold hand_bytes at 1. simpl. destruct told; sums; [|split; [lia|done]].
    change (window_bytes (Close id o)) with 0. split; [lia|done].
  - exists q, n. split; [done|]. split; [done|]. split; [done|]. done.
  - destruct told; [|by rewrite app_nil_r]. apply Forall_app. split; [done|]. apply Forall_cons_2; [right; by eexists|done].
  - destruct told as [r|]; [right; right; exists r; apply elem_of_app; right; by left|]. left. simpl. by rewrite orb_true_r.
Qed.

Lemma credit_step_inv k k' : credit_step k k' -> credit_inv k -> credit_inv k'.
Proof.
  intros Hs Hi. destruct Hs as [| | | | | |h q q' pend k Hend Ht Hq'| |].
  - by apply pay_inv.
  - by eapply send_inv.
  - by eapply deliver_inv.
  - by eapply taken_inv.
  - by eapply pump_inv.
  - by apply stopped_inv.
  - destruct Hi as [? ? ? (q0 & n & Ht0 & Hall & Hn & Hg) ? ? ? ?]. rewrite Ht in Ht0. injection Ht0 as <- <-.
    unfold credit_total in *. rewrite Ht in *. fields. exists q', pend. rewrite Hq'. simpl.
    split_and!; try done; [lia|]. unfold ended. by rewrite Hend.
  - by eapply window_inv.
  - by eapply reset_inv.
Qed.

Lemma credit_reach k : rtc credit_step credit_start k -> credit_inv k.
Proof.
  intros Hr. pose proof credit_start_inv as Hi. revert Hi.
  induction Hr as [|k1 k2 k3 Hst Hr IH]; [done|]. intros Hi. apply IH. by eapply credit_step_inv.
Qed.

(** C5: the credit of a stream never turns against an honest peer: whatever the interleaving, the
    receiver's [deliver] accepts the next frame of data (it never resets the stream for exceeding
    its credit, and never buffers more than one window), and the sender's [apply_control] accepts
    the next WINDOW (it never resets the stream for credit beyond the window). *)
Theorem credit_no_violation k :
  rtc credit_step credit_start k ->
  pending_of (tx (entry k)) <= FC_WINDOW /\
  (forall p w, dwire k = Data id p :: w -> exists e, deliver p (entry k) = Some (e, true)) /\
  (forall i n w, wins k = window_frame i n :: w -> 0 <= i <= U32_MAX -> 0 <= n <= U32_MAX ->
    exists c, apply_control (control_payload (window_frame i n)) (sender_entries (cr k)) ∅
              = (CNone, sender_entries c, ∅)).
Proof.
  intros Hr. pose proof (credit_reach _ Hr) as Hi.
  pose proof (credit_parts _ Hi) as (P1 & P2 & P3 & P4 & P5 & P6 & P7).
  destruct Hi as [[Hle _] Hpaid Hwire (q & n & Ht & _ & Hn & _) _ _ Hwins _].
  unfold credit_total in Hle. split; [lia|]. split.
  - intros p w Hw. rewrite Hw, sum_of_cons, Ht in *. simpl in *.
    assert (0 <= sum_of wire_bytes w) by (apply sum_of_nonneg, Forall_true, wire_bytes_nonneg).
    eexists. apply (deliver_credited p _ q n Ht). lia.
  - intros i n' w Hw Hi' Hn'. rewrite Hw, sum_of_cons in *.
    apply Forall_cons in Hwins as [Hf Hwins].
    assert (0 <= sum_of window_bytes w).
    { apply sum_of_nonneg. eapply Forall_impl; [exact Hwins|]. apply window_bytes_ok. }
    destruct Hf as [(m & Hm & Ef)|[r Ef]]; [|done].
    assert (0 <= m <= U32_MAX) as Hmu by (unfold FC_WINDOW, U32_MAX in *; lia).
    pose proof (frame_control_window i n' Hi' Hn') as E1.
    rewrite Ef, frame_control_window in E1 by lia. injection E1 as <- <-.
    exists (add_permits m (cr k)). apply window_granted; [lia| |lia].
    unfold window_bytes in Hle at 1. rewrite frame_control_window in Hle by lia. lia.
Qed.

(** The receiving half has a write, a WINDOW or a reset under way. *)
Definition pump_busy (d : Down) : Prop :=
  match down_pc d with DownWriting _ | DownReporting _ | DownResetting => True | _ => False end.

(** C6: a stream never stalls on its credit: when the sending half waits for credit for a chunk -- the
    one waiter of its semaphore -- then a chunk it has paid for is on its way to the wire, or data or a
    frame of the receiving pump (a WINDOW, the reset) is in flight, or that pump has work left: a write, a
    frame to send, or, waiting, a message in its queue.  An ended pump is no exception: it has said so.
    The only other end is that of the receiver's session: its writer took no frame for a whole grace. *)
Theorem credit_progress k n :
  rtc credit_step credit_start k -> refused k = false ->
  chunk_ok n -> poll_acquire n (cr k) = Pending -> head_served [n] (cr k) ->
  paid k <> [] \/ dwire k <> [] \/ wins k <> [] \/ pump_busy (pump k) \/
  (down_pc (pump k) = DownReceiving /\ q_items (in_queue (tx (entry k))) <> []).
Proof.
  intros Hr Hsent Hn Hp (m' & ->%list_elem_of_singleton & Hhead). pose proof (credit_reach _ Hr) as Hi.
  assert (Hopen : sem_closed (cr k) = false) by (unfold poll_acquire in Hp; by destruct (sem_closed (cr k))).
  destruct Hi as [[_ Htot] _ _ (q & m & Ht & _ & Hm & Hg) _ Hpump _ Hend].
  destruct (decide (paid k = [])) as [Hpaid|]; [|by left].
  destruct (decide (dwire k = [])) as [Ed|]; [|by right; left].
  destruct (decide (wins k = [])) as [Ew|]; [|by right; right; left].
  right; right; right. unfold pump_busy, end_told in *.
  destruct (down_pc (pump k)) as [|b|b| |[]] eqn:Epc; try (by left); try done.
  2: { rewrite Ew in Hend. destruct Hend as [?|[?|[r []%not_elem_of_nil]]]; congruence. }
  right. split; [done|]. rewrite Ht. simpl. intros Eq.
  unfold ended, failed in *. rewrite Epc in *. destruct (Hg eq_refl) as [_ ->].
  specialize (Htot eq_refl). unfold credit_total, hand_bytes in Htot.
  rewrite Hpaid, Ed, Ew, Ht, Epc, !sum_of_nil in Htot. simpl in Htot. rewrite Eq in Htot. simpl in Htot.
  assert (n <= sem_permits (cr k)) as Hle.
  { destruct Hn as [_ Hn]. unfold DATA_CHUNK_LEN in Hn.
    unfold pump_ok in Hpump. rewrite Epc in Hpump. change (FC_WINDOW / 2) with 131072 in Hpump.
    unfold FC_WINDOW in Htot. lia. }
  unfold poll_acquire in Hp. rewrite Hopen in Hp. destruct (Hhead Hle) as [c Ec]. by rewrite Ec in Hp.
Qed.
End CreditLink.

(** ** A concrete stream: 300 KiB in one direction, which takes more than one window

    The states are named by what is where; every one is reached by the steps above. *)
Section Demo.
Let D : InTx RefQueue := Bounded (q_new StreamIn).
Definition demo_chunk : list byte := replicate (Z.to_nat 16384) Byte.x41.

Definition demo_credit (c : Z) (w : list Frame) (items : list StreamIn) (pend : Z) (d : Down)
  : CreditLink (Sem := RefSem) (Q := RefQueue) :=
  {| cr := {| ref_permits := c; ref_closed := false |}; paid := []; dwire := w;
     entry := {| tx := Credited {| ref_items := items; ref_gone := false |} pend;
                 credit := Some (sem_new FC_WINDOW) |};
     pump := d; wins := []; refused := false |}.

Lemma demo_pay_send n w :
  16384 <= n ->
  rtc (credit_step 7 D) (demo_credit n w [] 0 down_start)
                        (demo_credit (n - 16384) (w ++ [Data 7 demo_chunk]) [] 0 down_start).
Proof.
  intros Hn. eapply rtc_l; [|apply rtc_once].
  - apply (credit_pay 7 D 16384 {| ref_permits := n - 16384; ref_closed := false |}).
    + split; vm_compute; congruence.
    + unfold poll_acquire. simpl. destruct (Z.ltb_spec (Z.max 0 n) 16384); [lia|].
      by rewrite Z.max_r by lia.
  - apply (credit_send 7 D 16384 [] [] demo_chunk); [done|].
    unfold demo_chunk. by rewrite length_replicate, Z2Nat.id.
Qed.

Lemma demo_all_sent :
  rtc (credit_step 7 D) credit_start (demo_credit 0 (replicate 16 (Data 7 demo_chunk)) [] 0 down_start).
Proof.
  change credit_start with (demo_credit 262144 (replicate 0 (Data 7 demo_chunk)) [] 0 down_start).
  assert (forall k : nat, (k <= 16)%nat ->
    rtc (credit_step 7 D) (demo_credit 262144 (replicate 0 (Data 7 demo_chunk)) [] 0 down_start)
      (demo_credit (262144 - 16384 * Z.of_nat k) (replicate k (Data 7 demo_chunk)) [] 0 down_start)) as H.
  { induction k as [|k IH]; intros Hk; [apply rtc_refl|].
    etrans; [apply IH; lia|].
    replace (262144 - 16384 * Z.of_nat (S k)) with (262144 - 16384 * Z.of_nat k - 16384) by lia.
    replace (S k) with (k + 1)%nat by lia. rewrite replicate_add.
    apply demo_pay_send. lia. }
  exact (H 16%nat ltac:(lia)).
Qed.

Lemma credit_no_violation_witness :
  exists k, rtc (credit_step 7 D) credit_start k /\ sem_permits (cr k) = 0 /\
    exists e, deliver demo_chunk (entry k) = Some (e, true).
Proof.
  exists (demo_credit 0 (replicate 16 (Data 7 demo_chunk)) [] 0 down_start).
  split; [exact demo_all_sent|]. split; [reflexivity|].
  exact (proj1 (proj2 (credit_no_violation 7 D ltac:(vm_compute; split; congruence) _ demo_all_sent))
           demo_chunk (replicate 15 (Data 7 demo_chunk)) eq_refl).
Defined.

Lemma credit_progress_witness :
  let k := demo_credit 0 (replicate 16 (Data 7 demo_chunk)) [] 0 down_start in
  poll_acquire 100 (cr k) = Pending /\
  (paid k <> [] \/ dwire k <> [] \/ wins k <> [] \/ pump_busy (pump k) \/
   (down_pc (pump k) = DownReceiving /\ q_items (in_queue (tx (entry k))) <> [])).
Proof.
  intros k. assert (poll_acquire 100 (cr k) = Pending) as Hp by reflexivity.
  split; [exact Hp|].
  refine (credit_progress 7 D _ k 100 demo_all_sent eq_refl _ Hp _); [split; vm_compute; congruence|split; vm_compute; congruence|].
  exists 100. split; [left|]. intros Hle. exfalso. vm_compute in Hle. by apply Hle.
Defined.
End Demo.
