(* ===== verification/Net.v ===== *)
(** * Net: textual IP and socket addresses

    The parser and printer of Rust's [std::net] that the policy code relies on
    ([str::parse::<IpAddr>], [str::parse::<SocketAddr>], [Display for IpAddr], [is_loopback]). *)
From S2P Require Import Prelude Text Codec.

#[local] Open Scope Z_scope.

(** An IPv4 address as its four octets, an IPv6 address as its eight segments. *)
Inductive IpAddr :=
| V4 (a b c d : Z)
| V6 (segments : list Z).

#[global] Instance IpAddr_eq_dec : EqDecision IpAddr.
Proof. solve_decision. Defined.

Record SocketAddr := { sock_ip : IpAddr; sock_port : Z; sock_scope : Z }.

#[global] Instance SocketAddr_eq_dec : EqDecision SocketAddr.
Proof. solve_decision. Defined.
#[global] Instance IpAddr_countable : Countable IpAddr.
Proof.
  refine (inj_countable' (fun ip => match ip with V4 a b c d => inl (a, b, c, d) | V6 segs => inr segs end)
    (fun x => match x with inl (a, b, c, d) => V4 a b c d | inr segs => V6 segs end) _).
  by intros [].
Defined.
#[global] Instance SocketAddr_countable : Countable SocketAddr.
Proof.
  refine (inj_countable' (fun a => (sock_ip a, sock_port a, sock_scope a))
    (fun x => {| sock_ip := x.1.1; sock_port := x.1.2; sock_scope := x.2 |}) _).
  by intros [].
Defined.

(** ** The parser: functions from the rest of the text to a value and the rest after it *)
Definition Parser (A : Type) := list ascii -> option (A * list ascii).

Definition digit_in (radix : Z) (c : ascii) : option Z :=
  let? d := nibble c in if d <? radix then Some d else None.

Fixpoint digits (radix : Z) (s : list ascii) (acc : Z) (count : nat) : Z * nat * list ascii :=
  match s with
  | [] => (acc, count, [])
  | c :: s' =>
      match digit_in radix c with
      | Some d => digits radix s' (acc * radix + d) (S count)
      | None => (acc, count, s)
      end
  end.

(** [read_number] with a digit limit: [max] is the largest value of the type. *)
Definition read_number (radix : Z) (max_digits : option nat) (zero_prefix : bool) (max : Z) : Parser Z :=
  fun s =>
    let '(v, n, rest) := digits radix s 0 0 in
    let leading_zero := match s with c :: _ => Ascii.eqb c "0" | [] => false end in
    if Nat.eqb n 0 then None
    else if match max_digits with Some m => (m <? n)%nat | None => false end then None
    else if negb zero_prefix && leading_zero && (1 <? n)%nat then None
    else if v <=? max then Some (v, rest) else None.

Definition read_given_char (c : ascii) : Parser unit := fun s =>
  match s with
  | a :: s => if Ascii.eqb a c then Some (tt, s) else None
  | [] => None
  end.

Definition read_separator {A} (sep : ascii) (index : nat) (inner : Parser A) : Parser A := fun s =>
  match index with
  | O => inner s
  | S _ => let? (_, s) := read_given_char sep s in inner s
  end.

Definition read_octet (i : nat) : Parser Z :=
  read_separator "." i (read_number 10 (Some 3%nat) false 255).
Definition read_ipv4 : Parser (Z * Z * Z * Z) := fun s =>
  let? (a, s) := read_octet 0 s in
  let? (b, s) := read_octet 1 s in
  let? (c, s) := read_octet 2 s in
  let? (d, s) := read_octet 3 s in
  Some ((a, b, c, d), s).

(** [read_groups]: the groups read, and whether an embedded IPv4 address ended them. *)
Fixpoint read_groups (limit i : nat) (s : list ascii) : list Z * bool * list ascii :=
  match limit with
  | O => ([], false, s)
  | S limit' =>
      let group :=
        match read_separator ":" i (read_number 16 (Some 4%nat) true 65535) s with
        | Some (g, s) => let '(gs, v4, s) := read_groups limit' (S i) s in (g :: gs, v4, s)
        | None => ([], false, s)
        end in
      match limit' with
      | O => group
      | S _ =>
          match read_separator ":" i read_ipv4 s with
          | Some ((a, b, c, d), s) => ([a * 256 + b; c * 256 + d], true, s)
          | None => group
          end
      end
  end.

Definition read_ipv6 : Parser (list Z) := fun s =>
  let '(head, head_v4, s) := read_groups 8 0 s in
  if Nat.eqb (length head) 8 then Some (head, s)
  else if head_v4 then None
  else
    let? (_, s) := read_given_char ":" s in
    let? (_, s) := read_given_char ":" s in
    let '(tail, _, s) := read_groups (8 - (length head + 1)) 0 s in
    Some (head ++ replicate (8 - length head - length tail) 0 ++ tail, s).

Definition read_ip : Parser IpAddr := fun s =>
  match read_ipv4 s with
  | Some ((a, b, c, d), s) => Some (V4 a b c d, s)
  | None => let? (g, s) := read_ipv6 s in Some (V6 g, s)
  end.

Definition whole {A} (p : Parser A) (s : string) : option A :=
  match p (String.list_ascii_of_string s) with
  | Some (a, []) => Some a
  | _ => None
  end.

Definition parse_ip (s : string) : option IpAddr := whole read_ip s.

Definition read_port : Parser Z := fun s =>
  let? (_, s) := read_given_char ":" s in read_number 10 None true U16_MAX s.
Definition read_scope : Parser Z := fun s =>
  let? (_, s) := read_given_char "%" s in read_number 10 None true U32_MAX s.

Definition read_socket : Parser SocketAddr := fun s =>
  let v4 :=
    let? (ip, s) := read_ipv4 s in
    let? (port, s) := read_port s in
    let '(a, b, c, d) := ip in
    Some ({| sock_ip := V4 a b c d; sock_port := port; sock_scope := 0 |}, s) in
  match v4 with
  | Some r => Some r
  | None =>
      let? (_, s) := read_given_char "[" s in
      let? (g, s) := read_ipv6 s in
      let '(scope, s) := match read_scope s with Some (n, s) => (n, s) | None => (0, s) end in
      let? (_, s) := read_given_char "]" s in
      let? (port, s) := read_port s in
      Some ({| sock_ip := V6 g; sock_port := port; sock_scope := scope |}, s)
  end.
Definition parse_socket (s : string) : option SocketAddr := whole read_socket s.

(** ** The printer *)

Fixpoint hex_digits (fuel : nat) (z : Z) (acc : string) : string :=
  match fuel with
  | O => acc
  | S fuel =>
      let acc := String (hex_digit (z mod 16)) acc in
      if z <? 16 then acc else hex_digits fuel (z / 16) acc
  end.
(** [{:x}] of a [u16]. *)
Definition show_hex (z : Z) : string := hex_digits 4 z "".

Fixpoint join (sep : string) (l : list string) : string :=
  match l with
  | [] => ""
  | [x] => x
  | x :: l => (x +:+ sep +:+ join sep l)%string
  end.

(** The longest run of zero segments, the first of the longest. *)
Fixpoint zero_span (segs : list Z) (i : nat) (cur best : nat * nat) : nat * nat :=
  match segs with
  | [] => best
  | g :: segs =>
      if g =? 0 then
        let cur := if Nat.eqb cur.2 0 then (i, 1%nat) else (cur.1, S cur.2) in
        zero_span segs (S i) cur (if (best.2 <? cur.2)%nat then cur else best)
      else zero_span segs (S i) (0%nat, 0%nat) best
  end.

Definition show_ipv4 (a b c d : Z) : string := join "." [show a; show b; show c; show d].

Definition show_ipv6 (segs : list Z) : string :=
  match segs with
  | [0; 0; 0; 0; 0; 65535; hi; lo] =>
      ("::ffff:" +:+ show_ipv4 (hi / 256) (hi mod 256) (lo / 256) (lo mod 256))%string
  | _ =>
      let '(start, len) := zero_span segs 0 (0%nat, 0%nat) (0%nat, 0%nat) in
      if (1 <? len)%nat then
        (join ":" (map show_hex (take start segs)) +:+ "::"
          +:+ join ":" (map show_hex (drop (start + len) segs)))%string
      else join ":" (map show_hex segs)
  end.

Definition show_ip (ip : IpAddr) : string :=
  match ip with
  | V4 a b c d => show_ipv4 a b c d
  | V6 segs => show_ipv6 segs
  end.

Definition is_loopback (ip : IpAddr) : bool :=
  match ip with
  | V4 a _ _ _ => a =? 127
  | V6 segs => bool_decide (segs = [0; 0; 0; 0; 0; 0; 0; 1])
  end.

(** ** Rust's [Debug] of strings: quoted, with what is not printable escaped (bytes of characters
    beyond ASCII are passed on as they are) *)
Definition quote : ascii := "034".
Definition debug_char (c : ascii) : string :=
  if Ascii.eqb c quote then String "\" (String quote "")
  else if Ascii.eqb c "\" then "\\"
  else if code c =? 0 then "\0"
  else if code c =? 9 then "\t"
  else if code c =? 10 then "\n"
  else if code c =? 13 then "\r"
  else if (code c <? 32) || (code c =? 127) then ("\u{" +:+ show_hex (code c) +:+ "}")%string
  else String c "".
Fixpoint debug_chars (s : string) : string :=
  match s with
  | EmptyString => EmptyString
  | String c s => (debug_char c +:+ debug_chars s)%string
  end.
Definition debug_str (s : string) : string := String quote (debug_chars s +:+ String quote "")%string.
Definition debug_option (o : option string) : string :=
  match o with Some s => ("Some(" +:+ debug_str s +:+ ")")%string | None => "None" end.

Example parse_mapped : parse_ip "::ffff:10.0.0.1" = Some (V6 [0; 0; 0; 0; 0; 65535; 2560; 1]).
Proof. vm_compute. reflexivity. Qed.
Example show_long : show_ip (V6 [8193; 3512; 0; 0; 1; 0; 0; 1]) = "2001:db8::1:0:0:1".
Proof. vm_compute. reflexivity. Qed.
Example parse_leading_zero : parse_ip "127.000.000.001" = None.
Proof. vm_compute. reflexivity. Qed.
