(* ===== verification/ForwardPolicy.v ===== *)
(** * ForwardPolicy: may a peer's forward target be dialed?

    The accept side's gate of [channel_run/forward.rs]: the allowlist, the canonical spelling of a
    target, the loopback rule, and the forward mapping of the initiate side
    ([parse_forward_spec]) with the other settings of [channel_run/forward_stream.rs]. *)
From S2P Require Import Prelude Text Net.

#[local] Open Scope Z_scope.

Definition FORWARD_ALLOW_ENV : string := "CT_CHANNEL_FORWARD_ALLOW".
Definition FORWARD_ALLOW_NON_LOOPBACK_ENV : string := "CT_CHANNEL_FORWARD_ALLOW_NON_LOOPBACK".
Definition MAX_TARGET_LEN : Z := 255.

Inductive ForwardDecision :=
| Allow
| Refuse (reason : string).

(** [host:port] split into its two texts; a bracketed host is taken between the brackets. *)
Definition split_target (target : string) : option (string * string) :=
  match strip_prefix "[" target with
  | Some rest =>
      let? (host, tail) := split_once "]" rest in
      let? port := strip_prefix ":" tail in
      Some (host, port)
  | None =>
      let? (host, port) := rsplit_once ":" target in
      if contains_char ":" host then None else Some (host, port)
  end.

Definition canonical_target (target : string) : option string :=
  let target := trim target in
  if is_empty target || (MAX_TARGET_LEN <? str_len target) then None
  else
    let? (host, port) := split_target target in
    let? port := parse_uint U16_MAX port in
    if (port =? 0) || is_empty host then None
    else
      match parse_ip host with
      | Some (V4 a b c d) => Some (show_ip (V4 a b c d) +:+ ":" +:+ show port)%string
      | Some (V6 segs) => Some ("[" +:+ show_ip (V6 segs) +:+ "]:" +:+ show port)%string
      | None => Some (to_ascii_lowercase host +:+ ":" +:+ show port)%string
      end.

Definition target_host (canonical : string) : string :=
  match strip_prefix "[" canonical with
  | Some rest => default ""%string (head (split_char "]" rest))
  | None => match rsplit_once ":" canonical with Some (h, _) => h | None => "" end
  end.

Definition is_loopback_target (canonical : string) : bool :=
  let host := target_host canonical in
  match parse_ip host with
  | Some ip => is_loopback ip
  | None => String.eqb host "localhost"
  end.

Definition parse_forward_allowlist (raw : option string) : list string :=
  omap canonical_target (split_char "," (default ""%string raw)).

Definition non_loopback_granted (raw : option string) : bool :=
  let s := to_ascii_lowercase (trim (default ""%string raw)) in
  String.eqb s "1" || String.eqb s "true" || String.eqb s "yes" || String.eqb s "on".

Definition REASON_OFF : string :=
  "channel forwarding is off: " +:+ FORWARD_ALLOW_ENV +:+ " is unset or empty".
Definition REASON_NOT_ADDRESS : string :=
  "forward target is not a host:port address (at most 255 characters)".
Definition REASON_NOT_LISTED : string := "forward target is not listed in " +:+ FORWARD_ALLOW_ENV.
Definition REASON_NOT_LOOPBACK : string :=
  "forward target is not a loopback address and " +:+ FORWARD_ALLOW_NON_LOOPBACK_ENV +:+ " is not set".

Definition decide_forward (target : string) (allowlist : list string) (non_loopback : bool)
  : ForwardDecision :=
  match allowlist with
  | [] => Refuse REASON_OFF
  | _ =>
      match canonical_target target with
      | None => Refuse REASON_NOT_ADDRESS
      | Some canonical =>
          if negb (bool_decide (canonical ∈ allowlist)) then Refuse REASON_NOT_LISTED
          else if negb (is_loopback_target canonical) && negb non_loopback
          then Refuse REASON_NOT_LOOPBACK
          else Allow
      end
  end.

Definition redacted_target (target : string) : string := take_chars (Z.to_nat MAX_TARGET_LEN) target.

(** The verdict and the [forward_refused] event (its target and reason), if one is emitted. *)
Definition accept_forward_request_with (target : string) (raw_allowlist raw_non_loopback : option string)
  : result unit string * option (string * string) :=
  match decide_forward target (parse_forward_allowlist raw_allowlist)
          (non_loopback_granted raw_non_loopback) with
  | Allow => (Ok tt, None)
  | Refuse reason => (Err reason, Some (redacted_target target, reason))
  end.

Definition forward_allow_configured (raw : option string) : bool :=
  match parse_forward_allowlist raw with [] => false | _ => true end.

(** ** The initiate side's mapping and limits *)

Record ForwardSpec := { spec_listen : SocketAddr; spec_target : string }.

Inductive SpecError :=
| NotAMapping
| InvalidLocal
| NotLoopback (addr : SocketAddr)
| EmptyTarget.

Definition parse_forward_spec (raw : string) : result ForwardSpec SpecError :=
  let* (local, target) := ok_or (split_once "=" raw) NotAMapping in
  let* listen := ok_or (parse_socket (trim local)) InvalidLocal in
  if negb (is_loopback (sock_ip listen)) then Err (NotLoopback listen)
  else
    let target := trim target in
    if is_empty target then Err EmptyTarget
    else Ok {| spec_listen := listen; spec_target := target |}.

Definition DEFAULT_MAX_STREAMS : Z := 16.
Definition DEFAULT_IDLE_SECS : Z := 300.

Definition positive_or (dflt : Z) (raw : option string) : Z :=
  match raw with
  | Some s =>
      match parse_uint U64_MAX (trim s) with
      | Some n => if 0 <? n then n else dflt
      | None => dflt
      end
  | None => dflt
  end.
Definition max_streams_from_env (raw : option string) : Z := positive_or DEFAULT_MAX_STREAMS raw.
(** In seconds. *)
Definition idle_timeout_from_env (raw : option string) : Z := positive_or DEFAULT_IDLE_SECS raw.

(** ** Theorems *)

Lemma decide_forward_allow target allowlist non_loopback :
  decide_forward target allowlist non_loopback = Allow <->
  exists c, canonical_target target = Some c /\ c ∈ allowlist /\
    (is_loopback_target c = true \/ non_loopback = true).
Proof.
  unfold decide_forward. destruct allowlist as [|a l].
  - split; [done|]. intros (c & _ & Hc & _). by apply elem_of_nil in Hc.
  - destruct (canonical_target target) as [c|]; [|by split; [|intros (? & ? & _)]].
    case_bool_decide as Hin; simpl.
    + destruct (is_loopback_target c) eqn:El, non_loopback; simpl;
        (split; [intros Hd; try done; exists c; auto|intros (c' & [= <-] & _ & Hor); try done]).
      rewrite El in Hor. by destruct Hor.
    + split; [done|]. by intros (c' & [= <-] & ? & _).
Qed.

Lemma elem_of_allowlist c raw :
  c ∈ parse_forward_allowlist (Some raw) <->
  exists entry, entry ∈ split_char "," raw /\ canonical_target entry = Some c.
Proof. unfold parse_forward_allowlist. simpl. apply list_elem_of_omap. Qed.

(** C11: a forward request is accepted exactly when its target, in canonical spelling, is the
    canonical spelling of an entry of the allowlist, and is a loopback target or the operator gave
    the second grant; every refusal emits one event with the requested target and the reason, an
    acceptance none. *)
Theorem accept_forward_iff target raw_allow raw_grant r ev :
  accept_forward_request_with target raw_allow raw_grant = (r, ev) ->
  (r = Ok tt <->
    exists allow entry c, raw_allow = Some allow /\ entry ∈ split_char "," allow /\
      canonical_target entry = Some c /\ canonical_target target = Some c /\
      (is_loopback_target c = true \/ non_loopback_granted raw_grant = true)) /\
  (forall reason, r = Err reason -> ev = Some (redacted_target target, reason)) /\
  (r = Ok tt -> ev = None).
Proof.
  unfold accept_forward_request_with. intros H.
  assert (decide_forward target (parse_forward_allowlist raw_allow) (non_loopback_granted raw_grant) = Allow
    <-> exists allow entry c, raw_allow = Some allow /\ entry ∈ split_char "," allow /\
      canonical_target entry = Some c /\ canonical_target target = Some c /\
      (is_loopback_target c = true \/ non_loopback_granted raw_grant = true)) as Hiff.
  { rewrite decide_forward_allow. split.
    - intros (c & Hc & Hin & Hg). destruct raw_allow as [allow|].
      + apply elem_of_allowlist in Hin as (entry & ? & ?). exists allow, entry, c. auto.
      + cbv in Hin. by apply elem_of_nil in Hin.
    - intros (allow & entry & c & -> & Hin & He & Ht & Hg). exists c.
      split; [done|]. split; [|done]. apply elem_of_allowlist. eauto. }
  destruct (decide_forward _ _ _) as [|reason]; injection H as <- <-.
  - split; [|done]. rewrite <-Hiff. done.
  - split; [split; [done|]; intros H; by apply Hiff in H|]. by split; [intros ? [= <-]|].
Qed.

Lemma accept_forward_iff_witness :
  fst (accept_forward_request_with "LocalHost:22" (Some "127.0.0.1:5432, localhost:22") None) = Ok tt.
Proof.
  destruct (accept_forward_request_with "LocalHost:22" (Some "127.0.0.1:5432, localhost:22") None)
    as [r ev] eqn:E.
  apply (proj1 (accept_forward_iff _ _ _ _ _ E)).
  exists "127.0.0.1:5432, localhost:22"%string, " localhost:22"%string, "localhost:22"%string.
  split; [reflexivity|]. split; [vm_compute; right; left|]. vm_compute. auto.
Defined.

(** an unset, empty or blank allowlist, or one without any address in it, refuses every target,
    whatever the second grant says. *)
Theorem forward_off_means_off target raw_allow raw_grant :
  forward_allow_configured raw_allow = false ->
  fst (accept_forward_request_with target raw_allow raw_grant) = Err REASON_OFF.
Proof.
  unfold forward_allow_configured, accept_forward_request_with.
  by destruct (parse_forward_allowlist raw_allow).
Qed.

Lemma forward_off_means_off_witness :
  fst (accept_forward_request_with "127.0.0.1:22" (Some " , ,,") (Some "1")) = Err REASON_OFF.
Proof. apply forward_off_means_off. vm_compute. reflexivity. Defined.
