(* ===== verification/ForwardEngine.v ===== *)
(** * ForwardEngine: the two forward engines as state machines

    [run_forward_initiate_engine_with] and [run_forward_accept_engine_with] of
    [channel_run/forward_stream.rs].  Each engine is one [select!] loop: its state is a record, each
    branch is one handler, and the branch's guard is a condition of the handler.  A handler answers
    [Go] with the next state, [Stop] with the reason the loop breaks, or [None] while it cannot
    complete (its guard is false, or it waits for room in the queue of a stream without credit).
    What the engine does to the outside is appended to [log].  The frame writer and the pumps run
    beside the loop: [env_step]. *)
From S2P Require Import Prelude Text Runtime ForwardWire FlowControl ForwardPump ForwardLink ForwardPolicy.

#[local] Open Scope Z_scope.

Definition CTRL_BACKLOG_CAP : Z := 4096.
Definition HELLO_WAIT : Z := 500 * MILLI.
Definition DEAD_CHECK : Z := SESSION_DEAD_AFTER / 4.

Inductive EndReason :=
| BacklogOverCap
| AckedTooMuch
| WindowBelowMin
| ControlFlood
| OpenInUse (id : Z)
| ReadFailed (kind : ErrorKind)
| DeadPeer
| WriterEnded.

Section Engine.
Context {Sem : Type} `{SemaphoreOps Sem} {Q : Type -> Type} `{QueueOps Q}.

(** ** The control queue *)

Record CtrlTx := { ctrl_q : Q Frame; backlog : Z }.

Definition ctrl_channel : CtrlTx := {| ctrl_q := q_new Frame; backlog := 0 |}.

Definition ctrl_send (f : Frame) (c : CtrlTx) : bool * CtrlTx :=
  let c' := {| ctrl_q := ctrl_q c; backlog := backlog c + 1 |} in
  if CTRL_BACKLOG_CAP <=? backlog c then (false, c')
  else match q_send f (ctrl_q c) with
       | Some q => (true, {| ctrl_q := q; backlog := backlog c + 1 |})
       | None => (false, c')
       end.

(** The writer's [select!]: the control queue before the pumps' queue.  The frame it writes
    next, and the queues after it took it; [None] while both are empty. *)
Definition writer_next (c : CtrlTx) (out : Q Frame) : option (Frame * CtrlTx * Q Frame) :=
  match q_recv (ctrl_q c) with
  | Some (f, q) => Some (f, {| ctrl_q := q; backlog := backlog c - 1 |}, out)
  | None => let? (f, out) := q_recv out in Some (f, c, out)
  end.

(** ** The state both engines share *)

Inductive Effect :=
| RefusedTcp
| SpawnedPump (id : Z) (flow : option (PumpFlow Sem))
| Dialed (id : Z) (target : string) (flow : option (PumpFlow Sem))
| ForwardRefused (target reason : string)
| StreamGone (id : Z) (e : StreamEntry Sem Q)
| AbortedAll.

Record Common := {
  session_recv : SessionRecv;
  session_send : option (SessionSend Sem);
  unacked_since : option Z;
  pending_fc : gset Z;
  entries : gmap Z (StreamEntry Sem Q);
  running : gmap Z Z;
  tasks : gset Z;
  ctrl : CtrlTx;
  log : list Effect
}.

Inductive Step (A : Type) :=
| Go (s : A)
| Stop (s : A) (why : EndReason).
Arguments Go {A} s.
Arguments Stop {A} s why.

Definition then_ {A B} (s : option (Step A)) (k : A -> option (Step B)) (stop : A -> B) : option (Step B) :=
  match s with
  | Some (Go a) => k a
  | Some (Stop a why) => Some (Stop (stop a) why)
  | None => None
  end.

Definition set_recv (r : SessionRecv) (c : Common) : Common :=
  {| session_recv := r; session_send := session_send c; unacked_since := unacked_since c;
     pending_fc := pending_fc c; entries := entries c; running := running c; tasks := tasks c;
     ctrl := ctrl c; log := log c |}.
Definition set_send (s : option (SessionSend Sem)) (c : Common) : Common :=
  {| session_recv := session_recv c; session_send := s; unacked_since := unacked_since c;
     pending_fc := pending_fc c; entries := entries c; running := running c; tasks := tasks c;
     ctrl := ctrl c; log := log c |}.
Definition set_since (t : option Z) (c : Common) : Common :=
  {| session_recv := session_recv c; session_send := session_send c; unacked_since := t;
     pending_fc := pending_fc c; entries := entries c; running := running c; tasks := tasks c;
     ctrl := ctrl c; log := log c |}.
Definition set_fc (p : gset Z) (c : Common) : Common :=
  {| session_recv := session_recv c; session_send := session_send c; unacked_since := unacked_since c;
     pending_fc := p; entries := entries c; running := running c; tasks := tasks c;
     ctrl := ctrl c; log := log c |}.
Definition set_entries (e : gmap Z (StreamEntry Sem Q)) (c : Common) : Common :=
  {| session_recv := session_recv c; session_send := session_send c; unacked_since := unacked_since c;
     pending_fc := pending_fc c; entries := e; running := running c; tasks := tasks c;
     ctrl := ctrl c; log := log c |}.
Definition set_ctrl (q : CtrlTx) (c : Common) : Common :=
  {| session_recv := session_recv c; session_send := session_send c; unacked_since := unacked_since c;
     pending_fc := pending_fc c; entries := entries c; running := running c; tasks := tasks c;
     ctrl := q; log := log c |}.
Definition emit (e : Effect) (c : Common) : Common :=
  {| session_recv := session_recv c; session_send := session_send c; unacked_since := unacked_since c;
     pending_fc := pending_fc c; entries := entries c; running := running c; tasks := tasks c;
     ctrl := ctrl c; log := log c ++ [e] |}.
(** [streams.spawn] and [running.insert]; [task] is the id the runtime gave the task. *)
Definition spawn (id task : Z) (c : Common) : Common :=
  {| session_recv := session_recv c; session_send := session_send c; unacked_since := unacked_since c;
     pending_fc := pending_fc c; entries := entries c; running := <[id := task]> (running c);
     tasks := {[task]} ∪ tasks c; ctrl := ctrl c; log := log c |}.

(** [streams.abort_all()], then [break]. *)
Definition end_session (why : EndReason) (c : Common) : option (Step Common) :=
  Some (Stop (emit AbortedAll c) why).

(** [if !ctrl_tx.send(f) { abort_all; break }]. *)
Definition send_or_end (f : Frame) (c : Common) : option (Step Common) :=
  let '(ok, q) := ctrl_send f (ctrl c) in
  let c := set_ctrl q c in
  if ok then Some (Go c) else end_session BacklogOverCap c.

Definition common_start (window : Z) : Common :=
  {| session_recv := granting window; session_send := None; unacked_since := None;
     pending_fc := ∅; entries := ∅; running := ∅; tasks := ∅; ctrl := ctrl_channel; log := [] |}.

(** ** What both engines do with a frame of a stream *)

(** [if let Some(e) = entries.remove(&id) { e.finish(); e.notify(msg).await; }] *)
Definition remove_with (id : Z) (msg : StreamIn) (c : Common) : option Common :=
  match entries c !! id with
  | Some e =>
      let? e := notify msg (finish e) in
      Some (emit (StreamGone id e) (set_entries (delete id (entries c)) c))
  | None => Some c
  end.

(** A stream is reset: its pump is told, the peer gets the abort. *)
Definition reset_stream (id : Z) (c : Common) : option (Step Common) :=
  let? c := remove_with id SAborted c in
  send_or_end (abort_frame id) c.

Definition acknowledge_read (now bytes : Z) (c : Common) : option (Step Common) :=
  let '(r, ack) := received now bytes (session_recv c) in
  let c := set_recv r c in
  match ack with
  | Some f => send_or_end f c
  | None => Some (Go c)
  end.

Definition deliver_data (id : Z) (payload : list byte) (c : Common) : option (Step Common) :=
  match entries c !! id with
  | Some e =>
      let? (e, ok) := deliver payload e in
      let c := set_entries (<[id := e]> (entries c)) c in
      if ok then Some (Go c) else reset_stream id c
  | None => Some (Go c)
  end.

Definition on_data (now id : Z) (payload : list byte) (c : Common) : option (Step Common) :=
  then_ (acknowledge_read now (Zlen payload) c) (deliver_data id payload) (fun c => c).

Definition on_close (id : Z) (reason : option string) (c : Common) : option (Step Common) :=
  let c := set_fc (pending_fc c ∖ {[id]}) c in
  match stream_in_for_close reason with
  | SAborted => let? c := remove_with id SAborted c in Some (Go c)
  | msg =>
      match entries c !! id with
      | Some e =>
          let? e := notify msg e in Some (Go (set_entries (<[id := e]> (entries c)) c))
      | None => Some (Go c)
      end
  end.

Definition on_swindow (bytes : Z) (c : Common) : option (Step Common) :=
  match session_send c with
  | Some s =>
      match acknowledge bytes s with
      | Some s => Some (Go (set_send (Some s) c))
      | None => end_session AckedTooMuch c
      end
  | None => Some (Go c)
  end.

(** The pump of a stream ended: [finished_stream_id], then the entry goes. *)
Definition finished_stream_id (r : gmap Z Z) (task : Z) : option (Z * gmap Z Z) :=
  match list_find (fun p => p.2 = task) (map_to_list r) with
  | Some (_, (id, _)) => Some (id, delete id r)
  | None => None
  end.

Definition on_join (task : Z) (c : Common) : option (Step Common) :=
  if bool_decide (tasks c = ∅) then None
  else
    let c := {| session_recv := session_recv c; session_send := session_send c;
                unacked_since := unacked_since c; pending_fc := pending_fc c;
                entries := entries c; running := running c; tasks := tasks c ∖ {[task]};
                ctrl := ctrl c; log := log c |} in
    match finished_stream_id (running c) task with
    | Some (id, r) =>
        let c := {| session_recv := session_recv c; session_send := session_send c;
                    unacked_since := unacked_since c; pending_fc := pending_fc c;
                    entries := entries c; running := r; tasks := tasks c;
                    ctrl := ctrl c; log := log c |} in
        match entries c !! id with
        | Some e => Some (Go (emit (StreamGone id (finish e)) (set_entries (delete id (entries c)) c)))
        | None => Some (Go c)
        end
    | None => Some (Go c)
    end.

Definition on_flush_due (now : Z) (c : Common) : option (Step Common) :=
  match flush_at (session_recv c) with
  | Some at_ =>
      if at_ <=? now then
        let '(r, ack) := flush (session_recv c) in
        let c := set_recv r c in
        match ack with
        | Some f => send_or_end f c
        | None => Some (Go c)
        end
      else None
  | None => None
  end.

Definition on_dead_tick (now : Z) (c : Common) : option (Step Common) :=
  match session_send c with
  | Some s =>
      let '(dead, since) := session_is_dead now (Some s) (unacked_since c) in
      let c := set_since since c in
      if dead then end_session DeadPeer c else Some (Go c)
  | None => None
  end.

Definition on_writer_end (c : Common) : option (Step Common) := end_session WriterEnded c.

(** ** The initiate engine *)

Record InitConfig := {
  i_fc_enabled : bool; i_window : Z; i_max_streams : Z; i_target : string
}.

Record Initiate := {
  com : Common;
  stopping : bool;
  peer_speaks_fc : bool;
  accepting : bool;
  hello_deadline : option Z;
  next_id : Z
}.

Definition with_com (i : Initiate) (c : Common) : Initiate :=
  {| com := c; stopping := stopping i; peer_speaks_fc := peer_speaks_fc i;
     accepting := accepting i; hello_deadline := hello_deadline i; next_id := next_id i |}.

Definition lift (i : Initiate) (s : option (Step Common)) : option (Step Initiate) :=
  then_ s (fun c => Some (Go (with_com i c))) (with_com i).

Definition initiate_start (cfg : InitConfig) : Initiate :=
  let c := common_start (i_window cfg) in
  {| com := if i_fc_enabled cfg
            then set_ctrl (ctrl_send (hello_frame (wrap 32 (i_window cfg))) (ctrl c)).2 c
            else c;
     stopping := false; peer_speaks_fc := false; accepting := negb (i_fc_enabled cfg);
     hello_deadline := None; next_id := 1 |}.

Definition on_session_up (now : Z) (i : Initiate) : option (Step Initiate) :=
  if negb (accepting i) && bool_decide (hello_deadline i = None) then
    Some (Go {| com := com i; stopping := stopping i; peer_speaks_fc := peer_speaks_fc i;
                accepting := accepting i; hello_deadline := Some (now + HELLO_WAIT);
                next_id := next_id i |})
  else None.

Definition on_hello_deadline (now : Z) (i : Initiate) : option (Step Initiate) :=
  match hello_deadline i with
  | Some at_ =>
      if negb (accepting i) && (at_ <=? now) then
        Some (Go {| com := com i; stopping := stopping i; peer_speaks_fc := peer_speaks_fc i;
                    accepting := true; hello_deadline := hello_deadline i; next_id := next_id i |})
      else None
  | None => None
  end.

Definition on_stop (i : Initiate) : option (Step Initiate) :=
  if stopping i then None
  else Some (Go {| com := com i; stopping := true; peer_speaks_fc := peer_speaks_fc i;
                   accepting := accepting i; hello_deadline := hello_deadline i;
                   next_id := next_id i |}).

(** [id.wrapping_add(1).max(1)]. *)
Definition id_after (id : Z) : Z := Z.max 1 (wrap 32 (id + 1)).

(** [while running.contains_key(&id)]. *)
Fixpoint free_id (fuel : nat) (r : gmap Z Z) (id : Z) : option Z :=
  match fuel with
  | O => None
  | S fuel => match r !! id with Some _ => free_id fuel r (id_after id) | None => Some id end
  end.

Definition announce (cfg : InitConfig) (id : Z) (c : Common) : option (Step Common) :=
  then_ (send_or_end (fc_on_frame id) c) (send_or_end (Open id (i_target cfg))) (fun c => c).

(** A local connection.  [stopped]: what [stop.is_cancelled()] says; [accepted]: whether [accept]
    gave a connection; [task]: the id the runtime gives the spawned task. *)
Definition on_accept (cfg : InitConfig) (stopped accepted : bool) (task : Z) (i : Initiate)
  : option (Step Initiate) :=
  if negb (accepting i || stopping i) then None
  else if negb accepted then Some (Go i)
  else if stopped then Some (Go (with_com i (emit RefusedTcp (com i))))
  else if i_max_streams cfg <=? Z.of_nat (size (running (com i))) then
    Some (Go (with_com i (emit RefusedTcp (com i))))
  else
    let? id := free_id (S (size (running (com i)))) (running (com i)) (next_id i) in
    let credited := peer_speaks_fc i in
    let e := {| tx := inbound_queue credited;
                credit := if credited then Some (sem_new FC_WINDOW) else None |} in
    let i := {| com := set_entries (<[id := e]> (entries (com i))) (com i); stopping := stopping i;
                peer_speaks_fc := peer_speaks_fc i; accepting := accepting i;
                hello_deadline := hello_deadline i; next_id := id_after id |} in
    let flow := (fun c => {| flow_credit := Some c; flow_session := session_send (com i) |}) <$> credit e in
    then_ (if credited then announce cfg id (com i) else Some (Go (com i)))
          (fun c => Some (Go (with_com i (emit (SpawnedPump id flow) (spawn id task c)))))
          (with_com i).

Definition initiate_hello (w : option Z) (i : Initiate) : option (Step Initiate) :=
  let greeted (send : option (SessionSend Sem)) :=
    Some (Go {| com := set_recv (set_on (bool_decide (is_Some w)) (session_recv (com i)))
                         (set_send send (com i));
                stopping := stopping i; peer_speaks_fc := true; accepting := true;
                hello_deadline := hello_deadline i; next_id := next_id i |}) in
  if accepting i then greeted (session_send (com i))
  else
    match from_hello (default 0 w) with
    | Ok s => greeted s
    | Err _ => lift i (end_session WindowBelowMin (com i))
    end.

Definition initiate_control (cfg : InitConfig) (payload : list byte) (i : Initiate)
  : option (Step Initiate) :=
  if negb (i_fc_enabled cfg) then Some (Go i)
  else
    let '(outcome, es, fc) := apply_control payload (entries (com i)) (pending_fc (com i)) in
    let i := with_com i (set_fc fc (set_entries es (com i))) in
    match outcome with
    | CHello w => initiate_hello w i
    | CSWindow bytes => lift i (on_swindow bytes (com i))
    | CResetStream id => lift i (reset_stream id (com i))
    | CEndSession => lift i (end_session ControlFlood (com i))
    | CNone => Some (Go i)
    end.

Definition initiate_frame (cfg : InitConfig) (now : Z) (fr : result Frame ErrorKind) (i : Initiate)
  : option (Step Initiate) :=
  match fr with
  | Err kind => lift i (end_session (ReadFailed kind) (com i))
  | Ok f =>
      let i := with_com i (set_since None (com i)) in
      match f with
      | Data id payload =>
          if id =? CONTROL_ID then initiate_control cfg payload i
          else lift i (on_data now id payload (com i))
      | Close id reason => lift i (on_close id reason (com i))
      | Open _ _ => Some (Go i)
      end
  end.

(** ** The accept engine *)

Record AcceptConfig := {
  a_fc_enabled : bool; a_window : Z; a_max_streams : Z;
  allow_raw : option string; non_loopback_raw : option string
}.

Record AcceptState := { acom : Common; opened : bool; mode_logged : bool }.

Definition with_acom (a : AcceptState) (c : Common) : AcceptState :=
  {| acom := c; opened := opened a; mode_logged := mode_logged a |}.
Definition alift (a : AcceptState) (s : option (Step Common)) : option (Step AcceptState) :=
  then_ s (fun c => Some (Go (with_acom a c))) (with_acom a).

Definition accept_start (cfg : AcceptConfig) : AcceptState :=
  let c := common_start (a_window cfg) in
  {| acom := if a_fc_enabled cfg
             then set_ctrl (ctrl_send (hello_frame (wrap 32 (a_window cfg))) (ctrl c)).2 c
             else c;
     opened := false; mode_logged := negb (a_fc_enabled cfg) |}.

Definition MAX_STREAMS_REASON : string := "CT_CHANNEL_FORWARD_MAX_STREAMS reached".

(** The pump flow of an accepted stream: with the session window also without credit. *)
Definition accepted_flow (credit : option Sem) (session : option (SessionSend Sem))
  : option (PumpFlow Sem) :=
  match credit, session with
  | None, None => None
  | _, _ => Some {| flow_credit := credit; flow_session := session |}
  end.

(** The branch of an [Open]. *)
Definition on_open (cfg : AcceptConfig) (task id : Z) (target : string) (a : AcceptState)
  : option (Step AcceptState) :=
  let c := acom a in
  if (id =? CONTROL_ID) || bool_decide (is_Some (entries c !! id)) || bool_decide (is_Some (running c !! id))
  then alift a (end_session (OpenInUse id) c)
  else
    let credited := bool_decide (id ∈ pending_fc c) in
    let c := set_fc (pending_fc c ∖ {[id]}) c in
    let a := {| acom := c; opened := true; mode_logged := true |} in
    if a_max_streams cfg <=? Z.of_nat (size (running c)) then
      alift a (send_or_end (Close id (Some MAX_STREAMS_REASON)) c)
    else
      match accept_forward_request_with target (allow_raw cfg) (non_loopback_raw cfg) with
      | (Err reason, ev) =>
          let c := match ev with Some (t, r) => emit (ForwardRefused t r) c | None => c end in
          alift a (send_or_end (Close id (Some reason)) c)
      | (Ok _, _) =>
          let e := {| tx := inbound_queue credited;
                      credit := if credited then Some (sem_new FC_WINDOW) else None |} in
          let c := set_entries (<[id := e]> (entries c)) c in
          let flow := accepted_flow (credit e) (session_send c) in
          Some (Go (with_acom a (emit (Dialed id target flow) (spawn id task c))))
      end.

Definition accept_hello (w : option Z) (a : AcceptState) : option (Step AcceptState) :=
  let c := set_recv (set_on (bool_decide (is_Some w)) (session_recv (acom a))) (acom a) in
  let greeted (c : Common) := Some (Go {| acom := c; opened := opened a; mode_logged := true |}) in
  if opened a then greeted c
  else
    match from_hello (default 0 w) with
    | Ok s => greeted (set_send s c)
    | Err _ => alift a (end_session WindowBelowMin c)
    end.

Definition accept_control (cfg : AcceptConfig) (payload : list byte) (a : AcceptState)
  : option (Step AcceptState) :=
  if negb (a_fc_enabled cfg) then Some (Go a)
  else
    let '(outcome, es, fc) := apply_control payload (entries (acom a)) (pending_fc (acom a)) in
    let a := with_acom a (set_fc fc (set_entries es (acom a))) in
    match outcome with
    | CResetStream id => alift a (reset_stream id (acom a))
    | CEndSession => alift a (end_session ControlFlood (acom a))
    | CHello w => accept_hello w a
    | CSWindow bytes => alift a (on_swindow bytes (acom a))
    | CNone => Some (Go a)
    end.

Definition accept_frame (cfg : AcceptConfig) (now task : Z) (fr : result Frame ErrorKind)
  (a : AcceptState) : option (Step AcceptState) :=
  match fr with
  | Err kind => alift a (end_session (ReadFailed kind) (acom a))
  | Ok f =>
      let a := with_acom a (set_since None (acom a)) in
      match f with
      | Open id target => on_open cfg task id target a
      | Data id payload =>
          if id =? CONTROL_ID then accept_control cfg payload a
          else alift a (on_data now id payload (acom a))
      | Close id reason => alift a (on_close id reason (acom a))
      end
  end.

(** ** The loops *)

(** What the engine's [select!] wakes up for, with the answers of the outside. *)
Inductive Event :=
| EvSessionUp (now : Z)
| EvHelloDeadline (now : Z)
| EvStop
| EvAccept (stopped accepted : bool) (task : Z)
| EvFrame (now task : Z) (fr : result Frame ErrorKind)
| EvJoin (task : Z)
| EvFlushDue (now : Z)
| EvDeadTick (now : Z)
| EvWriterEnd.

Definition initiate_event (cfg : InitConfig) (ev : Event) (i : Initiate) : option (Step Initiate) :=
  match ev with
  | EvSessionUp now => on_session_up now i
  | EvHelloDeadline now => on_hello_deadline now i
  | EvStop => on_stop i
  | EvAccept stopped accepted task => on_accept cfg stopped accepted task i
  | EvFrame now _ fr => initiate_frame cfg now fr i
  | EvJoin task => lift i (on_join task (com i))
  | EvFlushDue now => lift i (on_flush_due now (com i))
  | EvDeadTick now => lift i (on_dead_tick now (com i))
  | EvWriterEnd => lift i (on_writer_end (com i))
  end.

Definition accept_event (cfg : AcceptConfig) (ev : Event) (a : AcceptState) : option (Step AcceptState) :=
  match ev with
  | EvFrame now task fr => accept_frame cfg now task fr a
  | EvJoin task => alift a (on_join task (acom a))
  | EvFlushDue now => alift a (on_flush_due now (acom a))
  | EvDeadTick now => alift a (on_dead_tick now (acom a))
  | EvWriterEnd => alift a (on_writer_end (acom a))
  | _ => None
  end.

(** What runs beside the loop: the writer takes a control frame, a pump takes a message of its
    queue or uses up credit or session window, a pump ends and the receiver of its queue goes away
    with it. *)
Inductive env_step : Common -> Common -> Prop :=
| env_writer f q out out' c :
    writer_next (ctrl c) out = Some (f, q, out') -> env_step c (set_ctrl q c)
| env_recv id e m t c :
    entries c !! id = Some e -> recv (tx e) = Some (m, t) ->
    env_step c (set_entries (<[id := {| tx := t; credit := credit e |}]> (entries c)) c)
| env_credit id e n s s' c :
    entries c !! id = Some e -> credit e = Some s -> acquire_many n s = Some s' ->
    env_step c (set_entries (<[id := {| tx := tx e; credit := Some s' |}]> (entries c)) c)
| env_window s s' l l' c :
    session_send c = Some s -> send_step (s, l) (s', l') ->
    env_step c (set_send (Some s') c)
| env_gone id e c :
    entries c !! id = Some e ->
    env_step c (set_entries (<[id := {| tx := dropped (tx e); credit := credit e |}]> (entries c)) c).
End Engine.
Arguments Common : clear implicits.
Arguments Initiate : clear implicits.
Arguments AcceptState : clear implicits.
Arguments Effect : clear implicits.
Arguments CtrlTx : clear implicits.
Arguments Go {A} s.
Arguments Stop {A} s why.
