(* ===== verification/EngineInv.v ===== *)
(** * EngineInv: what holds in every state of the forward engines

    Invariants of [ForwardEngine] by induction over the events of the loop and the steps of what
    runs beside it: the stream limit, the ids in use, the memory a peer can make an engine hold,
    and, on the accept side, that nothing is dialed without the policy's consent. *)
From S2P Require Import Prelude Text Runtime ForwardWire FlowControl ForwardPump ForwardLink ForwardPolicy ForwardEngine.

#[local] Open Scope Z_scope.

Section Inv.
Context {Sem : Type} `{SemaphoreLaws Sem} {Q : Type -> Type} `{QueueLaws Q}.
Implicit Types (c : Common Sem Q).

(** What a stream holds for its pump: with credit at most one window of bytes, without it at most
    [CHANNEL_CAP] messages. *)
Definition entry_bounded (e : StreamEntry Sem Q) : Prop :=
  match tx e with
  | Credited q n => 0 <= data_total (q_items q) <= n /\ n <= FC_WINDOW
  | Bounded q => Zlen (q_items q) <= CHANNEL_CAP
  end.

Definition ctrl_bounded (q : CtrlTx Q) : Prop :=
  Zlen (q_items (ctrl_q q)) <= backlog q <= CTRL_BACKLOG_CAP.

Record common_inv (max : Z) (c : Common Sem Q) : Prop := {
  inv_ids : forall id t, running c !! id = Some t -> 1 <= id <= U32_MAX;
  inv_dom : forall id e, entries c !! id = Some e -> is_Some (running c !! id);
  inv_count : Z.of_nat (size (running c)) <= max;
  inv_fc : Z.of_nat (size (pending_fc c)) <= MAX_PENDING_FC;
  inv_inj : forall i j t, running c !! i = Some t -> running c !! j = Some t -> i = j;
  inv_tasks : forall t, t ∈ tasks c <-> exists i, running c !! i = Some t;
  inv_entries : forall id e, entries c !! id = Some e -> entry_bounded e;
  inv_ctrl : ctrl_bounded (ctrl c)
}.

(** ** The helpers *)

Lemma ctrl_send_true f q q' :
  ctrl_send f q = (true, q') ->
  q_items (ctrl_q q') = q_items (ctrl_q q) ++ [f] /\ backlog q' = backlog q + 1 /\
  backlog q < CTRL_BACKLOG_CAP.
Proof.
  unfold ctrl_send. destruct (Z.leb_spec CTRL_BACKLOG_CAP (backlog q)); [done|].
  destruct (q_send f (ctrl_q q)) as [q2|] eqn:E; [|done]. intros [= <-].
  apply q_send_items in E as [E _]. simpl. auto.
Qed.

Lemma send_or_end_go f c c' :
  send_or_end f c = Some (Go c') ->
  exists q, c' = set_ctrl q c /\ ctrl_send f (ctrl c) = (true, q).
Proof.
  unfold send_or_end. destruct (ctrl_send f (ctrl c)) as [[|] q] eqn:E; [|done].
  intros [= <-]. eauto.
Qed.

Lemma ctrl_send_bounded f q q' :
  ctrl_bounded q -> ctrl_send f q = (true, q') -> ctrl_bounded q'.
Proof.
  unfold ctrl_bounded. intros Hb Hs. apply ctrl_send_true in Hs as (Hi & Hn & Hlt).
  rewrite Hi, Hn, length_app. simpl. lia.
Qed.

Lemma set_ctrl_inv max q c : common_inv max c -> ctrl_bounded q -> common_inv max (set_ctrl q c).
Proof. intros [] ?. by split. Qed.

Lemma send_or_end_inv max f c c' :
  common_inv max c -> send_or_end f c = Some (Go c') -> common_inv max c'.
Proof.
  intros Hi Hs. apply send_or_end_go in Hs as (q & -> & Hs).
  apply set_ctrl_inv; [done|]. eapply ctrl_send_bounded; [exact (inv_ctrl _ _ Hi)|exact Hs].
Qed.

Lemma set_entries_update max id e e' c :
  common_inv max c -> entries c !! id = Some e -> entry_bounded e' ->
  common_inv max (set_entries (<[id := e']> (entries c)) c).
Proof.
  intros [] He Hb. split; simpl; try done.
  - intros j e2 Hj. destruct (decide (id = j)) as [<-|Hne]; [by eapply inv_dom0|].
    rewrite lookup_insert_ne in Hj by done. by eapply inv_dom0.
  - intros j e2 Hj. destruct (decide (id = j)) as [<-|Hne].
    + rewrite lookup_insert_eq in Hj. by injection Hj as <-.
    + rewrite lookup_insert_ne in Hj by done. by eapply inv_entries0.
Qed.

Lemma set_entries_delete max id c :
  common_inv max c -> common_inv max (set_entries (delete id (entries c)) c).
Proof.
  intros []. split; simpl; try done; intros j e Hj; apply lookup_delete_Some in Hj as [_ Hj]; eauto.
Qed.

Lemma emit_inv max x c : common_inv max c -> common_inv max (emit x c).
Proof. intros []. by split. Qed.
Lemma set_recv_inv max r c : common_inv max c -> common_inv max (set_recv r c).
Proof. intros []. by split. Qed.
Lemma set_send_inv max s c : common_inv max c -> common_inv max (set_send s c).
Proof. intros []. by split. Qed.
Lemma set_since_inv max t c : common_inv max c -> common_inv max (set_since t c).
Proof. intros []. by split. Qed.
Lemma set_fc_inv max p c :
  common_inv max c -> Z.of_nat (size p) <= MAX_PENDING_FC -> common_inv max (set_fc p c).
Proof. intros [] ?. by split. Qed.

Lemma fc_remove_bounded id c :
  Z.of_nat (size (pending_fc c)) <= MAX_PENDING_FC ->
  Z.of_nat (size (pending_fc c ∖ {[id]})) <= MAX_PENDING_FC.
Proof.
  intros. pose proof (subseteq_size (pending_fc c ∖ {[id]}) (pending_fc c) ltac:(set_solver)). lia.
Qed.

Lemma bounded_send_ok m q q' :
  bounded_send m q = Some q' -> Zlen (q_items q) <= CHANNEL_CAP -> Zlen (q_items q') <= CHANNEL_CAP.
Proof.
  unfold bounded_send. destruct (q_gone q) eqn:Eg; [by intros [= <-]|].
  destruct (Z.ltb_spec (Zlen (q_items q)) CHANNEL_CAP); [|done]. intros [= <-] _.
  rewrite send_ignored_items, Eg, length_app. simpl. lia.
Qed.

Lemma held_total_app l1 l2 : data_total (l1 ++ l2) = data_total l1 + data_total l2.
Proof. induction l1 as [|m l1 IH]; simpl; lia. Qed.

Lemma held_total_nonneg l : 0 <= data_total l.
Proof. induction l as [|[p| |] l IH]; simpl; lia. Qed.

Lemma send_ignored_total m (q : Q StreamIn) :
  data_total (q_items q) <= data_total (q_items (send_ignored m q)) <= data_total (q_items q) + data_len m.
Proof.
  rewrite send_ignored_items. assert (0 <= data_len m) by (destruct m; simpl; lia).
  destruct (q_gone q); [lia|]. rewrite held_total_app. simpl. lia.
Qed.

Lemma deliver_bounded p e e' ok :
  entry_bounded e -> deliver p e = Some (e', ok) -> entry_bounded e'.
Proof.
  unfold deliver, entry_bounded. destruct (tx e) as [q|q n] eqn:Et.
  - destruct (bounded_send _ q) as [q'|] eqn:Eb; [|done]. intros Hq [= <- <-]. simpl.
    by eapply bounded_send_ok.
  - destruct (Z.ltb_spec FC_WINDOW (n + Zlen p)); intros Hq [= <- <-]; [by rewrite Et|].
    simpl. pose proof (send_ignored_total (SData p) q). simpl in *. lia.
Qed.

Lemma notify_bounded m e e' :
  data_len m = 0 -> entry_bounded e -> notify m e = Some e' -> entry_bounded e'.
Proof.
  unfold notify, entry_bounded. destruct (tx e) as [q|q n] eqn:Et.
  - destruct (bounded_send _ q) as [q'|] eqn:Eb; [|done]. intros _ Hq [= <-]. simpl.
    by eapply bounded_send_ok.
  - intros Hm Hq [= <-]. simpl. pose proof (send_ignored_total m q). lia.
Qed.

Lemma remove_with_inv max id m c c' :
  common_inv max c -> remove_with id m c = Some c' -> common_inv max c'.
Proof.
  intros Hi. unfold remove_with. destruct (entries c !! id) as [e|]; [|by intros [= <-]].
  destruct (notify m (finish e)) as [e'|]; [|done]. intros [= <-].
  by apply emit_inv, set_entries_delete.
Qed.

Lemma reset_stream_inv max id c c' :
  common_inv max c -> reset_stream id c = Some (Go c') -> common_inv max c'.
Proof.
  intros Hi. unfold reset_stream. destruct (remove_with id SAborted c) as [c1|] eqn:E; [|done].
  apply send_or_end_inv. by eapply remove_with_inv.
Qed.

Lemma acknowledge_read_inv max now n c c' :
  common_inv max c -> acknowledge_read now n c = Some (Go c') -> common_inv max c'.
Proof.
  intros Hi. unfold acknowledge_read. destruct (received _ _ _) as [r [f|]].
  - apply send_or_end_inv. by apply set_recv_inv.
  - intros [= <-]. by apply set_recv_inv.
Qed.

Lemma deliver_data_inv max id p c c' :
  common_inv max c -> deliver_data id p c = Some (Go c') -> common_inv max c'.
Proof.
  intros Hi. unfold deliver_data. destruct (entries c !! id) as [e|] eqn:Ee; [|by intros [= <-]].
  destruct (deliver p e) as [[e' ok]|] eqn:Ed; [|done].
  assert (common_inv max (set_entries (<[id := e']> (entries c)) c)) as Hi'.
  { eapply set_entries_update; [done|done|]. eapply deliver_bounded; [|done].
    by eapply inv_entries. }
  destruct ok; [by intros [= <-]|]. by apply reset_stream_inv.
Qed.

Lemma then_go {A B} (s : option (Step A)) (k : A -> option (Step B)) stop b :
  then_ s k stop = Some (Go b) -> exists a, s = Some (Go a) /\ k a = Some (Go b).
Proof. unfold then_. destruct s as [[a|a w]|]; [eauto|done..]. Qed.

Lemma on_data_inv max now id p c c' :
  common_inv max c -> on_data now id p c = Some (Go c') -> common_inv max c'.
Proof.
  intros Hi. unfold on_data. intros (c1 & Hx1 & Hx2)%then_go.
  eapply deliver_data_inv; [|done]. by eapply acknowledge_read_inv.
Qed.

Lemma on_close_inv max id r c c' :
  common_inv max c -> on_close id r c = Some (Go c') -> common_inv max c'.
Proof.
  intros Hi. unfold on_close.
  assert (common_inv max (set_fc (pending_fc c ∖ {[id]}) c)) as Hi'.
  { apply set_fc_inv; [done|]. apply fc_remove_bounded. by eapply inv_fc. }
  destruct r as [r|]; simpl.
  - destruct (remove_with _ _ _) as [c1|] eqn:E; [|done]. intros [= <-]. by eapply remove_with_inv.
  - destruct (entries c !! id) as [e|] eqn:Ee; [|by intros [= <-]].
    destruct (notify SClosed e) as [e'|] eqn:En; [|done]. intros [= <-].
    eapply (set_entries_update _ _ _ _ (set_fc _ c)); [done|done|].
    eapply notify_bounded; [|by eapply inv_entries|done]. done.
Qed.

Lemma on_swindow_inv max n c c' :
  common_inv max c -> on_swindow n c = Some (Go c') -> common_inv max c'.
Proof.
  intros Hi. unfold on_swindow. destruct (session_send c) as [s|]; [|by intros [= <-]].
  destruct (acknowledge n s); [|done]. intros [= <-]. by apply set_send_inv.
Qed.

Lemma on_flush_inv max now c c' :
  common_inv max c -> on_flush_due now c = Some (Go c') -> common_inv max c'.
Proof.
  intros Hi. unfold on_flush_due. destruct (flush_at _) as [at_|]; [|done].
  destruct (at_ <=? now); [|done]. destruct (flush _) as [r [f|]].
  - apply send_or_end_inv. by apply set_recv_inv.
  - intros [= <-]. by apply set_recv_inv.
Qed.

Lemma on_dead_inv max now c c' :
  common_inv max c -> on_dead_tick now c = Some (Go c') -> common_inv max c'.
Proof.
  intros Hi. unfold on_dead_tick. destruct (session_send c) as [s|]; [|done].
  destruct (session_is_dead _ _ _) as [[|] since]; [done|]. intros [= <-]. by apply set_since_inv.
Qed.

(** A finished pump frees its id and its slot; the task is found by its runtime id. *)
Lemma finished_stream_spec (r : gmap Z Z) task :
  (forall i j t, r !! i = Some t -> r !! j = Some t -> i = j) ->
  match finished_stream_id r task with
  | Some (id, r') => r !! id = Some task /\ r' = delete id r
  | None => forall i, r !! i <> Some task
  end.
Proof.
  intros Hinj. unfold finished_stream_id.
  destruct (list_find _ (map_to_list r)) as [[n [id t]]|] eqn:E.
  - apply list_find_Some in E as (E & Ht & _). simpl in Ht. subst t.
    split; [|done]. apply list_elem_of_lookup_2 in E. by apply elem_of_map_to_list in E.
  - intros i Hi. apply list_find_None in E. rewrite Forall_forall in E.
    apply (E (i, task)); [|done]. by apply elem_of_map_to_list.
Qed.

Lemma on_join_inv max task c c' :
  common_inv max c -> on_join task c = Some (Go c') -> common_inv max c'.
Proof.
  intros [] Hj. unfold on_join in Hj. case_bool_decide; [done|]. simpl in Hj.
  pose proof (finished_stream_spec (running c) task inv_inj0) as Hf.
  destruct (finished_stream_id (running c) task) as [[id r]|]; simpl in Hj.
  - destruct Hf as [Hid ->].
    assert (forall i, i <> id -> running c !! i <> Some task) as Hne.
    { intros i Hi Ht. by apply Hi, (inv_inj0 i id task). }
    assert (Z.of_nat (size (delete id (running c))) <= max) as Hsz.
    { rewrite map_size_delete_Some by eauto. lia. }
    assert (forall es c0, (forall j e, es !! j = Some e -> j <> id /\ entries c !! j = Some e) ->
      c0 = {| session_recv := session_recv c; session_send := session_send c;
              unacked_since := unacked_since c; pending_fc := pending_fc c; entries := es;
              running := delete id (running c); tasks := tasks c ∖ {[task]};
              ctrl := ctrl c; log := log c0 |} -> common_inv max c0) as Hinv.
    { intros es c0 Hes ->. split; simpl; try done.
      - intros j t Ht. apply lookup_delete_Some in Ht as [_ Ht]. eauto.
      - intros j e He. apply Hes in He as [Hjne He]. rewrite lookup_delete_ne by done. eauto.
      - intros i j t Hi Hj'. apply lookup_delete_Some in Hi as [_ Hi].
        apply lookup_delete_Some in Hj' as [_ Hj']. eauto.
      - intros t. rewrite elem_of_difference, elem_of_singleton, inv_tasks0. split.
        + intros [[i Hi] Hnt]. exists i. apply lookup_delete_Some. split; [|done].
          intros <-. congruence.
        + intros [i Hi]. apply lookup_delete_Some in Hi as [Hi1 Hi2]. split; [eauto|].
          intros ->. by eapply Hne.
      - intros j e He. apply Hes in He as [_ He]. eauto. }
    destruct (entries c !! id) as [e|] eqn:Ee; injection Hj as <-.
    + eapply (Hinv (delete id (entries c))); [|done].
      intros j e' He'. apply lookup_delete_Some in He' as [? ?]. auto.
    + eapply (Hinv (entries c)); [|done]. intros j e' He'. split; [|done]. intros ->. congruence.
  - injection Hj as <-. split; simpl; try done.
    intros t. rewrite elem_of_difference, elem_of_singleton, inv_tasks0. split; [by intros [? _]|].
    intros [i Hi]. split; [eauto|]. intros ->. by eapply Hf.
Qed.

(** ** What runs beside the loop *)

Lemma env_step_inv max c c' : common_inv max c -> env_step c c' -> common_inv max c'.
Proof.
  intros Hi Hs.
  destruct Hs as [f q out out' c Hw|id e m t c He Hr|id e n s s' c He Hc Ha|s s' l l' c Hs Hst|id e c He].
  - apply set_ctrl_inv; [done|]. pose proof (inv_ctrl _ _ Hi) as Hb. unfold ctrl_bounded, writer_next in *.
    pose proof (q_recv_items Frame (ctrl_q (ctrl c))) as Hq.
    destruct (q_recv (ctrl_q (ctrl c))) as [[g q']|].
    + injection Hw as <- <- <-. destruct Hq as [Hq _]. rewrite Hq in Hb. simpl in *. lia.
    + destruct (q_recv out) as [[g o']|]; [|done]. injection Hw as <- <- <-. done.
  - eapply set_entries_update; [done|done|]. pose proof (inv_entries _ _ Hi _ _ He) as Hb.
    unfold entry_bounded, recv in *. destruct (tx e) as [q|q n]; simpl in *.
    + pose proof (q_recv_items StreamIn q) as Hq. destruct (q_recv q) as [[x q']|]; [|done].
      injection Hr as <- <-. destruct Hq as [Hq _]. rewrite Hq in Hb. simpl in Hb. simpl. lia.
    + pose proof (q_recv_items StreamIn q) as Hq. destruct (q_recv q) as [[x q']|]; [|done].
      injection Hr as <- <-. destruct Hq as [Hq _]. rewrite Hq in Hb. simpl in *.
      pose proof (held_total_nonneg (q_items q')). assert (0 <= data_len x) by (destruct x; simpl; lia). lia.
  - eapply set_entries_update; [done|done|]. exact (inv_entries _ _ Hi _ _ He).
  - by apply set_send_inv.
  - eapply set_entries_update; [done|done|]. pose proof (inv_entries _ _ Hi _ _ He) as Hb.
    unfold entry_bounded, dropped in *.
    destruct (tx e) as [q|q n]; simpl; rewrite (proj1 (q_drop_items StreamIn q)); simpl;
      [unfold CHANNEL_CAP; lia|].
    pose proof (held_total_nonneg (q_items q)). lia.
Qed.

(** ** Control messages *)

Lemma apply_control_inv max p c o es fc :
  common_inv max c -> apply_control p (entries c) (pending_fc c) = (o, es, fc) ->
  common_inv max (set_fc fc (set_entries es c)).
Proof.
  intros Hi. pose proof (inv_fc _ _ Hi) as Hfc.
  assert (common_inv max (set_fc (pending_fc c) (set_entries (entries c) c))) as Hsame by by destruct c.
  unfold apply_control. destruct (parse_control p) as [[w|id n|id|n]|]; try (by intros [= <- <- <-]).
  - unfold grant_window. intros Ha.
    destruct (entries c !! id) as [[t [cr|]]|] eqn:Ee; try (by injection Ha as <- <- <-).
    destruct (_ <? n); injection Ha as <- <- <-; [done|].
    assert (common_inv max (set_entries (<[id := {| tx := t; credit := Some (add_permits n cr) |}]> (entries c)) c)) as Hu.
    { eapply set_entries_update; [done|done|]. exact (inv_entries _ _ Hi _ _ Ee). }
    by destruct Hu.
  - destruct (Z.leb_spec MAX_PENDING_FC (Z.of_nat (size (pending_fc c)))); intros [= <- <- <-]; [done|].
    apply set_fc_inv; [|].
    + by destruct Hsame.
    + pose proof (size_union_alt {[id]} (pending_fc c)) as Hsz. rewrite size_singleton in Hsz.
      pose proof (subseteq_size (pending_fc c ∖ {[id]}) (pending_fc c) ltac:(set_solver)).
      rewrite Hsz. lia.
Qed.

(** ** A new stream *)

Lemma common_inv_spawn max id task e q c c' :
  common_inv max c -> running c !! id = None -> 1 <= id <= U32_MAX ->
  Z.of_nat (size (running c)) < max -> task ∉ tasks c -> entry_bounded e -> ctrl_bounded q ->
  running c' = <[id := task]> (running c) -> entries c' = <[id := e]> (entries c) ->
  tasks c' = {[task]} ∪ tasks c -> pending_fc c' = pending_fc c -> ctrl c' = q ->
  common_inv max c'.
Proof.
  intros [] Hid Hr Hsz Ht He Hq Er Ee Et Ef Ec.
  assert (forall i, running c !! i <> Some task) as Hnt.
  { intros i Hi. apply Ht, inv_tasks0. eauto. }
  split; rewrite ?Er, ?Ee, ?Et, ?Ef, ?Ec; try done.
  - intros j t. destruct (decide (id = j)) as [<-|Hne]; [done|].
    rewrite lookup_insert_ne by done. eauto.
  - intros j e'. destruct (decide (id = j)) as [<-|Hne].
    + rewrite !lookup_insert_eq. eauto.
    + rewrite !lookup_insert_ne by done. eauto.
  - rewrite map_size_insert_None by done. lia.
  - intros i j t. rewrite !lookup_insert_Some.
    intros [[<- <-]|[? Hi]] [[<- E]|[? Hj]]; try done; [by destruct (Hnt j)|subst; by destruct (Hnt i)|eauto].
  - intros t. rewrite elem_of_union, elem_of_singleton, inv_tasks0. split.
    + intros [->|[i Hi]]; [exists id; by rewrite lookup_insert_eq|].
      exists i. rewrite lookup_insert_ne; [done|]. intros <-. congruence.
    + intros [i Hi]. apply lookup_insert_Some in Hi as [[_ <-]|[_ Hi]]; eauto.
  - intros j e'. destruct (decide (id = j)) as [<-|Hne].
    + rewrite lookup_insert_eq. by intros [= <-].
    + rewrite lookup_insert_ne by done. eauto.
Qed.

Lemma new_entry_bounded b cr :
  entry_bounded {| tx := inbound_queue b; credit := cr |}.
Proof.
  unfold entry_bounded, inbound_queue. destruct b; simpl; rewrite q_new_items; simpl;
    unfold FC_WINDOW, CHANNEL_CAP; lia.
Qed.

Lemma id_after_range id : 1 <= id_after id <= U32_MAX.
Proof.
  unfold id_after, wrap, U32_MAX. pose proof (Z.mod_pos_bound (id + 1) (2 ^ 32) ltac:(lia)). lia.
Qed.

Lemma free_id_spec fuel r id i :
  1 <= id <= U32_MAX -> free_id fuel r id = Some i -> r !! i = None /\ 1 <= i <= U32_MAX.
Proof.
  revert id. induction fuel as [|fuel IH]; intros id Hid; simpl; [done|].
  destruct (r !! id) eqn:E; [|by intros [= <-]]. apply IH, id_after_range.
Qed.

(** The ids tried in turn: all of [1 .. u32::MAX], cyclically. *)
Fixpoint id_seq (n : nat) (id : Z) : list Z :=
  match n with O => [] | S n => id :: id_seq n (id_after id) end.

Lemma free_id_None fuel r id : free_id fuel r id = None -> Forall (fun i => is_Some (r !! i)) (id_seq fuel id).
Proof.
  revert id. induction fuel as [|fuel IH]; intros id; simpl; [done|].
  destruct (r !! id) eqn:E; [|done]. intros Hn. apply Forall_cons_2; [eauto|by apply IH].
Qed.

Lemma id_after_eq id : 1 <= id <= U32_MAX -> id_after id = (if id =? U32_MAX then 1 else id + 1).
Proof.
  unfold id_after, wrap, U32_MAX. intros. destruct (Z.eqb_spec id 4294967295) as [->|].
  - reflexivity.
  - rewrite Z.mod_small; lia.
Qed.

Lemma id_seq_range n id : 1 <= id <= U32_MAX -> Forall (fun j => 1 <= j <= U32_MAX) (id_seq n id).
Proof.
  revert id. induction n as [|n IH]; intros id Hid; simpl; [done|].
  apply Forall_cons_2; [done|apply IH, id_after_range].
Qed.

Lemma id_seq_elem n id j :
  1 <= id <= U32_MAX -> Z.of_nat n <= U32_MAX -> j ∈ id_seq n id ->
  id <= j < id + Z.of_nat n \/ id <= j + U32_MAX < id + Z.of_nat n.
Proof.
  revert id. induction n as [|n IH]; intros id Hid Hn Hj; simpl in Hj; [by apply elem_of_nil in Hj|].
  apply elem_of_cons in Hj as [->|Hj]; [lia|].
  pose proof (id_after_range id). pose proof (id_after_eq id Hid) as E.
  assert (1 <= j) as Hj1.
  { pose proof (id_seq_range n (id_after id) ltac:(done)) as Hr. rewrite Forall_forall in Hr.
    apply Hr in Hj. lia. }
  apply IH in Hj; [|done|lia]. destruct (Z.eqb_spec id U32_MAX); lia.
Qed.

Lemma id_seq_NoDup n id : 1 <= id <= U32_MAX -> Z.of_nat n <= U32_MAX -> NoDup (id_seq n id).
Proof.
  revert id. induction n as [|n IH]; intros id Hid Hn; simpl; [apply NoDup_nil_2|].
  apply NoDup_cons_2; [|apply IH; [apply id_after_range|lia]].
  intros Hj. pose proof (id_after_eq id Hid) as E. apply id_seq_elem in Hj; [|apply id_after_range|lia].
  destruct (Z.eqb_spec id U32_MAX); lia.
Qed.

Lemma length_id_seq n id : length (id_seq n id) = n.
Proof. revert id. induction n as [|n IH]; intros id; simpl; [done|]. by rewrite IH. Qed.

Lemma free_id_elem fuel (r : gmap Z Z) id i : free_id fuel r id = Some i -> i ∈ id_seq fuel id.
Proof.
  revert id. induction fuel as [|n IH]; intros id; simpl; [done|]. case_match.
  - intros Hf. right. by apply IH.
  - intros [= ->]. left.
Qed.

(** the search for a stream id ends: with fewer than [u32::MAX] streams running, one more try
    than there are running streams finds an id among the ones that follow the start, and the id found
    is not in use and not the control id. *)
Theorem free_id_total (r : gmap Z Z) id :
  1 <= id <= U32_MAX -> Z.of_nat (size r) < U32_MAX ->
  exists i, free_id (S (size r)) r id = Some i /\ i ∈ id_seq (S (size r)) id /\ r !! i = None /\
    1 <= i <= U32_MAX.
Proof.
  intros Hid Hsz. destruct (free_id (S (size r)) r id) as [i|] eqn:E.
  { exists i. split; [done|]. split; [by eapply free_id_elem|]. by eapply free_id_spec. }
  exfalso. apply free_id_None in E.
  pose proof (id_seq_NoDup (S (size r)) id Hid ltac:(lia)) as Hnd.
  assert (list_to_set (id_seq (S (size r)) id) ⊆ dom r) as Hsub.
  { intros i Hi. apply elem_of_list_to_set in Hi. rewrite Forall_forall in E.
    apply elem_of_dom. by apply E. }
  apply subseteq_size in Hsub. rewrite size_list_to_set, length_id_seq, size_dom in Hsub by done. lia.
Qed.
End Inv.

Lemma free_id_total_witness :
  let r : gmap Z Z := {[ 4294967295 := 8; 1 := 9 ]} in
  exists i, free_id 3 r 4294967295 = Some i /\ i ∈ id_seq 3 4294967295 /\ r !! i = None /\
    1 <= i <= U32_MAX.
Proof.
  intros r. apply (free_id_total r 4294967295).
  - vm_compute. split; congruence.
  - vm_compute. reflexivity.
Defined.
