(* ===== verification/EngineSafety.v ===== *)
(** * EngineSafety: the forward engines, whole

    Reachable states of both engines -- every event of the loop, every step of the writer, the pumps
    and the peer, in any order -- and what holds in them. *)
From S2P Require Import Prelude Text Runtime ForwardWire FlowControl ForwardPump ForwardLink ForwardPolicy ForwardEngine EngineInv.

#[local] Open Scope Z_scope.

Section Safety.
Context {Sem : Type} `{SemaphoreLaws Sem} {Q : Type -> Type} `{QueueLaws Q}.

(** What the outside guarantees of an event: the runtime's ids of tasks not joined yet are
    different, and a frame comes from [Frame::read]. *)
Definition event_ok (ev : Event) (c : Common Sem Q) : Prop :=
  match ev with
  | EvAccept _ _ task => task ∉ tasks c
  | EvFrame _ task (Ok f) => task ∉ tasks c /\ frame_ok f
  | _ => True
  end.

Inductive init_reach (cfg : InitConfig) : Initiate Sem Q -> Prop :=
| init_reach_start : init_reach cfg (initiate_start cfg)
| init_reach_event i ev i' :
    init_reach cfg i -> event_ok ev (com i) -> initiate_event cfg ev i = Some (Go i') ->
    init_reach cfg i'
| init_reach_env i c' :
    init_reach cfg i -> env_step (com i) c' -> init_reach cfg (with_com i c').

Inductive accept_reach (cfg : AcceptConfig) : AcceptState Sem Q -> Prop :=
| accept_reach_start : accept_reach cfg (accept_start cfg)
| accept_reach_event a ev a' :
    accept_reach cfg a -> event_ok ev (acom a) -> accept_event cfg ev a = Some (Go a') ->
    accept_reach cfg a'
| accept_reach_env a c' :
    accept_reach cfg a -> env_step (acom a) c' -> accept_reach cfg (with_acom a c').

(** ** The initiate engine *)

Lemma start_inv (b : bool) w max :
  0 <= max ->
  let c := common_start w in
  common_inv max (if b then set_ctrl (ctrl_send (hello_frame (wrap 32 w)) (ctrl c)).2 c else c : Common Sem Q).
Proof.
  intros Hmax c.
  assert (common_inv max c) as Hc.
  { split; simpl; try done; rewrite ?map_size_empty, ?size_empty; try done.
    - intros t. rewrite elem_of_empty. split; [done|]. by intros [? ?].
    - unfold ctrl_bounded, CTRL_BACKLOG_CAP. simpl. rewrite q_new_items. simpl. lia. }
  destruct b; [|done]. apply set_ctrl_inv; [done|].
  destruct (ctrl_send (hello_frame (wrap 32 w)) (ctrl c)) as [ok q] eqn:E. simpl.
  unfold ctrl_send in E. simpl in E.
  destruct (q_send _ _) as [q'|] eqn:Es; injection E as <- <-; unfold ctrl_bounded, CTRL_BACKLOG_CAP; simpl.
  - apply q_send_items in Es as [-> _]. rewrite q_new_items. simpl. lia.
  - rewrite q_new_items. simpl. lia.
Qed.

Definition init_inv (cfg : InitConfig) (i : Initiate Sem Q) : Prop :=
  common_inv (i_max_streams cfg) (com i) /\ 1 <= next_id i <= U32_MAX.

Lemma lift_inv cfg (i i' : Initiate Sem Q) s :
  1 <= next_id i <= U32_MAX ->
  (forall c, s = Some (Go c) -> common_inv (i_max_streams cfg) c) ->
  lift i s = Some (Go i') -> init_inv cfg i'.
Proof.
  intros Hn Hs. unfold lift. intros (c & -> & [= <-])%then_go. split; [by apply Hs|done].
Qed.

Lemma on_accept_inv cfg stopped accepted task i i' :
  init_inv cfg i -> task ∉ tasks (com i) -> on_accept cfg stopped accepted task i = Some (Go i') ->
  init_inv cfg i'.
Proof.
  intros [Hi Hn] Ht. unfold on_accept.
  destruct (negb (accepting i || stopping i)); [done|].
  destruct accepted; cbn [negb]; [|by intros [= <-]].
  destruct stopped; [intros [= <-]; split; [by apply emit_inv|exact Hn]|].
  destruct (Z.leb_spec (i_max_streams cfg) (Z.of_nat (size (running (com i))))) as [|Hlt].
  { intros [= <-]. split; [by apply emit_inv|exact Hn]. }
  destruct (free_id _ _ _) as [id|] eqn:Ef; [|done].
  apply free_id_spec in Ef as [Hfree Hid]; [|done].
  intros (c & Ha & [= <-])%then_go. split; [|simpl; apply id_after_range]. simpl. apply emit_inv.
  set (e := {| tx := inbound_queue (peer_speaks_fc i);
               credit := if peer_speaks_fc i then Some (sem_new FC_WINDOW) else None |}) in *.
  assert (exists q, c = set_ctrl q (set_entries (<[id := e]> (entries (com i))) (com i)) /\ ctrl_bounded q)
    as (q & -> & Hq).
  { pose proof (inv_ctrl _ _ Hi) as Hb. destruct (peer_speaks_fc i).
    - unfold announce in Ha. apply then_go in Ha as (c1 & H3 & H4).
      apply send_or_end_go in H3 as (q1 & -> & H3). apply send_or_end_go in H4 as (q2 & -> & H4).
      exists q2. split; [done|].
      simpl in *. eapply ctrl_send_bounded; [|exact H4]. by eapply ctrl_send_bounded.
    - injection Ha as <-. exists (ctrl (com i)). by destruct (com i). }
  eapply (common_inv_spawn _ id task e q (com i)); try done; try (by destruct (com i)).
  apply new_entry_bounded.
Qed.

Lemma initiate_frame_inv cfg now fr i i' :
  init_inv cfg i -> initiate_frame cfg now fr i = Some (Go i') -> init_inv cfg i'.
Proof.
  intros [Hi Hn]. unfold initiate_frame. destruct fr as [f|kind]; [|by eapply lift_inv].
  assert (common_inv (i_max_streams cfg) (set_since None (com i))) as Hi' by by apply set_since_inv.
  destruct f as [id target|id p|id r].
  - intros [= <-]. by split.
  - destruct (id =? CONTROL_ID).
    + unfold initiate_control. destruct (i_fc_enabled cfg); simpl; [|by intros [= <-]; split].
      destruct (apply_control _ _ _) as [[o es] fc] eqn:Ea.
      assert (common_inv (i_max_streams cfg) (set_fc fc (set_entries es (set_since None (com i))))) as Hi2.
      { by apply (apply_control_inv _ p (set_since None (com i)) o). }
      destruct o as [|w|n|j|]; [by intros [= <-]; split| | | |done].
      * unfold initiate_hello. simpl. destruct (accepting i).
        { intros [= <-]. split; [|done]. simpl. by apply set_recv_inv, set_send_inv. }
        destruct (from_hello _) as [s|]; [|done].
        intros [= <-]. split; [|done]. simpl. by apply set_recv_inv, set_send_inv.
      * eapply lift_inv; [done|]. intros c. by apply on_swindow_inv.
      * eapply lift_inv; [done|]. intros c. by apply reset_stream_inv.
    + eapply lift_inv; [done|]. intros c. by apply on_data_inv.
  - eapply lift_inv; [done|]. intros c. by apply on_close_inv.
Qed.

Lemma initiate_event_inv cfg ev i i' :
  init_inv cfg i -> event_ok ev (com i) -> initiate_event cfg ev i = Some (Go i') -> init_inv cfg i'.
Proof.
  intros Hi Hok. pose proof Hi as [Hc Hn]. destruct ev; simpl.
  - unfold on_session_up. destruct (_ && _); [|done]. by intros [= <-].
  - unfold on_hello_deadline. destruct (hello_deadline i); [|done].
    destruct (_ && _); [|done]. by intros [= <-].
  - unfold on_stop. destruct (stopping i); [done|]. by intros [= <-].
  - by apply on_accept_inv.
  - by apply initiate_frame_inv.
  - eapply lift_inv; [done|]. intros c. by apply on_join_inv.
  - eapply lift_inv; [done|]. intros c. by apply on_flush_inv.
  - eapply lift_inv; [done|]. intros c. by apply on_dead_inv.
  - done.
Qed.

Lemma initiate_inv cfg i : 0 <= i_max_streams cfg -> init_reach cfg i -> init_inv cfg i.
Proof.
  intros Hmax Hr. induction Hr as [|i ev i' Hr IH Hok Hev|i c' Hr IH Hst].
  - split; [by apply start_inv|]. simpl. unfold U32_MAX. lia.
  - by eapply initiate_event_inv.
  - destruct IH as [Hi Hn]. split; [|done]. simpl. by eapply env_step_inv.
Qed.

(** C2: in every state the initiate engine can reach, whatever the peer sends and however its
    pumps behave: no more than [max_streams] pumps run; every id in use is a [u32] other than the
    control id and belongs to one task; every entry has a running pump; announced streams,
    unwritten control frames and the bytes or messages held for each stream stay under their
    caps ([MAX_PENDING_FC], [CTRL_BACKLOG_CAP], [FC_WINDOW] or [CHANNEL_CAP]). *)
Theorem initiate_engine_safe cfg i :
  0 <= i_max_streams cfg -> init_reach cfg i ->
  common_inv (i_max_streams cfg) (com i) /\ 1 <= next_id i <= U32_MAX.
Proof.
  intros Hmax Hr. exact (initiate_inv cfg i Hmax Hr).
Qed.

(** ** The accept engine *)

Lemma alift_inv (max : Z) (a a' : AcceptState Sem Q) s :
  (forall c, s = Some (Go c) -> common_inv max c) ->
  alift a s = Some (Go a') -> common_inv max (acom a').
Proof. intros Hs. unfold alift. intros (c & -> & [= <-])%then_go. by apply Hs. Qed.

Lemma on_open_inv cfg task id target (a a' : AcceptState Sem Q) :
  common_inv (a_max_streams cfg) (acom a) -> task ∉ tasks (acom a) -> 0 <= id <= U32_MAX ->
  on_open cfg task id target a = Some (Go a') -> common_inv (a_max_streams cfg) (acom a').
Proof.
  intros Hi Ht Hid. unfold on_open.
  destruct (Z.eqb_spec id CONTROL_ID) as [|Hne]; simpl; [done|].
  case_bool_decide as He; simpl; [done|].
  case_bool_decide as Hr; simpl; [done|].
  assert (common_inv (a_max_streams cfg) (set_fc (pending_fc (acom a) ∖ {[id]}) (acom a))) as Hi'.
  { apply set_fc_inv; [done|]. apply fc_remove_bounded. exact (inv_fc _ _ Hi). }
  destruct (Z.leb_spec (a_max_streams cfg) (Z.of_nat (size (running (acom a))))) as [|Hlt].
  { apply alift_inv. intros c. by apply send_or_end_inv. }
  destruct (accept_forward_request_with _ _ _) as [[[]|reason] ev].
  - intros [= <-]. simpl. apply emit_inv.
    eapply (common_inv_spawn _ id task _ (ctrl (acom a)) (set_fc (pending_fc (acom a) ∖ {[id]}) (acom a)));
      try done.
    + by apply eq_None_not_Some.
    + unfold CONTROL_ID in Hne. lia.
    + apply new_entry_bounded.
    + exact (inv_ctrl _ _ Hi).
  - apply alift_inv. intros c. apply send_or_end_inv.
    destruct ev as [[t r]|]; [by apply emit_inv|done].
Qed.

Lemma accept_frame_inv cfg now task fr (a a' : AcceptState Sem Q) :
  common_inv (a_max_streams cfg) (acom a) ->
  event_ok (EvFrame now task fr) (acom a) ->
  accept_frame cfg now task fr a = Some (Go a') -> common_inv (a_max_streams cfg) (acom a').
Proof.
  intros Hi. unfold accept_frame. destruct fr as [f|kind]; simpl; [|done].
  intros [Ht [Hid _]].
  assert (common_inv (a_max_streams cfg) (set_since None (acom a))) as Hi' by by apply set_since_inv.
  destruct f as [id target|id p|id r].
  - by apply on_open_inv.
  - destruct (id =? CONTROL_ID).
    + unfold accept_control. destruct (a_fc_enabled cfg); simpl; [|by intros [= <-]].
      destruct (apply_control _ _ _) as [[o es] fc] eqn:Ea.
      assert (common_inv (a_max_streams cfg) (set_fc fc (set_entries es (set_since None (acom a))))) as Hi2.
      { by apply (apply_control_inv _ p (set_since None (acom a)) o). }
      destruct o as [|w|n|j|]; [by intros [= <-]| | | |done].
      * unfold accept_hello. simpl. destruct (opened a).
        { intros [= <-]. simpl. by apply set_recv_inv. }
        destruct (from_hello _) as [s|]; [|done].
        intros [= <-]. simpl. by apply set_send_inv, set_recv_inv.
      * apply alift_inv. intros c. by apply on_swindow_inv.
      * apply alift_inv. intros c. by apply reset_stream_inv.
    + apply alift_inv. intros c. by apply on_data_inv.
  - apply alift_inv. intros c. by apply on_close_inv.
Qed.

Lemma accept_event_inv cfg ev (a a' : AcceptState Sem Q) :
  common_inv (a_max_streams cfg) (acom a) -> event_ok ev (acom a) ->
  accept_event cfg ev a = Some (Go a') -> common_inv (a_max_streams cfg) (acom a').
Proof.
  intros Hi Hok. destruct ev; simpl; try done.
  - by apply accept_frame_inv.
  - apply alift_inv. intros c. by apply on_join_inv.
  - apply alift_inv. intros c. by apply on_flush_inv.
  - apply alift_inv. intros c. by apply on_dead_inv.
Qed.

(** *** Nothing is dialed without consent *)

Definition dialed (l : list (Effect Sem Q)) : list string :=
  omap (fun e => match e with Dialed _ t _ => Some t | _ => None end) l.

Definition same_dials (c : Common Sem Q) (s : option (Step (Common Sem Q))) : Prop :=
  match s with
  | Some (Go c') | Some (Stop c' _) => dialed (log c') = dialed (log c)
  | None => True
  end.

Lemma dialed_emit x (c : Common Sem Q) :
  match x with Dialed _ _ _ => False | _ => True end -> dialed (log (emit x c)) = dialed (log c).
Proof.
  intros Hx. unfold dialed. simpl. rewrite omap_app. destruct x; try done; simpl; by rewrite app_nil_r.
Qed.

Lemma send_or_end_dials f c : same_dials c (send_or_end f c).
Proof. unfold send_or_end. destruct (ctrl_send f (ctrl c)) as [[|] q]; [done|].
  exact (dialed_emit AbortedAll (set_ctrl q c) I). Qed.

Lemma remove_with_dials id m c c' : remove_with id m c = Some c' -> dialed (log c') = dialed (log c).
Proof.
  unfold remove_with. destruct (entries c !! id) as [e|]; [|by intros [= <-]].
  destruct (notify m (finish e)); [|done]. intros [= <-]. by rewrite dialed_emit.
Qed.

Lemma reset_stream_dials id c : same_dials c (reset_stream id c).
Proof.
  unfold reset_stream. destruct (remove_with id SAborted c) as [c1|] eqn:E; [|done].
  apply remove_with_dials in E. pose proof (send_or_end_dials (abort_frame id) c1) as Hd.
  unfold same_dials in *. destruct (send_or_end _ c1) as [[?|? ?]|]; congruence.
Qed.

Lemma acknowledge_read_dials now n c : same_dials c (acknowledge_read now n c).
Proof. unfold acknowledge_read. destruct (received _ _ _) as [r [f|]]; [apply (send_or_end_dials f (set_recv r c))|done]. Qed.

Lemma on_data_dials now id p c : same_dials c (on_data now id p c).
Proof.
  unfold on_data. pose proof (acknowledge_read_dials now (Zlen p) c) as Ha.
  destruct (acknowledge_read _ _ c) as [[c1|c1 w]|]; simpl in *; [|done|done].
  unfold deliver_data. destruct (entries c1 !! id) as [e|]; [|done].
  destruct (deliver p e) as [[e' ok]|]; [|done]. destruct ok; [done|].
  pose proof (reset_stream_dials id (set_entries (<[id := e']> (entries c1)) c1)) as Hr.
  unfold same_dials in *. destruct (reset_stream _ _) as [[?|? ?]|]; simpl in *; congruence.
Qed.

Lemma on_close_dials id r c : same_dials c (on_close id r c).
Proof.
  unfold on_close. destruct r as [r|]; simpl.
  - destruct (remove_with _ _ _) as [c1|] eqn:E; [|done]. by apply remove_with_dials in E.
  - destruct (entries c !! id) as [e|]; [|done]. by destruct (notify SClosed e).
Qed.

Lemma on_swindow_dials n c : same_dials c (on_swindow n c).
Proof.
  unfold on_swindow. destruct (session_send c) as [s|]; [|done].
  destruct (acknowledge n s); [done|].
  exact (dialed_emit AbortedAll c I).
Qed.

Lemma on_join_dials t c : same_dials c (on_join t c).
Proof.
  unfold on_join. case_bool_decide; [done|]. simpl.
  destruct (finished_stream_id _ _) as [[id r]|]; [|done].
  destruct (entries c !! id) as [e|]; [|done]. unfold same_dials. by rewrite dialed_emit.
Qed.

Lemma alift_dials (a a' : AcceptState Sem Q) s :
  same_dials (acom a) s -> alift a s = Some (Go a') -> dialed (log (acom a')) = dialed (log (acom a)).
Proof. intros Hs. unfold alift. intros (c & -> & [= <-])%then_go. done. Qed.

(** A dial only happens for an [Open] that is not in use, under the stream limit, whose target
    the policy accepts. *)
Lemma accept_event_dials cfg ev (a a' : AcceptState Sem Q) :
  accept_event cfg ev a = Some (Go a') ->
  dialed (log (acom a')) = dialed (log (acom a)) \/
  exists target, dialed (log (acom a')) = dialed (log (acom a)) ++ [target] /\
    (accept_forward_request_with target (allow_raw cfg) (non_loopback_raw cfg)).1 = Ok tt.
Proof.
  destruct ev as [| | | |now task fr|t|now|now|]; simpl; try done.
  - unfold accept_frame. destruct fr as [[id target|id p|id r]|kind]; [| | |done].
    + unfold on_open. simpl. destruct (_ || _ || _); [done|].
      destruct (_ <=? _); [intros E; left; by eapply alift_dials in E; [|apply send_or_end_dials]|].
      destruct (accept_forward_request_with _ _ _) as [[[]|reason] ev] eqn:Ea.
      * intros [= <-]. right. exists target. rewrite Ea. split; [|done].
        unfold dialed. simpl. by rewrite omap_app.
      * intros E. left. unfold alift in E. apply then_go in E as (c & Es & [= <-]). simpl.
        match type of Es with send_or_end ?f ?c0 = _ => pose proof (send_or_end_dials f c0) as Hd end.
        rewrite Es in Hd. simpl in Hd. rewrite Hd. destruct ev as [[t r]|]; [by rewrite dialed_emit|done].
    + destruct (id =? CONTROL_ID); [|intros E; left; by eapply alift_dials in E; [|apply on_data_dials]].
      unfold accept_control. destruct (a_fc_enabled cfg); simpl; [|by intros [= <-]; left].
      destruct (apply_control _ _ _) as [[o es] fc].
      destruct o as [|w|n|j|]; [by intros [= <-]; left| | | |done].
      * unfold accept_hello. simpl. destruct (opened a); [by intros [= <-]; left|].
        destruct (from_hello _) as [s|]; [|done]. by intros [= <-]; left.
      * intros E. left. by eapply alift_dials in E; [|apply on_swindow_dials].
      * intros E. left. by eapply alift_dials in E; [|apply reset_stream_dials].
    + intros E. left. by eapply alift_dials in E; [|apply on_close_dials].
  - intros E. left. by eapply alift_dials in E; [|apply on_join_dials].
  - intros E. left. eapply alift_dials in E; [done|]. unfold on_flush_due.
    destruct (flush_at _); [|done]. destruct (_ <=? now); [|done].
    destruct (flush _) as [r [f|]]; [apply (send_or_end_dials f (set_recv r (acom a)))|done].
  - intros E. left. eapply alift_dials in E; [done|]. unfold on_dead_tick.
    destruct (session_send _); [|done]. destruct (session_is_dead _ _ _) as [[|] since]; [|done].
    unfold same_dials, end_session. by rewrite dialed_emit.
Qed.

(** C1: in every state the accept engine can reach, whatever the peer sends: the same bounds hold as
    on the initiate side, and every target that was ever dialed is one the policy accepts -- the
    allowlist names it, and it is loopback or the second grant was given. *)
Theorem accept_engine_safe cfg (a : AcceptState Sem Q) :
  0 <= a_max_streams cfg -> accept_reach cfg a ->
  common_inv (a_max_streams cfg) (acom a) /\
  Forall (fun t => (accept_forward_request_with t (allow_raw cfg) (non_loopback_raw cfg)).1 = Ok tt)
         (dialed (log (acom a))).
Proof.
  intros Hmax Hr. induction Hr as [|a ev a' Hr IH Hok Hev|a c' Hr IH Hst].
  - split; [by apply start_inv|]. simpl. by destruct (a_fc_enabled cfg).
  - destruct IH as [Hi Hd]. split; [by eapply accept_event_inv|].
    destruct (accept_event_dials _ _ _ _ Hev) as [-> |(t & -> & Ht)]; [done|].
    apply Forall_app. split; [done|]. apply Forall_cons_2; [done|apply Forall_nil_2].
  - destruct IH as [Hi Hd]. split; [by eapply env_step_inv|]. simpl.
    assert (log c' = log (acom a)) as -> by by destruct Hst. done.
Qed.

(** ** A new local connection *)

(** what one accepted connection does to the initiate engine.  While the process is shutting
    down, at the stream limit, or when [accept] failed, nothing changes but the closed
    connection; otherwise one new stream runs, under an id no running stream has, and a credited
    stream's announcement and its Open -- in this order, with nothing between them -- are what was
    added to the control queue. *)
Theorem accept_connection_exact cfg stopped accepted task i i' :
  init_inv cfg i -> on_accept cfg stopped accepted task i = Some (Go i') ->
  (running (com i') = running (com i) /\ entries (com i') = entries (com i) /\
   q_items (ctrl_q (ctrl (com i'))) = q_items (ctrl_q (ctrl (com i))) /\
   (accepted = false \/ stopped = true \/ i_max_streams cfg <= Z.of_nat (size (running (com i))))) \/
  (exists id, stopped = false /\ running (com i) !! id = None /\ 1 <= id <= U32_MAX /\
    running (com i') = <[id := task]> (running (com i)) /\
    is_Some (entries (com i') !! id) /\
    q_items (ctrl_q (ctrl (com i'))) =
      q_items (ctrl_q (ctrl (com i))) ++
        (if peer_speaks_fc i then [fc_on_frame id; Open id (i_target cfg)] else [])).
Proof.
  intros [Hi Hn]. unfold on_accept.
  destruct (negb (accepting i || stopping i)); [done|].
  destruct accepted; cbn [negb]; [|by intros [= <-]; left; auto].
  destruct stopped; [intros [= <-]; left; split_and!; simpl; auto|].
  destruct (Z.leb_spec (i_max_streams cfg) (Z.of_nat (size (running (com i))))) as [|Hlt].
  { intros [= <-]; left; split_and!; simpl; auto. }
  destruct (free_id _ _ _) as [id|] eqn:Ef; [|done].
  apply free_id_spec in Ef as [Hfree Hid]; [|done].
  intros (c & Ha & [= <-])%then_go. right. exists id. simpl.
  destruct (peer_speaks_fc i).
  - unfold announce in Ha. apply then_go in Ha as (c1 & H3 & H4).
    apply send_or_end_go in H3 as (q1 & -> & H3). apply send_or_end_go in H4 as (q2 & -> & H4).
    apply ctrl_send_true in H3 as (E3 & _ & _). apply ctrl_send_true in H4 as (E4 & _ & _).
    simpl in *. rewrite lookup_insert_eq, E4, E3, <-app_assoc. eauto 10.
  - injection Ha as <-. simpl. rewrite lookup_insert_eq, app_nil_r. eauto 10.
Qed.

(** ** The engines count the session window like [ForwardLink] *)

Lemma send_or_end_recv f (c c' : Common Sem Q) :
  send_or_end f c = Some (Go c') -> session_recv c' = session_recv c.
Proof. by intros (q & -> & _)%send_or_end_go. Qed.

Lemma reset_stream_recv id (c c' : Common Sem Q) :
  reset_stream id c = Some (Go c') -> session_recv c' = session_recv c.
Proof.
  unfold reset_stream, remove_with. destruct (entries c !! id) as [e|].
  - destruct (notify SAborted (finish e)); [|done]. by intros ->%send_or_end_recv.
  - by intros ->%send_or_end_recv.
Qed.

Lemma on_data_recv now id p (c c' : Common Sem Q) :
  on_data now id p c = Some (Go c') -> session_recv c' = (received now (Zlen p) (session_recv c)).1.
Proof.
  unfold on_data. intros (c1 & Ha & Hd)%then_go.
  assert (session_recv c1 = (received now (Zlen p) (session_recv c)).1) as Hr.
  { unfold acknowledge_read in Ha. destruct (received _ _ _) as [r [f|]]; simpl.
    - by apply send_or_end_recv in Ha.
    - by injection Ha as <-. }
  rewrite <-Hr. unfold deliver_data in Hd. destruct (entries c1 !! id) as [e|]; [|by injection Hd as <-].
  destruct (deliver p e) as [[e' ok]|]; [|done].
  destruct ok; [by injection Hd as <-|by apply reset_stream_recv in Hd].
Qed.

Lemma on_close_recv id r (c c' : Common Sem Q) :
  on_close id r c = Some (Go c') -> session_recv c' = session_recv c.
Proof.
  unfold on_close, remove_with. destruct r as [r|]; simpl; destruct (entries c !! id) as [e|]; simpl.
  - destruct (notify SAborted (finish e)); [|done]. by intros [= <-].
  - by intros [= <-].
  - destruct (notify SClosed e); [|done]. by intros [= <-].
  - by intros [= <-].
Qed.

Lemma on_swindow_recv n (c c' : Common Sem Q) :
  on_swindow n c = Some (Go c') -> session_recv c' = session_recv c.
Proof.
  unfold on_swindow. destruct (session_send c) as [s|]; [|by intros [= <-]].
  destruct (acknowledge n s); [|done]. by intros [= <-].
Qed.

Lemma lift_recv (i i' : Initiate Sem Q) s r :
  (forall c, s = Some (Go c) -> session_recv c = r) -> lift i s = Some (Go i') ->
  session_recv (com i') = r.
Proof. intros Hs. unfold lift. intros (c & Hc & [= <-])%then_go. by apply Hs. Qed.

Lemma alift_recv (a a' : AcceptState Sem Q) s r :
  (forall c, s = Some (Go c) -> session_recv c = r) -> alift a s = Some (Go a') ->
  session_recv (acom a') = r.
Proof. intros Hs. unfold alift. intros (c & Hc & [= <-])%then_go. by apply Hs. Qed.

(** The control messages but HELLO leave the receive side alone. *)
Lemma grant_window_outcome id n (es : gmap Z (StreamEntry Sem Q)) o es' :
  grant_window id n es = (o, es') -> o = CNone \/ o = CResetStream id.
Proof. unfold grant_window. intros. repeat case_match; simplify_eq; auto. Qed.

Lemma initiate_control_recv cfg p i i' :
  i_fc_enabled cfg = true -> initiate_control cfg p i = Some (Go i') ->
  session_recv (com i') =
    match parse_control p with
    | Some (Hello w) => set_on (bool_decide (is_Some w)) (session_recv (com i))
    | _ => session_recv (com i)
    end.
Proof.
  intros Hf. unfold initiate_control. rewrite Hf. simpl. unfold apply_control.
  destruct (parse_control p) as [[w|j n|j|n]|]; simpl.
  - unfold initiate_hello. simpl. destruct (accepting i); [by intros [= <-]|].
    destruct (from_hello _); [by intros [= <-]|done].
  - destruct (grant_window _ _ _) as [o es] eqn:Eg.
    apply grant_window_outcome in Eg as [-> | ->]; [by intros [= <-]|].
    apply lift_recv. intros c Hc. by apply reset_stream_recv in Hc.
  - destruct (_ <=? _); simpl; [done|by intros [= <-]].
  - apply lift_recv. intros c Hc. by apply on_swindow_recv in Hc.
  - by intros [= <-].
Qed.

Lemma accept_control_recv cfg p a a' :
  a_fc_enabled cfg = true -> accept_control cfg p a = Some (Go a') ->
  session_recv (acom a') =
    match parse_control p with
    | Some (Hello w) => set_on (bool_decide (is_Some w)) (session_recv (acom a))
    | _ => session_recv (acom a)
    end.
Proof.
  intros Hf. unfold accept_control. rewrite Hf. simpl. unfold apply_control.
  destruct (parse_control p) as [[w|j n|j|n]|]; simpl.
  - unfold accept_hello. simpl. destruct (opened a); [by intros [= <-]|].
    destruct (from_hello _); [by intros [= <-]|done].
  - destruct (grant_window _ _ _) as [o es] eqn:Eg.
    apply grant_window_outcome in Eg as [-> | ->]; [by intros [= <-]|].
    apply alift_recv. intros c Hc. by apply reset_stream_recv in Hc.
  - destruct (_ <=? _); simpl; [done|by intros [= <-]].
  - apply alift_recv. intros c Hc. by apply on_swindow_recv in Hc.
  - by intros [= <-].
Qed.

Lemma on_open_recv cfg task id t a a' :
  on_open cfg task id t a = Some (Go a') -> session_recv (acom a') = session_recv (acom a).
Proof.
  unfold on_open. destruct (_ || _ || _); [done|]. destruct (_ <=? _).
  { apply alift_recv. intros c Hc. by apply send_or_end_recv in Hc. }
  destruct (accept_forward_request_with _ _ _) as [[[]|reason] ev]; [by intros [= <-]|].
  apply alift_recv. intros c Hc. apply send_or_end_recv in Hc. rewrite Hc.
  by destruct ev as [[? ?]|].
Qed.

Lemma recv_frame_control now p r :
  (recv_frame now (Data CONTROL_ID p) r).1 =
    match parse_control p with
    | Some (Hello w) => set_on (bool_decide (is_Some w)) r
    | _ => r
    end.
Proof. simpl. by destruct (parse_control p) as [[]|]. Qed.

(** An engine's receive side of the session window made the step of the link's receiver. *)
Definition counts_like_link (now : Z) (f : Frame) (c c' : Common Sem Q) : Prop :=
  session_recv c' = (recv_frame now f (session_recv c)).1.

(** with flow control on, both engines count the session window exactly as the receiver of
    [ForwardLink] does, whatever the frame: the theorems about the two ends together are about
    these engines. *)
Theorem engines_count_like_link icfg acfg now task f i i' a a' :
  i_fc_enabled icfg = true -> a_fc_enabled acfg = true ->
  initiate_frame icfg now (Ok f) i = Some (Go i') ->
  accept_frame acfg now task (Ok f) a = Some (Go a') ->
  counts_like_link now f (com i) (com i') /\ counts_like_link now f (acom a) (acom a').
Proof.
  intros Hfi Hfa Hi Ha. unfold counts_like_link. unfold initiate_frame in Hi. unfold accept_frame in Ha.
  destruct f as [id t|id p|id r].
  - split; [by injection Hi as <-|]. by apply on_open_recv in Ha.
  - destruct (Z.eqb_spec id CONTROL_ID) as [->|Hne].
    + rewrite !recv_frame_control. split.
      * by apply initiate_control_recv in Hi.
      * by apply accept_control_recv in Ha.
    + unfold recv_frame. rewrite (proj2 (Z.eqb_neq _ _) Hne). split.
      * revert Hi. apply lift_recv. intros c Hc. by apply on_data_recv in Hc.
      * revert Ha. apply alift_recv. intros c Hc. by apply on_data_recv in Hc.
  - split.
    + revert Hi. apply lift_recv. intros c Hc. by apply on_close_recv in Hc.
    + revert Ha. apply alift_recv. intros c Hc. by apply on_close_recv in Hc.
Qed.

(** ** Running the engines on concrete events *)

Definition event_frame_ok (ev : Event) : Prop :=
  match ev with EvFrame _ _ (Ok f) => frame_ok f | _ => True end.
Definition event_task (ev : Event) : option Z :=
  match ev with EvAccept _ _ t => Some t | EvFrame _ t (Ok _) => Some t | _ => None end.
Definition task_fresh (ev : Event) (c : Common Sem Q) : bool :=
  match event_task ev with Some t => bool_decide (t ∉ tasks c) | None => true end.

Fixpoint run_initiate (cfg : InitConfig) (evs : list Event) (i : Initiate Sem Q) : option (Initiate Sem Q) :=
  match evs with
  | [] => Some i
  | ev :: evs =>
      if task_fresh ev (com i) then
        match initiate_event cfg ev i with
        | Some (Go i) => run_initiate cfg evs i
        | _ => None
        end
      else None
  end.
Fixpoint run_accept (cfg : AcceptConfig) (evs : list Event) (a : AcceptState Sem Q) : option (AcceptState Sem Q) :=
  match evs with
  | [] => Some a
  | ev :: evs =>
      if task_fresh ev (acom a) then
        match accept_event cfg ev a with
        | Some (Go a) => run_accept cfg evs a
        | _ => None
        end
      else None
  end.

Lemma task_fresh_ok ev c : event_frame_ok ev -> task_fresh ev c = true -> event_ok ev c.
Proof.
  unfold event_ok, event_frame_ok, task_fresh, event_task. destruct ev as [| | |? ? t|? t [f|]| | | |]; try done.
  - intros _ Ht. by apply bool_decide_eq_true in Ht.
  - intros Hf Ht. by apply bool_decide_eq_true in Ht.
Qed.

Lemma run_initiate_reach cfg evs i i' :
  Forall event_frame_ok evs -> run_initiate cfg evs i = Some i' -> init_reach cfg i -> init_reach cfg i'.
Proof.
  intros Hf. revert i. induction Hf as [|ev evs Hev Hf IH]; intros i; simpl; [by intros [= <-]|].
  destruct (task_fresh ev (com i)) eqn:Et; [|done].
  destruct (initiate_event cfg ev i) as [[i1|i1 w]|] eqn:E; try done. intros Hr Hi.
  apply (IH i1); [done|]. eapply init_reach_event; [done| |done]. by apply task_fresh_ok.
Qed.

Lemma run_accept_reach cfg evs a a' :
  Forall event_frame_ok evs -> run_accept cfg evs a = Some a' -> accept_reach cfg a -> accept_reach cfg a'.
Proof.
  intros Hf. revert a. induction Hf as [|ev evs Hev Hf IH]; intros a; simpl; [by intros [= <-]|].
  destruct (task_fresh ev (acom a)) eqn:Et; [|done].
  destruct (accept_event cfg ev a) as [[a1|a1 w]|] eqn:E; try done. intros Hr Ha.
  apply (IH a1); [done|]. eapply accept_reach_event; [done| |done]. by apply task_fresh_ok.
Qed.
End Safety.

Definition demo_icfg : InitConfig :=
  {| i_fc_enabled := true; i_window := 262144; i_max_streams := 2; i_target := "127.0.0.1:22" |}.
Definition demo_acfg : AcceptConfig :=
  {| a_fc_enabled := true; a_window := 262144; a_max_streams := 2;
     allow_raw := Some "127.0.0.1:22"%string; non_loopback_raw := None |}.

(** The session comes up, the peer's HELLO arrives, two connections are taken, a third is over the
    limit; on the other side an allowed and a refused Open. *)
Definition demo_events : list Event :=
  [EvSessionUp 0; EvFrame 5 100 (Ok (hello_frame 262144)); EvAccept false true 1;
   EvAccept false true 2; EvAccept false true 3].
Definition demo_accept_events : list Event :=
  [EvFrame 5 100 (Ok (hello_frame 262144)); EvFrame 6 1 (Ok (fc_on_frame 1));
   EvFrame 7 1 (Ok (Open 1 "127.0.0.1:22")); EvFrame 8 2 (Ok (Open 2 "10.0.0.1:22"))].

Definition demo_initiate (n : nat) : Initiate RefSem RefQueue :=
  default (initiate_start demo_icfg)
    (run_initiate demo_icfg (take n demo_events) (initiate_start demo_icfg)).
Definition demo_accept (n : nat) : AcceptState RefSem RefQueue :=
  default (accept_start demo_acfg)
    (run_accept demo_acfg (take n demo_accept_events) (accept_start demo_acfg)).

Lemma demo_initiate_reach n : init_reach demo_icfg (demo_initiate n).
Proof.
  unfold demo_initiate. destruct (run_initiate _ _ _) as [i|] eqn:E; simpl.
  - eapply run_initiate_reach; [|exact E|apply init_reach_start]. apply Forall_take.
    repeat apply Forall_cons_2; try done.
  - apply init_reach_start.
Qed.

Lemma demo_accept_reach n : accept_reach demo_acfg (demo_accept n).
Proof.
  unfold demo_accept. destruct (run_accept _ _ _) as [i|] eqn:E; simpl.
  - eapply run_accept_reach; [|exact E|apply accept_reach_start]. apply Forall_take.
    repeat apply Forall_cons_2; [..|apply Forall_nil_2]; vm_compute; repeat split; congruence.
  - apply accept_reach_start.
Qed.

Lemma initiate_engine_safe_witness :
  size (running (com (demo_initiate 5))) = 2%nat /\
  Z.of_nat (size (running (com (demo_initiate 5)))) <= 2.
Proof.
  split; [vm_compute; reflexivity|].
  exact (inv_count _ _ (proj1 (initiate_engine_safe demo_icfg (demo_initiate 5)
    ltac:(vm_compute; congruence) (demo_initiate_reach 5)))).
Defined.

Lemma accept_engine_safe_witness :
  dialed (log (acom (demo_accept 4))) = ["127.0.0.1:22"%string] /\
  Forall (fun t => (accept_forward_request_with t (Some "127.0.0.1:22"%string) None).1 = Ok tt)
    (dialed (log (acom (demo_accept 4)))).
Proof.
  split; [vm_compute; reflexivity|].
  exact (proj2 (accept_engine_safe demo_acfg (demo_accept 4) ltac:(vm_compute; congruence)
    (demo_accept_reach 4))).
Defined.

Lemma accept_connection_exact_witness :
  on_accept demo_icfg false true 1 (demo_initiate 2) = Some (Go (demo_initiate 3)) /\
  exists id, running (com (demo_initiate 2)) !! id = None /\
    q_items (ctrl_q (ctrl (com (demo_initiate 3)))) =
      q_items (ctrl_q (ctrl (com (demo_initiate 2)))) ++ [fc_on_frame id; Open id "127.0.0.1:22"].
Proof.
  assert (on_accept demo_icfg false true 1 (demo_initiate 2) = Some (Go (demo_initiate 3))) as H
    by (vm_compute; reflexivity).
  split; [exact H|].
  assert (init_inv demo_icfg (demo_initiate 2)) as Hi.
  { apply initiate_inv; [vm_compute; congruence|apply demo_initiate_reach]. }
  destruct (accept_connection_exact demo_icfg false true 1 _ _ Hi H) as [(_ & _ & _ & Hn)|(id & _ & Hr & _ & _ & _ & Hq)].
  - exfalso. destruct Hn as [Hn|[Hn|Hn]]; [discriminate Hn|discriminate Hn|].
    vm_compute in Hn. by apply Hn.
  - exists id. split; [exact Hr|]. exact Hq.
Defined.

Lemma engines_count_like_link_witness :
  session_recv (com (demo_initiate 2)) = set_on true (session_recv (com (demo_initiate 1))) /\
  session_recv (acom (demo_accept 1)) = set_on true (session_recv (acom (demo_accept 0))).
Proof.
  assert (initiate_frame demo_icfg 5 (Ok (hello_frame 262144)) (demo_initiate 1)
            = Some (Go (demo_initiate 2))) as Hi by (vm_compute; reflexivity).
  assert (accept_frame demo_acfg 5 100 (Ok (hello_frame 262144)) (demo_accept 0)
            = Some (Go (demo_accept 1))) as Ha by (vm_compute; reflexivity).
  exact (engines_count_like_link demo_icfg demo_acfg 5 100 (hello_frame 262144)
    _ _ _ _ eq_refl eq_refl Hi Ha).
Defined.
