(* ===== verification/Retry.v ===== *)
(** * Retry: backoffs and the admission errors they react to

    [reconnect.rs] and [channel_run/errors.rs].  A [Duration] is its nanoseconds.  The jitter
    multiplies a duration by a random [f64]; [Jitter] states what its users need of that product. *)
From S2P Require Import Prelude Text FlowControl.

#[local] Open Scope Z_scope.

(** ** Durations *)

Definition DURATION_MAX : Z := 2 ^ 64 * SECOND - 1.

Definition checked_mul (d n : Z) : option Z := if d * n <=? DURATION_MAX then Some (d * n) else None.
Definition saturating_mul (d n : Z) : Z := Z.min DURATION_MAX (d * n).
(** [1u32.checked_shl(s).unwrap_or(u32::MAX)]. *)
Definition shl_u32 (s : Z) : Z := if s <? 32 then 2 ^ s else U32_MAX.

(** [d.mul_f64(r.clamp(0.0, 1.0))]: the sample is a parameter, and for durations whose nanoseconds a
    [f64] holds exactly the product stays between zero and the duration. *)
Class Jitter (F : Type) := { mul_unit : Z -> F -> Z }.
Class JitterLaws (F : Type) `{Jitter F} :=
  mul_unit_range d r : 0 <= d <= 2 ^ 50 -> 0 <= mul_unit d r <= d.

(** Samples as multiples of 1/2^53, rounded down. *)
#[global] Instance jitter_ratio : Jitter Z :=
  { mul_unit d r := d * Z.max 0 (Z.min r (2 ^ 53)) / 2 ^ 53 }.
#[global] Instance jitter_ratio_laws : JitterLaws Z.
Proof.
  intros d r Hd. unfold mul_unit, jitter_ratio. split.
  - apply Z.div_pos; nia.
  - apply Z.div_le_upper_bound; nia.
Qed.

Section Backoff.
Context {F : Type} `{JitterLaws F}.

Definition equal_jitter (d : Z) (rand01 : F) : Z :=
  let half := d / 2 in
  let span := d - half in
  half + mul_unit span rand01.

Record Backoff := { base : Z; max : Z; max_attempts : Z; attempt : Z }.

Definition new_backoff (b m n : Z) : Backoff :=
  {| base := b; max := m; max_attempts := n; attempt := 0 |}.

Definition next_delay (s : Backoff) : option Z * Backoff :=
  if max_attempts s <=? attempt s then (None, s)
  else
    let shift := Z.min (attempt s) 31 in
    let delay := Z.min (default (max s) (checked_mul (base s) (2 ^ shift))) (max s) in
    (Some delay, {| base := base s; max := max s; max_attempts := max_attempts s;
                    attempt := attempt s + 1 |}).

Definition next_delay_jittered (rand01 : F) (s : Backoff) : option Z * Backoff :=
  let '(d, s) := next_delay s in
  ((fun d => equal_jitter d rand01) <$> d, s).

Definition reset (s : Backoff) : Backoff :=
  {| base := base s; max := max s; max_attempts := max_attempts s; attempt := 0 |}.

Inductive Retry := After (d : Z) | GiveUp.

Definition after_failure (rand01 : F) (s : Backoff) : Retry * Backoff :=
  let '(d, s) := next_delay_jittered rand01 s in
  (match d with Some d => After d | None => GiveUp end, s).
Definition after_success (s : Backoff) : Backoff := reset s.
Definition failures_since_success (s : Backoff) : Z := attempt s.

(** *** Admission backoffs *)

Definition REFUSED_ADMISSION_BACKOFF_CAP : Z := 30 * SECOND.
Definition FLAPPING_SESSION_THRESHOLD : Z := 500 * MILLI.
Definition FLAPPING_SESSION_BACKOFF_CAP : Z := 10 * SECOND.
Definition HANDSHAKE_EOF_BACKOFF_CAP : Z := 10 * SECOND.
Definition TRANSIENT_ADMISSION_BACKOFF_CAP : Z := 10 * SECOND.

Definition is_flapping_session (elapsed : Z) (errored : bool) : bool :=
  errored && (elapsed <? FLAPPING_SESSION_THRESHOLD).

Definition flapping_session_backoff (retry_backoff consecutive_flaps : Z) : Z :=
  let shift := Z.min consecutive_flaps 16 in
  Z.min (saturating_mul retry_backoff (shl_u32 shift)) FLAPPING_SESSION_BACKOFF_CAP.

Definition handshake_eof_backoff (retry_backoff consecutive_eofs : Z) : Z :=
  let shift := Z.min consecutive_eofs 16 in
  Z.min (saturating_mul retry_backoff (shl_u32 shift)) HANDSHAKE_EOF_BACKOFF_CAP.

Definition transient_admission_backoff (retry_backoff consecutive : Z) : Z :=
  let shift := Z.min (sat_sub consecutive 1) 16 in
  Z.min (saturating_mul retry_backoff (shl_u32 shift)) TRANSIENT_ADMISSION_BACKOFF_CAP.

Definition admission_retry_backoff (retry_backoff : Z) (refused : bool) (consecutive_refusals : Z) : Z :=
  if negb refused then retry_backoff
  else
    let shift := Z.min consecutive_refusals 16 in
    Z.min (saturating_mul retry_backoff (shl_u32 shift)) REFUSED_ADMISSION_BACKOFF_CAP.

(** [base.mul_f64(2.0 * r)] with [r] clamped: twice the unit product. *)
Definition ex_repark_delay (b : Z) (rand01 : F) : Z := b / 2 + mul_unit (2 * b) rand01.
End Backoff.

(** ** Admission errors

    An error value is the chain its [source()] walks, outermost first; each layer has its concrete
    type and its own text. *)
Inductive ErrorNode :=
| AdmissionRefused (text : string) (category : option string)
| ParkExpired (text : string)
| OwnGrantEnded (reason : string)
| IoError (kind : string) (inner : option string)
    (* an [io::Error]: its kind, and the reason of an [OwnGrantEnded] it carries *)
| ConnectFailed
| DialFailed
| PeerNotPinned (peer_holder : list byte) (why : string)
| OtherError.

Record BoxError := { text : string; chain : list ErrorNode }.

Definition GRANT_REVOKED_CATEGORY : string := "grant-revoked".
Definition GRANT_VERIFY_CATEGORY : string := "grant-verify".
Definition OWN_GRANT_ENDED_EXIT : Z := 77.

Fixpoint first_refusal (l : list ErrorNode) : option (string * option string) :=
  match l with
  | [] => None
  | AdmissionRefused t c :: _ => Some (t, c)
  | _ :: l => first_refusal l
  end.
Definition admission_refusal (e : BoxError) : option (string * option string) := first_refusal (chain e).

Definition is_definitive_admission_refusal (e : BoxError) : bool :=
  match admission_refusal e with
  | Some _ => true
  | None => contains "refused the channel join" (text e)
  end.

Definition is_revoked_grant_refusal (e : BoxError) : bool :=
  match admission_refusal e with
  | Some (_, Some c) => String.eqb c GRANT_REVOKED_CATEGORY
  | _ => false
  end.

Definition own_grant_refusal (e : BoxError) (own_expires_at : option Z) (now : Z) : option string :=
  let? (t, category) := admission_refusal e in
  let own_end :=
    match category with
    | Some c =>
        if String.eqb c GRANT_REVOKED_CATEGORY then true
        else if String.eqb c GRANT_VERIFY_CATEGORY then
          match own_expires_at with Some at_ => at_ <=? now | None => false end
        else false
    | None => false
    end in
  if own_end then Some t else None.

Definition is_own_grant_end (l : list ErrorNode) : bool :=
  existsb (fun n => match n with
                    | OwnGrantEnded _ => true
                    | IoError _ (Some _) => true
                    | _ => false
                    end) l.

(** Only the outer error is downcast: a TLS connect that ended in an unexpected EOF. *)
Definition is_transport_handshake_eof (e : BoxError) : bool :=
  match chain e with
  | ConnectFailed :: IoError kind _ :: _ =>
      String.eqb kind "UnexpectedEof" || contains "tls handshake eof" (text e)
  | _ => contains "tls handshake eof" (text e)
  end.

Definition refusal_category_hint (category : string) : option string :=
  if String.eqb category "possession" then Some
    "the holder-possession proof failed — this agent's holder PRIVATE key does not match the grant's holder. Usually a run under the wrong claimed identity, or a grant minted for a different holder key; re-check which identity/holder key this block runs as"%string
  else if String.eqb category GRANT_VERIFY_CATEGORY then Some
    "the grant failed signature/validity verification — expired, or not signed by this channel's operator key; fetch a fresh grant"%string
  else if String.eqb category "not-member" then Some
    "the channel is unknown to this edge, or the holder is not currently a member — check the channel id and whether this member was removed"%string
  else if String.eqb category "grant-revoked" then Some
    "this exact grant was revoked by the channel operator or owner — it will not work again; ask for a newly issued grant"%string
  else if String.eqb category "grant-status" then Some
    "the edge could not read the channel's grant revocation list right now and refuses rather than guess — retry later; if it persists, check the control plane"%string
  else if String.eqb category "endpoint" then Some
    "the advertised endpoint was rejected as unsafe/undialable — advertise a public address or the relay-only sentinel"%string
  else if String.eqb category "malformed" || String.eqb category "len-oob" then Some
    "the edge could not read the join request off the wire — likely an agent/edge version skew"%string
  else if String.eqb category "pairing" then Some
    "admission succeeded but pairing the two members was refused — the problem is with the PAIR (e.g. the partner's authorization), not this grant"%string
  else None.

Definition boxed_with_category (b : string) (category : option string) : BoxError :=
  let t :=
    match category with
    | None => b
    | Some cat =>
        match refusal_category_hint cat with
        | Some hint => (b +:+ " [" +:+ cat +:+ "]: " +:+ hint)%string
        | None => (b +:+ " [" +:+ cat +:+ "] (unrecognized refusal category — likely a newer edge; the edge's own log has the detail)")%string
        end
    end in
  {| text := t; chain := [AdmissionRefused t category] |}.

(** ** Theorems: jitter and backoff *)

Section Laws.
Context {F : Type} `{JitterLaws F}.

Lemma equal_jitter_range d (r : F) : 0 <= d <= 2 ^ 50 -> d / 2 <= equal_jitter d r <= d.
Proof.
  intros Hd. unfold equal_jitter.
  pose proof (Z.div_mod d 2 ltac:(lia)). pose proof (Z.mod_pos_bound d 2 ltac:(lia)).
  pose proof (mul_unit_range (d - d / 2) r ltac:(lia)). lia.
Qed.

Lemma next_delay_spec s :
  0 <= base s -> 0 <= max s <= DURATION_MAX -> 0 <= attempt s ->
  next_delay s =
    if max_attempts s <=? attempt s then (None, s)
    else (Some (Z.min (base s * 2 ^ Z.min (attempt s) 31) (max s)),
          {| base := base s; max := max s; max_attempts := max_attempts s; attempt := attempt s + 1 |}).
Proof.
  intros Hb Hm Ha. unfold next_delay, checked_mul. destruct (_ <=? attempt s); [done|].
  destruct (Z.leb_spec (base s * 2 ^ Z.min (attempt s) 31) DURATION_MAX); simpl; [done|].
  do 2 f_equal. lia.
Qed.

(** The policy after [k] failures in a row. *)
Fixpoint failures (rs : list F) (s : Backoff) : list Retry * Backoff :=
  match rs with
  | [] => ([], s)
  | r :: rs =>
      let '(a, s) := after_failure r s in
      let '(l, s) := failures rs s in
      (a :: l, s)
  end.

Lemma failures_spec rs s i :
  0 <= base s -> 0 <= max s <= 2 ^ 50 -> 0 <= attempt s ->
  (i < length rs)%nat ->
  exists a, (failures rs s).1 !! i = Some a /\
  let n := attempt s + Z.of_nat i in
  let d := Z.min (base s * 2 ^ Z.min n 31) (max s) in
  if n <? max_attempts s then exists x, a = After x /\ d / 2 <= x <= d else a = GiveUp.
Proof.
  revert s i. induction rs as [|r rs IH]; intros s i Hb Hm Ha Hi; simpl in Hi; [lia|].
  assert (0 <= max s <= DURATION_MAX) as Hm' by (unfold DURATION_MAX, SECOND; lia).
  simpl. unfold after_failure, next_delay_jittered. rewrite next_delay_spec by done.
  destruct (Z.leb_spec (max_attempts s) (attempt s)) as [Hle|Hlt]; simpl.
  - destruct i as [|i]; simpl.
    + destruct (failures rs s) as [l s'] eqn:E. simpl. eexists. split; [done|].
      rewrite Z.add_0_r. destruct (Z.ltb_spec (attempt s) (max_attempts s)); [lia|done].
    + destruct (IH s i Hb Hm Ha ltac:(lia)) as (a & Hl & Hs).
      destruct (failures rs s) as [l s'] eqn:E. simpl in *. exists a. split; [done|].
      destruct (Z.ltb_spec (attempt s + Z.of_nat i) (max_attempts s)); [lia|].
      by rewrite (proj2 (Z.ltb_ge _ _)) by lia.
  - set (s1 := {| base := base s; max := max s; max_attempts := max_attempts s; attempt := attempt s + 1 |}).
    destruct i as [|i]; simpl.
    + destruct (failures rs s1) as [l s'] eqn:E. simpl. eexists. split; [done|].
      rewrite Z.add_0_r, (proj2 (Z.ltb_lt _ _)) by lia. eexists. split; [done|].
      apply equal_jitter_range. assert (0 <= 2 ^ Z.min (attempt s) 31) by (apply Z.pow_nonneg; lia). nia.
    + destruct (IH s1 i Hb Hm ltac:(simpl; lia) ltac:(lia)) as (a & Hl & Hs).
      destruct (failures rs s1) as [l s'] eqn:E. simpl in *. exists a. split; [done|].
      by replace (attempt s + 1 + Z.of_nat i) with (attempt s + Z.of_nat (S i)) in Hs by lia.
Qed.

(** the reconnect policy paces attempts as documented: after the last success, failure number
    [i] waits a jittered time between half of and all of [base * 2^i], capped at [max] (the
    doubling stops at 2^31), until [max_attempts] waits were handed out; from then on it gives
    up, and a success starts over. *)
Theorem reconnect_policy_delays b m n (rs : list F) i s :
  0 <= b -> 0 <= m <= 2 ^ 50 -> (i < length rs)%nat -> base s = b -> max s = m -> max_attempts s = n ->
  exists a, (failures rs (after_success s)).1 !! i = Some a /\
  let d := Z.min (b * 2 ^ Z.min (Z.of_nat i) 31) m in
  if Z.of_nat i <? n then exists x, a = After x /\ d / 2 <= x <= d else a = GiveUp.
Proof.
  intros Hb Hm Hi <- <- <-.
  destruct (failures_spec rs (after_success s) i) as (a & Hl & Hs); simpl; try done; try lia.
  exists a. split; [done|]. simpl in Hs. by rewrite Z.add_0_l in Hs.
Qed.

(** the pause before re-parking lies in [base/2, 2.5 base]. *)
Lemma ex_repark_delay_range b (r : F) :
  0 <= b -> 2 * b <= 2 ^ 50 -> b / 2 <= ex_repark_delay b r <= b / 2 + 2 * b.
Proof. intros. unfold ex_repark_delay. pose proof (mul_unit_range (2 * b) r ltac:(lia)). lia. Qed.
End Laws.

Lemma reconnect_policy_delays_witness :
  exists a, (failures [1; 2; 3] (after_success (new_backoff SECOND (30 * SECOND) 2))).1 !! 2%nat = Some a /\
    a = GiveUp.
Proof.
  exact (reconnect_policy_delays SECOND (30 * SECOND) 2 [1; 2; 3] 2%nat (new_backoff SECOND (30 * SECOND) 2)
    ltac:(vm_compute; congruence) ltac:(vm_compute; split; congruence) ltac:(simpl; lia)
    eq_refl eq_refl eq_refl).
Defined.

Lemma shl_u32_16 s : 0 <= s -> shl_u32 (Z.min s 16) = 2 ^ Z.min s 16.
Proof. intros. unfold shl_u32. by rewrite (proj2 (Z.ltb_lt _ _)) by lia. Qed.

Lemma capped_mul r s cap :
  0 <= r -> 0 <= s -> 0 <= cap <= DURATION_MAX ->
  Z.min (saturating_mul r (shl_u32 (Z.min s 16))) cap = Z.min (r * 2 ^ Z.min s 16) cap.
Proof. intros. rewrite shl_u32_16 by done. unfold saturating_mul. lia. Qed.

(** the four admission backoffs are [retry_backoff * 2^n] capped, without overflow for any
    duration and any streak: a refusal's by 30 s, a flap's and a handshake EOF's by 10 s, a
    transient's by 10 s with the first retry unchanged; a non-refusal keeps [retry_backoff]. *)
Theorem admission_backoffs_closed_form r n :
  0 <= r -> 0 <= n ->
  admission_retry_backoff r true n = Z.min (r * 2 ^ Z.min n 16) (30 * SECOND) /\
  admission_retry_backoff r false n = r /\
  flapping_session_backoff r n = Z.min (r * 2 ^ Z.min n 16) (10 * SECOND) /\
  handshake_eof_backoff r n = Z.min (r * 2 ^ Z.min n 16) (10 * SECOND) /\
  transient_admission_backoff r n = Z.min (r * 2 ^ Z.min (Z.max 0 (n - 1)) 16) (10 * SECOND).
Proof.
  intros Hr Hn. unfold admission_retry_backoff, flapping_session_backoff, handshake_eof_backoff,
    transient_admission_backoff, sat_sub. simpl negb. cbv iota.
  rewrite !capped_mul by (unfold DURATION_MAX, REFUSED_ADMISSION_BACKOFF_CAP,
    FLAPPING_SESSION_BACKOFF_CAP, HANDSHAKE_EOF_BACKOFF_CAP, TRANSIENT_ADMISSION_BACKOFF_CAP, SECOND; lia).
  done.
Qed.

Lemma admission_backoffs_closed_form_witness :
  admission_retry_backoff (200 * MILLI) true 3 = 1600 * MILLI.
Proof.
  rewrite (proj1 (admission_backoffs_closed_form (200 * MILLI) 3 ltac:(vm_compute; congruence) ltac:(lia))).
  vm_compute. reflexivity.
Defined.

(** ** Theorems: classification *)

Lemma boxed_contains b c : contains b (text (boxed_with_category b c)) = true.
Proof.
  apply contains_spec. unfold boxed_with_category. simpl. exists ""%string.
  destruct c as [cat|].
  - destruct (refusal_category_hint cat) as [hint|]; eexists; reflexivity.
  - exists ""%string. change ("" +:+ b +:+ "")%string with (b +:+ "")%string.
    induction b as [|a b IH]; [done|]. change (String a b +:+ "")%string with (String a (b +:+ ""))%string.
    by rewrite <-IH.
Qed.

(** a refusal stays a refusal however it travels: wrapped in other errors its type is found
    through the source chain, and flattened into a text it is still recognised, because every
    rendering of the site's text -- with any category, known or not -- contains it. *)
Theorem refusal_survives_wrapping b c (outer : list ErrorNode) t t' outer' :
  contains "refused the channel join" b = true ->
  is_definitive_admission_refusal {| text := t; chain := outer ++ chain (boxed_with_category b c) |} = true /\
  is_definitive_admission_refusal {| text := (t +:+ text (boxed_with_category b c) +:+ t')%string; chain := outer' |} = true.
Proof.
  intros Hb. split.
  - unfold is_definitive_admission_refusal, admission_refusal.
    assert (is_Some (first_refusal (outer ++ chain (boxed_with_category b c)))) as [x Hx];
      [|cbn [chain] in *; by rewrite Hx].
    induction outer as [|n l IH]; simpl; [eauto|]. destruct n; eauto.
  - unfold is_definitive_admission_refusal. destruct (admission_refusal _); [done|]. cbn [text].
    pose proof (boxed_contains b c) as Hc. apply contains_spec in Hc as (x & y & ->).
    apply contains_spec in Hb as (u & v & ->). apply contains_spec.
    exists (t +:+ x +:+ u)%string, (v +:+ y +:+ t')%string. by rewrite !string_app_assoc.
Qed.

Lemma refusal_survives_wrapping_witness :
  is_definitive_admission_refusal
    {| text := "direct dial failed";
       chain := [DialFailed] ++ chain (boxed_with_category "edge refused the channel join" (Some "new-token"%string)) |} = true.
Proof.
  apply (fun H => proj1 (refusal_survives_wrapping "edge refused the channel join" (Some "new-token"%string)
    [DialFailed] "direct dial failed" "" [] H)). vm_compute. reflexivity.
Defined.

(** an admission error ends this member's forward exactly when its first refusal says the grant
    is revoked, or says it does not verify while the own grant is past its expiry by this member's
    clock. *)
Theorem own_grant_refusal_iff e own now t :
  own_grant_refusal e own now = Some t <->
  exists c, admission_refusal e = Some (t, Some c) /\
    (c = GRANT_REVOKED_CATEGORY \/
     (c = GRANT_VERIFY_CATEGORY /\ exists at_, own = Some at_ /\ at_ <= now)).
Proof.
  unfold own_grant_refusal. destruct (admission_refusal e) as [[t' [c|]]|].
  - destruct (String.eqb_spec c GRANT_REVOKED_CATEGORY) as [->|Hr].
    { split; [intros [= ->]; eauto|intros (c & [= -> <-] & _); done]. }
    destruct (String.eqb_spec c GRANT_VERIFY_CATEGORY) as [->|Hv].
    + destruct own as [at_|]; simpl.
      * destruct (Z.leb_spec at_ now).
        -- split; [intros [= ->]; eauto 8|intros (c & [= -> <-] & _); done].
        -- split; [done|]. intros (c & [= -> <-] & [Hc|[_ (a & [= <-] & ?)]]); [done|lia].
      * split; [done|]. intros (c & [= -> <-] & [Hc|[_ (a & [=] & ?)]]); done.
    + split; [done|]. intros (c' & [= -> <-] & [->|[-> _]]); done.
  - split; [done|]. by intros (c & [=] & _).
  - split; [done|]. by intros (c & [=] & _).
Qed.
