(* ===== verification/ForwardReconnect.v ===== *)
(** * ForwardReconnect: the initiate side's session loop

    [run_forward_initiate_reconnect_loop] of [channel_run/forward_stream.rs] with its decisions: one
    session per turn, reconnecting with a jittered backoff until this member's own grant ended.  A
    turn's clock readings and the outcome of its session are inputs; times are nanoseconds, grant
    expiries and [now_unix] whole seconds. *)
From S2P Require Import Prelude Text FlowControl Retry.

#[local] Open Scope Z_scope.

Inductive GrantEndScope := Own | Peer.
Record GrantEnd := { scope : GrantEndScope; reason : string }.
Definition own_end (r : string) : GrantEnd := {| scope := Own; reason := r |}.
Definition peer_end (r : string) : GrantEnd := {| scope := Peer; reason := r |}.

Definition FORWARD_RECONNECT_MIN : Z := 1 * SECOND.
Definition FORWARD_RECONNECT_MAX : Z := 30 * SECOND.

Definition next_forward_reconnect_delay (prev : option Z) (lasted : Z) : Z :=
  match prev with
  | Some p => if lasted <? FORWARD_RECONNECT_MAX then Z.min (p * 2) FORWARD_RECONNECT_MAX
              else FORWARD_RECONNECT_MIN
  | None => FORWARD_RECONNECT_MIN
  end.

Definition expired_reason (own_expires_at : Z) : string :=
  ("this member's channel grant expired (expires_at " +:+ show own_expires_at +:+ ")")%string.

Definition forward_grant_end (recorded : option GrantEnd) (own_expires_at now : Z) : option GrantEnd :=
  match recorded with
  | Some {| scope := Own; reason := r |} => Some (own_end r)
  | other => if own_expires_at <=? now then Some (own_end (expired_reason own_expires_at)) else other
  end.

Inductive OnOwnGrantEnd := Exit | RefuseAll.

Definition on_own_grant_end_from (raw : option string) : result OnOwnGrantEnd string :=
  match trim <$> raw with
  | None => Ok Exit
  | Some s =>
      if is_empty s || String.eqb s "exit" then Ok Exit
      else if String.eqb s "refuse" then Ok RefuseAll
      else Err s
  end.

(** How the forward ends: the error that exits with 77, or the state that refuses for good. *)
Inductive ForwardEnd :=
| OwnGrantEndedExit (reason : string)
| RefusingForGood (reason : string).

Definition end_forward_for_own_grant (on_own_end : OnOwnGrantEnd) (r : string) : ForwardEnd :=
  match on_own_end with
  | Exit => OwnGrantEndedExit r
  | RefuseAll => RefusingForGood r
  end.

Section Loop.
Context {E : Type} {F : Type} `{JitterLaws F}.
(** [is_own_grant_refusal] and the error's text. *)
Context (is_own_grant_refusal : E -> bool) (to_string : E -> string).
Context (own_expires_at : Z) (on_own_end : OnOwnGrantEnd).

(** One turn, as the loop saw it: the clock at its start, the session's outcome ([None]: the own
    expiry timer fired first), what the session's gate recorded, how long it ran, the clock after
    it, the jitter sample, and whether the expiry timer fired during the wait. *)
Record Turn := {
  start_now : Z;
  outcome : option (result unit E);
  recorded : option GrantEnd;
  lasted : Z;
  end_now : Z;
  rand01 : F;
  expired_in_wait : bool
}.

(** What a turn leads to: the next turn after [wait], with the step remembered, or the end. *)
Inductive TurnEnd :=
| Reconnect (step wait : Z)
| Ended (e : ForwardEnd).

Definition session_end (t : Turn) (o : result unit E) : option GrantEnd :=
  match forward_grant_end (recorded t) own_expires_at (end_now t) with
  | Some end_ => Some end_
  | None =>
      match o with
      | Err e => if is_own_grant_refusal e then Some (own_end (to_string e)) else None
      | Ok _ => None
      end
  end.

Definition turn (delay : option Z) (t : Turn) : TurnEnd :=
  let over := Ended (end_forward_for_own_grant on_own_end (expired_reason own_expires_at)) in
  if own_expires_at <=? start_now t then over
  else
    match outcome t with
    | None => over
    | Some o =>
        match session_end t o with
        | Some {| scope := Own; reason := r |} => Ended (end_forward_for_own_grant on_own_end r)
        | _ =>
            let step := next_forward_reconnect_delay delay (lasted t) in
            let wait := equal_jitter step (rand01 t) in
            if expired_in_wait t then over else Reconnect step wait
        end
    end.

Fixpoint loop (delay : option Z) (ts : list Turn) : list (Z * Z) * option ForwardEnd :=
  match ts with
  | [] => ([], None)
  | t :: ts =>
      match turn delay t with
      | Reconnect step wait =>
          let '(w, e) := loop (Some step) ts in ((step, wait) :: w, e)
      | Ended e => ([], Some e)
      end
  end.

(** The timer fires when the grant is over: then the clock is past the expiry. *)
Definition timer_sound (t : Turn) (at_end : Z) : Prop :=
  (outcome t = None -> own_expires_at <= at_end) /\ (expired_in_wait t = true -> own_expires_at <= at_end).

(** ** Theorems *)

Lemma step_range delay l :
  (forall d, delay = Some d -> FORWARD_RECONNECT_MIN <= d <= FORWARD_RECONNECT_MAX) ->
  FORWARD_RECONNECT_MIN <= next_forward_reconnect_delay delay l <= FORWARD_RECONNECT_MAX.
Proof.
  unfold next_forward_reconnect_delay, FORWARD_RECONNECT_MIN, FORWARD_RECONNECT_MAX, SECOND.
  intros Hd. destruct delay as [d|]; [|lia]. specialize (Hd d eq_refl).
  destruct (_ <? _); lia.
Qed.

(** the forward ends only because of this member's own grant: the clock passed its expiry, the
    session's gate recorded an own end, or the edge's refusal names it.  A peer's grant end, a
    dropped session or any other error reconnects. *)
Theorem forward_ends_only_for_own_grant delay t e at_end :
  timer_sound t at_end -> turn delay t = Ended e ->
  own_expires_at <= start_now t \/ own_expires_at <= at_end \/ own_expires_at <= end_now t \/
  (exists r, recorded t = Some (own_end r)) \/
  (exists err, outcome t = Some (Err err) /\ is_own_grant_refusal err = true).
Proof.
  intros [Ho Hw] Ht. unfold turn in Ht.
  destruct (Z.leb_spec own_expires_at (start_now t)); [auto|].
  destruct (outcome t) as [o|] eqn:Eo; [|auto]. unfold session_end, forward_grant_end in Ht.
  destruct (Z.leb_spec own_expires_at (end_now t)); [auto|].
  destruct (recorded t) as [[[|] r]|] eqn:Er; simpl in Ht.
  - right; right; right; left. by exists r.
  - destruct (expired_in_wait t); [auto|done].
  - destruct o as [u|err]; [destruct (expired_in_wait t); [auto|done]|].
    destruct (is_own_grant_refusal err) eqn:Ee.
    + right; right; right; right. eauto.
    + destruct (expired_in_wait t); [auto|done].
Qed.

(** an own grant that is over by this member's clock ends the forward in that turn, whatever
    else happened, before another session is admitted with it. *)
Theorem own_expiry_ends_the_forward delay t :
  own_expires_at <= start_now t \/ (outcome t <> None /\ own_expires_at <= end_now t) ->
  exists e, turn delay t = Ended e.
Proof.
  unfold turn, session_end, forward_grant_end. intros Hx.
  destruct (Z.leb_spec own_expires_at (start_now t)); [eauto|].
  destruct Hx as [|[Ho Hx]]; [lia|]. destruct (outcome t) as [o|]; [|done].
  rewrite (proj2 (Z.leb_le _ _) Hx). destruct (recorded t) as [[[|] r]|]; simpl; eauto.
Qed.

Lemma loop_steps_range delay ts ws e :
  (forall d, delay = Some d -> FORWARD_RECONNECT_MIN <= d <= FORWARD_RECONNECT_MAX) ->
  loop delay ts = (ws, e) ->
  Forall (fun '(step, wait) =>
    FORWARD_RECONNECT_MIN <= step <= FORWARD_RECONNECT_MAX /\ step / 2 <= wait <= step) ws.
Proof.
  revert delay ws. induction ts as [|t ts IH]; intros delay ws Hd; simpl; [by intros [= <- <-]|].
  destruct (turn delay t) as [step wait|e'] eqn:Et; [|by intros [= <- <-]].
  assert (step = next_forward_reconnect_delay delay (lasted t) /\ wait = equal_jitter step (rand01 t)) as [-> ->].
  { unfold turn in Et. destruct (_ <=? _); [done|]. destruct (outcome t); [|done].
    destruct (session_end t r) as [[[|] ?]|]; [done|..]; destruct (expired_in_wait t); by simplify_eq. }
  pose proof (step_range delay (lasted t) Hd) as Hr.
  destruct (loop _ ts) as [w e'] eqn:El. intros [= <- <-]. apply Forall_cons_2.
  - split; [done|]. apply equal_jitter_range.
    unfold FORWARD_RECONNECT_MIN, FORWARD_RECONNECT_MAX, SECOND in Hr. lia.
  - eapply IH; [|exact El]. by intros d [= <-].
Qed.

Definition short (t : Turn) : Prop := lasted t < FORWARD_RECONNECT_MAX.

(** the wait before each new session is jittered into the upper half of its step; the steps
    start at one second, double while sessions stay short, never exceed thirty seconds, and start
    over after a session that ran that long. *)
Theorem forward_waits ts ws e i step wait :
  loop None ts = (ws, e) -> ws !! i = Some (step, wait) ->
  FORWARD_RECONNECT_MIN <= step <= FORWARD_RECONNECT_MAX /\ step / 2 <= wait <= step /\
  (Forall short (take (S i) ts) -> step = Z.min (2 ^ Z.of_nat i * SECOND) FORWARD_RECONNECT_MAX) /\
  (forall t, ts !! i = Some t -> FORWARD_RECONNECT_MAX <= lasted t -> step = FORWARD_RECONNECT_MIN).
Proof.
  intros Hl Hi.
  assert (Forall (fun '(step, wait) => FORWARD_RECONNECT_MIN <= step <= FORWARD_RECONNECT_MAX /\
    step / 2 <= wait <= step) ws) as Hall by (eapply loop_steps_range; [|exact Hl]; done).
  pose proof (proj1 (Forall_lookup _ _) Hall i (step, wait) Hi) as [H1 H2]. do 2 (split; [done|]). clear Hall H1 H2.
  assert (forall delay ts ws e i step wait, loop delay ts = (ws, e) -> ws !! i = Some (step, wait) ->
    exists t, ts !! i = Some t /\
      step = next_forward_reconnect_delay (match i with O => delay | S j => fst <$> ws !! j end) (lasted t)) as Hstep.
  { clear. intros delay ts. revert delay. induction ts as [|t ts IH]; intros delay ws e i step wait; simpl.
    { intros [= <- <-]. done. }
    destruct (turn delay t) as [s w|e'] eqn:Et; [|by intros [= <- <-]].
    assert (s = next_forward_reconnect_delay delay (lasted t)) as Hs.
    { unfold turn in Et. destruct (_ <=? _); [done|]. destruct (outcome t); [|done].
      destruct (session_end t r) as [[[|] ?]|]; [done|..]; destruct (expired_in_wait t); by simplify_eq. }
    destruct (loop (Some s) ts) as [w' e''] eqn:El. intros [= <- <-]. destruct i as [|i]; simpl.
    - intros [= <- <-]. eauto.
    - intros Hi. destruct (IH _ _ _ _ _ _ El Hi) as (t' & Ht' & ->). exists t'. split; [done|].
      by destruct i. }
  split.
  - revert step wait Hi. induction i as [|i IH]; intros step wait Hi Hsh.
    + destruct (Hstep _ _ _ _ _ _ _ Hl Hi) as (t & Ht & ->). reflexivity.
    + destruct (Hstep _ _ _ _ _ _ _ Hl Hi) as (t & Ht & ->).
      assert (exists p, ws !! i = Some p) as [[s w] Hp].
      { apply lookup_lt_is_Some. apply lookup_lt_Some in Hi. lia. }
      rewrite Hp. simpl. rewrite (IH s w Hp).
      * assert (short t) as Hst.
        { eapply (proj1 (Forall_lookup _ _) Hsh (S i)). rewrite lookup_take_lt by lia. done. }
        unfold short in Hst. rewrite (proj2 (Z.ltb_lt _ _) Hst).
        rewrite Nat2Z.inj_succ, Z.pow_succ_r by lia. unfold FORWARD_RECONNECT_MAX, SECOND. lia.
      * replace (take (S i) ts) with (take (S i) (take (S (S i)) ts)); [by apply Forall_take|].
        rewrite take_take. f_equal. lia.
  - intros t Ht Hlong. destruct (Hstep _ _ _ _ _ _ _ Hl Hi) as (t' & Ht' & ->).
    rewrite Ht in Ht'. injection Ht' as <-. unfold next_forward_reconnect_delay.
    destruct (match i with O => None | S j => _ end); [|done].
    by rewrite (proj2 (Z.ltb_ge _ _) Hlong).
Qed.
End Loop.

(** Two dropped sessions of a second each, then one whose gate recorded the own end. *)
Definition demo_turn (o : result unit string) (rec : option GrantEnd) : Turn (E := string) (F := Z) :=
  {| start_now := 100; outcome := Some o; recorded := rec; lasted := SECOND; end_now := 101;
     rand01 := 0; expired_in_wait := false |}.
Definition demo_turns : list (Turn (E := string) (F := Z)) :=
  [demo_turn (Ok tt) (Some (peer_end "revoked")); demo_turn (Err "dropped"%string) None;
   demo_turn (Ok tt) (Some (own_end "expired"))].
Lemma forward_ends_only_for_own_grant_witness :
  let t := demo_turn (Ok tt) (Some (own_end "expired")) in
  turn (fun _ => false) (fun s => s) 500 Exit None t = Ended (OwnGrantEndedExit "expired") /\
  (exists r, recorded t = Some (own_end r)).
Proof.
  intros t.
  assert (turn (fun _ => false) (fun s => s) 500 Exit None t = Ended (OwnGrantEndedExit "expired")) as H
    by (vm_compute; reflexivity).
  split; [exact H|].
  assert (timer_sound 500 t 101) as Ht by (split; intros Hx; discriminate Hx).
  destruct (forward_ends_only_for_own_grant (fun _ => false) (fun s => s) 500 Exit None t _ 101 Ht H) as [H1|[H1|[H1|[H1|(e & H1 & H2)]]]].
  - exfalso. vm_compute in H1. by apply H1.
  - exfalso. vm_compute in H1. by apply H1.
  - exfalso. vm_compute in H1. by apply H1.
  - exact H1.
  - discriminate H2.
Defined.

Lemma own_expiry_ends_the_forward_witness :
  exists e, turn (fun _ : string => false) (fun s => s) 100 RefuseAll None
              (demo_turn (Ok tt) (Some (peer_end "gone"))) = Ended e.
Proof. apply own_expiry_ends_the_forward. left. vm_compute. congruence. Defined.

Lemma forward_waits_witness :
  exists ws e, loop (fun _ : string => false) (fun s => s) 500 Exit None demo_turns = (ws, e) /\
    ws !! 1%nat = Some (2000000000, 1000000000) /\ 2000000000 <= FORWARD_RECONNECT_MAX.
Proof.
  destruct (loop (fun _ : string => false) (fun s => s) 500 Exit None demo_turns) as [ws e] eqn:El.
  assert (ws !! 1%nat = Some (2000000000, 1000000000)) as Hi.
  { change ws with (ws, e).1. rewrite <-El. vm_compute. reflexivity. }
  exists ws, e. split; [reflexivity|]. split; [exact Hi|].
  exact (proj2 (proj1 (forward_waits _ _ _ _ demo_turns ws e 1%nat _ _ El Hi))).
Defined.
