(* ===== verification/PeerGrant.v ===== *)
(** * PeerGrant: the end-to-end check of the paired peer's grant

    [channel_run/peer_grant.rs]: the policy, the check of a prelude, the lifetime that ends a session
    with its grants, and the gate in front of the session's local side.  Signed grants, their wire
    form and their signature check belong to the [ct-common] crate: [GrantOps].  Unix times are
    seconds, timers are instants in nanoseconds of the same clock. *)
From S2P Require Import Prelude Text Codec EnvFlag FlowControl ForwardReconnect.

#[local] Open Scope Z_scope.

Inductive Direction := Initiate | Accept | Both.
Inductive ChannelRole := RoleInitiate | RoleAccept.

(** What the gate uses of a signed grant: its encoding, its check against the operator key at a
    time, and its public fields. *)
Class GrantOps (G : Type) := {
  WIRE_LEN : Z;
  encode_grant : G -> list byte;
  decode_grant : list byte -> option G;
  verify_stateless : list byte -> G -> Z -> bool;
  grant_channel : G -> list byte;
  grant_holder : G -> list byte;
  grant_direction : G -> Direction;
  grant_expires_at : G -> Z
}.
Class GrantLaws (G : Type) `{GrantOps G} := {
  wire_len_pos : 0 <= WIRE_LEN;
  encode_grant_len g : Zlen (encode_grant g) = WIRE_LEN
}.

Definition REQUIRE_PEER_GRANT_ENV : string := "CT_CHANNEL_REQUIRE_PEER_GRANT".
Definition OPERATOR_PUBKEY_ENV : string := "CT_CHANNEL_OPERATOR_PUBKEY".
Definition MAGIC : list byte := [to_u8 67; to_u8 84; to_u8 80; to_u8 71; to_u8 49].
Definition PEER_GRANT_TIMEOUT : Z := 10 * SECOND.
Definition GRANT_TEARDOWN_BUDGET : Z := 5 * SECOND.

(** [from_lookup_for]: the operator key, no check, or the refusal to join. *)
Definition policy_from_lookup_for (f : string -> option string) (forward : bool)
  : result (option (list byte)) unit :=
  if negb forward && negb (flag (f REQUIRE_PEER_GRANT_ENV) false) then Ok None
  else
    let raw := default ""%string (f OPERATOR_PUBKEY_ENV) in
    match hex_decode 32 (trim raw) with
    | Some operator => Ok (Some operator)
    | None => Err tt
    end.

Section Gate.
Context {G : Type} `{GrantOps G}.

Definition PRELUDE_LEN : Z := Zlen MAGIC + WIRE_LEN.

Record PeerGrantCheck := {
  operator : list byte; own_grant : G; peer_holder : list byte; role : ChannelRole; watched : bool
}.

Definition prelude (c : PeerGrantCheck) : list byte := MAGIC ++ encode_grant (own_grant c).

Inductive VerifyError :=
| NoGrantPresented | MalformedGrant | DoesNotVerify | OtherChannel | OtherHolder | SameDirection.

Definition complementary (r : ChannelRole) (d : Direction) : bool :=
  match r, d with
  | _, Both | RoleInitiate, Accept | RoleAccept, Initiate => true
  | _, _ => false
  end.

Definition verify (c : PeerGrantCheck) (p : list byte) (now : Z) : result G VerifyError :=
  if negb (bool_decide (take 5 p = MAGIC)) then Err NoGrantPresented
  else
    let* g := ok_or (decode_grant (drop 5 p)) MalformedGrant in
    if negb (verify_stateless (operator c) g now) then Err DoesNotVerify
    else if negb (bool_decide (grant_channel g = grant_channel (own_grant c))) then Err OtherChannel
    else if negb (bool_decide (grant_holder g = peer_holder c)) then Err OtherHolder
    else if negb (complementary (role c) (grant_direction g)) then Err SameDirection
    else Ok g.

(** ** The grants' lifetime *)

(** [record]: what the caller's [GrantEndRecord] holds; [events] counts the ends logged. *)
Record Lifetime := {
  expiry : option Z;
  life_own : option Z;
  life_peer : option Z;
  revoke : bool;
  watch : bool;
  ended : option string;
  record : option GrantEnd;
  end_events : list GrantEnd
}.

Definition expired_grant (l : Lifetime) : GrantEnd :=
  let peer p := peer_end ("the channel grant expired (the peer's, expires_at " +:+ show p +:+ ")")%string in
  let own o := own_end ("the channel grant expired (this member's own, expires_at " +:+ show o +:+ ")")%string in
  match life_own l, life_peer l with
  | Some o, Some p => if p <? o then peer p else own o
  | Some o, None => own o
  | None, Some p => peer p
  | None, None => own_end "the channel grant expired"
  end.

Definition end_life (e : GrantEnd) (l : Lifetime) : Lifetime :=
  {| expiry := None; life_own := life_own l; life_peer := life_peer l; revoke := false; watch := false;
     ended := Some (reason e);
     record := match record l with Some r => Some r | None => Some e end;
     end_events := end_events l ++ [e] |}.

(** What the two side channels answer when polled: the watch's end (or that its task is gone), the
    revocation's reason (or that nobody holds the handle). *)
Record Signals := {
  now_ns : Z;
  watch_poll : Poll (option GrantEnd);
  revoke_poll : Poll (option string)
}.

Definition no_revoke (l : Lifetime) : Lifetime :=
  {| expiry := expiry l; life_own := life_own l; life_peer := life_peer l; revoke := false;
     watch := watch l; ended := ended l; record := record l; end_events := end_events l |}.

Definition poll_ended (s : Signals) (l : Lifetime) : bool * Lifetime :=
  match ended l with
  | Some _ => (true, l)
  | None =>
      if match expiry l with Some t => t <=? now_ns s | None => false end
      then (true, end_life (expired_grant l) l)
      else
        match (if watch l then watch_poll s else Pending) with
        | Ready (Some e) => (true, end_life e l)
        | Ready None =>
            (true, end_life (peer_end "the peer-grant re-check stopped unexpectedly; failing closed") l)
        | Pending =>
            match (if revoke l then revoke_poll s else Pending) with
            | Ready (Some why) =>
                (true, end_life (peer_end ("the channel grant was revoked: " +:+ why)%string) l)
            | Ready None => (false, no_revoke l)
            | Pending => (false, l)
            end
        end
  end.

(** [GrantLifetime::timer] set at [now]: it fires at the expiry itself, at once when it is past. *)
Definition timer (now expires_at : Z) : Z := Z.max now (expires_at * SECOND).

Definition life_reason (l : Lifetime) : string := default "the channel grant ended"%string (ended l).

(** ** The gate *)

Inductive Failure := VerifyFailed (e : VerifyError) | TimedOutPeer | ClosedEarly.

Record Gate := {
  check : PeerGrantCheck;
  out : list byte;
  out_pos : Z;
  peer : list byte;
  verified : bool;
  failed : option Failure;
  deadline : option Z
}.

Record PeerGrantGate := { gate : option Gate; life : Lifetime }.

Definition gate_for (c : PeerGrantCheck) : Gate :=
  {| check := c; out := prelude c; out_pos := 0; peer := []; verified := false; failed := None;
     deadline := None |}.

Definition build (now : Z) (c : option PeerGrantCheck) (own_expires_at : option Z) : PeerGrantGate :=
  {| gate := gate_for <$> c;
     life := {| expiry := timer now <$> own_expires_at; life_own := own_expires_at;
                life_peer := None; revoke := true; watch := false; ended := None; record := None;
                end_events := [] |} |}.

Definition done (g : Gate) : bool := verified g && (out_pos g =? Zlen (out g)).

Definition arm_deadline (now : Z) (g : Gate) : Gate :=
  {| check := check g; out := out g; out_pos := out_pos g; peer := peer g; verified := verified g;
     failed := failed g;
     deadline := match deadline g with Some d => Some d | None => Some (now + PEER_GRANT_TIMEOUT) end |}.

Definition fail (f : Failure) (g : Gate) : Gate :=
  {| check := check g; out := out g; out_pos := out_pos g; peer := peer g; verified := verified g;
     failed := Some f; deadline := deadline g |}.

(** What a read of the session side answers. *)
Inductive ReadAnswer :=
| ReadEnded                      (* end of file, the local side shut down underneath *)
| ReadPrelude (bytes : list byte)
| ReadDenied
| ReadPending
| ReadInner.                     (* passed on to the real local side *)

Definition gate_or_gone (g : Gate) : option Gate := if done g then None else Some g.

(** [remaining]: the room in the reader's buffer. *)
Definition poll_read (s : Signals) (remaining : Z) (p : PeerGrantGate) : ReadAnswer * PeerGrantGate :=
  let '(over, l) := poll_ended s (life p) in
  if over then (ReadEnded, {| gate := gate p; life := l |})
  else
    match gate p with
    | None => (ReadInner, {| gate := None; life := l |})
    | Some g =>
        let g := arm_deadline (now_ns s) g in
        if out_pos g <? Zlen (out g) then
          let n := Z.min remaining (Zlen (out g) - out_pos g) in
          let bytes := take (Z.to_nat n) (drop (Z.to_nat (out_pos g)) (out g)) in
          let g := {| check := check g; out := out g; out_pos := out_pos g + n; peer := peer g;
                      verified := verified g; failed := failed g; deadline := deadline g |} in
          (ReadPrelude bytes, {| gate := gate_or_gone g; life := l |})
        else
          match failed g with
          | Some _ => (ReadDenied, {| gate := Some g; life := l |})
          | None =>
              if negb (verified g) then
                if match deadline g with Some d => d <=? now_ns s | None => false end
                then (ReadDenied, {| gate := Some (fail TimedOutPeer g); life := l |})
                else (ReadPending, {| gate := Some g; life := l |})
              else (ReadInner, {| gate := None; life := l |})
          end
    end.

Inductive WriteAnswer :=
| WriteDenied
| WriteTaken (n : Z)
| WriteInner.

(** The peer's grant verified: both expiries are kept, the earlier one is armed. *)
Definition accept_peer (now : Z) (c : PeerGrantCheck) (g : G) (l : Lifetime) : Lifetime :=
  let own := default (grant_expires_at (own_grant c)) (life_own l) in
  {| expiry := Some (timer now (Z.min own (grant_expires_at g)));
     life_own := Some own; life_peer := Some (grant_expires_at g);
     revoke := revoke l; watch := if watched c then true else watch l; ended := ended l;
     record := record l; end_events := end_events l |}.

(** [unix_now]: [now_unix()] at this poll. *)
Definition poll_write (s : Signals) (unix_now : Z) (data : list byte) (p : PeerGrantGate)
  : WriteAnswer * PeerGrantGate :=
  let '(over, l) := poll_ended s (life p) in
  if over then (WriteDenied, {| gate := gate p; life := l |})
  else
    match gate p with
    | None => (WriteInner, {| gate := None; life := l |})
    | Some g =>
        match failed g with
        | Some _ => (WriteDenied, {| gate := Some g; life := l |})
        | None =>
            if verified g then (WriteInner, {| gate := Some g; life := l |})
            else
              let g := arm_deadline (now_ns s) g in
              let n := Z.min (Zlen data) (PRELUDE_LEN - Zlen (peer g)) in
              let g := {| check := check g; out := out g; out_pos := out_pos g;
                          peer := peer g ++ take (Z.to_nat n) data; verified := false;
                          failed := failed g; deadline := deadline g |} in
              if Zlen (peer g) =? PRELUDE_LEN then
                match verify (check g) (peer g) unix_now with
                | Ok pg =>
                    let g := {| check := check g; out := out g; out_pos := out_pos g; peer := peer g;
                                verified := true; failed := failed g; deadline := deadline g |} in
                    (WriteTaken n, {| gate := gate_or_gone g; life := accept_peer (now_ns s) (check g) pg l |})
                | Err e => (WriteDenied, {| gate := Some (fail (VerifyFailed e) g); life := l |})
                end
              else (WriteTaken n, {| gate := Some g; life := l |})
        end
    end.

(** [true]: passed on to the local side. *)
Definition poll_shutdown (p : PeerGrantGate) : bool * PeerGrantGate :=
  match gate p with
  | Some g =>
      if negb (verified g) && bool_decide (failed g = None)
      then (false, {| gate := Some (fail ClosedEarly g); life := life p |})
      else (true, p)
  | None => (true, p)
  end.
End Gate.

(** ** Theorems: the lifetime *)

Section LifeLaws.
Context {G : Type} `{GrantLaws G}.

Lemma end_life_once e (l : Lifetime) :
  ended (end_life e l) = Some (reason e) /\ record (end_life e l) = match record l with Some r => Some r | None => Some e end.
Proof. done. Qed.

(** An end is final: from then on nothing is asked and nothing changes. *)
Lemma poll_ended_after s l w : ended l = Some w -> poll_ended s l = (true, l).
Proof. unfold poll_ended. by intros ->. Qed.

Lemma poll_ended_true s l l' :
  poll_ended s l = (true, l') -> is_Some (ended l').
Proof.
  unfold poll_ended. destruct (ended l) eqn:E; [intros [= <-]; by rewrite E|].
  destruct (match expiry l with Some t => t <=? now_ns s | None => false end); [intros [= <-]; eauto|].
  destruct (if watch l then watch_poll s else Pending) as [[e|]|]; [intros [= <-]; eauto..|].
  destruct (if revoke l then revoke_poll s else Pending) as [[e|]|]; [intros [= <-]; eauto|done..].
Qed.

Lemma poll_ended_false s l l' :
  poll_ended s l = (false, l') ->
  ended l' = None /\ expiry l' = expiry l /\ life_own l' = life_own l /\ life_peer l' = life_peer l /\
  record l' = record l /\ end_events l' = end_events l /\ watch l' = watch l.
Proof.
  unfold poll_ended. destruct (ended l) eqn:E; [done|].
  destruct (match expiry l with Some t => t <=? now_ns s | None => false end); [done|].
  destruct (if watch l then watch_poll s else Pending) as [[e|]|]; [done..|].
  destruct (if revoke l then revoke_poll s else Pending) as [[e|]|]; [done|intros [= <-]..]; auto 10.
Qed.

(** an expiry is attributed from the two grants alone: the peer's end exactly when the peer's
    grant was known and ran out strictly before this member's own (or no own expiry is known);
    a tie is this member's own end. *)
Theorem expired_grant_scope l :
  scope (expired_grant l) = Peer <->
  exists p, life_peer l = Some p /\ (forall o, life_own l = Some o -> p < o).
Proof.
  unfold expired_grant. destruct (life_own l) as [o|], (life_peer l) as [p|]; simpl.
  - destruct (Z.ltb_spec p o); simpl.
    + split; [|done]. intros _. exists p. split; [done|]. by intros ? [= <-].
    + split; [done|]. intros (p' & [= <-] & Hp). specialize (Hp o eq_refl). lia.
  - split; [done|]. by intros (p & [=] & _).
  - split; [|done]. intros _. exists p. by split.
  - split; [done|]. by intros (p & [=] & _).
Qed.
End LifeLaws.

(** ** Theorems: the gate *)

Section GateLaws.
Context {G : Type} `{GrantLaws G}.

(** The polls of a session in any order, with the bytes the gate took from the peer so far. *)
Inductive gate_reach (c : PeerGrantCheck (G := G)) : PeerGrantGate (G := G) -> list byte -> Prop :=
| gate_start now own : gate_reach c (build now (Some c) own) []
| gate_read s n p taken a p' :
    gate_reach c p taken -> 0 <= n -> poll_read s n p = (a, p') -> gate_reach c p' taken
| gate_write s t data p taken a p' :
    gate_reach c p taken -> poll_write s t data p = (a, p') ->
    gate_reach c p' (taken ++ match a with WriteTaken n => take (Z.to_nat n) data | _ => [] end)
| gate_shutdown p taken a p' :
    gate_reach c p taken -> poll_shutdown p = (a, p') -> gate_reach c p' taken.

Definition presented (c : PeerGrantCheck (G := G)) (taken : list byte) : Prop :=
  Zlen taken = PRELUDE_LEN /\ exists t pg, verify c taken t = Ok pg.

Definition gate_inv (c : PeerGrantCheck (G := G)) (p : PeerGrantGate (G := G)) (taken : list byte) : Prop :=
  match gate p with
  | None => presented c taken
  | Some g =>
      check g = c /\ out g = prelude c /\ 0 <= out_pos g <= Zlen (out g) /\
      if verified g then presented c taken
      else failed g = None -> peer g = taken /\ Zlen taken < PRELUDE_LEN
  end.

Lemma prelude_len_pos : 0 < PRELUDE_LEN.
Proof. unfold PRELUDE_LEN. pose proof wire_len_pos. simpl. lia. Qed.

Lemma poll_read_inv c s n p taken a p' :
  gate_inv c p taken -> 0 <= n -> poll_read s n p = (a, p') ->
  gate_inv c p' taken /\ (a = ReadInner -> presented c taken).
Proof.
  unfold gate_inv. intros Hi Hn. unfold poll_read. destruct (poll_ended s (life p)) as [[|] l].
  { intros [= <- <-]. by split. }
  destruct (gate p) as [g|]; [|intros [= <- <-]; by split].
  destruct Hi as (Hc & Ho & Hpos & Hv). simpl.
  destruct (Z.ltb_spec (out_pos g) (Zlen (out g))) as [Hlt|Hge].
  - intros [= <- <-]. split; [|done]. simpl. unfold gate_or_gone, done. simpl.
    destruct (verified g) eqn:Ev; simpl.
    + destruct (_ =? _); simpl; [done|]. rewrite ?Ev. split_and!; try done; lia.
    + rewrite ?Ev. split_and!; try done; lia.
  - destruct (failed g) eqn:Ef.
    { intros [= <- <-]. split; [|done]. simpl. rewrite Ef.
      destruct (verified g); split_and!; try done; lia. }
    destruct (verified g) eqn:Ev; simpl.
    + intros [= <- <-]. simpl. split; [done|]. by intros _.
    + match goal with |- context [if ?b then _ else _] => destruct b end; intros [= <- <-]; (split; [|done]); simpl;
        rewrite ?Ev; split_and!; try done; try lia. by rewrite Ef.
Qed.

Lemma poll_write_inv c s t data p taken a p' :
  gate_inv c p taken -> poll_write s t data p = (a, p') ->
  gate_inv c p' (taken ++ match a with WriteTaken n => take (Z.to_nat n) data | _ => [] end) /\
  (a = WriteInner -> presented c taken).
Proof.
  unfold gate_inv. intros Hi. unfold poll_write. destruct (poll_ended s (life p)) as [[|] l].
  { intros [= <- <-]. rewrite app_nil_r. by split. }
  destruct (gate p) as [g|]; [|intros [= <- <-]; rewrite app_nil_r; by split].
  destruct Hi as (Hc & Ho & Hpos & Hv).
  destruct (failed g) as [f|] eqn:Ef.
  { intros [= <- <-]. rewrite app_nil_r. simpl. rewrite Ef.
    split; [|done]. destruct (verified g); split_and!; done || lia. }
  destruct (verified g) eqn:Ev.
  { intros [= <- <-]. rewrite app_nil_r. simpl. rewrite Ev. split_and!; try done; lia. }
  destruct (Hv eq_refl) as [Hpeer Hlen]. simpl. rewrite Hpeer, Hc.
  set (n := Z.min (Zlen data) (PRELUDE_LEN - Zlen taken)).
  destruct (Z.eqb_spec (Zlen (taken ++ take (Z.to_nat n) data)) PRELUDE_LEN) as [El|Ne].
  - destruct (verify c (taken ++ take (Z.to_nat n) data) t) as [pg|e] eqn:Eve.
    + intros [= <- <-]. split; [|done]. simpl.
      assert (presented c (taken ++ take (Z.to_nat n) data)) by (split; eauto).
      unfold gate_or_gone, done. simpl. destruct (_ =? _); simpl; [done|]. split_and!; try done; lia.
    + intros [= <- <-]. split; [|done]. simpl. rewrite app_nil_r. split_and!; try done; lia.
  - intros [= <- <-]. split; [|done]. simpl. split_and!; try done; try lia. intros _.
    split; [done|]. revert Ne. rewrite length_app, length_take. unfold n. lia.
Qed.

Lemma gate_reach_inv c p taken : gate_reach c p taken -> gate_inv c p taken.
Proof.
  induction 1 as [now own|s n p taken a p' Hr IH Hn Hp|s t data p taken a p' Hr IH Hp|p taken a p' Hr IH Hp].
  - unfold gate_inv. simpl. split_and!; try done; try lia. intros _. split; [done|]. apply prelude_len_pos.
  - by eapply poll_read_inv in Hp as [? _].
  - by eapply poll_write_inv in Hp as [? _].
  - revert Hp. unfold poll_shutdown, gate_inv in *. destruct (gate p) as [g|] eqn:Eg.
    + case_bool_decide; destruct (verified g) eqn:Ev; simpl; intros [= <- <-]; simpl; rewrite ?Eg, ?Ev; try done.
      destruct IH as (? & ? & ? & ?). split_and!; try done; lia.
    + intros [= <- <-]. by rewrite Eg.
Qed.

(** C7: not one application byte passes the gate, in either direction, before the peer's grant was
    verified: whatever the order of reads, writes and shutdowns and however the peer cuts its
    bytes, a poll is passed on to the local side only after the gate took exactly one prelude
    from the peer and that prelude verified -- the operator's signature, this channel, the attested
    holder and the opposite direction. *)
Theorem gate_blocks_until_verified c p taken :
  gate_reach c p taken ->
  (forall s n p', 0 <= n -> poll_read s n p = (ReadInner, p') -> presented c taken) /\
  (forall s t data p', poll_write s t data p = (WriteInner, p') -> presented c taken).
Proof.
  intros Hr. pose proof (gate_reach_inv _ _ _ Hr) as Hi. split.
  - intros s n p' Hn Hp. by eapply poll_read_inv in Hp as [_ Hx]; [apply Hx| |].
  - intros s t data p' Hp. by eapply poll_write_inv in Hp as [_ Hx]; [apply Hx|].
Qed.

Lemma verify_Ok c p t pg :
  verify c p t = Ok pg ->
  take 5 p = MAGIC /\ decode_grant (drop 5 p) = Some pg /\ verify_stateless (operator c) pg t = true /\
  grant_channel pg = grant_channel (own_grant c) /\ grant_holder pg = peer_holder c /\
  complementary (role c) (grant_direction pg) = true.
Proof.
  unfold verify. case_bool_decide as H1; simpl; [|done].
  destruct (decode_grant (drop 5 p)) as [g|]; simpl; [|done].
  destruct (verify_stateless _ g t) eqn:H2; simpl; [|done].
  case_bool_decide as H3; simpl; [|done]. case_bool_decide as H4; simpl; [|done].
  destruct (complementary _ _) eqn:H5; simpl; [|done]. intros [= ->]. auto 10.
Qed.

(** ** A session after its end *)

(** once a session's grant ended, it stays ended: every further read is the end of file, every
    further write is refused, nothing is passed to the local side any more, and the first end that
    was recorded is the one that stays, logged once. *)
Theorem gate_end_is_final p w s n t data :
  ended (life p) = Some w ->
  poll_read s n p = (ReadEnded, p) /\ poll_write s t data p = (WriteDenied, p).
Proof.
  intros He. unfold poll_read, poll_write. rewrite (poll_ended_after _ _ _ He). by destruct p.
Qed.
End GateLaws.

(** ** The peer's bytes, however they are cut *)

Section Chunks.
Context {G : Type} `{GrantLaws G}.
Context (s : Signals) (t : Z).

(** The session writes one chunk, again and again with what is left of it; the bytes that reached
    the local side. *)
Fixpoint feed_chunk (fuel : nat) (data : list byte) (p : PeerGrantGate (G := G))
  : option (list byte * PeerGrantGate (G := G)) :=
  match fuel with
  | O => None
  | S fuel =>
      match poll_write s t data p with
      | (WriteInner, p) => Some (data, p)
      | (WriteTaken n, p) =>
          if n =? Zlen data then Some ([], p) else feed_chunk fuel (drop (Z.to_nat n) data) p
      | (WriteDenied, _) => None
      end
  end.
Fixpoint feed (chunks : list (list byte)) (p : PeerGrantGate (G := G)) : option (list byte) :=
  match chunks with
  | [] => Some []
  | c :: cs =>
      let? (x, p) := feed_chunk 2 c p in
      let? y := feed cs p in
      Some (x ++ y)
  end.

Definition quiet : Prop := watch_poll s = Pending /\ revoke_poll s = Pending.
Definition alive (l : Lifetime) : Prop :=
  ended l = None /\ forall e, expiry l = Some e -> now_ns s < e.

Lemma poll_ended_quiet l : quiet -> alive l -> poll_ended s l = (false, l).
Proof.
  intros [Hw Hr] [He Hx]. unfold poll_ended. rewrite He, Hw, Hr.
  destruct (expiry l) as [e|] eqn:E.
  - rewrite (proj2 (Z.leb_gt _ _)) by eauto. by destruct (watch l), (revoke l).
  - by destruct (watch l), (revoke l).
Qed.

(** The gate is open for the peer's bytes: gone, or verified and only waiting for its reader. *)
Definition open_gate (p : PeerGrantGate (G := G)) : Prop :=
  alive (life p) /\ match gate p with None => True | Some g => verified g = true /\ failed g = None end.

Lemma poll_write_open data p : quiet -> open_gate p -> poll_write s t data p = (WriteInner, p).
Proof.
  intros Hq [Ha Hg]. unfold poll_write. rewrite poll_ended_quiet by done.
  destruct p as [g l]. simpl in *. destruct g as [g|]; [|done]. destruct Hg as [Hv Hf]. by rewrite Hv, Hf.
Qed.

Lemma feed_open chunks p : quiet -> open_gate p -> feed chunks p = Some (concat chunks).
Proof.
  intros Hq Hp. induction chunks as [|c cs IH]; [done|]. simpl.
  rewrite poll_write_open by done. by rewrite IH.
Qed.

Definition waiting (c : PeerGrantCheck (G := G)) (taken : list byte) (p : PeerGrantGate (G := G)) : Prop :=
  alive (life p) /\ exists g, gate p = Some g /\ check g = c /\ peer g = taken /\ verified g = false /\
    failed g = None /\ Zlen taken < PRELUDE_LEN.

(** A chunk that does not complete the prelude is taken whole. *)
Lemma poll_write_short c taken data p :
  quiet -> waiting c taken p -> Zlen (taken ++ data) < PRELUDE_LEN ->
  exists p', poll_write s t data p = (WriteTaken (Zlen data), p') /\ waiting c (taken ++ data) p' /\
    life p' = life p.
Proof.
  intros Hq (Ha & g & Hg & Hc & Hp & Hv & Hf & Hl) Hlen. rewrite length_app in Hlen.
  unfold poll_write. rewrite poll_ended_quiet by done. rewrite Hg, Hf, Hv. simpl. rewrite Hp.
  rewrite Z.min_l by lia. rewrite Nat2Z.id, firstn_all.
  rewrite (proj2 (Z.eqb_neq _ _)) by (rewrite length_app; lia).
  eexists. split; [done|]. split; [|done]. split; [done|]. eexists. simpl. split_and!; try done.
  rewrite length_app. lia.
Qed.

(** The chunk that completes it is taken up to the prelude's end, and the gate opens. *)
Lemma poll_write_complete c taken data p pg :
  quiet -> waiting c taken p -> PRELUDE_LEN <= Zlen (taken ++ data) ->
  verify c (take (Z.to_nat PRELUDE_LEN) (taken ++ data)) t = Ok pg ->
  now_ns s < Z.min (default (grant_expires_at (own_grant c)) (life_own (life p))) (grant_expires_at pg) * SECOND ->
  exists p', poll_write s t data p = (WriteTaken (PRELUDE_LEN - Zlen taken), p') /\ open_gate p'.
Proof.
  intros Hq (Ha & g & Hg & Hc & Hp & Hv & Hf & Hl) Hlen Hver Hexp. rewrite length_app in Hlen.
  unfold poll_write. rewrite poll_ended_quiet by done. rewrite Hg, Hf, Hv. simpl. rewrite Hp, Hc.
  rewrite Z.min_r by lia.
  assert (taken ++ take (Z.to_nat (PRELUDE_LEN - Zlen taken)) data
          = take (Z.to_nat PRELUDE_LEN) (taken ++ data)) as ->.
  { rewrite take_app, (take_ge taken) by lia. do 2 f_equal. lia. }
  assert (Zlen (take (Z.to_nat PRELUDE_LEN) (taken ++ data)) = PRELUDE_LEN) as Hl2.
  { rewrite length_take, length_app. pose proof (prelude_len_pos (G := G)). lia. }
  rewrite Hl2, Z.eqb_refl, Hver. eexists. split; [done|]. destruct Ha as [He Hx]. split.
  - split; simpl; [done|]. intros e [= <-]. unfold timer. lia.
  - simpl. unfold gate_or_gone, done. simpl. by destruct (_ =? _).
Qed.

(** the gate does not see how the transport cut the peer's bytes: for every chunking of a
    prelude that verifies followed by application bytes, exactly the application bytes reach the
    local side, in order. *)
Theorem gate_chunking c own now pre app chunks pg :
  quiet -> Zlen pre = PRELUDE_LEN -> verify c pre t = Ok pg ->
  (forall o, own = Some o -> now_ns s < timer now o) ->
  now_ns s < Z.min (default (grant_expires_at (own_grant c)) own) (grant_expires_at pg) * SECOND ->
  concat chunks = pre ++ app ->
  feed chunks (build now (Some c) own) = Some app.
Proof.
  intros Hq Hl Hver Ho Hexp.
  assert (forall chunks taken p rest, waiting c taken p -> life_own (life p) = own ->
    pre = taken ++ rest -> concat chunks = rest ++ app -> feed chunks p = Some app) as Hgen.
  { clear chunks. intros chunks. induction chunks as [|d cs IH]; intros taken p rest Hw Hown Hpre Hcat; simpl in Hcat.
    - symmetry in Hcat. apply app_eq_nil in Hcat as [-> ->]. rewrite app_nil_r in Hpre. subst pre.
      destruct Hw as (_ & g & _ & _ & _ & _ & _ & Hlt). lia.
    - cbn [feed feed_chunk].
      destruct (Z.lt_ge_cases (Zlen (taken ++ d)) PRELUDE_LEN) as [Hlt|Hge].
      + destruct (poll_write_short c taken d p Hq Hw Hlt) as (p' & Hp & Hw' & Hlife). rewrite Hp, Z.eqb_refl.
        assert (exists rest', rest = d ++ rest') as [rest' ->].
        { rewrite Hpre in Hl. rewrite length_app in Hl, Hlt.
          exists (drop (length d) rest). assert (take (length d) rest = d) as Hd; [|by rewrite <-Hd at 1; rewrite take_drop].
          assert (take (length d) (d ++ concat cs) = d) as Ht by by rewrite take_app_length.
          rewrite Hcat, take_app_le in Ht by lia. done. }
        rewrite <-app_assoc in Hcat. apply app_inv_head in Hcat.
        by rewrite (IH (taken ++ d) p' rest'); [|done|rewrite Hlife|rewrite <-app_assoc|].
      + assert (take (Z.to_nat PRELUDE_LEN) (taken ++ d) = pre) as Hpre'.
        { rewrite <-Hl, Nat2Z.id. rewrite Hpre at 1. 
          assert (take (length (taken ++ rest)) (taken ++ d ++ concat cs) = taken ++ rest) as Ht.
          { by rewrite Hcat, app_assoc, take_app_length. }
          rewrite app_assoc, take_app_le in Ht; [by rewrite Ht, Hpre|]. rewrite <-Hpre. lia. }
        destruct (poll_write_complete c taken d p pg Hq Hw Hge) as (p' & Hp & Hop); [by rewrite Hpre'|by rewrite Hown|].
        rewrite Hp. set (n := PRELUDE_LEN - Zlen taken).
        assert (Zlen rest = n) as Hn by (rewrite Hpre, length_app in Hl; lia).
        assert (d ++ concat cs = rest ++ app) as Hcat' by done.
        assert (drop (Z.to_nat n) d ++ concat cs = app) as Happ.
        { assert (drop (Z.to_nat n) (d ++ concat cs) = app) as Hd.
          { rewrite Hcat'. rewrite drop_app_length' by lia. done. }
          rewrite drop_app_le in Hd; [done|]. rewrite length_app in Hge. lia. }
        destruct (Z.eqb_spec n (Zlen d)) as [En|Nn].
        * rewrite feed_open by done. f_equal. rewrite drop_ge in Happ by lia. done.
        * rewrite poll_write_open by done. rewrite feed_open by done. by f_equal. }
  intros Hcat. apply (Hgen chunks [] _ pre); try done.
  split; simpl.
  - split; [done|]. simpl. intros e He. destruct own as [o|]; simpl in He; [|done]. injection He as <-. by apply Ho.
  - eexists. split_and!; try done. simpl. apply (prelude_len_pos (G := G)).
Qed.
End Chunks.

(** ** A small grant format: channel, holder, direction and expiry in a byte each *)

Record ToyGrant := { tg_channel : byte; tg_holder : byte; tg_dir : byte; tg_expires : byte }.

Definition toy_direction (b : byte) : Direction :=
  if u8 b =? 0 then Initiate else if u8 b =? 1 then Accept else Both.

#[global] Instance ToyGrant_ops : GrantOps ToyGrant := {
  WIRE_LEN := 4;
  encode_grant g := [tg_channel g; tg_holder g; tg_dir g; tg_expires g];
  decode_grant l :=
    match l with
    | [a; b; c; d] => Some {| tg_channel := a; tg_holder := b; tg_dir := c; tg_expires := d |}
    | _ => None
    end;
  verify_stateless _ g now := now <? u8 (tg_expires g);
  grant_channel g := [tg_channel g];
  grant_holder g := [tg_holder g];
  grant_direction g := toy_direction (tg_dir g);
  grant_expires_at g := u8 (tg_expires g)
}.
#[global] Instance ToyGrant_laws : GrantLaws ToyGrant.
Proof. split; [vm_compute; congruence|]. reflexivity. Qed.

Definition toy_own : ToyGrant :=
  {| tg_channel := to_u8 9; tg_holder := to_u8 1; tg_dir := to_u8 0; tg_expires := to_u8 100 |}.
Definition toy_peer : ToyGrant :=
  {| tg_channel := to_u8 9; tg_holder := to_u8 2; tg_dir := to_u8 1; tg_expires := to_u8 90 |}.
Definition toy_check : PeerGrantCheck (G := ToyGrant) :=
  {| operator := []; own_grant := toy_own; peer_holder := [to_u8 2]; role := RoleInitiate; watched := false |}.
Definition toy_signals : Signals := {| now_ns := 0; watch_poll := Pending; revoke_poll := Pending |}.
Definition toy_prelude : list byte := MAGIC ++ encode_grant toy_peer.

Lemma gate_chunking_witness :
  feed toy_signals 5 [take 3 toy_prelude; drop 3 toy_prelude ++ [to_u8 7]; [to_u8 8]]
    (build 0 (Some toy_check) (Some 100)) = Some [to_u8 7; to_u8 8].
Proof.
  assert (verify toy_check toy_prelude 5 = Ok toy_peer) as Hv by (vm_compute; reflexivity).
  apply (gate_chunking toy_signals 5 toy_check (Some 100) 0 toy_prelude _ _ toy_peer);
    [split; reflexivity|reflexivity|exact Hv| |vm_compute; reflexivity|reflexivity].
  intros o Ho. injection Ho as <-. vm_compute. reflexivity.
Defined.

(** The gate after the whole prelude was written to it. *)
Definition toy_verified : PeerGrantGate (G := ToyGrant) :=
  (poll_write toy_signals 5 toy_prelude (build 0 (Some toy_check) (Some 100))).2.

Lemma gate_blocks_until_verified_witness :
  (poll_write toy_signals 6 [to_u8 7] toy_verified).1 = WriteInner /\ presented toy_check toy_prelude.
Proof.
  assert (gate_reach toy_check toy_verified toy_prelude) as Hr.
  { apply (gate_write toy_check toy_signals 5 toy_prelude (build 0 (Some toy_check) (Some 100)) []
             (WriteTaken 9) toy_verified); [apply gate_start|vm_compute; reflexivity]. }
  assert (poll_write toy_signals 6 [to_u8 7] toy_verified = (WriteInner, toy_verified)) as Hw
    by (vm_compute; reflexivity).
  split; [by rewrite Hw|].
  exact (proj2 (gate_blocks_until_verified toy_check toy_verified toy_prelude Hr) _ _ _ _ Hw).
Defined.

Lemma gate_end_is_final_witness :
  let p := {| gate := None; life := end_life (own_end "over") (life toy_verified) |} : PeerGrantGate (G := ToyGrant) in
  poll_read toy_signals 10 p = (ReadEnded, p).
Proof.
  intros p. exact (proj1 (gate_end_is_final p "over" toy_signals 10 0 [] eq_refl)).
Defined.
