(* ===== verification/Masque.v ===== *)
(** * Masque: the CONNECT-UDP tunnel ([masque/])

    QUIC varints ([varint.rs]), the DATAGRAM capsule and its UDP payload ([capsule.rs]), and the
    socket that bridges an HTTP/2 stream to quinn ([socket.rs]): two bounded pumps that drop and
    count what does not fit.  The HTTP/2 stream and quinn are not part of the repository; what
    they do appears as the chunks that arrive and the calls that are made. *)
From S2P Require Import Prelude Text Runtime Net.

(** ** Varints *)

Definition MAX_VARINT : Z := Z.shiftl 1 62 - 1.

(** [encode] appends to [out]; the error carries the value. *)
Definition encode (v : Z) (out : list byte) : list byte * result unit Z :=
  if v <? Z.shiftl 1 6 then (out ++ [to_u8 v], Ok tt)
  else if v <? Z.shiftl 1 14 then
    let b := Z.lor (wrap 16 v) 0x4000 in (out ++ be_bytes 2 b, Ok tt)
  else if v <? Z.shiftl 1 30 then
    let b := Z.lor (wrap 32 v) 0x80000000 in (out ++ be_bytes 4 b, Ok tt)
  else if v <=? MAX_VARINT then
    let b := Z.lor v 0xC000000000000000 in (out ++ be_bytes 8 b, Ok tt)
  else (out, Err v).

(** [v = (v << 8) | b] on a [u64]. *)
Definition shift_in (v : Z) (b : byte) : Z := Z.lor (wrap 64 (Z.shiftl v 8)) (u8 b).

Definition decode (buf : list byte) : option (Z * Z) :=
  match buf with
  | [] => None
  | first :: rest =>
      let len := Z.shiftl 1 (Z.shiftr (u8 first) 6) in
      if Zlen buf <? len then None
      else
        let mask := Z.land (u8 first) 0x3f in
        Some (fold_left shift_in (take (Z.to_nat (len - 1)) rest) mask, len)
  end.

(** ** Capsules *)

Definition DATAGRAM_CAPSULE_TYPE : Z := 0.
Definition MAX_CAPSULE_VALUE_LEN : Z := 65527 + 8.

Definition encode_datagram (payload : list byte) : result (list byte) Z :=
  let (out, r) := encode DATAGRAM_CAPSULE_TYPE [] in
  let* _ := r in
  let (out, r) := encode (Zlen payload) out in
  let* _ := r in
  Ok (out ++ payload).

Definition CAPSULE_TOO_LONG : string :=
  "capsule Length exceeds the maximum a legitimate UDP-proxying DATAGRAM capsule can carry".

(** [capsule::decode]: type, value and bytes consumed; [Ok None] while it is still arriving. *)
Definition decode_capsule (buf : list byte) : result (option (Z * list byte * Z)) string :=
  match decode buf with
  | None => Ok None
  | Some (cap_type, type_len) =>
      match decode (drop (Z.to_nat type_len) buf) with
      | None => Ok None
      | Some (len, len_len) =>
          if MAX_CAPSULE_VALUE_LEN <? len then Err CAPSULE_TOO_LONG
          else
            let header_len := type_len + len_len in
            let total := header_len + len in
            if Zlen buf <? total then Ok None
            else
              Ok (Some (cap_type, take (Z.to_nat len) (drop (Z.to_nat header_len) buf), total))
      end
  end.

Definition CONTEXT_ID_RAW_UDP : Z := 0.

(** [udp_datagram_payload::encode] and [decode]. *)
Definition encode_udp (udp_payload : list byte) : result (list byte) Z :=
  let (out, r) := encode CONTEXT_ID_RAW_UDP [] in
  let* _ := r in
  Ok (out ++ udp_payload).

Definition decode_udp (buf : list byte) : option (list byte) :=
  let? (context_id, consumed) := decode buf in
  if negb (context_id =? CONTEXT_ID_RAW_UDP) then None
  else Some (drop (Z.to_nat consumed) buf).

(** ** The pumps *)

Definition PUMP_CAPACITY : Z := 256.
Definition DROP_LOG_EVERY : Z := 1000.

Inductive Direction := Outbound | Inbound.

(** A socket's drop counters, the process-wide totals, and the lines logged (newest last). *)
Record DropCounters := {
  outbound : Z;
  inbound : Z;
  outbound_total : Z;
  inbound_total : Z;
  drop_log : list (Direction * Z)
}.

(** [fetch_add(1)] on an [AtomicU64] wraps. *)
Definition note_drop (dir : Direction) (c : DropCounters) : DropCounters :=
  let n := wrap 64 (match dir with Outbound => outbound c | Inbound => inbound c end + 1) in
  let log := if n mod DROP_LOG_EVERY =? 0 then [(dir, n)] else [] in
  match dir with
  | Outbound =>
      {| outbound := n; inbound := inbound c;
         outbound_total := wrap 64 (outbound_total c + 1); inbound_total := inbound_total c;
         drop_log := drop_log c ++ log |}
  | Inbound =>
      {| outbound := outbound c; inbound := n;
         outbound_total := outbound_total c; inbound_total := wrap 64 (inbound_total c + 1);
         drop_log := drop_log c ++ log |}
  end.

(** The two synthetic addresses of a socket, in the target's family. *)
Definition loopback (target : SocketAddr) (port : Z) : SocketAddr :=
  match sock_ip target with
  | V6 _ => {| sock_ip := V6 [0; 0; 0; 0; 0; 0; 0; 1]; sock_port := port; sock_scope := 0 |}
  | V4 _ _ _ _ => {| sock_ip := V4 127 0 0 1; sock_port := port; sock_scope := 0 |}
  end.

Section Pumps.
Context {Q : Type -> Type} `{QueueLaws Q}.

(** [mpsc::Sender::try_send] on a channel of [PUMP_CAPACITY], and [offer] over it. *)
Inductive TrySend := Sent (q : Q (list byte)) | Full | Closed.

Definition try_send_on (payload : list byte) (q : Q (list byte)) : TrySend :=
  match q_send payload q with
  | None => Closed
  | Some q' => if PUMP_CAPACITY <=? Zlen (q_items q) then Full else Sent q'
  end.

Definition offer (dir : Direction) (payload : list byte) (q : Q (list byte)) (c : DropCounters)
  : option (Q (list byte) * DropCounters) :=
  match try_send_on payload q with
  | Sent q => Some (q, c)
  | Full => Some (q, note_drop dir c)
  | Closed => None
  end.

(** [MasqueUdpSocket] with what its inbound pump holds. *)
Record MasqueUdpSocket := {
  to_send : Q (list byte);
  recv_rx : Q (list byte);
  drops : DropCounters;
  local_addr : SocketAddr;
  peer_addr : SocketAddr;
  buf : list byte
}.

Definition fresh_drops (outbound_total inbound_total : Z) : DropCounters :=
  {| outbound := 0; inbound := 0; outbound_total := outbound_total; inbound_total := inbound_total;
     drop_log := [] |}.

(** [MasqueUdpSocket::spawn]; the process-wide totals are what they were. *)
Definition spawn (target : SocketAddr) (outbound_total inbound_total : Z) : MasqueUdpSocket * SocketAddr :=
  let peer := loopback target (sock_port target) in
  ({| to_send := q_new (list byte); recv_rx := q_new (list byte);
      drops := fresh_drops outbound_total inbound_total;
      local_addr := loopback target 0; peer_addr := peer; buf := [] |}, peer).

Definition with_inbound (b : list byte) (q : Q (list byte)) (d : DropCounters) (s : MasqueUdpSocket)
  : MasqueUdpSocket :=
  {| to_send := to_send s; recv_rx := q; drops := d; local_addr := local_addr s;
     peer_addr := peer_addr s; buf := b |}.
Definition with_outbound (q : Q (list byte)) (d : DropCounters) (s : MasqueUdpSocket) : MasqueUdpSocket :=
  {| to_send := q; recv_rx := recv_rx s; drops := d; local_addr := local_addr s;
     peer_addr := peer_addr s; buf := buf s |}.

(** What the outbound pump hands to the HTTP/2 stream for one datagram: nothing if an encoder
    failed. *)
Definition frame_datagram (payload : list byte) : option (list byte) :=
  match (let* p := encode_udp payload in encode_datagram p) with
  | Ok framed => Some framed
  | Err _ => None
  end.

(** One turn of the outbound pump: the frame it hands over, [None] when nothing is queued. *)
Definition outbound_turn (s : MasqueUdpSocket) : option (MasqueUdpSocket * option (list byte)) :=
  let? (payload, q) := q_recv (to_send s) in
  Some (with_outbound q (drops s) s, frame_datagram payload).

(** The inner loop of the inbound pump over [buf]: every complete capsule is taken off, its
    datagram offered; [None]: the pump returned.  Every capsule has at least two bytes, so as many
    rounds as the buffer has bytes, plus one, are enough. *)
Fixpoint take_capsules (fuel : nat) (b : list byte) (q : Q (list byte)) (d : DropCounters)
  : option (list byte * Q (list byte) * DropCounters) :=
  match fuel with
  | O => None
  | S fuel =>
      match decode_capsule b with
      | Ok (Some (cap_type, value, consumed)) =>
          let offered :=
            if cap_type =? 0 then
              match decode_udp value with
              | Some udp_payload => offer Inbound udp_payload q d
              | None => Some (q, d)
              end
            else Some (q, d) in
          let? (q, d) := offered in
          take_capsules fuel (drop (Z.to_nat consumed) b) q d
      | Ok None => Some (b, q, d)
      | Err _ => None
      end
  end.

(** One chunk of the HTTP/2 stream; [released]: the flow-control capacity could be given back. *)
Definition inbound_chunk (chunk : list byte) (released : bool) (s : MasqueUdpSocket) : option MasqueUdpSocket :=
  if negb released then None
  else
    let b := buf s ++ chunk in
    let? (b, q, d) := take_capsules (S (length b)) b (recv_rx s) (drops s) in
    Some (with_inbound b q d s).

(** ** quinn's side: [try_send] and [poll_recv] *)

Inductive SocketError := BrokenPipe (text : string).
Definition TUNNEL_CLOSED : SocketError := BrokenPipe "MASQUE tunnel closed".

Definition try_send (contents : list byte) (s : MasqueUdpSocket) : result MasqueUdpSocket SocketError :=
  match offer Outbound contents (to_send s) (drops s) with
  | Some (q, d) => Ok (with_outbound q d s)
  | None => Err TUNNEL_CLOSED
  end.

Record RecvMeta := { addr : SocketAddr; len : Z; stride : Z }.

(** [poll_recv] with a first buffer of [room] bytes; [all_gone]: the inbound pump has returned. *)
Definition poll_recv (room : Z) (all_gone : bool) (s : MasqueUdpSocket)
  : Poll (result (list byte * RecvMeta) SocketError) * MasqueUdpSocket :=
  match q_recv (recv_rx s) with
  | Some (payload, q) =>
      let n := Z.min (Zlen payload) room in
      (Ready (Ok (take (Z.to_nat n) payload, {| addr := peer_addr s; len := n; stride := n |})),
       with_inbound (buf s) q (drops s) s)
  | None => if all_gone then (Ready (Err TUNNEL_CLOSED), s) else (Pending, s)
  end.
End Pumps.

(** ** The request path ([mod.rs]) *)

Definition CONNECT_UDP_PATH_PREFIX : string := "/.well-known/masque/udp".

(** [str::replace] of one character. *)
Fixpoint replace_char (c : ascii) (by_ : string) (s : string) : string :=
  match s with
  | EmptyString => EmptyString
  | String a s => if Ascii.eqb a c then (by_ +:+ replace_char c by_ s)%string else String a (replace_char c by_ s)
  end.

Definition encode_target_host (a : SocketAddr) : string :=
  match sock_ip a with
  | V4 _ _ _ _ => show_ip (sock_ip a)
  | V6 _ => replace_char ":" "%3A" (show_ip (sock_ip a))
  end.

Definition connect_udp_path (target : SocketAddr) : string :=
  (CONNECT_UDP_PATH_PREFIX +:+ "/" +:+ encode_target_host target +:+ "/" +:+ show (sock_port target) +:+ "/")%string.

(** ** Varints come back *)

(** The first byte of a tagged big-endian value is its tag and top bits; the rest is the rest. *)
Lemma tagged_bytes (k : nat) (p v : Z) :
  0 <= p < 4 -> 0 <= v < 2 ^ (8 * Z.of_nat k + 6) ->
  exists first tail, be_bytes (S k) (p * 2 ^ (8 * Z.of_nat k + 6) + v) = first :: tail /\ length tail = k /\
    u8 first = p * 64 + v / 2 ^ (8 * Z.of_nat k) /\ be_value tail = v mod 2 ^ (8 * Z.of_nat k).
Proof.
  intros Hp Hv. set (w := p * 2 ^ (8 * Z.of_nat k + 6) + v).
  assert (0 < 2 ^ (8 * Z.of_nat k)) as Hpos by (apply Z.pow_pos_nonneg; lia).
  assert (2 ^ (8 * Z.of_nat k + 6) = 64 * 2 ^ (8 * Z.of_nat k)) as Hsix.
  { rewrite Z.pow_add_r by lia. lia. }
  assert (256 ^ Z.of_nat k = 2 ^ (8 * Z.of_nat k)) as H256 by (by rewrite Z.pow_mul_r by lia).
  pose proof (length_be_bytes (S k) w) as Hl.
  destruct (be_bytes (S k) w) as [|first tail] eqn:E; [done|]. injection Hl as Hl.
  assert (be_value (first :: tail) = w) as Hbv.
  { rewrite <-E. apply be_value_be_bytes_small. rewrite Nat2Z.inj_succ, Z.pow_succ_r by lia.
    rewrite H256. unfold w. nia. }
  rewrite be_value_cons, Hl, H256 in Hbv.
  pose proof (be_value_range tail) as Ht. rewrite Hl, H256 in Ht.
  pose proof (Z.div_mod v (2 ^ (8 * Z.of_nat k)) ltac:(lia)) as Hdm.
  pose proof (Z.mod_pos_bound v (2 ^ (8 * Z.of_nat k)) ltac:(lia)) as Hmb.
  destruct (Z.div_mod_unique (2 ^ (8 * Z.of_nat k)) (u8 first) (p * 64 + v / 2 ^ (8 * Z.of_nat k))
    (be_value tail) (v mod 2 ^ (8 * Z.of_nat k))) as [Hq Hr]; [by left|by left|unfold w in Hbv; nia|].
  by exists first, tail.
Qed.

Lemma shift_in_small v b : 0 <= v < 2 ^ 56 -> shift_in v b = v * 256 + u8 b.
Proof.
  intros Hv. unfold shift_in, wrap. rewrite Z.shiftl_mul_pow2 by lia.
  rewrite Z.mod_small by lia. pose proof (u8_range b).
  rewrite (lor_low v (u8 b) 8) by lia. done.
Qed.

Lemma fold_shift_in l v :
  0 <= v -> (v + 1) * 256 ^ Zlen l <= 2 ^ 62 ->
  fold_left shift_in l v = v * 256 ^ Zlen l + be_value l.
Proof.
  revert v. induction l as [|b l IH]; intros v Hv Hb; simpl.
  { simpl in *. assert (be_value [] = 0) as -> by done. lia. }
  cbn [length] in *. rewrite Nat2Z.inj_succ, Z.pow_succ_r in * by lia. pose proof (u8_range b).
  assert (0 < 256 ^ Zlen l) by (apply Z.pow_pos_nonneg; lia).
  assert (0 <= v < 2 ^ 56) as Hv'.
  { split; [done|]. nia. }
  rewrite shift_in_small by done. rewrite IH by nia. rewrite be_value_cons. ring.
Qed.

(** The four lengths of a varint. *)
Definition varint_len (p : Z) : nat := Z.to_nat (Z.shiftl 1 p).

Lemma varint_len_range p : 0 <= p < 4 -> 1 <= Z.shiftl 1 p <= 8.
Proof.
  intros Hp. assert (p = 0 \/ p = 1 \/ p = 2 \/ p = 3) as [->|[->|[->| ->]]] by lia; split; vm_compute; congruence.
Qed.

Lemma tagged_decode (k : nat) p v rest :
  0 <= p < 4 -> S k = varint_len p -> 0 <= v < 2 ^ (8 * Z.of_nat k + 6) ->
  let e := be_bytes (S k) (p * 2 ^ (8 * Z.of_nat k + 6) + v) in
  decode (e ++ rest) = Some (v, Z.of_nat (S k)) /\
  forall j, (j < S k)%nat -> decode (take j e) = None.
Proof.
  intros Hp Hk Hv e. destruct (tagged_bytes k p v Hp Hv) as (first & tail & E & Hl & Hf & Ht).
  unfold e. rewrite E. clear e E.
  assert (0 < 2 ^ (8 * Z.of_nat k)) as Hpos by (apply Z.pow_pos_nonneg; lia).
  assert (2 ^ (8 * Z.of_nat k + 6) = 64 * 2 ^ (8 * Z.of_nat k)) as Hsix.
  { rewrite Z.pow_add_r by lia. lia. }
  assert (0 <= v / 2 ^ (8 * Z.of_nat k) < 64) as Hd.
  { split; [apply Z.div_pos; lia|]. apply Z.div_lt_upper_bound; lia. }
  assert (Z.shiftr (u8 first) 6 = p) as Hs.
  { rewrite Z.shiftr_div_pow2, Hf by lia. change (2 ^ 6) with 64.
    rewrite Z.div_add_l by lia. rewrite (Z.div_small (v / _)) by lia. lia. }
  assert (Z.shiftl 1 p = Z.of_nat (S k)) as Hlen.
  { rewrite Hk. unfold varint_len. rewrite Z2Nat.id; [done|]. rewrite Z.shiftl_mul_pow2 by lia. nia. }
  assert (Z.land (u8 first) 63 = v / 2 ^ (8 * Z.of_nat k)) as Hm.
  { change 63 with (Z.ones 6). rewrite Z.land_ones, Hf by lia. change (2 ^ 6) with 64.
    rewrite Z.add_comm, Z.mod_add by lia. apply Z.mod_small. lia. }
  split.
  - cbn [decode app]. rewrite Hs, Hlen, Hm.
    rewrite (proj2 (Z.ltb_ge _ _)) by (cbn [length]; rewrite length_app, Hl; lia).
    rewrite take_app_length' by lia. f_equal. f_equal.
    assert (256 ^ Zlen tail = 2 ^ (8 * Z.of_nat k)) as H256.
    { rewrite Hl. by rewrite Z.pow_mul_r by lia. }
    assert ((v / 2 ^ (8 * Z.of_nat k) + 1) * 256 ^ Zlen tail <= 2 ^ 62) as Hb.
    { rewrite H256. assert (2 ^ (8 * Z.of_nat k) <= 2 ^ 56); [|nia].
      apply Z.pow_le_mono_r; [lia|]. enough (k <= 7)%nat by lia.
      pose proof (varint_len_range p Hp) as Hr. unfold varint_len in Hk. lia. }
    rewrite fold_shift_in by lia. rewrite H256, Ht. pose proof (Z.div_mod v (2 ^ (8 * Z.of_nat k))). lia.
  - intros [|j] Hj; [done|]. cbn [decode take]. rewrite Hs, Hlen.
    rewrite (proj2 (Z.ltb_lt _ _)); [done|]. cbn [length]. rewrite length_take, Hl. lia.
Qed.

(** The bytes of a value that has a varint. *)
Definition varint (v : Z) : list byte := fst (encode v []).

Lemma encode_app v out : encode v out = (out ++ varint v, snd (encode v [])).
Proof.
  unfold varint, encode. repeat case_match; simpl; try done. by rewrite app_nil_r.
Qed.

Lemma varint_decode v :
  0 <= v <= MAX_VARINT ->
  snd (encode v []) = Ok tt /\ (forall rest, decode (varint v ++ rest) = Some (v, Zlen (varint v))) /\
  (forall j, (j < length (varint v))%nat -> decode (take j (varint v)) = None) /\ (0 < length (varint v) <= 8)%nat.
Proof.
  intros Hv. change MAX_VARINT with (2 ^ 62 - 1) in Hv.
  assert (exists k p, varint v = be_bytes (S k) (p * 2 ^ (8 * Z.of_nat k + 6) + v) /\
    snd (encode v []) = Ok tt /\ 0 <= p < 4 /\ S k = varint_len p /\ 0 <= v < 2 ^ (8 * Z.of_nat k + 6) /\ (k < 8)%nat)
    as (k & p & Hvar & Hok & Hp & Hk & Hlt & Hk8).
  { unfold varint, encode. change MAX_VARINT with (2 ^ 62 - 1). rewrite !Z.shiftl_mul_pow2 by lia.
    change (1 * 2 ^ 6) with (2 ^ 6). change (1 * 2 ^ 14) with (2 ^ 14). change (1 * 2 ^ 30) with (2 ^ 30).
    unfold wrap.
    destruct (Z.ltb_spec v (2 ^ 6)).
    { exists 0%nat, 0. rewrite be_bytes_single. split_and!; try done; lia. }
    destruct (Z.ltb_spec v (2 ^ 14)).
    { exists 1%nat, 1. rewrite Z.mod_small, Z.lor_comm by lia.
      change 16384 with (1 * 2 ^ 14). rewrite lor_low by lia. split_and!; try done; lia. }
    destruct (Z.ltb_spec v (2 ^ 30)).
    { exists 3%nat, 2. rewrite Z.mod_small, Z.lor_comm by lia.
      change 2147483648 with (2 * 2 ^ 30). rewrite lor_low by lia. split_and!; try done; lia. }
    rewrite (proj2 (Z.leb_le _ _)) by lia. exists 7%nat, 3. rewrite Z.lor_comm.
    change 13835058055282163712 with (3 * 2 ^ 62). rewrite lor_low by lia. split_and!; try done; lia. }
  rewrite Hvar, length_be_bytes. split; [done|].
  split; [|split]; [| |lia].
  - intros rest. by apply tagged_decode.
  - by apply (tagged_decode k p v []).
Qed.

Lemma decode_extend b v n x : decode b = Some (v, n) -> decode (b ++ x) = Some (v, n).
Proof.
  destruct b as [|first b]; [done|]. cbn [decode app].
  set (len := Z.shiftl 1 (Z.shiftr (u8 first) 6)). cbn [length].
  destruct (Z.ltb_spec (Z.of_nat (S (length b))) len); [done|].
  rewrite (proj2 (Z.ltb_ge _ _)) by (rewrite length_app; lia).
  intros [= <- <-]. rewrite take_app_le by lia. done.
Qed.

Lemma decode_bounds b v n : decode b = Some (v, n) -> 0 <= v <= MAX_VARINT /\ 1 <= n <= 8 /\ n <= Zlen b.
Proof.
  destruct b as [|first b]; [done|]. cbn [decode]. pose proof (u8_range first).
  set (p := Z.shiftr (u8 first) 6).
  assert (0 <= p < 4) as Hp.
  { unfold p. rewrite Z.shiftr_div_pow2 by lia. change (2 ^ 6) with 64.
    split; [apply Z.div_pos; lia|]. apply Z.div_lt_upper_bound; lia. }
  set (m := Z.land (u8 first) 63).
  assert (0 <= m < 64) as Hm.
  { unfold m. change 63 with (Z.ones 6). rewrite Z.land_ones by lia. apply Z.mod_pos_bound. lia. }
  destruct (Z.ltb_spec (Zlen (first :: b)) (Z.shiftl 1 p)) as [|Hle]; [done|]. intros [= <- <-].
  set (l := take _ b).
  pose proof (varint_len_range p Hp) as Hs.
  assert (Zlen l = Z.shiftl 1 p - 1) as Hl.
  { unfold l. rewrite length_take. cbn [length] in Hle. lia. }
  assert (256 ^ Zlen l <= 256 ^ 7) as H256 by (apply Z.pow_le_mono_r; lia).
  split; [|lia]. pose proof (be_value_range l) as Hr. change (256 ^ 7) with 72057594037927936 in H256.
  change MAX_VARINT with 4611686018427387903.
  assert ((m + 1) * 256 ^ Zlen l <= 64 * 72057594037927936) by (apply Z.mul_le_mono_nonneg; lia).
  rewrite fold_shift_in by lia. lia.
Qed.

(** QUIC varints come back: a value of at most 62 bits is appended as one, two, four or eight
    bytes that decode to it -- whatever follows them -- while no strict prefix of them decodes to
    anything; any other value is refused with nothing written. *)
Theorem varint_roundtrip v out :
  0 <= v ->
  if v <=? MAX_VARINT then
    exists e, encode v out = (out ++ e, Ok tt) /\ (0 < length e <= 8)%nat /\
      (forall rest, decode (e ++ rest) = Some (v, Zlen e)) /\
      (forall j, (j < length e)%nat -> decode (take j e) = None)
  else encode v out = (out, Err v).
Proof.
  intros Hv. destruct (Z.leb_spec v MAX_VARINT) as [Hle|Hgt].
  - exists (varint v). destruct (varint_decode v) as (Hok & Hd & Hp & Hl); [lia|].
    by rewrite encode_app, Hok.
  - unfold encode. change MAX_VARINT with 4611686018427387903 in *.
    rewrite !(proj2 (Z.ltb_ge _ _)) by (rewrite Z.shiftl_mul_pow2 by lia; lia).
    by rewrite (proj2 (Z.leb_gt _ _)) by lia.
Qed.

Lemma varint_roundtrip_witness : exists e, encode 16384 [] = (e, Ok tt) /\ decode (take 2 e) = None.
Proof.
  destruct (varint_roundtrip 16384 [] ltac:(lia)) as (e & He & _ & _ & Hp).
  exists e. split; [exact He|]. apply Hp.
  assert (e = [Byte.x80; Byte.x00; Byte.x40; Byte.x00]) as ->.
  { assert (fst (encode 16384 []) = e) as <- by (by rewrite He). vm_compute. reflexivity. }
  simpl. lia.
Defined.

(** ** Capsules come back, and are never seen half *)

Lemma varint_zero : varint 0 = [Byte.x00].
Proof. by vm_compute. Qed.

(** The largest UDP payload (RFC 9298). *)
Definition MAX_UDP_PAYLOAD : Z := 65527.

Lemma encode_udp_eq p : encode_udp p = Ok (Byte.x00 :: p).
Proof. done. Qed.

Lemma encode_datagram_eq p :
  Zlen p <= MAX_CAPSULE_VALUE_LEN -> encode_datagram p = Ok (Byte.x00 :: varint (Zlen p) ++ p).
Proof.
  intros Hp. unfold encode_datagram. change DATAGRAM_CAPSULE_TYPE with 0.
  rewrite (encode_app 0), (encode_app (Zlen p)).
  change MAX_CAPSULE_VALUE_LEN with 65535 in Hp.
  destruct (varint_decode (Zlen p)) as (-> & _); [change MAX_VARINT with 4611686018427387903; lia|].
  change (snd (encode 0 [])) with (Ok (E := Z) tt). rewrite varint_zero. done.
Qed.

Lemma frame_datagram_eq p :
  Zlen p <= MAX_UDP_PAYLOAD -> frame_datagram p = Some (Byte.x00 :: varint (Zlen p + 1) ++ Byte.x00 :: p).
Proof.
  intros Hp. unfold frame_datagram. rewrite encode_udp_eq. cbn [rbind].
  rewrite encode_datagram_eq.
  - do 3 f_equal. cbn [length]. f_equal. lia.
  - change MAX_CAPSULE_VALUE_LEN with 65535. change MAX_UDP_PAYLOAD with 65527 in Hp. cbn [length]. lia.
Qed.

Lemma decode_zero rest : decode (Byte.x00 :: rest) = Some (0, 1).
Proof.
  cbn [decode]. change (Z.shiftl 1 (Z.shiftr (u8 Byte.x00) 6)) with 1.
  rewrite (proj2 (Z.ltb_ge _ _)) by (cbn [length]; lia). done.
Qed.

(** What a buffer that starts with a frame, or ends within one, decodes to. *)
Lemma decode_capsule_frame p f rest :
  Zlen p <= MAX_UDP_PAYLOAD -> frame_datagram p = Some f ->
  decode_capsule (f ++ rest) = Ok (Some (0, Byte.x00 :: p, Zlen f)) /\
  (forall j, (j < length f)%nat -> decode_capsule (take j f) = Ok None).
Proof.
  intros Hp Hf. rewrite frame_datagram_eq in Hf by done. injection Hf as <-.
  assert (0 <= Zlen p + 1 <= MAX_VARINT) as Hv.
  { change MAX_VARINT with 4611686018427387903. change MAX_UDP_PAYLOAD with 65527 in Hp. lia. }
  destruct (varint_decode _ Hv) as (_ & Hd & Hpre & Hl). set (e := varint (Zlen p + 1)) in *.
  assert (MAX_CAPSULE_VALUE_LEN <? Zlen p + 1 = false) as Hmax.
  { apply Z.ltb_ge. change MAX_CAPSULE_VALUE_LEN with 65535. change MAX_UDP_PAYLOAD with 65527 in Hp. lia. }
  unfold decode_capsule. split.
  - rewrite <-app_comm_cons, decode_zero. change (Z.to_nat 1) with 1%nat. rewrite skipn_cons, drop_0.
    rewrite <-app_assoc, Hd, Hmax.
    rewrite (proj2 (Z.ltb_ge _ _)) by (cbn [length]; rewrite !length_app; cbn [length]; lia).
    do 3 f_equal; [f_equal|].
    + replace (Z.to_nat (1 + Zlen e)) with (S (length e)) by lia. rewrite skipn_cons.
      rewrite drop_app_length. replace (Z.to_nat (Zlen p + 1)) with (S (length p)) by lia.
      cbn [app]. rewrite firstn_cons. by rewrite take_app_length.
    + cbn [length]. rewrite length_app. cbn [length]. lia.
  - intros [|j] Hj; [done|]. rewrite firstn_cons, decode_zero. change (Z.to_nat 1) with 1%nat. rewrite skipn_cons, drop_0.
    cbn [length] in Hj. rewrite length_app in Hj. cbn [length] in Hj.
    destruct (Nat.lt_ge_cases j (length e)) as [Hlt|Hge].
    + rewrite take_app_le by lia. by rewrite Hpre.
    + rewrite take_app_ge, Hd, Hmax by lia.
      rewrite (proj2 (Z.ltb_lt _ _)); [done|]. cbn [length]. rewrite length_app, length_take. cbn [length]. lia.
Qed.

Lemma frame_nonempty p f : Zlen p <= MAX_UDP_PAYLOAD -> frame_datagram p = Some f -> (0 < length f)%nat.
Proof. intros Hp. rewrite frame_datagram_eq by done. intros [= <-]. simpl. lia. Qed.

(** ** The inbound direction of a tunnel *)

Section Delivery.
Context {Q : Type -> Type} `{QueueLaws Q}.

(** A run of a socket: chunks of the HTTP/2 stream arrive, and quinn reads with a buffer of
    [room] bytes.  The payloads read, in order. *)
Inductive InEvent := Chunk (c : list byte) | Read (room : Z).

Fixpoint run_inbound (evs : list InEvent) (s : MasqueUdpSocket (Q := Q))
  : option (MasqueUdpSocket (Q := Q) * list (list byte)) :=
  match evs with
  | [] => Some (s, [])
  | Chunk c :: evs => let? s := inbound_chunk c true s in run_inbound evs s
  | Read room :: evs =>
      match poll_recv room false s with
      | (Ready (Ok (p, _)), s) => let? (s, got) := run_inbound evs s in Some (s, p :: got)
      | (Ready (Err _), _) => None
      | (Pending, s) => run_inbound evs s
      end
  end.

Definition chunk_of (e : InEvent) : list byte := match e with Chunk c => c | Read _ => [] end.
Definition reads_whole (e : InEvent) : Prop :=
  match e with Chunk _ => True | Read room => MAX_UDP_PAYLOAD <= room end.

(** The reference: a queue for [PUMP_CAPACITY] datagrams that drops at its tail. *)
Inductive TailEvent := Arrives (p : list byte) | Taken.
Record Tail := { tail_got : list (list byte); tail_queue : list (list byte); tail_dropped : Z }.
Definition tail_start : Tail := {| tail_got := []; tail_queue := []; tail_dropped := 0 |}.
Definition tail_step (t : Tail) (e : TailEvent) : Tail :=
  match e with
  | Arrives p =>
      if PUMP_CAPACITY <=? Zlen (tail_queue t)
      then {| tail_got := tail_got t; tail_queue := tail_queue t; tail_dropped := tail_dropped t + 1 |}
      else {| tail_got := tail_got t; tail_queue := tail_queue t ++ [p]; tail_dropped := tail_dropped t |}
  | Taken =>
      match tail_queue t with
      | p :: q => {| tail_got := tail_got t ++ [p]; tail_queue := q; tail_dropped := tail_dropped t |}
      | [] => t
      end
  end.
Fixpoint tail_run (es : list TailEvent) (t : Tail) : Tail :=
  match es with [] => t | e :: es => tail_run es (tail_step t e) end.

(** The datagrams whose frames [n] bytes complete, the others, and the bytes left of the [n]. *)
Fixpoint arrived (n : nat) (ps : list (list byte)) : list (list byte) * list (list byte) * nat :=
  match ps with
  | [] => ([], [], n)
  | p :: rest =>
      match frame_datagram p with
      | Some f =>
          if (length f <=? n)%nat then let '(now, later, left_) := arrived (n - length f) rest in (p :: now, later, left_)
          else ([], ps, n)
      | None => ([], ps, n)
      end
  end.
(** A datagram arrives with the last byte of its frame. *)
Fixpoint timeline (seen : nat) (evs : list InEvent) (ps : list (list byte)) : list TailEvent :=
  match evs with
  | [] => []
  | Chunk c :: evs =>
      let '(now, later, left_) := arrived (seen + length c) ps in map Arrives now ++ timeline left_ evs later
  | Read _ :: evs => Taken :: timeline seen evs ps
  end.

Fixpoint arrivals (es : list TailEvent) : list (list byte) :=
  match es with [] => [] | Arrives p :: es => p :: arrivals es | Taken :: es => arrivals es end.

Lemma arrivals_chunk now es : arrivals (map Arrives now ++ es) = now ++ arrivals es.
Proof. induction now as [|p now IH]; [done|]. cbn. by f_equal. Qed.
Lemma tail_run_app es es' t : tail_run (es ++ es') t = tail_run es' (tail_run es t).
Proof. revert t. induction es as [|e es IH]; intros t; [done|]. apply IH. Qed.
(** Datagrams that arrive are not read yet. *)
Lemma tail_run_chunk now t : tail_got (tail_run (map Arrives now) t) = tail_got t.
Proof. revert t. induction now as [|p now IH]; intros t; [done|]. cbn [map tail_run]. rewrite IH. cbn [tail_step]. by destruct (_ <=? _). Qed.
Lemma tail_run_queued (P : list byte -> Prop) now t :
  Forall P (tail_queue t) -> Forall P now -> Forall P (tail_queue (tail_run (map Arrives now) t)).
Proof.
  intros Hq Hn. revert t Hq. induction Hn as [|p now Hp Hn IH]; intros t Hq; [done|].
  apply IH. cbn [tail_step]. destruct (_ <=? _); [done|]. apply Forall_app; auto.
Qed.

Lemma tail_run_sublist es t ps :
  sublist (tail_got t ++ tail_queue t) ps ->
  sublist (tail_got (tail_run es t) ++ tail_queue (tail_run es t)) (ps ++ arrivals es).
Proof.
  revert t ps. induction es as [|[p|] es IH]; intros t ps Ht; cbn [tail_run arrivals]; [by rewrite app_nil_r|..].
  - change (p :: arrivals es) with ([p] ++ arrivals es). rewrite app_assoc. apply IH. cbn [tail_step].
    destruct (_ <=? _); cbn; [by apply sublist_inserts_r|]. rewrite app_assoc. by apply sublist_app.
  - apply IH. cbn [tail_step]. destruct (tail_queue t) as [|p q] eqn:E; cbn; rewrite ?E; [done|].
    by rewrite <-app_assoc.
Qed.
Lemma tail_run_count es t :
  Zlen (tail_got (tail_run es t) ++ tail_queue (tail_run es t)) + tail_dropped (tail_run es t)
  = Zlen (tail_got t ++ tail_queue t) + tail_dropped t + Zlen (arrivals es).
Proof.
  revert t. induction es as [|[p|] es IH]; intros t; cbn [tail_run arrivals]; [cbn; lia|..];
    rewrite IH; cbn [tail_step length].
  - destruct (_ <=? _); cbn; rewrite ?length_app; cbn; rewrite ?length_app; cbn; lia.
  - destruct (tail_queue t) as [|p q] eqn:E; cbn; rewrite ?E, ?length_app; cbn; rewrite ?length_app; cbn; lia.
Qed.

(** The pump's queue and counter are the reference's. *)
Record tail_inv (t : Tail) (q : Q (list byte)) (d : DropCounters) : Prop := {
  ti_queue : q_items q = tail_queue t;
  ti_live : q_gone q = false;
  ti_drops : inbound d = wrap 64 (tail_dropped t)
}.

Lemma offer_inv t q d p :
  tail_inv t q d ->
  exists q' d', offer Inbound p q d = Some (q', d') /\ tail_inv (tail_step t (Arrives p)) q' d'.
Proof.
  intros [Hk Hl Hd]. unfold offer, try_send_on. cbn [tail_step]. rewrite <-Hk.
  destruct (q_send p q) as [q'|] eqn:E; [|apply q_send_gone in E; congruence].
  apply q_send_items in E as [Hi Hg].
  destruct (Z.leb_spec PUMP_CAPACITY (Zlen (q_items q))) as [Hfull|Hroom].
  - exists q, (note_drop Inbound d). split; [done|]. split; try done.
    cbn. rewrite Hd. unfold wrap. by rewrite Zplus_mod_idemp_l.
  - exists q', d. split; [done|]. split; cbn; congruence.
Qed.

Lemma recv_inv t q d p q' :
  tail_inv t q d -> q_recv q = Some (p, q') ->
  tail_inv (tail_step t Taken) q' d /\ tail_got (tail_step t Taken) = tail_got t ++ [p].
Proof.
  intros [Hk Hl Hd] E. pose proof (q_recv_items _ q) as Hx. rewrite E in Hx. destruct Hx as [Hi Hg].
  cbn [tail_step]. rewrite <-Hk, Hi. split; [|done]. split; cbn; congruence.
Qed.

Lemma decode_capsule_nil : decode_capsule [] = Ok None.
Proof. done. Qed.

(** The buffer holds no complete frame of those still to come. *)
Definition incomplete (b : list byte) (ps : list (list byte)) : Prop :=
  match ps with
  | [] => b = []
  | p :: _ => forall f, frame_datagram p = Some f -> (length b < length f)%nat
  end.

(** The pump's inner loop on a buffer inside a stream of frames: it offers the datagrams whose
    frames are complete and keeps the rest. *)
Lemma take_capsules_frames fuel b rem ps t q d :
  Forall (fun p => Zlen p <= MAX_UDP_PAYLOAD) ps -> b ++ rem = concat (omap frame_datagram ps) ->
  (length b < fuel)%nat -> tail_inv t q d ->
  exists b' q' d' now later, take_capsules fuel b q d = Some (b', q', d') /\
    arrived (length b) ps = (now, later, length b') /\ ps = now ++ later /\
    b' ++ rem = concat (omap frame_datagram later) /\ tail_inv (tail_run (map Arrives now) t) q' d' /\
    incomplete b' later.
Proof.
  revert b ps t q d. induction fuel as [|fuel IH]; intros b ps t q d Hps Hb Hfuel Hs; [lia|].
  cbn [take_capsules]. destruct ps as [|p ps].
  { simpl in Hb. apply app_eq_nil in Hb as [-> ->].
    exists [], q, d, [], []. rewrite decode_capsule_nil. by split_and!. }
  apply Forall_cons in Hps as [Hp Hps].
  pose proof (frame_datagram_eq p Hp) as Hf. set (f := Byte.x00 :: _) in Hf.
  cbn [omap list_omap] in Hb. rewrite Hf in Hb. cbn [concat] in Hb.
  destruct (decode_capsule_frame p f (drop (length f) b) Hp Hf) as [Hdec Hpart].
  cbn [arrived]. rewrite Hf.
  destruct (Nat.lt_ge_cases (length b) (length f)) as [Hlt|Hge].
  - rewrite (proj2 (Nat.leb_gt _ _)) by done.
    assert (b = take (length b) f) as Heq.
    { rewrite <-(take_app_length b rem) at 1. rewrite Hb. by rewrite take_app_le by lia. }
    assert (decode_capsule b = Ok None) as -> by (rewrite Heq; by apply Hpart). exists b, q, d, [], (p :: ps).
    split_and!; try done.
    + cbn [omap list_omap]. by rewrite Hf.
    + intros f'. rewrite Hf. by intros [= <-].
  - rewrite (proj2 (Nat.leb_le _ _)) by done.
    clearbody f. assert (b = f ++ drop (length f) b) as Heq.
    { rewrite <-(take_drop (length f) b) at 1. f_equal.
      assert (take (length f) (b ++ rem) = f) as Ht by (by rewrite Hb, take_app_length).
      by rewrite take_app_le in Ht by lia. }
    rewrite <-Heq in Hdec. rewrite Hdec. cbn [Z.eqb]. unfold decode_udp. rewrite decode_zero. simpl.
    rewrite drop_0.
    destruct (offer_inv t q d p Hs) as (q1 & d1 & -> & Hs1).
    pose proof (frame_nonempty p f Hp Hf) as Hne.
    assert (drop (length f) b ++ rem = concat (omap frame_datagram ps)) as Hrest.
    { rewrite Heq, <-app_assoc in Hb. by apply app_inv_head in Hb. }
    destruct (IH (drop (length f) b) ps (tail_step t (Arrives p)) q1 d1) as (b' & q' & d' & now & later & E & Ea & -> & Hr & Hs' & Hend);
      try done.
    { rewrite length_drop. lia. }
    exists b', q', d', (p :: now), later. rewrite length_drop in Ea.
    replace (Z.to_nat (Zlen f)) with (length f) by lia.
    rewrite E, Ea. by split_and!.
Qed.

(** What holds between two events: [buf] is the start of the frames still to be taken. *)
Lemma run_inbound_frames evs s ps t rem :
  Forall (fun p => Zlen p <= MAX_UDP_PAYLOAD) (tail_queue t ++ ps) -> Forall reads_whole evs ->
  buf s ++ concat (map chunk_of evs) ++ rem = concat (omap frame_datagram ps) ->
  tail_inv t (recv_rx s) (drops s) -> incomplete (buf s) ps ->
  exists s' more later, run_inbound evs s = Some (s', more) /\
    ps = arrivals (timeline (length (buf s)) evs ps) ++ later /\
    buf s' ++ rem = concat (omap frame_datagram later) /\ incomplete (buf s') later /\
    let t' := tail_run (timeline (length (buf s)) evs ps) t in
    tail_inv t' (recv_rx s') (drops s') /\ tail_got t' = tail_got t ++ more.
Proof.
  revert s ps t. induction evs as [|e evs IH]; intros s ps t Hps Hev Hb Hs Hinc.
  { exists s, [], ps. rewrite !app_nil_r. by split_and!. }
  apply Forall_cons in Hev as [He Hev]. apply Forall_app in Hps as [Hq Hps]. destruct e as [c|room]; cbn [run_inbound timeline].
  - simpl in Hb. rewrite <-app_assoc, app_assoc in Hb.
    unfold inbound_chunk. cbn [negb].
    destruct (take_capsules_frames (S (length (buf s ++ c))) _ _ ps t _ _ Hps Hb ltac:(lia) Hs)
      as (b' & q' & d' & now & later & E & Ea & -> & Hr & Hs' & Hinc'). rewrite E.
    rewrite length_app in Ea. rewrite Ea. apply Forall_app in Hps as [Hnow Hlater].
    destruct (IH (with_inbound b' q' d' s) later (tail_run (map Arrives now) t))
      as (s' & more & later' & E2 & Hl & Hr2 & Hinc2 & Hs2 & Hg2); try done.
    { apply Forall_app. split; [|done]. by apply tail_run_queued. }
    exists s', more, later'. split; [done|]. split.
    { cbn [buf with_inbound] in Hl. by rewrite arrivals_chunk, <-app_assoc, <-Hl. }
    split; [done|]. split; [done|]. cbn zeta in *. cbn [buf with_inbound] in *. rewrite tail_run_app. split; [done|]. by rewrite Hg2, tail_run_chunk.
  - unfold poll_recv. destruct (q_recv (recv_rx s)) as [[p q]|] eqn:E.
    + pose proof (ti_queue _ _ _ Hs) as Hiq. pose proof (q_recv_items _ (recv_rx s)) as Hx. rewrite E in Hx. destruct Hx as [Hi _].
      rewrite <-Hiq, Hi in Hq. apply Forall_cons in Hq as [Hp Hq].
      rewrite Z.min_l by (simpl in He; lia). rewrite Nat2Z.id, firstn_all.
      destruct (recv_inv _ _ _ _ _ Hs E) as [Hs1 Hg1].
      destruct (IH (with_inbound (buf s) q (drops s) s) ps (tail_step t Taken)) as (s' & more & later & E2 & Hl & Hr & Hinc' & Hs' & Hg'); try done.
      { apply Forall_app. split; [|done]. rewrite <-(ti_queue _ _ _ Hs1). done. }
      rewrite E2. exists s', (p :: more), later. split; [done|]. split; [done|]. split; [done|]. split; [done|].
      split; [done|]. cbn zeta in *. cbn [tail_run buf with_inbound] in *. by rewrite Hg', Hg1, <-app_assoc.
    + pose proof (q_recv_items _ (recv_rx s)) as Hx. rewrite E in Hx. rewrite (ti_queue _ _ _ Hs) in Hx.
      assert (tail_step t Taken = t) as Ht by (cbn [tail_step]; by rewrite Hx).
      cbn [tail_run arrivals]. rewrite Ht. apply IH; try done. apply Forall_app; auto.
Qed.

End Delivery.

(** Two datagrams, their frames cut in the middle of the first capsule. *)
Definition demo_target : SocketAddr := {| sock_ip := V4 192 0 2 1; sock_port := 4433; sock_scope := 0 |}.
Definition demo_packets : list (list byte) := [[Byte.x61; Byte.x62]; []].
Definition demo_events : list InEvent :=
  [Chunk [Byte.x00; Byte.x03]; Read 65527; Chunk [Byte.x00; Byte.x61; Byte.x62; Byte.x00]; Read 65527;
   Chunk [Byte.x01; Byte.x00]].

