(* ===== verification/Health.v ===== *)
(** * Health: what a channel process reports about itself ([channel_run/health.rs])

    The counters behind [/healthz], [/readyz] and the shutdown drain, the tickets that move them,
    and the health probe's exit status.  A process is a [ChannelHealth] with the tickets that are
    alive; its history is the list of what happened to them. *)
From S2P Require Import Prelude Text Net.

Definition READY_GRACE_SECS : Z := 15.
Definition HEALTH_LISTEN_ENV : string := "CT_CHANNEL_HEALTH_LISTEN".

(** The counted things, and the two times that tickets stamp. *)
Inductive Counter := Established | Parked | Serving | ForwardStreams | QuicTails.
Inductive Stamp := SessionEndedAt | ParkEndedAt.

#[global] Instance Counter_eq_dec : EqDecision Counter.
Proof. solve_decision. Defined.
#[global] Instance Stamp_eq_dec : EqDecision Stamp.
Proof. solve_decision. Defined.

Record ChannelHealth := {
  established : Z;
  parked : Z;
  serving : Z;
  forward_streams : Z;
  quic_tails : Z;
  session_ended_at : Z;
  park_ended_at : Z;
  stopping : bool
}.

Definition new_health : ChannelHealth :=
  {| established := 0; parked := 0; serving := 0; forward_streams := 0; quic_tails := 0;
     session_ended_at := 0; park_ended_at := 0; stopping := false |}.

Definition load (c : Counter) (h : ChannelHealth) : Z :=
  match c with
  | Established => established h
  | Parked => parked h
  | Serving => serving h
  | ForwardStreams => forward_streams h
  | QuicTails => quic_tails h
  end.

(** [fetch_add] and [fetch_sub] of an [AtomicUsize] wrap. *)
Definition add_to (c : Counter) (d : Z) (h : ChannelHealth) : ChannelHealth :=
  let f k n := if decide (c = k) then wrap 64 (n + d) else n in
  {| established := f Established (established h); parked := f Parked (parked h);
     serving := f Serving (serving h); forward_streams := f ForwardStreams (forward_streams h);
     quic_tails := f QuicTails (quic_tails h); session_ended_at := session_ended_at h;
     park_ended_at := park_ended_at h; stopping := stopping h |}.

Definition store_at (s : Stamp) (now : Z) (h : ChannelHealth) : ChannelHealth :=
  {| established := established h; parked := parked h; serving := serving h;
     forward_streams := forward_streams h; quic_tails := quic_tails h;
     session_ended_at := if decide (s = SessionEndedAt) then now else session_ended_at h;
     park_ended_at := if decide (s = ParkEndedAt) then now else park_ended_at h;
     stopping := stopping h |}.

Definition set_stopping (h : ChannelHealth) : ChannelHealth :=
  {| established := established h; parked := parked h; serving := serving h;
     forward_streams := forward_streams h; quic_tails := quic_tails h;
     session_ended_at := session_ended_at h; park_ended_at := park_ended_at h; stopping := true |}.

(** ** Tickets *)

Record Ticket := { count : Counter; stamp : option Stamp }.
#[global] Instance Ticket_eq_dec : EqDecision Ticket.
Proof. solve_decision. Defined.

Definition ticket_new (c : Counter) (s : option Stamp) (h : ChannelHealth) : Ticket * ChannelHealth :=
  ({| count := c; stamp := s |}, add_to c 1 h).

Definition ticket_drop (t : Ticket) (now : Z) (h : ChannelHealth) : ChannelHealth :=
  let h := match stamp t with Some s => store_at s now h | None => h end in
  add_to (count t) (-1) h.

(** The ticket each entry point takes: [session_established], [parked], [serving],
    [forward_stream], [quic_tail]. *)
Definition ticket_for (c : Counter) : option Stamp :=
  match c with Established => Some SessionEndedAt | _ => None end.
Definition begin (c : Counter) (h : ChannelHealth) : Ticket * ChannelHealth :=
  ticket_new c (ticket_for c) h.

(** What the edge answered to a presented admission, as far as [parked] looks at it. *)
Inductive ChannelJoinOutcome := JoinAdmitted | ParkExpired | OtherOutcome.

(** [parked] when the answer came: a park the edge held is stamped before its ticket drops. *)
Definition park_answered {E} (outcome : result ChannelJoinOutcome E) (now : Z) (t : Ticket) (h : ChannelHealth)
  : ChannelHealth :=
  let t :=
    match outcome with
    | Ok JoinAdmitted | Ok ParkExpired => {| count := count t; stamp := Some ParkEndedAt |}
    | _ => t
    end in
  ticket_drop t now h.

(** ** What the process answers *)

Definition in_flight (forward : bool) (h : ChannelHealth) : Z :=
  if forward then forward_streams h
  else Z.max (serving h) (wrap 64 (established h + quic_tails h)).

Definition liveness (h : ChannelHealth) : string := if stopping h then "ok (shutting down)" else "ok".

Definition readiness_at (now : Z) (accept : bool) (h : ChannelHealth) : result string string :=
  if stopping h then Err "shutting down"
  else if 0 <? established h then Ok (show (established h) +:+ " session(s) established")%string
  else if accept && (0 <? parked h) then Ok "parked at the edge, waiting for a peer"
  else
    let park_ended := if accept then park_ended_at h else 0 in
    let last := Z.max (session_ended_at h) park_ended in
    let waiting := if accept then "no session established and not parked" else "no session established" in
    if last =? 0 then Err (waiting +:+ " yet")%string
    else
      let ago := sat_sub now last in
      if ago <? READY_GRACE_SECS then
        Ok ("between sessions (the last one ended " +:+ show ago +:+ "s ago, grace " +:+
            show READY_GRACE_SECS +:+ "s)")%string
      else Err (waiting +:+ " for " +:+ show ago +:+ "s")%string.

(** The routes: status code and body. *)
Definition newline : string := String "010"%char "".
Definition healthz (h : ChannelHealth) : Z * string := (200, (liveness h +:+ newline)%string).
Definition readyz (now : Z) (accept : bool) (h : ChannelHealth) : Z * string :=
  match readiness_at now accept h with
  | Ok why => (200, ("ready: " +:+ why +:+ newline)%string)
  | Err why => (503, ("not ready: " +:+ why +:+ newline)%string)
  end.

(** ** Settings and the probe *)

Definition accept_role (raw : option string) : bool :=
  match (fun r => to_ascii_lowercase (trim r)) <$> raw with
  | Some r => String.eqb r "accept" || String.eqb r "responder" || String.eqb r "listen"
  | None => false
  end.

(** [Option<&str>] trimmed, empty counted as unset. *)
Definition trimmed_nonempty (raw : option string) : option string :=
  match trim <$> raw with
  | Some s => if is_empty s then None else Some s
  | None => None
  end.

(** The error's text holds the parser's own words, which are not modelled. *)
Definition health_listen_from (raw : option string) : result (option SocketAddr) string :=
  match trimmed_nonempty raw with
  | None => Ok None
  | Some s =>
      match parse_socket s with
      | Some a => Ok (Some a)
      | None => Err s
      end
  end.

Definition is_unspecified (ip : IpAddr) : bool :=
  match ip with
  | V4 a b c d => (a =? 0) && (b =? 0) && (c =? 0) && (d =? 0)
  | V6 segs => bool_decide (segs = [0; 0; 0; 0; 0; 0; 0; 0])
  end.

Definition probe_target (listen : SocketAddr) : SocketAddr :=
  if is_unspecified (sock_ip listen) then
    match sock_ip listen with
    | V4 _ _ _ _ => {| sock_ip := V4 127 0 0 1; sock_port := sock_port listen; sock_scope := 0 |}
    | V6 _ => {| sock_ip := V6 [0; 0; 0; 0; 0; 0; 0; 1]; sock_port := sock_port listen; sock_scope := 0 |}
    end
  else listen.

(** [run_health_probe]: the exit status; [probe addr path] is what the listener answered. *)
Definition run_health_probe (probe : SocketAddr -> string -> result (Z * string) string)
    (which listen_env : option string) : Z :=
  let path :=
    match which with
    | None => Some "/readyz"
    | Some w =>
        if String.eqb w "readyz" then Some "/readyz"
        else if String.eqb w "healthz" then Some "/healthz"
        else None
    end in
  match path with
  | None => 2
  | Some path =>
      match health_listen_from listen_env with
      | Ok (Some listen) =>
          match probe (probe_target listen) path with
          | Ok (code, _) => if code =? 200 then 0 else 1
          | Err _ => 1
          end
      | Ok None => 2
      | Err _ => 2
      end
  end.

(** ** A process and its history *)

Inductive Act :=
| Begin (c : Counter)
| End (t : Ticket) (now : Z)
| ParkAnswered (outcome : result ChannelJoinOutcome unit) (now : Z)
| Stop.

Definition park_ticket : Ticket := {| count := Parked; stamp := None |}.

(** The ticket [t] is dropped: one of its like leaves the list. *)
Fixpoint take_out (t : Ticket) (live : list Ticket) : option (list Ticket) :=
  match live with
  | [] => None
  | x :: live => if decide (x = t) then Some live else let? live := take_out t live in Some (x :: live)
  end.

Definition act (a : Act) (p : ChannelHealth * list Ticket) : option (ChannelHealth * list Ticket) :=
  let (h, live) := p in
  match a with
  | Begin c => let (t, h) := begin c h in Some (h, t :: live)
  | End t now => let? live := take_out t live in Some (ticket_drop t now h, live)
  | ParkAnswered outcome now =>
      let? live := take_out park_ticket live in Some (park_answered outcome now park_ticket h, live)
  | Stop => Some (set_stopping h, live)
  end.

Fixpoint run (acts : list Act) (p : ChannelHealth * list Ticket) : option (ChannelHealth * list Ticket) :=
  match acts with
  | [] => Some p
  | a :: acts => let? p := act a p in run acts p
  end.

(** What the history says: the tickets alive, and the last times something ended. *)
Definition live_of (c : Counter) (live : list Ticket) : Z := Zlen (filter (fun t => count t = c) live).

Definition session_end_of (last : Z) (a : Act) : Z :=
  match a with
  | End {| count := Established; stamp := Some SessionEndedAt |} now => now
  | _ => last
  end.
Definition held_park_of (last : Z) (a : Act) : Z :=
  match a with
  | ParkAnswered (Ok JoinAdmitted) now | ParkAnswered (Ok ParkExpired) now => now
  | _ => last
  end.
Definition last_session_end (acts : list Act) : Z := fold_left session_end_of acts 0.
Definition last_held_park (acts : list Act) : Z := fold_left held_park_of acts 0.

(** ** The counters are the live tickets *)

Record health_inv (acts : list Act) (p : ChannelHealth * list Ticket) : Prop := {
  hi_counts : forall c, load c p.1 = wrap 64 (live_of c p.2);
  hi_tickets : Forall (fun t => stamp t = ticket_for (count t)) p.2;
  hi_session : session_ended_at p.1 = last_session_end acts;
  hi_park : park_ended_at p.1 = last_held_park acts;
  hi_stop : stopping p.1 = true <-> Stop ∈ acts
}.

Lemma load_add_to c c' d h : load c (add_to c' d h) = if decide (c' = c) then wrap 64 (load c h + d) else load c h.
Proof. destruct c, c'; reflexivity. Qed.

Lemma load_store_at c s now h : load c (store_at s now h) = load c h.
Proof. by destruct c. Qed.

Lemma live_of_cons c t live : live_of c (t :: live) = live_of c live + (if decide (count t = c) then 1 else 0).
Proof. unfold live_of. rewrite filter_cons. case_decide; simpl; lia. Qed.

Lemma take_out_spec t live live' :
  take_out t live = Some live' ->
  t ∈ live /\ (forall c, live_of c live = live_of c live' + (if decide (count t = c) then 1 else 0)) /\
  (forall P : Ticket -> Prop, Forall P live -> Forall P live').
Proof.
  revert live'. induction live as [|x live IH]; intros live'; simpl; [done|].
  case_decide as Hx.
  - intros [= ->]. subst x. split_and!; [left|by intros; rewrite live_of_cons|].
    intros P HP. by apply Forall_cons in HP as [_ ?].
  - destruct (take_out t live) as [l|]; [|done]. intros [= <-].
    destruct (IH l eq_refl) as (Hin & Hl & HF). split_and!; [by right| |].
    + intros c. rewrite !live_of_cons, Hl. lia.
    + intros P HP. apply Forall_cons in HP as [Hp HP]. apply Forall_cons. auto.
Qed.

Lemma wrap_step n d : wrap 64 (wrap 64 n + d) = wrap 64 (n + d).
Proof. unfold wrap. apply Zplus_mod_idemp_l. Qed.

Lemma ticket_drop_load c t now h :
  load c (ticket_drop t now h) = if decide (count t = c) then wrap 64 (load c h + -1) else load c h.
Proof.
  unfold ticket_drop. rewrite load_add_to.
  by destruct (stamp t); rewrite ?load_store_at.
Qed.

Lemma begin_inv acts c p h t :
  health_inv acts p -> begin c p.1 = (t, h) -> health_inv (acts ++ [Begin c]) (h, t :: p.2).
Proof.
  intros [Hc Ht Hs Hp Hst] [= <- <-]. split; simpl; unfold last_session_end, last_held_park in *.
  - intros k. rewrite load_add_to, live_of_cons, Hc. simpl. case_decide; [apply wrap_step|f_equal; lia].
  - by apply Forall_cons.
  - by rewrite fold_left_app.
  - by rewrite fold_left_app.
  - rewrite Hst, elem_of_app, list_elem_of_singleton. split; [by left|intros [?|?]; done].
Qed.

Lemma drop_counts p t now live :
  (forall c, load c p.1 = wrap 64 (live_of c p.2)) -> take_out t p.2 = Some live ->
  forall c, load c (ticket_drop t now p.1) = wrap 64 (live_of c live).
Proof.
  intros Hc Ho c. rewrite ticket_drop_load, Hc. apply take_out_spec in Ho as (_ & -> & _).
  case_decide; [|f_equal; lia]. rewrite wrap_step. f_equal. lia.
Qed.

Lemma act_inv acts a p p' : health_inv acts p -> act a p = Some p' -> health_inv (acts ++ [a]) p'.
Proof.
  intros Hi. destruct p as [h live]. destruct a as [c|t now|o now|]; simpl.
  - intros [= <-]. by apply (begin_inv acts c (h, live)).
  - destruct (take_out t live) as [l|] eqn:Ho; [|done]. intros [= <-].
    destruct Hi as [Hc Ht Hs Hp Hst]. pose proof (take_out_spec _ _ _ Ho) as (Hin & _ & HF). simpl in *.
    assert (stamp t = ticket_for (count t)) as Hstamp by (rewrite Forall_forall in Ht; by apply Ht).
    split; simpl; unfold last_session_end, last_held_park in *; rewrite ?fold_left_app; simpl.
    + by apply (drop_counts (h, live)).
    + by apply HF.
    + unfold ticket_drop. rewrite Hstamp. destruct t as [[] s]; simpl in *; subst s; simpl; done.
    + unfold ticket_drop. rewrite Hstamp. by destruct (count t).
    + unfold ticket_drop. rewrite Hstamp, elem_of_app, list_elem_of_singleton, <-Hst.
      destruct (count t); simpl; naive_solver.
  - destruct (take_out park_ticket live) as [l|] eqn:Ho; [|done]. intros [= <-].
    destruct Hi as [Hc Ht Hs Hp Hst]. pose proof (take_out_spec _ _ _ Ho) as (_ & _ & HF). simpl in *.
    split; simpl; unfold last_session_end, last_held_park in *; rewrite ?fold_left_app; simpl.
    + intros c. pose proof (drop_counts (h, live) park_ticket now l Hc Ho c) as Hd. revert Hd.
      unfold park_answered. rewrite !ticket_drop_load. by destruct o as [[]|].
    + by apply HF.
    + by destruct o as [[]|].
    + by destruct o as [[]|].
    + rewrite elem_of_app, list_elem_of_singleton, <-Hst. destruct o as [[]|]; simpl; naive_solver.
  - intros [= <-]. destruct Hi as [Hc Ht Hs Hp Hst]. simpl in *.
    split; simpl; unfold last_session_end, last_held_park in *; rewrite ?fold_left_app; try done.
    rewrite elem_of_app, list_elem_of_singleton. tauto.
Qed.

Lemma run_app a b p : run (a ++ b) p = let? p := run a p in run b p.
Proof. revert p. induction a as [|x a IH]; intros p; simpl; [done|]. by destruct (act x p). Qed.

Lemma run_inv acts p : run acts (new_health, []) = Some p -> health_inv acts p.
Proof.
  revert p. induction acts as [|a acts IH] using rev_ind; intros p; [intros [= <-]|].
  - split; simpl; try done; [by intros []|]. by rewrite elem_of_nil.
  - rewrite run_app. destruct (run acts _) as [q|]; [|done]. simpl.
    destruct (act a q) as [r|] eqn:E; [|done]. intros [= <-]. eapply act_inv; eauto.
Qed.

Lemma live_of_pos c live : 0 < live_of c live <-> exists t, t ∈ live /\ count t = c.
Proof.
  unfold live_of. split.
  - intros Hp. destruct (filter (fun t => count t = c) live) as [|t l] eqn:E; [done|].
    assert (t ∈ filter (fun t => count t = c) live) as Hin by (rewrite E; left).
    apply list_elem_of_filter in Hin as [Hc Hl]. eauto.
  - intros (t & Hin & Hc). assert (t ∈ filter (fun t => count t = c) live) as Hf by by apply list_elem_of_filter.
    destruct (filter _ live); [by apply elem_of_nil in Hf|simpl; lia].
Qed.

Lemma load_pos acts h live c :
  health_inv acts (h, live) -> Zlen live < 2 ^ 64 -> 0 < load c h <-> exists t, t ∈ live /\ count t = c.
Proof.
  intros Hi Hl. rewrite <-live_of_pos. pose proof (hi_counts _ _ Hi c) as Hc. simpl in Hc. rewrite Hc.
  unfold wrap. rewrite Z.mod_small; [done|]. unfold live_of. split; [lia|].
  apply Z.le_lt_trans with (Zlen live); [|done]. apply inj_le, length_filter.
Qed.

(** [/readyz] says what happened: in every history it answers ready exactly when no shutdown
    started and a session is alive, or the member accepts and its admission is parked, or the last
    session -- for an accepting member also the last park the edge held -- ended less than
    [READY_GRACE_SECS] ago.  So a member whose admissions are only ever refused is never ready
    once its parks are answered. *)
Theorem readiness_exact acts h live now (accept : bool) :
  run acts (new_health, []) = Some (h, live) -> Zlen live < 2 ^ 64 ->
  let last := Z.max (last_session_end acts) (if accept then last_held_park acts else 0) in
  is_ok (readiness_at now accept h) = true <->
    Stop ∉ acts /\
    ((exists t, t ∈ live /\ count t = Established) \/
     (accept = true /\ exists t, t ∈ live /\ count t = Parked) \/
     (last <> 0 /\ now - last < READY_GRACE_SECS)).
Proof.
  intros Hr Hl. apply run_inv in Hr as Hi. cbv zeta.
  rewrite <-(load_pos _ _ _ Established Hi Hl), <-(load_pos _ _ _ Parked Hi Hl). simpl.
  pose proof (hi_stop _ _ Hi) as Hs. simpl in Hs. rewrite <-Hs.
  rewrite <-(hi_session _ _ Hi), <-(hi_park _ _ Hi). simpl. unfold readiness_at, sat_sub, READY_GRACE_SECS.
  destruct (stopping h); simpl; [naive_solver|].
  destruct (Z.ltb_spec 0 (established h)); simpl; [naive_solver|].
  destruct accept; simpl; [destruct (Z.ltb_spec 0 (parked h)); simpl; [naive_solver|]|];
    (case_match eqn:E; [apply Z.eqb_eq in E|apply Z.eqb_neq in E]; simpl;
     [split; [done|]; intros (_ & [?|[[? ?]|[? ?]]]); congruence || lia|]);
    (case_match eqn:E2; [apply Z.ltb_lt in E2|apply Z.ltb_ge in E2]; simpl; split; try done;
     [intros _; split; [done|]; right; right; split; [done|lia]
     |intros (_ & [?|[[? ?]|[? ?]]]); congruence || lia]).
Qed.

(** The larger of the two figures the drain waits for is zero exactly when every kind is. *)
Lemma in_flight_zero acts h live (forward : bool) :
  run acts (new_health, []) = Some (h, live) -> Zlen live < 2 ^ 63 ->
  in_flight forward h = 0 <->
  forall t, t ∈ live -> if forward then count t <> ForwardStreams else
    count t <> Serving /\ count t <> Established /\ count t <> QuicTails.
Proof.
  intros Hr Hl. apply run_inv in Hr as Hi.
  assert (forall c, 0 <= load c h <= Zlen live) as Hrange.
  { intros c. pose proof (hi_counts _ _ Hi c) as Hc. simpl in Hc. rewrite Hc. unfold wrap.
    assert (live_of c live <= Zlen live) by apply inj_le, length_filter.
    assert (0 <= live_of c live) by (unfold live_of; lia). rewrite Z.mod_small; lia. }
  assert (forall c, load c h = 0 <-> forall t, t ∈ live -> count t <> c) as Hz.
  { intros c. pose proof (load_pos _ _ _ c Hi ltac:(lia)) as Hp. specialize (Hrange c). split.
    - intros E t Ht Hc. assert (0 < load c h) by (apply Hp; eauto). lia.
    - intros Hall. destruct (decide (load c h = 0)) as [|Hne]; [done|].
      destruct (proj1 Hp ltac:(lia)) as (t & Ht & Hc). by destruct (Hall t Ht). }
  unfold in_flight. destruct forward.
  - apply (Hz ForwardStreams).
  - pose proof (Hrange Serving). pose proof (Hrange Established). pose proof (Hrange QuicTails). simpl in *.
    unfold wrap. rewrite Z.mod_small by lia.
    pose proof (Hz Serving) as Zs. pose proof (Hz Established) as Ze. pose proof (Hz QuicTails) as Zq. simpl in *.
    split.
    + intros E t Ht. split_and!; [apply Zs|apply Ze|apply Zq]; done || lia.
    + intros Hall. assert (serving h = 0) by (apply Zs; intros; by apply Hall).
      assert (established h = 0) by (apply Ze; intros; by apply Hall).
      assert (quic_tails h = 0) by (apply Zq; intros; by apply Hall). lia.
Qed.

(** A park the edge let expire, five seconds before the probe. *)
Definition demo_history : list Act := [Begin Parked; ParkAnswered (Ok ParkExpired) 100].

Lemma readiness_exact_witness :
  exists h, run demo_history (new_health, []) = Some (h, []) /\
    is_ok (readiness_at 105 true h) = true /\ is_ok (readiness_at 115 true h) = false.
Proof.
  destruct (run demo_history (new_health, [])) as [[h live]|] eqn:E; [|by vm_compute in E].
  assert (live = []) as -> by (vm_compute in E; congruence).
  exists h. split; [reflexivity|].
  pose proof (readiness_exact demo_history h [] 105 true E ltac:(simpl; lia)) as [_ H1].
  pose proof (readiness_exact demo_history h [] 115 true E ltac:(simpl; lia)) as [H2 _].
  split.
  - apply H1. split.
    + unfold demo_history. rewrite !not_elem_of_cons. split_and!; [done..|apply not_elem_of_nil].
    + right. right. vm_compute. by split.
  - destruct (is_ok (readiness_at 115 true h)); [|reflexivity].
    destruct (H2 eq_refl) as (_ & [(t & Ht & _)|[(_ & t & Ht & _)|[_ Hx]]]); [by apply elem_of_nil in Ht..|].
    by vm_compute in Hx.
Defined.
