(* ===== verification/Shutdown.v ===== *)
(** * Shutdown: the drain of a stopped channel process ([channel_run/shutdown.rs])

    What a stop signal starts: the member is marked unready, the process-wide stop is cancelled,
    and the process waits -- a bounded time -- until nothing is in flight; its exit status says
    whether the stop cut a transfer.  The clock readings, what was in flight at each look and
    whether another signal came are inputs; times are nanoseconds. *)
From S2P Require Import Prelude Text EnvFlag Health.

Definition DEFAULT_SHUTDOWN_DRAIN : Z := 5 * SECOND.
Definition MAX_SHUTDOWN_DRAIN : Z := 3600 * SECOND.
Definition DRAIN_POLL : Z := 50 * MILLI.
Definition REPEAT_DEBOUNCE : Z := 1 * SECOND.

(** Why [CT_CHANNEL_SHUTDOWN_DRAIN_SECS] fails the start; both texts quote the value. *)
Inductive DrainError := NotWholeSeconds (s : string) | OverLimit (s : string).

Definition shutdown_drain_from (raw : option string) : result Z DrainError :=
  match trimmed_nonempty raw with
  | None => Ok DEFAULT_SHUTDOWN_DRAIN
  | Some s =>
      let* drain := ok_or ((fun n => n * SECOND) <$> parse_uint U64_MAX s) (NotWholeSeconds s) in
      if MAX_SHUTDOWN_DRAIN <? drain then Err (OverLimit s) else Ok drain
  end.

Inductive DrainEnd := Idle | TimedOut (n : Z) | Interrupted (n : Z).

Record Member := { forward : bool; persistent : bool }.

Definition persistent_member (forward accept : bool) (serve broker : option string) : bool :=
  let brokered := match broker with Some b => negb (is_empty b) | None => false end in
  forward || (accept && brokered && flag serve false).

Definition exit_status (end_ : DrainEnd) (persistent : bool) (signal : string) : Z :=
  let cut := match end_ with Idle => 0 | TimedOut n | Interrupted n => n end in
  if persistent || (cut =? 0) then 0
  else if String.eqb signal "SIGTERM" then 128 + 15
  else 128 + 2.

(** ** The drain loop *)

(** One look: what the counters were, the clock, and how the wait after it ended -- the sleep, or
    another stop signal, with what the counters were then. *)
Record Look := { look_health : ChannelHealth; look_now : Z; look_again : option ChannelHealth }.

(** How long the loop sleeps after a look at [now]. *)
Definition sleep_for (deadline : option Z) (now : Z) : Z :=
  match deadline with
  | Some d => Z.min DRAIN_POLL (d - now)
  | None => DRAIN_POLL
  end.

(** [drain_in_flight] from its first look on; [None] while the looks given are not enough. *)
Fixpoint drain_loop (f : bool) (deadline : option Z) (idle_looks : Z) (looks : list Look) : option DrainEnd :=
  match looks with
  | [] => None
  | l :: looks =>
      let n := in_flight f (look_health l) in
      let idle_looks := if n =? 0 then idle_looks + 1 else 0 in
      if 2 <=? idle_looks then Some Idle
      else
        let over := match deadline with Some d => d <=? look_now l | None => false end in
        if over then Some (if n =? 0 then Idle else TimedOut n)
        else
          match look_again l with
          | Some h => Some (Interrupted (in_flight f h))
          | None => drain_loop f deadline idle_looks looks
          end
  end.

Definition drain_in_flight (f : bool) (start drain : Z) (looks : list Look) : option DrainEnd :=
  drain_loop f (checked_add_instant start drain) 0 looks.

Definition unit_name (forward : bool) : string := if forward then "forwarded stream(s)" else "session(s)".

(** What [drain_after_signal] leaves: the member unready, the stop cancelled, the end and the
    exit status. *)
Record Stopped := { final_health : ChannelHealth; stop_cancelled : bool; ended : DrainEnd; status : Z }.

Definition drain_after_signal (name : string) (health : ChannelHealth) (member : Member) (start drain : Z)
    (looks : list Look) : option Stopped :=
  let health := set_stopping health in
  let? e := drain_in_flight (forward member) start drain looks in
  Some {| final_health := health; stop_cancelled := true; ended := e;
          status := exit_status e (persistent member) name |}.

(** [second_stop]: the position of the signal that ends the drain, among later signals given by
    the time since the first. *)
Fixpoint second_stop (elapsed : list Z) : option nat :=
  match elapsed with
  | [] => None
  | e :: rest => if REPEAT_DEBOUNCE <=? e then Some 0%nat else S <$> second_stop rest
  end.

(** ** How a drain ends *)

Definition over_at (deadline : option Z) (l : Look) : Prop :=
  match deadline with Some d => d <= look_now l | None => False end.

(** What the end says of the last look [l] and the one before it. *)
Definition end_of (f : bool) (deadline : option Z) (before : option Look) (l : Look) (e : DrainEnd) : Prop :=
  match e with
  | Idle =>
      in_flight f (look_health l) = 0 /\
      (over_at deadline l \/ exists p, before = Some p /\ in_flight f (look_health p) = 0)
  | TimedOut n => n = in_flight f (look_health l) /\ n <> 0 /\ over_at deadline l
  | Interrupted n => exists h, look_again l = Some h /\ n = in_flight f h
  end.

Lemma drain_loop_end f deadline before idle looks e :
  (idle = 0 \/ idle = 1 /\ exists p, before = Some p /\ in_flight f (look_health p) = 0) ->
  drain_loop f deadline idle looks = Some e ->
  exists used l rest, looks = used ++ l :: rest /\
    end_of f deadline (match last used with Some p => Some p | None => before end) l e.
Proof.
  revert before idle. induction looks as [|l looks IH]; intros before idle Hidle; [done|].
  cbn [drain_loop].
  assert (forall d : option Z, (match d with Some d => d <=? look_now l | None => false end) = true -> over_at d l) as Hover.
  { intros [d|]; simpl; [by intros ?%Z.leb_le|done]. }
  destruct (Z.eqb_spec (in_flight f (look_health l)) 0) as [E0|N0].
  - destruct (Z.leb_spec 2 (idle + 1)) as [H2|H2].
    { intros [= <-]. exists [], l, looks. simpl. split; [done|]. split; [done|]. right.
      destruct Hidle as [->|[_ ?]]; [lia|done]. }
    destruct (match deadline with Some d => _ | None => false end) eqn:Eo.
    { intros [= <-]. exists [], l, looks. simpl. eauto. }
    destruct (look_again l) as [h|] eqn:Ea.
    { intros [= <-]. exists [], l, looks. simpl. eauto. }
    intros Hd. destruct (IH (Some l) (idle + 1)) as (used & l' & rest & -> & He); [|done|].
    { right. split; [lia|eauto]. }
    exists (l :: used), l', rest. split; [done|]. revert He. rewrite last_cons. by destruct (last used).
  - destruct (Z.leb_spec 2 0); [lia|].
    destruct (match deadline with Some d => _ | None => false end) eqn:Eo.
    { intros [= <-]. exists [], l, looks. simpl. eauto. }
    destruct (look_again l) as [h|] eqn:Ea.
    { intros [= <-]. exists [], l, looks. simpl. eauto. }
    intros Hd. destruct (IH (Some l) 0) as (used & l' & rest & -> & He); [by left|done|].
    exists (l :: used), l', rest. split; [done|]. revert He. rewrite last_cons. by destruct (last used).
Qed.

(** the exit status is honest.  A stopped process ends after one of the looks it took; with
    status 0 exactly when it runs for good or nothing was in flight at that look (or, when another
    signal ended the drain, at that signal) -- and it does not call itself idle before two looks in
    a row, or the deadline, saw nothing; otherwise with 143 for SIGTERM and 130 for any other
    signal.  Its probes answer not ready from the start. *)
Theorem exit_status_honest name health member start drain looks st :
  drain_after_signal name health member start drain looks = Some st ->
  exists used l rest, looks = used ++ l :: rest /\
    end_of (forward member) (checked_add_instant start drain) (last used) l (ended st) /\
    let seen := match ended st, look_again l with
                | Interrupted _, Some h => in_flight (forward member) h
                | _, _ => in_flight (forward member) (look_health l)
                end in
    (status st = 0 <-> persistent member = true \/ seen = 0) /\
    (status st <> 0 -> status st = if String.eqb name "SIGTERM" then 143 else 130) /\
    (forall now accept, is_ok (readiness_at now accept (final_health st)) = false).
Proof.
  unfold drain_after_signal. destruct (drain_in_flight _ _ _ _) as [e|] eqn:Hd; [|done]. intros [= <-].
  destruct (drain_loop_end _ _ None _ _ _ (or_introl eq_refl) Hd) as (used & l & rest & -> & He).
  assert (end_of (forward member) (checked_add_instant start drain) (last used) l e) as He'.
  { revert He. by destruct (last used). }
  exists used, l, rest. simpl. split; [done|]. split; [done|].
  assert (match e with Idle => 0 | TimedOut n | Interrupted n => n end =
          match e, look_again l with
          | Interrupted _, Some h => in_flight (forward member) h
          | _, _ => in_flight (forward member) (look_health l)
          end) as Hcut.
  { destruct e as [|n|n]; simpl in He'.
    - symmetry. apply He'.
    - destruct (look_again l); apply He'.
    - by destruct He' as (h & -> & ->). }
  unfold exit_status. rewrite Hcut. clear Hcut.
  set (seen := match e, look_again l with Interrupted _, Some h => in_flight (forward member) h
               | _, _ => in_flight (forward member) (look_health l) end).
  destruct (persistent member); simpl; [split; [naive_solver|]; split; [done|by intros]|].
  destruct (Z.eqb_spec seen 0) as [E|N].
  - split; [naive_solver|]. by split.
  - split; [split; [by destruct (String.eqb name "SIGTERM")|naive_solver]|]. by split.
Qed.

(** The clock moves at least as far as each sleep. *)
Fixpoint paced (deadline : option Z) (from : Z) (looks : list Look) : Prop :=
  match looks with
  | [] => True
  | l :: looks => from <= look_now l /\ paced deadline (look_now l + sleep_for deadline (look_now l)) looks
  end.

Lemma drain_loop_bounded f d idle from (k : nat) looks :
  paced (Some d) from looks -> d - Z.of_nat k * DRAIN_POLL <= from -> (k < length looks)%nat ->
  is_Some (drain_loop f (Some d) idle looks).
Proof.
  revert idle from k. induction looks as [|l looks IH]; intros idle from k Hp Hk Hlen; simpl in Hlen; [lia|].
  destruct Hp as [Hl Hp]. cbn [drain_loop]. case_match; [eauto|].
  destruct (Z.leb_spec d (look_now l)) as [|Hlt]; [eauto|]. destruct (look_again l); [eauto|].
  destruct k as [|k]; [lia|].
  apply (IH _ _ k Hp); [|lia]. unfold sleep_for, DRAIN_POLL, MILLI in *. lia.
Qed.

(** the drain ends.  With a clock that moves at least as far as each sleep, a drain of [drain]
    ends within [drain / DRAIN_POLL] looks plus two, whatever is in flight. *)
Theorem drain_is_bounded f start drain looks :
  0 <= drain <= MAX_SHUTDOWN_DRAIN -> start + drain <= INSTANT_MAX ->
  paced (Some (start + drain)) start looks -> drain / DRAIN_POLL + 2 <= Zlen looks ->
  is_Some (drain_in_flight f start drain looks).
Proof.
  intros Hd Hi Hp Hl. unfold drain_in_flight, checked_add_instant.
  rewrite (proj2 (Z.leb_le _ _) Hi).
  apply (drain_loop_bounded f _ 0 start (Z.to_nat (drain / DRAIN_POLL + 1))); [done| |].
  - pose proof (Z.div_mod drain DRAIN_POLL). pose proof (Z.mod_pos_bound drain DRAIN_POLL).
    unfold DRAIN_POLL, MILLI in *.
    assert (0 <= drain / (50 * 1000000)) by (apply Z.div_pos; lia). lia.
  - assert (0 <= drain / DRAIN_POLL) by (apply Z.div_pos; unfold DRAIN_POLL, MILLI; lia). lia.
Qed.

(** A one-shot member whose session outlives a drain of 100 ms. *)
Definition busy : ChannelHealth := (begin Established new_health).2.
Definition busy_look (now : Z) : Look := {| look_health := busy; look_now := now; look_again := None |}.
Definition busy_looks : list Look := map busy_look [0; 50000000; 100000000; 100000000].
Definition one_shot : Member := {| forward := false; persistent := false |}.

Lemma exit_status_honest_witness :
  exists st, drain_after_signal "SIGTERM" busy one_shot 0 100000000 busy_looks = Some st /\
    ended st = TimedOut 1 /\ status st = 143.
Proof.
  destruct (drain_after_signal "SIGTERM" busy one_shot 0 100000000 busy_looks) as [st|] eqn:E; [|by vm_compute in E].
  assert (ended st = TimedOut 1 /\ status st <> 0) as [He Hs] by (vm_compute in E; injection E as <-; done).
  exists st. split; [reflexivity|]. split; [exact He|].
  destruct (exit_status_honest _ _ _ _ _ _ _ E) as (_ & _ & _ & _ & _ & _ & Hx & _). by apply Hx.
Defined.

Lemma drain_is_bounded_witness : is_Some (drain_in_flight true 0 100000000 busy_looks).
Proof.
  apply drain_is_bounded.
  - unfold MAX_SHUTDOWN_DRAIN, SECOND. lia.
  - vm_compute. congruence.
  - simpl. unfold sleep_for, DRAIN_POLL, MILLI. simpl. lia.
  - vm_compute. congruence.
Defined.
