(* ===== verification/GrantWatch.v ===== *)
(** * GrantWatch: withdrawing a grant while a session runs

    The peer's grant is asked about again and again ([channel_run/grant_watch.rs]), and a grant is
    put on the revocation list ([channel_run/grant_revoke.rs]).  Signing, hashing, HTTP and JSON
    are the dependencies': parameters.  Times are nanoseconds, settings whole seconds. *)
From S2P Require Import Prelude Text Codec Net Health Retry ForwardReconnect.

#[local] Open Scope Z_scope.

Definition RECHECK_SECS_ENV : string := "CT_CHANNEL_GRANT_RECHECK_SECS".
Definition RECHECK_GRACE_SECS_ENV : string := "CT_CHANNEL_GRANT_RECHECK_GRACE_SECS".
Definition DEFAULT_INTERVAL_SECS : Z := 30.
Definition MIN_INTERVAL_SECS : Z := 5.
Definition DEFAULT_GRACE_SECS : Z := 90.
Definition REQUEST_TIMEOUT : Z := 10 * SECOND.

Record WatchConfig := { interval : Z; grace : Z; require : bool }.

Definition read_secs (f : string -> option string) (key : string) (default_ : Z) : result Z string :=
  match trimmed_nonempty (f key) with
  | None => Ok default_
  | Some s =>
      ok_or (parse_uint U64_MAX s) (key +:+ " must be a whole number of seconds, got " +:+ debug_str s)%string
  end.

Definition from_lookup (f : string -> option string) : result WatchConfig string :=
  let* interval := read_secs f RECHECK_SECS_ENV DEFAULT_INTERVAL_SECS in
  let interval := Z.max interval MIN_INTERVAL_SECS in
  let* grace := read_secs f RECHECK_GRACE_SECS_ENV DEFAULT_GRACE_SECS in
  let grace := Z.max grace interval in
  Ok {| interval := interval * SECOND; grace := grace * SECOND; require := false |}.

Definition requiring (c : WatchConfig) (r : bool) : WatchConfig :=
  {| interval := interval c; grace := grace c; require := r |}.

(** ** What is signed *)

Definition pipe : byte := Byte.x7c.

Definition status_signing_bytes (channel peer digest : list byte) (ts : Z) : list byte :=
  as_bytes "ct-grant-status:v1|" ++ channel ++ [pipe] ++ peer ++ [pipe] ++ digest ++ [pipe] ++ le_bytes 8 ts.

Definition revoke_signing_bytes (channel digest : list byte) (expires_at : Z) : list byte :=
  as_bytes "ct-grant-revoke:v1|" ++ channel ++ [pipe] ++ digest ++ [pipe] ++ le_bytes 8 expires_at.

(** ** The control plane's answers *)

Inductive GrantState := Valid | Revoked | NotMember | AskerNotMember.
Inductive StatusError := Unsupported | Unreadable (why : string).

(** [state]: the answer's [state] field, when the body is JSON and it is a string. *)
Definition classify_answer (state : option string) (code : Z) : result GrantState StatusError :=
  let named s := bool_decide (state = Some s) in
  if (code =? 404) && named "unknown-channel" then Ok NotMember
  else if code =? 404 then Err Unsupported
  else if (code =? 403) && named "asker-not-member" then Ok AskerNotMember
  else if (200 <=? code) && (code <=? 299) then
    if named "valid" then Ok Valid
    else if named "revoked" then Ok Revoked
    else if named "not-member" then Ok NotMember
    else Err (Unreadable ("unknown state " +:+ debug_option state)%string)
  else Err (Unreadable ("control plane answered " +:+ show code)%string).

Section Ask.
(** The member's key, the HTTP client, and the [state] field of a JSON body. *)
Context (verifying_key : list byte) (sign : list byte -> list byte).
Context (json_state : string -> option string).

Record StatusRequest := {
  req_channel : string; req_asker : string; req_peer : string; req_digest : string; req_ts : Z; req_sig : string
}.
Context (post : string -> StatusRequest -> result (Z * result string string) string).

Fixpoint trim_end_char_l (c : ascii) (s : list ascii) : list ascii :=
  match s with
  | [] => []
  | a :: s =>
      match trim_end_char_l c s with
      | [] => if Ascii.eqb a c then [] else [a]
      | r => a :: r
      end
  end.
(** [str::trim_end_matches] of one character. *)
Definition trim_end_char (c : ascii) (s : string) : string :=
  String.string_of_list_ascii (trim_end_char_l c (String.list_ascii_of_string s)).

Record CpStatusSource := { base : string; channel : list byte; peer : list byte; digest : list byte }.

Definition new_source (base : string) (channel peer digest : list byte) : CpStatusSource :=
  {| base := trim_end_char "/" base; channel := channel; peer := peer; digest := digest |}.

(** [ask] at unix time [ts]. *)
Definition ask (s : CpStatusSource) (ts : Z) : result GrantState StatusError :=
  let sig := sign (status_signing_bytes (channel s) (peer s) (digest s) ts) in
  let body :=
    {| req_channel := hex_encode (channel s); req_asker := hex_encode verifying_key;
       req_peer := hex_encode (peer s); req_digest := hex_encode (digest s); req_ts := ts;
       req_sig := hex_encode sig |} in
  let* (code, body) :=
    map_err (fun e => Unreadable ("request failed: " +:+ e)%string)
      (post (base s +:+ "/channel/grant-status")%string body) in
  let* body := map_err (fun e => Unreadable ("unreadable answer: " +:+ e)%string) body in
  classify_answer (json_state body) code.
End Ask.

(** ** The watch *)

Definition NO_STATUS_WARNING : string :=
  "WARNING: this control plane has no /channel/grant-status; a revoked grant will NOT end this forward session until it is upgraded (the session keeps running and asks again)".

Record WatchState := { last_valid : Z; warned : bool; first : bool }.
Definition watch_start (now : Z) : WatchState := {| last_valid := now; warned := false; first := true |}.

(** One turn: whether the session ended during the wait, the answer ([None]: the session ended
    while it was asked for), and the clock then. *)
Record WatchTurn := {
  over_in_wait : bool; answer : option (result GrantState StatusError); answered_at : Z
}.

Inductive WatchStep :=
| Go (s : WatchState) (notice : option string)
| SendEnd (e : GrantEnd)
| SessionOver.

Definition strict (cfg : WatchConfig) (v : result GrantState StatusError) : result GrantState StatusError :=
  match v with
  | Err Unsupported =>
      if require cfg then Err (Unreadable "the control plane has no /channel/grant-status") else v
  | v => v
  end.

Definition watch_turn (cfg : WatchConfig) (t : WatchTurn) (s : WatchState) : WatchStep :=
  if negb (first s) && over_in_wait t then SessionOver
  else
    match answer t with
    | None => SessionOver
    | Some v =>
        match strict cfg v with
        | Ok Valid => Go {| last_valid := answered_at t; warned := warned s; first := false |} None
        | Ok Revoked => SendEnd (peer_end "the peer's grant was revoked")
        | Ok NotMember => SendEnd (peer_end "the peer is no longer a member of the channel")
        | Ok AskerNotMember =>
            SendEnd (own_end
              "this member is no longer a member of the channel (the control plane answered asker-not-member)")
        | Err Unsupported =>
            Go {| last_valid := answered_at t; warned := true; first := false |}
               (if warned s then None else Some NO_STATUS_WARNING)
        | Err (Unreadable why) =>
            let silent := sat_sub (answered_at t) (last_valid s) in
            if silent <? grace cfg then
              Go {| last_valid := last_valid s; warned := warned s; first := false |} None
            else
              SendEnd (peer_end ("the peer's grant could not be re-checked for " +:+ show (silent / SECOND) +:+
                                 "s (" +:+ why +:+ "); failing closed")%string)
        end
    end.

(** [watch_peer_grant] over the turns; the notices given, and how it ended so far. *)
Inductive WatchEnd := Ended (e : GrantEnd) | Over | Watching (s : WatchState).

Fixpoint watch_loop (cfg : WatchConfig) (turns : list WatchTurn) (s : WatchState) : list string * WatchEnd :=
  match turns with
  | [] => ([], Watching s)
  | t :: turns =>
      match watch_turn cfg t s with
      | SessionOver => ([], Over)
      | SendEnd e => ([], Ended e)
      | Go s notice =>
          let (ns, e) := watch_loop cfg turns s in
          (match notice with Some n => n :: ns | None => ns end, e)
      end
  end.

Definition watch_peer_grant (cfg : WatchConfig) (now : Z) (turns : list WatchTurn) : list string * WatchEnd :=
  watch_loop cfg turns (watch_start now).

(** ** Revoking a grant *)

Definition BODY_SNIPPET_CHARS : nat := 200.

(** [s.chars().count()] of valid UTF-8: the bytes that are not continuations. *)
Definition char_count (s : string) : nat :=
  length (List.filter (fun c => negb (is_continuation c)) (String.list_ascii_of_string s)).

Definition snippet (body : string) : string :=
  let body := trim body in
  let out := take_chars BODY_SNIPPET_CHARS body in
  if (BODY_SNIPPET_CHARS <? char_count body)%nat then (out +:+ "...")%string else out.

Record RevokeTarget := { rt_channel : list byte; rt_digest : list byte; rt_expires_at : Z }.
Record RevokeBody := { grant_digest_hex : string; expires_at : Z; operator_sig : option string }.

(** [RevokeTarget::body]; [operator]: the operator's signing function. *)
Definition revoke_body (operator : option (list byte -> list byte)) (t : RevokeTarget) : RevokeBody :=
  {| grant_digest_hex := hex_encode (rt_digest t); expires_at := rt_expires_at t;
     operator_sig :=
       (fun sign => hex_encode (sign (revoke_signing_bytes (rt_channel t) (rt_digest t) (rt_expires_at t))))
         <$> operator |}.

Record RevokeOutcome := { already : bool }.

(** [json]: the fields [revoked] and [already] of the body as booleans, or the parser's error. *)
Definition interpret (json : string -> result (option bool * option bool) string) (status : Z) (body : string)
  : result RevokeOutcome string :=
  if status =? 200 then
    let* (revoked, already) := map_err (fun e => "unreadable answer: " +:+ e)%string (json body) in
    if negb (bool_decide (revoked = Some true)) then
      Err ("the control plane answered 200 without confirming the revocation: " +:+ snippet body)%string
    else Ok {| already := default false already |}
  else if status =? 400 then
    Err ("the control plane rejected the request as malformed: " +:+ snippet body)%string
  else if status =? 403 then
    Err "not authorized: the operator signature does not match the key this channel was registered with (or you are not the channel's owner)"
  else if (status =? 404) || (status =? 405) then
    Err "the control plane does not know this channel, or is too old to keep a grant revocation list"
  else Err ("the control plane answered " +:+ show status +:+ ": " +:+ snippet body)%string.

(** ** What a signature is for *)

Lemma length_le_bytes n z : length (le_bytes n z) = n.
Proof. unfold le_bytes. by rewrite length_reverse, length_be_bytes. Qed.

Lemma le_bytes_inj n a b :
  0 <= a < 256 ^ Z.of_nat n -> 0 <= b < 256 ^ Z.of_nat n -> le_bytes n a = le_bytes n b -> a = b.
Proof.
  intros Ha Hb E. apply (inj reverse) in E. apply (f_equal be_value) in E.
  by rewrite !be_value_be_bytes_small in E.
Qed.

(** A 32-byte field and a separator in front of two equal messages. *)
Lemma field_inj (a b x y : list byte) :
  length a = 32%nat -> length b = 32%nat -> a ++ [pipe] ++ x = b ++ [pipe] ++ y -> a = b /\ x = y.
Proof.
  intros Ha Hb E. apply app_inj_1 in E as [-> E]; [|by rewrite Ha, Hb]. by simplify_eq/=.
Qed.

(** a signature says one thing.  Over 32-byte channels, keys and digests and [u64] times, the
    bytes a member signs to ask about a grant determine the channel, the peer, the digest and the
    time; the bytes an operator signs to revoke one determine the channel, the digest and the
    expiry; and no message of one kind is one of the other. *)
Theorem signing_bytes_injective c p d t c' p' d' t' :
  Forall (fun x => length x = 32%nat) [c; p; d; c'; p'; d'] -> 0 <= t <= U64_MAX -> 0 <= t' <= U64_MAX ->
  (status_signing_bytes c p d t = status_signing_bytes c' p' d' t' -> (c, p, d, t) = (c', p', d', t')) /\
  (revoke_signing_bytes c d t = revoke_signing_bytes c' d' t' -> (c, d, t) = (c', d', t')) /\
  status_signing_bytes c p d t <> revoke_signing_bytes c' d' t'.
Proof.
  rewrite !Forall_cons. intros (Hc & Hp & Hd & Hc' & Hp' & Hd' & _) Ht Ht'.
  assert (forall n, 0 <= n <= U64_MAX -> 0 <= n < 256 ^ Z.of_nat 8) as H64 by (unfold U64_MAX; simpl; lia).
  unfold status_signing_bytes, revoke_signing_bytes. split; [|split].
  - intros E. apply app_inv_head in E. apply field_inj in E as [-> E]; [|done..].
    apply field_inj in E as [-> E]; [|done..]. apply field_inj in E as [-> E]; [|done..].
    apply le_bytes_inj in E as ->; auto.
  - intros E. apply app_inv_head in E. apply field_inj in E as [-> E]; [|done..].
    apply field_inj in E as [-> E]; [|done..]. apply le_bytes_inj in E as ->; auto.
  - intros E. apply (f_equal (take 19)) in E. rewrite !take_app_length' in E by done. done.
Qed.

Lemma signing_bytes_injective_witness :
  status_signing_bytes (replicate 32 Byte.x11) (replicate 32 Byte.x22) (replicate 32 Byte.x01) 2000 <>
    revoke_signing_bytes (replicate 32 Byte.x11) (replicate 32 Byte.x01) 2000.
Proof.
  apply (signing_bytes_injective (replicate 32 Byte.x11) (replicate 32 Byte.x22) (replicate 32 Byte.x01) 2000
    (replicate 32 Byte.x11) (replicate 32 Byte.x22) (replicate 32 Byte.x01) 2000).
  - repeat constructor.
  - unfold U64_MAX. lia.
  - unfold U64_MAX. lia.
Defined.

(** ** When the watch ends a session *)

(** An answer that says the grant is still good: [valid], or -- unless the control plane is
    required to answer -- that it has no such endpoint. *)
Definition good (cfg : WatchConfig) (t : WatchTurn) : bool :=
  match answer t with
  | Some (Ok Valid) => true
  | Some (Err Unsupported) => negb (require cfg)
  | _ => false
  end.
(** A definite answer, and whose standing it ends. *)
Definition definite (t : WatchTurn) : option GrantEndScope :=
  match answer t with
  | Some (Ok Revoked) | Some (Ok NotMember) => Some Peer
  | Some (Ok AskerNotMember) => Some Own
  | _ => None
  end.
(** The session ran on during the turn. *)
Definition alive (t : WatchTurn) : Prop := over_in_wait t = false /\ is_Some (answer t).

(** The time of the last good answer. *)
Definition last_good (cfg : WatchConfig) (start : Z) (turns : list WatchTurn) : Z :=
  fold_left (fun l t => if good cfg t then answered_at t else l) turns start.

(** What one turn of a running session does. *)
Definition turn_ends (cfg : WatchConfig) (last : Z) (t : WatchTurn) : option GrantEndScope :=
  match definite t with
  | Some s => Some s
  | None => if good cfg t then None else if sat_sub (answered_at t) last <? grace cfg then None else Some Peer
  end.

Lemma watch_turn_cases cfg t s :
  alive t ->
  match turn_ends cfg (last_valid s) t with
  | Some sc => exists e, watch_turn cfg t s = SendEnd e /\ scope e = sc
  | None => exists s' n, watch_turn cfg t s = Go s' n /\
      last_valid s' = (if good cfg t then answered_at t else last_valid s)
  end.
Proof.
  intros [Ho [v Hv]]. unfold watch_turn, turn_ends, definite, good. rewrite Ho, Hv, andb_false_r.
  destruct v as [[]|[|why]]; simpl; try (destruct (require cfg); simpl); eauto; destruct (_ <? _); eauto.
Qed.

Lemma watch_loop_cases cfg turns s :
  Forall alive turns ->
  match (watch_loop cfg turns s).2 with
  | Ended e => exists done t rest, turns = done ++ t :: rest /\
      turn_ends cfg (last_good cfg (last_valid s) done) t = Some (scope e)
  | Watching _ => forall done t rest, turns = done ++ t :: rest ->
      turn_ends cfg (last_good cfg (last_valid s) done) t = None
  | Over => False
  end.
Proof.
  revert s. induction turns as [|t turns IH]; intros s Hal; [by intros [|? ?] ? ?|].
  apply Forall_cons in Hal as [Ht Hal]. pose proof (watch_turn_cases cfg t s Ht) as Hc. cbn [watch_loop].
  destruct (turn_ends cfg (last_valid s) t) as [sc|] eqn:E.
  - destruct Hc as (e & -> & <-). exists [], t, turns. by split.
  - destruct Hc as (s' & n & -> & Hs'). specialize (IH s' Hal). destruct (watch_loop cfg turns s') as [ns e].
    simpl in *. rewrite Hs' in IH. destruct e as [e| |s''].
    + destruct IH as (dn & t' & rest & -> & He). exists (t :: dn), t', rest. by split.
    + done.
    + intros [|t0 dn] t' rest; simpl; intros Heq; simplify_eq; [done|]. by eapply IH.
Qed.

(** while the session runs, the watch ends it for nothing but a definite answer -- and then in the
    name of whose standing that answer ended -- or, in the peer's name, for an unreadable one after
    no good answer came for the whole grace. *)
Theorem watch_ends_only_for_cause cfg now turns ns e :
  Forall alive turns -> watch_peer_grant cfg now turns = (ns, Ended e) ->
  exists done t rest, turns = done ++ t :: rest /\
    (definite t = Some (scope e) \/
     (scope e = Peer /\ definite t = None /\ good cfg t = false /\
      grace cfg <= sat_sub (answered_at t) (last_good cfg now done))).
Proof.
  intros Hal E. unfold watch_peer_grant in E. pose proof (watch_loop_cases cfg turns (watch_start now) Hal) as Hc.
  rewrite E in Hc. simpl in Hc. destruct Hc as (dn & t & rest & -> & Ht). exists dn, t, rest. split; [done|].
  unfold turn_ends in Ht. destruct (definite t) as [sc|]; [by left|right].
  destruct (good cfg t); [done|]. destruct (Z.ltb_spec (sat_sub (answered_at t) (last_good cfg now dn)) (grace cfg)); [done|].
  by injection Ht as <-.
Qed.

(** C12: the watch fails closed.  However the control plane answers, once a definite answer came, or
    an answer that is not good came [grace] or more after the last good one, a session that ran on
    has been ended. *)
Theorem watch_fails_closed cfg now done t rest :
  Forall alive (done ++ t :: rest) -> 0 <= grace cfg ->
  definite t <> None \/ (good cfg t = false /\ last_good cfg now done + grace cfg <= answered_at t) ->
  exists ns e, watch_peer_grant cfg now (done ++ t :: rest) = (ns, Ended e).
Proof.
  intros Hal Hg Hcause. unfold watch_peer_grant.
  pose proof (watch_loop_cases cfg _ (watch_start now) Hal) as Hc.
  destruct (watch_loop cfg _ _) as [ns e]. simpl in Hc. destruct e as [e| |s]; [eauto|done|exfalso].
  specialize (Hc done t rest eq_refl). simpl in Hc. unfold turn_ends in Hc.
  destruct (definite t) as [sc|]; [done|]. destruct Hcause as [?|[Hb Hl]]; [done|].
  rewrite Hb in Hc. destruct (Z.ltb_spec (sat_sub (answered_at t) (last_good cfg now done)) (grace cfg)); [|done].
  unfold sat_sub in *. lia.
Qed.

(** The default settings, a valid answer at 30 s and silence from then on. *)
Definition demo_watch : WatchConfig := {| interval := 30 * SECOND; grace := 90 * SECOND; require := false |}.
Definition demo_turn (v : result GrantState StatusError) (at_ : Z) : WatchTurn :=
  {| over_in_wait := false; answer := Some v; answered_at := at_ * SECOND |}.
Definition demo_answers : list WatchTurn :=
  [demo_turn (Ok Valid) 0; demo_turn (Ok Valid) 30; demo_turn (Err (Unreadable "timeout")) 70;
   demo_turn (Err (Unreadable "timeout")) 110].
Definition demo_silence : WatchTurn := demo_turn (Err (Unreadable "timeout")) 150.

Lemma demo_alive : Forall alive (demo_answers ++ [demo_silence]).
Proof. repeat constructor; eexists; reflexivity. Qed.

Lemma watch_fails_closed_witness :
  exists ns e, watch_peer_grant demo_watch 0 (demo_answers ++ [demo_silence]) = (ns, Ended e).
Proof.
  apply (watch_fails_closed demo_watch 0 demo_answers demo_silence []).
  - exact demo_alive.
  - vm_compute. congruence.
  - right. split; [reflexivity|]. vm_compute. congruence.
Defined.

Lemma watch_ends_only_for_cause_witness :
  exists ns e, watch_peer_grant demo_watch 0 (demo_answers ++ [demo_silence]) = (ns, Ended e) /\
    exists done t rest, demo_answers ++ [demo_silence] = done ++ t :: rest /\
      (definite t = Some (scope e) \/
       (scope e = Peer /\ definite t = None /\ good demo_watch t = false /\
        grace demo_watch <= sat_sub (answered_at t) (last_good demo_watch 0 done))).
Proof.
  destruct (watch_peer_grant demo_watch 0 (demo_answers ++ [demo_silence])) as [ns w] eqn:E.
  destruct w as [e| |s]; [|by vm_compute in E..].
  exists ns, e. split; [reflexivity|].
  exact (watch_ends_only_for_cause demo_watch 0 _ ns e demo_alive E).
Defined.

(** The settings are usable: an interval of at least five seconds, a grace of at least one
    interval. *)
Lemma from_lookup_ok f cfg :
  from_lookup f = Ok cfg -> MIN_INTERVAL_SECS * SECOND <= interval cfg <= grace cfg /\ require cfg = false.
Proof.
  unfold from_lookup. destruct (read_secs f RECHECK_SECS_ENV _) as [i|]; [|done]. simpl.
  destruct (read_secs f RECHECK_GRACE_SECS_ENV _) as [g|]; [|done]. intros [= <-]. simpl.
  unfold MIN_INTERVAL_SECS, SECOND. lia.
Qed.

(** Only a confirmed revocation counts as one. *)
Lemma interpret_ok json status body o :
  interpret json status body = Ok o -> status = 200 /\ exists a, json body = Ok (Some true, a).
Proof.
  unfold interpret. destruct (Z.eqb_spec status 200) as [->|]; [|by repeat case_match].
  destruct (json body) as [[r a]|]; simpl; [|done]. case_bool_decide; simpl; [|done]. subst r. eauto.
Qed.
