(* ===== verification/ServeLoop.v ===== *)
(** * ServeLoop: admitting peers ([channel_run/serving.rs])

    The persistent serve loop -- one admission at a time, sessions running beside it, four
    independent backoff streaks -- and the bounded retry of a one-shot initiator.  What the edge
    answers, how long things took, the clock and the jitter samples are inputs.  Times are
    nanoseconds, grant expiries whole seconds. *)
From S2P Require Import Prelude Text EnvFlag Runtime FlowControl Retry.

#[local] Open Scope Z_scope.

Definition DEFAULT_SERVE_CONCURRENCY : Z := 8.
Definition DEFAULT_INITIATE_RETRY_SECS : Z := 75.
Definition INITIATE_RETRY_INTERVAL : Z := 3 * SECOND.

(** [value.and_then(|s| s.trim().parse().ok()).filter(|&n| n >= 1)]. *)
Definition positive (value : option string) : option Z :=
  let? s := value in
  let? n := parse_uint U64_MAX (trim s) in
  if 1 <=? n then Some n else None.

Definition serve_concurrency_from_env (value : option string) : Z :=
  default DEFAULT_SERVE_CONCURRENCY (positive value).
Definition initiate_retry_window_from_env (value : option string) : Z :=
  default DEFAULT_INITIATE_RETRY_SECS (positive value) * SECOND.

Definition should_serve_loop (accept : bool) (serve_env : option string) : bool :=
  accept && flag serve_env false.

(** [saturating_add(1)] and [fetch_add(1)] on a [u32]. *)
Definition bump (n : Z) : Z := Z.min U32_MAX (n + 1).
Definition record_flap_outcome (counter : Z) (flapped : bool) : Z :=
  if flapped then wrap 32 (counter + 1) else 0.

(** [SaturationLog] is whether the episode was reported. *)
Definition before_acquire (logged : bool) (available slots : Z) : bool * option string :=
  if (0 <? available) || logged then (logged, None)
  else (true, Some ("ct-agent channel: all " +:+ show slots +:+
                    " serve slots busy -- not parking until a session ends (#200)")%string).
Definition after_acquire (logged : bool) : bool * option string :=
  (false, if logged then Some "ct-agent channel: a serve slot is free again -- parking (#200)" else None).

Fixpoint is_peer_not_pinned (l : list ErrorNode) : bool :=
  match l with
  | [] => false
  | PeerNotPinned _ _ :: _ => true
  | _ :: l => is_peer_not_pinned l
  end.

(** [is_park_expired]; [names_park_expiry] is the other crate's look at the error's text. *)
Definition is_park_expired (names_park_expiry : BoxError -> bool) (e : BoxError) : bool :=
  match chain e with
  | ParkExpired _ :: _ => true
  | _ => names_park_expiry e
  end.

Section Serve.
Context {Sem : Type} `{SemaphoreLaws Sem} {F : Type} `{JitterLaws F}.
Context (names_park_expiry : BoxError -> bool).
Context (max_sessions retry_backoff : Z) (own_expires_at : option Z).

Definition slots : Z := Z.max max_sessions 1.

(** Where the loop is: waiting for a slot, or holding one while it admits. *)
Inductive ServePc := Acquiring | Admitting.

Record Serve := {
  sem : Sem;
  pc : ServePc;
  consecutive_refusals : Z;
  consecutive_handshake_eofs : Z;
  consecutive_transients : Z;
  consecutive_flaps : Z;
  logged : bool;
  running : gset Z
}.

Definition serve_start : Serve :=
  {| sem := sem_new slots; pc := Acquiring; consecutive_refusals := 0; consecutive_handshake_eofs := 0;
     consecutive_transients := 0; consecutive_flaps := 0; logged := false; running := ∅ |}.

(** What a step does: the loop goes on -- after a sleep, if one is given -- or ends. *)
Inductive ServeStep := Next (sleep : option Z) (s : Serve) | Stopped (reason : string).

Definition at_acquire (sm : Sem) (l : bool) (r e t : Z) (s : Serve) : Serve :=
  {| sem := sm; pc := Acquiring; consecutive_refusals := r; consecutive_handshake_eofs := e;
     consecutive_transients := t; consecutive_flaps := consecutive_flaps s; logged := l; running := running s |}.

(** The top of the loop: the capacity line, the slot, the wait for a flapping peer.  [None]: it
    waits for a slot; its report of that is [wait_for_slot]. *)
Definition wait_for_slot (s : Serve) : Serve :=
  {| sem := sem s; pc := pc s; consecutive_refusals := consecutive_refusals s;
     consecutive_handshake_eofs := consecutive_handshake_eofs s; consecutive_transients := consecutive_transients s;
     consecutive_flaps := consecutive_flaps s;
     logged := fst (before_acquire (logged s) (available_permits (sem s)) slots); running := running s |}.

Definition take_slot (rand01 : F) (s : Serve) : option ServeStep :=
  let s := wait_for_slot s in
  let? sm := acquire_many 1 (sem s) in
  let flaps := consecutive_flaps s in
  let sleep := if 0 <? flaps then Some (equal_jitter (flapping_session_backoff retry_backoff flaps) rand01) else None in
  Some (Next sleep
    {| sem := sm; pc := Admitting; consecutive_refusals := consecutive_refusals s;
       consecutive_handshake_eofs := consecutive_handshake_eofs s; consecutive_transients := consecutive_transients s;
       consecutive_flaps := flaps; logged := fst (after_acquire (logged s)); running := running s |}).

(** An admission ended: with a peer's work, with a panic, or with an error. *)
Inductive Admission := Work | Panicked | Failed (e : BoxError).

(** The session runs as task [id] and holds the slot. *)
Definition admitted (id : Z) (s : Serve) : ServeStep :=
  Next None
    {| sem := sem s; pc := Acquiring; consecutive_refusals := 0; consecutive_handshake_eofs := 0;
       consecutive_transients := 0; consecutive_flaps := consecutive_flaps s; logged := logged s;
       running := {[id]} ∪ running s |}.

Definition admit_panicked (s : Serve) : ServeStep :=
  Next (Some retry_backoff) (at_acquire (add_permits 1 (sem s)) (logged s) 0 0 0 s).

(** [held]: how long the attempt took; [now]: unix seconds. *)
Definition admit_failed (e : BoxError) (held now : Z) (rand01 : F) (s : Serve) : ServeStep :=
  let sm := add_permits 1 (sem s) in
  match own_grant_refusal e own_expires_at now with
  | Some reason => Stopped reason
  | None =>
      if is_park_expired names_park_expiry e then
        Next (Some (ex_repark_delay retry_backoff rand01)) (at_acquire sm (logged s) 0 0 0 s)
      else if is_transport_handshake_eof e then
        let eofs := bump (consecutive_handshake_eofs s) in
        Next (Some (equal_jitter (handshake_eof_backoff retry_backoff eofs) rand01))
             (at_acquire sm (logged s) 0 eofs 0 s)
      else
        let refused := is_definitive_admission_refusal e in
        let refusals := if refused then bump (consecutive_refusals s) else 0 in
        let transients := if TRANSIENT_ADMISSION_BACKOFF_CAP <=? held then 0 else consecutive_transients s in
        let transients := if refused then 0 else bump transients in
        let backoff :=
          equal_jitter
            (if refused then admission_retry_backoff retry_backoff refused refusals
             else transient_admission_backoff retry_backoff transients) rand01 in
        Next (Some backoff) (at_acquire sm (logged s) refusals 0 transients s)
  end.

Definition on_admission (a : Admission) (id held now : Z) (rand01 : F) (s : Serve) : ServeStep :=
  match a with
  | Work => admitted id s
  | Panicked => admit_panicked s
  | Failed e => admit_failed e held now rand01 s
  end.

(** A session ended after [elapsed] with [error]; its slot is free again.  [None]: its task
    panicked or was aborted, which records nothing. *)
Definition session_over (id : Z) (outcome : option (Z * option BoxError)) (s : Serve) : Serve :=
  let flaps :=
    match outcome with
    | Some (elapsed, error) =>
        let refused := match error with Some e => is_peer_not_pinned (chain e) | None => false end in
        if refused then consecutive_flaps s
        else
          record_flap_outcome (consecutive_flaps s)
            (is_flapping_session elapsed (match error with Some _ => true | None => false end))
    | None => consecutive_flaps s
    end in
  {| sem := add_permits 1 (sem s); pc := pc s; consecutive_refusals := consecutive_refusals s;
     consecutive_handshake_eofs := consecutive_handshake_eofs s; consecutive_transients := consecutive_transients s;
     consecutive_flaps := flaps; logged := logged s; running := running s ∖ {[id]} |}.

(** [serve_loop_concurrent]: the own expiry is looked at before each step of the loop. *)
Definition expired_text (at_ : Z) : string :=
  ("this member's channel grant expired (expires_at " +:+ show at_ +:+ ")")%string.

Inductive ServeEvent :=
| EvWaiting
| EvSlot (rand01 : F)
| EvAdmission (a : Admission) (id held now : Z) (rand01 : F)
| EvSession (id : Z) (outcome : option (Z * option BoxError))
| EvExpired.

Definition serve_event (e : ServeEvent) (s : Serve) : option ServeStep :=
  match e, pc s with
  | EvWaiting, Acquiring => Some (Next None (wait_for_slot s))
  | EvSlot r, Acquiring => take_slot r s
  | EvAdmission a id held now r, Admitting =>
      if bool_decide (id ∈ running s) then None else Some (on_admission a id held now r s)
  | EvSession id outcome, _ =>
      if bool_decide (id ∈ running s) then Some (Next None (session_over id outcome s)) else None
  | EvExpired, _ => let? at_ := own_expires_at in Some (Stopped (expired_text at_))
  | _, _ => None
  end.

(** [end_running_sessions]: which sessions are aborted, [finished] being those that ended within
    the budget an expiry gives them. *)
Definition end_running_sessions (expired : bool) (finished : gset Z) (sessions : gset Z) : gset Z :=
  if expired then sessions ∖ finished else sessions.
End Serve.

(** ** A one-shot initiator's admission *)

Inductive InitiateWait := OneShot | Persistent.

(** What the edge answered, as far as the retry looks: admitted, or something else it can show. *)
Inductive Outcome := JoinAdmitted | NotAdmitted (shown : string).

(** One attempt: its result -- [None]: the window cut it -- and the clock after it. *)
Record Attempt := { attempt_result : option (result Outcome BoxError); attempt_end : Z }.

Definition plain (t : string) : BoxError := {| text := t; chain := [OtherError] |}.

Definition STILL_PARKED : string := "the attempt was still parked when the one-shot window closed".
Definition cut_error (previous : option string) : BoxError :=
  plain (match previous with
         | None => STILL_PARKED
         | Some p => STILL_PARKED +:+ " (previous attempt: " +:+ p +:+ ")"
         end)%string.

Definition no_acceptor (channel : string) (window attempt : Z) (r : result Outcome BoxError) : BoxError :=
  plain ("no acceptor for channel " +:+ channel +:+ " parked at this edge within " +:+ show (window / SECOND) +:+
         "s (attempt " +:+ show attempt +:+ ", ct-agent#95) " +:+
         match r with
         | Ok JoinAdmitted => ""
         | Ok (NotAdmitted o) =>
             "-- the peer may be between park windows (#21), offline, or parked at a different pairer (last outcome: " +:+ o +:+ ")"
         | Err e => "-- last error: " +:+ text e
         end)%string.

(** [admit_one_shot_with_retry] over its attempts; [None]: they are not enough to end it.  The
    result and when the loop ended. *)
Fixpoint retry_loop (wait : InitiateWait) (channel : string) (window deadline attempt : Z) (previous : option string)
    (attempts : list Attempt) : option (result Outcome BoxError * Z) :=
  match attempts with
  | [] => None
  | a :: attempts =>
      let attempt := wrap 32 (attempt + 1) in
      let result := match attempt_result a with Some r => r | None => Err (cut_error previous) end in
      match result with
      | Ok JoinAdmitted => Some (Ok JoinAdmitted, attempt_end a)
      | _ =>
          if match result with Err e => is_revoked_grant_refusal e | Ok _ => false end then Some (result, attempt_end a)
          else
            let now := attempt_end a in
            let no_time_left :=
              match wait with OneShot => deadline <=? now + INITIATE_RETRY_INTERVAL | Persistent => false end in
            if (deadline <=? now) || no_time_left then Some (Err (no_acceptor channel window attempt result), now)
            else
              let previous := match result with Ok JoinAdmitted => "" | Ok (NotAdmitted o) => o | Err e => text e end in
              retry_loop wait channel window deadline attempt (Some previous) attempts
      end
  end.

(** [tokio::time::Instant::now() + window] panics when the sum is no [Instant]. *)
Inductive RetryRun := DeadlinePanics | Runs (ended : option (result Outcome BoxError * Z)).

Definition admit_one_shot_with_retry (wait : InitiateWait) (channel : string) (start window : Z)
    (attempts : list Attempt) : RetryRun :=
  match checked_add_instant start window with
  | None => DeadlinePanics
  | Some deadline => Runs (retry_loop wait channel window deadline 0 None attempts)
  end.

(** ** The slots *)

Section ServeLaws.
Context {Sem : Type} `{SemaphoreLaws Sem} {F : Type} `{JitterLaws F}.
Context (names_park_expiry : BoxError -> bool) (max_sessions retry_backoff : Z) (own_expires_at : option Z).

#[local] Abbreviation event := (serve_event names_park_expiry max_sessions retry_backoff own_expires_at).

(** What an admission that did not end the loop was, newest first. *)
Inductive Kind := KWork | KPanic | KPark | KEof | KRefused | KTransient (long : bool).

Definition kind_of_error (e : BoxError) (held : Z) : Kind :=
  if is_park_expired names_park_expiry e then KPark
  else if is_transport_handshake_eof e then KEof
  else if is_definitive_admission_refusal e then KRefused
  else KTransient (TRANSIENT_ADMISSION_BACKOFF_CAP <=? held).
Definition kind_of (a : Admission) (held : Z) : Kind :=
  match a with Work => KWork | Panicked => KPanic | Failed e => kind_of_error e held end.

Inductive serve_reach : Serve (Sem := Sem) -> list Kind -> Prop :=
| reach_start : serve_reach (serve_start max_sessions) []
| reach_event s hist e d s' :
    serve_reach s hist -> event e s = Some (Next d s') ->
    serve_reach s' (match e with EvAdmission a _ held _ _ => kind_of a held :: hist | _ => hist end).

(** The run of one kind at the head of the history. *)
Fixpoint refused_streak (hist : list Kind) : Z :=
  match hist with KRefused :: hist => 1 + refused_streak hist | _ => 0 end.
Fixpoint eof_streak (hist : list Kind) : Z :=
  match hist with KEof :: hist => 1 + eof_streak hist | _ => 0 end.
(** A transient that took long starts the run over. *)
Fixpoint transient_streak (hist : list Kind) : Z :=
  match hist with
  | KTransient true :: _ => 1
  | KTransient false :: hist => 1 + transient_streak hist
  | _ => 0
  end.

Record serve_inv (s : Serve (Sem := Sem)) (hist : list Kind) : Prop := {
  sv_slots : sem_permits (sem s) + Z.of_nat (size (running s)) + (match pc s with Admitting => 1 | Acquiring => 0 end)
             = slots max_sessions;
  sv_refusals : consecutive_refusals s = Z.min U32_MAX (refused_streak hist);
  sv_eofs : consecutive_handshake_eofs s = Z.min U32_MAX (eof_streak hist);
  sv_transients : consecutive_transients s = Z.min U32_MAX (transient_streak hist);
  sv_flaps : 0 <= consecutive_flaps s <= U32_MAX
}.

Lemma streaks_nonneg hist : 0 <= refused_streak hist /\ 0 <= eof_streak hist /\ 0 <= transient_streak hist.
Proof.
  induction hist as [|k hist (Hr & He & Ht)]; [done|].
  destruct k as [| | | | |[]]; simpl; lia.
Qed.

Lemma bump_min n : bump (Z.min U32_MAX n) = Z.min U32_MAX (1 + n).
Proof. unfold bump. lia. Qed.

Lemma flap_range c f : 0 <= c <= U32_MAX -> 0 <= record_flap_outcome c f <= U32_MAX.
Proof.
  unfold record_flap_outcome, wrap, U32_MAX. destruct f; [|lia].
  intros _. pose proof (Z.mod_pos_bound (c + 1) (2 ^ 32)). lia.
Qed.

Lemma take_slot_inv r s hist d s' :
  serve_inv s hist -> pc s = Acquiring -> take_slot max_sessions retry_backoff r s = Some (Next d s') ->
  serve_inv s' hist /\ 0 < sem_permits (sem s).
Proof.
  intros [Hsl Hr He Ht Hf] Hpc. unfold take_slot. simpl.
  destruct (acquire_many 1 (sem s)) as [sm|] eqn:E; [|done]. intros [= _ <-].
  pose proof (acquire_many_enough 1 _ _ ltac:(lia) E).
  apply acquire_many_permits in E as [Hp _]; [|lia]. rewrite Hpc in Hsl. split; [|lia].
  split; simpl; try done. lia.
Qed.

Lemma admit_failed_inv e held now r s hist d s' :
  serve_inv s hist -> pc s = Admitting ->
  admit_failed names_park_expiry retry_backoff own_expires_at e held now r s = Next d s' ->
  serve_inv s' (kind_of_error e held :: hist).
Proof.
  intros [Hsl Hr He Ht Hf] Hpc. unfold admit_failed, kind_of_error.
  destruct (own_grant_refusal _ _ _); [done|]. rewrite Hpc in Hsl.
  assert (sem_permits (add_permits 1 (sem s)) = sem_permits (sem s) + 1) as Hp by (apply add_permits_permits; lia).
  destruct (is_park_expired _ e).
  { intros [= _ <-]. split; simpl; rewrite ?Hp; done || lia. }
  destruct (is_transport_handshake_eof e).
  { intros [= _ <-]. split; simpl; rewrite ?Hp, ?He, ?bump_min; done || lia. }
  destruct (is_definitive_admission_refusal e).
  { intros [= _ <-]. split; simpl; rewrite ?Hp, ?Hr, ?bump_min; done || lia. }
  intros [= _ <-]. split; simpl; rewrite ?Hp, ?Ht; try (done || lia).
  destruct (_ <=? held); rewrite ?bump_min; done.
Qed.

Lemma session_over_inv id o s hist : serve_inv s hist -> id ∈ running s -> serve_inv (session_over id o s) hist.
Proof.
  intros [Hsl Hr He Ht Hf] Hid. split; simpl; try done.
  - rewrite add_permits_permits, size_difference, size_singleton by (lia || set_solver).
    assert (size (running s) <> 0)%nat; [|lia]. rewrite size_non_empty_iff. set_solver.
  - destruct o as [[el er]|]; [|done]. destruct (match er with Some e => _ | None => _ end); [done|].
    by apply flap_range.
Qed.

Lemma serve_event_inv e s hist d s' :
  serve_inv s hist -> event e s = Some (Next d s') ->
  serve_inv s' (match e with EvAdmission a _ held _ _ => kind_of a held :: hist | _ => hist end).
Proof.
  intros Hi. unfold serve_event. destruct e as [|r|a id held now r|id o|]; destruct (pc s) eqn:Hpc; try done.
  - intros [= <- <-]. destruct Hi. split; done.
  - intros Ht. by eapply take_slot_inv in Ht as [? _].
  - case_bool_decide as Hid; [done|]. intros [= Ha]. destruct a as [| |er]; simpl in *.
    + injection Ha as <- <-. destruct Hi as [Hsl Hr He Ht Hf]. rewrite Hpc in Hsl.
      split; simpl; try done. rewrite size_union by set_solver. rewrite size_singleton. lia.
    + injection Ha as <- <-. destruct Hi as [Hsl Hr He Ht Hf]. rewrite Hpc in Hsl.
      split; simpl; try done. rewrite add_permits_permits by lia. lia.
    + by eapply admit_failed_inv.
  - case_bool_decide as Hid; [|done]. intros [= <- <-]. by apply session_over_inv.
  - case_bool_decide as Hid; [|done]. intros [= <- <-]. by apply session_over_inv.
  - by destruct own_expires_at.
  - by destruct own_expires_at.
Qed.

Lemma serve_reach_inv s hist : serve_reach s hist -> serve_inv s hist.
Proof.
  induction 1 as [|s hist e d s' Hr IH E].
  - split; [|done..|simpl; unfold U32_MAX; lia]. cbn [serve_start sem running pc].
    rewrite sem_new_permits, size_empty by (unfold slots; lia). lia.
  - by eapply serve_event_inv.
Qed.

(** C10: the persistent serve loop never takes on more than it may: in every state it can reach, the
    sessions that run and the admission in flight together hold at most [max] slots -- so with all
    slots busy nobody is parked -- and every slot not held is free again.  Its three admission
    streaks count exactly the run of their own kind of outcome that is still going on: a refusal, a
    handshake that ended early and a transient error each end the others' runs, a park expiry, a
    panic and an admitted peer end all three, and a transient that took long starts its run
    over. *)
Theorem serve_loop_exact s hist :
  serve_reach s hist ->
  Z.of_nat (size (running s)) + (match pc s with Admitting => 1 | Acquiring => 0 end) <= slots max_sessions /\
  sem_permits (sem s) =
    slots max_sessions - Z.of_nat (size (running s)) - (match pc s with Admitting => 1 | Acquiring => 0 end) /\
  consecutive_refusals s = Z.min U32_MAX (refused_streak hist) /\
  consecutive_handshake_eofs s = Z.min U32_MAX (eof_streak hist) /\
  consecutive_transients s = Z.min U32_MAX (transient_streak hist).
Proof.
  intros Hr. destruct (serve_reach_inv _ _ Hr) as [Hsl Hrf He Ht _].
  pose proof (sem_permits_nonneg (sem s)). split_and!; try done; lia.
Qed.

(** The waits after a failed admission, from the streak it continues. *)
Definition wait_ok (k : Kind) (hist : list Kind) (d : Z) : Prop :=
  let capped n cap := Z.min (retry_backoff * 2 ^ Z.min n 16) (cap * SECOND) in
  match k with
  | KPark => retry_backoff / 2 <= d <= retry_backoff / 2 + 2 * retry_backoff
  | KEof => let c := capped (eof_streak hist) 10 in c / 2 <= d <= c
  | KRefused => let c := capped (refused_streak hist) 30 in c / 2 <= d <= c
  | KTransient _ => let c := capped (transient_streak hist - 1) 10 in c / 2 <= d <= c
  | _ => True
  end.

Lemma min16 n : Z.min (Z.min U32_MAX n) 16 = Z.min n 16.
Proof. unfold U32_MAX. lia. Qed.

Lemma jitter_of_capped n cap (r : F) :
  0 <= retry_backoff -> 0 <= n -> 0 < cap <= 30 ->
  let c := Z.min (retry_backoff * 2 ^ Z.min n 16) (cap * SECOND) in c / 2 <= equal_jitter c r <= c.
Proof.
  intros Hb Hn Hc. apply equal_jitter_range. unfold SECOND.
  assert (0 <= retry_backoff * 2 ^ Z.min n 16) by (apply Z.mul_nonneg_nonneg; [done|apply Z.pow_nonneg; lia]). lia.
Qed.

(** what the loop does with a failed admission.  It ends exactly when the refusal says that this
    member's own grant is over.  Otherwise it waits, and the wait is the documented one: around the
    base after a park expiry, and after the n-th refusal, early handshake end or transient error of
    a run, jittered in the upper half of [base * 2^n] (for a transient [base * 2^(n-1)]), capped at
    30, 10 and 10 seconds. *)
Theorem serve_failure_handled s hist e held now r :
  0 <= retry_backoff <= 2 ^ 49 -> serve_reach s hist -> pc s = Admitting ->
  match admit_failed names_park_expiry retry_backoff own_expires_at e held now r s with
  | Stopped reason => own_grant_refusal e own_expires_at now = Some reason
  | Next d s' =>
      own_grant_refusal e own_expires_at now = None /\
      exists w, d = Some w /\ wait_ok (kind_of_error e held) (kind_of_error e held :: hist) w
  end.
Proof.
  intros Hb Hr Hpc. destruct (serve_reach_inv _ _ Hr) as [_ Hrf He Ht _].
  pose proof (streaks_nonneg hist) as (Hn1 & Hn2 & Hn3).
  unfold admit_failed, kind_of_error. destruct (own_grant_refusal _ _ _); [done|].
  destruct (is_park_expired _ e).
  { split; [done|]. eexists. split; [done|]. simpl. unfold ex_repark_delay.
    pose proof (mul_unit_range (2 * retry_backoff) r). lia. }
  destruct (is_transport_handshake_eof e).
  { split; [done|]. eexists. split; [done|]. rewrite He, bump_min. simpl.
    destruct (admission_backoffs_closed_form retry_backoff (Z.min U32_MAX (1 + eof_streak hist))) as (_ & _ & _ & -> & _);
      [lia|unfold U32_MAX; lia|]. rewrite min16. apply jitter_of_capped; lia. }
  destruct (is_definitive_admission_refusal e).
  { split; [done|]. eexists. split; [done|]. rewrite Hrf, bump_min. simpl.
    destruct (admission_backoffs_closed_form retry_backoff (Z.min U32_MAX (1 + refused_streak hist))) as (-> & _);
      [lia|unfold U32_MAX; lia|]. rewrite min16. apply jitter_of_capped; lia. }
  split; [done|]. eexists. split; [done|].
  assert (bump (if TRANSIENT_ADMISSION_BACKOFF_CAP <=? held then 0 else consecutive_transients s) =
          Z.min U32_MAX (transient_streak (KTransient (TRANSIENT_ADMISSION_BACKOFF_CAP <=? held) :: hist))) as ->.
  { rewrite Ht. destruct (_ <=? held); [done|]. by rewrite bump_min. }
  assert (1 <= transient_streak (KTransient (TRANSIENT_ADMISSION_BACKOFF_CAP <=? held) :: hist)) as Hone.
  { destruct (_ <=? held); simpl; lia. }
  cbn [wait_ok]. set (n := transient_streak (KTransient (TRANSIENT_ADMISSION_BACKOFF_CAP <=? held) :: hist)) in *.
  destruct (admission_backoffs_closed_form retry_backoff (Z.min U32_MAX n)) as (_ & _ & _ & _ & ->);
    [lia|unfold U32_MAX; lia|].
  replace (Z.min (Z.max 0 (Z.min U32_MAX n - 1)) 16) with (Z.min (n - 1) 16) by (unfold U32_MAX; lia).
  apply jitter_of_capped; lia.
Qed.

(** the flap streak is about the path, not about one peer: a session counts as a flap exactly
    when it ended with an error within half a second, one refused by this member's own pin neither
    counts nor ends the streak, and every other end -- also a late error -- ends it. *)
Theorem flap_streak_exact s hist id elapsed error :
  serve_reach s hist -> id ∈ running s -> consecutive_flaps s < U32_MAX ->
  consecutive_flaps (session_over id (Some (elapsed, error)) s) =
    match error with
    | Some e =>
        if is_peer_not_pinned (chain e) then consecutive_flaps s
        else if elapsed <? 500 * MILLI then consecutive_flaps s + 1 else 0
    | None => 0
    end.
Proof.
  intros Hr Hid Hlt. pose proof (sv_flaps _ _ (serve_reach_inv _ _ Hr)) as Hf. simpl.
  destruct error as [e|]; simpl; [|done]. destruct (is_peer_not_pinned (chain e)); [done|].
  unfold is_flapping_session, record_flap_outcome, FLAPPING_SESSION_THRESHOLD, wrap. simpl.
  destruct (elapsed <? _); [|done]. apply Z.mod_small. unfold U32_MAX in *. lia.
Qed.
End ServeLaws.

(** ** The one-shot retry *)

(** The clock: an attempt ends no earlier than it starts, and the next one starts no earlier than
    the sleep after it says. *)
Fixpoint spaced (deadline from : Z) (attempts : list Attempt) : Prop :=
  match attempts with
  | [] => True
  | a :: attempts =>
      from <= attempt_end a /\
      spaced deadline (Z.min deadline (attempt_end a + INITIATE_RETRY_INTERVAL)) attempts
  end.

(** How a retry may end. *)
Definition retry_result (attempts : list Attempt) (r : result Outcome BoxError) : Prop :=
  match r with
  | Ok JoinAdmitted => exists a, a ∈ attempts /\ attempt_result a = Some (Ok JoinAdmitted)
  | Ok (NotAdmitted _) => False
  | Err _ => True
  end.

Lemma retry_loop_ends wait channel window deadline n previous from (k : nat) attempts :
  spaced deadline from attempts -> deadline - Z.of_nat k * INITIATE_RETRY_INTERVAL <= from ->
  (k < length attempts)%nat ->
  exists r at_, retry_loop wait channel window deadline n previous attempts = Some (r, at_) /\
    retry_result attempts r.
Proof.
  revert n previous from k. induction attempts as [|a attempts IH]; intros n previous from k Hs Hk Hl; simpl in Hl; [lia|].
  destruct Hs as [Ha Hs]. cbn [retry_loop].
  set (res := match attempt_result a with Some r => r | None => Err (cut_error previous) end).
  assert (res = Ok JoinAdmitted -> attempt_result a = Some (Ok JoinAdmitted)) as Hadm.
  { unfold res. destruct (attempt_result a); [by intros ->|done]. }
  assert (exists r at_, (if match res with Err e => is_revoked_grant_refusal e | Ok _ => false end then Some (res, attempt_end a)
          else
            if (deadline <=? attempt_end a) || match wait with OneShot => deadline <=? attempt_end a + INITIATE_RETRY_INTERVAL | Persistent => false end
            then Some (Err (no_acceptor channel window (wrap 32 (n + 1)) res), attempt_end a)
            else retry_loop wait channel window deadline (wrap 32 (n + 1))
                   (Some match res with Ok JoinAdmitted => "" | Ok (NotAdmitted o) => o | Err e => text e end) attempts)
         = Some (r, at_) /\ retry_result (a :: attempts) r) as Hgo.
  { destruct (match res with Err e => is_revoked_grant_refusal e | Ok _ => false end) eqn:Er.
    { exists res, (attempt_end a). split; [done|]. by destruct res. }
    destruct (Z.leb_spec deadline (attempt_end a)) as [|Hlt]; [by do 2 eexists; split|]. simpl.
    destruct (match wait with OneShot => _ | Persistent => false end); [by do 2 eexists; split|].
    destruct k as [|k]; [simpl in Hk; lia|].
    destruct (IH (wrap 32 (n + 1)) (Some match res with Ok JoinAdmitted => "" | Ok (NotAdmitted o) => o | Err e => text e end)
      _ k Hs) as (r & at_ & -> & Hr); [unfold INITIATE_RETRY_INTERVAL, SECOND in *; lia|lia|].
    exists r, at_. split; [done|]. destruct r as [[]|]; try done.
    destruct Hr as (x & Hx & Hxr). exists x. split; [by right|done]. }
  destruct res as [[]|]; try exact Hgo.
  exists (Ok JoinAdmitted), (attempt_end a). split; [done|]. exists a. split; [left|auto].
Qed.

(** an initiator's admission ends.  Whatever the edge answers, with attempts spaced by the sleeps
    between them the retry returns within [window / 3 s] attempts plus two -- admitted only if an
    attempt was, never with another outcome as if it were one. *)
Theorem admission_retry_ends wait channel start window attempts :
  0 <= window -> start + window <= INSTANT_MAX -> spaced (start + window) start attempts ->
  window / INITIATE_RETRY_INTERVAL + 2 <= Zlen attempts ->
  exists r at_, admit_one_shot_with_retry wait channel start window attempts = Runs (Some (r, at_)) /\
    retry_result attempts r.
Proof.
  intros Hw Hi Hs Hl. unfold admit_one_shot_with_retry, checked_add_instant. rewrite (proj2 (Z.leb_le _ _) Hi).
  assert (0 <= window / INITIATE_RETRY_INTERVAL) by (apply Z.div_pos; unfold INITIATE_RETRY_INTERVAL, SECOND; lia).
  destruct (retry_loop_ends wait channel window (start + window) 0 None start
    (Z.to_nat (window / INITIATE_RETRY_INTERVAL + 1)) attempts Hs) as (r & at_ & -> & Hr); [|lia|eauto].
  pose proof (Z.div_mod window INITIATE_RETRY_INTERVAL). pose proof (Z.mod_pos_bound window INITIATE_RETRY_INTERVAL).
  unfold INITIATE_RETRY_INTERVAL, SECOND in *. lia.
Qed.

(** The window is read from the environment without a limit, and the deadline is [now + window]: a
    large enough setting panics at the first admission. *)
Theorem huge_window_panics wait channel start attempts :
  0 <= start ->
  admit_one_shot_with_retry wait channel start
    (initiate_retry_window_from_env (Some "18446744073709551615")) attempts = DeadlinePanics.
Proof.
  intros Hs. unfold admit_one_shot_with_retry, checked_add_instant.
  assert (initiate_retry_window_from_env (Some "18446744073709551615") = 18446744073709551615 * SECOND) as ->
    by (vm_compute; reflexivity).
  rewrite (proj2 (Z.leb_gt _ _)); [done|]. unfold INSTANT_MAX, SECOND. lia.
Qed.

(** ** Concrete runs *)

Definition demo_names (e : BoxError) : bool := false.
Definition transient_error : BoxError := plain "connection refused".
Definition demo_serve_event : ServeEvent (F := Z) -> Serve (Sem := RefSem) -> option (ServeStep (Sem := RefSem)) :=
  serve_event demo_names 1 (200 * MILLI) None.

Fixpoint serve_run (evs : list (ServeEvent (F := Z))) (s : Serve (Sem := RefSem)) : option (Serve (Sem := RefSem)) :=
  match evs with
  | [] => Some s
  | e :: evs => match demo_serve_event e s with Some (Next _ s) => serve_run evs s | _ => None end
  end.

(** Two transient failures, then a session, while the loop is at capacity, then a third slot. *)
Definition demo_serve : list (ServeEvent (F := Z)) :=
  [EvSlot 0; EvAdmission (Failed transient_error) 0 0 0 0; EvSlot 0; EvAdmission (Failed transient_error) 0 0 0 0;
   EvSlot 0].
Definition demo_served : Serve (Sem := RefSem) := default (serve_start 1) (serve_run demo_serve (serve_start 1)).
Definition demo_hist : list Kind := [KTransient false; KTransient false].

Lemma demo_serve_reach :
  serve_reach (F := Z) demo_names 1 (200 * MILLI) None demo_served demo_hist.
Proof.
  assert (forall evs s hist s', serve_reach (F := Z) demo_names 1 (200 * MILLI) None s hist ->
    serve_run evs s = Some s' ->
    serve_reach (F := Z) demo_names 1 (200 * MILLI) None s'
      (fold_left (fun h e => match e with EvAdmission a _ held _ _ => kind_of demo_names a held :: h | _ => h end) evs hist))
    as Hrun.
  { intros evs. induction evs as [|e evs IH]; intros s hist s' Hs; simpl; [by intros [= <-]|].
    destruct (demo_serve_event e s) as [[d s1|]|] eqn:E; [|done..]. apply IH. by eapply reach_event. }
  assert (serve_run demo_serve (serve_start 1) = Some demo_served) as E by (vm_compute; reflexivity).
  exact (Hrun _ _ [] _ (reach_start _ _ _ _) E).
Qed.

Lemma serve_loop_exact_witness :
  Z.of_nat (size (running demo_served)) + 1 <= 1 /\ consecutive_transients demo_served = 2.
Proof.
  destruct (serve_loop_exact demo_names 1 (200 * MILLI) None demo_served demo_hist demo_serve_reach)
    as (Hs & _ & _ & _ & Ht).
  split; [exact Hs|]. rewrite Ht. vm_compute. reflexivity.
Defined.

Lemma serve_failure_handled_witness :
  match admit_failed (F := Z) demo_names (200 * MILLI) None transient_error 0 0 0 demo_served with
  | Stopped reason => own_grant_refusal transient_error None 0 = Some reason
  | Next d _ => exists w, d = Some w /\ 400 * MILLI <= w <= 800 * MILLI
  end.
Proof.
  assert (pc demo_served = Admitting) as Hpc by (vm_compute; reflexivity).
  pose proof (serve_failure_handled (F := Z) demo_names 1 (200 * MILLI) None demo_served demo_hist
    transient_error 0 0 0 ltac:(unfold MILLI; lia) demo_serve_reach Hpc) as Hx.
  destruct (admit_failed _ _ _ _ _ _ _ _) as [d s'|reason]; [|exact Hx].
  destruct Hx as (_ & w & Hd & Hw). exists w. split; [exact Hd|].
  assert (kind_of_error demo_names transient_error 0 = KTransient false) as Hk by (vm_compute; reflexivity).
  rewrite Hk in Hw. assert (transient_streak (KTransient false :: demo_hist) = 3) as Hn by (vm_compute; reflexivity).
  unfold wait_ok in Hw. rewrite Hn in Hw.
  assert (Z.min (200 * MILLI * 2 ^ Z.min (3 - 1) 16) (10 * SECOND) = 800 * MILLI) as Hc by (vm_compute; reflexivity).
  rewrite Hc in Hw. exact Hw.
Defined.

(** An edge that never answers but with a park expiry, asked every three seconds for six. *)
Definition demo_attempt (t : Z) : Attempt := {| attempt_result := Some (Ok (NotAdmitted "ParkExpired")); attempt_end := t * SECOND |}.

Lemma admission_retry_ends_witness :
  exists r at_, admit_one_shot_with_retry OneShot "aa" 0 (6 * SECOND) (map demo_attempt [0; 3; 6; 9]) = Runs (Some (r, at_)).
Proof.
  destruct (admission_retry_ends OneShot "aa" 0 (6 * SECOND) (map demo_attempt [0; 3; 6; 9])) as (r & at_ & E & _).
  - unfold SECOND. lia.
  - unfold INSTANT_MAX, SECOND. lia.
  - simpl. unfold INITIATE_RETRY_INTERVAL, SECOND. lia.
  - vm_compute. congruence.
  - exists r, at_. exact E.
Defined.

Lemma huge_window_panics_witness :
  admit_one_shot_with_retry OneShot "aa" 0 (initiate_retry_window_from_env (Some "18446744073709551615")) [] = DeadlinePanics.
Proof. apply huge_window_panics. lia. Defined.
