(* ===== verification/PeerPin.v ===== *)
(** * PeerPin: binding an endpoint to its partner ([channel_run/peer_pin.rs])

    The opt-in pin of [CT_CHANNEL_PEER_PIN]: how it is read, what it accepts, and what a refused
    pairing still does.  The link derivation, the grant check and the test of an ed25519 key are
    other crates': parameters. *)
From S2P Require Import Prelude Text Codec Net Retry.

#[local] Open Scope Z_scope.

Definition PEER_PIN_ENV : string := "CT_CHANNEL_PEER_PIN".
Definition OPERATOR_PUBKEY_ENV : string := "CT_CHANNEL_OPERATOR_PUBKEY".

Record PinnedPeer := { holder : list byte; noise : option (list byte) }.
Inductive PeerPin := Link (operator : list byte) | Peers (peers : list PinnedPeer).

#[global] Instance PinnedPeer_eq_dec : EqDecision PinnedPeer.
Proof. solve_decision. Defined.

Section Pin.
(** [ed25519_dalek::VerifyingKey::from_bytes(..).is_ok()], [channel_id_for_link], and whether
    [verify_stateless] answers [BadKey] or [BadSignature]. *)
Context (is_ed25519 : list byte -> bool).
Context (channel_id_for_link : list byte -> list byte -> list byte -> list byte).

Definition tick (s : string) : string := ("`" +:+ s +:+ "`")%string.

(** The error of a field that is no 64-hex key. *)
Definition bad_key (key value : string) : string :=
  (tick (key +:+ ":") +:+ " needs a 64-hex public key, got " +:+ show (str_len value) +:+ " character(s)" +:+
   (if (str_len value =? 64)%Z then " with a non-hex character in it" else ""))%string.

(** The fields of an entry, from left to right, into the two slots. *)
Fixpoint parse_fields (fields : list string) (h n : option (list byte)) : result (option (list byte) * option (list byte)) string :=
  match fields with
  | [] => Ok (h, n)
  | f :: fields =>
      let field := trim f in
      let* (key, value) :=
        ok_or (split_once ":" field)
          (tick field +:+ " is neither " +:+ tick "holder:<hex>" +:+ " nor " +:+ tick "noise:<hex>")%string in
      let key := to_ascii_lowercase (trim key) in
      let* is_holder :=
        if String.eqb key "holder" then Ok true
        else if String.eqb key "noise" then Ok false
        else Err ("unknown field " +:+ tick key +:+ " (only " +:+ tick "holder" +:+ " and " +:+ tick "noise" +:+ ")")%string in
      if match (if is_holder : bool then h else n) with Some _ => true | None => false end then
        Err (tick key +:+ " is given twice")%string
      else
        let value := trim value in
        let* k := ok_or (hex_decode 32 value) (bad_key key value) in
        if is_holder then parse_fields fields (Some k) n else parse_fields fields h (Some k)
  end.

Definition parse_entry (entry : string) : result PinnedPeer string :=
  if is_empty entry then Err ("is empty (a stray " +:+ tick ";" +:+ "?)")%string
  else
    let* (h, n) := parse_fields (split_char "," entry) None None in
    let* h := ok_or h ("names no " +:+ tick "holder:" +:+ " (a Noise key alone does not name a member)")%string in
    if negb (is_ed25519 h) then
      Err (tick ("holder:" +:+ hex_encode h) +:+ " is not an ed25519 public key (a typo?)")%string
    else Ok {| holder := h; noise := n |}.

(** The entries, numbered from one in the errors. *)
Fixpoint parse_entries (i : Z) (entries : list string) : result (list PinnedPeer) string :=
  match entries with
  | [] => Ok []
  | e :: entries =>
      let* p :=
        map_err (fun why => PEER_PIN_ENV +:+ " entry " +:+ show (i + 1) +:+ ": " +:+ why +:+
                            " (expected " +:+ tick "link" +:+ ", or " +:+ tick "holder:<64 hex>[,noise:<64 hex>]" +:+
                            " with several entries separated by " +:+ tick ";" +:+ ")")%string
          (parse_entry (trim e)) in
      let* ps := parse_entries (i + 1) entries in
      Ok (p :: ps)
  end.

Definition from_lookup (f : string -> option string) : result (option PeerPin) string :=
  let raw := trim (default "" (f PEER_PIN_ENV)) in
  if is_empty raw then Ok None
  else if eq_ignore_ascii_case raw "link" then
    let op := default "" (f OPERATOR_PUBKEY_ENV) in
    let* operator :=
      ok_or (hex_decode 32 (trim op))
        (PEER_PIN_ENV +:+ "=link needs " +:+ OPERATOR_PUBKEY_ENV +:+
         " (64 hex): the link channel id is derived from the operator key, and that key must not come from the edge")%string in
    Ok (Some (Link operator))
  else
    let* peers := parse_entries 0 (split_char ";" raw) in
    Ok (Some (Peers peers)).

(** ** The decision *)

Record Refusal := { peer_holder : list byte; why : string }.

Definition link_refusal (operator peer : list byte) : string :=
  (PEER_PIN_ENV +:+ "=link, but this channel is not the link channel of this holder and holder " +:+ hex_encode peer +:+
   " under operator " +:+ hex_encode operator +:+
   " -- the edge paired another member, or the channel id was not derived as a link for this pair under this operator key (after an operator-key rotation the id keeps the old derivation: pin the holder instead)")%string.

Definition peers_refusal (peer peer_noise : list byte) (pinned_noise : option (list byte)) : string :=
  match pinned_noise with
  | Some n =>
      ("holder " +:+ hex_encode peer +:+ " is pinned with Noise key " +:+ hex_encode n +:+ ", but admission attested " +:+
       hex_encode peer_noise +:+ " -- a rotated or rolled-back key needs a new pin (CADS-Tunnel#574)")%string
  | None => ("holder " +:+ hex_encode peer +:+ " is not pinned")%string
  end.

(** The loop over the entries of this holder: [Ok] at the first that accepts the key, else the
    last key seen. *)
Fixpoint look_for (peer peer_noise : list byte) (peers : list PinnedPeer) (pinned_noise : option (list byte))
  : result unit (option (list byte)) :=
  match peers with
  | [] => Err pinned_noise
  | p :: peers =>
      if bool_decide (holder p = peer) then
        match noise p with
        | None => Ok tt
        | Some n => if bool_decide (n = peer_noise) then Ok tt else look_for peer peer_noise peers (Some n)
        end
      else look_for peer peer_noise peers pinned_noise
  end.

Definition check (pin : PeerPin) (channel own_holder peer peer_noise : list byte) : result unit Refusal :=
  match pin with
  | Link operator =>
      if bool_decide (channel_id_for_link operator own_holder peer = channel) then Ok tt
      else Err {| peer_holder := peer; why := link_refusal operator peer |}
  | Peers peers =>
      match look_for peer peer_noise peers None with
      | Ok _ => Ok tt
      | Err pinned_noise => Err {| peer_holder := peer; why := peers_refusal peer peer_noise pinned_noise |}
      end
  end.

(** [check_own_grant]: the own grant's signature, as [verify_stateless] reports it under the
    operator's key. *)
Inductive GrantVerdict := Verifies | BadKey | BadSignature | OtherGrantError.
Definition check_own_grant (verdict : list byte -> GrantVerdict) (pin : PeerPin) : result unit string :=
  match pin with
  | Peers _ => Ok tt
  | Link operator =>
      match verdict operator with
      | BadKey | BadSignature =>
          Err (PEER_PIN_ENV +:+ "=link, but this member's grant (CT_CHANNEL_GRANT) is not signed by " +:+
               OPERATOR_PUBKEY_ENV +:+ ": the link derivation would refuse every peer -- check the operator key")%string
      | _ => Ok tt
      end
  end.

(** [PeerNotPinned] as the session's error, and as the event's reason. *)
Definition refusal_text (r : Refusal) : string :=
  ("peer not pinned: " +:+ why r +:+ " -- session refused before the Noise handshake")%string.
Record RefusedEvent := { event_reason : string; event_peer : string }.

(** [check_peer_pin]: without a pin, the hub semantics. *)
Definition check_peer_pin (pin : option PeerPin) (channel own_holder peer peer_noise : list byte)
  : result unit BoxError * option RefusedEvent :=
  match pin with
  | None => (Ok tt, None)
  | Some pin =>
      match check pin channel own_holder peer peer_noise with
      | Ok _ => (Ok tt, None)
      | Err r =>
          (Err {| text := refusal_text r; chain := [PeerNotPinned (peer_holder r) (why r)] |},
           Some {| event_reason := refusal_text r; event_peer := hex_encode (peer_holder r) |})
      end
  end.

(** What an admission says of the peer: its holder and its Noise key, if it names them. *)
Definition pin_refuses_admission (pin : option PeerPin) (channel own_holder : list byte)
    (admitted : option (option (list byte) * option (list byte))) : bool :=
  match pin, admitted with
  | Some pin, Some (Some peer, Some peer_noise) => negb (is_ok (check pin channel own_holder peer peer_noise))
  | _, _ => false
  end.

(** ** What a refused pairing still does *)

Inductive Dial := Dialed | Unreachable | DialError.
(** The accept window: a connection, one that failed, a closed listener, or nothing in time. *)
Inductive AcceptWindow := Accepted | BrokenIncoming | ListenerClosed | NothingCame.
Inductive Leg := DirectLeg | RelayLeg | NoLeg.

(** Which leg [close_refused_pairing] takes and closes; [initiate] is this member's role,
    [relay_only] the endpoint that stands for no address. *)
Definition refused_leg (relay_only : string) (initiate : bool) (peer_endpoint : string) (dial : SocketAddr -> Dial)
    (reachable_listener : bool) (window : AcceptWindow) : Leg :=
  if initiate then
    if String.eqb peer_endpoint relay_only then RelayLeg
    else
      match parse_socket peer_endpoint with
      | None => NoLeg
      | Some a => match dial a with Dialed => DirectLeg | Unreachable => RelayLeg | DialError => NoLeg end
      end
  else if reachable_listener then
    match window with
    | Accepted => DirectLeg
    | BrokenIncoming | ListenerClosed => NoLeg
    | NothingCame => RelayLeg
    end
  else RelayLeg.

(** [describe] and the start line. *)
Definition describe (pin : PeerPin) : string :=
  match pin with
  | Link operator => ("the other end of this link channel (operator " +:+ hex_encode operator +:+ ")")%string
  | Peers peers =>
      join "; " (map (fun p =>
        match noise p with
        | Some n => ("holder " +:+ hex_encode (holder p) +:+ " with Noise key " +:+ hex_encode n)%string
        | None => ("holder " +:+ hex_encode (holder p) +:+ " (any Noise key it attests)")%string
        end) peers)
  end.

Definition peer_pin_start_line (pin : option PeerPin) (forward : bool) : option string :=
  match pin, forward with
  | Some pin, _ =>
      Some ("ct-agent channel: " +:+ PEER_PIN_ENV +:+ ": sessions only with " +:+ describe pin +:+
            " -- any other member of this channel is refused before the Noise handshake")%string
  | None, true =>
      Some ("ct-agent channel: WARNING: this forward runs without " +:+ PEER_PIN_ENV +:+
            ": every member of the channel holding a valid grant can be paired with this endpoint (a channel is a hub, ADR-0020) -- set " +:+
            PEER_PIN_ENV +:+ " to bind it to its partner")%string
  | None, false => None
  end.
End Pin.

(** ** Who may have a session *)

Section PinLaws.
Context (is_ed25519 : list byte -> bool).
Context (channel_id_for_link : list byte -> list byte -> list byte -> list byte).

Lemma look_for_ok peer n peers seen :
  is_ok (look_for peer n peers seen) = true <->
  exists p, p ∈ peers /\ holder p = peer /\ (noise p = None \/ noise p = Some n).
Proof.
  revert seen. induction peers as [|p peers IH]; intros seen; simpl.
  { split; [done|]. intros (p & Hp & _). by apply elem_of_nil in Hp. }
  case_bool_decide as Hh.
  - destruct (noise p) as [m|] eqn:En.
    + case_bool_decide as Hm; simpl.
      * split; [|done]. intros _. exists p. split; [left|]. subst m. auto.
      * rewrite IH. split; intros (q & Hq & Hx); [exists q; by split; [right|]|].
        apply elem_of_cons in Hq as [->|Hq]; [|by exists q]. rewrite En in Hx. destruct Hx as [_ [?|?]]; congruence.
    + split; [|done]. intros _. exists p. split; [left|auto].
  - rewrite IH. split; intros (q & Hq & Hx); [exists q; by split; [right|]|].
    apply elem_of_cons in Hq as [->|Hq]; [|by exists q]. by destruct Hx.
Qed.

(** exactly the pinned peer gets a session.  Without a pin every member does; with [link] the
    peer whose link channel with this holder is this channel; with a list a peer whose holder has
    an entry that names no Noise key or names the attested one.  Every other peer is refused, with
    an error that is recognised as a pin refusal however the session wraps it, and one event; and
    the look at the raw admission never refuses a peer the decision would accept. *)
Theorem peer_pin_decides pin channel own peer n :
  let accepted :=
    match pin with
    | None => True
    | Some (Link operator) => channel_id_for_link operator own peer = channel
    | Some (Peers peers) => exists p, p ∈ peers /\ holder p = peer /\ (noise p = None \/ noise p = Some n)
    end in
  match check_peer_pin channel_id_for_link pin channel own peer n with
  | (Ok _, ev) => accepted /\ ev = None
  | (Err e, ev) => ~ accepted /\
      (exists r, ev = Some {| event_reason := r; event_peer := hex_encode peer |}) /\
      existsb (fun x => match x with PeerNotPinned _ _ => true | _ => false end) (chain e) = true
  end /\
  (pin_refuses_admission channel_id_for_link pin channel own (Some (Some peer, Some n)) = true <-> ~ accepted).
Proof.
  destruct pin as [[op|peers]|]; simpl.
  - case_bool_decide as Hc; simpl; naive_solver.
  - pose proof (look_for_ok peer n peers None) as Hl.
    destruct (look_for peer n peers None) as [u|seen]; simpl in *.
    + assert (exists p, p ∈ peers /\ holder p = peer /\ (noise p = None \/ noise p = Some n)) as Ha by by apply Hl.
      split; [done|]. split; [done|]. intros Hn. by destruct Hn.
    + assert (~ exists p, p ∈ peers /\ holder p = peer /\ (noise p = None \/ noise p = Some n)) as Ha.
      { intros Hx. by apply Hl in Hx. }
      split; [|done]. split; [done|]. eauto.
  - split; [done|]. split; [done|]. intros Hn. by destruct Hn.
Qed.

(** ** The setting comes back *)

Definition show_peer (p : PinnedPeer) : string :=
  ("holder:" +:+ hex_encode (holder p) +:+
   match noise p with Some n => ",noise:" +:+ hex_encode n | None => "" end)%string.
Fixpoint show_peers (ps : list PinnedPeer) : string :=
  match ps with
  | [] => ""
  | [p] => show_peer p
  | p :: ps => (show_peer p +:+ String ";" (show_peers ps))%string
  end.

Definition peer_ok (p : PinnedPeer) : Prop :=
  length (holder p) = 32%nat /\ is_ed25519 (holder p) = true /\ forall n, noise p = Some n -> length n = 32%nat.

Lemma show_peer_visible p : forall_char visible (show_peer p) = true.
Proof.
  unfold show_peer. rewrite !forall_char_app, hex_visible. destruct (noise p); [|done].
  by rewrite forall_char_app, hex_visible.
Qed.
Lemma show_peer_no_semicolon p : contains_char ";" (show_peer p) = false.
Proof.
  unfold show_peer. rewrite !contains_char_app, hex_no by done. destruct (noise p); [|done].
  by rewrite contains_char_app, hex_no by done.
Qed.

Lemma show_peers_visible ps : forall_char visible (show_peers ps) = true.
Proof.
  induction ps as [|p [|q ps] IH]; [done|apply show_peer_visible|].
  cbn [show_peers]. rewrite forall_char_app, show_peer_visible. exact IH.
Qed.
Lemma split_show_peers ps : ps <> [] -> split_char ";" (show_peers ps) = map show_peer ps.
Proof.
  induction ps as [|p [|q ps] IH]; intros Hne; [done| |].
  - by apply split_char_none, show_peer_no_semicolon.
  - cbn [show_peers map] in *. rewrite split_char_app by apply show_peer_no_semicolon. f_equal. by apply IH.
Qed.
Lemma show_peers_head ps : ps <> [] -> exists s, show_peers ps = String "h" s.
Proof. destruct ps as [|p [|q ps]]; intros Hne; [done|eexists; reflexivity..]. Qed.

(** One field of an entry. *)
Lemma parse_field_hex key k h n fields :
  length k = 32%nat -> key = "holder" \/ key = "noise" ->
  (if String.eqb key "holder" then h else n) = None ->
  parse_fields ((key +:+ String ":" (hex_encode k)) :: fields) h n =
    if String.eqb key "holder" then parse_fields fields (Some k) n else parse_fields fields h (Some k).
Proof.
  intros Hk Hkey Hfree. cbn [parse_fields].
  assert (forall_char visible key = true /\ contains_char ":" key = false /\ to_ascii_lowercase key = key) as (Hv & Hc & Hl).
  { by destruct Hkey as [-> | ->]. }
  rewrite trim_visible.
  2: { rewrite forall_char_app, Hv. apply hex_visible. }
  rewrite split_once_app by done. cbn [ok_or rbind]. rewrite (trim_visible key), Hl by done.
  rewrite (trim_visible (hex_encode k)) by apply hex_visible. rewrite (hex_decode_encode 32 k) by done.
  destruct Hkey as [-> | ->]; simpl in Hfree |- *; by rewrite Hfree.
Qed.

Lemma parse_show_peer p : peer_ok p -> parse_entry is_ed25519 (trim (show_peer p)) = Ok p.
Proof.
  intros (Hh & He & Hn). rewrite trim_visible by apply show_peer_visible. unfold parse_entry.
  replace (is_empty (show_peer p)) with false by done.
  assert (exists tail, split_char "," (show_peer p) = ("holder" +:+ String ":" (hex_encode (holder p)))%string :: tail /\
            parse_fields tail (Some (holder p)) None = Ok (Some (holder p), noise p)) as (tail & -> & Ht).
  { unfold show_peer. destruct (noise p) as [n|].
    - exists ["noise" +:+ String ":" (hex_encode n)]%string. split.
      + transitivity (split_char "," (("holder" +:+ String ":" (hex_encode (holder p))) +:+
                                      String "," ("noise" +:+ String ":" (hex_encode n))))%string.
        { reflexivity. }
        rewrite split_char_app, split_char_none; [done| |].
        * rewrite contains_char_app. simpl. by apply hex_no.
        * rewrite contains_char_app. simpl. by apply hex_no.
      + rewrite parse_field_hex; [done|by apply Hn|by right|done].
    - exists []. split; [|done]. rewrite string_app_nil_r. apply split_char_none.
      rewrite contains_char_app. simpl. by apply hex_no. }
  rewrite parse_field_hex by (done || by left). simpl. rewrite Ht. simpl. rewrite He. simpl. by destruct p.
Qed.

Lemma parse_show_peers i ps : Forall peer_ok ps -> parse_entries is_ed25519 i (map show_peer ps) = Ok ps.
Proof.
  revert i. induction ps as [|p ps IH]; intros i Hps; [done|]. apply Forall_cons in Hps as [Hp Hps].
  cbn [map parse_entries]. rewrite parse_show_peer by done. cbn [map_err rbind]. by rewrite IH.
Qed.

(** a written pin is the pin that is read: every non-empty list of partners with 32-byte keys and
    valid holder keys, written as documented, is read back as itself; and a setting that is not
    blank never switches the pin off -- it is a pin or an error. *)
Theorem peer_pin_reads_back ps f g :
  ps <> [] -> Forall peer_ok ps -> f PEER_PIN_ENV = Some (show_peers ps) ->
  from_lookup is_ed25519 f = Ok (Some (Peers ps)) /\
  (from_lookup is_ed25519 g = Ok None <-> trim (default "" (g PEER_PIN_ENV)) = "").
Proof.
  intros Hne Hps Hf. split.
  - unfold from_lookup. rewrite Hf. cbv zeta. simpl default. rewrite trim_visible by apply show_peers_visible.
    destruct (show_peers_head ps Hne) as [s Hs].
    assert (is_empty (show_peers ps) = false /\ eq_ignore_ascii_case (show_peers ps) "link" = false) as [-> ->]
      by (by rewrite Hs).
    rewrite split_show_peers, parse_show_peers by done. done.
  - unfold from_lookup. cbv zeta. destruct (is_empty (trim _)) eqn:E; [by apply String.eqb_eq in E|].
    apply String.eqb_neq in E. split; [|done].
    destruct (eq_ignore_ascii_case _ _); [by destruct (hex_decode 32 _)|].
    by destruct (parse_entries _ _ _).
Qed.
End PinLaws.

(** A partner with a pinned Noise key and one without. *)
Definition demo_peers : list PinnedPeer :=
  [{| holder := replicate 32 Byte.x5c; noise := Some (replicate 32 Byte.x01) |};
   {| holder := replicate 32 Byte.x5d; noise := None |}].

Lemma peer_pin_reads_back_witness :
  from_lookup (fun _ => true) (fun _ => Some (show_peers demo_peers)) = Ok (Some (Peers demo_peers)).
Proof.
  apply (peer_pin_reads_back (fun _ => true) demo_peers (fun _ => Some (show_peers demo_peers)) (fun _ => None)).
  - discriminate.
  - unfold demo_peers, peer_ok. rewrite !Forall_cons. split; [|split; [|apply Forall_nil_2]].
    + split_and!; [reflexivity..|]. intros n Hn. injection Hn as <-. reflexivity.
    + split_and!; [reflexivity..|]. intros n Hn. discriminate.
  - reflexivity.
Defined.
