(* ===== verification/Supervisor.v ===== *)
(** * Supervisor: [bin/ct-agent-supervisor.rs]

    Why a supervised child exited, the restart loop with its backoff, the bounded crash history,
    and the tee of the child's stderr.  Processes, signals, clocks and pipes are inputs. *)
From S2P Require Import Prelude Text Codec Retry.

#[local] Open Scope Z_scope.

Inductive CrashReason :=
| Signal (n : Z)
| Panic (line : string)
| CleanExit (code : Z)
| CleanExitOk
| GrantEnded.

Definition show_reason (r : CrashReason) : string :=
  match r with
  | Signal n => ("killed by signal " +:+ show n)%string
  | Panic msg => ("panic: " +:+ msg)%string
  | CleanExit code => ("clean exit code " +:+ show code)%string
  | CleanExitOk => "exited 0"
  | GrantEnded => ("own channel grant ended (exit code " +:+ show OWN_GRANT_ENDED_EXIT +:+ ")")%string
  end.

Definition final_status (r : CrashReason) : option Z :=
  match r with GrantEnded => Some OWN_GRANT_ENDED_EXIT | _ => None end.

(** ** Classification *)

(** [str::is_char_boundary] of valid UTF-8: not inside a character. *)
Fixpoint char_boundary (s : list ascii) (i : nat) : bool :=
  match i, s with
  | O, [] => true
  | O, c :: _ => negb (is_continuation c)
  | S i, [] => false
  | S i, _ :: s => char_boundary s i
  end.
Definition is_char_boundary (s : string) (i : nat) : bool :=
  match i with O => true | _ => char_boundary (String.list_ascii_of_string s) i end.

(** [while end > 0 && !s.is_char_boundary(end) { end -= 1 }]. *)
Fixpoint back_to_boundary (s : string) (end_ : nat) : nat :=
  match end_ with
  | O => O
  | S e => if is_char_boundary s end_ then end_ else back_to_boundary s e
  end.

Definition MAX_LEN : nat := 300.
Definition truncated (line : string) : string :=
  let end_ := back_to_boundary line (Nat.min MAX_LEN (String.length line)) in
  String.string_of_list_ascii (take end_ (String.list_ascii_of_string line)).

(** [stderr_ring.iter().rev().find(..)]. *)
Fixpoint last_panic (ring : list string) : option string :=
  match ring with
  | [] => None
  | l :: ring =>
      match last_panic ring with
      | Some p => Some p
      | None => if contains "panicked at" l then Some l else None
      end
  end.

Definition classify_exit (signal code : option Z) (stderr_ring : list string) : CrashReason :=
  match signal with
  | Some sig => Signal sig
  | None =>
      let code := default (-1) code in
      if code =? 0 then CleanExitOk
      else if code =? OWN_GRANT_ENDED_EXIT then GrantEnded
      else match last_panic stderr_ring with
           | Some line => Panic (truncated line)
           | None => CleanExit code
           end
  end.

(** ** The crash history *)

Definition HISTORY_LEN : Z := 10.
Definition STDERR_RING_LINES : Z := 50.
Definition STDERR_MAX_LINE : Z := 16 * 1024.
Definition HEALTHY_UPTIME_THRESHOLD : Z := 60 * SECOND.
Definition BASE_DELAY : Z := 1 * SECOND.
Definition MAX_DELAY : Z := 60 * SECOND.
Definition SHUTDOWN_GRACE : Z := 10 * SECOND.

Record CrashRecord := { reason : string; at_unix : Z; uptime_secs : Z }.
Record CrashHistory := { records : list CrashRecord; restart_count : Z }.

(** Pushing into a bounded deque. *)
Definition push_bounded {A} (cap : Z) (l : list A) (x : A) : list A :=
  (if cap <=? Zlen l then tail l else l) ++ [x].

Definition record_crash (h : CrashHistory) (r : CrashReason) (now uptime : Z) : CrashHistory :=
  {| records := push_bounded HISTORY_LEN (records h)
       {| reason := show_reason r; at_unix := now; uptime_secs := uptime / SECOND |};
     restart_count := restart_count h + 1 |}.

(** ** The restart loop *)

(** One run of the child: how it ended, how long it ran, the clock, and whether a stop came during
    the wait before the next run. *)
Inductive RunEnd := Exited (signal code : option Z) (ring : list string) | Stopped | SpawnFailed.
Record ChildRun := { run_end : RunEnd; uptime : Z; now_unix : Z; stop_in_wait : bool }.

(** How the supervisor ends: stopped, with its child; or with a final status. *)
Inductive SupervisorEnd := StoppedBySignal | ExitWith (status : Z).

Record Supervisor := { backoff : Backoff; history : CrashHistory }.
Definition supervisor_start : Supervisor :=
  {| backoff := new_backoff BASE_DELAY MAX_DELAY U32_MAX;
     history := {| records := []; restart_count := 0 |} |}.

Definition child_reason (e : RunEnd) : option CrashReason :=
  match e with
  | Exited signal code ring => Some (classify_exit signal code ring)
  | Stopped => None
  | SpawnFailed => Some (CleanExit (-1))
  end.

(** One turn: the end, or the delay before the next start and the state then. *)
Definition supervise_once (r : ChildRun) (s : Supervisor) : SupervisorEnd + (Z * Supervisor) :=
  match child_reason (run_end r) with
  | None => inl StoppedBySignal
  | Some why =>
      match final_status why with
      | Some status => inl (ExitWith status)
      | None =>
          let h := record_crash (history s) why (now_unix r) (uptime r) in
          let b := if HEALTHY_UPTIME_THRESHOLD <=? uptime r then reset (backoff s) else backoff s in
          let (d, b) := next_delay b in
          let delay := default MAX_DELAY d in
          if stop_in_wait r then inl StoppedBySignal
          else inr (delay, {| backoff := b; history := h |})
      end
  end.

(** [main] over the runs; the delays waited, and the end, if the runs reach it. *)
Fixpoint supervise (runs : list ChildRun) (s : Supervisor) : list Z * (SupervisorEnd + Supervisor) :=
  match runs with
  | [] => ([], inr s)
  | r :: runs =>
      match supervise_once r s with
      | inl e => ([], inl e)
      | inr (d, s) => let (ds, e) := supervise runs s in (d :: ds, e)
      end
  end.

(** ** The stderr tee *)

(** [take(n).read_until(b'\n')]: up to [n] bytes, through the first newline. *)
Fixpoint read_until (n : nat) (s : list byte) : list byte * list byte :=
  match n, s with
  | O, _ | _, [] => ([], s)
  | S n, b :: s => if decide (b = Byte.x0a) then ([b], s) else let (l, r) := read_until n s in (b :: l, r)
  end.

Definition strip_newline (l : list byte) : list byte :=
  match last l with Some Byte.x0a => removelast l | _ => l end.

(** [pump_stderr] over everything the child wrote, without read errors: what was forwarded and the
    ring; every round takes at least a byte. *)
Fixpoint pump_loop (fuel : nat) (input : list byte) (out : list byte) (ring : list (list byte))
  : list byte * list (list byte) :=
  match fuel with
  | O => (out, ring)
  | S fuel =>
      match read_until (Z.to_nat STDERR_MAX_LINE) input with
      | ([], _) => (out, ring)
      | (line, rest) =>
          pump_loop fuel rest (out ++ line) (push_bounded STDERR_RING_LINES ring (strip_newline line))
      end
  end.
Definition pump_stderr (input : list byte) : list byte * list (list byte) :=
  pump_loop (S (length input)) input [] [].

(** ** The status endpoint *)

Definition is_valid_status_token (s : string) : bool :=
  (str_len s =? 64) && forall_char is_ascii_hexdigit s.

Definition constant_time_eq (a b : list byte) : bool := ct_eq a b.

(** [authorization]: the header as text, if present and visible ASCII. *)
Definition bearer_token_matches (authorization : option string) (expected : string) : bool :=
  match authorization with
  | None => false
  | Some auth =>
      match strip_prefix "Bearer " auth with
      | None => false
      | Some provided => constant_time_eq (as_bytes provided) (as_bytes expected)
      end
  end.

Inductive StatusAnswer := Unauthorized | StatusResp (restarts : Z) (crashes : list CrashRecord).
Definition crashes_handler (token : string) (h : CrashHistory) (authorization : option string) : StatusAnswer :=
  if negb (bearer_token_matches authorization token) then Unauthorized
  else StatusResp (restart_count h) (records h).

(** Whether [main] starts the endpoint at all. *)
Definition status_endpoint_starts (listen token : option string) : bool :=
  match listen, token with
  | Some _, Some t => is_valid_status_token t
  | _, _ => false
  end.

(** ** The excerpt of a panic *)

Lemma back_to_boundary_spec s n :
  (back_to_boundary s n <= n)%nat /\ is_char_boundary s (back_to_boundary s n) = true /\
  forall i, (back_to_boundary s n < i <= n)%nat -> is_char_boundary s i = false.
Proof.
  induction n as [|n (Hle & Hb & Hmax)]; [split_and!; [done|done|lia]|].
  cbn [back_to_boundary]. destruct (is_char_boundary s (S n)) eqn:E; [split_and!; [lia|done|lia]|].
  split_and!; [lia|done|]. intros i Hi. destruct (decide (i = S n)) as [->|]; [done|]. apply Hmax. lia.
Qed.

(** reporting a panic cannot panic: the excerpt of a panic line is its longest prefix of at most
    [MAX_LEN] bytes that ends between two characters, whatever the line holds. *)
Theorem panic_excerpt_safe line :
  exists rest, line = (truncated line +:+ rest)%string /\
    (String.length (truncated line) <= MAX_LEN)%nat /\
    is_char_boundary line (String.length (truncated line)) = true /\
    forall i, (String.length (truncated line) < i <= Nat.min MAX_LEN (String.length line))%nat ->
      is_char_boundary line i = false.
Proof.
  unfold truncated. set (n := back_to_boundary line _).
  destruct (back_to_boundary_spec line (Nat.min MAX_LEN (String.length line))) as (Hle & Hb & Hmax). fold n in Hle, Hb, Hmax.
  set (l := String.list_ascii_of_string line).
  assert (String.length (String.string_of_list_ascii (take n l)) = n) as Hlen.
  { rewrite <-list_ascii_length, list_ascii_of_string_of, length_take. unfold l. rewrite list_ascii_length. lia. }
  exists (String.string_of_list_ascii (drop n l)). rewrite Hlen. split_and!; try done; [|lia].
  transitivity (String.string_of_list_ascii (take n l ++ drop n l)).
  - rewrite take_drop. unfold l. by rewrite string_of_list_ascii_of.
  - generalize (take n l) as a. intros a. induction a as [|x a IH]; [done|]. simpl. rewrite IH. done.
Qed.

(** ** The restart loop *)

Definition healthy (r : ChildRun) : bool := HEALTHY_UPTIME_THRESHOLD <=? uptime r.

(** The crashes since the child last ran long enough, the last one included. *)
Definition crash_streak (runs : list ChildRun) : Z :=
  fold_left (fun n r => (if healthy r then 0 else n) + 1) runs 0.

Definition backoff_ok (b : Backoff) : Prop :=
  base b = BASE_DELAY /\ Retry.max b = MAX_DELAY /\ max_attempts b = U32_MAX /\ 0 <= attempt b <= U32_MAX.

Lemma supervisor_delay b n :
  backoff_ok b -> 0 <= n -> attempt b = Z.min U32_MAX n ->
  default MAX_DELAY (next_delay b).1 = Z.min (2 ^ n * SECOND) MAX_DELAY /\
  backoff_ok (next_delay b).2 /\ attempt (next_delay b).2 = Z.min U32_MAX (n + 1).
Proof.
  intros (Hb & Hm & Hx & Ha) Hn Hat. unfold next_delay. rewrite Hx.
  assert (6 <= n -> 64 <= 2 ^ n) as H64.
  { intros H6. change 64 with (2 ^ 6). apply Z.pow_le_mono_r; lia. }
  destruct (Z.leb_spec U32_MAX (attempt b)) as [Hge|Hlt].
  - simpl. split; [|split; [done|lia]]. unfold MAX_DELAY, SECOND, U32_MAX in *. lia.
  - simpl. split; [|split; [|lia]].
    + rewrite Hb, Hm. unfold checked_mul, BASE_DELAY, MAX_DELAY.
      destruct (Z.le_gt_cases 6 n) as [H6|H6].
      * assert (64 <= 2 ^ Z.min (attempt b) 31).
        { change 64 with (2 ^ 6). apply Z.pow_le_mono_r; [lia|]. unfold U32_MAX in *. lia. }
        destruct (_ <=? DURATION_MAX); simpl; unfold SECOND; lia.
      * replace (Z.min (attempt b) 31) with n by (unfold U32_MAX in *; lia).
        assert (2 ^ n <= 2 ^ 6) by (apply Z.pow_le_mono_r; lia). change (2 ^ 6) with 64 in *.
        rewrite (proj2 (Z.leb_le _ _)) by (change DURATION_MAX with 18446744073709551615999999999; unfold SECOND; lia).
        simpl. unfold SECOND. lia.
    + unfold backoff_ok. simpl. lia.
Qed.

Lemma tail_drop {A} n (l : list A) : tail (drop n l) = drop (S n) l.
Proof. revert l. induction n as [|n IH]; intros [|x l]; try done. simpl. by rewrite IH. Qed.

(** Bounded pushes keep the newest. *)
Lemma push_bounded_fold {A} (cap : nat) (l : list A) :
  (0 < cap)%nat -> fold_left (push_bounded (Z.of_nat cap)) l [] = drop (length l - cap) l.
Proof.
  intros Hc. induction l as [|x l IH] using rev_ind; [done|].
  rewrite fold_left_app, IH. cbn [fold_left]. unfold push_bounded. rewrite length_drop, length_app. cbn [length].
  destruct (Z.leb_spec (Z.of_nat cap) (Z.of_nat (length l - (length l - cap)))) as [Hfull|Hroom].
  - rewrite tail_drop. replace (S (length l - cap)) with (length l + 1 - cap)%nat by lia.
    by rewrite drop_app_le by lia.
  - replace (length l - cap)%nat with 0%nat by lia. replace (length l + 1 - cap)%nat with 0%nat by lia. done.
Qed.

Definition crash_of (r : ChildRun) : option CrashRecord :=
  (fun why => {| reason := show_reason why; at_unix := now_unix r; uptime_secs := uptime r / SECOND |})
    <$> child_reason (run_end r).

Record supervisor_inv (runs : list ChildRun) (s : Supervisor) : Prop := {
  si_backoff : backoff_ok (backoff s);
  si_attempt : attempt (backoff s) = Z.min U32_MAX (crash_streak runs);
  si_count : restart_count (history s) = Zlen runs;
  si_records : records (history s) = fold_left (push_bounded HISTORY_LEN) (omap crash_of runs) []
}.

Lemma crash_streak_nonneg runs : 0 <= crash_streak runs.
Proof.
  unfold crash_streak. induction runs as [|r runs IH] using rev_ind; [done|].
  rewrite fold_left_app. simpl. destruct (healthy r); lia.
Qed.

Lemma supervise_once_inv runs r s d s' :
  supervisor_inv runs s -> supervise_once r s = inr (d, s') ->
  supervisor_inv (runs ++ [r]) s' /\ d = Z.min (2 ^ (crash_streak (runs ++ [r]) - 1) * SECOND) MAX_DELAY.
Proof.
  intros [Hb Ha Hc Hr]. unfold supervise_once.
  destruct (child_reason (run_end r)) as [why|] eqn:Hw; [|done]. destruct (final_status why); [done|].
  pose proof (crash_streak_nonneg runs) as Hn.
  set (b := if HEALTHY_UPTIME_THRESHOLD <=? uptime r then reset (backoff s) else backoff s).
  set (n := if healthy r then 0 else crash_streak runs).
  assert (backoff_ok b /\ attempt b = Z.min U32_MAX n /\ 0 <= n) as (Hbb & Hba & Hbn).
  { unfold b, n, healthy. destruct (_ <=? uptime r); [|by split_and!].
    destruct Hb as (? & ? & ? & ?). split; [|by split]. unfold backoff_ok. simpl. unfold U32_MAX in *.
    split_and!; done || lia. }
  destruct (supervisor_delay b n Hbb Hbn Hba) as (Hd & Hok & Hat).
  destruct (next_delay b) as [dl b']. simpl in Hd, Hok, Hat. destruct (stop_in_wait r); [done|]. intros [= <- <-].
  assert (crash_streak (runs ++ [r]) = n + 1) as Hstreak.
  { unfold crash_streak. rewrite fold_left_app. simpl. unfold n. by destruct (healthy r). }
  rewrite Hstreak. split; [|by replace (n + 1 - 1) with n by lia].
  split; simpl; try done.
  - by rewrite Hstreak.
  - rewrite Hc, length_app. simpl. lia.
  - rewrite omap_app, fold_left_app, Hr.
    assert (crash_of r = Some {| reason := show_reason why; at_unix := now_unix r; uptime_secs := uptime r / SECOND |})
      as Hcr by (unfold crash_of; by rewrite Hw).
    cbn [omap list_omap]. by rewrite Hcr.
Qed.

Lemma supervise_inv before runs s ds e :
  supervisor_inv before s -> supervise runs s = (ds, e) ->
  (forall i d, ds !! i = Some d ->
     d = Z.min (2 ^ (crash_streak (before ++ take (S i) runs) - 1) * SECOND) MAX_DELAY) /\
  match e with
  | inr s' => supervisor_inv (before ++ runs) s' /\ length ds = length runs
  | inl StoppedBySignal => exists r, r ∈ runs /\ (run_end r = Stopped \/ stop_in_wait r = true)
  | inl (ExitWith st) => st = OWN_GRANT_ENDED_EXIT /\
      exists r ring, r ∈ runs /\ run_end r = Exited None (Some OWN_GRANT_ENDED_EXIT) ring
  end.
Proof.
  revert before s ds e. induction runs as [|r runs IH]; intros before s ds e Hi; cbn [supervise].
  { intros [= <- <-]. rewrite app_nil_r. by split. }
  destruct (supervise_once r s) as [en|[d s1]] eqn:E.
  - intros [= <- <-]. split; [done|]. unfold supervise_once in E.
    destruct (child_reason (run_end r)) as [why|] eqn:Hw.
    + destruct (final_status why) as [st|] eqn:Hf.
      * injection E as <-. destruct why; try done. injection Hf as <-. split; [done|].
        destruct (run_end r) as [sig code ring| |] eqn:Hr; try done. simpl in Hw. injection Hw as Hw.
        exists r, ring. split; [left|]. rewrite Hr. unfold classify_exit in Hw.
        destruct sig as [sig|]; [done|]. destruct code as [code|]; simpl in Hw.
        -- destruct (code =? 0); [done|]. destruct (Z.eqb_spec code OWN_GRANT_ENDED_EXIT) as [->|]; [done|].
           by destruct (last_panic ring).
        -- by destruct (last_panic ring).
      * destruct (next_delay _) as [dl b]. destruct (stop_in_wait r) eqn:Hs; [|done]. injection E as <-.
        exists r. split; [left|by right].
    + injection E as <-. exists r. split; [left|left]. by destruct (run_end r).
  - destruct (supervise_once_inv before r s d s1 Hi E) as [Hi1 Hd].
    destruct (supervise runs s1) as [ds1 e1] eqn:E1. intros [= <- <-].
    destruct (IH (before ++ [r]) s1 ds1 e1 Hi1 E1) as [Hds He].
    rewrite <-app_assoc in He. split.
    + intros [|i] d'; cbn [lookup list_lookup]; [intros [= <-]; by destruct runs|].
      intros Hl. apply Hds in Hl. by rewrite <-app_assoc in Hl.
    + destruct e1 as [[|st]|s']; simpl.
      * destruct He as (x & Hx & ?). exists x. split; [by right|done].
      * destruct He as (? & x & ring & Hx & ?). split; [done|]. exists x, ring. split; [by right|done].
      * destruct He as [He Hl]. simpl. by rewrite Hl.
Qed.

Lemma supervisor_start_inv : supervisor_inv [] supervisor_start.
Proof. by split. Qed.

(** the supervisor restarts its child for as long as it should.  It ends only when it is stopped
    or when the child itself exited with 77, not for a panic line, a signal or any other status;
    the n-th exit in a row of a child that did not live for a minute is followed by a wait of
    [min (2^(n-1)) 60] seconds, a longer life starts over; and it reports exactly the last
    [HISTORY_LEN] exits and counts every restart. *)
Theorem supervisor_restarts runs ds e :
  supervise runs supervisor_start = (ds, e) ->
  (forall i d, ds !! i = Some d -> d = Z.min (2 ^ (crash_streak (take (S i) runs) - 1) * SECOND) MAX_DELAY) /\
  match e with
  | inr s => length ds = length runs /\ restart_count (history s) = Zlen runs /\
      let crashes := omap crash_of runs in
      records (history s) = drop (length crashes - Z.to_nat HISTORY_LEN) crashes
  | inl StoppedBySignal => exists r, r ∈ runs /\ (run_end r = Stopped \/ stop_in_wait r = true)
  | inl (ExitWith st) => st = 77 /\
      exists r ring, r ∈ runs /\ run_end r = Exited None (Some 77) ring
  end.
Proof.
  intros E. destruct (supervise_inv [] runs supervisor_start ds e supervisor_start_inv E) as [Hd He].
  split; [exact Hd|]. destruct e as [[|st]|s]; [exact He|exact He|].
  destruct He as [[_ _ Hc Hr] Hl]. simpl in *. split; [done|]. split; [done|]. rewrite Hr.
  by rewrite (push_bounded_fold 10) by lia.
Qed.

(** ** The stderr tee *)

Lemma read_until_spec n s l r :
  read_until n s = (l, r) -> s = l ++ r /\ (length l <= n)%nat /\ (s <> [] -> (0 < n)%nat -> l <> []).
Proof.
  revert s l r. induction n as [|n IH]; intros s l r; [destruct s; intros [= <- <-]; simpl; split_and!; done || lia|].
  destruct s as [|b s]; [intros [= <- <-]; simpl; split_and!; done || lia|]. cbn [read_until].
  case_decide; [intros [= <- <-]; simpl; split_and!; done || lia|].
  destruct (read_until n s) as [l' r'] eqn:E. intros [= <- <-]. destruct (IH _ _ _ E) as (-> & Hl & _).
  simpl. split_and!; [done|lia|done].
Qed.

Lemma strip_newline_length l : (length (strip_newline l) <= length l)%nat.
Proof.
  unfold strip_newline. destruct (last l) as [[]|]; try lia.
  destruct l as [|x l] using rev_ind; [done|]. rewrite removelast_last, length_app. lia.
Qed.

Lemma pump_loop_spec fuel input out ring :
  (length input < fuel)%nat -> Zlen ring <= STDERR_RING_LINES ->
  Forall (fun l => Zlen l <= STDERR_MAX_LINE) ring ->
  let res := pump_loop fuel input out ring in
  res.1 = out ++ input /\ Zlen res.2 <= STDERR_RING_LINES /\ Forall (fun l => Zlen l <= STDERR_MAX_LINE) res.2.
Proof.
  revert input out ring. induction fuel as [|fuel IH]; intros input out ring Hf Hr Hl; [lia|]. cbn [pump_loop].
  destruct (read_until (Z.to_nat STDERR_MAX_LINE) input) as [l r] eqn:E.
  apply read_until_spec in E as (-> & Hlen & Hne).
  destruct l as [|x l].
  { destruct r as [|y r]; [by rewrite app_nil_r|].
    exfalso. apply Hne; [done| |done]. unfold STDERR_MAX_LINE. lia. }
  rewrite app_assoc. apply IH.
  - rewrite length_app in Hf. simpl in *. lia.
  - unfold push_bounded, STDERR_RING_LINES in *. rewrite length_app. cbn [length].
    destruct (Z.leb_spec 50 (Zlen ring)); [|lia]. destruct ring; simpl in *; lia.
  - unfold push_bounded. apply Forall_app. split.
    + destruct (_ <=? _); [by apply Forall_tail|done].
    + apply Forall_singleton. pose proof (strip_newline_length (x :: l)). unfold STDERR_MAX_LINE in *. lia.
Qed.

(** the tee is transparent and bounded: every byte the child writes to stderr is passed on
    unchanged and in order, and what is kept for the post-mortem is at most [STDERR_RING_LINES]
    pieces of at most [STDERR_MAX_LINE] bytes. *)
Theorem stderr_tee_transparent input :
  (pump_stderr input).1 = input /\
  Zlen (pump_stderr input).2 <= STDERR_RING_LINES /\
  Forall (fun l => Zlen l <= STDERR_MAX_LINE) (pump_stderr input).2.
Proof.
  apply (pump_loop_spec (S (length input)) input [] []); [lia|unfold STDERR_RING_LINES; simpl; lia|constructor].
Qed.

(** The crash history is served to exactly the holder of the token. *)
Lemma crashes_need_token token h auth :
  crashes_handler token h auth = StatusResp (restart_count h) (records h) <-> auth = Some ("Bearer " +:+ token)%string.
Proof.
  unfold crashes_handler, bearer_token_matches. destruct auth as [a|]; [|naive_solver].
  destruct (strip_prefix "Bearer " a) as [p|] eqn:E.
  - apply strip_prefix_spec in E as ->. unfold constant_time_eq.
    destruct (ct_eq (as_bytes p) (as_bytes token)) eqn:Ec.
    + apply ct_eq_spec in Ec. apply (f_equal String.string_of_list_byte) in Ec.
      unfold as_bytes in Ec. rewrite !String.string_of_list_byte_of_string in Ec. by subst p.
    + split; [done|]. intros [= Hp]. apply not_true_iff_false in Ec. destruct Ec. apply ct_eq_spec.
      assert (p = token) as -> by by simplify_eq. done.
  - split; [done|]. intros [= ->]. exfalso. by rewrite (proj2 (strip_prefix_spec _ _ token)) in E.
Qed.

(** Three crashes at once, then a run of two minutes. *)
Definition crash (up : Z) : ChildRun :=
  {| run_end := Exited None (Some 101) ["thread panicked at src"]; uptime := up * SECOND; now_unix := 0; stop_in_wait := false |}.

Lemma supervisor_restarts_witness :
  exists s, supervise [crash 1; crash 1; crash 1; crash 120] supervisor_start =
    ([1 * SECOND; 2 * SECOND; 4 * SECOND; 1 * SECOND], inr s) /\ restart_count (history s) = 4.
Proof.
  destruct (supervise [crash 1; crash 1; crash 1; crash 120] supervisor_start) as [ds e] eqn:E.
  destruct e as [en|s]; [by vm_compute in E|].
  destruct (supervisor_restarts _ _ _ E) as (_ & _ & Hc & _). exists s. split; [|exact Hc].
  f_equal. assert (fst (supervise [crash 1; crash 1; crash 1; crash 120] supervisor_start) = ds) as <- by (by rewrite E).
  vm_compute. reflexivity.
Defined.
