(* ===== verification/ShareLinks.v ===== *)
(** * ShareLinks: time-boxed links to a gated service ([local_auth.rs], share links)

    The share-link records, how they are minted, redeemed and revoked, and the file that holds them.
    Every operation reads the file, decides, and writes it back with one atomic replacement
    ([secret_file::write_private]): [Disk] is the file's content, [Io] what the file system
    answers.  Random bytes and the clock are inputs; SHA-256, base64 and serde are other crates':
    [LinkOps].  Times are unix seconds. *)
From S2P Require Import Prelude Text Codec Net.

#[local] Open Scope Z_scope.

Definition LINKS_FILENAME : string := "local-auth-links.json".
Definition MAX_ACTIVE_LINKS : Z := 50.
Definition LINK_PRUNE_AFTER : Z := 7 * 86400.
Definition MAX_LINK_TTL : Z := 30 * 86400.
Definition LINK_QUERY_PARAM : string := "ct_link".
Definition LINK_COOKIE_NAME : string := "ct_link_session".
Definition MAX_SESSIONS_PER_LINK : Z := 16.
Definition MAX_LABEL_CHARS : nat := 64.

Record ShareLink := {
  id : string; token_hash : string; label : string; expires_at : Z; single_use : bool;
  used_at : option Z; session_hashes : list string; revoked_at : option Z
}.

Definition is_some {A} (o : option A) : bool := match o with Some _ => true | None => false end.

Definition is_active (now : Z) (l : ShareLink) : bool :=
  negb (is_some (revoked_at l)) && (now <? expires_at l).

Definition status (now : Z) (l : ShareLink) : string :=
  if is_some (revoked_at l) then "revoked"
  else if expires_at l <=? now then "expired"
  else if single_use l && is_some (used_at l) then "used (cookie still valid)"
  else if is_some (used_at l) then "active (in use)"
  else "active".

(** What the assignments of [redeem_at] and [revoke_at] leave. *)
Definition with_used (now : Z) (l : ShareLink) : ShareLink :=
  {| id := id l; token_hash := token_hash l; label := label l; expires_at := expires_at l;
     single_use := single_use l; used_at := Some now; session_hashes := session_hashes l;
     revoked_at := revoked_at l |}.
Definition with_sessions (hs : list string) (l : ShareLink) : ShareLink :=
  {| id := id l; token_hash := token_hash l; label := label l; expires_at := expires_at l;
     single_use := single_use l; used_at := used_at l; session_hashes := hs;
     revoked_at := revoked_at l |}.
Definition with_revoked (now : Z) (l : ShareLink) : ShareLink :=
  {| id := id l; token_hash := token_hash l; label := label l; expires_at := expires_at l;
     single_use := single_use l; used_at := used_at l; session_hashes := session_hashes l;
     revoked_at := Some now |}.

(** ** Tokens and labels *)

Definition token_char (c : ascii) : bool :=
  is_ascii_alphanumeric c || (code c =? 45) || (code c =? 95).
Definition looks_like_link_token (s : string) : bool :=
  negb (is_empty s) && (str_len s <=? 128) && forall_char token_char s.

(** [chars().filter(|c| !c.is_control())]: C0, DEL, and C1 by its two-byte encoding. *)
Fixpoint drop_controls (s : list ascii) : list ascii :=
  match s with
  | [] => []
  | a :: s1 =>
      if (code a <=? 31) || (code a =? 127) then drop_controls s1
      else match s1 with
           | b :: s2 => if (code a =? 194) && between 128 (code b) 159 then drop_controls s2
                        else a :: drop_controls s1
           | [] => [a]
           end
  end.
Definition sanitize_label (label : string) : string :=
  trim (take_chars MAX_LABEL_CHARS
          (String.string_of_list_ascii (drop_controls (String.list_ascii_of_string label)))).

(** ** The file *)

Class LinkOps := {
  sha256 : list byte -> list byte;
  base64url : list byte -> string;
  to_vec_pretty : list ShareLink -> result (list byte) string;
  from_slice : list byte -> result (list ShareLink) string
}.

Definition is_ascii_whitespace (b : byte) : bool :=
  (u8 b =? 32) || (u8 b =? 9) || (u8 b =? 10) || (u8 b =? 12) || (u8 b =? 13).

(** A digest has 32 bytes, unpadded base64url of 32 bytes is a token of 43 characters, and serde
    reads back what it wrote. *)
Class LinkLaws `{LinkOps} := {
  sha256_length l : length (sha256 l) = 32%nat;
  base64url_token l : length l = 32%nat -> looks_like_link_token (base64url l) = true;
  json_reads_back l : exists bytes, to_vec_pretty l = Ok bytes /\ from_slice bytes = Ok l /\
    forallb is_ascii_whitespace bytes = false
}.

(** The content of the links file; [None]: there is none. *)
Definition Disk := option (list byte).

(** [write_private]: the new content is renamed over the file, then the directory is synced. *)
Inductive Written := Replaced | NotReplaced (e : string) | ReplacedUnsynced (e : string).
Record Io := { read_error : option string; dir_error : option string; written : Written }.

Record LinkStore := { path : string; state_dir : string }.
Definition join (dir file : string) : string :=
  if is_empty dir then file
  else match rsplit_once "/" dir with
       | Some (_, "") => dir +:+ file
       | _ => dir +:+ "/" +:+ file
       end%string.
Definition new_store (state_dir : string) : LinkStore :=
  {| path := join state_dir LINKS_FILENAME; state_dir := state_dir |}.

Inductive LinkPresentation := Query | Cookie.
Inductive LinkRejection :=
| Unknown | Expired | Revoked | AlreadyUsed | LinkRateLimited (retry_after_secs : Z) | Store (e : string).

Definition show_rejection (r : LinkRejection) : string :=
  match r with
  | Unknown => "unknown token"
  | Expired => "link expired"
  | Revoked => "link revoked"
  | AlreadyUsed => "single-use link already redeemed"
  | LinkRateLimited s => "rate limited, retry in " +:+ show s +:+ "s"
  | Store e => "links file: " +:+ e
  end%string.

Record MintedLink := {
  minted_id : string; minted_token : string; minted_label : string; minted_expires_at : Z;
  minted_single_use : bool
}.
Record RedeemedLink := {
  redeemed_id : string; redeemed_label : string; redeemed_single_use : bool;
  remaining_secs : Z; first_use : bool; session : option string
}.

Definition link_event (what : string) (l : ShareLink) (extra : string) : string :=
  ("ct-agent: local-auth link " +:+ what +:+ " id=" +:+ id l +:+ " label=" +:+ debug_str (label l)
   +:+ " expires_at=" +:+ show (expires_at l)
   +:+ " single_use=" +:+ (if single_use l then "true" else "false") +:+ extra)%string.

Section Store.
Context `{LinkOps} (s : LinkStore).

Definition hash_link_token (token : string) : list byte := sha256 (as_bytes token).

(** [hex_decode_fixed::<32>(hex).map(|h| constant_time_eq(..))]. *)
Definition matches (presented : list byte) (hex : string) : bool :=
  match hex_decode 32 hex with Some h => ct_eq h presented | None => false end.

Definition load (io : Io) (d : Disk) : result (list ShareLink) string :=
  match read_error io, d with
  | Some e, _ => Err ("reading " +:+ debug_str (path s) +:+ ": " +:+ e)%string
  | None, None => Ok []
  | None, Some bytes =>
      if forallb is_ascii_whitespace bytes then Ok []
      else map_err (fun e => "parsing " +:+ debug_str (path s) +:+ ": " +:+ e)%string (from_slice bytes)
  end.

Definition kept (now : Z) (l : ShareLink) : bool := now <? sat_add64 (expires_at l) LINK_PRUNE_AFTER.

Definition save (io : Io) (links : list ShareLink) (now : Z) (d : Disk) : result unit string * Disk :=
  let links := List.filter (kept now) links in
  match dir_error io with
  | Some e => (Err ("creating " +:+ debug_str (state_dir s) +:+ ": " +:+ e)%string, d)
  | None =>
      match to_vec_pretty links with
      | Err e => (Err e, d)
      | Ok json =>
          let failed e := Err ("writing " +:+ debug_str (path s) +:+ ": " +:+ e)%string in
          match written io with
          | Replaced => (Ok tt, Some json)
          | NotReplaced e => (failed e, d)
          | ReplacedUnsynced e => (failed e, Some json)
          end
      end
  end.

(** Each operation answers with the file afterwards and the audit lines it printed. *)
Definition mint_at (io : Io) (now ttl : Z) (single_use : bool) (wanted_label : string)
    (token_bytes id_bytes : list byte) (d : Disk)
  : result MintedLink string * Disk * list string :=
  match load io d with
  | Err e => (Err e, d, [])
  | Ok links =>
      let active := Zlen (List.filter (is_active now) links) in
      if MAX_ACTIVE_LINKS <=? active then
        (Err (show active +:+ " share links are already active (the cap is " +:+ show MAX_ACTIVE_LINKS
              +:+ ") -- revoke one with `ct-agent local-auth link-revoke <id>` first")%string, d, [])
      else
        let token := base64url token_bytes in
        let link :=
          {| id := hex_encode id_bytes; token_hash := hex_encode (hash_link_token token);
             label := sanitize_label wanted_label; expires_at := sat_add64 now ttl; single_use := single_use;
             used_at := None; session_hashes := []; revoked_at := None |} in
        match save io (links ++ [link]) now d with
        | (Err e, d) => (Err e, d, [])
        | (Ok _, d) =>
            (Ok {| minted_id := id link; minted_token := token; minted_label := label link;
                   minted_expires_at := expires_at link; minted_single_use := single_use |},
             d, [link_event "minted" link ""])
        end
  end.

Definition list_links (io : Io) (d : Disk) : result (list ShareLink) string := load io d.

Definition revoke_at (io : Io) (now : Z) (wanted : string) (d : Disk)
  : result ShareLink string * Disk * list string :=
  match load io d with
  | Err e => (Err e, d, [])
  | Ok links =>
      match find_mut (fun l => String.eqb (id l) wanted) links with
      | None => (Err ("no share link with id " +:+ wanted)%string, d, [])
      | Some (before, link, after) =>
          if is_some (revoked_at link) then
            (Err ("share link " +:+ wanted +:+ " is already revoked")%string, d, [])
          else
            let revoked := with_revoked now link in
            match save io (before ++ revoked :: after) now d with
            | (Err e, d) => (Err e, d, [])
            | (Ok _, d) => (Ok revoked, d, [link_event "revoked" revoked ""])
            end
      end
  end.

Definition is_query (via : LinkPresentation) : bool := match via with Query => true | Cookie => false end.

(** The sessions of a link with one more, the oldest dropped past the limit. *)
Definition push_session (h : string) (hs : list string) : list string :=
  let hs := hs ++ [h] in drop (Z.to_nat (sat_sub (Zlen hs) MAX_SESSIONS_PER_LINK)) hs.

Definition presents (via : LinkPresentation) (token : string) (l : ShareLink) : bool :=
  match via with
  | Query => matches (hash_link_token token) (token_hash l)
  | Cookie => existsb (matches (hash_link_token token)) (session_hashes l)
  end.

(** What a redemption leaves of its link: the stamp of the first use, and one more session. *)
Definition redeemed_link (now : Z) (via : LinkPresentation) (secret : list byte) (l : ShareLink) : ShareLink :=
  let l := if is_query via && negb (is_some (used_at l)) then with_used now l else l in
  if is_query via then
    with_sessions (push_session (hex_encode (hash_link_token (base64url secret))) (session_hashes l)) l
  else l.

(** The decision of [redeem_at] on the records it read: the answer, the records it writes back
    and the link as it stands then. *)
Definition redeem_links (now : Z) (token : string) (via : LinkPresentation) (secret : list byte)
    (links : list ShareLink) : result (RedeemedLink * list ShareLink * ShareLink) LinkRejection :=
  let* (before, link, after) := ok_or (find_mut (presents via token) links) Unknown in
  if is_some (revoked_at link) then Err Revoked
  else if expires_at link <=? now then Err Expired
  else if single_use link && is_some (used_at link) && is_query via then Err AlreadyUsed
  else
    let first_use := is_query via && negb (is_some (used_at link)) in
    let session := if is_query via then Some (base64url secret) else None in
    let link := redeemed_link now via secret link in
    Ok ({| redeemed_id := id link; redeemed_label := label link; redeemed_single_use := single_use link;
           remaining_secs := expires_at link - now; first_use := first_use; session := session |},
        before ++ link :: after, link).

Definition redeem_at (io : Io) (now : Z) (token : string) (via : LinkPresentation) (secret : list byte)
    (d : Disk) : result RedeemedLink LinkRejection * Disk * list string :=
  if negb (looks_like_link_token token) then (Err Unknown, d, [])
  else
    match load io d with
    | Err e => (Err (Store e), d, [])
    | Ok links =>
        match redeem_links now token via secret links with
        | Err e => (Err e, d, [])
        | Ok (redeemed, links, snapshot) =>
            match (if is_query via then save io links now d else (Ok tt, d)) with
            | (Err e, d) => (Err (Store e), d, [])
            | (Ok _, d) =>
                (Ok redeemed, d,
                 [link_event "redeemed" snapshot
                    (" via=" +:+ (if is_query via then "query" else "cookie")
                     +:+ " first_use=" +:+ (if first_use redeemed then "true" else "false"))%string])
            end
        end
    end.

(** ** Histories *)

Inductive StoreOp :=
| OpMint (now ttl : Z) (single_use : bool) (label : string) (token_bytes id_bytes : list byte)
| OpRevoke (now : Z) (wanted : string)
| OpRedeem (now : Z) (token : string) (via : LinkPresentation) (secret : list byte).

Definition op_time (op : StoreOp) : Z :=
  match op with OpMint now _ _ _ _ _ | OpRevoke now _ | OpRedeem now _ _ _ => now end.

Definition run_op (io : Io) (op : StoreOp) (d : Disk) : Disk :=
  match op with
  | OpMint now ttl single label tb ib => (mint_at io now ttl single label tb ib d).1.2
  | OpRevoke now wanted => (revoke_at io now wanted d).1.2
  | OpRedeem now token via secret => (redeem_at io now token via secret d).1.2
  end.

Definition run (ops : list (Io * StoreOp)) (d : Disk) : Disk :=
  fold_left (fun d '(io, op) => run_op io op d) ops d.

(** What the file holds. *)
Definition io_ok : Io := {| read_error := None; dir_error := None; written := Replaced |}.
Definition contents (d : Disk) : result (list ShareLink) string := load io_ok d.

Definition digest (token_bytes : list byte) : string := hex_encode (hash_link_token (base64url token_bytes)).

(** The record a mint adds. *)
Definition minted_by (op : StoreOp) : list ShareLink :=
  match op with
  | OpMint now ttl single label tb ib =>
      [{| id := hex_encode ib; token_hash := digest tb; label := sanitize_label label;
          expires_at := sat_add64 now ttl; single_use := single; used_at := None; session_hashes := [];
          revoked_at := None |}]
  | _ => []
  end.
Definition minted (ops : list (Io * StoreOp)) : list ShareLink := concat (map (fun x => minted_by x.2) ops).

(** The session a redemption opens. *)
Definition opened_by (op : StoreOp) : list string :=
  match op with OpRedeem _ _ Query secret => [digest secret] | _ => [] end.
Definition opened (ops : list (Io * StoreOp)) : list string := concat (map (fun x => opened_by x.2) ops).

Definition active_links (now : Z) (links : list ShareLink) : Z := Zlen (List.filter (is_active now) links).

(** The clock does not go back. *)
Fixpoint clocked (now : Z) (ops : list (Io * StoreOp)) : Prop :=
  match ops with
  | [] => True
  | (_, op) :: ops => now <= op_time op /\ clocked (op_time op) ops
  end.
Fixpoint clock (now : Z) (ops : list (Io * StoreOp)) : Z :=
  match ops with [] => now | (_, op) :: ops => clock (op_time op) ops end.

(** ** One operation on the records *)

(** How an operation changes a record it keeps. *)
Record evolves (op : StoreOp) (l l' : ShareLink) : Prop := {
  ev_id : id l' = id l;
  ev_hash : token_hash l' = token_hash l;
  ev_expires : expires_at l' = expires_at l;
  ev_single : single_use l' = single_use l;
  ev_used : used_at l' = used_at l \/ used_at l = None;
  ev_revoked : revoked_at l' = revoked_at l \/
    revoked_at l = None /\ exists now, op = OpRevoke now (id l);
  ev_sessions : session_hashes l' = session_hashes l \/
    exists now token secret, op = OpRedeem now token Query secret /\
      session_hashes l' = push_session (digest secret) (session_hashes l)
}.

Lemma evolves_refl op l : evolves op l l.
Proof. split; auto. Qed.

Lemma evolves_redeemed now token via secret l : evolves (OpRedeem now token via secret) l (redeemed_link now via secret l).
Proof.
  unfold redeemed_link. destruct via; simpl; [|apply evolves_refl].
  destruct (used_at l) eqn:Eu; split; simpl; eauto 10.
Qed.

(** What an operation makes of the records: nothing, or it changes some in place, may add the minted
    one while fewer than 50 are active, and prunes. *)
Definition advances (op : StoreOp) (links links' : list ShareLink) : Prop :=
  links' = links \/
  exists mid fresh,
    Forall2 (evolves op) links mid /\
    (fresh = [] \/ fresh = minted_by op /\ active_links (op_time op) links < MAX_ACTIVE_LINKS) /\
    links' = List.filter (kept (op_time op)) (mid ++ fresh).

Context `{!LinkLaws}.

Lemma load_contents io d links : load io d = Ok links -> contents d = Ok links.
Proof. unfold contents, load. simpl. destruct (read_error io); [done|]. done. Qed.

Lemma save_spec io links now d r d' :
  save io links now d = (r, d') ->
  contents d' = Ok (List.filter (kept now) links) \/ d' = d /\ is_ok r = false.
Proof.
  unfold save. destruct (dir_error io) as [e|]; [intros [= <- <-]; by right|].
  destruct (json_reads_back (List.filter (kept now) links)) as (bytes & -> & Hr & Hw).
  assert (contents (Some bytes) = Ok (List.filter (kept now) links)) as Hc.
  { unfold contents, load. simpl. by rewrite Hw, Hr. }
  destruct (written io); intros [= <- <-]; [by left|by right|by left].
Qed.

Lemma Forall2_middle op b l l' a :
  evolves op l l' -> Forall2 (evolves op) (b ++ l :: a) (b ++ l' :: a).
Proof.
  intros He. apply Forall2_app; [|constructor; [done|]]; apply Forall_Forall2_diag, Forall_true;
    intros; apply evolves_refl.
Qed.

Lemma save_advances io op links b l l' a d r d' :
  contents d = Ok links -> links = b ++ l :: a -> evolves op l l' ->
  save io (b ++ l' :: a) (op_time op) d = (r, d') ->
  exists links', contents d' = Ok links' /\ advances op links links'.
Proof.
  intros Hc El He Hs. apply save_spec in Hs as [Hs|[-> _]]; [|exists links; split; [done|by left]].
  eexists. split; [exact Hs|]. right. exists (b ++ l' :: a), []. rewrite app_nil_r, El.
  split; [by apply Forall2_middle|]. split; [by left|done].
Qed.

Lemma run_op_advances io op d links :
  contents d = Ok links -> exists links', contents (run_op io op d) = Ok links' /\ advances op links links'.
Proof.
  intros Hc.
  assert (exists links', contents d = Ok links' /\ advances op links links') as Hsame by (exists links; split; [done|by left]).
  destruct op as [now ttl single lb tb ib|now wanted|now token via secret]; simpl.
  - unfold mint_at. destruct (load io d) as [links0|e] eqn:El; [|done].
    apply load_contents in El. rewrite Hc in El. injection El as <-.
    destruct (Z.leb_spec MAX_ACTIVE_LINKS (Zlen (List.filter (is_active now) links))) as [|Hlt]; [done|].
    match goal with |- context [save io ?ls now d] => destruct (save io ls now d) as [r d'] eqn:Es end.
    apply save_spec in Es as [Es|[-> Hr]]; [|by destruct r].
    exists (List.filter (kept now) (links ++ minted_by (OpMint now ttl single lb tb ib))).
    split; [by destruct r|]. right. exists links, (minted_by (OpMint now ttl single lb tb ib)).
    split; [apply Forall_Forall2_diag, Forall_true; intros; apply evolves_refl|]. eauto.
  - unfold revoke_at. destruct (load io d) as [links0|e] eqn:El; [|done].
    apply load_contents in El. rewrite Hc in El. injection El as <-.
    destruct (find_mut _ links) as [[[b l] a]|] eqn:Ef; [|done].
    apply find_mut_Some in Ef as (El & Hid & _). apply String.eqb_eq in Hid. subst wanted.
    destruct (revoked_at l) eqn:Erev; simpl; [done|].
    destruct (save io _ now d) as [r d'] eqn:Es.
    eapply (save_advances _ (OpRevoke now (id l))) in Es; [|done|done|]; [by destruct r|].
    split; simpl; eauto.
  - unfold redeem_at. destruct (negb (looks_like_link_token token)); [done|].
    destruct (load io d) as [links0|e] eqn:El; [|done].
    apply load_contents in El. rewrite Hc in El. injection El as <-.
    unfold redeem_links. destruct (find_mut _ links) as [[[b l] a]|] eqn:Ef; simpl; [|done].
    apply find_mut_Some in Ef as (El & _).
    destruct (is_some (revoked_at l)); [done|]. destruct (_ <=? _); [done|].
    destruct (_ && _ && _); [done|].
    destruct via; simpl; [|done].
    destruct (save io _ now d) as [r d'] eqn:Es.
    eapply (save_advances _ (OpRedeem now token Query secret)) in Es; [by destruct r|done|done|apply evolves_redeemed].
Qed.

(** ** Histories of operations *)

Lemma history_snoc ops io op d : run (ops ++ [(io, op)]) d = run_op io op (run ops d).
Proof. unfold run. by rewrite fold_left_app. Qed.

Lemma history_app ops1 ops2 d : run (ops1 ++ ops2) d = run ops2 (run ops1 d).
Proof. unfold run. by rewrite fold_left_app. Qed.

(** An invariant that every operation keeps holds after every history. *)
Lemma run_ind (P : list (Io * StoreOp) -> list ShareLink -> Prop) d links ops :
  contents d = Ok links -> P [] links ->
  (forall done io op links links', (exists rest, ops = done ++ (io, op) :: rest) -> P done links ->
    advances op links links' -> P (done ++ [(io, op)]) links') ->
  exists links', contents (run ops d) = Ok links' /\ P ops links'.
Proof.
  intros Hc HP0 Hstep. assert (forall done rest, ops = done ++ rest ->
    exists links', contents (run done d) = Ok links' /\ P done links') as Hall.
  { intros dn. induction dn as [|[io op] dn IH] using rev_ind; intros rest E; [eauto|].
    rewrite <-app_assoc in E. destruct (IH _ E) as (l1 & Hc1 & HP).
    destruct (run_op_advances io op _ _ Hc1) as (l2 & Hc2 & Ha).
    exists l2. rewrite history_snoc. split; [done|]. eapply Hstep; [by exists rest|done|done]. }
  apply (Hall ops []). by rewrite app_nil_r.
Qed.

Lemma filter_sublist {A} (f : A -> bool) (l : list A) : List.filter f l `sublist_of` l.
Proof. induction l as [|x l IH]; simpl; [done|]. destruct (f x); by constructor. Qed.

(** A field that no operation changes: after a history, its values are among the old ones and the
    minted ones, in order. *)
Lemma advances_sublist {B} (f : ShareLink -> B) op links links' :
  (forall l l', evolves op l l' -> f l' = f l) -> advances op links links' ->
  map f links' `sublist_of` map f links ++ map f (minted_by op).
Proof.
  intros Hf [->|(mid & fresh & Hm & Hfr & ->)]; [by apply sublist_inserts_r|].
  assert (map f mid = map f links) as Em by (clear Hfr; induction Hm as [|x y l1 l2 He Hm IH]; simpl; [done|]; by rewrite (Hf _ _ He), IH).
  etrans; [apply (fmap_sublist f), filter_sublist|]. change (fmap f) with (map f).
  rewrite map_app, Em. apply sublist_app; [done|]. destruct Hfr as [->|[-> _]]; [apply sublist_nil_l|done].
Qed.

Lemma minted_snoc ops io op : minted (ops ++ [(io, op)]) = minted ops ++ minted_by op.
Proof. unfold minted. rewrite map_app, concat_app. simpl. by rewrite app_nil_r. Qed.

Lemma minted_app ops1 ops2 : minted (ops1 ++ ops2) = minted ops1 ++ minted ops2.
Proof. unfold minted. by rewrite map_app, concat_app. Qed.

Lemma opened_snoc ops io op : opened (ops ++ [(io, op)]) = opened ops ++ opened_by op.
Proof. unfold opened. rewrite map_app, concat_app. simpl. by rewrite app_nil_r. Qed.

Lemma opened_app ops1 ops2 : opened (ops1 ++ ops2) = opened ops1 ++ opened ops2.
Proof. unfold opened. by rewrite map_app, concat_app. Qed.

Lemma contents_none : contents None = Ok [].
Proof. done. Qed.

Lemma run_sublist {B} (f : ShareLink -> B) ops :
  (forall op l l', evolves op l l' -> f l' = f l) ->
  exists links, contents (run ops None) = Ok links /\ map f links `sublist_of` map f (minted ops).
Proof.
  intros Hf. apply (run_ind (fun ops links => map f links `sublist_of` map f (minted ops)) None []);
    [done|constructor|].
  intros dn io op l l' _ Hs Ha. rewrite minted_snoc, map_app.
  etrans; [apply (advances_sublist f op l l'); [apply Hf|done]|]. by apply sublist_app.
Qed.

(** A property of single records that survives every change. *)
Lemma advances_forall (P : ShareLink -> Prop) op links links' :
  (forall l l', evolves op l l' -> P l -> P l') -> Forall P links -> Forall P (minted_by op) ->
  advances op links links' -> Forall P links'.
Proof.
  intros Hev Hl Hm [->|(mid & fresh & H2 & Hfr & ->)]; [done|].
  assert (Forall P mid) as Hmid.
  { clear Hfr. induction H2; [done|]. apply Forall_cons in Hl as [? ?]. constructor; eauto. }
  assert (Forall P fresh) by (destruct Hfr as [->|[-> _]]; done).
  rewrite Forall_forall. intros l Hin. apply list_elem_of_In, filter_In in Hin as [Hin _].
  apply list_elem_of_In in Hin. revert l Hin. rewrite <-Forall_forall. by apply Forall_app.
Qed.

Lemma run_forall (P : ShareLink -> Prop) d links ops :
  (forall op l l', evolves op l l' -> P l -> P l') ->
  contents d = Ok links -> Forall P links -> Forall P (minted ops) ->
  exists links', contents (run ops d) = Ok links' /\ Forall P links'.
Proof.
  intros Hev Hc Hl Hm. apply (run_ind (fun _ => Forall P) d links); [done|done|].
  intros dn io op l l' [rest ->] HP Ha. eapply advances_forall; [apply Hev|done| |done].
  rewrite minted_app in Hm. apply Forall_app in Hm as [_ Hm]. change (minted ((io, op) :: rest))
    with (minted_by op ++ minted rest) in Hm. by apply Forall_app in Hm as [? _].
Qed.

(** ** One redemption *)

Lemma matches_spec presented hex : matches presented hex = true <-> hex_decode 32 hex = Some presented.
Proof.
  unfold matches. destruct (hex_decode 32 hex) as [h|]; [|done]. rewrite ct_eq_spec. split; congruence.
Qed.

Lemma hash_link_token_length token : length (hash_link_token token) = 32%nat.
Proof. apply sha256_length. Qed.

(** A digest as the store writes it is matched by the tokens with that hash only. *)
Lemma matches_digest presented x :
  length x = 32%nat -> matches presented (hex_encode x) = true <-> presented = x.
Proof. intros Hx. rewrite matches_spec, hex_decode_encode by done. split; congruence. Qed.

Lemma redeem_links_ok now token via secret links r links' snap :
  redeem_links now token via secret links = Ok (r, links', snap) ->
  exists b l a, links = b ++ l :: a /\
    presents via token l = true /\ forallb (fun y => negb (presents via token y)) b = true /\
    revoked_at l = None /\ now < expires_at l /\
    (via = Query -> single_use l = true -> used_at l = None) /\
    redeemed_id r = id l /\ redeemed_single_use r = single_use l /\ remaining_secs r = expires_at l - now /\
    session r = (if is_query via then Some (base64url secret) else None) /\
    links' = b ++ redeemed_link now via secret l :: a.
Proof.
  unfold redeem_links. destruct (find_mut _ links) as [[[b l] a]|] eqn:Ef; [|done].
  apply find_mut_Some in Ef as (Elinks & Hp & Hb).
  destruct (evolves_redeemed now token via secret l) as [Ei _ Ee Es _ _ _].
  unfold ok_or, rbind. destruct (revoked_at l) eqn:Erev; [done|]. cbn [is_some].
  destruct (Z.leb_spec (expires_at l) now); [done|].
  destruct (single_use l && is_some (used_at l) && is_query via) eqn:Eu; [done|].
  intros [= <- <- <-]. cbn [redeemed_id redeemed_single_use remaining_secs session].
  rewrite Ei, Ee, Es. exists b, l, a. split_and!; try done.
  intros -> Hs. rewrite Hs, andb_true_r in Eu. by destruct (used_at l).
Qed.

Lemma redeem_ok io now token via secret d r d' ev :
  redeem_at io now token via secret d = (Ok r, d', ev) ->
  exists links b l a, contents d = Ok links /\ links = b ++ l :: a /\
    presents via token l = true /\ forallb (fun y => negb (presents via token y)) b = true /\
    revoked_at l = None /\ now < expires_at l /\
    (via = Query -> single_use l = true -> used_at l = None) /\
    redeemed_id r = id l /\ redeemed_single_use r = single_use l /\ remaining_secs r = expires_at l - now /\
    (via = Query -> session r = Some (base64url secret) /\
      contents d' = Ok (List.filter (kept now) (b ++ redeemed_link now via secret l :: a))) /\
    (via = Cookie -> d' = d).
Proof.
  unfold redeem_at. destruct (negb (looks_like_link_token token)); [done|].
  destruct (load io d) as [links|e] eqn:El; [|done]. apply load_contents in El.
  destruct (redeem_links now token via secret links) as [[[r0 links1] snap]|e] eqn:Er; [|done].
  apply redeem_links_ok in Er as (b & l & a & Elinks & Hp & Hb & Hrev & Hx & Hu & Hi & Hsu & Hrem & Hs & ->).
  destruct via; simpl in *.
  - destruct (save io _ now d) as [[[]|] d1] eqn:Esave; [|done]. intros [= <- <- <-].
    exists links, b, l, a. split_and!; try done.
    intros _. split; [done|]. by apply save_spec in Esave as [?|[_ ?]].
  - intros [= <- <- <-]. exists links, b, l, a. split_and!; try done.
Qed.

Lemma filter_Forall {A} (P : A -> Prop) (f : A -> bool) l : Forall P l -> Forall P (List.filter f l).
Proof. induction 1; simpl; [done|]. destruct (f _); [by constructor|done]. Qed.

(** ** A single-use link *)

(** Every hash in the store is the digest of a token. *)
Lemma minted_hash ops x : x ∈ map token_hash (minted ops) -> exists h, length h = 32%nat /\ x = hex_encode h.
Proof.
  induction ops as [|[io op] ops IH]; simpl; [by intros ?%not_elem_of_nil|].
  change (minted ((io, op) :: ops)) with (minted_by op ++ minted ops). rewrite map_app, elem_of_app.
  intros [Hx|Hx]; [|by apply IH]. destruct op; simpl in Hx; try by apply not_elem_of_nil in Hx.
  apply list_elem_of_singleton in Hx as ->. eexists. split; [|done]. apply hash_link_token_length.
Qed.

Lemma matches_minted ops l h :
  token_hash l ∈ map token_hash (minted ops) -> matches h (token_hash l) = true -> token_hash l = hex_encode h.
Proof.
  intros (x & Hx & ->)%minted_hash Hm. rewrite matches_digest in Hm by done. by subst.
Qed.

(** The record a token matches was redeemed for good. *)
Definition spent (h : list byte) (l : ShareLink) : Prop :=
  matches h (token_hash l) = true -> single_use l = true /\ used_at l <> None.

Lemma spent_evolves h op l l' : evolves op l l' -> spent h l -> spent h l'.
Proof.
  intros He Hs Hm. rewrite (ev_hash _ _ _ He) in Hm. destruct (Hs Hm) as [? Hu].
  split; [by rewrite (ev_single _ _ _ He)|]. destruct (ev_used _ _ _ He) as [->|E]; done.
Qed.

Lemma unmatched_spent h l ops :
  token_hash l ∈ map token_hash (minted ops) -> token_hash l <> hex_encode h -> spent h l.
Proof. intros Hin Hne Hm. by apply (matches_minted ops) in Hm. Qed.

(** a single-use link opens the service once: after its URL was redeemed, whatever the agent and
    the command line do to the store one after the other -- minting, revoking, redeeming, failed
    writes, pruning -- no later presentation of the same token in a URL succeeds, as long as the
    token hashes drawn are distinct. *)
Theorem single_use_redeems_once pre io now token secret r d1 ev post io' now' secret' :
  NoDup (map token_hash (minted (pre ++ post))) ->
  redeem_at io now token Query secret (run pre None) = (Ok r, d1, ev) -> redeemed_single_use r = true ->
  is_ok (redeem_at io' now' token Query secret' (run post d1)).1.1 = false.
Proof.
  intros Hnd Hr Hsu. set (h := hash_link_token token).
  rewrite minted_app, map_app in Hnd. apply NoDup_app in Hnd as (Hpre & Hdis & _).
  destruct (run_sublist token_hash pre) as (links & Hc & Hsub); [by intros ? ? ? []|].
  apply redeem_ok in Hr as (links0 & b & l & a & Hc0 & El & Hp & Hb & _ & _ & Hu & _ & Es & _ & Hd & _).
  rewrite Hc in Hc0. injection Hc0 as <-. destruct (Hd eq_refl) as [_ Hc1]. rewrite Hsu in Es.
  assert (forall y, y ∈ links -> token_hash y ∈ map token_hash (minted pre)) as Hin.
  { intros y Hy. eapply elem_of_sublist; [|exact Hsub]. by apply list_elem_of_fmap_2. }
  assert (token_hash l = hex_encode h) as Elh.
  { apply (matches_minted pre); [|done]. apply Hin. rewrite El. set_solver. }
  assert (Forall (spent h) (List.filter (kept now) (b ++ redeemed_link now Query secret l :: a))) as Hspent.
  { apply filter_Forall, Forall_app. split; [|constructor].
    - rewrite forallb_forall in Hb. apply Forall_forall. intros y Hy Hm.
      apply list_elem_of_In in Hy. specialize (Hb _ Hy). simpl in Hb. unfold h in Hm. by rewrite Hm in Hb.
    - intros _. destruct (evolves_redeemed now token Query secret l) as [_ _ _ -> _ _ _]. split; [done|].
      unfold redeemed_link. simpl. by rewrite (Hu eq_refl (eq_sym Es)).
    - apply Forall_forall. intros y Hy. apply (unmatched_spent _ _ pre); [apply Hin; rewrite El; set_solver|].
      assert (NoDup (map token_hash links)) as Hnd by (eapply sublist_NoDup; eauto).
      rewrite El, map_app in Hnd. apply NoDup_app in Hnd as (_ & _ & [Hl _]%NoDup_cons). rewrite <-Elh.
      intros Ey. apply Hl. rewrite <-Ey. by apply list_elem_of_fmap_2. }
  destruct (run_forall (spent h) d1 _ post (spent_evolves h) Hc1 Hspent) as (links2 & Hc2 & Hspent2).
  { apply Forall_forall. intros y Hy.
    assert (token_hash y ∈ map token_hash (minted post)) by (by apply list_elem_of_fmap_2).
    apply (unmatched_spent _ _ post); [done|]. rewrite <-Elh. intros Ey. apply (Hdis (token_hash l)).
    - apply Hin. rewrite El. set_solver.
    - by rewrite <-Ey. }
  destruct (redeem_at io' now' token Query secret' (run post d1)) as [[[r2|e] d2] ev2] eqn:E2; [|done].
  apply redeem_ok in E2 as (l2s & b2 & l2 & a2 & Hc2' & El2 & Hp2 & _ & _ & _ & Hu2 & _ & _ & _).
  rewrite Hc2 in Hc2'. injection Hc2' as <-. rewrite Forall_forall in Hspent2.
  destruct (Hspent2 l2) as [Hs2 Hne]; [rewrite El2; set_solver|done|]. by destruct (Hne (Hu2 eq_refl Hs2)).
Qed.

(** ** Revocation *)

Lemma revoke_ok io now wanted d l' d' ev :
  revoke_at io now wanted d = (Ok l', d', ev) ->
  exists links b l a, contents d = Ok links /\ links = b ++ l :: a /\ id l = wanted /\
    revoked_at l = None /\ l' = with_revoked now l /\
    contents d' = Ok (List.filter (kept now) (b ++ with_revoked now l :: a)).
Proof.
  unfold revoke_at. destruct (load io d) as [links|e] eqn:El; [|done]. apply load_contents in El.
  destruct (find_mut _ links) as [[[b l] a]|] eqn:Ef; [|done].
  apply find_mut_Some in Ef as (Elinks & Hid & _). apply String.eqb_eq in Hid.
  destruct (revoked_at l) eqn:Erev; simpl; [done|].
  destruct (save io _ now d) as [[[]|] d1] eqn:Es; [|done]. intros [= <- <- <-].
  apply save_spec in Es as [Es|[_ Hr]]; [|done]. exists links, b, l, a. done.
Qed.

Definition withdrawn (i : string) (l : ShareLink) : Prop := id l = i -> revoked_at l <> None.

Lemma withdrawn_evolves i op l l' : evolves op l l' -> withdrawn i l -> withdrawn i l'.
Proof.
  intros He Hs Hi. rewrite (ev_id _ _ _ He) in Hi. destruct (ev_revoked _ _ _ He) as [->|[E _]]; [by apply Hs|].
  by destruct (Hs Hi).
Qed.

(** ** The cap *)

Lemma active_evolves op now now' l l' :
  evolves op l l' -> now <= now' -> is_active now' l' = true -> is_active now l = true.
Proof.
  unfold is_active. intros He Hle. rewrite (ev_expires _ _ _ He), !andb_true_iff, !Z.ltb_lt.
  intros [Hr Hx]. split; [|lia]. destruct (ev_revoked _ _ _ He) as [<-|[-> _]]; done.
Qed.

Lemma active_filter f now links : active_links now (List.filter f links) <= active_links now links.
Proof.
  unfold active_links. induction links as [|l links IH]; simpl; [done|].
  destruct (f l); simpl; destruct (is_active now l); simpl; lia.
Qed.

Lemma active_app now l1 l2 : active_links now (l1 ++ l2) = active_links now l1 + active_links now l2.
Proof. unfold active_links. rewrite List.filter_app, length_app. lia. Qed.

Lemma active_later op now now' l1 l2 :
  Forall2 (evolves op) l1 l2 -> now <= now' -> active_links now' l2 <= active_links now l1.
Proof.
  unfold active_links. intros H2 Hle. induction H2 as [|x y l1 l2 He H2 IH]; simpl; [done|].
  pose proof (active_evolves _ _ _ _ _ He Hle) as Hact.
  destruct (is_active now' y); simpl; [rewrite Hact by done; simpl; lia|]. destruct (is_active now x); simpl; lia.
Qed.

Lemma active_same now now' links : now <= now' -> active_links now' links <= active_links now links.
Proof.
  apply (active_later (OpRevoke 0 "")). apply Forall_Forall2_diag, Forall_true. intros. apply evolves_refl.
Qed.

Lemma clocked_snoc t ops io op : clocked t (ops ++ [(io, op)]) <-> clocked t ops /\ clock t ops <= op_time op.
Proof. revert t. induction ops as [|[io' op'] ops IH]; intros t; simpl; [naive_solver|]. rewrite IH. naive_solver. Qed.

Lemma clock_snoc t ops io op : clock t (ops ++ [(io, op)]) = op_time op.
Proof. revert t. induction ops as [|[io' op'] ops IH]; intros t; simpl; [done|]. apply IH. Qed.

(** while the clock does not go back, at most 50 links are active at any time, whatever sequence
    of operations the store went through and whichever of them failed. *)
Theorem active_links_capped t ops links now :
  clocked t ops -> contents (run ops None) = Ok links -> clock t ops <= now ->
  active_links now links <= MAX_ACTIVE_LINKS.
Proof.
  intros Hck Hc. destruct (run_ind (fun ops links => clocked t ops -> forall now, clock t ops <= now ->
    active_links now links <= MAX_ACTIVE_LINKS) None [] ops) as (links' & Hc' & HP);
    [done|intros _ ? _; done| |rewrite Hc in Hc'; injection Hc' as <-; by apply HP].
  intros dn io op l1 l2 _ HP Ha [Hdn Hle]%clocked_snoc now1. rewrite clock_snoc. intros Hnow.
  destruct Ha as [->|(mid & fresh & Hm & Hfr & ->)]; [apply HP; [done|lia]|].
  etrans; [apply active_filter|]. rewrite active_app.
  pose proof (active_later _ _ _ _ _ Hm Hnow). specialize (HP Hdn _ Hle).
  destruct Hfr as [->|[-> Hlt]]; [unfold active_links in *; simpl in *; lia|].
  assert (active_links now1 (minted_by op) <= 1); [|lia].
  destruct op; unfold active_links; simpl; try lia. destruct (is_active _ _); simpl; lia.
Qed.

(** ** Sessions *)

(** [h] is a session of [l] with at most [k] newer ones. *)
Definition session_within (h : string) (k : nat) (l : ShareLink) : Prop :=
  exists s1 s2, session_hashes l = s1 ++ h :: s2 /\ (length s2 <= k)%nat.

Lemma push_session_keeps x h s1 s2 :
  (length s2 <= 14)%nat -> exists s1', push_session x (s1 ++ h :: s2) = s1' ++ h :: (s2 ++ [x]).
Proof.
  intros Hl. unfold push_session, MAX_SESSIONS_PER_LINK, sat_sub. rewrite <-app_assoc. simpl.
  match goal with |- context [drop ?n _] => exists (drop n s1) end.
  rewrite drop_app_le; [done|]. rewrite !length_app. simpl. rewrite length_app. simpl. lia.
Qed.

Lemma push_session_last x hs : exists s1, push_session x hs = s1 ++ [x].
Proof.
  unfold push_session, MAX_SESSIONS_PER_LINK, sat_sub. eexists. apply drop_app_le. rewrite length_app. simpl. lia.
Qed.

Lemma push_session_elem y x hs : y ∈ push_session x hs -> y ∈ hs \/ y = x.
Proof.
  intros Hy. apply (elem_of_sublist _ (hs ++ [x])) in Hy; [|apply sublist_drop]. set_solver.
Qed.

(** Every session in the store was opened by a redemption. *)
Lemma sessions_opened pre :
  exists links, contents (run pre None) = Ok links /\
    Forall (fun l => (forall h, h ∈ session_hashes l -> h ∈ opened pre) /\ expires_at l <= U64_MAX) links.
Proof.
  apply (run_ind (fun pre => Forall (fun l => (forall h, h ∈ session_hashes l -> h ∈ opened pre) /\
    expires_at l <= U64_MAX)) None []); [done|constructor|].
  intros dn io op l1 l2 _ HP Ha. rewrite opened_snoc. revert Ha. apply advances_forall.
  - intros l l' He [Hs Hx]. rewrite (ev_expires _ _ _ He). split; [|done]. intros h Hh.
    destruct (ev_sessions _ _ _ He) as [E|(now & tk & sec & -> & E)]; rewrite E in Hh; [by apply Hs|].
    apply push_session_elem in Hh as [Hh| ->]; [by apply Hs|]. simpl. set_solver.
  - eapply Forall_impl; [exact HP|]. intros l [Hs Hx]. split; [|done]. intros h Hh. specialize (Hs h Hh). set_solver.
  - destruct op; simpl; repeat constructor; simpl; [by intros ? ?%not_elem_of_nil|].
    unfold sat_add64. lia.
Qed.

Lemma existsb_elem {A} (f : A -> bool) l : existsb f l = true <-> exists x, x ∈ l /\ f x = true.
Proof. rewrite existsb_exists. split; intros (x & Hx & Hf); exists x; (split; [by apply list_elem_of_In|done]). Qed.

(** Only the link [i] accepts the session [sess], it is not revoked and expires at [E]. *)
Definition opens (i : string) (E : Z) (sess : string) (l : ShareLink) : Prop :=
  presents Cookie sess l = true -> id l = i /\ revoked_at l = None /\ expires_at l = E.

Lemma within_presents sess k l :
  session_within (hex_encode (hash_link_token sess)) k l -> presents Cookie sess l = true.
Proof.
  intros (s1 & s2 & E & _). simpl. rewrite E. apply existsb_elem. eexists. split; [by apply elem_of_app; right; left|].
  apply matches_digest; [apply hash_link_token_length|done].
Qed.

Lemma opens_evolves i E sess op l l' :
  evolves op l l' -> (forall now, op <> OpRevoke now i) ->
  hex_encode (hash_link_token sess) ∉ opened_by op -> opens i E sess l -> opens i E sess l'.
Proof.
  intros He Hrev Hfresh Ho Hp. rewrite (ev_id _ _ _ He), (ev_expires _ _ _ He).
  assert (presents Cookie sess l = true) as Hp0.
  { simpl in *. destruct (ev_sessions _ _ _ He) as [Es|(now & tk & sec & -> & Es)]; rewrite Es in Hp; [done|].
    apply existsb_elem in Hp as (y & Hy & Hm). apply existsb_elem. exists y.
    apply push_session_elem in Hy as [Hy| ->]; [done|]. destruct Hfresh. simpl.
    apply matches_digest in Hm; [|apply hash_link_token_length]. unfold digest. rewrite Hm. set_solver. }
  destruct (Ho Hp0) as (Hi & Hr & Hx). split; [done|]. split; [|done].
  destruct (ev_revoked _ _ _ He) as [->|[_ [now ->]]]; [done|]. by destruct (Hrev now); rewrite Hi.
Qed.

Lemma within_evolves h k op l l' :
  evolves op l l' -> (k + length (opened_by op) <= 15)%nat -> session_within h k l ->
  session_within h (k + length (opened_by op)) l'.
Proof.
  intros He Hk (s1 & s2 & E & Hl). unfold session_within.
  destruct (ev_sessions _ _ _ He) as [Es|(now & tk & sec & -> & Es)].
  - exists s1, s2. rewrite Es. split; [done|lia].
  - simpl in *. destruct (push_session_keeps (digest sec) h s1 s2) as [s1' Ep]; [lia|].
    exists s1', (s2 ++ [digest sec]). rewrite Es, E, Ep. split; [done|]. rewrite length_app. simpl. lia.
Qed.

(** The session [sess] of link [i] works, with [k] newer sessions of the same link at most. *)
Definition works (i : string) (E : Z) (sess : string) (k : nat) (links : list ShareLink) : Prop :=
  Forall (opens i E sess) links /\
  exists l, l ∈ links /\ session_within (hex_encode (hash_link_token sess)) k l.

Lemma works_advances i E sess k op l1 l2 :
  works i E sess k l1 -> advances op l1 l2 -> (forall now, op <> OpRevoke now i) ->
  hex_encode (hash_link_token sess) ∉ opened_by op -> (k + length (opened_by op) <= 15)%nat ->
  op_time op < E <= U64_MAX -> works i E sess (k + length (opened_by op)) l2.
Proof.
  intros [Hall (l & Hin & Hw)] Ha Hrev Hfresh Hk Ht. split.
  - apply (advances_forall _ op l1); [|done| |done].
    + intros x y He. by apply (opens_evolves i E sess op).
    + destruct op; repeat constructor; done.
  - destruct Ha as [->|(mid & fresh & Hm & _ & ->)].
    + exists l. split; [done|]. destruct Hw as (s1 & s2 & Es & Hl). exists s1, s2. split; [done|lia].
    + apply list_elem_of_lookup in Hin as [j Hj].
      destruct (Forall2_lookup_l _ _ _ _ _ Hm Hj) as (l' & Hj' & He).
      exists l'. split; [|by apply (within_evolves _ _ op l)].
      apply list_elem_of_In, filter_In. split; [apply list_elem_of_In, elem_of_app; left; by eapply list_elem_of_lookup_2|].
      rewrite Forall_lookup in Hall. destruct (Hall _ _ Hj) as (_ & _ & Hx); [by eapply within_presents|].
      unfold kept. rewrite (ev_expires _ _ _ He), Hx. apply Z.ltb_lt. unfold sat_add64, LINK_PRUNE_AFTER. lia.
Qed.

(** Right after a redemption its session works. *)
Lemma redeemed_works pre io now token secret r d1 ev :
  digest secret ∉ opened pre -> redeem_at io now token Query secret (run pre None) = (Ok r, d1, ev) ->
  session r = Some (base64url secret) /\ now + remaining_secs r <= U64_MAX /\
  exists links, contents d1 = Ok links /\
    works (redeemed_id r) (now + remaining_secs r) (base64url secret) 0 links.
Proof.
  intros Hfresh Hr.
  apply redeem_ok in Hr as (links & b & l & a & Hc & El & Hp & _ & Hrev & Hx & _ & Hi & _ & Hrem & Hd & _).
  destruct (Hd eq_refl) as [Hs Hc1]. split; [done|].
  destruct (sessions_opened pre) as (links' & Hc' & Hall). rewrite Hc in Hc'. injection Hc' as <-.
  assert (expires_at l <= U64_MAX) as Hmax.
  { rewrite Forall_forall in Hall. apply Hall. rewrite El. set_solver. }
  split; [lia|]. eexists. split; [exact Hc1|]. rewrite Hi, Hrem.
  replace (now + (expires_at l - now)) with (expires_at l) by lia.
  pose proof (evolves_redeemed now token Query secret l) as He.
  assert (Forall (fun y => presents Cookie (base64url secret) y = false) links) as Hno.
  { eapply Forall_impl; [exact Hall|]. intros y [Hy _]. apply not_true_iff_false. simpl.
    intros (x & Hx1 & Hx2)%existsb_elem. apply Hfresh. specialize (Hy x Hx1).
    assert (x = digest secret) as <-; [|done]. revert Hy. generalize pre. intros ops Hy.
    induction ops as [|[io1 op1] ops IH]; [by apply not_elem_of_nil in Hy|].
    change (opened ((io1, op1) :: ops)) with (opened_by op1 ++ opened ops) in Hy.
    apply elem_of_app in Hy as [Hy|Hy]; [|by apply IH].
    destruct op1 as [| |? ? [] sec]; simpl in Hy; try by apply not_elem_of_nil in Hy.
    apply list_elem_of_singleton in Hy as ->. apply matches_digest in Hx2; [|apply hash_link_token_length].
    unfold digest. by rewrite Hx2. }
  rewrite El in Hno. apply Forall_app in Hno as [Hb [_ Ha]%Forall_cons]. split.
  - apply filter_Forall, Forall_app. split; [|constructor].
    + eapply Forall_impl; [exact Hb|]. intros y Hy Hy'. congruence.
    + intros _. rewrite (ev_id _ _ _ He), (ev_expires _ _ _ He). split_and!; try done.
      unfold redeemed_link. simpl. by destruct (negb _).
    + eapply Forall_impl; [exact Ha|]. intros y Hy Hy'. congruence.
  - exists (redeemed_link now Query secret l). split.
    + apply list_elem_of_In, filter_In. split; [apply list_elem_of_In; set_solver|].
      unfold kept. rewrite (ev_expires _ _ _ He). apply Z.ltb_lt. unfold sat_add64, LINK_PRUNE_AFTER. lia.
    + unfold redeemed_link, session_within. simpl.
      destruct (push_session_last (digest secret) (session_hashes (if negb (is_some (used_at l)) then with_used now l else l)))
        as [s1 Ep].
      exists s1, []. split; [exact Ep|simpl; lia].
Qed.

(** the session a redeemed URL opened works until the link expires: whatever else happens to
    the store in between, its cookie is accepted, unless the link is revoked or 16 more redemptions
    pushed the session out, as long as the session secrets drawn are distinct. *)
Theorem session_lasts pre io now token secret r d1 ev post io' now' secret' :
  length secret = 32%nat ->
  NoDup (opened (pre ++ (io, OpRedeem now token Query secret) :: post)) ->
  redeem_at io now token Query secret (run pre None) = (Ok r, d1, ev) ->
  (length (opened post) < 16)%nat ->
  Forall (fun x => op_time x.2 < now + remaining_secs r /\ forall t, x.2 <> OpRevoke t (redeemed_id r)) post ->
  read_error io' = None -> now' < now + remaining_secs r ->
  exists sess r', session r = Some sess /\ redeemed_id r' = redeemed_id r /\
    (redeem_at io' now' sess Cookie secret' (run post d1)).1.1 = Ok r'.
Proof.
  intros Hlen Hnd Hr Hfew Hpost Hio Hnow.
  rewrite opened_app in Hnd. apply NoDup_app in Hnd as (_ & Hdis & Hnd2).
  change (opened ((io, OpRedeem now token Query secret) :: post)) with (digest secret :: opened post) in *.
  apply NoDup_cons in Hnd2 as [Hnew _].
  assert (digest secret ∉ opened pre) as Hfresh by (intros Hin; apply (Hdis _ Hin); left).
  apply redeemed_works in Hr as (Hs & Hmax & links & Hc & Hw); [|done].
  destruct (run_ind (fun ops => works (redeemed_id r) (now + remaining_secs r) (base64url secret)
    (length (opened ops))) d1 links post Hc Hw) as (links2 & Hc2 & Hall & l & Hin & Hwl).
  { intros dn io1 op l1 l2 [rest ->] HP Ha. rewrite opened_snoc, length_app.
    rewrite opened_app in Hnew, Hfew. change (opened ((io1, op) :: rest)) with (opened_by op ++ opened rest) in *.
    rewrite !length_app in Hfew. apply Forall_app in Hpost as [_ [[Ht Hrev] _]%Forall_cons].
    apply (works_advances _ _ _ _ op l1); [done|done|done|set_solver|lia|simpl in Ht; lia]. }
  exists (base64url secret). unfold redeem_at. rewrite base64url_token by done. simpl.
  assert (load io' (run post d1) = Ok links2) as ->.
  { revert Hc2. unfold contents, load. by rewrite Hio. }
  unfold redeem_links. destruct (find_mut (presents Cookie (base64url secret)) links2) as [[[b l2] a]|] eqn:Ef.
  - apply find_mut_Some in Ef as (El & Hp & _). simpl.
    rewrite Forall_forall in Hall. destruct (Hall l2) as (Hi & -> & Hx); [rewrite El; set_solver|done|]. simpl.
    destruct (Z.leb_spec (expires_at l2) now'); [lia|]. rewrite andb_false_r. simpl.
    eexists. split_and!; [done| |reflexivity]. done.
  - rewrite find_mut_None in Ef. specialize (Ef _ Hin). apply within_presents in Hwl. congruence.
Qed.

(** ** Two processes *)

Lemma save_io_ok links now d : exists d', save io_ok links now d = (Ok tt, d').
Proof.
  unfold save. simpl. destruct (json_reads_back (List.filter (kept now) links)) as (bytes & -> & _). eauto.
Qed.

Lemma filter_middle {A} (f : A -> bool) b x a :
  f x = true -> List.filter f (b ++ x :: a) = List.filter f b ++ x :: List.filter f a.
Proof. intros Hf. rewrite List.filter_app. simpl. by rewrite Hf. Qed.

Lemma forallb_filter {A} (p f : A -> bool) l : forallb p l = true -> forallb p (List.filter f l) = true.
Proof.
  rewrite !forallb_forall. intros Hp x Hx. apply filter_In in Hx as [Hx _]. by apply Hp.
Qed.

(** the mutex of the store does not reach another process.  When [link-revoke] runs between the
    reading and the writing of a redemption in the serving agent, it reports success and the agent
    writes back the record it read: the revocation is lost, and the same URL goes on opening the
    service. *)
Theorem stale_write_unrevokes now now2 token secret secret2 d links r links1 snap l d1 ev d2 :
  contents d = Ok links ->
  redeem_links now token Query secret links = Ok (r, links1, snap) -> redeemed_single_use r = false ->
  revoke_at io_ok now (redeemed_id r) d = (Ok l, d1, ev) ->
  save io_ok links1 now d1 = (Ok tt, d2) ->
  looks_like_link_token token = true -> now2 < now + remaining_secs r <= U64_MAX ->
  exists r2, (redeem_at io_ok now2 token Query secret2 d2).1.1 = Ok r2 /\ redeemed_id r2 = redeemed_id r.
Proof.
  intros _ Hr Hsu _ Hs Htok Hnow. apply save_spec in Hs as [Hc|[_ Hs]]; [|done].
  apply redeem_links_ok in Hr as (b & l0 & a & _ & Hp & Hb & Erev & Hx & _ & Hi & Es0 & Hrem & _ & ->).
  pose proof (evolves_redeemed now token Query secret l0) as He.
  rewrite Hrem in Hnow. rewrite Es0 in Hsu.
  rewrite filter_middle in Hc
    by (unfold kept; rewrite (ev_expires _ _ _ He); apply Z.ltb_lt; unfold sat_add64, LINK_PRUNE_AFTER; lia).
  unfold redeem_at. rewrite Htok. unfold contents in Hc. rewrite Hc. unfold redeem_links. cbn [negb].
  rewrite (proj2 (find_mut_Some _ _ (List.filter (kept now) b) (redeemed_link now Query secret l0)
    (List.filter (kept now) a))).
  2:{ split_and!; [done| |by apply forallb_filter]. unfold presents. rewrite (ev_hash _ _ _ He). exact Hp. }
  unfold ok_or, rbind. destruct (ev_revoked _ _ _ He) as [Er|[_ [t Er]]]; [rewrite Er, Erev|done]. cbn [is_some].
  rewrite (ev_expires _ _ _ He), (ev_single _ _ _ He), Hsu. cbn [andb].
  destruct (Z.leb_spec (expires_at l0) now2); [lia|]. cbn [is_query].
  match goal with |- context [save io_ok ?ls now2 d2] => destruct (save_io_ok ls now2 d2) as [d3 ->] end.
  eexists. split; [reflexivity|]. cbn [redeemed_id].
  by rewrite (ev_id _ _ _ (evolves_redeemed now2 token Query secret2 _)), (ev_id _ _ _ He).
Qed.
End Store.

(** ** A concrete store *)

Fixpoint pos_bytes (p : positive) : list byte :=
  match p with xH => [] | xO p => Byte.x30 :: pos_bytes p | xI p => Byte.x31 :: pos_bytes p end.
Fixpoint bytes_pos (l : list byte) : positive :=
  match l with
  | [] => xH
  | b :: l => if decide (b = Byte.x30) then xO (bytes_pos l) else xI (bytes_pos l)
  end.
Lemma bytes_pos_bytes p : bytes_pos (pos_bytes p) = p.
Proof. induction p; simpl; congruence. Qed.

(** A small serializer to stand for serde: what is put is got back, whatever follows. *)
Record Wire (A : Type) := {
  put : A -> list byte; get : list byte -> option (A * list byte);
  get_put a rest : get (put a ++ rest) = Some (a, rest)
}.
Arguments put {A} w a.
Arguments get {A} w l.
Arguments get_put {A} w a rest.

Definition w_byte : Wire byte.
Proof. refine {| put b := [b]; get l := match l with b :: l => Some (b, l) | [] => None end |}. done. Defined.

Definition w_map {A B} (f : A -> B) (g : B -> A) (fg : forall b, f (g b) = b) (w : Wire A) : Wire B.
Proof.
  refine {| put b := put w (g b); get l := let? (a, l) := get w l in Some (f a, l) |}.
  intros b rest. by rewrite get_put, fg.
Defined.

Definition w_pair {A B} (v : Wire A) (w : Wire B) : Wire (A * B).
Proof.
  refine {| put x := put v x.1 ++ put w x.2;
            get l := let? (a, l) := get v l in let? (b, l) := get w l in Some ((a, b), l) |}.
  intros [a b] rest. by rewrite <-app_assoc, !get_put.
Defined.

Fixpoint get_list {A} (w : Wire A) (fuel : nat) (l : list byte) : option (list A * list byte) :=
  match fuel, l with
  | S fuel, Byte.x01 :: l =>
      let? (a, l) := get w l in let? (r, l) := get_list w fuel l in Some (a :: r, l)
  | _, _ :: l => Some ([], l)
  | _, [] => None
  end.
Definition put_list {A} (w : Wire A) (l : list A) : list byte :=
  concat (map (fun a => Byte.x01 :: put w a) l) ++ [Byte.x00].
Definition w_list {A} (w : Wire A) : Wire (list A).
Proof.
  refine {| put := put_list w; get l := get_list w (length l) l |}. intros l rest.
  assert (forall fuel, (length l <= fuel)%nat -> get_list w fuel (put_list w l ++ rest) = Some (l, rest)) as H.
  { unfold put_list. induction l as [|a l IH]; intros [|fuel] Hf; simpl in *; try done; try lia.
    rewrite <-!app_assoc, get_put. rewrite app_assoc, IH by lia. done. }
  apply H. unfold put_list. rewrite !length_app. clear H. induction l as [|a l IH]; simpl; [lia|].
  rewrite !length_app in *. simpl in *. lia.
Defined.

Definition w_option {A} (w : Wire A) : Wire (option A) :=
  w_map head (fun o => match o with Some a => [a] | None => [] end)
    (fun o => match o with Some _ | None => eq_refl end) (w_list w).
Definition w_bool : Wire bool :=
  w_map (fun b => bool_decide (b = Byte.x01)) (fun b : bool => if b then Byte.x01 else Byte.x00)
    (fun b => match b with true | false => eq_refl end) w_byte.
Definition w_string : Wire string :=
  w_map String.string_of_list_byte String.list_byte_of_string String.string_of_list_byte_of_string (w_list w_byte).

Lemma decode_encode_Z (z : Z) : default 0 (decode (bytes_pos (pos_bytes (encode z)))) = z.
Proof. by rewrite bytes_pos_bytes, decode_encode. Qed.
Definition w_Z : Wire Z :=
  w_map (fun l => default 0 (decode (bytes_pos l))) (fun z => pos_bytes (encode z)) decode_encode_Z (w_list w_byte).

Definition w_link : Wire ShareLink :=
  w_map (fun '(a, (b, (c, (d, (e, (f, (g, h))))))) =>
           {| id := a; token_hash := b; label := c; expires_at := d; single_use := e; used_at := f;
              session_hashes := g; revoked_at := h |})
    (fun l => (id l, (token_hash l, (label l, (expires_at l, (single_use l, (used_at l, (session_hashes l,
       revoked_at l))))))))
    (fun l => match l with Build_ShareLink _ _ _ _ _ _ _ _ => eq_refl end)
    (w_pair w_string (w_pair w_string (w_pair w_string (w_pair w_Z (w_pair w_bool (w_pair (w_option w_Z)
       (w_pair (w_list w_string) (w_option w_Z)))))))).

Definition toy_hash (l : list byte) : list byte := take 32 (l ++ replicate 32 Byte.x00).

(** A hash that keeps the first 32 bytes, and tokens in hexadecimal. *)
#[global] Instance ToyLinks : LinkOps := {|
  sha256 := toy_hash;
  base64url := hex_encode;
  to_vec_pretty l := Ok (Byte.x5b :: put (w_list w_link) l);
  from_slice b :=
    match b with
    | _ :: b => match get (w_list w_link) b with Some (l, _) => Ok l | None => Err "invalid" end
    | [] => Err "empty"
    end
|}.

Lemma hex_token l : length l = 32%nat -> looks_like_link_token (hex_encode l) = true.
Proof.
  intros Hl. unfold looks_like_link_token, str_len. rewrite hex_encode_length, Hl.
  destruct (is_empty (hex_encode l)) eqn:Ee.
  - unfold is_empty in Ee. apply String.eqb_eq in Ee. pose proof (hex_encode_length l) as E. rewrite Ee in E.
    simpl in E. lia.
  - simpl. pose proof (hex_encode_chars l) as Hc. unfold forall_char in *. rewrite forallb_forall in *.
    intros c Hin. specialize (Hc c Hin). unfold hex_char, token_char, is_ascii_alphanumeric, is_ascii_digit,
      is_ascii_upper, is_ascii_lower in *. rewrite !orb_true_iff, !between_spec in *. lia.
Qed.

#[global] Instance ToyLinks_laws : LinkLaws.
Proof.
  split.
  - intros l. change (length (toy_hash l) = 32%nat). unfold toy_hash.
    rewrite length_take, length_app, length_replicate. lia.
  - apply hex_token.
  - intros l. eexists. split; [reflexivity|].
    pose proof (get_put (w_list w_link) l []) as E. rewrite app_nil_r in E.
    split; [|done].
    change (match get (w_list w_link) (put (w_list w_link) l) with
            | Some (l, _) => Ok l | None => Err "invalid" end = Ok l). by rewrite E.
Qed.

Definition demo_store : LinkStore := new_store "/var/lib/ct".
Definition demo_bytes (b : byte) : list byte := replicate 32 b.
Definition demo_token : string := hex_encode (demo_bytes Byte.x01).
Definition demo_mint (single : bool) : list (Io * StoreOp) :=
  [(io_ok, OpMint 1000 3600 single "guest" (demo_bytes Byte.x01) (replicate 6 Byte.x0a))].
Definition demo_later : list (Io * StoreOp) :=
  [(io_ok, OpMint 1020 60 false "other" (demo_bytes Byte.x02) (replicate 6 Byte.x0b));
   (io_ok, OpRedeem 1030 (hex_encode (demo_bytes Byte.x02)) Query (demo_bytes Byte.x04))].
Definition demo_redeem (single : bool) :=
  redeem_at demo_store io_ok 1010 demo_token Query (demo_bytes Byte.x03) (run demo_store (demo_mint single) None).

Lemma single_use_redeems_once_witness :
  exists r d1 ev, demo_redeem true = (Ok r, d1, ev) /\
    is_ok (redeem_at demo_store io_ok 1040 demo_token Query (demo_bytes Byte.x05) (run demo_store demo_later d1)).1.1
    = false.
Proof.
  assert (match (demo_redeem true).1.1 with Ok r => redeemed_single_use r | Err _ => false end = true) as Hs
    by (vm_compute; reflexivity).
  destruct (demo_redeem true) as [[[r|e] d1] ev] eqn:E; [|discriminate]. exists r, d1, ev. split; [reflexivity|].
  apply (single_use_redeems_once demo_store (demo_mint true) io_ok 1010 demo_token (demo_bytes Byte.x03) r d1 ev
    demo_later); [|exact E|exact Hs].
  apply (bool_decide_unpack _). vm_compute. exact I.
Defined.

Definition demo_revoke := revoke_at demo_store io_ok 1010 "0a0a0a0a0a0a" (run demo_store (demo_mint false) None).

Lemma active_links_capped_witness :
  exists links, contents demo_store (run demo_store (demo_mint true ++ demo_later) None) = Ok links /\
    active_links 1100 links <= MAX_ACTIVE_LINKS.
Proof.
  assert (is_ok (contents demo_store (run demo_store (demo_mint true ++ demo_later) None)) = true) as Hs
    by (vm_compute; reflexivity).
  destruct (contents demo_store _) as [links|e] eqn:E in Hs; [|discriminate]. exists links. split; [exact E|].
  apply (active_links_capped demo_store 0 (demo_mint true ++ demo_later) links 1100);
    [simpl; lia|exact E|simpl; lia].
Defined.

Lemma session_lasts_witness :
  exists r d1 ev, demo_redeem true = (Ok r, d1, ev) /\
    exists sess r', session r = Some sess /\ redeemed_id r' = redeemed_id r /\
      (redeem_at demo_store io_ok 4599 sess Cookie [] (run demo_store demo_later d1)).1.1 = Ok r'.
Proof.
  assert (match (demo_redeem true).1.1 with
          | Ok r => bool_decide (remaining_secs r = 3590) | Err _ => false end = true) as Hs
    by (vm_compute; reflexivity).
  destruct (demo_redeem true) as [[[r|e] d1] ev] eqn:E; [|discriminate]. exists r, d1, ev. split; [reflexivity|].
  simpl in Hs. apply bool_decide_eq_true in Hs.
  apply (session_lasts demo_store (demo_mint true) io_ok 1010 demo_token (demo_bytes Byte.x03) r d1 ev demo_later);
    [reflexivity| |exact E|simpl; lia| |reflexivity|rewrite Hs; lia].
  - apply (bool_decide_unpack _). vm_compute. exact I.
  - rewrite Hs. repeat constructor; simpl; (lia || discriminate).
Defined.

Lemma stale_write_unrevokes_witness :
  exists r links1 snap l d1 ev d2 r2,
    redeem_links 1010 demo_token Query (demo_bytes Byte.x03) (minted (demo_mint false)) = Ok (r, links1, snap) /\
    demo_revoke = (Ok l, d1, ev) /\ save demo_store io_ok links1 1010 d1 = (Ok tt, d2) /\
    (redeem_at demo_store io_ok 2000 demo_token Query (demo_bytes Byte.x05) d2).1.1 = Ok r2.
Proof.
  assert (match redeem_links 1010 demo_token Query (demo_bytes Byte.x03) (minted (demo_mint false)) with
          | Ok (r, _, _) => bool_decide (redeemed_id r = "0a0a0a0a0a0a" /\ remaining_secs r = 3590 /\
                              redeemed_single_use r = false)
          | Err _ => false end = true) as Hs by (vm_compute; reflexivity).
  destruct (redeem_links _ _ _ _ _) as [[[r links1] snap]|e] eqn:E1 in Hs; [|discriminate].
  apply bool_decide_eq_true in Hs as (Hid & Hrem & Hsu).
  assert (is_ok demo_revoke.1.1 = true) as Hs2 by (vm_compute; reflexivity).
  destruct demo_revoke as [[[l|e] d1] ev] eqn:E2; [|discriminate].
  destruct (save_io_ok demo_store links1 1010 d1) as [d2 E3].
  destruct (stale_write_unrevokes demo_store 1010 2000 demo_token (demo_bytes Byte.x03) (demo_bytes Byte.x05)
    (run demo_store (demo_mint false) None) (minted (demo_mint false)) r links1 snap l d1 ev d2)
    as (r2 & Hr2 & _);
    [vm_compute; reflexivity|exact E1|exact Hsu|rewrite Hid; exact E2|exact E3|vm_compute; reflexivity
    |rewrite Hrem; vm_compute; split; congruence|].
  exists r, links1, snap, l, d1, ev, d2, r2. auto.
Defined.
