(* ===== verification/LinkRaces.v ===== *)
(** * LinkRaces: several processes at one links file ([local_auth.rs])

    The serving agent and the [link-*] commands share the links file; the mutex of [LinkStore] does not
    reach another process.  Here an operation of [ShareLinks] is two steps, its read and its write, and
    those of different processes interleave as they like. *)
From S2P Require Import Prelude Text Codec ShareLinks.

#[local] Open Scope Z_scope.

Section Races.
Context `{LinkOps} (s : LinkStore).

(** ** An operation as a read and a write *)

(** What an operation decides on what it read: the records it will write back, if it writes at all. *)
Definition decide_op (io : Io) (op : StoreOp) (d : Disk) : option (list ShareLink) :=
  match load s io d with
  | Err _ => None
  | Ok links =>
      match op with
      | OpMint now _ _ _ _ _ => if MAX_ACTIVE_LINKS <=? active_links now links then None else Some (links ++ minted_by op)
      | OpRevoke now wanted =>
          let? (before, link, after) := find_mut (fun l => String.eqb (id l) wanted) links in
          if is_some (revoked_at link) then None else Some (before ++ with_revoked now link :: after)
      | OpRedeem now token via secret =>
          if negb (looks_like_link_token token) then None
          else match redeem_links now token via secret links with
               | Ok (_, links, _) => if is_query via then Some links else None
               | Err _ => None
               end
      end
  end.

(** The file and the operations between their read and their write, by process. *)
Record Store := { disk : Disk; flight : gmap nat (Io * StoreOp * list ShareLink) }.
Definition start : Store := {| disk := None; flight := ∅ |}.

Inductive RaceEvent := Reads (p : nat) (io : Io) (op : StoreOp) | Writes (p : nat).
Definition race_step (e : RaceEvent) (r : Store) : option Store :=
  match e with
  | Reads p io op =>
      match flight r !! p with
      | Some _ => None
      | None =>
          Some {| disk := disk r;
                  flight := match decide_op io op (disk r) with Some links => <[p := (io, op, links)]> (flight r) | None => flight r end |}
      end
  | Writes p =>
      let? (io, op, links) := flight r !! p in
      Some {| disk := (save s io links (op_time op) (disk r)).2; flight := delete p (flight r) |}
  end.
Fixpoint race (es : list RaceEvent) (r : Store) : option Store :=
  match es with [] => Some r | e :: es => let? r := race_step e r in race es r end.

(** The records the mints of a history draw. *)
Definition drawn_by (e : RaceEvent) : list ShareLink := match e with Reads _ _ op => minted_by op | Writes _ => [] end.
Definition drawn (es : list RaceEvent) : list ShareLink := concat (map drawn_by es).

(** ** An operation alone is the operation of [ShareLinks] *)

Lemma run_op_split io op d :
  run_op s io op d = match decide_op io op d with Some links => (save s io links (op_time op) d).2 | None => d end.
Proof.
  destruct op as [now ttl single lb tb ib|now wanted|now token via secret]; cbn [run_op]; unfold decide_op.
  - unfold mint_at. destruct (load s io d) as [links|]; [|done]. fold (active_links now links).
    destruct (_ <=? _); [done|]. cbn [minted_by op_time]. unfold digest. by destruct (save s io _ now d) as [[] ?].
  - unfold revoke_at. destruct (load s io d) as [links|]; [|done]. destruct (find_mut _ links) as [[[b l] a]|]; [|done].
    destruct (is_some _); [done|]. cbn [op_time]. by destruct (save s io _ now d) as [[] ?].
  - unfold redeem_at. destruct (negb _); [by destruct (load s io d)|]. destruct (load s io d) as [links|]; [|done].
    destruct (redeem_links now token via secret links) as [[[r links'] snap]|]; [|done].
    cbn [op_time]. destruct (is_query via); [|done]. by destruct (save s io _ now d) as [[] ?].
Qed.

Lemma read_then_write p io op r :
  flight r !! p = None ->
  exists r', (race [Reads p io op; Writes p] r = Some r' \/ race [Reads p io op] r = Some r') /\
    disk r' = run_op s io op (disk r) /\ flight r' = flight r.
Proof.
  intros Hp. rewrite run_op_split. cbn [race race_step]. rewrite Hp. destruct (decide_op io op (disk r)) as [links|] eqn:E.
  - cbn [flight]. rewrite lookup_insert_eq. eexists. split; [by left|]. cbn [disk flight]. by rewrite delete_insert_id.
  - eexists. split; [by right|done].
Qed.

(** ** What holds of every record *)

Context `{!LinkLaws}.

Lemma decide_op_spec io op d links :
  decide_op io op d = Some links ->
  exists old mid fresh, contents s d = Ok old /\ Forall2 (evolves op) old mid /\ (fresh = [] \/ fresh = minted_by op) /\ links = mid ++ fresh.
Proof.
  unfold decide_op. destruct (load s io d) as [old|] eqn:El; [|done]. apply load_contents in El.
  assert (Hrefl : Forall2 (evolves op) old old) by (apply Forall_Forall2_diag, Forall_true; intros; apply evolves_refl).
  destruct op as [now ttl single lb tb ib|now wanted|now token via secret].
  - destruct (_ <=? _); [done|]. intros [= <-]. exists old, old, (minted_by (OpMint now ttl single lb tb ib)). auto.
  - destruct (find_mut _ old) as [[[b l] a]|] eqn:Ef; [|done]. apply find_mut_Some in Ef as (-> & Hid & _). apply String.eqb_eq in Hid.
    destruct (revoked_at l) eqn:Er; cbn; [done|]. intros [= <-].
    exists (b ++ l :: a), (b ++ with_revoked now l :: a), []. rewrite app_nil_r. split_and!; auto.
    apply Forall2_middle. split; cbn; auto. right. split; [done|]. exists now. by rewrite Hid.
  - destruct (negb _); [done|]. destruct (redeem_links _ _ _ _ old) as [[[r l'] snap]|] eqn:E; [|done]. destruct via; [|done].
    apply redeem_links_ok in E as (b & l & a & -> & _ & _ & _ & _ & _ & _ & _ & _ & _ & ->). cbn. intros [= <-].
    exists (b ++ l :: a), (b ++ redeemed_link now Query secret l :: a), []. rewrite app_nil_r. split_and!; auto.
    apply Forall2_middle, evolves_redeemed.
Qed.

(** Every list of records there is, on the disk or on its way to it. *)
Definition everywhere (P : list ShareLink -> Prop) (r : Store) : Prop :=
  (exists links, contents s (disk r) = Ok links /\ P links) /\ map_Forall (fun _ x => P x.2) (flight r).

(** A property of records' lists survives the steps when it survives a decision and the pruning. *)
Lemma everywhere_step (P Q : list ShareLink -> Prop) e r r' :
  (forall links, P links -> Q links) ->
  (forall now links, Q links -> Q (List.filter (kept now) links)) ->
  (forall p io op old mid fresh, e = Reads p io op -> P old -> Forall2 (evolves op) old mid -> fresh = [] \/ fresh = minted_by op -> Q (mid ++ fresh)) ->
  everywhere P r -> race_step e r = Some r' -> everywhere Q r'.
Proof.
  intros HPQ Hkeep Hdec [(old & Hc & Hold) Hf] Hs.
  assert (Hf' : map_Forall (fun _ x => Q x.2) (flight r)) by (intros p x Hp; apply HPQ, (Hf p x Hp)).
  destruct e as [p io op|p]; cbn in Hs.
  - destruct (flight r !! p); [done|]. injection Hs as <-. split; [exists old; auto|]. cbn.
    destruct (decide_op io op (disk r)) as [links|] eqn:E; [|done]. apply map_Forall_insert_2; [|done]. cbn.
    apply decide_op_spec in E as (old' & mid & fresh & Hc' & H2 & Hfr & ->). rewrite Hc in Hc'. injection Hc' as <-. by eapply Hdec.
  - destruct (flight r !! p) as [[[io op] links]|] eqn:E; [|done]. injection Hs as <-. split; cbn [disk flight].
    + destruct (save s io links (op_time op) (disk r)) as [res d'] eqn:Es. destruct (save_spec s _ _ _ _ _ _ Es) as [Hc'|[-> _]]; [|exists old; auto].
      eexists. split; [exact Hc'|]. apply Hkeep. exact (Hf' p _ E).
    + intros q x [_ Hq]%lookup_delete_Some. exact (Hf' q x Hq).
Qed.

(** The ids are distinct, and were drawn. *)
Definition ids_from (ids : list string) (links : list ShareLink) : Prop :=
  NoDup (map id links) /\ forall i, i ∈ map id links -> i ∈ ids.

Lemma map_sublist {A B} (f : A -> B) l l' : sublist l l' -> sublist (map f l) (map f l').
Proof. intros Hs. by apply (fmap_sublist f). Qed.

Lemma evolved_ids op old mid : Forall2 (evolves op) old mid -> map id mid = map id old.
Proof. induction 1 as [|l l' old mid He H2 IH]; cbn; [done|]. by rewrite (ev_id _ _ _ He), IH. Qed.

Lemma ids_step ids e r r' :
  (forall i, i ∈ map id (drawn_by e) -> i ∉ ids) ->
  everywhere (ids_from ids) r -> race_step e r = Some r' -> everywhere (ids_from (ids ++ map id (drawn_by e))) r'.
Proof.
  intros Hfresh. apply everywhere_step.
  - intros links [Hn Hin]. split; [done|]. intros i Hi. apply elem_of_app. left. by apply Hin.
  - intros now links [Hn Hin]. pose proof (map_sublist id _ _ (filter_sublist (kept now) links)) as Hs.
    split; [by eapply sublist_NoDup|]. intros i Hi. apply Hin. by eapply elem_of_sublist.
  - intros p io op old mid fresh -> [Hn Hin] H2 Hfr. cbn [drawn_by] in *. unfold ids_from. rewrite map_app, (evolved_ids _ _ _ H2).
    assert (NoDup (map id (minted_by op))) by (destruct op; [apply NoDup_singleton|constructor..]).
    destruct Hfr as [->| ->]; [rewrite app_nil_r; split; [done|intros i Hi; apply elem_of_app; left; by apply Hin]|].
    split; [|intros i Hi; apply elem_of_app in Hi as [Hi|Hi]; apply elem_of_app; [left; by apply Hin|by right]].
    apply NoDup_app. split_and!; [done| |done]. intros i Hi Hi'. by destruct (Hfresh i Hi'); apply Hin.
Qed.

Lemma race_app es es' r : race (es ++ es') r = (let? r := race es r in race es' r).
Proof. revert r. induction es as [|e es IH]; intros r; [done|]. cbn. destruct (race_step e r); [apply IH|done]. Qed.
Lemma drawn_app es es' : drawn (es ++ es') = drawn es ++ drawn es'.
Proof. unfold drawn. by rewrite map_app, concat_app. Qed.

Lemma ids_race es ids r r' :
  NoDup (map id (drawn es)) -> (forall i, i ∈ map id (drawn es) -> i ∉ ids) ->
  everywhere (ids_from ids) r -> race es r = Some r' -> everywhere (ids_from (ids ++ map id (drawn es))) r'.
Proof.
  revert ids r. induction es as [|e es IH]; intros ids r Hn Hf He; cbn.
  - intros [= <-]. by rewrite app_nil_r.
  - change (drawn (e :: es)) with (drawn_by e ++ drawn es) in *. rewrite map_app in *.
    apply NoDup_app in Hn as (_ & Hdis & Hn). destruct (race_step e r) as [r1|] eqn:E; [|done]. intros Hr. rewrite app_assoc.
    apply (IH _ r1); try done.
    + intros i Hi [Hi'|Hi']%elem_of_app; [by apply (Hf i); [apply elem_of_app; right|]|by apply (Hdis i)].
    + eapply ids_step; [|exact He|exact E]. intros i Hi. apply Hf, elem_of_app. by left.
Qed.

Lemma withdrawn_race i es r r' :
  i ∉ map id (drawn es) -> everywhere (Forall (withdrawn i)) r -> race es r = Some r' -> everywhere (Forall (withdrawn i)) r'.
Proof.
  revert r. induction es as [|e es IH]; intros r Hi He; cbn; [by intros [= <-]|].
  change (drawn (e :: es)) with (drawn_by e ++ drawn es) in *. rewrite map_app, elem_of_app in Hi.
  destruct (race_step e r) as [r1|] eqn:E; [|done]. apply IH; [tauto|]. revert He E. apply everywhere_step; [done| |].
  - intros now links. apply filter_Forall.
  - intros p io op old mid fresh -> Hold H2 Hfr. apply Forall_app. split.
    + clear -H2 Hold. induction H2 as [|l l' old mid He H2 IH]; [done|]. apply Forall_cons in Hold as [? ?]. constructor; [|auto].
      by eapply withdrawn_evolves.
    + apply Forall_forall. intros l Hl Hid. exfalso. apply Hi. left. cbn [drawn_by]. destruct Hfr as [->| ->]; [by apply not_elem_of_nil in Hl|].
      rewrite <-Hid. by apply list_elem_of_fmap_2.
Qed.

(** A revocation on its way carries its link withdrawn. *)
Definition carries (x : Io * StoreOp * list ShareLink) : Prop :=
  match x with
  | (_, OpRevoke _ wanted, links) => exists l, l ∈ links /\ id l = wanted /\ revoked_at l <> None
  | _ => True
  end.
Lemma carries_race es r r' :
  map_Forall (fun _ => carries) (flight r) -> race es r = Some r' -> map_Forall (fun _ => carries) (flight r').
Proof.
  revert r. induction es as [|e es IH]; intros r Hf; cbn [race]; [by intros [= <-]|].
  destruct (race_step e r) as [r1|] eqn:E; [|done]. apply IH. destruct e as [p io op|p]; cbn [race_step] in E.
  - destruct (flight r !! p); [done|]. injection E as <-. cbn [flight]. destruct (decide_op io op (disk r)) as [links|] eqn:Ed; [|done].
    apply map_Forall_insert_2; [|done]. destruct op as [|now wanted|]; try done. unfold decide_op in Ed.
    destruct (load s io (disk r)) as [old|]; [|done]. destruct (find_mut _ old) as [[[b l] a]|] eqn:Ef; [|done].
    apply find_mut_Some in Ef as (_ & Hid & _). apply String.eqb_eq in Hid. destruct (is_some _); [done|]. injection Ed as <-.
    exists (with_revoked now l). split; [set_solver|]. by split.
  - destruct (flight r !! p) as [[[io op] links]|]; [|done]. injection E as <-. cbn [flight]. by apply map_Forall_delete.
Qed.

(** With distinct ids, a list that has the link withdrawn once has it withdrawn altogether. *)
Lemma all_withdrawn links l : NoDup (map id links) -> l ∈ links -> revoked_at l <> None -> Forall (withdrawn (id l)) links.
Proof.
  intros Hn Hl Hr. apply Forall_forall. intros l' Hl' Hid. replace l' with l; [done|].
  apply list_elem_of_lookup in Hl as [i Hi], Hl' as [j Hj].
  assert (i = j) as ->; [|congruence]. apply (NoDup_lookup (map id links) i j (id l)); [done|..].
  - by rewrite (list_lookup_fmap id), Hi.
  - by rewrite (list_lookup_fmap id), Hj, <-Hid.
Qed.

(** ** Properties *)

(** C18: a revocation is final.  At whatever moment of an interleaved history [link-revoke] writes its
    records and reports success, no presentation of any token or session cookie that reads the file later
    redeems that link, whatever other processes do from then on and however their reads and writes
    interleave -- provided that no other operation stands between its read and its write at that
    moment ([stale_write_unrevokes] is why), and that the drawn ids are distinct. *)
Theorem revocation_is_final es1 es2 p io now wanted links r1 r2 io' now' token via secret red d ev :
  NoDup (map id (drawn (es1 ++ es2))) ->
  race es1 start = Some r1 -> flight r1 = {[ p := (io, OpRevoke now wanted, links) ]} ->
  is_ok (save s io links now (disk r1)).1 = true ->
  race (Writes p :: es2) r1 = Some r2 ->
  redeem_at s io' now' token via secret (disk r2) = (Ok red, d, ev) ->
  redeemed_id red <> wanted.
Proof.
  intros Hnd H1 Hf Hok H2 Hr. rewrite drawn_app, map_app in Hnd. apply NoDup_app in Hnd as (Hn1 & Hdis & Hn2).
  assert (Hstart : everywhere (ids_from []) start).
  { split; [exists []; split; [done|split; [constructor|intros i []%not_elem_of_nil]]|]. apply map_Forall_empty. }
  destruct (ids_race es1 [] start r1 Hn1) as [_ Hids]; try done; [intros i _; apply not_elem_of_nil|].
  assert (Hp : flight r1 !! p = Some (io, OpRevoke now wanted, links)) by (rewrite Hf; apply lookup_singleton_eq).
  destruct (Hids p _ Hp) as [Hnl Hin]. cbn in Hnl, Hin.
  destruct (carries_race es1 start r1 (map_Forall_empty _) H1 p _ Hp) as (l & Hl & <- & Hrev).
  pose proof (all_withdrawn links l Hnl Hl Hrev) as Hw.
  cbn [race race_step] in H2. rewrite Hp in H2. cbn [op_time] in H2.
  destruct (save s io links now (disk r1)) as [res d1] eqn:Es. cbn in Hok, H2. destruct (save_spec s _ _ _ _ _ _ Es) as [Hc|[_ Hbad]]; [|congruence].
  assert (Hev : everywhere (Forall (withdrawn (id l))) {| disk := d1; flight := delete p (flight r1) |}).
  { split; [eexists; split; [exact Hc|by apply filter_Forall]|]. cbn. rewrite Hf, delete_singleton_eq. apply map_Forall_empty. }
  assert (Hnew : id l ∉ map id (drawn es2)) by (intros Hi; apply (Hdis (id l)); [apply Hin, list_elem_of_fmap_2|]; done).
  destruct (withdrawn_race (id l) es2 _ r2 Hnew Hev H2) as [(l2s & Hc2 & Hw2) _].
  destruct (redeem_ok s _ _ _ _ _ _ _ _ _ Hr) as (l2s' & b2 & l2 & a2 & Hc2' & -> & _ & _ & Hr2 & _ & _ & -> & _).
  rewrite Hc2 in Hc2'. injection Hc2' as ->. rewrite Forall_forall in Hw2. intros Ei. apply (Hw2 l2); [set_solver|done|done].
Qed.
End Races.

(** ** On a concrete history *)

(** A link is minted and revoked; then another link is minted while a third operation, which read before,
    has still to write; a presentation of the other link reads the file and succeeds. *)
#[local] Definition before : list RaceEvent :=
  [Reads 1 io_ok (OpMint 1000 3600 false "guest" (demo_bytes Byte.x01) (replicate 6 Byte.x0a)); Writes 1;
   Reads 2 io_ok (OpRevoke 1010 "0a0a0a0a0a0a")].
#[local] Definition after : list RaceEvent :=
  [Reads 3 io_ok (OpMint 1020 60 false "lost" (demo_bytes Byte.x06) (replicate 6 Byte.x0c));
   Reads 4 io_ok (OpMint 1020 60 false "other" (demo_bytes Byte.x02) (replicate 6 Byte.x0b)); Writes 3; Writes 4].
#[local] Definition reading : Store := default start (race demo_store before start).
#[local] Definition revoked_links : list ShareLink := match flight reading !! 2%nat with Some (_, _, l) => l | None => [] end.
#[local] Definition afterwards : Store := default start (race demo_store (Writes 2 :: after) reading).
#[local] Definition presented := redeem_at demo_store io_ok 1040 (hex_encode (demo_bytes Byte.x02)) Query (demo_bytes Byte.x05) (disk afterwards).

Lemma revocation_is_final_witness :
  exists red d ev, presented = (Ok red, d, ev) /\ redeemed_id red <> "0a0a0a0a0a0a" /\
    (redeem_at demo_store io_ok 1040 demo_token Query (demo_bytes Byte.x05) (disk afterwards)).1.1 = Err Revoked.
Proof.
  assert (Hs : is_ok presented.1.1 = true) by (vm_compute; reflexivity).
  destruct presented as [[[red|e] d] ev] eqn:E; [|discriminate]. exists red, d, ev. split; [reflexivity|]. split; [|vm_compute; reflexivity].
  apply (revocation_is_final demo_store before after 2 io_ok 1010 "0a0a0a0a0a0a" revoked_links reading afterwards io_ok 1040
           (hex_encode (demo_bytes Byte.x02)) Query (demo_bytes Byte.x05) red d ev); [|vm_compute; reflexivity..|exact E].
  apply (bool_decide_unpack _). vm_compute. exact I.
Defined.
