(* ===== verification/LocalAuth.v ===== *)
(** * LocalAuth: the credential gate in front of a local service ([local_auth.rs], [serve.rs])

    The stored credential and its rate limiter, what is read out of an HTTP request head, the answer
    to a share link ([ShareLinks]), and [run_local_auth_gate], which decides whether a connection
    reaches the Origin.  Clock readings, random bytes, files and the encrypted stream are inputs;
    base64 is another crate's: [AuthOps].  Times are unix seconds. *)
From S2P Require Import Prelude Text Codec Net ShareLinks.

#[local] Open Scope Z_scope.

(** [base64::STANDARD.decode]. *)
Class AuthOps := { base64_decode : string -> option (list byte) }.

Inductive GateMode := Off | Http | TextChallenge.
#[global] Instance GateMode_eq_dec : EqDecision GateMode.
Proof. solve_decision. Defined.

Definition unenforced_gate_warning (mode : GateMode) (udp_origin browser_forward : bool) : option string :=
  if bool_decide (mode = Off) || negb (udp_origin || browser_forward) then None
  else
    let what := if browser_forward then "browser mode (CT_AGENT_MODE=browser)" else "a UDP Origin" in
    Some ("ct-agent: WARNING: CT_AGENT_LOCAL_AUTH is set but is NOT enforced for " +:+ what
          +:+ " -- every client that reaches this agent reaches the Origin unchecked. Unset it, or protect the Origin itself.")%string.

Definition parse_mode (s : string) : result GateMode string :=
  let s := to_ascii_lowercase (trim s) in
  let named x := String.eqb s x in
  if named "http" then Ok Http
  else if named "text" || named "textchallenge" || named "text-challenge" then Ok TextChallenge
  else if named "" || named "off" || named "0" || named "false" then Ok Off
  else Err ("invalid CT_AGENT_LOCAL_AUTH '" +:+ s +:+ "' (expected http|text|off)")%string.

(** ** The credential *)

Record StoredCredential := { username : string; salt : list byte; hash : list byte }.

Section Credential.
Context `{LinkOps}.

Definition hash_credential (salt password : list byte) : list byte := sha256 (salt ++ password).

(** [new] with the salt drawn. *)
Definition new_credential (username : string) (password salt : list byte) : StoredCredential :=
  {| username := username; salt := salt; hash := hash_credential salt password |}.

(** [generate] with the token's bytes and the salt drawn: the credential and the token. *)
Definition generate (token_bytes salt : list byte) : StoredCredential * string :=
  let token := base64url token_bytes in
  (new_credential "agent" (as_bytes token) salt, token).

Definition verify_password (c : StoredCredential) (attempt : list byte) : bool :=
  ct_eq (hash c) (hash_credential (salt c) attempt).

Definition verify_credential (c : StoredCredential) (user : string) (attempt : list byte) : bool :=
  if negb (String.eqb (username c) user) then false else verify_password c attempt.
End Credential.

Definition serialize (c : StoredCredential) : string :=
  (username c +:+ ":" +:+ hex_encode (salt c) +:+ ":" +:+ hex_encode (hash c))%string.

Definition hex_decode_fixed (n : nat) (s : string) : result (list byte) string :=
  ok_or (hex_decode n s)
    ("expected " +:+ show (Z.of_nat n * 2) +:+ " hex chars, got " +:+ show (str_len s))%string.

Definition parse_credential (line : string) : result StoredCredential string :=
  let* (username, rest) := ok_or (split_once ":" (trim line)) "missing salt field" in
  let* (salt_hex, hash_hex) := ok_or (split_once ":" rest) "missing hash field" in
  let* salt := map_err (fun e => "invalid salt: " +:+ e)%string (hex_decode_fixed 16 salt_hex) in
  let* hash := map_err (fun e => "invalid hash: " +:+ e)%string (hex_decode_fixed 32 hash_hex) in
  Ok {| username := username; salt := salt; hash := hash |}.

(** ** The rate limiter *)

Record RateLimiter := { failures : Z; window_start_secs : Z; locked_until_secs : Z }.

Definition MAX_FAILURES : Z := 5.
Definition WINDOW : Z := 60.
Definition LOCKOUT : Z := 30.

Inductive RateLimitVerdict := Allowed | Locked (retry_after_secs : Z).

Definition new_limiter : RateLimiter :=
  {| failures := 0; window_start_secs := 0; locked_until_secs := 0 |}.

Definition check (now : Z) (l : RateLimiter) : RateLimitVerdict :=
  if now <? locked_until_secs l then Locked (locked_until_secs l - now) else Allowed.

Definition record (now : Z) (success : bool) (l : RateLimiter) : RateLimiter :=
  if success then {| failures := 0; window_start_secs := 0; locked_until_secs := locked_until_secs l |}
  else if (window_start_secs l =? 0) || (WINDOW <? sat_sub now (window_start_secs l)) then
    {| failures := 1; window_start_secs := now; locked_until_secs := locked_until_secs l |}
  else
    let count := failures l + 1 in
    {| failures := wrap 32 count; window_start_secs := window_start_secs l;
       locked_until_secs := if MAX_FAILURES <=? wrap 32 count then now + LOCKOUT else locked_until_secs l |}.

(** ** HTTP request heads *)

Definition MAX_HEADER_BYTES : nat := 8 * 1024.

(** [windows(needle.len()).position(..)], for a needle that is not empty. *)
Fixpoint find_subslice (haystack needle : list byte) : option nat :=
  if bool_decide (take (length needle) haystack = needle) then Some O
  else match haystack with
       | [] => None
       | _ :: haystack => let? i := find_subslice haystack needle in Some (S i)
       end.

Definition CR : ascii := "013".
Definition LF : ascii := "010".
Definition CRLF : string := String CR (String LF "").

(** [str::split("\r\n")]. *)
Fixpoint split_crlf (s : string) : list string :=
  match s with
  | EmptyString => [EmptyString]
  | String a s1 =>
      let rest := match split_crlf s1 with x :: xs => String a x :: xs | [] => [String a EmptyString] end in
      if Ascii.eqb a CR then
        match s1 with
        | String b s2 => if Ascii.eqb b LF then EmptyString :: split_crlf s2 else rest
        | EmptyString => rest
        end
      else rest
  end.

(** The text in front of the first blank line, within the bound. *)
Definition head_of (buf : list byte) : option string :=
  let scan := take MAX_HEADER_BYTES buf in
  let? end_ := find_subslice scan (as_bytes (CRLF +:+ CRLF)%string) in
  let head := take end_ scan in
  if utf8_valid head then Some (String.string_of_list_byte head) else None.

Section BasicAuth.
Context `{AuthOps}.

Fixpoint authorization (lines : list string) : option (string * list byte) :=
  match lines with
  | [] => None
  | line :: lines =>
      let? (name, value) := split_once ":" line in
      if negb (eq_ignore_ascii_case (trim name) "authorization") then authorization lines
      else
        let? b64 := strip_prefix "Basic " (trim value) in
        let? decoded := base64_decode b64 in
        if utf8_valid decoded then
          let? (user, pass) := split_once ":" (String.string_of_list_byte decoded) in
          Some (user, as_bytes pass)
        else None
  end.

Definition parse_basic_auth (buf : list byte) : option (string * list byte) :=
  let? head := head_of buf in authorization (drop 1 (split_crlf head)).
End BasicAuth.

Record RequestHead := { method : string; target : string; headers : list (string * string) }.

Definition parse_request_head (buf : list byte) : option RequestHead :=
  let? head := head_of buf in
  match split_crlf head with
  | [] => None
  | request_line :: lines =>
      match List.filter (fun p => negb (is_empty p)) (split_char " " request_line) with
      | method :: target :: _ =>
          Some {| method := method; target := target;
                  headers := map (fun '(n, v) => (trim n, trim v)) (omap (split_once ":") lines) |}
      | _ => None
      end
  end.

(** [pair.split_once('=').unwrap_or((pair, ""))]. *)
Definition key_value (pair : string) : string * string := default (pair, EmptyString) (split_once "=" pair).
Definition is_link_pair (pair : string) : bool := String.eqb (key_value pair).1 LINK_QUERY_PARAM.

Definition link_token_in_target (target : string) : option (string * string) :=
  let? (path, query) := split_once "?" target in
  let pairs := split_char "&" query in
  let rest := List.filter (fun p => negb (is_link_pair p) && negb (is_empty p)) pairs in
  let? token := head (map (fun p => (key_value p).2) (List.filter is_link_pair pairs)) in
  let stripped := match rest with [] => path | _ => (path +:+ "?" +:+ String.concat "&" rest)%string end in
  Some (token, stripped).

Definition link_token_in_cookies (h : RequestHead) : option string :=
  let values := map snd (List.filter (fun '(n, _) => eq_ignore_ascii_case n "cookie") (headers h)) in
  let cookies := omap (fun c => split_once "=" (trim c)) (concat (map (split_char ";") values)) in
  let? (_, v) := head (List.filter (fun '(n, _) => String.eqb (trim n) LINK_COOKIE_NAME) cookies) in
  Some (trim v).

(** ** What the gate writes back *)

Definition http_401_challenge : string :=
  ("HTTP/1.1 401 Unauthorized" +:+ CRLF +:+ "WWW-Authenticate: Basic realm=" +:+ debug_str "ct-agent" +:+ CRLF
   +:+ "Content-Length: 0" +:+ CRLF +:+ "Connection: close" +:+ CRLF +:+ CRLF)%string.
Definition TEXT_CHALLENGE_PROMPT : string := "Password: ".
Definition TEXT_CHALLENGE_DENIED : string := ("Access denied." +:+ CRLF)%string.

Definition is_ascii_control (c : ascii) : bool := (code c <=? 31) || (code c =? 127).
Definition is_prefix (p s : string) : bool := is_some (strip_prefix p s).

Definition same_origin_path (location : string) : bool :=
  is_prefix "/" location && negb (is_prefix "//" location) && negb (is_prefix "/\" location).

Definition http_302_link_redirect (location session : string) (max_age_secs : Z) : string :=
  let safe_location :=
    if negb (same_origin_path location)
       || existsb (fun b => is_ascii_control b || Ascii.eqb b " ") (String.list_ascii_of_string location)
    then "/"%string else location in
  let session := if looks_like_link_token session then session else EmptyString in
  ("HTTP/1.1 302 Found" +:+ CRLF
   +:+ "Location: " +:+ safe_location +:+ CRLF
   +:+ "Set-Cookie: " +:+ LINK_COOKIE_NAME +:+ "=" +:+ session
   +:+ "; Path=/; HttpOnly; Secure; SameSite=Lax; Max-Age=" +:+ show max_age_secs +:+ CRLF
   +:+ "Cache-Control: no-store" +:+ CRLF
   +:+ "Content-Length: 0" +:+ CRLF
   +:+ "Connection: close" +:+ CRLF +:+ CRLF)%string.

(** ** The gate *)

Record LocalAuthGate := {
  mode : GateMode; credential : option StoredCredential; limiter : RateLimiter; link_limiter : RateLimiter;
  links : option LinkStore
}.
Definition with_limiter (l : RateLimiter) (g : LocalAuthGate) : LocalAuthGate :=
  {| mode := mode g; credential := credential g; limiter := l; link_limiter := link_limiter g; links := links g |}.
Definition with_link_limiter (l : RateLimiter) (g : LocalAuthGate) : LocalAuthGate :=
  {| mode := mode g; credential := credential g; limiter := limiter g; link_limiter := l; links := links g |}.

Inductive GateRejection := BadCredential | RateLimited (retry_after_secs : Z).
Inductive LinkGateVerdict :=
| NotPresented | Authenticated (id : string) | Redirect (response : string) (id : string) | Rejected (why : LinkRejection).
Inductive GateOutcome := Proceed (prefix : option (list byte)) | Closed.

(** What surrounds one connection: the client's message, whether writing to it works, the links file,
    the wall clock, and the limiter's clock when it is asked and when the attempt is recorded. *)
Record Client := {
  message : result (list byte) string; answer : string -> result unit string; io : Io;
  unix_now : Z; asked_at : Z; recorded_at : Z; drawn : list byte
}.

Section Gate.
Context `{LinkOps} `{AuthOps}.

(** [verify] and [verify_password_only]; [ok] is the credential check, which a lockout skips. *)
Definition limited (w : Client) (ok : option StoredCredential -> bool) (g : LocalAuthGate)
  : result unit GateRejection * LocalAuthGate :=
  match check (asked_at w) (limiter g) with
  | Locked s => (Err (RateLimited s), g)
  | Allowed =>
      let ok := ok (credential g) in
      let g := with_limiter (record (recorded_at w) ok (limiter g)) g in
      (if ok then Ok tt else Err BadCredential, g)
  end.
Definition verify (w : Client) (user : string) (password : list byte) : LocalAuthGate ->
    result unit GateRejection * LocalAuthGate :=
  limited w (fun c => match c with Some c => verify_credential c user password | None => false end).
Definition verify_password_only (w : Client) (password : list byte) : LocalAuthGate ->
    result unit GateRejection * LocalAuthGate :=
  limited w (fun c => match c with Some c => verify_password c password | None => false end).

(** The token a request presents, how, and the target without it. *)
Definition presented (head : RequestHead) : option (string * LinkPresentation * option string) :=
  match link_token_in_target (target head) with
  | Some (token, stripped) => Some (token, Query, Some stripped)
  | None =>
      match link_token_in_cookies head with
      | Some token => Some (token, Cookie, None)
      | None => None
      end
  end.

Definition check_share_link_at (w : Client) (request : list byte) (g : LocalAuthGate) (d : Disk)
  : LinkGateVerdict * LocalAuthGate * Disk * list string :=
  match links g with
  | None => (NotPresented, g, d, [])
  | Some store =>
      match (let? head := parse_request_head request in presented head) with
      | None => (NotPresented, g, d, [])
      | Some (token, via, stripped) =>
          match (if is_query via then check (asked_at w) (link_limiter g) else Allowed) with
          | Locked s => (Rejected (LinkRateLimited s), g, d, [])
          | Allowed =>
              match redeem_at store (io w) (unix_now w) token via (drawn w) d with
              | (Err e, d, ev) =>
                  let g := if is_query via
                           then with_link_limiter (record (recorded_at w) false (link_limiter g)) g else g in
                  (Rejected e, g, d, ev)
              | (Ok r, d, ev) =>
                  match stripped, session r with
                  | Some location, Some sess =>
                      (Redirect (http_302_link_redirect location sess (remaining_secs r)) (redeemed_id r), g, d, ev)
                  | _, _ => (Authenticated (redeemed_id r), g, d, ev)
                  end
              end
          end
      end
  end.

(** [strip_suffix("\r\n").or_else(strip_suffix("\n")).unwrap_or(bytes)]. *)
Definition trim_trailing_line_ending (bytes : list byte) : list byte :=
  match reverse bytes with
  | Byte.x0a :: Byte.x0d :: r => reverse r
  | Byte.x0a :: r => reverse r
  | _ => bytes
  end.

(** The outcome, the gate and the links file afterwards, and what was written to the client. *)
Definition run_local_auth_gate (w : Client) (g : LocalAuthGate) (d : Disk)
  : result GateOutcome string * LocalAuthGate * Disk * list string :=
  let reject g d why :=
    (let* _ := answer w http_401_challenge in Err why, g, d, [http_401_challenge]) in
  match mode g with
  | Off => (Ok (Proceed None), g, d, [])
  | Http =>
      match message w with
      | Err e => (Err e, g, d, [])
      | Ok plaintext =>
          match parse_basic_auth plaintext with
          | Some (user, pass) =>
              match verify w user pass g with
              | (Ok _, g) => (Ok (Proceed (Some plaintext)), g, d, [])
              | (Err _, g) => reject g d "local-auth gate: HTTP credential rejected"%string
              end
          | None =>
              let '(verdict, g, d, _) := check_share_link_at w plaintext g d in
              match verdict with
              | Authenticated _ => (Ok (Proceed (Some plaintext)), g, d, [])
              | Redirect response _ => (let* _ := answer w response in Ok Closed, g, d, [response])
              | Rejected why =>
                  reject g d ("local-auth gate: share link rejected (" +:+ show_rejection why +:+ ")")%string
              | NotPresented => reject g d "local-auth gate: HTTP credential rejected"%string
              end
          end
      end
  | TextChallenge =>
      match (let* _ := answer w TEXT_CHALLENGE_PROMPT in message w) with
      | Err e => (Err e, g, d, [TEXT_CHALLENGE_PROMPT])
      | Ok attempt =>
          match verify_password_only w (trim_trailing_line_ending attempt) g with
          | (Ok _, g) => (Ok (Proceed None), g, d, [TEXT_CHALLENGE_PROMPT])
          | (Err _, g) =>
              (let* _ := answer w TEXT_CHALLENGE_DENIED in
               Err "local-auth gate: text-challenge credential rejected"%string,
               g, d, [TEXT_CHALLENGE_PROMPT; TEXT_CHALLENGE_DENIED])
          end
      end
  end.

(** ** Resolving the gate at startup *)

Definition CREDENTIAL_FILENAME : string := "local-auth.hash".
Definition credential_path (state_dir : string) : string := join state_dir CREDENTIAL_FILENAME.
Definition show_mode (m : GateMode) : string :=
  match m with Off => "Off" | Http => "Http" | TextChallenge => "TextChallenge" end.

(** What [from_env] asks of the file system, and the random bytes it draws. *)
Record Startup := {
  read_to_string : string -> result string string; file_mode : string -> result Z string;
  exists_ : string -> bool; create_dir_all : string -> result unit string; make_private : string -> result unit string;
  write_private : string -> string -> result unit string; token_drawn : list byte; salt_drawn : list byte
}.

(** [{:o}] of the permission bits. *)
Definition octal3 (m : Z) : string :=
  (show (m / 64 mod 8) +:+ show (m / 8 mod 8) +:+ show (m mod 8))%string.
Definition show_octal (m : Z) : string :=
  if m <? 8 then show m else if m <? 64 then (show (m / 8) +:+ show (m mod 8))%string else octal3 m.

Definition check_file_not_group_or_world_readable (f : Startup) (path : string) : result unit string :=
  let* m := file_mode f path in
  if negb (Z.land m 63 =? 0) then
    Err ("CT_AGENT_LOCAL_AUTH_FILE " +:+ debug_str path +:+ " is readable by group/other (mode "
         +:+ show_octal (Z.land m 511) +:+ ") -- chmod 600 it before running the Agent")%string
  else Ok tt.

Definition from_env (f : Startup) (state_dir : option string) (get : string -> option string)
  : result (LocalAuthGate * option string) string :=
  let* mode := match get "CT_AGENT_LOCAL_AUTH"%string with Some s => parse_mode s | None => Ok Off end in
  let gate c l := {| mode := mode; credential := c; limiter := new_limiter; link_limiter := new_limiter; links := l |} in
  if bool_decide (mode = Off) then Ok (gate None None, None)
  else
    let links := option_map new_store state_dir in
    match get "CT_AGENT_LOCAL_AUTH_FILE"%string with
    | Some file =>
        let named e := ("CT_AGENT_LOCAL_AUTH_FILE '" +:+ file +:+ "': " +:+ e)%string in
        let* contents := map_err named (read_to_string f file) in
        let* _ := check_file_not_group_or_world_readable f file in
        let* credential := map_err named (parse_credential (trim contents)) in
        Ok (gate (Some credential) links, None)
    | None =>
        let* dir := ok_or state_dir "CT_AGENT_LOCAL_AUTH is set but neither CT_AGENT_LOCAL_AUTH_FILE nor CT_AGENT_STATE_DIR is -- nowhere to store the generated credential"%string in
        let path := credential_path dir in
        if exists_ f path then
          let* contents := read_to_string f path in
          let* credential := parse_credential (trim contents) in
          Ok (gate (Some credential) links, None)
        else
          let '(credential, token) := generate (token_drawn f) (salt_drawn f) in
          let* _ := create_dir_all f dir in
          let* _ := write_private f path (serialize credential) in
          let notice :=
            ("ct-agent: generated a local-auth credential for this tunnel (mode=" +:+ show_mode mode +:+ ")."
             +:+ String LF (String LF "    username: ") +:+ username credential
             +:+ String LF "    password: " +:+ token
             +:+ String LF (String LF "This is shown ONCE -- it is not stored in recoverable form. If you lose it, run `ct-agent local-auth reset` to generate a new one."))%string in
          Ok (gate (Some credential) links, Some notice)
    end.

(** [local-auth set] and [local-auth reset]: what they write, and what is printed. *)
Definition write_credential (f : Startup) (state_dir : string) (c : StoredCredential) : result unit string :=
  let* _ := create_dir_all f state_dir in
  let* _ := make_private f state_dir in
  write_private f (credential_path state_dir) (serialize c).
Definition set_credential (f : Startup) (state_dir username password : string) : result unit string :=
  write_credential f state_dir (new_credential username (as_bytes password) (salt_drawn f)).
Definition reset_credential (f : Startup) (state_dir : string) : result string string :=
  let '(c, token) := generate (token_drawn f) (salt_drawn f) in
  let* _ := write_credential f state_dir c in
  Ok ("username: " +:+ username c +:+ String LF "password: " +:+ token)%string.
End Gate.

(** ** The command line *)

Definition PASSWORD_ENV : string := "CT_LOCAL_AUTH_PASSWORD".

Definition password_is_from_argv (argv : option string) : bool :=
  match argv with Some s => negb (String.eqb s "-") | None => false end.
Definition password_needs_stdin (argv : option string) (env_is_set : bool) : bool :=
  match argv with
  | Some s => String.eqb s "-"
  | None => negb env_is_set
  end.

(** [read_line]: the first line with its terminator; [Ok None] at the end of the input. *)
Definition read_first_line (stdin : result (option string) string) : result string string :=
  let* line := map_err (fun e => "local-auth set: reading the password from stdin failed: " +:+ e)%string stdin in
  ok_or line ("local-auth set: no password on stdin (EOF) -- pipe it on stdin or set " +:+ PASSWORD_ENV)%string.

Definition resolve_password (argv env : option string) (stdin : result (option string) string) : result string string :=
  let* (raw, source) :=
    match argv with
    | Some s =>
        if negb (String.eqb s "-") then Ok (s, "the command line"%string)
        else let* line := read_first_line stdin in Ok (line, "stdin"%string)
    | None =>
        match env with
        | Some v => Ok (v, PASSWORD_ENV)
        | None => let* line := read_first_line stdin in Ok (line, "stdin"%string)
        end
    end in
  let password := trim raw in
  if is_empty password then
    Err ("local-auth set: the password from " +:+ source +:+ " is empty -- pipe it on stdin (`local-auth set <user> -`) or set "
         +:+ PASSWORD_ENV)%string
  else Ok password.

(** [find(|c| !c.is_ascii_digit())] and the split there. *)
Fixpoint split_digits (s : string) : string * string :=
  match s with
  | String c rest =>
      if is_ascii_digit c then let '(num, unit) := split_digits rest in (String c num, unit)
      else (EmptyString, s)
  | EmptyString => (EmptyString, EmptyString)
  end.

Definition parse_ttl (s : string) : result Z string :=
  let s := trim s in
  let '(num, unit) := split_digits s in
  let unit := trim unit in
  let* n := ok_or (parse_uint U64_MAX num) ("invalid --ttl '" +:+ s +:+ "' (expected e.g. 1h, 24h, 7d or 3600s)")%string in
  let* mult :=
    if String.eqb unit "" || String.eqb unit "s" then Ok 1
    else if String.eqb unit "m" then Ok 60
    else if String.eqb unit "h" then Ok 3600
    else if String.eqb unit "d" then Ok 86400
    else Err ("invalid --ttl unit '" +:+ unit +:+ "' in '" +:+ s +:+ "' (expected s, m, h or d)")%string in
  let* secs := if n * mult <=? U64_MAX then Ok (n * mult) else Err ("--ttl '" +:+ s +:+ "' overflows")%string in
  if secs =? 0 then Err "--ttl must be positive"%string
  else if MAX_LINK_TTL <? secs then
    Err ("--ttl '" +:+ s +:+ "' exceeds the " +:+ show (MAX_LINK_TTL / 86400) +:+ "-day maximum")%string
  else Ok secs.

Definition format_ttl (s : Z) : string :=
  if (0 <? s) && (s mod 86400 =? 0) then (show (s / 86400) +:+ "d")%string
  else if (0 <? s) && (s mod 3600 =? 0) then (show (s / 3600) +:+ "h")%string
  else if (0 <? s) && (s mod 60 =? 0) then (show (s / 60) +:+ "m")%string
  else (show s +:+ "s")%string.

Record LinkArgs := { ttl : Z; single : bool; label_text : string }.
Definition LINK_USAGE : string :=
  "usage: ct-agent local-auth link --ttl <1h|24h|7d|<n>s> [--once] [--label <text>]".
Definition with_usage (e : string) : string := (e +:+ String LF LINK_USAGE)%string.

(** The loop of [parse_link_args]. *)
Fixpoint link_args (args : list string) (ttl : option Z) (single : bool) (label : string)
  : result (option Z * bool * string) string :=
  match args with
  | [] => Ok (ttl, single, label)
  | arg :: args =>
      if String.eqb arg "--ttl" then
        match args with
        | v :: args => let* t := map_err with_usage (parse_ttl v) in link_args args (Some t) single label
        | [] => Err (with_usage "--ttl needs a value")
        end
      else if String.eqb arg "--once" then link_args args ttl true label
      else if String.eqb arg "--label" then
        match args with
        | v :: args => link_args args ttl single v
        | [] => Err (with_usage "--label needs a value")
        end
      else
        match strip_prefix "--ttl=" arg, strip_prefix "--label=" arg with
        | Some v, _ => let* t := map_err with_usage (parse_ttl v) in link_args args (Some t) single label
        | None, Some v => link_args args ttl single v
        | None, None => Err (with_usage ("unexpected argument '" +:+ arg +:+ "'")%string)
        end
  end.
Definition parse_link_args (args : list string) : result LinkArgs string :=
  let* (ttl, single, label) := link_args args None false EmptyString in
  let* ttl := ok_or ttl (with_usage "--ttl is required") in
  Ok {| ttl := ttl; single := single; label_text := label |}.

Definition url_with_placeholder_host (m : MintedLink) : string :=
  ("https://<your-hostname>/?" +:+ LINK_QUERY_PARAM +:+ "=" +:+ minted_token m)%string.

(** ** Who gets in *)

Section GateFacts.
Context `{LinkOps} `{AuthOps}.

(** The limiter lets the attempt through, and the password is the stored one. *)
Definition knows (w : Client) (g : LocalAuthGate) (user : option string) (password : list byte) : Prop :=
  check (asked_at w) (limiter g) = Allowed /\
  exists c, credential g = Some c /\ match user with Some u => username c = u | None => True end /\
    hash c = hash_credential (salt c) password.

(** The request carries the cookie of a session that works, and no link token in its target. *)
Definition in_session (w : Client) (g : LocalAuthGate) (d : Disk) (request : list byte) : Prop :=
  exists store head sess r d' ev, links g = Some store /\ parse_request_head request = Some head /\
    link_token_in_target (target head) = None /\ link_token_in_cookies head = Some sess /\
    redeem_at store (io w) (unix_now w) sess Cookie (drawn w) d = (Ok r, d', ev).

Lemma verify_password_spec c attempt :
  verify_password c attempt = true <-> hash c = hash_credential (salt c) attempt.
Proof. apply ct_eq_spec. Qed.

Lemma limited_ok w ok g : (limited w ok g).1 = Ok tt <-> check (asked_at w) (limiter g) = Allowed /\ ok (credential g) = true.
Proof.
  unfold limited. destruct (check _ _); [|split; [done|by intros [? _]]].
  destruct (ok _); simpl; naive_solver.
Qed.

Lemma verify_ok w user pass g : (verify w user pass g).1 = Ok tt <-> knows w g (Some user) pass.
Proof.
  unfold verify, knows. rewrite limited_ok. apply and_iff_compat_l.
  destruct (credential g) as [c|]; [|naive_solver]. unfold verify_credential.
  destruct (String.eqb_spec (username c) user) as [Heq|Hne]; simpl.
  - rewrite verify_password_spec. naive_solver.
  - naive_solver.
Qed.

Lemma verify_password_only_ok w pass g : (verify_password_only w pass g).1 = Ok tt <-> knows w g None pass.
Proof.
  unfold verify_password_only, knows. rewrite limited_ok. apply and_iff_compat_l.
  destruct (credential g) as [c|]; [|naive_solver]. rewrite verify_password_spec. naive_solver.
Qed.

Lemma redeem_session store io now token via secret d r d' ev :
  redeem_at store io now token via secret d = (Ok r, d', ev) ->
  session r = (if is_query via then Some (base64url secret) else None).
Proof.
  unfold redeem_at. destruct (negb _); [done|]. destruct (load _ _ _) as [ls|]; [|done].
  destruct (redeem_links _ _ _ _ _) as [[[r0 l0] s0]|] eqn:Er; [|done].
  destruct (if is_query via then _ else _) as [[u|] d1]; [|done]. intros [= <- <- <-].
  apply redeem_links_ok in Er as (b & l & a & _ & _ & _ & _ & _ & _ & _ & _ & _ & -> & _). done.
Qed.

Lemma authenticated_iff w request g d :
  (exists i, (check_share_link_at w request g d).1.1.1 = Authenticated i) <-> in_session w g d request.
Proof.
  unfold check_share_link_at, in_session. split.
  - intros [i Hv]. destruct (links g) as [store|]; [|done].
    destruct (parse_request_head request) as [head|]; [|done]. unfold presented in Hv.
    destruct (link_token_in_target (target head)) as [[token stripped]|] eqn:Et; simpl in Hv.
    + destruct (check _ _); [|done]. destruct (redeem_at _ _ _ _ _ _ _) as [[[r|e] d'] ev] eqn:Er; [|done].
      apply redeem_session in Er. rewrite Er in Hv. done.
    + destruct (link_token_in_cookies head) as [sess|] eqn:Ec; [|done]. simpl in Hv.
      destruct (redeem_at _ _ _ _ _ _ _) as [[[r|e] d'] ev] eqn:Er; [|done]. by eauto 15.
  - intros (store & head & sess & r & d' & ev & -> & -> & Et & Ec & Er). unfold presented.
    rewrite Et, Ec. simpl. rewrite Er. destruct (session r); eexists; reflexivity.
Qed.

Lemma reject_fails {A} (x : result unit string) (why : string) (p : A) : (let* _ := x in Err why) <> Ok p.
Proof. by destruct x. Qed.

(** a connection reaches the Origin exactly when it may: with the gate off; in HTTP mode with the
    stored user and password in the request's Authorization header while the limiter is open, or
    without such a header and with the cookie of a working share-link session; in text mode with the
    stored password in answer to the prompt.  What was read of an HTTP connection is handed on
    unchanged. *)
Theorem gate_lets_in_iff w g d p :
  (run_local_auth_gate w g d).1.1.1 = Ok (Proceed p) <->
  match mode g with
  | Off => p = None
  | Http => exists request, message w = Ok request /\ p = Some request /\
      match parse_basic_auth request with
      | Some (user, pass) => knows w g (Some user) pass
      | None => in_session w g d request
      end
  | TextChallenge => p = None /\ answer w TEXT_CHALLENGE_PROMPT = Ok tt /\
      exists attempt, message w = Ok attempt /\ knows w g None (trim_trailing_line_ending attempt)
  end.
Proof.
  unfold run_local_auth_gate. destruct (mode g).
  - simpl. naive_solver.
  - destruct (message w) as [request|e]; [|naive_solver].
    destruct (parse_basic_auth request) as [[user pass]|] eqn:Eb.
    + pose proof (verify_ok w user pass g) as Hv. destruct (verify w user pass g) as [[[]|e] g'].
      * simpl in *. split; [intros [= <-]|intros (x & [= <-] & -> & _); done].
        exists request. rewrite Eb. split_and!; [done|done|by apply Hv].
      * simpl in *. split; [by intros ?%reject_fails|]. intros (x & [= <-] & _ & Hk). rewrite Eb in Hk.
        by apply Hv in Hk.
    + pose proof (authenticated_iff w request g d) as Ha.
      destruct (check_share_link_at w request g d) as [[[v g'] d'] ev]. simpl in Ha.
      split.
      * intros Ho. assert (exists i, v = Authenticated i) as Hi.
        { destruct v; simpl in Ho; [by apply reject_fails in Ho|eauto| |by apply reject_fails in Ho].
          by destruct (answer w response). }
        exists request. rewrite Eb. split_and!; [done| |by apply Ha]. destruct Hi as [i ->]. simpl in Ho. congruence.
      * intros (x & [= <-] & -> & Hs). rewrite Eb in Hs. apply Ha in Hs as [i ->]. done.
  - destruct (answer w TEXT_CHALLENGE_PROMPT) as [[]|e]; simpl; [|naive_solver].
    destruct (message w) as [attempt|e]; simpl; [|naive_solver].
    pose proof (verify_password_only_ok w (trim_trailing_line_ending attempt) g) as Hv.
    destruct (verify_password_only w _ g) as [[[]|e] g']; simpl in *.
    + split; [intros [= <-]; naive_solver|]. intros (-> & _). done.
    + split; [by intros ?%reject_fails|]. intros (_ & _ & x & [= <-] & Hk%Hv). done.
Qed.
End GateFacts.

(** ** The redirect *)

Lemma split_crlf_line x y : contains_char CR x = false -> split_crlf (x +:+ CRLF +:+ y) = x :: split_crlf y.
Proof.
  induction x as [|a x IH]; [done|]. cbn [contains_char]. rewrite orb_false_iff. intros [Ha Hx].
  specialize (IH Hx). change (String a x +:+ CRLF +:+ y)%string with (String a (x +:+ CRLF +:+ y))%string.
  cbn [split_crlf]. rewrite Ha, IH. done.
Qed.

(** A character that can stand in a header value the gate writes. *)
Definition plain (c : ascii) : bool := negb (is_ascii_control c || Ascii.eqb c " ").

Lemma plain_no_cr s : forall_char plain s = true -> contains_char CR s = false.
Proof. intros Hs. by apply (forall_char_no_char plain). Qed.

Lemma existsb_plain l : existsb (fun b => is_ascii_control b || Ascii.eqb b " ") l = false -> forallb plain l = true.
Proof.
  induction l as [|c l IH]; simpl; [done|]. rewrite orb_false_iff. intros [Hc Hl]. unfold plain at 1.
  by rewrite Hc, IH.
Qed.

Lemma token_char_plain s : forall_char token_char s = true -> forall_char plain s = true.
Proof.
  unfold forall_char. rewrite !forallb_forall. intros Hs c Hc. specialize (Hs c Hc).
  unfold plain, is_ascii_control. rewrite negb_true_iff, !orb_false_iff, !Z.leb_gt, Z.eqb_neq, Ascii.eqb_neq.
  unfold token_char, is_ascii_alphanumeric, is_ascii_digit, is_ascii_upper, is_ascii_lower in Hs.
  rewrite !orb_true_iff, !between_spec, !Z.eqb_eq in Hs. split_and!; try lia.
  intros ->. change (code " ") with 32 in Hs. lia.
Qed.

Definition redirect_lines (path value : string) (age : Z) : list string :=
  ["HTTP/1.1 302 Found"; "Location: " +:+ path;
   "Set-Cookie: ct_link_session=" +:+ value
     +:+ "; Path=/; HttpOnly; Secure; SameSite=Lax; Max-Age=" +:+ show age;
   "Cache-Control: no-store"; "Content-Length: 0"; "Connection: close"; ""; ""]%string.

(** the 302 is one response with exactly its six lines, whatever is in the request: the location
    is the given one when that is a plain path of the same origin and [/] otherwise, and the cookie
    carries the session or nothing; neither can add a line or a cookie attribute, and the redirect
    stays within the origin. *)
Theorem redirect_is_one_response location sess age :
  0 <= age ->
  exists path value,
    split_crlf (http_302_link_redirect location sess age) = redirect_lines path value age /\
    path = (if same_origin_path location && forall_char plain location then location else "/"%string) /\
    same_origin_path path = true /\ forall_char plain path = true /\
    value = (if looks_like_link_token sess then sess else EmptyString) /\ forall_char token_char value = true.
Proof.
  intros Hage. unfold http_302_link_redirect.
  set (path := if negb (same_origin_path location) || _ then "/"%string else location).
  set (value := if looks_like_link_token sess then sess else EmptyString).
  assert (path = (if same_origin_path location && forall_char plain location then location else "/"%string)) as Ep.
  { unfold path. destruct (same_origin_path location); simpl; [|done].
    destruct (existsb _ _) eqn:Ee.
    - destruct (forall_char plain location) eqn:Ef; [|done]. unfold forall_char in Ef.
      apply existsb_exists in Ee as (c & Hc & Hb). rewrite forallb_forall in Ef. specialize (Ef c Hc).
      unfold plain in Ef. by rewrite Hb in Ef.
    - apply existsb_plain in Ee. unfold forall_char. by rewrite Ee. }
  assert (same_origin_path path = true /\ forall_char plain path = true) as [Hso Hpl].
  { rewrite Ep. destruct (same_origin_path location && forall_char plain location) eqn:Eb; [|done].
    by apply andb_true_iff in Eb. }
  assert (forall_char token_char value = true) as Hv.
  { unfold value. destruct (looks_like_link_token sess) eqn:El; [|done]. unfold looks_like_link_token in El.
    by apply andb_true_iff in El as [_ ?]. }
  exists path, value. split_and!; try done. unfold redirect_lines.
  rewrite split_crlf_line by done. f_equal.
  rewrite <-string_app_assoc, split_crlf_line by (rewrite contains_char_app, (plain_no_cr path) by done; done). f_equal.
  match goal with |- split_crlf ("Set-Cookie: " +:+ _ +:+ _ +:+ _ +:+ ?attrs +:+ _ +:+ ?rest) = _ =>
    transitivity (split_crlf (("Set-Cookie: ct_link_session=" +:+ value +:+ attrs +:+ show age) +:+ rest))
  end; [f_equal; by rewrite !string_app_assoc|].
  rewrite split_crlf_line; [f_equal; by rewrite !split_crlf_line by done|].
  rewrite !contains_char_app, (plain_no_cr value) by (by apply token_char_plain).
  by rewrite (forall_char_no_char visible CR (show age)) by (done || by apply show_visible).
Qed.

(** ** The target without the token *)

Definition path_of (target : string) : string :=
  match split_once "?" target with Some (path, _) => path | None => target end.
Definition pairs_of (target : string) : list string :=
  match split_once "?" target with
  | Some (_, query) => List.filter (fun p => negb (is_empty p)) (split_char "&" query)
  | None => []
  end.

Lemma filter_filter {A} (f g : A -> bool) l : List.filter f (List.filter g l) = List.filter (fun x => f x && g x) l.
Proof.
  induction l as [|x l IH]; simpl; [done|]. destruct (g x); simpl; destruct (f x); simpl; by rewrite IH.
Qed.

Lemma filter_none {A} (f : A -> bool) l : Forall (fun x => f x = false) l -> List.filter f l = [].
Proof. induction 1 as [|x l Hx Hl IH]; simpl; [done|]. by rewrite Hx. Qed.

Lemma filter_all {A} (f : A -> bool) l : Forall (fun x => f x = true) l -> List.filter f l = l.
Proof. induction 1 as [|x l Hx Hl IH]; simpl; [done|]. by rewrite Hx, IH. Qed.

Lemma Forall_filter_in {A} (f : A -> bool) l : Forall (fun x => f x = true) (List.filter f l).
Proof. apply Forall_forall. intros x Hx. apply list_elem_of_In, filter_In in Hx. by destruct Hx. Qed.

(** taking the token out of a request target takes out exactly the token: the path and all other
    parameters stay, in order, and the target a redeemed link redirects to carries no token. *)
Theorem stripped_target target token stripped :
  link_token_in_target target = Some (token, stripped) ->
  link_token_in_target stripped = None /\ path_of stripped = path_of target /\
  pairs_of stripped = List.filter (fun p => negb (is_link_pair p)) (pairs_of target).
Proof.
  unfold link_token_in_target, path_of, pairs_of.
  destruct (split_once "?" target) as [[path query]|] eqn:Et; [|done].
  destruct (head _) as [tk|]; [|done]. intros [= _ <-]. rewrite filter_filter.
  apply split_once_spec in Et as [_ Hpath].
  set (rest := List.filter (fun p => negb (is_link_pair p) && negb (is_empty p)) (split_char "&" query)).
  assert (Forall (fun p => contains_char "&" p = false) rest) as Hrest.
  { apply filter_Forall, Forall_forall. intros x. apply split_char_elem. }
  assert (Forall (fun p => is_link_pair p = false /\ is_empty p = false) rest) as Hboth.
  { eapply Forall_impl; [apply Forall_filter_in|]. intros x. simpl.
    by rewrite andb_true_iff, !negb_true_iff. }
  destruct rest as [|p ps] eqn:Er.
  - by rewrite (proj1 (split_once_none "?" path)) by done.
  - rewrite <-Er in *. assert (rest <> []) as Hne by congruence. clear Er p ps.
    change ("?" +:+ String.concat "&" rest)%string with (String "?" (String.concat "&" rest)).
    rewrite split_once_app, split_char_concat by done.
    rewrite (filter_none is_link_pair), (filter_all (fun p => negb (is_empty p)))
      by (eapply Forall_impl; [exact Hboth|]; intros x [H1 H2]; by rewrite ?H1, ?H2).
    done.
Qed.

(** ** Lifetimes *)

Lemma split_digits_app num unit :
  forall_char is_ascii_digit num = true -> match unit with String c _ => is_ascii_digit c | EmptyString => false end = false ->
  split_digits (num +:+ unit) = (num, unit).
Proof.
  intros Hn Hu. induction num as [|c num IH].
  - change ("" +:+ unit)%string with unit. destruct unit as [|c u]; [done|]. simpl. by rewrite Hu.
  - unfold forall_char in *. simpl in Hn. apply andb_true_iff in Hn as [Hc Hn].
    change (String c num +:+ unit)%string with (String c (num +:+ unit)). simpl. by rewrite Hc, (IH Hn).
Qed.

Lemma parse_ttl_unit n mult unit :
  0 < n * mult <= MAX_LINK_TTL -> 0 < n ->
  In (unit, mult) [("s", 1); ("m", 60); ("h", 3600); ("d", 86400)]%string ->
  parse_ttl (show n +:+ unit) = Ok (n * mult).
Proof.
  intros Hs Hn Hu. unfold parse_ttl, MAX_LINK_TTL in *.
  assert (forall_char visible unit = true /\ split_digits (show n +:+ unit) = (show n, unit)) as [Hv Hd].
  { pose proof (show_digits n ltac:(lia)).
    by destruct Hu as [[= <- <-]|[[= <- <-]|[[= <- <-]|[[= <- <-]|[]]]]]; (split; [done|apply split_digits_app]). }
  rewrite trim_visible by (rewrite forall_char_app, Hv, show_visible by lia; done).
  rewrite Hd, (trim_visible unit) by done.
  assert (1 <= mult) by nia. assert (n <= n * mult) by nia. assert (n <= U64_MAX) by (unfold U64_MAX; lia).
  rewrite parse_uint_show by lia. unfold ok_or, rbind.
  assert (n * mult <=? U64_MAX = true) as Hle by (apply Z.leb_le; unfold U64_MAX in *; lia).
  assert (forall e : string,
    (if String.eqb unit "" || String.eqb unit "s" then Ok 1 else if String.eqb unit "m" then Ok 60
     else if String.eqb unit "h" then Ok 3600 else if String.eqb unit "d" then Ok 86400 else Err e) = Ok mult) as Hm.
  { intros e. by destruct Hu as [[= <- <-]|[[= <- <-]|[[= <- <-]|[[= <- <-]|[]]]]]. }
  rewrite Hm, Hle. destruct (Z.eqb_spec (n * mult) 0); [lia|].
  by destruct (Z.ltb_spec (30 * 86400) (n * mult)); [lia|].
Qed.

(** a link's lifetime reads back as it is printed: for every lifetime that can be given, from a
    second to 30 days, parsing what [format_ttl] prints gives that lifetime. *)
Theorem ttl_reads_back t : 1 <= t <= MAX_LINK_TTL -> parse_ttl (format_ttl t) = Ok t.
Proof.
  intros Ht. unfold format_ttl. assert (0 <? t = true) as -> by (apply Z.ltb_lt; lia). simpl.
  assert (forall m, 0 < m -> t mod m = 0 -> t / m * m = t /\ 0 < t / m) as Hdiv.
  { intros m Hm Hmod. pose proof (Z.div_mod t m ltac:(lia)). split; [lia|nia]. }
  assert (forall m u, In (u, m) [("s", 1); ("m", 60); ("h", 3600); ("d", 86400)]%string -> 0 < m ->
    t mod m = 0 -> parse_ttl (show (t / m) +:+ u) = Ok t) as Hp.
  { intros m u Hu Hm Hmod. destruct (Hdiv m Hm Hmod) as [Hq Hpos].
    rewrite (parse_ttl_unit _ m); [by rewrite Hq|by rewrite Hq; lia|done|done]. }
  destruct (Z.eqb_spec (t mod 86400) 0); [apply Hp; [simpl; tauto|lia|done]|].
  destruct (Z.eqb_spec (t mod 3600) 0); [apply Hp; [simpl; tauto|lia|done]|].
  destruct (Z.eqb_spec (t mod 60) 0); [apply Hp; [simpl; tauto|lia|done]|].
  rewrite <-(Z.div_1_r t) at 1. apply Hp; [simpl; tauto|lia|apply Z.mod_1_r].
Qed.

(** ** The stored credential *)

Lemma hex_decode_colon n s : contains_char ":" s = true -> hex_decode n s = None.
Proof.
  intros Hs. destruct (hex_decode n s) as [b|] eqn:E; [|done]. apply hex_decode_iff in E as [_ E].
  assert (contains_char ":" (to_ascii_lowercase s) = true) as Hl.
  { clear E. induction s as [|a s IH]; [done|]. simpl in *. apply orb_true_iff in Hs as [Ha|Hs].
    - apply Ascii.eqb_eq in Ha as ->. done.
    - by rewrite (IH Hs), orb_true_r. }
  by rewrite E, hex_no in Hl.
Qed.

Lemma serialize_trim c : forall_char visible (username c) = true -> trim (serialize c) = serialize c.
Proof. intros Hu. apply trim_visible. unfold serialize. by rewrite !forall_char_app, Hu, !hex_visible. Qed.

(** What follows the first colon of a text with two colons has a colon before or after the next. *)
Lemma split_after_colon y tail :
  contains_char ":" tail = true ->
  exists s h, split_once ":" (y +:+ String ":" tail) = Some (s, h) /\ contains_char ":" h = true.
Proof.
  intros Ht. destruct (split_once ":" y) as [[y1 y2]|] eqn:E.
  - apply split_once_spec in E as [-> Hy1]. rewrite string_app_assoc.
    change (String ":" y2 +:+ String ":" tail)%string with (String ":" (y2 +:+ String ":" tail)).
    rewrite split_once_app by done. do 2 eexists. split; [done|].
    rewrite contains_char_app. simpl. apply orb_true_r.
  - apply split_once_none in E. rewrite split_once_app by done. eauto.
Qed.

Lemma colon_unreadable c :
  forall_char visible (username c) = true -> contains_char ":" (username c) = true ->
  is_ok (parse_credential (serialize c)) = false.
Proof.
  intros Hu Hc. unfold parse_credential. rewrite serialize_trim by done. unfold serialize.
  destruct (split_once ":" (username c)) as [[x y]|] eqn:Ex; [|apply split_once_none in Ex; congruence].
  apply split_once_spec in Ex as [-> Hx]. rewrite string_app_assoc.
  set (tail := (hex_encode (salt c) +:+ String ":" (hex_encode (hash c)))%string).
  change (String ":" y +:+ _)%string with (String ":" (y +:+ String ":" tail)).
  rewrite split_once_app by done. unfold ok_or at 1, rbind at 1.
  destruct (split_after_colon y tail) as (s & h & -> & Hh).
  { unfold tail. rewrite contains_char_app. simpl. apply orb_true_r. }
  unfold ok_or, rbind. destruct (map_err _ (hex_decode_fixed 16 s)); [|done].
  unfold hex_decode_fixed. by rewrite hex_decode_colon.
Qed.

(** the credential file reads back what was written to it, unless the username has a colon: then
    every later start of the agent with the gate on fails to parse the file that [local-auth set]
    wrote without complaint. *)
Theorem credential_reads_back c :
  forall_char visible (username c) = true -> length (salt c) = 16%nat -> length (hash c) = 32%nat ->
  if contains_char ":" (username c)
  then is_ok (parse_credential (serialize c)) = false
  else parse_credential (serialize c) = Ok c.
Proof.
  intros Hu Hs Hh. destruct (contains_char ":" (username c)) eqn:Hc; [by apply colon_unreadable|].
  unfold parse_credential. rewrite serialize_trim by done. unfold serialize.
  change (username c +:+ ":" +:+ ?x)%string with (username c +:+ String ":" x)%string.
  rewrite split_once_app by done. unfold ok_or at 1, rbind at 1.
  change (hex_encode (salt c) +:+ ":" +:+ hex_encode (hash c))%string
    with (hex_encode (salt c) +:+ String ":" (hex_encode (hash c)))%string.
  rewrite split_once_app by (by apply hex_no). unfold ok_or, rbind, hex_decode_fixed.
  rewrite !hex_decode_encode by done. by destruct c.
Qed.

(** ** Guessing *)

Section Guessing.
Context `{LinkOps}.

(** Attempts one after the other: each is a client with the user and password it tries. *)
Record Attempt := { client : Client; user : string; password : list byte }.

Fixpoint attempts (l : list Attempt) (g : LocalAuthGate) : list (result unit GateRejection) * LocalAuthGate :=
  match l with
  | [] => ([], g)
  | a :: l =>
      let '(r, g) := verify (client a) (user a) (password a) g in
      let '(rs, g) := attempts l g in (r :: rs, g)
  end.

Definition compared (r : result unit GateRejection) : bool :=
  match r with Err BadCredential => true | _ => false end.

(** The clock readings of the attempts follow one another from [t0] to [t1]. *)
Fixpoint in_time (t0 t1 : Z) (l : list Attempt) : Prop :=
  match l with
  | [] => t0 <= t1
  | a :: l => t0 <= asked_at (client a) <= recorded_at (client a) /\ in_time (recorded_at (client a)) t1 l
  end.

Definition wrong (cred : option StoredCredential) (a : Attempt) : Prop :=
  forall c, cred = Some c -> verify_credential c (user a) (password a) = false.

(** [n] wrong passwords were compared since [t0], the last not after [t]. *)
Definition paced (t0 t n : Z) (l : RateLimiter) : Prop :=
  n = 0 /\ l = new_limiter \/
  exists k r, 0 <= k /\ n <= 7 * k + failures l /\ t0 + 61 * k <= window_start_secs l <= r /\ r <= t /\
    1 <= failures l <= 7 /\ (failures l < 5 \/ r + LOCKOUT <= locked_until_secs l) /\
    (failures l < 6 \/ window_start_secs l + 30 <= r) /\ (failures l < 7 \/ window_start_secs l + 60 <= r).

Lemma paced_later t0 t t' n l : t <= t' -> paced t0 t n l -> paced t0 t' n l.
Proof. intros Ht [?|(k & r & ?)]; [by left|]. right. exists k, r. lia. Qed.

Lemma record_paced t0 t n l asked rec_ :
  1 <= t0 -> t0 <= t -> t <= asked <= rec_ -> check asked l = Allowed -> paced t0 t n l ->
  paced t0 rec_ (n + 1) (record rec_ false l).
Proof.
  intros H1 Ht Hr Hc Hp. unfold check in Hc. destruct (Z.ltb_spec asked (locked_until_secs l)) as [|Hfree]; [done|].
  unfold record, sat_sub, WINDOW. destruct Hp as [[-> ->]|(k & r & Hk & Hn & Hw & Hrt & Hf & H5 & H6 & H7)].
  - simpl. right. exists 0, rec_. simpl. unfold LOCKOUT. lia.
  - unfold LOCKOUT, MAX_FAILURES in *. destruct (Z.eqb_spec (window_start_secs l) 0); [lia|]. simpl.
    destruct (Z.ltb_spec 60 (Z.max 0 (rec_ - window_start_secs l))).
    + right. exists (k + 1), rec_. simpl. unfold LOCKOUT. lia.
    + assert (failures l <= 6) by lia.
      assert (wrap 32 (failures l + 1) = failures l + 1) as -> by (unfold wrap; apply Z.mod_small; lia).
      right. exists k, rec_. simpl. unfold LOCKOUT. destruct (Z.leb_spec 5 (failures l + 1)); lia.
Qed.

Lemma verify_paced t0 t n a g :
  1 <= t0 -> t0 <= t -> t <= asked_at (client a) <= recorded_at (client a) -> wrong (credential g) a ->
  paced t0 t n (limiter g) ->
  let '(r, g') := verify (client a) (user a) (password a) g in
  credential g' = credential g /\
  paced t0 (recorded_at (client a)) (n + if compared r then 1 else 0) (limiter g').
Proof.
  intros H1 Ht Hr Hw Hp. unfold verify, limited. destruct (check _ _) eqn:Ec.
  - assert (match credential g with Some c => verify_credential c (user a) (password a) | None => false end = false)
      as -> by (destruct (credential g) as [c|] eqn:E; [by apply Hw|done]).
    simpl. split; [done|]. by eapply record_paced.
  - simpl. split; [done|]. rewrite Z.add_0_r. eapply paced_later; [|exact Hp]. lia.
Qed.

Lemma attempts_paced t0 t1 t n l g :
  1 <= t0 -> t0 <= t -> in_time t t1 l -> Forall (wrong (credential g)) l -> paced t0 t n (limiter g) ->
  t <= t1 /\ paced t0 t1 (n + Zlen (List.filter compared (attempts l g).1)) (limiter (attempts l g).2).
Proof.
  revert t n g. induction l as [|a l IH]; intros t n g H1 Ht Hin Hw Hp; simpl in *.
  - split; [done|]. rewrite Z.add_0_r. by eapply paced_later.
  - destruct Hin as [Hr Hin]. apply Forall_cons in Hw as [Hwa Hw].
    pose proof (verify_paced t0 t n a g H1 Ht Hr Hwa Hp) as Hv.
    destruct (verify (client a) (user a) (password a) g) as [r g'] eqn:Ev. destruct Hv as [Hc Hp'].
    rewrite <-Hc in Hw. assert (t0 <= recorded_at (client a)) as Ht' by lia.
    destruct (IH _ _ g' H1 Ht' Hin Hw Hp') as [Hle Hfin].
    destruct (attempts l g') as [rs g''] eqn:Ea. simpl in *. split; [lia|].
    replace (n + Zlen _) with (n + (if compared r then 1 else 0) + Zlen (List.filter compared rs)); [done|].
    destruct (compared r); simpl; lia.
Qed.

(** the limiter bounds online guessing: of the wrong passwords offered one after another from
    [t0] to [t1], whatever their pace, at most seven for each begun stretch of 61 seconds are compared
    with the stored one; all others are refused unread. *)
Theorem guesses_bounded g l t0 t1 :
  limiter g = new_limiter -> 1 <= t0 -> in_time t0 t1 l -> Forall (wrong (credential g)) l ->
  Zlen (List.filter compared (attempts l g).1) <= 7 * ((t1 - t0) / 61 + 1).
Proof.
  intros Hn H1 Hin Hw.
  destruct (attempts_paced t0 t1 t0 0 l g H1 ltac:(lia) Hin Hw ltac:(by left)) as [Hle Hp].
  rewrite Z.add_0_l in Hp.
  assert (0 <= (t1 - t0) / 61) by (apply Z.div_pos; lia).
  destruct Hp as [[-> _]|(k & r & Hk & Hnum & Hws & Hrt & Hf & _)]; [lia|].
  assert (k <= (t1 - t0) / 61) by (apply Z.div_le_lower_bound; lia). lia.
Qed.

(** A gate that is on always has a credential to compare with. *)
Theorem gate_on_has_credential `{AuthOps} f state_dir get g notice :
  from_env f state_dir get = Ok (g, notice) -> mode g <> Off ->
  is_Some (credential g) /\ limiter g = new_limiter /\ (is_Some state_dir -> is_Some (links g)).
Proof.
  unfold from_env. destruct (match get _ with Some s => _ | None => _ end) as [m|e]; [|done]. simpl.
  destruct (bool_decide_reflect (m = Off)) as [->|Hm]; [by intros [= <- _]|].
  destruct (get _) as [file|].
  - destruct (map_err _ _) as [c|]; [|done]. simpl. destruct (check_file_not_group_or_world_readable f file); [|done].
    simpl. destruct (map_err _ (parse_credential _)) as [cr|]; [|done]. intros [= <- _] _. simpl.
    split_and!; [eauto|done|]. intros [d ->]. eauto.
  - destruct state_dir as [dir|]; [|done]. simpl. destruct (exists_ f _).
    + destruct (read_to_string f _) as [c|]; [|done]. simpl.
      destruct (parse_credential _) as [cr|]; [|done]. intros [= <- _] _. simpl. eauto.
    + destruct (create_dir_all f dir); [|done]. simpl. destruct (write_private f _ _); [|done].
      intros [= <- _] _. simpl. eauto.
Qed.
End Guessing.

(** ** Concrete inputs *)

Definition toy_auth : AuthOps := {| base64_decode s := Some (as_bytes s) |}.
#[local] Existing Instance toy_auth.

Definition demo_client (t : Z) : Client :=
  {| message := Ok (as_bytes ("GET / HTTP/1.1" +:+ CRLF +:+ "authorization: Basic bob:pw" +:+ CRLF +:+ CRLF)%string);
     answer _ := Ok tt; io := io_ok; unix_now := t; asked_at := t; recorded_at := t;
     drawn := demo_bytes Byte.x05 |}.
Definition demo_credential : StoredCredential := new_credential "bob" (as_bytes "pw") (replicate 16 Byte.x07).
Definition demo_gate : LocalAuthGate :=
  {| mode := Http; credential := Some demo_credential; limiter := new_limiter; link_limiter := new_limiter;
     links := Some demo_store |}.

Example demo_let_in : (run_local_auth_gate (demo_client 1000) demo_gate None).1.1.1
  = Ok (Proceed (Some (as_bytes ("GET / HTTP/1.1" +:+ CRLF +:+ "authorization: Basic bob:pw" +:+ CRLF +:+ CRLF)%string))).
Proof. vm_compute. reflexivity. Qed.
Example demo_cookie_head :
  option_map link_token_in_cookies (parse_request_head (as_bytes
    ("GET /a HTTP/1.1" +:+ CRLF +:+ "Cookie: x=1; ct_link_session=abc" +:+ CRLF +:+ CRLF)%string)) = Some (Some "abc").
Proof. vm_compute. reflexivity. Qed.
Example demo_target : link_token_in_target "/a?x=1&ct_link=tok&y" = Some ("tok", "/a?x=1&y").
Proof. vm_compute. reflexivity. Qed.

Lemma redirect_is_one_response_witness :
  exists path value, split_crlf (http_302_link_redirect "//evil" "a;b" 60) = redirect_lines path value 60.
Proof.
  destruct (redirect_is_one_response "//evil" "a;b" 60 ltac:(lia)) as (path & value & E & _). eauto.
Defined.

Lemma stripped_target_witness : link_token_in_target "/a?x=1&y" = None.
Proof. apply (stripped_target "/a?x=1&ct_link=tok&y" "tok" "/a?x=1&y"). vm_compute. reflexivity. Defined.

Lemma ttl_reads_back_witness : parse_ttl (format_ttl 5400) = Ok 5400.
Proof. apply (ttl_reads_back 5400). unfold MAX_LINK_TTL. lia. Defined.

Lemma credential_reads_back_witness : parse_credential (serialize demo_credential) = Ok demo_credential.
Proof. apply (credential_reads_back demo_credential); vm_compute; reflexivity. Defined.

Definition demo_attempts : list Attempt :=
  map (fun t => {| client := demo_client t; user := "bob"; password := as_bytes "guess" |})
    [100; 100; 100; 100; 100; 101; 130; 160; 161; 170; 190].

Lemma guesses_bounded_witness :
  Zlen (List.filter compared (attempts demo_attempts demo_gate).1) = 8 /\
  Zlen (List.filter compared (attempts demo_attempts demo_gate).1) <= 7 * ((190 - 100) / 61 + 1).
Proof.
  split; [vm_compute; reflexivity|].
  apply (guesses_bounded demo_gate demo_attempts 100 190); [reflexivity|lia|simpl; lia|].
  repeat constructor; intros c Hc; injection Hc as <-; vm_compute; reflexivity.
Defined.

Definition demo_startup : Startup :=
  {| read_to_string _ := Err "none"; file_mode _ := Ok 384; exists_ _ := false; create_dir_all _ := Ok tt;
     make_private _ := Ok tt;     write_private _ _ := Ok tt; token_drawn := replicate 20 Byte.x01; salt_drawn := replicate 16 Byte.x02 |}.
Lemma gate_on_has_credential_witness :
  exists g notice,
    from_env demo_startup (Some "/s") (fun k => if String.eqb k "CT_AGENT_LOCAL_AUTH" then Some "http" else None)
      = Ok (g, notice) /\ is_Some (credential g).
Proof.
  destruct (from_env demo_startup (Some "/s"%string)
    (fun k => if String.eqb k "CT_AGENT_LOCAL_AUTH" then Some "http"%string else None)) as [[g notice]|e] eqn:E;
    [|exfalso; vm_compute in E; discriminate E].
  exists g, notice. split; [reflexivity|].
  apply (gate_on_has_credential demo_startup _ _ g notice E).
  assert (match from_env demo_startup (Some "/s"%string)
    (fun k => if String.eqb k "CT_AGENT_LOCAL_AUTH" then Some "http"%string else None) with
    | Ok (g, _) => bool_decide (mode g <> Off) | Err _ => false end = true) as Hm by (vm_compute; reflexivity).
  rewrite E in Hm. apply bool_decide_eq_true in Hm. exact Hm.
Defined.
