(* ===== verification/SecretFile.v ===== *)
(** * SecretFile: crash-safe writes ([secret_file.rs])

    [replace_atomically] and its callers, over a directory of [std::fs]: names that lead to inodes
    or symbolic links, and what a power loss may leave of them.  Every call may fail instead of
    taking effect; the disk before each call is recorded, so that a theorem can speak about a
    process that stops at any moment.  The Unix variant is modelled. *)
From S2P Require Import Prelude Text.

#[local] Open Scope Z_scope.

(** ** One directory *)

(** A file: [synced] says whether [fsync] covers its content. *)
Record Inode := { mode : Z; content : list byte; synced : bool }.
Inductive Entry := File (i : nat) | Symlink (target : string).
Notation Dir := (gmap string Entry).

(** [dir]: the names as every process sees them.  [unsynced]: the directories there were since the
    directory itself was synced, any of which a power loss may bring back. *)
Record Disk := { umask : Z; inodes : gmap nat Inode; next : nat; dir : Dir; unsynced : list Dir }.

Definition set_inodes (m : gmap nat Inode) (d : Disk) : Disk :=
  {| umask := umask d; inodes := m; next := next d; dir := dir d; unsynced := unsynced d |}.
Definition set_dir (m : Dir) (d : Disk) : Disk :=
  {| umask := umask d; inodes := inodes d; next := next d; dir := m; unsynced := dir d :: unsynced d |}.

(** What a power loss may leave under a name. *)
Definition candidates (d : Disk) (name : string) : list (option Entry) :=
  map (fun m : Dir => m !! name) (dir d :: unsynced d).
Definition after_power_loss (d : Disk) (name : string) (x : option (list byte)) : Prop :=
  exists e, e ∈ candidates d name /\
  match e with
  | None => x = None
  | Some (Symlink _) => False
  | Some (File i) =>
      exists n c, inodes d !! i = Some n /\ x = Some c /\ (synced n = true -> c = content n)
  end.

(** ** Calls *)

Inductive IoError := NotFound | AlreadyExists | ELOOP | Os (text : string).
(** The system's answers: a call takes effect, or fails -- a write after so many bytes. *)
Inductive Answer := Done | Fails (e : IoError) (written : nat).
Record World := { disk : Disk; history : list Disk; answers : list Answer }.

Definition IO (E A : Type) : Type := World -> result A E * World.
#[global] Instance io_ret {E} : MRet (IO E) := fun A a w => (Ok a, w).
#[global] Instance io_bind {E} : MBind (IO E) := fun A B f m w =>
  match m w with
  | (Ok a, w) => f a w
  | (Err e, w) => (Err e, w)
  end.
Definition throw {E A} (e : E) : IO E A := fun w => (Err e, w).
(** The result of a call as a value, and the conversion of its error. *)
Definition attempt {E F A} (m : IO E A) : IO F (result A E) := fun w => let '(r, w) := m w in (Ok r, w).
Definition io_map_err {E F A} (f : E -> F) (m : IO E A) : IO F A :=
  fun w => let '(r, w) := m w in (map_err f r, w).

Definition call {A} (fails : nat -> Disk -> Disk) (effect : Disk -> result A IoError * Disk) : IO IoError A :=
  fun w =>
    let '(r, d) :=
      match answers w with
      | Fails e n :: _ => (Err e, fails n (disk w))
      | _ => effect (disk w)
      end in
    (r, {| disk := d; history := disk w :: history w; answers := tail (answers w) |}).
Definition unchanged (n : nat) (d : Disk) : Disk := d.

(** [symlink_metadata(..).is_ok_and(is_symlink)]. *)
Definition is_symlink (name : string) : IO IoError bool := fun w =>
  let '(r, w) := call unchanged (fun d => (match dir d !! name with
    | Some (Symlink _) => Ok true | Some (File _) => Ok false | None => Err NotFound end, d)) w in
  (Ok (match r with Ok b => b | Err _ => false end), w).

Definition remove_file (name : string) : IO IoError unit :=
  call unchanged (fun d => match dir d !! name with
    | Some _ => (Ok tt, set_dir (delete name (dir d)) d)
    | None => (Err NotFound, d)
    end).

(** [create_new(true)] with a mode: nothing, not even a link, may stand there. *)
Definition create_new (name : string) (m : Z) : IO IoError nat :=
  call unchanged (fun d => match dir d !! name with
    | Some _ => (Err AlreadyExists, d)
    | None =>
        (Ok (next d),
         {| umask := umask d;
            inodes := <[next d := {| mode := Z.land m (Z.lnot (umask d)); content := []; synced := false |}]> (inodes d);
            next := S (next d); dir := <[name := File (next d)]> (dir d); unsynced := dir d :: unsynced d |})
    end).

Definition append_to (i : nat) (bytes : list byte) (d : Disk) : Disk :=
  match inodes d !! i with
  | Some n => set_inodes (<[i := {| mode := mode n; content := content n ++ bytes; synced := false |}]> (inodes d)) d
  | None => d
  end.
Definition write_all (i : nat) (bytes : list byte) : IO IoError unit :=
  call (fun n => append_to i (take n bytes)) (fun d => (Ok tt, append_to i bytes d)).

Definition sync_inode (i : nat) (d : Disk) : Disk :=
  match inodes d !! i with
  | Some n => set_inodes (<[i := {| mode := mode n; content := content n; synced := true |}]> (inodes d)) d
  | None => d
  end.
Definition sync_all (i : nat) : IO IoError unit := call unchanged (fun d => (Ok tt, sync_inode i d)).

Definition rename (from to : string) : IO IoError unit :=
  call unchanged (fun d => match dir d !! from with
    | Some e => (Ok tt, set_dir (<[to := e]> (delete from (dir d))) d)
    | None => (Err NotFound, d)
    end).

(** [set_permissions]: follows a link, out of the directory. *)
Definition set_permissions (name : string) (m : Z) : IO IoError unit :=
  call unchanged (fun d => match dir d !! name with
    | Some (File i) =>
        (Ok tt, match inodes d !! i with
                | Some n => set_inodes (<[i := {| mode := m; content := content n; synced := synced n |}]> (inodes d)) d
                | None => d
                end)
    | Some (Symlink _) => (Ok tt, d)
    | None => (Err NotFound, d)
    end).

(** ** [secret_file.rs] *)

Definition sync_parent_dir : IO IoError unit :=
  _ ← call unchanged (fun d => (Ok tt, d));
  call unchanged (fun d =>
    (Ok tt, {| umask := umask d; inodes := inodes d; next := next d; dir := dir d; unsynced := [] |})).

Definition temp_sibling (name : string) : string := ("." +:+ name +:+ ".tmp")%string.

Definition replace_atomically (path : string) (bytes : list byte) (m : Z) : IO IoError unit :=
  let tmp := temp_sibling path in
  removed ← attempt (remove_file tmp);
  match removed with
  | Err NotFound | Ok _ =>
      written ← attempt (
        f ← create_new tmp m;
        _ ← write_all f bytes;
        _ ← sync_all f;
        _ ← rename tmp path;
        sync_parent_dir);
      match written with
      | Err e => _ ← attempt (E := IoError) (remove_file tmp); throw e
      | Ok tt => mret tt
      end
  | Err e => throw e
  end.

Definition write_private (path : string) (bytes : list byte) : IO IoError unit :=
  link ← is_symlink path;
  if link : bool then throw ELOOP else replace_atomically path bytes 384.

Definition write_durable (path : string) (bytes : list byte) : IO IoError unit :=
  replace_atomically path bytes 420.

(** ** Reasoning about a run

    [triple I P m Q]: from a disk in [P], every disk [m] acts on satisfies [I] and it ends in [Q]. *)
Definition triple {E A} (I P : Disk -> Prop) (m : IO E A) (Q : result A E -> Disk -> Prop) : Prop :=
  forall w r w', m w = (r, w') -> P (disk w) ->
    (exists h, history w' = h ++ history w /\ Forall I h) /\ Q r (disk w').

Section Rules.
Context (I : Disk -> Prop).

Lemma triple_ret {E A} (a : A) P : triple I P (mret a : IO E A) (fun r d => r = Ok a /\ P d).
Proof. intros w r w' [= <- <-] HP. split; [|done]. by exists []. Qed.
Lemma triple_throw {E A} (e : E) P : triple I P (throw e : IO E A) (fun r d => r = Err e /\ P d).
Proof. intros w r w' [= <- <-] HP. split; [|done]. by exists []. Qed.

Lemma triple_conseq {E A} (I' P P' : Disk -> Prop) (m : IO E A) Q Q' :
  triple I' P' m Q' -> (forall d, I' d -> I d) -> (forall d, P d -> P' d) -> (forall r d, Q' r d -> Q r d) ->
  triple I P m Q.
Proof.
  intros Hm HI HP HQ w r w' Er Hw. destruct (Hm w r w' Er (HP _ Hw)) as [(h & Eh & Hh) Hq].
  split; [|by apply HQ]. exists h. split; [done|]. by eapply Forall_impl.
Qed.

(** A precondition is a set of disks. *)
Lemma triple_each {E A} P (m : IO E A) Q : (forall d, P d -> triple I (eq d) m Q) -> triple I P m Q.
Proof. intros Hm w r w' Er HP. by apply (Hm (disk w) HP w r w'). Qed.

Lemma triple_bind {E A B} P (m : IO E A) R (f : A -> IO E B) Q :
  triple I P m R -> (forall a, triple I (R (Ok a)) (f a) Q) -> (forall e d, R (Err e) d -> Q (Err e) d) ->
  triple I P (x ← m; f x) Q.
Proof.
  intros Hm Hf He w r w'. unfold mbind, io_bind.
  destruct (m w) as [[a|e] w1] eqn:E1; intros Er HP; destruct (Hm w _ w1 E1 HP) as [(h & Eh & Hh) HR].
  - destruct (Hf a w1 r w' Er HR) as [(h' & Eh' & Hh') HQ]. split; [|done].
    exists (h' ++ h). split; [by rewrite Eh', Eh, app_assoc|]. by apply Forall_app.
  - simplify_eq. split; [by exists h|by apply He].
Qed.

Lemma triple_attempt {E F A} P (m : IO E A) Q :
  triple I P m Q -> triple I P (attempt m : IO F (result A E)) (fun r d => exists r', r = Ok r' /\ Q r' d).
Proof.
  intros Hm w r w'. unfold attempt. destruct (m w) as [r' w1] eqn:E1. intros [= <- <-] HP.
  destruct (Hm w r' w1 E1 HP) as [Hh HQ]. split; [done|]. by exists r'.
Qed.

Lemma triple_map_err {E F A} P (g : E -> F) (m : IO E A) Q :
  triple I P m Q -> triple I P (io_map_err g m) (fun r d => exists r', r = map_err g r' /\ Q r' d).
Proof.
  intros Hm w r w'. unfold io_map_err. destruct (m w) as [r' w1] eqn:E1. intros [= <- <-] HP.
  destruct (Hm w r' w1 E1 HP) as [Hh HQ]. split; [done|]. by exists r'.
Qed.

Lemma triple_call {A} (P : Disk -> Prop) fails (effect : Disk -> result A IoError * Disk) (Q : result A IoError -> Disk -> Prop) :
  (forall d, P d -> I d) -> (forall e n d, P d -> Q (Err e) (fails n d)) -> (forall d r d', effect d = (r, d') -> P d -> Q r d') ->
  triple I P (call fails effect) Q.
Proof.
  intros HI Hf He w r w'. unfold call.
  destruct (answers w) as [|[|e n] rest]; [destruct (effect (disk w)) as [r1 d1] eqn:E1..|]; intros [= <- <-] HP;
    (split; [exists [disk w]; split; [done|]; by apply Forall_singleton, HI|]; simpl; eauto).
Qed.
End Rules.

(** ** What a replacement may change *)

(** Inode numbers are given out in order, and no name leads to a missing inode. *)
Record disk_ok (d : Disk) : Prop := {
  numbered : forall i, (next d <= i)%nat -> inodes d !! i = None;
  no_dangling : forall q i, Some (File i) ∈ candidates d q -> is_Some (inodes d !! i)
}.

Section Replace.
Context (d0 : Disk) (path : string) (bytes : list byte) (m : Z).
Let tmp := temp_sibling path.
Let M := Z.land m (Z.lnot (umask d0)).
Definition replaced : Inode := {| mode := Z.land m (Z.lnot (umask d0)); content := bytes; synced := true |}.

Record grown (d : Disk) : Prop := {
  same_umask : umask d = umask d0;
  old_inodes : inodes d0 ⊆ inodes d;
  fresh_next : forall i, (next d <= i)%nat -> inodes d !! i = None;
  new_modes : forall i n, inodes d !! i = Some n -> inodes d0 !! i = None -> mode n = M;
}.
(** Every name but the temporary one leads only to what it led to. *)
Definition untouched (d : Disk) : Prop :=
  grown d /\ forall q e, q <> tmp -> e ∈ candidates d q -> e ∈ candidates d0 q.
(** ... or [path] leads to the new file, complete and synced. *)
Definition safe (d : Disk) : Prop :=
  grown d /\ forall q e, q <> tmp -> e ∈ candidates d q ->
    e ∈ candidates d0 q \/ q = path /\ exists i, e = Some (File i) /\ inodes d0 !! i = None /\ inodes d !! i = Some replaced.
(** The temporary file being written. *)
Definition writing (i : nat) (n : Inode) (d : Disk) : Prop :=
  untouched d /\ dir d !! tmp = Some (File i) /\ inodes d0 !! i = None /\ inodes d !! i = Some n.
Definition installed (d : Disk) : Prop :=
  safe d /\ exists i, dir d !! path = Some (File i) /\ inodes d0 !! i = None /\ inodes d !! i = Some replaced.

Lemma untouched_safe d : untouched d -> safe d.
Proof. intros [Hg Hc]. split; [done|]. eauto. Qed.
Lemma writing_safe i n d : writing i n d -> safe d.
Proof. intros [Hu _]. by apply untouched_safe. Qed.

(** Changing the temporary name's entry leaves the others' candidates. *)
Lemma candidates_set q (D : Dir) d e :
  e ∈ candidates (set_dir D d) q <-> e = D !! q \/ e ∈ candidates d q.
Proof. unfold candidates, set_dir. simpl. by rewrite elem_of_cons. Qed.
Lemma candidates_dir d q : dir d !! q ∈ candidates d q.
Proof. unfold candidates. simpl. left. Qed.
Lemma candidates_inodes im d q : candidates (set_inodes im d) q = candidates d q.
Proof. done. Qed.

Lemma grown_set_dir D d : grown d -> grown (set_dir D d).
Proof. intros []. by split. Qed.

(** An inode that is not of the initial disk may change, its mode apart. *)
Lemma grown_update i n n' d : grown d -> inodes d0 !! i = None -> inodes d !! i = Some n -> mode n' = mode n ->
  grown (set_inodes (<[i := n']> (inodes d)) d).
Proof.
  intros [Hu Hs Hf Hm] Hi En Em. split; simpl; [done| | |].
  - by apply insert_subseteq_r.
  - intros j Hj. rewrite lookup_insert_ne by (intros ->; rewrite Hf in En by done; done). by apply Hf.
  - intros j k. rewrite lookup_insert_Some. intros [[<- <-]|[Hne Ej]] Hj; [rewrite Em|]; by eapply Hm.
Qed.

Lemma remove_tmp_step d r d' :
  match dir d !! tmp with
  | Some _ => (Ok tt, set_dir (delete tmp (dir d)) d)
  | None => (Err NotFound, d)
  end = (r, d') -> (untouched d -> untouched d') /\ (installed d -> path <> tmp -> installed d') /\ (safe d -> safe d').
Proof.
  destruct (dir d !! tmp) as [e|]; intros [= <- <-]; [|by split_and!].
  assert (forall q e', q <> tmp -> e' ∈ candidates (set_dir (delete tmp (dir d)) d) q -> e' ∈ candidates d q) as Hc.
  { intros q e' Hq. rewrite candidates_set, lookup_delete_ne by congruence.
    intros [->|]; [apply candidates_dir|done]. }
  assert (safe d -> safe (set_dir (delete tmp (dir d)) d)) as Hsafe.
  { intros [Hg Hs]. split; [by apply grown_set_dir|]. eauto. }
  split_and!; [|intros [Hs Hi] Hne|done].
  - intros [Hg Hu]. split; [by apply grown_set_dir|]. eauto.
  - split; [by apply Hsafe|]. simpl. by rewrite lookup_delete_ne.
Qed.

Lemma triple_remove_tmp : triple safe untouched (remove_file tmp) (fun _ => untouched).
Proof.
  apply triple_call; [apply untouched_safe|done|]. intros d r d' E. by apply (remove_tmp_step d r d').
Qed.
Lemma triple_cleanup : triple safe safe (remove_file tmp) (fun _ => safe).
Proof. apply triple_call; [done|done|]. intros d r d' E. by apply (remove_tmp_step d r d'). Qed.

Lemma triple_create :
  triple safe untouched (create_new tmp m)
    (fun r d => match r with
     | Ok i => writing i {| mode := M; content := []; synced := false |} d
     | Err _ => untouched d
     end).
Proof.
  apply triple_call; [apply untouched_safe|done|]. intros d r d' E [Hg Hu].
  destruct (dir d !! tmp) as [e|] eqn:Et; injection E as <- <-; [done|].
  destruct Hg as [Hum Hs Hf Hm]. assert (inodes d !! next d = None) as Hn by by apply Hf.
  split_and!; simpl.
  - split; [split|]; simpl; [done| | | |].
    + etransitivity; [exact Hs|]. by apply insert_subseteq.
    + intros i Hi. rewrite lookup_insert_ne by lia. apply Hf. lia.
    + intros i n. rewrite lookup_insert_Some. intros [[<- <-]|[Hne Ei]] Hi; [simpl; by rewrite Hum|by eapply Hm].
    + intros q e Hq He. apply (Hu q); [done|]. revert He. unfold candidates. simpl.
      rewrite !elem_of_cons, lookup_insert_ne by done. naive_solver.
  - by rewrite lookup_insert_eq.
  - by eapply lookup_weaken_None.
  - by rewrite lookup_insert_eq, Hum.
Qed.

Lemma writing_update i n n' d : writing i n d -> mode n' = mode n ->
  writing i n' (set_inodes (<[i := n']> (inodes d)) d).
Proof.
  intros ([Hg Hu] & Ht & Hi & En) Em. split_and!; simpl; [|done|done|by rewrite lookup_insert_eq].
  split; [by eapply grown_update|]. intros q e. rewrite candidates_inodes. apply Hu.
Qed.

Lemma triple_write i n : synced n = false ->
  triple safe (writing i n) (write_all i bytes)
    (fun r d => match r with
     | Ok _ => writing i {| mode := mode n; content := content n ++ bytes; synced := false |} d
     | Err _ => untouched d
     end).
Proof.
  intros Hn. apply triple_call; [intros d; apply writing_safe| |]; unfold append_to.
  - intros e k d Hw. pose proof Hw as (_ & _ & _ & En). rewrite En. by eapply writing_update.
  - intros d r d' E Hw. pose proof Hw as (_ & _ & _ & En). rewrite En in E. injection E as <- <-.
    by eapply writing_update.
Qed.

Lemma triple_sync i n :
  triple safe (writing i n) (sync_all i)
    (fun r d => match r with
     | Ok _ => writing i {| mode := mode n; content := content n; synced := true |} d
     | Err _ => untouched d
     end).
Proof.
  apply triple_call; [intros d; apply writing_safe|by intros e k d [Hu _]|]. unfold sync_inode.
  intros d r d' E Hw. pose proof Hw as (_ & _ & _ & En). rewrite En in E. injection E as <- <-.
  by eapply writing_update.
Qed.

Lemma triple_rename i :
  triple safe (writing i replaced) (rename tmp path)
    (fun r d => match r with Ok _ => installed d | Err _ => safe d end).
Proof.
  apply triple_call; [intros d; apply writing_safe|intros e k d; apply writing_safe|].
  intros d r d' E ([Hg Hu] & Et & Hi & En). rewrite Et in E. injection E as <- <-.
  assert (grown (set_dir (<[path:=File i]> (delete tmp (dir d))) d)) as Hg' by by apply grown_set_dir.
  split; [split; [done|]|].
  - intros q e Hq. rewrite candidates_set. intros [->|He]; [|by left; apply Hu].
    destruct (decide (q = path)) as [->|Hne].
    + rewrite lookup_insert_eq. right. split; [done|]. by exists i.
    + rewrite lookup_insert_ne, lookup_delete_ne by congruence. left. apply Hu; [done|apply candidates_dir].
  - exists i. simpl. by rewrite lookup_insert_eq.
Qed.

Lemma triple_sync_dir :
  triple safe installed sync_parent_dir
    (fun r d => match r with Ok _ => installed d /\ unsynced d = [] | Err _ => safe d end).
Proof.
  eapply triple_bind with (R := fun _ => installed).
  - apply triple_call; [by intros d [Hs _]|done|]. intros d r d' [= <- <-]. done.
  - intros _. apply triple_call; [by intros d [Hs _]|by intros e n d [Hs _]|].
    intros d r d' [= <- <-] ([[Hu Hs Hf Hm] Hc] & Hi). split; [|done]. split; [|done].
    split; [by split|]. intros q e Hq He. simpl in *.
    apply list_elem_of_singleton in He as ->. exact (Hc q _ Hq (candidates_dir d q)).
  - by intros e d [Hs _].
Qed.

Lemma triple_replacing :
  triple safe untouched
    (f ← create_new tmp m; _ ← write_all f bytes; _ ← sync_all f; _ ← rename tmp path; sync_parent_dir)
    (fun r d => match r with Ok _ => installed d /\ unsynced d = [] | Err _ => safe d end).
Proof.
  eapply triple_bind; [apply triple_create| |intros e d; apply untouched_safe]. intros f.
  eapply triple_bind; [by apply triple_write| |intros e d; apply untouched_safe]. intros [].
  eapply triple_bind; [apply triple_sync| |intros e d; apply untouched_safe]. intros [].
  eapply triple_bind; [apply triple_rename| |done]. intros []. apply triple_sync_dir.
Qed.

(** The temporary name is never the name itself. *)
Lemma temp_sibling_ne : path <> tmp.
Proof.
  intros E. apply (f_equal String.length) in E. unfold tmp, temp_sibling in E.
  rewrite !length_append in E. simpl in E. lia.
Qed.

Definition done_or_safe (r : result unit IoError) (d : Disk) : Prop :=
  match r with Ok _ => installed d /\ unsynced d = [] | Err _ => safe d end.

Lemma triple_finish : triple safe untouched
  (written ← attempt (f ← create_new tmp m; _ ← write_all f bytes; _ ← sync_all f; _ ← rename tmp path; sync_parent_dir);
   match written with
   | Err e => _ ← attempt (E := IoError) (remove_file tmp); throw e
   | Ok tt => mret tt
   end) done_or_safe.
Proof.
  eapply triple_bind; [apply triple_attempt, triple_replacing| |by intros e d (? & ? & _)].
  intros [[]|e].
  - eapply triple_conseq with (P' := fun d => installed d /\ unsynced d = []); [apply triple_ret|done| |by intros r d [-> Hd]].
    intros d (r & [= <-] & Hd). done.
  - eapply triple_bind with (R := fun _ => safe); [| |done].
    + eapply triple_conseq; [apply triple_attempt, triple_cleanup|done| |]; [by intros d (r & [= <-] & Hd)|].
      intros r d (r' & -> & Hd). exact Hd.
    + intros a. eapply triple_conseq; [apply (triple_throw _ _ safe)|done|done|by intros r d [-> Hd]].
Qed.

Lemma replace_atomically_safe : triple safe untouched (replace_atomically path bytes m) done_or_safe.
Proof.
  eapply triple_bind; [apply triple_attempt, triple_remove_tmp| |by intros e d (? & ? & _)].
  intros removed. destruct removed as [u|[]];
    (eapply triple_conseq; [first [apply triple_finish|apply triple_throw]|done| |];
      [by intros d (? & [= <-] & ?)|try done; by intros r d [-> Hu]; apply untouched_safe]).
Qed.

Lemma untouched_start : disk_ok d0 -> untouched d0.
Proof.
  intros [Hn Hd]. split; [|done]. split; [done|done|done|]. intros i n Ei Ej. congruence.
Qed.

(** What a power loss leaves, from what the names lead to. *)
Lemma safe_after_loss d q x :
  disk_ok d0 -> safe d -> q <> tmp -> after_power_loss d q x -> after_power_loss d0 q x \/ q = path /\ x = Some bytes.
Proof.
  intros Hok [Hg Hs] Hq (e & He & Hx). destruct (Hs q e Hq He) as [H0|(-> & i & -> & _ & Ei)].
  - left. exists e. split; [done|]. destruct e as [[i|]|]; [|done..]. destruct Hx as (n & c & En & -> & Hc).
    destruct (no_dangling _ Hok q i H0) as [n0 E0]. exists n0, c. split; [done|]. split; [done|].
    pose proof (lookup_weaken _ _ _ _ E0 (old_inodes _ Hg)). by simplify_eq.
  - right. destruct Hx as (n & c & En & -> & Hc). rewrite Ei in En. injection En as <-. split; [done|]. f_equal. by apply Hc.
Qed.

Lemma installed_after_loss d x :
  installed d -> unsynced d = [] -> after_power_loss d path x <-> x = Some bytes.
Proof.
  intros (_ & i & Ed & _ & Ei) Hu. unfold after_power_loss, candidates. rewrite Hu. simpl. split.
  - intros (e & ->%list_elem_of_singleton & Hx). rewrite Ed in Hx. destruct Hx as (n & c & En & -> & Hc).
    rewrite Ei in En. injection En as <-. f_equal. by apply Hc.
  - intros ->. exists (Some (File i)). split; [rewrite Ed; left|]. by exists replaced, bytes.
Qed.

(** The disks of a run of [replace_atomically], and its end. *)
Lemma replace_run w r w' :
  disk_ok d0 -> disk w = d0 -> replace_atomically path bytes m w = (r, w') ->
  exists h, history w' = h ++ history w /\ Forall safe (disk w' :: h) /\ done_or_safe r (disk w').
Proof.
  intros Hok Hd E. destruct (replace_atomically_safe w r w' E) as [(h & Eh & Hs) Hr].
  { rewrite Hd. by apply untouched_start. }
  exists h. split_and!; [done| |done]. constructor; [|done]. destruct r; [apply Hr|done].
Qed.
End Replace.

(** ** Properties *)

(** C14: A durable write is atomic: whatever fails, and if the process or the machine stops at any
    moment, the name leads to what it led to or to exactly the new content, and the other names but
    the temporary one to what they led to; after success only the new content can be found. *)
Theorem replace_is_atomic w r w' path bytes m :
  disk_ok (disk w) -> history w = [] -> replace_atomically path bytes m w = (r, w') ->
  (forall d x, d ∈ disk w' :: history w' -> after_power_loss d path x ->
     after_power_loss (disk w) path x \/ x = Some bytes) /\
  (forall d q x, d ∈ disk w' :: history w' -> q <> path -> q <> temp_sibling path -> after_power_loss d q x ->
     after_power_loss (disk w) q x) /\
  (r = Ok tt -> forall x, after_power_loss (disk w') path x <-> x = Some bytes).
Proof.
  intros Hok Hh E. destruct (replace_run (disk w) path bytes m w r w') as (h & -> & Hs & Hr); [done..|].
  rewrite Hh, app_nil_r. rewrite Forall_forall in Hs. split_and!.
  - intros d x Hd Hx. destruct (safe_after_loss (disk w) path bytes m d path x) as [?|[_ ?]];
      eauto using temp_sibling_ne.
  - intros d q x Hd Hq Ht Hx. destruct (safe_after_loss (disk w) path bytes m d q x) as [?|[? _]]; eauto; done.
  - intros -> x. destruct Hr as [Hi Hu]. by eapply installed_after_loss.
Qed.

Lemma is_symlink_run path w r w1 :
  is_symlink path w = (r, w1) ->
  disk w1 = disk w /\ history w1 = disk w :: history w /\
  exists b, r = Ok b /\ forall target, dir (disk w) !! path = Some (Symlink target) ->
    (forall e n, head (answers w) <> Some (Fails e n)) -> b = true.
Proof.
  unfold is_symlink, call.
  destruct (answers w) as [|[|e n] l]; intros [= <- <-]; simpl; (split_and!; [done..|]); eexists; (split; [done|]);
    intros t Ht Ha; [by rewrite Ht..|by edestruct Ha].
Qed.

(** No bit for the group or for others. *)
Definition closed (n : Inode) : Prop := Z.land (mode n) 63 = 0.

(** While a secret is written, at every moment, each file the write created is closed to the
    group and to others, and every file there was -- the target of a link, or the old content a
    reader has open -- is as it was; a link under the name is refused and nothing is changed. *)
Theorem secret_stays_private w r w' path bytes :
  disk_ok (disk w) -> history w = [] -> write_private path bytes w = (r, w') ->
  (forall d i n, d ∈ disk w' :: history w' -> inodes d !! i = Some n ->
     inodes (disk w) !! i = Some n \/ inodes (disk w) !! i = None /\ closed n) /\
  (forall d i n, d ∈ disk w' :: history w' -> inodes (disk w) !! i = Some n -> inodes d !! i = Some n) /\
  (forall target, dir (disk w) !! path = Some (Symlink target) -> (forall e n, head (answers w) <> Some (Fails e n)) ->
     r = Err ELOOP /\ disk w' = disk w).
Proof.
  intros Hok Hh E. unfold write_private, mbind, io_bind in E.
  destruct (is_symlink path w) as [link w1] eqn:E1.
  apply is_symlink_run in E1 as (Hd1 & Hh1 & b & -> & Hlink). rewrite Hh in Hh1. destruct b.
  { injection E as <- <-. rewrite Hd1, Hh1. split_and!; [| |done];
      intros d i n Hd; repeat (apply elem_of_cons in Hd as [->|Hd]; [by left || done|]); by apply not_elem_of_nil in Hd. }
  destruct (replace_run (disk w) path bytes 384 w1 r w') as (h & -> & Hs & _); [done..|].
  assert (forall d, d ∈ disk w' :: h ++ history w1 -> grown (disk w) 384 d) as Hg.
  { rewrite Hh1, app_comm_cons. intros d [Hd|Hd]%elem_of_app.
    - rewrite Forall_forall in Hs. by apply Hs.
    - apply list_elem_of_singleton in Hd as ->. by apply (untouched_start (disk w) path). }
  split_and!; [| |intros t Ht Ha; by discriminate (Hlink t Ht Ha)].
  - intros d i n Hd En. destruct (Hg d Hd) as [_ Hs' _ Hm]. destruct (inodes (disk w) !! i) as [n0|] eqn:E0.
    + left. pose proof (lookup_weaken _ _ _ _ E0 Hs'). congruence.
    + right. split; [done|]. unfold closed. rewrite (Hm i n En E0), Z.land_comm, Z.land_assoc. apply Z.land_0_l.
  - intros d i n Hd En. eapply lookup_weaken; [exact En|]. by apply (Hg d Hd).
Qed.

(** ** Concrete runs *)

(** A directory with one world-readable key of three bytes, under the usual umask. *)
Definition demo_disk : Disk :=
  {| umask := 18; inodes := {[ 0%nat := {| mode := 420; content := map to_u8 [1; 2; 3]; synced := true |} ]}; next := 1;
     dir := {[ "agent.key"%string := File 0 ]}; unsynced := [] |}.
Definition demo_world (answers : list Answer) : World := {| disk := demo_disk; history := []; answers := answers |}.

Lemma demo_disk_ok : disk_ok demo_disk.
Proof.
  split.
  - intros i Hi. simpl in *. rewrite lookup_singleton_ne; [done|lia].
  - intros q i. unfold candidates. simpl. intros He%list_elem_of_singleton. symmetry in He.
    apply lookup_singleton_Some in He as [_ [= <-]]. by eexists.
Qed.

(** The machine may stop at any of eight moments of a write that succeeds. *)
Lemma replace_is_atomic_witness :
  disk_ok demo_disk /\
  exists w', replace_atomically "agent.key" (map to_u8 [7; 7]) 384 (demo_world []) = (Ok tt, w') /\
    length (history w') = 7%nat /\
    (forall d x, d ∈ disk w' :: history w' -> after_power_loss d "agent.key" x ->
       after_power_loss demo_disk "agent.key" x \/ x = Some (map to_u8 [7; 7])) /\
    forall x, after_power_loss (disk w') "agent.key" x <-> x = Some (map to_u8 [7; 7]).
Proof.
  split; [exact demo_disk_ok|].
  destruct (replace_atomically "agent.key" (map to_u8 [7; 7]) 384 (demo_world [])) as [r w'] eqn:E.
  assert (r = Ok tt /\ length (history w') = 7%nat) as [-> Hl].
  { apply (f_equal (fun p => (fst p, length (history (snd p))))) in E. vm_compute in E. injection E as E1 E2. split; [by rewrite <-E1|exact (eq_sym E2)]. }
  exists w'. split; [done|]. split; [done|].
  destruct (replace_is_atomic (demo_world []) _ _ _ _ _ demo_disk_ok eq_refl E) as (H1 & _ & H3). split; [exact H1|by apply H3].
Defined.

(** The same write when the disk is full after one byte. *)
Lemma secret_stays_private_witness :
  disk_ok demo_disk /\
  exists r w', write_private "agent.key" (map to_u8 [7; 7]) (demo_world [Done; Done; Done; Fails (Os "No space left") 1]) = (r, w') /\
    r = Err (Os "No space left") /\ dir (disk w') = dir demo_disk /\
    forall d i n, d ∈ disk w' :: history w' -> inodes d !! i = Some n ->
      inodes demo_disk !! i = Some n \/ inodes demo_disk !! i = None /\ closed n.
Proof.
  split; [exact demo_disk_ok|].
  destruct (write_private "agent.key" (map to_u8 [7; 7]) (demo_world [Done; Done; Done; Fails (Os "No space left") 1]))
    as [r w'] eqn:E.
  exists r, w'. split; [done|].
  assert (r = Err (Os "No space left") /\ map_to_list (dir (disk w')) = map_to_list (dir demo_disk)) as [Hr Hd].
  { apply (f_equal (fun p => (fst p, map_to_list (dir (disk (snd p)))))) in E. vm_compute in E. injection E as E1 E2. split; [by rewrite <-E1|exact (eq_sym E2)]. }
  split; [done|]. split; [by apply map_to_list_inj; rewrite Hd|].
  exact (proj1 (secret_stays_private (demo_world _) _ _ _ _ demo_disk_ok eq_refl E)).
Defined.
