(* ===== verification/CliConfig.v ===== *)
(** * CliConfig: reading the settings of the channel commands ([channel_run/cli_config.rs])

    Hex fields, the shape of a pasted certificate, and the signed agent card and capacity offer as
    the environment describes them.  The environment is a lookup; the card and the offer themselves,
    with their signatures, are ct-common's: parameters. *)
From S2P Require Import Prelude Text Codec Net.

#[local] Open Scope Z_scope.

(** ** Integers, with the errors of [str::parse] *)

Fixpoint int_error (max : Z) (digits : list ascii) (acc : Z) : string :=
  match digits with
  | [] => "number too large to fit in target type"
  | c :: digits =>
      if negb (is_ascii_digit c) then "invalid digit found in string"
      else
        let acc := acc * 10 + (code c - 48) in
        if max <? acc then "number too large to fit in target type" else int_error max digits acc
  end.
Definition parse_int (max : Z) (s : string) : result Z string :=
  match parse_uint max s with
  | Some v => Ok v
  | None =>
      Err match String.list_ascii_of_string s with
          | [] => "cannot parse integer from empty string"%string
          | c :: rest =>
              if Ascii.eqb c "+" then match rest with [] => "invalid digit found in string"%string | _ => int_error max rest 0 end
              else int_error max (c :: rest) 0
          end
  end.

(** ** The outer shape of a DER certificate *)

Definition der_certificate_shape (der : list byte) : result unit string :=
  let n := Zlen der in
  match der with
  | tag :: first :: rest =>
      if negb (u8 tag =? 48) then
        Err ("starts with 0x" +:+ hex_encode [tag] +:+ ", expected 0x30 (ASN.1 SEQUENCE) -- the usual cause is a "
             +:+ "byte lost at the start, e.g. at a line wrap while copying")%string
      else
        let* (declared, header) :=
          if u8 first <? 128 then Ok (u8 first, 2)
          else
            let count := Z.land (u8 first) 127 in
            if (count =? 0) || (4 <? count) then
              Err ("length header byte 0x" +:+ hex_encode [first] +:+ " is not a usable definite length")%string
            else if n <? 2 + count then
              Err ("truncated inside the length header (" +:+ show n +:+ " bytes total)")%string
            else Ok (be_value (take (Z.to_nat count) rest), 2 + count) in
        let expected := header + declared in
        if negb (expected =? n) then
          Err ("declares " +:+ show declared +:+ " content byte(s) (total " +:+ show expected +:+ ") but " +:+ show n
               +:+ " byte(s) were given -- " +:+ show (Z.abs (expected - n)) +:+ " byte(s) "
               +:+ (if (n <? expected)%Z then "missing" else "too many"))%string
        else Ok tt
  | _ => Err ("only " +:+ show n +:+ " byte(s) -- far too short for a certificate")%string
  end.

(** ** Hex fields of the environment *)

Definition hex_bytes (s : string) : option (list byte) :=
  let digits := String.list_ascii_of_string (trim s) in
  if bool_decide (digits = []) || negb (Zlen digits mod 2 =? 0) || negb (forallb is_ascii_hexdigit digits) then None
  else hex_pairs digits.
Definition hex32 (s : string) : option (list byte) :=
  let? v := hex_bytes s in
  if decide (length v = 32%nat) then Some v else None.

Definition Lookup := string -> option string.
Definition required (key what : string) : string := (key +:+ " required (" +:+ what +:+ ")")%string.
Definition req_str (f : Lookup) (key what : string) : result string string := ok_or (f key) (required key what).
Definition req_hex32 (f : Lookup) (key what : string) : result (list byte) string :=
  ok_or (let? s := f key in hex32 s) (required key what).
(** [SigningKey::from_bytes]: a key is its seed. *)
Definition req_key : Lookup -> string -> string -> result (list byte) string := req_hex32.
Definition opt_hex32 (f : Lookup) (key : string) : option (list byte) := let? s := f key in hex32 s.
Definition req_hex32_aliased (f : Lookup) (primary fallback what : string) : result (list byte) string :=
  match opt_hex32 f primary with
  | Some v => Ok v
  | None => ok_or (opt_hex32 f fallback) (primary +:+ " (or " +:+ fallback +:+ ") required (" +:+ what +:+ ")")%string
  end.

Definition nonempty (s : string) : bool := negb (is_empty s).
Definition tokens (c : ascii) (s : string) : list string := filter (fun t => nonempty t = true) (map trim (split_char c s)).
Definition split_csv (s : string) : list string := tokens "," s.

(** The trimmed value of a variable, when there is one. *)
Definition trimmed (f : Lookup) (key : string) : option string :=
  match option_map trim (f key) with
  | Some s => if is_empty s then None else Some s
  | None => None
  end.
Definition invalid (key e : string) : string := (key +:+ " invalid: " +:+ e)%string.
Definition opt_uint (max : Z) (f : Lookup) (key : string) (default_ : Z) : result Z string :=
  match trimmed f key with
  | Some s => map_err (invalid key) (parse_int max s)
  | None => Ok default_
  end.
Definition req_u64 (f : Lookup) (key : string) : result Z string :=
  let* s := ok_or (trimmed f key) (key +:+ " required")%string in
  map_err (invalid key) (parse_int U64_MAX s).

Fixpoint hex32_ids (toks : list string) : result (list (list byte)) string :=
  match toks with
  | [] => Ok []
  | tok :: toks =>
      let* id := ok_or (hex32 tok) tok in
      let* ids := hex32_ids toks in
      Ok (id :: ids)
  end.
Definition parse_hex32_ids (s : string) : result (list (list byte)) string := hex32_ids (tokens "," s).

(** ** Service types *)

Inductive ServiceType := CodeGeneration | SecurityReview | SafetyCheck | TextGeneration | Custom (name : string).
#[global] Instance ServiceType_eq_dec : EqDecision ServiceType.
Proof. solve_decision. Defined.

Definition parse_service_type (s : string) : option ServiceType :=
  if is_empty s then None
  else Some (if String.eqb s "code_generation" then CodeGeneration
             else if String.eqb s "security_review" then SecurityReview
             else if String.eqb s "safety_check" then SafetyCheck
             else if String.eqb s "text_generation" then TextGeneration
             else Custom s).

(** ** The agent card and the capacity offer *)

Record Skill := { skill_id : string; description : string }.
Definition parse_skill (entry : string) : Skill :=
  match split_once "|" entry with
  | Some (i, d) => {| skill_id := trim i; description := trim d |}
  | None => {| skill_id := entry; description := "" |}
  end.
Definition parse_card_skills (s : string) : list Skill := map parse_skill (tokens ";" s).

Record AgentCardCliConfig := {
  card_holder : list byte; role_tags : list string; skills : list Skill; cells : list (list byte);
  channels : list (list byte); card_ttl_secs : Z; out_dir : string }.

Definition default_str (f : Lookup) (key : string) : string := default ""%string (f key).
Definition ids_of (f : Lookup) (key : string) : result (list (list byte)) string :=
  map_err (fun bad => key +:+ " entry not 64 hex: " +:+ bad)%string (parse_hex32_ids (default_str f key)).
Definition card_from_lookup (f : Lookup) : result AgentCardCliConfig string :=
  let* holder := req_key f "CT_CHANNEL_HOLDER_KEY" "64 hex" in
  match split_csv (default_str f "CT_AGENT_CARD_ROLES") with
  | [] => Err "CT_AGENT_CARD_ROLES required (comma-separated role tags)"%string
  | roles =>
      let skills := parse_card_skills (default_str f "CT_AGENT_CARD_SKILLS") in
      let* channels := ids_of f "CT_AGENT_CARD_CHANNELS" in
      let* cells := ids_of f "CT_AGENT_CARD_CELLS" in
      let* ttl := opt_uint U64_MAX f "CT_AGENT_CARD_TTL_SECS" 86400 in
      Ok {| card_holder := holder; role_tags := roles; skills := skills; cells := cells; channels := channels;
            card_ttl_secs := ttl; out_dir := default "."%string (f "CT_AGENT_CARD_OUT"%string) |}
  end.
Definition skill_ids (c : AgentCardCliConfig) : list string := map skill_id (skills c).

Inductive CapacityKind := CloudApiQuota | LocalHardware.
Record AgentOfferCliConfig := {
  signing_key : list byte; kind : CapacityKind; models : list string; units_available : Z; min_price : Z;
  currency_id : string; offer_ttl_secs : Z; max_bids_per_window : Z; window_secs : Z; services : list ServiceType }.

Definition kind_from_lookup (f : Lookup) : result CapacityKind string :=
  match trimmed f "CT_AGENT_OFFER_KIND" with
  | None => Err "CT_AGENT_OFFER_KIND required ('cloud' or 'local')"%string
  | Some k =>
      if bool_decide (k ∈ ["cloud"; "cloud-api"; "CloudApiQuota"]%string) then Ok CloudApiQuota
      else if bool_decide (k ∈ ["local"; "local-hardware"; "LocalHardware"]%string) then Ok LocalHardware
      else Err ("CT_AGENT_OFFER_KIND must be 'cloud' or 'local', got '" +:+ k +:+ "'")%string
  end.
Fixpoint service_types (toks : list string) : result (list ServiceType) string :=
  match toks with
  | [] => Ok []
  | tok :: toks =>
      match parse_service_type tok with
      | None => Err "CT_AGENT_OFFER_SERVICES has an empty entry (check for a stray comma)"%string
      | Some st => let* sts := service_types toks in Ok (st :: sts)
      end
  end.
Definition services_from_lookup (f : Lookup) : result (list ServiceType) string :=
  match trimmed f "CT_AGENT_OFFER_SERVICES" with
  | Some s => service_types (tokens "," s)
  | None => Ok []
  end.
Definition offer_from_lookup (f : Lookup) : result AgentOfferCliConfig string :=
  let* key := req_key f "CT_CHANNEL_HOLDER_KEY" "64 hex" in
  let* kind := kind_from_lookup f in
  match split_csv (default_str f "CT_AGENT_OFFER_MODELS") with
  | [] => Err "CT_AGENT_OFFER_MODELS required (comma-separated model ids)"%string
  | models =>
      let* units := req_u64 f "CT_AGENT_OFFER_UNITS" in
      let* price := req_u64 f "CT_AGENT_OFFER_MIN_PRICE" in
      let* currency := ok_or (trimmed f "CT_AGENT_OFFER_CURRENCY") "CT_AGENT_OFFER_CURRENCY required"%string in
      let* ttl := opt_uint U64_MAX f "CT_AGENT_OFFER_TTL_SECS" 86400 in
      let* window := opt_uint U64_MAX f "CT_AGENT_OFFER_WINDOW_SECS" 60 in
      let* bids := opt_uint U32_MAX f "CT_AGENT_OFFER_MAX_BIDS" 60 in
      let* services := services_from_lookup f in
      Ok {| signing_key := key; kind := kind; models := models; units_available := units; min_price := price;
            currency_id := currency; offer_ttl_secs := ttl; max_bids_per_window := bids; window_secs := window;
            services := services |}
  end.

(** [AgentCard::sign_new], [CapacityOffer::sign_new] and [sign_new_with_services]. *)
Class Signed := {
  AgentCard : Type;
  CapacityOffer : Type;
  sign_card : list byte -> list string -> list Skill -> list (list byte) -> list (list byte) -> Z -> Z -> AgentCard;
  sign_offer : list byte -> CapacityKind -> list string -> Z -> Z -> string -> Z -> Z -> CapacityOffer;
  sign_offer_with_services : list byte -> CapacityKind -> list string -> Z -> Z -> string -> Z -> Z -> list ServiceType -> CapacityOffer;
}.
Definition build_card `{Signed} (c : AgentCardCliConfig) (now : Z) : AgentCard :=
  sign_card (card_holder c) (role_tags c) (skills c) (cells c) (channels c) now (sat_add64 now (card_ttl_secs c)).
Definition build_offer `{Signed} (c : AgentOfferCliConfig) (now : Z) : CapacityOffer :=
  let until := sat_add64 now (offer_ttl_secs c) in
  match services c with
  | [] => sign_offer (signing_key c) (kind c) (models c) (units_available c) (min_price c) (currency_id c) now until
  | _ => sign_offer_with_services (signing_key c) (kind c) (models c) (units_available c) (min_price c) (currency_id c) now until (services c)
  end.

Record AgentCardAutoRegister := { ar_cp_url : string; ar_card_url : string; ar_admin_token : string }.
Definition present (f : Lookup) (key : string) : option string :=
  let? s := f key in if is_empty (trim s) then None else Some s.
Definition auto_register_from_lookup (f : Lookup) : option AgentCardAutoRegister :=
  let? cp := present f "CT_AGENT_CP_URL" in
  let? card := present f "CT_AGENT_CARD_URL" in
  let? token := present f "CT_CP_EDGE_ADMIN_TOKEN" in
  Some {| ar_cp_url := cp; ar_card_url := card; ar_admin_token := token |}.

(** ** Hex fields *)

Lemma nibble_hexdigit c i : nibble c = Some i -> is_ascii_hexdigit c = true.
Proof.
  unfold nibble, is_ascii_hexdigit. destruct (is_ascii_digit c); [done|].
  destruct (between 65 (code c) 70); [by rewrite ?orb_true_r|]. by destruct (between 97 (code c) 102); rewrite ?orb_true_r.
Qed.
Lemma hex_pairs_digits digits l : hex_pairs digits = Some l -> forallb is_ascii_hexdigit digits = true.
Proof.
  revert digits. induction l as [|b l IH]; intros [|hi [|lo rest]] H; cbn in H; try done.
  { destruct (nibble hi), (nibble lo); cbn in H; try done. by destruct (hex_pairs rest). }
  destruct (nibble hi) eqn:E1; [|done]. destruct (nibble lo) eqn:E2; [|done].
  destruct (hex_pairs rest) eqn:E3; [|done]. injection H as _ ->.
  cbn. apply nibble_hexdigit in E1, E2. rewrite E1, E2. by apply IH.
Qed.

(** Any run of hex digits, in any case and with blanks around it, and nothing else. *)
Lemma hex_bytes_iff s l : hex_bytes s = Some l <-> l <> [] /\ to_ascii_lowercase (trim s) = hex_encode l.
Proof.
  unfold hex_bytes. set (digits := String.list_ascii_of_string (trim s)).
  assert (String.string_of_list_ascii digits = trim s) as Hd by apply string_of_list_ascii_of.
  split.
  - destruct (bool_decide_reflect (digits = [])) as [|Hne]; [done|]. cbn [orb].
    destruct (_ || _); [done|]. intros [Hl Hs]%hex_pairs_Some. rewrite Hd in Hs. split; [|done].
    intros ->. by destruct digits.
  - intros [Hne Hs]. pose proof (proj2 (hex_decode_iff (length l) (trim s) l) (conj eq_refl Hs)) as Hdec.
    unfold hex_decode in Hdec. fold digits in Hdec. destruct (decide (length digits = (length l * 2)%nat)) as [Hlen|]; [|by rewrite decide_True in Hdec]. rewrite decide_False in Hdec by (by intros []). 
    rewrite bool_decide_eq_false_2 by (intros E; rewrite E in Hlen; by destruct l).
    rewrite (hex_pairs_digits _ _ Hdec), Hlen, Nat2Z.inj_mul, Z.mod_mul by done. done.
Qed.
Lemma hex32_decode s : hex32 s = hex_decode 32 (trim s).
Proof.
  unfold hex32. destruct (hex_decode 32 (trim s)) as [l|] eqn:E.
  - apply hex_decode_iff in E as [Hl Hs]. rewrite (proj2 (hex_bytes_iff s l)); [by rewrite decide_True|].
    split; [by intros ->|done].
  - destruct (hex_bytes s) as [l|] eqn:Eh; [|done]. apply hex_bytes_iff in Eh as [_ Hs].
    case_decide as Hl; [|done]. by rewrite (proj2 (hex_decode_iff 32 (trim s) l) (conj Hl Hs)) in E.
Qed.
Lemma hex32_encode l : length l = 32%nat -> hex32 (hex_encode l) = Some l.
Proof. intros Hl. rewrite hex32_decode, trim_visible by apply hex_visible. by apply hex_decode_encode. Qed.
Lemma hex32_length s l : hex32 s = Some l -> length l = 32%nat.
Proof. unfold hex32. destruct (hex_bytes s); [|done]. case_decide; [|done]. by intros [= <-]. Qed.

(** Every token names a service: the refusal of an empty entry is never reached. *)
Lemma tokens_nonempty c s t : t ∈ tokens c s -> is_empty t = false.
Proof. unfold tokens, nonempty. rewrite list_elem_of_filter. intros [H _]. by destruct (is_empty t). Qed.
Lemma services_always_read f : exists l, services_from_lookup f = Ok l.
Proof.
  unfold services_from_lookup. destruct (trimmed f _) as [s|]; [|by eexists].
  assert (Forall (fun t => is_empty t = false) (tokens "," s)) as Ht by (apply Forall_forall; intros t; apply tokens_nonempty).
  induction Ht as [|t ts Ht _ [l IH]]; [by eexists|]. cbn [service_types]. unfold parse_service_type. rewrite Ht, IH. by eexists.
Qed.

(** ** The certificate's shape *)

(** A definite length in its short or long form. *)
Definition length_header (h : list byte) (n : Z) : Prop :=
  (exists b, h = [b] /\ u8 b < 128 /\ n = u8 b) \/
  (exists b bs, h = b :: bs /\ u8 b = 128 + Zlen bs /\ 1 <= Zlen bs <= 4 /\ n = be_value bs).

Lemma land127 b : 128 <= b < 256 -> Z.land b 127 = b - 128.
Proof.
  intros Hb. change 127 with (Z.ones 7). rewrite Z.land_ones by lia. change (2 ^ 7) with 128.
  pose proof (Z.div_mod b 128 ltac:(lia)). assert (b / 128 = 1) by (symmetry; apply Z.div_unique with (b - 128); lia). lia.
Qed.

(** A pasted certificate passes exactly when it is one SEQUENCE: the tag, a definite length of at
    most four bytes, and as many bytes as the length says. *)
Theorem der_shape_iff der : der_certificate_shape der = Ok tt <->
  exists h content, der = Byte.x30 :: h ++ content /\ length_header h (Zlen content).
Proof.
  split.
  - destruct der as [|tag [|first rest]]; [done..|]. cbn [der_certificate_shape].
    destruct (Z.eqb_spec (u8 tag) 48) as [Ht|]; [|done]. cbn [negb].
    assert (tag = Byte.x30) as -> by (apply u8_inj; by rewrite Ht).
    destruct (Z.ltb_spec (u8 first) 128) as [Hs|Hs]; cbn [rbind].
    + destruct (Z.eqb_spec (2 + u8 first) (Zlen (Byte.x30 :: first :: rest))) as [Hn|]; [|done]. intros _.
      exists [first], rest. split; [done|]. left. exists first. rewrite !length_cons in Hn. repeat split; lia.
    + pose proof (u8_range first). rewrite land127 by lia.
      destruct (_ || _) eqn:Ec; [done|]. apply orb_false_iff in Ec as [Ec1 Ec2].
      apply Z.eqb_neq in Ec1. apply Z.ltb_ge in Ec2.
      destruct (Z.ltb_spec (Zlen (Byte.x30 :: first :: rest)) (2 + (u8 first - 128))) as [|Hlen]; [done|]. cbn [rbind].
      set (bs := take (Z.to_nat (u8 first - 128)) rest).
      destruct (Z.eqb_spec (2 + (u8 first - 128) + be_value bs) (Zlen (Byte.x30 :: first :: rest))) as [Hn|]; [|done]. intros _.
      rewrite !length_cons in Hlen, Hn. assert (Zlen bs = u8 first - 128) as Hbs by (unfold bs; rewrite length_take; lia).
      exists (first :: bs), (drop (Z.to_nat (u8 first - 128)) rest). split; [by rewrite <-app_comm_cons; unfold bs; rewrite take_drop|].
      right. exists first, bs. rewrite length_drop. repeat split; lia.
  - intros (h & content & -> & [(b & -> & Hb & Hn)|(b & bs & -> & Hb & Hc & Hn)]); cbn [app der_certificate_shape].
    + change (u8 Byte.x30 =? 48) with true. cbn [negb]. rewrite (proj2 (Z.ltb_lt _ _) Hb). cbn [rbind].
      rewrite !length_cons, (proj2 (Z.eqb_eq _ _)) by lia. done.
    + change (u8 Byte.x30 =? 48) with true. cbn [negb]. pose proof (u8_range b).
      rewrite (proj2 (Z.ltb_ge (u8 b) 128)), land127 by lia.
      rewrite (proj2 (Z.eqb_neq (u8 b - 128) 0)), (proj2 (Z.ltb_ge 4 (u8 b - 128))) by lia. cbn [orb].
      rewrite !length_cons, length_app, (proj2 (Z.ltb_ge _ _)) by lia. cbn [rbind].
      rewrite Hb. replace (Z.to_nat (128 + Zlen bs - 128)) with (length bs) by lia. rewrite take_app_length.
      rewrite (proj2 (Z.eqb_eq _ _)) by lia. done.
Qed.

(** What lost bytes at its end, or gained some, is refused. *)
Lemma length_header_prefix h n h' n' rest rest' :
  length_header h n -> length_header h' n' -> h ++ rest = h' ++ rest' -> h = h' /\ n = n'.
Proof.
  intros [(b & -> & Hb & ->)|(b & bs & -> & Hb & Hc & ->)] [(b' & -> & Hb' & ->)|(b' & bs' & -> & Hb' & Hc' & ->)]; cbn [app];
    intros [= <- E]; try lia; [done|].
  assert (length bs = length bs') as Hl by lia. apply app_inj_1 in E as [-> _]; done.
Qed.
Lemma der_damage_is_seen der more :
  der_certificate_shape der = Ok tt -> der_certificate_shape (der ++ more) = Ok tt -> more = [].
Proof.
  rewrite !der_shape_iff. intros (h & c & -> & Hh) (h' & c' & E & Hh'). cbn [app] in E. injection E as E. rewrite <-app_assoc in E.
  destruct (length_header_prefix _ _ _ _ _ _ Hh Hh' E) as [<- Hn]. apply app_inv_head in E.
  apply (f_equal length) in E. rewrite length_app in E. destruct more; [done|]. cbn in E. lia.
Qed.
