(* ===== verification/Grants.v ===== *)
(** * Grants: provisioning a channel ([channel_run/provisioning.rs])

    The keys of a member and of an operator, the grants, invitations and staples an operator signs,
    the links of an overlay, and the requests behind the provisioning commands.  The signature scheme
    and the encodings of ct-common are type classes with the laws their documentation states. *)
From S2P Require Import Prelude Text Codec Net CliConfig.
From S2P Require PeerGrant.

#[local] Open Scope Z_scope.

Notation Direction := PeerGrant.Direction.
Notation Initiate := PeerGrant.Initiate.
Notation Accept := PeerGrant.Accept.
Notation Both := PeerGrant.Both.

(** ** What ct-common and ed25519 provide *)

(** A signing key is its seed. *)
Class Ed25519 := {
  verifying_key : list byte -> list byte;
  sign : list byte -> list byte -> list byte;
  verify : list byte -> list byte -> list byte -> bool;
  verify_sign sk m : verify (verifying_key sk) m (sign sk m) = true;
  length_verifying_key sk : length (verifying_key sk) = 32%nat;
  length_sign sk m : length (sign sk m) = 64%nat;
}.

Inductive Rights := Read | Write | ReadWrite.
Record ChannelGrant := {
  channel : list byte; holder : list byte; direction : Direction; rights : Rights; delegable : bool; expires_at : Z }.
Record SignedChannelGrant := { grant : ChannelGrant; signature : list byte }.
Record ChannelInvitation := {
  i_channel : list byte; invitee_identity : list byte; i_direction : Direction; i_rights : Rights; i_delegable : bool;
  i_expires_at : Z }.
Record SignedChannelInvitation := { invitation : ChannelInvitation; i_signature : list byte }.
Record MembershipStaple := {
  s_channel : list byte; s_holder : list byte; stapled_at : Z; s_expires_at : Z; s_signature : list byte }.

Definition storable (g : SignedChannelGrant) : Prop :=
  length (channel (grant g)) = 32%nat /\ length (holder (grant g)) = 32%nat /\ length (signature g) = 64%nat /\
  0 <= expires_at (grant g) <= U64_MAX.

(** [ct_common::channel]; the answer of [verify_stateless] in the very second of the expiry is left open. *)
Class ChannelCodec `{Ed25519} := {
  signing_bytes : ChannelGrant -> list byte;
  encode : SignedChannelGrant -> list byte;
  decode : list byte -> result SignedChannelGrant string;
  verify_stateless : list byte -> SignedChannelGrant -> Z -> result unit string;
  invitation_signing_bytes : ChannelInvitation -> list byte;
  encode_invitation : SignedChannelInvitation -> list byte;
  staple_signing_bytes : list byte -> list byte -> Z -> Z -> list byte;
  channel_id_for_link : list byte -> list byte -> list byte -> list byte;
  channel_id_for_pipeline_role : list byte -> string -> string -> list byte;
  member_noise_attest_bytes : list byte -> list byte -> list byte -> list byte;
  topology_operator_binding_bytes : string -> list byte -> list byte;
  encode_nonempty g : encode g <> [];
  decode_encode g : storable g -> decode (encode g) = Ok g;
  verify_stateless_ok pk g now : now <> expires_at (grant g) ->
    (verify_stateless pk g now = Ok tt <-> verify pk (signing_bytes (grant g)) (signature g) = true /\ now < expires_at (grant g));
  link_comm o a b : channel_id_for_link o a b = channel_id_for_link o b a;
  length_link o a b : length (channel_id_for_link o a b) = 32%nat;
}.

Definition newline : string := String "010" "".
Definition text_lines (l : list string) : string := String.concat "" (map (fun s => s +:+ newline)%string l).

(** ** The identity of a member *)

Record StaticKeypair := { private : list byte; public : list byte }.
Record ChannelIdentity := { id_holder : list byte; id_noise : StaticKeypair }.

Section Provisioning.
Context `{ChannelCodec}.

(** The random seed and the generated Noise pair come from outside. *)
Definition generate_identity (holder_seed : list byte) (noise : StaticKeypair) : ChannelIdentity :=
  {| id_holder := holder_seed; id_noise := noise |}.
Definition holder_key_hex (i : ChannelIdentity) : string := hex_encode (id_holder i).
Definition noise_key_hex (i : ChannelIdentity) : string := hex_encode (private (id_noise i)).
Definition holder_pubkey_hex (i : ChannelIdentity) : string := hex_encode (verifying_key (id_holder i)).
Definition noise_pubkey_hex (i : ChannelIdentity) : string := hex_encode (public (id_noise i)).
Definition env_block (i : ChannelIdentity) : string := text_lines
  ["# Agent-Fabric channel identity — generated locally, keep the private keys secret.";
   "# Give these PUBLIC keys to the channel operator (to sign your grant / register):";
   "export CT_CHANNEL_HOLDER_PUBKEY=" +:+ holder_pubkey_hex i;
   "export CT_CHANNEL_NOISE_PUBKEY=" +:+ noise_pubkey_hex i;
   "export CT_CHANNEL_HOLDER_KEY=" +:+ holder_key_hex i;
   "export CT_CHANNEL_NOISE_KEY=" +:+ noise_key_hex i;
   "#";
   "# #330: if you're behind a NAT and can't reach the operator's broker/relay ports";
   "# directly, you ALSO need CT_CHANNEL_RELAY_GATE (+ _CERT) — a separate, relay-gate";
   "# protocol from plain CT_CHANNEL_RELAY, not interchangeable with it. Ask your";
   "# operator whether this deployment needs it; if so, CT_CHANNEL_RELAY_GATE is the";
   "# deployment's unified front-door address (ask the operator, or fetch it from this";
   "# control plane's GET /network-info -> channel_relay_gate_port, same host as";
   "# CT_AGENT_CP_URL) and CT_CHANNEL_RELAY_GATE_CERT is the DER from GET /pki/ca (same";
   "# CA root you already trust for everything else). Omitting this when your side of a";
   "# channel pairing needs it fails silently downstream (an unhelpful early-eof), not";
   "# with an error naming the missing var — see docs.bunsenbrenner.org for details."]%string.

(** ** The operator *)

Record OperatorIdentity := { key : list byte }.
Definition key_hex (o : OperatorIdentity) : string := hex_encode (key o).
Definition pubkey_hex (o : OperatorIdentity) : string := hex_encode (verifying_key (key o)).

Definition sign_member_grant (o : OperatorIdentity) (ch holder_pubkey : list byte) (d : Direction) (expires : Z)
  : SignedChannelGrant :=
  let g := {| channel := ch; holder := holder_pubkey; direction := d; rights := ReadWrite; delegable := false; expires_at := expires |} in
  {| grant := g; signature := sign (key o) (signing_bytes g) |}.
Definition issue_member_grant (o : OperatorIdentity) (ch holder_pubkey : list byte) (d : Direction) (expires : Z) : string :=
  hex_encode (encode (sign_member_grant o ch holder_pubkey d expires)).
Definition sign_member_invitation (o : OperatorIdentity) (ch identity : list byte) (d : Direction) (r : Rights)
  (deleg : bool) (expires : Z) : SignedChannelInvitation :=
  let i := {| i_channel := ch; invitee_identity := identity; i_direction := d; i_rights := r; i_delegable := deleg; i_expires_at := expires |} in
  {| invitation := i; i_signature := sign (key o) (invitation_signing_bytes i) |}.
Definition issue_member_invitation (o : OperatorIdentity) (ch identity : list byte) (d : Direction) (r : Rights)
  (deleg : bool) (expires : Z) : string :=
  hex_encode (encode_invitation (sign_member_invitation o ch identity d r deleg expires)).
Definition issue_membership_staple (o : OperatorIdentity) (ch holder_pubkey : list byte) (at_ ttl_secs : Z) : MembershipStaple :=
  let expires := sat_add64 at_ ttl_secs in
  {| s_channel := ch; s_holder := holder_pubkey; stapled_at := at_; s_expires_at := expires;
     s_signature := sign (key o) (staple_signing_bytes ch holder_pubkey at_ expires) |}.
Definition bind_topology (o : OperatorIdentity) (topology_id : string) : string * string :=
  let op_pub := verifying_key (key o) in
  (hex_encode op_pub, hex_encode (sign (key o) (topology_operator_binding_bytes topology_id op_pub))).
Definition operator_env_block (o : OperatorIdentity) : string := text_lines
  ["# Agent-Fabric channel OPERATOR identity — generated locally, keep the key secret.";
   "# Register this PUBLIC key as the channel authority (`ct-agent channel register`, POST /me/channels):";
   "#   operator_pubkey = " +:+ pubkey_hex o;
   "export CT_CHANNEL_OPERATOR_KEY=" +:+ key_hex o]%string.

Record CompiledLink := {
  l_channel : list byte; initiator_holder : list byte; acceptor_holder : list byte;
  initiator_grant : SignedChannelGrant; acceptor_grant : SignedChannelGrant }.
(** The links of the plan, in order; an id without a holder key ends it. *)
Fixpoint compile_overlay_grants (o : OperatorIdentity) (links : list (string * string)) (holder_of : string -> option (list byte))
  (expires : Z) : result (list CompiledLink) string :=
  match links with
  | [] => Ok []
  | (a_id, b_id) :: links =>
      let* a := ok_or (holder_of a_id) a_id in
      let* b := ok_or (holder_of b_id) b_id in
      let ch := channel_id_for_link (verifying_key (key o)) a b in
      let* rest := compile_overlay_grants o links holder_of expires in
      Ok ({| l_channel := ch; initiator_holder := a; acceptor_holder := b;
             initiator_grant := sign_member_grant o ch a Initiate expires;
             acceptor_grant := sign_member_grant o ch b Accept expires |} :: rest)
  end.

(** ** Material of a member *)

Record PipelineRoleMaterialRequest := {
  pr_operator_pubkey : list byte; pipeline_id : string; pr_role : string; pr_holder : list byte; pr_noise_pubkey : list byte }.
Definition pipeline_role_from_lookup (f : Lookup) : result PipelineRoleMaterialRequest string :=
  let* operator := req_hex32 f "CT_CHANNEL_OPERATOR_PUBKEY"
    "64 hex operator pubkey (from the pipeline registry entry's operator_pubkey_hex)" in
  let* id := req_str f "CT_PIPELINE_ID" "the pipeline's published id" in
  let* role := req_str f "CT_PIPELINE_ROLE" "the role tag you're joining (a role.tag from the pipeline spec)" in
  let* holder := req_key f "CT_CHANNEL_HOLDER_KEY" "64 hex; your holder PRIVATE key" in
  let* noise := req_hex32 f "CT_CHANNEL_NOISE_PUBKEY" "64 hex; your noise PUBLIC key" in
  Ok {| pr_operator_pubkey := operator; pipeline_id := id; pr_role := role; pr_holder := holder; pr_noise_pubkey := noise |}.
(** The channel, the holder's public key and the attestation of the Noise key. *)
Definition attested (ch holder_seed noise_pubkey : list byte) : list byte * list byte * list byte :=
  let pub := verifying_key holder_seed in
  (ch, pub, sign holder_seed (member_noise_attest_bytes ch pub noise_pubkey)).
Definition pipeline_role_compute (r : PipelineRoleMaterialRequest) : list byte * list byte * list byte :=
  attested (channel_id_for_pipeline_role (pr_operator_pubkey r) (pipeline_id r) (pr_role r)) (pr_holder r) (pr_noise_pubkey r).
Definition pipeline_role_render (r : PipelineRoleMaterialRequest) : string :=
  let '(ch, pub, att) := pipeline_role_compute r in text_lines
  ["pipeline_id       = " +:+ pipeline_id r; "role              = " +:+ pr_role r;
   "holder_pubkey     = " +:+ hex_encode pub; "noise_pubkey      = " +:+ hex_encode (pr_noise_pubkey r);
   "channel_id        = " +:+ hex_encode ch; "noise_attestation = " +:+ hex_encode att]%string.

Record MemberMaterialRequest := {
  mm_operator_pubkey : list byte; bridge_holder : list byte; mm_holder : list byte; mm_noise_pubkey : list byte }.
Definition member_material_from_lookup (f : Lookup) : result MemberMaterialRequest string :=
  let* operator := req_hex32 f "CT_CHANNEL_OPERATOR_PUBKEY" "64 hex operator pubkey (from central)" in
  let* bridge := req_hex32 f "CT_CHANNEL_BRIDGE_HOLDER" "64 hex bridge holder pubkey (from central)" in
  let* holder := req_key f "CT_CHANNEL_HOLDER_KEY" "64 hex; your member holder PRIVATE key" in
  let* noise := req_hex32 f "CT_CHANNEL_NOISE_PUBKEY" "64 hex; your member noise PUBLIC key" in
  Ok {| mm_operator_pubkey := operator; bridge_holder := bridge; mm_holder := holder; mm_noise_pubkey := noise |}.
Definition member_material_compute (r : MemberMaterialRequest) : list byte * list byte * list byte :=
  attested (channel_id_for_link (mm_operator_pubkey r) (bridge_holder r) (verifying_key (mm_holder r))) (mm_holder r) (mm_noise_pubkey r).
Definition member_material_render (r : MemberMaterialRequest) : string :=
  let '(ch, pub, att) := member_material_compute r in text_lines
  ["holder_pubkey     = " +:+ hex_encode pub; "noise_pubkey      = " +:+ hex_encode (mm_noise_pubkey r);
   "channel_id        = " +:+ hex_encode ch; "noise_attestation = " +:+ hex_encode att]%string.

(** ** The operator's requests *)

(** [match f(key).trim().to_ascii_lowercase()]. *)
Definition lowered (f : Lookup) (key : string) : option string := option_map (fun s => to_ascii_lowercase (trim s)) (f key).
Definition direction_of (d : string) : option Direction :=
  if bool_decide (d ∈ ["initiate"; "initiator"]%string) then Some Initiate
  else if bool_decide (d ∈ ["accept"; "responder"]%string) then Some Accept
  else None.
Definition OPERATOR_KEY_HINT : string := "64 hex; from `channel operator-init`".

Record OperatorGrantRequest := {
  g_operator : list byte; g_channel : list byte; member_holder : list byte; g_direction : Direction; g_expires_at : Z }.
Definition grant_request_from_lookup (f : Lookup) : result OperatorGrantRequest string :=
  let* operator := req_key f "CT_CHANNEL_OPERATOR_KEY" OPERATOR_KEY_HINT in
  let* ch := req_hex32 f "CT_GRANT_CHANNEL" "64 hex channel id" in
  let* member := req_hex32 f "CT_GRANT_MEMBER_HOLDER" "64 hex member holder pubkey" in
  let other := lowered f "CT_GRANT_DIRECTION" in
  let* d := ok_or (let? d := other in direction_of d)
    ("CT_GRANT_DIRECTION must be initiate|accept, got " +:+ debug_option other)%string in
  let* expires := req_str f "CT_GRANT_EXPIRES" "unix seconds" in
  let* expires := map_err (invalid "CT_GRANT_EXPIRES") (parse_int U64_MAX (trim expires)) in
  Ok {| g_operator := operator; g_channel := ch; member_holder := member; g_direction := d; g_expires_at := expires |}.
Definition grant_request_issue (r : OperatorGrantRequest) : string :=
  issue_member_grant {| key := g_operator r |} (g_channel r) (member_holder r) (g_direction r) (g_expires_at r).
Definition operator_key_from_lookup (f : Lookup) : result (list byte) string := req_key f "CT_CHANNEL_OPERATOR_KEY" OPERATOR_KEY_HINT.

Record OperatorInviteRequest := {
  v_operator : list byte; v_channel : list byte; v_invitee_identity : list byte; v_direction : Direction; v_rights : Rights;
  v_delegable : bool; v_expires_at : Z }.
Definition rights_of (r : string) : option Rights :=
  if bool_decide (r ∈ ["read"; "r"]%string) then Some Read
  else if bool_decide (r ∈ ["write"; "w"]%string) then Some Write
  else if bool_decide (r ∈ ["readwrite"; "read-write"; "rw"]%string) then Some ReadWrite
  else None.
Definition invite_request_from_lookup (f : Lookup) : result OperatorInviteRequest string :=
  let* operator := req_key f "CT_CHANNEL_OPERATOR_KEY" OPERATOR_KEY_HINT in
  let* ch := req_hex32 f "CT_INVITE_CHANNEL" "64 hex channel id" in
  let* identity := req_hex32 f "CT_INVITE_IDENTITY" "64 hex invitee identity pubkey" in
  let other := lowered f "CT_INVITE_DIRECTION" in
  let* d := ok_or (let? d := other in if String.eqb d "both" then Some Both else direction_of d)
    ("CT_INVITE_DIRECTION must be initiate|accept|both, got " +:+ debug_option other)%string in
  let other := lowered f "CT_INVITE_RIGHTS" in
  let* r := match other with
            | None => Ok ReadWrite
            | Some r => ok_or (rights_of r) ("CT_INVITE_RIGHTS must be read|write|readwrite, got " +:+ debug_option other)%string
            end in
  let deleg := match f "CT_INVITE_DELEGABLE"%string with
               | None => false
               | Some v => String.eqb (trim v) "1" || eq_ignore_ascii_case (trim v) "true"
               end in
  let* expires := req_str f "CT_INVITE_EXPIRES" "unix seconds" in
  let* expires := map_err (invalid "CT_INVITE_EXPIRES") (parse_int U64_MAX (trim expires)) in
  Ok {| v_operator := operator; v_channel := ch; v_invitee_identity := identity; v_direction := d; v_rights := r;
        v_delegable := deleg; v_expires_at := expires |}.
Definition invite_request_issue (r : OperatorInviteRequest) : string :=
  issue_member_invitation {| key := v_operator r |} (v_channel r) (v_invitee_identity r) (v_direction r) (v_rights r)
    (v_delegable r) (v_expires_at r).

Record OperatorTopologyBindRequest := { t_operator : list byte; topology_id : string }.
Definition topology_bind_from_lookup (f : Lookup) : result OperatorTopologyBindRequest string :=
  let* operator := req_key f "CT_CHANNEL_OPERATOR_KEY" OPERATOR_KEY_HINT in
  let* id := req_str f "CT_TOPOLOGY_ID" "the topology's id, from its editor URL" in
  Ok {| t_operator := operator; topology_id := id |}.
Definition topology_bind_issue (r : OperatorTopologyBindRequest) : string :=
  let '(pub, proof) := bind_topology {| key := t_operator r |} (topology_id r) in
  text_lines ["operator_pubkey = " +:+ pub; "proof           = " +:+ proof]%string.

(** ** Requests to the control plane *)

Record ChannelRegisterRequest := {
  r_cp_url : string; r_channel_hex : string; r_operator_pubkey_hex : string; r_token : string; rekey : bool }.
Definition set_value (f : Lookup) (key what : string) : result string string := ok_or (present f key) (required key what).
Definition OIDC_HINT : string := "OIDC bearer token for the channel owner".
Definition own_channel_hex (f : Lookup) : result string string :=
  let* ch := req_hex32_aliased f "CT_CHANNEL_ID" "CT_GRANT_CHANNEL" "64 hex channel id" in Ok (hex_encode ch).
Definition authority (f : Lookup) : result string string :=
  match opt_hex32 f "CT_CHANNEL_OPERATOR_PUBKEY", opt_hex32 f "CT_CHANNEL_OPERATOR_KEY" with
  | Some pk, _ => Ok (hex_encode pk)
  | None, Some sk => Ok (pubkey_hex {| key := sk |})
  | None, None =>
      Err ("CT_CHANNEL_OPERATOR_KEY (64 hex operator private, from `channel operator-init`) "
           +:+ "or CT_CHANNEL_OPERATOR_PUBKEY (64 hex) required")%string
  end.
Definition rekey_of (o : option string) : result bool string :=
  match o with
  | None => Ok false
  | Some v =>
      if bool_decide (v ∈ [""; "0"; "false"; "no"]%string) then Ok false
      else if bool_decide (v ∈ ["1"; "true"; "yes"]%string) then Ok true
      else Err ("CT_CHANNEL_REKEY must be 1/true or 0/false, got " +:+ debug_str v)%string
  end.
Definition register_with_token (f : Lookup) (token : string) : result ChannelRegisterRequest string :=
  let* cp := set_value f "CT_AGENT_CP_URL" "control-plane base URL" in
  let* ch := own_channel_hex f in
  let* op := authority f in
  let* rekey := rekey_of (lowered f "CT_CHANNEL_REKEY") in
  Ok {| r_cp_url := cp; r_channel_hex := ch; r_operator_pubkey_hex := op; r_token := token; rekey := rekey |}.
Definition register_from_lookup (f : Lookup) : result ChannelRegisterRequest string :=
  let* token := set_value f "CT_OIDC_TOKEN" OIDC_HINT in register_with_token f token.

Record ChannelAllowlistRequest := { a_cp_url : string; a_channel_hex : string; a_token : string }.
Definition allowlist_with_token (f : Lookup) (token : string) : result ChannelAllowlistRequest string :=
  let* cp := set_value f "CT_AGENT_CP_URL" "control-plane base URL" in
  let* ch := own_channel_hex f in
  Ok {| a_cp_url := cp; a_channel_hex := ch; a_token := token |}.
Definition allowlist_from_lookup (f : Lookup) : result ChannelAllowlistRequest string :=
  let* token := set_value f "CT_OIDC_TOKEN" OIDC_HINT in allowlist_with_token f token.

(** ** Issuing a grant from fields *)

Fixpoint split_last (s : string) : option (string * ascii) :=
  match s with
  | EmptyString => None
  | String c s => match split_last s with None => Some (EmptyString, c) | Some (x, d) => Some (String c x, d) end
  end.
Definition unit_secs (c : ascii) : option Z :=
  let c := ascii_lower c in
  if Ascii.eqb c "d" then Some 86400
  else if Ascii.eqb c "h" then Some 3600
  else if Ascii.eqb c "m" then Some 60
  else if Ascii.eqb c "s" then Some 1
  else None.
(** The number and the factor. *)
Definition duration_parts (s : string) : string * Z :=
  match split_last s with
  | Some (num, c) => match unit_secs c with Some mult => (num, mult) | None => (s, 1) end
  | None => (s, 1)
  end.
Definition parse_duration_secs (s : string) : result Z string :=
  let s := trim s in
  if is_empty s then Err "empty duration"%string
  else
    let '(num, mult) := duration_parts s in
    let* n := ok_or (parse_uint U64_MAX (trim num))
      (debug_str s +:+ " is not a valid duration (e.g. 30d, 24h, 90m, 3600, or 3600s)")%string in
    if n * mult <=? U64_MAX then Ok (n * mult) else Err (debug_str s +:+ " overflows")%string.

Definition never_happens (e : string) : string :=
  ("internal: issued grant failed self-verification (" +:+ e +:+ ") -- this should never happen, please report it")%string.
Definition issue_grant_core (operator ch member : list byte) (d : Direction) (expires_in_secs now : Z) : result string string :=
  let expires := sat_add64 now expires_in_secs in
  let grant_hex := grant_request_issue
    {| g_operator := operator; g_channel := ch; member_holder := member; g_direction := d; g_expires_at := expires |} in
  let* bytes := ok_or (hex_bytes grant_hex) "internal: issued grant hex failed to decode"%string in
  let* decoded := map_err (fun e => "internal: issued grant failed to re-decode: " +:+ e)%string (decode bytes) in
  let* _ := map_err never_happens (verify_stateless (verifying_key operator) decoded now) in
  Ok grant_hex.

Definition direction_field (d : string) : option Direction := direction_of (to_ascii_lowercase (trim d)).
Definition issue_grant_from_fields (operator : list byte) (channel_hex holder_hex d expires_in : string) (now : Z)
  : result string string :=
  let* ch := ok_or (hex32 (trim channel_hex)) "channel must be 64 hex characters"%string in
  let* member := ok_or (hex32 (trim holder_hex)) "holder must be 64 hex characters"%string in
  let* d := ok_or (direction_field d)
    ("direction must be " +:+ debug_str "initiate" +:+ " or " +:+ debug_str "accept" +:+ ", got "
     +:+ debug_str (to_ascii_lowercase (trim d)))%string in
  let* secs := parse_duration_secs expires_in in
  issue_grant_core operator ch member d secs now.

(** The terminal: what was asked or said, and the answers still to come. *)
Inductive Said := Asked (prompt : string) | Line (text : string).
Inductive Prompted (A : Type) := Waiting | Gone (e : string) | Read_ (raw : string) (a : A) (rest : list (result string string)).
Arguments Waiting {A}. Arguments Gone {A}. Arguments Read_ {A}.
(** A question is repeated until its answer parses. *)
Fixpoint ask_until {A} (prompt : string) (read : string -> result A string) (answers : list (result string string))
  : list Said * Prompted A :=
  match answers with
  | [] => ([Asked prompt], Waiting)
  | Err e :: _ => ([Asked prompt], Gone e)
  | Ok raw :: rest =>
      match read raw with
      | Ok a => ([Asked prompt], Read_ raw a rest)
      | Err e => let '(said, r) := ask_until prompt read rest in (Asked prompt :: Line ("  " +:+ e)%string :: said, r)
      end
  end.
Definition and_then {A B} (p : list Said * Prompted A) (k : A -> list (result string string) -> list Said * B) (waiting : B)
  (gone : string -> B) : list Said * B :=
  match p with
  | (said, Waiting) => (said, waiting)
  | (said, Gone e) => (said, gone e)
  | (said, Read_ _ a rest) => let '(more, r) := k a rest in (said ++ more, r)
  end.
Definition NOT_HEX : string := "not 64 hex characters, try again".
Definition read_hex (raw : string) : result (list byte) string := ok_or (hex32 (trim raw)) NOT_HEX.
Definition read_direction (raw : string) : result Direction string :=
  ok_or (direction_field raw)
    ("must be " +:+ debug_str "initiate" +:+ " or " +:+ debug_str "accept" +:+ ", try again")%string.
(** [None]: still waiting for an answer. *)
Definition issue_grant_interactively (operator : list byte) (answers : list (result string string)) (now : Z)
  : list Said * option (result string string) :=
  let gone e := Some (Err e) in
  and_then (ask_until "Channel id (64 hex, from `channel operator-init`'s registration): " read_hex answers) (fun ch answers =>
  and_then (ask_until "Member's holder pubkey (64 hex, from their `channel init`): " read_hex answers) (fun member answers =>
  and_then (ask_until "Direction (initiate/accept): " read_direction answers) (fun d answers =>
  and_then (ask_until "Expires in (e.g. 30d, 24h, 90m; bare number = seconds): " parse_duration_secs answers) (fun secs _ =>
    ([], Some (issue_grant_core operator ch member d secs now)))
  None gone) None gone) None gone) None gone.

(** ** Durations *)

Lemma split_last_app s c : split_last (s +:+ String c "") = Some (s, c).
Proof. induction s as [|a s IH]; [done|]. change (String a s +:+ String c "") with (String a (s +:+ String c "")). cbn [split_last]. by rewrite IH. Qed.
Lemma split_last_digits s x c : forall_char is_ascii_digit s = true -> split_last s = Some (x, c) -> is_ascii_digit c = true.
Proof.
  revert x. unfold forall_char. induction s as [|a s IH]; intros x; [done|]. cbn. intros [Ha Hs]%andb_true_iff.
  destruct (split_last s) as [[y d]|] eqn:E; intros [= <- <-]; [by apply (IH y)|done].
Qed.
Lemma unit_not_digit c : is_ascii_digit c = true -> unit_secs c = None.
Proof.
  intros Hd. unfold unit_secs, ascii_lower. destruct (is_ascii_upper c) eqn:E.
  { apply between_spec in E. apply between_spec in Hd. lia. }
  repeat (match goal with |- context [Ascii.eqb c ?x] => destruct (Ascii.eqb_spec c x) as [->|_] end; [done|]). done.
Qed.

(** The duration of a number with a unit, or bare: as long as it fits. *)
Definition UNITS : list (string * Z) := [("d", 86400); ("h", 3600); ("m", 60); ("s", 1); ("D", 86400); ("H", 3600); ("M", 60); ("S", 1); ("", 1)]%string.
Lemma duration_reads_back n u mult : 0 <= n <= U64_MAX -> (u, mult) ∈ UNITS ->
  parse_duration_secs (show n +:+ u) =
    if n * mult <=? U64_MAX then Ok (n * mult) else Err (debug_str (show n +:+ u) +:+ " overflows")%string.
Proof.
  intros Hn Hu. assert (forall_char visible (show n +:+ u) = true) as Hv.
  { rewrite forall_char_app, show_visible by lia. apply andb_true_iff. split; [done|].
    unfold UNITS in Hu. repeat (apply elem_of_cons in Hu as [[= -> ->]|Hu]; [done|]). by apply elem_of_nil in Hu. }
  unfold parse_duration_secs. rewrite (trim_visible _ Hv).
  assert (is_empty (show n +:+ u) = false) as ->.
  { pose proof (show_nonempty n). destruct (show n) eqn:E; done. }
  assert (duration_parts (show n +:+ u) = (show n, mult)) as ->.
  { unfold duration_parts. unfold UNITS in Hu.
    repeat (apply elem_of_cons in Hu as [[= -> ->]|Hu]; [try (by rewrite split_last_app)|]); [|by apply elem_of_nil in Hu].
    rewrite string_app_nil_r. destruct (split_last (show n)) as [[x c]|] eqn:E; [|done].
    apply split_last_digits in E; [|apply show_digits; lia]. by rewrite (unit_not_digit _ E). }
  rewrite (trim_visible (show n)) by (apply show_visible; lia). by rewrite parse_uint_show.
Qed.
Lemma duration_factor s : 1 <= (duration_parts s).2.
Proof.
  unfold duration_parts, unit_secs. destruct (split_last s) as [[x c]|]; [|done].
  repeat match goal with |- context [Ascii.eqb ?a ?b] => destruct (Ascii.eqb a b); [done|] end. done.
Qed.
Lemma duration_range s v : parse_duration_secs s = Ok v -> 0 <= v <= U64_MAX.
Proof.
  unfold parse_duration_secs. destruct (is_empty _); [done|]. pose proof (duration_factor (trim s)) as Hp.
  destruct (duration_parts (trim s)) as [num mult]. intros (n & En & Hv)%rbind_Ok. destruct (parse_uint _ _) eqn:E; [|done]. injection En as ->.
  apply parse_uint_range in E. destruct (Z.leb_spec (n * mult) U64_MAX); [|done]. injection Hv as <-. cbn in Hp. nia.
Qed.

(** ** What is issued *)

Definition plain_grant (ch member : list byte) (d : Direction) (expires : Z) : ChannelGrant :=
  {| channel := ch; holder := member; direction := d; rights := ReadWrite; delegable := false; expires_at := expires |}.
(** The hex is this grant, readable by its receiver and signed by this operator. *)
Definition issued (operator : list byte) (g : ChannelGrant) (hex : string) : Prop := exists sig,
  hex_bytes hex = Some (encode {| grant := g; signature := sig |}) /\
  decode (encode {| grant := g; signature := sig |}) = Ok {| grant := g; signature := sig |} /\
  verify (verifying_key operator) (signing_bytes g) sig = true.

Lemma issue_member_grant_issued o ch member d expires : length ch = 32%nat -> length member = 32%nat -> 0 <= expires <= U64_MAX ->
  issued (key o) (plain_grant ch member d expires) (issue_member_grant o ch member d expires).
Proof.
  intros Hc Hm He. exists (sign (key o) (signing_bytes (plain_grant ch member d expires))).
  split; [|split; [|apply verify_sign]].
  - apply hex_bytes_iff. split; [apply encode_nonempty|]. unfold issue_member_grant.
    rewrite trim_visible by apply hex_visible. apply hex_lowercase.
  - apply decode_encode. repeat split; try done; cbn; try lia. apply length_sign.
Qed.
Lemma issue_core_exact operator ch member d secs now : length ch = 32%nat -> length member = 32%nat ->
  0 <= now -> 0 <= secs ->
  let hex := issue_member_grant {| key := operator |} ch member d (sat_add64 now secs) in
  issue_grant_core operator ch member d secs now =
    let* _ := map_err never_happens
      (verify_stateless (verifying_key operator) (sign_member_grant {| key := operator |} ch member d (sat_add64 now secs)) now) in
    Ok hex.
Proof.
  intros Hc Hm Hn Hs hex. unfold issue_grant_core, grant_request_issue. cbn [g_operator g_channel member_holder g_direction g_expires_at].
  fold hex. set (e := sat_add64 now secs). assert (0 <= e <= U64_MAX) as He by (unfold e, sat_add64; unfold U64_MAX; lia).
  assert (hex_bytes hex = Some (encode (sign_member_grant {| key := operator |} ch member d e))) as ->.
  { apply hex_bytes_iff. split; [apply encode_nonempty|]. unfold hex, issue_member_grant.
    rewrite trim_visible by apply hex_visible. apply hex_lowercase. }
  cbn [ok_or rbind]. rewrite decode_encode by (repeat split; try done; cbn; try lia; apply length_sign). done.
Qed.

(** A grant is issued exactly as the fields say: for this channel, this holder, this direction
    and the time asked for, read and write, not delegable, readable by the member and signed with the
    operator's key; fields that parse, with a duration that is not zero, always give one. *)
Theorem issued_grant_is_what_was_asked operator ch_hex holder_hex d_text expires_in now : 0 <= now < U64_MAX ->
  (forall hex, issue_grant_from_fields operator ch_hex holder_hex d_text expires_in now = Ok hex ->
     exists ch member d secs, hex32 (trim ch_hex) = Some ch /\ hex32 (trim holder_hex) = Some member /\
       direction_field d_text = Some d /\ parse_duration_secs expires_in = Ok secs /\
       issued operator (plain_grant ch member d (Z.min U64_MAX (now + secs))) hex) /\
  (forall ch member d secs, hex32 (trim ch_hex) = Some ch -> hex32 (trim holder_hex) = Some member ->
     direction_field d_text = Some d -> parse_duration_secs expires_in = Ok secs -> 0 < secs ->
     is_ok (issue_grant_from_fields operator ch_hex holder_hex d_text expires_in now) = true).
Proof.
  intros Hnow. unfold issue_grant_from_fields. split.
  - intros hex (ch & Ec & (member & Em & (d & Ed & (secs & Es & Hcore)%rbind_Ok)%rbind_Ok)%rbind_Ok)%rbind_Ok.
    destruct (hex32 (trim ch_hex)) as [c|] eqn:Ec'; [injection Ec as ->|done].
    destruct (hex32 (trim holder_hex)) as [m|] eqn:Em'; [injection Em as ->|done].
    destruct (direction_field d_text) as [d'|] eqn:Ed'; [injection Ed as ->|done].
    pose proof (hex32_length _ _ Ec'). pose proof (hex32_length _ _ Em'). pose proof (duration_range _ _ Es).
    rewrite issue_core_exact in Hcore by (done || lia). apply rbind_Ok in Hcore as (_ & _ & [= <-]).
    exists ch, member, d, secs. repeat split; [done|]. unfold sat_add64. apply (issue_member_grant_issued {| key := operator |}); [done..|unfold U64_MAX; lia].
  - intros ch member d secs Ec Em Ed Es Hs. rewrite Ec, Em, Ed, Es. cbn [ok_or rbind].
    pose proof (duration_range _ _ Es). rewrite issue_core_exact by (by eapply hex32_length || lia).
    assert (now < sat_add64 now secs) as Hlt by (unfold sat_add64; lia).
    rewrite (proj2 (verify_stateless_ok (verifying_key operator) (sign_member_grant {| key := operator |} ch member d (sat_add64 now secs)) now ltac:(cbn; lia)));
      [done|]. split; [apply verify_sign|done].
Qed.

(** ** The prompts and the fields *)

Definition refused {A} (read : string -> result A string) (raw : string) : Prop := is_ok (read raw) = false.
Lemma ask_until_read {A} prompt (read : string -> result A string) answers said raw a rest :
  ask_until prompt read answers = (said, Read_ raw a rest) ->
  read raw = Ok a /\ exists bad, answers = map Ok bad ++ Ok raw :: rest /\ Forall (refused read) bad.
Proof.
  revert said. induction answers as [|[r|e] answers IH]; intros said; cbn; [done| |done].
  destruct (read r) as [x|e] eqn:E.
  - intros [= <- -> -> ->]. split; [done|]. by exists [].
  - destruct (ask_until prompt read answers) as [said' res]. intros [= <- ->].
    destruct (IH said' eq_refl) as (Hr & bad & -> & Hb). split; [done|]. exists (r :: bad).
    split; [done|]. constructor; [unfold refused; by rewrite E|done].
Qed.
Lemma ask_until_gone {A} prompt (read : string -> result A string) answers said e :
  ask_until prompt read answers = (said, Gone e) -> Err e ∈ answers.
Proof.
  revert said. induction answers as [|[r|e'] answers IH]; intros said; cbn; [done| |intros [= _ ->]; by left].
  destruct (read r); [done|]. destruct (ask_until prompt read answers) as [said' res]. intros [= <- ->].
  right. by apply (IH said').
Qed.
Lemma and_then_done {A B} (p : list Said * Prompted A) (k : A -> list (result string string) -> list Said * option B) (gone : string -> option B) r :
  (and_then p k None gone).2 = Some r ->
  (exists e, p.2 = Gone e /\ gone e = Some r) \/ (exists raw a rest, p.2 = Read_ raw a rest /\ (k a rest).2 = Some r).
Proof.
  destruct p as [said [|e|raw a rest]]; cbn; [done|left; by exists e|].
  intros Hr. right. exists raw, a, rest. split; [done|]. by destruct (k a rest).
Qed.

(** The terminal dialogue is the structured request: it ends with an error the terminal gave, or
    with what the request answers for the first valid answer to each question; the answers before
    these were refused one by one. *)
Theorem interactive_is_from_fields operator answers now r :
  (issue_grant_interactively operator answers now).2 = Some r ->
  (exists e, r = Err e /\ Err e ∈ answers) \/
  (exists bad1 a bad2 b bad3 c bad4 d rest,
     answers = map Ok bad1 ++ Ok a :: map Ok bad2 ++ Ok b :: map Ok bad3 ++ Ok c :: map Ok bad4 ++ Ok d :: rest /\
     Forall (refused read_hex) bad1 /\ Forall (refused read_hex) bad2 /\ Forall (refused read_direction) bad3 /\
     Forall (refused parse_duration_secs) bad4 /\ r = issue_grant_from_fields operator a b c d now).
Proof.
  unfold issue_grant_interactively.
  intros [(e & Ep & [= <-])|(a & ch & r1 & Ep & H1)]%and_then_done; destruct (ask_until _ _ _) as [? ?] eqn:E in Ep; cbn in Ep; subst.
  { left. exists e. split; [done|]. by eapply ask_until_gone. }
  apply ask_until_read in E as (Ra & bad1 & -> & F1).
  apply and_then_done in H1 as [(e & Ep & [= <-])|(b & member & r2 & Ep & H1)]; destruct (ask_until _ _ _) as [? ?] eqn:E in Ep; cbn in Ep; subst.
  { left. exists e. split; [done|]. apply ask_until_gone in E. set_solver. }
  apply ask_until_read in E as (Rb & bad2 & -> & F2).
  apply and_then_done in H1 as [(e & Ep & [= <-])|(c & d & r3 & Ep & H1)]; destruct (ask_until _ _ _) as [? ?] eqn:E in Ep; cbn in Ep; subst.
  { left. exists e. split; [done|]. apply ask_until_gone in E. set_solver. }
  apply ask_until_read in E as (Rc & bad3 & -> & F3).
  apply and_then_done in H1 as [(e & Ep & [= <-])|(x & secs & r4 & Ep & H1)]; destruct (ask_until _ _ _) as [? ?] eqn:E in Ep; cbn in Ep; subst.
  { left. exists e. split; [done|]. apply ask_until_gone in E. set_solver. }
  apply ask_until_read in E as (Rd & bad4 & -> & F4). cbn in H1. injection H1 as <-.
  right. exists bad1, a, bad2, b, bad3, c, bad4, x, r4. repeat split; [by rewrite <-?app_assoc|done..|].
  unfold read_hex in Ra, Rb. unfold read_direction in Rc. unfold issue_grant_from_fields.
  destruct (hex32 (trim a)); [injection Ra as ->|done]. destruct (hex32 (trim b)); [injection Rb as ->|done].
  destruct (direction_field c); [injection Rc as ->|done]. cbn [ok_or rbind]. by rewrite Rd.
Qed.

(** ** Overlays *)

(** The link between the holders [a] and [b]: both members derive its channel from their own key and
    the other's public one, and each gets the grant of one direction. *)
Definition link_of (o : OperatorIdentity) (expires : Z) (a b : list byte) (l : CompiledLink) : Prop :=
  initiator_holder l = a /\ acceptor_holder l = b /\
  (forall seed noise, verifying_key seed = a -> (member_material_compute
     {| mm_operator_pubkey := verifying_key (key o); bridge_holder := b; mm_holder := seed; mm_noise_pubkey := noise |}).1 = (l_channel l, a)) /\
  (forall seed noise, verifying_key seed = b -> (member_material_compute
     {| mm_operator_pubkey := verifying_key (key o); bridge_holder := a; mm_holder := seed; mm_noise_pubkey := noise |}).1 = (l_channel l, b)) /\
  grant (initiator_grant l) = plain_grant (l_channel l) a Initiate expires /\
  grant (acceptor_grant l) = plain_grant (l_channel l) b Accept expires /\
  (forall now, now < expires -> verify_stateless (verifying_key (key o)) (initiator_grant l) now = Ok tt /\
     verify_stateless (verifying_key (key o)) (acceptor_grant l) now = Ok tt).
Lemma signed_grant_verifies o ch h d expires now : now < expires ->
  verify_stateless (verifying_key (key o)) (sign_member_grant o ch h d expires) now = Ok tt.
Proof. intros Hn. apply verify_stateless_ok; cbn; [lia|]. split; [apply verify_sign|done]. Qed.

(** An overlay plan is compiled link by link, in order; every link carries the channel both
    members derive on their own and one verifying grant for each of them, in opposite directions; and
    it fails exactly with the first id that has no holder key. *)
Theorem overlay_links_join o links holder_of expires :
  match compile_overlay_grants o links holder_of expires with
  | Ok out => Forall2 (fun ids l => exists a b, holder_of ids.1 = Some a /\ holder_of ids.2 = Some b /\ link_of o expires a b l) links out
  | Err id => exists before a_id b_id after, links = before ++ (a_id, b_id) :: after /\
      Forall (fun ids => is_Some (holder_of ids.1) /\ is_Some (holder_of ids.2)) before /\
      ((id = a_id /\ holder_of a_id = None) \/ (id = b_id /\ is_Some (holder_of a_id) /\ holder_of b_id = None))
  end.
Proof.
  induction links as [|[a_id b_id] links IH]; cbn [compile_overlay_grants]; [constructor|].
  destruct (holder_of a_id) as [a|] eqn:Ea; cbn [ok_or rbind].
  2:{ exists [], a_id, b_id, links. repeat split; [constructor|by left]. }
  destruct (holder_of b_id) as [b|] eqn:Eb; cbn [ok_or rbind].
  2:{ exists [], a_id, b_id, links. repeat split; [constructor|right]. by rewrite Ea. }
  destruct (compile_overlay_grants o links holder_of expires) as [rest|id]; cbn [rbind].
  - constructor; [|done]. exists a, b. repeat split; try done; cbn.
    + intros seed noise <-. unfold member_material_compute, attested. cbn. by rewrite link_comm.
    + intros seed noise <-. done.
    + by apply signed_grant_verifies.
    + by apply signed_grant_verifies.
  - destruct IH as (before & x & y & after & -> & Hb & Hx). exists ((a_id, b_id) :: before), x, y, after.
    repeat split; [|done]. constructor; [cbn; by rewrite Ea, Eb|done].
Qed.

(** What the other side checks: the attestation is the holder's signature over its Noise key. *)
Lemma attestation_verifies ch seed noise :
  let '(c, pub, att) := attested ch seed noise in verify pub (member_noise_attest_bytes c pub noise) att = true.
Proof. apply verify_sign. Qed.
End Provisioning.

(** ** Concrete inputs *)

Definition pad (n : nat) (l : list byte) : list byte := take n (l ++ repeat Byte.x00 n).
Lemma length_pad n l : length (pad n l) = n.
Proof. unfold pad. rewrite length_take, length_app, repeat_length. lia. Qed.
Lemma pad_id l n : length l = n -> pad n l = l.
Proof. intros <-. unfold pad. by rewrite take_app_length. Qed.
Lemma pad_take n l r : take n (pad n l ++ r) = pad n l.
Proof. rewrite <-(length_pad n l) at 1. apply take_app_length. Qed.

(** A signature that shows its key. *)
Program Definition demo_ed25519 : Ed25519 := {|
  verifying_key sk := pad 32 sk; sign sk m := pad 32 sk ++ pad 32 m; verify pk m s := bool_decide (s = pk ++ pad 32 m) |}.
Next Obligation. intros sk m. cbn. by apply bool_decide_eq_true. Qed.
Next Obligation. intros sk. apply length_pad. Qed.
Next Obligation. intros sk m. cbn. by rewrite length_app, !length_pad. Qed.

Definition demo_direction_byte (d : Direction) : byte := match d with Initiate => Byte.x00 | Accept => Byte.x01 | Both => Byte.x02 end.
Definition demo_rights_byte (r : Rights) : byte := match r with Read => Byte.x00 | Write => Byte.x01 | ReadWrite => Byte.x02 end.
Definition demo_bool_byte (b : bool) : byte := if b then Byte.x01 else Byte.x00.
Definition demo_signing_bytes (g : ChannelGrant) : list byte :=
  channel g ++ holder g ++ demo_direction_byte (direction g) :: demo_rights_byte (rights g) :: demo_bool_byte (delegable g) ::
  be_bytes 8 (expires_at g).
Definition demo_encode (g : SignedChannelGrant) : list byte := Byte.x47 :: demo_signing_bytes (grant g) ++ signature g.
Definition demo_decode (l : list byte) : result SignedChannelGrant string :=
  match l with
  | _ :: l =>
      match drop 64 l with
      | d :: r :: b :: rest =>
          Ok {| grant := {| channel := take 32 l; holder := take 32 (drop 32 l);
                            direction := (match d with Byte.x00 => Initiate | Byte.x01 => Accept | _ => Both end);
                            rights := (match r with Byte.x00 => Read | Byte.x01 => Write | _ => ReadWrite end);
                            delegable := (match b with Byte.x01 => true | _ => false end); expires_at := be_value (take 8 rest) |};
                signature := drop 8 rest |}
      | _ => Err "short"%string
      end
  | [] => Err "empty"%string
  end.
Definition demo_verify (pk : list byte) (g : SignedChannelGrant) (now : Z) : result unit string :=
  if negb (bool_decide (signature g = pk ++ pad 32 (demo_signing_bytes (grant g)))) then Err "bad signature"%string
  else if now <? expires_at (grant g) then Ok tt else Err "expired"%string.
Definition demo_link (o a b : list byte) : list byte :=
  pad 32 (zip_with (fun x y => to_u8 (Z.lxor (u8 x) (u8 y))) a b).

Program Definition demo_codec : ChannelCodec (H := demo_ed25519) := {|
  signing_bytes := demo_signing_bytes; encode := demo_encode; decode := demo_decode; verify_stateless := demo_verify;
  invitation_signing_bytes i := i_channel i ++ invitee_identity i; encode_invitation i := i_signature i;
  staple_signing_bytes c h _ _ := c ++ h; channel_id_for_link := demo_link;
  channel_id_for_pipeline_role o id r := pad 32 (o ++ as_bytes id ++ as_bytes r);
  member_noise_attest_bytes c h n := c ++ h ++ n; topology_operator_binding_bytes id o := as_bytes id ++ o |}.
Next Obligation. intros g. done. Qed.
Next Obligation.
  intros [[c h d r b e] s] (Hc & Hh & Hs & He); cbn in *. unfold demo_encode, demo_decode, demo_signing_bytes. cbn.
  rewrite <-!app_assoc. replace 64%nat with (32 + 32)%nat by done. rewrite <-drop_drop.
  rewrite !(drop_app_length' c _ 32), (take_app_length' c), !(drop_app_length' h _ 32), (take_app_length' h) by done. cbn.
  rewrite <-?app_assoc.
  rewrite (take_app_length' (be_bytes 8 e)), (drop_app_length' (be_bytes 8 e)) by (by rewrite length_be_bytes).
  rewrite be_value_be_bytes_small by (unfold U64_MAX in He; change (256 ^ Z.of_nat 8) with 18446744073709551616; lia).
  by destruct d, r, b.
Qed.
Next Obligation.
  intros pk g now Hn. cbn. unfold demo_verify. destruct (bool_decide _) eqn:E; cbn [negb]; [|naive_solver].
  destruct (Z.ltb_spec now (expires_at (grant g))); naive_solver lia.
Qed.
Next Obligation.
  intros o a b. cbn. unfold demo_link. f_equal. revert b.
  induction a as [|x a IH]; intros [|y b]; [done..|]. cbn. by rewrite Z.lxor_comm, IH.
Qed.
Next Obligation. intros o a b. apply length_pad. Qed.

Definition demo_seed (b : byte) : list byte := repeat b 32.
Definition demo_hex (b : byte) : string := hex_encode (demo_seed b).
#[local] Existing Instances demo_ed25519 demo_codec.

Lemma issued_grant_is_what_was_asked_witness :
  parse_duration_secs "30d" = Ok 2592000 /\
  is_ok (issue_grant_from_fields (demo_seed Byte.x07) (demo_hex Byte.x01) (demo_hex Byte.x02) " Initiate" "30d" 1000) = true.
Proof.
  assert (parse_duration_secs "30d" = Ok 2592000) as Hd by (vm_compute; reflexivity). split; [exact Hd|].
  apply (proj2 (issued_grant_is_what_was_asked (demo_seed Byte.x07) (demo_hex Byte.x01) (demo_hex Byte.x02) " Initiate" "30d" 1000
    ltac:(unfold U64_MAX; lia)) (demo_seed Byte.x01) (demo_seed Byte.x02) Initiate 2592000);
    [vm_compute; reflexivity..|exact Hd|lia].
Defined.

Definition demo_answers : list (result string string) :=
  [Ok "what"; Ok (demo_hex Byte.x01); Ok (demo_hex Byte.x02); Ok "both"; Ok "accept"; Ok "soon"; Ok "90m"]%string.
Lemma interactive_is_from_fields_witness :
  exists r, (issue_grant_interactively (demo_seed Byte.x07) demo_answers 1000).2 = Some r /\ is_ok r = true /\
    ((exists e, r = Err e /\ Err e ∈ demo_answers) \/ exists a b c d, r = issue_grant_from_fields (demo_seed Byte.x07) a b c d 1000).
Proof.
  destruct ((issue_grant_interactively (demo_seed Byte.x07) demo_answers 1000).2) as [r|] eqn:E;
    [|exfalso; revert E; vm_compute; discriminate].
  exists r. split; [done|]. split; [revert E; vm_compute; intros [= <-]; reflexivity|].
  destruct (interactive_is_from_fields (demo_seed Byte.x07) demo_answers 1000 r E) as [He|(b1 & a & b2 & b & b3 & c & b4 & d & rest & _ & _ & _ & _ & _ & Hr)];
    [by left|right]. by exists a, b, c, d.
Defined.

(** Where the second of the expiry no longer counts, a duration of zero gives the error that the code says cannot happen. *)
Example zero_duration_is_reported :
  issue_grant_from_fields (demo_seed Byte.x07) (demo_hex Byte.x01) (demo_hex Byte.x02) "accept" "0" 1000 = Err (never_happens "expired").
Proof. vm_compute. reflexivity. Qed.
