(* ===== verification/DirOps.v ===== *)
(** * DirOps: files as names read them, and two files replaced together

    What a name of a [SecretFile] directory reads as, what a write leaves of the other names, and the
    installation of a pair -- a key and what belongs to it -- that [capability.rs] and
    [acme_orchestrate.rs] make in the same way: both staged beside their names, then renamed, the
    key first. *)
From S2P Require Import Prelude Text SecretFile.

#[local] Open Scope Z_scope.

Section Calls.
(** What stands where a link leads to. *)
Context (linked : string -> option (list byte)).

(** What a name leads to, for one that opens it now. *)
Definition reads (d : Disk) (name : string) : option (list byte) :=
  match dir d !! name with
  | Some (File i) => content <$> inodes d !! i
  | Some (Symlink t) => linked t
  | None => None
  end.
Definition read_file (name : string) : IO IoError (list byte) :=
  call unchanged (fun d => (match reads d name with Some c => Ok c | None => Err NotFound end, d)).
Definition create_dir_all : IO IoError unit := call unchanged (fun d => (Ok tt, d)).

End Calls.

(** ** Two directories *)

Record Dirs := { main : Disk; extra : Disk; dir_answers : list Answer; moments : list (Disk * Disk) }.
Definition D (E A : Type) : Type := Dirs -> result A E * Dirs.
#[global] Instance d_ret {E} : MRet (D E) := fun A a s => (Ok a, s).
#[global] Instance d_bind {E} : MBind (D E) := fun A B f m s =>
  match m s with
  | (Ok a, s) => f a s
  | (Err e, s) => (Err e, s)
  end.
Definition d_throw {E A} (e : E) : D E A := fun s => (Err e, s).
Definition d_attempt {E A} (m : D E A) : D E (result A E) := fun s => let '(r, s) := m s in (Ok r, s).

Definition on (d : Disk) (a : list Answer) : World := {| disk := d; history := []; answers := a |}.
Definition in_main {E A} (m : IO E A) : D E A := fun s =>
  let '(r, w) := m (on (main s) (dir_answers s)) in
  (r, {| main := disk w; extra := extra s; dir_answers := answers w;
         moments := map (fun d => (d, extra s)) (history w) ++ moments s |}).
Definition in_extra {E A} (m : IO E A) : D E A := fun s =>
  let '(r, w) := m (on (extra s) (dir_answers s)) in
  (r, {| main := main s; extra := disk w; dir_answers := answers w;
         moments := map (fun d => (main s, d)) (history w) ++ moments s |}).


(** Both files staged, then renamed, the first one first. *)
Definition install_pair {E} (wrap : IoError -> E) (stage_first stage_second : IO E unit) (first second : string) : IO E unit :=
  let first_tmp := (first +:+ ".new")%string in
  let second_tmp := (second +:+ ".new")%string in
  _ ← stage_first;
  staged ← attempt stage_second;
  match staged with
  | Err e => _ ← attempt (remove_file first_tmp); throw e
  | Ok _ =>
      _ ← io_map_err wrap (rename first_tmp first);
      _ ← io_map_err wrap (rename second_tmp second);
      io_map_err wrap sync_parent_dir
  end.

(** ** What a write leaves *)

Lemma triple_and {E A} (I I' P P' : Disk -> Prop) (m : IO E A) Q Q' :
  triple I P m Q -> triple I' P' m Q' ->
  triple (fun d => I d /\ I' d) (fun d => P d /\ P' d) m (fun r d => Q r d /\ Q' r d).
Proof.
  intros H1 H2 w r w' E0 [HP HP']. destruct (H1 w r w' E0 HP) as [(h & Eh & Hh) HQ].
  destruct (H2 w r w' E0 HP') as [(h' & Eh' & Hh') HQ']. rewrite Eh in Eh'. apply app_inv_tail in Eh' as <-.
  split; [|done]. exists h. split; [done|]. rewrite Forall_forall in *. eauto.
Qed.

(** Every call leaves a directory of numbered inodes without dangling names. *)
Lemma triple_ok_call {A} fails (effect : Disk -> result A IoError * Disk) :
  (forall n d, disk_ok d -> disk_ok (fails n d)) -> (forall d, disk_ok d -> disk_ok (effect d).2) ->
  triple disk_ok disk_ok (call fails effect) (fun _ => disk_ok).
Proof.
  intros Hf He. apply triple_call; [done|intros e n d; apply Hf|]. intros d r d' E Hd. pose proof (He d Hd) as H'. by rewrite E in H'.
Qed.

Lemma disk_ok_inodes d m : disk_ok d ->
  (forall i, is_Some (inodes d !! i) -> is_Some (m !! i)) -> (forall i, inodes d !! i = None -> m !! i = None) ->
  disk_ok (set_inodes m d).
Proof. intros [Hn Hd] Hs H0. split; simpl; [intros i Hi; by apply H0, Hn|]. intros q i Hi. apply Hs. by eapply Hd. Qed.

Lemma disk_ok_update d i n n' : disk_ok d -> inodes d !! i = Some n -> disk_ok (set_inodes (<[i := n']> (inodes d)) d).
Proof.
  intros Hd Hi. apply disk_ok_inodes; [done| |].
  - intros j Hj. destruct (decide (i = j)) as [->|Hne]; [rewrite lookup_insert_eq; by eexists|by rewrite lookup_insert_ne].
  - intros j Hj. rewrite lookup_insert_ne; [done|]. intros ->. congruence.
Qed.

Lemma disk_ok_set_dir d m : disk_ok d -> (forall q i, m !! q = Some (File i) -> exists q', dir d !! q' = Some (File i)) ->
  disk_ok (set_dir m d).
Proof.
  intros [Hn Hd] Hm. split; simpl; [done|]. intros q i Hi. unfold candidates in Hi. simpl in Hi.
  apply elem_of_cons in Hi as [Hi|Hi].
  - symmetry in Hi. destruct (Hm q i Hi) as [q' Hq]. apply (Hd q'). rewrite <-Hq. apply candidates_dir.
  - by apply (Hd q).
Qed.

Lemma disk_ok_unsynced d d' : inodes d' = inodes d -> next d' = next d -> dir d' = dir d -> unsynced d' = [] -> disk_ok d -> disk_ok d'.
Proof.
  intros Ei En Ed Eu [Hn Hd]. split; [by rewrite Ei, En|]. intros q i. unfold candidates. rewrite Eu, Ei, Ed. simpl.
  intros Hi%list_elem_of_singleton. apply (Hd q). rewrite Hi. apply candidates_dir.
Qed.

Lemma ok_remove name : triple disk_ok disk_ok (remove_file name) (fun _ => disk_ok).
Proof.
  apply triple_ok_call; [done|]. intros d Hd. destruct (dir d !! name); [|done]. apply disk_ok_set_dir; [done|].
  intros q i [_ Hi]%lookup_delete_Some. by exists q.
Qed.
Lemma ok_rename from to : triple disk_ok disk_ok (rename from to) (fun _ => disk_ok).
Proof.
  apply triple_ok_call; [done|]. intros d Hd. destruct (dir d !! from) as [e|] eqn:Ef; [|done]. apply disk_ok_set_dir; [done|].
  intros q i [[<- ->]|[_ [_ Hi]%lookup_delete_Some]]%lookup_insert_Some; by eexists.
Qed.
Lemma ok_sync_dir : triple disk_ok disk_ok sync_parent_dir (fun _ => disk_ok).
Proof.
  eapply triple_bind; [apply triple_ok_call; done| |done]. intros []. apply triple_ok_call; [done|]. intros d Hd.
  by apply (disk_ok_unsynced d).
Qed.
Lemma ok_append i bytes d : disk_ok d -> disk_ok (append_to i bytes d).
Proof. intros Hd. unfold append_to. destruct (inodes d !! i) eqn:E; [by eapply disk_ok_update|done]. Qed.
Lemma ok_create name m : triple disk_ok disk_ok (create_new name m) (fun _ => disk_ok).
Proof.
  apply triple_ok_call; [done|]. intros d [Hn Hd]. destruct (dir d !! name) eqn:E; [done|]. split; simpl.
  - intros i Hi. rewrite lookup_insert_ne by lia. apply Hn. lia.
  - intros q i. unfold candidates. simpl. rewrite elem_of_cons. intros [Hi|Hi].
    + symmetry in Hi. apply lookup_insert_Some in Hi as [[_ [= <-]]|[_ Hi]]; [rewrite lookup_insert_eq; by eexists|].
      destruct (Hd q i) as [n En]; [rewrite <-Hi; apply candidates_dir|].
      destruct (decide (next d = i)) as [->|Hne]; [rewrite lookup_insert_eq; by eexists|rewrite lookup_insert_ne by done; by eexists].
    + destruct (Hd q i Hi) as [n En].
      destruct (decide (next d = i)) as [->|Hne]; [rewrite lookup_insert_eq; by eexists|rewrite lookup_insert_ne by done; by eexists].
Qed.

Lemma ok_replace path bytes m : triple disk_ok disk_ok (replace_atomically path bytes m) (fun _ => disk_ok).
Proof.
  eapply triple_bind; [apply triple_attempt, ok_remove| |by intros e d (? & ? & _)]. intros removed.
  assert (triple disk_ok disk_ok (written ← attempt (f ← create_new (temp_sibling path) m; _ ← write_all f bytes; _ ← sync_all f;
      _ ← rename (temp_sibling path) path; sync_parent_dir);
      match written with Err e => _ ← attempt (E := IoError) (remove_file (temp_sibling path)); throw e | Ok tt => mret tt end)
    (fun _ => disk_ok)) as Hwrite.
  { eapply triple_bind; [apply (triple_attempt disk_ok disk_ok _ (fun _ => disk_ok))| |by intros e d (? & ? & _)].
    - eapply triple_bind; [apply ok_create| |done]. intros f.
      eapply triple_bind with (R := fun _ => disk_ok); [apply triple_ok_call; [intros n d; apply ok_append|intros d; apply ok_append]| |done].
      intros []. eapply triple_bind with (R := fun _ => disk_ok); [apply triple_ok_call; [done|]; intros d Hd; simpl; unfold sync_inode;
        destruct (inodes d !! f) eqn:E; [by eapply disk_ok_update|done]| |done].
      intros []. eapply triple_bind; [apply ok_rename| |done]. intros []. apply ok_sync_dir.
    - intros [[]|e].
      + eapply triple_conseq; [apply triple_ret|done|exact (fun d H => H)|]. by intros r d [-> (? & _ & ?)].
      + eapply triple_bind with (R := fun _ => disk_ok); [|intros a|done].
        * eapply triple_conseq; [apply triple_attempt, ok_remove|done| |]; [by intros d (? & _ & ?)|by intros r d (? & _ & ?)].
        * eapply triple_conseq; [apply (triple_throw disk_ok e disk_ok)|done|done|]. by intros r d [-> ?]. }
  destruct removed as [u|[]]; (eapply triple_conseq; [first [exact Hwrite|apply (triple_throw disk_ok _ disk_ok)]|done| |]);
    [try done; first [by intros d (? & _ & ?)|by intros r d [-> ?]]..].
Qed.

Section Kept.
Context (linked : string -> option (list byte)).
Notation rd := (reads linked).

(** Settled: nothing of the directory is still to be synced. *)
Definition settled (d : Disk) : Prop := disk_ok d /\ unsynced d = [].
(** Every name but [path] and its temporary one reads as in [d0]. *)
Definition kept_but (d0 : Disk) (path : string) (d : Disk) : Prop :=
  forall q, q <> path -> q <> temp_sibling path -> rd d q = rd d0 q.
Definition written (d0 : Disk) (path : string) (bytes : list byte) (d : Disk) : Prop :=
  kept_but d0 path d /\ settled d /\ rd d path = Some bytes.

Lemma safe_kept d0 path bytes m d : settled d0 -> safe d0 path bytes m d -> kept_but d0 path d.
Proof.
  intros [Hok Hu] [Hg Hs] q Hq Ht. destruct (Hs q (dir d !! q) Ht (candidates_dir d q)) as [H0|[-> _]]; [|done].
  pose proof H0 as Hc. unfold candidates in H0. rewrite Hu in H0. simpl in H0. apply list_elem_of_singleton in H0.
  unfold reads. rewrite H0. destruct (dir d0 !! q) as [[i|]|] eqn:Ed; [|done|done].
  destruct (no_dangling _ Hok q i) as [n En]; [rewrite <-H0; exact Hc|]. by rewrite En, (lookup_weaken _ _ _ _ En (old_inodes _ _ _ Hg)).
Qed.

Lemma kept_but_refl d path : kept_but d path d.
Proof. by intros q. Qed.

Lemma triple_is_symlink (I P : Disk -> Prop) name : (forall d, P d -> I d) -> triple I P (is_symlink name) (fun _ => P).
Proof.
  intros HI w r w' E0 HP. unfold is_symlink in E0.
  destruct (call unchanged _ w) as [r1 w1] eqn:E1. injection E0 as <- <-.
  refine (triple_call I P unchanged _ (fun _ => P) HI (fun _ _ _ H => H) _ w r1 w1 E1 HP). by intros d r d' [= <- <-].
Qed.

Lemma triple_replace d0 path bytes m : settled d0 ->
  triple (kept_but d0 path) (eq d0) (replace_atomically path bytes m)
    (fun r d => kept_but d0 path d /\ (is_ok r = true -> written d0 path bytes d)).
Proof.
  intros Hs. pose proof Hs as [Hok _].
  eapply triple_conseq; [exact (triple_and _ _ _ _ _ _ _ (replace_atomically_safe d0 path bytes m) (ok_replace path bytes m))| | |].
  - intros d [Hd _]. by eapply safe_kept.
  - intros d <-. split; [by apply untouched_start|done].
  - intros r d [Hd Hok']. assert (kept_but d0 path d) as Hk.
    { destruct r; [eapply safe_kept; [done|apply Hd]|by eapply safe_kept]. }
    split; [done|]. destruct r as [u|e]; [|done]. intros _. destruct Hd as [(_ & i & Ed & _ & Ei) Hu]. split; [done|].
    split; [done|]. unfold reads. by rewrite Ed, Ei.
Qed.
Lemma triple_write_durable d0 path bytes : settled d0 ->
  triple (kept_but d0 path) (eq d0) (write_durable path bytes)
    (fun r d => kept_but d0 path d /\ (is_ok r = true -> written d0 path bytes d)).
Proof. exact (fun Hs => triple_replace d0 path bytes 420 Hs). Qed.
Lemma triple_write_private d0 path bytes : settled d0 ->
  triple (kept_but d0 path) (eq d0) (write_private path bytes)
    (fun r d => kept_but d0 path d /\ (is_ok r = true -> written d0 path bytes d)).
Proof.
  intros Hs. eapply triple_bind with (R := fun _ => eq d0).
  - apply triple_is_symlink. by intros d <-.
  - intros [|].
    + eapply triple_conseq; [apply (triple_throw (kept_but d0 path) ELOOP (eq d0))|done|done|]. by intros r d [-> <-].
    + exact (triple_replace d0 path bytes 384 Hs).
  - intros e d <-. by split.
Qed.

(** The effect of a rename and of a removal on what names read. *)
Lemma triple_rename_reads (I P : Disk -> Prop) from to Q :
  (forall d, P d -> I d) -> (forall d e, P d -> Q (Err e) d) ->
  (forall d d', P d -> from <> to -> rd d' to = rd d from -> (forall q, q <> from -> q <> to -> rd d' q = rd d q) -> Q (Ok tt) d') ->
  from <> to -> triple I P (rename from to) Q.
Proof.
  intros HI He Ho Hne. apply triple_call; [done|by intros e n d; apply He|]. intros d r d' E Hd.
  destruct (dir d !! from) as [e|] eqn:Ef; injection E as <- <-; [|by apply He].
  apply (Ho d); [done|done| |].
  - unfold reads. simpl. by rewrite lookup_insert_eq, Ef.
  - intros q Hq Hq'. unfold reads. simpl. by rewrite lookup_insert_ne, lookup_delete_ne.
Qed.

Lemma triple_remove_reads (I P : Disk -> Prop) name (Q : Disk -> Prop) :
  (forall d, P d -> I d) -> (forall d, P d -> Q d) ->
  (forall d d', P d -> (forall q, q <> name -> rd d' q = rd d q) -> Q d') ->
  triple I P (remove_file name) (fun _ => Q).
Proof.
  intros HI He Ho. apply triple_call; [done|by intros e n d; apply He|]. intros d r d' E Hd.
  destruct (dir d !! name) as [e|] eqn:Ef; injection E as <- <-; [|by apply He].
  apply (Ho d); [done|]. intros q Hq. unfold reads. simpl. by rewrite lookup_delete_ne.
Qed.

Lemma triple_read_file {E} (wrap : IoError -> E) d0 name :
  triple (eq d0) (eq d0) (io_map_err wrap (read_file linked name))
    (fun r d => d = d0 /\ forall b, r = Ok b -> rd d0 name = Some b).
Proof.
  eapply triple_conseq; [apply triple_map_err with (P := eq d0) (Q := fun r d => d = d0 /\ forall b, r = Ok b -> rd d0 name = Some b)|done|done|].
  - apply triple_call; [done|by intros e n d <-|]. intros d r d' [= <- <-] <-. split; [done|].
    intros b Hb. destruct (rd d0 name); by simplify_eq.
  - intros r d (r' & -> & Hd & Hr). split; [done|]. intros b Hb. destruct r'; simpl in Hb; simplify_eq. by apply Hr.
Qed.
Lemma triple_create_dir {E} (wrap : IoError -> E) d0 :
  triple (eq d0) (eq d0) (io_map_err wrap create_dir_all) (fun _ d => d = d0).
Proof.
  eapply triple_conseq; [apply triple_map_err with (P := eq d0) (Q := fun _ d => d = d0)|done|done|by intros r d (r' & _ & ?)].
  apply triple_call; [done|by intros e n d <-|]. by intros d r d' [= <- <-].
Qed.

(** *** Promotion *)

Section Promote.
Context {E : Type} (wrap : IoError -> E) (d0 : Disk) (kp cp : string) (key second : list byte) (stage_first stage_second : IO E unit).
Notation kt := (kp +:+ ".new")%string.
Notation ct := (cp +:+ ".new")%string.
(** The six names a promotion uses are different. *)
Definition distinct_names (kp cp : string) : Prop :=
  NoDup [kp; cp; (kp +:+ ".new")%string; (cp +:+ ".new")%string; temp_sibling (kp +:+ ".new"); temp_sibling (cp +:+ ".new")].
Context (Hnames : distinct_names kp cp).
Hypothesis first_staged : triple (kept_but d0 kt) (eq d0) stage_first
  (fun r d => kept_but d0 kt d /\ (is_ok r = true -> written d0 kt key d)).
Hypothesis second_staged : forall d1, settled d1 -> triple (kept_but d1 ct) (eq d1) stage_second
  (fun r d => kept_but d1 ct d /\ (is_ok r = true -> written d1 ct second d)).

Definition both_old (d : Disk) : Prop := rd d kp = rd d0 kp /\ rd d cp = rd d0 cp.
Definition key_first (d : Disk) : Prop := rd d kp = Some key /\ rd d cp = rd d0 cp.
Definition both_new (d : Disk) : Prop := rd d kp = Some key /\ rd d cp = Some second.
Definition in_step (d : Disk) : Prop := both_old d \/ key_first d \/ both_new d.

Lemma names_ne : kp <> cp /\ kp <> kt /\ kp <> ct /\ kp <> temp_sibling kt /\ kp <> temp_sibling ct /\
  cp <> kt /\ cp <> ct /\ cp <> temp_sibling kt /\ cp <> temp_sibling ct /\ kt <> ct /\ kt <> temp_sibling ct /\ ct <> temp_sibling kt.
Proof.
  unfold distinct_names in *. rewrite !NoDup_cons in Hnames. destruct Hnames as (H1 & H2 & H3 & H4 & _).
  rewrite !not_elem_of_cons in *. naive_solver.
Qed.

Lemma install_pair_steps :
  triple in_step (eq d0) (install_pair wrap stage_first stage_second kp cp) (fun r d => in_step d /\ (is_ok r = true -> both_new d)).
Proof.
  pose proof names_ne as (N1 & N2 & N3 & N4 & N5 & N6 & N7 & N8 & N9 & N10 & N11 & N12).
  assert (forall d1 p d, both_old d1 -> kept_but d1 p d -> p <> kp -> p <> cp -> temp_sibling p <> kp -> temp_sibling p <> cp -> both_old d) as Hold.
  { intros d1 p d [H1 H2] Hk P1 P2 P3 P4. split; [rewrite Hk by congruence|rewrite Hk by congruence]; done. }
  assert (both_old d0) as Hb0 by done.
  eapply triple_bind with (R := fun r d => both_old d /\ (is_ok r = true -> written d0 kt key d)).
  { eapply triple_conseq; [exact first_staged| |done|].
    - intros d Hk. left. by eapply Hold.
    - intros r d [Hk Hw]. split; [by eapply Hold|done]. }
  2: { intros e d [Hb _]. split; [by left|done]. }
  intros []. apply triple_each. intros d1 [Hb1 Hw1]. destruct (Hw1 eq_refl) as (_ & Hs1 & Hkey).
  eapply triple_bind with (R := fun r d => exists r', r = Ok r' /\ both_old d /\
    (is_ok r' = true -> rd d kt = Some key /\ rd d ct = Some second)).
  { eapply triple_conseq; [apply triple_attempt, (second_staged d1 Hs1)| |done|].
    - intros d Hk. left. by eapply Hold.
    - intros r d (r' & -> & Hk & Hw). exists r'. split; [done|]. split; [by eapply Hold|]. intros Hr.
      destruct (Hw Hr) as (_ & _ & Hc). split; [|done]. by rewrite Hk by congruence. }
  2: { intros e d (r' & [=] & _). }
  intros [u|e]; apply triple_each; intros d2 (r' & [= <-] & Hb2 & Hr2).
  - destruct (Hr2 eq_refl) as [Hk2 Hc2].
    eapply triple_bind with (R := fun r d => in_step d /\ (is_ok r = true -> key_first d /\ rd d ct = Some second)).
    { eapply triple_conseq; [apply triple_map_err with (Q := fun r d => in_step d /\
        (is_ok r = true -> key_first d /\ rd d ct = Some second))|done|exact (fun _ H => H)|].
      - apply triple_rename_reads; [by intros d <-; left|by intros d e <-; split; [left|]| |done].
        intros d d' <- _ Ht Ho. assert (key_first d' /\ rd d' ct = Some second) as [Hf Hc].
        { split; [split; [by rewrite Ht|rewrite Ho by congruence; apply Hb2]|by rewrite Ho by congruence]. }
        split; [by right; left|done].
      - intros r d (r' & -> & Hi & Hr). split; [done|]. by destruct r'. }
    2: { by intros e d [Hi _]. }
    intros []. eapply triple_bind with (R := fun r d => in_step d /\ (is_ok r = true -> both_new d)).
    { eapply triple_conseq; [apply triple_map_err with (P := fun d => key_first d /\ rd d ct = Some second)
        (Q := fun r d => in_step d /\ (is_ok r = true -> both_new d))|done|by intros d [_ Hd]; apply Hd|].
      - apply triple_rename_reads; [by intros d [Hf _]; right; left|by intros d e [Hf _]; split; [right; left|]| |done].
        intros d d' [[Hk Hc] Hct] _ Ht Ho. assert (both_new d') as Hn.
        { split; [rewrite Ho by congruence; done|by rewrite Ht]. }
        split; [by right; right|done].
      - intros r d (r' & -> & Hi & Hr). split; [done|]. by destruct r'. }
    2: { by intros e d [Hi _]. }
    intros []. eapply triple_conseq; [apply triple_map_err with (P := both_new) (Q := fun _ => both_new)|done|by intros d [_ Hd]; apply Hd|].
    + eapply triple_bind with (R := fun _ => both_new); [|intros []|done]; (apply triple_call; [by right; right|done|]);
        intros d r d' [= <- <-] Hd; exact Hd.
    + intros r d (r' & -> & Hn). split; [by right; right|done].
  - eapply triple_bind with (R := fun _ => both_old); [|intros a|by intros e' d Hd; split; [left|]].
    + eapply triple_conseq; [apply triple_attempt with (Q := fun _ => both_old)|done|exact (fun _ H => H)|by intros r d (r' & _ & ?)].
      apply triple_remove_reads; [by intros d <-; left|by intros d <-|]. intros d d' <- Ho.
      split; rewrite Ho by congruence; apply Hb2.
    + eapply triple_conseq; [apply (triple_throw in_step e both_old)|done|done|]. intros r d [-> Hd]. split; [by left|done].
Qed.
End Promote.
End Kept.

(** *** Two directories *)

(** [dtriple I P m Q]: from directories in [P], at every moment [m] leaves them in [I] and it ends
    in [Q]. *)
Definition dtriple {E A} (I P : Disk -> Disk -> Prop) (m : D E A) (Q : result A E -> Disk -> Disk -> Prop) : Prop :=
  forall s r s', m s = (r, s') -> P (main s) (extra s) ->
    (exists l, moments s' = l ++ moments s /\ Forall (fun p => I p.1 p.2) l) /\ Q r (main s') (extra s').

Lemma dtriple_ret {E A} (a : A) I P : dtriple (E := E) I P (mret a) (fun r d x => r = Ok a /\ P d x).
Proof. intros s r s' [= <- <-] HP. split; [|done]. by exists []. Qed.
Lemma dtriple_throw {E A} (e : E) I P : dtriple I P (d_throw e : D E A) (fun r d x => r = Err e /\ P d x).
Proof. intros s r s' [= <- <-] HP. split; [|done]. by exists []. Qed.
Lemma dtriple_bind {E A C} I P (m : D E A) R (f : A -> D E C) Q :
  dtriple I P m R -> (forall a, dtriple I (R (Ok a)) (f a) Q) -> (forall e d x, R (Err e) d x -> Q (Err e) d x) ->
  dtriple I P (x ← m; f x) Q.
Proof.
  intros Hm Hf He s r s'. unfold mbind, d_bind.
  destruct (m s) as [[a|e] s1] eqn:E1; intros Er HP; destruct (Hm s _ s1 E1 HP) as [(l & El & Hl) HR].
  - destruct (Hf a s1 r s' Er HR) as [(l' & El' & Hl') HQ]. split; [|done].
    exists (l' ++ l). split; [by rewrite El', El, app_assoc|]. by apply Forall_app.
  - simplify_eq. split; [by exists l|by apply He].
Qed.
Lemma dtriple_each {E A} I P (m : D E A) Q :
  (forall d x, P d x -> dtriple I (fun d' x' => d' = d /\ x' = x) m Q) -> dtriple I P m Q.
Proof. intros Hm s r s' Er HP. by apply (Hm _ _ HP s r s' Er). Qed.
Lemma dtriple_conseq {E A} (I I' P P' : Disk -> Disk -> Prop) (m : D E A) Q Q' :
  dtriple I' P' m Q' -> (forall d x, I' d x -> I d x) -> (forall d x, P d x -> P' d x) -> (forall r d x, Q' r d x -> Q r d x) ->
  dtriple I P m Q.
Proof.
  intros Hm HI HP HQ s r s' Er H1. destruct (Hm s r s' Er (HP _ _ H1)) as [(l & El & Hl) Hq]. split; [|by apply HQ].
  exists l. split; [done|]. eapply Forall_impl; [exact Hl|]. intros [d x]. apply HI.
Qed.

Lemma dtriple_main {E A} (I : Disk -> Prop) (m : IO E A) Q d0 x0 :
  triple I (eq d0) m Q ->
  dtriple (fun d x => I d /\ x = x0) (fun d x => d = d0 /\ x = x0) (in_main m) (fun r d x => Q r d /\ x = x0).
Proof.
  intros Ht s r s'. unfold in_main. destruct (m (on (main s) (dir_answers s))) as [r1 w] eqn:Em. intros [= <- <-] [Hd Hx].
  destruct (Ht _ r1 w Em (eq_sym Hd)) as [(h & Eh & Hh) HQ]. cbn [on history] in Eh. rewrite app_nil_r in Eh. subst h.
  split; [|done]. eexists. split; [done|]. apply Forall_map. eapply Forall_impl; [exact Hh|]. by intros d H1.
Qed.
Lemma dtriple_extra {E A} (I : Disk -> Prop) (m : IO E A) Q d0 x0 :
  triple I (eq x0) m Q ->
  dtriple (fun d x => d = d0 /\ I x) (fun d x => d = d0 /\ x = x0) (in_extra m) (fun r d x => d = d0 /\ Q r x).
Proof.
  intros Ht s r s'. unfold in_extra. destruct (m (on (extra s) (dir_answers s))) as [r1 w] eqn:Em. intros [= <- <-] [Hd Hx].
  destruct (Ht _ r1 w Em (eq_sym Hx)) as [(h & Eh & Hh) HQ]. cbn [on history] in Eh. rewrite app_nil_r in Eh. subst h.
  split; [|done]. eexists. split; [done|]. apply Forall_map. eapply Forall_impl; [exact Hh|]. by intros d H1.
Qed.

