(* ===== verification/Json.v ===== *)
(** * Json: [serde_json] values

    The values the program builds and reads, [serde_json]'s accessors on them, and its printer as a
    class with what it documents.  Shared by the event log, the certificate client and the control
    plane calls. *)
From stdpp Require Import sorting.
From S2P Require Import Prelude Text.

#[local] Open Scope Z_scope.

(** ** Values *)

#[local] Set Warnings "-register-all".

(** [serde_json::Value]; the numbers the program writes and reads are integers.  [Map] keeps its keys sorted. *)
Inductive Value :=
| Null
| Bool (b : bool)
| Number (n : Z)
| Str (s : string)
| Array (l : list Value)
| Object (m : gmap string Value).
Notation Fields := (gmap string Value) (only parsing).

Definition key_before (x y : string * Value) : Prop := String.leb x.1 y.1 = true.
#[local] Instance key_before_dec x y : Decision (key_before x y) := decide (String.leb x.1 y.1 = true).
(** The entries of a [Map] in the order of its iterator. *)
Definition entries (m : Fields) : list (string * Value) := merge_sort key_before (map_to_list m).

(** [Value::to_string]: compact JSON on one line. *)
Class SerdeJson := {
  to_string : Value -> string;
  to_string_utf8 v : str_ok (to_string v);
  to_string_no_c0 v : forall_char (fun c => 32 <=? code c) (to_string v) = true;
  to_string_object m : exists s, to_string (Object m) = ("{" +:+ s +:+ "}")%string;
  to_string_empty m : to_string (Object m) = "{}"%string <-> m = ∅;
  to_string_number n : to_string (Number n) = show n;
  to_string_bool b : to_string (Bool b) = if b then "true"%string else "false"%string;
  to_string_null : to_string Null = "null"%string;
}.

(** ** Accessors *)

(** [Value::get] with a key; [pointer] is a path of them. *)
Definition jget (v : Value) (k : string) : option Value := match v with Object m => m !! k | _ => None end.
Definition as_str (v : Value) : option string := match v with Str s => Some s | _ => None end.
Definition as_array (v : Value) : option (list Value) := match v with Array l => Some l | _ => None end.
Definition as_bool (v : Value) : option bool := match v with Bool b => Some b | _ => None end.
Definition as_u64 (v : Value) : option Z := match v with Number n => if (0 <=? n) && (n <=? U64_MAX) then Some n else None | _ => None end.
Fixpoint pointer (v : Value) (path : list string) : option Value :=
  match path with
  | [] => Some v
  | k :: path => let? v := jget v k in pointer v path
  end.
Definition get_str (v : Value) (k : string) : option string := let? v := jget v k in as_str v.
Definition is_object (v : Value) : bool := match v with Object _ => true | _ => false end.

Lemma entries_lookup m k v : (k, v) ∈ entries m <-> m !! k = Some v.
Proof. unfold entries. rewrite merge_sort_Permutation. apply elem_of_map_to_list. Qed.

(** ** Text *)

(** No byte below a space. *)
Definition no_c0 (s : string) : bool := forall_char (fun c => 32 <=? code c) s.
Definition quote : string := String (ascii_of_N 34) EmptyString.
Definition printable (c : ascii) : bool := between 32 (code c) 126.

Lemma u8_of_ascii c : u8 (Ascii.byte_of_ascii c) = code c.
Proof. unfold u8, code. by destruct c as [[] [] [] [] [] [] [] []]. Qed.

(** ** A concrete printer *)

(** A small printer with the documented properties: keys and strings less what is not printable. *)
Definition printable_only (s : string) : string :=
  String.string_of_list_ascii (List.filter printable (String.list_ascii_of_string s)).
Definition show_scalar (v : Value) : string :=
  match v with
  | Null => "null"
  | Bool b => if b then "true" else "false"
  | Number n => show n
  | Str s => quote +:+ s +:+ quote
  | Array _ => "[]"
  | Object _ => "{}"
  end%string.
Definition show_fields (m : gmap string Value) : string :=
  foldr (fun kv s => (quote +:+ kv.1 +:+ quote +:+ ":" +:+ show_scalar kv.2 +:+ "," +:+ s)%string) EmptyString (map_to_list m).
Definition demo_to_string (v : Value) : string :=
  match v with
  | Object m => ("{" +:+ printable_only (show_fields m) +:+ "}")%string
  | Number n => show n
  | v => printable_only (show_scalar v)
  end.

Lemma printable_ok s : forall_char printable s = true -> str_ok s /\ no_c0 s = true.
Proof.
  unfold str_ok, no_c0, forall_char, as_bytes, String.list_byte_of_string.
  induction (String.list_ascii_of_string s) as [|c l IH]; [done|]. cbn [forallb map utf8_valid].
  intros [Hc Hl]%andb_true_iff. apply between_spec in Hc. destruct (IH Hl) as [-> ->]. rewrite u8_of_ascii, andb_true_r.
  assert (code c <=? 127 = true) as -> by lia. split; [done|lia].
Qed.
Lemma printable_only_ok s : forall_char printable (printable_only s) = true.
Proof.
  unfold printable_only, forall_char. rewrite list_ascii_of_string_of. apply forallb_forall. by intros c [_ Hc]%filter_In.
Qed.
Lemma show_printable n : forall_char printable (show n) = true.
Proof.
  assert (forall n, 0 <= n -> forall_char printable (show n) = true) as Hs.
  { intros m Hm. pose proof (show_visible m Hm) as Hv. unfold forall_char in *.
    rewrite forallb_forall in Hv |- *. intros c Hin%Hv%between_spec. apply between_spec. lia. }
  destruct n as [|p|p]; [done|by apply Hs|]. change (show (Z.neg p)) with ("-" +:+ show (Z.pos p))%string.
  by rewrite forall_char_app, Hs.
Qed.
Lemma demo_to_string_printable v : forall_char printable (demo_to_string v) = true.
Proof.
  destruct v; cbn [demo_to_string]; try apply printable_only_ok; [apply show_printable|].
  by rewrite !forall_char_app, printable_only_ok.
Qed.

Lemma printable_only_app s t : printable_only (s +:+ t) = (printable_only s +:+ printable_only t)%string.
Proof.
  unfold printable_only. induction s as [|c s IH]; [done|].
  change (String c s +:+ t)%string with (String c (s +:+ t)). cbn [String.list_ascii_of_string List.filter].
  destruct (printable c); cbn [String.string_of_list_ascii]; rewrite IH; reflexivity.
Qed.
Lemma demo_empty m : demo_to_string (Object m) = "{}"%string <-> m = ∅.
Proof.
  cbn [demo_to_string]. split; [|intros ->; reflexivity]. intros E. apply map_to_list_empty_iff.
  unfold show_fields in E. destruct (map_to_list m) as [|kv l]; [done|]. cbn [foldr] in E.
  rewrite printable_only_app in E. discriminate E.
Qed.
Lemma demo_bool b : demo_to_string (Bool b) = if b then "true"%string else "false"%string.
Proof. by destruct b. Qed.
Definition demo_serde : SerdeJson := {|
  to_string := demo_to_string;
  to_string_utf8 := fun v => proj1 (printable_ok _ (demo_to_string_printable v));
  to_string_no_c0 := fun v => proj2 (printable_ok _ (demo_to_string_printable v));
  to_string_object := fun m => ex_intro _ (printable_only (show_fields m)) eq_refl;
  to_string_empty := demo_empty;
  to_string_number := fun n => eq_refl;
  to_string_bool := demo_bool;
  to_string_null := eq_refl;
|}.
