(* ===== verification/Events.v ===== *)
(** * Events: structured operator events ([events.rs])

    The process-wide state of the event log: connection ids, the per-kind counters, the budget of
    the lines a peer can trigger, the rendering on stderr and the ring file with its rotation.  The
    ring runs over the directory of [SecretFile], so that every system call may fail and every
    moment of an append is on record. *)
From stdpp Require Import sorting.
From S2P Require Import Prelude Text Codec SecretFile Json.

#[local] Open Scope Z_scope.

(** ** The taxonomy *)

Definition LOG_FORMAT_ENV : string := "CT_AGENT_LOG_FORMAT".
Definition EVENTS_RING_FILE : string := "events.jsonl".
Definition EVENTS_RING_MAX_BYTES : Z := 1024 * 1024.

Definition KINDS : list string :=
  ["registered"; "registration_failed"; "disconnected"; "transport_switch"; "fallback_exhausted"; "direct_refused";
   "direct_legacy_served"; "channel_session"; "bridge_call"; "manifest_install"; "manifest_plan"; "update_check";
   "update_applied"; "credential_degraded"; "doctor_sandbox"; "origin_tls_terminated"; "ssh_owner_auth_refused";
   "forward_refused"; "forward_open"; "forward_close"]%string.

(** ** One event *)

Record Event := { ts : Z; session : string; conn : option Z; kind : string; fields : Fields }.

Definition event_at (ts : Z) (session : string) (conn : option Z) (kind : string) (fields : Value) : Event :=
  {| ts := ts; session := session; conn := conn; kind := kind;
     fields := match fields with Object m => m | other => {[ "value"%string := other ]} end |}.

Definition to_json (ev : Event) : Value :=
  let m := <["ts"%string := Number (ts ev)]> (fields ev) in
  let m := <["session"%string := Str (session ev)]> m in
  let m := match conn ev with
           | Some c => <["conn"%string := Number c]> m
           | None => delete "conn"%string m
           end in
  Object (<["kind"%string := Str (kind ev)]> m).

(** [char::escape_default] of a control character. *)
Definition hex_short (v : Z) : list ascii :=
  if v <? 16 then [hex_digit v] else [hex_digit (v / 16); hex_digit (v mod 16)].
Definition escape_default (v : Z) : list ascii :=
  if v =? 9 then ["\"; "t"]%char
  else if v =? 10 then ["\"; "n"]%char
  else if v =? 13 then ["\"; "r"]%char
  else (["\"; "u"; "{"] ++ hex_short v ++ ["}"])%char.

(** [char::is_control] is U+0000 to U+001F and U+007F to U+009F, the latter two bytes from U+0080. *)
Definition c0 (c : ascii) : bool := (code c <? 32) || (code c =? 127).
Definition c1_lead (c : ascii) : bool := code c =? 194.
Definition c1_tail (c : ascii) : bool := between 128 (code c) 159.

Fixpoint escaped (s : list ascii) : list ascii :=
  match s with
  | [] => []
  | a :: r =>
      if c0 a then escape_default (code a) ++ escaped r
      else if c1_lead a then
        match r with
        | b :: r' => if c1_tail b then escape_default (code b) ++ escaped r' else a :: escaped r
        | [] => [a]
        end
      else a :: escaped r
  end.
Definition push_escaped (line s : string) : string :=
  (line +:+ String.string_of_list_ascii (escaped (String.list_ascii_of_string s)))%string.

Section Render.
Context `{SerdeJson}.

Definition push_field (line : string) (kv : string * Value) : string :=
  let line := (line +:+ " " +:+ kv.1 +:+ "=")%string in
  match kv.2 with
  | Str s => push_escaped line s
  | other => (line +:+ to_string other)%string
  end.

Definition format_line (ev : Event) (json : bool) : string :=
  if json then to_string (to_json ev)
  else
    let line := ("ct-agent event: " +:+ kind ev)%string in
    let line := match conn ev with Some c => (line +:+ " conn=" +:+ show c)%string | None => line end in
    fold_left push_field (entries (fields ev)) line.
End Render.

(** [stderr_json]: the variable as the environment has it at this moment. *)
Definition stderr_json (v : option string) : bool :=
  match v with Some v => eq_ignore_ascii_case (trim v) "json" | None => false end.

(** [session_id] from the eight bytes drawn. *)
Definition session_id (drawn : list byte) : string := hex_encode drawn.

(** ** Counters and connection ids *)

Notation EventCounters := (list Z) (only parsing).
Definition new_counters : EventCounters := repeat 0 (length KINDS).
Fixpoint position (k : string) (l : list string) : option nat :=
  match l with
  | [] => None
  | x :: l => if String.eqb x k then Some 0%nat else option_map S (position k l)
  end.
Definition slot (k : string) : option nat := position k KINDS.
Definition bump (k : string) (cs : EventCounters) : EventCounters :=
  match slot k with
  | Some i => alter (fun n => wrap 64 (n + 1)) i cs
  | None => cs
  end.
Definition get (k : string) (cs : EventCounters) : Z :=
  match slot k with Some i => default 0 (cs !! i) | None => 0 end.

Definition HELP : string :=
  "# HELP ct_agent_events_total Structured operator events emitted since process start, by kind (ct-agent#178)."%string.
Definition nl : string := String (ascii_of_N 10) EmptyString.
Definition sample_line (k : string) (n : Z) : string :=
  ("ct_agent_events_total{kind=" +:+ quote +:+ k +:+ quote +:+ "} " +:+ show n +:+ nl)%string.
Definition render_prometheus (cs : EventCounters) : string :=
  (HELP +:+ nl +:+ "# TYPE ct_agent_events_total counter" +:+ nl +:+
   foldr String.append "" (zip_with sample_line KINDS cs))%string.

(** ** The budget of the lines a peer can trigger *)

Definition LIMIT_PER_WINDOW : Z := 30.
Definition LIMIT_WINDOW : Z := 60 * SECOND.
Record Budget := { window_start : Z; used : Z; suppressed : Z }.
Notation Budgets := (gmap string Budget) (only parsing).

(** [Instant::duration_since] is zero for a later instant. *)
Definition open_budget (b : option Budget) (now : Z) : Budget :=
  let b := default {| window_start := now; used := 0; suppressed := 0 |} b in
  if LIMIT_WINDOW <=? sat_sub now (window_start b)
  then {| window_start := now; used := 0; suppressed := suppressed b |} else b.

Definition allow_at (key : string) (now : Z) (bs : Budgets) : option Z * Budgets :=
  let b := open_budget (bs !! key) now in
  if LIMIT_PER_WINDOW <=? used b
  then (None, <[key := {| window_start := window_start b; used := used b; suppressed := suppressed b + 1 |}]> bs)
  else (Some (suppressed b), <[key := {| window_start := window_start b; used := used b + 1; suppressed := 0 |}]> bs).

(** ** The ring file *)

Definition ROTATED : string := (EVENTS_RING_FILE +:+ ".1")%string.

(** [Ring]: its directory is the [Disk] of its world. *)
Record Ring := { cap : Z; write_errors : Z; error_logged : bool }.
Definition ring_with_cap (cap : Z) : Ring := {| cap := cap; write_errors := 0; error_logged := false |}.
Definition ring_new : Ring := ring_with_cap EVENTS_RING_MAX_BYTES.

Section RingCalls.
(** What stands where a link leads to. *)
Context (linked : string -> result (list byte) IoError).

(** [create_private_dir_all]: the directory of the [Disk] exists already. *)
Definition create_private_dir_all : IO IoError unit := call unchanged (fun d => (Ok tt, d)).

(** A failure from outside is never [NotFound]: that answer is about the name. *)
Definition outside (a : list Answer) : list Answer :=
  match a with Fails NotFound _ :: a => Done :: a | _ => a end.
Definition looked_up (name : string) (d : Disk) : result Z IoError :=
  match dir d !! name with
  | Some (File i) => match inodes d !! i with Some n => Ok (Zlen (content n)) | None => Err NotFound end
  | Some (Symlink t) => let* c := linked t in Ok (Zlen c)
  | None => Err NotFound
  end.
Definition metadata_len (name : string) : IO IoError Z := fun w =>
  call unchanged (fun d => (looked_up name d, d))
    {| disk := disk w; history := history w; answers := outside (answers w) |}.

(** [append], [create], a mode and [O_NOFOLLOW]. *)
Definition open_append (name : string) (m : Z) : IO IoError nat :=
  call unchanged (fun d => match dir d !! name with
    | Some (File i) => (Ok i, d)
    | Some (Symlink _) => (Err ELOOP, d)
    | None =>
        (Ok (next d),
         {| umask := umask d;
            inodes := <[next d := {| mode := Z.land m (Z.lnot (umask d)); content := []; synced := false |}]> (inodes d);
            next := S (next d); dir := <[name := File (next d)]> (dir d); unsynced := dir d :: unsynced d |})
    end).
Definition file_mode (i : nat) : IO IoError Z :=
  call unchanged (fun d => (match inodes d !! i with Some n => Ok (Z.land (mode n) 511) | None => Err NotFound end, d)).
Definition chmod_inode (i : nat) (m : Z) (d : Disk) : Disk :=
  match inodes d !! i with
  | Some n => set_inodes (<[i := {| mode := m; content := content n; synced := synced n |}]> (inodes d)) d
  | None => d
  end.
Definition file_set_permissions (i : nat) (m : Z) : IO IoError unit :=
  call unchanged (fun d => (Ok tt, chmod_inode i m d)).

Definition open_append_private (name : string) : IO IoError nat :=
  f ← open_append name 384;
  m ← file_mode f;
  _ ← (if m =? 384 then mret tt else file_set_permissions f 384);
  mret f.

Definition append_locked (cap : Z) (line : string) : IO IoError unit :=
  _ ← create_private_dir_all;
  let incoming := str_len line + 1 in
  m ← attempt (metadata_len EVENTS_RING_FILE);
  current ← match m with
            | Ok len => mret len
            | Err NotFound => mret 0
            | Err e => throw e
            end;
  _ ← (if (0 <? current) && (cap <? current + incoming) then rename EVENTS_RING_FILE ROTATED else mret tt);
  f ← open_append_private EVENTS_RING_FILE;
  _ ← write_all f (as_bytes line);
  write_all f (as_bytes nl).

(** The second component: the failure that is logged. *)
Definition append (line : string) (r : Ring) (w : World) : Ring * option IoError * World :=
  match append_locked (cap r) line w with
  | (Ok _, w) => (r, None, w)
  | (Err e, w) =>
      ({| cap := cap r; write_errors := wrap 64 (write_errors r + 1); error_logged := true |},
       if error_logged r then None else Some e, w)
  end.

(** [BufRead::lines]: cut at every line feed, less a carriage return before it; the rest after the
    last line feed is a line when it is not empty. *)
Fixpoint raw_lines (acc : list byte) (s : list byte) : list (list byte) :=
  match s with
  | [] => match acc with [] => [] | _ => [rev acc] end
  | b :: s =>
      if u8 b =? 10
      then rev (match acc with c :: acc' => if u8 c =? 13 then acc' else acc | [] => [] end) :: raw_lines [] s
      else raw_lines (b :: acc) s
  end.
Fixpoint while_utf8 (l : list (list byte)) : list (list byte) :=
  match l with
  | x :: l => if utf8_valid x then x :: while_utf8 l else []
  | [] => []
  end.
Definition lines_of (s : list byte) : list string :=
  filter (fun l => l <> EmptyString) (map String.string_of_list_byte (while_utf8 (raw_lines [] s))).

Definition read_lines (name : string) (d : Disk) : list string :=
  match dir d !! name with
  | Some (File i) => match inodes d !! i with Some n => lines_of (content n) | None => [] end
  | Some (Symlink t) => match linked t with Ok c => lines_of c | Err _ => [] end
  | None => []
  end.
(** [split_off(len.saturating_sub(n))]. *)
Definition last_n {A} (n : nat) (l : list A) : list A := drop (length l - n) l.
Definition recent (n : nat) (d : Disk) : list string :=
  last_n n (read_lines ROTATED d ++ read_lines EVENTS_RING_FILE d).
End RingCalls.

(** ** The process *)

(** What [emit] and its callers share.  [ring]: none where no state directory resolved. *)
Inductive Printed := EventLine (line : string) | RingFailure (e : IoError).
Record Process := {
  sid : string; conn_id : Z; counts : EventCounters; budgets : Budgets; ring : option (Ring * World); stderr : list Printed
}.
Definition set_conn_id c p := {| sid := sid p; conn_id := c; counts := counts p; budgets := budgets p; ring := ring p; stderr := stderr p |}.
Definition set_counts c p := {| sid := sid p; conn_id := conn_id p; counts := c; budgets := budgets p; ring := ring p; stderr := stderr p |}.
Definition set_budgets b p := {| sid := sid p; conn_id := conn_id p; counts := counts p; budgets := b; ring := ring p; stderr := stderr p |}.
Definition set_ring r p := {| sid := sid p; conn_id := conn_id p; counts := counts p; budgets := budgets p; ring := r; stderr := stderr p |}.
Definition print l p := {| sid := sid p; conn_id := conn_id p; counts := counts p; budgets := budgets p; ring := ring p; stderr := stderr p ++ [l] |}.

Definition next_conn_id (p : Process) : Z * Process :=
  let n := wrap 64 (conn_id p + 1) in (n, set_conn_id n p).
Definition current_conn_id (p : Process) : option Z := if conn_id p =? 0 then None else Some (conn_id p).

Section Emit.
Context `{SerdeJson} (linked : string -> result (list byte) IoError).
(** The clock and the variable are read at each event. *)
Record Moment := { now_unix : Z; log_format : option string; instant : Z }.

Definition emit (at_ : Moment) (kind : string) (fields : Value) (p : Process) : Process :=
  let ev := event_at (now_unix at_) (sid p) (current_conn_id p) kind fields in
  let p := set_counts (bump kind (counts p)) p in
  let p := print (EventLine (format_line ev (stderr_json (log_format at_)))) p in
  match ring p with
  | Some (r, w) =>
      let '(r, logged, w) := append linked (to_string (to_json ev)) r w in
      let p := set_ring (Some (r, w)) p in
      match logged with Some e => print (RingFailure e) p | None => p end
  | None => p
  end.

Definition emit_limited (at_ : Moment) (kind : string) (fields : Value) (p : Process) : bool * Process :=
  match allow_at kind (instant at_) (budgets p) with
  | (None, bs) => (false, set_counts (bump kind (counts p)) (set_budgets bs p))
  | (Some n, bs) =>
      let fields := match fields with
                    | Object m => if 0 <? n then Object (<["suppressed"%string := Number n]> m) else Object m
                    | other => other
                    end in
      (true, emit at_ kind fields (set_budgets bs p))
  end.
End Emit.

(** ** The state directory *)

Definition blank (s : string) : bool := is_empty (trim s).
Definition configured_state_dir_from (f : string -> option string) : option string :=
  let? s := f "CT_AGENT_STATE_DIR"%string in
  let s := trim s in
  if is_empty s then None else Some s.
Definition blank_state_dir_warning (f : string -> option string) : option string :=
  let? v := f "CT_AGENT_STATE_DIR"%string in
  if blank v then
    Some "ct-agent: WARNING: CT_AGENT_STATE_DIR is set but empty -- treated as unset (earlier releases read it as the working directory; state kept there is NOT used now)"%string
  else None.
(** [PathBuf::from(home).join(".ct-agent")]: no second slash behind a trailing one. *)
Fixpoint ends_with_slash (s : string) : bool :=
  match s with
  | EmptyString => false
  | String c EmptyString => Ascii.eqb c "/"
  | String _ s => ends_with_slash s
  end.
Definition path_join (dir name : string) : string :=
  if ends_with_slash dir || is_empty dir then (dir +:+ name)%string else (dir +:+ "/" +:+ name)%string.
Definition state_dir_from (f : string -> option string) : option string :=
  let home := let? h := f "HOME"%string in if blank h then None else Some (path_join (trim h) ".ct-agent") in
  match f "CT_AGENT_STATE_DIR"%string with
  | Some dir => if blank dir then home else Some (trim dir)
  | None => home
  end.

(** ** What a line can contain *)

Fixpoint clean_l (s : list ascii) : bool :=
  match s with
  | [] => true
  | a :: r =>
      negb (c0 a) && negb (c1_lead a && match r with b :: _ => c1_tail b | [] => false end) && clean_l r
  end.
(** No control character at all. *)
Definition clean (s : string) : bool := clean_l (String.list_ascii_of_string s).

Lemma clean_cons_ascii c l : 32 <= code c < 127 -> clean_l (c :: l) = clean_l l.
Proof.
  intros Hc. simpl. unfold c0, c1_lead. assert (code c <? 32 = false) as -> by lia.
  assert (code c =? 127 = false) as -> by lia. assert (code c =? 194 = false) as -> by lia. done.
Qed.

Lemma clean_ascii_app l r : Forall (fun c => 32 <= code c < 127) l -> clean_l (l ++ r) = clean_l r.
Proof. induction 1 as [|c l Hc _ IH]; [done|]. cbn [app]. by rewrite clean_cons_ascii. Qed.

Lemma clean_app a c b : code c < 128 -> clean_l a = true -> clean_l (c :: b) = true -> clean_l (a ++ c :: b) = true.
Proof.
  intros Hc Ha Hb. induction a as [|x a IH]; [done|]. cbn [app clean_l] in Ha |- *.
  apply andb_true_iff in Ha as [Hx Ha]. rewrite (IH Ha), andb_true_r.
  destruct a as [|y a]; cbn [app] in *; [|done].
  assert (c1_tail c = false) as -> by (unfold c1_tail, between; lia).
  by apply andb_true_iff in Hx as [-> _]; rewrite andb_false_r.
Qed.

Lemma hex_digit_visible i : 0 <= i < 16 -> 32 <= code (hex_digit i) < 127.
Proof. intros Hi. unfold hex_digit. rewrite code_ascii_of; destruct (i <? 10) eqn:E; lia. Qed.

Lemma escape_default_ascii v : 0 <= v < 256 -> Forall (fun c => 32 <= code c < 127) (escape_default v).
Proof.
  intros Hv. unfold escape_default, hex_short.
  assert (forall c : ascii, bool_decide (32 <= code c < 127) = true -> 32 <= code c < 127) as Hd
    by by intros c ?%bool_decide_eq_true.
  pose proof (Z.div_mod v 16). pose proof (Z.mod_pos_bound v 16).
  repeat case_match; repeat (apply Forall_cons; split; [first [by apply Hd|apply hex_digit_visible; lia]|]); done.
Qed.

Lemma escape_default_head v : exists l, escape_default v = "\"%char :: l.
Proof. unfold escape_default. repeat case_match; by eexists. Qed.

Lemma escaped_head b r : c1_tail b = false -> exists x l, escaped (b :: r) = x :: l /\ c1_tail x = false.
Proof.
  intros Hb. cbn [escaped]. assert (forall v l, exists x l', escape_default v ++ l = x :: l' /\ c1_tail x = false) as He.
  { intros v l. destruct (escape_default_head v) as [l' ->]. by eexists _, _. }
  destruct (c0 b); [apply He|]. destruct (c1_lead b); [|by eexists _, _].
  destruct r as [|b' r]; [by eexists _, _|]. destruct (c1_tail b'); [apply He|by eexists _, _].
Qed.

Lemma escaped_clean s : clean_l (escaped s) = true.
Proof.
  remember (length s) as n eqn:En. assert (length s <= n)%nat as Hn by lia. clear En. revert s Hn.
  induction n as [|n IH]; intros [|a r] Hn; simpl in Hn; try done; try lia. cbn [escaped].
  destruct (c0 a) eqn:Ea; [rewrite clean_ascii_app by apply escape_default_ascii, code_range; apply IH; lia|].
  destruct (c1_lead a) eqn:El; [|cbn [clean_l]; rewrite Ea, El; cbn [andb negb]; apply IH; lia].
  destruct r as [|b r]; [by cbn [clean_l]; rewrite Ea, El|]. destruct (c1_tail b) eqn:Eb.
  - rewrite clean_ascii_app by apply escape_default_ascii, code_range. apply IH. simpl in Hn. lia.
  - destruct (escaped_head b r Eb) as (x & l & Ex & Hx).
    pose proof (IH (b :: r) ltac:(lia)) as Hr. rewrite Ex in Hr |- *.
    cbn [clean_l] in Hr |- *. by rewrite Ea, El, Hx, Hr.
Qed.

Lemma clean_no_c0 s : clean s = true -> no_c0 s = true.
Proof.
  unfold clean, no_c0, forall_char. induction s as [|c s IH]; [done|]. cbn [String.list_ascii_of_string clean_l forallb].
  intros [[Hc _]%andb_true_iff Hs]%andb_true_iff. rewrite (IH Hs), andb_true_r. unfold c0 in Hc. lia.
Qed.

Lemma printable_clean s : forall_char printable s = true -> clean s = true.
Proof.
  unfold clean, forall_char. induction s as [|c s IH]; [done|]. cbn [String.list_ascii_of_string forallb].
  intros [Hc Hs]%andb_true_iff. apply between_spec in Hc. rewrite clean_cons_ascii by lia. by apply IH.
Qed.

(** Two properties of lines that hold of a whole when they hold of parts joined by ASCII. *)
Class Joinable (P : string -> bool) := {
  join_mid a c b : 32 <= code c < 127 -> P a = true -> P b = true -> P (a +:+ String c b)%string = true;
  join_show n : 0 <= n -> P (show n) = true;
  join_escaped s : P (push_escaped EmptyString s) = true;
  join_ascii s : forall_char printable s = true -> P s = true;
}.

#[export] Instance clean_joinable : Joinable clean.
Proof.
  split.
  - intros a c b Hc Ha Hb. unfold clean in *. rewrite list_ascii_app. cbn [String.list_ascii_of_string].
    apply clean_app; [lia|done|]. by rewrite clean_cons_ascii.
  - intros n Hn. apply printable_clean. pose proof (show_visible n Hn) as Hv. unfold forall_char in *.
    rewrite forallb_forall in Hv |- *. intros c Hin%Hv%between_spec. apply between_spec. lia.
  - intros s. unfold clean, push_escaped. cbn [String.append]. rewrite list_ascii_app, list_ascii_of_string_of. apply escaped_clean.
  - apply printable_clean.
Qed.
#[export] Instance no_c0_joinable : Joinable no_c0.
Proof.
  split; try (intros; apply clean_no_c0; first [by apply join_show|by apply join_escaped|by apply join_ascii]).
  intros a c b Hc Ha Hb. unfold no_c0 in *. rewrite forall_char_app, Ha. simpl. fold (forall_char (fun c => 32 <=? code c) b).
  unfold forall_char in *. cbn [String.list_ascii_of_string forallb]. rewrite Hb. lia.
Qed.

Section Lines.
Context `{SerdeJson} (P : string -> bool) `{!Joinable P}.

(** What the event may carry: its kind and keys are the program's own. *)
Definition field_ok (kv : string * Value) : Prop :=
  P kv.1 = true /\ match kv.2 with Str _ => True | v => P (to_string v) = true end.

Lemma push_field_ok line kv : P line = true -> field_ok kv -> P (push_field line kv) = true.
Proof.
  intros Hl [Hk Hv]. unfold push_field. destruct kv as [k v]. cbn [fst snd] in *.
  assert (forall x, P x = true -> P (line +:+ " " +:+ k +:+ "=" +:+ x)%string = true) as Hx.
  { intros x Hx. apply (join_mid line " "%char); [by vm_compute|done|]. apply (join_mid k "="%char); [by vm_compute|done|done]. }
  assert (forall x, ((line +:+ " " +:+ k +:+ "=") +:+ x = line +:+ " " +:+ k +:+ "=" +:+ x)%string) as Ha
    by by intros x; rewrite !string_app_assoc.
  destruct v; cbn [push_escaped] in *; unfold push_escaped; rewrite Ha; apply Hx; try done. apply join_escaped.
Qed.

Lemma push_fields_ok l line : P line = true -> Forall field_ok l -> P (fold_left push_field l line) = true.
Proof. intros Hl Hf. revert line Hl. induction Hf; [done|]. intros line Hl. cbn [fold_left]. by apply IHHf, push_field_ok. Qed.

Lemma format_line_ok ev :
  P (kind ev) = true -> 0 <= default 0 (conn ev) -> (forall k v, fields ev !! k = Some v -> field_ok (k, v)) ->
  P (format_line ev false) = true.
Proof.
  intros Hk Hc Hf. apply push_fields_ok.
  - assert (P ("ct-agent event: " +:+ kind ev)%string = true) as Hp
      by (apply (join_mid "ct-agent event:" " "%char); [by vm_compute|by apply join_ascii|done]).
    destruct (conn ev) as [c|]; [|done]. cbn [default] in Hc.
    apply (join_mid _ " "%char); [by vm_compute|done|].
    apply (join_mid "conn" "="%char); [by vm_compute|by apply join_ascii|by apply join_show].
  - apply Forall_forall. intros [k v] Hin%entries_lookup. by apply Hf.
Qed.
End Lines.

Section Forge.
Context `{SerdeJson}.
Definition plain (v : Value) : Prop := match v with Array _ | Object _ => False | _ => True end.

(** Whatever strings a peer puts into an event -- a QUIC close reason, a host name -- the line
    on stderr has no line feed, escape or other C0 byte in either format, so it stays one line; and
    the compact form of an event whose values are strings and scalars has no control character of
    any kind.  Kind and keys are the program's own text. *)
Theorem event_line_is_one_line ev :
  (forall k v, fields ev !! k = Some v -> clean k = true) -> clean (kind ev) = true -> 0 <= default 0 (conn ev) ->
  (forall json, no_c0 (format_line ev json) = true) /\
  ((forall k n, fields ev !! k = Some (Number n) -> 0 <= n) -> (forall k v, fields ev !! k = Some v -> plain v) ->
   clean (format_line ev false) = true).
Proof.
  intros Hk Hkind Hc. split.
  - intros [|]; [apply to_string_no_c0|]. apply format_line_ok; [apply _|by apply clean_no_c0|done|].
    intros k v Hv. split; [by eapply clean_no_c0, Hk|]. destruct v; try done; apply to_string_no_c0.
  - intros Hn Hp. apply format_line_ok; [apply _|done|done|]. intros k v Hv. split; [by eapply Hk|].
    specialize (Hp k v Hv). destruct v; try done; cbn [snd].
    + by rewrite to_string_null.
    + rewrite to_string_bool. by destruct b.
    + rewrite to_string_number. by apply join_show, (Hn k).
Qed.

(** The four stamps win over fields of the same name, and nothing else is lost. *)
Lemma stamps_win ev k :
  exists m, to_json ev = Object m /\
  m !! k = (if String.eqb k "kind" then Some (Str (kind ev))
            else if String.eqb k "conn" then option_map Number (conn ev)
            else if String.eqb k "session" then Some (Str (session ev))
            else if String.eqb k "ts" then Some (Number (ts ev)) else fields ev !! k)%string.
Proof.
  eexists. split; [done|]. destruct (conn ev) as [c|]; simplify_map_eq;
  repeat match goal with |- context [String.eqb ?a ?b] => destruct (String.eqb_spec a b); subst; simplify_map_eq end; done.
Qed.
End Forge.

(** ** The budget *)

Fixpoint allow_all (calls : list (string * Z)) (bs : Budgets) : list (option Z) * Budgets :=
  match calls with
  | [] => ([], bs)
  | (key, now) :: calls =>
      let '(r, bs) := allow_at key now bs in
      let '(rs, bs) := allow_all calls bs in
      (r :: rs, bs)
  end.

(** The answers to the calls with one key inside one span of [LIMIT_WINDOW] from [a]. *)
Definition inside (key : string) (a : Z) (c : string * Z) : bool :=
  String.eqb c.1 key && (a <=? c.2) && (c.2 <? a + LIMIT_WINDOW).
Definition gave (r : option Z) : bool := match r with Some _ => true | None => false end.
Definition one_if (b : bool) : Z := if b then 1 else 0.
Notation Answered := (list ((string * Z) * option Z)) (only parsing).
Definition written_in (key : string) (a : Z) (l : Answered) : Z :=
  sum_of (fun x => one_if (inside key a x.1 && gave x.2)) l.
(** What was refused for a key, and what the lines written told of it. *)
Definition refused_of (key : string) (l : Answered) : Z :=
  sum_of (fun x => one_if (String.eqb x.1.1 key && negb (gave x.2))) l.
Definition told_of (key : string) (l : Answered) : Z :=
  sum_of (fun x => if String.eqb x.1.1 key then default 0 x.2 else 0) l.

Definition used_of (bs : Budgets) (key : string) : Z := match bs !! key with Some b => used b | None => 0 end.
Definition pending_of (bs : Budgets) (key : string) : Z := match bs !! key with Some b => suppressed b | None => 0 end.
Definition start_of (bs : Budgets) (key : string) : option Z := window_start <$> bs !! key.
Definition budgets_ok (bs : Budgets) : Prop :=
  map_Forall (fun _ b => 0 <= used b <= LIMIT_PER_WINDOW /\ 0 <= suppressed b) bs.
(** The window of a key has run out, or there is none. *)
Definition expired (bs : Budgets) (key : string) (now : Z) : bool :=
  match start_of bs key with Some ws => LIMIT_WINDOW <=? now - ws | None => true end.

Lemma budgets_used bs key : budgets_ok bs -> 0 <= used_of bs key <= LIMIT_PER_WINDOW /\ 0 <= pending_of bs key.
Proof. intros Hb. unfold used_of, pending_of. destruct (bs !! key) as [b|] eqn:E; [exact (Hb key b E)|done]. Qed.

Lemma allow_at_other key now bs k r bs' : allow_at key now bs = (r, bs') -> k <> key -> bs' !! k = bs !! k.
Proof. unfold allow_at. intros E Hne. case_match; simplify_eq; by rewrite lookup_insert_ne. Qed.

(** One call: what it does to the window of its key. *)
Lemma allow_at_step key now bs r bs' : allow_at key now bs = (r, bs') -> budgets_ok bs ->
  (if expired bs key now then start_of bs' key = Some now /\ used_of bs' key = 1 /\ gave r = true
   else start_of bs' key = start_of bs key /\ used_of bs' key = used_of bs key + one_if (gave r)) /\
  pending_of bs' key = pending_of bs key + one_if (negb (gave r)) - default 0 r /\
  budgets_ok bs'.
Proof.
  intros E Hb. unfold allow_at, open_budget, expired, start_of, used_of, pending_of in *.
  assert (LIMIT_PER_WINDOW <=? 0 = false) as Hl by done. assert (0 < LIMIT_PER_WINDOW /\ 0 < LIMIT_WINDOW) as Hp by done.
  destruct (bs !! key) as [b|] eqn:Eb; cbn [default id fmap option_fmap option_map] in *.
  - pose proof (Hb key b Eb) as [Hu Hs].
    assert ((LIMIT_WINDOW <=? sat_sub now (window_start b)) = (LIMIT_WINDOW <=? now - window_start b)) as Ew
      by (unfold sat_sub; lia).
    rewrite Ew in E.
    destruct (LIMIT_WINDOW <=? now - window_start b); cbn [used suppressed window_start] in E; [rewrite Hl in E|];
      [|destruct (LIMIT_PER_WINDOW <=? used b) eqn:El]; simplify_eq; rewrite lookup_insert_eq; simpl;
      (split; [repeat split; lia|]); (split; [lia|]); apply map_Forall_insert_2; simpl; try done; lia.
  - assert (LIMIT_WINDOW <=? sat_sub now now = false) as Ew by (unfold sat_sub; lia). cbn [window_start] in E.
    rewrite Ew in E. cbn [used suppressed window_start] in E. rewrite Hl in E. simplify_eq. rewrite lookup_insert_eq. simpl.
    split; [done|]. split; [done|]. apply map_Forall_insert_2; simpl; [lia|done].
Qed.

(** No call at or after the end of the span counts. *)
Lemma written_in_past key a calls rs :
  Forall (fun c => a + LIMIT_WINDOW <= c.2) calls -> written_in key a (zip calls rs) = 0.
Proof.
  unfold written_in. intros Hc. revert rs. induction Hc as [|c calls Hc _ IH]; intros rs; [by destruct rs|].
  destruct rs as [|r rs]; [done|]. cbn [zip zip_with]. rewrite sum_of_cons, IH. cbn [fst snd].
  unfold inside. assert (c.2 <? a + LIMIT_WINDOW = false) as -> by lia. by rewrite andb_false_r.
Qed.

Notation later := (fun x y : string * Z => x.2 <= y.2).

(** From a window that started inside the span only its rest is left; from any, one more window. *)
Lemma written_bound key a calls : forall bs rs bs',
  allow_all calls bs = (rs, bs') -> budgets_ok bs -> StronglySorted later calls -> Forall (fun c => a <= c.2) calls ->
  written_in key a (zip calls rs) <=
    (if match start_of bs key with Some ws => a <=? ws | None => false end then 0 else LIMIT_PER_WINDOW)
    + (LIMIT_PER_WINDOW - used_of bs key).
Proof.
  induction calls as [|[k now] calls IH]; intros bs rs bs' E Hb Hs Ha; pose proof (budgets_used bs key Hb) as [Hu _];
    assert (0 < LIMIT_PER_WINDOW /\ 0 < LIMIT_WINDOW) as Hl by done.
  { simpl in E. simplify_eq. unfold written_in. cbn [zip zip_with]. rewrite sum_of_nil. repeat case_match; lia. }
  cbn [allow_all] in E. destruct (allow_at k now bs) as [r bs1] eqn:E1. destruct (allow_all calls bs1) as [rs1 bs2] eqn:E2.
  simplify_eq. pose proof (allow_at_step _ _ _ _ _ E1 Hb) as (Hw & _ & Hb1). inversion Hs as [|? ? Hs1 Hall]; subst.
  apply Forall_cons in Ha as [Hna Ha]. cbn [snd] in Hna.
  destruct (decide (a + LIMIT_WINDOW <= now)) as [Hp|Hp].
  { rewrite written_in_past; [repeat case_match; lia|]. apply Forall_cons. split; [done|].
    eapply Forall_impl; [exact Hall|]. simpl. lia. }
  specialize (IH bs1 rs1 _ E2 Hb1 Hs1 Ha). unfold written_in in *. cbn [zip zip_with]. rewrite sum_of_cons. cbn [fst snd].
  unfold inside at 1. cbn [fst snd]. destruct (String.eqb_spec k key) as [->|Hne].
  - assert (now <? a + LIMIT_WINDOW = true) as -> by lia. assert (a <=? now = true) as Eap by lia.
    rewrite Eap. cbn [andb].
    unfold expired in Hw. destruct (start_of bs key) as [ws|] eqn:Es;
      [destruct (LIMIT_WINDOW <=? now - ws) eqn:Ew|]; destruct Hw as [Hst Hw].
    + destruct Hw as [Hus Hg]. rewrite Hst, Hus, Eap in IH. rewrite Hg. cbn [one_if].
      destruct (a <=? ws) eqn:Eaw; lia.
    + rewrite Hst, Hw in IH. destruct (a <=? ws), (gave r); cbn [one_if] in *; lia.
    + destruct Hw as [Hus Hg]. rewrite Hst, Hus, Eap in IH. rewrite Hg. cbn [one_if]. lia.
  - cbn [andb one_if]. assert (start_of bs1 key = start_of bs key /\ used_of bs1 key = used_of bs key) as [Hst Hus].
    { unfold start_of, used_of. by rewrite (allow_at_other _ _ _ key _ _ E1) by congruence. }
    rewrite Hst, Hus in IH. lia.
Qed.

Lemma written_two_windows key a calls : forall bs rs bs',
  allow_all calls bs = (rs, bs') -> budgets_ok bs -> StronglySorted later calls ->
  written_in key a (zip calls rs) <= 2 * LIMIT_PER_WINDOW.
Proof.
  induction calls as [|[k now] calls IH]; intros bs rs bs' E Hb Hs; [simpl in E; by simplify_eq|].
  inversion Hs as [|? ? Hs1 Hall]; subst. destruct (decide (a <= now)) as [Hp|Hp].
  - etransitivity; [apply (written_bound key a _ _ _ _ E Hb Hs)|].
    + apply Forall_cons. split; [done|]. eapply Forall_impl; [exact Hall|]. simpl. lia.
    + pose proof (budgets_used bs key Hb). assert (0 < LIMIT_PER_WINDOW) by done. repeat case_match; lia.
  - cbn [allow_all] in E. destruct (allow_at k now bs) as [r bs1] eqn:E1.
    destruct (allow_all calls bs1) as [rs1 bs2] eqn:E2. simplify_eq.
    pose proof (allow_at_step _ _ _ _ _ E1 Hb) as (_ & _ & Hb1). specialize (IH _ _ _ E2 Hb1 Hs1).
    unfold written_in in *. cbn [zip zip_with]. rewrite sum_of_cons. unfold inside at 1. cbn [fst snd].
    assert (a <=? now = false) as -> by lia. by rewrite andb_false_r.
Qed.

(** Every refusal is told with a later line of its key or still pending. *)
Lemma refusals_told key calls : forall bs rs bs',
  allow_all calls bs = (rs, bs') -> budgets_ok bs ->
  pending_of bs key + refused_of key (zip calls rs) = told_of key (zip calls rs) + pending_of bs' key /\ budgets_ok bs'.
Proof.
  induction calls as [|[k now] calls IH]; intros bs rs bs' E Hb.
  { simpl in E. simplify_eq. unfold refused_of, told_of. cbn [zip zip_with]. rewrite !sum_of_nil. split; [lia|done]. }
  cbn [allow_all] in E. destruct (allow_at k now bs) as [r bs1] eqn:E1. destruct (allow_all calls bs1) as [rs1 bs2] eqn:E2.
  simplify_eq. pose proof (allow_at_step _ _ _ _ _ E1 Hb) as (_ & Hp & Hb1). destruct (IH _ _ _ E2 Hb1) as [IH1 Hb2].
  split; [|done]. unfold refused_of, told_of in *. cbn [zip zip_with]. rewrite !sum_of_cons. cbn [fst snd].
  destruct (String.eqb_spec k key) as [->|Hne]; [cbn [andb]; lia|]. cbn [andb one_if].
  assert (pending_of bs1 key = pending_of bs key) as <-; [|lia].
  unfold pending_of. by rewrite (allow_at_other _ _ _ key _ _ E1) by congruence.
Qed.

(** The budget of the lines a peer can trigger.  However many connections of however many keys
    come in, at most sixty lines of one key are written in any sixty seconds; every line kept back
    is either counted in a later line of its key or in the pending count; a key whose window ran
    out gets its line whatever was refused before. *)
Theorem limited_lines_are_bounded calls bs rs bs' key :
  budgets_ok bs -> StronglySorted later calls -> allow_all calls bs = (rs, bs') ->
  (forall a, written_in key a (zip calls rs) <= 2 * LIMIT_PER_WINDOW) /\
  pending_of bs key + refused_of key (zip calls rs) = told_of key (zip calls rs) + pending_of bs' key /\
  (forall now, expired bs' key now = true -> exists n, (allow_at key now bs').1 = Some n /\ n = pending_of bs' key).
Proof.
  intros Hb Hs E. destruct (refusals_told key _ _ _ _ E Hb) as [Ht Hb']. split_and!; [|done|].
  - intros a. by eapply written_two_windows.
  - intros now He. destruct (allow_at key now bs') as [r bs2] eqn:E1.
    pose proof (allow_at_step _ _ _ _ _ E1 Hb') as (Hw & Hp & _). rewrite He in Hw. destruct Hw as (_ & _ & Hg).
    destruct r as [n|]; [|done]. exists n. split; [done|]. cbn [fst gave negb one_if default] in *.
    unfold allow_at in E1. unfold pending_of, expired, start_of, open_budget in *.
    destruct (bs' !! key) as [b|]; cbn [default id fmap option_fmap option_map] in *; repeat case_match; by simplify_eq.
Qed.

(** ** The counters *)

Lemma position_lookup k l i : position k l = Some i -> l !! i = Some k.
Proof.
  revert i. induction l as [|x l IH]; intros i; [done|]. cbn [position].
  destruct (String.eqb_spec x k) as [->|Hne]; [by intros [= <-]|].
  destruct (position k l) as [j|]; [|done]. intros [= <-]. by apply IH.
Qed.

Lemma position_elem k l : k ∈ l -> is_Some (position k l).
Proof.
  induction 1 as [|k x l _ [i Hi]]; cbn [position]; [by rewrite String.eqb_refl|].
  destruct (String.eqb x k); [done|]. by rewrite Hi.
Qed.

Lemma get_bump k k' cs : length cs = length KINDS -> k ∈ KINDS ->
  get k (bump k' cs) = if String.eqb k' k then wrap 64 (get k cs + 1) else get k cs.
Proof.
  intros Hl Hk. apply position_elem in Hk as [i Hi]. unfold get, bump, slot. rewrite Hi.
  pose proof (lookup_lt_Some _ _ _ (position_lookup _ _ _ Hi)) as Hlt. rewrite <-Hl in Hlt.
  apply lookup_lt_is_Some in Hlt as [n Hn].
  destruct (String.eqb_spec k' k) as [->|Hne].
  - rewrite Hi. by rewrite list_lookup_alter, decide_True, Hn by done.
  - destruct (position k' KINDS) as [j|] eqn:Ej; [|done].
    rewrite list_lookup_alter_ne; [done|]. intros ->. apply position_lookup in Hi, Ej. congruence.
Qed.

Lemma bump_length k cs : length (bump k cs) = length cs.
Proof. unfold bump. by destruct (slot k); [rewrite length_alter|]. Qed.

Section Process.
Context `{SerdeJson} (linked : string -> result (list byte) IoError).

Inductive Op :=
| Emit (at_ : Moment) (kind : string) (fields : Value)
| EmitLimited (at_ : Moment) (kind : string) (fields : Value)
| NextConn.

Definition op_kind (o : Op) : option string :=
  match o with Emit _ k _ | EmitLimited _ k _ => Some k | NextConn => None end.
(** Whether the event was written, and the process after. *)
Definition run_op (o : Op) (p : Process) : bool * Process :=
  match o with
  | Emit m k v => (true, emit linked m k v p)
  | EmitLimited m k v => emit_limited linked m k v p
  | NextConn => (false, (next_conn_id p).2)
  end.
Fixpoint run_ops (os : list Op) (p : Process) : list bool * Process :=
  match os with
  | [] => ([], p)
  | o :: os => let '(b, p) := run_op o p in let '(bs, p) := run_ops os p in (b :: bs, p)
  end.

Definition event_lines (p : Process) : list string :=
  omap (fun l => match l with EventLine s => Some s | RingFailure _ => None end) (stderr p).
Definition logged_failures (p : Process) : Z :=
  sum_of (fun l => match l with RingFailure _ => 1 | EventLine _ => 0 end) (stderr p).
Definition kind_count (k : string) (os : list Op) : Z :=
  sum_of (fun o => one_if (bool_decide (op_kind o = Some k))) os.

(** What one event changes. *)
Lemma emit_effect m k v p :
  let ev := event_at (now_unix m) (sid p) (current_conn_id p) k v in
  counts (emit linked m k v p) = bump k (counts p) /\
  budgets (emit linked m k v p) = budgets p /\
  event_lines (emit linked m k v p) = event_lines p ++ [format_line ev (stderr_json (log_format m))] /\
  match ring p with
  | Some (r, w) =>
      exists r' f w', append linked (to_string (to_json ev)) r w = (r', f, w') /\ ring (emit linked m k v p) = Some (r', w') /\
        logged_failures (emit linked m k v p) = logged_failures p + one_if (match f with Some _ => true | None => false end)
  | None => ring (emit linked m k v p) = None /\ logged_failures (emit linked m k v p) = logged_failures p
  end.
Proof.
  intros ev. unfold emit. cbn zeta. fold ev. unfold event_lines, logged_failures.
  destruct (ring p) as [[r w]|] eqn:Er; cbn [set_counts print ring]; rewrite Er.
  - destruct (append linked (to_string (to_json ev)) r w) as [[r' f] w'] eqn:Ea.
    destruct f as [e|]; cbn [counts budgets stderr ring print set_ring set_counts]; rewrite ?omap_app, ?sum_of_app; cbn [omap list_omap];
      rewrite ?app_nil_r; (split_and!; [done|done|done|]); eexists _, _, _; (split; [done|]); (split; [done|]);
      rewrite !sum_of_cons, !sum_of_nil; cbn [one_if]; lia.
  - cbn [counts budgets stderr ring print set_ring set_counts]. rewrite omap_app, sum_of_app, sum_of_cons, sum_of_nil. cbn [omap list_omap].
    split_and!; try done. lia.
Qed.

Lemma emit_limited_effect m k v p b p' : emit_limited linked m k v p = (b, p') ->
  counts p' = bump k (counts p) /\
  (if b then exists line, event_lines p' = event_lines p ++ [line] else event_lines p' = event_lines p /\ ring p' = ring p).
Proof.
  unfold emit_limited. destruct (allow_at k (instant m) (budgets p)) as [[n|] bs]; intros [= <- <-]; [|done].
  pose proof (emit_effect m k (match v with Object f => if 0 <? n then Object (<["suppressed"%string := Number n]> f) else Object f
    | _ => v end) (set_budgets bs p)) as (Hc & _ & Hl & _).
  rewrite Hc, Hl. split; [done|]. by eexists.
Qed.

(** The counters on [/metrics] are exact whatever the budget keeps back: after any sequence of
    events the counter of every kind of the taxonomy has grown by the number of its events modulo
    2^64, and the lines on stderr are as many as the events that were written. *)
Theorem counters_stay_exact os p bs p' k :
  run_ops os p = (bs, p') -> length (counts p) = length KINDS -> k ∈ KINDS -> 0 <= get k (counts p) < 2 ^ 64 ->
  get k (counts p') = wrap 64 (get k (counts p) + kind_count k os) /\
  Zlen (event_lines p') = Zlen (event_lines p) + sum_of one_if bs.
Proof.
  revert p bs. induction os as [|o os IH]; intros p bs E Hl Hk Hr.
  - simpl in E. simplify_eq. unfold kind_count. rewrite !sum_of_nil, !Z.add_0_r. split; [|done].
    unfold wrap. by rewrite Z.mod_small.
  - cbn [run_ops] in E. destruct (run_op o p) as [b p1] eqn:E1. destruct (run_ops os p1) as [bs1 p2] eqn:E2. simplify_eq.
    assert ((match op_kind o with Some k => counts p1 = bump k (counts p) | None => counts p1 = counts p end) /\
      Zlen (event_lines p1) = Zlen (event_lines p) + one_if b) as [Hc He].
    { destruct o as [m k' v|m k' v|]; cbn [run_op op_kind] in *.
      - simplify_eq. pose proof (emit_effect m k' v p) as (Hc & _ & He & _). rewrite Hc, He, length_app. split; [done|]. simpl. lia.
      - apply emit_limited_effect in E1 as [Hc He]. split; [done|]. destruct b; [destruct He as [l ->]; rewrite length_app; simpl; lia|].
        destruct He as [-> _]. simpl. lia.
      - simplify_eq. split; [done|]. unfold event_lines, next_conn_id. simpl. lia. }
    assert (get k (counts p1) = wrap 64 (get k (counts p) + one_if (bool_decide (op_kind o = Some k))) /\
      length (counts p1) = length KINDS) as [Hg Hl1].
    { destruct (op_kind o) as [k'|]; rewrite Hc; [|rewrite bool_decide_eq_false_2, Z.add_0_r by done; unfold wrap; by rewrite Z.mod_small].
      rewrite bump_length, get_bump by done. split; [|done]. destruct (String.eqb_spec k' k) as [->|Hne].
      - by rewrite bool_decide_eq_true_2.
      - rewrite bool_decide_eq_false_2 by congruence. rewrite Z.add_0_r. unfold wrap. by rewrite Z.mod_small. }
    destruct (IH p1 bs1 E2 Hl1 Hk) as [IHc IHl].
    { rewrite Hg. by apply Z.mod_pos_bound. }
    unfold kind_count in *. rewrite !sum_of_cons, IHc, IHl, He, Hg. split; [|lia].
    unfold wrap. rewrite Zplus_mod_idemp_l. f_equal. lia.
Qed.
End Process.

(** ** An append at every moment *)

Section RingSafe.
Context (linked : string -> result (list byte) IoError) (d0 : Disk) (B : Z).

Definition is_ring (name : string) : Prop := name = EVENTS_RING_FILE \/ name = ROTATED.
(** The files the ring's names lead to are within [B], no inode is beyond the next number, and
    whatever was written since [d0] is in files that only their owner may use. *)
Record ring_ok (d : Disk) : Prop := {
  small : forall name i n, is_ring name -> dir d !! name = Some (File i) -> inodes d !! i = Some n -> Zlen (content n) <= B;
  unborn : forall i, (next d <= i)%nat -> inodes d !! i = None;
  private : forall i n, inodes d !! i = Some n ->
    content n = [] \/ (exists n0, inodes d0 !! i = Some n0 /\ content n0 = content n) \/ Z.land (mode n) 511 = 384;
}.
(** The ring's file is open under [i], with room for [k] bytes. *)
Definition room (i : nat) (k : Z) (d : Disk) : Prop :=
  ring_ok d /\ (forall n, inodes d !! i = Some n -> Zlen (content n) + k <= B).
Definition ready (i : nat) (k : Z) (d : Disk) : Prop :=
  room i k d /\ (forall n, inodes d !! i = Some n -> Z.land (mode n) 511 = 384).
(** Under the ring's name there is room for [k] bytes. *)
Definition fits (k : Z) (d : Disk) : Prop :=
  ring_ok d /\ forall i n, dir d !! EVENTS_RING_FILE = Some (File i) -> inodes d !! i = Some n -> Zlen (content n) + k <= B.

Lemma ring_ok_inode i n n' d : ring_ok d -> inodes d !! i = Some n -> Zlen (content n') <= B ->
  (content n' = content n /\ mode n' = mode n \/ Z.land (mode n') 511 = 384) ->
  ring_ok (set_inodes (<[i := n']> (inodes d)) d).
Proof.
  intros [Hs Hu Hp] Hi Hb Hm. split; simpl.
  - intros name j k Hn Hd. rewrite lookup_insert_Some. intros [[<- <-]|[_ Hj]]; [done|by eapply Hs].
  - intros j Hj. rewrite lookup_insert_ne; [by apply Hu|]. intros ->. by rewrite Hu in Hi.
  - intros j k. rewrite lookup_insert_Some. intros [[<- <-]|[_ Hj]]; [|by eapply Hp].
    destruct Hm as [[Hc Hm]|Hm]; [|by right; right]. destruct (Hp i n Hi) as [He|[(n0 & E0 & Ec)|He]].
    + left. congruence.
    + right; left. exists n0. split; congruence.
    + right; right. congruence.
Qed.

Lemma triple_metadata k name :
  is_ring name -> 0 <= k ->
  triple ring_ok ring_ok (metadata_len linked name)
    (fun r d => ring_ok d /\ match r with
     | Ok len => forall i n, dir d !! name = Some (File i) -> inodes d !! i = Some n -> len = Zlen (content n)
     | Err NotFound => forall i n, dir d !! name = Some (File i) -> inodes d !! i = Some n -> False
     | Err _ => True
     end).
Proof.
  intros Hn Hk w r w' E Hw. unfold metadata_len in E.
  unfold call in E. cbn [disk history answers] in E.
  assert (exists r1, (r, w') = (r1, {| disk := disk w; history := disk w :: history w; answers := tail (outside (answers w)) |}) /\
    (r1 = looked_up linked name (disk w) \/ exists e, r1 = Err e /\ e <> NotFound)) as (r1 & [= -> ->] & Hr).
  { destruct (answers w) as [|[|[| | |t] n] a]; cbn [outside] in E |- *; symmetry in E;
      (eexists; split; [exact E|]); first [by left|by right; eexists]. }
  split; [exists [disk w]; by rewrite Forall_singleton|]. cbn [disk]. split; [done|].
  destruct Hr as [->|(e & -> & He)]; [|by destruct e]. unfold looked_up.
  destruct (dir (disk w) !! name) as [[i|t]|] eqn:Ed; [|destruct (linked t) as [c|[]]; simpl; by intros|by intros].
  destruct (inodes (disk w) !! i) as [n|] eqn:Ei; [|by intros j n [= <-]; congruence].
  intros j m [= <-] Em. congruence.
Qed.

Lemma triple_weaken_post {A} (I P : Disk -> Prop) (m : IO IoError A) Q Q' :
  triple I P m Q -> (forall r d, Q r d -> Q' r d) -> triple I P m Q'.
Proof. intros Hm HQ. by eapply triple_conseq. Qed.

Lemma triple_rename_ring k : 0 <= k <= B ->
  triple ring_ok ring_ok (rename EVENTS_RING_FILE ROTATED) (fun r d => ring_ok d /\ (is_ok r = true -> fits k d)).
Proof.
  intros Hk. apply triple_call; [done|by intros e n d Hd|]. intros d r d' E Hd.
  destruct (dir d !! EVENTS_RING_FILE) as [e|] eqn:Ed; injection E as <- <-; [|done].
  assert (ring_ok (set_dir (<[ROTATED:=e]> (delete EVENTS_RING_FILE (dir d))) d)) as Hr.
  { destruct Hd as [Hs Hu Hp]. split; [|done|done]. simpl. intros name i n [->| ->] Hn Hi.
    - rewrite lookup_insert_ne, lookup_delete_eq in Hn by done. done.
    - rewrite lookup_insert_eq in Hn. simplify_eq. eapply Hs; [by left|done|done]. }
  split; [done|]. intros _. split; [done|]. simpl. intros i n Hn. by rewrite lookup_insert_ne, lookup_delete_eq in Hn.
Qed.

Lemma triple_open k : 0 <= k <= B ->
  triple ring_ok (fits k) (open_append EVENTS_RING_FILE 384)
    (fun r d => match r with Ok i => room i k d | Err _ => ring_ok d end).
Proof.
  intros Hk. apply triple_call; [by intros d []|by intros e n d []|]. intros d r d' E [Hd Hf].
  destruct (dir d !! EVENTS_RING_FILE) as [[i|t]|] eqn:Ed; injection E as <- <-; [|done|].
  - split; [done|]. intros n. by apply Hf.
  - destruct Hd as [Hs Hu Hp]. assert (inodes d !! next d = None) as Hnew by by apply Hu.
    split; [split|]; simpl.
    + intros name i n Hn. rewrite !lookup_insert_Some. intros [[<- [= <-]]|[Hne Hd]] [[Hi <-]|[Hi Ei]]; simpl; try lia.
      by eapply Hs.
    + intros i Hi. rewrite lookup_insert_ne by lia. apply Hu. lia.
    + intros i n. rewrite lookup_insert_Some. intros [[<- <-]|[_ Hi]]; [by left|by eapply Hp].
    + intros n. rewrite lookup_insert_eq. intros [= <-]. simpl. lia.
Qed.

Lemma triple_open_private k : 0 <= k <= B ->
  triple ring_ok (fits k) (open_append_private EVENTS_RING_FILE)
    (fun r d => match r with Ok i => ready i k d | Err _ => ring_ok d end).
Proof.
  intros Hk. eapply triple_bind; [by apply triple_open| |done]. intros i.
  eapply triple_bind with (R := fun r d => room i k d /\
    forall m, r = Ok m -> forall n, inodes d !! i = Some n -> m = Z.land (mode n) 511).
  { apply triple_call; [by intros d []|by intros e n d Hd|]. intros d r d' [= <- <-] Hd. split; [done|].
    intros m Em n En. rewrite En in Em. by simplify_eq. }
  2: { by intros e d [[]]. }
  intros m. eapply triple_bind with (R := fun r d => match r with Ok _ => ready i k d | Err _ => ring_ok d end); [| |done].
  - destruct (m =? 384) eqn:Em.
    + eapply triple_conseq; [apply (triple_ret ring_ok tt)|done|exact (fun d H => H)|].
      intros r d [-> [Hr Hm]]. split; [done|]. intros n En. rewrite <-(Hm m eq_refl n En). lia.
    + apply triple_call; [by intros d [[]]|by intros e n d [[]]|]. intros d r d' [= <- <-] [[Hd Hf] Hm].
      unfold chmod_inode. destruct (inodes d !! i) as [n|] eqn:En; [|split; [split; [done|]|]; intros n' En'; congruence].
      split; [split|].
      * eapply ring_ok_inode; [done|done|simpl; specialize (Hf n eq_refl); lia|by right].
      * intros n'. cbn [inodes set_inodes]. rewrite lookup_insert_eq. intros [= <-]. cbn [content]. exact (Hf n eq_refl).
      * intros n'. cbn [inodes set_inodes]. rewrite lookup_insert_eq. by intros [= <-].
  - intros []. eapply triple_conseq; [apply (triple_ret ring_ok i)|done|exact (fun d H => H)|]. by intros r d [-> Hd].
Qed.

Lemma triple_write_ring i k bytes : 0 <= k ->
  triple ring_ok (ready i (Zlen bytes + k)) (write_all i bytes)
    (fun r d => match r with Ok _ => ready i k d | Err _ => ring_ok d end).
Proof.
  intros Hk.
  assert (forall d l, Zlen l <= Zlen bytes -> ready i (Zlen bytes + k) d -> ready i (Zlen bytes - Zlen l + k) (append_to i l d)) as Ha.
  { intros d l Hl [[Hd Hf] Hm]. unfold append_to. destruct (inodes d !! i) as [n|] eqn:En.
    - specialize (Hf n eq_refl). specialize (Hm n eq_refl). split; [split|].
      + eapply ring_ok_inode; [done|done| |by right]. simpl. rewrite length_app. lia.
      + intros n'. cbn [inodes set_inodes]. rewrite lookup_insert_eq. intros [= <-]. cbn [content]. rewrite length_app. lia.
      + intros n'. cbn [inodes set_inodes]. rewrite lookup_insert_eq. by intros [= <-].
    - split; [split; [done|]|]; intros n' En'; congruence. }
  apply triple_call; [by intros d [[]]| |].
  - intros e n d Hd. apply (Ha d (take n bytes)); [rewrite length_take; lia|done].
  - intros d r d' [= <- <-] Hd. specialize (Ha d bytes (Z.le_refl _) Hd). by rewrite Z.sub_diag in Ha.
Qed.

Lemma triple_append_locked cap line : cap <= B -> str_len line + 1 <= B ->
  triple ring_ok ring_ok (append_locked linked cap line) (fun _ => ring_ok).
Proof.
  intros Hc Hl. assert (0 <= str_len line) as H0 by (unfold str_len; lia). set (k := str_len line + 1).
  eapply triple_bind with (R := fun _ => ring_ok); [by apply triple_call; [done|done|]; intros d r d' [= <- <-]| |done].
  intros _. eapply triple_bind; [apply triple_attempt, (triple_metadata k); [by left|lia]| |by intros e d (r' & _ & ? & _)].
  intros m. eapply triple_bind with (R := fun r d => ring_ok d /\ forall len, r = Ok len ->
    forall i n, dir d !! EVENTS_RING_FILE = Some (File i) -> inodes d !! i = Some n -> len = Zlen (content n) ).
  { apply triple_each. intros d (r' & [= <-] & Hd & Hm). destruct m as [len|e].
    - eapply triple_conseq; [apply (triple_ret ring_ok len)|done|exact (fun d H => H)|]. intros r d' [-> <-]. split; [done|].
      by intros len' [= <-].
    - destruct e; try (eapply triple_conseq; [apply (triple_throw ring_ok)|done|exact (fun d H => H)|]; intros r d' [-> <-]; by split).
      eapply triple_conseq; [apply (triple_ret ring_ok 0)|done|exact (fun d H => H)|]. intros r d' [-> <-]. split; [done|].
      intros len' _ i n Hi En. by destruct (Hm i n Hi En). }
  2: { by intros e d [? _]. }
  intros current. eapply triple_bind with (R := fun r d => ring_ok d /\ (is_ok r = true -> fits k d)); [| |by intros e d [? _]].
  { destruct ((0 <? current) && (cap <? current + (str_len line + 1))) eqn:Er.
    - eapply triple_conseq; [apply (triple_rename_ring k); lia|done| |done]. by intros d [? _].
    - eapply triple_conseq; [apply (triple_ret ring_ok tt)|done|exact (fun d H => H)|]. intros r d [-> [Hd Hm]].
      split; [done|]. intros _. split; [done|]. intros i n Hi En. specialize (Hm _ eq_refl i n Hi En).
      apply andb_false_iff in Er. unfold k. lia. }
  intros []. eapply triple_bind with (R := fun r d => match r with Ok i => ready i k d | Err _ => ring_ok d end); [| |done].
  { eapply triple_conseq; [apply (triple_open_private k); lia|done| |done]. intros d [_ Hd]. by apply Hd. }
  intros i. eapply triple_bind with (R := fun r d => match r with Ok _ => ready i 1 d | Err _ => ring_ok d end); [| |done].
  { assert (k = Zlen (as_bytes line) + 1) as -> by (unfold k, str_len; by rewrite as_bytes_length).
    apply triple_write_ring. lia. }
  intros []. eapply triple_conseq; [apply (triple_write_ring i 0 (as_bytes nl)); lia|done|done|].
  intros r d Hd. destruct r; [by destruct Hd as [[]]|done].
Qed.
End RingSafe.

Section RingRun.
Context (linked : string -> result (list byte) IoError).

(** Appends in a row: the ring, what was logged, the world. *)
Fixpoint append_all (lines : list string) (r : Ring) (w : World) : Ring * list IoError * World :=
  match lines with
  | [] => (r, [], w)
  | line :: lines =>
      let '(r, f, w) := append linked line r w in
      let '(r, fs, w) := append_all lines r w in
      (r, match f with Some e => e :: fs | None => fs end, w)
  end.

Lemma append_cap line r w r' f w' : append linked line r w = (r', f, w') ->
  cap r' = cap r /\ (error_logged r = true -> error_logged r' = true /\ f = None) /\ (is_Some f -> error_logged r' = true).
Proof.
  unfold append. destruct (append_locked linked (cap r) line w) as [[[]|e] w1]; intros [= <- <- <-]; simpl.
  - split; [done|]. split; [by intros ?|by intros [? [=]]].
  - split; [done|]. split; [by intros ->|done].
Qed.

Lemma append_all_quiet lines r w r' fs w' :
  append_all lines r w = (r', fs, w') -> error_logged r = true -> fs = [].
Proof.
  revert r w fs. induction lines as [|line lines IH]; intros r w fs E Hr; [by simpl in E; simplify_eq|].
  cbn [append_all] in E. destruct (append linked line r w) as [[r1 f] w1] eqn:E1.
  destruct (append_all lines r1 w1) as [[r2 fs2] w2] eqn:E2. apply append_cap in E1 as (_ & Hl & _).
  destruct (Hl Hr) as [Hr1 ->]. simplify_eq. by eapply IH.
Qed.

(** The ring file, at every moment of every append and whatever call fails or writes only a
    part: the current file and its predecessor never grow beyond the cap (or one line, when that is
    longer), every byte written since the start is in a file that only its owner may open, and of
    all the failures at most one is logged. *)
Theorem ring_is_bounded_and_private lines r w r' fs w' B :
  append_all lines r w = (r', fs, w') ->
  (forall i, (next (disk w) <= i)%nat -> inodes (disk w) !! i = None) ->
  (forall name i n, is_ring name -> dir (disk w) !! name = Some (File i) -> inodes (disk w) !! i = Some n -> Zlen (content n) <= B) ->
  cap r <= B -> Forall (fun l => str_len l + 1 <= B) lines ->
  (exists h, history w' = h ++ history w /\ Forall (ring_ok (disk w) B) (disk w' :: h)) /\ (length fs <= 1)%nat.
Proof.
  intros E Hu Hs Hc Hl. assert (ring_ok (disk w) B (disk w)) as H0.
  { split; [done|done|]. intros i n Hi. right; left. by exists n. }
  clear Hu Hs. generalize dependent H0. generalize (disk w) at 1 3 as d0. intros d0 H0.
  revert r w r' fs w' E H0 Hc. induction Hl as [|line lines Hline Hl IH]; intros r w r' fs w' E H0 Hc.
  { simpl in E. simplify_eq. split; [|simpl; lia]. exists []. split; [done|]. by apply Forall_singleton. }
  cbn [append_all] in E. destruct (append linked line r w) as [[r1 f] w1] eqn:E1.
  destruct (append_all lines r1 w1) as [[r2 fs2] w2] eqn:E2. simplify_eq.
  pose proof (append_cap _ _ _ _ _ _ E1) as (Hc1 & _ & Hlog).
  assert (exists a, append_locked linked (cap r) line w = (a, w1)) as [a Ea].
  { unfold append in E1. destruct (append_locked linked (cap r) line w) as [[[]|e] w3]; simplify_eq; by eexists. }
  destruct (triple_append_locked linked d0 B (cap r) line Hc Hline w a w1 Ea H0) as [(h & Eh & Hh) Hd1].
  destruct (IH _ _ _ _ _ E2 Hd1) as [(h2 & Eh2 & Hh2) Hfs]; [lia|]. split.
  - exists (h2 ++ h). rewrite Eh2, Eh, app_assoc. split; [done|]. rewrite app_comm_cons. by apply Forall_app.
  - destruct f as [e|]; [|done]. rewrite (append_all_quiet _ _ _ _ _ _ E2) by by apply Hlog. simpl. lia.
Qed.

(** ** What the ring keeps *)

Definition size (l : list string) : Z := sum_of (fun s => str_len s + 1) l.
Definition encode_lines (l : list string) : list byte := concat (map (fun s => as_bytes s ++ as_bytes nl) l).
(** The specification: the predecessor's lines and the current file's. *)
Definition Kept : Type := list string * list string.
Definition keep (cap : Z) (line : string) (k : Kept) : Kept :=
  if (0 <? size k.2) && (cap <? size k.2 + (str_len line + 1)) then (k.2, [line]) else (k.1, k.2 ++ [line]).

Definition holds (name : string) (l : list byte) (d : Disk) : Prop :=
  match dir d !! name with
  | None => l = []
  | Some (File i) => exists n, inodes d !! i = Some n /\ content n = l
  | Some (Symlink _) => False
  end.
(** What the two files contain; they are different files. *)
Record keeps (k : list byte * list byte) (d : Disk) : Prop := {
  keeps_old : holds ROTATED k.1 d;
  keeps_new : holds EVENTS_RING_FILE k.2 d;
  keeps_apart : forall i, dir d !! ROTATED = Some (File i) -> dir d !! EVENTS_RING_FILE = Some (File i) -> False;
  keeps_unborn : forall i, (next d <= i)%nat -> inodes d !! i = None;
}.

Lemma encode_lines_app a b : encode_lines (a ++ b) = encode_lines a ++ encode_lines b.
Proof. unfold encode_lines. by rewrite map_app, concat_app. Qed.
Lemma encode_lines_length l : Zlen (encode_lines l) = size l.
Proof.
  unfold encode_lines, size. induction l as [|s l IH]; [done|]. cbn [map concat].
  rewrite !length_app, sum_of_cons, as_bytes_length. unfold str_len in *. change (length (as_bytes nl)) with 1%nat. lia.
Qed.

(** Runs without a failing call. *)
Definition succeeds {A} (m : IO IoError A) (w : World) (Q : A -> Disk -> Prop) : Prop :=
  exists a w', m w = (Ok a, w') /\ answers w' = [] /\ Q a (disk w').
Lemma succeeds_bind {A C} (m : IO IoError A) (f : A -> IO IoError C) w Q R :
  succeeds m w Q -> (forall a w', answers w' = [] -> Q a (disk w') -> succeeds (f a) w' R) -> succeeds (x ← m; f x) w R.
Proof.
  intros (a & w1 & E & Ha & HQ) Hf. destruct (Hf a w1 Ha HQ) as (b & w2 & E2 & Ha2 & HR).
  exists b, w2. split; [|done]. unfold mbind, io_bind. by rewrite E.
Qed.
Lemma succeeds_ret {A} (a : A) w (Q : A -> Disk -> Prop) : answers w = [] -> Q a (disk w) -> succeeds (mret a) w Q.
Proof. intros Ha HQ. by exists a, w. Qed.
Lemma succeeds_call {A} fails (effect : Disk -> result A IoError * Disk) w (Q : A -> Disk -> Prop) a d :
  answers w = [] -> effect (disk w) = (Ok a, d) -> Q a d -> succeeds (call fails effect) w Q.
Proof. intros Ha E HQ. unfold succeeds, call. rewrite Ha, E. by eexists _, _. Qed.

Lemma holds_inodes name l d d' : dir d' = dir d ->
  (forall i n, dir d !! name = Some (File i) -> inodes d !! i = Some n -> exists n', inodes d' !! i = Some n' /\ content n' = content n) ->
  holds name l d -> holds name l d'.
Proof.
  intros Ed Hi. unfold holds. rewrite Ed. destruct (dir d !! name) as [[i|]|] eqn:E; [|done|done].
  intros (n & En & Ec). destruct (Hi i n eq_refl En) as (n' & En' & Ec'). exists n'. split; congruence.
Qed.

(** The inode of the current file changes; the predecessor is another file. *)
Lemma keeps_write (old new : list byte) new' i n n' d :
  keeps (old, new) d -> dir d !! EVENTS_RING_FILE = Some (File i) -> inodes d !! i = Some n -> content n' = new' ->
  keeps (old, new') (set_inodes (<[i := n']> (inodes d)) d).
Proof.
  intros [Ho Hn Ha Hu] Hi En Ec. split; cbn [fst snd] in *.
  - apply (holds_inodes ROTATED old d); [done| |exact Ho]. cbn [dir set_inodes inodes]. intros j m Hj Em. exists m. split; [|done].
    rewrite lookup_insert_ne; [done|]. intros ->. by apply (Ha j).
  - unfold holds. cbn [dir set_inodes inodes]. rewrite Hi. exists n'. by rewrite lookup_insert_eq.
  - exact Ha.
  - intros j Hj. cbn [next set_inodes inodes] in *. rewrite lookup_insert_ne; [by apply Hu|]. intros ->. by rewrite Hu in En.
Qed.

Definition current_is (k : list byte * list byte) (i : nat) (d : Disk) : Prop := keeps k d /\ dir d !! EVENTS_RING_FILE = Some (File i).

Lemma open_keeps k w : answers w = [] -> keeps k (disk w) ->
  succeeds (open_append_private EVENTS_RING_FILE) w (current_is k).
Proof.
  intros Ha Hk. eapply succeeds_bind with (Q := current_is k).
  { unfold open_append. destruct (dir (disk w) !! EVENTS_RING_FILE) as [[i|t]|] eqn:Ed.
    - eapply succeeds_call; [done|by rewrite Ed|done].
    - destruct Hk as [_ Hn _ _]. unfold holds in Hn. by rewrite Ed in Hn.
    - eapply succeeds_call; [done|by rewrite Ed|]. destruct k as [old new], Hk as [Ho Hn Hap Hu]. cbn [fst snd] in *.
      unfold holds in Hn. rewrite Ed in Hn. subst new. split; [|simpl; by rewrite lookup_insert_eq].
      assert (forall i, dir (disk w) !! ROTATED = Some (File i) -> i <> next (disk w)) as Hold.
      { intros i Hi ->. unfold holds in Ho. rewrite Hi in Ho. destruct Ho as (n & En & _). by rewrite Hu in En. }
      split; simpl.
      + unfold holds in *. simpl. rewrite lookup_insert_ne by done.
        destruct (dir (disk w) !! ROTATED) as [[i|]|] eqn:Er; [|done|done]. destruct Ho as (n & En & Ec).
        exists n. rewrite lookup_insert_ne; [done|]. apply not_eq_sym. by apply Hold.
      + unfold holds. simpl. rewrite lookup_insert_eq. eexists. by rewrite lookup_insert_eq.
      + intros i. rewrite lookup_insert_ne, lookup_insert_eq by done. intros Hi [= <-]. by apply (Hold _ Hi).
      + intros i Hi. rewrite lookup_insert_ne by lia. apply Hu. lia. }
  intros i w1 Ha1 [Hk1 Hi1]. assert (exists n, inodes (disk w1) !! i = Some n) as [n En].
  { destruct Hk1 as [_ Hn _ _]. unfold holds in Hn. rewrite Hi1 in Hn. destruct Hn as (n & En & _). by exists n. }
  eapply succeeds_bind with (Q := fun _ => current_is k i).
  { unfold file_mode. eapply succeeds_call; [done|by rewrite En|done]. }
  intros m w2 Ha2 [Hk2 Hi2]. eapply succeeds_bind with (Q := fun _ => current_is k i).
  - destruct (m =? 384); [by apply succeeds_ret|]. eapply succeeds_call; [done|done|].
    unfold chmod_inode. destruct (inodes (disk w2) !! i) as [n2|] eqn:En2; [|done]. split; [|done].
    destruct k as [old new]. eapply keeps_write; [done|done|done|]. cbn [content].
    destruct Hk2 as [_ Hn _ _]. unfold holds in Hn. rewrite Hi2 in Hn. destruct Hn as (n3 & En3 & Ec). cbn [snd] in Ec. congruence.
  - intros [] w3 Ha3 Hk3. by apply succeeds_ret.
Qed.

Lemma rotate_keeps cap len old new w :
  answers w = [] -> keeps (old, new) (disk w) ->
  succeeds (if (0 <? Zlen new) && (cap <? Zlen new + len) then rename EVENTS_RING_FILE ROTATED else mret tt) w
    (fun _ => keeps (if (0 <? Zlen new) && (cap <? Zlen new + len) then (new, []) else (old, new))).
Proof.
  intros Ha Hk. destruct ((0 <? Zlen new) && _) eqn:Er; [|by apply succeeds_ret].
  apply andb_true_iff in Er as [Hpos _]. destruct Hk as [Ho Hn Hap Hu]. cbn [fst snd] in *. unfold holds in Hn.
  destruct (dir (disk w) !! EVENTS_RING_FILE) as [[i|t]|] eqn:Ed; [|done|by subst new; vm_compute in Hpos].
  unfold rename. eapply succeeds_call; [done|by rewrite Ed|]. split; simpl.
  - unfold holds. simpl. by rewrite lookup_insert_eq.
  - unfold holds. simpl. by rewrite lookup_insert_ne, lookup_delete_eq by done.
  - intros j _. by rewrite lookup_insert_ne, lookup_delete_eq by done.
  - exact Hu.
Qed.

Lemma write_keeps i old new bytes w :
  answers w = [] -> current_is (old, new) i (disk w) ->
  succeeds (write_all i bytes) w (fun _ => current_is (old, new ++ bytes) i).
Proof.
  intros Ha [Hk Hi]. pose proof Hk as [_ Hn _ _]. unfold holds in Hn. rewrite Hi in Hn. destruct Hn as (n & En & Ec). cbn [snd] in Ec.
  unfold write_all. eapply succeeds_call; [done|done|]. unfold append_to. rewrite En.
  split; [|done]. eapply keeps_write; [done|done|done|]. cbn [content]. by rewrite Ec.
Qed.

Lemma metadata_keeps old new w : answers w = [] -> keeps (old, new) (disk w) ->
  exists w', metadata_len linked EVENTS_RING_FILE w =
    (match dir (disk w) !! EVENTS_RING_FILE with None => Err NotFound | Some _ => Ok (Zlen new) end, w') /\
    answers w' = [] /\ disk w' = disk w /\ (dir (disk w) !! EVENTS_RING_FILE = None -> new = []).
Proof.
  intros Ha [_ Hn _ _]. unfold metadata_len, call. rewrite Ha. cbn [outside answers disk history tail].
  eexists. unfold looked_up, holds in *. cbn [snd] in Hn.
  destruct (dir (disk w) !! EVENTS_RING_FILE) as [[i|t]|]; [destruct Hn as (n & -> & ->)|done|]; (split; [done|]); by repeat split.
Qed.

Definition encoded (k : Kept) : list byte * list byte := (encode_lines k.1, encode_lines k.2).
(** One append that does not fail is one step of the specification. *)
Lemma append_refines cap line k w : answers w = [] -> keeps (encoded k) (disk w) ->
  succeeds (append_locked linked cap line) w (fun _ => keeps (encoded (keep cap line k))).
Proof.
  intros Ha Hk. destruct k as [old new]. unfold encoded in *. cbn [fst snd] in *.
  eapply succeeds_bind with (Q := fun _ => keeps (encode_lines old, encode_lines new)); [by eapply succeeds_call|].
  intros [] w1 Ha1 Hk1. destruct (metadata_keeps _ _ w1 Ha1 Hk1) as (w2 & E2 & Ha2 & Ed2 & Hnone).
  eapply succeeds_bind with (Q := fun r d => d = disk w1 /\
    r = match dir (disk w1) !! EVENTS_RING_FILE with None => Err NotFound | Some _ => Ok (Zlen (encode_lines new)) end).
  { eexists _, w2. unfold attempt. by rewrite E2. }
  intros m w3 Ha3 [Ed3 ->].
  eapply succeeds_bind with (Q := fun len d => len = Zlen (encode_lines new) /\ keeps (encode_lines old, encode_lines new) d).
  { destruct (dir (disk w1) !! EVENTS_RING_FILE) as [e|]; (apply succeeds_ret; [done|]); rewrite Ed3; split; try done.
    by rewrite Hnone. }
  intros len w4 Ha4 [-> Hk4]. eapply succeeds_bind; [by eapply rotate_keeps|].
  intros [] w5 Ha5 Hk5. eapply succeeds_bind; [by eapply open_keeps|]. intros i w6 Ha6 Hk6.
  assert (exists old' new', encoded (keep cap line (old, new)) = (old', (new' ++ as_bytes line) ++ as_bytes nl) /\
    current_is (old', new') i (disk w6)) as (old' & new' & Ee & Hk6').
  { unfold keep, encoded. cbn [fst snd]. rewrite encode_lines_length in Hk6.
    destruct ((0 <? size new) && (cap <? size new + (str_len line + 1))); cbn [fst snd];
      eexists _, _; (split; [|exact Hk6]); rewrite ?encode_lines_app; cbn [encode_lines map concat]; by rewrite app_nil_r, ?app_assoc. }
  unfold encoded in Ee. rewrite Ee. eapply succeeds_bind; [by eapply write_keeps|]. intros [] w7 Ha7 Hk7.
  destruct (write_keeps i old' (new' ++ as_bytes line) (as_bytes nl) w7 Ha7 Hk7) as (x & w8 & E8 & Ha8 & Hk8 & _).
  by exists x, w8.
Qed.

(** ** Reading the ring *)

Definition good_line (s : string) : Prop := s <> EmptyString /\ str_ok s /\ no_c0 s = true.

Lemma raw_lines_line acc s rest :
  Forall (fun b => 32 <= u8 b) (rev acc ++ s) ->
  raw_lines acc (s ++ as_bytes nl ++ rest) = (rev acc ++ s) :: raw_lines [] rest.
Proof.
  revert acc. induction s as [|b s IH]; intros acc Hf.
  - rewrite app_nil_r in *. cbn [app]. change (as_bytes nl) with [to_u8 10]. cbn [app raw_lines].
    change (u8 (to_u8 10) =? 10) with true. cbn [andb]. f_equal. destruct acc as [|c acc]; [done|].
    assert (32 <= u8 c) as Hc by (rewrite Forall_forall in Hf; apply Hf; simpl; set_solver). 
    by assert (u8 c =? 13 = false) as -> by lia.
  - cbn [app raw_lines]. assert (32 <= u8 b) as Hb by (rewrite Forall_forall in Hf; apply Hf; set_solver).
    assert (u8 b =? 10 = false) as -> by lia. rewrite IH; cbn [rev]; by rewrite <-app_assoc.
Qed.

Lemma no_c0_bytes s : no_c0 s = true -> Forall (fun b => 32 <= u8 b) (as_bytes s).
Proof.
  unfold no_c0, forall_char, as_bytes, String.list_byte_of_string.
  induction (String.list_ascii_of_string s) as [|c l IH]; [by constructor|]. cbn [forallb map].
  intros [Hc Hl]%andb_true_iff. constructor; [rewrite u8_of_ascii; lia|by apply IH].
Qed.

Lemma lines_of_encoded l : Forall good_line l -> lines_of (encode_lines l) = l.
Proof.
  unfold lines_of, encode_lines. induction 1 as [|s l (Hne & Hok & Hc) _ IH]; [done|]. cbn [map concat].
  rewrite <-app_assoc, raw_lines_line by by apply no_c0_bytes. cbn [rev app while_utf8]. unfold str_ok in Hok. rewrite Hok.
  cbn [map]. unfold as_bytes at 1. rewrite String.string_of_list_byte_of_string.
  rewrite filter_cons_True by done. by rewrite IH.
Qed.

Lemma recent_keeps n k d : Forall good_line k.1 -> Forall good_line k.2 -> keeps (encoded k) d ->
  recent linked n d = last_n n (k.1 ++ k.2).
Proof.
  intros H1 H2 [Ho Hn _ _]. unfold recent, encoded in *. cbn [fst snd] in *.
  assert (forall name l, Forall good_line l -> holds name (encode_lines l) d -> read_lines linked name d = l) as Hr.
  { intros name l Hl. unfold holds, read_lines. destruct (dir d !! name) as [[i|t]|]; [|done|].
    - intros (m & -> & ->). by apply lines_of_encoded.
    - intros He. rewrite <-(lines_of_encoded l Hl), He. done. }
  by rewrite (Hr ROTATED k.1), (Hr EVENTS_RING_FILE k.2).
Qed.

(** What the specification keeps of a history: its end, and all of the last [cap] bytes. *)
Definition keep_all (cap : Z) (lines : list string) : Kept := fold_left (fun k line => keep cap line k) lines ([], []).

Lemma size_app a b : size (a ++ b) = size a + size b.
Proof. apply sum_of_app. Qed.
Lemma size_nonneg a : 0 <= size a.
Proof. unfold size. apply (sum_of_nonneg (fun s => str_len s + 1)), Forall_forall. intros s _. unfold str_len. lia. Qed.

Lemma keep_all_spec cap lines :
  let k := keep_all cap lines in
  exists dropped, lines = dropped ++ k.1 ++ k.2 /\ (dropped = [] \/ cap < size (k.1 ++ k.2)).
Proof.
  induction lines as [|x lines IH] using rev_ind; [exists []; by split; [done|left]|].
  cbn zeta in *. unfold keep_all in *. rewrite fold_left_app. cbn [fold_left].
  set (k := fold_left (fun k line => keep cap line k) lines ([], [])) in *.
  destruct IH as (dropped & El & Hd). unfold keep.
  destruct ((0 <? size k.2) && (cap <? size k.2 + (str_len x + 1))) eqn:Er; cbn [fst snd].
  - exists (dropped ++ k.1). split; [by rewrite El at 1; rewrite !app_assoc|]. right. rewrite size_app. unfold size at 2.
    rewrite sum_of_cons, sum_of_nil. apply andb_true_iff in Er as [_ Er]. lia.
  - exists dropped. split; [by rewrite El at 1; rewrite !app_assoc|]. destruct Hd as [Hd|Hd]; [by left|right].
    rewrite app_assoc, size_app. pose proof (size_nonneg [x]). lia.
Qed.

Lemma suffix_by_size (a b s : list string) : s `suffix_of` a ++ b -> size s <= size b -> s `suffix_of` b.
Proof.
  intros [p E] Hs. destruct (decide (length s <= length b)%nat) as [Hl|Hl].
  - exists (drop (length a) p). assert (drop (length a) (a ++ b) = drop (length a) (p ++ s)) as E2 by congruence.
    rewrite drop_app_length in E2. rewrite E2, drop_app_le; [done|]. apply (f_equal length) in E. rewrite !length_app in E. lia.
  - exfalso. assert (exists q, s = q ++ b /\ q <> []) as (q & -> & Hq).
    { exists (take (length s - length b) s). split; [|intros Hq; apply (f_equal length) in Hq; rewrite length_take in Hq; simpl in Hq; lia].
      assert (drop (length (a ++ b) - length b) (a ++ b) = b) as Eb.
      { rewrite length_app, Nat.add_sub. apply drop_app_length. }
      rewrite E in Eb. rewrite length_app, drop_app_ge in Eb by lia.
      rewrite <-Eb at 2. replace (length p + length s - length b - length p)%nat with (length s - length b)%nat by lia.
      by rewrite take_drop. }
    rewrite size_app in Hs. destruct q as [|x q]; [done|]. rewrite (size_app [x] q) in Hs || (unfold size in Hs; rewrite sum_of_cons in Hs).
    pose proof (size_nonneg q). unfold size, str_len in *. lia.
Qed.

Lemma append_all_refines lines r w k :
  answers w = [] -> keeps (encoded k) (disk w) ->
  exists w', append_all lines r w = (r, [], w') /\ answers w' = [] /\
    keeps (encoded (fold_left (fun k line => keep (cap r) line k) lines k)) (disk w').
Proof.
  revert w k. induction lines as [|line lines IH]; intros w k Ha Hk; [by exists w|]. cbn [append_all fold_left].
  destruct (append_refines (cap r) line k w Ha Hk) as ([] & w1 & E1 & Ha1 & Hk1).
  unfold append. rewrite E1. destruct (IH w1 _ Ha1 Hk1) as (w2 & -> & H2). by exists w2.
Qed.

(** While no call fails the ring, started without a file, is a bounded log: [recent n] gives the
    last [n] of the lines it kept; these are the end of the history of appends, in order and whole,
    and contain every run of newest lines that fits the cap.  Rotation drops no line in between. *)
Theorem ring_keeps_the_newest lines r w n :
  answers w = [] -> dir (disk w) !! EVENTS_RING_FILE = None -> dir (disk w) !! ROTATED = None ->
  (forall i, (next (disk w) <= i)%nat -> inodes (disk w) !! i = None) -> Forall good_line lines ->
  exists w' dropped kept, append_all lines r w = (r, [], w') /\ lines = dropped ++ kept /\
    recent linked n (disk w') = last_n n kept /\
    (forall s, s `suffix_of` lines -> size s <= cap r -> s `suffix_of` kept).
Proof.
  intros Ha Hc Hr Hu Hg. destruct (append_all_refines lines r w ([], []) Ha) as (w' & E & _ & Hk).
  { split; cbn [fst snd encoded]; unfold holds; rewrite ?Hc, ?Hr; try done. }
  destruct (keep_all_spec (cap r) lines) as (dropped & El & Hd). unfold keep_all in *.
  set (k := fold_left (fun k line => keep (cap r) line k) lines ([], [])) in *. exists w', dropped, (k.1 ++ k.2). split; [done|]. split; [done|]. split.
  - rewrite El in Hg. apply Forall_app in Hg as [_ [H1 H2]%Forall_app]. by apply recent_keeps.
  - intros s Hs Hsz. destruct Hd as [->|Hd]; [by rewrite El in Hs|]. rewrite El in Hs. apply (suffix_by_size dropped); [done|lia].
Qed.
End RingRun.

(** ** Concrete runs *)

#[local] Existing Instance demo_serde.

(** A close reason with a line feed and a terminal escape. *)
Definition demo_reason : string :=
  ("bye" +:+ String (ascii_of_N 10) ("fake" +:+ String (ascii_of_N 27) "[2J"))%string.
Definition demo_event : Event := event_at 17 "00ff" (Some 3) "disconnected" (Object {[ "reason"%string := Str demo_reason ]}).

Example demo_compact : format_line demo_event false = "ct-agent event: disconnected conn=3 reason=bye\nfake\u{1b}[2J"%string.
Proof. vm_compute. reflexivity. Qed.

Lemma event_line_is_one_line_witness :
  String.length (format_line demo_event false) = 61%nat /\
  (forall json, no_c0 (format_line demo_event json) = true) /\ clean (format_line demo_event false) = true.
Proof.
  split; [by vm_compute|].
  assert (forall k v, fields demo_event !! k = Some v -> k = "reason"%string /\ v = Str demo_reason) as Hf.
  { intros k v. change (fields demo_event) with ({[ "reason"%string := Str demo_reason ]} : gmap string Value).
    by intros [<- <-]%lookup_singleton_Some. }
  destruct (event_line_is_one_line demo_event) as [H1 H2].
  - intros k v Hv. by apply Hf in Hv as [-> _].
  - by vm_compute.
  - done.
  - split; [exact H1|]. apply H2; intros k v Hv; apply Hf in Hv as [_ Hv]; [done|by subst v].
Defined.

(** Forty connections in one second, and one a minute later. *)
Definition demo_calls : list (string * Z) :=
  repeat ("direct_refused"%string, SECOND) 40 ++ [("direct_refused"%string, 61 * SECOND)].
Lemma limited_lines_are_bounded_witness :
  exists rs bs, allow_all demo_calls ∅ = (rs, bs) /\ last rs = Some (Some 10) /\
    written_in "direct_refused" SECOND (zip demo_calls rs) = 30 /\
    (forall a, written_in "direct_refused" a (zip demo_calls rs) <= 2 * LIMIT_PER_WINDOW).
Proof.
  destruct (allow_all demo_calls ∅) as [rs bs] eqn:E. exists rs, bs. split; [done|].
  assert (rs = (allow_all demo_calls ∅).1) as Er by by rewrite E.
  split; [rewrite Er; by vm_compute|]. split; [rewrite Er; by vm_compute|].
  destruct (limited_lines_are_bounded demo_calls ∅ rs bs "direct_refused") as [Hw _]; [apply map_Forall_empty| |done|exact Hw].
  unfold demo_calls. cbn [repeat app].
  repeat (apply SSorted_cons; [|repeat (apply Forall_cons; split; [by vm_compute|]); by apply Forall_nil]). apply SSorted_nil.
Defined.

Definition demo_moment (t : Z) : Moment := {| now_unix := 100 + t / SECOND; log_format := None; instant := t |}.
Definition demo_process : Process :=
  {| sid := session_id (map to_u8 [0; 1; 2; 3; 4; 5; 6; 255]); conn_id := 0; counts := new_counters; budgets := ∅; ring := None; stderr := [] |}.
Definition demo_ops : list Op :=
  NextConn :: Emit (demo_moment 5) "registered" (Object ∅) ::
  repeat (EmitLimited (demo_moment SECOND) "direct_refused" (Object {[ "reason"%string := Str demo_reason ]})) 33.

(** Three refused connections too many: thirty-one lines, thirty-three counted. *)
Lemma counters_stay_exact_witness :
  exists bs p, run_ops (fun _ => Err NotFound) demo_ops demo_process = (bs, p) /\
    get "direct_refused" (counts p) = 33 /\ Zlen (event_lines p) = 31.
Proof.
  destruct (run_ops (fun _ => Err NotFound) demo_ops demo_process) as [bs p] eqn:E. exists bs, p. split; [done|].
  destruct (counters_stay_exact _ demo_ops demo_process bs p "direct_refused" E) as [Hg Hl]; [by vm_compute| |by split; vm_compute|].
  - by apply list_elem_of_In; simpl; tauto.
  - assert (bs = (run_ops (fun _ => Err NotFound) demo_ops demo_process).1) as Eb by by rewrite E.
    rewrite Hg, Hl. split; [by vm_compute|]. rewrite Eb. by vm_compute.
Defined.

(** Three lines of four bytes under a cap of ten: the second append of the two after the first
    file is full rotates. *)
Definition demo_ring_disk : Disk := {| umask := 18; inodes := ∅; next := 0; dir := ∅; unsynced := [] |}.
Definition demo_ring_world (a : list Answer) : World := {| disk := demo_ring_disk; history := []; answers := a |}.
Definition no_link (t : string) : result (list byte) IoError := Err NotFound.
Definition demo_lines : list string := ["aaaa"; "bbbb"; "cccc"; "dddd"; "eeee"]%string.

Lemma demo_lines_good : Forall good_line demo_lines.
Proof. unfold demo_lines. rewrite !Forall_cons. by repeat split. Qed.

Lemma ring_keeps_the_newest_witness :
  exists w' dropped kept, append_all no_link demo_lines (ring_with_cap 10) (demo_ring_world []) = (ring_with_cap 10, [], w') /\
    demo_lines = dropped ++ kept /\ recent no_link 2 (disk w') = last_n 2 kept /\
    recent no_link 2 (disk w') = ["dddd"; "eeee"]%string /\ ["dddd"; "eeee"]%string `suffix_of` kept.
Proof.
  destruct (ring_keeps_the_newest no_link demo_lines (ring_with_cap 10) (demo_ring_world []) 2) as (w' & dropped & kept & E & El & Hr & Hs);
    [done|done|done|done|exact demo_lines_good|].
  exists w', dropped, kept. split; [done|]. split; [done|]. split; [done|].
  assert (disk w' = disk (append_all no_link demo_lines (ring_with_cap 10) (demo_ring_world [])).2) as Ed by by rewrite E.
  split; [rewrite Ed; by vm_compute|]. apply Hs; [by exists ["aaaa"; "bbbb"; "cccc"]%string|by vm_compute].
Defined.

(** The disk is full after two bytes of the second line. *)
Lemma ring_is_bounded_and_private_witness :
  exists r fs w', append_all no_link demo_lines (ring_with_cap 10)
      (demo_ring_world [Done; Done; Done; Done; Done; Done; Done; Done; Done; Done; Fails (Os "No space left") 2]) = (r, fs, w') /\
    write_errors r = 1 /\ fs = [Os "No space left"] /\
    (forall i n, inodes (disk w') !! i = Some n -> content n = [] \/ Z.land (mode n) 511 = 384).
Proof.
  destruct (append_all no_link demo_lines (ring_with_cap 10)
    (demo_ring_world [Done; Done; Done; Done; Done; Done; Done; Done; Done; Done; Fails (Os "No space left") 2])) as [[r fs] w'] eqn:E.
  exists r, fs, w'. split; [done|].
  assert (write_errors r = 1 /\ fs = [Os "No space left"]) as [Hw Hf].
  { apply (f_equal (fun p => (write_errors p.1.1, p.1.2))) in E. vm_compute in E. injection E as E1 E2. by split. }
  split; [done|]. split; [done|].
  destruct (ring_is_bounded_and_private no_link demo_lines _ _ r fs w' 10 E) as [(h & _ & [Hd _]%Forall_cons) _];
    [done|done|done|by repeat constructor|].
  intros i n Hi. destruct (private _ _ _ Hd i n Hi) as [He|[(n0 & E0 & _)|He]]; [by left|done|by right].
Defined.

(** The environment's directory: a blank one is read like none. *)
Lemma state_dir_agrees f :
  (forall d, configured_state_dir_from f = Some d -> state_dir_from f = Some d) /\
  (is_Some (blank_state_dir_warning f) -> configured_state_dir_from f = None).
Proof.
  unfold configured_state_dir_from, state_dir_from, blank_state_dir_warning, blank.
  destruct (f "CT_AGENT_STATE_DIR"%string) as [s|]; [|by split; [|intros [? [=]]]].
  destruct (is_empty (trim s)); split; [done|done|done|by intros [? [=]]].
Qed.
