(* ===== verification/ManifestRun.v ===== *)
(** * ManifestRun: publishing and installing a service manifest ([manifest_run/mod.rs])

    The settings of [ct-agent manifest], the policies for the URLs it talks to, the directory of an
    activation with its marker, the activation itself and its dry run.  Manifests with their
    signatures (manifest-core) and the installer with its trust allowlist (installer-engine) are a
    type class; directories are a small disk, HTTP is answered from outside. *)
From S2P Require Import Prelude Text Codec Net EnvFlag CliConfig Json.
From S2P Require Events.

#[local] Open Scope Z_scope.

(** ** URLs *)

(** [str::trim_end_matches('/')] and the part before the first of some characters. *)
Fixpoint drop_while (f : ascii -> bool) (l : list ascii) : list ascii :=
  match l with [] => [] | c :: l' => if f c then drop_while f l' else l end.
Definition trim_slashes (s : string) : string :=
  String.string_of_list_ascii (reverse (drop_while (Ascii.eqb "/") (reverse (String.list_ascii_of_string s)))).
Fixpoint up_to (stop : ascii -> bool) (s : string) : string :=
  match s with
  | EmptyString => EmptyString
  | String c s => if stop c then EmptyString else String c (up_to stop s)
  end.
Definition starts_with (p s : string) : bool := match strip_prefix p s with Some _ => true | None => false end.
Definition after_last (c : ascii) (s : string) : string := match rsplit_once c s with Some (_, y) => y | None => s end.

(** The host of an authority, without user information, port and brackets. *)
Definition authority_host (authority : string) : string :=
  let host := after_last "@" authority in
  match strip_prefix "[" host with
  | Some bracketed => up_to (Ascii.eqb "]") bracketed
  | None => up_to (Ascii.eqb ":") host
  end.
Definition loopback_names : list string := ["localhost"; "127.0.0.1"; "::1"]%string.
Definition require_registry_url_scheme (url : string) : result unit string :=
  let refused := Err ("CT_MANIFEST_REGISTRY_URL must be https:// (got '" +:+ url +:+ "') -- it carries "
    +:+ "CT_MANIFEST_REGISTRY_WRITE_TOKEN plus the manifest/bundle bytes on every request, so a "
    +:+ "non-loopback http:// endpoint would leak all of it in cleartext to anyone on path; "
    +:+ "http://127.0.0.1, http://localhost or http://[::1] is allowed for local development")%string in
  if starts_with "https://" url then Ok tt
  else match strip_prefix "http://" url with
       | Some rest =>
           if bool_decide (authority_host (up_to (fun c => Ascii.eqb c "/" || Ascii.eqb c "?") rest) ∈ loopback_names) then Ok tt
           else refused
       | None => refused
       end.

Fixpoint scheme_of (s : string) : option string :=
  match strip_prefix "://" s with
  | Some _ => Some EmptyString
  | None => match s with
            | EmptyString => None
            | String c s => let? x := scheme_of s in Some (String c x)
            end
  end.
Definition require_manifest_location (location : string) (allow_local_path : bool) : result unit string :=
  if starts_with "https://" location then Ok tt
  else if starts_with "http://" location then
    Err ("CT_MANIFEST_URL must be https:// (got '" +:+ location +:+ "') -- a manifest fetched over "
      +:+ "cleartext http:// could be swapped on path, and via bridge/manifest-install a "
      +:+ "caller could aim this agent at internal HTTP services (ct-agent#170)")%string
  else if starts_with "file://" location then
    Err ("CT_MANIFEST_URL does not accept file:// (got '" +:+ location +:+ "') -- to activate a manifest "
      +:+ "from a local file, pass its bare path and set CT_MANIFEST_ALLOW_LOCAL_PATH=1 on this "
      +:+ "agent (ct-agent#170)")%string
  else match scheme_of location with
       | Some scheme => Err ("CT_MANIFEST_URL must be https:// (got unsupported scheme '" +:+ scheme +:+ "://') (ct-agent#170)")%string
       | None =>
           if allow_local_path then Ok tt
           else Err ("CT_MANIFEST_URL must be an https:// URL (got a local path '" +:+ location +:+ "') -- set "
             +:+ "CT_MANIFEST_ALLOW_LOCAL_PATH=1 on this agent to activate manifests from local files; "
             +:+ "the flag is read from the agent's own environment only, never from a caller (ct-agent#170)")%string
       end.

(** ** Settings *)

Definition flag_set (v : option string) : bool := flag v false.
Definition id_hex (s : string) : option (list byte) := hex_decode 32 (trim s).
Definition opt (f : Lookup) (key : string) : option string := trimmed f key.
Definition req (f : Lookup) (key what : string) : result string string := ok_or (trimmed f key) (required key what).
Definition req_number (f : Lookup) (key what : string) : result Z string :=
  let* s := req f key what in map_err (invalid key) (parse_int U64_MAX s).

Definition DEFAULT_EXPIRES_IN_SECS : Z := 31536000.
Inductive InstallerKind := Compose | Binary | K8s.
Record BundleRef := { url : string; sha256 : list byte; compose_file : string }.
Record EnvVarSpec := { var_name : string; var_required : bool; var_description : string }.
Record VerifySpec := { script : string; timeout_secs : Z }.

(** [parse_env_vars]: entries [NAME:required:description], the description with any colons. *)
Definition SHAPE : string := "expected NAME:required:description (required = true|false)".
Definition parse_env_var (entry : string) : result EnvVarSpec string :=
  let bad why := ("CT_MANIFEST_ENV_VARS entry '" +:+ entry +:+ "': " +:+ why)%string in
  let* (name, required, description) :=
    ok_or (let? (name, rest) := split_once ":" entry in
           let? (required, description) := split_once ":" rest in
           Some (trim name, required, description)) (bad SHAPE) in
  if is_empty name then Err (bad ("empty variable name, " +:+ SHAPE)%string)
  else
    let word := to_ascii_lowercase (trim required) in
    let* r := if String.eqb word "true" then Ok true
              else if String.eqb word "false" then Ok false
              else Err (bad ("required flag is '" +:+ word +:+ "', " +:+ SHAPE)%string) in
    Ok {| var_name := name; var_required := r; var_description := trim description |}.
Fixpoint env_vars (entries : list string) : result (list EnvVarSpec) string :=
  match entries with
  | [] => Ok []
  | e :: entries => let* v := parse_env_var e in let* vs := env_vars entries in Ok (v :: vs)
  end.
Definition parse_env_vars (s : string) : result (list EnvVarSpec) string := env_vars (tokens ";" s).

(** ** Manifests and the installer *)

(** The contract of a sandbox, kept closed; the fields of a manifest that this program reads. *)
Class ManifestTypes := { EnvironmentContract : Type; Seal : Type }.
Record UnsignedManifest `{ManifestTypes} := {
  u_name : string; u_version : string; u_kind : InstallerKind; u_bundle : BundleRef; u_env_template : list EnvVarSpec;
  u_verify : VerifySpec; issued_at : Z; u_expires_at : Z; u_environment : option EnvironmentContract }.
Record ServiceManifest `{ManifestTypes} := {
  manifest_id : list byte; publisher_pubkey : list byte; expires_at : Z; installer_kind : InstallerKind; bundle : BundleRef;
  env_template : list EnvVarSpec; environment : option EnvironmentContract; seal : Seal }.
Record ActivationMarker := {
  m_manifest_id : string; m_publisher_pubkey : string; m_project_name : string; activated_at : Z; ct_agent_version : string }.
(** The outcomes of an installation, and of its dry run. *)
Inductive InstallReport :=
| Installed (id publisher project : string)
| Rejected (reason : string)
| Failed (reason : string).
Record Plan := { refusals : list string; backend : option string; argv_preview : list string; compose_overrides : list string }.
Record PlanOptions `{ManifestTypes} := {
  p_kind : InstallerKind; p_environment : option EnvironmentContract; entrypoint : string; p_work_dir : string;
  env_names : list string; p_require_binary_sandbox : bool; p_project_name : string; compose_yaml : option string }.

Class ManifestCore `{ManifestTypes} := {
  parse_contract : string -> result EnvironmentContract string;
  validate : EnvironmentContract -> result unit string;
  unsigned_from_json : string -> result UnsignedManifest string;
  unsigned_to_json : UnsignedManifest -> string;
  manifest_from_json : string -> result ServiceManifest string;
  sign_new : list byte -> list byte -> UnsignedManifest -> ServiceManifest;
  is_valid : ServiceManifest -> Z -> bool;
  parse_allowlist : string -> result (list (list byte)) string;
  load_allowlist : string -> result (list (list byte)) string;
  require_binary_sandbox_from_env : Lookup -> bool;
  marker_to_json : ActivationMarker -> list byte;
  marker_from_json : list byte -> result ActivationMarker string;
  marker_roundtrip m : marker_from_json (marker_to_json m) = Ok m;
  engine_plan : PlanOptions -> Plan;
  would_refuse : Plan -> bool;
  would_refuse_ok p : refusals p <> [] -> would_refuse p = true;
  version : string;
}.

Section Manifest.
Context `{ManifestCore}.

(** ** Authoring and signing *)

Record CreateConfig := {
  c_name : string; c_version : string; c_kind : InstallerKind; c_bundle : BundleRef; c_env_template : list EnvVarSpec;
  c_verify : VerifySpec; expires_in_secs : Z; c_environment : option EnvironmentContract }.
Definition parse_environment_json (json : string) : result EnvironmentContract string :=
  let* env := map_err (invalid "CT_MANIFEST_ENVIRONMENT_JSON") (parse_contract json) in
  let* _ := map_err (invalid "CT_MANIFEST_ENVIRONMENT_JSON") (validate env) in
  Ok env.
Definition kind_of (o : option string) : result InstallerKind string :=
  match o with
  | None => Ok Compose
  | Some k =>
      if String.eqb k "compose" then Ok Compose
      else if String.eqb k "binary" then Ok Binary
      else if String.eqb k "k8s" then Ok K8s
      else Err ("CT_MANIFEST_KIND '" +:+ k +:+ "' is not one of compose|binary|k8s")%string
  end.
Definition create_from_lookup (f : Lookup) : result CreateConfig string :=
  let* sha := req f "CT_MANIFEST_BUNDLE_SHA256" "64 hex; sha256 of the bundle tarball" in
  let* sha256 := ok_or (id_hex sha) "CT_MANIFEST_BUNDLE_SHA256 must be exactly 64 ASCII hex characters"%string in
  let* expires := opt_uint U64_MAX f "CT_MANIFEST_EXPIRES_IN_SECS" DEFAULT_EXPIRES_IN_SECS in
  if expires =? 0 then Err "CT_MANIFEST_EXPIRES_IN_SECS must be greater than 0"%string
  else
    let* kind := kind_of (opt f "CT_MANIFEST_KIND") in
    let* env := match opt f "CT_MANIFEST_ENVIRONMENT_JSON" with
                | Some json => let* e := parse_environment_json json in Ok (Some e)
                | None => Ok None
                end in
    let* name := req f "CT_MANIFEST_NAME" "the service's name" in
    let* version := req f "CT_MANIFEST_VERSION" "the service's version" in
    let* url := req f "CT_MANIFEST_BUNDLE_URL" "https:// URL of the bundle tarball" in
    let* compose := req f "CT_MANIFEST_COMPOSE_FILE"
      "path INSIDE the bundle to the compose file (Compose kind) or the executable (Binary kind)" in
    let* vars := parse_env_vars (default ""%string (opt f "CT_MANIFEST_ENV_VARS")) in
    let* script := req f "CT_MANIFEST_VERIFY_SCRIPT" "path to verify.sh INSIDE the bundle" in
    let* timeout := req_number f "CT_MANIFEST_VERIFY_TIMEOUT_SECS" "seconds the verify script may run" in
    Ok {| c_name := name; c_version := version; c_kind := kind;
          c_bundle := {| url := url; sha256 := sha256; compose_file := compose |}; c_env_template := vars;
          c_verify := {| script := script; timeout_secs := timeout |}; expires_in_secs := expires; c_environment := env |}.
Definition unsigned (c : CreateConfig) (now : Z) : UnsignedManifest :=
  {| u_name := c_name c; u_version := c_version c; u_kind := c_kind c; u_bundle := c_bundle c; u_env_template := c_env_template c;
     u_verify := c_verify c; issued_at := now; u_expires_at := sat_add64 now (expires_in_secs c); u_environment := c_environment c |}.

(** What [read_manifest_input] read, by file or from stdin. *)
Definition read_manifest_input (f : Lookup) (read_file : string -> result string string) (stdin : result string string)
  : result string string :=
  let* raw := match opt f "CT_MANIFEST_IN" with
              | Some path => map_err (fun e => "read " +:+ path +:+ ": " +:+ e)%string (read_file path)
              | None => map_err (fun e => "read manifest JSON from stdin: " +:+ e)%string stdin
              end in
  if is_empty (trim raw) then Err "no manifest JSON on stdin (pipe it in, or set CT_MANIFEST_IN to a file)"%string else Ok raw.
Definition sign_manifest (unsigned_json : string) (holder id : list byte) : result ServiceManifest string :=
  let* u := map_err (fun e => "input is not a valid unsigned manifest: " +:+ e)%string (unsigned_from_json unsigned_json) in
  if u_expires_at u <=? issued_at u then
    Err ("refusing to sign: expires_at (" +:+ show (u_expires_at u) +:+ ") is not after issued_at (" +:+ show (issued_at u)
         +:+ ") -- the manifest would never be valid")%string
  else
    let* _ := match u_environment u with
              | Some env => map_err (fun e => "refusing to sign: environment contract invalid: " +:+ e)%string (validate env)
              | None => Ok tt
              end in
    Ok (sign_new holder id u).
Definition run_sign (f : Lookup) (input : result string string) (id : list byte) : result ServiceManifest string :=
  let* seed := req f "CT_MANIFEST_HOLDER_KEY"
    "64 hex; the publisher's ed25519 holder PRIVATE key, same format as CT_CHANNEL_HOLDER_KEY" in
  let* holder := ok_or (id_hex seed) "CT_MANIFEST_HOLDER_KEY must be exactly 64 ASCII hex characters"%string in
  let* input := input in
  sign_manifest input holder id.

(** ** Publishing *)

Record Request := { method : string; to_url : string; bearer : option string; body : list string }.
Record Reply := { status : Z; status_line : string; text : string }.
Definition is_success (r : Reply) : bool := between 200 (status r) 299.
(** What stands under a path: a directory with its entries (the bytes of a file, [None] for anything
    else), a file, a symbolic link.  [faults]: the error an operation answers with, if any. *)
Inductive Node := Directory (entries : gmap string (option (list byte))) | RegularFile | Symlink.
Inductive Op := CreateDirAll | Inspect | CreateDir | ReadDir | ReadFile | WriteFile.
Record Disk := { nodes : gmap string Node; faults : Op -> string -> option string }.
Definition put (path : string) (n : Node) (d : Disk) : Disk := {| nodes := <[path := n]> (nodes d); faults := faults d |}.
(** What [installer_engine::activate] is called with. *)
Record ActivateOptions := {
  o_manifest_location : string; o_allowlist : list (list byte); o_env_file : option string; o_project_name : string;
  o_protected : list string; o_work_dir : string; o_now : Z; o_require_binary_sandbox : bool }.
(** What was sent, the lines printed, the events, and the runs of the installer with the disk each
    started on. *)
Inductive Act :=
| Sent (r : Request)
| Printed (line : string)
| Emitted (event : string) (status : string)
| Ran (o : ActivateOptions) (on : Disk).
Definition Outside := Request -> result Reply string.

Definition load_and_verify_manifest_to_publish (input : result string string) (now : Z) : result (string * ServiceManifest) string :=
  let* body := input in
  let* manifest := map_err (fun e => "input is not a valid signed manifest: " +:+ e)%string (manifest_from_json body) in
  if expires_at manifest <=? now then
    Err ("refusing to publish: manifest expired at " +:+ show (expires_at manifest) +:+ " (now " +:+ show now +:+ ")")%string
  else if negb (is_valid manifest now) then
    Err ("refusing to publish: the signature does not verify against publisher_pubkey -- sign "
         +:+ "it with `ct-agent manifest sign` and do not edit the JSON afterwards")%string
  else Ok (body, manifest).
Definition detail (r : Reply) : string := take_chars 200 (trim (text r)).
Definition dashed (d : string) : string := if is_empty d then ""%string else (" -- " +:+ d)%string.
Definition run_publish_dumb_put (send : Outside) (input : result string string) (now : Z) (url : string) : list Act * result unit string :=
  if negb (starts_with "https://" url) then
    ([], Err ("CT_MANIFEST_PUBLISH_URL must be https:// (got '" +:+ url +:+ "') -- installer-engine refuses to "
              +:+ "fetch a manifest over plain HTTP, so this one could never be activated")%string)
  else match load_and_verify_manifest_to_publish input now with
       | Err e => ([], Err e)
       | Ok (body, manifest) =>
           let r := {| method := "PUT"; to_url := url; bearer := None; body := [body] |} in
           match send r with
           | Err e => ([Sent r], Err ("PUT " +:+ url +:+ ": " +:+ e)%string)
           | Ok reply =>
               if negb (is_success reply) then
                 ([Sent r], Err ("PUT " +:+ url +:+ ": HTTP " +:+ status_line reply +:+ dashed (detail reply))%string)
               else ([Sent r; Printed ("published manifest " +:+ hex_encode (manifest_id manifest) +:+ " to " +:+ url)%string], Ok tt)
           end
       end.
Definition run_publish_to_registry (f : Lookup) (send : Outside) (read_file : string -> result string string)
  (input : result string string) (now : Z) (registry_url : string) : list Act * result unit string :=
  let registry_url := trim_slashes registry_url in
  let prepared :=
    let* _ := require_registry_url_scheme registry_url in
    let* path := req f "CT_MANIFEST_BUNDLE_PATH" "local path to the bundle tarball this manifest's bundle.sha256 commits to" in
    let* token := req f "CT_MANIFEST_REGISTRY_WRITE_TOKEN" "the registry's REGISTRY_WRITE_TOKEN" in
    let* (body, manifest) := load_and_verify_manifest_to_publish input now in
    let* bytes := map_err (fun e => "read CT_MANIFEST_BUNDLE_PATH " +:+ path +:+ ": " +:+ e)%string (read_file path) in
    Ok (token, body, manifest, bytes) in
  match prepared with
  | Err e => ([], Err e)
  | Ok (token, body, manifest, bytes) =>
      let url := (registry_url +:+ "/manifests")%string in
      let r := {| method := "POST"; to_url := url; bearer := Some token; body := [body; bytes] |} in
      match send r with
      | Err e => ([Sent r], Err ("POST " +:+ url +:+ ": " +:+ e)%string)
      | Ok reply =>
          if negb (is_success reply) then
            ([Sent r], Err ("POST " +:+ url +:+ ": HTTP " +:+ status_line reply +:+ " -- " +:+ detail reply)%string)
          else ([Sent r; Printed ("published manifest " +:+ hex_encode (manifest_id manifest) +:+ " to registry " +:+ registry_url
                                  +:+ ": " +:+ trim (text reply))%string], Ok tt)
      end
  end.
Definition run_publish (f : Lookup) (send : Outside) (read_file : string -> result string string) (input : result string string)
  (now : Z) : list Act * result unit string :=
  match opt f "CT_MANIFEST_PUBLISH_URL", opt f "CT_MANIFEST_REGISTRY_URL" with
  | Some _, Some _ => ([], Err "set exactly one of CT_MANIFEST_PUBLISH_URL or CT_MANIFEST_REGISTRY_URL, not both"%string)
  | None, None => ([], Err ("CT_MANIFEST_PUBLISH_URL (https:// object-storage URL) or "
                            +:+ "CT_MANIFEST_REGISTRY_URL (Phase 3 registry base URL) required")%string)
  | Some url, None => run_publish_dumb_put send input now url
  | None, Some registry => run_publish_to_registry f send read_file input now registry
  end.

(** ** The settings of an activation *)

Record RegistryActivationConfig := { registry_url : string; registry_write_token : string; activator_pubkey : string }.
Record ActivateCliConfig := {
  manifest_location : string; allowlist : list (list byte); env_file : option string; project_name : string;
  protected_name_substrings : list string; work_dir : string; registry : option RegistryActivationConfig;
  require_binary_sandbox : bool }.
(** One of the two forms of an allowlist, and not an empty one. *)
Definition allowlist_from (inline file : option string) (both none empty : string) : result (list (list byte)) string :=
  let* l := match inline, file with
            | Some _, Some _ => Err both
            | Some csv, None => parse_allowlist csv
            | None, Some path => load_allowlist path
            | None, None => Err none
            end in
  match l with [] => Err empty | _ => Ok l end.
Definition registry_from_lookup (f : Lookup) : result (option RegistryActivationConfig) string :=
  match opt f "CT_MANIFEST_REGISTRY_URL" with
  | None => Ok None
  | Some registry_url =>
      let registry_url := trim_slashes registry_url in
      let* _ := require_registry_url_scheme registry_url in
      let* token := req f "CT_MANIFEST_REGISTRY_WRITE_TOKEN" "the registry's REGISTRY_WRITE_TOKEN" in
      let* hex := req f "CT_MANIFEST_ACTIVATOR_PUBKEY" "this agent's own 64-hex holder pubkey, reported on the activation ledger" in
      match id_hex hex with
      | None => Err "CT_MANIFEST_ACTIVATOR_PUBKEY must be exactly 64 ASCII hex characters"%string
      | Some _ => Ok (Some {| registry_url := registry_url; registry_write_token := token; activator_pubkey := hex |})
      end
  end.
Definition activate_from_lookup (f : Lookup) : result ActivateCliConfig string :=
  let* allow := allowlist_from (opt f "CT_MANIFEST_TRUST_ALLOWLIST") (opt f "CT_MANIFEST_TRUST_ALLOWLIST_FILE")
    "set exactly one of CT_MANIFEST_TRUST_ALLOWLIST or CT_MANIFEST_TRUST_ALLOWLIST_FILE, not both"
    ("CT_MANIFEST_TRUST_ALLOWLIST (comma-separated 64-hex publisher pubkeys) or CT_MANIFEST_TRUST_ALLOWLIST_FILE (one per line) required "
     +:+ "-- activation trusts no publisher unless you name it explicitly")
    ("the configured publisher trust allowlist is empty -- it would reject "
     +:+ "every manifest; name at least one 64-hex publisher pubkey") in
  let* registry := registry_from_lookup f in
  let* location := req f "CT_MANIFEST_URL"
    ("https:// URL of the signed manifest JSON (a local path only with " +:+ "CT_MANIFEST_ALLOW_LOCAL_PATH=1 set on this agent)") in
  let* _ := require_manifest_location location (flag_set (opt f "CT_MANIFEST_ALLOW_LOCAL_PATH")) in
  let* project := req f "CT_MANIFEST_PROJECT_NAME" "the isolated docker compose project name for this install" in
  let* work := req f "CT_MANIFEST_WORK_DIR"
    ("the parent directory of per-activation bundle directories; this activation unpacks "
     +:+ "into <CT_MANIFEST_WORK_DIR>/<CT_MANIFEST_PROJECT_NAME>, which must not exist yet or must be empty") in
  Ok {| manifest_location := location; allowlist := allow; env_file := opt f "CT_MANIFEST_ENV_FILE"; project_name := project;
        protected_name_substrings := split_csv (default ""%string (opt f "CT_MANIFEST_PROTECTED_NAMES")); work_dir := work;
        registry := registry; require_binary_sandbox := require_binary_sandbox_from_env f |}.

(** ** The directory of an activation *)

(** [Debug] of one character. *)
Definition debug_character (c : string) : string :=
  ("'" +:+ (if String.eqb c "'" then "\'"%string else if String.eqb c (String Net.quote "") then c else debug_chars c) +:+ "'")%string.
Definition name_char (c : ascii) : bool := is_ascii_alphanumeric c || Ascii.eqb c "." || Ascii.eqb c "_" || Ascii.eqb c "-".
(** The first character that is not allowed, with all its bytes. *)
Fixpoint first_bad (s : string) : option string :=
  match s with
  | EmptyString => None
  | String c s' => if name_char c then first_bad s' else Some (take_chars 1 s)
  end.
Definition activation_dir_name (project : string) : result string string :=
  let bad why := Err ("CT_MANIFEST_PROJECT_NAME '" +:+ project +:+ "' is not usable as a directory name: " +:+ why)%string in
  if is_empty project then bad "it is empty"%string
  else match first_bad project with
       | Some c => bad ("character " +:+ debug_character c +:+ " is not one of [A-Za-z0-9._-]")%string
       | None =>
           if 64 <? str_len project then bad "it is longer than 64 characters"%string
           else if starts_with "-" project then bad "it must not start with '-'"%string
           else if starts_with "." project then bad "it must not start with '.' (which also rules out '.' and '..')"%string
           else Ok project
       end.

Definition ACTIVATION_MARKER_FILE : string := ".ct-agent-activation.json".

Definition attempt {A} (d : Disk) (op : Op) (path : string) (r : result A string) : result A string :=
  match faults d op path with Some e => Err e | None => r end.
(** A missing file is told apart from one that cannot be read. *)
Definition read_file_in (d : Disk) (dir name : string) : result (option (list byte)) string :=
  attempt d ReadFile (Events.path_join dir name)
    match nodes d !! dir with
    | Some (Directory es) => match es !! name with
                             | Some (Some bytes) => Ok (Some bytes)
                             | Some None => Err "not a regular file"%string
                             | None => Ok None
                             end
    | _ => Ok None
    end.

Definition read_activation_marker (d : Disk) (dir : string) : result (option ActivationMarker) string :=
  let path := Events.path_join dir ACTIVATION_MARKER_FILE in
  match read_file_in d dir ACTIVATION_MARKER_FILE with
  | Err e => Err ("read activation marker " +:+ path +:+ ": " +:+ e)%string
  | Ok None => Ok None
  | Ok (Some raw) =>
      match marker_from_json raw with
      | Ok m => Ok (Some m)
      | Err e => Err ("activation marker " +:+ path +:+ " is not valid: " +:+ e)%string
      end
  end.
Definition write_activation_marker (d : Disk) (dir : string) (m : ActivationMarker) : Disk * result unit string :=
  let path := Events.path_join dir ACTIVATION_MARKER_FILE in
  match faults d WriteFile path, nodes d !! dir with
  | None, Some (Directory es) => (put dir (Directory (<[ACTIVATION_MARKER_FILE := Some (marker_to_json m)]> es)) d, Ok tt)
  | Some e, _ => (d, Err ("write activation marker " +:+ path +:+ ": " +:+ e)%string)
  | None, _ => (d, Err ("write activation marker " +:+ path +:+ ": no such directory")%string)
  end.

(** [create_dir_all]; [create_dir] refuses what exists by now. *)
Definition create_dir_all (d : Disk) (path : string) : Disk * result unit string :=
  match faults d CreateDirAll path, nodes d !! path with
  | Some e, _ => (d, Err e)
  | None, None => (put path (Directory ∅) d, Ok tt)
  | None, Some (Directory _) => (d, Ok tt)
  | None, Some _ => (d, Err "File exists"%string)
  end.
Definition create_dir (d : Disk) (path : string) : Disk * result unit string :=
  match faults d CreateDir path, nodes d !! path with
  | Some e, _ => (d, Err e)
  | None, None => (put path (Directory ∅) d, Ok tt)
  | None, Some _ => (d, Err "File exists"%string)
  end.
Definition occupied (d : Disk) (dir occupant : string) : string :=
  let prior := match read_activation_marker d dir with
               | Ok (Some m) => (" -- a previous activation (manifest " +:+ m_manifest_id m +:+ ", project '" +:+ m_project_name m
                                 +:+ "', at " +:+ show (activated_at m) +:+ ") already occupies it")%string
               | _ => " -- a previous activation or unrelated files already occupy it"%string
               end in
  (dir +:+ " is not empty (contains '" +:+ occupant +:+ "')" +:+ prior +:+ "; ct-agent never unpacks a bundle over existing "
   +:+ "files (#165). Remove that directory yourself, or choose a new CT_MANIFEST_PROJECT_NAME")%string.
(** The entry read first is any of them: here the first of the map. *)
Definition prepare_activation_dir (d : Disk) (work project : string) : Disk * result string string :=
  let '(d, made) := create_dir_all d work in
  match made with
  | Err e => (d, Err ("create CT_MANIFEST_WORK_DIR " +:+ work +:+ ": " +:+ e)%string)
  | Ok _ =>
      match activation_dir_name project with
      | Err e => (d, Err e)
      | Ok name =>
          let dir := Events.path_join work name in
          match faults d Inspect dir, nodes d !! dir with
          | Some e, _ => (d, Err ("inspect activation directory " +:+ dir +:+ ": " +:+ e)%string)
          | None, None =>
              let '(d, made) := create_dir d dir in
              (d, match made with
                  | Ok _ => Ok dir
                  | Err e => Err ("create activation directory " +:+ dir +:+ ": " +:+ e)%string
                  end)
          | None, Some Symlink =>
              (d, Err (dir +:+ " is a symlink -- refusing to unpack a bundle through it (#165); remove it, or choose a new "
                       +:+ "CT_MANIFEST_PROJECT_NAME")%string)
          | None, Some RegularFile =>
              (d, Err (dir +:+ " exists and is not a directory -- refusing to unpack a bundle there (#165); remove it, or "
                       +:+ "choose a new CT_MANIFEST_PROJECT_NAME")%string)
          | None, Some (Directory es) =>
              match faults d ReadDir dir, map fst (map_to_list es) with
              | Some e, _ => (d, Err ("read activation directory " +:+ dir +:+ ": " +:+ e)%string)
              | None, occupant :: _ => (d, Err (occupied d dir occupant))
              | None, [] => (d, Ok dir)
              end
          end
      end
  end.

(** ** Activating *)

Record Activation := { report : InstallReport; install_dir : string }.
Definition report_status_str (r : InstallReport) : string :=
  match r with Installed _ _ _ => "ok" | Rejected _ => "rejected" | Failed _ => "failed" end.
Definition report_is_ok (r : InstallReport) : bool := match r with Installed _ _ _ => true | _ => false end.
Definition ledger_event (r : RegistryActivationConfig) (id : string) : Request :=
  {| method := "POST"; to_url := registry_url r +:+ "/manifests/" +:+ id +:+ "/activations";
     bearer := Some (registry_write_token r); body := [activator_pubkey r; "ok"] |}%string.
Definition post_activation_ledger_event (send : Outside) (r : RegistryActivationConfig) (id : string) : list Act * result unit string :=
  let q := ledger_event r id in
  ([Sent q], match send q with
             | Err e => Err ("POST activation ledger event: " +:+ e)%string
             | Ok reply => if is_success reply then Ok tt else Err ("HTTP " +:+ status_line reply +:+ dashed (detail reply))%string
             end).
(** [engine] is [installer_engine::activate] on the disk ([None]: its task panicked), [now] and [later]
    the clock before and after it ([None]: before the epoch). *)
Definition BEFORE_EPOCH : string := "system clock is before the Unix epoch".
Definition run_activate (engine : ActivateOptions -> Disk -> Disk * option InstallReport) (send : Outside) (now later : option Z)
  (cfg : ActivateCliConfig) (d : Disk) : Disk * list Act * result Activation string :=
  match now with
  | None => (d, [], Err BEFORE_EPOCH)
  | Some now =>
      match prepare_activation_dir d (work_dir cfg) (project_name cfg) with
      | (d, Err e) => (d, [], Err e)
      | (d, Ok dir) =>
          let opts := {| o_manifest_location := manifest_location cfg; o_allowlist := allowlist cfg; o_env_file := env_file cfg;
                         o_project_name := project_name cfg; o_protected := protected_name_substrings cfg; o_work_dir := dir;
                         o_now := now; o_require_binary_sandbox := require_binary_sandbox cfg |} in
          let ran := Ran opts d in
          let '(d, outcome) := engine opts d in
          match outcome with
          | None => (d, [ran], Err "activation task failed"%string)
          | Some report =>
              let said := [ran; Emitted "manifest_install" (report_status_str report)] in
              match report with
              | Installed id publisher project =>
                  let marker := {| m_manifest_id := id; m_publisher_pubkey := publisher; m_project_name := project;
                                   activated_at := default now later; ct_agent_version := version |} in
                  match write_activation_marker d dir marker with
                  | (d, Err e) =>
                      (d, said, Err ("activation of manifest " +:+ id +:+ " into " +:+ dir
                        +:+ " succeeded but its activation marker could not be written: " +:+ e
                        +:+ " -- the directory is not usable by `harness run` until it carries one")%string)
                  | (d, Ok _) =>
                      let posted := match registry cfg with
                                    | Some r =>
                                        let '(sent, ok) := post_activation_ledger_event send r id in
                                        sent ++ match ok with
                                                | Ok _ => []
                                                | Err e => [Printed ("warning: activation succeeded but the registry ledger event failed: " +:+ e)%string]
                                                end
                                    | None => []
                                    end in
                      (d, said ++ posted, Ok {| report := report; install_dir := dir |})
                  end
              | _ => (d, said, Ok {| report := report; install_dir := dir |})
              end
          end
      end
  end.

(** ** The dry run *)

Record PlanCliConfig := { activate : ActivateCliConfig; plan_compose_file : option string }.
Definition plan_from_lookup (f : Lookup) : result PlanCliConfig string :=
  let* a := activate_from_lookup f in
  Ok {| activate := a; plan_compose_file := opt f "CT_MANIFEST_COMPOSE_FILE" |}.
Record Planned := { plan : Plan; planned_dir : string; planned_id : string }.
Definition plan_exit_code (p : Plan) : Z := if would_refuse p then 1 else 0.
Definition pre_activation_refusals (allow : list (list byte)) (m : ServiceManifest) (now : Z) : list string :=
  (if is_valid m now then []
   else ["manifest_invalid_or_expired: the signature does not verify or the manifest has expired"%string]) ++
  (if bool_decide (publisher_pubkey m ∈ allow) then []
   else [("publisher_not_on_trust_allowlist: " +:+ hex_encode (publisher_pubkey m))%string]).
Record PlanTarget := {
  t_allowlist : list (list byte); t_install_dir : string; t_project_name : string; t_require_binary_sandbox : bool }.
Definition plan_target_for (cfg : ActivateCliConfig) : result PlanTarget string :=
  let* name := activation_dir_name (project_name cfg) in
  Ok {| t_allowlist := allowlist cfg; t_install_dir := Events.path_join (work_dir cfg) name; t_project_name := project_name cfg;
        t_require_binary_sandbox := require_binary_sandbox cfg |}.
Definition build_plan_options (t : PlanTarget) (m : ServiceManifest) (yaml : option string) : PlanOptions :=
  {| p_kind := installer_kind m; p_environment := environment m; entrypoint := compose_file (bundle m);
     p_work_dir := t_install_dir t; env_names := map var_name (env_template m);
     p_require_binary_sandbox := t_require_binary_sandbox t; p_project_name := t_project_name t; compose_yaml := yaml |}.
Definition plan_for_manifest (t : PlanTarget) (m : ServiceManifest) (yaml : option string) (now : Z) : Planned :=
  let p := engine_plan (build_plan_options t m yaml) in
  {| plan := {| refusals := pre_activation_refusals (t_allowlist t) m now ++ refusals p; backend := backend p;
                argv_preview := argv_preview p; compose_overrides := compose_overrides p |};
     planned_dir := t_install_dir t; planned_id := hex_encode (manifest_id m) |}.
Definition run_plan_blocking (fetch : string -> result ServiceManifest string) (read_file : string -> result string string)
  (now : option Z) (cfg : PlanCliConfig) : result Planned string :=
  let* now := ok_or now BEFORE_EPOCH in
  let* m := map_err (fun e => "fetch manifest: " +:+ e)%string (fetch (manifest_location (activate cfg))) in
  let* yaml := match plan_compose_file cfg with
               | Some path => let* y := map_err (fun e => "read CT_MANIFEST_COMPOSE_FILE " +:+ path +:+ ": " +:+ e)%string (read_file path) in
                              Ok (Some y)
               | None => Ok None
               end in
  let* t := plan_target_for (activate cfg) in
  Ok (plan_for_manifest t m yaml now).

(** The JSON of a report and of a plan, as the installer serializes them, with what this program adds. *)
Definition with_fields (v : Value) (l : list (string * Value)) : Value :=
  match v with Object m => Object (list_to_map l ∪ m) | _ => v end.
Definition serialized (kind : string) (v : result Value string) : Value :=
  match v with
  | Ok v => v
  | Err e => Object (list_to_map [("status", Str (kind +:+ "_serialize_error")); ("detail", Str e)])%string
  end.
Definition report_json_with_install_dir (to_value : InstallReport -> result Value string) (a : Activation) : Value :=
  with_fields (serialized "report" (to_value (report a))) [("install_dir", Str (install_dir a))]%string.
Definition plan_json_with_install_dir (to_value : Plan -> result Value string) (p : Planned) : Value :=
  with_fields (serialized "plan" (to_value (plan p)))
    [("would_refuse", Bool (would_refuse (plan p))); ("install_dir", Str (planned_dir p)); ("manifest_id", Str (planned_id p))]%string.

(** ** Where manifests come from and tokens go *)

Lemma starts_with_iff p s : starts_with p s = true <-> exists r, s = (p +:+ r)%string.
Proof.
  unfold starts_with. destruct (strip_prefix p s) as [r|] eqn:E.
  - apply strip_prefix_spec in E. split; [by exists r|done].
  - split; [done|]. intros [r Hr]. apply strip_prefix_spec in Hr. by rewrite Hr in E.
Qed.
Lemma scheme_of_none s : scheme_of s = None <-> contains "://" s = false.
Proof.
  induction s as [|c s IH]; [done|]. cbn [scheme_of contains].
  destruct (strip_prefix "://" (String c s)); [done|]. destruct (scheme_of s); [|naive_solver].
  split; [done|]. intros Hc. by apply IH in Hc.
Qed.
Lemma prefix_contains p q s : starts_with (p +:+ q) s = true -> contains q s = true.
Proof. intros [r ->]%starts_with_iff. apply contains_spec. exists p, r. by rewrite string_app_assoc. Qed.

(** A manifest is taken from an https:// URL, or from a plain path on an agent whose owner allowed
    that: no other scheme is ever accepted. *)
Theorem manifest_location_iff location allow : require_manifest_location location allow = Ok tt <->
  starts_with "https://" location = true \/ (allow = true /\ contains "://" location = false).
Proof.
  unfold require_manifest_location. destruct (starts_with "https://" location) eqn:E1; [naive_solver|].
  destruct (starts_with "http://" location) eqn:E2.
  { apply (prefix_contains "http" "://") in E2. rewrite E2. naive_solver. }
  destruct (starts_with "file://" location) eqn:E3.
  { apply (prefix_contains "file" "://") in E3. rewrite E3. naive_solver. }
  destruct (scheme_of location) eqn:E4.
  { destruct (contains "://" location) eqn:Ec; [naive_solver|]. apply scheme_of_none in Ec. by rewrite Ec in E4. }
  apply scheme_of_none in E4. rewrite E4. destruct allow; naive_solver.
Qed.

(** The authority as the URL standard delimits it: also before a fragment, and a backslash counts as a slash. *)
Definition url_authority : string -> string :=
  up_to (fun c => Ascii.eqb c "/" || Ascii.eqb c "?" || Ascii.eqb c "#" || Ascii.eqb c "\").
Lemma up_to_ext f g s : (forall c, contains_char c s = true -> f c = g c) -> up_to f s = up_to g s.
Proof.
  induction s as [|c s IH]; [done|]. intros Hfg. cbn. rewrite (Hfg c) by (cbn; by destruct (Ascii.eqb_spec c c)).
  destruct (g c); [done|]. f_equal. apply IH. intros x Hx. apply Hfg. cbn. by rewrite Hx, orb_true_r.
Qed.
Lemma registry_url_stays_local url : contains_char "#" url = false -> contains_char "\" url = false ->
  require_registry_url_scheme url = Ok tt ->
  starts_with "https://" url = true \/
  exists rest, url = ("http://" +:+ rest)%string /\ authority_host (url_authority rest) ∈ loopback_names.
Proof.
  intros H1 H2. unfold require_registry_url_scheme. destruct (starts_with "https://" url); [by left|].
  destruct (strip_prefix "http://" url) as [rest|] eqn:E; [|done]. apply strip_prefix_spec in E as ->.
  rewrite contains_char_app in H1, H2. apply orb_false_iff in H1 as [_ H1]. apply orb_false_iff in H2 as [_ H2].
  destruct (bool_decide_reflect (authority_host (up_to (fun c => Ascii.eqb c "/" || Ascii.eqb c "?") rest) ∈ loopback_names)) as [Hl|]; [|done].
  intros _. right. exists rest. split; [done|]. unfold url_authority.
  rewrite (up_to_ext _ (fun c => Ascii.eqb c "/" || Ascii.eqb c "?")); [done|]. intros c Hc.
  destruct (Ascii.eqb_spec c "#") as [->|]; [by rewrite H1 in Hc|]. destruct (Ascii.eqb_spec c "\") as [->|]; [by rewrite H2 in Hc|].
  by rewrite !orb_false_r.
Qed.
(** Such a character hides where the token goes. *)
Example fragment_hides_the_host :
  require_registry_url_scheme "http://registry.example#@127.0.0.1" = Ok tt /\
  authority_host (url_authority "registry.example#@127.0.0.1") = "registry.example"%string /\
  require_registry_url_scheme "http://registry.example\@127.0.0.1" = Ok tt.
Proof. vm_compute. auto. Qed.

(** ** Publishing *)

Lemma published_manifest_ok input now txt m : load_and_verify_manifest_to_publish input now = Ok (txt, m) ->
  input = Ok txt /\ manifest_from_json txt = Ok m /\ now < expires_at m /\ is_valid m now = true.
Proof.
  unfold load_and_verify_manifest_to_publish. intros (b & -> & (m' & Em & H1)%rbind_Ok)%rbind_Ok.
  destruct (manifest_from_json b) as [x|] eqn:Ej; [injection Em as ->|done].
  destruct (Z.leb_spec (expires_at m') now); [done|]. destruct (is_valid m' now) eqn:Ev; [|done].
  cbn in H1. injection H1 as <- <-. repeat split; done || lia.
Qed.
(** A manifest is published only while it is valid and unexpired, to one address: the object URL,
    which is https, without a token, or the registry that passed its policy, with the write token. *)
Theorem publish_sends_only_what_verifies f send read_file input now acts r q :
  run_publish f send read_file input now = (acts, r) -> Sent q ∈ acts ->
  (exists m txt, input = Ok txt /\ manifest_from_json txt = Ok m /\ now < expires_at m /\ is_valid m now = true /\
     (body q) !! 0%nat = Some txt) /\
  (forall q', Sent q' ∈ acts -> q' = q) /\
  ((starts_with "https://" (to_url q) = true /\ bearer q = None /\ opt f "CT_MANIFEST_PUBLISH_URL" = Some (to_url q)) \/
   (exists registry, opt f "CT_MANIFEST_REGISTRY_URL" = Some registry /\ require_registry_url_scheme (trim_slashes registry) = Ok tt /\
      to_url q = (trim_slashes registry +:+ "/manifests")%string /\ bearer q = opt f "CT_MANIFEST_REGISTRY_WRITE_TOKEN")).
Proof.
  unfold run_publish. destruct (opt f "CT_MANIFEST_PUBLISH_URL") as [url|] eqn:Eu, (opt f "CT_MANIFEST_REGISTRY_URL") as [registry|] eqn:Er;
    try (intros [= <- _]; by intros ?%elem_of_nil).
  - unfold run_publish_dumb_put. destruct (starts_with "https://" url) eqn:Es; cbn [negb]; [|intros [= <- _]; by intros ?%elem_of_nil].
    destruct (load_and_verify_manifest_to_publish input now) as [[txt m]|e] eqn:El; [|intros [= <- _]; by intros ?%elem_of_nil].
    apply published_manifest_ok in El as (Hi & Hj & Hx & Hv). set (q0 := {| method := "PUT"; to_url := url |}).
    intros Hrun Hq. assert (forall x, Sent x ∈ acts -> x = q0) as Hall.
    { intros x. destruct (send q0) as [reply|]; [destruct (is_success reply)|]; injection Hrun as <- _; set_solver. }
    rewrite (Hall _ Hq). split; [by exists m, txt|]. split; [done|]. by left.
  - unfold run_publish_to_registry. set (prepared := rbind (require_registry_url_scheme (trim_slashes registry)) _).
    destruct prepared as [[[[token txt] m] bytes]|e] eqn:Ep; [|intros [= <- _]; by intros ?%elem_of_nil].
    subst prepared. apply rbind_Ok in Ep as ([] & Hs & (path & Epa & (tok & Etok & ([b m'] & El & (by_ & _ & [= -> -> -> ->])%rbind_Ok)%rbind_Ok)%rbind_Ok)%rbind_Ok).
    apply published_manifest_ok in El as (Hi & Hj & Hx & Hv).
    set (q0 := {| method := "POST"; to_url := trim_slashes registry +:+ "/manifests"; bearer := Some token; body := [txt; bytes] |}).
    intros Hrun Hq. assert (forall x, Sent x ∈ acts -> x = q0) as Hall.
    { intros x. destruct (send q0) as [reply|]; [destruct (is_success reply)|]; injection Hrun as <- _; set_solver. }
    rewrite (Hall _ Hq). split; [by exists m, txt|]. split; [done|]. right. exists registry. repeat split; try done.
    cbn. unfold req in Etok. unfold opt. destruct (trimmed f "CT_MANIFEST_REGISTRY_WRITE_TOKEN"); [by injection Etok as ->|done].
Qed.

(** ** The directory of an activation *)

(** One path component that is neither hidden, nor an option, nor a way up. *)
Definition plain_name (s : string) : Prop :=
  forall_char name_char s = true /\ 1 <= str_len s <= 64 /\ starts_with "-" s = false /\ starts_with "." s = false.
Lemma first_bad_none s : first_bad s = None <-> forall_char name_char s = true.
Proof.
  unfold forall_char. induction s as [|c s IH]; [done|]. cbn [first_bad String.list_ascii_of_string forallb].
  destruct (name_char c); [by rewrite IH|]. done.
Qed.
Lemma activation_dir_name_iff project name : activation_dir_name project = Ok name <-> name = project /\ plain_name project.
Proof.
  unfold activation_dir_name, plain_name. destruct (is_empty project) eqn:E0.
  { split; [done|]. intros (_ & _ & [Hl _] & _). apply String.eqb_eq in E0 as ->. by apply Z.leb_le in Hl. }
  destruct (first_bad project) eqn:E1.
  { split; [done|]. intros (_ & Hc & _). apply first_bad_none in Hc. by rewrite E1 in Hc. }
  apply first_bad_none in E1. assert (1 <= str_len project) as Hl by (unfold str_len; destruct project as [|c p]; [discriminate|cbn [String.length]; lia]).
  destruct (Z.ltb_spec 64 (str_len project)); [naive_solver lia|].
  destruct (starts_with "-" project); [naive_solver|]. destruct (starts_with "." project); naive_solver.
Qed.
Lemma plain_name_is_component s : plain_name s -> contains_char "/" s = false /\ s <> ""%string /\ s <> "."%string /\ s <> ".."%string.
Proof.
  intros (Hc & Hl & _ & Hd). split; [by eapply forall_char_no_char|].
  repeat split; intros ->; [by destruct Hl as [Hl%Z.leb_le _]|done..].
Qed.
Lemma path_join_longer dir name : name <> ""%string -> Events.path_join dir name <> dir.
Proof.
  intros Hn He. apply (f_equal String.length) in He. unfold Events.path_join in He.
  assert (0 < String.length name)%nat by (destruct name; [done|]; cbn; lia).
  destruct (_ || _); rewrite ?length_append in He; cbn in He; lia.
Qed.

Definition only_new_directories (d d' : Disk) : Prop := faults d' = faults d /\
  forall p, nodes d' !! p = nodes d !! p \/ (nodes d !! p = None /\ nodes d' !! p = Some (Directory ∅)).
Lemma only_new_refl d : only_new_directories d d.
Proof. split; [done|]. by left. Qed.
Lemma only_new_put d d' p : only_new_directories d d' -> nodes d' !! p = None -> only_new_directories d (put p (Directory ∅) d').
Proof.
  intros [Hf Hn] Hp. split; [done|]. intros q. cbn. destruct (decide (q = p)) as [->|Hq].
  - rewrite lookup_insert, decide_True by done. right. by destruct (Hn p) as [<-|[? E]]; [|rewrite E in Hp].
  - rewrite lookup_insert_ne by done. apply Hn.
Qed.
Lemma create_dir_all_new d path d' r : create_dir_all d path = (d', r) ->
  only_new_directories d d' /\ (forall p, p <> path -> nodes d' !! p = nodes d !! p).
Proof.
  unfold create_dir_all. destruct (faults d CreateDirAll path); [intros [= <- _]; split; [apply only_new_refl|done]|].
  destruct (nodes d !! path) as [[]|] eqn:E; intros [= <- _]; try (split; [apply only_new_refl|done]).
  split; [by apply only_new_put; [apply only_new_refl|]|]. intros p Hp. cbn. by rewrite lookup_insert_ne.
Qed.

Definition prepared_empty (d d' : Disk) (work project : string) (r : result string string) : Prop :=
  only_new_directories d d' /\
  forall dir, r = Ok dir ->
    plain_name project /\ dir = Events.path_join work project /\ nodes d' !! dir = Some (Directory ∅) /\
    (nodes d !! dir = None \/ nodes d !! dir = Some (Directory ∅)).
(** Preparing an activation only ever adds empty directories.  When it succeeds, the bundle's
    directory is the project's own component of the work directory, and it is empty: it was absent or
    an empty real directory before, never a link, a file or a directory with something in it. *)
Lemma prepare_spec d work project d' r : prepare_activation_dir d work project = (d', r) -> prepared_empty d d' work project r.
Proof.
  unfold prepare_activation_dir, prepared_empty. destruct (create_dir_all d work) as [d1 made] eqn:Ec.
  apply create_dir_all_new in Ec as [H1 H2]. destruct made as [[]|e]; [|by intros [= <- <-]].
  destruct (activation_dir_name project) as [name|e] eqn:En; [|by intros [= <- <-]].
  apply activation_dir_name_iff in En as [-> Hp]. pose proof (plain_name_is_component _ Hp) as (_ & Hne & _).
  set (dir := Events.path_join work project). assert (nodes d1 !! dir = nodes d !! dir) as Hd by (by apply H2, path_join_longer).
  destruct (faults d1 Inspect dir) eqn:Ef; [by intros [= <- <-]|].
  destruct (nodes d1 !! dir) as [[es| |]|] eqn:En; [| by intros [= <- <-].. |].
  - destruct (faults d1 ReadDir dir); [by intros [= <- <-]|].
    destruct (map fst (map_to_list es)) as [|x l] eqn:El; [|by intros [= <- <-]]. intros [= <- <-].
    split; [done|]. intros ? [= <-]. apply map_eq_nil, map_to_list_empty_iff in El as ->. repeat split; try done; [apply Hp..|]. by right.
  - unfold create_dir. destruct (faults d1 CreateDir dir) eqn:Ef2; [by intros [= <- <-]|]. rewrite En.
    intros [= <- <-]. split; [by apply only_new_put|]. intros ? [= <-]. cbn. rewrite lookup_insert, decide_True by done.
    repeat split; try done; [apply Hp..|]. by left.
Qed.
Lemma prepared_faults d work project d' r : prepare_activation_dir d work project = (d', r) -> faults d' = faults d.
Proof. by intros [[Hf _] _]%prepare_spec. Qed.

(** ** What an activation leaves *)

Definition options_of (cfg : ActivateCliConfig) (dir : string) (now : Z) : ActivateOptions :=
  {| o_manifest_location := manifest_location cfg; o_allowlist := allowlist cfg; o_env_file := env_file cfg;
     o_project_name := project_name cfg; o_protected := protected_name_substrings cfg; o_work_dir := dir;
     o_now := now; o_require_binary_sandbox := require_binary_sandbox cfg |}.
Lemma write_marker_reads_back d dir m d' : write_activation_marker d dir m = (d', Ok tt) ->
  faults d ReadFile (Events.path_join dir ACTIVATION_MARKER_FILE) = None -> read_activation_marker d' dir = Ok (Some m).
Proof.
  unfold write_activation_marker, read_activation_marker, read_file_in, attempt.
  destruct (faults d WriteFile _); [done|]. destruct (nodes d !! dir) as [[es| |]|]; try done. intros [= <-] Hf. cbn.
  rewrite Hf, lookup_insert, decide_True by done. cbn. by rewrite lookup_insert, decide_True, marker_roundtrip.
Qed.

Lemma installed_marker engine send now later cfg d d' acts a id publisher project :
  (forall o x, faults (engine o x).1 = faults x) ->
  run_activate engine send now later cfg d = (d', acts, Ok a) -> report a = Installed id publisher project ->
  faults d ReadFile (Events.path_join (install_dir a) ACTIVATION_MARKER_FILE) = None ->
  exists m, read_activation_marker d' (install_dir a) = Ok (Some m) /\ m_manifest_id m = id /\ m_publisher_pubkey m = publisher.
Proof.
  intros Hfaults. unfold run_activate. destruct now as [t|]; [|done].
  destruct (prepare_activation_dir d (work_dir cfg) (project_name cfg)) as [d1 [dir|e]] eqn:Ep; [|done].
  apply prepared_faults in Ep. fold (options_of cfg dir t). pose proof (Hfaults (options_of cfg dir t) d1) as Hf2.
  destruct (engine (options_of cfg dir t) d1) as [d2 [[i p n|why|why]|]]; cbn in Hf2; [|by intros [= _ _ <-]..|done].
  set (marker := {| m_manifest_id := i |}). destruct (write_activation_marker d2 dir marker) as [d3 [[]|e]] eqn:Ew; [|done].
  intros [= <- _ <-] [= <- <- <-] Hf. exists marker. split; [|done]. eapply write_marker_reads_back; [done|]. by rewrite Hf2, Ep.
Qed.

Definition ran (a : Act) : Prop := match a with Ran _ _ => True | _ => False end.
(** What a run of the installer may be: with the agent's settings, on the project's empty directory of a
    disk that got nothing but empty directories since; what is left is what the installer left, but
    for the marker. *)
Definition installed_by (engine : ActivateOptions -> Disk -> Disk * option InstallReport) (now : option Z) (cfg : ActivateCliConfig)
    (d d' : Disk) (o : ActivateOptions) (x : Disk) : Prop :=
  let dir := Events.path_join (work_dir cfg) (project_name cfg) in
  (exists t, now = Some t /\ o = options_of cfg dir t) /\ plain_name (project_name cfg) /\
  nodes x !! dir = Some (Directory ∅) /\ only_new_directories d x /\
  (d' = (engine o x).1 \/ exists m, d' = (write_activation_marker (engine o x).1 dir m).1).

(** The installer is run first and once, or never; then nothing but empty directories are made. *)
Lemma installer_runs engine send now later cfg d d' acts r : run_activate engine send now later cfg d = (d', acts, r) ->
  (exists o x rest, acts = Ran o x :: rest /\ Forall (fun a => ~ ran a) rest /\ installed_by engine now cfg d d' o x /\
     forall a, r = Ok a -> install_dir a = o_work_dir o /\ (engine o x).2 = Some (report a)) \/
  acts = [] /\ only_new_directories d d' /\ is_ok r = false.
Proof.
  unfold run_activate. destruct now as [t|]; [|intros [= <- <- <-]; right; split; [done|]; split; [apply only_new_refl|done]].
  destruct (prepare_activation_dir d (work_dir cfg) (project_name cfg)) as [d1 [dir|e]] eqn:Ep;
    apply prepare_spec in Ep as [Hnew Hdir]; [|by intros [= <- <- <-]; right].
  destruct (Hdir _ eq_refl) as (Hp & -> & He & _). clear Hdir. set (dir := Events.path_join (work_dir cfg) (project_name cfg)) in *.
  fold (options_of cfg dir t). set (o := options_of cfg dir t).
  assert (forall d', d' = (engine o d1).1 \/ (exists m, d' = (write_activation_marker (engine o d1).1 dir m).1) ->
    installed_by engine (Some t) cfg d d' o d1) as Hby by (intros x Hx; split; [by exists t|done]).
  intros H'. left. exists o, d1. destruct (engine o d1) as [d2 outcome] eqn:Ee. cbn [fst snd] in *.
  destruct outcome as [rep|]; [|injection H' as <- <- <-; exists []; split; [done|]; split; [done|]; split; [apply Hby; by left|done]].
  destruct rep as [id publisher project|why|why];
    [|injection H' as <- <- <-; eexists; (split; [done|]); (split; [by repeat constructor; intros []|]); (split; [apply Hby; by left|]); by intros a [= <-]..].
  destruct (write_activation_marker d2 dir _) as [d3 [[]|e]] eqn:Ew; injection H' as <- <- <-; eexists; (split; [done|]);
    (split; [|split; [apply Hby; right; eexists; by rewrite Ew|try (by intros a [= <-]); done]]).
  - constructor; [by intros []|]. destruct (registry cfg) as [reg|]; [|constructor]. unfold post_activation_ledger_event.
    constructor; [by intros []|]. destruct (send _) as [reply|]; [destruct (is_success reply)|]; repeat constructor; by intros [].
  - repeat constructor. by intros [].
Qed.

(** The ledger hears of an installation only when one is reported. *)
Lemma ledger_hears engine send now later cfg d d' acts r q :
  run_activate engine send now later cfg d = (d', acts, r) -> Sent q ∈ acts ->
  exists a id publisher project reg, r = Ok a /\ report a = Installed id publisher project /\
    registry cfg = Some reg /\ q = ledger_event reg id.
Proof.
  intros Hrun. revert q.
  revert Hrun. unfold run_activate. destruct now as [t|]; [|intros [= <- <- <-]; by intros q ?%elem_of_nil].
  destruct (prepare_activation_dir d (work_dir cfg) (project_name cfg)) as [d1 [dir|e]] eqn:Ep;
    [|intros [= <- <- <-]; by intros q ?%elem_of_nil].
  destruct (engine _ d1) as [d2 [[id publisher project|why|why]|]]; [|intros [= _ <- _]; set_solver..].
  intros Hend q Hq. destruct (write_activation_marker _ _ _) as [d3 [[]|e]]; injection Hend as _ <- <-; [|set_solver].
  do 2 (apply elem_of_cons in Hq as [|Hq]; [done|]). destruct (registry cfg) as [reg|]; [|by apply elem_of_nil in Hq].
  exists {| report := Installed id publisher project; install_dir := dir |}, id, publisher, project, reg.
  repeat split. cbn in Hq. apply elem_of_cons in Hq as [[= ->]|Hq]; [done|].
  destruct (send _) as [reply|]; [destruct (is_success reply)|]; set_solver.
Qed.


(** ** The dry run *)

(** A dry run that exits with success means that the manifest is valid and unexpired, that its
    publisher is trusted, and that the installer's own checks refuse nothing. *)
Theorem plan_success_is_trusted t m yaml now :
  plan_exit_code (plan (plan_for_manifest t m yaml now)) = 0 ->
  is_valid m now = true /\ publisher_pubkey m ∈ t_allowlist t /\ refusals (engine_plan (build_plan_options t m yaml)) = [].
Proof.
  unfold plan_exit_code. destruct (would_refuse _) eqn:E; [done|]. intros _.
  assert (refusals (plan (plan_for_manifest t m yaml now)) = []) as Hr.
  { destruct (refusals _) eqn:Er; [done|]. rewrite would_refuse_ok in E; [done|]. by rewrite Er. }
  cbn in Hr. unfold pre_activation_refusals in Hr. destruct (is_valid m now); [|done].
  destruct (bool_decide_reflect (publisher_pubkey m ∈ t_allowlist t)); [|done]. done.
Qed.
End Manifest.

(** ** Concrete inputs *)

(** Any countable value as bytes, and back. *)
Fixpoint bits (p : positive) : list byte :=
  match p with xH => [] | xO p => Byte.x00 :: bits p | xI p => Byte.x01 :: bits p end.
Fixpoint unbits (l : list byte) : positive :=
  match l with [] => xH | Byte.x00 :: l => xO (unbits l) | _ :: l => xI (unbits l) end.
Lemma unbits_bits p : unbits (bits p) = p.
Proof. induction p; cbn; congruence. Qed.

#[local] Instance demo_types : ManifestTypes := {| EnvironmentContract := unit; Seal := unit |}.
Definition demo_manifest (id publisher : byte) (expires : Z) : ServiceManifest :=
  {| manifest_id := repeat id 32; publisher_pubkey := repeat publisher 32; expires_at := expires; installer_kind := Compose;
     bundle := {| url := "https://x/b"; sha256 := repeat id 32; compose_file := "compose.yml" |}; env_template := [];
     environment := None; seal := () |}.
#[local, refine] Instance demo_core : ManifestCore := {|
  parse_contract _ := Ok tt; validate _ := Ok tt; unsigned_from_json _ := Err "none"%string; unsigned_to_json _ := ""%string;
  manifest_from_json s := if String.eqb s "manifest" then Ok (demo_manifest Byte.x01 Byte.x02 2000) else Err "not a manifest"%string;
  sign_new _ _ u := demo_manifest Byte.x01 Byte.x02 (u_expires_at u);
  is_valid m now := (now <? expires_at m); parse_allowlist s := parse_hex32_ids s; load_allowlist _ := Ok [];
  require_binary_sandbox_from_env _ := true;
  marker_to_json m := bits (encode (m_manifest_id m, m_publisher_pubkey m, m_project_name m, activated_at m, ct_agent_version m));
  marker_from_json l :=
    match decode (unbits l) : option (string * string * string * Z * string) with
    | Some (i, p, n, t, v) =>
        Ok {| m_manifest_id := i; m_publisher_pubkey := p; m_project_name := n; activated_at := t; ct_agent_version := v |}
    | None => Err "not a marker"%string
    end;
  engine_plan _ := {| refusals := []; backend := None; argv_preview := []; compose_overrides := [] |};
  would_refuse p := negb (bool_decide (refusals p = [])); version := "1.0.0" |}.
Proof.
  - intros []. by rewrite unbits_bits, decode_encode.
  - intros p Hp. by rewrite bool_decide_eq_false_2.
Defined.

Definition demo_disk : Disk := {| nodes := {[ "/work"%string := Directory ∅ ]}; faults _ _ := None |}.
Definition demo_activation : ActivateCliConfig :=
  {| manifest_location := "https://x/m"; allowlist := [repeat Byte.x02 32]; env_file := None; project_name := "web-1";
     protected_name_substrings := []; work_dir := "/work";
     registry := Some {| registry_url := "https://r"; registry_write_token := "t"; activator_pubkey := "a" |};
     require_binary_sandbox := true |}.
(** An installer that unpacks one file. *)
Definition demo_engine (o : ActivateOptions) (d : Disk) : Disk * option InstallReport :=
  (put (o_work_dir o) (Directory {[ "compose.yml"%string := Some (as_bytes "x") ]}) d, Some (Installed "01" "02" (o_project_name o))).
Definition demo_send : Outside := fun _ => Ok {| status := 200; status_line := "200 OK"; text := "" |}.

Lemma manifest_location_iff_witness :
  require_manifest_location "https://x/m" false = Ok tt /\ require_manifest_location "m.json" true = Ok tt.
Proof. split; apply manifest_location_iff; [left|right]; vm_compute; auto. Defined.

Definition demo_publish_env (k : string) : option string :=
  if String.eqb k "CT_MANIFEST_PUBLISH_URL" then Some "https://store/m.json"%string else None.
Lemma publish_sends_only_what_verifies_witness :
  exists q, Sent q ∈ (run_publish demo_publish_env demo_send (fun _ => Err "none"%string) (Ok "manifest"%string) 1000).1 /\
    starts_with "https://" (to_url q) = true.
Proof.
  destruct (run_publish demo_publish_env demo_send (fun _ => Err "none"%string) (Ok "manifest"%string) 1000) as [acts r] eqn:E.
  assert (exists q, Sent q ∈ acts) as [q Hq].
  { revert E. vm_compute. intros [= <- _]. eexists. by left. }
  exists q. split; [done|]. destruct (publish_sends_only_what_verifies _ _ _ _ _ _ _ q E Hq) as (_ & _ & [(Hs & _)|(reg & Hreg & _)]);
    [done|by vm_compute in Hreg].
Defined.


Definition demo_target : PlanTarget :=
  {| t_allowlist := [repeat Byte.x02 32]; t_install_dir := "/work/web-1"; t_project_name := "web-1"; t_require_binary_sandbox := true |}.
Lemma plan_success_is_trusted_witness :
  plan_exit_code (plan (plan_for_manifest demo_target (demo_manifest Byte.x01 Byte.x02 2000) None 1000)) = 0 /\
  publisher_pubkey (demo_manifest Byte.x01 Byte.x02 2000) ∈ t_allowlist demo_target.
Proof.
  assert (plan_exit_code (plan (plan_for_manifest demo_target (demo_manifest Byte.x01 Byte.x02 2000) None 1000)) = 0) as E by (vm_compute; reflexivity).
  split; [exact E|]. by apply (plan_success_is_trusted demo_target (demo_manifest Byte.x01 Byte.x02 2000) None 1000 E).
Defined.
Example stranger_is_refused :
  plan_exit_code (plan (plan_for_manifest demo_target (demo_manifest Byte.x01 Byte.x03 2000) None 1000)) = 1.
Proof. vm_compute. reflexivity. Qed.
