(* ===== verification/HarnessRun.v ===== *)
(** * HarnessRun: running a signed task on an activated bundle ([harness_run/mod.rs])

    The settings of [ct-agent harness run] and its pre-flight: which task may touch which directory.
    The agent loop, its tools and its back ends are harness-core's: the last step of a run. *)
From S2P Require Import Prelude Text Codec Net CliConfig ManifestRun Json.
From S2P Require Events.

#[local] Open Scope Z_scope.

(** ** Settings *)

(** The kinds this program names, and any other. *)
Inductive BackendKind := ClaudeCode | Codex | Gemini | OtherKind (id : string).
#[global] Instance BackendKind_eq_dec : EqDecision BackendKind.
Proof. solve_decision. Defined.
Inductive BackendChoice :=
| LiteLlm (base_url key_file : string)
| Cli (kind : BackendKind)
| Ollama (base_url : string)
| Auto.
Definition DEFAULT_OLLAMA_URL : string := "http://127.0.0.1:11434/v1".
Inductive Maturity := Supported | Experimental.
Record DetectedBackend := { kind : BackendKind; maturity : Maturity; binary : string; found_version : option string }.

Class HarnessCore := {
  parse_kind : string -> option BackendKind;
  kind_id : BackendKind -> string;
  binary_name : BackendKind -> option string;
  kind_maturity : BackendKind -> Maturity;
  all_kinds : list BackendKind;
  pick_auto : list DetectedBackend -> option DetectedBackend;
  resolve_in_bundle : string -> string -> result string string;
}.
Record SignedTask := { task_manifest_id : list byte; prompt : string }.

Record HarnessCliConfig := {
  h_task_location : string; h_manifest_location : string; h_allowlist : list (list byte); h_bundle_dir : string;
  h_backend : BackendChoice; claude_token_file : option string; allowed_models : list string; allow_unmarked_bundle : bool;
  h_state_dir : string; h_plan : bool; h_require_binary_sandbox : bool }.

Section Harness.
Context `{ManifestCore} `{HarnessCore}.

Definition backend_from_lookup (f : Lookup) : result BackendChoice string :=
  match option_map to_ascii_lowercase (opt f "CT_HARNESS_BACKEND") with
  | None => let* base := req f "CT_HARNESS_LITELLM_URL" "base URL of the operator's own LiteLLM proxy" in
            let* key := req f "CT_HARNESS_LITELLM_KEY_FILE" "path to a file holding a budget-capped LiteLLM virtual key -- never inline" in
            Ok (LiteLlm base key)
  | Some name =>
      if String.eqb name "litellm" then
        let* base := req f "CT_HARNESS_LITELLM_URL" "base URL of the operator's own LiteLLM proxy" in
        let* key := req f "CT_HARNESS_LITELLM_KEY_FILE" "path to a file holding a budget-capped LiteLLM virtual key -- never inline" in
        Ok (LiteLlm base key)
      else if String.eqb name "auto" then Ok Auto
      else if String.eqb name "ollama" then Ok (Ollama (default DEFAULT_OLLAMA_URL (opt f "CT_HARNESS_OLLAMA_URL")))
      else match parse_kind name with
           | Some ClaudeCode => Ok (Cli ClaudeCode)
           | Some Codex => Ok (Cli Codex)
           | Some Gemini => Ok (Cli Gemini)
           | _ => Err ("CT_HARNESS_BACKEND='" +:+ name +:+ "' is not one of litellm|claude|codex|gemini|ollama|auto")%string
           end
  end.
Definition models_needed (b : BackendChoice) : bool := match b with LiteLlm _ _ | Ollama _ => true | _ => false end.
Definition models_from_lookup (f : Lookup) (b : BackendChoice) : result (list string) string :=
  let* l := match models_needed b, opt f "CT_HARNESS_ALLOWED_MODELS" with
            | false, None => Ok []
            | _, _ => let* s := req f "CT_HARNESS_ALLOWED_MODELS"
                        ("comma-separated model_name values the harness may call -- no default, ever: this is "
                         +:+ "the ceiling on what a signed task can actually spend against") in
                      Ok (split_csv s)
            end in
  if models_needed b && bool_decide (l = []) then
    Err "CT_HARNESS_ALLOWED_MODELS resolved to an empty list -- name at least one model"%string
  else Ok l.
Definition harness_from_lookup (f : Lookup) : result HarnessCliConfig string :=
  let* allow := allowlist_from (opt f "CT_HARNESS_TRUST_ALLOWLIST") (opt f "CT_HARNESS_TRUST_ALLOWLIST_FILE")
    "set exactly one of CT_HARNESS_TRUST_ALLOWLIST or CT_HARNESS_TRUST_ALLOWLIST_FILE, not both"
    ("CT_HARNESS_TRUST_ALLOWLIST (comma-separated 64-hex publisher pubkeys) or CT_HARNESS_TRUST_ALLOWLIST_FILE (one per line) required "
     +:+ "-- the harness runs no task unless you name its publisher explicitly")
    ("the configured publisher trust allowlist is empty -- it would reject every task; name at least one 64-hex publisher pubkey") in
  let* backend := backend_from_lookup f in
  let* models := models_from_lookup f backend in
  let* state := ok_or (Events.state_dir_from f)
    ("CT_AGENT_STATE_DIR (or HOME) required -- the harness transcript is written to "
     +:+ "<state dir>/harness/<manifest_id>.transcript.jsonl, outside the bundle a task may edit")%string in
  let* task := req f "CT_HARNESS_TASK_URL_OR_PATH" "https:// URL or local path of the signed SignedTask JSON" in
  let* manifest := req f "CT_HARNESS_MANIFEST_URL_OR_PATH" "the same manifest reference used at `manifest activate` time for this bundle" in
  let* dir := req f "CT_HARNESS_BUNDLE_DIR" "the manifest's own activation directory, <CT_MANIFEST_WORK_DIR>/<project_name>" in
  Ok {| h_task_location := task; h_manifest_location := manifest; h_allowlist := allow; h_bundle_dir := dir; h_backend := backend;
        claude_token_file := opt f "CT_HARNESS_CLAUDE_TOKEN_FILE"; allowed_models := models;
        allow_unmarked_bundle := bool_decide (opt f "CT_HARNESS_ALLOW_UNMARKED_BUNDLE" = Some "1"%string); h_state_dir := state;
        h_plan := bool_decide (opt f "CT_HARNESS_PLAN" = Some "1"%string); h_require_binary_sandbox := require_binary_sandbox_from_env f |}.

(** ** The pre-flight *)

(** With the warning, if any. *)
Definition check_activation_marker (d : Disk) (dir expected : string) (allow_unmarked : bool) : list string * result unit string :=
  let named := ("CT_HARNESS_BUNDLE_DIR " +:+ dir)%string in
  match read_activation_marker d dir with
  | Ok (Some m) =>
      if String.eqb (m_manifest_id m) expected then ([], Ok tt)
      else ([], Err (named +:+ " was activated from manifest " +:+ m_manifest_id m +:+ ", not " +:+ expected +:+ " (its "
                     +:+ ACTIVATION_MARKER_FILE +:+ " says so) -- refusing to run a task against a bundle installed from a different manifest (#165)")%string)
  | Ok None =>
      if allow_unmarked then
        (["warning: " +:+ named +:+ " carries no " +:+ ACTIVATION_MARKER_FILE
          +:+ " activation marker -- accepting it unverified because CT_HARNESS_ALLOW_UNMARKED_BUNDLE=1 (#165)"]%string, Ok tt)
      else ([], Err (named +:+ " carries no " +:+ ACTIVATION_MARKER_FILE +:+ " activation marker -- it was activated by "
                     +:+ "an older ct-agent, or is not an activation directory at all, so nothing binds its contents to manifest "
                     +:+ expected +:+ "; re-activate it, or set CT_HARNESS_ALLOW_UNMARKED_BUNDLE=1 to accept it explicitly (#165)")%string)
  | Err e => ([], Err (named +:+ ": " +:+ e +:+ " -- refusing to trust a bundle directory whose activation marker cannot be read (#165)")%string)
  end.

(** [Path::file_name] of a path without trailing slashes. *)
Definition file_name (path : string) : option string :=
  let name := after_last "/" (trim_slashes path) in
  if is_empty name || String.eqb name ".." then None else Some name.
Definition plan_for_bundle (read_file : string -> result string string) (d : Disk) (cfg : HarnessCliConfig) (m : ServiceManifest)
  (expected_compose : string) (now : Z) : result Planned string :=
  let project := match read_activation_marker d (h_bundle_dir cfg) with
                 | Ok (Some marker) => m_project_name marker
                 | _ => default "harness"%string (file_name (h_bundle_dir cfg))
                 end in
  let* yaml := match installer_kind m with
               | Compose => let* y := map_err (fun e => "read bundle compose file " +:+ expected_compose +:+ ": " +:+ e)%string (read_file expected_compose) in
                            Ok (Some y)
               | _ => Ok None
               end in
  Ok (plan_for_manifest {| t_allowlist := h_allowlist cfg; t_install_dir := h_bundle_dir cfg; t_project_name := project;
                           t_require_binary_sandbox := h_require_binary_sandbox cfg |} m yaml now).

(** The installed command line back end to use, with the warning of an experimental one. *)
Definition select_cli (k : option BackendKind) (detected : list DetectedBackend) : list string * result DetectedBackend string :=
  let chosen := match k with
                | Some k => ok_or (List.find (fun d => bool_decide (kind d = k)) detected)
                    ("CT_HARNESS_BACKEND=" +:+ kind_id k +:+ ": `" +:+ kind_id k +:+ "` was not found on PATH (see `ct-agent harness backends`)")%string
                | None => ok_or (pick_auto detected)
                    ("CT_HARNESS_BACKEND=auto: no supported agent CLI (claude) found on PATH; install and log in to it "
                     +:+ "(see `ct-agent harness backends`)")%string
                end in
  match chosen with
  | Ok c =>
      (match maturity c with
       | Experimental => ["warning: backend '" +:+ kind_id (kind c)
           +:+ "' is experimental (flags not verified end to end, no turn limit); it runs inside the OS sandbox"]%string
       | Supported => []
       end, Ok c)
  | Err e => ([], Err e)
  end.
Definition backend_entry (detected : list DetectedBackend) (k : BackendKind) : option Value :=
  let? bin := binary_name k in
  let found := List.find (fun d => bool_decide (kind d = k)) detected in
  let shown (o : option string) := match o with Some s => Str s | None => Null end in
  Some (Object (list_to_map [("id", Str (kind_id k)); ("binary", Str bin); ("installed", Bool (bool_decide (is_Some found)));
    ("path", shown (option_map binary found)); ("version", shown (let? d := found in found_version d));
    ("maturity", Str (match kind_maturity k with Supported => "supported" | Experimental => "experimental" end))]))%string.
Definition backends_json (detected : list DetectedBackend) : Value :=
  let litellm := Object (list_to_map [("id", Str "litellm"); ("installed", Null); ("maturity", Str "supported");
    ("note", Str "operator LiteLLM; configured via CT_HARNESS_LITELLM_URL / CT_HARNESS_LITELLM_KEY_FILE")])%string in
  Object (list_to_map [("backends", Array (litellm :: omap (backend_entry detected) all_kinds));
    ("auto", match pick_auto detected with Some d => Str (kind_id (kind d)) | None => Null end)])%string.

(** ** The run *)

(** What a run did: the key file it opened, the warnings, and the loop it handed the task to, with the
    directory, the compose file and the models it may use. *)
Inductive Used := WithKey (base_url key : string) | WithOllama (base_url : string) | WithCli (d : DetectedBackend) (token_file : option string).
Inductive HarnessAct :=
| Warned (line : string)
| OpenedKey (path : string)
| Ran (task : SignedTask) (dir compose : string) (models : list string) (now : Z) (used : Used).
Inductive HarnessRun := Reported (report : string) | PlanOnly (p : Planned).
Definition stop {A} (acts : list HarnessAct) (e : string) : list HarnessAct * result A string := (acts, Err e).

Definition run_backend (report_of : Used -> string) (read_file : string -> result string string) (ollama : string -> result unit string)
  (cli_new : DetectedBackend -> result unit string) (detected : list DetectedBackend) (cfg : HarnessCliConfig) (task : SignedTask) (compose : string) (now : Z)
  : list HarnessAct * result HarnessRun string :=
  let ran used := Ran task (h_bundle_dir cfg) compose (allowed_models cfg) now used in
  match h_backend cfg with
  | LiteLlm base key_file =>
      match read_file key_file with
      | Err e => stop [OpenedKey key_file] ("read CT_HARNESS_LITELLM_KEY_FILE " +:+ key_file +:+ ": " +:+ e)%string
      | Ok raw =>
          let key := trim raw in
          if is_empty key then stop [OpenedKey key_file] (key_file +:+ " is empty -- no LiteLLM key to use")%string
          else ([OpenedKey key_file; ran (WithKey base key)], Ok (Reported (report_of (WithKey base key))))
      end
  | Ollama base =>
      match ollama base with
      | Err e => stop [] e
      | Ok _ => ([ran (WithOllama base)], Ok (Reported (report_of (WithOllama base))))
      end
  | Cli _ | Auto =>
      let '(warned, chosen) := select_cli (match h_backend cfg with Cli k => Some k | _ => None end) detected in
      match chosen with
      | Err e => stop [] e
      | Ok c =>
          match cli_new c with
          | Err e => stop (map Warned warned) e
          | Ok _ => let used := WithCli c (claude_token_file cfg) in
                    (map Warned warned ++ [ran used], Ok (Reported (report_of used)))
          end
      end
  end.
Definition run_harness_blocking (report_of : Used -> string) (read_file : string -> result string string) (is_file : string -> bool)
  (ollama : string -> result unit string) (cli_new : DetectedBackend -> result unit string) (detected : list DetectedBackend)
  (fetch_task : string -> result SignedTask string) (fetch_manifest : string -> result ServiceManifest string) (now : option Z)
  (d : Disk) (cfg : HarnessCliConfig) : list HarnessAct * result HarnessRun string :=
  let fetched :=
    let* task := fetch_task (h_task_location cfg) in
    let* m := map_err (fun e => "fetch manifest: " +:+ e)%string (fetch_manifest (h_manifest_location cfg)) in
    let* now := ok_or now BEFORE_EPOCH in
    Ok (task, m, now) in
  match fetched with
  | Err e => stop [] e
  | Ok (task, m, now) =>
      if negb (is_valid m now) then
        stop [] ("manifest fetched from CT_HARNESS_MANIFEST_URL_OR_PATH failed signature/expiry validation -- "
                 +:+ "refusing to trust its bundle.compose_file")%string
      else if negb (bool_decide (publisher_pubkey m ∈ h_allowlist cfg)) then
        stop [] ("the manifest fetched from CT_HARNESS_MANIFEST_URL_OR_PATH is signed by a publisher not on "
                 +:+ "CT_HARNESS_TRUST_ALLOWLIST -- refusing to trust its bundle.compose_file")%string
      else if negb (bool_decide (manifest_id m = task_manifest_id task)) then
        stop [] ("task.manifest_id (" +:+ hex_encode (task_manifest_id task)
                 +:+ ") does not match the manifest fetched from CT_HARNESS_MANIFEST_URL_OR_PATH (" +:+ hex_encode (manifest_id m)
                 +:+ ") -- refusing to run a task against a bundle it wasn't scoped to")%string
      else match resolve_in_bundle (h_bundle_dir cfg) (compose_file (bundle m)) with
           | Err e => stop [] ("manifest bundle.compose_file '" +:+ compose_file (bundle m) +:+ "' is invalid: " +:+ e)%string
           | Ok expected =>
               if negb (is_file expected) then
                 stop [] (expected +:+ " does not exist -- CT_HARNESS_BUNDLE_DIR does not look like it was actually "
                          +:+ "activated from this manifest")%string
               else
                 let '(warned, marked) := check_activation_marker d (h_bundle_dir cfg) (hex_encode (manifest_id m)) (allow_unmarked_bundle cfg) in
                 match marked with
                 | Err e => stop [] e
                 | Ok _ =>
                     let warned := map Warned warned in
                     if h_plan cfg then
                       (warned, let* p := plan_for_bundle read_file d cfg m expected now in Ok (PlanOnly p))
                     else
                       let '(acts, r) := run_backend report_of read_file ollama cli_new detected cfg task (compose_file (bundle m)) now in
                       (warned ++ acts, r)
                 end
           end
  end.

(** ** What may run *)

Lemma run_backend_ran report_of read_file ollama cli_new detected cfg task compose now acts r x :
  run_backend report_of read_file ollama cli_new detected cfg task compose now = (acts, r) -> x ∈ acts ->
  (forall t dir c models n used, x = Ran t dir c models n used ->
     t = task /\ dir = h_bundle_dir cfg /\ c = compose /\ models = allowed_models cfg /\ n = now).
Proof.
  intros Hrun Hx t dir c models n used ->. unfold run_backend in Hrun.
  destruct (h_backend cfg) as [base key|k|base|].
  - destruct (read_file key); [|injection Hrun as <- _; set_solver].
    destruct (is_empty _); injection Hrun as <- _; [set_solver|]. apply elem_of_cons in Hx as [|[[= -> -> -> -> -> _]|[]%elem_of_nil]%elem_of_cons]; done.
  - destruct (select_cli _ detected) as [w [ch|e]]; [|injection Hrun as <- _; set_solver].
    destruct (cli_new ch); injection Hrun as <- _; [|apply list_elem_of_fmap in Hx as (? & ? & _); done].
    apply elem_of_app in Hx as [Hx|Hx]; [apply list_elem_of_fmap in Hx as (? & ? & _); done|]. apply list_elem_of_singleton in Hx. by injection Hx as -> -> -> -> -> _.
  - destruct (ollama base); injection Hrun as <- _; [|set_solver]. apply list_elem_of_singleton in Hx. by injection Hx as -> -> -> -> -> _.
  - destruct (select_cli _ detected) as [w [ch|e]]; [|injection Hrun as <- _; set_solver].
    destruct (cli_new ch); injection Hrun as <- _; [|apply list_elem_of_fmap in Hx as (? & ? & _); done].
    apply elem_of_app in Hx as [Hx|Hx]; [apply list_elem_of_fmap in Hx as (? & ? & _); done|]. apply list_elem_of_singleton in Hx. by injection Hx as -> -> -> -> -> _.
Qed.

Section Run.
Context (report_of : Used -> string) (read_file : string -> result string string) (is_file : string -> bool).
Context (ollama : string -> result unit string) (cli_new : DetectedBackend -> result unit string) (detected : list DetectedBackend).
Context (fetch_task : string -> result SignedTask string) (fetch_manifest : string -> result ServiceManifest string).
Notation run := (run_harness_blocking report_of read_file is_file ollama cli_new detected fetch_task fetch_manifest).

(** Opening the operator's key and handing a task to a loop are the acts that count. *)
Definition serious (a : HarnessAct) : Prop := match a with Warned _ => False | _ => True end.

(** A task runs, and the operator's key is opened, only when the manifest is valid at this moment
    and its publisher trusted, the task names that very manifest, the compose file lies inside the
    bundle and exists, and the marker in the bundle names the manifest, or is missing and the operator
    said that this is accepted; the loop then gets this directory, this compose file and the models
    the operator allowed.  A dry run does neither. *)
Theorem task_runs_only_on_its_bundle now d cfg acts r x : run now d cfg = (acts, r) -> x ∈ acts -> serious x ->
  h_plan cfg = false /\
  exists t task m compose, now = Some t /\ fetch_task (h_task_location cfg) = Ok task /\ fetch_manifest (h_manifest_location cfg) = Ok m /\
    is_valid m t = true /\ publisher_pubkey m ∈ h_allowlist cfg /\ manifest_id m = task_manifest_id task /\
    resolve_in_bundle (h_bundle_dir cfg) (compose_file (bundle m)) = Ok compose /\ is_file compose = true /\
    ((exists marker, read_activation_marker d (h_bundle_dir cfg) = Ok (Some marker) /\ m_manifest_id marker = hex_encode (manifest_id m)) \/
     (read_activation_marker d (h_bundle_dir cfg) = Ok None /\ allow_unmarked_bundle cfg = true)) /\
    (forall t' dir c models n used, x = Ran t' dir c models n used ->
       t' = task /\ dir = h_bundle_dir cfg /\ c = compose_file (bundle m) /\ models = allowed_models cfg /\ n = t).
Proof.
  unfold run_harness_blocking, stop. set (fetched := rbind (fetch_task (h_task_location cfg)) _).
  destruct fetched as [[[task m] t]|e] eqn:Ef; [|intros [= <- _]; by intros ?%elem_of_nil]. subst fetched.
  apply rbind_Ok in Ef as (task' & Et & (m' & Em & (t' & Enow & [= -> -> ->])%rbind_Ok)%rbind_Ok).
  destruct (fetch_manifest (h_manifest_location cfg)) as [m'|] eqn:Em'; [injection Em as ->|done].
  destruct now as [t'|]; [injection Enow as ->|done].
  destruct (is_valid m t) eqn:Ev; cbn [negb]; [|intros [= <- _]; by intros ?%elem_of_nil].
  destruct (bool_decide_reflect (publisher_pubkey m ∈ h_allowlist cfg)); cbn [negb]; [|intros [= <- _]; by intros ?%elem_of_nil].
  destruct (bool_decide_reflect (manifest_id m = task_manifest_id task)); cbn [negb]; [|intros [= <- _]; by intros ?%elem_of_nil].
  destruct (resolve_in_bundle (h_bundle_dir cfg) (compose_file (bundle m))) as [compose|] eqn:Ec; [|intros [= <- _]; by intros ?%elem_of_nil].
  destruct (is_file compose) eqn:Efile; cbn [negb]; [|intros [= <- _]; by intros ?%elem_of_nil].
  unfold check_activation_marker.
  destruct (read_activation_marker d (h_bundle_dir cfg)) as [[marker|]|why] eqn:Emark; [..|intros [= <- _]; by intros ?%elem_of_nil].
  all: swap 1 2.
  { destruct (allow_unmarked_bundle cfg) eqn:Eu; [|intros [= <- _]; by intros ?%elem_of_nil].
    destruct (h_plan cfg); [intros [= <- _] Hx; by apply list_elem_of_singleton in Hx as ->|].
    destruct (run_backend _ _ _ _ _ _ _ _ _) as [racts rr] eqn:Er. intros [= <- <-] Hx Hs.
    apply elem_of_cons in Hx as [->|Hx]; [done|]. split; [done|]. exists t, task, m, compose. repeat (split; [done|]).
    split; [by right|]. eapply run_backend_ran; done. }
  destruct (String.eqb_spec (m_manifest_id marker) (hex_encode (manifest_id m))); [|intros [= <- _]; by intros ?%elem_of_nil].
  destruct (h_plan cfg); [intros [= <- _]; by intros ?%elem_of_nil|].
  destruct (run_backend _ _ _ _ _ _ _ _ _) as [racts rr] eqn:Er. intros [= <- <-] Hx Hs.
  split; [done|]. exists t, task, m, compose. repeat (split; [done|]). split; [left; by exists marker|].
  eapply run_backend_ran; done.
Qed.

(** What a serious act says about the task and the marker. *)
Lemma serious_needs_marker now d cfg acts r x : run now d cfg = (acts, r) -> x ∈ acts -> serious x ->
  exists task m, fetch_task (h_task_location cfg) = Ok task /\ manifest_id m = task_manifest_id task /\
    (check_activation_marker d (h_bundle_dir cfg) (hex_encode (manifest_id m)) (allow_unmarked_bundle cfg)).2 = Ok tt.
Proof.
  unfold run_harness_blocking, stop. set (fetched := rbind (fetch_task (h_task_location cfg)) _).
  destruct fetched as [[[task m] t]|e] eqn:Ef; [|intros [= <- _]; by intros ?%elem_of_nil]. subst fetched.
  apply rbind_Ok in Ef as (task' & Et & (m' & Em & (t' & Enow & [= -> -> ->])%rbind_Ok)%rbind_Ok).
  destruct (is_valid m t); cbn [negb]; [|intros [= <- _]; by intros ?%elem_of_nil].
  destruct (bool_decide (publisher_pubkey m ∈ h_allowlist cfg)); cbn [negb]; [|intros [= <- _]; by intros ?%elem_of_nil].
  destruct (bool_decide_reflect (manifest_id m = task_manifest_id task)); cbn [negb]; [|intros [= <- _]; by intros ?%elem_of_nil].
  destruct (resolve_in_bundle _ _); [|intros [= <- _]; by intros ?%elem_of_nil].
  destruct (is_file _); cbn [negb]; [|intros [= <- _]; by intros ?%elem_of_nil].
  destruct (check_activation_marker _ _ _ _) as [w [[]|why]] eqn:Ec; [|intros [= <- _]; by intros ?%elem_of_nil].
  intros _ _ _. exists task, m. by rewrite Ec.
Qed.

(** ** From the installation to the run *)

(** C29: What was installed is what runs: after a successful activation, no setting makes the harness run
    a task in that directory unless the task is for the manifest that was installed there. *)
Theorem only_the_activated_manifest_runs engine send t1 t2 activation d0 d' aacts a id publisher project now cfg acts r x :
  (forall o y, faults (engine o y).1 = faults y) ->
  run_activate engine send t1 t2 activation d0 = (d', aacts, Ok a) -> report a = Installed id publisher project ->
  faults d0 ReadFile (Events.path_join (install_dir a) ACTIVATION_MARKER_FILE) = None ->
  h_bundle_dir cfg = install_dir a -> run now d' cfg = (acts, r) -> x ∈ acts -> serious x ->
  exists task, fetch_task (h_task_location cfg) = Ok task /\ hex_encode (task_manifest_id task) = id.
Proof.
  intros He Ha Hrep Hf Hdir Hrun Hx Hs. destruct (installed_marker _ _ _ _ _ _ _ _ _ _ _ _ He Ha Hrep Hf) as (mk & Hmk & <- & _).
  destruct (serious_needs_marker _ _ _ _ _ _ Hrun Hx Hs) as (task & m & Ht & Hid & Hc). exists task. rewrite <-Hid. split; [done|].
  unfold check_activation_marker in Hc. rewrite Hdir, Hmk in Hc. by destruct (String.eqb_spec (m_manifest_id mk) (hex_encode (manifest_id m))).
Qed.
End Run.
End Harness.

(** ** Concrete inputs *)

#[local] Existing Instances demo_types demo_core.
#[local] Instance demo_harness : HarnessCore := {|
  parse_kind s := if String.eqb s "claude" then Some ClaudeCode else None; kind_id _ := "claude"%string; binary_name _ := Some "claude"%string;
  kind_maturity _ := Supported; all_kinds := [ClaudeCode]; pick_auto := hd_error;
  resolve_in_bundle dir f := Ok (Events.path_join dir f) |}.
Definition demo_task (id : byte) : SignedTask := {| task_manifest_id := repeat id 32; prompt := "fix it" |}.
Definition demo_cfg (unmarked : bool) : HarnessCliConfig :=
  {| h_task_location := "t"; h_manifest_location := "m"; h_allowlist := [repeat Byte.x02 32]; h_bundle_dir := "/work/web-1";
     h_backend := Ollama DEFAULT_OLLAMA_URL; claude_token_file := None; allowed_models := ["m1"%string];
     allow_unmarked_bundle := unmarked; h_state_dir := "/state"; h_plan := false; h_require_binary_sandbox := true |}.
Definition demo_run_on (d : Disk) (unmarked : bool) : list HarnessAct * result HarnessRun string :=
  run_harness_blocking (fun _ => "done"%string) (fun _ => Err "none"%string) (fun _ => true) (fun _ => Ok tt) (fun _ => Ok tt) []
    (fun _ => Ok (demo_task Byte.x01)) (fun _ => Ok (demo_manifest Byte.x01 Byte.x02 2000)) (Some 1000) d (demo_cfg unmarked).
(** An installer that reports the id in hex, and one that unpacks a bundle with a marker of its own and then fails. *)
Definition demo_installer (o : ActivateOptions) (d : Disk) : Disk * option InstallReport :=
  (put (o_work_dir o) (Directory {[ "compose.yml"%string := Some (as_bytes "x") ]}) d,
   Some (Installed (hex_encode (repeat Byte.x01 32)) "02" (o_project_name o))).
Definition forged : ActivationMarker :=
  {| m_manifest_id := hex_encode (repeat Byte.x01 32); m_publisher_pubkey := "02"; m_project_name := "other"; activated_at := 1; ct_agent_version := "1" |}.
Definition demo_failing_installer (o : ActivateOptions) (d : Disk) : Disk * option InstallReport :=
  (put (o_work_dir o) (Directory {[ ACTIVATION_MARKER_FILE := Some (marker_to_json forged) ]}) d, Some (Failed "verify script")).
Definition demo_activated (engine : ActivateOptions -> Disk -> Disk * option InstallReport) :=
  run_activate engine demo_send (Some 1000) (Some 1001) demo_activation demo_disk.

Lemma task_runs_only_on_its_bundle_witness :
  exists x, x ∈ (demo_run_on (demo_activated demo_installer).1.1 false).1 /\ serious x /\
    exists marker, read_activation_marker (demo_activated demo_installer).1.1 "/work/web-1" = Ok (Some marker).
Proof.
  destruct (demo_run_on (demo_activated demo_installer).1.1 false) as [acts r] eqn:E.
  assert (exists x, x ∈ acts /\ serious x) as (x & Hx & Hs).
  { assert (acts = (demo_run_on (demo_activated demo_installer).1.1 false).1) as -> by (by rewrite E).
    exists (Ran (demo_task Byte.x01) "/work/web-1" "compose.yml" ["m1"%string] 1000 (WithOllama DEFAULT_OLLAMA_URL)).
    split; [|exact I]. vm_compute. left. }
  exists x. split; [exact Hx|]. split; [exact Hs|].
  destruct (task_runs_only_on_its_bundle _ _ _ _ _ _ _ _ _ _ _ _ _ x E Hx Hs)
    as (_ & t & task & m & compose & _ & _ & _ & _ & _ & _ & _ & _ & [(mk & Hmk & _)|[_ Hbad]] & _); [by exists mk|].
  exfalso. cbn in Hbad. discriminate.
Defined.

Lemma only_the_activated_manifest_runs_witness :
  exists x task, x ∈ (demo_run_on (demo_activated demo_installer).1.1 true).1 /\ hex_encode (task_manifest_id task) = hex_encode (repeat Byte.x01 32).
Proof.
  destruct (demo_run_on (demo_activated demo_installer).1.1 true) as [acts r] eqn:E.
  assert (exists x, x ∈ acts /\ serious x) as (x & Hx & Hs).
  { assert (acts = (demo_run_on (demo_activated demo_installer).1.1 true).1) as -> by (by rewrite E).
    exists (Ran (demo_task Byte.x01) "/work/web-1" "compose.yml" ["m1"%string] 1000 (WithOllama DEFAULT_OLLAMA_URL)).
    split; [|exact I]. vm_compute. left. }
  destruct (demo_activated demo_installer) as [[d' aacts] ar] eqn:Ea.
  assert (ar = Ok {| report := Installed (hex_encode (repeat Byte.x01 32)) "02" "web-1"; install_dir := "/work/web-1" |}) as ->.
  { assert (ar = (demo_activated demo_installer).2) as -> by (by rewrite Ea). vm_compute. reflexivity. }
  destruct (only_the_activated_manifest_runs _ _ _ _ _ _ _ _ demo_installer demo_send (Some 1000) (Some 1001) demo_activation demo_disk
    d' aacts _ _ _ _ (Some 1000) (demo_cfg true) acts r x ltac:(done) Ea eq_refl eq_refl eq_refl E Hx Hs) as (task & _ & Ht).
  by exists x, task.
Defined.

(** A bundle that ships a marker keeps it when its activation fails, and the harness believes it. *)
Lemma failed_bundle_marks_itself :
  (exists a, (demo_activated demo_failing_installer).2 = Ok a /\ report_is_ok (report a) = false) /\
  exists x, x ∈ (demo_run_on (demo_activated demo_failing_installer).1.1 false).1 /\ serious x.
Proof.
  split; [eexists; split; [vm_compute; reflexivity|done]|].
  exists (Ran (demo_task Byte.x01) "/work/web-1" "compose.yml" ["m1"%string] 1000 (WithOllama DEFAULT_OLLAMA_URL)).
  split; [|exact I]. vm_compute. left.
Qed.
