(* ===== verification/GrantRevoke.v ===== *)
(** * GrantRevoke: withdrawing one grant ([channel_run/grant_revoke.rs])

    Which grant is meant, the check that this operator signed it, the request to the control plane
    on either of its two routes, and its answer.  The body, its signed bytes and the reading of the
    answer are in [GrantWatch]. *)
From S2P Require Import Prelude Text Codec CliConfig Grants.
From S2P Require GrantWatch ManifestRun.

#[local] Open Scope Z_scope.

Section Revoke.
Context `{ChannelCodec}.
(** The fixed length of an encoded grant, SHA-256, and serde's reading of an answer. *)
Context (WIRE_LEN : nat) (sha256 : list byte -> list byte) (answer_json : string -> result (option bool * option bool) string).

Definition grant_digest (g : SignedChannelGrant) : list byte := sha256 (encode g).
Definition decode_grant_hex (s : string) : result SignedChannelGrant string :=
  let* bytes := ok_or (hex_decode WIRE_LEN (trim s))
    ("the grant must be the hex `ct-agent channel grant` printed (" +:+ show (Z.of_nat WIRE_LEN * 2) +:+ " hex characters)")%string in
  map_err (fun e => "the grant is malformed: " +:+ e)%string (decode bytes).

Definition target_of (g : SignedChannelGrant) : GrantWatch.RevokeTarget :=
  {| GrantWatch.rt_channel := channel (grant g); GrantWatch.rt_digest := grant_digest g; GrantWatch.rt_expires_at := expires_at (grant g) |}.

Definition REVOKE_GRANT_ENV : string := "CT_REVOKE_GRANT".
Record GrantRevokeRequest := { cp_url : string; operator : list byte; revoked : SignedChannelGrant }.
Definition named_grant (f : Lookup) : result SignedChannelGrant string :=
  match (let? s := f REVOKE_GRANT_ENV in if is_empty (trim s) then None else Some s) with
  | Some hex => decode_grant_hex hex
  | None =>
      let* issued := map_err (fun e => "name the grant to revoke with " +:+ REVOKE_GRANT_ENV
          +:+ "=<its hex>, or give the CT_GRANT_* fields it was issued with: " +:+ e)%string (grant_request_from_lookup f) in
      decode_grant_hex (grant_request_issue issued)
  end.
Definition revoke_from_lookup (f : Lookup) : result GrantRevokeRequest string :=
  let* cp := ok_or (let? s := f "CT_AGENT_CP_URL"%string in
                    let s := ManifestRun.trim_slashes (trim s) in if is_empty s then None else Some s)
    "CT_AGENT_CP_URL is required (the control plane that keeps the revocation list)"%string in
  let* op := req_key f "CT_CHANNEL_OPERATOR_KEY" OPERATOR_KEY_HINT in
  let* g := named_grant f in
  if verify (verifying_key op) (signing_bytes (grant g)) (signature g) then Ok {| cp_url := cp; operator := op; revoked := g |}
  else Err "that grant was not signed by the operator key in CT_CHANNEL_OPERATOR_KEY; nothing was sent"%string.

Definition describe (r : GrantRevokeRequest) (out : GrantWatch.RevokeOutcome) : string :=
  let g := grant (revoked r) in
  ((if GrantWatch.already out then "already revoked:" else "revoked:") +:+ " grant " +:+ hex_encode (GrantWatch.rt_digest (target_of (revoked r)))
   +:+ " (channel " +:+ hex_encode (channel g) +:+ ", holder " +:+ hex_encode (holder g) +:+ ", expires " +:+ show (expires_at g) +:+ ")")%string.

(** ** Sending *)

Record Post := { post_url : string; post_bearer : option string; post_body : GrantWatch.RevokeBody }.
(** The world's answer: no response, or its status and text (empty when the body does not arrive). *)
Definition ControlPlane := Post -> result (Z * string) string.

Definition post_revoke (cp : ControlPlane) (q : Post) : list Post * result GrantWatch.RevokeOutcome string :=
  ([q], let* (status, text) := map_err (fun e => "POST " +:+ post_url q +:+ ": " +:+ e)%string (cp q) in
        GrantWatch.interpret answer_json status text).
Definition revoke_url (r : GrantRevokeRequest) : string :=
  (cp_url r +:+ "/channel/" +:+ hex_encode (channel (grant (revoked r))) +:+ "/grant-revoke")%string.
Definition send_revoke (cp : ControlPlane) (r : GrantRevokeRequest) : list Post * result GrantWatch.RevokeOutcome string :=
  post_revoke cp {| post_url := revoke_url r; post_bearer := None;
                    post_body := GrantWatch.revoke_body (Some (sign (operator r))) (target_of (revoked r)) |}.
Definition revoke_as_owner (cp : ControlPlane) (cp_url token : string) (g : SignedChannelGrant)
  : list Post * result GrantWatch.RevokeOutcome string :=
  let t := target_of g in
  post_revoke cp {| post_url := ManifestRun.trim_slashes cp_url +:+ "/me/channels/" +:+ hex_encode (GrantWatch.rt_channel t) +:+ "/grants/revoke";
                    post_bearer := Some token; post_body := GrantWatch.revoke_body None t |}.

(** ** What is revoked *)

Lemma decode_grant_hex_reads g : length (encode g) = WIRE_LEN -> decode (encode g) = Ok g ->
  decode_grant_hex (hex_encode (encode g)) = Ok g.
Proof.
  intros Hl Hd. unfold decode_grant_hex. rewrite trim_visible by apply hex_visible.
  rewrite (hex_decode_encode _ _ Hl). cbn. by rewrite Hd.
Qed.

Lemma req_hex32_length f k what l : req_hex32 f k what = Ok l -> length l = 32%nat.
Proof.
  unfold req_hex32. destruct (f k) as [x|]; [|done]. destruct (hex32 x) as [y|] eqn:E; [|done]. cbn. intros ?. simplify_eq. by eapply hex32_length.
Qed.

Lemma interpret_Ok json status text out : GrantWatch.interpret json status text = Ok out ->
  status = 200 /\ exists already, json text = Ok (Some true, already) /\ GrantWatch.already out = default false already.
Proof.
  unfold GrantWatch.interpret. destruct (Z.eqb_spec status 200) as [->|]; [|by repeat case_match].
  destruct (json text) as [[revoked already]|]; [|done]. cbn. destruct (bool_decide_reflect (revoked = Some true)) as [->|]; [|done].
  intros [= <-]. split; [done|]. by exists already.
Qed.

(** A revocation by the operator is for a grant this operator signed: the one request there is goes
    to the grant's own channel, its digest and expiry are the grant's, and its signature verifies under
    the operator's key for exactly these; success is reported only for an answer that confirms it. *)
Theorem operator_revokes_what_it_signed f r cp qs res : revoke_from_lookup f = Ok r -> send_revoke cp r = (qs, res) ->
  let g := grant (revoked r) in
  verify (verifying_key (operator r)) (signing_bytes g) (signature (revoked r)) = true /\
  (exists q, qs = [q] /\ post_bearer q = None /\
    post_url q = (cp_url r +:+ "/channel/" +:+ hex_encode (channel g) +:+ "/grant-revoke")%string /\
    exists sig, post_body q = {| GrantWatch.grant_digest_hex := hex_encode (grant_digest (revoked r)); GrantWatch.expires_at := expires_at g;
                                 GrantWatch.operator_sig := Some (hex_encode sig) |} /\
      verify (verifying_key (operator r)) (GrantWatch.revoke_signing_bytes (channel g) (grant_digest (revoked r)) (expires_at g)) sig = true /\
    (forall out, res = Ok out -> exists text already, cp q = Ok (200, text) /\ answer_json text = Ok (Some true, already) /\
       GrantWatch.already out = default false already)).
Proof.
  unfold revoke_from_lookup. intros (url & _ & (op & _ & (g & _ & Hr)%rbind_Ok)%rbind_Ok)%rbind_Ok.
  destruct (verify _ _ _) eqn:Ev; [|done]. injection Hr as <-. unfold send_revoke, post_revoke. intros [= <- <-]. cbn [operator revoked cp_url].
  split; [done|]. eexists. split; [done|]. split; [done|]. split; [done|]. eexists. split; [done|]. split; [apply verify_sign|].
  intros out ([status text] & Hc & (-> & already & Hj & Ha)%interpret_Ok)%rbind_Ok. exists text, already. split; [|done].
  by destruct (cp _); [injection Hc as ->|].
Qed.

(** The fields a grant was issued with name that grant: the command finds the very grant [channel
    grant] printed for them -- the same bytes, so the same digest -- and giving its hex instead comes to
    the same request. *)
Theorem fields_name_the_issued_grant f req cp :
  (forall g, storable g -> length (encode g) = WIRE_LEN) ->
  grant_request_from_lookup f = Ok req -> f "CT_AGENT_CP_URL"%string = Some cp -> ManifestRun.trim_slashes (trim cp) <> ""%string ->
  f REVOKE_GRANT_ENV = None ->
  exists r, revoke_from_lookup f = Ok r /\ hex_encode (encode (revoked r)) = grant_request_issue req /\
    forall f', f' REVOKE_GRANT_ENV = Some (grant_request_issue req) -> f' "CT_AGENT_CP_URL"%string = Some cp ->
      f' "CT_CHANNEL_OPERATOR_KEY"%string = f "CT_CHANNEL_OPERATOR_KEY"%string -> revoke_from_lookup f' = Ok r.
Proof.
  intros Hlen Hreq Hcp Hne Hnone. pose proof Hreq as Hparts. unfold grant_request_from_lookup in Hparts.
  apply rbind_Ok in Hparts as (op & Hop & (ch & Hch & (m & Hm & (d & _ & (es & _ & (e & He & [= Er])%rbind_Ok)%rbind_Ok)%rbind_Ok)%rbind_Ok)%rbind_Ok).
  pose proof (req_hex32_length _ _ _ _ Hch) as Lc. pose proof (req_hex32_length _ _ _ _ Hm) as Lm.
  assert (0 <= e <= U64_MAX) as Le.
  { unfold parse_int in He. destruct (parse_uint U64_MAX (trim es)) eqn:E; [|done]. injection He as <-. by eapply parse_uint_range. }
  set (g := sign_member_grant {| key := op |} ch m d e).
  assert (storable g) as Hs by (repeat split; try done; cbn; try lia; apply length_sign).
  assert (decode_grant_hex (grant_request_issue req) = Ok g) as Hd.
  { rewrite <-Er. apply decode_grant_hex_reads; [by apply Hlen|by apply decode_encode]. }
  assert (is_empty (trim (grant_request_issue req)) = false) as He0.
  { rewrite <-Er. unfold grant_request_issue, issue_member_grant. rewrite trim_visible by apply hex_visible.
    cbn [g_operator g_channel member_holder g_direction g_expires_at]. fold g. pose proof (encode_nonempty g). by destruct (encode g). }
  assert (forall f' : Lookup, named_grant f' = Ok g -> f' "CT_AGENT_CP_URL"%string = Some cp ->
    f' "CT_CHANNEL_OPERATOR_KEY"%string = f "CT_CHANNEL_OPERATOR_KEY"%string ->
    revoke_from_lookup f' = Ok {| cp_url := ManifestRun.trim_slashes (trim cp); operator := op; revoked := g |}) as Hall.
  { intros f' Hn Hu Hk. unfold revoke_from_lookup. rewrite Hu.
    assert (is_empty (ManifestRun.trim_slashes (trim cp)) = false) as -> by (apply not_true_iff_false; by intros ?%String.eqb_eq). cbn [ok_or rbind].
    assert (req_key f' "CT_CHANNEL_OPERATOR_KEY" OPERATOR_KEY_HINT = Ok op) as ->.
    { rewrite <-Hop. unfold req_key, req_hex32. by rewrite Hk. }
    cbn [rbind]. rewrite Hn. cbn [rbind]. cbn [grant signature g]. unfold g, sign_member_grant. cbn. by rewrite verify_sign. }
  eexists. split; [apply Hall; [|done..]|split; [by rewrite <-Er|]].
  - unfold named_grant. rewrite Hnone, Hreq. cbn [map_err rbind]. done.
  - intros f' Hh Hu Hk. apply Hall; [|done..]. unfold named_grant. by rewrite Hh, He0.
Qed.
End Revoke.

(** ** Concrete inputs *)

#[local] Existing Instances demo_ed25519 demo_codec.
Definition demo_sha256 : list byte -> list byte := pad 32.
Definition demo_answer (s : string) : result (option bool * option bool) string :=
  if String.eqb s "ok" then Ok (Some true, None) else Err "not JSON"%string.
Definition demo_wire : nat := 140.
Definition demo_revoke_env (k : string) : option string :=
  if String.eqb k "CT_AGENT_CP_URL" then Some "https://cp/"%string
  else if String.eqb k "CT_CHANNEL_OPERATOR_KEY" then Some (demo_hex Byte.x07)
  else if String.eqb k "CT_GRANT_CHANNEL" then Some (demo_hex Byte.x01)
  else if String.eqb k "CT_GRANT_MEMBER_HOLDER" then Some (demo_hex Byte.x02)
  else if String.eqb k "CT_GRANT_DIRECTION" then Some "accept"%string
  else if String.eqb k "CT_GRANT_EXPIRES" then Some "4000"%string else None.
Lemma demo_wire_length g : storable g -> length (encode g) = demo_wire.
Proof.
  intros (Hc & Hh & Hs & _). cbn. unfold demo_signing_bytes. cbn. rewrite !length_app, Hc, Hh. cbn. rewrite length_be_bytes, Hs. done.
Qed.
Lemma fields_name_the_issued_grant_witness : exists r, revoke_from_lookup demo_wire demo_revoke_env = Ok r /\
  expires_at (grant (revoked r)) = 4000.
Proof.
  destruct (grant_request_from_lookup demo_revoke_env) as [req|e] eqn:Er; [|exfalso; revert Er; vm_compute; discriminate].
  destruct (fields_name_the_issued_grant demo_wire demo_revoke_env req "https://cp/" demo_wire_length Er eq_refl ltac:(vm_compute; discriminate) eq_refl)
    as (r & Hr & _). exists r. split; [exact Hr|]. revert Hr. vm_compute. intros [= <-]. reflexivity.
Defined.
Lemma operator_revokes_what_it_signed_witness : exists r q, revoke_from_lookup demo_wire demo_revoke_env = Ok r /\
  send_revoke demo_sha256 demo_answer (fun _ => Ok (200, "ok"%string)) r = ([q], Ok {| GrantWatch.already := false |}) /\
  post_url q = (cp_url r +:+ "/channel/" +:+ hex_encode (channel (grant (revoked r))) +:+ "/grant-revoke")%string.
Proof.
  destruct (revoke_from_lookup demo_wire demo_revoke_env) as [r|e] eqn:Er; [|exfalso; revert Er; vm_compute; discriminate].
  destruct (send_revoke demo_sha256 demo_answer (fun _ => Ok (200, "ok"%string)) r) as [qs res] eqn:Es.
  destruct (operator_revokes_what_it_signed demo_wire demo_sha256 demo_answer demo_revoke_env r _ qs res Er Es) as (_ & q & -> & _ & Hu & _).
  exists r, q. split; [reflexivity|]. split; [|exact Hu]. rewrite Es. f_equal. revert Es. unfold send_revoke, post_revoke. intros [= _ <-]. vm_compute. reflexivity.
Defined.
