(* ===== verification/Login.v ===== *)
(** * Login: the operator's login and the bearer token it leaves ([login.rs])

    The device flow as a loop over the answers of the identity provider, the stored login in a
    [SecretFile] directory, and what every consumer of a token calls: the environment, a token file,
    the stored login, refreshed when it is stale.  Concurrent callers are a step relation around the
    one lock of the process.  JSON of the wire and of the file is a class; the provider's answers,
    the clock and the files of the environment are inputs. *)
From S2P Require Import Prelude Text CliConfig ManifestRun SecretFile DirOps.

#[local] Open Scope Z_scope.

(** ** Wire and file *)

Definition DEFAULT_CLIENT_ID : string := "ct-agent-cli".
Definition ACCESS_TOKEN_EXPIRY_SKEW_SECS : Z := 30.
Definition HTTP_TIMEOUT : Z := 15 * SECOND.

Record DeviceCodeResponse := {
  device_code : string; user_code : string; verification_uri : string; verification_uri_complete : option string;
  dc_expires_in : Z; dc_interval : option Z }.
Record TokenResponse := {
  access_token : string; refresh_token : option string; expires_in : option Z; refresh_expires_in : option Z }.
Record TokenErrorResponse := { error : string; error_description : option string }.
Definition unknown_error : TokenErrorResponse := {| error := "unknown_error"; error_description := None |}.
Inductive LoginError := ExpiredToken | AccessDenied | Http (m : string) | Other (m : string).
Definition login_error_text (e : LoginError) : string :=
  match e with ExpiredToken => "expired_token" | AccessDenied => "access_denied" | Http m | Other m => m end.

(** What the login leaves on disk. *)
Record StoredToken := {
  st_access : string; st_refresh : option string; access_expires_at : option Z; refresh_expires_at : option Z;
  issuer : string; client_id : string }.

(** serde's derived readers and writers of these. *)
Class LoginJson := {
  parse_device : string -> result DeviceCodeResponse string;
  parse_token : string -> result TokenResponse string;
  parse_error : string -> result TokenErrorResponse string;
  to_vec_pretty : StoredToken -> result (list byte) string;
  from_slice : list byte -> result StoredToken string;
  from_slice_to_vec t b : to_vec_pretty t = Ok b -> from_slice b = Ok t;
}.

(** A posted form and its answer: the body may fail to arrive. *)
Record Form := { form_url : string; form_fields : list (string * string) }.
Inductive HttpReply := Unreachable (e : string) | Answered (status : Z) (status_text : string) (body : result string string).
Definition success (status : Z) : bool := between 200 status 299.
Definition server_error (status : Z) : bool := between 500 status 599.

Definition device_auth_url (issuer : string) : string := (trim_slashes issuer +:+ "/protocol/openid-connect/auth/device")%string.
Definition token_url (issuer : string) : string := (trim_slashes issuer +:+ "/protocol/openid-connect/token")%string.

Definition set_var (f : Lookup) (key : string) : option string :=
  let? s := f key in if is_empty (trim s) then None else Some s.
Record LoginConfig := { cfg_issuer : string; cfg_client_id : string }.
Definition login_from_lookup (f : Lookup) : result LoginConfig string :=
  let* i := ok_or (set_var f "CT_OIDC_ISSUER")
    ("CT_OIDC_ISSUER required (the Keycloak realm URL, e.g. https://auth.bunsenbrenner.org/realms/ct-demo "
     +:+ "— the same value the portal's own login already uses)")%string in
  Ok {| cfg_issuer := i; cfg_client_id := default DEFAULT_CLIENT_ID (set_var f "CT_OIDC_CLI_CLIENT_ID") |}.

(** *** The stored token *)

(** Seconds are [u64]; the release build wraps. *)
Definition from_token_response (t : TokenResponse) (issuer client_id : string) (now : Z) : StoredToken :=
  {| st_access := access_token t; st_refresh := refresh_token t;
     access_expires_at := option_map (fun secs => wrap 64 (now + secs)) (expires_in t);
     refresh_expires_at := option_map (fun secs => wrap 64 (now + secs)) (refresh_expires_in t);
     issuer := issuer; client_id := client_id |}.
Definition given (o : option string) : option string := let? t := o in if is_empty t then None else Some t.
Definition after_refresh (s : StoredToken) (t : TokenResponse) (now : Z) : StoredToken :=
  let next := from_token_response t (issuer s) (client_id s) now in
  match given (st_refresh next) with
  | Some _ => next
  | None => {| st_access := st_access next; st_refresh := st_refresh s; access_expires_at := access_expires_at next;
               refresh_expires_at := refresh_expires_at s; issuer := issuer next; client_id := client_id next |}
  end.
Definition is_stale (s : StoredToken) (now : Z) : bool :=
  match access_expires_at s with
  | Some exp => exp <=? wrap 64 (now + ACCESS_TOKEN_EXPIRY_SKEW_SECS)
  | None => true
  end.
Definition usable_refresh_token (s : StoredToken) (now : Z) : option string :=
  let? t := given (st_refresh s) in
  if match refresh_expires_at s with Some exp => now <? exp | None => true end then Some t else None.

(** *** Where it is *)

Definition token_store_path (f : Lookup) : result string string :=
  match set_var f "CT_AGENT_LOGIN_TOKEN_FILE", set_var f "CT_AGENT_STATE_DIR", set_var f "HOME" with
  | Some p, _, _ => Ok p
  | None, Some dir, _ => Ok (Events.path_join dir "oidc-token.json")
  | None, None, Some home => Ok (Events.path_join (Events.path_join home ".ct-agent") "oidc-token.json")
  | None, None, None =>
      Err ("cannot determine where to store the login token: set CT_AGENT_LOGIN_TOKEN_FILE "
           +:+ "(an explicit file path), CT_AGENT_STATE_DIR (a persistent state directory), or HOME")%string
  end.
(** The store's name in its directory. *)
Definition file_name (path : string) : string := after_last "/" path.
Definition env_token (f : Lookup) : option string := set_var f "CT_OIDC_TOKEN".
Definition token_from_file (f : Lookup) (read_to_string : string -> result string string) : result (option string) string :=
  match (let? p := f "CT_OIDC_TOKEN_FILE"%string in let p := trim p in if is_empty p then None else Some p) with
  | None => Ok None
  | Some path =>
      let* raw := map_err (fun e => ("CT_OIDC_TOKEN_FILE=" +:+ path +:+ " could not be read: " +:+ e)%string) (read_to_string path) in
      let token := trim raw in
      Ok (if is_empty token then None else Some token)
  end.

Section Login.
Context `{LoginJson}.

(** ** The device flow *)

Definition json {A} (parse : string -> result A string) (body : result string string) : result A string := let* s := body in parse s.

Definition device_form (url client_id : string) : Form :=
  {| form_url := url; form_fields := [("client_id", client_id); ("scope", "openid")]%string |}.
Definition request_device_code (url : string) (reply : HttpReply) : result DeviceCodeResponse string :=
  let asked := ("device authorization request to " +:+ url +:+ " failed: ")%string in
  match reply with
  | Unreachable e => Err (asked +:+ e)%string
  | Answered st txt body =>
      if success st then
        map_err (fun e => ("device authorization response from " +:+ url +:+ " was not valid JSON: " +:+ e)%string) (json parse_device body)
      else Err (asked +:+ txt +:+ " " +:+ match body with Ok b => b | Err _ => "" end)%string
  end.

Definition SLOW_DOWN_BACKOFF : Z := 5 * SECOND.
Definition DURATION_MAX : Z := U64_MAX * SECOND + (SECOND - 1).
Definition poll_form (url client_id device_code : string) : Form :=
  {| form_url := url;
     form_fields := [("grant_type", "urn:ietf:params:oauth:grant-type:device_code"); ("device_code", device_code);
                     ("client_id", client_id)]%string |}.

(** What one answer means: go on, go on slower, or the end. *)
Inductive Verdict := Pending | SlowDown | Final (r : result TokenResponse LoginError).
Definition poll_verdict (reply : HttpReply) : Verdict :=
  match reply with
  | Unreachable e => Final (Err (Http e))
  | Answered st _ body =>
      if success st then Final (map_err Http (json parse_token body))
      else
        let b := match json parse_error body with Ok b => b | Err _ => unknown_error end in
        if String.eqb (error b) "authorization_pending" then Pending
        else if String.eqb (error b) "slow_down" then SlowDown
        else if String.eqb (error b) "expired_token" then Final (Err ExpiredToken)
        else if String.eqb (error b) "access_denied" then Final (Err AccessDenied)
        else Final (Err (Other (default (error b) (error_description b))))
  end.

(** How the world goes along with one turn of the loop: how much later than asked for the sleep is over,
    how long the answer takes, and what it is. *)
Record Turn := { overslept : N; took : N; reply : HttpReply }.
(** What the loop does: it sleeps, and asks at an instant. *)
Inductive PollAct := Sleeps (d : Z) | Asks (at_ : Z).
Inductive PollEnd := Polled (r : result TokenResponse LoginError) | Panicked.

(** The loop from its top at [now]: what it does, and its end, [None] when it still waits for more
    turns.  The interval may grow beyond what a [Duration] holds, which panics. *)
Fixpoint poll_for_token_with_backoff (turns : list Turn) (start now interval expires_in backoff : Z) : list PollAct * option PollEnd :=
  if expires_in <=? now - start then ([], Some (Polled (Err ExpiredToken)))
  else match turns with
       | [] => ([Sleeps interval], None)
       | t :: turns =>
           let now := now + interval + Z.of_N (overslept t) in
           let done := [Sleeps interval; Asks now] in
           let now := now + Z.of_N (took t) in
           match poll_verdict (reply t) with
           | Final r => (done, Some (Polled r))
           | Pending =>
               let '(acts, e) := poll_for_token_with_backoff turns start now interval expires_in backoff in (done ++ acts, e)
           | SlowDown =>
               if DURATION_MAX <? interval + backoff then (done, Some Panicked)
               else
                 let '(acts, e) := poll_for_token_with_backoff turns start now (interval + backoff) expires_in backoff in
                 (done ++ acts, e)
           end
       end.
Definition poll_for_token (turns : list Turn) (start interval expires_in : Z) : list PollAct * option PollEnd :=
  poll_for_token_with_backoff turns start start interval expires_in SLOW_DOWN_BACKOFF.

(** ** The stored login *)

Context (linked : string -> option (list byte)) (io_text : IoError -> string).

Definition persist_stored_token (path : string) (t : StoredToken) : IO string unit :=
  _ ← io_map_err io_text create_dir_all;
  match to_vec_pretty t with
  | Ok json => io_map_err io_text (write_private (file_name path) json)
  | Err e => throw e
  end.
Definition read_stored_token (path : string) : IO string StoredToken := fun w =>
  let '(r, w) := io_map_err io_text (read_file linked (file_name path)) w in
  (let* bytes := r in map_err (fun e => "stored token file is corrupt: " +:+ e)%string (from_slice bytes), w).

(** [run_login] after the poll: the error it reports, or the store. *)
Definition login_failure (e : LoginError) : string :=
  match e with
  | ExpiredToken => "login timed out waiting for authorization — run `ct-agent login` again"
  | AccessDenied => "login was declined"
  | Http m | Other m => "login failed: " +:+ m
  end%string.
Definition device_interval (d : DeviceCodeResponse) : Z := default 5 (dc_interval d) * SECOND.
Definition keep_login (cfg : LoginConfig) (f : Lookup) (now : Z) (polled : result TokenResponse LoginError) : IO string string := fun w =>
  match map_err login_failure polled with
  | Err e => (Err e, w)
  | Ok tok =>
      match token_store_path f with
      | Err e => (Err e, w)
      | Ok path =>
          let '(r, w) := persist_stored_token path (from_token_response tok (cfg_issuer cfg) (cfg_client_id cfg) now) w in
          (let* _ := map_err (fun e => ("failed to save login at " +:+ path +:+ ": " +:+ e)%string) r in Ok path, w)
      end
  end.
(** [None]: still polling, or the loop panicked. *)
Definition run_login (cfg : LoginConfig) (f : Lookup) (device : HttpReply) (turns : list Turn) (start now : Z) (w : World)
  : option (result string string * World) :=
  match request_device_code (device_auth_url (cfg_issuer cfg)) device with
  | Err e => Some (Err e, w)
  | Ok d =>
      match (poll_for_token turns start (device_interval d) (dc_expires_in d * SECOND)).2 with
      | Some (Polled r) => Some (keep_login cfg f now r w)
      | _ => None
      end
  end.

(** *** Its state, without touching the provider *)

Inductive OidcCredentialState := Env | StoredFresh | StoredExpiredRefreshable | StoredExpiredNoRefresh | NoCredential.
Definition state_str (s : OidcCredentialState) : string :=
  match s with
  | Env => "env" | StoredFresh => "stored" | StoredExpiredRefreshable => "stored-expired-refreshable"
  | StoredExpiredNoRefresh => "stored-expired" | NoCredential => "none"
  end.
Definition oidc_credential_state_from (f : Lookup) (read_to_string : string -> result string string) (now : Z) (w : World)
  : OidcCredentialState * World :=
  match env_token f, token_from_file f read_to_string with
  | Some _, _ => (Env, w)
  | None, Ok (Some _) => (Env, w)
  | None, _ =>
      match token_store_path f with
      | Err _ => (NoCredential, w)
      | Ok path =>
          let '(r, w) := read_stored_token path w in
          (match r with
           | Err _ => NoCredential
           | Ok s =>
               if negb (is_stale s now) then StoredFresh
               else match usable_refresh_token s now with
                    | Some _ => StoredExpiredRefreshable
                    | None => StoredExpiredNoRefresh
                    end
           end, w)
      end
  end.

(** ** The token every consumer asks for *)

Definition UNATTENDED_HINT : string := "or provide a long-lived credential via CT_OIDC_TOKEN_FILE".
Inductive ResolveError := Definitive (m : string) | Transient (m : string).
Definition into_message (e : ResolveError) : string := match e with Definitive m | Transient m => m end.

(** The process: the store's directory, the once-per-process mark, and what it did. *)
Inductive Act := Presented (f : Form) | Line (s : string) | Emitted (event : string).
Record Process := { store : World; degraded_logged : bool; did : list Act }.
Definition act (l : list Act) (p : Process) : Process := {| store := store p; degraded_logged := degraded_logged p; did := did p ++ l |}.
Definition with_store (w : World) (p : Process) : Process := {| store := w; degraded_logged := degraded_logged p; did := did p |}.
Definition note_degraded (p : Process) : Process :=
  if degraded_logged p then p
  else act [Line ("ct-agent: oidc credential expired and not refreshable — bridge tools needing a plane login "
                  +:+ "will fail until re-login or CT_OIDC_TOKEN_FILE is provided")%string; Emitted "credential_degraded"%string]
         {| store := store p; degraded_logged := true; did := did p |}.

Definition oidc_credential_state (f : Lookup) (read_to_string : string -> result string string) (now : Z) (p : Process)
  : OidcCredentialState * Process :=
  let '(s, w) := oidc_credential_state_from f read_to_string now (store p) in
  let p := with_store w p in
  (s, match s with StoredExpiredNoRefresh => note_degraded p | _ => p end).

(** Before the lock: the environment and the file it names, or the path of the stored login. *)
Definition configured_token (f : Lookup) (read_to_string : string -> result string string) : result string ResolveError + string :=
  match env_token f with
  | Some t => inl (Ok t)
  | None =>
      match token_from_file f read_to_string with
      | Ok (Some t) => inl (Ok t)
      | Err e => inl (Err (Transient e))
      | Ok None =>
          match token_store_path f with
          | Ok path => inr path
          | Err e => inl (Err (Definitive e))
          end
      end
  end.

Definition refresh_form (s : StoredToken) (refresh_token : string) : Form :=
  {| form_url := token_url (issuer s);
     form_fields := [("grant_type", "refresh_token"); ("refresh_token", refresh_token); ("client_id", client_id s)]%string |}.
Definition refresh_access_token (reply : HttpReply) : result TokenResponse LoginError :=
  match reply with
  | Unreachable e => Err (Http e)
  | Answered st txt body =>
      if server_error st then Err (Http ("token endpoint answered " +:+ txt)%string)
      else if negb (success st) then
        match json parse_error body with
        | Ok b => Err (Other (default (error b) (error_description b)))
        | Err e => Err (Http ("token endpoint answered " +:+ txt +:+ " with an unparseable body: " +:+ e)%string)
        end
      else map_err Http (json parse_token body)
  end.

(** With the lock, up to the request: an answer from the store, or the refresh the caller asks for. *)
Inductive Looked := Finished (r : result string ResolveError) | Refreshing (s : StoredToken) (now : Z).
Definition look (path : string) (now : Z) (p : Process) : Looked * Process :=
  let '(r, w) := read_stored_token path (store p) in
  let p := with_store w p in
  match r with
  | Err e =>
      (Finished (Err (Definitive ("CT_OIDC_TOKEN is not set and no stored login was found at " +:+ path +:+ " (" +:+ e
        +:+ "). Run `ct-agent login`, " +:+ UNATTENDED_HINT +:+ ".")%string)), p)
  | Ok s =>
      if negb (is_stale s now) then (Finished (Ok (st_access s)), p)
      else match usable_refresh_token s now with
           | None =>
               let why := match given (st_refresh s) with
                          | Some _ => "its refresh token has expired too"
                          | None => "no refresh token is available"
                          end%string in
               (Finished (Err (Definitive ("the stored login has expired and " +:+ why +:+ ". Run `ct-agent login` again, "
                  +:+ UNATTENDED_HINT +:+ ".")%string)), note_degraded p)
           | Some t => (Refreshing s now, act [Presented (refresh_form s t)] p)
           end
  end.
(** From the answer to the request to the release of the lock. *)
Definition refreshed (path : string) (s : StoredToken) (now : Z) (reply : HttpReply) (p : Process) : result string ResolveError * Process :=
  match refresh_access_token reply with
  | Err (Http m) =>
      (Err (Transient ("the stored login has expired and refreshing it failed with a transient error (" +:+ m
         +:+ "); the IdP may be unreachable")%string), p)
  | Err e =>
      (Err (Definitive ("the stored login has expired and the IdP rejected the refresh (" +:+ login_error_text e
         +:+ "). Run `ct-agent login` again, " +:+ UNATTENDED_HINT +:+ ".")%string), note_degraded p)
  | Ok tok =>
      let next := after_refresh s tok now in
      let '(r, w) := persist_stored_token path next (store p) in
      (match r with
       | Ok _ => Ok (st_access next)
       | Err e => Err (Definitive ("refreshed the login but failed to save it at " +:+ path +:+ ": " +:+ e)%string)
       end, with_store w p)
  end.

(** A caller alone.  [call] is what it found before the lock. *)
Definition Call : Type := result string ResolveError + string.
Definition resolve_call (c : Call) (now : Z) (reply : HttpReply) (p : Process) : result string ResolveError * Process :=
  match c with
  | inl r => (r, p)
  | inr path =>
      match look path now p with
      | (Finished r, p) => (r, p)
      | (Refreshing s now, p) => refreshed path s now reply p
      end
  end.
Definition resolve_oidc_token_classified (f : Lookup) (read_to_string : string -> result string string) :=
  resolve_call (configured_token f read_to_string).
Definition resolve_oidc_token (f : Lookup) (read_to_string : string -> result string string) (now : Z) (reply : HttpReply) (p : Process)
  : result string string * Process :=
  let '(r, p) := resolve_oidc_token_classified f read_to_string now reply p in (map_err into_message r, p).

(** *** Tries *)

Definition OIDC_REFRESH_RETRY_ATTEMPTS : Z := 3.
Definition OIDC_REFRESH_RETRY_BASE : Z := 500 * MILLI.
Definition OIDC_REFRESH_RETRY_MAX : Z := 5 * SECOND.
Record Try := { t_env : Lookup; t_read : string -> result string string; t_now : Z; t_reply : HttpReply }.
Definition try_resolve (t : Try) : Process -> result string ResolveError * Process :=
  resolve_oidc_token_classified (t_env t) (t_read t) (t_now t) (t_reply t).
(** [attempt] of [attempts], what is slept, and the result; [None] while it waits for more tries. *)
Fixpoint retry_loop (tries : list Try) (attempts attempt delay : Z) (last : string) (p : Process)
  : list Z * option (result string string) * Process :=
  if attempts <? attempt then
    ([], Some (Err (last +:+ " -- gave up after " +:+ show attempts +:+ " attempt(s). The stored login itself is still "
       +:+ "refreshable; this is an IdP/network problem, not a re-login problem")%string), p)
  else match tries with
       | [] => ([], None, p)
       | t :: tries =>
           match try_resolve t p with
           | (Ok tok, p) => ([], Some (Ok tok), p)
           | (Err (Definitive m), p) => ([], Some (Err m), p)
           | (Err (Transient m), p) =>
               if attempt <? attempts then
                 let p := act [Line ("ct-agent: oidc refresh attempt " +:+ show attempt +:+ "/" +:+ show attempts +:+ " failed ("
                               +:+ m +:+ "); retrying in " +:+ show (delay / MILLI) +:+ "ms (#181)")%string] p in
                 let '(slept, r, p) := retry_loop tries attempts (attempt + 1) (Z.min (delay * 2) OIDC_REFRESH_RETRY_MAX) m p in
                 (delay :: slept, r, p)
               else retry_loop tries attempts (attempt + 1) delay m p
           end
       end.
Definition resolve_oidc_token_with_retry (tries : list Try) (attempts base : Z) (p : Process) : list Z * option (result string string) * Process :=
  retry_loop tries (Z.max attempts 1) 1 base "" p.

(** ** Many callers and one lock *)

(** A caller waits for the lock, holds it while its refresh is under way, or has its answer. *)
Inductive Pc := Waiting (c : Call) | Holding (c : Call) (path : string) (s : StoredToken) (now : Z) | Done (c : Call) (r : result string ResolveError).
Definition holds (pc : Pc) : bool := match pc with Holding _ _ _ _ => true | _ => false end.
Record Callers := { pcs : list Pc; process : Process }.
Inductive Event :=
| Arrives (c : Call)                       (** a caller comes; without the lock if the environment has its token *)
| Locks (i : nat) (now : Z)                (** the lock goes to a waiting caller, at this time *)
| Hears (i : nat) (reply : HttpReply).     (** the answer to a refresh *)
Definition step (e : Event) (s : Callers) : option Callers :=
  match e with
  | Arrives c =>
      Some {| pcs := pcs s ++ [match c with inl r => Done c r | inr _ => Waiting c end]; process := process s |}
  | Locks i now =>
      match pcs s !! i with
      | Some (Waiting (inr path as c)) =>
          if existsb holds (pcs s) then None
          else
            let '(l, p) := look path now (process s) in
            Some {| pcs := <[i := match l with Finished r => Done c r | Refreshing st now => Holding c path st now end]> (pcs s);
                    process := p |}
      | _ => None
      end
  | Hears i reply =>
      match pcs s !! i with
      | Some (Holding c path st now) =>
          let '(r, p) := refreshed path st now reply (process s) in
          Some {| pcs := <[i := Done c r]> (pcs s); process := p |}
      | _ => None
      end
  end.
Fixpoint run (es : list Event) (s : Callers) : option Callers :=
  match es with [] => Some s | e :: es => let? s := step e s in run es s end.
Definition nobody (p : Process) : Callers := {| pcs := []; process := p |}.

(** One after another. *)
Fixpoint serial (jobs : list (Call * Z * HttpReply)) (p : Process) : list (Call * result string ResolveError) * Process :=
  match jobs with
  | [] => ([], p)
  | (c, now, reply) :: jobs =>
      let '(r, p) := resolve_call c now reply p in
      let '(rs, p) := serial jobs p in ((c, r) :: rs, p)
  end.
Definition finished (pc : Pc) : option (Call * result string ResolveError) := match pc with Done c r => Some (c, r) | _ => None end.
End Login.

Section Poll.
Context `{LoginJson}.

(** ** The device flow ends *)

(** What the provider says, by the codes of RFC 8628: to wait, to wait longer, or the end. *)
Definition says (code : string) (r : HttpReply) : Prop := exists st txt b e,
  r = Answered st txt (Ok b) /\ success st = false /\ parse_error b = Ok e /\ error e = code.
Definition asks_to_wait (r : HttpReply) : Prop := says "authorization_pending" r \/ says "slow_down" r.
Inductive means : HttpReply -> result TokenResponse LoginError -> Prop :=
| no_answer e : means (Unreachable e) (Err (Http e))
| granted st txt b tok : success st = true -> parse_token b = Ok tok -> means (Answered st txt (Ok b)) (Ok tok)
| garbled st txt body e : success st = true -> json parse_token body = Err e -> means (Answered st txt body) (Err (Http e))
| lapsed r : says "expired_token" r -> means r (Err ExpiredToken)
| declined r : says "access_denied" r -> means r (Err AccessDenied)
| refused st txt b e : success st = false -> parse_error b = Ok e ->
    error e ∉ ["authorization_pending"; "slow_down"; "expired_token"; "access_denied"]%string ->
    means (Answered st txt (Ok b)) (Err (Other (default (error e) (error_description e))))
| unreadable st txt body e : success st = false -> json parse_error body = Err e -> means (Answered st txt body) (Err (Other "unknown_error")).

Lemma verdict_means r : match poll_verdict r with
  | Pending => says "authorization_pending" r
  | SlowDown => says "slow_down" r
  | Final x => means r x
  end.
Proof.
  unfold poll_verdict. destruct r as [e|st txt body]; [constructor|]. destruct (success st) eqn:Es.
  - destruct (json parse_token body) as [tok|e] eqn:Ej; cbn [map_err].
    + destruct body as [b|]; [|done]. by constructor.
    + by eapply garbled.
  - destruct (json parse_error body) as [e|m] eqn:Ej; [|by eapply unreadable].
    destruct body as [b|]; [|done]. cbn in Ej.
    assert (forall c, error e = c -> says c (Answered st txt (Ok b))) as Hc by (intros c Hc; by exists st, txt, b, e).
    destruct (String.eqb_spec (error e) "authorization_pending"); [by apply Hc|].
    destruct (String.eqb_spec (error e) "slow_down"); [by apply Hc|].
    destruct (String.eqb_spec (error e) "expired_token"); [by apply lapsed, Hc|].
    destruct (String.eqb_spec (error e) "access_denied"); [by apply declined, Hc|].
    apply refused; [done|done|]. rewrite !not_elem_of_cons. repeat split; try done. by apply not_elem_of_nil.
Qed.
Lemma says_slow_down r : says "slow_down" r -> poll_verdict r = SlowDown.
Proof. intros (st & txt & b & e & -> & Hs & He & Hc). cbn. by rewrite Hs, He, Hc. Qed.

Definition asks (acts : list PollAct) : list Z := omap (fun a => match a with Asks t => Some t | Sleeps _ => None end) acts.
Lemma asks_cons a acts : asks (a :: acts) = match a with Asks t => t :: asks acts | Sleeps _ => asks acts end.
Proof. by destruct a. Qed.
(** Every question comes at least the interval after the one before, the first after [from], and the
    interval is longer from every [slow_down] on. *)
Fixpoint spaced (turns : list Turn) (asked : list Z) (from interval : Z) : Prop :=
  match asked, turns with
  | [], _ => True
  | a :: asked, t :: turns => from + interval <= a /\ exists interval', spaced turns asked a interval' /\
      interval <= interval' /\ (says "slow_down" (reply t) -> interval' = interval + SLOW_DOWN_BACKOFF)
  | _ :: _, [] => False
  end.
(** How it ends: with the answer that is final, or when the lifetime is over. *)
Definition ended (turns : list Turn) (deadline from : Z) (asked : list Z) (r : result TokenResponse LoginError) : Prop := exists waited rest,
  Forall (fun t => asks_to_wait (reply t)) waited /\
  ((exists t, turns = waited ++ t :: rest /\ length asked = S (length waited) /\ means (reply t) r) \/
   (turns = waited ++ rest /\ length asked = length waited /\ r = Err ExpiredToken /\
    match last waited, last asked with Some t, Some a => deadline <= a + Z.of_N (took t) | _, _ => deadline <= from end)).

Lemma ended_cons t a turns deadline from asked r : asks_to_wait (reply t) ->
  ended turns deadline (a + Z.of_N (took t)) asked r -> ended (t :: turns) deadline from (a :: asked) r.
Proof.
  intros Hg (waited & rest & Hw & He). exists (t :: waited), rest. split; [by constructor|].
  destruct He as [(u & -> & Hl & Hm)|(-> & Hl & -> & Hd)].
  - left. exists u. split; [done|]. split; [cbn; by rewrite Hl|done].
  - right. split; [done|]. split; [cbn; by rewrite Hl|]. split; [done|]. rewrite !last_cons.
    destruct (last waited) as [u|] eqn:Eu, (last asked) as [b|] eqn:Eb; [done| | |done].
    + apply last_None in Eb as ->. cbn in Hl. destruct waited; [by rewrite last_nil in Eu|done].
    + apply last_None in Eu as ->. cbn in Hl. destruct asked; [by rewrite last_nil in Eb|done].
Qed.

Lemma poll_spec turns start now interval expires_in : 0 < interval ->
  interval + Zlen turns * SLOW_DOWN_BACKOFF <= DURATION_MAX -> expires_in - (now - start) <= Zlen turns * interval ->
  exists acts r, poll_for_token_with_backoff turns start now interval expires_in SLOW_DOWN_BACKOFF = (acts, Some (Polled r)) /\
    ended turns (start + expires_in) now (asks acts) r /\ spaced turns (asks acts) now interval /\
    (asks acts <> [] -> (Zlen (asks acts) - 1) * interval < expires_in - (now - start)).
Proof.
  revert now interval. induction turns as [|t turns IH]; intros now interval Hi Hb Hn; cbn [poll_for_token_with_backoff];
    destruct (Z.leb_spec expires_in (now - start)) as [Hle|Hlt].
  - exists [], (Err ExpiredToken). split; [done|]. split; [|done]. exists [], []. split; [done|]. right. repeat split. cbn. lia.
  - cbn in Hn. lia.
  - exists [], (Err ExpiredToken). split; [done|]. split; [|done]. exists [], (t :: turns). split; [done|]. right. repeat split. cbn. lia.
  - set (a := now + interval + Z.of_N (overslept t)). rewrite length_cons in Hb, Hn. pose proof (verdict_means (reply t)) as Hv.
    assert (0 < SLOW_DOWN_BACKOFF) as Hpos by by vm_compute.
    assert (forall interval', interval <= interval' <= interval + SLOW_DOWN_BACKOFF -> asks_to_wait (reply t) ->
      (says "slow_down" (reply t) -> interval' = interval + SLOW_DOWN_BACKOFF) ->
      exists acts r, (let '(acts, e) := poll_for_token_with_backoff turns start (a + Z.of_N (took t)) interval' expires_in SLOW_DOWN_BACKOFF in
          ([Sleeps interval; Asks a] ++ acts, e)) = (acts, Some (Polled r)) /\
        ended (t :: turns) (start + expires_in) now (asks acts) r /\ spaced (t :: turns) (asks acts) now interval /\
        (asks acts <> [] -> (Zlen (asks acts) - 1) * interval < expires_in - (now - start))) as Hrec.
    { intros interval' Hle Hg Hs. destruct (IH (a + Z.of_N (took t)) interval') as (acts & r & -> & He & Hsp & Hcount); [lia|nia|nia|].
      exists ([Sleeps interval; Asks a] ++ acts), r. split; [done|]. cbn [app]. rewrite !asks_cons. split; [by apply ended_cons|]. split.
      - split; [lia|]. exists interval'. split; [|split; [lia|done]]. clear -Hsp. destruct turns, (asks acts) as [|b l]; [done..|].
        destruct Hsp as [Hb Hr]. split; [lia|done].
      - intros _. rewrite length_cons. destruct (asks acts) as [|x l]; [cbn; lia|]. specialize (Hcount ltac:(done)). rewrite !length_cons in *. nia. }
    destruct (poll_verdict (reply t)) as [| |r] eqn:Ev.
    + apply Hrec; [lia|by left|]. intros Hs%says_slow_down. congruence.
    + rewrite (proj2 (Z.ltb_ge _ _)) by nia. apply Hrec; [lia|by right|done].
    + exists [Sleeps interval; Asks a], r. split; [done|]. rewrite !asks_cons. split; [|split; [split; [lia|]; exists (interval + SLOW_DOWN_BACKOFF); split; [by destruct turns|split; [lia|done]]|cbn; lia]].
      exists [], turns. split; [done|]. left. by exists t.
Qed.


End Poll.

Section Theorems.
Context `{LoginJson} (linked : string -> option (list byte)) (io_text : IoError -> string).

(** ** One lock *)

Lemma serial_snoc jobs c now reply p : serial linked io_text (jobs ++ [(c, now, reply)]) p =
  let '(rs, q) := serial linked io_text jobs p in
  let '(r, q) := resolve_call linked io_text c now reply q in (rs ++ [(c, r)], q).
Proof.
  revert p. induction jobs as [|[[c0 n0] r0] jobs IH]; intros p; cbn [serial app]; [by destruct (resolve_call _ _ c now reply p)|].
  destruct (resolve_call _ _ c0 n0 r0 p) as [r q]. rewrite IH. destruct (serial _ _ jobs q) as [rs q'].
  by destruct (resolve_call _ _ c now reply q').
Qed.

Lemma finished_insert l i pc c r : l !! i = Some pc -> finished pc = None ->
  omap finished (<[i := Done c r]> l) ≡ₚ omap finished l ++ [(c, r)].
Proof.
  intros Hi Hn. rewrite <-(take_drop_middle l i pc Hi) at 2. rewrite insert_take_drop by by eapply lookup_lt_Some.
  rewrite !omap_app. cbn. rewrite Hn. change ((c, r) :: omap finished (drop (S i) l)) with ([(c, r)] ++ omap finished (drop (S i) l)).
  rewrite <-(app_assoc _ _ [(c, r)]). apply Permutation_app_head, Permutation_app_comm.
Qed.

(** The calls answered so far are answered as one after another leaves them; at most one more has
    looked, from where they left the process. *)
Definition serialised (p : Process) (s : Callers) : Prop := exists jobs,
  omap finished (pcs s) ≡ₚ (serial linked io_text jobs p).1 /\
  ((existsb holds (pcs s) = false /\ process s = (serial linked io_text jobs p).2) \/
   exists i path st now, pcs s !! i = Some (Holding (inr path) path st now) /\
     (forall j pc, pcs s !! j = Some pc -> j <> i -> holds pc = false) /\
     look linked io_text path now (serial linked io_text jobs p).2 = (Refreshing st now, process s)).

Lemma existsb_holds l : existsb holds l = false <-> forall (j : nat) pc, l !! j = Some pc -> holds pc = false.
Proof.
  rewrite <-not_true_iff_false, existsb_exists. split.
  - intros Hn j pc Hj. apply not_true_iff_false. intros Hh. apply Hn. exists pc. split; [|done].
    apply list_elem_of_In. by eapply list_elem_of_lookup_2.
  - intros Hf (pc & Hin & Hh). apply list_elem_of_In, list_elem_of_lookup_1 in Hin as [j Hj]. by rewrite (Hf j pc Hj) in Hh.
Qed.

Lemma look_refreshing path now p st now' p' : look linked io_text path now p = (Refreshing st now', p') -> now' = now.
Proof.
  unfold look. destruct (read_stored_token _ _ path (store p)) as [[s|e] w]; [|done].
  destruct (negb _); [done|]. by destruct (usable_refresh_token s now); intros [= _ <- _].
Qed.

Lemma arrives_serialised p s c : serialised p s ->
  serialised p {| pcs := pcs s ++ [match c with inl r => Done c r | inr _ => Waiting c end]; process := process s |}.
Proof.
  intros (jobs & Hperm & Hp). pose (new := match c with inl r => Done c r | inr _ => Waiting c end). fold new.
  assert (holds new = false) as Hh by by destruct c.
  exists (jobs ++ match c with inl r => [(c, 0, Unreachable "")] | inr _ => [] end).
  assert ((serial linked io_text (jobs ++ match c with inl r => [(c, 0, Unreachable "")] | inr _ => [] end) p)
    = ((serial linked io_text jobs p).1 ++ omap finished [new], (serial linked io_text jobs p).2)) as ->.
  { destruct c as [r|path]; [rewrite serial_snoc; by destruct (serial _ _ jobs p)|]. rewrite !app_nil_r. by destruct (serial _ _ jobs p). }
  cbn [fst snd pcs process]. split; [rewrite omap_app; by apply Permutation_app_tail|].
  destruct Hp as [[Hn Hp]|(i & path & st & now & Hi & Ho & Hl)]; [left|right].
  - split; [|done]. rewrite existsb_app, Hn. cbn. by rewrite Hh.
  - exists i, path, st, now. split; [by apply lookup_app_l_Some|]. split; [|done].
    intros j pc [Hj|[_ Hj]]%lookup_app_Some Hne; [by eapply Ho|]. apply list_lookup_singleton_Some in Hj as [_ <-]. done.
Qed.

Lemma step_serialised p s s' e : serialised p s -> step linked io_text e s = Some s' -> serialised p s'.
Proof.
  intros Hs. destruct e as [c|i now|i reply]; cbn [step].
  - intros [= <-]. by apply arrives_serialised.
  - destruct Hs as (jobs & Hperm & Hp).
    destruct (pcs s !! i) as [[[r|path]| |]|] eqn:Ei; try done. destruct (existsb holds (pcs s)) eqn:Eh; [done|].
    destruct Hp as [[_ Hp]|(j & path' & st & now' & Hj & _)]; [|rewrite existsb_holds in Eh; by pose proof (Eh _ _ Hj)].
    destruct (look _ _ path now (process s)) as [[r|st now'] q] eqn:El; intros [= <-].
    + exists (jobs ++ [(inr path, now, Unreachable "")]). rewrite serial_snoc. destruct (serial _ _ jobs p) as [rs q0]. cbn in *. subst q0.
      rewrite El. cbn. split; [by rewrite (finished_insert _ _ _ _ _ Ei) by done; apply Permutation_app_tail|]. left. split; [|done].
      apply existsb_holds. intros j pc. rewrite existsb_holds in Eh. intros [(_ & <- & _)|[_ Hj]]%list_lookup_insert_Some; [done|by eapply Eh].
    + pose proof (look_refreshing _ _ _ _ _ _ El) as ->. exists jobs. split.
      * rewrite <-Hperm. cbn. rewrite insert_take_drop by by eapply lookup_lt_Some. rewrite <-(take_drop_middle _ _ _ Ei) at 3. by rewrite !omap_app.
      * right. exists i, path, st, now. cbn. split; [apply list_lookup_insert_eq; by eapply lookup_lt_Some|]. split; [|by rewrite <-Hp].
        intros j pc Hj Hne. rewrite list_lookup_insert_ne in Hj by done. rewrite existsb_holds in Eh. by eapply Eh.
  - destruct Hs as (jobs & Hperm & Hp).
    destruct (pcs s !! i) as [[|c path st now|]|] eqn:Ei; try done. destruct (refreshed _ path st now reply (process s)) as [r q] eqn:Er. intros [= <-].
    destruct Hp as [[Hn _]|(j & path' & st' & now' & Hj & Ho & Hl)]; [rewrite existsb_holds in Hn; by pose proof (Hn _ _ Ei)|].
    assert (i = j) as <- by (destruct (decide (i = j)); [done|by pose proof (Ho _ _ Ei ltac:(done))]). rewrite Ei in Hj. simplify_eq.
    exists (jobs ++ [(inr path', now', reply)]). rewrite serial_snoc. destruct (serial _ _ jobs p) as [rs q0]. cbn in *. rewrite Hl, Er. cbn.
    split; [by rewrite (finished_insert _ _ _ _ _ Ei) by done; apply Permutation_app_tail|]. left. split; [|done].
    apply existsb_holds. intros j pc [(_ & <- & _)|[Hne Hj]]%list_lookup_insert_Some; [done|by eapply Ho].
Qed.

Lemma run_serialised p es s s' : serialised p s -> run linked io_text es s = Some s' -> serialised p s'.
Proof.
  revert s. induction es as [|e es IH]; intros s Hs; cbn [run]; [by intros [= <-]|].
  destruct (step _ _ e s) as [s1|] eqn:E; [|done]. apply IH. by eapply step_serialised.
Qed.

(** C30: Concurrent callers get their token as if they had come one after another: whatever the
    interleaving of arrivals, the lock and the provider's answers, once no refresh is under way the
    store, the requests and every caller's answer are those of some order of the calls, each made from
    its first look at the store to the saved refresh before the next one looks.  So no two refreshes
    overlap, and a caller that waited sees what the one before it saved. *)
Theorem callers_are_serialised es p s : run linked io_text es (nobody p) = Some s -> existsb holds (pcs s) = false ->
  exists jobs, process s = (serial linked io_text jobs p).2 /\ omap finished (pcs s) ≡ₚ (serial linked io_text jobs p).1.
Proof.
  intros Hr Hn. assert (serialised p s) as (jobs & Hperm & [[_ Hp]|(i & path & st & now & Hi & _)]).
  - eapply run_serialised; [|done]. by exists []; split; [|left].
  - by exists jobs.
  - rewrite existsb_holds in Hn. by pose proof (Hn _ _ Hi).
Qed.

(** ** What is reported and what is answered *)

(** The forms presented so far, and those a caller presents for the stored login. *)
Definition requests (p : Process) : list Form := omap (fun a => match a with Presented f => Some f | _ => None end) (did p).
Definition refresh_of (f : Lookup) (now : Z) (w : World) : list Form :=
  match token_store_path f with
  | Ok path => match (read_stored_token linked io_text path w).1 with
               | Ok s => match usable_refresh_token s now with Some t => [refresh_form s t] | None => [] end
               | Err _ => []
               end
  | Err _ => []
  end.

Lemma note_degraded_presents p : requests (note_degraded p) = requests p.
Proof. unfold note_degraded, requests. destruct (degraded_logged p); [done|]. cbn. by rewrite omap_app, app_nil_r. Qed.

Lemma refreshed_presents path s now reply p : requests (refreshed io_text path s now reply p).2 = requests p.
Proof.
  unfold refreshed. destruct (refresh_access_token reply) as [t|[]]; [|by apply note_degraded_presents..|done|by apply note_degraded_presents].
  by destruct (persist_stored_token _ path _ (store p)) as [[] ?].
Qed.

(** The reported state of the credential is what a caller would meet: with [CT_OIDC_TOKEN_FILE]
    readable or not consulted, "env" and "stored" mean that it gets a token and asks the provider
    nothing, "stored-expired-refreshable" that it presents the refresh token, once, and
    "stored-expired" and "none" that it fails for good without a request. *)
Theorem reported_state_is_met f read now reply p r p' st w :
  (env_token f = None -> is_ok (token_from_file f read) = true) ->
  resolve_oidc_token_classified linked io_text f read now reply p = (r, p') ->
  oidc_credential_state_from linked io_text f read now (store p) = (st, w) ->
  requests p' = requests p ++ (match st with StoredExpiredRefreshable => refresh_of f now (store p) | _ => [] end) /\
  (st = StoredExpiredRefreshable -> exists form, refresh_of f now (store p) = [form]) /\
  match st with
  | Env | StoredFresh => exists t, r = Ok t
  | StoredExpiredRefreshable => True
  | StoredExpiredNoRefresh | NoCredential => exists m, r = Err (Definitive m)
  end.
Proof.
  intros Hf. unfold resolve_oidc_token_classified, configured_token, oidc_credential_state_from, resolve_call, refresh_of.
  destruct (env_token f) as [t|]; [intros [= <- <-] [= <- <-]; rewrite app_nil_r; repeat split; by eauto|]. specialize (Hf eq_refl).
  destruct (token_from_file f read) as [[t|]|e]; [intros [= <- <-] [= <- <-]; rewrite app_nil_r; repeat split; by eauto| |done].
  destruct (token_store_path f) as [path|e]; [|intros [= <- <-] [= <- <-]; rewrite app_nil_r; repeat split; by eauto].
  unfold look. destruct (read_stored_token _ _ path (store p)) as [[s|e] w1]; [|intros [= <- <-] [= <- <-]; rewrite app_nil_r; repeat split; by eauto]. cbn [fst].
  destruct (is_stale s now) eqn:Es; cbn [negb]; [|intros [= <- <-] [= <- <-]; rewrite app_nil_r; repeat split; by eauto].
  destruct (usable_refresh_token s now) as [t|].
  - pose proof (refreshed_presents path s now reply (act [Presented (refresh_form s t)] (with_store w1 p))) as Hp.
    destruct (refreshed _ path s now reply _) as [r1 p1]. intros [= <- <-] [= <- <-]. cbn [snd] in Hp. rewrite Hp.
    unfold requests. cbn. rewrite omap_app. repeat split; by eauto.
  - intros [= <- <-] [= <- <-]. rewrite note_degraded_presents, app_nil_r. repeat split; by eauto.
Qed.

(** ** A saved refresh serves the callers behind it *)

Lemma persist_writes path t w w' : settled (disk w) -> persist_stored_token io_text path t w = (Ok tt, w') ->
  exists b, to_vec_pretty t = Ok b /\ settled (disk w') /\ reads linked (disk w') (file_name path) = Some b.
Proof.
  unfold persist_stored_token. destruct (to_vec_pretty t) as [b|e] eqn:Et.
  2: { intros _. unfold mbind, io_bind. by destruct (io_map_err _ _ w) as [[]]. }
  intros Hs Hp. exists b. split; [done|].
  assert (triple (fun _ => True) (eq (disk w)) (_ ← io_map_err io_text create_dir_all; io_map_err io_text (write_private (file_name path) b))
    (fun r d => is_ok r = true -> written linked (disk w) (file_name path) b d)) as Ht.
  { eapply triple_bind; [eapply triple_conseq; [apply triple_create_dir|done..]| |done].
    intros []. eapply triple_conseq; [apply triple_map_err, (triple_write_private linked (disk w) (file_name path) b Hs)|done|done|].
    intros r d (r' & -> & _ & Hw) Hr. apply Hw. by destruct r'. }
  destruct (Ht _ _ _ Hp eq_refl) as [_ Hw]. by destruct (Hw eq_refl) as (_ & ? & ?).
Qed.

(** Whoever looks next, while the new token is good, gets it without a request. *)
Lemma saved_refresh_serves_the_next path s now reply p t p' now' : settled (disk (store p)) ->
  refreshed io_text path s now reply p = (Ok t, p') ->
  (forall e n, hd_error (answers (store p')) <> Some (Fails e n)) ->
  (forall tok, refresh_access_token reply = Ok tok -> is_stale (after_refresh s tok now) now' = false) ->
  exists p'', look linked io_text path now' p' = (Finished (Ok t), p'') /\ did p'' = did p'.
Proof.
  unfold refreshed. intros Hs. destruct (refresh_access_token reply) as [tok|[]] eqn:Er; [|done..].
  destruct (persist_stored_token _ path _ _) as [[[]|e] w] eqn:Ep; [|done]. intros [= <- <-] Ha Hf.
  destruct (persist_writes _ _ _ _ Hs Ep) as (b & Hb & _ & Hr). unfold look, read_stored_token. cbn [store with_store] in *.
  unfold io_map_err, read_file, call. destruct (answers w) as [|[|e n] l] eqn:Ea; [..|by destruct (Ha e n)].
  all: rewrite Hr; cbn; rewrite (from_slice_to_vec _ _ Hb); cbn; rewrite (Hf _ eq_refl); by eexists.
Qed.

(** ** Tries *)

Lemma retry_loop_bounded tries attempts attempt delay last p : 1 <= attempt -> attempts + 1 - attempt <= Zlen tries ->
  exists slept r p', retry_loop linked io_text tries attempts attempt delay last p = (slept, Some r, p') /\ Zlen slept <= Z.max 0 (attempts - attempt).
Proof.
  revert attempt delay last p. induction tries as [|t tries IH]; intros attempt delay last p H1 Hn; cbn [retry_loop];
    destruct (Z.ltb_spec attempts attempt); try (by eexists [], _, _; split; [done|cbn; lia]).
  - cbn in Hn. lia.
  - rewrite length_cons in Hn. destruct (try_resolve _ _ t p) as [[tok|[m|m]] p1]; try (by eexists [], _, _; split; [done|cbn; lia]).
    destruct (Z.ltb_spec attempt attempts).
    + edestruct (IH (attempt + 1)) as (slept & r & p' & -> & Hl); [lia..|]. eexists _, _, _. split; [done|]. rewrite length_cons. lia.
    + edestruct (IH (attempt + 1)) as (slept & r & p' & -> & Hl); [lia..|]. eexists _, _, _. split; [done|]. lia.
Qed.
End Theorems.

(** ** Concrete inputs *)

Definition stored_fields (t : StoredToken) := (st_access t, st_refresh t, access_expires_at t, refresh_expires_at t, issuer t, client_id t).
#[local, refine] Instance demo_json : LoginJson := {|
  parse_device _ := Ok {| device_code := "dc"; user_code := "ABCD"; verification_uri := "https://idp/device"; verification_uri_complete := None;
                          dc_expires_in := 600; dc_interval := None |};
  parse_token s := if String.eqb s "token" then Ok {| access_token := "new"; refresh_token := Some "r2"; expires_in := Some 300; refresh_expires_in := None |}
                   else Err "not a token";
  parse_error s := Ok {| error := s; error_description := None |};
  to_vec_pretty t := Ok (bits (encode (stored_fields t)));
  from_slice l := match decode (unbits l) : option (string * option string * option Z * option Z * string * string) with
                  | Some (a, r, ae, re, i, c) =>
                      Ok {| st_access := a; st_refresh := r; access_expires_at := ae; refresh_expires_at := re; issuer := i; client_id := c |}
                  | None => Err "not a login"
                  end |}%string.
Proof. intros [] b [= <-]. by rewrite unbits_bits, decode_encode. Defined.

Definition demo_links (t : string) : option (list byte) := None.
Definition demo_text (e : IoError) : string := match e with Os t => t | _ => "not found" end.
Definition demo_stored (expires : Z) (refresh : option string) : StoredToken :=
  {| st_access := "old"; st_refresh := refresh; access_expires_at := Some expires; refresh_expires_at := None; issuer := "https://idp/"; client_id := "cli" |}.
(** A directory with a stored login. *)
Definition demo_store (t : StoredToken) : Process :=
  {| store := {| disk := {| umask := 18; inodes := {[ 0%nat := {| mode := 384; content := bits (encode (stored_fields t)); synced := true |} ]};
                            next := 1; dir := {[ "oidc-token.json"%string := File 0 ]}; unsynced := [] |};
                 history := []; answers := [] |};
     degraded_logged := false; did := [] |}.
Definition demo_env (k : string) : option string :=
  if String.eqb k "CT_AGENT_STATE_DIR" then Some "/state" else None.
Definition demo_file_env (k : string) : option string :=
  if String.eqb k "CT_OIDC_TOKEN_FILE" then Some "/run/token" else demo_env k.
Definition no_file (path : string) : result string string := Err "rotating".
Definition token_reply : HttpReply := Answered 200 "200 OK" (Ok "token").

(** Two callers of an expired login: one request, and both have the new token. *)
Definition demo_events : list Event :=
  [Arrives (configured_token demo_env no_file); Arrives (configured_token demo_env no_file); Locks 1 1000; Hears 1 token_reply; Locks 0 1001].
Definition demo_callers : option Callers := run demo_links demo_text demo_events (nobody (demo_store (demo_stored 900 (Some "r1"%string)))).
Example a_burst_costs_one_request :
  option_map (fun s => (omap finished (pcs s), length (requests (process s)))) demo_callers =
  Some ([(inr "/state/oidc-token.json", Ok "new"); (inr "/state/oidc-token.json", Ok "new")]%string, 1%nat).
Proof. vm_compute. reflexivity. Qed.
(** While the refresh is under way nobody else gets the lock. *)
Example the_lock_is_exclusive :
  is_Some (run demo_links demo_text (take 3 demo_events) (nobody (demo_store (demo_stored 900 (Some "r1"%string))))) /\
  run demo_links demo_text (take 3 demo_events ++ [Locks 0 1001]) (nobody (demo_store (demo_stored 900 (Some "r1"%string)))) = None.
Proof. split; [by eexists; vm_compute|by vm_compute]. Qed.

(** An unreadable [CT_OIDC_TOKEN_FILE]: the state is reported as "stored", and every call fails. *)
Example unreadable_file_is_reported_as_stored :
  (oidc_credential_state_from demo_links demo_text demo_file_env no_file 1000 (store (demo_store (demo_stored 5000 None)))).1 = StoredFresh /\
  is_ok (resolve_oidc_token_classified demo_links demo_text demo_file_env no_file 1000 token_reply (demo_store (demo_stored 5000 None))).1 = false.
Proof. split; vm_compute; reflexivity. Qed.
(** After its last try the wrapper calls the stored login refreshable, which was never read and is not. *)
Definition demo_try : Try := {| t_env := demo_file_env; t_read := no_file; t_now := 1000; t_reply := token_reply |}.
Example gave_up_claims_refreshable :
  match resolve_oidc_token_with_retry demo_links demo_text [demo_try] 1 0 (demo_store (demo_stored 900 None)) with
  | (_, Some (Err m), _) => contains "The stored login itself is still refreshable" m
  | _ => false
  end = true /\
  (oidc_credential_state_from demo_links demo_text demo_env no_file 1000 (store (demo_store (demo_stored 900 None)))).1 = StoredExpiredNoRefresh.
Proof. split; vm_compute; reflexivity. Qed.

Lemma callers_are_serialised_witness : exists s jobs, demo_callers = Some s /\ existsb holds (pcs s) = false /\
  process s = (serial demo_links demo_text jobs (demo_store (demo_stored 900 (Some "r1"%string)))).2.
Proof.
  destruct demo_callers as [s|] eqn:E; [|by vm_compute in E].
  assert (option_map (fun s => existsb holds (pcs s)) demo_callers = Some false) as Hn by (vm_compute; reflexivity).
  rewrite E in Hn. injection Hn as Hn. destruct (callers_are_serialised demo_links demo_text _ _ s E Hn) as (jobs & Hp & _). exists s, jobs. split; [reflexivity|]. split; [exact Hn|exact Hp].
Defined.

Lemma reported_state_is_met_witness : exists p' form,
  (resolve_oidc_token_classified demo_links demo_text demo_env no_file 1000 token_reply (demo_store (demo_stored 900 (Some "r1"%string)))).2 = p' /\
  requests p' = [form].
Proof.
  destruct (resolve_oidc_token_classified demo_links demo_text demo_env no_file 1000 token_reply (demo_store (demo_stored 900 (Some "r1"%string)))) as [r p'] eqn:E.
  destruct (oidc_credential_state_from demo_links demo_text demo_env no_file 1000 (store (demo_store (demo_stored 900 (Some "r1"%string))))) as [st w] eqn:Es.
  assert (st = StoredExpiredRefreshable) as -> by (change st with (st, w).1; rewrite <-Es; vm_compute; reflexivity).
  destruct (reported_state_is_met demo_links demo_text demo_env no_file 1000 token_reply _ r p' _ w (fun _ => eq_refl) E Es) as (Hr & Hone & _).
  destruct (Hone eq_refl) as (form & Hform). exists p', form. split; [reflexivity|]. rewrite Hr, Hform. reflexivity.
Defined.

Definition demo_turns : list Turn := let pending := Answered 400 "400" (Ok "authorization_pending"%string) in
  [{| overslept := 0; took := 1000000000; reply := pending |};
   {| overslept := 7; took := 1000000000; reply := Answered 400 "400" (Ok "slow_down"%string) |};
   {| overslept := 0; took := 1000000000; reply := token_reply |};
   {| overslept := 0; took := 1; reply := pending |}].
