(* ===== verification/ServiceHandler.v ===== *)
(** * ServiceHandler: one run of the operator's service handler (channel_run/service_calls.rs)

    What a handler process is given, how its output is read, what becomes of it -- the tool's answer,
    the lines on this process's own stderr, the text a remote peer gets -- and how it is killed.
    The operating system's part is an input: whether the spawn works, what the pipes deliver read by
    read, how the wait ends. *)
From S2P Require Import Prelude Text Utf8 Json Redact.
From Stdlib Require Strings.String.
From stdpp Require Import gmap strings.

#[local] Open Scope Z_scope.

(** ** Its environment *)

Definition HANDLER_SECRET_ENV : list string :=
  ["CT_BOOTSTRAP"; "CT_AGENT_TOKEN"; "CT_AGENT_JOIN_TOKEN"; "CT_AGENT_MASQUE_TOKEN"; "CT_AGENT_ORIGIN_KEY"; "CT_AGENT_SSH_OWNER_KEY";
   "CT_AGENT_SUPERVISOR_STATUS_TOKEN"; "CT_CHANNEL_HOLDER_KEY"; "CT_CHANNEL_NOISE_KEY"; "CT_CHANNEL_OPERATOR_KEY";
   "CT_CP_EDGE_ADMIN_TOKEN"; "CT_DEBUG_DIRECT_TOKEN"; "CT_LOCAL_AUTH_PASSWORD"; "CT_MANIFEST_HOLDER_KEY";
   "CT_MANIFEST_REGISTRY_WRITE_TOKEN"; "CT_OIDC_TOKEN"; "CT_RELAY_NODE_KEY"]%string.

Inductive Stdio := Piped | Inherited.
(** [std::process::Command] as both handlers build it: [sh -c cmd] in a process group of its own. *)
Record Command := {
  args : list string; environment : gmap string string; own_process_group : bool; stdin : Stdio; stdout : Stdio; stderr : Stdio
}.
(** [inherited] is the agent's own environment; [env] sets a variable, [env_remove] removes one. *)
Definition handler_environment (inherited : gmap string string) (service : string) : gmap string string :=
  foldl (fun env key => delete key env) (<["CT_SERVICE_TYPE"%string := service]> inherited) HANDLER_SECRET_ENV.
Definition handler_command (inherited : gmap string string) (cmd service : string) (err : Stdio) : Command :=
  {| args := ["sh"; "-c"; cmd]%string; environment := handler_environment inherited service; own_process_group := true;
     stdin := Piped; stdout := Piped; stderr := err |}.
(** A stream handler writes to the agent's own stderr; a request handler's is read. *)
Definition spawn_stream_handler (inherited : gmap string string) (cmd service : string) : Command :=
  handler_command inherited cmd service Inherited.

(** ** Its output *)

(** What a pipe delivers: bytes, an interrupted call, an error; the end of the list is the end of the file. *)
Inductive Delivery := Bytes (b : byte) (l : list byte) | Interrupted | Broken.
Definition Pipe := list Delivery.
(** [Read::read] into a buffer of [n] bytes, [n] positive. *)
Definition read (n : nat) (p : Pipe) : Delivery * Pipe + unit :=
  match p with
  | [] => inr tt
  | Bytes b l :: p =>
      let l := b :: l in
      inl (match take n l with b' :: l' => Bytes b' l' | [] => Broken end,
           match drop n l with b' :: l' => Bytes b' l' :: p | [] => p end)
  | d :: p => inl (d, p)
  end.
(** The number of turns any reading loop needs: one byte or one call at a time. *)
Definition work (p : Pipe) : nat := sum_list_with (fun d => match d with Bytes _ l => S (length l) | _ => 1%nat end) p.

(** [r.take(cap).read_to_end(&mut head)]: [std] retries an interrupted read and stops at an error. *)
Fixpoint read_to_end (fuel cap : nat) (p : Pipe) : list byte * Pipe :=
  match fuel, cap with
  | S fuel, S _ =>
      match read cap p with
      | inr _ => ([], p)
      | inl (Bytes b l, p) => let '(more, p) := read_to_end fuel (cap - S (length l)) p in (b :: l ++ more, p)
      | inl (Interrupted, p) => read_to_end fuel cap p
      | inl (Broken, p) => ([], p)
      end
  | _, _ => ([], p)
  end.
(** The rest is copied to a sink and is not looked at. *)
Definition read_head (cap : Z) (p : Pipe) : list byte := (read_to_end (work p) (Z.to_nat cap) p).1.

(** The chunk of [read_tail]; [tail] is the queue so far. *)
Definition CHUNK : nat := Z.to_nat 8192.
Fixpoint read_tail_loop (fuel : nat) (cap : Z) (tail : list byte) (p : Pipe) : list byte :=
  match fuel with
  | O => tail
  | S fuel =>
      match read CHUNK p with
      | inr _ => tail
      | inl (Bytes b l, p) =>
          let tail := tail ++ b :: l in
          let excess := sat_sub (Zlen tail) cap in
          read_tail_loop fuel cap (drop (Z.to_nat excess) tail) p
      | inl (Interrupted, p) => read_tail_loop fuel cap tail p
      | inl (Broken, _) => tail
      end
  end.
Definition read_tail (cap : Z) (p : Pipe) : list byte := read_tail_loop (work p) cap [] p.

(** ** What is passed on *)

Definition HANDLER_STDERR_PASSTHROUGH_MAX : Z := 64 * 1024.
Definition HANDLER_STDERR_KEEP : Z := 1024 * 1024.
Definition HANDLER_STDERR_PEER_TAIL_MAX : Z := 2 * 1024.
Definition HANDLER_STDERR_REDACT_LOOKBACK : Z := 1024.

Definition last_bytes {A} (n : Z) (l : list A) : list A := drop (Z.to_nat (Zlen l - n)) l.

(** The lines written to [diag], this process's stderr. *)
Definition forward_handler_stderr (slug : string) (err : list byte) : list string :=
  match err with
  | [] => []
  | _ =>
      let cut := HANDLER_STDERR_PASSTHROUGH_MAX <? Zlen err in
      let tail := if cut then last_bytes HANDLER_STDERR_PASSTHROUGH_MAX err else err in
      (if cut then
         ["service handler[" +:+ slug +:+ "] stderr: [... " +:+ show (Zlen err - HANDLER_STDERR_PASSTHROUGH_MAX) +:+ " bytes cut, last "
          +:+ show HANDLER_STDERR_PASSTHROUGH_MAX +:+ " shown]"]%string
       else [])
      ++ map (fun line => "service handler[" +:+ slug +:+ "] stderr: " +:+ line)%string (lines (from_utf8_lossy tail))
  end.

(** From a byte index on to the next character boundary: [while !is_char_boundary(start) { start += 1 }]. *)
Fixpoint to_boundary (l : list byte) : list byte :=
  match l with
  | b :: l' => if continuation b then to_boundary l' else l
  | [] => []
  end.
Definition peer_facing_stderr_tail (err : list byte) : string :=
  match err with
  | [] => EmptyString
  | _ =>
      let window_len := Z.min (HANDLER_STDERR_PEER_TAIL_MAX + HANDLER_STDERR_REDACT_LOOKBACK) (Zlen err) in
      let text := redact_secrets (trim_end (from_utf8_lossy (last_bytes window_len err))) in
      if Zlen err <=? HANDLER_STDERR_PEER_TAIL_MAX then text
      else
        let start := sat_sub (str_len text) HANDLER_STDERR_PEER_TAIL_MAX in
        ("[... " +:+ show (Zlen err - HANDLER_STDERR_PEER_TAIL_MAX) +:+ " bytes cut, last " +:+ show HANDLER_STDERR_PEER_TAIL_MAX
         +:+ " shown] " +:+ String.string_of_list_byte (to_boundary (drop (Z.to_nat start) (as_bytes text))))%string
  end.

(** ** A run *)

Record ExitStatus := { success : bool; status_text : string }.
(** How the bounded wait ends; the pipes are read meanwhile. *)
Inductive Waited :=
| Exited (status : ExitStatus) (out err : Pipe)
| WaitFailed (e : string)
| TimedOut
| Disconnected.
(** What happened outside, in order: the child is started, its process group is killed, lines are
    written to the diagnostic sink. *)
Inductive Act := Spawned (c : Command) (input : string) | Killed (pid : Z) | Wrote (line : string).

Section Run.
(** [ct_common::a2a::MAX_MESSAGE_BYTES]. *)
Context (MAX_MESSAGE_BYTES : Z).
Definition HANDLER_STDOUT_MAX : Z := MAX_MESSAGE_BYTES.
Definition SERVICE_HANDLER_TIMEOUT : Z := 120 * SECOND.

Definition handler_output (slug : string) (status : ExitStatus) (out err : list byte) : result string string :=
  if negb (success status) then Err ("service handler exited " +:+ status_text status +:+ ": " +:+ peer_facing_stderr_tail err)%string
  else if HANDLER_STDOUT_MAX <? Zlen out then
    Err ("service handler output exceeds " +:+ show HANDLER_STDOUT_MAX +:+ " bytes (the channel message ceiling)")%string
  else
    let stdout := trim (from_utf8_lossy out) in
    if is_empty stdout then Err ("service handler exited " +:+ status_text status +:+ " but produced no output (killed mid-run?)")%string
    else Ok stdout.

(** [spawned]: the child's pid, or why there is none. *)
Definition run_service_handler_with_timeout_to (inherited : gmap string string) (cmd slug input : string) (timeout : Z)
  (spawned : result Z string) (waited : Waited) : list Act * result string string :=
  match spawned with
  | Err e => ([], Err ("service handler spawn failed: " +:+ e)%string)
  | Ok pid =>
      let started := Spawned (handler_command inherited cmd slug Piped) input in
      match waited with
      | Exited status out err =>
          let out := read_head (HANDLER_STDOUT_MAX + 1) out in
          let err := read_tail HANDLER_STDERR_KEEP err in
          (started :: map Wrote (forward_handler_stderr slug err), handler_output slug status out err)
      | WaitFailed e => ([started], Err ("service handler wait failed: " +:+ e)%string)
      | TimedOut =>
          ([started; Killed (- pid)],
           Err ("service handler timed out after " +:+ show (timeout / SECOND) +:+ "s (pid " +:+ show pid +:+ " killed)")%string)
      | Disconnected => ([started], Err "service handler: wait thread disconnected unexpectedly"%string)
      end
  end.
Definition run_service_handler (inherited : gmap string string) (cmd slug input : string) :=
  run_service_handler_with_timeout_to inherited cmd slug input SERVICE_HANDLER_TIMEOUT.
End Run.

(** ** Reading *)

(** What a pipe delivers before its first error. *)
Fixpoint content (p : Pipe) : list byte :=
  match p with
  | [] => []
  | Bytes b l :: p => b :: l ++ content p
  | Interrupted :: p => content p
  | Broken :: _ => []
  end.

(** One read: the end, an error, a call to repeat, or the next bytes. *)
Lemma read_spec n p : (0 < n)%nat ->
  match read n p with
  | inr _ => p = []
  | inl (Broken, _) => content p = []
  | inl (Interrupted, p') => content p = content p' /\ work p = S (work p')
  | inl (Bytes b l, p') => content p = (b :: l) ++ content p' /\ work p = (length (b :: l) + work p')%nat /\ (length (b :: l) <= n)%nat
  end.
Proof.
  destruct p as [|[b l| |] p]; cbn [read content work sum_list_with]; try done. intros Hn.
  destruct n as [|n]; [lia|]. cbn [take drop]. pose proof (take_drop n l) as E. pose proof (length_take l n) as Hl.
  destruct (drop n l) as [|c k] eqn:Ed.
  - rewrite app_nil_r in E. rewrite E in *. cbn [length]. split; [done|]. split; [unfold work; lia|lia].
  - assert (length l = length (take n l) + S (length k))%nat as Hk by (rewrite <-E at 1; by rewrite length_app).
    cbn [content work sum_list_with length app].
    split; [by rewrite <-E at 1; rewrite <-app_assoc|]. split; [unfold work; cbn [sum_list_with]; lia|lia].
Qed.

Lemma read_to_end_spec fuel cap p : (work p <= fuel)%nat -> (read_to_end fuel cap p).1 = take cap (content p).
Proof.
  revert cap p. induction fuel as [|fuel IH]; intros cap p Hw.
  { destruct p as [|[b l| |] p]; cbn in Hw; [by destruct cap|lia..]. }
  destruct cap as [|cap]; [done|]. cbn [read_to_end]. pose proof (read_spec (S cap) p ltac:(lia)) as H.
  destruct (read (S cap) p) as [[[b l| |] p']|]; [| | |by subst].
  - destruct H as (-> & Hp & Hl). specialize (IH (S cap - S (length l))%nat p').
    destruct (read_to_end fuel (S cap - S (length l)) p') as [more q]. cbn [fst] in IH |- *.
    rewrite take_app, firstn_all2 by exact Hl. cbn [app length] in *. by rewrite IH by lia.
  - destruct H as [-> Hp]. apply IH. lia.
  - by rewrite H.
Qed.
Lemma read_head_spec cap p : read_head cap p = take (Z.to_nat cap) (content p).
Proof. by apply read_to_end_spec. Qed.

Lemma last_bytes_app {A} n (u v : list A) : 0 <= n -> last_bytes n (last_bytes n u ++ v) = last_bytes n (u ++ v).
Proof.
  intros Hn. unfold last_bytes. rewrite !length_app, length_drop.
  replace (drop (Z.to_nat (Zlen u - n)) u ++ v) with (drop (Z.to_nat (Zlen u - n)) (u ++ v)) by by rewrite drop_app_le by lia.
  rewrite drop_drop. f_equal. lia.
Qed.
Lemma last_bytes_short {A} n (l : list A) : Zlen l <= n -> last_bytes n l = l.
Proof. intros H. unfold last_bytes. by replace (Z.to_nat (Zlen l - n)) with O by lia. Qed.
Lemma length_last_bytes {A} n (l : list A) : 0 <= n -> Zlen (last_bytes n l) = Z.min n (Zlen l).
Proof. intros H. unfold last_bytes. rewrite length_drop. lia. Qed.
Lemma read_tail_loop_spec fuel cap seen p : 0 <= cap -> (work p <= fuel)%nat ->
  read_tail_loop fuel cap (last_bytes cap seen) p = last_bytes cap (seen ++ content p).
Proof.
  intros Hc. revert seen p. induction fuel as [|fuel IH]; intros seen p Hw.
  { destruct p as [|[b l| |] p]; cbn in Hw; [by rewrite app_nil_r|lia..]. }
  cbn [read_tail_loop]. pose proof (read_spec CHUNK p ltac:(unfold CHUNK; lia)) as H.
  destruct (read CHUNK p) as [[[b l| |] p']|]; [| | |subst; cbn; by rewrite app_nil_r].
  - destruct H as (-> & Hp & _). rewrite app_assoc, <-IH by (cbn [length] in Hp; lia). f_equal.
    rewrite <-last_bytes_app by done. generalize (last_bytes cap seen ++ b :: l). intros t. unfold last_bytes, sat_sub. f_equal. lia.
  - destruct H as [-> Hp]. apply IH. lia.
  - by rewrite H, app_nil_r.
Qed.
Lemma read_tail_spec cap p : 0 <= cap -> read_tail cap p = last_bytes cap (content p).
Proof.
  intros Hc. pose proof (read_tail_loop_spec (work p) cap [] p Hc (le_n _)) as H. unfold last_bytes in H at 1. by rewrite drop_nil in H.
Qed.

(** ** The environment *)

Lemma environment_lookup (inherited : gmap string string) service key :
  handler_environment inherited service !! key =
  if decide (key ∈ HANDLER_SECRET_ENV) then None else if decide (key = "CT_SERVICE_TYPE"%string) then Some service else inherited !! key.
Proof.
  unfold handler_environment. set (env := <["CT_SERVICE_TYPE"%string := service]> inherited).
  assert (forall env : gmap string string, foldl (fun env key => delete key env) env HANDLER_SECRET_ENV !! key =
    if decide (key ∈ HANDLER_SECRET_ENV) then None else env !! key) as ->.
  { generalize HANDLER_SECRET_ENV. intros l. induction l as [|k l IH]; intros e; [done|]. cbn [foldl]. rewrite IH.
    destruct (decide (key ∈ l)), (decide (key ∈ k :: l)) as [Hk|Hk]; try done; [set_solver| |].
    - apply elem_of_cons in Hk as [->|]; [|done]. by rewrite lookup_delete_eq.
    - rewrite lookup_delete_ne; [done|]. intros ->. set_solver. }
  destruct (decide (key ∈ HANDLER_SECRET_ENV)); [done|]. unfold env. destruct (decide (key = _)) as [->|Hk]; [by rewrite lookup_insert_eq|].
  by rewrite lookup_insert_ne by congruence.
Qed.

(** ** What leaves the run *)

Lemma last_bytes_last {A} n m (l : list A) : 0 <= n <= m -> last_bytes n (last_bytes m l) = last_bytes n l.
Proof. intros H. unfold last_bytes. rewrite length_drop, drop_drop. f_equal. lia. Qed.
Lemma to_boundary_spec l : exists s, l = s ++ to_boundary l /\ (to_boundary l = [] \/ exists b k, to_boundary l = b :: k /\ continuation b = false).
Proof.
  induction l as [|b l (s & E & H)]; cbn [to_boundary]; [exists []; auto|]. destruct (continuation b) eqn:Eb.
  - exists (b :: s). by rewrite <-app_comm_cons, <-E.
  - exists []. split; [done|]. right. eauto.
Qed.
Lemma to_boundary_utf8 x l : utf8_valid (x ++ l) = true -> utf8_valid (to_boundary l) = true.
Proof.
  intros H. destruct (to_boundary_spec l) as (s & E & Hb). rewrite E, app_assoc in H.
  destruct Hb as [->|(b & k & Ek & Hb)]; [done|]. rewrite Ek in H |- *. by apply utf8_cut in H as [_ H].
Qed.
Lemma as_bytes_of l : as_bytes (String.string_of_list_byte l) = l.
Proof. apply String.list_byte_of_string_of_list_byte. Qed.
Lemma str_len_bytes s : str_len s = Zlen (as_bytes s).
Proof. unfold str_len. by rewrite as_bytes_length. Qed.

(** The text a peer may see of [err]: redacted before anything is cut off. *)
Definition peer_window (err : list byte) : string :=
  redact_secrets (trim_end (from_utf8_lossy (last_bytes (HANDLER_STDERR_PEER_TAIL_MAX + HANDLER_STDERR_REDACT_LOOKBACK) err))).
Definition cut_note (n : Z) : string :=
  ("[... " +:+ show (n - HANDLER_STDERR_PEER_TAIL_MAX) +:+ " bytes cut, last " +:+ show HANDLER_STDERR_PEER_TAIL_MAX +:+ " shown] ")%string.

Lemma peer_window_short (err : list byte) : last_bytes (Z.min (HANDLER_STDERR_PEER_TAIL_MAX + HANDLER_STDERR_REDACT_LOOKBACK) (Zlen err)) err =
  last_bytes (HANDLER_STDERR_PEER_TAIL_MAX + HANDLER_STDERR_REDACT_LOOKBACK) err.
Proof. unfold last_bytes. f_equal. lia. Qed.
Lemma peer_tail_spec err : exists note before shown,
  peer_facing_stderr_tail err = (note +:+ String.string_of_list_byte shown)%string /\
  as_bytes (peer_window err) = before ++ shown /\ utf8_valid shown = true /\
  if Zlen err <=? HANDLER_STDERR_PEER_TAIL_MAX then note = EmptyString /\ before = []
  else note = cut_note (Zlen err) /\ Zlen shown <= HANDLER_STDERR_PEER_TAIL_MAX.
Proof.
  assert (str_ok (peer_window err)) as Hok by apply from_utf8_lossy_ok.
  unfold peer_facing_stderr_tail. destruct err as [|b err]; [exists EmptyString, [], []; done|].
  cbv zeta. rewrite peer_window_short. fold (peer_window (b :: err)). destruct (_ <=? HANDLER_STDERR_PEER_TAIL_MAX).
  { exists EmptyString, [], (as_bytes (peer_window (b :: err))). split; [|done]. cbn. symmetry. apply String.string_of_list_byte_of_string. }
  set (l := as_bytes (peer_window (b :: err))). set (i := Z.to_nat _). destruct (to_boundary_spec (drop i l)) as (s & Es & _).
  exists (cut_note (Zlen (b :: err))), (take i l ++ s), (to_boundary (drop i l)). split; [|split; [|split; [|split; [done|]]]].
  - unfold cut_note. by rewrite <-!string_app_assoc.
  - by rewrite <-app_assoc, <-Es, take_drop.
  - apply (to_boundary_utf8 (take i l)). by rewrite take_drop.
  - assert (Zlen l - HANDLER_STDERR_PEER_TAIL_MAX <= Z.of_nat i) as Hi by (unfold i, sat_sub; rewrite str_len_bytes; fold l; lia).
    pose proof (f_equal length Es) as En. rewrite length_app, length_drop in En. unfold HANDLER_STDERR_PEER_TAIL_MAX in *. lia.
Qed.

Section Runs.
Context (MAX_MESSAGE_BYTES : Z) (inherited : gmap string string).
Notation run := (run_service_handler_with_timeout_to MAX_MESSAGE_BYTES inherited).

(** A handler call succeeds exactly when the child was started, ended by itself with success in
    time and wrote some text that fits one channel message; the answer is that text, trimmed. *)
Theorem handler_answer_iff cmd slug input timeout spawned waited s : 0 <= MAX_MESSAGE_BYTES ->
  (run cmd slug input timeout spawned waited).2 = Ok s <->
  is_ok spawned = true /\ exists status out err, waited = Exited status out err /\ success status = true /\
    Zlen (content out) <= MAX_MESSAGE_BYTES /\ s = trim (from_utf8_lossy (content out)) /\ s <> EmptyString.
Proof.
  intros Hm. unfold run_service_handler_with_timeout_to. destruct spawned as [pid|e]; [|split; [done|by intros [? _]]].
  destruct waited as [status out err|e| |]; cbn [snd is_ok]; [|split; [done|intros (_ & ? & ? & ? & [=] & _)]..].
  unfold handler_output, HANDLER_STDOUT_MAX. rewrite read_head_spec. split.
  - destruct (success status) eqn:Es; cbn [negb]; [|done]. destruct (_ <? _) eqn:El; [done|]. apply Z.ltb_ge in El.
    rewrite length_take in El. rewrite take_ge by lia. destruct (is_empty _) eqn:Ee; [done|]. intros [= <-].
    split; [done|]. exists status, out, err. unfold is_empty in Ee. apply String.eqb_neq in Ee. split; [done|]. split; [done|]. split; [lia|done].
  - intros (_ & st & o & e & [= <- <- <-] & Hs & Hl & -> & Hn). rewrite Hs, take_ge by lia. cbn [negb].
    rewrite (proj2 (Z.ltb_ge _ _) Hl). unfold is_empty. by rewrite (proj2 (String.eqb_neq _ _) Hn).
Qed.

(** Of a failed handler's stderr a peer gets the exit status and redacted text only: the text of
    its last 3072 bytes with every secret masked first; when more than 2048 bytes were written, a
    note and at most the last 2048 bytes of it, cut at a character. *)
Theorem peer_gets_a_redacted_tail cmd slug input timeout pid status out err : success status = false ->
  exists note before shown,
    (run cmd slug input timeout (Ok pid) (Exited status out err)).2 =
      Err ("service handler exited " +:+ status_text status +:+ ": " +:+ note +:+ String.string_of_list_byte shown)%string /\
    as_bytes (peer_window (content err)) = before ++ shown /\ utf8_valid shown = true /\
    if Zlen (content err) <=? HANDLER_STDERR_PEER_TAIL_MAX then note = EmptyString /\ before = []
    else note = cut_note (Z.min HANDLER_STDERR_KEEP (Zlen (content err))) /\ Zlen shown <= HANDLER_STDERR_PEER_TAIL_MAX.
Proof.
  intros Hs. cbn [run_service_handler_with_timeout_to snd]. unfold handler_output. rewrite Hs, read_tail_spec by done. cbn [negb].
  destruct (peer_tail_spec (last_bytes HANDLER_STDERR_KEEP (content err))) as (note & before & shown & E & Ew & Hu & Hn).
  exists note, before, shown. rewrite E. split; [done|]. split; [|split; [done|]].
  - rewrite <-Ew. unfold peer_window. by rewrite last_bytes_last.
  - rewrite length_last_bytes in Hn by done. unfold HANDLER_STDERR_KEEP, HANDLER_STDERR_PEER_TAIL_MAX in *.
    destruct (Z.min (1024 * 1024) (Zlen (content err)) <=? 2 * 1024) eqn:E1, (Zlen (content err) <=? 2 * 1024) eqn:E2; try done; lia.
Qed.

(** A handler never gets one of the agent's secrets: whatever the agent's own environment holds,
    the child's lacks each of the secret variables and has all others unchanged, with the service's
    name; the same holds for a stream handler. *)
Theorem handler_gets_no_secret cmd slug input timeout spawned waited c i key :
  Spawned c i ∈ (run cmd slug input timeout spawned waited).1 \/ c = spawn_stream_handler inherited cmd slug ->
  environment c !! key = if decide (key ∈ HANDLER_SECRET_ENV) then None
                         else if decide (key = "CT_SERVICE_TYPE"%string) then Some slug else inherited !! key.
Proof.
  intros H. assert (exists err, c = handler_command inherited cmd slug err) as [err ->].
  { destruct H as [H| ->]; [|by exists Inherited]. exists Piped. unfold run_service_handler_with_timeout_to in H.
    destruct spawned as [pid|]; [|by apply elem_of_nil in H]. destruct waited; cbn [fst] in H; apply elem_of_cons in H as [[= -> _]|H]; try done.
    - apply list_elem_of_fmap in H as (line & [=] & _).
    - by apply elem_of_nil in H.
    - by apply list_elem_of_singleton in H.
    - by apply elem_of_nil in H. }
  apply environment_lookup.
Qed.
End Runs.

Fixpoint repeat_string (n : nat) (s : string) : string := match n with O => EmptyString | S n => s +:+ repeat_string n s end.
(** Redaction and repair can lengthen a text that was not cut. *)
Lemma short_tail_grows : Zlen (as_bytes (repeat_string 256 "token=x ")) = 2048 /\
  2048 < str_len (peer_facing_stderr_tail (as_bytes (repeat_string 256 "token=x "))).
Proof. vm_compute. done. Qed.

(** ** Concrete runs *)

Definition bytes_of (s : string) : Pipe := match as_bytes s with b :: l => [Bytes b l] | [] => [] end.
Definition demo_exit (code : bool) : Waited :=
  Exited {| success := code; status_text := "exit status: 3" |} (bytes_of " 4" ++ Interrupted :: bytes_of "2") (bytes_of "api_key=" ++ bytes_of "sk-1 denied").

Lemma handler_answer_iff_witness :
  (run_service_handler_with_timeout_to 65535 ∅ "echo 42" "math" "6*7" SERVICE_HANDLER_TIMEOUT (Ok 7) (demo_exit true)).2 = Ok "42"%string.
Proof.
  apply handler_answer_iff; [lia|]. split; [reflexivity|]. eexists _, _, _. split; [reflexivity|]. split; [reflexivity|].
  split; [vm_compute; discriminate|]. split; [vm_compute; reflexivity|discriminate].
Defined.
Lemma peer_gets_a_redacted_tail_witness :
  (run_service_handler_with_timeout_to 65535 ∅ "echo 42" "math" "6*7" SERVICE_HANDLER_TIMEOUT (Ok 7) (demo_exit false)).2 =
    Err "service handler exited exit status: 3: api_key=[REDACTED] denied"%string /\
  exists shown, Zlen shown <= 100 /\ (run_service_handler_with_timeout_to 65535 ∅ "echo 42" "math" "6*7" SERVICE_HANDLER_TIMEOUT (Ok 7) (demo_exit false)).2 =
    Err ("service handler exited exit status: 3: " +:+ String.string_of_list_byte shown)%string.
Proof.
  split; [vm_compute; reflexivity|].
  destruct (peer_gets_a_redacted_tail 65535 ∅ "echo 42" "math" "6*7" SERVICE_HANDLER_TIMEOUT 7 {| success := false; status_text := "exit status: 3" |}
    (bytes_of " 4" ++ Interrupted :: bytes_of "2") (bytes_of "api_key=" ++ bytes_of "sk-1 denied") eq_refl) as (note & before & shown & E & Ew & _ & H).
  cbn in H. destruct H as [-> ->]. exists shown. split; [|exact E].
  assert (shown = as_bytes "api_key=[REDACTED] denied") as -> by (cbn [app] in Ew; rewrite <-Ew; vm_compute; reflexivity).
  vm_compute. discriminate.
Defined.
Lemma handler_gets_no_secret_witness :
  environment (spawn_stream_handler {["CT_AGENT_TOKEN" := "t"; "PATH" := "/bin"]} "cat" "echo") !! "CT_AGENT_TOKEN"%string = None /\
  environment (spawn_stream_handler {["CT_AGENT_TOKEN" := "t"; "PATH" := "/bin"]} "cat" "echo") !! "PATH"%string = Some "/bin"%string.
Proof.
  split; (rewrite (handler_gets_no_secret 65535 {["CT_AGENT_TOKEN" := "t"; "PATH" := "/bin"]} "cat" "echo" "" 0 (Err "") Disconnected _ ""%string);
    [vm_compute; reflexivity|by right]).
Defined.
