(* ===== verification/ServiceCalls.v ===== *)
(** * ServiceCalls: calling a peer's service over a channel (channel_run/service_calls.rs)

    The caller's side: one [service/<slug>] call and its answer, the crew of three services, and the
    persistent caller -- one held session on which every line of stdin becomes one call and one
    envelope on stdout, re-dialed when it ends.  The session itself is an event: the peer's answer,
    the end of the pump.  Requests, frames and JSON parsing of ct-common and serde are parameters. *)
From S2P Require Import Prelude Text Json Retry ForwardReconnect.

#[local] Open Scope Z_scope.

(** [serde_json::from_slice] and [ct_common::mcp::encode_request]. *)
Class CallCodec := {
  from_slice : list byte -> result Value string;
  encode_request : Z -> string -> Value -> list byte
}.

Section Calls.
Context `{SerdeJson, CallCodec}.

Definition fields (l : list (string * Value)) : Value := Object (list_to_map l).

(** ** One call *)

(** [exchange] writes one frame and reads the next one. *)
Definition mcp_call_over (exchange : list byte -> result (list byte) string) (method : string) (params : Value) : result (list byte) string :=
  exchange (encode_request 1 method params).
Definition call_params (slug input : string) : Value :=
  fields [("name", Str ("service/" +:+ slug)); ("arguments", fields [("input", Str input)])]%string.
Definition service_reply (slug : string) (body : list byte) : result string string :=
  let* v := from_slice body in
  match jget v "error" with
  | Some err => Err ("service/" +:+ slug +:+ " returned an error: " +:+ to_string err)%string
  | None =>
      match (let? r := jget v "result" in let? o := jget r "output" in as_str o) with
      | Some o => Ok o
      | None => Err ("service/" +:+ slug +:+ " reply missing result.output")%string
      end
  end.
Definition call_role_service (exchange : list byte -> result (list byte) string) (slug input : string) : result string string :=
  let* body := mcp_call_over exchange "tools/call" (call_params slug input) in service_reply slug body.

Definition UPGRADE_GRACE : Z := 6 * SECOND.
(** The answer, and how long the session is held after it. *)
Definition run_service_call (is_set : string -> bool) (exchange : list byte -> result (list byte) string) (slug input : string)
  : result string string * Z :=
  let r := call_role_service exchange slug input in
  (r, if is_ok r && (is_set "CT_CHANNEL_RELAY_GATE" || is_set "CT_CHANNEL_CIRCUIT_RELAY" || is_set "CT_CHANNEL_DIRECT_UPGRADE")%string
      then UPGRADE_GRACE else 0).

(** ** The crew *)

Section Crew.
(** [ct_common::crew]: a configuration from two fragments. *)
Context {CrewConfig RoleAuction : Type} (from_fragment_json : string -> string -> result CrewConfig string).
Inductive CrewBuildResponse := Rejected (reason : string) | Built (config : CrewConfig) (auction : list RoleAuction).
Inductive Role := Safety | Physics | Art.
(** The three channels; the requests made, in order, those of [join!] in the order of its arguments. *)
Definition crew_build_over (prompt : string) (exchange : Role -> list byte -> result (list byte) string) (auction : list RoleAuction)
  : list (Role * list byte) * result CrewBuildResponse string :=
  let ask (role : Role) (slug : string) := (role, encode_request 1 "tools/call" (call_params slug prompt)) in
  let call (role : Role) (slug : string) := call_role_service (exchange role) slug prompt in
  let safety := [ask Safety "safety_check"%string] in
  match map_err (fun e => "safety_check service unreachable: " +:+ e)%string (call Safety "safety_check"%string) with
  | Err e => (safety, Err e)
  | Ok out =>
      match map_err (fun e => "safety_check reply not JSON: " +:+ e)%string (from_slice (as_bytes out)) with
      | Err e => (safety, Err e)
      | Ok verdict =>
          if negb (bool_decide ((let? v := jget verdict "ok" in as_bool v) = Some true)) then
            (safety, Ok (Rejected (default "rejected by the safety agent"%string (get_str verdict "reason"))))
          else
            let all := safety ++ [ask Physics "text_generation"%string; ask Art "text_generation"%string] in
            let physics := map_err (fun e => "physics role unreachable: " +:+ e)%string (call Physics "text_generation"%string) in
            let art := map_err (fun e => "art role unreachable: " +:+ e)%string (call Art "text_generation"%string) in
            (all, let* p := physics in
                  let* a := art in
                  let* cfg := map_err (fun e => "crew fragments malformed: " +:+ e)%string (from_fragment_json p a) in
                  Ok (Built cfg auction))
      end
  end.

Definition safe (prompt : string) (exchange : Role -> list byte -> result (list byte) string) : Prop := exists out verdict,
  call_role_service (exchange Safety) "safety_check" prompt = Ok out /\ from_slice (as_bytes out) = Ok verdict /\ jget verdict "ok" = Some (Bool true).
(** The crew fails closed.  The physics and art agents are asked only after the safety agent's
    reply said [ok: true]; without it nothing is built; and a build is answered exactly when both
    fragments arrived and make a configuration. *)
Theorem crew_fails_closed prompt exchange auction asked r : crew_build_over prompt exchange auction = (asked, r) ->
  ((exists role req, (role, req) ∈ asked /\ role <> Safety) -> safe prompt exchange) /\
  (forall cfg a, r = Ok (Built cfg a) <-> safe prompt exchange /\ a = auction /\ exists p q,
     call_role_service (exchange Physics) "text_generation" prompt = Ok p /\
     call_role_service (exchange Art) "text_generation" prompt = Ok q /\ from_fragment_json p q = Ok cfg).
Proof.
  unfold crew_build_over, safe. assert (forall (x : Role * list byte) y role req, (role, req) ∈ [x] -> x = (Safety, y) -> role <> Safety -> False) as Hone.
  { intros x y role req Hin%list_elem_of_singleton -> Hn. by injection Hin as -> _. }
  destruct (call_role_service (exchange Safety) "safety_check" prompt) as [out|e]; cbn [map_err].
  2:{ intros [= <- <-]. split; [intros (role & req & Hin & Hn); exfalso; by eapply Hone|].
      intros cfg a. split; [done|]. by intros [(? & ? & [=] & _) _]. }
  destruct (from_slice (as_bytes out)) as [verdict|e] eqn:Ev; cbn [map_err].
  2:{ intros [= <- <-]. split; [intros (role & req & Hin & Hn); exfalso; by eapply Hone|].
      intros cfg a. split; [done|]. by intros [(? & ? & [= <-] & ? & _) _]; congruence. }
  destruct (bool_decide _) eqn:Eb; cbn [negb].
  - apply bool_decide_eq_true in Eb. assert (jget verdict "ok" = Some (Bool true)) as Hok by (destruct (jget verdict "ok") as [[]|]; congruence || (cbn in Eb; congruence)).
    intros [= <- <-]. split; [by exists out, verdict|]. intros cfg a. split.
    + intros H1. destruct (call_role_service (exchange Physics) _ _) as [p|]; [|done]. destruct (call_role_service (exchange Art) _ _) as [q|]; [|done].
      cbn [map_err rbind] in H1. destruct (from_fragment_json p q) as [c|] eqn:Ec; [|done]. injection H1 as -> ->.
      split; [by exists out, verdict|]. split; [done|]. by exists p, q.
    + intros (_ & -> & p & q & -> & -> & Hc). cbn [map_err rbind]. by rewrite Hc.
  - apply bool_decide_eq_false in Eb. intros [= <- <-]. split; [intros (role & req & Hin & Hn); exfalso; by eapply Hone|].
    intros cfg a. split; [done|]. intros [(? & v & [= <-] & Ev' & Hok) _]. rewrite Ev in Ev'. injection Ev' as <-. by rewrite Hok in Eb.
Qed.
End Crew.

(** A call succeeds exactly when the exchange worked and the peer's reply is JSON without an
    [error] whose [result.output] is a string; that string is the answer. *)
Theorem service_call_ok_iff exchange slug input o :
  call_role_service exchange slug input = Ok o <->
  exists body v, exchange (encode_request 1 "tools/call" (call_params slug input)) = Ok body /\ from_slice body = Ok v /\
    jget v "error" = None /\ exists r, jget v "result" = Some r /\ jget r "output" = Some (Str o).
Proof.
  unfold call_role_service, mcp_call_over, service_reply. split.
  - intros (body & Eb & (v & Ev & Ho)%rbind_Ok)%rbind_Ok. exists body, v. destruct (jget v "error"); [done|].
    destruct (jget v "result") as [r|]; [|done]. destruct (jget r "output") as [[| | |s| |]|] eqn:Eo; try done.
    injection Ho as ->. repeat split; try done. by exists r.
  - intros (body & v & -> & Ev & He & r & Hr & Ho). cbn [rbind]. rewrite Ev. cbn [rbind]. by rewrite He, Hr, Ho.
Qed.

(** ** The persistent caller *)

Section Persistent.
Context {F : Type} `{Jitter F}.
Context (slug : string) (call_reconnect : bool) (own_expires_at : option Z).

Definition ok_envelope (output : string) : string := to_string (fields [("ok", Bool true); ("output", Str output)]%string).
Definition error_envelope (e : string) : string := to_string (fields [("ok", Bool false); ("error", Str e)]%string).

(** The bytes of an envelope's line. *)
Definition envelope_line (envelope : string) : list byte := as_bytes envelope ++ [byte_of_ascii "010"].
(** Where [run_service_calls_persistent] waits: for a line, for the peer's answer, for the writer to
    take more of its envelope's line ([todo] is what [write_all] still holds), for the flush; [failed]
    is the call's error, after which the run ends. *)
Inductive CallsPc :=
| Receiving
| Calling (input : string)
| Writing (todo : list byte) (failed : option string)
| Flushing (failed : option string).

(** What was done, in order: a session begun with its own duplex, a line taken from stdin, a request
    sent to the peer, its answer read, bytes of an envelope's line written to stdout. *)
Inductive Act :=
| Began
| Took (input : string)
| Asked (request : list byte)
| Got (reply : result (list byte) string)
| Put (bytes : list byte).

Inductive CallsEvent :=
| Line (l : option string)
| Reply (r : result (list byte) string)
| Wrote (r : result nat string)
| Flushed (r : result unit string).

Definition failed_mid_run (e : string) : string := ("persistent service call failed mid-run: " +:+ e)%string.
Definition answer (r : result (list byte) string) : result string string := let* body := r in service_reply slug body.

(** A turn of [write_all]: the writer takes [n] bytes, none of them is an error. *)
Definition write_failed (failed : option string) (e : string) : list Act * (CallsPc + result unit string) :=
  match failed with
  | None => ([], inr (Err e))
  | Some e => ([], inl (Flushing (Some e)))
  end.
Definition write_all (todo : list byte) (failed : option string) (r : result nat string) : option (list Act * (CallsPc + result unit string)) :=
  match r with
  | Ok O => Some (write_failed failed "failed to write whole buffer")
  | Ok n =>
      if (length todo <? n)%nat then None
      else Some ([Put (take n todo)], inl (if (length todo =? n)%nat then Flushing failed else Writing (drop n todo) failed))
  | Err e => Some (write_failed failed e)
  end.
(** One await of the calls: what follows, or the end of the run. *)
Definition calls_event (e : CallsEvent) (pc : CallsPc) : option (list Act * (CallsPc + result unit string)) :=
  match pc, e with
  | Receiving, Line None => Some ([], inr (Ok tt))
  | Receiving, Line (Some l) =>
      let input := trim l in
      if is_empty input then Some ([], inl Receiving)
      else Some ([Took input; Asked (encode_request 1 "tools/call" (call_params slug input))], inl (Calling input))
  | Calling _, Reply r =>
      Some ([Got r], inl (match answer r with
                          | Ok o => Writing (envelope_line (ok_envelope o)) None
                          | Err e => Writing (envelope_line (error_envelope e)) (Some e)
                          end))
  | Writing todo failed, Wrote r => write_all todo failed r
  | Flushing None, Flushed (Ok _) => Some ([], inl Receiving)
  | Flushing None, Flushed (Err e) => Some ([], inr (Err e))
  | Flushing (Some e), Flushed _ => Some ([], inr (Err (failed_mid_run e)))
  | _, _ => None
  end.

(** *** The loop around it *)

Inductive LoopError := OwnGrantEnds (reason : string) | NotReconnecting (text : string).
Inductive LoopPc :=
| Session (started : Z) (calls : CallsPc)
| TearingDown (at_ : Z)
| BackingOff (delay : Z)
| Done (r : result unit LoopError).
Record Loop := { pc : LoopPc; consecutive_flaps : Z; acts : list Act }.

(** The clock readings and the jitter sample that go with an event. *)
Record Tick := { instant : Z; now_unix : Z; rand01 : F }.
Inductive Event :=
| Calls (e : CallsEvent)
| PumpEnded (pumped : result unit BoxError) (recorded : option GrantEnd)
| OwnExpired
| TornDown
| Slept.

Definition retry_backoff : Z := 200 * MILLI.
Definition did (l : list Act) (s : Loop) : Loop := {| pc := pc s; consecutive_flaps := consecutive_flaps s; acts := acts s ++ l |}.
Definition at_pc (p : LoopPc) (s : Loop) : Loop := {| pc := p; consecutive_flaps := consecutive_flaps s; acts := acts s |}.

(** The head of the loop: a fresh session, unless the own grant is over. *)
Definition loop_top (t : Tick) (s : Loop) : Loop :=
  match own_expires_at with
  | Some at_ =>
      if at_ <=? now_unix t then at_pc (Done (Err (OwnGrantEnds (expired_reason at_)))) s
      else did [Began] (at_pc (Session (instant t) Receiving) s)
  | None => did [Began] (at_pc (Session (instant t) Receiving) s)
  end.
Definition not_reconnecting : string :=
  ("ct-agent channel --call-service " +:+ slug
   +:+ " (persistent): session ended, CT_CHANNEL_CALL_RECONNECT=0 -- not reconnecting (#47)")%string.
(** After a session that did not end by the end of stdin. *)
Definition redial (t : Tick) (started : Z) (s : Loop) : Loop :=
  if negb call_reconnect then at_pc (Done (Err (NotReconnecting not_reconnecting))) s
  else
    let flaps := if is_flapping_session (instant t - started) true then wrap 32 (consecutive_flaps s + 1) else 0 in
    {| pc := BackingOff (equal_jitter (flapping_session_backoff retry_backoff flaps) (rand01 t)); consecutive_flaps := flaps; acts := acts s |}.
Definition own_reason (t : Tick) (pumped : result unit BoxError) (recorded : option GrantEnd) : option string :=
  match recorded with
  | Some {| scope := Own; reason := r |} => Some r
  | _ => match pumped with Err e => own_grant_refusal e own_expires_at (now_unix t) | Ok _ => None end
  end.

Definition loop_event (t : Tick) (e : Event) (s : Loop) : option Loop :=
  match pc s, e with
  | Session started calls, Calls ce =>
      let? (l, next) := calls_event ce calls in
      let s := did l s in
      Some (match next with
            | inl calls => at_pc (Session started calls) s
            | inr (Ok _) => at_pc (Done (Ok tt)) s
            | inr (Err _) => redial t started s
            end)
  | Session started _, PumpEnded pumped recorded =>
      Some (match own_reason t pumped recorded with
            | Some reason => at_pc (Done (Err (OwnGrantEnds reason))) s
            | None => redial t started s
            end)
  | Session _ _, OwnExpired => let? at_ := own_expires_at in Some (at_pc (TearingDown at_) s)
  | TearingDown at_, TornDown => Some (at_pc (Done (Err (OwnGrantEnds (expired_reason at_)))) s)
  | BackingOff _, OwnExpired => let? at_ := own_expires_at in Some (at_pc (Done (Err (OwnGrantEnds (expired_reason at_)))) s)
  | BackingOff _, Slept => Some (loop_top t s)
  | _, _ => None
  end.
Definition start (t : Tick) : Loop := loop_top t {| pc := BackingOff 0; consecutive_flaps := 0; acts := [] |}.
Fixpoint run_loop (es : list (Tick * Event)) (s : Loop) : option Loop :=
  match es with
  | [] => Some s
  | (t, e) :: es => let? s := loop_event t e s in run_loop es s
  end.

(** ** What was said for which line *)

Definition asked (input : string) : list Act := [Took input; Asked (encode_request 1 "tools/call" (call_params slug input))].
(** A line, the call for it, the peer's answer to it, the whole line of the envelope with its output. *)
Definition answered (l : list Act) : Prop := exists input r o pieces,
  answer r = Ok o /\ concat pieces = envelope_line (ok_envelope o) /\ l = asked input ++ Got r :: map Put pieces.
(** How a session may break off: between calls, during one, or with a part of the line that tells
    how the call ended -- of the peer's output, or of its failure. *)
Definition verdict (r : result (list byte) string) : string :=
  match answer r with Ok o => ok_envelope o | Err e => error_envelope e end.
Definition broken_off (l : list Act) : Prop := l = [] \/ exists input, l = asked input \/
  exists r pieces, l = asked input ++ Got r :: map Put pieces /\ concat pieces `prefix_of` envelope_line (verdict r).
Definition session_acts (l : list Act) : Prop := exists rounds tail, l = Began :: concat rounds ++ tail /\ Forall answered rounds /\ broken_off tail.

(** The acts of the running session after its last complete round. *)
Definition open_acts (calls : CallsPc) (tail : list Act) : Prop :=
  match calls with
  | Receiving => tail = []
  | Calling input => tail = asked input
  | Writing todo failed => exists input r pieces, tail = asked input ++ Got r :: map Put pieces /\
      concat pieces ++ todo = envelope_line (verdict r) /\
      match failed with None => is_ok (answer r) = true | Some e => answer r = Err e end
  | Flushing None => tail = []
  | Flushing (Some _) => broken_off tail
  end.
Definition acts_inv (s : Loop) : Prop := exists sessions, Forall session_acts sessions /\
  match pc s with
  | Session _ calls => exists rounds tail, acts s = concat sessions ++ Began :: concat rounds ++ tail /\ Forall answered rounds /\ open_acts calls tail
  | _ => acts s = concat sessions
  end.

Lemma open_broken_off calls tail : open_acts calls tail -> broken_off tail.
Proof.
  unfold open_acts, broken_off. destruct calls as [|i|todo failed|[e|]]; [by left| | |done|by left].
  - intros ->. right. exists i. by left.
  - intros (i & r & pieces & -> & E & _). right. exists i. right. exists r, pieces. split; [done|]. by eexists.
Qed.
Lemma concat_snoc {A} (ls : list (list A)) l : concat (ls ++ [l]) = concat ls ++ l.
Proof. by rewrite concat_app; cbn [concat]; rewrite app_nil_r. Qed.
Lemma close_session s started calls p flaps : acts_inv s -> pc s = Session started calls ->
  (forall a b, p <> Session a b) -> acts_inv {| pc := p; consecutive_flaps := flaps; acts := acts s |}.
Proof.
  intros (ss & Hs & Hp) E Hn. rewrite E in Hp. destruct Hp as (rounds & tail & Ea & Hr & Ho).
  exists (ss ++ [Began :: concat rounds ++ tail]). split.
  - apply Forall_app; split; [done|]. constructor; [|constructor]. exists rounds, tail. by apply open_broken_off in Ho.
  - cbn [pc acts]. rewrite concat_snoc. by destruct p; try (by destruct (Hn _ _ eq_refl)).
Qed.
Lemma redial_inv t s started calls : acts_inv s -> pc s = Session started calls -> acts_inv (redial t started s).
Proof. intros Hi E. unfold redial, at_pc. destruct call_reconnect; cbn [negb]; by eapply close_session. Qed.

(** One turn of [write_all]. *)
Lemma write_all_acts todo failed r l next rounds tail : write_all todo failed r = Some (l, next) ->
  open_acts (Writing todo failed) tail -> Forall answered rounds ->
  exists rounds' tail', Forall answered rounds' /\ concat rounds ++ tail ++ l = concat rounds' ++ tail' /\
    match next with inl calls' => open_acts calls' tail' | inr _ => broken_off tail' end.
Proof.
  intros E Ho Hr. pose proof (open_broken_off _ _ Ho) as Hb.
  assert (forall e, Some (write_failed failed e) = Some (l, next) ->
    exists rounds' tail', Forall answered rounds' /\ concat rounds ++ tail ++ l = concat rounds' ++ tail' /\
      match next with inl calls' => open_acts calls' tail' | inr _ => broken_off tail' end) as Hfail.
  { intros e H'. exists rounds, tail. destruct failed; injection H' as <- <-; by rewrite app_nil_r. }
  unfold write_all in E. destruct r as [[|n]|e]; [by eapply Hfail| |by eapply Hfail].
  destruct (length todo <? S n)%nat eqn:En; [done|]. apply Nat.ltb_ge in En. injection E as <- <-.
  destruct Ho as (i & r & pieces & -> & Ec & Hf).
  assert (concat (pieces ++ [take (S n) todo]) ++ drop (S n) todo = envelope_line (verdict r)) as Ec'
    by (by rewrite concat_snoc, <-app_assoc, take_drop).
  assert ((asked i ++ Got r :: map Put pieces) ++ [Put (take (S n) todo)] = asked i ++ Got r :: map Put (pieces ++ [take (S n) todo])) as El
    by by rewrite <-app_assoc, map_app.
  rewrite El. destruct (length todo =? S n)%nat eqn:Ed.
  - apply Nat.eqb_eq in Ed. rewrite (drop_ge todo) in Ec' by lia. rewrite app_nil_r in Ec'. destruct failed as [e|].
    + exists rounds. eexists. split; [done|]. split; [reflexivity|]. right. exists i. right. exists r, (pieces ++ [take (S n) todo]).
      split; [done|]. by rewrite Ec'.
    + unfold verdict in Ec'. destruct (answer r) as [o|] eqn:Ea; [|done].
      exists (rounds ++ [asked i ++ Got r :: map Put (pieces ++ [take (S n) todo])]), []. split.
      * apply Forall_app; split; [done|]. constructor; [|constructor]. by exists i, r, o, (pieces ++ [take (S n) todo]).
      * by rewrite concat_snoc, app_nil_r.
  - exists rounds. eexists. split; [done|]. split; [reflexivity|]. by exists i, r, (pieces ++ [take (S n) todo]).
Qed.
(** The acts of the calls, from one await to the next. *)
Lemma calls_event_acts e calls l next rounds tail : calls_event e calls = Some (l, next) -> open_acts calls tail -> Forall answered rounds ->
  exists rounds' tail', Forall answered rounds' /\ concat rounds ++ tail ++ l = concat rounds' ++ tail' /\
    match next with inl calls' => open_acts calls' tail' | inr _ => broken_off tail' end.
Proof.
  intros E Ho Hr. pose proof (open_broken_off _ _ Ho) as Hb.
  destruct calls as [|i|todo failed|[f|]], e as [[x|]|r|r|[u|w]]; try done; cbn [calls_event] in E.
  - destruct (is_empty (trim x)); injection E as <- <-; cbn in Ho; subst tail; exists rounds; eexists; (split; [done|]); (split; [reflexivity|]); done.
  - injection E as <- <-. exists rounds, tail. by rewrite app_nil_r.
  - injection E as <- <-. cbn in Ho. subst tail. exists rounds. eexists. split; [done|]. split; [reflexivity|].
    assert (open_acts (Writing (envelope_line (verdict r)) (match answer r with Ok _ => None | Err e => Some e end)) (asked i ++ [Got r])) as Hw
      by (exists i, r, []; split; [done|]; split; [done|]; by destruct (answer r)).
    unfold verdict in Hw. by destruct (answer r).
  - by eapply write_all_acts.
  - injection E as <- <-. exists rounds, tail. by rewrite app_nil_r.
  - injection E as <- <-. exists rounds, tail. by rewrite app_nil_r.
  - injection E as <- <-. exists rounds, tail. by rewrite app_nil_r.
  - injection E as <- <-. exists rounds, tail. by rewrite app_nil_r.
Qed.
Lemma loop_top_inv t s : acts_inv s -> (forall a b, pc s <> Session a b) -> acts_inv (loop_top t s).
Proof.
  intros (ss & Hs & Hp) Hn. assert (acts s = concat ss) as Ea by (destruct (pc s); try done; by destruct (Hn _ _ eq_refl)).
  unfold loop_top. destruct own_expires_at as [at_|]; [destruct (at_ <=? now_unix t)|]; exists ss; (split; [done|]);
    cbn [pc acts at_pc did]; [done|..]; exists [], []; by rewrite Ea.
Qed.
Lemma loop_event_inv t e s s' : acts_inv s -> loop_event t e s = Some s' -> acts_inv s'.
Proof.
  intros Hi. unfold loop_event. destruct (pc s) as [started calls|at_|delay|r] eqn:Ep, e as [ce|pumped recorded| | |]; try done.
  - destruct (calls_event ce calls) as [[l next]|] eqn:Ec; [|done]. intros [= <-].
    pose proof Hi as (ss & Hs & Hp). rewrite Ep in Hp. destruct Hp as (rounds & tail & Ea & Hr & Ho).
    destruct (calls_event_acts _ _ _ _ _ _ Ec Ho Hr) as (rounds' & tail' & Hr' & E' & Hn).
    assert (acts s ++ l = concat ss ++ Began :: concat rounds' ++ tail') as El by (rewrite Ea, <-E', <-!app_assoc; cbn [app]; by rewrite <-!app_assoc).
    assert (forall p flaps, (forall a b, p <> Session a b) -> broken_off tail' -> acts_inv {| pc := p; consecutive_flaps := flaps; acts := acts s ++ l |}) as Hclose.
    { intros p flaps Hp Hb. exists (ss ++ [Began :: concat rounds' ++ tail']). split.
      - apply Forall_app; split; [done|]. constructor; [by exists rounds', tail'|constructor].
      - cbn [pc acts]. rewrite concat_snoc, El. by destruct p; try (by destruct (Hp _ _ eq_refl)). }
    destruct next as [calls'|[u|w]]; [|by apply Hclose|].
    + exists ss. split; [done|]. cbn [pc acts at_pc did]. by exists rounds', tail'.
    + unfold redial. destruct call_reconnect; cbn [negb]; by apply Hclose.
  - intros [= <-]. destruct (own_reason t pumped recorded); [by eapply close_session|by eapply redial_inv].
  - destruct own_expires_at; intros [= <-]. by eapply close_session.
  - intros [= <-]. destruct Hi as (ss & Hs & Hp). rewrite Ep in Hp. by exists ss.
  - destruct own_expires_at; intros [= <-]. destruct Hi as (ss & Hs & Hp). rewrite Ep in Hp. by exists ss.
  - intros [= <-]. apply loop_top_inv; [done|by rewrite Ep].
Qed.
Lemma loop_start_inv t : acts_inv (start t).
Proof. apply loop_top_inv; [|done]. exists []. by split. Qed.
Lemma run_loop_inv es s s' : acts_inv s -> run_loop es s = Some s' -> acts_inv s'.
Proof.
  revert s. induction es as [|[t e] es IH]; intros s Hi; [by intros [= <-]|]. cbn [run_loop].
  destruct (loop_event t e s) as [s1|] eqn:E; [|done]. apply IH. by eapply loop_event_inv.
Qed.

(** C27: No answer is ever given for another line: all that is written to stdout are sessions, each of
    rounds -- a line taken, its request, the peer's answer to it, the whole line of the envelope with
    that answer's output -- and at most one more line of input at its end, for which nothing is
    written, or all or the first bytes of the envelope that tells how that very call ended: with the
    peer's output, or, written by the agent itself, with its failure. *)
Theorem persistent_caller_answers_in_order es t s : run_loop es (start t) = Some s ->
  exists sessions, acts s = concat sessions /\ Forall session_acts sessions.
Proof.
  intros Hr. destruct (run_loop_inv _ _ _ (loop_start_inv t) Hr) as (ss & Hs & Hp).
  destruct (pc s) as [started calls|at_|d|r]; [|by exists ss..]. destruct Hp as (rounds & tail & Ea & Hrs & Ho).
  exists (ss ++ [Began :: concat rounds ++ tail]). rewrite concat_snoc. split; [done|]. apply Forall_app. split; [done|].
  constructor; [|constructor]. exists rounds, tail. by apply open_broken_off in Ho.
Qed.

(** ** How it ends *)

Lemma run_loop_snoc es te s : run_loop (es ++ [te]) s = (let? s1 := run_loop es s in loop_event te.1 te.2 s1).
Proof.
  revert s. induction es as [|[t e] es IH]; intros s; cbn [app run_loop]; [destruct te as [t e]; cbn; by destruct (loop_event t e s)|].
  destruct (loop_event t e s); [apply IH|done].
Qed.
(** Why the last event [e] ended the loop with [r]. *)
Definition ended_for (t : Tick) (e : option Event) (r : result unit LoopError) : Prop :=
  match r with
  | Ok _ => e = Some (Calls (Line None))
  | Err (NotReconnecting _) => call_reconnect = false
  | Err (OwnGrantEnds reason) =>
      (exists at_, own_expires_at = Some at_ /\ reason = expired_reason at_ /\ (at_ <= now_unix t \/ e = Some OwnExpired \/ e = Some TornDown)) \/
      (exists pumped recorded, e = Some (PumpEnded pumped recorded) /\ own_reason t pumped recorded = Some reason)
  end.
Lemma loop_top_ended t e s r : pc (loop_top t s) = Done r -> ended_for t e r.
Proof.
  unfold loop_top. destruct own_expires_at as [at_|] eqn:Eo; [|done]. destruct (at_ <=? now_unix t) eqn:E; [|done].
  intros [= <-]. left. exists at_. split; [exact Eo|]. split; [done|]. left. lia.
Qed.
Lemma redial_ended t e started s r : pc (redial t started s) = Done r -> ended_for t e r.
Proof. unfold redial. destruct call_reconnect eqn:E; cbn [negb]; [done|]. intros [= <-]. exact E. Qed.
Lemma calls_end_ok e calls l u : calls_event e calls = Some (l, inr (Ok u)) -> e = Line None.
Proof.
  destruct calls as [|i|todo failed|[f|]], e as [[x|]|r|r|[v|w]]; cbn [calls_event]; try done; [by destruct (is_empty _)|].
  unfold write_all, write_failed. destruct r as [[|n]|e]; [by destruct failed|by destruct (_ <? _)%nat|by destruct failed].
Qed.
Lemma teardown_start t s at_ : pc (loop_top t s) = TearingDown at_ -> False.
Proof. unfold loop_top. destruct own_expires_at as [x|]; [by destruct (x <=? now_unix t)|done]. Qed.
Lemma teardown_event t e s s' at_ : loop_event t e s = Some s' -> pc s' = TearingDown at_ -> own_expires_at = Some at_.
Proof.
  unfold loop_event, redial. destruct (pc s) as [started calls|at'|delay|r'], e as [ce|pumped recorded| | |]; try done.
  - destruct (calls_event ce calls) as [[l [calls'|[u|w]]]|]; intros [= <-]; [done|done|by destruct call_reconnect].
  - intros [= <-]. destruct (own_reason t pumped recorded); [done|by destruct call_reconnect].
  - destruct own_expires_at; intros [= <-]. by intros [= <-].
  - by intros [= <-].
  - by destruct own_expires_at; intros [= <-].
  - intros [= <-] []%teardown_start.
Qed.
Lemma teardown_reached es t0 s at_ : run_loop es (start t0) = Some s -> pc s = TearingDown at_ -> own_expires_at = Some at_.
Proof.
  destruct es as [|[t e] es _] using rev_ind; [intros [= <-] []%teardown_start|]. rewrite run_loop_snoc.
  destruct (run_loop es (start t0)) as [s1|]; [|done]. apply teardown_event.
Qed.

(** The persistent caller ends only for the end of stdin, for this member's own grant -- expired
    by its clock, or ended as the session's gate recorded or the edge's refusal says -- or, with
    reconnecting switched off, with the session; whatever else ends a session, it redials. *)
Theorem persistent_caller_ends_for_cause es t0 t e s s' r : run_loop es (start t0) = Some s ->
  loop_event t e s = Some s' -> pc s' = Done r -> ended_for t (Some e) r.
Proof.
  intros Hr. unfold loop_event. destruct (pc s) as [started calls|at_|delay|r'] eqn:Ep, e as [ce|pumped recorded| | |]; try done.
  - destruct (calls_event ce calls) as [[l [calls'|[u|w]]]|] eqn:Ec; intros [= <-] Hd; [done| |by eapply redial_ended].
    injection Hd as <-. cbn. by apply calls_end_ok in Ec as ->.
  - destruct (own_reason t pumped recorded) as [reason|] eqn:Eo; intros [= <-] Hd; [|by eapply redial_ended].
    injection Hd as <-. right. eauto.
  - destruct own_expires_at; [|done]. by intros [= <-].
  - intros [= <-] [= <-]. left. exists at_. split; [by eapply teardown_reached|]. auto.
  - destruct own_expires_at as [at_|] eqn:Eo; intros [= <-] [= <-]. left. exists at_. auto.
  - intros [= <-]. apply loop_top_ended.
Qed.

(** The wait before a redial: at most ten seconds, at least a tenth of one. *)
Lemma flap_wait `{!JitterLaws F} flaps (r : F) : 0 <= flaps ->
  100 * MILLI <= equal_jitter (flapping_session_backoff retry_backoff flaps) r <= 10 * SECOND.
Proof.
  intros Hf. unfold flapping_session_backoff.
  rewrite capped_mul by (unfold retry_backoff, MILLI, DURATION_MAX, FLAPPING_SESSION_BACKOFF_CAP, SECOND; lia).
  set (c := Z.min (retry_backoff * 2 ^ Z.min flaps 16) FLAPPING_SESSION_BACKOFF_CAP). assert (200 * MILLI <= c <= 10 * SECOND) as Hb.
  { unfold c, retry_backoff, FLAPPING_SESSION_BACKOFF_CAP, MILLI, SECOND. assert (1 <= 2 ^ Z.min flaps 16) by (pose proof (Z.pow_pos_nonneg 2 (Z.min flaps 16)); lia). lia. }
  assert (c / 2 <= equal_jitter c r <= c) by (apply equal_jitter_range; unfold SECOND, MILLI in Hb; lia).
  assert (100 * MILLI <= c / 2) by (apply Z.div_le_lower_bound; unfold MILLI in *; lia). lia.
Qed.
Lemma redial_waits `{!JitterLaws F} t started s delay : 0 <= consecutive_flaps s -> pc (redial t started s) = BackingOff delay ->
  100 * MILLI <= delay <= 10 * SECOND.
Proof.
  intros Hc. unfold redial. destruct call_reconnect; cbn [negb]; [|done]. intros [= <-]. apply flap_wait.
  unfold wrap. case_match; [|done]. apply Z.mod_pos_bound. lia.
Qed.

(** ** A line that gets no answer *)

(** Each attempt takes the next line while it is still being admitted, and drops it when the
    admission fails: a line that arrives while the peer is away is lost without an envelope. *)
Definition failing_attempt (t : Tick) (e : BoxError) (line : string) : list (Tick * Event) :=
  [(t, Calls (Line (Some line))); (t, PumpEnded (Err e) None); (t, Slept)].
Lemma failing_attempts_lose_lines t e lines s started :
  call_reconnect = true -> own_expires_at = None -> own_grant_refusal e None (now_unix t) = None ->
  Forall (fun l => trim l <> EmptyString) lines -> pc s = Session started Receiving ->
  exists s' started', run_loop (concat (map (failing_attempt t e) lines)) s = Some s' /\ pc s' = Session started' Receiving /\
    acts s' = acts s ++ concat (map (fun l => asked (trim l) ++ [Began]) lines).
Proof.
  intros Hr Ho He Hl. revert s started. induction Hl as [|l lines Hl _ IH]; intros s started Hp; [exists s, started; by rewrite app_nil_r|].
  cbn [map concat failing_attempt app run_loop]. unfold loop_event at 1. rewrite Hp. cbn [calls_event]. unfold is_empty. rewrite (proj2 (String.eqb_neq _ _) Hl).
  unfold loop_event at 1. cbn [pc at_pc did]. unfold own_reason. rewrite Ho, He. unfold redial. rewrite Hr. cbn [negb].
  unfold loop_event at 1. cbn [pc]. unfold loop_top at 1. rewrite Ho.
  edestruct IH as (s' & st' & E & Hp' & Ha); [|exists s', st'; split; [exact E|]; split; [done|]]; [done|].
  rewrite Ha. cbn [acts did at_pc]. by rewrite <-!app_assoc.
Qed.
End Persistent.
End Calls.

(** ** Concrete runs *)

(** Replies as short texts: [out:] before an output, [safe] for a verdict; anything else is no JSON. *)
Definition demo_from_slice (body : list byte) : result Value string :=
  let s := String.string_of_list_byte body in
  match strip_prefix "out:" s with
  | Some o => Ok (fields [("result", fields [("output", Str o)])]%string)
  | None => if String.eqb s "safe" then Ok (fields [("ok", Bool true)]%string) else Err "expected value"%string
  end.
#[local] Instance demo_codec : CallCodec := { from_slice := demo_from_slice; encode_request := fun _ method _ => as_bytes method }.
#[local] Existing Instance demo_serde.

Definition demo_exchange (role : Role) (req : list byte) : result (list byte) string :=
  Ok (as_bytes match role with Safety => "out:safe" | Physics => "out:p" | Art => "out:a" end)%string.
Lemma crew_fails_closed_witness : exists asked : list (Role * list byte),
  crew_build_over (fun p a => Ok (p +:+ a)%string) "a ball" demo_exchange ["alice"%string] = (asked, Ok (Built "pa"%string ["alice"%string])) /\
  length asked = 3%nat /\ safe "a ball" demo_exchange.
Proof.
  destruct (crew_build_over (fun p a => Ok (p +:+ a)%string) "a ball" demo_exchange ["alice"%string]) as [asked r] eqn:E.
  pose proof (crew_fails_closed _ _ _ _ _ _ E) as [_ Hb].
  assert (r = Ok (Built "pa"%string ["alice"%string])) as -> by (vm_compute in E; by injection E as <- <-).
  exists asked. split; [reflexivity|]. split; [vm_compute in E; by injection E as <-|]. exact (proj1 (proj1 (Hb "pa"%string ["alice"%string]) eq_refl)).
Defined.

Definition demo_tick : Tick (F := Z) := {| instant := 0; now_unix := 100; rand01 := 0 |}.
Definition line (s : string) : Event := Calls (Line (Some s)).
(** One call answered, a line lost with its session, the next one answered by the second session. *)
Definition demo_events : list (Tick (F := Z) * Event) := map (pair demo_tick)
  [line " hello "; Calls (Reply (Ok (as_bytes "out:1"))); Calls (Wrote (Ok 10%nat)); Calls (Wrote (Ok 16%nat)); Calls (Flushed (Ok tt)); line "lost";
   PumpEnded (Ok tt) None; Slept; line "again"; Calls (Reply (Ok (as_bytes "out:2"))); Calls (Wrote (Ok 26%nat)); Calls (Flushed (Ok tt))].
Definition demo_loop : option Loop := run_loop "math" true (Some 200) demo_events (start (Some 200) demo_tick).

Lemma persistent_caller_answers_in_order_witness : exists s sessions, demo_loop = Some s /\ acts s = concat sessions /\
  length (List.filter (fun a => match a with Put _ => true | _ => false end) (acts s)) = 3%nat /\
  length (List.filter (fun a => match a with Took _ => true | _ => false end) (acts s)) = 3%nat.
Proof.
  destruct demo_loop as [s|] eqn:E; [|vm_compute in E; discriminate]. exists s.
  destruct (persistent_caller_answers_in_order "math" true (Some 200) demo_events demo_tick s E) as (sessions & Ea & _).
  exists sessions. split; [reflexivity|]. split; [exact Ea|].
  vm_compute in E. injection E as <-. split; reflexivity.
Defined.
Lemma persistent_caller_ends_for_cause_witness : exists s s', demo_loop = Some s /\
  loop_event "math" true (Some 200) demo_tick (Calls (Line None)) s = Some s' /\ pc s' = Done (Ok tt) /\
  ended_for true (Some 200) demo_tick (Some (Calls (Line None))) (Ok tt).
Proof.
  destruct demo_loop as [s|] eqn:E; [|vm_compute in E; discriminate]. exists s.
  destruct (loop_event "math" true (Some 200) demo_tick (Calls (Line None)) s) as [s'|] eqn:E'; [|vm_compute in E; injection E as <-; vm_compute in E'; discriminate].
  exists s'. assert (pc s' = Done (Ok tt)) as Hd by (vm_compute in E; injection E as <-; vm_compute in E'; injection E' as <-; reflexivity).
  split; [reflexivity|]. split; [reflexivity|]. split; [exact Hd|].
  exact (persistent_caller_ends_for_cause "math" true (Some 200) demo_events demo_tick demo_tick (Calls (Line None)) s s' (Ok tt) E E' Hd).
Defined.
