(* ===== verification/AgentTools.v ===== *)
(** * AgentTools: what a served channel offers its peer ([channel_run/service_calls.rs])

    The grant tool and who may call it for which channel, the bridge tools of the one configured peer,
    which tools a serving process registers, the mode a session runs in, and the reply that goes back
    over the wire.  ct-common's tool registry only looks a handler up by its name, so a handler is a
    function of the caller and the arguments. *)
From S2P Require Import Prelude Text Codec EnvFlag CliConfig Json.
From S2P Require Grants GrantRevoke GrantWatch ManifestRun Login ForwardPolicy Events ServiceHandler.

#[local] Open Scope Z_scope.

(** [ct_common::mcp::CallContext]: the attested Noise key of the peer, where known. *)
Record CallContext := { peer : option (list byte) }.
Definition missing (field : string) : string := ("missing string field `" +:+ field +:+ "`")%string.
Definition obj (l : list (string * Value)) : Value := Object (list_to_map l).
Definition decode_hex_32_bridge_peer (s : string) : option (list byte) := hex_decode 32 s.

(** ** [channel/grant] *)

Definition GRANT_ISSUERS_ENV : string := "CT_CHANNEL_GRANT_ISSUERS".
Definition GRANT_ANY_ENV : string := "CT_CHANNEL_GRANT_ANY".
Record GrantIssuers := { allowed : list (list byte); invalid_entries : list string }.

(** [str::split] at commas and white space, with the empty pieces. *)
Fixpoint split_list (cur l : list ascii) : list (list ascii) :=
  match l with
  | [] => [cur]
  | a :: l1 =>
      if Ascii.eqb a "," || ws1 a then cur :: split_list [] l1
      else match l1 with
           | b :: l2 =>
               if ws2 a b then cur :: split_list [] l2
               else match l2 with
                    | c :: l3 => if ws3 a b c then cur :: split_list [] l3 else split_list (cur ++ [a]) l1
                    | [] => split_list (cur ++ [a]) l1
                    end
           | [] => split_list (cur ++ [a]) l1
           end
  end.
Definition list_entries (s : string) : list string :=
  filter (fun e => is_empty e = false) (map String.string_of_list_ascii (split_list [] (String.list_ascii_of_string s))).
Definition issuer_entry (e : string) (i : GrantIssuers) : GrantIssuers :=
  match decode_hex_32_bridge_peer e with
  | Some key => {| allowed := key :: allowed i; invalid_entries := invalid_entries i |}
  | None => {| allowed := allowed i; invalid_entries := e :: invalid_entries i |}
  end.
Definition issuers_from_lookup (f : Lookup) : GrantIssuers :=
  match (let? v := f GRANT_ISSUERS_ENV in if is_empty (trim v) then None else Some v) with
  | Some l => foldr issuer_entry {| allowed := []; invalid_entries := [] |} (list_entries l)
  | None =>
      {| allowed := match (let? v := f "CT_CHANNEL_BRIDGE_PEER"%string in decode_hex_32_bridge_peer (trim v)) with Some k => [k] | None => [] end;
         invalid_entries := [] |}
  end.
Definition issuers_check (i : GrantIssuers) (caller : option (list byte)) : result unit string :=
  match allowed i with
  | [] => Err ("channel/grant: no grant issuer is configured on this agent -- set " +:+ GRANT_ISSUERS_ENV
               +:+ " (the Noise public keys allowed to issue grants) or CT_CHANNEL_BRIDGE_PEER")%string
  | _ =>
      let refused := Err ("channel/grant: caller is not an authorized grant issuer (" +:+ GRANT_ISSUERS_ENV +:+ ")")%string in
      match caller with
      | Some p => if bool_decide (p ∈ allowed i) then Ok tt else refused
      | None => refused
      end
  end.

Record GrantScope := { own_channel : option (list byte); any_channel : bool }.
Definition hex_prefix (id : list byte) : string := hex_encode (take 4 id).

Section GrantTool.
Context `{Grants.ChannelCodec}.

(** The first of the two variables that is set at all, else the channel of this member's own grant. *)
Definition scope_from_lookup (f : Lookup) : GrantScope :=
  let first := match f "CT_CHANNEL_ID"%string with Some v => Some v | None => f "CT_GRANT_CHANNEL"%string end in
  {| own_channel :=
       match (let? v := first in decode_hex_32_bridge_peer (trim v)) with
       | Some ch => Some ch
       | None =>
           let? v := f "CT_CHANNEL_GRANT"%string in
           let? bytes := hex_bytes v in
           match Grants.decode bytes with Ok g => Some (Grants.channel (Grants.grant g)) | Err _ => None end
       end;
     any_channel :=
       match option_map trim (f GRANT_ANY_ENV) with
       | Some s => String.eqb s "1" || eq_ignore_ascii_case s "true" || eq_ignore_ascii_case s "yes"
       | None => false
       end |}.
Definition scope_check (s : GrantScope) (requested_hex : string) : result unit string :=
  if any_channel s then Ok tt
  else
    let* own := ok_or (own_channel s)
      ("channel/grant: grant issuance needs CT_CHANNEL_ID (or CT_GRANT_CHANNEL, or this member's "
       +:+ "own CT_CHANNEL_GRANT) set on this agent -- it only issues grants for its own channel (ct-agent#174)")%string in
    let* requested := ok_or (decode_hex_32_bridge_peer (trim requested_hex))
      "channel/grant: `channel` must be exactly 64 hex characters"%string in
    if bool_decide (requested = own) then Ok tt
    else Err ("channel/grant: this agent only issues grants for its own channel " +:+ hex_prefix own +:+ "... (requested "
              +:+ hex_prefix requested +:+ "...) (ct-agent#174)")%string.

(** The handler of the tool; [now]: the clock. *)
Definition field (args : Value) (name : string) : result string string := ok_or (get_str args name) (missing name).
Definition grant_tool (operator : list byte) (scope : GrantScope) (issuers : GrantIssuers) (now : Z)
  (ctx : CallContext) (args : Value) : result Value string :=
  let* _ := issuers_check issuers (peer ctx) in
  let* channel := field args "channel" in
  let* _ := scope_check scope channel in
  let* holder := field args "holder" in
  let* direction := field args "direction" in
  let* expires_in := field args "expires_in" in
  let* grant := Grants.issue_grant_from_fields operator channel holder direction expires_in now in
  Ok (obj [("grant", Str grant)]%string).
End GrantTool.

(** ** The bridge tools *)

(** What is read only to be reported: the summary of the configuration, and the registry's list. *)
Definition is_set (f : Lookup) (k : string) : bool := match f k with Some _ => true | None => false end.
Definition not_blank (f : Lookup) (k : string) : bool := match f k with Some v => negb (is_empty (trim v)) | None => false end.
Definition str_or_null (o : option string) : Value := match o with Some s => Str s | None => Null end.
Definition MASQUE_VARS : list string :=
  ["CT_AGENT_MASQUE_PROXY"; "CT_AGENT_MASQUE_SNI_HOST"; "CT_AGENT_MASQUE_TARGET"; "CT_AGENT_MASQUE_TOKEN"].
Definition bridge_config_summary (f : Lookup) (oidc : Login.OidcCredentialState) (docker_on_path : bool) : Value :=
  obj [("role", str_or_null (f "CT_CHANNEL_ROLE"));
       ("broker", str_or_null (f "CT_CHANNEL_BROKER"));
       ("relay", str_or_null (f "CT_CHANNEL_RELAY"));
       ("direct_upgrade", Bool (is_set f "CT_CHANNEL_DIRECT_UPGRADE"));
       ("masque_fallback_configured", Bool (forallb (is_set f) MASQUE_VARS));
       ("grant_issuance_configured", Bool (is_set f "CT_CHANNEL_OPERATOR_KEY"));
       ("manifest_registry_configured", Bool (is_set f "CT_MANIFEST_REGISTRY_URL"));
       ("manifest_install_disabled", Bool (is_set f "CT_CHANNEL_BRIDGE_DISABLE_MANIFEST_INSTALL"));
       ("cp_url_configured", Bool (not_blank f "CT_AGENT_CP_URL"));
       ("channel_id_configured", Bool (is_set f "CT_CHANNEL_ID" || is_set f "CT_GRANT_CHANNEL"));
       ("oidc_credential", Str (Login.state_str oidc));
       ("manifest_trust_allowlist_configured",
        Bool (is_set f "CT_MANIFEST_TRUST_ALLOWLIST" || is_set f "CT_MANIFEST_TRUST_ALLOWLIST_FILE"));
       ("manifest_work_dir_configured", Bool (is_set f "CT_MANIFEST_WORK_DIR"));
       ("docker_available", Bool docker_on_path)]%string.
(** [split_paths] of [PATH] on Unix. *)
Definition docker_on_path (path : option string) (is_file : string -> bool) : bool :=
  match path with
  | Some p => existsb (fun dir => is_file (Events.path_join dir "docker")) (split_char ":" p)
  | None => false
  end.
Definition enriched (registry_url : string) (entry : Value) : Value :=
  match entry with
  | Object m =>
      match get_str (Object m) "manifest_id", m !! "manifest_url"%string with
      | Some id, None => Object (<["manifest_url"%string := Str (registry_url +:+ "/manifests/" +:+ id)]> m)
      | _, _ => Object m
      end
  | other => other
  end%string.
Definition enrich_manifest_list (registry_url : string) (body : Value) : Value :=
  obj [("registry_url", Str registry_url);
       ("manifests", match body with Array l => Array (map (enriched registry_url) l) | other => other end)]%string.

(** The answer to a GET: none or an error status, a body that is not JSON, or its JSON. *)
Inductive Fetched := Refused (e : string) | NotJson (e : string) | Fetched_ (v : Value).
Definition fetched_json (prefix : string) (r : Fetched) : result Value string :=
  match r with
  | Refused e => Err (prefix +:+ e)%string
  | NotJson e => Err (prefix +:+ "invalid JSON response: " +:+ e)%string
  | Fetched_ v => Ok v
  end.
(** The calls of ct-control-plane's client on an allow-list. *)
Inductive AllowlistCall := ListEmails | AddEmail (email : string) | RemoveEmail (email : string).
(** What a call does outside. *)
Inductive Act :=
| AskedToken                                              (** the bearer, [Login.resolve_oidc_token_with_retry] *)
| Get (url : string) (bearer : option string)
| Posted (p : GrantRevoke.Post)
| Client (cp_url channel token : string) (c : AllowlistCall)
| Activation (a : ManifestRun.Act)
| Traced (tool : string) (ok : bool).

Section Bridge.
Context `{Grants.ChannelCodec} `{ManifestRun.ManifestCore}.
(** The process's environment, and what answers from outside: the login, the network, the installer on
    the disk, serde. *)
Context (env : Lookup) (token : result string string) (get : string -> option string -> Fetched)
  (client : string -> string -> string -> AllowlistCall -> result (list string) string) (control_plane : GrantRevoke.ControlPlane)
  (WIRE_LEN : nat) (sha256 : list byte -> list byte) (answer_json : string -> result (option bool * option bool) string)
  (engine : ManifestRun.ActivateOptions -> ManifestRun.Disk -> ManifestRun.Disk * option ManifestRun.InstallReport)
  (send : ManifestRun.Outside) (now later : option Z)
  (fetch_manifest : string -> result ManifestRun.ServiceManifest string) (read_file : string -> result string string)
  (report_value : ManifestRun.InstallReport -> result Value string) (plan_value : ManifestRun.Plan -> result Value string)
  (oidc : Login.OidcCredentialState) (docker : bool).

(** A handler: the disk, what it does, its answer. *)
Definition Handler : Type := CallContext -> Value -> ManifestRun.Disk -> ManifestRun.Disk * list Act * result Value string.
Definition bridge_traced (tool : string) (h : Handler) : Handler := fun ctx args d =>
  let '(d, acts, out) := h ctx args d in (d, acts ++ [Traced tool (is_ok out)], out).
(** The guard every handler begins with. *)
Definition gated (tool : string) (bridge_peer : list byte) (h : Value -> ManifestRun.Disk -> ManifestRun.Disk * list Act * result Value string)
  : Handler := fun ctx args d =>
  if negb (bool_decide (peer ctx = Some bridge_peer)) then
    (d, [], Err (tool +:+ ": caller is not this agent's configured bridge peer")%string)
  else h args d.
(** A handler that leaves the disk alone. *)
Definition only (r : list Act * result Value string) (d : ManifestRun.Disk) : ManifestRun.Disk * list Act * result Value string :=
  (d, r.1, r.2).
(** [resolve_oidc_token_with_retry(..).await?], then the rest. *)
Definition with_token (k : string -> list Act * result Value string) : list Act * result Value string :=
  match token with
  | Ok t => let '(acts, r) := k t in (AskedToken :: acts, r)
  | Err e => ([AskedToken], Err e)
  end.

Definition bridge_status : Value := obj [("version", Str ManifestRun.version); ("bridge_gated", Bool true)]%string.

Definition OWN_CHANNEL : string := "64 hex channel id".
Definition own_channel_id : result (list byte) string := req_hex32_aliased env "CT_CHANNEL_ID" "CT_GRANT_CHANNEL" OWN_CHANNEL.
Definition channel_members : list Act * result Value string :=
  let prepared :=
    let* cp := ok_or (env "CT_AGENT_CP_URL"%string) "bridge/channel-members: this agent has no CT_AGENT_CP_URL configured"%string in
    let* ch := own_channel_id in Ok (ManifestRun.trim_slashes cp, hex_encode ch) in
  match prepared with
  | Err e => ([], Err e)
  | Ok (cp, ch) => with_token (fun token =>
      let url := (cp +:+ "/me/channels/" +:+ ch +:+ "/members")%string in
      ([Get url (Some token)], fetched_json ("GET .../channels/" +:+ ch +:+ "/members: ") (get url (Some token))))
  end.

Definition channel_revoke (args : Value) : list Act * result Value string :=
  let say e := ("bridge/channel-revoke: " +:+ e)%string in
  let prepared :=
    let* cp := ok_or (env "CT_AGENT_CP_URL"%string) (say "this agent has no CT_AGENT_CP_URL configured"%string) in
    let* own := own_channel_id in
    let* hex := ok_or (get_str args "grant") (say "argument `grant` (hex) is required"%string) in
    let* g := map_err say (GrantRevoke.decode_grant_hex WIRE_LEN hex) in
    if bool_decide (Grants.channel (Grants.grant g) = own) then Ok (cp, g)
    else Err (say "that grant belongs to another channel than this agent's own"%string) in
  match prepared with
  | Err e => ([], Err e)
  | Ok (cp, g) => with_token (fun token =>
      let '(posts, r) := GrantRevoke.revoke_as_owner sha256 answer_json control_plane cp token g in
      (map Posted posts,
       let* out := r in
       Ok (obj [("revoked", Bool true); ("already", Bool (GrantWatch.already out));
                ("grant_digest", Str (hex_encode (GrantRevoke.grant_digest sha256 g)))]%string)))
  end.

Definition allowlist_call (c : AllowlistCall) (answer : list string -> Value) : list Act * result Value string :=
  with_token (fun token =>
    match Grants.allowlist_with_token env token with
    | Err e => ([], Err e)
    | Ok req =>
        ([Client (Grants.a_cp_url req) (Grants.a_channel_hex req) (Grants.a_token req) c],
         let* emails := client (Grants.a_cp_url req) (Grants.a_channel_hex req) (Grants.a_token req) c in Ok (answer emails))
    end).
Definition allowlist_list : list Act * result Value string :=
  allowlist_call ListEmails (fun emails => obj [("emails", Array (map Str emails))]%string).
Definition allowlist_add (args : Value) : list Act * result Value string :=
  match get_str args "email" with
  | None => ([], Err ("bridge/allowlist-add: " +:+ missing "email")%string)
  | Some email => allowlist_call (AddEmail email) (fun _ => obj [("allow_listed", Str email)]%string)
  end.
Definition allowlist_remove (args : Value) : list Act * result Value string :=
  match get_str args "email" with
  | None => ([], Err ("bridge/allowlist-remove: " +:+ missing "email")%string)
  | Some email => allowlist_call (RemoveEmail email) (fun _ => obj [("removed", Str email)]%string)
  end.

Definition manifest_list : list Act * result Value string :=
  match env "CT_MANIFEST_REGISTRY_URL"%string with
  | None => ([], Err "bridge/manifest-list: this agent has no CT_MANIFEST_REGISTRY_URL configured"%string)
  | Some u =>
      let registry := ManifestRun.trim_slashes u in
      let url := (registry +:+ "/manifests")%string in
      ([Get url None], let* body := fetched_json ("GET " +:+ url +:+ ": ") (get url None) in Ok (enrich_manifest_list registry body))
  end.

(** The caller's location and project; everything else from this agent's environment. *)
Definition chosen (tool : string) (args : Value) : result (string * string) string :=
  let* location := ok_or (get_str args "manifest_location") (tool +:+ ": " +:+ missing "manifest_location")%string in
  let* project := ok_or (get_str args "project_name") (tool +:+ ": " +:+ missing "project_name")%string in
  Ok (location, project).
Definition install_env (location project : string) : Lookup := fun k =>
  if String.eqb k "CT_MANIFEST_URL" then Some location
  else if String.eqb k "CT_MANIFEST_PROJECT_NAME" then Some project else env k.
Definition plan_env (location project : string) : Lookup := fun k =>
  if String.eqb k "CT_MANIFEST_COMPOSE_FILE" then None else install_env location project k.
Definition manifest_install (args : Value) (d : ManifestRun.Disk) : ManifestRun.Disk * list Act * result Value string :=
  match env "CT_CHANNEL_BRIDGE_DISABLE_MANIFEST_INSTALL"%string with
  | Some _ =>
      (d, [], Err ("bridge/manifest-install: disabled on this agent (CT_CHANNEL_BRIDGE_DISABLE_MANIFEST_INSTALL "
                   +:+ "is set) -- unset it locally to allow remote manifest installs again")%string)
  | None =>
      match (let* (location, project) := chosen "bridge/manifest-install" args in
             ManifestRun.activate_from_lookup (install_env location project)) with
      | Err e => (d, [], Err e)
      | Ok cfg =>
          let '(d, acts, r) := ManifestRun.run_activate engine send now later cfg d in
          (d, map Activation acts, let* a := r in Ok (ManifestRun.report_json_with_install_dir report_value a))
      end
  end.
Definition manifest_plan (args : Value) : list Act * result Value string :=
  ([], let* (location, project) := chosen "bridge/manifest-plan" args in
       let* cfg := ManifestRun.plan_from_lookup (plan_env location project) in
       let* planned := ManifestRun.run_plan_blocking fetch_manifest read_file now cfg in
       Ok (ManifestRun.plan_json_with_install_dir plan_value planned)).

(** [register_bridge_tools] with [register_bridge_manifest_plan_tool]: the handlers by name. *)
Definition bridge_bodies : list (string * (Value -> ManifestRun.Disk -> ManifestRun.Disk * list Act * result Value string)) :=
  [("bridge/status", fun _ => only ([], Ok bridge_status));
   ("bridge/config", fun _ => only ([], Ok (bridge_config_summary env oidc docker)));
   ("bridge/channel-members", fun _ => only channel_members);
   ("bridge/channel-revoke", fun args => only (channel_revoke args));
   ("bridge/allowlist-list", fun _ => only allowlist_list);
   ("bridge/allowlist-add", fun args => only (allowlist_add args));
   ("bridge/allowlist-remove", fun args => only (allowlist_remove args));
   ("bridge/manifest-list", fun _ => only manifest_list);
   ("bridge/manifest-install", manifest_install);
   ("bridge/manifest-plan", fun args => only (manifest_plan args))]%string.
Definition register_bridge_tools (bridge_peer : list byte) : list (string * Handler) :=
  map (fun '(tool, h) => (tool, bridge_traced tool (gated tool bridge_peer h))) bridge_bodies.
End Bridge.

(** ** What a serving process registers *)

Inductive Registration :=
| DefaultRegistry | RegistryWithCard (c : AgentCardCliConfig) | AuctionTools (o : AgentOfferCliConfig)
| ServiceTools (handler_cmd : string) (l : list ServiceType)
| GrantTool (operator : list byte) (s : GrantScope) (i : GrantIssuers) | BridgeTools (bridge_peer : list byte).
(** [Iterator::partition], in order. *)
Definition partition_by (p : ServiceType -> bool) (l : list ServiceType) : list ServiceType * list ServiceType :=
  (filter (fun s => p s = true) l, filter (fun s => p s = false) l).
Definition requested_services (f : Lookup) (offer : option AgentOfferCliConfig) : list ServiceType :=
  match f "CT_AGENT_SERVICES"%string with
  | Some s => omap (fun t => parse_service_type (trim t)) (split_char "," s)
  | None => match offer with Some c => services c | None => [] end
  end.
(** The services to register, and those refused loudly. *)
Definition served_services (f : Lookup) (offer : option AgentOfferCliConfig) : list ServiceType * list ServiceType :=
  let requested := requested_services f offer in
  match offer with
  | Some c => partition_by (fun s => bool_decide (s ∈ services c)) requested
  | None => (requested, [])
  end.
Definition offer_of (f : Lookup) : option AgentOfferCliConfig := match offer_from_lookup f with Ok c => Some c | Err _ => None end.

Section Serving.
Context `{Grants.ChannelCodec}.

Definition serve_registry (f : Lookup) : list Registration :=
  let base := match card_from_lookup f with Ok c => RegistryWithCard c | Err _ => DefaultRegistry end in
  let offer := offer_of f in
  base :: match offer with Some c => [AuctionTools c] | None => [] end
  ++ match f "CT_AGENT_SERVICE_HANDLER_CMD"%string with
     | Some cmd => match (served_services f offer).1 with [] => [] | l => [ServiceTools cmd l] end
     | None => []
     end
  ++ match Grants.operator_key_from_lookup f with
     | Ok operator => [GrantTool operator (scope_from_lookup f) (issuers_from_lookup f)]
     | Err _ => []
     end
  ++ match (let? raw := f "CT_CHANNEL_BRIDGE_PEER"%string in decode_hex_32_bridge_peer (trim raw)) with
     | Some p => [BridgeTools p]
     | None => []
     end.
End Serving.

(** ** The mode of a session *)

Inductive Mode :=
| ForwardInitiate (spec : result ForwardPolicy.ForwardSpec ForwardPolicy.SpecError) (max_streams idle : Z)
| ForwardAccept (allow non_loopback : option string) (max_streams idle : Z)
| CallServicePersistent (slug : string) | CallServiceOnce (slug : string)
| CallMethod (method : string) (params : Value)
| StreamHandler (cmd service : string) | ServeTools | Pipe.
Definition call_persistent_enabled_from (v : option string) : bool := flag v true.
Definition call_service_params_ignored_warning (params_env_is_set : bool) : option string :=
  if params_env_is_set then
    Some ("ct-agent channel: warning: CT_CHANNEL_CALL_PARAMS is set but CT_CHANNEL_CALL_SERVICE "
          +:+ "does not read it -- this mode takes its call input from stdin, not this variable "
          +:+ "(ct-agent#94). For a single params-driven call instead, use CT_CHANNEL_CALL=tools/call "
          +:+ "with CT_CHANNEL_CALL_PARAMS='{" +:+ quote +:+ "name" +:+ quote +:+ ":" +:+ quote +:+ "service/<slug>" +:+ quote +:+ ","
          +:+ quote +:+ "arguments" +:+ quote +:+ ":<params>}'.")%string
  else None.
(** [parse]: [serde_json::from_str]. *)
Definition channel_mode (parse : string -> result Value string) (f : Lookup) : Mode :=
  let max_streams := ForwardPolicy.max_streams_from_env (f "CT_CHANNEL_FORWARD_MAX_STREAMS"%string) in
  let idle := ForwardPolicy.idle_timeout_from_env (f "CT_CHANNEL_FORWARD_IDLE_SECS"%string) in
  match f "CT_CHANNEL_FORWARD"%string with
  | Some raw => ForwardInitiate (ForwardPolicy.parse_forward_spec raw) max_streams idle
  | None =>
      if ForwardPolicy.forward_allow_configured (f "CT_CHANNEL_FORWARD_ALLOW"%string) then
        ForwardAccept (f "CT_CHANNEL_FORWARD_ALLOW"%string) (f "CT_CHANNEL_FORWARD_ALLOW_NON_LOOPBACK"%string) max_streams idle
      else match f "CT_CHANNEL_CALL_SERVICE"%string, f "CT_CHANNEL_CALL"%string with
           | Some slug, _ =>
               if call_persistent_enabled_from (f "CT_CHANNEL_CALL_PERSISTENT"%string) then CallServicePersistent (trim slug)
               else CallServiceOnce (trim slug)
           | None, Some method =>
               CallMethod (trim method)
                 (match (let? s := f "CT_CHANNEL_CALL_PARAMS"%string in Some (parse s)) with Some (Ok v) => v | _ => Null end)
           | None, None =>
               if flag (f "CT_CHANNEL_SERVE"%string) false then
                 match f "CT_AGENT_STREAM_HANDLER_CMD"%string with
                 | Some cmd => StreamHandler cmd (default ""%string (f "CT_AGENT_STREAM_SERVICE"%string))
                 | None => ServeTools
                 end
               else Pipe
           end
  end.

(** ** The reply on the wire *)

Section Reply.
Context (parse_slice : list byte -> option Value) (to_vec : Value -> list byte) (MAX_MESSAGE_BYTES : Z).
Definition jsonrpc_error_for (request : list byte) (message : string) : list byte :=
  let id := default Null (let? v := parse_slice request in jget v "id") in
  to_vec (obj [("jsonrpc", Str "2.0"); ("id", id); ("error", obj [("code", Number (-32603)); ("message", Str message)])]%string).
(** [dispatched]: what the registry answered, [None] when the handler panicked. *)
Definition reply_for (request : list byte) (dispatched : option (list byte)) : list byte :=
  match dispatched with
  | Some resp =>
      if MAX_MESSAGE_BYTES <? Zlen resp then
        jsonrpc_error_for request ("response of " +:+ show (Zlen resp) +:+ " bytes exceeds the channel message ceiling ("
                                   +:+ show MAX_MESSAGE_BYTES +:+ " bytes)")%string
      else resp
  | None => jsonrpc_error_for request "tool handler panicked"%string
  end.
End Reply.

(** ** Whose grants *)

Section GrantTheorems.
Context `{Grants.ChannelCodec}.

Lemma issuers_check_Ok i caller : issuers_check i caller = Ok tt <-> exists p, caller = Some p /\ p ∈ allowed i.
Proof.
  unfold issuers_check. destruct (allowed i) as [|k l] eqn:E.
  { split; [done|]. by intros (p & _ & ?%elem_of_nil). }
  destruct caller as [p|]; [|split; [done|by intros (? & ? & _)]].
  destruct (bool_decide_reflect (p ∈ k :: l)); split; try done; [intros _; by exists p|by intros (? & [= <-] & ?)].
Qed.

Lemma scope_check_Ok s hex : scope_check s hex = Ok tt <->
  any_channel s = true \/ exists ch, own_channel s = Some ch /\ decode_hex_32_bridge_peer (trim hex) = Some ch.
Proof.
  unfold scope_check. destruct (any_channel s); [split; [by left|done]|].
  destruct (own_channel s) as [own|]; cbn [ok_or rbind]; [|split; [done|by intros [?|(? & ? & _)]]].
  destruct (decode_hex_32_bridge_peer (trim hex)) as [r|]; cbn [ok_or rbind]; [|split; [done|by intros [?|(? & _ & ?)]]].
  destruct (bool_decide_reflect (r = own)) as [->|Hne]; split; try done; [intros _; right; by exists own|].
  intros [?|(ch & [= ->] & [= ->])]; done.
Qed.

Lemma lower_visible s : forall_char visible (to_ascii_lowercase s) = true -> forall_char visible s = true.
Proof.
  unfold forall_char. induction s as [|a s IH]; [done|]. cbn. intros [Ha Hs]%andb_true_iff. rewrite (IH Hs), andb_true_r.
  unfold ascii_lower in Ha. destruct (is_ascii_upper a) eqn:E; [|done]. apply between_spec in E. apply between_spec. lia.
Qed.
Lemma hex_decode_visible n s l : hex_decode n s = Some l -> trim s = s.
Proof. intros [_ Hs]%hex_decode_iff. apply trim_visible, lower_visible. rewrite Hs. apply hex_visible. Qed.

(** A member gets a grant from the tool only as the configured issuer and only for this process's own
    channel: an answer means that the caller's attested key is one of the issuers, that the channel is the
    configured one -- or the deprecated override is on -- and that the answer is a grant signed by the
    operator for exactly this channel, holder, direction and time. *)
Theorem grant_tool_is_confined f operator now ctx args v : 0 <= now < U64_MAX ->
  grant_tool operator (scope_from_lookup f) (issuers_from_lookup f) now ctx args = Ok v ->
  exists p ch holder d secs hex, peer ctx = Some p /\ p ∈ allowed (issuers_from_lookup f) /\
    (any_channel (scope_from_lookup f) = true \/ own_channel (scope_from_lookup f) = Some ch) /\
    v = obj [("grant", Str hex)]%string /\
    Grants.issued operator (Grants.plain_grant ch holder d (Z.min U64_MAX (now + secs))) hex.
Proof.
  intros Hnow. unfold grant_tool.
  intros ([] & (p & Hp & Hin)%issuers_check_Ok & (cs & _ & ([] & Hscope & (hs & _ & (ds & _ & (es & _ & (hex & Hissue & [= <-])%rbind_Ok)%rbind_Ok)%rbind_Ok)%rbind_Ok)%rbind_Ok)%rbind_Ok)%rbind_Ok.
  destruct (proj1 (Grants.issued_grant_is_what_was_asked operator cs hs ds es now Hnow) hex Hissue) as (ch & m & d & secs & Hch & _ & _ & _ & Hi).
  exists p, ch, m, d, secs, hex. split; [done|]. split; [done|]. split; [|done].
  apply scope_check_Ok in Hscope as [?|(own & Ho & Hd)]; [by left|right]. rewrite Ho. f_equal.
  rewrite hex32_decode in Hch. unfold decode_hex_32_bridge_peer in Hd. rewrite (hex_decode_visible _ _ _ Hd) in Hch. congruence.
Qed.
End GrantTheorems.

(** ** What the bridge's peer can reach *)

Section BridgeTheorems.
Context `{Grants.ChannelCodec} `{ManifestRun.ManifestCore}.
Context (env : Lookup) (token : result string string) (get : string -> option string -> Fetched)
  (client : string -> string -> string -> AllowlistCall -> result (list string) string) (control_plane : GrantRevoke.ControlPlane)
  (WIRE_LEN : nat) (sha256 : list byte -> list byte) (answer_json : string -> result (option bool * option bool) string)
  (engine : ManifestRun.ActivateOptions -> ManifestRun.Disk -> ManifestRun.Disk * option ManifestRun.InstallReport)
  (send : ManifestRun.Outside) (now later : option Z)
  (fetch_manifest : string -> result ManifestRun.ServiceManifest string) (read_file : string -> result string string)
  (report_value : ManifestRun.InstallReport -> result Value string) (plan_value : ManifestRun.Plan -> result Value string)
  (oidc : Login.OidcCredentialState) (docker : bool).
Notation tools := (register_bridge_tools env token get client control_plane WIRE_LEN sha256 answer_json engine send now later
  fetch_manifest read_file report_value plan_value oidc docker).

Lemma bridge_tool_is_gated bridge_peer tool h : (tool, h) ∈ tools bridge_peer ->
  exists body, (tool, body) ∈ bridge_bodies env token get client control_plane WIRE_LEN sha256 answer_json engine send now later
    fetch_manifest read_file report_value plan_value oidc docker /\ h = bridge_traced tool (gated tool bridge_peer body).
Proof. unfold register_bridge_tools. rewrite list_elem_of_fmap. intros ([t body] & [= -> ->] & Hin). by exists body. Qed.

Lemma req_given f k what v : ManifestRun.req f k what = Ok v -> trimmed f k = Some v.
Proof. unfold ManifestRun.req. by destruct (trimmed f k); [intros [= ->]|]. Qed.
(** Who is trusted, where it goes and what may be fetched are the agent's settings; the caller names the
    manifest and the project. *)
Definition trusted_here (location project : string) (cfg : ManifestRun.ActivateCliConfig) : Prop :=
  ManifestRun.manifest_location cfg = trim location /\ ManifestRun.project_name cfg = trim project /\
  ManifestRun.require_manifest_location (trim location) (ManifestRun.flag_set (ManifestRun.opt env "CT_MANIFEST_ALLOW_LOCAL_PATH")) = Ok tt /\
  trimmed env "CT_MANIFEST_WORK_DIR" = Some (ManifestRun.work_dir cfg) /\
  ManifestRun.env_file cfg = ManifestRun.opt env "CT_MANIFEST_ENV_FILE" /\ ManifestRun.registry_from_lookup env = Ok (ManifestRun.registry cfg) /\
  ManifestRun.protected_name_substrings cfg = split_csv (default ""%string (ManifestRun.opt env "CT_MANIFEST_PROTECTED_NAMES")) /\
  ManifestRun.require_binary_sandbox cfg = ManifestRun.require_binary_sandbox_from_env (install_env env location project) /\
  match trimmed env "CT_MANIFEST_TRUST_ALLOWLIST", trimmed env "CT_MANIFEST_TRUST_ALLOWLIST_FILE" with
  | Some csv, None => ManifestRun.parse_allowlist csv = Ok (ManifestRun.allowlist cfg)
  | None, Some path => ManifestRun.load_allowlist path = Ok (ManifestRun.allowlist cfg)
  | _, _ => False
  end.
(** The installer is run with that configuration, on the project's empty directory; the ledger that
    hears of it is the agent's. *)
Definition installs_as (cfg : ManifestRun.ActivateCliConfig) (a : ManifestRun.Act) : Prop :=
  let dir := Events.path_join (ManifestRun.work_dir cfg) (ManifestRun.project_name cfg) in
  match a with
  | ManifestRun.Ran o x => (exists t, now = Some t /\ o = ManifestRun.options_of cfg dir t) /\
      ManifestRun.nodes x !! dir = Some (ManifestRun.Directory ∅)
  | ManifestRun.Sent q => exists reg id, ManifestRun.registry cfg = Some reg /\ q = ManifestRun.ledger_event reg id
  | _ => True
  end.
(** What an act may be: of this agent's own channel, with the agent's own login, or of an installation
    the owner has not switched off, with exactly the agent's own settings. *)
Definition of_own_channel (a : Act) : Prop :=
  match a with
  | AskedToken | Traced _ _ => True
  | Get url None => exists u, env "CT_MANIFEST_REGISTRY_URL"%string = Some u /\ url = (ManifestRun.trim_slashes u +:+ "/manifests")%string
  | Get url (Some t) => token = Ok t /\ exists cp ch, env "CT_AGENT_CP_URL"%string = Some cp /\ own_channel_id env = Ok ch /\
      url = (ManifestRun.trim_slashes cp +:+ "/me/channels/" +:+ hex_encode ch +:+ "/members")%string
  | Posted p => exists t cp ch g, token = Ok t /\ env "CT_AGENT_CP_URL"%string = Some cp /\ own_channel_id env = Ok ch /\
      Grants.channel (Grants.grant g) = ch /\ GrantRevoke.post_bearer p = Some t /\
      GrantRevoke.post_url p = (ManifestRun.trim_slashes cp +:+ "/me/channels/" +:+ hex_encode ch +:+ "/grants/revoke")%string /\
      GrantRevoke.post_body p = GrantWatch.revoke_body None (GrantRevoke.target_of sha256 g)
  | Client cp ch t _ => token = Ok t /\ exists id, own_channel_id env = Ok id /\ ch = hex_encode id
  | Activation a => env "CT_CHANNEL_BRIDGE_DISABLE_MANIFEST_INSTALL"%string = None /\
      exists location project cfg, trusted_here location project cfg /\ installs_as cfg a
  end.
Lemma install_trusts_the_agent location project cfg :
  ManifestRun.activate_from_lookup (install_env env location project) = Ok cfg -> trusted_here location project cfg.
Proof.
  unfold ManifestRun.activate_from_lookup.
  intros (allow & Ha & (reg & Hr & (loc & Hl & ([] & Hg & (pr & Hp & (work & Hw & [= <-])%rbind_Ok)%rbind_Ok)%rbind_Ok)%rbind_Ok)%rbind_Ok)%rbind_Ok.
  pose proof (req_given _ _ _ _ Hl) as Hl'. pose proof (req_given _ _ _ _ Hp) as Hp'. pose proof (req_given _ _ _ _ Hw) as Hw'.
  change (trimmed (install_env env location project) "CT_MANIFEST_WORK_DIR") with (trimmed env "CT_MANIFEST_WORK_DIR") in Hw'.
  change (trimmed (install_env env location project) "CT_MANIFEST_URL") with (if is_empty (trim location) then None else Some (trim location)) in Hl'.
  change (trimmed (install_env env location project) "CT_MANIFEST_PROJECT_NAME") with (if is_empty (trim project) then None else Some (trim project)) in Hp'.
  destruct (is_empty (trim location)); [done|]. destruct (is_empty (trim project)); [done|]. injection Hl' as <-. injection Hp' as <-.
  repeat split; [exact Hg|exact Hw'|exact Hr|]. unfold ManifestRun.allowlist_from in Ha. apply rbind_Ok in Ha as (l & Ha & Hl').
  cbn [ManifestRun.allowlist]. unfold ManifestRun.opt in Ha.
  change (trimmed (install_env env location project) "CT_MANIFEST_TRUST_ALLOWLIST") with (trimmed env "CT_MANIFEST_TRUST_ALLOWLIST") in Ha.
  change (trimmed (install_env env location project) "CT_MANIFEST_TRUST_ALLOWLIST_FILE") with (trimmed env "CT_MANIFEST_TRUST_ALLOWLIST_FILE") in Ha.
  destruct (trimmed env "CT_MANIFEST_TRUST_ALLOWLIST"), (trimmed env "CT_MANIFEST_TRUST_ALLOWLIST_FILE"); try done;
    (destruct l as [|k l]; [done|]); by injection Hl' as <-.
Qed.

(** What changes on the disk: empty directories are made, or the installer runs, with the agent's settings
    and once; then it is as the installer left it, but for the marker. *)
Definition changed_by_install (d d' : ManifestRun.Disk) (acts : list Act) : Prop :=
  ManifestRun.only_new_directories d d' \/
  exists location project cfg o x, trusted_here location project cfg /\ Activation (ManifestRun.Ran o x) ∈ acts /\
    ManifestRun.installed_by engine now cfg d d' o x.
Definition fine (d : ManifestRun.Disk) (r : ManifestRun.Disk * list Act * result Value string) : Prop :=
  Forall of_own_channel r.1.2 /\
  (r.1.1 = d \/ env "CT_CHANNEL_BRIDGE_DISABLE_MANIFEST_INSTALL"%string = None /\ changed_by_install d r.1.1 r.1.2).

Lemma activation_acts location project cfg d d' acts r : trusted_here location project cfg ->
  env "CT_CHANNEL_BRIDGE_DISABLE_MANIFEST_INSTALL"%string = None ->
  ManifestRun.run_activate engine send now later cfg d = (d', acts, r) ->
  Forall of_own_channel (map Activation acts) /\ changed_by_install d d' (map Activation acts).
Proof.
  intros Ht Hd E. split.
  - apply Forall_fmap, Forall_forall. intros a Ha. split; [done|]. exists location, project, cfg. split; [done|].
    destruct a as [q| | |o x]; [|done..|].
    + destruct (ManifestRun.ledger_hears _ _ _ _ _ _ _ _ _ _ E Ha) as (_ & id & _ & _ & reg & _ & _ & Hr & Hq). by exists reg, id.
    + apply ManifestRun.installer_runs in E as [(o' & x' & rest & -> & Hrest & (Ho & _ & Hx & _) & _)|(-> & _)]; [|by apply elem_of_nil in Ha].
      apply elem_of_cons in Ha as [[= -> ->]|Ha]; [done|]. rewrite Forall_forall in Hrest. by destruct (Hrest _ Ha).
  - apply ManifestRun.installer_runs in E as [(o & x & rest & -> & _ & Hby & _)|(-> & Hnew & _)]; [right|by left].
    exists location, project, cfg, o, x. split; [done|]. split; [by left|done].
Qed.

Lemma fine_only r d : Forall of_own_channel r.1 -> fine d (only r d).
Proof. intros Hr. split; [done|by left]. Qed.
Lemma with_token_own k : (forall t, token = Ok t -> Forall of_own_channel (k t).1) -> Forall of_own_channel (with_token token k).1.
Proof.
  intros Hk. unfold with_token. destruct token as [t|e]; [|by repeat constructor]. specialize (Hk t eq_refl).
  destruct (k t). by constructor.
Qed.
Lemma allowlist_own c answer : Forall of_own_channel (allowlist_call env token client c answer).1.
Proof.
  apply with_token_own. intros t Ht. destruct (Grants.allowlist_with_token env t) as [req|e] eqn:E; [|done].
  constructor; [|done]. unfold Grants.allowlist_with_token in E. apply rbind_Ok in E as (cp & _ & (ch & Hch & [= <-])%rbind_Ok).
  unfold Grants.own_channel_hex in Hch. apply rbind_Ok in Hch as (id & Hid & [= <-]). cbn. split; [done|]. by exists id.
Qed.

Lemma bridge_body_fine tool body args d : (tool, body) ∈ bridge_bodies env token get client control_plane WIRE_LEN sha256 answer_json engine send
  now later fetch_manifest read_file report_value plan_value oidc docker -> fine d (body args d).
Proof.
  unfold bridge_bodies. rewrite !elem_of_cons, elem_of_nil.
  intros [[= -> ->]|[[= -> ->]|[[= -> ->]|[[= -> ->]|[[= -> ->]|[[= -> ->]|[[= -> ->]|[[= -> ->]|[[= -> ->]|[[= -> ->]|[]]]]]]]]]]].
  1, 2: by apply fine_only.
  - apply fine_only. unfold channel_members. destruct (rbind _ _) as [[cp ch]|e] eqn:E; [|done].
    apply rbind_Ok in E as (u & Hu & (id & Hid & [= <- <-])%rbind_Ok). destruct (env "CT_AGENT_CP_URL"%string) as [u'|] eqn:Eu; [|done].
    injection Hu as ->. apply with_token_own. intros t Ht. constructor; [|done]. split; [done|]. by exists u, id.
  - apply fine_only. unfold channel_revoke. destruct (rbind _ _) as [[cp g]|e] eqn:E; [|done].
    apply rbind_Ok in E as (u & Hu & (id & Hid & (hex & _ & (g' & _ & Hg)%rbind_Ok)%rbind_Ok)%rbind_Ok).
    destruct (bool_decide_reflect (Grants.channel (Grants.grant g') = id)) as [Hc|]; [|done]. injection Hg as -> ->.
    destruct (env "CT_AGENT_CP_URL"%string) as [u'|] eqn:Eu; [|done]. injection Hu as ->. apply with_token_own. intros t Ht.
    cbn. constructor; [|done]. exists t, cp, id, g. cbn. by rewrite Hc.
  - apply fine_only, allowlist_own.
  - apply fine_only. unfold allowlist_add. destruct (get_str args "email"); [apply allowlist_own|done].
  - apply fine_only. unfold allowlist_remove. destruct (get_str args "email"); [apply allowlist_own|done].
  - apply fine_only. unfold manifest_list. destruct (env "CT_MANIFEST_REGISTRY_URL"%string) as [u|] eqn:Eu; [|done].
    constructor; [|done]. by exists u.
  - unfold manifest_install. destruct (env "CT_CHANNEL_BRIDGE_DISABLE_MANIFEST_INSTALL"%string) eqn:Ed; [by split; [|left]|].
    destruct (rbind (chosen _ args) _) as [cfg|e] eqn:E; [|by split; [|left]].
    apply rbind_Ok in E as ([location project] & _ & Hcfg).
    destruct (ManifestRun.run_activate engine send now later cfg d) as [[d' acts] r] eqn:Er.
    apply install_trusts_the_agent in Hcfg. destruct (activation_acts _ _ _ _ _ _ _ Hcfg Ed Er) as [Ha Hc].
    split; [exact Ha|]. by right.
  - by apply fine_only.
Qed.

End BridgeTheorems.

(** ** What is reported, registered and answered *)

(** The summary tells two environments apart only by the three addresses, by which variables are set
    and by whether the control plane's is blank: no value of a key or a token shows in it. *)
Lemma config_reveals_no_secret f g oidc docker :
  (forall k, k ∈ ["CT_CHANNEL_ROLE"; "CT_CHANNEL_BROKER"; "CT_CHANNEL_RELAY"]%string -> f k = g k) ->
  (forall k, is_set f k = is_set g k) -> not_blank f "CT_AGENT_CP_URL" = not_blank g "CT_AGENT_CP_URL" ->
  bridge_config_summary f oidc docker = bridge_config_summary g oidc docker.
Proof.
  intros Hs Hset Hb. unfold bridge_config_summary, MASQUE_VARS. cbn [forallb]. rewrite Hb, !Hset.
  rewrite !(Hs _) by set_solver. reflexivity.
Qed.

(** What the signed offer declares is the ceiling; what is requested beyond it is refused. *)
Lemma served_services_are_declared f c s : s ∈ (served_services f (Some c)).1 <->
  s ∈ services c /\ s ∈ requested_services f (Some c).
Proof. unfold served_services, partition_by. cbn [fst]. rewrite list_elem_of_filter, bool_decide_eq_true. naive_solver. Qed.
Lemma served_or_refused f o s : s ∈ requested_services f o ->
  s ∈ (served_services f o).1 \/ s ∈ (served_services f o).2.
Proof.
  unfold served_services. destruct o as [c|]; [|by left]. unfold partition_by. cbn. rewrite !list_elem_of_filter.
  destruct (bool_decide (s ∈ services c)); naive_solver.
Qed.
(** A broken offer is no offer: the ceiling is gone. *)
Lemma broken_offer_lifts_the_ceiling f e : offer_from_lookup f = Err e ->
  served_services f (offer_of f) = (requested_services f None, []).
Proof. unfold offer_of. by intros ->. Qed.

Lemma reply_fits_or_is_an_error parse_slice to_vec MAX request dispatched :
  Zlen (reply_for parse_slice to_vec MAX request dispatched) <= MAX \/
  exists message, reply_for parse_slice to_vec MAX request dispatched = jsonrpc_error_for parse_slice to_vec request message.
Proof.
  unfold reply_for. destruct dispatched as [resp|]; [|right; by eexists].
  destruct (Z.ltb_spec MAX (Zlen resp)); [right; by eexists|by left].
Qed.

(** ** Concrete inputs *)

#[local] Existing Instances Grants.demo_ed25519 Grants.demo_codec.

(** A malformed [CT_CHANNEL_ID] hides a valid [CT_GRANT_CHANNEL], which every other request would take. *)
Definition demo_env (k : string) : option string :=
  if String.eqb k "CT_CHANNEL_ID" then Some "not hex"%string
  else if String.eqb k "CT_GRANT_CHANNEL" then Some (Grants.demo_hex Byte.x01) else None.
Example malformed_id_hides_the_alias : own_channel (scope_from_lookup demo_env) = None /\
  req_hex32_aliased demo_env "CT_CHANNEL_ID" "CT_GRANT_CHANNEL" "" = Ok (Grants.demo_seed Byte.x01).
Proof. split; vm_compute; reflexivity. Qed.

(** The summary calls a blank channel id configured, which no tool accepts. *)
Example blank_id_is_configured :
  let f := fun k => if String.eqb k "CT_CHANNEL_ID" then Some " "%string else None in
  jget (bridge_config_summary f Login.Env false) "channel_id_configured" = Some (Bool true) /\ is_ok (own_channel_id f) = false.
Proof. split; vm_compute; reflexivity. Qed.

(** The answer that replaces one beyond the ceiling carries the request's own id, and is beyond it again. *)
Definition demo_to_vec (v : Value) : list byte := match jget v "id" with Some (Str s) => as_bytes s | _ => [] end.
Example long_id_has_no_answer :
  100 < Zlen (reply_for (fun _ => Some (obj [("id", Str (ServiceHandler.repeat_string 101 "x"))]%string)) demo_to_vec 100 [] (Some (repeat Byte.x00 200))).
Proof. vm_compute. reflexivity. Qed.

Definition demo_tool_env (k : string) : option string :=
  if String.eqb k "CT_CHANNEL_ID" then Some (Grants.demo_hex Byte.x01)
  else if String.eqb k GRANT_ISSUERS_ENV then Some (Grants.demo_hex Byte.x05 +:+ ", nonsense " +:+ Grants.demo_hex Byte.x06)%string else None.
Definition demo_args : Value := obj [("channel", Str (Grants.demo_hex Byte.x01)); ("holder", Str (Grants.demo_hex Byte.x02));
  ("direction", Str "accept"); ("expires_in", Str "30d")]%string.
Example issuers_are_read : issuers_from_lookup demo_tool_env =
  {| allowed := [Grants.demo_seed Byte.x05; Grants.demo_seed Byte.x06]; invalid_entries := ["nonsense"%string] |}.
Proof. vm_compute. reflexivity. Qed.
Lemma grant_tool_is_confined_witness : exists v p,
  grant_tool (Grants.demo_seed Byte.x07) (scope_from_lookup demo_tool_env) (issuers_from_lookup demo_tool_env) 1000
    {| peer := Some (Grants.demo_seed Byte.x06) |} demo_args = Ok v /\ p ∈ allowed (issuers_from_lookup demo_tool_env).
Proof.
  destruct (grant_tool (Grants.demo_seed Byte.x07) (scope_from_lookup demo_tool_env) (issuers_from_lookup demo_tool_env) 1000
    {| peer := Some (Grants.demo_seed Byte.x06) |} demo_args) as [v|e] eqn:E; [|exfalso; revert E; vm_compute; discriminate].
  destruct (grant_tool_is_confined demo_tool_env (Grants.demo_seed Byte.x07) 1000 {| peer := Some (Grants.demo_seed Byte.x06) |} demo_args v
    ltac:(unfold U64_MAX; lia) E) as (p & _ & _ & _ & _ & _ & _ & Hp & _). exists v, p. split; [reflexivity|exact Hp].
Defined.
(** Another member, or another channel, gets none. *)
Example others_are_refused :
  is_ok (grant_tool (Grants.demo_seed Byte.x07) (scope_from_lookup demo_tool_env) (issuers_from_lookup demo_tool_env) 1000
    {| peer := Some (Grants.demo_seed Byte.x09) |} demo_args) = false /\
  is_ok (grant_tool (Grants.demo_seed Byte.x07) {| own_channel := Some (Grants.demo_seed Byte.x03); any_channel := false |}
    (issuers_from_lookup demo_tool_env) 1000 {| peer := Some (Grants.demo_seed Byte.x06) |} demo_args) = false.
Proof. split; vm_compute; reflexivity. Qed.

#[local] Existing Instances ManifestRun.demo_types ManifestRun.demo_core.
Definition demo_tools : list (string * Handler) :=
  register_bridge_tools demo_tool_env (Ok "bearer"%string) (fun _ _ => Fetched_ Null) (fun _ _ _ _ => Ok []) (fun _ => Err "offline"%string) 140
    (fun l => l) (fun _ => Err "not JSON"%string) ManifestRun.demo_engine ManifestRun.demo_send (Some 1000) None (fun _ => Err "offline"%string)
    (fun _ => Err "no file"%string) (fun _ => Ok Null) (fun _ => Ok Null) Login.NoCredential false (Grants.demo_seed Byte.x05).
