(* ===== verification/Capability.v ===== *)
(** * Capability: the agent's serving identity ([capability.rs])

    Minting, sharing and rotating the Origin key and the capability that pins it, over two
    directories of [SecretFile]: the one with the key and the capability, and the one with the
    retired keys.  Every call may fail; both directories before each call are recorded, so that a
    theorem can speak about an agent that starts while another one is at work or after it died.
    X25519 and the codec of [ct-common]'s [Capability] are classes; random draws are arguments. *)
From stdpp Require Import sorting.
From S2P Require Import Prelude Text Codec SecretFile DirOps.

#[local] Open Scope Z_scope.

(** ** Tokens *)

(** [u8::from_str_radix(chunk, 16)] of two characters: a plus sign may stand first. *)
Definition from_str_radix16 (hi lo : ascii) : option Z :=
  let? l := nibble lo in
  match nibble hi with
  | Some h => Some (h * 16 + l)
  | None => if Ascii.eqb hi "+" then Some l else None
  end.
Fixpoint token_chunks (s : list ascii) : option (list byte) :=
  match s with
  | [] => Some []
  | hi :: lo :: rest =>
      let? v := from_str_radix16 hi lo in
      let? bytes := token_chunks rest in
      Some (to_u8 v :: bytes)
  | [_] => None
  end.
Definition parse_routing_token_hex (s : string) : option (list byte) :=
  let s := trim s in
  if decide (String.length s ≠ 64%nat) then None else token_chunks (String.list_ascii_of_string s).

(** ** Capabilities *)

Record Capability := { token : list byte; origin : list byte; edge_addr : string }.
#[export] Instance Capability_eq_dec : EqDecision Capability.
Proof. solve_decision. Defined.
Definition mint_capability_with_token (token origin : list byte) (edge_addr : string) : Capability :=
  {| token := token; origin := origin; edge_addr := edge_addr |}.
(** [drawn]: the 32 bytes of the system's generator. *)
Definition mint_capability (drawn origin : list byte) (edge_addr : string) : Capability :=
  mint_capability_with_token drawn origin edge_addr.

Class CapabilityCodec := {
  encode : Capability -> list byte;
  decode : list byte -> result Capability string;
  representable : Capability -> Prop;
  decode_encode c : representable c -> decode (encode c) = Ok c;
}.
(** [origin_identity]: the public half of a private key. *)
Class X25519 := { origin_identity : list byte -> list byte }.

Record ServingIdentity := { cap : Capability; origin_keys : list (list byte) }.

(** ** Calls *)

Inductive CapError := CapIo (e : IoError) | CapContext (text : string) (e : IoError) | CapDecode (text : string) | NotAKey (path : string).


Section Calls.
(** What stands where a link leads to. *)
Context (linked : string -> option (list byte)).

Definition name_le (a b : string) : Prop := String.leb a b = true.
#[local] Instance name_le_dec a b : Decision (name_le a b) := decide (String.leb a b = true).
Definition listing (d : Disk) : list string := merge_sort name_le (map fst (map_to_list (dir d))).
Definition read_dir : IO IoError (list string) := call unchanged (fun d => (Ok (listing d), d)).

(** [write_owner_only]. *)
Definition write_owner_only (path : string) (bytes : list byte) : IO CapError unit :=
  _ ← io_map_err (CapContext ("creating parent directory for " +:+ path)) create_dir_all;
  io_map_err (CapContext ("writing " +:+ path)) (write_private path bytes).

(** [load_extra_origin_keys]. *)
Fixpoint read_keys (names : list string) : IO CapError (list (list byte)) :=
  match names with
  | [] => mret []
  | name :: names =>
      r ← attempt (read_file linked name);
      keys ← read_keys names;
      match r with
      | Ok bytes => mret (if decide (length bytes = 32%nat) then bytes :: keys else keys)
      | Err _ => mret keys
      end
  end.
Definition load_extra_origin_keys : IO CapError (list (list byte)) :=
  r ← attempt read_dir;
  match r with
  | Ok names => read_keys names
  | Err _ => mret []
  end.

Section Identity.
Context `{CapabilityCodec, X25519}.
(** The private key and the token that the generators give. *)
Context (generated drawn : list byte).

Definition mint (forced_token : option (list byte)) (origin : list byte) (edge : string) : Capability :=
  match forced_token with
  | Some t => mint_capability_with_token t origin edge
  | None => mint_capability drawn origin edge
  end.

(** Both files staged, then renamed, key first. *)
Definition promote (key_path cap_path : string) (key : list byte) (c : Capability) : IO CapError unit :=
  install_pair CapIo (write_owner_only (key_path +:+ ".new") key) (write_owner_only (cap_path +:+ ".new") (encode c))
    key_path cap_path.

Definition resolve_primary_identity (key_path : option string) (cap_path edge : string) (forced_token : option (list byte))
  : IO CapError (Capability * list byte) :=
  let c := mint forced_token (origin_identity generated) edge in
  match key_path with
  | Some kp =>
      key ← attempt (read_file linked kp);
      let fresh := _ ← promote kp cap_path generated c; mret (c, generated) in
      capb ← attempt (read_file linked cap_path);
      match key, capb with
      | Ok key, Ok capb =>
          if decide (length key = 32%nat) then
            match decode capb with
            | Ok c => mret (c, key)
            | Err t => throw (CapDecode t)
            end
          else fresh
      | _, _ => fresh
      end
  | None =>
      _ ← write_owner_only cap_path (encode c);
      mret (c, generated)
  end.

Definition resolve_serving_identity_with_token (key_path : option string) (cap_path edge : string) (extra_keys : bool)
  (forced_token : option (list byte)) : D CapError ServingIdentity :=
  '(c, primary) ← in_main (resolve_primary_identity key_path cap_path edge forced_token);
  keys ← (if extra_keys then in_extra load_extra_origin_keys else mret []);
  mret {| cap := c; origin_keys := primary :: keys |}.
Definition resolve_serving_identity (key_path : option string) (cap_path edge : string) (extra_keys : bool) : D CapError ServingIdentity :=
  resolve_serving_identity_with_token key_path cap_path edge extra_keys None.

Definition hex8 (bytes : list byte) : string := hex_encode (take 4 bytes).
Definition retired_name (c : Capability) : string := ("retired-" +:+ hex8 (origin c) +:+ ".key")%string.

Definition rotate_origin_key (key_path cap_path : string) : D CapError Capability :=
  capb ← in_main (io_map_err CapIo (read_file linked cap_path));
  match decode capb with
  | Err t => d_throw (CapDecode t)
  | Ok old_cap =>
      old_key ← in_main (io_map_err CapIo (read_file linked key_path));
      if decide (length old_key ≠ 32%nat) then d_throw (NotAKey key_path) else
      let new_cap := mint_capability_with_token (token old_cap) (origin_identity generated) (edge_addr old_cap) in
      _ ← in_extra (io_map_err CapIo create_dir_all);
      _ ← in_extra (write_owner_only (retired_name old_cap) old_key);
      _ ← in_main (promote key_path cap_path generated new_cap);
      mret new_cap
  end.
End Identity.
End Calls.

(** ** What a promotion leaves *)

Section Kept.
Context (linked : string -> option (list byte)).

Lemma triple_write_owner_only d0 path bytes : settled d0 ->
  triple (kept_but linked d0 path) (eq d0) (write_owner_only path bytes)
    (fun r d => kept_but linked d0 path d /\ (is_ok r = true -> written linked d0 path bytes d)).
Proof.
  intros Hs. eapply triple_bind with (R := fun _ => eq d0).
  - eapply triple_conseq; [apply triple_map_err with (Q := fun _ => eq d0)|done|exact (fun _ H => H)|by intros r d (r' & _ & ?)].
    apply triple_call; [by intros d <-|done|]. by intros d r d' [= <- <-].
  - intros []. eapply triple_conseq; [apply triple_map_err, triple_write_private, Hs|done|done|].
    intros r d (r' & -> & Hk & Hw). split; [done|]. destruct r'; [intros _; by apply Hw|done].
  - intros e d <-. by split.
Qed.

Lemma promote_steps `{CapabilityCodec} d0 kp cp key c : settled d0 -> distinct_names kp cp ->
  triple (in_step linked d0 kp cp key (encode c)) (eq d0) (promote kp cp key c)
    (fun r d => in_step linked d0 kp cp key (encode c) d /\ (is_ok r = true -> both_new linked kp cp key (encode c) d)).
Proof.
  intros Hd Hn. apply install_pair_steps; [exact Hn|exact (triple_write_owner_only d0 _ key Hd)|].
  intros d1 Hd1. exact (triple_write_owner_only d1 _ (encode c) Hd1).
Qed.
End Kept.

(** ** The identity an agent starts with *)

Section Serve.
Context (linked : string -> option (list byte)) `{CapabilityCodec, X25519}.
Notation rd := (reads linked).

(** What the files of the first directory make of the primary identity, and the retired keys. *)
Definition identity_of (kp cp : string) (d : Disk) : option (list byte * Capability) :=
  let? key := rd d kp in
  let? capb := rd d cp in
  if decide (length key = 32%nat) then
    match decode capb with Ok c => Some (key, c) | Err _ => None end
  else None.
Definition key_file (d : Disk) (name : string) : option (list byte) :=
  let? bytes := rd d name in
  if decide (length bytes = 32%nat) then Some bytes else None.
Definition extra_keys (d : Disk) : list (list byte) := omap (key_file d) (listing d).

Lemma listing_elem d name : is_Some (dir d !! name) -> name ∈ listing d.
Proof.
  intros [e He]. unfold listing. rewrite merge_sort_Permutation. apply list_elem_of_fmap. exists (name, e).
  split; [done|]. by apply elem_of_map_to_list.
Qed.

Lemma extra_keys_elem d name key : rd d name = Some key -> length key = 32%nat -> key ∈ extra_keys d.
Proof.
  intros Hr Hl. unfold extra_keys. apply list_elem_of_omap. exists name. split.
  - apply listing_elem. unfold reads in Hr. destruct (dir d !! name); [by eexists|done].
  - unfold key_file. by rewrite Hr, decide_True.
Qed.

(** Runs in which no call fails. *)
Definition quiet (w : World) : Prop := answers w = [].
Lemma call_quiet {A} fails (effect : Disk -> result A IoError * Disk) w : quiet w ->
  exists w', call fails effect w = ((effect (disk w)).1, w') /\ disk w' = (effect (disk w)).2 /\ quiet w'.
Proof. intros Hq. unfold call. rewrite Hq. destruct (effect (disk w)) as [r d] eqn:E. by eexists. Qed.

Lemma read_quiet name w : quiet w ->
  exists w', attempt (F := CapError) (read_file linked name) w =
    (Ok (match rd (disk w) name with Some c => Ok c | None => Err NotFound end), w') /\ disk w' = disk w /\ quiet w'.
Proof.
  intros Hq. unfold attempt, read_file.
  destruct (call_quiet unchanged (fun d => (match rd d name with Some c => Ok c | None => Err NotFound end, d)) w Hq)
    as (w' & -> & Hd & Hq'). by eexists.
Qed.

Lemma read_keys_quiet names w : quiet w ->
  exists w', read_keys linked names w = (Ok (omap (key_file (disk w)) names), w') /\ disk w' = disk w /\ quiet w'.
Proof.
  revert w. induction names as [|name names IH]; intros w Hq; [by exists w|].
  destruct (read_quiet name w Hq) as (w1 & E1 & Hd1 & Hq1). destruct (IH w1 Hq1) as (w2 & E2 & Hd2 & Hq2).
  exists w2. split; [|split; [congruence|done]]. cbn [read_keys]. unfold mbind, io_bind at 1. rewrite E1. unfold io_bind at 1.
  assert (key_file (disk w) name = match rd (disk w) name with
    | Some bytes => if decide (length bytes = 32%nat) then Some bytes else None | None => None end) as Ek by done.
  rewrite E2, Hd1. cbn [omap list_omap]. rewrite Ek. destruct (rd (disk w) name) as [bytes|]; [|done].
  by destruct (decide (length bytes = 32%nat)).
Qed.

Lemma load_quiet w : quiet w ->
  exists w', load_extra_origin_keys linked w = (Ok (extra_keys (disk w)), w') /\ disk w' = disk w /\ quiet w'.
Proof.
  intros Hq. unfold load_extra_origin_keys.
  destruct (call_quiet unchanged (fun d => (Ok (listing d), d)) w Hq) as (w1 & E1 & Hd1 & Hq1).
  destruct (read_keys_quiet (listing (disk w)) w1 Hq1) as (w2 & E2 & Hd2 & Hq2). exists w2.
  split; [|split; [simpl in *; congruence|done]]. unfold mbind, io_bind, attempt, read_dir. rewrite E1. cbn [fst snd] in *. by rewrite E2, Hd1.
Qed.

(** An agent that starts on the two directories as they are. *)
Definition start (generated drawn : list byte) (kp cp edge : string) (d x : Disk) : result ServingIdentity CapError :=
  (resolve_serving_identity linked generated drawn (Some kp) cp edge true
    {| main := d; extra := x; dir_answers := []; moments := [] |}).1.

Lemma start_loads generated drawn kp cp edge d x key c :
  identity_of kp cp d = Some (key, c) ->
  start generated drawn kp cp edge d x = Ok {| cap := c; origin_keys := key :: extra_keys x |}.
Proof.
  unfold identity_of. intros Hi. destruct (rd d kp) as [k|] eqn:Ek; [|done]. destruct (rd d cp) as [b|] eqn:Eb; [|done].
  unfold start, resolve_serving_identity, resolve_serving_identity_with_token, mbind, d_bind, in_main. cbn [main dir_answers].
  destruct (read_quiet kp (on d []) eq_refl) as (w1 & E1 & Hd1 & Hq1). destruct (read_quiet cp w1 Hq1) as (w2 & E2 & Hd2 & Hq2).
  unfold resolve_primary_identity, mbind, io_bind. rewrite E1. cbn [on disk] in *. rewrite E2, Hd1, Ek, Eb.
  destruct (decide (length k = 32%nat)) as [Hl|]; [|done]. destruct (decode b) as [c'|t] eqn:Ed; [|done].
  injection Hi as -> ->. unfold mret, io_ret, in_extra. cbn [extra dir_answers].
  destruct (load_quiet (on x (answers w2)) Hq2) as (w3 & E3 & Hd3 & Hq3). rewrite E3.
  done.
Qed.

End Serve.

Section Rotation.
Context (linked : string -> option (list byte)) `{CapabilityCodec, X25519}.
Notation rd := (reads linked).

(** An agent that starts on these directories serves the tunnel of [c0]: it publishes a capability
    with its token and edge, and holds the private half of the identity it publishes. *)
Definition serves (kp cp : string) (c0 : Capability) (p : Disk * Disk) : Prop :=
  forall generated drawn edge, exists id, start linked generated drawn kp cp edge p.1 p.2 = Ok id /\
    token (cap id) = token c0 /\ edge_addr (cap id) = edge_addr c0 /\
    exists k, k ∈ origin_keys id /\ origin_identity k = origin (cap id).

Lemma serves_by kp cp c0 d x key c k :
  identity_of linked kp cp d = Some (key, c) -> token c = token c0 -> edge_addr c = edge_addr c0 ->
  k ∈ key :: extra_keys linked x -> origin_identity k = origin c -> serves kp cp c0 (d, x).
Proof.
  intros Hi Ht He Hk Ho generated drawn edge. cbn [fst snd].
  rewrite (start_loads linked generated drawn kp cp edge d x key c Hi). eexists. split; [done|]. cbn [cap origin_keys].
  split; [done|]. split; [done|]. by exists k.
Qed.

Lemma identity_of_both kp cp d key capb c :
  rd d kp = Some key -> rd d cp = Some capb -> length key = 32%nat -> decode capb = Ok c -> identity_of linked kp cp d = Some (key, c).
Proof. intros E1 E2 Hl Ed. unfold identity_of. by rewrite E1, E2, decide_True, Ed. Qed.

Lemma identity_of_old kp cp d d0 : rd d kp = rd d0 kp -> rd d cp = rd d0 cp -> identity_of linked kp cp d = identity_of linked kp cp d0.
Proof. intros E1 E2. unfold identity_of. by rewrite E1, E2. Qed.

Lemma rotation_steps generated kp cp d0 x0 key0 c0 :
  distinct_names kp cp -> settled d0 -> settled x0 -> length generated = 32%nat ->
  identity_of linked kp cp d0 = Some (key0, c0) -> origin c0 = origin_identity key0 ->
  let c1 := mint_capability_with_token (token c0) (origin_identity generated) (edge_addr c0) in
  representable c1 ->
  dtriple (fun d x => serves kp cp c0 (d, x)) (fun d x => d = d0 /\ x = x0) (rotate_origin_key linked generated kp cp)
    (fun r d x => serves kp cp c0 (d, x) /\
      match r with
      | Ok c => c = c1 /\ identity_of linked kp cp d = Some (generated, c1) /\ key0 ∈ extra_keys linked x
      | Err _ => True
      end).
Proof.
  intros Hn Hd Hx Hg Hi Ho c1 Hc1.
  pose proof Hi as Hi0. unfold identity_of in Hi0. destruct (rd d0 kp) as [k|] eqn:Ek; [|done].
  destruct (rd d0 cp) as [b|] eqn:Eb; [|done]. destruct (decide (length k = 32%nat)) as [Hk|]; [|done].
  destruct (decode b) as [c|] eqn:Ed; [|done]. injection Hi0 as -> ->.
  assert (forall x, serves kp cp c0 (d0, x)) as Hsame by by intros x; eapply serves_by; [exact Hi|done|done|left|done].
  (* the capability and the key *)
  eapply dtriple_bind with (R := fun r d x => (d = d0 /\ forall v, r = Ok v -> Some b = Some v) /\ x = x0).
  { eapply dtriple_conseq; [exact (dtriple_main _ _ _ d0 x0 (triple_read_file linked CapIo d0 _))|by intros d x [<- ->]|done|].
    intros r d x [[-> Hr] ->]. split; [split; [done|]|done]. intros v Hv. by rewrite <-Eb, <-(Hr v Hv). }
  2: { intros e d x [[-> _] ->]. by split. }
  intros capb. apply dtriple_each. intros d x [[-> Hb] ->]. specialize (Hb capb eq_refl). injection Hb as <-. rewrite Ed.
  eapply dtriple_bind with (R := fun r d x => (d = d0 /\ forall v, r = Ok v -> Some key0 = Some v) /\ x = x0).
  { eapply dtriple_conseq; [exact (dtriple_main _ _ _ d0 x0 (triple_read_file linked CapIo d0 _))|by intros d x [<- ->]|done|].
    intros r d x [[-> Hr] ->]. split; [split; [done|]|done]. intros v Hv. by rewrite <-Ek, <-(Hr v Hv). }
  2: { intros e d x [[-> _] ->]. by split. }
  intros key. apply dtriple_each. intros d x [[-> Hb] ->]. specialize (Hb key eq_refl). injection Hb as <-.
  rewrite decide_False by (intros Hf; by apply Hf).
  (* the retired key *)
  eapply dtriple_bind with (R := fun _ d x => d = d0 /\ x = x0).
  { eapply dtriple_conseq; [exact (dtriple_extra _ _ _ d0 x0 (triple_create_dir CapIo x0))|by intros d x [-> _]|done|done]. }
  2: { intros e d x [-> ->]. by split. }
  intros []. eapply dtriple_bind with (R := fun r d x => d = d0 /\ (is_ok r = true -> key0 ∈ extra_keys linked x)).
  { eapply dtriple_conseq; [exact (dtriple_extra _ _ _ d0 x0 (triple_write_owner_only linked x0 _ key0 Hx))|by intros d x [-> _]|done|].
    intros r d x [-> [_ Hw]]. split; [done|]. intros Hr. destruct (Hw Hr) as (_ & _ & Hr'). by eapply extra_keys_elem. }
  2: { intros e d x [-> _]. by split. }
  intros []. apply dtriple_each. intros d x1 [-> Hkey]. specialize (Hkey eq_refl).
  (* the promotion *)
  assert (decode (encode c1) = Ok c1) as Edc by by apply decode_encode.
  assert (forall d, both_new linked kp cp generated (encode c1) d -> identity_of linked kp cp d = Some (generated, c1)) as Hnew.
  { intros d [E1 E2]. by eapply identity_of_both. }
  assert (forall d, in_step linked d0 kp cp generated (encode c1) d -> serves kp cp c0 (d, x1)) as Hstep.
  { intros d [[E1 E2]|[[E1 E2]|Hb]].
    - eapply serves_by; [rewrite (identity_of_old _ _ d d0 E1 E2); exact Hi|done|done|left|done].
    - eapply serves_by; [eapply identity_of_both; [exact E1|rewrite E2; exact Eb|done|exact Ed]|done|done|right; exact Hkey|done].
    - eapply serves_by; [by apply Hnew|done|done|left|done]. }
  eapply dtriple_bind with (R := fun r d x => x = x1 /\ in_step linked d0 kp cp generated (encode c1) d /\
    (is_ok r = true -> both_new linked kp cp generated (encode c1) d)).
  { eapply dtriple_conseq; [exact (dtriple_main _ _ _ d0 x1 (promote_steps linked d0 kp cp generated c1 Hd Hn))|by intros d x [Hs ->]; apply Hstep|done|].
    intros r d x [Hs ->]. by split. }
  2: { intros e d x (-> & Hs & _). split; [by apply Hstep|done]. }
  intros []. eapply dtriple_conseq; [apply (dtriple_ret c1 (fun d x => serves kp cp c0 (d, x)))|done|exact (fun _ _ H => H)|].
  intros r d x (-> & -> & Hs & Hb). split; [by apply Hstep|]. split; [done|]. split; [by apply Hnew, Hb|done].
Qed.

(** C24: Key rotation never strands the tunnel.  Whatever call fails and whenever the process dies,
    an agent that then starts on the directories publishes a capability with the same token and
    edge and holds the private key of the identity it publishes -- in the one window between the two
    renames through the retired key.  After success it publishes the new identity and still serves
    the old one. *)
Theorem rotation_never_strands generated kp cp s r s' key0 c0 :
  distinct_names kp cp -> settled (main s) -> settled (extra s) -> length generated = 32%nat ->
  identity_of linked kp cp (main s) = Some (key0, c0) -> origin c0 = origin_identity key0 ->
  let c1 := mint_capability_with_token (token c0) (origin_identity generated) (edge_addr c0) in
  representable c1 -> rotate_origin_key linked generated kp cp s = (r, s') ->
  (exists l, moments s' = l ++ moments s /\ Forall (serves kp cp c0) ((main s', extra s') :: l)) /\
  match r with
  | Ok c => c = c1 /\ identity_of linked kp cp (main s') = Some (generated, c1) /\ key0 ∈ extra_keys linked (extra s')
  | Err _ => True
  end.
Proof.
  intros Hn Hm Hx Hg Hi Ho c1 Hc1 E.
  destruct (rotation_steps generated kp cp (main s) (extra s) key0 c0 Hn Hm Hx Hg Hi Ho Hc1 s r s' E) as [(l & El & Hl) [Hs Hr]];
    [done|]. split; [|by destruct r]. exists l. split; [done|]. constructor; [done|]. eapply Forall_impl; [exact Hl|]. by intros [d x].
Qed.
(** *** The first agent *)

Lemma triple_attempt_read d0 name :
  triple (eq d0) (eq d0) (attempt (F := CapError) (read_file linked name))
    (fun r d => d = d0 /\ exists r', r = Ok r' /\ forall v, r' = Ok v -> rd d0 name = Some v).
Proof.
  eapply triple_conseq; [apply triple_attempt with (P := eq d0) (Q := fun r d => d = d0 /\ forall v, r = Ok v -> rd d0 name = Some v)|done|done|].
  - apply triple_call; [done|by intros e n d <-|]. intros d r d' [= <- <-] <-. split; [done|]. intros v. destruct (rd d0 name); [by intros [= <-]|done].
  - intros r d (r' & -> & -> & Hv). split; [done|]. by exists r'.
Qed.

Lemma triple_load x0 : triple (eq x0) (eq x0) (load_extra_origin_keys linked) (fun _ d => d = x0).
Proof.
  assert (forall names, triple (eq x0) (eq x0) (read_keys linked names) (fun _ d => d = x0)) as Hr.
  { induction names as [|name names IH].
    - eapply triple_conseq; [apply (triple_ret (eq x0) [] (eq x0))|done|done|by intros r d [_ <-]].
    - eapply triple_bind; [apply triple_attempt_read| |by intros e d [-> _]]. intros r.
      eapply triple_bind; [eapply triple_conseq; [exact IH|done|by intros d [-> _]|exact (fun _ _ H => H)]| |done].
      intros keys. destruct r; (eapply triple_conseq; [apply (triple_ret (eq x0) _ (eq x0))|done|by intros d ->|by intros r d [_ <-]]). }
  eapply triple_bind with (R := fun _ d => d = x0); [| |done].
  - eapply triple_conseq; [apply triple_attempt with (P := eq x0) (Q := fun _ d => d = x0)|done|done|by intros r d (r' & _ & ?)].
    apply triple_call; [done|by intros e n d <-|]. by intros d r d' [= <- <-].
  - intros [names|e].
    + eapply triple_conseq; [apply Hr|done|by intros d ->|done].
    + eapply triple_conseq; [apply (triple_ret (eq x0) [] (eq x0))|done|by intros d ->|by intros r d [_ <-]].
Qed.

(** What the first agent comes to: its own new identity, or the one it found. *)
Definition found (kp cp : string) (d0 : Disk) (v : Capability * list byte) (d : Disk) : Prop :=
  identity_of linked kp cp d0 = Some (v.2, v.1) /\ d = d0.

Lemma first_boot_steps generated drawn kp cp edge forced d0 :
  distinct_names kp cp -> settled d0 -> length generated = 32%nat ->
  let c := mint drawn forced (origin_identity generated) edge in
  representable c ->
  triple (in_step linked d0 kp cp generated (encode c)) (eq d0) (resolve_primary_identity linked generated drawn (Some kp) cp edge forced)
    (fun r d => in_step linked d0 kp cp generated (encode c) d /\
       forall v, r = Ok v -> v = (c, generated) /\ both_new linked kp cp generated (encode c) d \/ found kp cp d0 v d).
Proof.
  intros Hn Hd Hg c Hc. pose proof (decode_encode c Hc) as Edc. set (I := in_step linked d0 kp cp generated (encode c)).
  assert (I d0) as H00 by by left.
  set (Q := fun (r : result (Capability * list byte) CapError) d => I d /\
       forall v, r = Ok v -> v = (c, generated) /\ both_new linked kp cp generated (encode c) d \/ found kp cp d0 v d).
  assert (triple I (eq d0) (_ ← promote kp cp generated c; mret (c, generated)) Q) as Hfresh.
  { eapply triple_bind with (R := fun r d => I d /\ (is_ok r = true -> both_new linked kp cp generated (encode c) d)).
    - exact (promote_steps linked d0 kp cp generated c Hd Hn).
    - intros []. eapply triple_conseq; [apply (triple_ret I (c, generated))|done|exact (fun _ H => H)|].
      intros r d (-> & Hu & Hb). split; [done|]. intros v [= <-]. left. split; [done|by apply Hb].
    - intros e d [Hu _]. split; [done|]. by intros v [=]. }
  eapply triple_bind with (R := fun r d => d = d0 /\ exists r', r = Ok r' /\ forall v, r' = Ok v -> rd d0 kp = Some v).
  { eapply triple_conseq; [apply (triple_attempt_read d0)|by intros d <-|done|done]. }
  2: { by intros e d [-> (r' & [=] & _)]. }
  intros key. eapply triple_bind with (R := fun r d => d = d0 /\ (exists r', r = Ok r' /\ forall v, r' = Ok v -> rd d0 cp = Some v) /\
    forall v, key = Ok v -> rd d0 kp = Some v).
  { apply triple_each. intros d [-> (key' & [= <-] & Hk)].
    eapply triple_conseq; [apply (triple_attempt_read d0)|by intros d <-|by intros d <-|by intros r d [-> Hr]]. }
  2: { by intros e d (-> & (r' & [=] & _) & _). }
  intros capb. apply triple_each. intros d (-> & (capb' & [= <-] & Hb) & Hk).
  destruct key as [k|], capb as [b|]; [|exact Hfresh..]. specialize (Hk k eq_refl). specialize (Hb b eq_refl).
  destruct (decide (length k = 32%nat)) as [Hl|]; [|exact Hfresh]. destruct (decode b) as [c'|t] eqn:Ed.
  - eapply triple_conseq; [apply (triple_ret (eq d0) (c', k) (eq d0))|by intros d <-|by intros d <-|].
    intros r d [-> <-]. split; [done|]. intros v [= <-]. right. split; [|done]. by eapply identity_of_both.
  - eapply triple_conseq; [apply (triple_throw (eq d0) (CapDecode t) (eq d0))|by intros d <-|by intros d <-|]. intros r d [-> <-]. split; [done|]. by intros v [=].
Qed.

(** C25: A shared identity changes as a whole, but for one window.  Whatever files an agent finds and
    whatever call fails, at every moment of its start the key and the capability are both as it found
    them, or both the new ones -- and an agent that started by then serves the same token with the
    same key -- or, where a capability already lay there, the new key stands beside that capability,
    between the two renames; where none lay there no complete identity exists until both are new.
    One that comes up serves the identity it wrote whole, or the whole one it found and left. *)
Theorem shared_identity_changes_whole generated drawn kp cp edge forced with_extra s r s' :
  distinct_names kp cp -> settled (main s) -> length generated = 32%nat ->
  let c := mint drawn forced (origin_identity generated) edge in
  representable c ->
  resolve_serving_identity_with_token linked generated drawn (Some kp) cp edge with_extra forced s = (r, s') ->
  (exists l, moments s' = l ++ moments s /\ forall d x, (d, x) ∈ (main s', extra s') :: l ->
     rd d kp = rd (main s) kp /\ rd d cp = rd (main s) cp \/
     (rd d kp = Some generated /\ rd d cp = rd (main s) cp /\ (rd (main s) cp = None -> identity_of linked kp cp d = None)) \/
     forall generated' drawn' edge', exists keys, start linked generated' drawn' kp cp edge' d x = Ok {| cap := c; origin_keys := generated :: keys |}) /\
  (forall id, r = Ok id -> exists key, head (origin_keys id) = Some key /\ identity_of linked kp cp (main s') = Some (key, cap id) /\
     (key = generated /\ cap id = c \/ identity_of linked kp cp (main s) = Some (key, cap id) /\ main s' = main s)).
Proof.
  intros Hn Hm Hg c Hc E. pose proof (decode_encode c Hc) as Edc. set (I := in_step linked (main s) kp cp generated (encode c)).
  set (Q := fun (key : list byte) (c' : Capability) d => identity_of linked kp cp d = Some (key, c') /\
     (key = generated /\ c' = c \/ identity_of linked kp cp (main s) = Some (key, c') /\ d = main s)).
  assert (dtriple (fun d _ => I d) (fun d x => d = main s /\ x = extra s)
    (resolve_serving_identity_with_token linked generated drawn (Some kp) cp edge with_extra forced)
    (fun r d _ => I d /\ forall id, r = Ok id -> exists key, head (origin_keys id) = Some key /\ Q key (cap id) d)) as Ht.
  { eapply dtriple_bind; [eapply dtriple_conseq;
      [exact (dtriple_main _ _ _ _ (extra s) (first_boot_steps generated drawn kp cp edge forced (main s) Hn Hm Hg Hc))
      |by intros d x [Hu _]|done|exact (fun _ _ _ H => H)]| |].
    - intros [c' k]. apply dtriple_each. intros d x [[Hu Hv] ->].
      assert (Q k c' d) as HQ.
      { destruct (Hv _ eq_refl) as [[[= -> ->] [E1 E2]]|[Hi ->]]; (split; [|by auto]); [by eapply identity_of_both|exact Hi]. }
      eapply dtriple_bind with (R := fun _ d' _ => d' = d).
      + destruct with_extra.
        * eapply dtriple_conseq; [exact (dtriple_extra _ _ _ d (extra s) (triple_load (extra s)))|by intros d' x [-> _]|done|by intros r' d' x [-> _]].
        * eapply dtriple_conseq; [apply (dtriple_ret [] (fun d _ => I d))|done|exact (fun _ _ H => H)|by intros r' d' x (_ & -> & _)].
      + intros keys. eapply dtriple_conseq; [apply (dtriple_ret _ (fun d _ => I d))|done|exact (fun _ _ H => H)|].
        intros r' d' x (-> & ->). split; [done|]. intros id [= <-]. by exists k.
      + intros e d' x ->. split; [done|]. by intros id [=].
    - intros e d x [[Hu _] _]. split; [done|]. by intros id [=]. }
  destruct (Ht s r s' E) as [(l & El & Hl) [Hu Hv]]; [done|]. split; [|exact Hv]. exists l. split; [done|].
  intros d x Hin. assert (I d) as [Hsame|[[E1 E2]|[E1 E2]]].
  { apply elem_of_cons in Hin as [[= -> ->]|Hin]; [done|]. rewrite Forall_forall in Hl. exact (Hl _ Hin). }
  - by left.
  - right. left. split; [done|]. split; [done|]. intros Hnone. unfold identity_of. by rewrite E1, E2, Hnone.
  - right. right. intros generated' drawn' edge'. eexists. eapply (start_loads linked generated' drawn' kp cp edge' d x).
    by eapply identity_of_both.
Qed.
End Rotation.

(** ** Tokens *)

Lemma token_chunks_hex n : forall l, (length l <= n)%nat -> Forall (fun c => Ascii.eqb c "+" = false) l -> token_chunks l = hex_pairs l.
Proof.
  induction n as [|n IH]; intros l Hl Hf; [by destruct l; [|simpl in Hl; lia]|].
  destruct l as [|a [|b l]]; [done|done|]. rewrite !Forall_cons in Hf. destruct Hf as (Ha & _ & Hf). cbn [token_chunks hex_pairs].
  unfold from_str_radix16. rewrite (IH l) by (done || (simpl in Hl; lia)). rewrite Ha.
  destruct (nibble a), (nibble b); done.
Qed.

(** Without a plus sign a routing token is read exactly as 64 hexadecimal digits of either case,
    white space around them apart; anything else falls back to a fresh token, and no text makes the
    parser index out of its 32 bytes. *)
Theorem token_is_hex s :
  (contains_char "+" (trim s) = false -> parse_routing_token_hex s = hex_decode 32 (trim s)) /\
  (forall t, parse_routing_token_hex s = Some t -> length t = 32%nat).
Proof.
  unfold parse_routing_token_hex, hex_decode. rewrite list_ascii_length. change (32 * 2)%nat with 64%nat. split.
  - intros Hc. destruct (decide (String.length (trim s) ≠ 64%nat)); [done|]. eapply token_chunks_hex; [reflexivity|].
    clear -Hc. induction (trim s) as [|c t IH]; [by constructor|]. cbn [contains_char] in Hc. apply orb_false_iff in Hc as [Hc Ht].
    constructor; [exact Hc|by apply IH].
  - intros t. destruct (decide (String.length (trim s) ≠ 64%nat)) as [|Hl]; [done|]. apply dec_stable in Hl.
    assert (forall k (l : list ascii) t, length l = (2 * k)%nat -> token_chunks l = Some t -> length t = k) as Hk.
    { induction k as [|k IH]; intros l t' Hlen; [by destruct l; [intros [= <-]|]|].
      destruct l as [|a [|b l]]; simpl in Hlen; try lia. cbn [token_chunks].
      destruct (from_str_radix16 a b); [|done]. destruct (token_chunks l) as [bytes|] eqn:E; [|done]. intros [= <-].
      simpl. f_equal. eapply IH; [|done]. lia. }
    intros Ht. eapply Hk; [|exact Ht]. by rewrite list_ascii_length, Hl.
Qed.

(** The parser takes a plus sign for a first digit: sixty-four characters that are no hexadecimal
    number are a token. *)
Lemma plus_sign_is_accepted :
  let s := String.concat "" (repeat "+a" 32)%string in
  String.length s = 64%nat /\ hex_decode 32 s = None /\ parse_routing_token_hex s = Some (repeat (to_u8 10) 32).
Proof. vm_compute. by repeat split. Qed.

(** ** Concrete runs *)

#[local] Instance demo_x25519 : X25519 := { origin_identity k := map (fun b => to_u8 (u8 b + 1)) k }.
Definition demo_encode (c : Capability) : list byte := token c ++ origin c ++ as_bytes (edge_addr c).
Definition demo_decode (l : list byte) : result Capability string :=
  if (64 <=? Zlen l) then
    Ok {| token := take 32 l; origin := take 32 (drop 32 l); edge_addr := String.string_of_list_byte (drop 64 l) |}
  else Err "short"%string.
Definition demo_representable (c : Capability) : Prop := length (token c) = 32%nat /\ length (origin c) = 32%nat.
Lemma demo_decode_encode c : demo_representable c -> demo_decode (demo_encode c) = Ok c.
Proof.
  destruct c as [t o e]. intros [Ht Ho]. cbn [token origin] in *. unfold demo_decode, demo_encode. cbn [token origin edge_addr].
  assert (64 <=? Zlen (t ++ o ++ as_bytes e) = true) as -> by (apply Z.leb_le; rewrite !length_app, Ht, Ho, !Nat2Z.inj_add; lia). f_equal. f_equal.
  - by rewrite take_app_length'.
  - rewrite drop_app_length' by done. by rewrite take_app_length'.
  - rewrite app_assoc, drop_app_length' by (rewrite length_app; lia). apply String.string_of_list_byte_of_string.
Qed.
#[local] Instance demo_codec : CapabilityCodec :=
  { encode := demo_encode; decode := demo_decode; representable := demo_representable; decode_encode := demo_decode_encode }.

Definition demo_key (i : Z) : list byte := repeat (to_u8 i) 32.
Definition demo_cap : Capability := {| token := demo_key 9; origin := demo_key 8; edge_addr := "edge:443" |}.
Definition demo_main : Disk :=
  {| umask := 18;
     inodes := {[ 0%nat := {| mode := 384; content := demo_key 7; synced := true |};
                  1%nat := {| mode := 384; content := demo_encode demo_cap; synced := true |} ]};
     next := 2; dir := {[ "origin.key"%string := File 0; "capability.bin"%string := File 1 ]}; unsynced := [] |}.
Definition empty_dir : Disk := {| umask := 18; inodes := ∅; next := 0; dir := ∅; unsynced := [] |}.
Definition demo_dirs (m : Disk) (a : list Answer) : Dirs := {| main := m; extra := empty_dir; dir_answers := a; moments := [] |}.
Definition no_links (t : string) : option (list byte) := None.

Lemma demo_main_settled : settled demo_main.
Proof.
  split; [|done]. split.
  - intros i Hi. cbn [demo_main next inodes] in *. rewrite lookup_insert_ne by lia. by rewrite lookup_singleton_ne by lia.
  - intros q i. unfold candidates. cbn [demo_main dir unsynced map]. intros Hq%list_elem_of_singleton. symmetry in Hq.
    apply lookup_insert_Some in Hq as [[_ [= <-]]|[_ Hq]]; [by eexists|].
    apply lookup_singleton_Some in Hq as [_ [= <-]]. by eexists.
Qed.
Lemma empty_settled : settled empty_dir.
Proof. split; [|done]. split; [done|]. intros q i. unfold candidates. cbn. by intros Hq%list_elem_of_singleton. Qed.
Lemma demo_names : distinct_names "origin.key" "capability.bin".
Proof. unfold distinct_names. apply (bool_decide_eq_true_1 _). vm_compute. reflexivity. Qed.

Lemma demo_identity : identity_of no_links "origin.key" "capability.bin" demo_main = Some (demo_key 7, demo_cap).
Proof. vm_compute. reflexivity. Qed.
Lemma demo_origin : origin demo_cap = origin_identity (demo_key 7).
Proof. vm_compute. reflexivity. Qed.
Lemma demo_new_representable :
  representable (mint_capability_with_token (token demo_cap) (origin_identity (demo_key 3)) (edge_addr demo_cap)).
Proof. split; reflexivity. Qed.
Lemma demo_none : identity_of no_links "origin.key" "capability.bin" empty_dir = None.
Proof. reflexivity. Qed.
Lemma demo_minted : representable (mint (demo_key 4) (Some (demo_key 5)) (origin_identity (demo_key 3)) "edge:443").
Proof. split; reflexivity. Qed.

(** The second of the two renames fails. *)
Definition demo_failure : list Answer := repeat Done 31 ++ [Fails (Os "read-only") 0].

Lemma rotation_never_strands_witness :
  exists s', rotate_origin_key no_links (demo_key 3) "origin.key" "capability.bin" (demo_dirs demo_main demo_failure) = (Err (CapIo (Os "read-only")), s') /\
    identity_of no_links "origin.key" "capability.bin" (main s') = Some (demo_key 3, demo_cap) /\
    start no_links (demo_key 1) (demo_key 2) "origin.key" "capability.bin" "x" (main s') (extra s')
      = Ok {| cap := demo_cap; origin_keys := [demo_key 3; demo_key 7] |} /\
    serves no_links "origin.key" "capability.bin" demo_cap (main s', extra s').
Proof.
  set (seen := fun p : result Capability CapError * Dirs => (p.1, identity_of no_links "origin.key" "capability.bin" (main p.2),
      start no_links (demo_key 1) (demo_key 2) "origin.key" "capability.bin" "x" (main p.2) (extra p.2))).
  assert (seen (rotate_origin_key no_links (demo_key 3) "origin.key" "capability.bin" (demo_dirs demo_main demo_failure)) =
    (Err (CapIo (Os "read-only")), Some (demo_key 3, demo_cap), Ok {| cap := demo_cap; origin_keys := [demo_key 3; demo_key 7] |})) as Hrun
    by (vm_compute; reflexivity).
  destruct (rotate_origin_key no_links (demo_key 3) "origin.key" "capability.bin" (demo_dirs demo_main demo_failure)) as [r s'] eqn:E.
  exists s'. unfold seen in Hrun. cbn [fst snd] in Hrun. apply pair_equal_spec in Hrun as [[Hr Hi]%pair_equal_spec Hs]. subst r.
  split; [reflexivity|]. split; [exact Hi|]. split; [exact Hs|].
  destruct (rotation_never_strands no_links (demo_key 3) "origin.key" "capability.bin" (demo_dirs demo_main demo_failure) _ s' (demo_key 7) demo_cap
    demo_names demo_main_settled empty_settled eq_refl demo_identity demo_origin demo_new_representable E) as [(l & _ & Hv) _].
  exact (Forall_inv Hv).
Defined.

Lemma shared_identity_changes_whole_witness :
  exists id s', resolve_serving_identity_with_token no_links (demo_key 3) (demo_key 4) (Some "origin.key") "capability.bin" "edge:443" true
      (Some (demo_key 5)) (demo_dirs empty_dir []) = (Ok id, s') /\
    length (moments s') = 25%nat /\ token (cap id) = demo_key 5 /\
    exists key, head (origin_keys id) = Some key /\ identity_of no_links "origin.key" "capability.bin" (main s') = Some (key, cap id) /\ key = demo_key 3.
Proof.
  assert ((fun p => (match p.1 with Ok id => Some (token (cap id)) | Err _ => None end, length (moments p.2)))
    (resolve_serving_identity_with_token no_links (demo_key 3) (demo_key 4)
    (Some "origin.key") "capability.bin" "edge:443" true (Some (demo_key 5)) (demo_dirs empty_dir [])) = (Some (demo_key 5), 25%nat)) as Hrun
    by (vm_compute; reflexivity).
  destruct (resolve_serving_identity_with_token no_links (demo_key 3) (demo_key 4) (Some "origin.key") "capability.bin" "edge:443" true
      (Some (demo_key 5)) (demo_dirs empty_dir [])) as [r s'] eqn:E.
  cbn [fst snd] in Hrun. apply pair_equal_spec in Hrun as [Hr Hl]. destruct r as [id|e]; [|discriminate Hr]. injection Hr as Ht.
  exists id, s'. split; [reflexivity|]. split; [exact Hl|]. split; [exact Ht|].
  destruct (shared_identity_changes_whole no_links (demo_key 3) (demo_key 4) "origin.key" "capability.bin" "edge:443" (Some (demo_key 5)) true
    (demo_dirs empty_dir []) (Ok id) s' demo_names empty_settled eq_refl demo_minted E) as [_ Hv].
  destruct (Hv id eq_refl) as (key & Hh & Hi & [[-> _]|[Hf _]]).
  - exists (demo_key 3). split; [exact Hh|]. split; [exact Hi|reflexivity].
  - pose proof (eq_trans (eq_sym demo_none) Hf) as Hbad. discriminate Hbad.
Defined.

(** A capability that lies there without its key stands beside the new key for a moment: an agent
    that starts then publishes an identity whose private key it does not hold. *)
Lemma stale_capability_is_served :
  let stale := {| umask := 18; inodes := {[ 1%nat := {| mode := 384; content := demo_encode demo_cap; synced := true |} ]};
                  next := 2; dir := {[ "capability.bin"%string := File 1 ]}; unsynced := [] |} in
  let run := resolve_serving_identity no_links (demo_key 3) (demo_key 4) (Some "origin.key") "capability.bin" "edge:443" false (demo_dirs stale []) in
  is_ok run.1 = true /\
  existsb (fun p => bool_decide (identity_of no_links "origin.key" "capability.bin" p.1 = Some (demo_key 3, demo_cap))) (moments run.2) = true /\
  origin_identity (demo_key 3) <> origin demo_cap.
Proof. vm_compute. by split_and!. Qed.

(** A key file that cannot be read for a moment is taken for a missing one: the shared identity is
    replaced, token and all. *)
Lemma read_error_replaces_identity :
  exists id s', resolve_serving_identity no_links (demo_key 3) (demo_key 4) (Some "origin.key") "capability.bin" "edge:443" false
      (demo_dirs demo_main [Fails (Os "too many open files") 0]) = (Ok id, s') /\
    token (cap id) = demo_key 4 /\
    identity_of no_links "origin.key" "capability.bin" (main s') = Some (demo_key 3, cap id) /\ token demo_cap = demo_key 9.
Proof.
  set (c := {| token := demo_key 4; origin := demo_key 4; edge_addr := "edge:443" |}).
  assert ((fun p => (p.1, identity_of no_links "origin.key" "capability.bin" (main p.2)))
    (resolve_serving_identity no_links (demo_key 3) (demo_key 4) (Some "origin.key") "capability.bin" "edge:443" false
      (demo_dirs demo_main [Fails (Os "too many open files") 0])) =
    (Ok {| cap := c; origin_keys := [demo_key 3] |}, Some (demo_key 3, c))) as Hrun by (vm_compute; reflexivity).
  destruct (resolve_serving_identity no_links (demo_key 3) (demo_key 4) (Some "origin.key") "capability.bin" "edge:443" false
      (demo_dirs demo_main [Fails (Os "too many open files") 0])) as [r s'] eqn:E.
  cbn [fst snd] in Hrun. apply pair_equal_spec in Hrun as [-> Hi]. eexists _, s'. split; [reflexivity|]. split; [reflexivity|].
  split; [exact Hi|reflexivity].
Qed.
