(* ===== verification/AcmeWorld.v ===== *)
(** * AcmeWorld: what the certificate code asks of the outside

    The requests of the certificate client -- HTTP, the control plane's DNS records, DNS lookups --
    and a state monad over an outside that answers them: any function of all that was asked and
    answered before.  The trace of questions and answers, the latest first, and the clock are the
    state; a theorem speaks about the trace. *)
From S2P Require Import Prelude Text Json Net.

#[local] Open Scope Z_scope.

(** [reqwest::Response]: its status with the text it displays as, the body read as JSON and as text. *)
Record Response := {
  status : Z; status_line : string; headers : list (string * string); json : result Value string; text : result string string
}.
Definition is_success (r : Response) : bool := between 200 (status r) 299.
Inductive Method := GET | POST | HEAD.

Inductive Ask :=
| Http (method : Method) (url : string) (with_headers : list (string * string)) (query : list (string * string)) (body : option Value)
| SetTxt (name value : string)
| ClearTxt (name : string)
| NsLookup (name : string)
| IpLookup (host : string)
| TxtAt (server : IpAddr) (name : string)
| SoaAt (server : IpAddr) (zone : string)
| Random
| SystemTime
| ModifiedAt (path : string)
| SystemResolver
| Sleep (d : Z).

(** [Random] is the system's generator, [SystemTime] its clock, [ModifiedAt] the [mtime] of a file,
    [SystemResolver] the resolver configuration; an NS lookup answers with records, of which only those of type NS name a host. *)
Definition Reply (a : Ask) : Type :=
  match a with
  | Http _ _ _ _ _ => result Response string
  | SetTxt _ _ | ClearTxt _ => result unit string
  | NsLookup _ => result (list (option string)) string
  | IpLookup _ => result (list IpAddr) string
  | TxtAt _ _ => result (list string) string
  | SoaAt _ _ => bool
  | Random => list byte
  | SystemTime => Z
  | ModifiedAt _ => option Z
  | SystemResolver => result unit string
  | Sleep _ => unit
  end.
Definition Asked : Type := { a : Ask & Reply a }.
Definition asked (a : Ask) (r : Reply a) : Asked := existT a r.

(** The outside, and how long it takes beyond what is asked of it. *)
Class Outside := {
  respond : list Asked -> forall a, Reply a;
  delay : list Asked -> Ask -> Z;
}.

Record World := { clock : Z; trace : list Asked }.
(** [OutOfFuel]: a loop of the model was cut; the theorems on termination exclude it. *)
Inductive Failure := Msg (s : string) | OutOfFuel.
Definition N (A : Type) : Type := World -> result A Failure * World.
#[global] Instance n_ret : MRet N := fun A a w => (Ok a, w).
#[global] Instance n_bind : MBind N := fun A B f m w =>
  match m w with
  | (Ok a, w) => f a w
  | (Err e, w) => (Err e, w)
  end.
Definition fail {A} (s : string) : N A := fun w => (Err (Msg s), w).
Definition out_of_fuel {A} : N A := fun w => (Err OutOfFuel, w).
Definition n_attempt {A} (m : N A) : N (result A Failure) := fun w => let '(r, w) := m w in (Ok r, w).
Definition lift {A} (r : result A string) : N A := fun w => (map_err Msg r, w).
(** [Instant::now]. *)
Definition now : N Z := fun w => (Ok (clock w), w).

Section Ask.
Context `{Outside}.
Definition passes (a : Ask) : Z := match a with Sleep d => Z.max 0 d | _ => 0 end.
Definition ask (a : Ask) : N (Reply a) := fun w =>
  let r := respond (trace w) a in
  (Ok r, {| clock := clock w + passes a + Z.max 0 (delay (trace w) a); trace := asked a r :: trace w |}).
Definition sleep (d : Z) : N unit := ask (Sleep d).
Definition get (url : string) (hdrs query : list (string * string)) : N (result Response string) :=
  ask (Http GET url hdrs query None).
End Ask.

(** ** Reasoning about a run

    [ends P m Q]: a run of [m] from a world in [P] ends in [Q], which sees the world it started in. *)
Definition ends {A} (P : World -> Prop) (m : N A) (Q : World -> result A Failure -> World -> Prop) : Prop :=
  forall w r w', P w -> m w = (r, w') -> Q w r w'.

(** A signed request carries a body; it and a change of a DNS record have an effect outside. *)
Definition signed (a : Ask) : Prop := match a with Http POST _ _ _ (Some _) => True | _ => False end.
Definition changes_record (a : Ask) : Prop := match a with SetTxt _ _ | ClearTxt _ => True | _ => False end.
Definition quiet (x : Asked) : Prop := ~ signed (projT1 x) /\ ~ changes_record (projT1 x).

(** Nothing asked is forgotten, only quiet questions are asked, and time goes on. *)
Definition extends (w w' : World) : Prop := clock w <= clock w' /\ exists l, trace w' = l ++ trace w /\ Forall quiet l.
#[global] Instance extends_preorder : PreOrder extends.
Proof.
  split; [intros w; split; [lia|by exists []]|].
  intros w1 w2 w3 [H1 (l1 & E1 & Q1)] [H2 (l2 & E2 & Q2)]. split; [lia|]. exists (l2 ++ l1).
  rewrite E2, E1, app_assoc. split; [done|by apply Forall_app].
Qed.
Definition grows {A} (m : N A) : Prop := forall w r w', m w = (r, w') -> extends w w'.

Lemma grows_ret {A} (a : A) : grows (mret a).
Proof. by intros w r w' [= <- <-]. Qed.
Lemma grows_fail {A} s : grows (fail s : N A).
Proof. by intros w r w' [= <- <-]. Qed.
Lemma grows_fuel {A} : grows (out_of_fuel : N A).
Proof. by intros w r w' [= <- <-]. Qed.
Lemma grows_lift {A} (x : result A string) : grows (lift x).
Proof. by intros w r w' [= <- <-]. Qed.
Lemma grows_now : grows now.
Proof. by intros w r w' [= <- <-]. Qed.
Lemma grows_attempt {A} (m : N A) : grows m -> grows (n_attempt m).
Proof. intros Hm w r w'. unfold n_attempt. destruct (m w) as [r1 w1] eqn:E. intros [= <- <-]. by eapply Hm. Qed.
Lemma grows_bind {A B} (m : N A) (f : A -> N B) : grows m -> (forall a, grows (f a)) -> grows (x ← m; f x).
Proof.
  intros Hm Hf w r w'. unfold mbind, n_bind. destruct (m w) as [[a|e] w1] eqn:E; intros E2.
  - etransitivity; [by eapply Hm|by eapply Hf].
  - injection E2 as <- <-. by eapply Hm.
Qed.
Lemma passes_pos a : 0 <= passes a.
Proof. unfold passes. destruct a; lia. Qed.
Lemma grows_ask `{Outside} a : ~ signed a -> ~ changes_record a -> grows (ask a).
Proof.
  intros Hs Hc w r w' [= <- <-]. pose proof (passes_pos a). split; [cbn [clock]; lia|].
  eexists [_]. split; [done|]. by repeat constructor.
Qed.
Create HintDb outside.
#[export] Hint Resolve grows_ret grows_fail grows_fuel grows_lift grows_now grows_attempt : outside.
#[export] Hint Extern 1 (grows (ask ?a)) => refine (grows_ask a _ _); cbn; tauto : outside.
(** Growth along the shape of a program. *)
Ltac grow := repeat first [solve [auto with outside] | apply grows_bind; [|intros ?] | case_match].

Lemma ends_bind {A B} P (m : N A) R (f : A -> N B) Q :
  ends P m R -> (forall w0 a, P w0 -> ends (fun w => R w0 (Ok a) w) (f a) (fun _ r w' => Q w0 r w')) ->
  (forall w0 e w, P w0 -> R w0 (Err e) w -> Q w0 (Err e) w) -> ends P (x ← m; f x) Q.
Proof.
  intros Hm Hf He w r w' HP. unfold mbind, n_bind. destruct (m w) as [[a|e] w1] eqn:E; intros E2.
  - eapply (Hf w a HP w1); [by eapply Hm|done].
  - injection E2 as <- <-. apply He; [done|]. by eapply Hm.
Qed.
Lemma ends_conseq {A} (P P' : World -> Prop) (m : N A) Q Q' :
  ends P' m Q' -> (forall w, P w -> P' w) -> (forall w r w', P w -> Q' w r w' -> Q w r w') -> ends P m Q.
Proof. intros Hm HP HQ w r w' H1 E. apply HQ; [done|]. eapply Hm; [by apply HP|done]. Qed.

(** What the latest question was. *)
Lemma ask_run `{Outside} a w : ask a w = (Ok (respond (trace w) a),
  {| clock := clock w + passes a + Z.max 0 (delay (trace w) a); trace := asked a (respond (trace w) a) :: trace w |}).
Proof. done. Qed.
