(* ===== verification/Dns01.v ===== *)
(** * Dns01: is the challenge record visible ([dns01_authoritative.rs], [dns01_propagation.rs])

    The two waits before the CA is told to validate: on every authoritative nameserver of the zone,
    and on public resolvers over HTTPS.  The resolver of [hickory] and [reqwest] are the outside of
    [AcmeWorld].  Both loops are cut by fuel computed from their own deadline; the theorems show
    that it never runs out. *)
From S2P Require Import Prelude Text Json Net AcmeWorld.

#[local] Open Scope Z_scope.

Fixpoint trim_start_char (c : ascii) (s : string) : string :=
  match s with
  | EmptyString => EmptyString
  | String a r => if Ascii.eqb a c then trim_start_char c r else s
  end.
Fixpoint trim_end_char (c : ascii) (s : string) : string :=
  match s with
  | EmptyString => EmptyString
  | String a r =>
      match trim_end_char c r with
      | EmptyString => if Ascii.eqb a c then EmptyString else String a EmptyString
      | r => String a r
      end
  end.
Definition trim_char (c : ascii) (s : string) : string := trim_end_char c (trim_start_char c s).

Definition is_nil {A} (l : list A) : bool := match l with [] => true | _ => false end.

(** [{:?}] of a duration of whole seconds, and of a list of strings. *)
Definition show_secs (d : Z) : string := (show (d / SECOND) +:+ "s")%string.
Definition debug_strings (l : list string) : string := ("[" +:+ join ", " (map debug_str l) +:+ "]")%string.

(** ** Authoritative nameservers *)

Definition UNREACHABLE_MARKER : string := "authoritative nameservers unreachable from this host".
Definition POLL_INTERVAL : Z := 5 * SECOND.
Definition AUTHORITATIVE_TIMEOUT : Z := 300 * SECOND.

Inductive Probe := Present | Absent | Unreachable.
#[global] Instance probe_eq_dec : EqDecision Probe.
Proof. solve_decision. Defined.

Notation Server := (string * IpAddr)%type (only parsing).
Notation Probed := (string * IpAddr * Probe)%type (only parsing).
Definition server_label (host : string) (ip : IpAddr) : string := (host +:+ " (" +:+ show_ip ip +:+ ")")%string.

Definition answered (probes : list Probed) (host : string) : bool :=
  existsb (fun p => String.eqb p.1.1 host && match p.2 with Present | Absent => true | Unreachable => false end) probes.
Definition missing_of (p : Probed) : option string :=
  match p.2 with Absent => Some (server_label p.1.1 p.1.2) | _ => None end.
Definition unreachable_of (probes : list Probed) (p : Probed) : option string :=
  match p.2 with
  | Unreachable => if answered probes p.1.1 then None else Some (server_label p.1.1 p.1.2)
  | _ => None
  end.
Definition pending_servers (probes : list Probed) : list string * list string :=
  (omap missing_of probes, omap (unreachable_of probes) probes).

Section Waits.
Context `{Outside}.

(** The candidates of [zone_of]: the name less its first labels, never the last label alone. *)
Fixpoint first_zone (candidates : list string) (name : string) : N string :=
  match candidates with
  | [] => fail ("no zone with an NS RRset found for " +:+ name)
  | c :: candidates =>
      r ← ask (NsLookup (c +:+ "."));
      if is_ok r then mret c else first_zone candidates name
  end.
Definition zone_of (name : string) : N string :=
  let labels := split_char "." (trim_end_char "." name) in
  first_zone (map (fun start => join "." (drop start labels)) (seq 0 (length labels - 1))) name.

Fixpoint resolve_hosts (records : list (option string)) : N (list Server) :=
  match records with
  | [] => mret []
  | None :: records => resolve_hosts records
  | Some host :: records =>
      r ← ask (IpLookup host);
      rest ← resolve_hosts records;
      mret (match r with Ok ips => map (fun ip => (host, ip)) ips | Err _ => [] end ++ rest)
  end.
Definition authoritative_addrs (zone : string) : N (list Server) :=
  ns ← ask (NsLookup (zone +:+ "."));
  match ns with
  | Err e => fail ("NS lookup for " +:+ zone +:+ " failed: " +:+ e)
  | Ok records =>
      out ← resolve_hosts records;
      match out with
      | [] => fail ("no authoritative nameserver addresses resolved for " +:+ zone)
      | _ => mret out
      end
  end.

Definition serves_value (r : result (list string) string) (expected : string) : bool :=
  match r with Ok values => existsb (String.eqb expected) values | Err _ => false end.
Definition probe (server : IpAddr) (name expected zone : string) : N Probe :=
  txt ← ask (TxtAt server (name +:+ "."));
  if serves_value txt expected then mret Present
  else
    soa ← ask (SoaAt server (zone +:+ "."));
    mret (if soa : bool then Absent else Unreachable).

Fixpoint probe_all (servers : list Server) (name expected zone : string) : N (list Probed) :=
  match servers with
  | [] => mret []
  | (host, ip) :: servers =>
      p ← probe ip name expected zone;
      rest ← probe_all servers name expected zone;
      mret ((host, ip, p) :: rest)
  end.

Definition unreachable_error (zone : string) (unreachable : list string) : string :=
  (UNREACHABLE_MARKER +:+ ": none of " +:+ zone +:+ "'s authoritative nameservers answered from this host ("
    +:+ join ", " unreachable +:+ "). This is almost always outbound DNS (UDP/53) being blocked locally, not a propagation problem.")%string.
Definition lagging_error (record_name zone : string) (timeout : Z) (missing unreachable : list string) : string :=
  let detail := match missing with [] => "" | _ => "still missing from: " +:+ join ", " missing end%string in
  let detail := match unreachable with
    | [] => detail
    | _ => ((if is_empty detail then "" else detail +:+ "; ") +:+ "unreachable from this host: " +:+ join ", " unreachable)%string
    end in
  ("TXT " +:+ record_name +:+ " is not yet served by every authoritative nameserver of " +:+ zone +:+ " after " +:+ show_secs timeout
    +:+ " -- " +:+ detail +:+ ". Let's Encrypt validates against these servers from multiple perspectives, so triggering validation now would fail secondary validation.")%string.

(** One turn of [wait_for_all]: [None] goes on. *)
Fixpoint wait_rounds (fuel : nat) (timeout deadline : Z) (servers : list Server) (name expected zone : string) : N unit :=
  match fuel with
  | O => out_of_fuel
  | S fuel =>
      probes ← probe_all servers name expected zone;
      let '(missing, unreachable) := pending_servers probes in
      if Nat.eqb (length unreachable) (length servers) then fail (unreachable_error zone unreachable)
      else if is_nil missing && is_nil unreachable then mret tt
      else
        t ← now;
        if deadline <=? t then fail (lagging_error name zone timeout missing unreachable)
        else
          _ ← sleep POLL_INTERVAL;
          wait_rounds fuel timeout deadline servers name expected zone
  end.
Definition rounds (timeout interval : Z) : nat := Z.to_nat (timeout / interval + 2).
Definition wait_for_all (timeout : Z) (record_name expected_value : string) : N unit :=
  zone ← zone_of record_name;
  servers ← authoritative_addrs zone;
  start ← now;
  wait_rounds (rounds timeout POLL_INTERVAL) timeout (start + timeout) servers record_name expected_value zone.

(** ** Public resolvers *)

Definition DEFAULT_RESOLVER_URLS : list string := ["https://cloudflare-dns.com/dns-query"; "https://dns.google/resolve"]%string.
Definition DEFAULT_TIMEOUT : Z := 180 * SECOND.
Definition DEFAULT_INTERVAL : Z := 3 * SECOND.
Definition DEFAULT_INITIAL_DELAY : Z := 5 * SECOND.
Definition CLOUDFLARE_DOH : string := "https://cloudflare-dns.com/dns-query".
Definition CLOUDFLARE_PURGE_URL : string := "https://cloudflare-dns.com/api/v1/purge".

Record PropagationWaiter := {
  resolver_urls : list string; timeout : Z; interval : Z; cloudflare_doh_url : string; cloudflare_purge_url : string;
  initial_delay : Z
}.
Definition with_interval (urls : list string) (timeout interval : Z) : PropagationWaiter :=
  {| resolver_urls := urls; timeout := timeout; interval := interval; cloudflare_doh_url := CLOUDFLARE_DOH;
     cloudflare_purge_url := CLOUDFLARE_PURGE_URL; initial_delay := DEFAULT_INITIAL_DELAY |}.
Definition new_waiter (urls : list string) (timeout : Z) : PropagationWaiter := with_interval urls timeout DEFAULT_INTERVAL.
Definition with_initial_delay (d : Z) (p : PropagationWaiter) : PropagationWaiter :=
  {| resolver_urls := resolver_urls p; timeout := timeout p; interval := interval p; cloudflare_doh_url := cloudflare_doh_url p;
     cloudflare_purge_url := cloudflare_purge_url p; initial_delay := d |}.

(** The TXT values in an answer of DNS over HTTPS. *)
Definition doh_values (v : Value) : list string :=
  map (trim_char Net.quote) (omap (fun a => get_str a "data") (default [] (let? a := jget v "Answer" in as_array a))).

Definition lookup (resolver_url name : string) : N (result (list string) string) :=
  resp ← ask (Http GET resolver_url [("accept", "application/dns-json")]%string [("name"%string, name); ("type", "TXT")%string] None);
  match resp with
  | Err e => mret (Err e)
  | Ok r =>
      if is_success r then mret (let* v := json r in Ok (doh_values v))
      else mret (Err ("resolver returned " +:+ status_line r)%string)
  end.

Record Round := { cloudflare_missed : bool; all_agree : bool; last_seen : list string }.
Fixpoint ask_resolvers (p : PropagationWaiter) (urls : list string) (name expected : string) (st : Round) : N Round :=
  match urls with
  | [] => mret st
  | url :: urls =>
      r ← lookup url name;
      let matched := serves_value r expected in
      let seen := match r with Ok values => if matched then last_seen st else values | Err _ => last_seen st end in
      ask_resolvers p urls name expected
        {| cloudflare_missed := cloudflare_missed st || negb matched && String.eqb url (cloudflare_doh_url p);
           all_agree := all_agree st && matched; last_seen := seen |}
  end.
Definition purge_cloudflare (p : PropagationWaiter) (name : string) : N unit :=
  _ ← ask (Http POST (cloudflare_purge_url p) [] [("domain"%string, name); ("type", "TXT")%string] None);
  mret tt.
Definition invisible_error (p : PropagationWaiter) (name : string) (seen : list string) : string :=
  ("TXT record for " +:+ name +:+ " did not become publicly resolvable everywhere within " +:+ show_secs (timeout p)
    +:+ " across " +:+ show (Zlen (resolver_urls p)) +:+ " resolver(s) (last seen: " +:+ debug_strings seen +:+ ")")%string.
Fixpoint wait_loop (fuel : nat) (p : PropagationWaiter) (deadline : Z) (name expected : string) (seen : list string) : N unit :=
  match fuel with
  | O => out_of_fuel
  | S fuel =>
      st ← ask_resolvers p (resolver_urls p) name expected {| cloudflare_missed := false; all_agree := true; last_seen := seen |};
      if all_agree st then mret tt
      else
        t ← now;
        if deadline <=? t then fail (invisible_error p name (last_seen st))
        else
          _ ← (if cloudflare_missed st then purge_cloudflare p name else mret tt);
          _ ← sleep (interval p);
          wait_loop fuel p deadline name expected (last_seen st)
  end.
Definition wait_for (p : PropagationWaiter) (record_name expected_value : string) : N unit :=
  _ ← sleep (initial_delay p);
  start ← now;
  wait_loop (rounds (timeout p) (interval p)) p (start + timeout p) record_name expected_value [].
End Waits.

(** ** The clock bounds the rounds *)

Section Rounds.
Context `{Outside}.
Lemma grows_probe ip name expected zone : grows (probe ip name expected zone).
Proof. unfold probe. grow. Qed.
#[local] Hint Resolve grows_probe : outside.
Lemma grows_probe_all servers name expected zone : grows (probe_all servers name expected zone).
Proof. induction servers as [|[host ip] servers IH]; cbn [probe_all]; grow. Qed.
Lemma grows_lookup url name : grows (lookup url name).
Proof. unfold lookup. grow. Qed.
#[local] Hint Resolve grows_probe_all grows_lookup : outside.
Lemma grows_ask_resolvers p urls name expected st : grows (ask_resolvers p urls name expected st).
Proof. revert st. induction urls as [|url urls IH]; intros st; cbn [ask_resolvers]; grow. Qed.
Lemma grows_purge p name : grows (purge_cloudflare p name).
Proof. unfold purge_cloudflare. grow. Qed.
Lemma grows_sleep d : grows (sleep d).
Proof. unfold sleep. grow. Qed.
#[local] Hint Resolve grows_ask_resolvers grows_purge grows_sleep : outside.

Lemma grows_wait_rounds fuel t d servers name expected zone : grows (wait_rounds fuel t d servers name expected zone).
Proof. induction fuel as [|fuel IH]; cbn [wait_rounds]; grow. Qed.
Lemma grows_wait_loop fuel p d name expected seen : grows (wait_loop fuel p d name expected seen).
Proof. revert seen. induction fuel as [|fuel IH]; intros seen; cbn [wait_loop]; grow. Qed.

(** A sleep takes at least as long as it says. *)
Lemma sleep_run d w r w' : 0 <= d -> sleep d w = (r, w') -> r = Ok tt /\ clock w + d <= clock w' /\ extends w w'.
Proof.
  intros Hd E. pose proof (grows_sleep d w r w' E) as He. unfold sleep in E. rewrite ask_run in E. injection E as <- <-.
  split; [by destruct (respond _ _)|]. split; [|done]. cbn [clock passes]. lia.
Qed.

(** Fuel for the time left before the deadline: a turn without progress costs an interval. *)
Definition enough (fuel : nat) (interval deadline t : Z) : Prop := deadline - t < (Z.of_nat fuel - 1) * interval /\ (1 <= fuel)%nat.

Lemma rounds_enough timeout interval t : 0 <= timeout -> 0 < interval -> enough (rounds timeout interval) interval (t + timeout) t.
Proof.
  intros Ht Hi. unfold enough, rounds. assert (0 <= timeout / interval) by by apply Z.div_pos.
  rewrite Z2Nat.id by lia. pose proof (Z.div_mod timeout interval ltac:(lia)). pose proof (Z.mod_pos_bound timeout interval Hi).
  split; [nia|lia].
Qed.
Lemma enough_next fuel interval deadline t t' :
  0 < interval -> enough (S fuel) interval deadline t -> t < deadline -> t + interval <= t' -> enough fuel interval deadline t'.
Proof. intros Hi [He _] Hd Ht. split; [nia|]. nia. Qed.

(** ** What a round of probes saw *)

(** The trace [l] shows what a probe found. *)
Definition served (name expected : string) (ip : IpAddr) (l : list Asked) : Prop :=
  exists values, asked (TxtAt ip (name +:+ ".")) (Ok values) ∈ l /\ expected ∈ values.
Definition probe_seen (name expected zone : string) (l : list Asked) (p : Probed) : Prop :=
  match p.2 with
  | Present => served name expected p.1.2 l
  | Absent => asked (SoaAt p.1.2 (zone +:+ ".")) true ∈ l /\
      exists r, asked (TxtAt p.1.2 (name +:+ ".")) r ∈ l /\ serves_value r expected = false
  | Unreachable => asked (SoaAt p.1.2 (zone +:+ ".")) false ∈ l
  end.

Lemma serves_value_spec r expected : serves_value r expected = true <-> exists values, r = Ok values /\ expected ∈ values.
Proof.
  destruct r as [values|e]; cbn [serves_value]; [|by split; [|intros (? & ? & ?)]]. rewrite existsb_exists. split.
  - intros (x & Hx & ->%String.eqb_eq). exists values. split; [done|]. by apply list_elem_of_In.
  - intros (? & [= <-] & Hx). exists expected. split; [by apply list_elem_of_In|apply String.eqb_refl].
Qed.

Lemma probe_seen_mono name expected zone l l' p : l ⊆ l' -> probe_seen name expected zone l p -> probe_seen name expected zone l' p.
Proof. unfold probe_seen, served. destruct p as [[h ip] []]; cbn [fst snd]; set_solver. Qed.

Lemma probe_run ip name expected zone w r w' : probe ip name expected zone w = (r, w') ->
  exists p l, r = Ok p /\ trace w' = l ++ trace w /\ forall host, probe_seen name expected zone l (host, ip, p).
Proof.
  unfold probe, mbind, n_bind. rewrite ask_run. set (txt := respond (trace w) (TxtAt ip (name +:+ "."))). cbn [trace].
  destruct (serves_value txt expected) eqn:Es.
  - intros [= <- <-]. exists Present, [asked (TxtAt ip (name +:+ ".")) txt]. split; [done|]. split; [done|]. intros host.
    apply serves_value_spec in Es as (values & Ev & Hin). exists values. cbn [fst snd]. rewrite <-Ev. split; [by left|done].
  - rewrite ask_run. cbn [trace]. set (soa := respond _ (SoaAt ip (zone +:+ "."))). intros [= <- <-].
    exists (if soa then Absent else Unreachable), [asked (SoaAt ip (zone +:+ ".")) soa; asked (TxtAt ip (name +:+ ".")) txt].
    split; [done|]. split; [done|]. intros host. unfold probe_seen. cbn [fst snd].
    destruct soa; [|by left]. split; [by left|]. exists txt. split; [by right; left|done].
Qed.

Lemma probe_all_run servers name expected zone w r w' : probe_all servers name expected zone w = (r, w') ->
  exists probes l, r = Ok probes /\ trace w' = l ++ trace w /\ map fst probes = servers /\ Forall (probe_seen name expected zone l) probes.
Proof.
  revert w r w'. induction servers as [|[host ip] servers IH]; intros w r w'; cbn [probe_all].
  - intros [= <- <-]. exists [], []. by repeat split.
  - unfold mbind at 1, n_bind at 1. destruct (probe ip name expected zone w) as [r1 w1] eqn:E1.
    apply probe_run in E1 as (p & l1 & -> & El1 & Hp). unfold mbind, n_bind.
    destruct (probe_all servers name expected zone w1) as [r2 w2] eqn:E2.
    destruct (IH _ _ _ E2) as (probes & l2 & -> & El2 & Em & Hf). intros [= <- <-].
    exists ((host, ip, p) :: probes), (l2 ++ l1). split; [done|]. split; [by rewrite El2, El1, app_assoc|].
    split; [by cbn; rewrite Em|]. apply Forall_cons. split; [eapply probe_seen_mono; [|apply Hp]; set_solver|].
    eapply Forall_impl; [exact Hf|]. intros q. apply probe_seen_mono. set_solver.
Qed.

Lemma wait_rounds_run fuel timeout deadline servers name expected zone w r w' :
  servers <> [] -> enough fuel POLL_INTERVAL deadline (clock w) ->
  wait_rounds fuel timeout deadline servers name expected zone w = (r, w') ->
  exists probes l rest, trace w' = l ++ rest ++ trace w /\ map fst probes = servers /\ Forall (probe_seen name expected zone l) probes /\
  let '(missing, unreachable) := pending_servers probes in
  match r with
  | Ok _ => missing = [] /\ unreachable = []
  | Err (Msg m) =>
      m = unreachable_error zone unreachable /\ length unreachable = length servers \/
      m = lagging_error name zone timeout missing unreachable /\ deadline <= clock w' /\ (missing <> [] \/ unreachable <> [])
  | Err OutOfFuel => False
  end.
Proof.
  intros Hs. revert w r w'. induction fuel as [|fuel IH]; intros w r w' Hf; [destruct Hf; lia|].
  cbn [wait_rounds]. unfold mbind at 1, n_bind at 1.
  destruct (probe_all servers name expected zone w) as [r1 w1] eqn:E1. pose proof (grows_probe_all _ _ _ _ _ _ _ E1) as [Hclock _].
  apply probe_all_run in E1 as (probes & l & -> & El & Em & Hp).
  destruct (pending_servers probes) as [missing unreachable] eqn:Ep.
  destruct (Nat.eqb_spec (length unreachable) (length servers)) as [Hu|Hu].
  { intros [= <- <-]. exists probes, l, []. rewrite Ep. by split_and!; [..|left]. }
  destruct (is_nil missing && is_nil unreachable) eqn:En.
  { intros [= <- <-]. exists probes, l, []. rewrite Ep. by destruct missing, unreachable. }
  assert (missing <> [] \/ unreachable <> []) as Hne by (destruct missing, unreachable; auto; done).
  unfold mbind at 1, n_bind at 1. cbn [now]. destruct (deadline <=? clock w1) eqn:Ed.
  { intros [= <- <-]. exists probes, l, []. rewrite Ep. split_and!; [done|done|done|]. right. split; [done|]. split; [lia|done]. }
  unfold mbind at 1, n_bind at 1. destruct (sleep POLL_INTERVAL w1) as [r2 w2] eqn:E2.
  apply sleep_run in E2 as (-> & Hsleep & _ & (l2 & El2 & _)); [|done]. intros E.
  apply IH in E as (probes' & l' & rest' & El' & H'); [|apply (enough_next _ _ _ (clock w)); [done|done|lia|lia]].
  exists probes', l', (rest' ++ l2 ++ l). split; [|exact H']. by rewrite El', El2, El, <-!app_assoc.
Qed.
(** Nothing pending: every answer was the value, and every host gave one. *)
Lemma pending_none probes host ip p : pending_servers probes = ([], []) -> (host, ip, p) ∈ probes ->
  p = Present \/ p = Unreachable /\ exists ip', (host, ip', Present) ∈ probes.
Proof.
  unfold pending_servers. intros [= Hm Hu] Hin.
  assert (forall q, q ∈ probes -> missing_of q = None) as Hno.
  { intros q Hq. destruct (missing_of q) as [x|] eqn:E; [|done].
    assert (x ∈ omap missing_of probes) as Hx by by apply list_elem_of_omap; exists q. rewrite Hm in Hx. by apply not_elem_of_nil in Hx. }
  destruct p; [by left|specialize (Hno _ Hin); done|]. right. split; [done|].
  destruct (answered probes host) eqn:Ea.
  - apply existsb_exists in Ea as ([[h ip'] q] & Hq%list_elem_of_In & Ha). cbn [fst snd] in Ha.
    apply andb_true_iff in Ha as [->%String.eqb_eq Hans]. exists ip'. destruct q; [done|specialize (Hno _ Hq); done|done].
  - exfalso. assert (server_label host ip ∈ omap (unreachable_of probes) probes) as Hx.
    { apply list_elem_of_omap. exists (host, ip, Unreachable). split; [done|]. unfold unreachable_of. cbn [fst snd]. by rewrite Ea. }
    rewrite Hu in Hx. by apply not_elem_of_nil in Hx.
Qed.

Lemma omap_all {A B} (f : A -> option B) l : length (omap f l) = length l -> Forall (fun x => is_Some (f x)) l.
Proof.
  assert (forall l, length (omap f l) <= length l)%nat as Hle.
  { induction l0 as [|x l0 IH]; [done|]. cbn [omap list_omap length]. destruct (f x); simpl in *; lia. }
  induction l as [|x l IH]; [by constructor|]. cbn [omap list_omap length]. intros Hl. specialize (Hle l).
  destruct (f x) as [y|] eqn:E; simpl in Hl; [|lia]. constructor; [by rewrite E|]. apply IH. lia.
Qed.

(** ** Finding the servers *)

(** [l] shows how the records of an NS answer became the servers [out]. *)
Definition resolved (records : list (option string)) (l : list Asked) (out : list Server) : Prop :=
  (forall host ip, (host, ip) ∈ out -> Some host ∈ records /\ exists ips, asked (IpLookup host) (Ok ips) ∈ l /\ ip ∈ ips) /\
  (forall host, Some host ∈ records -> exists r, asked (IpLookup host) r ∈ l /\ forall ips ip, r = Ok ips -> ip ∈ ips -> (host, ip) ∈ out).

Lemma resolve_hosts_run records w r w' : resolve_hosts records w = (r, w') ->
  exists out l, r = Ok out /\ trace w' = l ++ trace w /\ resolved records l out.
Proof.
  revert w r w'. induction records as [|[host|] records IH]; intros w r w'; cbn [resolve_hosts].
  - intros [= <- <-]. exists [], []. split; [done|]. split; [done|]. split; [intros host ip|intros host]; by intros ?%not_elem_of_nil.
  - unfold mbind at 1, n_bind at 1. rewrite ask_run. set (a := respond (trace w) (IpLookup host)). unfold mbind, n_bind.
    destruct (resolve_hosts records _) as [r2 w2] eqn:E2. destruct (IH _ _ _ E2) as (out & l & -> & El & Hout & Hall). cbn [trace] in El.
    intros [= <- <-]. eexists _, (l ++ [asked (IpLookup host) a]). split; [done|]. split; [by rewrite El, <-app_assoc|].
    split.
    + intros h ip [Hin|Hin]%elem_of_app; [|destruct (Hout h ip Hin) as (Hr & ips & Hl & Hip); split; [by right|exists ips; set_solver]].
      destruct a as [ips|] eqn:Ea; [|by apply not_elem_of_nil in Hin]. apply list_elem_of_fmap in Hin as (x & [= -> ->] & Hx).
      split; [by left|]. exists ips. split; [rewrite elem_of_app; right; by left|done].
    + intros h [[= ->]|Hr]%elem_of_cons.
      * exists a. split; [rewrite elem_of_app; right; by left|]. intros ips ip -> Hip. apply elem_of_app. left. apply list_elem_of_fmap. by exists ip.
      * destruct (Hall h Hr) as (r & Hl & Hips). exists r. split; [set_solver|]. intros ips ip Er Hip. apply elem_of_app. right. by eapply Hips.
  - intros E. destruct (IH _ _ _ E) as (out & l & -> & El & Hout & Hall). exists out, l. split; [done|]. split; [done|]. split.
    + intros h ip Hin. destruct (Hout h ip Hin) as [Hr Hi]. split; [by right|done].
    + intros h [[=]|Hr]%elem_of_cons. by apply Hall.
Qed.

Lemma authoritative_addrs_run zone w r w' : authoritative_addrs zone w = (r, w') ->
  (exists servers records l, r = Ok servers /\ trace w' = l ++ trace w /\ servers <> [] /\
     asked (NsLookup (zone +:+ ".")) (Ok records) ∈ l /\ resolved records l servers) \/
  exists m, r = Err (Msg m).
Proof.
  unfold authoritative_addrs, mbind at 1, n_bind at 1. rewrite ask_run. set (ns := respond (trace w) (NsLookup (zone +:+ "."))).
  destruct ns as [records|e] eqn:En; [|intros [= <- <-]; right; by eexists]. unfold mbind, n_bind.
  destruct (resolve_hosts records _) as [r1 w1] eqn:E1. apply resolve_hosts_run in E1 as (out & l & -> & El & Hout & Hall). cbn [trace] in El.
  destruct out as [|x out]; intros [= <- <-]; [right; by eexists|left]. exists (x :: out), records, (l ++ [asked (NsLookup (zone +:+ ".")) (Ok records)]).
  split; [done|]. split; [by rewrite El, <-app_assoc|]. split; [done|]. split; [rewrite elem_of_app; right; by left|]. split.
  - intros h ip Hin. destruct (Hout h ip Hin) as (Hr & ips & Hl & Hip). split; [done|]. exists ips. split; [set_solver|done].
  - intros h Hr. destruct (Hall h Hr) as (a & Hl & Hi). exists a. split; [set_solver|done].
Qed.

Lemma grows_resolve_hosts records : grows (resolve_hosts records).
Proof. induction records as [|[host|] records IH]; cbn [resolve_hosts]; grow. Qed.
Lemma grows_authoritative_addrs zone : grows (authoritative_addrs zone).
Proof. unfold authoritative_addrs. pose proof grows_resolve_hosts. grow. Qed.
Lemma grows_zone_of name : grows (zone_of name).
Proof.
  unfold zone_of. generalize (map (fun start => join "." (drop start (split_char "." (trim_end_char "." name))))
    (seq 0 (length (split_char "." (trim_end_char "." name)) - 1))) as cs. induction cs as [|c cs IH]; cbn [first_zone]; grow.
Qed.
#[local] Hint Resolve grows_wait_rounds grows_wait_loop grows_authoritative_addrs grows_zone_of : outside.

Lemma zone_of_run name w r w' : zone_of name w = (r, w') ->
  (exists zone l, r = Ok zone /\ trace w' = l ++ trace w) \/ exists m, r = Err (Msg m).
Proof.
  intros E. destruct (grows_zone_of name _ _ _ E) as (_ & l & El & _). revert E. unfold zone_of.
  generalize (map (fun start => join "." (drop start (split_char "." (trim_end_char "." name))))
      (seq 0 (length (split_char "." (trim_end_char "." name)) - 1))) as cs. intros cs E.
  assert ((exists zone, r = Ok zone) \/ exists m, r = Err (Msg m)) as [[zone ->]|Hm]; [|left; by exists zone, l|by right].
  clear El l. revert w E. induction cs as [|c cs IH]; intros w; cbn [first_zone]; [intros [= <- <-]; right; by eexists|].
  unfold mbind, n_bind. rewrite ask_run. destruct (is_ok _); [intros [= <- <-]; left; by eexists|]. apply IH.
Qed.

Lemma wait_for_all_run timeout name expected w r w' : 0 <= timeout ->
  wait_for_all timeout name expected w = (r, w') ->
  (exists m, r = Err (Msg m)) \/
  r = Ok tt /\ exists zone records servers probes l rest, trace w' = l ++ rest ++ trace w /\ servers <> [] /\
    asked (NsLookup (zone +:+ ".")) (Ok records) ∈ rest /\ resolved records rest servers /\
    map fst probes = servers /\ Forall (probe_seen name expected zone l) probes /\ pending_servers probes = ([], []).
Proof.
  intros Ht. unfold wait_for_all, mbind at 1, n_bind at 1. destruct (zone_of name w) as [r1 w1] eqn:E1.
  apply zone_of_run in E1 as [(zone & l1 & -> & El1)|[m ->]]; [|intros [= <- <-]; left; by eexists].
  unfold mbind at 1, n_bind at 1. destruct (authoritative_addrs zone w1) as [r2 w2] eqn:E2.
  apply authoritative_addrs_run in E2 as [(servers & records & l2 & -> & El2 & Hs & Hns & Hres)|[m ->]]; [|intros [= <- <-]; left; by eexists].
  unfold mbind, n_bind, now. intros E. pose proof (rounds_enough timeout POLL_INTERVAL (clock w2) Ht ltac:(done)) as Hen.
  apply (wait_rounds_run _ _ _ _ _ _ _ _ _ _ Hs Hen) in E as (probes & l & rest & El & Em & Hf & Hr).
  destruct (pending_servers probes) as [missing unreachable] eqn:Ep. destruct r as [[]|[m|]]; [|left; by eexists|done].
  right. split; [done|]. destruct Hr as [-> ->]. exists zone, records, servers, probes, l, (rest ++ l2 ++ l1).
  split; [by rewrite El, El2, El1, <-!app_assoc|]. split; [done|]. split; [set_solver|]. split; [|done].
  destruct Hres as [H1 H2]. split.
  - intros h ip Hin. destruct (H1 h ip Hin) as (Hr & ips & Hl & Hip). split; [done|]. exists ips. split; [set_solver|done].
  - intros h Hr. destruct (H2 h Hr) as (a & Hl & Hi). exists a. split; [set_solver|done].
Qed.

(** [l] shows the value on every nameserver of the zone: each of their addresses served it in the
    last round, except those that did not answer for the zone while another of the same host did. *)
Definition served_everywhere (name expected : string) (l : list Asked) : Prop :=
  exists zone records servers last rest, l = last ++ rest /\
    asked (NsLookup (zone +:+ ".")) (Ok records) ∈ rest /\ resolved records rest servers /\ servers <> [] /\
    forall host ip, (host, ip) ∈ servers ->
      served name expected ip last \/
      asked (SoaAt ip (zone +:+ ".")) false ∈ last /\ exists ip', (host, ip') ∈ servers /\ served name expected ip' last.

Lemma grows_wait_for_all timeout name expected : grows (wait_for_all timeout name expected).
Proof. unfold wait_for_all. grow. Qed.

Lemma wait_for_all_live timeout name expected w r w' :
  0 <= timeout -> wait_for_all timeout name expected w = (r, w') ->
  r <> Err OutOfFuel /\ (r = Ok tt -> exists l, trace w' = l ++ trace w /\ served_everywhere name expected l).
Proof.
  intros Ht E. apply wait_for_all_run in E as [[m ->]|(-> & zone & records & servers & probes & l & rest & El & Hs & Hns & Hres & Em & Hf & Hp)]; [split; [done|by intros [=]]| |done].
  split; [done|]. intros _. exists (l ++ rest). split; [by rewrite El, app_assoc|].
  exists zone, records, servers, l, rest. split; [done|]. split; [done|]. split; [done|]. split; [done|].
  intros host ip Hin. rewrite <-Em in Hin. apply list_elem_of_fmap in Hin as ([[h i] p] & [= <- <-] & Hin).
  rewrite Forall_forall in Hf. pose proof (Hf _ Hin) as Hseen.
  destruct (pending_none _ _ _ _ Hp Hin) as [->|[-> (ip' & Hin')]]; [left; exact Hseen|right]. split; [exact Hseen|].
  exists ip'. split; [|exact (Hf _ Hin')]. rewrite <-Em. apply list_elem_of_fmap. by exists (host, ip', Present).
Qed.

(** The authoritative check passes only when the record is live where the CA will look: in its
    last round every nameserver of the zone's NS records answered with the expected value on at
    least one of its addresses, and the only addresses that did not serve it are ones that did not
    answer for the zone at all.  The check always ends -- with success or an error, whatever the
    servers do and however long they take -- and changes no record itself. *)
Theorem authoritative_ok_is_everywhere timeout name expected w r w' :
  0 <= timeout -> wait_for_all timeout name expected w = (r, w') ->
  r <> Err OutOfFuel /\ extends w w' /\
  (r = Ok tt -> exists l, trace w' = l ++ trace w /\ served_everywhere name expected l).
Proof.
  intros Ht E. pose proof (grows_wait_for_all _ _ _ _ _ _ E) as Hg. by apply wait_for_all_live in E as [].
Qed.

(** Only silence of every nameserver makes the client fall back to public resolvers: a round
    that fails either reports the nameservers unreachable, and then not one address answered for
    the zone in it, or names what is missing, and then the deadline has passed. *)
Theorem unreachable_means_silence fuel timeout deadline servers name expected zone w m w' :
  servers <> [] -> enough fuel POLL_INTERVAL deadline (clock w) ->
  wait_rounds fuel timeout deadline servers name expected zone w = (Err (Msg m), w') ->
  (exists unreachable l rest, m = unreachable_error zone unreachable /\ trace w' = l ++ rest ++ trace w /\
     forall host ip, (host, ip) ∈ servers -> asked (SoaAt ip (zone +:+ ".")) false ∈ l) \/
  exists missing unreachable, m = lagging_error name zone timeout missing unreachable /\ deadline <= clock w' /\
    (missing <> [] \/ unreachable <> []).
Proof.
  intros Hs Hen E. apply (wait_rounds_run _ _ _ _ _ _ _ _ _ _ Hs Hen) in E as (probes & l & rest & El & Em & Hf & Hr).
  destruct (pending_servers probes) as [missing unreachable] eqn:Ep. destruct Hr as [[-> Hl]|Hr]; [left|right; by exists missing, unreachable].
  exists unreachable, l, rest. split; [done|]. split; [done|]. intros host ip Hin. rewrite <-Em in Hin.
  apply list_elem_of_fmap in Hin as ([[h i] p] & [= <- <-] & Hin).
  unfold pending_servers in Ep. injection Ep as _ <-. rewrite <-Em, length_map in Hl. apply omap_all in Hl.
  rewrite Forall_forall in Hl, Hf. destruct (Hl _ Hin) as [x Hx]. pose proof (Hf _ Hin) as Hseen. unfold unreachable_of in Hx. cbn [fst snd] in Hx.
  destruct p; [done|done|exact Hseen].
Qed.
End Rounds.

(** ** Public resolvers *)

Section Propagation.
Context `{Outside}.
#[local] Hint Resolve grows_ask_resolvers grows_purge grows_sleep grows_wait_loop : outside.

Definition doh_ask (url name : string) : Ask :=
  Http GET url [("accept", "application/dns-json")]%string [("name"%string, name); ("type", "TXT")%string] None.
(** The resolver at [url] answered with the expected value. *)
Definition resolver_agrees (name expected url : string) (l : list Asked) : Prop :=
  exists r v, asked (doh_ask url name) (Ok r) ∈ l /\ is_success r = true /\ json r = Ok v /\ expected ∈ doh_values v.

Lemma lookup_run url name w r w' : lookup url name w = (r, w') ->
  exists values l, r = Ok values /\ trace w' = l ++ trace w /\
    forall expected, serves_value values expected = true -> resolver_agrees name expected url l.
Proof.
  unfold lookup, mbind, n_bind. rewrite ask_run. fold (doh_ask url name). set (a := respond (trace w) (doh_ask url name)). cbn [trace].
  intros E. destruct a as [resp|e] eqn:Ea.
  - destruct (is_success resp) eqn:Es; injection E as <- <-; eexists _, [asked (doh_ask url name) (Ok resp)]; (split; [done|]);
      (split; [done|]); intros expected Hv; [|done]. destruct (json resp) as [v|] eqn:Ej; [|done].
    apply serves_value_spec in Hv as (values & [= <-] & Hin). exists resp, v. split; [by left|done].
  - injection E as <- <-. eexists _, [asked (doh_ask url name) (Err e)]. split; [done|]. by split.
Qed.

Lemma ask_resolvers_run p urls name expected st w r w' : ask_resolvers p urls name expected st w = (r, w') ->
  exists st' l, r = Ok st' /\ trace w' = l ++ trace w /\
    (all_agree st' = true -> all_agree st = true /\ forall url, url ∈ urls -> resolver_agrees name expected url l).
Proof.
  revert st w r w'. induction urls as [|url urls IH]; intros st w r w'; cbn [ask_resolvers].
  - intros [= <- <-]. exists st, []. split; [done|]. split; [done|]. intros Ha. split; [done|]. by intros url ?%not_elem_of_nil.
  - unfold mbind, n_bind. destruct (lookup url name w) as [r1 w1] eqn:E1. apply lookup_run in E1 as (values & l1 & -> & El1 & Hv).
    intros E. destruct (IH _ _ _ _ E) as (st' & l2 & -> & El2 & Ha). exists st', (l2 ++ l1). split; [done|].
    split; [by rewrite El2, El1, app_assoc|]. intros H'. destruct (Ha H') as [Hst Hall]. cbn [all_agree] in Hst.
    apply andb_true_iff in Hst as [Hst Hm]. split; [done|]. intros u [->|Hu]%elem_of_cons.
    + destruct (Hv _ Hm) as (resp & v & Hin & Hrest). exists resp, v. split; [set_solver|done].
    + destruct (Hall u Hu) as (resp & v & Hin & Hrest). exists resp, v. split; [set_solver|done].
Qed.

Lemma wait_loop_run fuel p deadline name expected seen w r w' :
  0 < interval p -> enough fuel (interval p) deadline (clock w) ->
  wait_loop fuel p deadline name expected seen w = (r, w') ->
  (exists m, r = Err (Msg m) /\ deadline <= clock w') \/
  r = Ok tt /\ exists l rest, trace w' = l ++ rest ++ trace w /\ forall url, url ∈ resolver_urls p -> resolver_agrees name expected url l.
Proof.
  intros Hi. revert seen w r w'. induction fuel as [|fuel IH]; intros seen w r w' Hf; [destruct Hf; lia|].
  cbn [wait_loop]. unfold mbind at 1, n_bind at 1. destruct (ask_resolvers _ _ _ _ _ w) as [r1 w1] eqn:E1.
  pose proof (grows_ask_resolvers _ _ _ _ _ _ _ _ E1) as [Hclock _].
  apply ask_resolvers_run in E1 as (st & l & -> & El & Ha). destruct (all_agree st) eqn:Eagree.
  { intros [= <- <-]. right. split; [done|]. exists l, []. split; [done|]. by apply Ha. }
  unfold mbind at 1, n_bind at 1. cbn [now]. destruct (deadline <=? clock w1) eqn:Ed.
  { intros [= <- <-]. left. eexists. split; [done|]. lia. }
  unfold mbind at 1, n_bind at 1. destruct ((if cloudflare_missed st then purge_cloudflare p name else mret tt) w1) as [r2 w2] eqn:E2.
  assert (r2 = Ok tt /\ extends w1 w2) as (-> & Hc2 & l2 & El2 & _).
  { destruct (cloudflare_missed st).
    - pose proof (grows_purge p name _ _ _ E2) as Hg. unfold purge_cloudflare, mbind, n_bind in E2. rewrite ask_run in E2.
      injection E2 as <- <-. by split.
    - injection E2 as <- <-. by split. }
  unfold mbind at 1, n_bind at 1. destruct (sleep (interval p) w2) as [r3 w3] eqn:E3.
  apply sleep_run in E3 as (-> & Hsleep & _ & (l3 & El3 & _)); [|lia]. intros E.
  apply IH in E as [Hm|(-> & l4 & rest & El4 & Hall)]; [by left| |apply (enough_next _ _ _ (clock w)); [done|done|lia|lia]].
  right. split; [done|]. exists l4, (rest ++ l3 ++ l2 ++ l). split; [|done]. by rewrite El4, El3, El2, El, <-!app_assoc.
Qed.

(** [l] shows the value at every public resolver, in one round. *)
Definition agreed_everywhere (p : PropagationWaiter) (name expected : string) (l : list Asked) : Prop :=
  exists round rest, l = round ++ rest /\ forall url, url ∈ resolver_urls p -> resolver_agrees name expected url round.

Lemma grows_wait_for p name expected : grows (wait_for p name expected).
Proof. unfold wait_for. grow. Qed.
Lemma wait_for_run p name expected w r w' :
  0 <= timeout p -> 0 < interval p -> 0 <= initial_delay p -> wait_for p name expected w = (r, w') ->
  r <> Err OutOfFuel /\ (forall m, r = Err (Msg m) -> clock w + initial_delay p + timeout p <= clock w') /\
  (r = Ok tt -> exists l t, trace w' = l ++ asked (Sleep (initial_delay p)) t :: trace w /\ agreed_everywhere p name expected l).
Proof.
  intros Ht Hi Hd. unfold wait_for, mbind at 1, n_bind at 1. destruct (sleep (initial_delay p) w) as [r1 w1] eqn:E1.
  assert (exists t, trace w1 = asked (Sleep (initial_delay p)) t :: trace w) as [t Et]
    by (unfold sleep in E1; rewrite ask_run in E1; injection E1 as _ <-; by eexists).
  apply sleep_run in E1 as (-> & Hsleep & _); [|done]. unfold mbind, n_bind, now.
  intros E. pose proof (rounds_enough (timeout p) (interval p) (clock w1) Ht Hi) as Hen.
  apply (wait_loop_run _ _ _ _ _ _ _ _ _ Hi Hen) in E as [(m & -> & Hc)|(-> & l & rest & El & Hall)].
  - split_and!; [done| |done]. intros m' _. lia.
  - split_and!; [done|done|]. intros _. exists (l ++ rest), t. split; [by rewrite El, Et, app_assoc|]. by exists l, rest.
Qed.

(** The wait on public resolvers succeeds only when every configured resolver showed the
    expected value in one and the same round; otherwise it ends with an error after its deadline.
    It never looks before the initial delay has passed. *)
Theorem propagation_means_all_resolvers p name expected w r w' :
  0 <= timeout p -> 0 < interval p -> 0 <= initial_delay p -> wait_for p name expected w = (r, w') ->
  r <> Err OutOfFuel /\ extends w w' /\ (forall m, r = Err (Msg m) -> clock w + initial_delay p + timeout p <= clock w') /\
  (r = Ok tt -> exists l t, trace w' = l ++ asked (Sleep (initial_delay p)) t :: trace w /\ agreed_everywhere p name expected l).
Proof.
  intros Ht Hi Hd E. pose proof (grows_wait_for _ _ _ _ _ _ E) as Hg. by apply wait_for_run in E as (? & ? & ?).
Qed.
End Propagation.

(** ** Concrete runs *)

(** A zone of two nameservers, one of them without a route to its IPv6 address; the second serves
    the record from the second round on. *)
Definition demo_ip (k : Z) : IpAddr := V4 192 0 2 k.
Definition demo_txt (t : list Asked) (server : IpAddr) : result (list string) string :=
  if decide (show_ip server = "192.0.2.1"%string) then Ok ["proof"%string]
  else if decide (show_ip server = "192.0.2.2"%string) then (if (12 <? length t)%nat then Ok ["proof"%string] else Err "no records"%string)
  else Err "timeout"%string.
Definition demo_respond (t : list Asked) (a : Ask) : Reply a :=
  match a with
  | Http _ url _ _ _ => Ok {| status := 200; status_line := "200 OK"; headers := [];
      json := Ok (Object {[ "Answer"%string := Array [Object {[ "data"%string := Str (String Net.quote "proof" +:+ String Net.quote "") ]}] ]});
      text := Err "json"%string |}
  | SetTxt _ _ | ClearTxt _ => Ok tt
  | NsLookup n => if String.eqb n "example.org." then Ok [Some "ns1"%string; None; Some "ns2"%string] else Err "NXDOMAIN"%string
  | IpLookup h => if String.eqb h "ns1" then Ok [demo_ip 1; V6 [8193; 3512; 0; 0; 0; 0; 0; 1]] else Ok [demo_ip 2]
  | TxtAt server _ => demo_txt t server
  | SoaAt server _ => bool_decide (show_ip server = "192.0.2.2"%string)
  | Random => []
  | SystemTime => 0
  | ModifiedAt _ => None
  | SystemResolver => Ok tt
  | Sleep _ => tt
  end.
#[local] Instance demo_outside : Outside := {| respond := demo_respond; delay := fun _ _ => 1 |}.
Definition demo_world : World := {| clock := 0; trace := [] |}.

Lemma authoritative_ok_is_everywhere_witness :
  exists w', wait_for_all AUTHORITATIVE_TIMEOUT "_acme-challenge.www.example.org" "proof" demo_world = (Ok tt, w') /\
    clock w' > POLL_INTERVAL /\
    exists l, trace w' = l ++ trace demo_world /\ served_everywhere "_acme-challenge.www.example.org" "proof" l.
Proof.
  assert ((fun p => (is_ok p.1, bool_decide (clock p.2 > POLL_INTERVAL)))
    (wait_for_all AUTHORITATIVE_TIMEOUT "_acme-challenge.www.example.org" "proof" demo_world) = (true, true)) as Hrun by (vm_compute; reflexivity).
  destruct (wait_for_all AUTHORITATIVE_TIMEOUT "_acme-challenge.www.example.org" "proof" demo_world) as [[[]|e] w'] eqn:E; [|discriminate Hrun].
  exists w'. split; [reflexivity|]. cbn [fst snd] in Hrun. apply pair_equal_spec in Hrun as [_ Hc%bool_decide_eq_true].
  split; [exact Hc|]. destruct (authoritative_ok_is_everywhere AUTHORITATIVE_TIMEOUT _ _ _ _ _ ltac:(by vm_compute) E) as (_ & _ & Hok).
  exact (Hok eq_refl).
Defined.

Lemma propagation_means_all_resolvers_witness :
  exists w', wait_for (new_waiter DEFAULT_RESOLVER_URLS DEFAULT_TIMEOUT) "_acme-challenge.example.org" "proof" demo_world = (Ok tt, w') /\
    length (trace w') = 3%nat.
Proof.
  assert ((fun p => (is_ok p.1, length (trace p.2)))
    (wait_for (new_waiter DEFAULT_RESOLVER_URLS DEFAULT_TIMEOUT) "_acme-challenge.example.org" "proof" demo_world) = (true, 3%nat)) as Hrun
    by (vm_compute; reflexivity).
  destruct (wait_for (new_waiter DEFAULT_RESOLVER_URLS DEFAULT_TIMEOUT) "_acme-challenge.example.org" "proof" demo_world) as [r w'] eqn:E.
  destruct (propagation_means_all_resolvers (new_waiter DEFAULT_RESOLVER_URLS DEFAULT_TIMEOUT) _ _ _ r w'
    ltac:(by vm_compute) ltac:(by vm_compute) ltac:(by vm_compute) E) as (_ & _ & _ & Hok).
  cbn [fst snd] in Hrun. apply pair_equal_spec in Hrun as [Hr Hl]. destruct r as [[]|]; [|discriminate Hr].
  destruct (Hok eq_refl) as (l & t & El & _). exists w'. split; [reflexivity|exact Hl].
Defined.
