(* ===== verification/Acme.v ===== *)
(** * Acme: the certificate client ([acme_client.rs], [acme_jws.rs], [acme.rs])

    The order, authorization and finalization of RFC 8555 over the outside of [AcmeWorld]: signed
    requests with their nonces, the DNS-01 challenge between publishing and clearing the record, the
    polls, and whole-order retries.  ring, rcgen, base64 and SHA-256 are a class. *)
From S2P Require Import Prelude Text Json Net AcmeWorld Dns01.

#[local] Open Scope Z_scope.

(** ** Messages ([acme.rs]) *)

Record AcmeDirectory := { new_nonce : string; new_account : string; new_order_url : string }.
Definition parse_directory (v : Value) : option AcmeDirectory :=
  let? n := get_str v "newNonce" in
  let? a := get_str v "newAccount" in
  let? o := get_str v "newOrder" in
  Some {| new_nonce := n; new_account := a; new_order_url := o |}.

Record AcmeOrder := { order_status : string; authorizations : list string; finalize_url : string; certificate : option string }.
Definition parse_order (v : Value) : option AcmeOrder :=
  let? s := get_str v "status" in
  let? a := jget v "authorizations" in
  let? a := as_array a in
  let? f := get_str v "finalize" in
  Some {| order_status := s; authorizations := omap as_str a; finalize_url := f; certificate := get_str v "certificate" |}.

Record Dns01Challenge := { token : string; challenge_url : string }.
Definition dns01_of (c : Value) : option Dns01Challenge :=
  let? t := get_str c "type" in
  if String.eqb t "dns-01" then
    let? tok := get_str c "token" in
    let? u := get_str c "url" in
    Some {| token := tok; challenge_url := u |}
  else None.
Definition select_dns01 (authorization : Value) : option Dns01Challenge :=
  let? c := jget authorization "challenges" in
  let? l := as_array c in
  head (omap dns01_of l).
Definition dns01_record_name (domain : string) : string := ("_acme-challenge." +:+ trim_end_char "." domain)%string.

Record CsrBundle := { csr_key_pem : string; csr_der : list byte }.
Record IssuedCert := { cert_chain_pem : string; key_pem : string }.

(** ** Signing ([acme_jws.rs]) *)

(** The protected headers, before they are printed and encoded. *)
Inductive Protected :=
| ProtectedJwk (alg nonce url : string) (jwk : Value)
| ProtectedKid (alg nonce url kid : string)
| EabProtected (alg kid url : string).
Definition nonce_of (p : Protected) : option string :=
  match p with ProtectedJwk _ n _ _ | ProtectedKid _ n _ _ => Some n | EabProtected _ _ _ => None end.

Class AcmeCrypto := {
  AccountKey : Type;
  (** SEC1: a tag byte, then the two coordinates of 32 bytes. *)
  public_key : AccountKey -> list byte;
  (** Signing draws on the generator. *)
  es256 : AccountKey -> list byte -> string -> result (list byte) string;
  hmac_sha256 : list byte -> string -> list byte;
  sha256 : list byte -> list byte;
  b64url : list byte -> string;
  b64url_inj a b : b64url a = b64url b -> a = b;
  b64url_nil : b64url [] = EmptyString;
  b64url_decode : string -> result (list byte) string;
  (** [serde_json::to_string] of a header struct. *)
  show_protected : Protected -> string;
  normalize_hostname : string -> option string;
  (** A key and a request for one name, from what the generator gave. *)
  rcgen_csr : list byte -> string -> result CsrBundle string;
}.

Section Jws.
Context `{SerdeJson, AcmeCrypto}.

Definition JWK_KTY : string := "EC".
Definition JWK_CRV : string := "P-256".
Definition fields (l : list (string * Value)) : Value := Object (list_to_map l).
Definition jwk_coordinates (key : AccountKey) : string * string :=
  let public := public_key key in
  (b64url (take 32 (drop 1 public)), b64url (take 32 (drop 33 public))).
Definition jwk (key : AccountKey) : Value :=
  let '(x, y) := jwk_coordinates key in
  fields [("kty", Str JWK_KTY); ("crv", Str JWK_CRV); ("x", Str x); ("y", Str y)]%string.
Definition quoted (k v : string) : string := (Json.quote +:+ k +:+ Json.quote +:+ ":" +:+ Json.quote +:+ v +:+ Json.quote)%string.
Definition thumbprint (key : AccountKey) : string :=
  let '(x, y) := jwk_coordinates key in
  let canonical := ("{" +:+ quoted "crv" JWK_CRV +:+ "," +:+ quoted "kty" JWK_KTY +:+ ","
    +:+ quoted "x" x +:+ "," +:+ quoted "y" y +:+ "}")%string in
  b64url (sha256 (as_bytes canonical)).
Definition generate_csr (seed : list byte) (hostname : string) : result CsrBundle string :=
  match normalize_hostname hostname with
  | Some host => rcgen_csr seed host
  | None => Err "invalid hostname for a certificate request"%string
  end.
Definition dns01_txt_value (key_authorization : string) : string := b64url (sha256 (as_bytes key_authorization)).

Definition flattened (protected payload signature : string) : Value :=
  fields [("protected", Str protected); ("payload", Str payload); ("signature", Str signature)]%string.
Definition external_account_binding (key : AccountKey) (kid hmac_key url : string) : result Value string :=
  let* secret := map_err (fun e => "EAB HMAC key is not valid base64url: " +:+ e)%string (b64url_decode hmac_key) in
  let protected := b64url (as_bytes (show_protected (EabProtected "HS256" kid url))) in
  let payload := b64url (as_bytes (to_string (jwk key))) in
  Ok (flattened protected payload (b64url (hmac_sha256 secret (protected +:+ "." +:+ payload)))).

Definition protected_header (key : AccountKey) (url nonce : string) (kid : option string) : Protected :=
  match kid with
  | Some kid => ProtectedKid "ES256" nonce url kid
  | None => ProtectedJwk "ES256" nonce url (jwk key)
  end.
Definition payload_text (payload : option Value) : string :=
  match payload with Some v => b64url (as_bytes (to_string v)) | None => EmptyString end.
Definition sign_request (key : AccountKey) (seed : list byte) (url nonce : string) (kid : option string) (payload : option Value) : result Value string :=
  let protected := b64url (as_bytes (show_protected (protected_header key url nonce kid))) in
  let payload := payload_text payload in
  let* signature := map_err (fun e => "JWS signing failed: " +:+ e)%string (es256 key seed (protected +:+ "." +:+ payload)) in
  Ok (flattened protected payload (b64url signature)).
End Jws.

(** ** Errors *)

Definition POLL_TIMEOUT : Z := 120 * SECOND.
Definition ORDER_POLL_INTERVAL : Z := 3 * SECOND.
Definition DNS01_ATTEMPTS : Z := 3.
Definition RETRY_BACKOFF : Z := 30 * SECOND.
Definition DNS01_VALIDATION_FAILED : string := "DNS-01 validation failed".

Definition is_dns01_failure (m : string) : bool :=
  contains "DNS-01 authoritative check failed" m || contains "DNS-01 propagation check failed" m
  || contains "publishing the DNS-01 challenge record failed" m || contains DNS01_VALIDATION_FAILED m.

Definition RETRYABLE : list string := ["urn:ietf:params:acme:error:dns"; "urn:ietf:params:acme:error:unauthorized"]%string.
Definition error_type (challenge : Value) : option string := let? v := pointer challenge ["error"; "type"]%string in as_str v.
Definition invalid_authz_is_dns01_race (authz : Value) : bool :=
  existsb (fun t => existsb (String.eqb t) RETRYABLE)
    (omap error_type (default [] (let? c := jget authz "challenges" in as_array c))).

(** ** The client *)

Section Client.
Context `{SerdeJson, AcmeCrypto, Outside}.

Record AcmeClient := {
  directory : AcmeDirectory; account : AccountKey; account_url : option string; nonce : option string;
  eab : option (string * string)
}.
Definition set_nonce (n : option string) (c : AcmeClient) : AcmeClient :=
  {| directory := directory c; account := account c; account_url := account_url c; nonce := n; eab := eab c |}.
Definition set_account_url (u : option string) (c : AcmeClient) : AcmeClient :=
  {| directory := directory c; account := account c; account_url := u; nonce := nonce c; eab := eab c |}.

(** What the client and the world are when a call returns, with an error as well as without. *)
Record State := { client : AcmeClient; world : World }.
Definition C (A : Type) : Type := State -> result A Failure * State.
#[global] Instance c_ret : MRet C := fun A a s => (Ok a, s).
#[global] Instance c_bind : MBind C := fun A B f m s =>
  match m s with
  | (Ok a, s) => f a s
  | (Err e, s) => (Err e, s)
  end.
Definition net {A} (m : N A) : C A := fun s => let '(r, w) := m (world s) in (r, {| client := client s; world := w |}).
Definition c_fail {A} (m : string) : C A := fun s => (Err (Msg m), s).
Definition c_attempt {A} (m : C A) : C (result A Failure) := fun s => let '(r, s) := m s in (Ok r, s).
Definition read {A} (f : AcmeClient -> A) : C A := fun s => (Ok (f (client s)), s).
Definition modify (f : AcmeClient -> AcmeClient) : C unit := fun s => (Ok tt, {| client := f (client s); world := world s |}).
Definition ok_or_fail {A} (o : option A) (m : string) : C A := match o with Some a => mret a | None => c_fail m end.
Definition c_result {A} (r : result A Failure) : C A := fun s => (r, s).
Definition c_lift {A} (r : result A string) : C A := match r with Ok a => mret a | Err e => c_fail e end.

Definition header_str (r : Response) (name : string) : option string :=
  snd <$> find (fun h => String.eqb h.1 name) (headers r).

Definition fresh_nonce : C string :=
  n ← read nonce;
  match n with
  | Some n => _ ← modify (set_nonce None); mret n
  | None =>
      url ← read (fun c => new_nonce (directory c));
      r ← net (ask (Http HEAD url [] [] None));
      resp ← c_lift r;
      ok_or_fail (header_str resp "replay-nonce") "ACME server sent no Replay-Nonce"
  end.
Definition capture_nonce (r : Response) : C unit :=
  match header_str r "replay-nonce" with Some n => modify (set_nonce (Some n)) | None => mret tt end.

Definition signed_post (url : string) (jws : Value) : Ask := Http POST url [("content-type", "application/jose+json")]%string [] (Some jws).
(** One turn of the loop in [post_signed]: [None] asks for the second. *)
Definition post_once (first : bool) (url : string) (payload : option Value) : C (option Response) :=
  n ← fresh_nonce;
  key ← read account;
  kid ← read account_url;
  seed ← net (ask Random);
  jws ← c_lift (sign_request key seed url n kid payload);
  r ← net (ask (signed_post url jws));
  resp ← c_lift r;
  _ ← capture_nonce resp;
  if first && (status resp =? 400) then
    let body := match json resp with Ok v => v | Err _ => Null end in
    if decide (get_str body "type" = Some "urn:ietf:params:acme:error:badNonce"%string) then mret None
    else c_fail ("ACME request to " +:+ url +:+ " failed: " +:+ to_string body)
  else mret (Some resp).
Definition post_signed (url : string) (payload : option Value) : C Response :=
  r ← post_once true url payload;
  match r with
  | Some resp => mret resp
  | None =>
      r ← post_once false url payload;
      ok_or_fail r ("ACME request to " +:+ url +:+ " failed: badNonce retry budget exhausted")
  end.

Definition check (r : Response) (what : string) : C unit :=
  if is_success r then mret tt else c_fail (what +:+ status_line r).
Definition post_as_get (url : string) : C Value :=
  r ← post_signed url None;
  _ ← check r ("fetching " +:+ url +:+ " failed: ");
  c_lift (json r).

Definition registration (key : AccountKey) (url : string) (eab : option (string * string)) : result Value string :=
  match eab with
  | Some (kid, hmac_key) =>
      let* binding := external_account_binding key kid hmac_key url in
      Ok (fields [("externalAccountBinding", binding); ("termsOfServiceAgreed", Bool true)]%string)
  | None => Ok (fields [("termsOfServiceAgreed"%string, Bool true)])
  end.
Definition register_account : C unit :=
  url ← read (fun c => new_account (directory c));
  e ← read eab;
  key ← read account;
  payload ← c_lift (registration key url e);
  r ← post_signed url (Some payload);
  _ ← check r "account registration failed: ";
  u ← ok_or_fail (header_str r "location") "ACME server sent no account Location";
  modify (set_account_url (Some u)).

Definition new_order (hostname : string) : C (string * AcmeOrder) :=
  url ← read (fun c => new_order_url (directory c));
  r ← post_signed url (Some (fields [("identifiers"%string, Array [fields [("type", Str "dns"); ("value", Str hostname)]%string])]));
  _ ← check r "order creation failed: ";
  u ← ok_or_fail (header_str r "location") "ACME server sent no order Location";
  v ← c_lift (json r);
  order ← ok_or_fail (parse_order v) "malformed ACME order";
  mret (u, order).

(** The polls: [None] from [verdict] waits. *)
Fixpoint poll {A} (fuel : nat) (deadline : Z) (fetch : C A) (verdict : A -> option (C unit)) (late : A -> string) : C A :=
  match fuel with
  | O => net out_of_fuel
  | S fuel =>
      v ← fetch;
      match verdict v with
      | Some done => _ ← done; mret v
      | None =>
          t ← net now;
          if deadline <=? t then c_fail (late v)
          else
            _ ← net (sleep ORDER_POLL_INTERVAL);
            poll fuel deadline fetch verdict late
      end
  end.
Definition poll_from {A} (fetch : C A) (verdict : A -> option (C unit)) (late : A -> string) : C A :=
  start ← net now;
  poll (rounds POLL_TIMEOUT ORDER_POLL_INTERVAL) (start + POLL_TIMEOUT) fetch verdict late.

Definition authz_verdict (authz_url : string) (authz : Value) : option (C unit) :=
  match get_str authz "status" with
  | Some s =>
      if String.eqb s "valid" then Some (mret tt)
      else if String.eqb s "invalid" then
        Some (c_fail (if invalid_authz_is_dns01_race authz
          then "authorization " +:+ authz_url +:+ " became invalid (" +:+ DNS01_VALIDATION_FAILED +:+ "): " +:+ to_string authz
          else "authorization " +:+ authz_url +:+ " became invalid: " +:+ to_string authz)%string)
      else None
  | None => None
  end.
Definition complete_challenge (challenge_url authz_url : string) : C unit :=
  r ← post_signed challenge_url (Some (fields []));
  _ ← check r "challenge response failed: ";
  _ ← poll_from (post_as_get authz_url) (authz_verdict authz_url)
        (fun _ => "authorization " +:+ authz_url +:+ " did not validate within " +:+ show_secs POLL_TIMEOUT)%string;
  mret tt.

Definition poll_order (order_url : string) (done : AcmeOrder -> bool) : C AcmeOrder :=
  poll_from (v ← post_as_get order_url; ok_or_fail (parse_order v) "malformed ACME order while polling")
    (fun o => if done o then Some (mret tt) else None)
    (fun o => "order " +:+ order_url +:+ " did not settle within " +:+ show_secs POLL_TIMEOUT +:+ " (status=" +:+ order_status o +:+ ")")%string.

Definition finalize (url : string) (csr : CsrBundle) : C unit :=
  r ← post_signed url (Some (fields [("csr"%string, Str (b64url (csr_der csr)))]));
  check r "finalize failed: ".
Definition download_certificate (url : string) : C string :=
  r ← post_signed url None;
  _ ← check r "certificate download failed: ";
  c_lift (text r).

(** ** One authorization *)

(** [authoritative]: the checker's timeout, where there is one. *)
Context (propagation : option PropagationWaiter) (authoritative : option Z).

(** The first check, and whether the second is to be asked: when no nameserver could be reached. *)
Definition ask_authoritative (record_name txt_value : string) : C bool :=
  match authoritative with
  | Some timeout =>
      r ← c_attempt (net (wait_for_all timeout record_name txt_value));
      match r with
      | Ok _ => mret false
      | Err (Msg e) =>
          if contains UNREACHABLE_MARKER e then mret true
          else c_fail ("DNS-01 authoritative check failed: " +:+ e)
      | Err OutOfFuel => net out_of_fuel
      end
  | None => mret true
  end.
Definition ask_public (record_name txt_value : string) : C unit :=
  match propagation with
  | Some waiter =>
      r ← c_attempt (net (wait_for waiter record_name txt_value));
      match r with
      | Ok _ => mret tt
      | Err (Msg e) => c_fail ("DNS-01 propagation check failed: " +:+ e)
      | Err OutOfFuel => net out_of_fuel
      end
  | None => mret tt
  end.
Definition confirm (record_name txt_value : string) : C unit :=
  go ← ask_authoritative record_name txt_value;
  if go : bool then ask_public record_name txt_value else mret tt.
Definition confirm_then_complete (record_name txt_value challenge_url authz_url : string) : C unit :=
  _ ← confirm record_name txt_value;
  complete_challenge challenge_url authz_url.

Definition validate_authorization (authz_url hostname : string) : C unit :=
  authz ← post_as_get authz_url;
  challenge ← ok_or_fail (select_dns01 authz) "ACME server offered no dns-01 challenge for this authorization";
  key ← read account;
  let txt_value := dns01_txt_value (token challenge +:+ "." +:+ thumbprint key) in
  let record_name := dns01_record_name hostname in
  published ← net (ask (SetTxt record_name txt_value));
  outcome ← c_attempt match published with
                      | Ok _ => confirm_then_complete record_name txt_value (challenge_url challenge) authz_url
                      | Err e => c_fail ("publishing the DNS-01 challenge record failed: " +:+ e)
                      end;
  _ ← net (ask (ClearTxt record_name));
  c_result outcome.

Fixpoint validate_all (urls : list string) (hostname : string) : C unit :=
  match urls with
  | [] => mret tt
  | url :: urls => _ ← validate_authorization url hostname; validate_all urls hostname
  end.

Definition one_of (s : string) (l : list string) : bool := existsb (String.eqb s) l.
Definition issue_once (hostname : string) : C IssuedCert :=
  a ← read account_url;
  _ ← match a with None => register_account | Some _ => mret tt end;
  seed ← net (ask Random);
  csr ← c_lift (generate_csr seed hostname);
  '(order_url, order) ← new_order hostname;
  _ ← validate_all (authorizations order) hostname;
  order ← poll_order order_url (fun o => negb (one_of (order_status o) ["pending"; "processing"]%string));
  _ ← (if one_of (order_status order) ["ready"; "processing"; "valid"]%string then mret tt
       else c_fail ("order did not reach ready (status=" +:+ order_status order +:+ ")"));
  order ← (if String.eqb (order_status order) "ready" then
             _ ← finalize (finalize_url order) csr;
             poll_order order_url (fun o => one_of (order_status o) ["valid"; "invalid"]%string)
           else mret order);
  _ ← (if String.eqb (order_status order) "valid" then mret tt
       else c_fail ("order finalize did not reach valid (status=" +:+ order_status order +:+ ")"));
  cert_url ← ok_or_fail (certificate order) "order valid but carries no certificate URL";
  chain ← download_certificate cert_url;
  mret {| cert_chain_pem := chain; key_pem := csr_key_pem csr |}.

(** Attempts [attempt] to [attempts]; [left_] of them after this one. *)
Fixpoint issue_attempts (left_ : nat) (attempt attempts : Z) (hostname : string) : C IssuedCert :=
  r ← c_attempt (issue_once hostname);
  match r with
  | Ok cert => mret cert
  | Err (Msg e) =>
      if is_dns01_failure e && (attempt <? attempts) then
        _ ← net (sleep RETRY_BACKOFF);
        match left_ with
        | O => c_fail e
        | S left_ => issue_attempts left_ (attempt + 1) attempts hostname
        end
      else c_fail e
  | Err OutOfFuel => net out_of_fuel
  end.
Definition issue_certificate_with_attempts (attempts : Z) (hostname : string) : C IssuedCert :=
  issue_attempts (Z.to_nat (Z.max attempts 1 - 1)) 1 attempts hostname.
Definition issue_certificate : string -> C IssuedCert := issue_certificate_with_attempts DNS01_ATTEMPTS.
End Client.
