(* ===== verification/AcmeSafety.v ===== *)
(** * AcmeSafety: what the certificate client asks, when, and how it ends

    Theorems about [Acme]: the CA is told to validate only while a visible record stands, every
    published record is cleared, every request is signed for its URL with a nonce used once, a
    certificate comes from a valid order and the key of its own request, and issuance ends.

    A relation on states that holds along every request, [Walk], holds along the whole client: the
    theorems instantiate it. *)
From S2P Require Import Prelude Text Json Net AcmeWorld Dns01 Acme.

#[local] Open Scope Z_scope.

Section Safety.
Context `{SerdeJson, AcmeCrypto, Outside}.

(** ** Runs *)

Definition runs {A} (R : relation State) (m : C A) : Prop := forall s r s', m s = (r, s') -> R s s'.

Section Rules.
Context (R : relation State) `{!PreOrder R}.
Lemma runs_ret {A} (a : A) : runs R (mret a).
Proof. by intros s r s' [= <- <-]. Qed.
Lemma runs_fail {A} m : runs R (c_fail m : C A).
Proof. by intros s r s' [= <- <-]. Qed.
Lemma runs_result {A} (x : result A Failure) : runs R (c_result x).
Proof. by intros s r s' [= <- <-]. Qed.
Lemma runs_read {A} (f : AcmeClient -> A) : runs R (read f).
Proof. by intros s r s' [= <- <-]. Qed.
Lemma runs_lift {A} (x : result A string) : runs R (c_lift x).
Proof. destruct x; [apply runs_ret|apply runs_fail]. Qed.
Lemma runs_option {A} (o : option A) m : runs R (ok_or_fail o m).
Proof. destruct o; [apply runs_ret|apply runs_fail]. Qed.
Lemma runs_lift_bind {A B} (x : result A string) (f : A -> C B) :
  (forall a, x = Ok a -> runs R (f a)) -> runs R (a ← c_lift x; f a).
Proof. intros Hf s r s'. destruct x as [a|e]; [by apply Hf|by intros [= <- <-]]. Qed.
Lemma runs_check r what : runs R (check r what).
Proof. unfold check. case_match; [apply runs_ret|apply runs_fail]. Qed.
Lemma runs_attempt {A} (m : C A) : runs R m -> runs R (c_attempt m).
Proof. intros Hm s r s'. unfold c_attempt. destruct (m s) as [r1 s1] eqn:E. intros [= <- <-]. by eapply Hm. Qed.
Lemma runs_bind {A B} (m : C A) (f : A -> C B) : runs R m -> (forall a, runs R (f a)) -> runs R (x ← m; f x).
Proof.
  intros Hm Hf s r s'. unfold mbind, c_bind. destruct (m s) as [[a|e] s1] eqn:E; intros E2.
  - etransitivity; [by eapply Hm|by eapply Hf].
  - injection E2 as <- <-. by eapply Hm.
Qed.
End Rules.

(** ** Requests *)

Definition EMPTY : string := "{}".
(** Telling the CA to validate: a signed empty object. *)
Definition ready (x : Asked) : Prop :=
  match projT1 x with
  | Http POST _ _ _ (Some jws) => get_str jws "payload" = Some (b64url (as_bytes EMPTY))
  | _ => False
  end.
Definition plain (x : Asked) : Prop := ~ ready x /\ ~ changes_record (projT1 x).

Lemma ready_signed x : ready x -> signed (projT1 x).
Proof. unfold ready. destruct x as [[[] ? ? ? []| | | | | | | | | | |] ?]; cbn; try done. Qed.
Lemma quiet_plain x : quiet x -> plain x.
Proof. intros [Hs Hc]. split; [by intros ?%ready_signed|done]. Qed.

(** The nonce a reply of the CA carries, and that it was the latest thing the server said before [t] ended. *)
Definition reply_nonce (x : Asked) : option string :=
  let 'existT a r := x in
  match a return Reply a -> option string with
  | Http HEAD _ _ _ _ | Http POST _ _ _ (Some _) => fun r => match r with Ok resp => header_str resp "replay-nonce" | Err _ => None end
  | _ => fun _ => None
  end r.
Definition unsigned (x : Asked) : Prop := ~ signed (projT1 x).
Definition gave (n : string) (t : list Asked) : Prop :=
  exists q y rest, t = q ++ y :: rest /\ reply_nonce y = Some n /\ Forall unsigned q.
Definition nonce_fresh (s : State) : Prop := forall n, nonce (client s) = Some n -> gave n (trace (world s)).

Lemma gave_quiet n q t : Forall quiet q -> gave n t -> gave n (q ++ t).
Proof.
  intros Hq (q' & y & rest & -> & Hy & Hq'). exists (q ++ q'), y, rest. split; [by rewrite app_assoc|]. split; [done|].
  apply Forall_app. split; [|done]. eapply Forall_impl; [exact Hq|]. by intros x [].
Qed.

(** The client is the same but for its nonce. *)
Definition same_but_nonce (c c' : AcmeClient) : Prop := c' = set_nonce (nonce c') c.
#[local] Instance same_preorder : PreOrder same_but_nonce.
Proof.
  split; [by intros []|]. unfold same_but_nonce, set_nonce. intros [] [] []. cbn. intros [=] [=]. by subst.
Qed.

(** [s'] is later than [s] by the questions [l]. *)
Definition later (s : State) (l : list Asked) (s' : State) : Prop :=
  trace (world s') = l ++ trace (world s) /\ clock (world s) <= clock (world s').
Lemma later_same s s' : world s' = world s -> later s [] s'.
Proof. unfold later. intros ->. by split; [|lia]. Qed.
Lemma later_trans s1 l1 s2 l2 s3 : later s1 l1 s2 -> later s2 l2 s3 -> later s1 (l2 ++ l1) s3.
Proof. intros [E1 C1] [E2 C2]. split; [by rewrite E2, E1, app_assoc|lia]. Qed.
(** The steps of a run, one after the other. *)
Ltac later := first [eassumption | eapply later_trans; [eassumption|later]].
Lemma net_ask_run a s r s' : net (ask a) s = (r, s') ->
  exists reply, r = Ok reply /\ later s [asked a reply] s' /\ client s' = client s.
Proof.
  unfold net. rewrite ask_run. intros [= <- <-]. eexists. split; [done|]. pose proof (passes_pos a).
  repeat split. cbn [world clock]. lia.
Qed.

Lemma fresh_nonce_run s r s' : fresh_nonce s = (r, s') ->
  exists l, later s l s' /\ Forall quiet l /\ same_but_nonce (client s) (client s') /\ nonce (client s') = None /\
  match r with Ok n => nonce_fresh s -> gave n (l ++ trace (world s)) | Err e => e <> OutOfFuel end.
Proof.
  unfold fresh_nonce, mbind at 1, c_bind at 1, read at 1. destruct (nonce (client s)) as [n|] eqn:En.
  - intros [= <- <-]. exists []. split; [by apply later_same|]. split; [done|]. split; [done|]. split; [done|]. intros Hf. by apply Hf.
  - unfold mbind at 1, c_bind at 1, read at 1. unfold mbind at 1, c_bind at 1.
    destruct (net (ask (Http HEAD (new_nonce (directory (client s))) [] [] None)) s) as [r1 s1] eqn:E1.
    apply net_ask_run in E1 as (reply & -> & Hl & Hc).
    set (x := asked _ reply) in Hl. assert (quiet x) as Hx by (split; cbn; tauto).
    assert (same_but_nonce (client s) (client s1) /\ nonce (client s1) = None) as [Hsame Hn] by by rewrite Hc.
    intros E. exists [x]. assert (s' = s1 /\ match r with Ok n => reply_nonce x = Some n | Err e => e <> OutOfFuel end) as [-> Hr].
    { revert E. unfold mbind, c_bind. subst x. destruct reply as [resp|e]; cbn [c_lift]; [|by intros [= <- <-]].
      unfold mret, c_ret. change (reply_nonce _) with (header_str resp "replay-nonce").
      destruct (header_str resp "replay-nonce"); by intros [= <- <-]. }
    split; [done|]. split; [by constructor|]. split; [done|]. split; [done|]. destruct r as [n|e]; [|done]. intros _.
    exists [], x, (trace (world s)). by split_and!.
Qed.

(** A signed request as the client makes it in state [s], after the questions [q]. *)
Definition sent (url : string) (payload : option Value) (s : State) (x : Asked) (q : list Asked) : Prop :=
  exists jws n seed reply, x = asked (signed_post url jws) reply /\
    sign_request (account (client s)) seed url n (account_url (client s)) payload = Ok jws /\
    (nonce_fresh s -> gave n (q ++ trace (world s))).
Lemma post_once_run first url payload s r s' : post_once first url payload s = (r, s') ->
  exists l, later s l s' /\ same_but_nonce (client s) (client s') /\ r <> Err OutOfFuel /\
  (Forall quiet l /\ nonce (client s') = None /\ (forall resp, r <> Ok resp) \/
   exists x q, l = x :: q /\ Forall quiet q /\ sent url payload s x q /\ nonce (client s') = reply_nonce x /\
     forall resp, r = Ok (Some resp) -> exists jws, x = asked (signed_post url jws) (Ok resp)).
Proof.
  unfold post_once, mbind at 1, c_bind at 1. destruct (fresh_nonce s) as [r1 s1] eqn:E1.
  apply fresh_nonce_run in E1 as (l1 & L1 & Q1 & S1 & N1 & Hr1). destruct r1 as [n|e].
  2: { intros [= <- <-]. exists l1. split; [done|]. split; [done|]. split; [by intros [= ->]|]. left. by split_and!. }
  unfold mbind at 1, c_bind at 1, read at 1. unfold mbind at 1, c_bind at 1, read at 1. unfold mbind at 1, c_bind at 1.
  destruct (net (ask Random) s1) as [r2 s2] eqn:E2. apply net_ask_run in E2 as (seed & -> & L2 & C2).
  set (x2 := asked Random seed) in L2. pose proof (later_trans _ _ _ _ _ L1 L2) as L12. cbn [app] in L12.
  assert (Forall quiet (x2 :: l1)) as Q12 by (constructor; [split; cbn; tauto|done]).
  assert (account (client s1) = account (client s) /\ account_url (client s1) = account_url (client s)) as [-> ->]
    by by rewrite S1.
  unfold mbind at 1, c_bind at 1.
  destruct (sign_request (account (client s)) seed url n (account_url (client s)) payload) as [jws|e] eqn:Es; cbn [c_lift].
  2: { intros [= <- <-]. exists (x2 :: l1). split; [done|]. rewrite C2. split; [done|]. split; [done|]. left. by split_and!. }
  unfold mret at 1, c_ret at 1. unfold mbind at 1, c_bind at 1.
  destruct (net (ask (signed_post url jws)) s2) as [r3 s3] eqn:E3. apply net_ask_run in E3 as (reply & -> & L3 & C3).
  set (x3 := asked (signed_post url jws) reply) in L3. pose proof (later_trans _ _ _ _ _ L12 L3) as L. cbn [app] in L.
  assert (sent url payload s x3 (x2 :: l1)) as Hsent.
  { exists jws, n, seed, reply. split; [done|]. split; [done|]. intros Hf. apply (gave_quiet n [x2]); [by inversion Q12; constructor|].
    by apply Hr1. }
  unfold mbind at 1, c_bind at 1. destruct reply as [resp|e]; cbn [c_lift].
  2: { intros [= <- <-]. exists (x3 :: x2 :: l1). split; [done|]. rewrite C3, C2. split; [done|]. split; [done|]. right.
       exists x3, (x2 :: l1). by split_and!. }
  unfold mret at 1, c_ret at 1. unfold mbind at 1, c_bind at 1.
  destruct (capture_nonce resp s3) as [r4 s4] eqn:E4.
  assert (r4 = Ok tt /\ world s4 = world s3 /\ same_but_nonce (client s) (client s4) /\ nonce (client s4) = reply_nonce x3) as (-> & W4 & S4 & N4).
  { revert E4. unfold capture_nonce. change (reply_nonce x3) with (header_str resp "replay-nonce").
    destruct (header_str resp "replay-nonce") as [n'|]; intros [= <- <-]; cbn [client world]; rewrite C3, C2;
      (split; [done|]; split; [done|]); [|by split]. split; [|done]. rewrite S1. done. }
  intros E. assert (s' = s4 /\ r <> Err OutOfFuel /\ forall rr, r = Ok (Some rr) -> rr = resp) as (-> & Hfuel & Hresp).
  { revert E. repeat case_match; intros [= <- <-]; split_and!; try done. by intros rr [= ->]. }
  exists (x3 :: x2 :: l1). split; [by destruct L as [??]; split; rewrite W4|]. split; [done|]. split; [done|]. right.
  exists x3, (x2 :: l1). split_and!; [done..|]. intros rr Hr. exists jws. by rewrite (Hresp rr Hr).
Qed.

(** The second post is made after the first, by the same client. *)
Lemma post_signed_run (R : relation State) `{!PreOrder R} url payload :
  (forall first, runs R (post_once first url payload)) -> runs R (post_signed url payload).
Proof.
  intros HR. unfold post_signed. apply runs_bind; [done|apply HR|]. intros [resp|]; [by apply runs_ret|].
  apply runs_bind; [done|apply HR|]. intros rr. by apply runs_option.
Qed.

(** ** What a payload tells the CA *)

(** A payload other than the empty object: none, or an object with members. *)
Definition no_readiness (payload : option Value) : Prop :=
  match payload with None => True | Some (Object m) => m <> ∅ | Some _ => False end.
Lemma fields_cons kv l : no_readiness (Some (fields (kv :: l))).
Proof. destruct kv as [k v]. apply insert_non_empty. Qed.

Lemma payload_text_empty payload : no_readiness payload -> payload_text payload <> b64url (as_bytes EMPTY).
Proof.
  unfold payload_text. destruct payload as [[]|]; cbn [no_readiness]; try done.
  - intros Hm E%b64url_inj%as_bytes_inj. by apply Hm, to_string_empty.
  - rewrite <-b64url_nil. by intros _ E%b64url_inj.
Qed.
Lemma sign_request_payload key seed url n kid payload jws :
  sign_request key seed url n kid payload = Ok jws -> get_str jws "payload" = Some (payload_text payload).
Proof. unfold sign_request, rbind. case_match; [|done]. intros [= <-]. reflexivity. Qed.
Lemma sent_plain url payload s x q : no_readiness payload -> sent url payload s x q -> plain x.
Proof.
  intros Hp (jws & n & seed & reply & -> & Hsign & _). split; [|by intros []]. unfold ready. cbn [projT1 asked signed_post].
  rewrite (sign_request_payload _ _ _ _ _ _ _ Hsign). intros [= E]. by eapply payload_text_empty.
Qed.

(** ** Along the whole client

    [Walk]: a relation that holds along every request but telling the CA to validate, along quiet
    questions, and along the registration of the account. *)
Class Walk (R : relation State) : Prop := {
  #[global] walk_preorder :: PreOrder R;
  walk_post url payload first : no_readiness payload -> runs R (post_once first url payload);
  walk_net {A} (m : N A) : grows m -> runs R (net m);
  walk_account u : runs R (modify (set_account_url u));
}.

Section Along.
Context (R : relation State) `{!Walk R}.

Lemma along_post url payload : no_readiness payload -> runs R (post_signed url payload).
Proof. intros Hp. apply post_signed_run; [exact _|]. intros first. by apply walk_post. Qed.
Lemma along_now : runs R (net now).
Proof. apply walk_net. apply grows_now. Qed.
Lemma along_sleep d : runs R (net (sleep d)).
Proof. apply walk_net, grows_sleep. Qed.
Lemma along_fuel {A} : runs R (net out_of_fuel : C A).
Proof. apply walk_net, grows_fuel. Qed.
Lemma along_random : runs R (net (ask Random)).
Proof. apply walk_net. refine (grows_ask Random _ _); cbn; tauto. Qed.
#[local] Hint Resolve runs_ret runs_fail runs_result runs_read runs_lift runs_option runs_check runs_attempt
  along_now along_sleep along_fuel along_random along_post fields_cons walk_account walk_preorder : along.
#[local] Hint Extern 1 (no_readiness None) => exact I : along.
Ltac along := repeat first [solve [auto with along typeclass_instances] | match goal with |- runs _ (mbind _ _) => apply runs_bind; [exact _| |intros ?] end | case_match].

Lemma along_post_as_get url : runs R (post_as_get url).
Proof. unfold post_as_get. along. Qed.
#[local] Hint Resolve along_post_as_get : along.
Lemma along_register : runs R register_account.
Proof.
  unfold register_account. do 3 (apply runs_bind; [exact _|along|intros ?]). refine (runs_lift_bind _ _ _ _). intros v Hv.
  assert (no_readiness (Some v)) as Hne.
  { revert Hv. unfold registration, rbind. repeat case_match; intros [= <-]; apply fields_cons. }
  along.
Qed.
Lemma along_new_order h : runs R (new_order h).
Proof. unfold new_order. along. Qed.
Lemma along_poll {A} fuel deadline (fetch : C A) verdict late :
  runs R fetch -> (forall v m, verdict v = Some m -> runs R m) -> runs R (poll fuel deadline fetch verdict late).
Proof. intros Hf Hv. induction fuel as [|fuel IH]; cbn [poll]; along. by eapply Hv. Qed.
Lemma along_poll_from {A} (fetch : C A) verdict late :
  runs R fetch -> (forall v m, verdict v = Some m -> runs R m) -> runs R (poll_from fetch verdict late).
Proof. intros Hf Hv. unfold poll_from. along. by apply along_poll. Qed.
Lemma along_authz_verdict url v m : authz_verdict url v = Some m -> runs R m.
Proof. unfold authz_verdict. repeat case_match; intros [= <-]; along. Qed.
Lemma along_poll_order url done_ : runs R (poll_order url done_).
Proof. unfold poll_order. apply along_poll_from; [along|]. intros v m. case_match; intros [= <-]; along. Qed.
Lemma along_finalize url csr : runs R (finalize url csr).
Proof. unfold finalize. along. Qed.
Lemma along_download url : runs R (download_certificate url).
Proof. unfold download_certificate. along. Qed.
Lemma along_confirm propagation authoritative name value : runs R (confirm propagation authoritative name value).
Proof.
  unfold confirm, ask_authoritative, ask_public. pose proof (@grows_wait_for _). pose proof (@grows_wait_for_all _).
  along; by apply runs_attempt, walk_net.
Qed.
#[local] Hint Resolve along_register along_new_order along_poll_order along_finalize along_download : along.

Context (propagation : option PropagationWaiter) (authoritative : option Z) (h : string).
Hypothesis one_authorization : forall url, runs R (validate_authorization propagation authoritative url h).
Lemma along_validate_all urls : runs R (validate_all propagation authoritative urls h).
Proof. induction urls as [|url urls IH]; cbn [validate_all]; along. Qed.
#[local] Hint Resolve along_validate_all : along.
Lemma along_issue_once : runs R (issue_once propagation authoritative h).
Proof. unfold issue_once. along. Qed.
#[local] Hint Resolve along_issue_once : along.
Lemma along_issue_attempts left_ attempt attempts : runs R (issue_attempts propagation authoritative left_ attempt attempts h).
Proof. revert attempt. induction left_ as [|left_ IH]; intros attempt; cbn [issue_attempts]; along. Qed.
Lemma along_issue : runs R (issue_certificate propagation authoritative h).
Proof. apply along_issue_attempts. Qed.
End Along.

(** ** Instances *)

(** The questions between two states satisfy [P], and the account key is the same. *)
Definition only (P : Asked -> Prop) (s s' : State) : Prop :=
  exists l, later s l s' /\ Forall P l /\ account (client s') = account (client s).
#[local] Instance only_preorder P : PreOrder (only P).
Proof.
  split; [intros s; exists []; split; [by apply later_same|done]|]. intros s1 s2 s3 (l1 & L1 & P1 & A1) (l2 & L2 & P2 & A2).
  exists (l2 ++ l1). split; [by eapply later_trans|]. split; [by apply Forall_app|congruence].
Qed.
Lemma net_run {A} (m : N A) s r s' : grows m -> net m s = (r, s') ->
  exists l, later s l s' /\ Forall quiet l /\ client s' = client s.
Proof.
  intros Hm. unfold net. destruct (m (world s)) as [r1 w1] eqn:E. intros [= <- <-]. destruct (Hm _ _ _ E) as (Hc & l & El & Q).
  by exists l.
Qed.
Lemma only_net (P : Asked -> Prop) {A} (m : N A) : (forall x, quiet x -> P x) -> grows m -> runs (only P) (net m).
Proof.
  intros HP Hm s r s' E. apply net_run in E as (l & L & Q & C); [|done]. exists l. rewrite C. split; [done|]. split; [|done].
  by eapply Forall_impl.
Qed.
Lemma only_account (P : Asked -> Prop) u : runs (only P) (modify (set_account_url u)).
Proof. intros s r s' [= <- <-]. exists []. split; [by apply later_same|done]. Qed.
Lemma only_post_once (P : Asked -> Prop) first url payload :
  (forall x, quiet x -> P x) -> (forall s x q, sent url payload s x q -> P x) -> runs (only P) (post_once first url payload).
Proof.
  intros HQ HS s r s' E. apply post_once_run in E as (l & L & Hsame & _ & [(Q & _)|(x & q & -> & Q & Hsent & _)]); eexists; (split; [exact L|]).
  - split; [by eapply Forall_impl|by rewrite Hsame].
  - split; [|by rewrite Hsame]. constructor; [by eapply HS|by eapply Forall_impl].
Qed.

Definition keeps_records (x : Asked) : Prop := ~ changes_record (projT1 x).
#[local] Instance walk_plain : Walk (only plain).
Proof.
  split; [exact _| |intros A m; apply only_net, quiet_plain|apply only_account].
  intros url payload first Hp. apply only_post_once; [apply quiet_plain|]. intros s x q. by apply sent_plain.
Qed.
Lemma records_post_once first url payload : runs (only keeps_records) (post_once first url payload).
Proof. apply only_post_once; [by intros x []|]. by intros s x q (jws & n & seed & reply & -> & _) []. Qed.
#[local] Instance walk_records : Walk (only keeps_records).
Proof.
  split; [exact _|intros; apply records_post_once|intros A m; apply only_net; by intros x []|apply only_account].
Qed.
Lemma complete_keeps_records challenge_url authz_url : runs (only keeps_records) (complete_challenge challenge_url authz_url).
Proof.
  unfold complete_challenge. apply runs_bind; [exact _| |intros r].
  { apply post_signed_run; [exact _|]. intros first. apply records_post_once. }
  apply runs_bind; [exact _|by apply runs_check, _|intros _]. apply runs_bind; [exact _| |by intros; apply runs_ret, _].
  apply along_poll_from; [exact _|by apply along_post_as_get, _|apply along_authz_verdict; exact _].
Qed.

(** ** One challenge *)

Section Challenge.
Context (propagation : option PropagationWaiter) (authoritative : option Z).

(** Durations as configured: the public resolvers are asked at an interval. *)
Definition checks_ok : Prop :=
  (forall t, authoritative = Some t -> 0 <= t) /\
  (forall p, propagation = Some p -> 0 <= timeout p /\ 0 < interval p /\ 0 <= initial_delay p).

(** The authoritative check gave up because no nameserver could be reached. *)
Definition unreachable (t : Z) (name value : string) (l : list Asked) : Prop :=
  exists w m w', wait_for_all t name value w = (Err (Msg m), w') /\ contains UNREACHABLE_MARKER m = true /\ trace w' = l ++ trace w.
Definition agreed (p : PropagationWaiter) (name value : string) (l : list Asked) : Prop :=
  exists round t, l = round ++ [asked (Sleep (initial_delay p)) t] /\ agreed_everywhere p name value round.
(** What was seen before the CA is told: the record on every nameserver, or, where none could be
    reached or none is to be asked, on every public resolver that is configured. *)
Definition seen (name value : string) (l : list Asked) : Prop :=
  match authoritative with
  | Some t => served_everywhere name value l \/
      exists l1 l2, l = l2 ++ l1 /\ unreachable t name value l1 /\
        match propagation with Some p => agreed p name value l2 | None => l2 = [] end
  | None => match propagation with Some p => agreed p name value l | None => l = [] end
  end.

Lemma attempt_run {A} (m : C A) s r s' : c_attempt m s = (r, s') -> exists r0, m s = (r0, s') /\ r = Ok r0.
Proof. unfold c_attempt. destruct (m s) as [r0 s0]. intros [= <- <-]. by exists r0. Qed.

Lemma ask_public_run name value s r s' : checks_ok -> ask_public propagation name value s = (r, s') ->
  exists l, later s l s' /\ Forall quiet l /\ client s' = client s /\ r <> Err OutOfFuel /\
    (r = Ok tt -> match propagation with Some p => agreed p name value l | None => l = [] end).
Proof.
  intros [_ Hp]. unfold ask_public. destruct propagation as [p|].
  2: { intros [= <- <-]. exists []. by split_and!; [apply later_same|..]. }
  destruct (Hp p eq_refl) as (Ht & Hi & Hd). unfold mbind, c_bind. destruct (c_attempt _ s) as [r1 s1] eqn:E1.
  apply attempt_run in E1 as (r0 & E1 & ->). pose proof (net_run _ _ _ _ (grows_wait_for p name value) E1) as (l & L & Q & C).
  unfold net in E1. destruct (wait_for p name value (world s)) as [r2 w2] eqn:E2. injection E1 as -> <-.
  apply wait_for_run in E2 as (Hfuel & _ & Hok); [|done..]. intros E.
  assert (exists r', r = r' /\ s' = {| client := client s; world := w2 |} /\ r' <> Err OutOfFuel /\ (r' = Ok tt -> r0 = Ok tt)) as (r' & -> & -> & Hr & Hr0).
  { destruct r0 as [[]|[]]; [| |done]; injection E as <- <-; eexists; split_and!; done. }
  exists l. split_and!; [done..|]. intros Hr'. destruct (Hok (Hr0 Hr')) as (round & t & El & Hag). exists round, t.
  split; [|done]. destruct L as [L _]. cbn [world] in L. rewrite L in El. apply (app_inv_tail (trace (world s))). by rewrite El, <-app_assoc.
Qed.

Lemma ask_authoritative_run name value s r s' : checks_ok -> ask_authoritative authoritative name value s = (r, s') ->
  exists l, later s l s' /\ Forall quiet l /\ client s' = client s /\ r <> Err OutOfFuel /\
    match authoritative with
    | Some t => (r = Ok false -> served_everywhere name value l) /\ (r = Ok true -> unreachable t name value l)
    | None => r = Ok true /\ l = []
    end.
Proof.
  intros [Ha _]. unfold ask_authoritative. destruct authoritative as [t|].
  2: { intros [= <- <-]. exists []. by split_and!; [apply later_same|..]. }
  specialize (Ha t eq_refl). unfold mbind, c_bind. destruct (c_attempt _ s) as [r1 s1] eqn:E1.
  apply attempt_run in E1 as (r0 & E1 & ->). pose proof (net_run _ _ _ _ (grows_wait_for_all t name value) E1) as (l & L & Q & C).
  unfold net in E1. destruct (wait_for_all t name value (world s)) as [r2 w2] eqn:E2. injection E1 as -> <-.
  pose proof (wait_for_all_live _ _ _ _ _ _ Ha E2) as [Hfuel Hok]. destruct L as [L Hc]. cbn [world] in L, Hc. intros E.
  exists l. destruct r0 as [[]|[m|]]; [| |done].
  - injection E as <- <-. split_and!; [done..| |done]. intros _. destruct (Hok eq_refl) as (l' & El & Hl).
    rewrite L in El. by apply app_inv_tail in El as ->.
  - destruct (contains UNREACHABLE_MARKER m) eqn:Em; injection E as <- <-; split_and!; try done. intros _. by exists (world s), m, w2.
Qed.
Lemma confirm_run name value s r s' : checks_ok -> confirm propagation authoritative name value s = (r, s') ->
  exists l, later s l s' /\ Forall quiet l /\ client s' = client s /\ r <> Err OutOfFuel /\ (r = Ok tt -> seen name value l).
Proof.
  intros Hok. unfold confirm, mbind, c_bind. destruct (ask_authoritative _ _ _ s) as [r1 s1] eqn:E1.
  apply ask_authoritative_run in E1 as (l1 & L1 & Q1 & C1 & F1 & H1'); [|done]. destruct r1 as [[]|e].
  3: { intros [= <- <-]. exists l1. split_and!; [done..|by intros [= ->]|done]. }
  - intros E. apply ask_public_run in E as (l2 & L2 & Q2 & C2 & F2 & H2'); [|done]. exists (l2 ++ l1).
    split; [by eapply later_trans|]. split; [by apply Forall_app|]. split; [congruence|]. split; [done|]. intros Hr.
    specialize (H2' Hr). unfold seen. destruct authoritative as [t|].
    + right. exists l1, l2. split; [done|]. split; [by apply H1'|done].
    + destruct H1' as [_ ->]. rewrite app_nil_r. exact H2'.
  - intros [= <- <-]. exists l1. split_and!; [done..|]. intros _. unfold seen. destruct authoritative as [t|]; [left; by apply H1'|by destruct H1'].
Qed.

(** [disciplined h key l]: every record in [l] is one of [h]'s challenges, stands alone until it is
    cleared, and the CA is told to validate only after it was published and seen. *)
Inductive disciplined (h : string) (key : AccountKey) : list Asked -> Prop :=
| no_challenge : disciplined h key []
| plain_request x l : plain x -> disciplined h key l -> disciplined h key (x :: l)
| challenge token p c b2 b1 l :
    let name := dns01_record_name h in let value := dns01_txt_value (token +:+ "." +:+ thumbprint key) in
    disciplined h key l -> Forall plain b1 -> Forall keeps_records b2 ->
    (b2 <> [] -> p = Ok tt /\ seen name value b1) ->
    disciplined h key (asked (ClearTxt name) c :: b2 ++ b1 ++ asked (SetTxt name value) p :: l).

Lemma disciplined_app h key l1 l2 : disciplined h key l1 -> disciplined h key l2 -> disciplined h key (l2 ++ l1).
Proof.
  intros H1' H2'. induction H2' as [|x l Hx _ IH|tok p c b2 b1 l name value _ IH Hb1 Hb2 Hseen]; [done|by constructor|].
  cbn [app]. rewrite <-!app_assoc. cbn [app]. by apply challenge.
Qed.
Lemma disciplined_plain h key l : Forall plain l -> disciplined h key l.
Proof. induction 1; by constructor. Qed.

Definition keeps_discipline (h : string) (s s' : State) : Prop :=
  exists l, later s l s' /\ disciplined h (account (client s)) l /\ account (client s') = account (client s).
#[local] Instance discipline_preorder h : PreOrder (keeps_discipline h).
Proof.
  split; [intros s; exists []; split; [by apply later_same|]; split; [constructor|done]|].
  intros s1 s2 s3 (l1 & L1 & D1 & A1) (l2 & L2 & D2 & A2). exists (l2 ++ l1). split; [by eapply later_trans|].
  split; [apply disciplined_app; [done|]|]; congruence.
Qed.
Lemma plain_discipline h {A} (m : C A) : runs (only plain) m -> runs (keeps_discipline h) m.
Proof. intros Hm s r s' E. destruct (Hm _ _ _ E) as (l & L & P & Ha). exists l. split; [done|]. split; [by apply disciplined_plain|done]. Qed.
#[local] Instance walk_discipline h : Walk (keeps_discipline h).
Proof.
  split; [exact _|intros; by apply plain_discipline, walk_post|intros; by apply plain_discipline, walk_net|].
  intros u. apply plain_discipline, walk_account.
Qed.

Lemma confirm_then_complete_run name value challenge_url authz_url s r s' : checks_ok ->
  confirm_then_complete propagation authoritative name value challenge_url authz_url s = (r, s') ->
  exists b1 b2, later s (b2 ++ b1) s' /\ Forall plain b1 /\ Forall keeps_records b2 /\ (b2 <> [] -> seen name value b1) /\
    account (client s') = account (client s).
Proof.
  intros Hok. unfold confirm_then_complete, mbind, c_bind. destruct (confirm _ _ _ _ s) as [r1 s1] eqn:E1.
  apply confirm_run in E1 as (b1 & L1 & Q1 & C1 & _ & Hseen); [|done].
  assert (Forall plain b1) by (eapply Forall_impl; [exact Q1|apply quiet_plain]). destruct r1 as [[]|e].
  - intros E. destruct (complete_keeps_records _ _ _ _ _ E) as (b2 & L2 & P2 & A2). exists b1, b2.
    split; [by eapply later_trans|]. split; [done|]. split; [done|]. split; [by intros _; apply Hseen|congruence].
  - intros [= <- <-]. exists b1, []. by split_and!; [..|rewrite C1].
Qed.

Lemma discipline_validate h authz_url : checks_ok -> runs (keeps_discipline h) (validate_authorization propagation authoritative authz_url h).
Proof.
  intros Hok. unfold validate_authorization. apply runs_bind; [exact _|by apply along_post_as_get, _|intros authz].
  apply runs_bind; [exact _|by apply runs_option, _|intros c]. intros s r s'. unfold mbind at 1, c_bind at 1, read at 1.
  set (name := dns01_record_name h). set (value := dns01_txt_value _). unfold mbind at 1, c_bind at 1.
  destruct (net (ask (SetTxt name value)) s) as [r1 s1] eqn:E1. apply net_ask_run in E1 as (p & -> & L1 & C1).
  unfold mbind at 1, c_bind at 1. destruct (c_attempt _ s1) as [r2 s2] eqn:E2. apply attempt_run in E2 as (r0 & E2 & ->).
  assert (exists b1 b2, later s1 (b2 ++ b1) s2 /\ Forall plain b1 /\ Forall keeps_records b2 /\
    (b2 <> [] -> p = Ok tt /\ seen name value b1) /\ account (client s2) = account (client s1)) as (b1 & b2 & L2 & P1 & P2 & Hs & A2).
  { destruct p as [[]|e].
    - apply confirm_then_complete_run in E2 as (b1 & b2 & L2 & P1 & P2 & Hs & A2); [|done]. exists b1, b2. by split_and!; auto.
    - injection E2 as <- <-. exists [], []. by split_and!; [apply later_same|..]. }
  unfold mbind at 1, c_bind at 1. destruct (net (ask (ClearTxt name)) s2) as [r3 s3] eqn:E3.
  apply net_ask_run in E3 as (cl & -> & L3 & C3). intros [= <- <-].
  exists (asked (ClearTxt name) cl :: b2 ++ b1 ++ [asked (SetTxt name value) p]). split.
  { pose proof (later_trans _ _ _ _ _ (later_trans _ _ _ _ _ L1 L2) L3) as L. by rewrite <-!app_assoc in L. }
  split; [|congruence]. by apply challenge; [constructor|..].
Qed.

Lemma issue_disciplined h : checks_ok -> runs (keeps_discipline h) (issue_certificate propagation authoritative h).
Proof. intros Hok. apply along_issue; [exact _|]. intros url. by apply discipline_validate. Qed.

(** ** The trace of a disciplined client *)

Lemma disciplined_ready h key l : disciplined h key l -> forall l1 x l2, l = l1 ++ x :: l2 -> ready x ->
  exists tok b2 b1 a, let name := dns01_record_name h in let value := dns01_txt_value (tok +:+ "." +:+ thumbprint key) in
    l2 = b2 ++ b1 ++ asked (SetTxt name value) (Ok tt) :: a /\ Forall keeps_records (b2 ++ b1) /\ seen name value b1.
Proof.
  induction 1 as [|y l [Hy _] _ IH|tok p c b2 b1 l name value _ IH Hb1 Hb2 Hs]; intros l1 x l2 El Hx; [by destruct l1|..].
  - destruct l1 as [|z l1]; injection El as -> El; [done|]. by eapply IH.
  - destruct l1 as [|z l1]; injection El as Ex El; [by subst x|].
    apply split_at in El as [(k & -> & ->)|(k & Ek1 & Ek)].
    + destruct (Hs ltac:(by destruct l1)) as [-> Hseen]. exists tok, k, b1, l. split; [done|]. split; [|done].
      apply Forall_app in Hb2 as [_ Hb2]. inversion Hb2. apply Forall_app. split; [done|]. eapply Forall_impl; [exact Hb1|]. by intros y [].
    + apply split_at in Ek as [(k' & -> & _)|(k' & _ & Ek)].
      * exfalso. apply Forall_app in Hb1 as [_ Hb1]. inversion Hb1 as [|? ? [Hr _]]. by apply Hr.
      * destruct k' as [|z' k']; injection Ek as Ez Ek; [by subst x|]. by eapply IH.
Qed.

Lemma disciplined_cleared h key l : disciplined h key l -> forall l1 name value p l2, l = l1 ++ asked (SetTxt name value) p :: l2 ->
  exists l3 c b, l1 = l3 ++ asked (ClearTxt name) c :: b /\ Forall keeps_records b.
Proof.
  induction 1 as [|y l [_ Hy] _ IH|tok q c b2 b1 l name value _ IH Hb1 Hb2 Hs]; intros l1 n v p l2 El; [by destruct l1|..].
  - destruct l1 as [|z l1]; injection El as -> El; [by destruct Hy|].
    destruct (IH _ _ _ _ _ El) as (l3 & cl & b & -> & Hb). by exists (z :: l3), cl, b.
  - destruct l1 as [|z l1]; injection El as Ez El; [done|]. subst z.
    assert (Forall keeps_records (b2 ++ b1)) as Hb by (apply Forall_app; split; [done|]; eapply Forall_impl; [exact Hb1|by intros x []]).
    rewrite (app_assoc b2) in El. apply split_at in El as [(k & Ek & _)|(k & Ek1 & Ek)].
    + exfalso. rewrite Ek in Hb. apply Forall_app in Hb as [_ Hb]. inversion Hb as [|? ? Hk]. by apply Hk.
    + destruct k as [|z' k]; cbn [app] in Ek.
      * injection Ek as En _ _. rewrite app_nil_r in Ek1. subst l1 n. by exists [], c, (b2 ++ b1).
      * injection Ek as <- Ek. destruct (IH _ _ _ _ _ Ek) as (l3 & cl & b & -> & Hb3).
        exists (asked (ClearTxt name) c :: (b2 ++ b1) ++ asked (SetTxt name value) q :: l3), cl, b. split; [|done].
        rewrite Ek1. cbn [app]. by rewrite <-!app_assoc.
Qed.
End Challenge.

(** ** Nonces *)

Definition signed_fresh (key : AccountKey) (l t : list Asked) : Prop :=
  forall l1 x l2, l = l1 ++ x :: l2 -> signed (projT1 x) ->
    exists url jws reply n seed kid payload, x = asked (signed_post url jws) reply /\
      sign_request key seed url n kid payload = Ok jws /\ gave n (l2 ++ t).
Definition keeps_nonces (s s' : State) : Prop :=
  exists l, later s l s' /\ account (client s') = account (client s) /\
    (nonce_fresh s -> nonce_fresh s' /\ signed_fresh (account (client s)) l (trace (world s))).

Lemma signed_fresh_app key l1 l2 t : signed_fresh key l1 t -> signed_fresh key l2 (l1 ++ t) -> signed_fresh key (l2 ++ l1) t.
Proof.
  intros F1 F2 k1 x k2 E Hx. apply split_at in E as [(k & E & ->)|(k & _ & E)].
  - rewrite <-app_assoc. by eapply F2.
  - by eapply F1.
Qed.
Lemma signed_fresh_quiet key l t : Forall quiet l -> signed_fresh key l t.
Proof. intros Q l1 x l2 -> Hx. apply Forall_app in Q as [_ Q]. inversion Q as [|? ? [Hn _]]. by apply Hn in Hx. Qed.
#[local] Instance nonces_preorder : PreOrder keeps_nonces.
Proof.
  split.
  - intros s. exists []. split; [by apply later_same|]. split; [done|]. intros Hf. split; [done|]. by apply signed_fresh_quiet.
  - intros s1 s2 s3 (l1 & L1 & A1 & F1) (l2 & L2 & A2 & F2). exists (l2 ++ l1). split; [by eapply later_trans|].
    split; [congruence|]. intros Hf. destruct (F1 Hf) as [Hf2 S1]. destruct (F2 Hf2) as [Hf3 S2]. split; [done|].
    apply signed_fresh_app; [done|]. destruct L1 as [<- _]. by rewrite <-A1.
Qed.
Lemma nonces_quiet l s s' : later s l s' -> Forall quiet l -> account (client s') = account (client s) ->
  nonce (client s') = nonce (client s) \/ nonce (client s') = None -> keeps_nonces s s'.
Proof.
  intros L Q A N. exists l. split; [done|]. split; [done|]. intros Hf. split; [|by apply signed_fresh_quiet].
  intros n Hn. destruct N as [N|N]; rewrite N in Hn; [|done]. destruct L as [-> _]. apply gave_quiet; [done|]. by apply Hf.
Qed.
Lemma nonces_post_once first url payload : runs keeps_nonces (post_once first url payload).
Proof.
  intros s r s' E. apply post_once_run in E as (l & L & Hsame & _ & [(Q & N & _)|(x & q & -> & Q & Hsent & N & _)]).
  { apply (nonces_quiet l); [done|done|by rewrite Hsame|by right]. }
  exists (x :: q). split; [done|]. split; [by rewrite Hsame|]. intros Hf. split.
  - intros n Hn. rewrite N in Hn. destruct L as [-> _]. by exists [], x, (q ++ trace (world s)).
  - intros l1 y l2 Ey Hy. destruct l1 as [|z l1]; injection Ey as -> Ey.
    + subst l2. destruct Hsent as (jws & n & seed & reply & -> & Hs & Hg). exists url, jws, reply, n, seed, (account_url (client s)), payload.
      split; [done|]. split; [done|]. by apply Hg.
    + exfalso. subst q. apply Forall_app in Q as [_ Q]. inversion Q as [|? ? [Hn _]]. by apply Hn.
Qed.
#[local] Instance walk_nonces : Walk keeps_nonces.
Proof.
  split; [exact _|intros; apply nonces_post_once| |].
  - intros A m Hm s r s' E. apply net_run in E as (l & L & Q & C); [|done]. apply (nonces_quiet l); rewrite ?C; auto.
  - intros u s r s' [= <- <-]. apply (nonces_quiet []); auto. by apply later_same.
Qed.
Lemma nonces_record a : changes_record a -> runs keeps_nonces (net (ask a)).
Proof.
  intros Ha s r s' E. apply net_ask_run in E as (reply & -> & L & C). exists [asked a reply]. split; [done|]. rewrite C.
  split; [done|]. intros Hf. split.
  - intros n Hn. rewrite C in Hn. destruct (Hf n Hn) as (q & y & rest & Et & Hy & Hq). destruct L as [-> _].
    exists (asked a reply :: q), y, rest. rewrite Et. split; [done|]. split; [done|]. constructor; [|done]. intros Hx. by destruct a.
  - intros l1 x l2 E Hx. destruct l1 as [|? [|]]; [|done..]. injection E as <- <-. by destruct a.
Qed.
Lemma nonces_validate propagation authoritative authz_url h :
  runs keeps_nonces (validate_authorization propagation authoritative authz_url h).
Proof.
  unfold validate_authorization. apply runs_bind; [exact _|by apply along_post_as_get, _|intros authz].
  apply runs_bind; [exact _|by apply runs_option, _|intros c]. apply runs_bind; [exact _|by apply runs_read, _|intros key].
  cbv zeta. apply runs_bind; [exact _|exact (nonces_record (SetTxt _ _) I)|intros p]. apply runs_bind; [exact _| |intros o].
  - apply runs_attempt. destruct p; [|by apply runs_fail, _]. apply runs_bind; [exact _|by apply along_confirm, _|intros _].
    unfold complete_challenge. apply runs_bind; [exact _|apply post_signed_run; [exact _|intros; apply nonces_post_once]|intros resp].
    apply runs_bind; [exact _|by apply runs_check, _|intros _]. apply runs_bind; [exact _| |by intros; apply runs_ret, _].
    apply along_poll_from; [exact _|by apply along_post_as_get, _|apply along_authz_verdict; exact _].
  - apply runs_bind; [exact _|exact (nonces_record (ClearTxt _) I)|intros _]. by apply runs_result, _.
Qed.

(** ** What a success means *)

(** A run that succeeds with [a] has asked questions of which [P] holds. *)
Definition gives {A} (m : C A) (P : list Asked -> A -> Prop) : Prop :=
  forall s a s', m s = (Ok a, s') -> exists l, later s l s' /\ P l a.
Definition grown (P : list Asked -> Prop) : Prop := forall l l', l ⊆ l' -> P l -> P l'.

Lemma bind_ok {A B} (m : C A) (f : A -> C B) s b s' : (x ← m; f x) s = (Ok b, s') ->
  exists a s1, m s = (Ok a, s1) /\ f a s1 = (Ok b, s').
Proof. unfold mbind, c_bind. destruct (m s) as [[a|e] s1]; [|done]. intros E. by exists a, s1. Qed.
Lemma gives_bind {A B} (m : C A) (f : A -> C B) P Q :
  gives m P -> (forall a, gives (f a) (fun l b => forall l0, P l0 a -> Q (l ++ l0) b)) -> gives (x ← m; f x) Q.
Proof.
  intros Hm Hf s b s' (a & s1 & E1 & E2)%bind_ok. destruct (Hm _ _ _ E1) as (l1 & L1 & P1). destruct (Hf a _ _ _ E2) as (l2 & L2 & P2).
  exists (l2 ++ l1). split; [by eapply later_trans|]. by apply P2.
Qed.
Lemma gives_conseq {A} (m : C A) (P Q : list Asked -> A -> Prop) : gives m P -> (forall l a, P l a -> Q l a) -> gives m Q.
Proof. intros Hm HQ s a s' E. destruct (Hm _ _ _ E) as (l & L & Hl). exists l. split; [done|]. by apply HQ. Qed.
Lemma gives_any {A} (m : C A) : runs keeps_nonces m -> gives m (fun _ _ => True).
Proof. intros Hm s a s' E. destruct (Hm _ _ _ E) as (l & L & _). by exists l. Qed.
Lemma gives_ret {A} (a : A) (P : list Asked -> A -> Prop) : P [] a -> gives (mret a) P.
Proof. intros HP s b s' [= <- <-]. exists []. split; [by apply later_same|done]. Qed.
Lemma gives_lift {A} (x : result A string) : gives (c_lift x) (fun l a => l = [] /\ x = Ok a).
Proof. destruct x; [by apply gives_ret|by intros s a s']. Qed.
Lemma gives_option {A} (o : option A) m : gives (ok_or_fail o m) (fun l a => l = [] /\ o = Some a).
Proof. destruct o; [by apply gives_ret|by intros s a s']. Qed.
Lemma gives_check r what : gives (check r what) (fun l _ => l = [] /\ is_success r = true).
Proof. unfold check. case_match; [by apply gives_ret|by intros s a s']. Qed.
Lemma gives_ask a : gives (net (ask a)) (fun l r => l = [asked a r]).
Proof. intros s r s' E. apply net_ask_run in E as (r' & [= <-] & L & _). by eexists. Qed.

(** [l] shows a reply to a signed request. *)
Definition replied (url : string) (payload : option Value) (resp : Response) (l : list Asked) : Prop :=
  exists jws, asked (signed_post url jws) (Ok resp) ∈ l /\ get_str jws "payload" = Some (payload_text payload).
Definition answered (url : string) (payload : option Value) (resp : Response) (l : list Asked) : Prop :=
  replied url payload resp l /\ is_success resp = true.
Lemma grown_replied url payload resp : grown (replied url payload resp).
Proof. intros l l' Hl (jws & Hin & Hp). exists jws. split; [by apply Hl|done]. Qed.
Lemma grown_answered url payload resp : grown (answered url payload resp).
Proof. intros l l' Hl [Hr Hs]. split; [by eapply grown_replied|done]. Qed.

Lemma gives_post_once first url payload :
  gives (post_once first url payload) (fun l r => forall resp, r = Some resp -> replied url payload resp l).
Proof.
  intros s r s' E. apply post_once_run in E as (l & L & _ & _ & [(_ & _ & Hr)|(x & q & -> & _ & Hs & _ & Hr)]); [by destruct (Hr r)|].
  exists (x :: q). split; [done|]. intros resp ->. destruct (Hr resp eq_refl) as [jws Ex]. exists jws. split; [rewrite Ex; by left|].
  destruct Hs as (jws' & n & seed & reply & Ex' & Hsign & _). rewrite Ex in Ex'. injection Ex' as <-. by eapply sign_request_payload.
Qed.
Lemma gives_post_signed url payload : gives (post_signed url payload) (fun l resp => replied url payload resp l).
Proof.
  unfold post_signed. eapply gives_bind; [apply gives_post_once|]. intros [resp|].
  - apply gives_ret. intros l0 Hl. by apply Hl.
  - eapply gives_bind; [apply gives_post_once|]. intros r. eapply gives_conseq; [apply gives_option|].
    cbn beta. intros l resp [-> ->] l1 H1' l0 _. cbn [app]. eapply grown_replied; [|by apply H1']. set_solver.
Qed.
Definition fetched (url : string) (v : Value) (l : list Asked) : Prop :=
  exists resp, answered url None resp l /\ json resp = Ok v.
Lemma grown_fetched url v : grown (fetched url v).
Proof. intros l l' Hl (resp & Ha & Hj). exists resp. split; [by eapply grown_answered|done]. Qed.
Lemma gives_post_as_get url : gives (post_as_get url) (fun l v => fetched url v l).
Proof.
  unfold post_as_get. eapply gives_bind; [apply gives_post_signed|]. intros resp. eapply gives_bind; [apply gives_check|]. intros [].
  eapply gives_conseq; [apply gives_lift|]. cbn beta. intros l v [-> Hj] l1 [-> Hs] l0 Hr. cbn [app]. by exists resp.
Qed.

Lemma gives_poll {A} fuel deadline (fetch : C A) verdict late (P : A -> list Asked -> Prop) :
  (forall a, grown (P a)) -> gives fetch (fun l a => P a l) -> (forall v m, verdict v = Some m -> runs keeps_nonces m) ->
  gives (poll fuel deadline fetch verdict late) (fun l a => P a l /\ exists m s1 s2, verdict a = Some m /\ m s1 = (Ok tt, s2)).
Proof.
  intros HP Hf Hv. induction fuel as [|fuel IH]; cbn [poll]; [by intros s a s'|].
  eapply gives_bind; [exact Hf|]. intros v. destruct (verdict v) as [m|] eqn:Ev.
  - intros s b s' ([] & s1 & E1 & [= <- <-])%bind_ok. destruct (Hv _ _ Ev _ _ _ E1) as (l & L & _). exists l. split; [done|].
    intros l0 Hl0. split; [eapply HP; [|done]; set_solver|]. by exists m, s, s1.
  - eapply gives_bind; [apply gives_any; by apply along_now, _|]. intros t. case_match; [by intros s a s'|].
    eapply gives_bind; [apply gives_any; by apply along_sleep, _|]. intros u. eapply gives_conseq; [exact IH|].
    cbn beta. intros l a [Hl Hm] l1 _ l2 _ l0 _. split; [|done]. eapply HP; [|done]. set_solver.
Qed.
Lemma gives_poll_from {A} (fetch : C A) verdict late (P : A -> list Asked -> Prop) :
  (forall a, grown (P a)) -> gives fetch (fun l a => P a l) -> (forall v m, verdict v = Some m -> runs keeps_nonces m) ->
  gives (poll_from fetch verdict late) (fun l a => P a l /\ exists m s1 s2, verdict a = Some m /\ m s1 = (Ok tt, s2)).
Proof.
  intros HP Hf Hv. unfold poll_from. eapply gives_bind; [apply gives_any; by apply along_now, _|]. intros t.
  eapply gives_conseq; [by apply gives_poll|]. cbn beta. intros l a [Hl Hm] l0 _. split; [|done]. eapply HP; [|done]. set_solver.
Qed.

(** An authorization that ended valid, an order as the CA reported it. *)
Definition authorized (authz_url : string) (l : list Asked) : Prop :=
  exists v, fetched authz_url v l /\ get_str v "status" = Some "valid"%string.
Lemma grown_authorized url : grown (authorized url).
Proof. intros l l' Hl (v & Hf & Hs). exists v. split; [by eapply grown_fetched|done]. Qed.
Definition reported (order_url : string) (o : AcmeOrder) (l : list Asked) : Prop :=
  exists v, fetched order_url v l /\ parse_order v = Some o.
Lemma grown_reported url o : grown (reported url o).
Proof. intros l l' Hl (v & Hf & Hp). exists v. split; [by eapply grown_fetched|done]. Qed.

Lemma gives_complete challenge_url authz_url : gives (complete_challenge challenge_url authz_url) (fun l _ => authorized authz_url l).
Proof.
  unfold complete_challenge. eapply gives_bind; [apply gives_post_signed|]. intros resp. eapply gives_bind; [apply gives_check|]. intros [].
  eapply gives_bind; [eapply (gives_poll_from _ _ _ (fetched authz_url))|].
  - apply grown_fetched.
  - apply gives_post_as_get.
  - apply along_authz_verdict. exact _.
  - intros v. apply gives_ret. intros l (Hf & m & s1 & s2 & Hv & Hm) l1 _ l2 _. cbn [app]. rewrite <-app_assoc.
    exists v. split; [eapply grown_fetched; [|done]; set_solver|]. revert Hv Hm. unfold authz_verdict.
    destruct (get_str v "status") as [st|]; [|done]. destruct (String.eqb_spec st "valid"); [by subst|]. by case_match; [intros [= <-]|].
Qed.
Section Issued.
Context (propagation : option PropagationWaiter) (authoritative : option Z).
Lemma gives_validate authz_url h :
  gives (validate_authorization propagation authoritative authz_url h) (fun l _ => authorized authz_url l).
Proof.
  unfold validate_authorization. eapply gives_bind; [apply gives_any; by apply along_post_as_get, _|]. intros authz.
  eapply gives_bind; [apply gives_option|]. intros c. intros s [] s' (key & s1 & E1 & E)%bind_ok.
  injection E1 as <- <-. apply bind_ok in E as (p & s2 & E2 & E). apply (net_ask_run (SetTxt _ _)) in E2 as (p' & Ep & L2 & _). injection Ep as <-.
  apply bind_ok in E as (o & s3 & E3 & E). apply attempt_run in E3 as (r0 & E3 & [= <-]).
  apply bind_ok in E as (cl & s4 & E4 & E). apply (net_ask_run (ClearTxt _)) in E4 as (cl' & _ & L4 & _). injection E as -> <-.
  destruct p as [[]|e]; [|done]. apply bind_ok in E3 as ([] & s5 & E5 & E3).
  apply (gives_any _ (along_confirm keeps_nonces propagation authoritative _ _)) in E5 as (l5 & L5 & _).
  apply gives_complete in E3 as (l3 & L3 & Ha). eexists. split; [later|].
  intros l0 _ l1 _. eapply grown_authorized; [|exact Ha]. set_solver.
Qed.
Lemma gives_validate_all urls h :
  gives (validate_all propagation authoritative urls h) (fun l _ => forall url, url ∈ urls -> authorized url l).
Proof.
  induction urls as [|u urls IH]; cbn [validate_all]; [by apply gives_ret; intros ? ?%not_elem_of_nil|].
  eapply gives_bind; [apply gives_validate|]. intros []. eapply gives_conseq; [exact IH|]. cbn beta.
  intros l [] Hl l0 H0' url [->|Hin]%elem_of_cons; (eapply grown_authorized; [|by eauto]); set_solver.
Qed.
Lemma gives_poll_order url good : gives (poll_order url good) (fun l o => reported url o l /\ good o = true).
Proof.
  unfold poll_order. eapply gives_conseq; [eapply (gives_poll_from _ _ _ (reported url))|].
  - apply grown_reported.
  - eapply gives_bind; [apply gives_post_as_get|]. intros v. eapply gives_conseq; [apply gives_option|]. cbn beta.
    intros l o [-> Hp] l0 Hf. by exists v.
  - intros v m. case_match; intros [= <-]. by apply runs_ret, _.
  - cbn beta. intros l o (Hr & m & s1 & s2 & Hv & _). split; [done|]. by destruct (good o).
Qed.
Lemma gives_new_order h : gives (new_order h) (fun l p => exists resp v new_url,
  answered new_url (Some (fields [("identifiers"%string, Array [fields [("type", Str "dns"); ("value", Str h)]%string])])) resp l /\
  header_str resp "location" = Some p.1 /\ json resp = Ok v /\ parse_order v = Some p.2).
Proof.
  unfold new_order. intros s a s' (url & s1 & E1 & E)%bind_ok. injection E1 as <- <-.
  apply bind_ok in E as (resp & s2 & E2 & E). apply gives_post_signed in E2 as (l2 & L2 & Hr).
  apply bind_ok in E as (u & s3 & E3 & E). apply gives_check in E3 as (l3 & L3 & -> & Hs).
  apply bind_ok in E as (ou & s4 & E4 & E). apply gives_option in E4 as (l4 & L4 & -> & Hu).
  apply bind_ok in E as (v & s5 & E5 & E). apply gives_lift in E5 as (l5 & L5 & -> & Hj).
  apply bind_ok in E as (o & s6 & E6 & E). apply gives_option in E6 as (l6 & L6 & -> & Ho). injection E as <- <-.
  eexists. split; [later|]. cbn [app]. eexists resp, v, _. by split.
Qed.

Definition order_request (h : string) : option Value :=
  Some (fields [("identifiers"%string, Array [fields [("type", Str "dns"); ("value", Str h)]%string])]).
Definition csr_request (csr : CsrBundle) : option Value := Some (fields [("csr"%string, Str (b64url (csr_der csr)))]).
(** [l] shows where the certificate [cert] for [h] came from: an order for [h] whose authorizations
    all ended valid, that the CA then reported valid, and that was finalized with the request of
    [cert]'s own key unless the CA reported it valid before. *)
Record issued (h : string) (l : list Asked) (cert : IssuedCert) (seed : list byte) (csr : CsrBundle) (order_url : string)
    (created before after : AcmeOrder) (cert_url : string) : Prop := {
  own_key : asked Random seed ∈ l /\ generate_csr seed h = Ok csr /\ key_pem cert = csr_key_pem csr;
  ordered : exists url resp v, answered url (order_request h) resp l /\ header_str resp "location" = Some order_url /\
    json resp = Ok v /\ parse_order v = Some created;
  all_authorized : forall url, url ∈ authorizations created -> authorized url l;
  finalized : reported order_url before l /\
    (order_status before = "ready"%string /\ (exists resp, answered (finalize_url before) (csr_request csr) resp l) \/
     order_status before = "valid"%string /\ after = before);
  valid : reported order_url after l /\ order_status after = "valid"%string /\ certificate after = Some cert_url;
  downloaded : exists resp, answered cert_url None resp l /\ text resp = Ok (cert_chain_pem cert);
}.
Lemma grown_issued h cert seed csr order_url created before after cert_url :
  grown (fun l => issued h l cert seed csr order_url created before after cert_url).
Proof.
  intros l l' Hl [[H1' H2'] (url & resp & v & H3' & H4') H5' [H6' H7'] [H8' H9'] (resp' & H10' & H11')]. split.
  - split; [by apply Hl|done].
  - exists url, resp, v. split; [by eapply grown_answered|done].
  - intros u Hu. eapply grown_authorized; [done|by apply H5'].
  - split; [by eapply grown_reported|]. destruct H7' as [[H7' [resp'' Hr]]|H7']; [left|by right]. split; [done|]. exists resp''.
    by eapply grown_answered.
  - split; [by eapply grown_reported|done].
  - exists resp'. split; [by eapply grown_answered|done].
Qed.

Definition has_certificate (h : string) (l : list Asked) (cert : IssuedCert) : Prop :=
  exists seed csr order_url created before after cert_url, issued h l cert seed csr order_url created before after cert_url.
Lemma gives_finalize url csr : gives (finalize url csr) (fun l _ => exists resp, answered url (csr_request csr) resp l).
Proof.
  unfold finalize. eapply gives_bind; [apply gives_post_signed|]. intros resp. eapply gives_conseq; [apply gives_check|].
  cbn beta. intros l u [-> Hs] l0 Hr. by exists resp.
Qed.
Lemma gives_download url : gives (download_certificate url) (fun l t => exists resp, answered url None resp l /\ text resp = Ok t).
Proof.
  unfold download_certificate. eapply gives_bind; [apply gives_post_signed|]. intros resp. eapply gives_bind; [apply gives_check|]. intros u.
  eapply gives_conseq; [apply gives_lift|]. cbn beta. intros l t [-> Ht] l0 [-> Hs] l1 Hr. by exists resp.
Qed.

Lemma gives_fail {A} m P : gives (c_fail m : C A) P.
Proof. by intros s a s'. Qed.
Lemma gives_require (b : bool) m : gives (if b then mret tt else c_fail m) (fun l _ => l = [] /\ b = true).
Proof. destruct b; [by apply gives_ret|apply gives_fail]. Qed.
Lemma gives_final order order_url csr :
  gives (if String.eqb (order_status order) "ready" then
           _ ← finalize (finalize_url order) csr; poll_order order_url (fun o => one_of (order_status o) ["valid"; "invalid"]%string)
         else mret order)
    (fun l after => forall l0, reported order_url order l0 -> order_status after = "valid"%string ->
       reported order_url after (l ++ l0) /\
       (order_status order = "ready"%string /\ (exists resp, answered (finalize_url order) (csr_request csr) resp (l ++ l0)) \/
        order_status order = "valid"%string /\ after = order)).
Proof.
  destruct (String.eqb_spec (order_status order) "ready") as [E|E].
  - eapply gives_bind; [apply gives_finalize|]. intros u. eapply gives_conseq; [apply gives_poll_order|]. cbn beta.
    intros l after [Hr _] l1 (resp & Ha) l0 _ _. split; [eapply grown_reported; [|exact Hr]; set_solver|]. left. split; [done|].
    exists resp. eapply grown_answered; [|exact Ha]. set_solver.
  - apply gives_ret. intros l0 Hr Hv. split; [done|]. by right.
Qed.
Lemma gives_issue_once h : gives (issue_once propagation authoritative h) (has_certificate h).
Proof.
  unfold issue_once. eapply gives_bind; [apply gives_any; by apply runs_read, _|]. intros a.
  eapply gives_bind; [apply gives_any|intros _u].
  { destruct a; [by apply runs_ret, _|]. by apply along_register, _. }
  eapply gives_bind; [exact (gives_ask Random)|]. intros seed. cbn beta.
  eapply gives_bind; [apply gives_lift|]. intros csr. eapply gives_bind; [apply gives_new_order|]. intros [order_url created].
  eapply gives_bind; [apply gives_validate_all|]. intros _v. eapply gives_bind; [apply gives_poll_order|]. intros before.
  eapply gives_bind; [apply gives_require|]. intros _w. eapply gives_bind; [apply gives_final|]. intros after.
  eapply gives_bind; [apply gives_require|]. intros _x. eapply gives_bind; [apply gives_option|]. intros cert_url.
  eapply gives_bind; [apply gives_download|]. intros chain. apply gives_ret. cbn [fst snd app].
  intros l1 Hdown l2 [-> Hcert] l3 [-> Hvalid%String.eqb_eq] l4 Hfinal l5 [-> _] l6 [Hrep _] l7 Hauth l8 Hord l9 [-> Hcsr] l10 -> l11 _ l12 _.
  cbn [app] in *. rewrite !app_nil_r in *. destruct (Hfinal _ Hrep Hvalid) as [Hafter Hfin].
  exists seed, csr, order_url, created, before, after, cert_url. destruct Hord as (resp & v & url & Hans & Hloc & Hj & Hp).
  assert (forall P : list Asked -> Prop, grown P -> forall k k', k ⊆ k' -> P k -> P k') as Hmono by by intros P HP; apply HP.
  split.
  - split; [set_solver|done].
  - exists url, resp, v. split; [|done]. eapply grown_answered; [|exact Hans]. set_solver.
  - intros u Hu. eapply grown_authorized; [|by apply Hauth]. set_solver.
  - split; [eapply grown_reported; [|exact Hrep]; set_solver|]. destruct Hfin as [[Hs (r & Hr)]|Hs]; [left|by right]. split; [done|].
    exists r. eapply grown_answered; [|exact Hr]. set_solver.
  - split; [eapply grown_reported; [|exact Hafter]; set_solver|done].
  - destruct Hdown as (r & Hr & Ht). exists r. split; [|done]. eapply grown_answered; [|exact Hr]. set_solver.
Qed.
Lemma grown_has_certificate h cert : grown (fun l => has_certificate h l cert).
Proof. intros l l' Hl (a & b & c & d & e & f & g & Hi). exists a, b, c, d, e, f, g. by eapply grown_issued. Qed.
End Issued.

(** ** Every call returns *)

Definition finishes {A} (m : C A) : Prop := forall s, (m s).1 <> Err OutOfFuel.
Lemma finishes_ret {A} (a : A) : finishes (mret a).
Proof. done. Qed.
Lemma finishes_fail {A} m : finishes (c_fail m : C A).
Proof. done. Qed.
Lemma finishes_read {A} (f : AcmeClient -> A) : finishes (read f).
Proof. done. Qed.
Lemma finishes_modify f : finishes (modify f).
Proof. done. Qed.
Lemma finishes_lift {A} (x : result A string) : finishes (c_lift x).
Proof. by destruct x. Qed.
Lemma finishes_option {A} (o : option A) m : finishes (ok_or_fail o m).
Proof. by destruct o. Qed.
Lemma finishes_check r what : finishes (check r what).
Proof. unfold check. by case_match. Qed.
Lemma finishes_ask a : finishes (net (ask a)).
Proof. done. Qed.
Lemma finishes_now : finishes (net now).
Proof. done. Qed.
Lemma finishes_sleep d : finishes (net (sleep d)).
Proof. done. Qed.
Lemma finishes_bind {A B} (m : C A) (f : A -> C B) : finishes m -> (forall a, finishes (f a)) -> finishes (x ← m; f x).
Proof.
  intros Hm Hf s. unfold mbind, c_bind. specialize (Hm s). destruct (m s) as [[a|e] s1]; [apply Hf|]. by intros [= ->].
Qed.
Lemma finishes_attempt {A B} (m : C A) (f : result A Failure -> C B) :
  finishes m -> (forall r, r <> Err OutOfFuel -> finishes (f r)) -> finishes (x ← c_attempt m; f x).
Proof.
  intros Hm Hf s. unfold mbind, c_bind, c_attempt. specialize (Hm s). destruct (m s) as [r s1]. cbn [fst] in Hm. by apply Hf.
Qed.
Lemma finishes_result {A} (x : result A Failure) : x <> Err OutOfFuel -> finishes (c_result x).
Proof. by intros Hx s. Qed.
#[local] Hint Resolve finishes_ret finishes_fail finishes_read finishes_modify finishes_lift finishes_option finishes_check
  finishes_now finishes_sleep : finish.
#[local] Hint Extern 1 (finishes (net (ask ?a))) => exact (finishes_ask a) : finish.
Ltac finish := repeat first
  [ solve [auto with finish]
  | match goal with |- finishes (mbind _ (c_attempt _)) => apply finishes_attempt; [|intros ? ?] end
  | match goal with |- finishes (mbind _ _) => apply finishes_bind; [|intros ?] end
  | case_match ].

Lemma finishes_post_once first url payload : finishes (post_once first url payload).
Proof.
  intros s. destruct (post_once first url payload s) as [r s'] eqn:E. by apply post_once_run in E as (l & _ & _ & Hr & _).
Qed.
#[local] Hint Resolve finishes_post_once : finish.
Lemma finishes_post_signed url payload : finishes (post_signed url payload).
Proof. unfold post_signed. finish. Qed.
#[local] Hint Resolve finishes_post_signed : finish.
Lemma finishes_post_as_get url : finishes (post_as_get url).
Proof. unfold post_as_get. finish. Qed.
#[local] Hint Resolve finishes_post_as_get : finish.
Lemma finishes_register : finishes register_account.
Proof. unfold register_account. finish. Qed.
Lemma finishes_new_order h : finishes (new_order h).
Proof. unfold new_order. finish. Qed.

Lemma poll_finishes {A} fuel deadline (fetch : C A) verdict late s :
  finishes fetch -> runs keeps_nonces fetch -> (forall v m, verdict v = Some m -> finishes m) ->
  enough fuel ORDER_POLL_INTERVAL deadline (clock (world s)) -> (poll fuel deadline fetch verdict late s).1 <> Err OutOfFuel.
Proof.
  intros Hf Hl Hv. revert s. induction fuel as [|fuel IH]; intros s Hen; [destruct Hen; lia|].
  cbn [poll]. unfold mbind at 1, c_bind at 1. specialize (Hf s). destruct (fetch s) as [[v|e] s1] eqn:E1; [|by intros [= ->]].
  destruct (Hl _ _ _ E1) as (l1 & [_ C1] & _).
  destruct (verdict v) as [m|] eqn:Ev; [apply finishes_bind; [by eapply Hv|by intros; apply finishes_ret]|].
  unfold mbind at 1, c_bind at 1. cbn [net now]. destruct (deadline <=? clock (world s1)) eqn:Ed; [done|].
  unfold mbind at 1, c_bind at 1. destruct (net (sleep ORDER_POLL_INTERVAL) _) as [r2 s2] eqn:E2.
  assert (r2 = Ok tt /\ clock (world s1) + ORDER_POLL_INTERVAL <= clock (world s2)) as [-> C2].
  { unfold net in E2. destruct (sleep ORDER_POLL_INTERVAL _) as [r3 w3] eqn:E3. apply sleep_run in E3 as (-> & C3 & _); [|done].
    injection E2 as <- <-. by split. }
  apply IH. apply (enough_next _ _ _ (clock (world s))); [done|done|lia|lia].
Qed.
Lemma finishes_poll_from {A} (fetch : C A) verdict late :
  finishes fetch -> runs keeps_nonces fetch -> (forall v m, verdict v = Some m -> finishes m) -> finishes (poll_from fetch verdict late).
Proof. intros Hf Hl Hv s. apply poll_finishes; [done|done|done|]. by apply rounds_enough. Qed.
Lemma finishes_complete challenge_url authz_url : finishes (complete_challenge challenge_url authz_url).
Proof.
  unfold complete_challenge. finish. apply finishes_poll_from; [finish|by apply along_post_as_get, _|].
  intros v m. unfold authz_verdict. repeat case_match; intros [= <-]; finish.
Qed.
Lemma finishes_poll_order url good : finishes (poll_order url good).
Proof.
  unfold poll_order. apply finishes_poll_from; [finish| |intros v m; case_match; intros [= <-]; finish].
  apply runs_bind; [exact _|by apply along_post_as_get, _|]. intros v. by apply runs_option, _.
Qed.
Lemma finishes_finalize url csr : finishes (finalize url csr).
Proof. unfold finalize. finish. Qed.
Lemma finishes_download url : finishes (download_certificate url).
Proof. unfold download_certificate. finish. Qed.
#[local] Hint Resolve finishes_register finishes_new_order finishes_complete finishes_poll_order finishes_finalize finishes_download : finish.

Section Ends.
Context (propagation : option PropagationWaiter) (authoritative : option Z) (Hchecks : checks_ok propagation authoritative).
Lemma finishes_confirm name value : finishes (confirm propagation authoritative name value).
Proof.
  intros s. destruct (confirm propagation authoritative name value s) as [r s'] eqn:E.
  by apply confirm_run in E as (l & _ & _ & _ & Hr & _).
Qed.
#[local] Hint Resolve finishes_confirm : finish.
Lemma finishes_validate url h : finishes (validate_authorization propagation authoritative url h).
Proof.
  unfold validate_authorization, confirm_then_complete. finish. by apply finishes_result.
Qed.
#[local] Hint Resolve finishes_validate : finish.
Lemma finishes_validate_all urls h : finishes (validate_all propagation authoritative urls h).
Proof. induction urls as [|url urls IH]; cbn [validate_all]; finish. Qed.
#[local] Hint Resolve finishes_validate_all : finish.
Lemma finishes_issue_once h : finishes (issue_once propagation authoritative h).
Proof. unfold issue_once. finish. Qed.

(** What an attempt did: it touched no record before the CA had answered the order it placed itself. *)
Definition own_order_first (h : string) (l : list Asked) : Prop :=
  forall l1 x l2, l = l1 ++ x :: l2 -> changes_record (projT1 x) -> exists url resp, answered url (order_request h) resp l2.
Lemma own_order_prefix h l1 l2 : Forall keeps_records l1 -> own_order_first h l2 -> own_order_first h (l2 ++ l1).
Proof.
  intros Hl1 Hl2 a x b E Hx. apply app_eq_app in E as (k & [[-> E]|[-> E]]).
  - destruct k as [|y k]; [|injection E as -> ->; destruct (Hl2 _ _ _ eq_refl Hx) as (url & resp & Ha); exists url, resp;
      eapply grown_answered; [|exact Ha]; set_solver].
    cbn in E. subst l1. by apply Forall_cons in Hl1 as [Hn _].
  - subst l1. apply Forall_app in Hl1 as [_ [Hn _]%Forall_cons]. done.
Qed.
Lemma own_order_after h l1 l2 url resp : Forall keeps_records l1 -> answered url (order_request h) resp l1 -> own_order_first h (l2 ++ l1).
Proof.
  intros Hl1 Ha a x b E Hx. exists url, resp. apply app_eq_app in E as (k & [[-> E]|[-> E]]).
  - destruct k as [|y k]; [cbn in E; subst l1; by apply Forall_cons in Hl1 as [Hn _]|]. injection E as -> ->.
    eapply grown_answered; [|exact Ha]. set_solver.
  - subst l1. apply Forall_app in Hl1 as [_ [Hn _]%Forall_cons]. done.
Qed.
Lemma own_order_none h l : Forall keeps_records l -> own_order_first h l.
Proof. intros Hl. apply (own_order_prefix h l []); [done|]. by intros [|? ?] x l2. Qed.

Definition orders (h : string) (s s' : State) : Prop := exists l, later s l s' /\ own_order_first h l.
Lemma orders_bind h {A B} (m : C A) (f : A -> C B) :
  runs (only keeps_records) m -> (forall a, runs (orders h) (f a)) -> runs (orders h) (x ← m; f x).
Proof.
  intros Hm Hf s r s'. unfold mbind, c_bind. destruct (m s) as [r1 s1] eqn:E1. destruct (Hm _ _ _ E1) as (l1 & L1 & K1 & _).
  destruct r1 as [a|e]; [|intros [= <- <-]; exists l1; split; [done|by apply own_order_none]].
  intros (l2 & L2 & O2)%Hf. exists (l2 ++ l1). split; [by eapply later_trans|by apply own_order_prefix].
Qed.
Lemma orders_new_order h {B} (f : string * AcmeOrder -> C B) :
  (forall p, runs keeps_nonces (f p)) -> runs (orders h) (p ← new_order h; f p).
Proof.
  intros Hf s r s'. unfold mbind, c_bind. destruct (new_order h s) as [r1 s1] eqn:E1.
  destruct (along_new_order (only keeps_records) h _ _ _ E1) as (l1 & L1 & K1 & _).
  destruct r1 as [p|e]; [|intros [= <- <-]; exists l1; split; [done|by apply own_order_none]].
  apply gives_new_order in E1 as (l1' & L1' & resp & v & url & Ha & _).
  assert (l1' = l1) as -> by (destruct L1 as [T1 _], L1' as [T2 _]; rewrite T1 in T2; by eapply app_inv_tail).
  intros E2. destruct (Hf p _ _ _ E2) as (l2 & L2 & _). exists (l2 ++ l1). split; [by eapply later_trans|by eapply own_order_after].
Qed.
Lemma orders_issue_once h : runs (orders h) (issue_once propagation authoritative h).
Proof.
  unfold issue_once. apply orders_bind; [by apply runs_read, _|intros a].
  apply orders_bind; [destruct a; [by apply runs_ret, _|by apply along_register, _]|intros _].
  apply orders_bind; [by apply along_random, _|intros seed]. apply orders_bind; [by apply runs_lift, _|intros csr].
  apply orders_new_order. intros [order_url order].
  apply runs_bind; [exact _|apply along_validate_all; [exact _|intros url; apply nonces_validate]|intros _].
  apply runs_bind; [exact _|by apply along_poll_order, _|intros before].
  apply runs_bind; [exact _|case_match; [by apply runs_ret, _|by apply runs_fail, _]|intros _].
  apply runs_bind; [exact _|case_match; [|by apply runs_ret, _]; apply runs_bind; [exact _|by apply along_finalize, _|
    intros _; by apply along_poll_order, _]|intros after].
  apply runs_bind; [exact _|case_match; [by apply runs_ret, _|by apply runs_fail, _]|intros _].
  apply runs_bind; [exact _|by apply runs_option, _|intros u]. apply runs_bind; [exact _|by apply along_download, _|intros chain].
  by apply runs_ret, _.
Qed.

(** [n] whole attempts, each an order of its own that failed over DNS-01, the last with [m]; a pause
    after each but the last. *)
Inductive gave_up (h : string) (m : string) : nat -> State -> State -> Prop :=
  | last_attempt s s' l : issue_once propagation authoritative h s = (Err (Msg m), s') -> later s l s' -> own_order_first h l ->
      gave_up h m 1 s s'
  | one_more n s s1 s2 s' l e : issue_once propagation authoritative h s = (Err (Msg e), s1) -> is_dns01_failure e = true ->
      later s l s1 -> own_order_first h l -> net (sleep RETRY_BACKOFF) s1 = (Ok tt, s2) ->
      clock (world s1) + RETRY_BACKOFF <= clock (world s2) -> gave_up h m n s2 s' -> gave_up h m (S n) s s'.

Lemma issue_attempts_run left_ attempt attempts h s r s' : 1 <= attempt -> attempt + Z.of_nat left_ = Z.max attempts 1 ->
  issue_attempts propagation authoritative left_ attempt attempts h s = (r, s') ->
  r <> Err OutOfFuel /\ exists l, later s l s' /\
  match r with
  | Ok cert => has_certificate h l cert
  | Err (Msg m) => is_dns01_failure m = true -> gave_up h m (S left_) s s'
  | Err OutOfFuel => False
  end.
Proof.
  revert attempt s. induction left_ as [|left_ IH]; intros attempt s H1' Ha; cbn [issue_attempts];
    unfold mbind at 1, c_bind at 1; destruct (c_attempt _ s) as [r1 s1] eqn:E1; apply attempt_run in E1 as (r0 & E1 & ->);
    pose proof (finishes_issue_once h s) as Hf; rewrite E1 in Hf; cbn [fst] in Hf;
    destruct (orders_issue_once h _ _ _ E1) as (l1 & L1 & O1);
    (destruct r0 as [cert|[m|]]; [| |done]).
  1,3: intros [= <- <-]; split; [done|]; exact (gives_issue_once _ _ h _ _ _ E1).
  - assert (attempt <? attempts = false) as -> by lia. rewrite andb_false_r. intros [= <- <-]. split; [done|].
    exists l1. split; [done|]. intros _. by eapply last_attempt.
  - destruct (is_dns01_failure m) eqn:Em; cbn [andb].
    2: { intros [= <- <-]. split; [done|]. exists l1. split; [done|]. by rewrite Em. }
    assert (attempt <? attempts = true) as -> by lia. unfold mbind at 1, c_bind at 1.
    destruct (net (sleep RETRY_BACKOFF) s1) as [r2 s2] eqn:E2. pose proof E2 as (l2 & L2 & _)%net_run; [|apply grows_sleep].
    assert (r2 = Ok tt /\ clock (world s1) + RETRY_BACKOFF <= clock (world s2)) as [-> C2].
    { unfold net in E2. destruct (sleep RETRY_BACKOFF _) as [r3 w3] eqn:E3. apply sleep_run in E3 as (-> & C3 & _); [|done].
      injection E2 as <- <-. by split. }
    intros E. apply IH in E as (Hr & l3 & L3 & H3); [|lia..]. split; [done|]. exists (l3 ++ l2 ++ l1). split; [by eapply later_trans; [eapply later_trans|]|].
    destruct r as [cert|[m'|]]; [|intros Hm; by eapply one_more; eauto|done].
    eapply grown_has_certificate; [|exact H3]. set_solver.
Qed.
End Ends.

(** ** The properties *)

(** C19: The CA is told to validate only while the challenge stands and was seen: before every
    request that signals readiness, the record of this very host was published and accepted, nothing
    touched it since, and in between every authoritative nameserver served its value -- or, where
    none could be reached or none is to be asked, every configured public resolver showed it. *)
Theorem ca_is_told_only_when_seen propagation authoritative h s r s' :
  checks_ok propagation authoritative -> issue_certificate propagation authoritative h s = (r, s') ->
  exists l, trace (world s') = l ++ trace (world s) /\ forall l1 x l2, l = l1 ++ x :: l2 -> ready x ->
    exists tok b2 b1 a, let name := dns01_record_name h in
      let value := dns01_txt_value (tok +:+ "." +:+ thumbprint (account (client s))) in
      l2 = b2 ++ b1 ++ asked (SetTxt name value) (Ok tt) :: a /\ Forall keeps_records (b2 ++ b1) /\
      seen propagation authoritative name value b1.
Proof.
  intros Hok E. apply issue_disciplined in E as (l & [L _] & D & _); [|done]. exists l. split; [done|]. by eapply disciplined_ready.
Qed.

(** C20: No challenge outlives its order: whatever the outcome -- a refused publication, a lagging
    nameserver, an invalid authorization, a dropped connection -- the next change of a DNS record
    after every publication is an attempt to clear that same record. *)
Theorem challenge_records_are_cleared propagation authoritative h s r s' :
  checks_ok propagation authoritative -> issue_certificate propagation authoritative h s = (r, s') ->
  exists l, trace (world s') = l ++ trace (world s) /\ forall l1 name value p l2, l = l1 ++ asked (SetTxt name value) p :: l2 ->
    exists l3 c b, l1 = l3 ++ asked (ClearTxt name) c :: b /\ Forall keeps_records b.
Proof.
  intros Hok E. apply issue_disciplined in E as (l & [L _] & D & _); [|done]. exists l. split; [done|]. by eapply disciplined_cleared.
Qed.

(** C21: Every request to the CA is signed by the account's key for the URL it goes to, with a nonce
    that the CA gave in the last answer it made to this client or to its request for a nonce: no
    other signed request was sent in between, so no nonce is spent twice -- also across the
    [badNonce] retry, failed connections and whole-order retries. *)
Theorem every_request_is_signed_and_fresh propagation authoritative h s r s' :
  nonce_fresh s -> issue_certificate propagation authoritative h s = (r, s') ->
  nonce_fresh s' /\ exists l, trace (world s') = l ++ trace (world s) /\
    forall l1 x l2, l = l1 ++ x :: l2 -> signed (projT1 x) ->
      exists url jws reply n seed kid payload, x = asked (signed_post url jws) reply /\
        sign_request (account (client s)) seed url n kid payload = Ok jws /\ gave n (l2 ++ trace (world s)).
Proof.
  intros Hf E. apply along_issue with (R := keeps_nonces) in E as (l & [L _] & _ & Hl); [|exact _|intros url; apply nonces_validate].
  destruct (Hl Hf) as [Hf' Hs]. split; [done|]. by exists l.
Qed.

(** A certificate is returned only for an order of this host that the CA itself reported valid,
    after every authorization of it had ended valid, downloaded from the URL that order named, and
    with the key of the request generated in that same attempt.  The order was finalized with that
    request unless the CA already reported it valid when it was first polled. *)
Theorem certificate_is_from_a_valid_order propagation authoritative h s cert s' :
  checks_ok propagation authoritative -> issue_certificate propagation authoritative h s = (Ok cert, s') ->
  exists l, trace (world s') = l ++ trace (world s) /\
  exists seed csr order_url created before after cert_url, issued h l cert seed csr order_url created before after cert_url.
Proof.
  intros Hok E. destruct (issue_attempts_run _ _ Hok 2 1 DNS01_ATTEMPTS h s _ s' ltac:(lia) eq_refl E) as (_ & l & [L _] & Hc).
  exists l. split; [exact L|exact Hc].
Qed.

(** C22: Issuance always returns, whatever the CA and the nameservers answer and however late: no
    poll and no retry runs on.  And when it gives up on a DNS-01 failure, it has made all its attempts:
    every one a whole run of an order of its own, which failed over DNS-01 and which touched no record
    before the CA had answered the order that very attempt placed, with the whole pause before the
    next. *)
Theorem issuance_ends propagation authoritative attempts h s r s' :
  checks_ok propagation authoritative -> issue_certificate_with_attempts propagation authoritative attempts h s = (r, s') ->
  r <> Err OutOfFuel /\
  forall m, r = Err (Msg m) -> is_dns01_failure m = true ->
    gave_up propagation authoritative h m (Z.to_nat (Z.max attempts 1)) s s'.
Proof.
  intros Hok E.
  assert (1 + Z.of_nat (Z.to_nat (Z.max attempts 1 - 1)) = Z.max attempts 1) as Ha by lia.
  destruct (issue_attempts_run _ _ Hok _ 1 attempts h s r s' ltac:(done) Ha E) as (Hr & l & _ & Hm). split; [done|]. intros m -> Hd.
  specialize (Hm Hd). by replace (Z.to_nat (Z.max attempts 1)) with (S (Z.to_nat (Z.max attempts 1 - 1))) by lia.
Qed.
End Safety.

(** ** A concrete order *)

(** A CA that answers the first order with [badNonce] once, validates after it is told to, and issues
    after it is finalized; a zone of one nameserver that serves the latest record set. *)
#[local] Instance demo_crypto : AcmeCrypto := {|
  AccountKey := unit; public_key := fun _ => as_bytes "key"; es256 := fun _ _ _ => Ok []; hmac_sha256 := fun _ _ => [];
  sha256 := fun l => l; b64url := String.string_of_list_byte;
  b64url_inj := fun a b E => eq_trans (eq_sym (String.list_byte_of_string_of_list_byte a))
    (eq_trans (f_equal String.list_byte_of_string E) (String.list_byte_of_string_of_list_byte b));
  b64url_nil := eq_refl; b64url_decode := fun s => Ok (as_bytes s); show_protected := fun p => default EmptyString (nonce_of p);
  normalize_hostname := Some; rcgen_csr := fun seed _ => Ok {| csr_key_pem := "KEY"; csr_der := seed |};
|}.
#[local] Existing Instance demo_serde.
Definition was_posted (url : string) (t : list Asked) : bool :=
  existsb (fun x => match projT1 x with Http POST u _ _ (Some _) => String.eqb u url | _ => false end) t.
Fixpoint latest_record (t : list Asked) : list string :=
  match t with
  | [] => []
  | x :: t => match projT1 x with SetTxt _ v => [v] | ClearTxt _ => [] | _ => latest_record t end
  end.
Definition demo_reply (st : Z) (location : string) (v : Value) (body : string) : Response :=
  {| status := st; status_line := show st; headers := [("replay-nonce", "n"); ("location", location)]%string;
     json := Ok v; text := Ok body |}.
Definition status_is (st : string) (rest : list (string * Value)) : Value := fields (("status"%string, Str st) :: rest).
Definition demo_order (st : string) : Value :=
  status_is st [("authorizations", Array [Str "authz"]); ("finalize", Str "finalize"); ("certificate", Str "cert")]%string.
Definition demo_ca (t : list Asked) (url : string) : Response :=
  if String.eqb url "new-order" then
    if was_posted "new-order" t then demo_reply 201 "order" (demo_order "pending") ""
    else demo_reply 400 "" (fields [("type"%string, Str "urn:ietf:params:acme:error:badNonce")]) ""
  else if String.eqb url "authz" then
    demo_reply 200 "" (status_is (if was_posted "chall" t then "valid" else "pending")
      [("challenges"%string, Array [fields [("type", Str "dns-01"); ("token", Str "tok"); ("url", Str "chall")]%string])]) ""
  else if String.eqb url "order" then
    demo_reply 200 "" (demo_order (if was_posted "finalize" t then "valid" else "ready")) ""
  else demo_reply 200 "acct" Null "CHAIN".
Definition demo_answer (t : list Asked) (a : Ask) : Reply a :=
  match a with
  | Http _ url _ _ _ => Ok (demo_ca t url)
  | SetTxt _ _ | ClearTxt _ => Ok tt
  | NsLookup n => if String.eqb n "example.org." then Ok [Some "ns1"%string] else Err "NXDOMAIN"%string
  | IpLookup _ => Ok [V4 192 0 2 1]
  | TxtAt _ _ => Ok (latest_record t)
  | SoaAt _ _ => true
  | Random => as_bytes "seed"
  | SystemTime => 0
  | ModifiedAt _ => None
  | SystemResolver => Ok tt
  | Sleep _ => tt
  end.
#[local] Instance demo_outside : Outside := {| respond := demo_answer; delay := fun _ _ => 1 |}.
Definition demo_directory : AcmeDirectory := {| new_nonce := "nonce"; new_account := "new-account"; new_order_url := "new-order" |}.
Definition demo_state : State :=
  {| client := {| directory := demo_directory; account := tt; account_url := None; nonce := None; eab := None |};
     world := {| clock := 0; trace := [] |} |}.
Definition demo_issue : result IssuedCert Failure * State := issue_certificate None (Some AUTHORITATIVE_TIMEOUT) "www.example.org" demo_state.
Definition told (x : Asked) : bool :=
  match projT1 x with
  | Http POST _ _ _ (Some jws) => bool_decide (get_str jws "payload" = Some (b64url (as_bytes EMPTY)))
  | _ => false
  end.

Definition published (x : Asked) : bool :=
  let 'existT a r := x in match a return Reply a -> bool with SetTxt _ _ => fun r => is_ok r | _ => fun _ => false end r.

Lemma demo_checks : checks_ok None (Some AUTHORITATIVE_TIMEOUT).
Proof. split; [|done]. intros t [= <-]. by vm_compute. Qed.
Lemma demo_fresh : nonce_fresh demo_state.
Proof. done. Qed.
Lemma demo_issuance : (fun p : result IssuedCert Failure * State =>
    (match p.1 with Ok c => Some (cert_chain_pem c, key_pem c) | Err _ => None end, existsb told (trace (world p.2)), existsb published (trace (world p.2)))) demo_issue
  = (Some ("CHAIN"%string, "KEY"%string), true, true).
Proof. vm_compute. reflexivity. Qed.

Lemma told_ready t : existsb told t = true -> exists l1 x l2, t = l1 ++ x :: l2 /\ ready x.
Proof.
  intros (x & (l1 & l2 & Hx)%list_elem_of_In%list_elem_of_split & Hready)%existsb_exists. exists l1, x, l2. split; [done|].
  destruct x as [[[] ? ? ? []| | | | | | | | | | |] ?]; try discriminate Hready. exact (bool_decide_eq_true_1 _ Hready).
Qed.
Lemma published_at t : existsb published t = true -> exists l1 name value l2, t = l1 ++ asked (SetTxt name value) (Ok tt) :: l2.
Proof.
  intros (x & (l1 & l2 & Hx)%list_elem_of_In%list_elem_of_split & Hp)%existsb_exists.
  destruct x as [[| n v | | | | | | | | | |] r]; try discriminate Hp. destruct r as [[]|]; [|discriminate Hp]. by exists l1, n, v, l2.
Qed.

Lemma ca_is_told_only_when_seen_witness :
  exists cert s' l1 x l2, demo_issue = (Ok cert, s') /\ trace (world s') = l1 ++ x :: l2 /\ ready x /\
    exists tok b2 b1 a, let name := dns01_record_name "www.example.org" in let value := dns01_txt_value (tok +:+ "." +:+ thumbprint tt) in
      l2 = b2 ++ b1 ++ asked (SetTxt name value) (Ok tt) :: a /\ seen None (Some AUTHORITATIVE_TIMEOUT) name value b1.
Proof.
  pose proof demo_issuance as Hrun. destruct demo_issue as [r s'] eqn:E. cbn [fst snd] in Hrun.
  apply pair_equal_spec in Hrun as [[Hr Ht]%pair_equal_spec _]. destruct r as [cert|]; [|discriminate Hr].
  destruct (ca_is_told_only_when_seen _ _ _ _ _ _ demo_checks E) as (l & El & Hl).
  destruct (told_ready _ Ht) as (l1 & x & l2 & Hx & Hrx). rewrite app_nil_r in El.
  destruct (Hl l1 x l2 (eq_trans (eq_sym El) Hx) Hrx) as (tok & b2 & b1 & a & El2 & _ & Hseen).
  exists cert, s', l1, x, l2. split; [reflexivity|]. split; [exact Hx|]. split; [exact Hrx|]. exists tok, b2, b1, a. split; [exact El2|exact Hseen].
Defined.

Lemma challenge_records_are_cleared_witness :
  exists cert s' l1 name value l2, demo_issue = (Ok cert, s') /\ trace (world s') = l1 ++ asked (SetTxt name value) (Ok tt) :: l2 /\
    exists l3 c b, l1 = l3 ++ asked (ClearTxt name) c :: b /\ Forall keeps_records b.
Proof.
  pose proof demo_issuance as Hrun. destruct demo_issue as [r s'] eqn:E. cbn [fst snd] in Hrun.
  apply pair_equal_spec in Hrun as [[Hr _]%pair_equal_spec Hp]. destruct r as [cert|]; [|discriminate Hr].
  destruct (challenge_records_are_cleared _ _ _ _ _ _ demo_checks E) as (l & El & Hl).
  destruct (published_at _ Hp) as (l1 & name & value & l2 & Hx).
  rewrite app_nil_r in El. exists cert, s', l1, name, value, l2. split; [reflexivity|]. split; [exact Hx|].
  exact (Hl _ _ _ _ _ (eq_trans (eq_sym El) Hx)).
Defined.

Lemma every_request_is_signed_and_fresh_witness :
  exists cert s', demo_issue = (Ok cert, s') /\ nonce_fresh s' /\ exists l1 x l2, trace (world s') = l1 ++ x :: l2 /\ ready x /\
    exists url jws reply n seed kid payload, x = asked (signed_post url jws) reply /\
      sign_request tt seed url n kid payload = Ok jws /\ gave n l2.
Proof.
  pose proof demo_issuance as Hrun. destruct demo_issue as [r s'] eqn:E. cbn [fst snd] in Hrun.
  apply pair_equal_spec in Hrun as [[Hr Ht]%pair_equal_spec _]. destruct r as [cert|]; [|discriminate Hr].
  destruct (every_request_is_signed_and_fresh _ _ _ _ _ _ demo_fresh E) as (Hf & l & El & Hl).
  destruct (told_ready _ Ht) as (l1 & x & l2 & Hx & Hrx). rewrite app_nil_r in El.
  destruct (Hl l1 x l2 (eq_trans (eq_sym El) Hx) (ready_signed x Hrx)) as (url & jws & reply & n & seed & kid & payload & Ex & Hs & Hg).
  rewrite app_nil_r in Hg. exists cert, s'. split; [reflexivity|]. split; [exact Hf|]. exists l1, x, l2. split; [exact Hx|]. split; [exact Hrx|].
  exists url, jws, reply, n, seed, kid, payload. split; [exact Ex|]. split; [exact Hs|exact Hg].
Defined.

Lemma certificate_is_from_a_valid_order_witness :
  exists cert s', demo_issue = (Ok cert, s') /\ cert_chain_pem cert = "CHAIN"%string /\
    exists seed csr order_url created before after cert_url,
      issued "www.example.org" (trace (world s')) cert seed csr order_url created before after cert_url.
Proof.
  pose proof demo_issuance as Hrun. destruct demo_issue as [r s'] eqn:E. cbn [fst snd] in Hrun.
  apply pair_equal_spec in Hrun as [[Hr _]%pair_equal_spec _]. destruct r as [cert|]; [|discriminate Hr].
  destruct (certificate_is_from_a_valid_order _ _ _ _ _ _ demo_checks E) as (l & El & Hi). rewrite app_nil_r in El.
  exists cert, s'. split; [reflexivity|]. rewrite El. split; [by injection Hr|exact Hi].
Defined.

(** No nameserver shows the record: the client gives up after its orders. *)
#[local] Instance lagging_outside : Outside := {|
  respond := fun t a => match a with TxtAt _ _ => Err "no records"%string | a => demo_answer t a end; delay := fun _ _ => 1 |}.
Definition lagging_issue : result IssuedCert Failure * State :=
  issue_certificate_with_attempts None (Some (10 * SECOND)) 2 "www.example.org" demo_state.
Lemma lagging_run : (fun p : result IssuedCert Failure * State =>
    match p.1 with Err (Msg m) => is_dns01_failure m | _ => false end) lagging_issue = true.
Proof. vm_compute. reflexivity. Qed.
Lemma issuance_ends_witness :
  exists m s', lagging_issue = (Err (Msg m), s') /\ is_dns01_failure m = true /\
    gave_up None (Some (10 * SECOND)) "www.example.org" m 2 demo_state s'.
Proof.
  pose proof lagging_run as Hrun. destruct lagging_issue as [r s'] eqn:E. cbn [fst snd] in Hrun.
  destruct r as [|[m|]]; [discriminate Hrun| |discriminate Hrun].
  assert (checks_ok None (Some (10 * SECOND))) as Hok by (split; [intros t [= <-]; by vm_compute|done]).
  destruct (issuance_ends _ _ 2 _ _ _ _ Hok E) as [_ Hm]. exists m, s'. split; [reflexivity|]. split; [exact Hrun|].
  exact (Hm m eq_refl Hrun).
Defined.

(** An order that the CA reports valid at once is downloaded without being finalized: the chain is
    then one the CA issued for an earlier request, and the key that of a request never sent. *)
#[local] Instance reusing_outside : Outside := {|
  respond := fun t a => match a with
    | Http POST url _ _ _ => Ok (if String.eqb url "order" then demo_reply 200 "" (demo_order "valid") "" else demo_ca t url)
    | a => demo_answer t a end;
  delay := fun _ _ => 1 |}.
Lemma unfinalized_order_is_paired_with_a_fresh_key :
  (fun p : result IssuedCert Failure * State =>
    (match p.1 with Ok c => Some (cert_chain_pem c, key_pem c) | Err _ => None end, was_posted "finalize" (trace (world p.2))))
    (issue_certificate None (Some AUTHORITATIVE_TIMEOUT) "www.example.org" demo_state)
  = (Some ("CHAIN"%string, "KEY"%string), false).
Proof. vm_compute. reflexivity. Qed.
