(* ===== verification/AcmeCert.v ===== *)
(** * AcmeCert: obtaining and renewing the certificate ([acme_orchestrate.rs])

    The admission broker, the directory policy of [acme_client.rs], the account key, the order of
    [Acme], and the installation of key and chain, over the outside of [AcmeWorld] and the
    directories of [DirOps].  URL parsing, X.509 parsing and the registry of known CAs are a class. *)
From S2P Require Import Prelude Text Json Net EnvFlag SecretFile DirOps AcmeWorld Dns01 Acme.

#[local] Open Scope Z_scope.

(** ** The directory policy ([acme_client.rs]) *)

Record Url := { scheme : string; host_str : option string }.
Class Externals := {
  url_parse : string -> result Url string;
  (** [ct_common::acme_ca::all_known]: the registry's directory URLs. *)
  known_directories : list string;
  (** [notBefore] and [notAfter] of the first certificate, in nanoseconds since the epoch. *)
  leaf_validity : list byte -> option (Z * Z);
}.

Definition ALLOW_DIRECTORY_HOST_ENV : string := "CT_ACME_ALLOW_DIRECTORY_HOST".
Definition non_empty (s : string) : bool := negb (is_empty s).
Definition parse_allowed_directory_hosts (raw : option string) : list string :=
  List.filter non_empty (map trim (split_char "," (default EmptyString raw))).

Definition is_bracket (c : ascii) : bool := Ascii.eqb c "[" || Ascii.eqb c "]".
Fixpoint drop_brackets (l : list ascii) : list ascii :=
  match l with
  | c :: l => if is_bracket c then drop_brackets l else c :: l
  | [] => []
  end.
(** [trim_matches(['[', ']'])]. *)
Definition trim_brackets (s : string) : string :=
  String.string_of_list_ascii (rev (drop_brackets (rev (drop_brackets (String.list_ascii_of_string s))))).
Definition host_of (url : Url) : option string :=
  let? h := host_str url in
  let host := to_ascii_lowercase (trim_brackets h) in
  if non_empty host then Some host else None.

Section Policy.
Context `{Externals}.
Definition directory_host (url : string) : option string :=
  match url_parse url with Ok u => host_of u | Err _ => None end.
Definition is_loopback_host (host : string) : bool :=
  String.eqb host "localhost" || match parse_ip host with Some ip => is_loopback ip | None => false end.
Definition listed (extra_hosts : list string) (host : string) : bool :=
  existsb (fun h => eq_ignore_ascii_case (trim_brackets (trim h)) host) extra_hosts.
Definition directory_url_policy (directory_url : string) (extra_hosts : list string) : result unit string :=
  let bad what := Err ("ACME directory URL '" +:+ directory_url +:+ "' " +:+ what +:+ " (ct-agent#172)")%string in
  match url_parse directory_url with
  | Err e => bad ("is not a valid URL: " +:+ e)%string
  | Ok parsed =>
      match host_of parsed with
      | None => bad "has no host"%string
      | Some host =>
          let listed := listed extra_hosts host in
          let known :=
            if listed then Ok tt
            else
              let known := omap directory_host known_directories in
              if existsb (fun k => String.eqb k host) known then Ok tt
              else Err ("ACME directory host '" +:+ host +:+ "' is not in the known-CA registry (" +:+ join ", " known +:+ ") -- set "
                +:+ ALLOW_DIRECTORY_HOST_ENV +:+ "=<host>[,<host>] on this agent to allow a private CA (ct-agent#172)")%string in
          if String.eqb (scheme parsed) "https" then known
          else if String.eqb (scheme parsed) "http" then
            if listed && is_loopback_host host then Ok tt
            else bad ("must be https:// -- refusing to run ACME over cleartext (http:// is accepted only for a loopback host listed in "
              +:+ ALLOW_DIRECTORY_HOST_ENV +:+ ")")%string
          else bad ("must be https:// (got '" +:+ scheme parsed +:+ "://')")%string
      end
  end.
End Policy.

(** ** The admission broker *)

Record AdmissionCa := {
  name : string; directory_url : string; requires_eab : bool; eab_kid : option string; eab_hmac_key_b64url : option string
}.
Record Admission := { status : string; may_issue_now : bool; assigned_ca : option AdmissionCa }.

(** What [serde] derives for a struct: an object by its keys, or an array by position. *)
Definition as_struct (names : list string) (v : Value) : option (gmap string Value) :=
  match v with
  | Object m => Some m
  | Array l => if Nat.eqb (length l) (length names) then Some (list_to_map (zip names l)) else None
  | _ => None
  end.
Definition required {A} (f : Value -> option A) (m : gmap string Value) (k : string) : option A := let? v := m !! k in f v.
Definition optional {A} (f : Value -> option A) (m : gmap string Value) (k : string) : option (option A) :=
  match m !! k with
  | None | Some Null => Some None
  | Some v => let? a := f v in Some (Some a)
  end.
Definition decode_ca (v : Value) : option AdmissionCa :=
  let? m := as_struct ["name"; "directory_url"; "requires_eab"; "eab_kid"; "eab_hmac_key_b64url"]%string v in
  let? n := required as_str m "name" in
  let? d := required as_str m "directory_url" in
  let? r := required as_bool m "requires_eab" in
  let? k := optional as_str m "eab_kid" in
  let? h := optional as_str m "eab_hmac_key_b64url" in
  Some {| name := n; directory_url := d; requires_eab := r; eab_kid := k; eab_hmac_key_b64url := h |}.
Definition decode_admission (v : Value) : option Admission :=
  let? m := as_struct ["status"; "may_issue_now"; "assigned_ca"]%string v in
  let? s := required as_str m "status" in
  let? i := required as_bool m "may_issue_now" in
  let? c := optional decode_ca m "assigned_ca" in
  Some {| status := s; may_issue_now := i; assigned_ca := c |}.
Definition admission_of (r : Response) : option Admission :=
  match json r with Ok v => decode_admission v | Err _ => None end.

Definition RENEW_AFTER_DAYS : Z := 60.
Definition HOUR : Z := 60 * 60 * SECOND.
Definition CHECK_INTERVAL : Z := 6 * HOUR.
Definition ADMISSION_POLL_INTERVAL : Z := 15 * 60 * SECOND.
Definition AGENT_TOKEN_HEADER : string := "x-ct-agent-token".
Definition route_is_missing (status : Z) : bool := status =? 404.

Section Broker.
Context `{Outside} (cp_url token hostname : string).
Definition header_url (what : string) : string := (trim_end_char "/" cp_url +:+ "/agent/" +:+ what +:+ "/" +:+ hostname)%string.
Definition legacy_url (what : string) : string :=
  (trim_end_char "/" cp_url +:+ "/agent/" +:+ what +:+ "/" +:+ token +:+ "/" +:+ hostname)%string.
Definition by_header (m : Method) (what : string) : Ask := Http m (header_url what) [(AGENT_TOKEN_HEADER, token)] [] None.
Definition by_url (m : Method) (what : string) : Ask := Http m (legacy_url what) [] [] None.

Definition poll_admission : N (option Admission) :=
  r ← ask (by_header GET "acme-admission");
  match r with
  | Err _ => mret None
  | Ok resp =>
      if is_success resp then mret (admission_of resp)
      else if negb (route_is_missing (AcmeWorld.status resp)) then mret None
      else
        r ← ask (by_url GET "acme-admission");
        match r with
        | Err _ => mret None
        | Ok resp => mret (if is_success resp then admission_of resp else None)
        end
  end.
Definition notify_issuance_complete : N unit :=
  r ← ask (by_header POST "acme-issuance-complete");
  match r with
  | Err _ => mret tt
  | Ok resp =>
      if is_success resp then mret tt
      else if route_is_missing (AcmeWorld.status resp) then
        _ ← ask (by_url POST "acme-issuance-complete");
        mret tt
      else mret tt
  end.
End Broker.

(** ** Configuration *)

Record AcmeCertConfig := {
  cp_url : string; routing_token : string; hostname : string; cert_out_dir : string; account_key_path : string;
  dns01_resolver_urls : list string; dns01_propagation_timeout : Z; dns01_initial_delay : option Z;
  dns01_use_authoritative : bool; dns01_attempts : option Z; acme_directory_extra_hosts : list string
}.
Definition filtered (o : option string) : option string := let? s := o in if non_empty s then Some s else None.
Definition join_path (base name : string) : string :=
  match last (String.list_ascii_of_string base) with
  | Some "/"%char => (base +:+ name)%string
  | _ => (base +:+ "/" +:+ name)%string
  end.
Definition parse_resolver_urls (s : string) : list string := List.filter non_empty (map trim (split_char "," s)).
Definition from_env_with (get : string -> option string) : result AcmeCertConfig string :=
  let* cp_url := ok_or (filtered (get "CT_AGENT_CP_URL")) "CT_AGENT_CP_URL is required"%string in
  let* routing_token := ok_or (filtered (get "CT_AGENT_TOKEN")) "CT_AGENT_TOKEN is required"%string in
  let* hostname := ok_or (filtered (get "CT_AGENT_HOSTNAME")) "CT_AGENT_HOSTNAME is required"%string in
  let cert_out_dir := default "/shared/acme-cert"%string (filtered (get "CT_ACME_CERT_OUT_DIR")) in
  Ok {|
    cp_url := cp_url; routing_token := routing_token; hostname := hostname; cert_out_dir := cert_out_dir;
    account_key_path := default (join_path cert_out_dir "acme-account-key.der") (filtered (get "CT_ACME_ACCOUNT_KEY_PATH"));
    dns01_resolver_urls :=
      match parse_resolver_urls <$> filtered (get "CT_ACME_DNS01_RESOLVER_URLS") with
      | Some (u :: us) => u :: us
      | _ => DEFAULT_RESOLVER_URLS
      end;
    dns01_propagation_timeout :=
      default DEFAULT_TIMEOUT
        (let? s := filtered (get "CT_ACME_DNS01_PROPAGATION_TIMEOUT_SECS") in let? n := parse_uint U64_MAX s in Some (n * SECOND));
    dns01_initial_delay := (let? s := filtered (get "CT_ACME_DNS01_INITIAL_DELAY_SECS") in let? n := parse_uint U64_MAX s in Some (n * SECOND));
    dns01_use_authoritative := flag (get "CT_ACME_DNS01_AUTHORITATIVE") true;
    dns01_attempts := (let? s := filtered (get "CT_ACME_DNS01_ATTEMPTS") in parse_uint U32_MAX s);
    acme_directory_extra_hosts := parse_allowed_directory_hosts (get ALLOW_DIRECTORY_HOST_ENV)
  |}.

(** ** The agent's machine: two directories and the outside *)

(** [main] is the directory of the certificate, [extra] that of the account key, where it is another. *)
Record Machine := { dirs : Dirs; outside : World }.
Definition G (A : Type) : Type := Machine -> result A Failure * Machine.
#[global] Instance g_ret : MRet G := fun A a s => (Ok a, s).
#[global] Instance g_bind : MBind G := fun A B f m s =>
  match m s with
  | (Ok a, s) => f a s
  | (Err e, s) => (Err e, s)
  end.
Definition g_fail {A} (m : string) : G A := fun s => (Err (Msg m), s).
Definition g_lift {A} (r : result A string) : G A := match r with Ok a => mret a | Err e => g_fail e end.
Definition g_attempt {A} (m : G A) : G (result A Failure) := fun s => let '(r, s) := m s in (Ok r, s).
Definition on_net {A} (m : N A) : G A := fun s =>
  let '(r, w) := m (outside s) in (r, {| dirs := dirs s; outside := w |}).

Definition io_text (e : IoError) : string :=
  match e with
  | NotFound => "No such file or directory (os error 2)"
  | AlreadyExists => "File exists (os error 17)"
  | ELOOP => "Too many levels of symbolic links (os error 40)"
  | Os text => text
  end.
Definition on_disk {A} (m : D IoError A) : G A := fun s =>
  let '(r, d) := m (dirs s) in (map_err (fun e => Msg (io_text e)) r, {| dirs := d; outside := outside s |}).

(** ** Renewal *)

Definition renewal_due_by_validity (not_before not_after now : Z) : bool :=
  if not_after <? not_before then true else not_before + (not_after - not_before) * 2 / 3 <=? now.
Definition renewal_due (issued_at now : Z) : bool :=
  if now <? issued_at then true else RENEW_AFTER_DAYS * 24 * HOUR <=? now - issued_at.

Definition CERT_FILE : string := "fullchain.pem".
Definition KEY_FILE : string := "privkey.pem".

Class AccountKeys `{AcmeCrypto} := {
  generate : list byte -> result AccountKey string;
  from_pkcs8 : list byte -> result AccountKey string;
  pkcs8_der : AccountKey -> list byte;
  restore seed key : generate seed = Ok key -> from_pkcs8 (pkcs8_der key) = Ok key;
}.

Section Renew.
Context `{SerdeJson, AcmeCrypto, !AccountKeys, Externals, Outside}.
Context (linked : string -> option (list byte)) (config : AcmeCertConfig).
(** Whether the account key lies in the directory of the certificate, and under which name. *)
Context (account_beside : bool) (account_file : string).

Definition needs_renewal : G bool :=
  pem ← g_attempt (on_disk (in_main (read_file linked CERT_FILE)));
  match pem with
  | Err _ => mret true
  | Ok pem =>
      match leaf_validity pem with
      | Some (not_before, not_after) =>
          t ← on_net (ask SystemTime);
          mret (renewal_due_by_validity not_before not_after t)
      | None =>
          modified ← on_net (ask (ModifiedAt (join_path (cert_out_dir config) CERT_FILE)));
          match modified with
          | None => mret true
          | Some issued_at =>
              t ← on_net (ask SystemTime);
              mret (renewal_due issued_at t)
          end
      end
  end.

Definition in_account {A} (m : IO IoError A) : D IoError A := if account_beside then in_main m else in_extra m.
Definition load_or_generate_account_key : G AccountKey :=
  der ← g_attempt (on_disk (in_account (read_file linked account_file)));
  match (match der with Ok der => from_pkcs8 der | Err _ => Err EmptyString end) with
  | Ok key => mret key
  | Err _ =>
      seed ← on_net (ask Random);
      key ← g_lift (generate seed);
      _ ← on_disk (in_account create_dir_all);
      _ ← on_disk (in_account (write_private account_file (pkcs8_der key)));
      mret key
  end.

Definition discover_with_allowed_hosts (directory_url : string) (account : AccountKey) (extra_hosts : list string) : G AcmeClient :=
  _ ← g_lift (directory_url_policy directory_url extra_hosts);
  r ← on_net (get directory_url [] []);
  resp ← g_lift r;
  if negb (is_success resp) then g_fail ("ACME directory fetch failed: " +:+ status_line resp) else
  json ← g_lift (AcmeWorld.json resp);
  match parse_directory json with
  | Some d => mret {| directory := d; account := account; account_url := None; nonce := None; eab := None |}
  | None => g_fail "malformed ACME directory (missing a required URL)"
  end.
Definition with_eab (e : option (string * string)) (c : AcmeClient) : AcmeClient :=
  {| directory := directory c; account := account c; account_url := account_url c; nonce := nonce c;
     eab := match e with Some e => Some e | None => eab c end |}.
Definition run_client {A} (c : AcmeClient) (m : C A) : G A := fun s =>
  let '(r, st) := m {| client := c; world := outside s |} in (r, {| dirs := dirs s; outside := world st |}).

Definition zip_options {A B} (a : option A) (b : option B) : option (A * B) :=
  match a, b with Some a, Some b => Some (a, b) | _, _ => None end.
Definition waiter : PropagationWaiter :=
  let p := new_waiter (dns01_resolver_urls config) (dns01_propagation_timeout config) in
  match dns01_initial_delay config with Some d => with_initial_delay d p | None => p end.
Definition install (issued : IssuedCert) : G unit :=
  on_disk (in_main (install_pair id (write_private (KEY_FILE +:+ ".new") (as_bytes (key_pem issued)))
    (write_durable (CERT_FILE +:+ ".new") (as_bytes (cert_chain_pem issued))) KEY_FILE CERT_FILE)).

(** The order with the CA the broker assigned. *)
Definition issue_from (ca : AdmissionCa) : G IssuedCert :=
  let eab := if requires_eab ca then zip_options (eab_kid ca) (eab_hmac_key_b64url ca) else None in
  _ ← on_disk (in_main create_dir_all);
  account ← load_or_generate_account_key;
  client ← discover_with_allowed_hosts (directory_url ca) account (acme_directory_extra_hosts config);
  let client := with_eab eab client in
  authoritative ← (if dns01_use_authoritative config then
                     r ← on_net (ask SystemResolver);
                     mret (if is_ok r then Some AUTHORITATIVE_TIMEOUT else None)
                   else mret None);
  run_client client
    match dns01_attempts config with
    | Some n => issue_certificate_with_attempts (Some waiter) authoritative n (hostname config)
    | None => issue_certificate (Some waiter) authoritative (hostname config)
    end.
Definition obtain_from (ca : AdmissionCa) : G bool :=
  issued ← issue_from ca;
  _ ← install issued;
  _ ← on_net (notify_issuance_complete (cp_url config) (routing_token config) (hostname config));
  mret true.
Definition obtain_or_renew : G bool :=
  due ← needs_renewal;
  if negb due then mret false else
  a ← on_net (poll_admission (cp_url config) (routing_token config) (hostname config));
  match a with
  | None => g_fail "admission broker did not respond -- cannot determine whether this hostname may issue yet"
  | Some admission =>
      if negb (may_issue_now admission) then mret false else
      match assigned_ca admission with
      | None => g_fail "admission broker says this hostname may issue now, but assigned it no CA"
      | Some ca => obtain_from ca
      end
  end.

Definition admission_poll_interval : N Z :=
  a ← poll_admission (cp_url config) (routing_token config) (hostname config);
  mret match a with
       | Some a => if String.eqb (status a) "gruen" then CHECK_INTERVAL else ADMISSION_POLL_INTERVAL
       | None => CHECK_INTERVAL
       end.
(** One turn of [run_renewal_loop]. *)
Definition renewal_round : G unit :=
  r ← g_attempt obtain_or_renew;
  d ← match r with
      | Ok true => mret CHECK_INTERVAL
      | Ok false => on_net admission_poll_interval
      | Err _ => mret CHECK_INTERVAL
      end;
  on_net (sleep d).
Fixpoint run_renewal_loop (rounds : nat) : G unit :=
  match rounds with
  | O => mret tt
  | S rounds => _ ← renewal_round; run_renewal_loop rounds
  end.
End Renew.
