(* ===== verification/AcmeCertSafety.v ===== *)
(** * AcmeCertSafety: who is asked, and what the directory holds meanwhile

    Theorems about [AcmeCert]: the directory policy, where the routing token goes, that a CA is only
    contacted as the broker assigned it, and that key and chain are replaced together. *)
From S2P Require Import Prelude Text Json Net EnvFlag SecretFile DirOps AcmeWorld Dns01 Acme AcmeSafety AcmeCert.

#[local] Open Scope Z_scope.

(** ** The directory policy *)

Section Policy.
Context `{Externals}.

(** A directory is accepted exactly when its URL parses and has a host, and either it is HTTPS to
    a host of the registry or one the operator listed, or it is plain HTTP to a host that is this
    machine and listed: neither an unlisted host nor cleartext over a network is ever accepted. *)
Theorem directory_accepted_iff directory_url extra_hosts :
  directory_url_policy directory_url extra_hosts = Ok tt <->
  exists parsed host, url_parse directory_url = Ok parsed /\ host_of parsed = Some host /\
    (scheme parsed = "https"%string /\
       (listed extra_hosts host = true \/ exists known, known ∈ known_directories /\ directory_host known = Some host) \/
     scheme parsed = "http"%string /\ listed extra_hosts host = true /\ is_loopback_host host = true).
Proof.
  unfold directory_url_policy. destruct (url_parse directory_url) as [parsed|e]; [|by split; [|intros (? & ? & [=] & _)]].
  destruct (host_of parsed) as [host|] eqn:Eh; [|by split; [|intros (? & ? & [= <-] & E & _); rewrite Eh in E]].
  assert (existsb (fun k => String.eqb k host) (omap directory_host known_directories) = true <->
    exists known, known ∈ known_directories /\ directory_host known = Some host) as Hknown.
  { rewrite existsb_exists. split.
    - intros (k & Hk%list_elem_of_In & ->%String.eqb_eq). by apply list_elem_of_omap in Hk as (u & Hu & Ed); exists u.
    - intros (u & Hu & Ed). exists host. split; [apply list_elem_of_In, list_elem_of_omap; by exists u|apply String.eqb_refl]. }
  split.
  - intros E. exists parsed, host. split; [done|]. split; [done|]. revert E.
    destruct (String.eqb_spec (scheme parsed) "https") as [Hs|Hs].
    + intros E. left. split; [done|]. destruct (listed extra_hosts host); [by left|right]. apply Hknown.
      by destruct (existsb _ _).
    + destruct (String.eqb_spec (scheme parsed) "http") as [Hs'|Hs']; [|done]. intros E. right. split; [done|].
      by destruct (listed extra_hosts host), (is_loopback_host host).
  - intros (p & h & [= <-] & Eh' & Hc). rewrite Eh in Eh'. injection Eh' as <-.
    destruct Hc as [[-> Hc]|(-> & Hl & Hb)]; cbn [String.eqb Ascii.eqb Bool.eqb].
    + destruct (listed extra_hosts host) eqn:El; [done|]. destruct Hc as [|Hc]; [done|]. apply Hknown in Hc. by rewrite Hc.
    + by rewrite Hl, Hb.
Qed.
End Policy.

(** ** The routing token *)

Section Broker.
Context `{Outside} (cp_url token hostname : string).
Notation by_header := (by_header cp_url token hostname).
Notation by_url := (by_url cp_url token hostname).

(** A call of the broker: by header, and by URL only after the header route was found missing. *)
Definition broker_call (m : Method) (what : string) (l : list Asked) : Prop :=
  exists r, l = [asked (by_header m what) r] \/
    exists resp r', r = Ok resp /\ AcmeWorld.status resp = 404 /\ l = [asked (by_url m what) r'; asked (by_header m what) r].

Lemma poll_run w r w' : poll_admission cp_url token hostname w = (r, w') ->
  exists l a, trace w' = l ++ trace w /\ broker_call GET "acme-admission" l /\ r = Ok a /\
    forall ad, a = Some ad -> exists resp, is_success resp = true /\ admission_of resp = Some ad /\
      (asked (by_header GET "acme-admission") (Ok resp) ∈ l \/ asked (by_url GET "acme-admission") (Ok resp) ∈ l).
Proof.
  unfold poll_admission, mbind at 1, n_bind at 1. rewrite ask_run. set (x := respond _ (by_header GET _)).
  destruct x as [resp|e] eqn:Ex.
  2: { intros [= <- <-]. eexists [_], None. split; [done|]. split; [by eexists; left|]. by split. }
  destruct (is_success resp) eqn:Es.
  { intros [= <- <-]. eexists [_], _. split; [done|]. split; [by eexists; left|]. split; [done|]. intros ad Ha. exists resp.
    split; [done|]. split; [done|]. left. by left. }
  destruct (route_is_missing (AcmeWorld.status resp)) eqn:Em; cbn [negb].
  2: { intros [= <- <-]. eexists [_], None. split; [done|]. split; [by eexists; left|]. by split. }
  apply Z.eqb_eq in Em. unfold mbind, n_bind. rewrite ask_run. set (y := respond _ (by_url GET _)). destruct y as [resp'|e] eqn:Ey; intros [= <- <-].
  - eexists [_; _], _. split; [done|]. split; [exists (Ok resp); right; by exists resp, (Ok resp')|]. split; [done|]. intros ad Ha.
    destruct (is_success resp') eqn:Es'; [|done]. exists resp'. split; [done|]. split; [done|]. right. by left.
  - eexists [_; _], None. split; [done|]. split; [exists (Ok resp); right; by exists resp, (Err e)|]. by split.
Qed.
Lemma notify_run w r w' : notify_issuance_complete cp_url token hostname w = (r, w') ->
  exists l, trace w' = l ++ trace w /\ broker_call POST "acme-issuance-complete" l /\ r = Ok tt.
Proof.
  unfold notify_issuance_complete, mbind at 1, n_bind at 1. rewrite ask_run. set (x := respond _ (by_header POST _)).
  destruct x as [resp|e] eqn:Ex; [|intros [= <- <-]; eexists [_]; by split_and!; [|eexists; left|]].
  destruct (is_success resp); [intros [= <- <-]; eexists [_]; by split_and!; [|eexists; left|]|].
  destruct (route_is_missing (AcmeWorld.status resp)) eqn:Em; [|intros [= <- <-]; eexists [_]; by split_and!; [|eexists; left|]].
  apply Z.eqb_eq in Em. unfold mbind, n_bind. rewrite ask_run. set (y := respond _ (by_url POST _)). intros [= <- <-]. eexists [_; _]. split; [done|]. split; [|done].
  exists (Ok resp). right. by exists resp, y.
Qed.

(** The bearer token stays out of URLs -- and so out of the logs of proxies -- unless the control
    plane does not know the header route: a call of the broker, to ask for admission or to report an
    issuance, is one request with the token in a header; a second one, with the token in its path,
    follows only when the first was answered, with 404.  A transport error, an outage, a refusal or a
    body that does not parse never moves the token into a URL.  Both calls always return. *)
Theorem token_enters_a_url_only_on_404 w :
  (exists l a w', poll_admission cp_url token hostname w = (Ok a, w') /\ trace w' = l ++ trace w /\ broker_call GET "acme-admission" l) /\
  (exists l w', notify_issuance_complete cp_url token hostname w = (Ok tt, w') /\ trace w' = l ++ trace w /\
     broker_call POST "acme-issuance-complete" l).
Proof.
  split.
  - destruct (poll_admission cp_url token hostname w) as [r w'] eqn:E. apply poll_run in E as (l & a & El & Hl & -> & _). by exists l, a, w'.
  - destruct (notify_issuance_complete cp_url token hostname w) as [r w'] eqn:E. apply notify_run in E as (l & El & Hl & ->). by exists l, w'.
Qed.
End Broker.

(** ** Configuration *)

Definition config_ok (config : AcmeCertConfig) : Prop :=
  0 <= dns01_propagation_timeout config /\ (forall d, dns01_initial_delay config = Some d -> 0 <= d) /\
  dns01_resolver_urls config <> [].

Lemma digits_value_pos l acc v : 0 <= acc -> digits_value l acc = Some v -> 0 <= v.
Proof.
  revert acc. induction l as [|c l IH]; intros acc Ha; cbn [digits_value]; [by intros [= <-]|].
  destruct (is_ascii_digit c) eqn:Ec; [|done]. apply IH. apply between_spec in Ec. lia.
Qed.
Lemma parse_uint_pos max s v : parse_uint max s = Some v -> 0 <= v.
Proof.
  unfold parse_uint. destruct (match String.list_ascii_of_string s with [] => [] | c :: rest => if code c =? 43 then rest else c :: rest end) as [|c l]; [done|].
  destruct (digits_value (c :: l) 0) as [n|] eqn:E; [|done]. apply digits_value_pos in E; [|done]. case_match; [|done]. by intros [= <-].
Qed.
Lemma from_env_ok get config : from_env_with get = Ok config -> config_ok config.
Proof.
  unfold from_env_with, rbind, ok_or. destruct (filtered (get "CT_AGENT_CP_URL")); [|done].
  destruct (filtered (get "CT_AGENT_TOKEN")); [|done]. destruct (filtered (get "CT_AGENT_HOSTNAME")); [|done].
  intros [= <-]. cbn. split_and!.
  - destruct (filtered (get "CT_ACME_DNS01_PROPAGATION_TIMEOUT_SECS")) as [t|]; [|done].
    destruct (parse_uint U64_MAX t) as [n|] eqn:E; [|done]. apply parse_uint_pos in E. cbn. unfold SECOND. lia.
  - intros d. destruct (filtered (get "CT_ACME_DNS01_INITIAL_DELAY_SECS")) as [t|]; [|done].
    destruct (parse_uint U64_MAX t) as [n|] eqn:E; [|done]. apply parse_uint_pos in E. intros [= <-]. unfold SECOND. lia.
  - destruct (filtered (get "CT_ACME_DNS01_RESOLVER_URLS")) as [t|]; [|done]. cbn. by destruct (parse_resolver_urls t).
Qed.
Lemma config_checks config authoritative : config_ok config -> authoritative = Some AUTHORITATIVE_TIMEOUT \/ authoritative = None ->
  checks_ok (Some (waiter config)) authoritative.
Proof.
  intros (Ht & Hd & _) Ha. split.
  - intros t ->. destruct Ha as [[= ->]|]; [|done]. by vm_compute.
  - intros p [= <-]. unfold waiter, with_initial_delay, new_waiter, with_interval.
    destruct (dns01_initial_delay config) as [d|]; cbn; split_and!; [done|done|by apply Hd|done..].
Qed.

Section Renew.
Context `{SerdeJson, AcmeCrypto, !AccountKeys, Externals, Outside}.
Context (linked : string -> option (list byte)) (config : AcmeCertConfig) (account_beside : bool) (account_file : string).
Notation rd := (reads linked).

(** ** Runs *)

Lemma g_bind_run {A B} (m : G A) (f : A -> G B) s r s' : (x ← m; f x) s = (r, s') ->
  exists r1 s1, m s = (r1, s1) /\ match r1 with Ok a => f a s1 = (r, s') | Err e => r = Err e /\ s' = s1 end.
Proof. unfold mbind, g_bind. destruct (m s) as [[a|e] s1]; intros E; [by exists (Ok a), s1|]. injection E as <- <-. by exists (Err e), s1. Qed.

(** [calm]: only quiet questions, and an end. *)
Definition calm {A} (m : G A) : Prop := forall s r s', m s = (r, s') -> extends (outside s) (outside s') /\ r <> Err OutOfFuel.
Lemma calm_ret {A} (a : A) : calm (mret a : G A).
Proof. by intros s r s' [= <- <-]. Qed.
Lemma calm_fail {A} m : calm (g_fail m : G A).
Proof. by intros s r s' [= <- <-]. Qed.
Lemma calm_lift {A} (x : result A string) : calm (g_lift x).
Proof. destruct x; [apply calm_ret|apply calm_fail]. Qed.
Lemma calm_bind {A B} (m : G A) (f : A -> G B) : calm m -> (forall a, calm (f a)) -> calm (x ← m; f x).
Proof.
  intros Hm Hf s r s' E. apply g_bind_run in E as (r1 & s1 & E1 & E2). destruct (Hm _ _ _ E1) as [He Hr]. destruct r1 as [a|e].
  - destruct (Hf a _ _ _ E2) as [He' Hr']. split; [by etransitivity|done].
  - destruct E2 as [-> ->]. split; [done|]. by intros [= ->].
Qed.
Lemma calm_attempt {A} (m : G A) : calm m -> calm (g_attempt m).
Proof. intros Hm s r s'. unfold g_attempt. destruct (m s) as [r1 s1] eqn:E. intros [= <- <-]. split; [by eapply Hm|done]. Qed.
Lemma calm_disk {A} (m : D IoError A) : calm (on_disk m).
Proof. intros s r s'. unfold on_disk. destruct (m (dirs s)) as [[] d]; by intros [= <- <-]. Qed.
Lemma calm_ask a : ~ signed a -> ~ changes_record a -> calm (on_net (ask a)).
Proof. intros Hs Hc s r s' [= <- <-]. split; [|done]. by eapply (grows_ask a Hs Hc). Qed.
#[local] Hint Resolve calm_ret calm_fail calm_lift calm_attempt calm_disk : calm.
#[local] Hint Extern 1 (calm (on_net (ask ?a))) => refine (calm_ask a _ _); cbn; tauto : calm.
Ltac calm := repeat first [solve [auto with calm]
  | match goal with |- calm (mbind _ _) => apply calm_bind; [|intros ?] end | case_match].

Lemma calm_needs_renewal : calm (needs_renewal linked config).
Proof. unfold needs_renewal. calm. Qed.
Lemma calm_account : calm (load_or_generate_account_key linked account_beside account_file).
Proof. unfold load_or_generate_account_key. calm. Qed.
Lemma calm_poll : calm (on_net (poll_admission (cp_url config) (routing_token config) (hostname config))).
Proof.
  intros s r s'. unfold on_net. destruct (poll_admission _ _ _ _) as [r1 w1] eqn:E. intros [= <- <-].
  assert (grows (poll_admission (cp_url config) (routing_token config) (hostname config))) as Hg
    by (unfold poll_admission, by_header, by_url; grow).
  split; [by eapply Hg|]. by apply poll_run in E as (l & a & _ & _ & -> & _).
Qed.
Lemma calm_notify : calm (on_net (notify_issuance_complete (cp_url config) (routing_token config) (hostname config))).
Proof.
  intros s r s'. unfold on_net. destruct (notify_issuance_complete _ _ _ _) as [r1 w1] eqn:E. intros [= <- <-].
  assert (grows (notify_issuance_complete (cp_url config) (routing_token config) (hostname config))) as Hg
    by (unfold notify_issuance_complete, by_header, by_url; grow).
  split; [by eapply Hg|]. by apply notify_run in E as (l & _ & _ & ->).
Qed.

Lemma calm_run {A} (m : G A) s r s' : calm m -> m s = (r, s') ->
  r <> Err OutOfFuel /\ exists l, trace (outside s') = l ++ trace (outside s) /\ Forall quiet l.
Proof. intros Hm E. by destruct (Hm _ _ _ E) as [[_ Hl] Hr]. Qed.
(** The directory of [ca] passed the policy and was fetched. *)
Definition discovered (ca : AdmissionCa) (l : list Asked) : Prop :=
  directory_url_policy (directory_url ca) (acme_directory_extra_hosts config) = Ok tt /\
  exists resp, asked (Http GET (directory_url ca) [] [] None) (Ok resp) ∈ l /\ is_success resp = true.
Lemma discover_run d key hosts s r s' : discover_with_allowed_hosts d key hosts s = (r, s') ->
  dirs s' = dirs s /\ r <> Err OutOfFuel /\ exists l, trace (outside s') = l ++ trace (outside s) /\ Forall quiet l /\
  (directory_url_policy d hosts <> Ok tt -> l = []) /\
  forall c, r = Ok c -> directory_url_policy d hosts = Ok tt /\ account c = key /\ nonce c = None /\
    exists resp, asked (Http GET d [] [] None) (Ok resp) ∈ l /\ is_success resp = true.
Proof.
  unfold discover_with_allowed_hosts, mbind at 1, g_bind at 1. destruct (directory_url_policy d hosts) as [[]|e] eqn:Ep; cbn [g_lift].
  2: { intros [= <- <-]. split; [done|]. split; [done|]. exists []. by split_and!. }
  unfold mret at 1, g_ret at 1. unfold mbind at 1, g_bind at 1. unfold on_net, get. rewrite ask_run.
  set (x := respond _ (Http GET d [] [] None)). intros E.
  assert (dirs s' = dirs s /\ r <> Err OutOfFuel /\ trace (outside s') = asked (Http GET d [] [] None) x :: trace (outside s) /\
    forall c, r = Ok c -> account c = key /\ nonce c = None /\ exists resp, x = Ok resp /\ is_success resp = true) as (Hd & Hf & Ht & Hc).
  { revert E. unfold mbind, g_bind. destruct x as [resp|e] eqn:Ex; cbn [g_lift]; [|intros [= <- <-]; by split_and!].
    unfold mret at 1, g_ret at 1. destruct (is_success resp) eqn:Es; cbn [negb]; [|intros [= <- <-]; by split_and!].
    destruct (json resp) as [v|]; cbn [g_lift]; [|intros [= <- <-]; by split_and!]. unfold mret at 1, g_ret at 1.
    destruct (parse_directory v); intros [= <- <-]; split_and!; try done. intros c [= <-]. by split_and!; [..|exists resp]. }
  split; [done|]. split; [done|]. exists [asked (Http GET d [] [] None) x]. split; [done|].
  split; [constructor; [split; cbn; tauto|done]|]. split; [done|]. intros c Hr. destruct (Hc c Hr) as (Ha & Hn & resp & Ex & Hs).
  split; [done|]. split; [done|]. split; [done|]. exists resp. rewrite Ex. split; [by left|done].
Qed.

Lemma client_walk_run c authoritative n s r s' : config_ok config -> authoritative = Some AUTHORITATIVE_TIMEOUT \/ authoritative = None ->
  run_client c (issue_certificate_with_attempts (Some (waiter config)) authoritative n (hostname config)) s = (r, s') ->
  dirs s' = dirs s /\ r <> Err OutOfFuel /\ exists l, trace (outside s') = l ++ trace (outside s) /\
    forall cert, r = Ok cert -> has_certificate (hostname config) l cert.
Proof.
  intros Hc Ha. unfold run_client. destruct (issue_certificate_with_attempts _ _ _ _ _) as [r1 st] eqn:E. intros [= <- <-].
  split; [done|]. pose proof (config_checks config authoritative Hc Ha) as Hok.
  assert (1 + Z.of_nat (Z.to_nat (Z.max n 1 - 1)) = Z.max n 1) as Hn by lia.
  destruct (issue_attempts_run _ _ Hok _ 1 n (hostname config) _ r1 st ltac:(done) Hn E) as (Hf & l & [L _] & Hl).
  split; [done|]. exists l. split; [exact L|]. by intros cert ->.
Qed.

Lemma issue_from_run ca s r s' : config_ok config -> issue_from linked config account_beside account_file ca s = (r, s') ->
  r <> Err OutOfFuel /\ exists l1 l2, trace (outside s') = l2 ++ l1 ++ trace (outside s) /\ Forall quiet l1 /\
  (l2 <> [] -> discovered ca l1) /\ forall cert, r = Ok cert -> has_certificate (hostname config) l2 cert.
Proof.
  intros Hc. unfold issue_from. intros E.
  assert (forall e l (sf : Machine), e <> OutOfFuel -> trace (outside sf) = l ++ trace (outside s) -> Forall quiet l ->
    r = Err e /\ s' = sf -> r <> Err OutOfFuel /\ exists l1 l2, trace (outside s') = l2 ++ l1 ++ trace (outside s) /\ Forall quiet l1 /\
    (l2 <> [] -> discovered ca l1) /\ forall cert, r = Ok cert -> has_certificate (hostname config) l2 cert) as Hstop.
  { intros e l sf He El Ql [-> ->]. split; [by intros [= ->]|]. by exists l, []. }
  apply g_bind_run in E as (r1 & s1 & E1 & E). pose proof (calm_run _ _ _ _ (calm_disk _) E1) as (F1 & l1 & L1 & Q1).
  destruct r1 as [[]|e]; [|apply (Hstop e l1 s1); [by intros ->|done..]].
  apply g_bind_run in E as (r2 & s2 & E2 & E). pose proof (calm_run _ _ _ _ calm_account E2) as (F2 & l2 & L2 & Q2).
  rewrite L1, app_assoc in L2. pose proof (Forall_app_2 _ _ _ Q2 Q1) as Q12.
  destruct r2 as [key|e]; [|apply (Hstop e _ s2 ltac:(by intros ->) L2 Q12 E)].
  apply g_bind_run in E as (r3 & s3 & E3 & E). apply discover_run in E3 as (_ & F3 & l3 & L3 & Q3 & _ & H3').
  rewrite L2, app_assoc in L3. pose proof (Forall_app_2 _ _ _ Q3 Q12) as Q13.
  destruct r3 as [c|e]; [|apply (Hstop e _ s3 ltac:(by intros ->) L3 Q13 E)].
  destruct (H3' c eq_refl) as (Hp & _ & _ & resp & Hin & Hs). cbv zeta in E.
  apply g_bind_run in E as (r4 & s4 & E4 & E).
  assert (calm (if dns01_use_authoritative config then r ← on_net (ask SystemResolver); mret (if is_ok r then Some AUTHORITATIVE_TIMEOUT else None) else mret None)) as Hcalm by calm.
  pose proof (calm_run _ _ _ _ Hcalm E4) as (F4 & l4 & L4 & Q4). rewrite L3, app_assoc in L4. pose proof (Forall_app_2 _ _ _ Q4 Q13) as Q14.
  destruct r4 as [authoritative|e]; [|apply (Hstop e _ s4 ltac:(by intros ->) L4 Q14 E)].
  assert (authoritative = Some AUTHORITATIVE_TIMEOUT \/ authoritative = None) as Ha.
  { revert E4. destruct (dns01_use_authoritative config); [|intros [= <- <-]; by right]. unfold mbind, g_bind, on_net. rewrite ask_run.
    intros [= <- _]. destruct (is_ok _); auto. }
  assert (exists n, run_client (with_eab (if requires_eab ca then zip_options (eab_kid ca) (eab_hmac_key_b64url ca) else None) c)
    (issue_certificate_with_attempts (Some (waiter config)) authoritative n (hostname config)) s4 = (r, s')) as [n En].
  { destruct (dns01_attempts config) as [n|]; [by exists n|]. by exists DNS01_ATTEMPTS. }
  apply client_walk_run in En as (_ & Hf & l5 & L5 & Hcert); [|done..]. split; [done|].
  exists (l4 ++ l3 ++ l2 ++ l1), l5. rewrite L5, L4. split; [by rewrite <-!app_assoc|]. split; [by rewrite !app_assoc; rewrite !app_assoc in Q14|].
  split; [|done]. intros _. split; [done|]. exists resp. split; [set_solver|done].
Qed.

(** ** Only as the broker says *)

(** The broker's answer in [l]: it admits the host and assigns [ca]. *)
Definition admitted (ca : AdmissionCa) (l : list Asked) : Prop :=
  exists resp ad, is_success resp = true /\ admission_of resp = Some ad /\ may_issue_now ad = true /\ assigned_ca ad = Some ca /\
    (asked (by_header (cp_url config) (routing_token config) (hostname config) GET "acme-admission") (Ok resp) ∈ l \/
     asked (by_url (cp_url config) (routing_token config) (hostname config) GET "acme-admission") (Ok resp) ∈ l).
(** Whatever has an effect outside comes after the broker's answer and the CA's directory. *)
Definition only_admitted (l : list Asked) : Prop :=
  forall l1 x l2, l = l1 ++ x :: l2 -> signed (projT1 x) \/ changes_record (projT1 x) ->
    exists ca, admitted ca l2 /\ discovered ca l2.
Lemma only_admitted_quiet l : Forall quiet l -> only_admitted l.
Proof.
  intros Q l1 x l2 -> Hx. apply Forall_app in Q as [_ Q]. inversion Q as [|? ? [Hs Hc]]. by destruct Hx.
Qed.
Lemma only_admitted_after ca l q b : Forall quiet q -> (l <> [] -> discovered ca q) -> admitted ca b -> Forall quiet b -> only_admitted (l ++ q ++ b).
Proof.
  intros Q Hd Ha Qb l1 x l2 E Hx. apply split_at in E as [(k & E & ->)|(k & _ & E)].
  - destruct (Hd ltac:(by rewrite E; destruct l1)) as [Hp (resp & Hin & Hs)]. destruct Ha as (r & ad & H1' & H2' & H3' & H4' & Hb).
    exists ca. split; [exists r, ad; split_and!; [done..|set_solver]|]. split; [done|]. exists resp. split; [set_solver|done].
  - exfalso. assert (Forall quiet (q ++ b)) as Qqb by by apply Forall_app. rewrite E in Qqb. apply Forall_app in Qqb as [_ Qx].
    inversion Qx as [|? ? [Hs Hc]]. by destruct Hx.
Qed.
Lemma only_admitted_more q l : Forall quiet q -> only_admitted l -> only_admitted (q ++ l).
Proof.
  intros Q Hl l1 x l2 E Hx. apply split_at in E as [(k & -> & _)|(k & _ & E)]; [|by eapply Hl].
  apply Forall_app in Q as [_ Q]. inversion Q as [|? ? [Hs Hc]]. by destruct Hx.
Qed.
Lemma only_admitted_before l q : Forall quiet q -> only_admitted l -> only_admitted (l ++ q).
Proof.
  intros Q Hl l1 x l2 E Hx. apply split_at in E as [(k & E & ->)|(k & _ & E)].
  - destruct (Hl _ _ _ E Hx) as (ca & (r & ad & H1' & H2' & H3' & H4' & Hb) & Hp & resp & Hin & Hs). exists ca.
    split; [exists r, ad; split_and!; [done..|set_solver]|]. split; [done|]. exists resp. split; [set_solver|done].
  - exfalso. rewrite E in Q. apply Forall_app in Q as [_ Q]. inversion Q as [|? ? [Hs Hc]]. by destruct Hx.
Qed.

Lemma obtain_from_run ca s r s' : config_ok config -> obtain_from linked config account_beside account_file ca s = (r, s') ->
  r <> Err OutOfFuel /\ exists q2 l q, trace (outside s') = q2 ++ l ++ q ++ trace (outside s) /\ Forall quiet q /\ Forall quiet q2 /\
  (l <> [] -> discovered ca q) /\ (r = Ok true -> exists cert, has_certificate (hostname config) l cert).
Proof.
  intros Hc. unfold obtain_from. intros E. apply g_bind_run in E as (r1 & s1 & E1 & E).
  apply issue_from_run in E1 as (F1 & q & l & L1 & Q1 & D1 & H1'); [|done]. destruct r1 as [cert|e].
  2: { destruct E as [-> ->]. split; [by intros [= ->]|]. by exists [], l, q. }
  assert (calm (_ ← install cert; _ ← on_net (notify_issuance_complete (cp_url config) (routing_token config) (hostname config)); mret true)) as Hcalm.
  { apply calm_bind; [apply calm_disk|intros _]. apply calm_bind; [apply calm_notify|intros _]. apply calm_ret. }
  destruct (calm_run _ _ _ _ Hcalm E) as (F2 & q2 & L2 & Q2). split; [done|]. exists q2, l, q. rewrite L2, L1.
  split; [done|]. split; [done|]. split; [done|]. split; [done|]. intros _. exists cert. by apply H1'.
Qed.
Lemma obtain_run s r s' : config_ok config -> obtain_or_renew linked config account_beside account_file s = (r, s') ->
  r <> Err OutOfFuel /\ exists l, trace (outside s') = l ++ trace (outside s) /\ only_admitted l /\
    (r = Ok true -> exists cert, has_certificate (hostname config) l cert).
Proof.
  intros Hc. unfold obtain_or_renew. intros E. apply g_bind_run in E as (r1 & s1 & E1 & E).
  destruct (calm_run _ _ _ _ calm_needs_renewal E1) as (F1 & l1 & L1 & Q1). destruct r1 as [due|e].
  2: { destruct E as [-> ->]. split; [by intros [= ->]|]. exists l1. split_and!; [done|by apply only_admitted_quiet|done]. }
  destruct due; cbn [negb] in E.
  2: { injection E as <- <-. split; [done|]. exists l1. split_and!; [done|by apply only_admitted_quiet|done]. }
  apply g_bind_run in E as (r2 & s2 & E2 & E). pose proof (calm_run _ _ _ _ calm_poll E2) as (F2 & q2 & L2 & Q2).
  unfold on_net in E2. destruct (poll_admission (cp_url config) (routing_token config) (hostname config) (outside s1)) as [r0 w0] eqn:Ep.
  injection E2 as -> <-. apply poll_run in Ep as (l2 & a & El & _ & -> & Hsaid). cbn [outside] in L2.
  assert (q2 = l2) as -> by (rewrite L2 in El; by apply app_inv_tail in El).
  rewrite L1, app_assoc in L2. pose proof (Forall_app_2 _ _ _ Q2 Q1) as Q12.
  assert (forall rr, r = rr -> rr <> Err OutOfFuel -> rr <> Ok true -> s' = {| dirs := dirs s1; outside := w0 |} ->
    r <> Err OutOfFuel /\ exists l, trace (outside s') = l ++ trace (outside s) /\ only_admitted l /\
    (r = Ok true -> exists cert, has_certificate (hostname config) l cert)) as Hstop.
  { intros rr -> Hf Ht ->. split; [done|]. exists (l2 ++ l1). split; [done|]. split; [by apply only_admitted_quiet|done]. }
  destruct a as [ad|]; [|injection E as <- <-; by eapply Hstop].
  destruct (may_issue_now ad) eqn:Em; cbn [negb] in E; [|injection E as <- <-; by eapply Hstop].
  destruct (assigned_ca ad) as [ca|] eqn:Eca; [|injection E as <- <-; by eapply Hstop].
  apply obtain_from_run in E as (F & q3 & l & q & L & Qq & Q3 & Hd & Hcert); [|done]. split; [done|].
  exists (q3 ++ l ++ q ++ l2 ++ l1). cbn [outside] in L. split; [rewrite L, L2; by rewrite <-!app_assoc|].
  destruct (Hsaid ad eq_refl) as (resp & Hs & Had & Hin).
  split.
  - apply only_admitted_more; [done|]. rewrite (app_assoc q), (app_assoc l). apply only_admitted_before; [done|].
    eapply only_admitted_after; [done|exact Hd| |done]. by exists resp, ad.
  - intros ->. destruct (Hcert eq_refl) as [cert Hcc]. exists cert. eapply grown_has_certificate; [|exact Hcc]. set_solver.
Qed.

(** ** What the directory holds meanwhile *)

(** As [dtriple], for the directories of the machine. *)
Definition gtriple {A} (I P : Disk -> Disk -> Prop) (m : G A) (Q : result A Failure -> Disk -> Disk -> Prop) : Prop :=
  forall s r s', m s = (r, s') -> P (main (dirs s)) (extra (dirs s)) ->
    (exists l, moments (dirs s') = l ++ moments (dirs s) /\ Forall (fun p => I p.1 p.2) l) /\ Q r (main (dirs s')) (extra (dirs s')).
Definition keeps_dirs {A} (m : G A) : Prop := forall s, dirs (m s).2 = dirs s.

Lemma gtriple_bind {A B} I P (m : G A) R (f : A -> G B) Q :
  gtriple I P m R -> (forall a, gtriple I (R (Ok a)) (f a) Q) -> (forall e d x, R (Err e) d x -> Q (Err e) d x) ->
  gtriple I P (x ← m; f x) Q.
Proof.
  intros Hm Hf He s r s' E HP. apply g_bind_run in E as (r1 & s1 & E1 & E). destruct (Hm s r1 s1 E1 HP) as [(l & El & Hl) HR].
  destruct r1 as [a|e]; [|destruct E as [-> ->]; split; [by exists l|by apply He]].
  destruct (Hf a s1 r s' E HR) as [(l' & El' & Hl') HQ]. split; [|done].
  exists (l' ++ l). split; [by rewrite El', El, app_assoc|]. by apply Forall_app.
Qed.
Lemma gtriple_conseq {A} (I I' P P' : Disk -> Disk -> Prop) (m : G A) Q Q' :
  gtriple I' P' m Q' -> (forall d x, I' d x -> I d x) -> (forall d x, P d x -> P' d x) -> (forall r d x, Q' r d x -> Q r d x) ->
  gtriple I P m Q.
Proof.
  intros Hm HI HP HQ s r s' E H1'. destruct (Hm s r s' E (HP _ _ H1')) as [(l & El & Hl) Hq]. split; [|by apply HQ].
  exists l. split; [done|]. eapply Forall_impl; [exact Hl|]. intros [d x]. apply HI.
Qed.
Lemma gtriple_each {A} I P (m : G A) Q :
  (forall d x, P d x -> gtriple I (fun d' x' => d' = d /\ x' = x) m Q) -> gtriple I P m Q.
Proof. intros Hm s r s' E HP. by apply (Hm _ _ HP s r s' E). Qed.
Lemma gtriple_keeps {A} I P (m : G A) : keeps_dirs m -> gtriple I P m (fun _ => P).
Proof.
  intros Hm s r s' E HP. specialize (Hm s). rewrite E in Hm. cbn [snd] in Hm. rewrite Hm. split; [by exists []|done].
Qed.
Lemma gtriple_disk {A} I P (m : D IoError A) Q : dtriple I P m Q ->
  gtriple I P (on_disk m) (fun r d x => exists r', r = map_err (fun e => Msg (io_text e)) r' /\ Q r' d x).
Proof.
  intros Hm s r s'. unfold on_disk. destruct (m (dirs s)) as [r1 d1] eqn:E. intros [= <- <-] HP.
  destruct (Hm _ _ _ E HP) as [Hl HQ]. split; [done|]. by exists r1.
Qed.
Lemma gtriple_attempt {A} I P (m : G A) Q : gtriple I P m Q -> gtriple I P (g_attempt m) (fun r d x => exists r', r = Ok r' /\ Q r' d x).
Proof.
  intros Hm s r s'. unfold g_attempt. destruct (m s) as [r1 s1] eqn:E. intros [= <- <-] HP.
  destruct (Hm _ _ _ E HP) as [Hl HQ]. split; [done|]. by exists r1.
Qed.
Lemma keeps_lift {A} (x : result A string) : keeps_dirs (g_lift x).
Proof. by destruct x. Qed.
Lemma keeps_net {A} (m : N A) : keeps_dirs (on_net m).
Proof. intros s. unfold on_net. by destruct (m (outside s)). Qed.
Lemma keeps_client {A} c (m : C A) : keeps_dirs (run_client c m).
Proof. intros s. unfold run_client. by destruct (m _). Qed.

(** The key and the chain read as in [d0]; [ready_for]: and nothing of the directory is unsynced. *)
Notation old_pair d0 := (both_old linked d0 KEY_FILE CERT_FILE).
Definition ready_for (d0 d : Disk) : Prop := old_pair d0 d /\ settled d.
(** The account key has a name of its own, where it lies in the same directory. *)
Definition own_name : Prop :=
  account_beside = true -> forall q, q = KEY_FILE \/ q = CERT_FILE -> q <> account_file /\ q <> temp_sibling account_file.

(** A call on the account key's file leaves the pair alone, and, where [good], everything synced. *)
Definition account_call {A} (m : IO IoError A) (good : result A IoError -> bool) : Prop :=
  forall d0, settled d0 -> triple (kept_but linked d0 account_file) (eq d0) m
    (fun r d => kept_but linked d0 account_file d /\ (good r = true -> settled d)).
Lemma account_same {A} (effect : Disk -> result A IoError * Disk) :
  (forall d, (effect d).2 = d) -> account_call (call unchanged effect) (fun _ => true).
Proof.
  intros He d0 Hs. apply triple_call; [by intros d <-; apply kept_but_refl|by intros e n d <-|].
  intros d r d' E <-. specialize (He d0). rewrite E in He. by cbn in He; subst d'.
Qed.
Lemma account_write bytes : account_call (write_private account_file bytes) is_ok.
Proof.
  intros d0 Hs. eapply triple_conseq; [exact (triple_write_private linked d0 account_file bytes Hs)|exact (fun _ H => H)|done|].
  intros r d [Hk Hw]. split; [exact Hk|]. intros Hr. by destruct (Hw Hr) as (_ & Hset & _).
Qed.
Lemma kept_pair d0 d1 d : own_name -> account_beside = true -> old_pair d0 d1 -> kept_but linked d1 account_file d -> old_pair d0 d.
Proof.
  intros Hn Hb [H1' H2'] Hk. destruct (Hn Hb KEY_FILE (or_introl eq_refl)), (Hn Hb CERT_FILE (or_intror eq_refl)).
  split; rewrite Hk by done; done.
Qed.
Lemma account_dirs {A} (m : IO IoError A) good d0 : own_name -> account_call m good ->
  gtriple (fun d _ => old_pair d0 d) (fun d x => ready_for d0 d /\ settled x) (on_disk (in_account account_beside m))
    (fun r d x => old_pair d0 d /\ exists r', r = map_err (fun e => Msg (io_text e)) r' /\ (good r' = true -> ready_for d0 d /\ settled x)).
Proof.
  intros Hn Hm. apply gtriple_each. intros d x [[Ho Hs] Hx].
  eapply gtriple_conseq; [apply (gtriple_disk (fun d' _ => old_pair d0 d') (fun d' x' => d' = d /\ x' = x) _
    (fun r d' x' => old_pair d0 d' /\ (good r = true -> settled d' /\ settled x')))|done|done|].
  - unfold in_account. destruct account_beside eqn:Eb.
    + eapply dtriple_conseq; [exact (dtriple_main _ _ _ d x (Hm d Hs))| |done|].
      * intros d' x' [Hk _]. by eapply kept_pair.
      * intros r d' x' [[Hk Hg] ->]. split; [by eapply kept_pair|]. intros Hr. split; [by apply Hg|done].
    + eapply dtriple_conseq; [exact (dtriple_extra _ _ _ d x (Hm x Hx))|by intros d' x' [-> _]|done|].
      intros r d' x' [-> [Hk Hg]]. split; [done|]. intros Hr. split; [done|by apply Hg].
  - intros r d' x' (r' & -> & Ho' & Hg). split; [done|]. exists r'. split; [done|]. intros Hr. destruct (Hg Hr). by split; [split|].
Qed.

(** Before the installation: the pair is the old one, and where there is a certificate to install,
    everything is synced. *)
Definition before_install {A} (d0 : Disk) (r : result A Failure) (d x : Disk) : Prop :=
  old_pair d0 d /\ (is_ok r = true -> ready_for d0 d /\ settled x).
Lemma before_keeps {A} d0 (m : G A) : keeps_dirs m ->
  gtriple (fun d _ => old_pair d0 d) (fun d x => ready_for d0 d /\ settled x) m (before_install d0).
Proof.
  intros Hm. eapply gtriple_conseq; [exact (gtriple_keeps (fun d _ => old_pair d0 d) _ m Hm)|done|exact (fun _ _ H => H)|].
  intros r d x [[Ho Hs] Hx]. by split.
Qed.
Lemma before_bind {A B} d0 (m : G A) (f : A -> G B) :
  gtriple (fun d _ => old_pair d0 d) (fun d x => ready_for d0 d /\ settled x) m (before_install d0) ->
  (forall a, gtriple (fun d _ => old_pair d0 d) (fun d x => ready_for d0 d /\ settled x) (f a) (before_install d0)) ->
  gtriple (fun d _ => old_pair d0 d) (fun d x => ready_for d0 d /\ settled x) (x ← m; f x) (before_install d0).
Proof.
  intros Hm Hf. eapply gtriple_bind; [exact Hm| |].
  - intros a. eapply gtriple_conseq; [exact (Hf a)|done| |done]. intros d x [_ Hr]. by apply Hr.
  - intros e d x [Ho _]. by split.
Qed.
Lemma before_disk {A} d0 (m : IO IoError A) good : own_name -> account_call m good -> (forall a, good (Ok a) = true) ->
  gtriple (fun d _ => old_pair d0 d) (fun d x => ready_for d0 d /\ settled x) (on_disk (in_account account_beside m)) (before_install d0).
Proof.
  intros Hn Hm Hg. eapply gtriple_conseq; [exact (account_dirs m good d0 Hn Hm)|done|exact (fun _ _ H => H)|].
  intros r d x (Ho & r' & -> & Hr). split; [exact Ho|]. destruct r' as [a|e]; [intros _; apply Hr, Hg|done].
Qed.
Lemma main_same {A} d x (effect : Disk -> result A IoError * Disk) : (forall d, (effect d).2 = d) ->
  gtriple (fun d' _ => d' = d) (fun d' x' => d' = d /\ x' = x) (on_disk (in_main (call unchanged effect)))
    (fun _ d' x' => d' = d /\ x' = x).
Proof.
  intros He. eapply gtriple_conseq; [apply (gtriple_disk (fun d' _ => d' = d) (fun d' x' => d' = d /\ x' = x) _ (fun _ d' x' => d' = d /\ x' = x))|done|done|].
  - eapply dtriple_conseq; [apply (dtriple_main (fun d' => d' = d) _ (fun _ d' => d' = d) d x)|by intros d' x' [-> _]|done|by intros r d' x' [-> ->]].
    apply triple_call; [by intros d' <-|by intros e n d' <-|]. intros d1 r d2 E Hd1. specialize (He d1). rewrite E in He. cbn [snd] in He. congruence.
  - by intros r d' x' (r' & _ & -> & ->).
Qed.
Lemma before_main {A} d0 (effect : Disk -> result A IoError * Disk) : (forall d, (effect d).2 = d) ->
  gtriple (fun d _ => old_pair d0 d) (fun d x => ready_for d0 d /\ settled x) (on_disk (in_main (call unchanged effect)))
    (fun _ d x => ready_for d0 d /\ settled x).
Proof.
  intros He. apply gtriple_each. intros d x [[Ho Hs] Hx].
  eapply gtriple_conseq; [exact (main_same d x effect He)|by intros d' _ ->|done|by intros r d' x' [-> ->]].
Qed.

Lemma account_dirs_steps d0 : own_name ->
  gtriple (fun d _ => old_pair d0 d) (fun d x => ready_for d0 d /\ settled x)
    (load_or_generate_account_key linked account_beside account_file) (before_install d0).
Proof.
  intros Hn. unfold load_or_generate_account_key. apply before_bind.
  - eapply gtriple_conseq; [apply gtriple_attempt, (account_dirs (read_file linked account_file) (fun _ => true) d0 Hn), account_same|done|exact (fun _ _ H => H)|].
    + done.
    + intros r d x (r' & -> & Ho & r'' & -> & Hr). split; [done|]. intros _. by apply Hr.
  - intros der. destruct (match der with Ok der => from_pkcs8 der | Err _ => Err EmptyString end) as [key|e]; [by apply before_keeps|].
    apply before_bind; [apply before_keeps, keeps_net|intros seed]. apply before_bind; [apply before_keeps, keeps_lift|intros key].
    apply before_bind; [eapply before_disk; [exact Hn|apply account_same; intros d; reflexivity|intros a; reflexivity]|intros u].
    apply before_bind; [eapply before_disk; [exact Hn|apply account_write|intros a; reflexivity]|intros u']. by apply before_keeps.
Qed.
Lemma issue_from_dirs d0 ca : own_name ->
  gtriple (fun d _ => old_pair d0 d) (fun d x => ready_for d0 d /\ settled x)
    (issue_from linked config account_beside account_file ca) (before_install d0).
Proof.
  intros Hn. unfold issue_from. apply before_bind.
  - eapply gtriple_conseq; [apply (before_main d0); intros d; reflexivity|exact (fun _ _ H => H)|exact (fun _ _ H => H)|]. intros r d x [[Ho Hs] Hx]. by split.
  - intros u. apply before_bind; [by apply account_dirs_steps|intros key]. apply before_bind; [|intros c].
    { apply before_keeps. intros s. destruct (discover_with_allowed_hosts _ _ _ s) as [r s'] eqn:E. by apply discover_run in E as [Hd _]. }
    apply before_bind; [apply before_keeps|intros authoritative; apply before_keeps, keeps_client].
    intros s. destruct (dns01_use_authoritative config); [|done]. unfold mbind, g_bind, on_net. by rewrite ask_run.
Qed.

Lemma file_names : distinct_names KEY_FILE CERT_FILE.
Proof. unfold distinct_names. apply (bool_decide_eq_true_1 _). vm_compute. reflexivity. Qed.

(** The pair of [cert], step by step: the old pair, the new key with the old chain, the new pair. *)
Definition stepwise (d0 : Disk) (cert : IssuedCert) : Disk -> Prop :=
  in_step linked d0 KEY_FILE CERT_FILE (as_bytes (key_pem cert)) (as_bytes (cert_chain_pem cert)).
Definition new_pair (cert : IssuedCert) : Disk -> Prop :=
  both_new linked KEY_FILE CERT_FILE (as_bytes (key_pem cert)) (as_bytes (cert_chain_pem cert)).
Lemma install_dirs d0 cert :
  gtriple (fun d _ => stepwise d0 cert d) (fun d x => ready_for d0 d) (install cert)
    (fun r d x => stepwise d0 cert d /\ (is_ok r = true -> new_pair cert d)).
Proof.
  apply gtriple_each. intros d x [Ho Hs].
  assert (forall d', in_step linked d KEY_FILE CERT_FILE (as_bytes (key_pem cert)) (as_bytes (cert_chain_pem cert)) d' -> stepwise d0 cert d') as Hstep.
  { destruct Ho as [H1' H2']. intros d' [[E1 E2]|[[E1 E2]|Hb]]; [left|right; left|by right; right]; split; congruence. }
  eapply gtriple_conseq; [apply (gtriple_disk (fun d' _ => stepwise d0 cert d') (fun d' x' => d' = d /\ x' = x) _
    (fun r d' x' => stepwise d0 cert d' /\ (is_ok r = true -> new_pair cert d')))|done|done|].
  - eapply dtriple_conseq; [refine (dtriple_main _ _ _ d x (install_pair_steps linked id d KEY_FILE CERT_FILE _ _ _ _ file_names _ _))| |done|].
    + exact (triple_write_private linked d _ _ Hs).
    + intros d1 Hd1. exact (triple_write_durable linked d1 _ _ Hd1).
    + intros d' x' [Hi _]. by apply Hstep.
    + intros r d' x' [[Hi Hr] _]. split; [by apply Hstep|exact Hr].
  - intros r d' x' (r' & -> & Hi & Hr). split; [done|]. destruct r'; [done|done].
Qed.

(** What a run made of the directories: the old pair all along, or step by step that of a certificate. *)
Definition installs (s : Machine) (r : result bool Failure) (s' : Machine) : Prop :=
  exists l, moments (dirs s') = l ++ moments (dirs s) /\
  let seen := main (dirs s') :: map fst l in
  (r <> Ok true /\ Forall (both_old linked (main (dirs s)) KEY_FILE CERT_FILE) seen \/
   exists cert t, trace (outside s') = t ++ trace (outside s) /\ has_certificate (hostname config) t cert /\
     Forall (stepwise (main (dirs s)) cert) seen /\ (r = Ok true -> new_pair cert (main (dirs s')))).

Lemma installs_old s r s' l : moments (dirs s') = l ++ moments (dirs s) -> r <> Ok true ->
  Forall (fun p : Disk * Disk => old_pair (main (dirs s)) p.1) l -> old_pair (main (dirs s)) (main (dirs s')) -> installs s r s'.
Proof. intros El Hr Hl Ho. exists l. split; [done|]. left. split; [done|]. constructor; [done|]. by apply Forall_map. Qed.

Lemma obtain_from_dirs ca s r s' : config_ok config -> own_name -> settled (main (dirs s)) -> settled (extra (dirs s)) ->
  obtain_from linked config account_beside account_file ca s = (r, s') -> installs s r s'.
Proof.
  intros Hc Hn Hm Hx. unfold obtain_from. intros E. apply g_bind_run in E as (r1 & s1 & E1 & E).
  pose proof (issue_from_dirs (main (dirs s)) ca Hn s r1 s1 E1 ltac:(by split; [split|])) as [(l1 & M1 & Hl1) [Ho Hb]].
  apply issue_from_run in E1 as (_ & q & l & L1 & _ & _ & H1'); [|done]. destruct r1 as [cert|e].
  2: { destruct E as [-> ->]. by eapply installs_old. }
  destruct (Hb eq_refl) as [Hready _]. apply g_bind_run in E as (r2 & s2 & E2 & E).
  destruct (install_dirs (main (dirs s)) cert s1 r2 s2 E2 Hready) as [(l2 & M2 & Hl2) [Hs2 Hn2]].
  destruct (calm_run _ _ _ _ (calm_disk _) E2) as (_ & q2 & L2 & _).
  assert (dirs s' = dirs s2 /\ (exists q3, trace (outside s') = q3 ++ trace (outside s2)) /\ (r = Ok true -> r2 = Ok tt)) as (Hd & [q3 L3] & Hr).
  { destruct r2 as [[]|e]; [|destruct E as [-> ->]; split; [done|]; split; [by exists []|done]].
    assert (calm (_ ← on_net (notify_issuance_complete (cp_url config) (routing_token config) (hostname config)); mret true)) as Hcalm
      by (apply calm_bind; [apply calm_notify|intros ?; apply calm_ret]).
    destruct (calm_run _ _ _ _ Hcalm E) as (_ & q3 & L3 & _). split; [|split; [by exists q3|done]].
    apply g_bind_run in E as (r3 & s3 & E3 & E).
    pose proof (keeps_net (notify_issuance_complete (cp_url config) (routing_token config) (hostname config)) s2) as Hk. rewrite E3 in Hk. cbn [snd] in Hk.
    destruct r3; [by injection E as _ <-|by destruct E as [_ ->]]. }
  exists (l2 ++ l1). rewrite Hd. split; [by rewrite M2, M1, app_assoc|]. right. exists cert, (q3 ++ q2 ++ l ++ q).
  split; [rewrite L3, L2, L1; by rewrite <-!app_assoc|]. split; [eapply grown_has_certificate; [|by apply H1']; set_solver|].
  split; [|intros Ht; apply Hn2; by rewrite (Hr Ht)]. constructor; [exact Hs2|]. apply Forall_map, Forall_app. split; [exact Hl2|].
  eapply Forall_impl; [exact Hl1|]. intros [d x]. cbn. by left.
Qed.
Lemma needs_renewal_dirs d x : gtriple (fun d' _ => d' = d) (fun d' x' => d' = d /\ x' = x) (needs_renewal linked config)
  (fun _ d' x' => d' = d /\ x' = x).
Proof.
  unfold needs_renewal. eapply gtriple_bind with (R := fun _ d' x' => d' = d /\ x' = x); [| |done].
  - eapply gtriple_conseq; [apply gtriple_attempt, main_same; intros d'; reflexivity|exact (fun _ _ H => H)|exact (fun _ _ H => H)|].
    by intros r d' x' (r' & _ & ?).
  - intros pem. apply gtriple_keeps. intros st. destruct pem as [pem|e]; [|done].
    destruct (leaf_validity pem) as [[nb na]|]; unfold mbind, g_bind, on_net; [done|].
    rewrite ask_run. by destruct (respond _ _).
Qed.
Lemma obtain_dirs s r s' : config_ok config -> own_name -> settled (main (dirs s)) -> settled (extra (dirs s)) ->
  obtain_or_renew linked config account_beside account_file s = (r, s') -> installs s r s'.
Proof.
  intros Hc Hn Hm Hx. unfold obtain_or_renew. intros E. apply g_bind_run in E as (r1 & s1 & E1 & E).
  destruct (needs_renewal_dirs (main (dirs s)) (extra (dirs s)) s r1 s1 E1 ltac:(done)) as [(l1 & M1 & Hl1) [Hd Hx1]].
  destruct (calm_run _ _ _ _ calm_needs_renewal E1) as (_ & t1 & L1 & _).
  assert (Forall (fun p : Disk * Disk => old_pair (main (dirs s)) p.1) l1) as Ho1
    by (eapply Forall_impl; [exact Hl1|intros [d x] ->; by split]).
  assert (forall s2, dirs s2 = dirs s1 -> forall rr, rr <> Ok true -> r = rr /\ s' = s2 -> installs s r s') as Hstop.
  { intros s2 Hs2 rr Hr [-> ->]. eapply installs_old; rewrite ?Hs2; [exact M1|done|done|]. rewrite Hd. by split. }
  destruct r1 as [due|e]; [|by apply (Hstop s1 eq_refl (Err e))]. destruct due; cbn [negb] in E; [|injection E as <- <-; by apply (Hstop s1 eq_refl (Ok false))].
  apply g_bind_run in E as (r2 & s2 & E2 & E). destruct (calm_run _ _ _ _ calm_poll E2) as (_ & t2 & L2 & _).
  pose proof (keeps_net (poll_admission (cp_url config) (routing_token config) (hostname config)) s1) as Hk. rewrite E2 in Hk. cbn [snd] in Hk.
  destruct r2 as [a|e]; [|by apply (Hstop s2 Hk (Err e))].
  destruct a as [ad|]; [|injection E as <- <-; by apply (Hstop s2 Hk (Err (Msg "admission broker did not respond -- cannot determine whether this hostname may issue yet")))].
  destruct (may_issue_now ad); cbn [negb] in E; [|injection E as <- <-; by apply (Hstop s2 Hk (Ok false))].
  destruct (assigned_ca ad) as [ca|]; [|injection E as <- <-; by apply (Hstop s2 Hk (Err (Msg "admission broker says this hostname may issue now, but assigned it no CA")))].
  apply obtain_from_dirs in E as (l & M & Hl); [|done|done|by rewrite Hk, Hd|by rewrite Hk, Hx1].
  rewrite Hk in M, Hl. rewrite Hd in Hl. exists (l ++ l1). split; [by rewrite M, M1, app_assoc|]. cbv zeta. rewrite map_app, app_comm_cons.
  assert (Forall (old_pair (main (dirs s))) (map fst l1)) as Ho by by apply Forall_map.
  destruct Hl as [[Hr Hl]|(cert & t & Ht & Hcert & Hl & Hr)].
  - left. split; [done|]. by apply Forall_app.
  - right. exists cert, (t ++ t2 ++ t1). split; [by rewrite Ht, L2, L1, <-!app_assoc|].
    split; [eapply grown_has_certificate; [|exact Hcert]; set_solver|]. split; [|done]. apply Forall_app. split; [done|].
    eapply Forall_impl; [exact Ho|]. intros d Hod. by left.
Qed.

(** Nothing is asked of a CA, and no DNS record changed, but as the admission broker said: every
    signed request and every record change of a renewal comes after an answer of the broker that
    admitted this host and assigned it a CA, whose directory URL passed the policy and was fetched.
    A certificate that is not due, a broker that is silent, refuses or assigns nothing, a directory
    outside the policy: no request, and always an end. *)
Theorem ca_is_asked_only_when_admitted get s r s' :
  from_env_with get = Ok config -> obtain_or_renew linked config account_beside account_file s = (r, s') ->
  r <> Err OutOfFuel /\ exists l, trace (outside s') = l ++ trace (outside s) /\
    forall l1 x l2, l = l1 ++ x :: l2 -> signed (projT1 x) \/ changes_record (projT1 x) ->
      exists ca, admitted ca l2 /\ discovered ca l2.
Proof.
  intros Hc E. apply from_env_ok in Hc. apply obtain_run in E as (Hf & l & L & Hl & _); [|done]. split; [done|]. by exists l.
Qed.

(** C23: The web server never sees a certificate without its key.  At every moment of a renewal, and
    whatever call fails, the directory holds the old key and chain, or -- in the one window between
    the two renames -- the new key with the old chain, or the new key and chain; the new ones are
    those of a certificate that a valid order of this run issued for this host.  Only a run that
    installed both reports success. *)
Theorem renewal_replaces_key_and_chain_together get s r s' :
  from_env_with get = Ok config -> own_name -> settled (main (dirs s)) -> settled (extra (dirs s)) ->
  obtain_or_renew linked config account_beside account_file s = (r, s') ->
  exists l, moments (dirs s') = l ++ moments (dirs s) /\
  let seen := main (dirs s') :: map fst l in
  (r <> Ok true /\ Forall (both_old linked (main (dirs s)) KEY_FILE CERT_FILE) seen \/
   exists cert t, trace (outside s') = t ++ trace (outside s) /\ has_certificate (hostname config) t cert /\
     Forall (stepwise (main (dirs s)) cert) seen /\ (r = Ok true -> new_pair cert (main (dirs s')))).
Proof. intros Hc Hn Hm Hx. apply from_env_ok in Hc. by apply obtain_dirs. Qed.
End Renew.

(** ** A concrete renewal *)

#[local] Existing Instances demo_serde demo_crypto.
#[local] Instance demo_keys : AccountKeys := {|
  generate := fun _ => Ok tt; from_pkcs8 := fun _ => Ok tt; pkcs8_der := fun _ => as_bytes "account"; restore := fun _ 'tt _ => eq_refl
|}.
#[local] Instance demo_externals : Externals := {|
  url_parse := fun u => if String.eqb u "directory" then Ok {| scheme := "https"; host_str := Some "CA.example"%string |} else Err "relative URL without a base"%string;
  known_directories := ["directory"%string]; leaf_validity := fun _ => None
|}.
Definition demo_env (k : string) : option string :=
  if String.eqb k "CT_AGENT_CP_URL" then Some "https://cp/"%string
  else if String.eqb k "CT_AGENT_TOKEN" then Some "deadbeef"%string
  else if String.eqb k "CT_AGENT_HOSTNAME" then Some "www.example.org"%string
  else None.
Definition demo_config : AcmeCertConfig :=
  {| cp_url := "https://cp/"; routing_token := "deadbeef"; hostname := "www.example.org"; cert_out_dir := "/shared/acme-cert";
     account_key_path := "/shared/acme-cert/acme-account-key.der"; dns01_resolver_urls := DEFAULT_RESOLVER_URLS;
     dns01_propagation_timeout := DEFAULT_TIMEOUT; dns01_initial_delay := None; dns01_use_authoritative := true;
     dns01_attempts := None; acme_directory_extra_hosts := [] |}.
Lemma demo_configured : from_env_with demo_env = Ok demo_config.
Proof. vm_compute. reflexivity. Qed.

(** A control plane without the header routes, and the CA of [AcmeSafety]. *)
Definition demo_admission : Value :=
  fields [("status", Str "gelb"); ("may_issue_now", Bool true);
    ("assigned_ca", fields [("name", Str "demo"); ("directory_url", Str "directory"); ("requires_eab", Bool false)])]%string.
Definition demo_site (t : list Asked) (a : Ask) : Reply a :=
  match a with
  | Http m url hs q b => Ok
      (if String.eqb url "https://cp/agent/acme-admission/deadbeef/www.example.org" then demo_reply 200 "" demo_admission ""
       else if String.eqb url "directory" then
         demo_reply 200 "" (fields [("newNonce", Str "nonce"); ("newAccount", Str "new-account"); ("newOrder", Str "new-order")]%string) ""
       else match hs with
            | [(h, _)] => if String.eqb h AGENT_TOKEN_HEADER then demo_reply 404 "" Null "" else demo_ca t url
            | _ => demo_ca t url
            end)
  | a => demo_answer t a
  end.
#[local] Instance demo_site_outside : Outside := {| respond := demo_site; delay := fun _ _ => 1 |}.
Definition empty_disk : Disk := {| umask := 18; inodes := ∅; next := 0; dir := ∅; unsynced := [] |}.
Definition no_link (t : string) : option (list byte) := None.
Definition demo_machine (a : list Answer) : Machine :=
  {| dirs := {| main := empty_disk; extra := empty_disk; dir_answers := a; moments := [] |}; outside := {| clock := 0; trace := [] |} |}.
Lemma empty_disk_settled : settled empty_disk.
Proof. split; [|done]. split; [done|]. intros q i. unfold candidates. cbn. by intros Hq%list_elem_of_singleton. Qed.
Definition demo_renew (a : list Answer) : result bool Failure * Machine :=
  obtain_or_renew no_link demo_config true "acme-account-key.der" (demo_machine a).
Lemma demo_own_name : own_name true "acme-account-key.der".
Proof. intros _ q [->| ->]; split; by vm_compute. Qed.

Lemma demo_renewal : (fun p : result bool Failure * Machine =>
    (p.1, reads no_link (main (dirs p.2)) KEY_FILE, reads no_link (main (dirs p.2)) CERT_FILE, existsb told (trace (outside p.2)))) (demo_renew [])
  = (Ok true, Some (as_bytes "KEY"), Some (as_bytes "CHAIN"), true).
Proof. vm_compute. reflexivity. Qed.

Lemma ca_is_asked_only_when_admitted_witness :
  exists s' l1 x l2, demo_renew [] = (Ok true, s') /\ trace (outside s') = l1 ++ x :: l2 /\ ready x /\
    exists ca, admitted demo_config ca l2 /\ discovered demo_config ca l2.
Proof.
  pose proof demo_renewal as Hrun. destruct (demo_renew []) as [r s'] eqn:E. cbn [fst snd] in Hrun.
  apply pair_equal_spec in Hrun as [[[Hr _]%pair_equal_spec _]%pair_equal_spec Ht]. subst r.
  destruct (told_ready _ Ht) as (l1 & x & l2 & Hx & Hrx).
  destruct (ca_is_asked_only_when_admitted no_link demo_config true "acme-account-key.der" demo_env (demo_machine []) (Ok true) s' demo_configured E)
    as (_ & l & El & Hl).
  rewrite app_nil_r in El. destruct (Hl l1 x l2 (eq_trans (eq_sym El) Hx) (or_introl (ready_signed x Hrx))) as (ca & Ha & Hd).
  exists s', l1, x, l2. split; [reflexivity|]. split; [exact Hx|]. split; [exact Hrx|]. exists ca. split; [exact Ha|exact Hd].
Defined.

(** The rename of the chain fails: the new key stands with no chain yet. *)
Definition demo_failing : list Answer := repeat Done 28 ++ [Fails (Os "read-only") 0].
Lemma failing_renewal : (fun p : result bool Failure * Machine =>
    (is_ok p.1, reads no_link (main (dirs p.2)) KEY_FILE, reads no_link (main (dirs p.2)) CERT_FILE)) (demo_renew demo_failing)
  = (false, Some (as_bytes "KEY"), None).
Proof. vm_compute. reflexivity. Qed.
Lemma renewal_replaces_key_and_chain_together_witness :
  exists r s', demo_renew demo_failing = (r, s') /\ is_ok r = false /\ reads no_link (main (dirs s')) KEY_FILE = Some (as_bytes "KEY") /\
    exists cert, stepwise no_link empty_disk cert (main (dirs s')).
Proof.
  pose proof failing_renewal as Hrun. destruct (demo_renew demo_failing) as [r s'] eqn:E. cbn [fst snd] in Hrun.
  apply pair_equal_spec in Hrun as [[Hr Hk]%pair_equal_spec _].
  destruct (renewal_replaces_key_and_chain_together no_link demo_config true "acme-account-key.der" demo_env (demo_machine demo_failing) r s'
    demo_configured demo_own_name empty_disk_settled empty_disk_settled E) as (l & _ & [[_ Ho]|(cert & t & _ & _ & Hs & _)]).
  - exfalso. apply Forall_inv in Ho as [Ho _]. rewrite Hk in Ho. discriminate Ho.
  - exists r, s'. split; [reflexivity|]. split; [exact Hr|]. split; [exact Hk|]. exists cert. exact (Forall_inv Hs).
Defined.
