(* ===== verification/SelfUpdate.v ===== *)
(** * SelfUpdate: replacing the running binary ([self_update.rs])

    Which release is newer, what a download must hash to, and the one place where the executable is
    replaced, on the directory of [SecretFile].  HTTP answers, the system's answers and the
    environment are inputs; SHA-256, ed25519, base64 and serde belong to other crates:
    [UpdateOps].  The lines printed to stderr are left out; the events and the update state of the
    status page are kept.  The Unix variant is modelled. *)
From S2P Require Import Prelude Text Codec Net SecretFile.

#[local] Open Scope Z_scope.

Definition RELEASES_API : string := "https://api.github.com/repos/scimbe/ct-agent/releases/latest".
Definition RELEASE_DOWNLOAD_ROOT : string := "https://github.com/scimbe/ct-agent/releases/download".
Definition MAX_UPDATE_BYTES : Z := 256 * 1024 * 1024.
Definition MAX_CHECKSUM_FILE_BYTES : Z := 64 * 1024.
Definition MAX_MANIFEST_BYTES : Z := 256 * 1024.
Definition SKIP_VERIFY_ENV : string := "CT_AGENT_UPDATE_SKIP_VERIFY".
Definition RELEASE_MANIFEST_NAME : string := "release-manifest.json".
Definition RELEASE_MANIFEST_SIG_NAME : string := "release-manifest.sig".
Definition RELEASE_MANIFEST_SCHEMA : Z := 1.
Definition RELEASE_PUBKEY_ENV : string := "CT_AGENT_RELEASE_PUBKEY".
Definition RELEASE_SIGNING_PUBKEYS : list string :=
  ["73706122db4e9186743ab3aabdf55d80ecf7f08ddc6c5243c9887f7d9bcc9a78"%string].

(** [str::trim_start], [trim_start_matches(c)], [trim_end_matches(c)] of one ASCII character. *)
Definition trim_start (s : string) : string :=
  String.string_of_list_ascii (trim_start_l (String.list_ascii_of_string s)).
Fixpoint trim_start_char (c : ascii) (s : string) : string :=
  match s with
  | String a rest => if Ascii.eqb a c then trim_start_char c rest else s
  | EmptyString => EmptyString
  end.
Fixpoint trim_end_char (c : ascii) (s : string) : string :=
  match s with
  | EmptyString => EmptyString
  | String a rest =>
      match trim_end_char c rest with
      | EmptyString => if Ascii.eqb a c then EmptyString else String a EmptyString
      | r => String a r
      end
  end.

Definition download_url (base_url asset_name : string) : string :=
  (trim_end_char "/" base_url +:+ "/" +:+ asset_name)%string.

Definition env_truthy (v : string) : bool :=
  let v := trim v in String.eqb v "1" || eq_ignore_ascii_case v "true".

Inductive ChecksumPolicy := Require | Skip.
Definition checksum_policy (f : string -> option string) : ChecksumPolicy :=
  match f SKIP_VERIFY_ENV with
  | Some v => if env_truthy v then Skip else Require
  | None => Require
  end.

(** ** Versions *)

(** What follows the first occurrence of [p]. *)
Fixpoint find_after (p s : string) : option string :=
  match strip_prefix p s with
  | Some r => Some r
  | None => match s with EmptyString => None | String _ s => find_after p s end
  end.

Definition extract_tag_name (body : string) : option string :=
  let? after_key := find_after (String quote ("tag_name" +:+ String quote "")) body in
  let? (_, after_colon) := split_once ":" after_key in
  let? after_colon := strip_prefix (String quote "") (trim_start after_colon) in
  let? (tag, _) := split_once quote after_colon in
  Some tag.

Definition asset_name_for_platform (os arch : string) : result string string :=
  let* os_name :=
    if String.eqb os "linux" then Ok "linux"%string
    else if String.eqb os "macos" then Ok "darwin"%string
    else if String.eqb os "windows" then Ok "windows"%string
    else Err ("unsupported OS for self-update: " +:+ os)%string in
  let* arch_name :=
    if String.eqb arch "x86_64" then Ok "x86_64"%string
    else if String.eqb arch "aarch64" then Ok "aarch64"%string
    else if String.eqb arch "x86" then Ok "i686"%string
    else Err ("unsupported architecture for self-update: " +:+ arch)%string in
  let ext := if String.eqb os_name "windows" then ".exe"%string else EmptyString in
  Ok ("ct-agent-" +:+ os_name +:+ "-" +:+ arch_name +:+ ext)%string.

(** [collect] of options. *)
Fixpoint collect {A} (l : list (option A)) : option (list A) :=
  match l with
  | [] => Some []
  | o :: l => let? x := o in let? r := collect l in Some (x :: r)
  end.

Definition parse_version (v : string) : option (list Z) :=
  let v := default v (strip_prefix "v" v) in
  collect (map (fun p => if negb (is_empty p) && forall_char is_ascii_digit p then parse_uint U64_MAX p else None)
             (split_char "." v)).

(** [Vec]'s ordering: lexicographic, a strict prefix is less. *)
Fixpoint vec_lt (a b : list Z) : bool :=
  match a, b with
  | _, [] => false
  | [], _ :: _ => true
  | x :: a, y :: b => (x <? y) || ((x =? y) && vec_lt a b)
  end.

Definition version_is_newer (current candidate : string) : bool :=
  match parse_version current, parse_version candidate with
  | Some current, Some candidate => vec_lt current candidate
  | _, _ => false
  end.

Definition is_prefix (p s : string) : bool := match strip_prefix p s with Some _ => true | None => false end.

Definition release_download_base (tag : string) : result string string :=
  match parse_version tag with
  | Some _ =>
      if is_prefix "v" tag then Ok (RELEASE_DOWNLOAD_ROOT +:+ "/" +:+ tag)%string
      else Err ("refusing to download release " +:+ debug_str tag +:+ ": not a plain vMAJOR.MINOR.PATCH tag")%string
  | None => Err ("refusing to download release " +:+ debug_str tag +:+ ": not a plain vMAJOR.MINOR.PATCH tag")%string
  end.

(** ** Digests *)

(** [{:?}] of the first character. *)
Definition debug_first (s : string) : string :=
  let c := take_chars 1 s in
  ("'" +:+ (if String.eqb c "'" then "\'" else if String.eqb c (String quote "") then c else debug_chars c) +:+ "'")%string.

(** The first character that is not a hex digit, and what follows it. *)
Fixpoint find_not_hex (s : string) : option string :=
  match s with
  | EmptyString => None
  | String c rest => if is_ascii_hexdigit c then find_not_hex rest else Some s
  end.

Definition decode_hex_32 (s what : string) : result (list byte) string :=
  let shown := debug_str (take_chars 16 s) in
  if negb (str_len s =? 64) then
    Err (what +:+ " " +:+ shown +:+ ".. is " +:+ show (str_len s) +:+ " chars long, expected exactly 64 hex chars")%string
  else match find_not_hex s with
       | Some bad => Err (what +:+ " " +:+ shown +:+ ".. is not hex (contains " +:+ debug_first bad +:+ ")")%string
       | None => ok_or (hex_decode 32 s) (what +:+ " " +:+ shown +:+ ".. is not hex")%string
       end.
Definition decode_sha256_hex (digest : string) : result (list byte) string := decode_hex_32 digest "digest".

Inductive ProvenanceOutcome := Verified | UnverifiedNoKey | NotProvided | Skipped.
Definition describe (o : ProvenanceOutcome) : string :=
  match o with
  | Verified => "provenance verified (signed release manifest, pinned key)"
  | UnverifiedNoKey => "checksum only (release manifest present but no release key pinned)"
  | NotProvided => "checksum only (release publishes no manifest)"
  | Skipped => "UNVERIFIED (CT_AGENT_UPDATE_SKIP_VERIFY)"
  end.

(** The manifest; the assets are the entries of the map in the order of their names. *)
Record ReleaseManifest := { schema : Z; tag : string; created_at : Z; assets : list (string * string) }.

Class UpdateOps := {
  Key : Type;
  key_from_bytes : list byte -> result Key string;
  verify_strict : Key -> list byte -> list byte -> bool;
  sha256 : list byte -> list byte;
  base64_decode : string -> result (list byte) string;
  parse_json : list byte -> result ReleaseManifest string
}.

Section Provenance.
Context `{UpdateOps}.

Definition decode_release_pubkey_hex (hex : string) : result Key string :=
  let* bytes := decode_hex_32 (trim hex) "release public key" in
  map_err (fun e => "release public key is not a valid ed25519 key: " +:+ e)%string (key_from_bytes bytes).

(** The loop of [parse] over the digests. *)
Fixpoint check_digests (l : list (string * string)) : result unit string :=
  match l with
  | [] => Ok tt
  | (name, digest) :: l =>
      let* _ := map_err (fun e => RELEASE_MANIFEST_NAME +:+ " entry for " +:+ name +:+ ": " +:+ e)%string
                  (decode_sha256_hex digest) in
      check_digests l
  end.

Definition parse_manifest (bytes : list byte) : result ReleaseManifest string :=
  let* m := map_err (fun e => RELEASE_MANIFEST_NAME +:+ " is not JSON of the expected shape: " +:+ e)%string
              (parse_json bytes) in
  if negb (schema m =? RELEASE_MANIFEST_SCHEMA) then
    Err (RELEASE_MANIFEST_NAME +:+ " has schema " +:+ show (schema m) +:+ ", this build understands only "
         +:+ show RELEASE_MANIFEST_SCHEMA)%string
  else if is_empty (trim (tag m)) then Err (RELEASE_MANIFEST_NAME +:+ " has an empty tag")%string
  else if bool_decide (assets m = []) then Err (RELEASE_MANIFEST_NAME +:+ " lists no assets")%string
  else let* _ := check_digests (assets m) in Ok m.

Definition lookup_asset (name : string) (l : list (string * string)) : option string :=
  option_map snd (List.find (fun '(n, _) => String.eqb n name) l).

Definition digest_for (m : ReleaseManifest) (asset_name : string) : result (list byte) string :=
  match lookup_asset asset_name (assets m) with
  | Some d => decode_sha256_hex d
  | None => Err (RELEASE_MANIFEST_NAME +:+ " has no entry for " +:+ asset_name +:+ " (it lists: "
                 +:+ String.concat ", " (map fst (assets m)) +:+ ")")%string
  end.

Definition is_for_tag (m : ReleaseManifest) (t : string) : bool :=
  String.eqb (trim_start_char "v" (trim (tag m))) (trim_start_char "v" (trim t)).

(** [ProvenancePolicy]: the trusted keys. *)
Definition ProvenancePolicy := list Key.
Definition has_pinned_key (p : ProvenancePolicy) : bool := match p with [] => false | _ => true end.

Fixpoint pinned_keys (pinned : list string) : result (list Key) string :=
  match pinned with
  | [] => Ok []
  | h :: pinned =>
      let* k := map_err (fun e => "compiled-in RELEASE_SIGNING_PUBKEYS: " +:+ e)%string (decode_release_pubkey_hex h) in
      let* ks := pinned_keys pinned in Ok (k :: ks)
  end.

Definition provenance_policy (pinned : list string) (f : string -> option string) : result ProvenancePolicy string :=
  match f RELEASE_PUBKEY_ENV with
  | Some v =>
      if negb (is_empty (trim v)) then
        let* key := map_err (fun e => RELEASE_PUBKEY_ENV +:+ ": " +:+ e)%string (decode_release_pubkey_hex v) in
        Ok [key]
      else pinned_keys pinned
  | None => pinned_keys pinned
  end.

Definition verify_manifest_signature (manifest sig_file : list byte) (keys : list Key) : result unit string :=
  if negb (utf8_valid sig_file) then Err (RELEASE_MANIFEST_SIG_NAME +:+ " is not UTF-8")%string
  else
    let* raw := map_err (fun e => RELEASE_MANIFEST_SIG_NAME +:+ " is not base64: " +:+ e)%string
                  (base64_decode (trim (String.string_of_list_byte sig_file))) in
    if negb (Zlen raw =? 64) then
      Err (RELEASE_MANIFEST_SIG_NAME +:+ " decodes to " +:+ show (Zlen raw)
           +:+ " bytes, an ed25519 signature is exactly 64")%string
    else if existsb (fun k => verify_strict k manifest raw) keys then Ok tt
    else Err (RELEASE_MANIFEST_SIG_NAME +:+ " does not verify against any of the " +:+ show (Zlen keys)
              +:+ " pinned release key(s)")%string.

Definition evaluate_provenance (policy : ProvenancePolicy) (fetched : option (list byte * option (list byte)))
    (expected_tag asset_name : string) (per_asset_digest : list byte)
  : result (ProvenanceOutcome * list byte) string :=
  if negb (has_pinned_key policy) then
    Ok (match fetched with
        | None => (NotProvided, per_asset_digest)
        | Some _ => (UnverifiedNoKey, per_asset_digest)
        end)
  else
    let* (manifest_bytes, sig) :=
      ok_or fetched ("a release signing key is pinned but release " +:+ expected_tag +:+ " publishes no "
        +:+ RELEASE_MANIFEST_NAME
        +:+ " -- refusing to install on the per-asset .sha256 alone (either the release predates signed manifests or the manifest was stripped); "
        +:+ SKIP_VERIFY_ENV +:+ "=1 installs unverified (not recommended)")%string in
    let* sig :=
      ok_or sig ("a release signing key is pinned but release " +:+ expected_tag +:+ " publishes "
        +:+ RELEASE_MANIFEST_NAME +:+ " without " +:+ RELEASE_MANIFEST_SIG_NAME +:+ " -- refusing")%string in
    let* _ := map_err (fun e => e +:+ " -- refusing")%string (verify_manifest_signature manifest_bytes sig policy) in
    let* manifest := parse_manifest manifest_bytes in
    if negb (is_for_tag manifest expected_tag) then
      Err (RELEASE_MANIFEST_NAME +:+ " is for tag " +:+ tag manifest +:+ " but the release being installed is "
           +:+ expected_tag +:+ " -- refusing")%string
    else
      let* digest := digest_for manifest asset_name in
      if bool_decide (digest <> per_asset_digest) then
        Err (asset_name +:+ ".sha256 (" +:+ hex_encode (take 8 per_asset_digest) +:+ "..) disagrees with the signed "
             +:+ RELEASE_MANIFEST_NAME +:+ " entry (" +:+ hex_encode (take 8 digest) +:+ "..) -- refusing")%string
      else Ok (Verified, digest).
End Provenance.

(** ** The checksum file *)

(** The line up to its first ASCII white space, and from there. *)
Definition is_space (c : ascii) : bool := (code c =? 32) || (code c =? 9) || (code c =? 10) || (code c =? 12) || (code c =? 13).
Fixpoint split_space (s : string) : option (string * string) :=
  match s with
  | EmptyString => None
  | String c rest =>
      if is_space c then Some (EmptyString, s)
      else let? (x, y) := split_space rest in Some (String c x, y)
  end.

(** [rsplit(['/', '\\']).next()]: what follows the last separator. *)
Fixpoint base_name (s : string) : string :=
  match s with
  | EmptyString => EmptyString
  | String c rest =>
      if contains_char "/" rest || contains_char "\" rest then base_name rest
      else if Ascii.eqb c "/" || Ascii.eqb c "\" then rest
      else s
  end.

Record ChecksumLines := { unnamed : list string; named : option string; other_names : list string }.

Fixpoint checksum_lines (asset_name : string) (ls : list string) (st : ChecksumLines) : result ChecksumLines string :=
  match ls with
  | [] => Ok st
  | raw :: ls =>
      let line := trim raw in
      if is_empty line || is_prefix "#" line then checksum_lines asset_name ls st
      else
        let '(digest, name) :=
          match split_space line with Some (d, rest) => (d, trim_start rest) | None => (line, EmptyString) end in
        let name := default name (strip_prefix "*" name) in
        if is_empty name then
          checksum_lines asset_name ls
            {| unnamed := unnamed st ++ [digest]; named := named st; other_names := other_names st |}
        else if String.eqb (base_name name) asset_name then
          match named st with
          | Some _ => Err ("checksum file lists " +:+ asset_name +:+ " more than once")%string
          | None => checksum_lines asset_name ls
                      {| unnamed := unnamed st; named := Some digest; other_names := other_names st |}
          end
        else checksum_lines asset_name ls
               {| unnamed := unnamed st; named := named st; other_names := other_names st ++ [name] |}
  end.

Definition parse_sha256_file (text asset_name : string) : result (list byte) string :=
  let* st := checksum_lines asset_name (lines text) {| unnamed := []; named := None; other_names := [] |} in
  let* digest :=
    match named st, unnamed st with
    | Some d, _ => Ok d
    | None, [d] => Ok d
    | None, [] =>
        if bool_decide (other_names st = []) then Err "checksum file contains no digest line"%string
        else Err ("checksum file has no entry for " +:+ asset_name +:+ " (it lists: "
                  +:+ String.concat ", " (other_names st) +:+ ")")%string
    | None, many =>
        Err ("checksum file has " +:+ show (Zlen many) +:+ " unnamed digests, cannot tell which one is "
             +:+ asset_name +:+ "'s")%string
    end in
  decode_sha256_hex digest.

(** ** Downloads *)

(** An answer: the status with its text, the announced length, the chunks of the body, and what
    reqwest's [text()] makes of it. *)
Record Response := {
  status : Z; status_text : string; content_length : option Z; chunks : list (result (list byte) string);
  body_text : result string string
}.
Definition is_success (r : Response) : bool := (200 <=? status r) && (status r <=? 299).

Fixpoint read_chunks (url : string) (max_bytes : Z) (body : list byte) (l : list (result (list byte) string))
  : result (list byte) string :=
  match l with
  | [] => Ok body
  | Err e :: _ => Err ("GET " +:+ url +:+ ": reading body: " +:+ e)%string
  | Ok chunk :: l =>
      if max_bytes <? Zlen body + Zlen chunk then
        Err ("GET " +:+ url +:+ ": body exceeds the " +:+ show max_bytes +:+ "-byte download cap")%string
      else read_chunks url max_bytes (body ++ chunk) l
  end.

Definition read_body_capped (r : Response) (url : string) (max_bytes : Z) : result (list byte) string :=
  match content_length r with
  | Some len =>
      if max_bytes <? len then
        Err ("GET " +:+ url +:+ ": Content-Length " +:+ show len +:+ " exceeds the " +:+ show max_bytes
             +:+ "-byte download cap")%string
      else read_chunks url max_bytes [] (chunks r)
  | None => read_chunks url max_bytes [] (chunks r)
  end.

Section Download.
Context `{UpdateOps}.
(** The web, as this client sees it. *)
Context (http_get : string -> result Response string).

Definition GET (url : string) : result Response string :=
  map_err (fun e => "GET " +:+ url +:+ ": " +:+ e)%string (http_get url).
Definition http_error (url : string) (r : Response) : string :=
  ("GET " +:+ url +:+ ": HTTP " +:+ status_text r)%string.

Definition fetch_release_manifest (base_url : string)
  : result (option (list byte * option (list byte))) string :=
  let url := download_url base_url RELEASE_MANIFEST_NAME in
  let* resp := GET url in
  if status resp =? 404 then Ok None
  else if negb (is_success resp) then Err (http_error url resp)
  else
    let* manifest := read_body_capped resp url MAX_MANIFEST_BYTES in
    let sig_url := download_url base_url RELEASE_MANIFEST_SIG_NAME in
    let* resp := GET sig_url in
    let* sig :=
      if status resp =? 404 then Ok None
      else if negb (is_success resp) then Err (http_error sig_url resp)
      else let* s := read_body_capped resp sig_url MAX_MANIFEST_BYTES in Ok (Some s) in
    Ok (Some (manifest, sig)).

Definition verify_sha256 (bytes expected : list byte) : result unit string :=
  let actual := sha256 bytes in
  if bool_decide (actual = expected) then Ok tt
  else Err ("SHA-256 mismatch: expected " +:+ hex_encode (take 8 expected) +:+ ".., got "
            +:+ hex_encode (take 8 actual) +:+ ".. over " +:+ show (Zlen bytes) +:+ " bytes")%string.

Definition fetch_expected_sha256 (base_url asset_name : string) : result (list byte) string :=
  let url := (download_url base_url asset_name +:+ ".sha256")%string in
  let* resp := GET url in
  if negb (is_success resp) then
    Err (http_error url resp +:+ " -- the release pipeline publishes " +:+ asset_name
         +:+ ".sha256 next to every asset, so without it the download cannot be verified and is refused; for a private build that has no checksum file set "
         +:+ SKIP_VERIFY_ENV +:+ "=1 to install unverified (not recommended)")%string
  else
    let* body := read_body_capped resp url MAX_CHECKSUM_FILE_BYTES in
    if negb (utf8_valid body) then Err ("GET " +:+ url +:+ ": checksum file is not UTF-8")%string
    else map_err (fun e => url +:+ ": " +:+ e)%string (parse_sha256_file (String.string_of_list_byte body) asset_name).

Definition download_verified (base_url asset_name expected_tag : string) (policy : ChecksumPolicy)
    (provenance : ProvenancePolicy) (max_bytes : Z) : result (list byte * ProvenanceOutcome) string :=
  let* (expected, outcome) :=
    match policy with
    | Require =>
        let* per_asset := fetch_expected_sha256 base_url asset_name in
        let* fetched := fetch_release_manifest base_url in
        let* (outcome, digest) := evaluate_provenance provenance fetched expected_tag asset_name per_asset in
        Ok (Some digest, outcome)
    | Skip => Ok (None, Skipped)
    end in
  let url := download_url base_url asset_name in
  let* resp := GET url in
  if negb (is_success resp) then Err (http_error url resp)
  else
    let* body := read_body_capped resp url max_bytes in
    let* _ :=
      match expected with
      | Some expected =>
          map_err (fun e => url +:+ ": " +:+ e +:+ " -- refusing to install it")%string (verify_sha256 body expected)
      | None => Ok tt
      end in
    Ok (body, outcome).

(** ** Installing *)

Record UpdateCheck := {
  current_version : string; latest_version : string; update_available : bool; asset_name : string
}.

(** [{e}] of an [io::Error]. *)
Definition io_text (e : IoError) : string :=
  match e with
  | NotFound => "No such file or directory (os error 2)"
  | AlreadyExists => "File exists (os error 17)"
  | ELOOP => "Too many levels of symbolic links (os error 40)"
  | Os text => text
  end.
Definition io_err (what shown : string) (e : IoError) : string := (what +:+ " " +:+ shown +:+ ": " +:+ io_text e)%string.
Definition lift {E A} (r : result A E) : IO E A := fun w => (r, w).

(** The executable: its path, its parent directory and its name there. *)
Record Exe := { exe_path : string; exe_dir : option string; exe_name : string }.
(** [Path::join] of a relative name. *)
Definition in_dir (dir name : string) : string :=
  if is_empty dir || negb (String.eqb (trim_end_char "/" dir) dir) then (dir +:+ name)%string
  else (dir +:+ "/" +:+ name)%string.
Definition tmp_name (asset : string) : string := ("." +:+ asset +:+ ".new")%string.

(** The part of [perform_update_into] that touches the disk. *)
Definition install (exe tmp shown_exe shown_tmp : string) (bytes : list byte) : IO string unit :=
  removed ← attempt (remove_file tmp);
  match removed with
  | Ok _ | Err NotFound =>
      _ ← io_map_err (io_err "writing" shown_tmp) (write_durable tmp bytes);
      _ ← io_map_err (io_err "chmod" shown_tmp) (set_permissions tmp 493);
      _ ← io_map_err (io_err "replacing" shown_exe) (rename tmp exe);
      io_map_err (io_err "syncing" shown_exe) sync_parent_dir
  | Err e => throw (io_err "removing stale" shown_tmp e)
  end.

Definition perform_update_into (client_built : result unit string) (current_exe : Exe) (check : UpdateCheck)
    (base_url : string) (policy : ChecksumPolicy) (provenance : ProvenancePolicy) (max_bytes : Z)
  : IO string (string * ProvenanceOutcome) :=
  match exe_dir current_exe with
  | None => throw "current exe has no parent directory"%string
  | Some dir =>
      let tmp := tmp_name (asset_name check) in
      _ ← lift (map_err (fun e => "building HTTP client: " +:+ e)%string client_built);
      '(bytes, outcome) ← lift (download_verified base_url (asset_name check) (latest_version check) policy
                                  provenance max_bytes);
      _ ← install (exe_name current_exe) tmp (debug_str (exe_path current_exe)) (debug_str (in_dir dir tmp)) bytes;
      mret (exe_path current_exe, outcome)
  end.

(** The process: its platform, its environment, [current_exe()], and whether a client can be built. *)
Record Host := {
  os : string; arch : string; environment : string -> option string; current_exe : result Exe string;
  client_built : result unit string
}.

Definition perform_update (h : Host) (check : UpdateCheck) : IO string (string * ProvenanceOutcome) :=
  exe ← lift (map_err (fun e => "current_exe: " +:+ e)%string (current_exe h));
  provenance ← lift (provenance_policy RELEASE_SIGNING_PUBKEYS (environment h));
  base ← lift (release_download_base (latest_version check));
  perform_update_into (client_built h) exe check base (checksum_policy (environment h)) provenance MAX_UPDATE_BYTES.

Definition check_latest (h : Host) (version : string) : result UpdateCheck string :=
  let* _ := map_err (fun e => "building HTTP client: " +:+ e)%string (client_built h) in
  let* resp := GET RELEASES_API in
  if negb (is_success resp) then Err (http_error RELEASES_API resp)
  else
    let* body := map_err (fun e => "reading response body: " +:+ e)%string (body_text resp) in
    let* latest := ok_or (extract_tag_name body) "no tag_name in the releases API response"%string in
    let* asset := asset_name_for_platform (os h) (arch h) in
    Ok {| current_version := version; latest_version := latest;
          update_available := version_is_newer version latest; asset_name := asset |}.

(** ** The two callers *)

Inductive Note := CheckEvent (result : string) | AppliedEvent (version : string) | UpdateState (state : string).

Definition run_update (h : Host) (version : string) (w : World) : result unit string * list Note * World :=
  match check_latest h version with
  | Err e => (Err e, [CheckEvent ("error: " +:+ e)%string], w)
  | Ok check =>
      if negb (update_available check) then (Ok tt, [CheckEvent "up-to-date"], w)
      else
        let notes := [CheckEvent ("available: " +:+ latest_version check)%string] in
        match perform_update h check w with
        | (Err e, w) => (Err e, notes, w)
        | (Ok _, w) => (Ok tt, notes ++ [AppliedEvent (latest_version check)], w)
        end
  end.

(** One turn of [run_auto_update_loop]: [true] when the process exits with status 0. *)
Definition auto_update_turn (h : Host) (version : string) (w : World) : bool * list Note * World :=
  match check_latest h version with
  | Err e =>
      (false, [UpdateState "checking"; UpdateState ("check failed: " +:+ e)%string; CheckEvent ("error: " +:+ e)%string], w)
  | Ok check =>
      if negb (update_available check) then
        (false, [UpdateState "checking"; UpdateState ("up-to-date (" +:+ current_version check +:+ ")")%string;
                 CheckEvent "up-to-date"], w)
      else
        let notes := [UpdateState "checking"; CheckEvent ("available: " +:+ latest_version check)%string;
                      UpdateState ("downloading " +:+ latest_version check)%string] in
        match perform_update h check w with
        | (Ok _, w) =>
            (true, notes ++ [UpdateState ("applied " +:+ latest_version check +:+ ", exiting for the supervisor")%string;
                             AppliedEvent (latest_version check)], w)
        | (Err e, w) =>
            (false, notes ++ [UpdateState ("apply failed: " +:+ e)%string; CheckEvent ("apply failed: " +:+ e)%string], w)
        end
  end.
End Download.

Definition DEFAULT_AUTO_UPDATE_INTERVAL_SECS : Z := 86400.
Definition MIN_AUTO_UPDATE_INTERVAL_SECS : Z := 300.

(** [AutoUpdateConfig]: the interval in seconds. *)
Definition auto_update_config (f : string -> option string) : option Z :=
  if negb (match f "CT_AGENT_AUTO_UPDATE"%string with Some v => env_truthy v | None => false end) then None
  else
    let secs := let? s := f "CT_AGENT_AUTO_UPDATE_INTERVAL_SECS"%string in parse_uint U64_MAX (trim s) in
    Some (Z.max (default DEFAULT_AUTO_UPDATE_INTERVAL_SECS secs) MIN_AUTO_UPDATE_INTERVAL_SECS).

(** ** Installing is atomic *)

Section Install.
Context (d0 : Disk) (exe tmp : string) (bytes : list byte).
Context (Hok : disk_ok d0) (Htmp : exe <> tmp) (Hsib : exe <> temp_sibling tmp).

(** The name of the executable leads to what it led to. *)
Definition exe_kept (d : Disk) : Prop :=
  inodes d0 ⊆ inodes d /\ forall e, e ∈ candidates d exe -> e ∈ candidates d0 exe.
Definition is_new (i : nat) (d : Disk) : Prop :=
  inodes d0 !! i = None /\ exists n, inodes d !! i = Some n /\ content n = bytes /\ synced n = true.
(** ... or to the new file. *)
Definition exe_ok (d : Disk) : Prop :=
  inodes d0 ⊆ inodes d /\
  forall e, e ∈ candidates d exe -> e ∈ candidates d0 exe \/ exists i, e = Some (File i) /\ is_new i d.
Definition ready (d : Disk) : Prop := exe_kept d /\ exists i, dir d !! tmp = Some (File i) /\ is_new i d.
Definition swapped (d : Disk) : Prop := exe_ok d /\ exists i, dir d !! exe = Some (File i) /\ is_new i d.

Lemma exe_kept_ok d : exe_kept d -> exe_ok d.
Proof. intros [Hi He]. split; [done|]. eauto. Qed.
Lemma ready_ok d : ready d -> exe_ok d.
Proof. intros [Hk _]. by apply exe_kept_ok. Qed.

Lemma removed_kept :
  triple exe_ok (eq d0) (remove_file tmp) (fun _ d => disk_ok d /\ exe_kept d /\ inodes d = inodes d0).
Proof.
  assert (disk_ok d0 /\ exe_kept d0 /\ inodes d0 = inodes d0) as H0 by done.
  apply triple_call; [intros d <-; by apply exe_kept_ok|by intros e n d <-|]. intros d r d' E <-.
  destruct (dir d0 !! tmp) as [e|]; injection E as <- <-; [|done]. split_and!; [|split; [done|]|done].
  - destruct Hok as [Hn Hd]. split; [done|]. intros q i. rewrite candidates_set. intros [Hl|Hc]; [|by eapply Hd].
    symmetry in Hl. apply lookup_delete_Some in Hl as [_ Hl]. simpl. apply (Hd q).
    rewrite <-Hl. apply candidates_dir.
  - intros e'. rewrite candidates_set, lookup_delete_ne by congruence. intros [->|]; [apply candidates_dir|done].
Qed.

Lemma written_ready d1 :
  disk_ok d1 -> exe_kept d1 -> inodes d1 = inodes d0 ->
  triple exe_ok (eq d1) (write_durable tmp bytes) (fun r d => match r with Ok _ => ready d | Err _ => exe_ok d end).
Proof.
  intros Hok1 [_ Hk] Hi1.
  assert (forall d, SecretFile.safe d1 tmp bytes 420 d -> exe_kept d) as Hsafe.
  { intros d [Hg Hs]. split; [rewrite <-Hi1; by apply Hg|]. intros e He.
    destruct (Hs exe e Hsib He) as [Hc|[-> _]]; [by apply Hk|done]. }
  eapply triple_conseq; [exact (replace_atomically_safe d1 tmp bytes 420)| | |].
  - intros d Hd. by apply exe_kept_ok, Hsafe.
  - intros d <-. by apply untouched_start.
  - intros [u|e] d Hd; [|by apply exe_kept_ok, Hsafe]. destruct Hd as [[Hs (i & Ed & E1 & Ei)] _].
    split; [by apply Hsafe|]. exists i. split; [done|]. split; [by rewrite <-Hi1|]. by eexists.
Qed.

Lemma chmod_ready m : triple exe_ok ready (set_permissions tmp m) (fun _ => ready).
Proof.
  apply triple_call; [apply ready_ok|done|]. intros d r d' E ([Hs Hk] & i & Ed & Hi & n & En & Hc & Hy).
  rewrite Ed, En in E. injection E as <- <-. split; [split|].
  - simpl. by apply insert_subseteq_r.
  - intros e. rewrite candidates_inodes. apply Hk.
  - exists i. split; [done|]. split; [done|]. eexists. split; [by apply lookup_insert_eq|done].
Qed.

Lemma renamed_swapped :
  triple exe_ok ready (rename tmp exe) (fun r d => match r with Ok _ => swapped d | Err _ => exe_ok d end).
Proof.
  apply triple_call; [apply ready_ok|intros e n d; apply ready_ok|]. intros d r d' E ([Hs Hk] & i & Ed & Hi).
  rewrite Ed in E. injection E as <- <-. split; [split; [done|]|].
  - intros e. rewrite candidates_set, lookup_insert_eq. intros [->|He]; [right; by exists i|left; by apply Hk].
  - exists i. simpl. by rewrite lookup_insert_eq.
Qed.

Lemma synced_swapped :
  triple exe_ok swapped sync_parent_dir
    (fun r d => match r with Ok _ => swapped d /\ unsynced d = [] | Err _ => exe_ok d end).
Proof.
  eapply triple_bind with (R := fun _ => swapped).
  - apply triple_call; [by intros d [Hs _]|done|]. intros d r d' [= <- <-]. done.
  - intros []. apply triple_call; [by intros d [Hs _]|by intros e n d [Hs _]|].
    intros d r d' [= <- <-] ([Hi Hc] & Hs). split; [|done]. split; [|done]. split; [done|].
    intros e He. simpl in *. apply list_elem_of_singleton in He as ->. exact (Hc _ (candidates_dir d exe)).
  - by intros e d [Hs _].
Qed.

Definition swapped_or_ok {E} (r : result unit E) (d : Disk) : Prop :=
  match r with Ok _ => swapped d /\ unsynced d = [] | Err _ => exe_ok d end.

Lemma install_ok shown_exe shown_tmp :
  triple exe_ok (eq d0) (install exe tmp shown_exe shown_tmp bytes) swapped_or_ok.
Proof.
  eapply triple_bind; [apply triple_attempt, removed_kept| |by intros e d (? & ? & _)].
  intros removed. apply triple_each. intros d1 (? & [= <-] & Hok1 & Hk1 & Hi1).
  destruct removed as [u|[]];
    try (eapply triple_conseq; [apply (triple_throw _ _ (eq d1))|done|done|by intros r d [-> <-]; apply exe_kept_ok]).
  all: eapply triple_bind; [by apply triple_map_err, written_ready| |by intros e d ([] & [=] & Hd)].
  all: intros u'; eapply triple_bind;
    [eapply triple_conseq; [apply triple_map_err, (chmod_ready 493)|done|by intros d ([] & [=] & Hd)|exact (fun _ _ H => H)]| |
     by intros e d (r' & _ & Hd); apply ready_ok].
  all: intros u2; eapply triple_bind;
    [eapply triple_conseq; [apply triple_map_err, renamed_swapped|done|by intros d (r' & _ & Hd)|exact (fun _ _ H => H)]| |
     by intros e d ([] & [=] & Hd)].
  all: intros u3; eapply triple_conseq; [apply triple_map_err, synced_swapped|done|by intros d ([] & [=] & Hd)|].
  all: by intros r d ([] & -> & Hd).
Qed.

Lemma exe_ok_after_loss d x :
  exe_ok d -> after_power_loss d exe x -> after_power_loss d0 exe x \/ x = Some bytes.
Proof.
  intros [Hi Hs] (e & He & Hx). destruct (Hs e He) as [H0|(i & -> & _ & n & En & Hc & Hy)].
  - left. exists e. split; [done|]. destruct e as [[i|]|]; [|done..]. destruct Hx as (n & c & En & -> & Hc).
    destruct (no_dangling _ Hok exe i H0) as [n0 E0]. exists n0, c. split; [done|]. split; [done|].
    pose proof (lookup_weaken _ _ _ _ E0 Hi). by simplify_eq.
  - right. destruct Hx as (n' & c & En' & -> & Hc'). rewrite En in En'. injection En' as <-. by rewrite Hc', Hc.
Qed.

Lemma swapped_after_loss d x : swapped d -> unsynced d = [] -> after_power_loss d exe x -> x = Some bytes.
Proof.
  intros (_ & i & Ed & _ & n & En & Hc & Hy) Hu (e & He & Hx). unfold candidates in He. rewrite Hu in He.
  apply list_elem_of_singleton in He as ->. rewrite Ed in Hx. destruct Hx as (n' & c & En' & -> & Hc').
  rewrite En in En'. injection En' as <-. by rewrite Hc', Hc.
Qed.

(** What the executable can be during an installation, and after one that succeeded. *)
Lemma install_run w r w' shown_exe shown_tmp :
  disk w = d0 -> install exe tmp shown_exe shown_tmp bytes w = (r, w') ->
  exists h, history w' = h ++ history w /\
    (forall d x, d ∈ disk w' :: h -> after_power_loss d exe x -> after_power_loss d0 exe x \/ x = Some bytes) /\
    (r = Ok tt -> forall x, after_power_loss (disk w') exe x -> x = Some bytes).
Proof.
  intros Hd E. destruct (install_ok shown_exe shown_tmp w r w' E (eq_sym Hd)) as [(h & Eh & Hh) Hr].
  exists h. split; [done|]. rewrite Forall_forall in Hh. split.
  - intros d x [->|Hin]%elem_of_cons Hx; [|by eapply exe_ok_after_loss; [apply Hh|]].
    eapply exe_ok_after_loss; [|done]. destruct r; [apply Hr|done].
  - intros -> x. destruct Hr as [Hs Hu]. by apply swapped_after_loss.
Qed.
End Install.

(** ** What is downloaded *)

Section Trust.
Context `{UpdateOps} (http_get : string -> result Response string).

(** A key this process trusts: the one of the environment, or else a compiled-in one. *)
Definition trusted (env : string -> option string) (k : Key) : Prop :=
  exists hex, decode_release_pubkey_hex hex = Ok k /\
    match env RELEASE_PUBKEY_ENV with
    | Some v => if is_empty (trim v) then hex ∈ RELEASE_SIGNING_PUBKEYS else hex = v
    | None => hex ∈ RELEASE_SIGNING_PUBKEYS
    end.

(** [bytes] hash to the entry of [asset] in a manifest for [t] that one of [keys] has signed. *)
Definition signed_entry (keys : Key -> Prop) (t asset : string) (bytes : list byte) : Prop :=
  exists k manifest signature m hex,
    keys k /\ verify_strict k manifest signature = true /\ Zlen signature = 64 /\
    parse_json manifest = Ok m /\ schema m = 1 /\ is_for_tag m t = true /\
    lookup_asset asset (assets m) = Some hex /\ hex_decode 32 hex = Some (sha256 bytes).

Lemma map_err_Ok {A E F} (f : E -> F) (r : result A E) a : map_err f r = Ok a <-> r = Ok a.
Proof. destruct r; simpl; naive_solver. Qed.
Lemma ok_or_Ok {A E} (o : option A) (e : E) a : ok_or o e = Ok a <-> o = Some a.
Proof. destruct o; simpl; naive_solver. Qed.

Lemma pinned_keys_elem pinned keys :
  pinned_keys pinned = Ok keys ->
  length keys = length pinned /\ Forall (fun k => exists hex, hex ∈ pinned /\ decode_release_pubkey_hex hex = Ok k) keys.
Proof.
  revert keys. induction pinned as [|h pinned IH]; intros keys; simpl; [by intros [= <-]|].
  rewrite rbind_Ok. intros (k & Ek%map_err_Ok & E). apply rbind_Ok in E as (ks & Eks & [= <-]).
  destruct (IH ks Eks) as [Hl Hks]. split; [simpl; congruence|]. constructor.
  - exists h. split; [left|done].
  - eapply Forall_impl; [exact Hks|]. intros x (hex & Hx & E). exists hex. split; [by right|done].
Qed.

(** The process always trusts at least one key, and only the ones it means to. *)
Lemma provenance_policy_trusted env keys :
  provenance_policy RELEASE_SIGNING_PUBKEYS env = Ok keys -> keys <> [] /\ Forall (trusted env) keys.
Proof.
  unfold provenance_policy, trusted.
  assert (pinned_keys RELEASE_SIGNING_PUBKEYS = Ok keys -> keys <> [] /\
    Forall (fun k => exists hex, decode_release_pubkey_hex hex = Ok k /\ hex ∈ RELEASE_SIGNING_PUBKEYS) keys) as Hp.
  { intros [Hl Hk]%pinned_keys_elem. split; [by intros ->|]. eapply Forall_impl; [exact Hk|]. naive_solver. }
  destruct (env RELEASE_PUBKEY_ENV) as [v|]; [|done]. destruct (is_empty (trim v)); simpl; [done|].
  rewrite rbind_Ok. intros (k & Ek%map_err_Ok & [= <-]). split; [done|]. apply Forall_singleton. by exists v.
Qed.

Lemma evaluate_provenance_Ok keys fetched t asset per_asset o digest :
  evaluate_provenance keys fetched t asset per_asset = Ok (o, digest) ->
  digest = per_asset /\
  if has_pinned_key keys then
    o = Verified /\ forall bytes, sha256 bytes = digest -> signed_entry (fun k => k ∈ keys) t asset bytes
  else o <> Verified.
Proof.
  unfold evaluate_provenance. destruct (has_pinned_key keys); simpl; [|by destruct fetched; intros [= <- <-]].
  rewrite rbind_Ok. intros ((manifest & sig) & _ & E).
  apply rbind_Ok in E as (sig' & _ & E). apply rbind_Ok in E as (u & Ev%map_err_Ok & E).
  apply rbind_Ok in E as (m & Em & E). destruct (is_for_tag m t) eqn:Et; simpl in E; [|done].
  apply rbind_Ok in E as (d & Ed & E). case_bool_decide as Hd; [done|]. injection E as <- <-.
  destruct (decide (d = per_asset)) as [<-|]; [|done]. split; [done|]. split; [done|]. intros bytes Hb.
  unfold verify_manifest_signature in Ev. destruct (utf8_valid sig'); simpl in Ev; [|done].
  apply rbind_Ok in Ev as (raw & _ & Ev). destruct (Z.eqb_spec (Zlen raw) 64); simpl in Ev; [|done].
  destruct (existsb _ keys) eqn:Ek; [|done]. apply existsb_exists in Ek as (k & Hk & Hv).
  unfold parse_manifest in Em. apply rbind_Ok in Em as (m' & Em%map_err_Ok & E).
  destruct (Z.eqb_spec (schema m') RELEASE_MANIFEST_SCHEMA); simpl in E; [|done].
  destruct (is_empty _); [done|]. case_bool_decide; [done|]. apply rbind_Ok in E as (u' & _ & [= ->]).
  unfold digest_for in Ed. destruct (lookup_asset asset (assets m)) as [hex|] eqn:El; [|done].
  exists k, manifest, raw, m, hex. split_and!; try done; [by apply list_elem_of_In|].
  rewrite Hb. unfold decode_sha256_hex, decode_hex_32 in Ed. destruct (str_len hex =? 64); [|done]. simpl in Ed.
  destruct (find_not_hex hex); [done|]. by apply ok_or_Ok in Ed.
Qed.

Lemma download_verified_signed base asset t keys max bytes o :
  keys <> [] -> download_verified http_get base asset t Require keys max = Ok (bytes, o) ->
  o = Verified /\ signed_entry (fun k => k ∈ keys) t asset bytes.
Proof.
  intros Hk E. unfold download_verified in E. apply rbind_Ok in E as ([expected outcome] & E1 & E).
  apply rbind_Ok in E1 as (per & _ & E1). apply rbind_Ok in E1 as (fetched & _ & E1).
  apply rbind_Ok in E1 as ((o' & digest) & Ee & [= <- <-]). apply evaluate_provenance_Ok in Ee as [_ Ee].
  assert (has_pinned_key keys = true) as Hp by by destruct keys. rewrite Hp in Ee. destruct Ee as [-> Hs].
  apply rbind_Ok in E as (resp & _ & E). destruct (is_success resp); simpl in E; [|done].
  apply rbind_Ok in E as (body & _ & E). apply rbind_Ok in E as (u & Ev%map_err_Ok & [= <- <-]).
  split; [done|]. apply Hs. unfold verify_sha256 in Ev. by case_bool_decide.
Qed.

(** A release that may replace the running program. *)
Definition authentic (h : Host) (t asset : string) (bytes : list byte) : Prop :=
  signed_entry (trusted (environment h)) t asset bytes.

(** At every moment the name leads to what it led to or to a content in [good]; and after a success
    only to one content in [good]. *)
Definition outcome (w w' : World) (name : string) (good : list byte -> Prop) (ok : bool) : Prop :=
  (forall d x, d ∈ disk w' :: history w' -> after_power_loss d name x ->
     after_power_loss (disk w) name x \/ exists bytes, x = Some bytes /\ good bytes) /\
  (ok = true -> exists bytes, good bytes /\ forall x, after_power_loss (disk w') name x -> x = Some bytes).

Lemma outcome_same w name good : history w = [] -> outcome w w name good false.
Proof. intros Hh. split; [|done]. rewrite Hh. by intros d x ->%list_elem_of_singleton; left. Qed.
Lemma outcome_weaken w w' name (good good' : list byte -> Prop) ok :
  outcome w w' name good ok -> (forall b, good b -> good' b) -> outcome w w' name good' ok.
Proof.
  intros [H1 H2] Hg. split.
  - intros d x Hd Hx. destruct (H1 d x Hd Hx) as [?|(b & -> & Hb)]; [by left|right; eauto].
  - intros Hok. destruct (H2 Hok) as (b & Hb & Hx). eauto.
Qed.

Lemma perform_update_into_run client exe check base keys max w r w' :
  disk_ok (disk w) -> history w = [] -> keys <> [] ->
  exe_name exe <> tmp_name (asset_name check) -> exe_name exe <> temp_sibling (tmp_name (asset_name check)) ->
  perform_update_into http_get client exe check base Require keys max w = (r, w') ->
  outcome w w' (exe_name exe) (signed_entry (fun k => k ∈ keys) (latest_version check) (asset_name check)) (is_ok r).
Proof.
  intros Hok Hh Hk H1 H2 E. unfold perform_update_into, mbind, io_bind, lift in E.
  destruct (exe_dir exe) as [dir|]; [|injection E as <- <-; by apply outcome_same].
  destruct (map_err _ client) as [[]|e]; [|injection E as <- <-; by apply outcome_same].
  destruct (download_verified _ _ _ _ _ _ _) as [[bytes o]|e] eqn:Ed; [|injection E as <- <-; by apply outcome_same].
  apply download_verified_signed in Ed as [-> Hs]; [|done].
  destruct (install _ _ _ _ bytes w) as [ri w1] eqn:Ei.
  destruct (install_run (disk w) _ _ bytes Hok H1 H2 w ri w1 _ _ eq_refl Ei) as (h & Eh & Hm & Hf).
  rewrite Hh, app_nil_r in Eh. rewrite <-Eh in Hm.
  assert (r = match ri with Ok _ => Ok (exe_path exe, Verified) | Err e => Err e end /\ w' = w1) as [-> ->].
  { by destruct ri; injection E as <- <-. }
  split.
  - intros d x Hd Hx. destruct (Hm d x Hd Hx) as [?| ->]; [by left|right; eauto].
  - destruct ri as [[]|]; [|done]. intros _. eauto.
Qed.

Lemma check_latest_Ok h version check :
  check_latest http_get h version = Ok check ->
  asset_name_for_platform (os h) (arch h) = Ok (asset_name check) /\
  update_available check = version_is_newer version (latest_version check).
Proof.
  unfold check_latest. rewrite rbind_Ok. intros (u & _ & E). apply rbind_Ok in E as (resp & _ & E).
  destruct (is_success resp); simpl in E; [|done]. apply rbind_Ok in E as (body & _ & E).
  apply rbind_Ok in E as (latest & _ & E). apply rbind_Ok in E as (asset & Ea & [= <-]). done.
Qed.

Definition outside_update (asset name : string) : Prop :=
  name <> tmp_name asset /\ name <> temp_sibling (tmp_name asset).

Lemma perform_update_run h check exe w r w' :
  disk_ok (disk w) -> history w = [] -> current_exe h = Ok exe -> checksum_policy (environment h) = Require ->
  outside_update (asset_name check) (exe_name exe) -> perform_update http_get h check w = (r, w') ->
  outcome w w' (exe_name exe) (authentic h (latest_version check) (asset_name check)) (is_ok r).
Proof.
  intros Hok Hh Hexe Hpol [H1 H2] E. unfold perform_update, mbind, io_bind, lift in E. rewrite Hexe, Hpol in E. simpl in E.
  destruct (provenance_policy _ _) as [keys|e] eqn:Ek; [|injection E as <- <-; by apply outcome_same].
  destruct (release_download_base _) as [base|e]; [|injection E as <- <-; by apply outcome_same].
  apply provenance_policy_trusted in Ek as [Hne Ht]. eapply outcome_weaken; [by eapply perform_update_into_run|].
  intros b (k & m & s & man & hex & Hk & Hrest). exists k, m, s, man, hex. split; [|done].
  rewrite Forall_forall in Ht. by apply Ht.
Qed.

(** C13: The unattended updater, unless verification was switched off: whatever the web and the disk
    answer, and if the process or the machine stops at any moment, the executable is what it was or
    a complete file whose SHA-256 a trusted key has signed as this platform's asset of a release
    strictly newer than the running version; and the process exits for its supervisor only when
    such a file is in place for good. *)
Theorem auto_update_is_safe h version exe w exits notes w' :
  disk_ok (disk w) -> history w = [] -> current_exe h = Ok exe -> checksum_policy (environment h) = Require ->
  (forall asset, asset_name_for_platform (os h) (arch h) = Ok asset -> outside_update asset (exe_name exe)) ->
  auto_update_turn http_get h version w = (exits, notes, w') ->
  outcome w w' (exe_name exe)
    (fun bytes => exists latest asset, version_is_newer version latest = true /\
       asset_name_for_platform (os h) (arch h) = Ok asset /\ authentic h latest asset bytes) exits.
Proof.
  intros Hok Hh Hexe Hpol Hout E. unfold auto_update_turn in E.
  destruct (check_latest http_get h version) as [check|e] eqn:Ec; [|injection E as <- _ <-; by apply outcome_same].
  destruct (update_available check) eqn:Eu; simpl in E; [|injection E as <- _ <-; by apply outcome_same].
  apply check_latest_Ok in Ec as (Ha & Hn). rewrite Eu in Hn.
  destruct (perform_update http_get h check w) as [r w1] eqn:Ep.
  eapply perform_update_run in Ep; [|done..|by apply Hout].
  assert (exits = is_ok r /\ w' = w1) as [-> ->] by by destruct r; injection E as <- _ <-.
  eapply outcome_weaken; [exact Ep|]. eauto 6.
Qed.
End Trust.

(** ** Versions *)

Definition dotted (l : list Z) : string := String.concat "." (map show l).
Definition u64 (z : Z) : Prop := 0 <= z <= U64_MAX.

(** The order of versions: the first different component decides, and a longer version is newer
    than its beginning. *)
Definition newer (a b : list Z) : Prop :=
  (exists p x y r1 r2, a = p ++ x :: r1 /\ b = p ++ y :: r2 /\ x < y) \/ exists y r, b = a ++ y :: r.

Lemma vec_lt_newer a b : vec_lt a b = true <-> newer a b.
Proof.
  unfold newer. revert b. induction a as [|x a IH]; intros [|y b]; simpl.
  - split; [done|]. intros [(p & ? & ? & ? & ? & E & _)|(? & ? & ?)]; [by destruct p|done].
  - split; [|done]. intros _. right. by exists y, b.
  - split; [done|]. intros [(p & ? & ? & ? & ? & _ & E & _)|(? & ? & ?)]; [by destruct p|done].
  - rewrite orb_true_iff, andb_true_iff, Z.ltb_lt, Z.eqb_eq, IH. split.
    + intros [Hlt|[-> [(p & u & v & r1 & r2 & -> & -> & Hlt)|(v & r & ->)]]].
      * left. by exists [], x, y, a, b.
      * left. by exists (y :: p), u, v, r1, r2.
      * right. by exists v, r.
    + intros [(p & u & v & r1 & r2 & Ea & Eb & Hlt)|(v & r & E)].
      * destruct p as [|z p]; simplify_eq/=; [by left|]. right. split; [done|]. left. by exists p, u, v, r1, r2.
      * injection E as -> ->. right. split; [done|]. right. by exists v, r.
Qed.

Lemma digits_not_empty z : is_empty (show z) = false.
Proof. pose proof (show_nonempty z). unfold is_empty. by destruct (String.eqb_spec (show z) ""). Qed.

Lemma collect_map_Some {A B} (f : A -> option B) (g : B -> A) l :
  Forall (fun x => f (g x) = Some x) l -> collect (map f (map g l)) = Some l.
Proof. induction 1 as [|x l Hx _ IH]; [done|]. simpl. by rewrite Hx, IH. Qed.

Lemma show_no_char c z : 0 <= z -> is_ascii_digit c = false -> contains_char c (show z) = false.
Proof. intros Hz Hc. by eapply forall_char_no_char; [apply show_digits|]. Qed.

Lemma split_dotted l : l <> [] -> Forall u64 l -> split_char "." (dotted l) = map show l.
Proof.
  intros Hne Hl. apply split_char_concat; [by destruct l|]. apply Forall_map.
  eapply Forall_impl; [exact Hl|]. intros z Hz. apply show_no_char; [apply Hz|done].
Qed.

Lemma dotted_no_v l : l <> [] -> Forall u64 l -> strip_prefix "v" (dotted l) = None.
Proof.
  intros Hne Hl. destruct (strip_prefix "v" (dotted l)) as [r|] eqn:E; [|done].
  apply strip_prefix_spec in E. destruct l as [|z l]; [done|].
  apply Forall_cons in Hl as [Hz _]. pose proof (show_no_char "v" z (proj1 Hz) eq_refl) as Hv.
  pose proof (show_nonempty z) as Hs. assert (exists c s t, show z = String c s /\ dotted (z :: l) = String c t) as (c & s & t & Ez & Ed).
  { unfold dotted. simpl. destruct (show z) as [|c s]; [done|]. destruct (map show l); eexists _, _, _; (split; [done|]); done. }
  rewrite Ez in Hv. simpl in Hv. rewrite Ed in E. injection E as -> _. by rewrite Ascii.eqb_refl in Hv.
Qed.

Lemma parse_version_dotted l : l <> [] -> Forall u64 l ->
  parse_version (dotted l) = Some l /\ parse_version ("v" +:+ dotted l) = Some l.
Proof.
  intros Hne Hl. unfold parse_version. rewrite dotted_no_v by done.
  assert (strip_prefix "v" ("v" +:+ dotted l) = Some (dotted l)) as -> by by apply strip_prefix_spec. simpl.
  rewrite split_dotted by done.
  assert (collect (map (fun p => if negb (is_empty p) && forall_char is_ascii_digit p then parse_uint U64_MAX p else None)
    (map show l)) = Some l); [|done].
  apply collect_map_Some. eapply Forall_impl; [exact Hl|]. intros z Hz. simpl.
  rewrite digits_not_empty, show_digits by apply Hz. simpl. by apply parse_uint_show.
Qed.

(** A version that is read has only digits and dots behind its [v]. *)
Definition version_char (c : ascii) : bool := is_ascii_digit c || Ascii.eqb c ".".

Lemma split_char_forall f c s :
  Forall (fun x => forall_char f x = true) (split_char c s) -> forall_char (fun a => f a || Ascii.eqb a c) s = true.
Proof.
  unfold forall_char. induction s as [|a s IH]; simpl; [done|].
  destruct (Ascii.eqb a c); [intros [_ Hs]%Forall_cons; by rewrite orb_true_r, IH|].
  destruct (split_char c s) as [|x xs] eqn:E; [by destruct (split_char_nonempty c s)|].
  intros [[Ha Hx]%andb_true_iff Hs]%Forall_cons. rewrite Ha. simpl. apply IH. by constructor.
Qed.

Lemma collect_Some {A B} (f : A -> option B) l r : collect (map f l) = Some r -> Forall (fun x => is_Some (f x)) l.
Proof.
  revert r. induction l as [|x l IH]; intros r; simpl; [by constructor|].
  destruct (f x) eqn:E; [|done]. destruct (collect (map f l)) eqn:E2; [|done]. intros _.
  constructor; [by eexists|by eapply IH].
Qed.

Lemma parse_version_plain v l :
  parse_version v = Some l -> forall_char version_char (default v (strip_prefix "v" v)) = true.
Proof.
  unfold parse_version. intros Hc%collect_Some. apply split_char_forall. eapply Forall_impl; [exact Hc|].
  intros p [x Hx]. simpl in Hx. destruct (negb (is_empty p)), (forall_char is_ascii_digit p); done.
Qed.

Definition spelled (v : bool) (l : list Z) : string := if v then ("v" +:+ dotted l)%string else dotted l.

(** Versions are compared as numbers, with or without a [v]: the candidate is newer exactly when
    at the first component where they differ it has the greater number, or it continues the current
    version; and only digits and dots after an optional [v] are ever newer. *)
Theorem version_is_newer_iff v1 v2 current candidate text other :
  current <> [] -> candidate <> [] -> Forall u64 current -> Forall u64 candidate ->
  (version_is_newer (spelled v1 current) (spelled v2 candidate) = true <-> newer current candidate) /\
  (version_is_newer other text = true -> forall_char version_char (default text (strip_prefix "v" text)) = true).
Proof.
  intros H1 H2 H3 H4. destruct (parse_version_dotted current H1 H3) as [E1 E2].
  destruct (parse_version_dotted candidate H2 H4) as [E3 E4]. split.
  - unfold version_is_newer, spelled. destruct v1, v2; rewrite ?E1, ?E2, ?E3, ?E4; apply vec_lt_newer.
  - unfold version_is_newer. destruct (parse_version other); [|done].
    destruct (parse_version text) as [r|] eqn:E; [|done]. intros _. by eapply parse_version_plain.
Qed.

(** ** The checksum file *)

(** A line of [sha256sum], in text or binary mode, and its file. *)
Record Sum := { sum_digest : list byte; sum_binary : bool; sum_name : string }.
Definition sum_line (x : Sum) : string :=
  (hex_encode (sum_digest x) +:+ " " +:+ (if sum_binary x then "*" else " ") +:+ sum_name x)%string.
Definition sum_file (l : list Sum) : string := foldr (fun x s => sum_line x +:+ String "010" s)%string EmptyString l.

(** A plain file name: visible ASCII, not empty, without a directory, not starting with [*]. *)
Definition plain_name (n : string) : Prop :=
  n <> EmptyString /\ forall_char visible n = true /\ contains_char "/" n = false /\ contains_char "\" n = false /\
  strip_prefix "*" n = None.
Definition sum_ok (x : Sum) : Prop := length (sum_digest x) = 32%nat /\ plain_name (sum_name x).

Lemma lines_app x s : contains_char "010" x = false -> contains_char "013" x = false ->
  lines (x +:+ String "010" s) = x :: lines s.
Proof.
  intros Hn Hr. unfold lines. rewrite split_char_app by done.
  assert (strip_cr x = x) as Hx by (unfold strip_cr; by rewrite rsplit_once_none).
  destruct (reverse (split_char "010" s)) as [|last init] eqn:E.
  { apply (f_equal reverse) in E. rewrite reverse_involutive in E. by destruct (split_char_nonempty "010" s). }
  rewrite reverse_cons, E. simpl. rewrite reverse_app. simpl. by rewrite Hx.
Qed.

Lemma split_space_app x s c : forall_char visible x = true -> is_space c = true ->
  split_space (x +:+ String c s) = Some (x, String c s).
Proof.
  intros Hx Hc. unfold forall_char in Hx. induction x as [|a x IH].
  - change ("" +:+ String c s) with (String c s). simpl. by rewrite Hc.
  - simpl in Hx. apply andb_true_iff in Hx as [Ha Hx].
    change (String a x +:+ String c s) with (String a (x +:+ String c s)). simpl.
    assert (is_space a = false) as ->; [|by rewrite IH].
    unfold visible in Ha. apply between_spec in Ha. unfold is_space. apply not_true_iff_false. 
    rewrite !orb_true_iff, !Z.eqb_eq. lia.
Qed.

Lemma base_name_plain n : contains_char "/" n = false -> contains_char "\" n = false -> base_name n = n.
Proof.
  destruct n as [|c n]; simpl; [done|]. intros [H1 H2]%orb_false_iff [H3 H4]%orb_false_iff.
  by rewrite H1, H2, H3, H4.
Qed.

Lemma hex_no_space_char c l : visible c = false -> contains_char c (hex_encode l) = false.
Proof. intros Hc. by eapply forall_char_no_char; [apply hex_visible|]. Qed.

Lemma sum_line_one_line x c : sum_ok x -> c = "010"%char \/ c = "013"%char -> contains_char c (sum_line x) = false.
Proof.
  intros (_ & _ & Hv & _) Hc. unfold sum_line.
  rewrite !contains_char_app, hex_no_space_char, (forall_char_no_char visible c (sum_name x)) by (by destruct Hc as [-> | ->]).
  by destruct Hc as [-> | ->], (sum_binary x).
Qed.

Lemma string_snoc n : n <> EmptyString -> forall_char visible n = true ->
  exists l z, String.list_ascii_of_string n = l ++ [z] /\ visible z = true.
Proof.
  intros Hne Hv. unfold forall_char in Hv. destruct (String.list_ascii_of_string n) as [|a l] eqn:E using rev_ind.
  - by destruct n.
  - exists l, a. split; [done|]. rewrite forallb_app in Hv. simpl in Hv.
    apply andb_true_iff in Hv as [_ Hv]. by apply andb_true_iff in Hv as [Hv _].
Qed.

Lemma trim_sum_line x : sum_ok x -> trim (sum_line x) = sum_line x.
Proof.
  intros (Hd & Hne & Hv & _). destruct (string_snoc _ Hne Hv) as (m & z & Em & Hz).
  assert (exists a t, sum_line x = String a t /\ visible a = true) as (a & t & Ea & Ha).
  { unfold sum_line. pose proof (hex_visible (sum_digest x)) as Hh. destruct (sum_digest x) as [|b bs]; [done|].
    simpl in *. eexists _, _. split; [done|]. unfold forall_char in Hh. simpl in Hh. by apply andb_true_iff in Hh as [? _]. }
  eapply (trim_ends _ a _ _ z); [by rewrite Ea|done| |done]. unfold sum_line. rewrite !list_ascii_app, Em, !app_assoc. done.
Qed.

Lemma is_prefix_char c a t : a <> c -> is_prefix (String c EmptyString) (String a t) = false.
Proof. intros Ha. unfold is_prefix. cbn [strip_prefix]. by destruct (Ascii.eqb_spec c a) as [->|]. Qed.

Lemma sum_line_hex x : sum_ok x -> exists a t, sum_line x = String a t /\ hex_char a = true.
Proof.
  intros (Hd & _). unfold sum_line. pose proof (hex_encode_chars (sum_digest x)) as Hh.
  destruct (sum_digest x) as [|b bs]; [done|]. cbn [hex_encode] in *. eexists _, _. split; [done|].
  unfold forall_char in Hh. cbn [String.list_ascii_of_string forallb] in Hh. by apply andb_true_iff in Hh as [? _].
Qed.

(** What stands behind the digest: a blank, the mode, the name. *)
Lemma name_of_rest (b : bool) n : plain_name n ->
  let rest := trim_start (String " " ((if b then "*" else " ") +:+ n)%string) in default rest (strip_prefix "*" rest) = n.
Proof.
  intros (Hne & Hv & _ & _ & Hst). unfold trim_start. destruct n as [|c n]; [done|].
  assert (visible c = true) as Hc by (unfold forall_char in Hv; simpl in Hv; by apply andb_true_iff in Hv as [? _]).
  assert (String.string_of_list_ascii (c :: String.list_ascii_of_string n) = String c n) as En.
  { simpl. f_equal. apply string_of_list_ascii_of. }
  assert (trim_start_l (c :: String.list_ascii_of_string n) = c :: String.list_ascii_of_string n) as Et by by apply trim_start_visible.
  assert (forall l, trim_start_l (" "%char :: l) = trim_start_l l) as Hb by done.
  cbv zeta. set (rest := String.string_of_list_ascii _). assert (rest = if b then String "*" (String c n) else String c n) as ->.
  { unfold rest. destruct b.
    - change (String.list_ascii_of_string _) with (" "%char :: "*"%char :: c :: String.list_ascii_of_string n).
      rewrite Hb, trim_start_visible by done. simpl. by rewrite string_of_list_ascii_of.
    - change (String.list_ascii_of_string _) with (" "%char :: " "%char :: c :: String.list_ascii_of_string n).
      by rewrite !Hb, Et. }
  destruct b; [done|by rewrite Hst].
Qed.

Lemma checksum_step x asset ls st : sum_ok x ->
  checksum_lines asset (sum_line x :: ls) st =
  if String.eqb (sum_name x) asset then
    match named st with
    | Some _ => Err ("checksum file lists " +:+ asset +:+ " more than once")%string
    | None => checksum_lines asset ls
                {| unnamed := unnamed st; named := Some (hex_encode (sum_digest x)); other_names := other_names st |}
    end
  else checksum_lines asset ls
         {| unnamed := unnamed st; named := named st; other_names := other_names st ++ [sum_name x] |}.
Proof.
  intros Hx. pose proof Hx as (Hd & Hne & Hv & Hs1 & Hs2 & Hst). cbn [checksum_lines]. rewrite trim_sum_line by done.
  assert (split_space (sum_line x) = Some (hex_encode (sum_digest x),
    String " " ((if sum_binary x then "*" else " ") +:+ sum_name x)%string)) as ->.
  { apply split_space_app; [apply hex_visible|done]. }
  destruct (sum_line_hex x Hx) as (a & t & Ea & Ha).
  assert (is_empty (sum_line x) || is_prefix "#" (sum_line x) = false) as ->.
  { rewrite Ea. apply is_prefix_char. by intros ->. }
  cbn [fst snd]. rewrite (name_of_rest (sum_binary x) (sum_name x)) by done.
  rewrite base_name_plain by done. unfold is_empty. by destruct (String.eqb_spec (sum_name x) "").
Qed.

(** The entries of a file with a given name. *)
Definition entries (asset : string) (l : list Sum) : list Sum := List.filter (fun x => String.eqb (sum_name x) asset) l.

Lemma checksum_named l : forall asset d others, Forall sum_ok l ->
  (exists others', checksum_lines asset (map sum_line l) {| unnamed := []; named := Some d; other_names := others |}
                   = Ok {| unnamed := []; named := Some d; other_names := others' |}) /\ entries asset l = [] \/
  is_ok (checksum_lines asset (map sum_line l) {| unnamed := []; named := Some d; other_names := others |}) = false /\
  entries asset l <> [].
Proof.
  induction l as [|x l IH]; intros asset d others Hl; [left; split; [by eexists|done]|].
  apply Forall_cons in Hl as [Hx Hl]. cbn [map]. rewrite checksum_step by done. simpl.
  destruct (String.eqb (sum_name x) asset); [by right|apply IH, Hl].
Qed.

Lemma checksum_unnamed l : forall asset others, Forall sum_ok l ->
  let r := checksum_lines asset (map sum_line l) {| unnamed := []; named := None; other_names := others |} in
  match entries asset l with
  | [] => exists others', r = Ok {| unnamed := []; named := None; other_names := others' |}
  | [x] => exists others', r = Ok {| unnamed := []; named := Some (hex_encode (sum_digest x)); other_names := others' |}
  | _ => is_ok r = false
  end.
Proof.
  induction l as [|x l IH]; intros asset others Hl; [by eexists|].
  apply Forall_cons in Hl as [Hx Hl]. cbn [map]. rewrite checksum_step by done. simpl.
  destruct (String.eqb (sum_name x) asset) eqn:E; [|apply (IH asset), Hl].
  destruct (checksum_named l asset (hex_encode (sum_digest x)) others Hl) as [[Ho He]|[Ho He]].
  - change (List.filter _ l) with (entries asset l). by rewrite He.
  - change (List.filter _ l) with (entries asset l). by destruct (entries asset l).
Qed.

Lemma lines_sum_file l : Forall sum_ok l -> lines (sum_file l) = map sum_line l.
Proof.
  induction 1 as [|x l Hx _ IH]; [done|]. simpl sum_file. simpl map.
  rewrite lines_app, IH by (apply sum_line_one_line; auto). done.
Qed.

Lemma find_not_hex_none s : forall_char hex_char s = true -> find_not_hex s = None.
Proof.
  unfold forall_char. induction s as [|c s IH]; simpl; [done|]. intros [Hc Hs]%andb_true_iff. rewrite (IH Hs).
  unfold is_ascii_hexdigit, is_ascii_digit. apply orb_true_iff in Hc as [-> | ->]; [done|by rewrite orb_true_r].
Qed.

Lemma decode_sha256_hex_encode d : length d = 32%nat -> decode_sha256_hex (hex_encode d) = Ok d.
Proof.
  intros Hd. unfold decode_sha256_hex, decode_hex_32, str_len. rewrite hex_encode_length, Hd. simpl.
  by rewrite find_not_hex_none, hex_decode_encode by (done || apply hex_encode_chars).
Qed.

(** What [sha256sum] wrote is read back: the digest of an asset is found exactly when one line
    of the file names it, whatever files the other lines are about; a file without it, or with two
    lines for it, is refused. *)
Theorem checksum_reads_back l asset d :
  Forall sum_ok l -> parse_sha256_file (sum_file l) asset = Ok d <-> map sum_digest (entries asset l) = [d].
Proof.
  intros Hl. unfold parse_sha256_file. rewrite lines_sum_file by done.
  pose proof (checksum_unnamed l asset [] Hl) as Hc. cbv zeta in Hc.
  assert (Forall sum_ok (entries asset l)) as He.
  { apply Forall_forall. intros x Hx%list_elem_of_In%filter_In. rewrite Forall_forall in Hl. apply Hl, list_elem_of_In, Hx. }
  destruct (entries asset l) as [|x [|y r]].
  - destruct Hc as [o ->]. simpl. by case_bool_decide.
  - destruct Hc as [o ->]. apply Forall_singleton in He as [Hd _]. simpl. rewrite decode_sha256_hex_encode by done. naive_solver.
  - destruct (checksum_lines _ _ _); [done|]. by simpl.
Qed.

(** ** Downloads *)

Lemma read_chunks_Ok url max l : forall body out, Zlen body <= max ->
  read_chunks url max body l = Ok out <->
  exists parts, l = map Ok parts /\ out = body ++ concat parts /\ Zlen out <= max.
Proof.
  induction l as [|[c|e] l IH]; intros body out Hb; simpl.
  - split; [intros [= <-]; exists []; by rewrite app_nil_r|]. intros ([|p ps] & [=] & -> & _). by rewrite app_nil_r.
  - destruct (Z.ltb_spec max (Zlen body + Zlen c)) as [Hlt|Hle].
    + split; [done|]. intros ([|p ps] & [= <- ->] & -> & Ho). exfalso. simpl in Ho. rewrite !length_app in Ho. lia.
    + rewrite IH by (rewrite length_app; lia). split.
      * intros (ps & -> & -> & Ho). exists (c :: ps). by rewrite <-app_assoc in *.
      * intros ([|p ps] & [= <- ->] & -> & Ho). exists ps. by rewrite <-app_assoc.
  - split; [done|]. by intros ([|p ps] & [=] & _).
Qed.

(** A download is accepted exactly when the announced length, if there is one, and the whole
    body are within the cap and no chunk failed; what is returned is the body, in order. *)
Theorem read_body_capped_iff r url max body :
  0 <= max ->
  read_body_capped r url max = Ok body <->
  (forall len, content_length r = Some len -> len <= max) /\
  exists parts, chunks r = map Ok parts /\ body = concat parts /\ Zlen body <= max.
Proof.
  intros Hmax. unfold read_body_capped. pose proof (read_chunks_Ok url max (chunks r) [] body Hmax) as Hr.
  destruct (content_length r) as [len|]; [destruct (Z.ltb_spec max len)|].
  - split; [done|]. intros [Hl _]. specialize (Hl len eq_refl). lia.
  - rewrite Hr. naive_solver.
  - rewrite Hr. naive_solver.
Qed.

(** ** A concrete release *)

(** Toy primitives: keys are their bytes, a digest is the number the bytes spell, a signature of 64
    bytes is the key and the digest, base64 is hexadecimal, and one manifest is known. *)
Definition demo_manifest_bytes : list byte := map to_u8 [123; 125].
Definition toy_digest (l : list byte) : list byte := be_bytes 32 (be_value l).
Definition demo_binary : list byte := map to_u8 [127; 69; 76; 70].
Definition demo_manifest : ReleaseManifest :=
  {| schema := 1; tag := "v0.7.12"; created_at := 0; assets := [("ct-agent-linux-x86_64"%string, hex_encode (toy_digest demo_binary))] |}.
#[local] Instance Toy : UpdateOps := {
  Key := list byte;
  key_from_bytes := fun b => Ok b;
  verify_strict := fun k msg s => bool_decide (s = k ++ toy_digest msg);
  sha256 := toy_digest;
  base64_decode := fun s => ok_or (hex_decode 64 s) "Invalid byte"%string;
  parse_json := fun b => if decide (b = demo_manifest_bytes) then Ok demo_manifest else Err "expected value"%string
}.

Definition demo_key : list byte := default [] (hex_decode 32 "73706122db4e9186743ab3aabdf55d80ecf7f08ddc6c5243c9887f7d9bcc9a78").
Definition answer (bytes : list byte) : Response :=
  {| status := 200; status_text := "200 OK"; content_length := Some (Zlen bytes); chunks := [Ok bytes];
     body_text := Ok (String.string_of_list_byte bytes) |}.
Definition demo_tag_json : string := (String quote "tag_name" +:+ String quote ": " +:+ String quote "v0.7.12" +:+ String quote "")%string.
(** The web with one release, whose signature is [sig]. *)
Definition demo_web (sig : list byte) (url : string) : result Response string :=
  let base := "https://github.com/scimbe/ct-agent/releases/download/v0.7.12/"%string in
  if String.eqb url RELEASES_API then Ok (answer (as_bytes demo_tag_json))
  else if String.eqb url (base +:+ "ct-agent-linux-x86_64.sha256")%string then
    Ok (answer (as_bytes (sum_file [{| sum_digest := toy_digest demo_binary; sum_binary := false; sum_name := "ct-agent-linux-x86_64" |}])))
  else if String.eqb url (base +:+ "release-manifest.json")%string then Ok (answer demo_manifest_bytes)
  else if String.eqb url (base +:+ "release-manifest.sig")%string then Ok (answer (as_bytes (hex_encode sig)))
  else if String.eqb url (base +:+ "ct-agent-linux-x86_64")%string then Ok (answer demo_binary)
  else Err "connection refused"%string.
Definition demo_host : Host :=
  {| os := "linux"; arch := "x86_64"; environment := fun _ => None;
     current_exe := Ok {| exe_path := "/opt/agent.key"; exe_dir := Some "/opt"%string; exe_name := "agent.key" |};
     client_built := Ok tt |}.

(** A forged signature changes nothing; the true one lets the file in. *)
Example demo_forged :
  let '(exits, notes, w) := auto_update_turn (demo_web (demo_key ++ toy_digest demo_binary)) demo_host "0.7.9" (demo_world []) in
  exits = false /\ history w = [] /\ length notes = 5%nat.
Proof. vm_compute. done. Qed.

Lemma auto_update_is_safe_witness :
  disk_ok demo_disk /\
  exists notes w', auto_update_turn (demo_web (demo_key ++ toy_digest demo_manifest_bytes)) demo_host "0.7.9" (demo_world []) = (true, notes, w') /\
    outcome (demo_world []) w' "agent.key"
      (fun bytes => exists latest asset, version_is_newer "0.7.9" latest = true /\
         asset_name_for_platform "linux" "x86_64" = Ok asset /\ authentic demo_host latest asset bytes) true.
Proof.
  split; [exact demo_disk_ok|].
  destruct (auto_update_turn (demo_web (demo_key ++ toy_digest demo_manifest_bytes)) demo_host "0.7.9" (demo_world []))
    as [[exits notes] w'] eqn:E.
  assert (exits = true) as -> by (apply (f_equal (fun p => fst (fst p))) in E; vm_compute in E; done).
  exists notes, w'. split; [done|].
  refine (auto_update_is_safe _ demo_host "0.7.9" _ (demo_world []) true notes w' demo_disk_ok eq_refl eq_refl eq_refl _ E).
  intros asset [= <-]. split; by vm_compute.
Defined.

Lemma version_is_newer_iff_witness :
  version_is_newer "0.7.9" "v0.7.12" = true /\ newer [0; 7; 9] [0; 7; 12].
Proof.
  split; [reflexivity|].
  apply (version_is_newer_iff false true [0; 7; 9] [0; 7; 12] "" ""); [done..| | |reflexivity];
    repeat (constructor; [unfold u64, U64_MAX; lia|]); by constructor.
Defined.

Lemma checksum_reads_back_witness :
  let l := [ {| sum_digest := toy_digest demo_binary; sum_binary := false; sum_name := "ct-agent" |};
             {| sum_digest := toy_digest demo_manifest_bytes; sum_binary := true; sum_name := "ct-agent-supervisor" |} ] in
  parse_sha256_file (sum_file l) "ct-agent-supervisor" = Ok (toy_digest demo_manifest_bytes).
Proof.
  intros l. apply checksum_reads_back; [|reflexivity].
  repeat constructor; try discriminate; reflexivity.
Defined.

Lemma read_body_capped_iff_witness :
  read_body_capped (answer demo_binary) "u" 4 = Ok demo_binary.
Proof.
  apply (read_body_capped_iff (answer demo_binary) "u" 4 demo_binary); [lia|]. split; [by intros len [= <-]|].
  by exists [demo_binary].
Defined.
