(* ===== verification/DirectConnect.v ===== *)
(** * DirectConnect: who may use the direct path ([serve.rs])

    Clients that reach the agent without the edge: the routing token in the Noise handshake, what the
    agent believes about its revocation, the deadline for everything before a peer is authenticated,
    one session up to the Origin, the UDP bridge, and the listener with its cap.  Noise and the pump
    of ct-common are parameters; the gate is [LocalAuth]'s.  Instants are nanoseconds. *)
From S2P Require Import Prelude Text Codec Net ShareLinks LocalAuth.

#[local] Open Scope Z_scope.

(** ** The token in the handshake *)

(** ct-common's tag and length, as the table on [DirectHandshakePayload] states them. *)
Definition DIRECT_HS_PAYLOAD_TOKEN_V1 : Z := 1.
Definition DIRECT_HS_PAYLOAD_TOKEN_V1_LEN : Z := 33.
Definition DIRECT_TOKEN_MIN_CLIENT : string := "CADS-Tunnel v0.4.20".

Notation RoutingToken := (list byte) (only parsing).
Inductive DirectHandshakePayload := Legacy | Token (t : RoutingToken) | Malformed.

Definition parse_direct_handshake_payload (payload : list byte) : DirectHandshakePayload :=
  match payload with
  | b :: rest =>
      if u8 b =? DIRECT_HS_PAYLOAD_TOKEN_V1 then
        if negb (Zlen payload =? DIRECT_HS_PAYLOAD_TOKEN_V1_LEN) then Malformed else Token rest
      else Legacy
  | [] => Legacy
  end.

Definition DIRECT_REFUSED_MISMATCH : string := "ct-agent: direct-connect refused: routing token does not match this tunnel (#45)".
Definition DIRECT_REFUSED_MISSING : string := "ct-agent: direct-connect refused: handshake carried no routing token, which is required (default since #291; ct-clients built before CADS-Tunnel v0.4.20 send none -- update the client) (#45)".
Definition DIRECT_REFUSED_MALFORMED : string := "ct-agent: direct-connect refused: malformed routing-token handshake payload (#45)".
Definition DIRECT_REFUSED_REVOKED : string := "ct-agent: direct-connect refused: this tunnel's token is revoked at the plane (#45)".

Inductive DirectTokenDecision := Serve | ServeLegacy | RefuseMismatch | RefuseMissing | RefuseMalformed | RefuseRevoked.
Definition refusal_line (d : DirectTokenDecision) : option string :=
  match d with
  | Serve | ServeLegacy => None
  | RefuseMismatch => Some DIRECT_REFUSED_MISMATCH
  | RefuseMissing => Some DIRECT_REFUSED_MISSING
  | RefuseMalformed => Some DIRECT_REFUSED_MALFORMED
  | RefuseRevoked => Some DIRECT_REFUSED_REVOKED
  end.

(** ** What the registrations say about the token *)

(** [RevocationView]: set when the token is believed revoked; both answer whether the flag moved. *)
Notation RevocationView := bool (only parsing).
Definition view_set (v : RevocationView) : bool * RevocationView := (negb v, true).
Definition view_clear (v : RevocationView) : bool * RevocationView := (v, false).

Inductive RegistrationOutcome := Succeeded | RefusedDefinitive | RefusedAmbiguous | Transient.
#[global] Instance RegistrationOutcome_eq_dec : EqDecision RegistrationOutcome.
Proof. solve_decision. Defined.
Definition AMBIGUOUS_REFUSALS_BEFORE_REVOKED : Z := 3.

Inductive RevocationTransition := Revoked | Restored.
Definition REVOCATION_LOG_REVOKED : string := "ct-agent: this tunnel's routing token is REVOKED at the plane (the edge refuses its registration) -- direct-connect handshakes are refused until a registration is accepted again (#45)".
Definition REVOCATION_LOG_RESTORED : string := "ct-agent: this tunnel's routing token registered at the edge again -- direct-connect handshakes resume (#45)".
Definition log_line (t : RevocationTransition) : string :=
  match t with Revoked => REVOCATION_LOG_REVOKED | Restored => REVOCATION_LOG_RESTORED end.

(** [RevocationTracker]: the refusals one registration loop counted; the view is shared. *)
Notation RevocationTracker := Z (only parsing).
Definition apply (outcome : RegistrationOutcome) (ambiguous : RevocationTracker) (view : RevocationView)
  : option RevocationTransition * RevocationTracker * RevocationView :=
  match outcome with
  | Succeeded => let '(moved, view) := view_clear view in (if moved then Some Restored else None, 0, view)
  | RefusedDefinitive => let '(moved, view) := view_set view in (if moved then Some Revoked else None, 0, view)
  | RefusedAmbiguous =>
      let ambiguous := Z.min U32_MAX (ambiguous + 1) in
      if AMBIGUOUS_REFUSALS_BEFORE_REVOKED <=? ambiguous then
        let '(moved, view) := view_set view in (if moved then Some Revoked else None, ambiguous, view)
      else (None, ambiguous, view)
  | Transient => (None, ambiguous, view)
  end.
(** [note]: the line it logs. *)
Definition note (outcome : RegistrationOutcome) (ambiguous : RevocationTracker) (view : RevocationView)
  : option string * RevocationTracker * RevocationView :=
  let '(t, ambiguous, view) := apply outcome ambiguous view in (log_line <$> t, ambiguous, view).

Definition classify_failure (is_registration_refusal definitive : bool) : RegistrationOutcome :=
  if negb is_registration_refusal then Transient else if definitive then RefusedDefinitive else RefusedAmbiguous.

(** ** The policy *)

Record DirectTokenPolicy := { own_token : RoutingToken; require_token : bool; debug : bool }.

Definition startup_line (p : DirectTokenPolicy) : string :=
  if require_token p then
    ("ct-agent: direct-connect routing-token check: REQUIRED (default since #291) -- a direct client must present this tunnel's routing token; one that sends none (a ct-client built before "
     +:+ DIRECT_TOKEN_MIN_CLIENT
     +:+ ") is refused on the direct path. CT_DIRECT_REQUIRE_TOKEN=0 is the opt-out (#45)")%string
  else
    ("ct-agent: WARNING: direct-connect routing-token check is OFF (CT_DIRECT_REQUIRE_TOKEN opt-out, #291) -- a direct client that sends no token is served (counted as direct_legacy_served), so knowing the Origin Identity that every capability carries is enough: cutting off a former capability holder takes an Origin-key rotation, not a token rotation. A presented token must still match. Remove the opt-out once no ct-client built before "
     +:+ DIRECT_TOKEN_MIN_CLIENT +:+ " is left (#45)")%string.

Definition routing_token_eq_ct (a b : RoutingToken) : bool := ct_eq a b.

Definition decide_direct (p : DirectTokenPolicy) (revoked : RevocationView) (payload : DirectHandshakePayload) : DirectTokenDecision :=
  if revoked then RefuseRevoked
  else match payload with
       | Token t => if routing_token_eq_ct t (own_token p) then Serve else RefuseMismatch
       | Legacy => if require_token p then RefuseMissing else ServeLegacy
       | Malformed => RefuseMalformed
       end.

Inductive Effect :=
| DirectRefusedEvent (line : string) | DirectLegacyServedEvent | DebugLegacyLine
| TunnelsFailed | TunnelsOpened | Message2Sent (bytes : list byte) | OriginDialed | PrefixToOrigin (bytes : list byte)
| Pumped.

(** The answer, and the events offered to the peer-triggered budget of [events.rs]. *)
Definition check_direct_token (policy : option DirectTokenPolicy) (revoked : RevocationView) (payload : list byte)
  : result unit DirectTokenDecision * list Effect :=
  match policy with
  | None => (Ok tt, [])
  | Some p =>
      let decision := decide_direct p revoked (parse_direct_handshake_payload payload) in
      match refusal_line decision with
      | Some line => (Err decision, [DirectRefusedEvent line])
      | None =>
          (Ok tt, match decision with
                  | ServeLegacy => DirectLegacyServedEvent :: if debug p then [DebugLegacyLine] else []
                  | _ => []
                  end)
      end
  end.

(** ** Before the peer is authenticated *)

(** One await on a stream half: when its last poll finds it ready, and the result.  Under a
    deadline the poll at the deadline fails instead: [PreAuth]. *)
Definition Await (A : Type) : Type := Z * result A string.
Definition preauth_timed_out : string := "direct connection not authenticated in time".
Definition preauth {A} (deadline : option Z) (io : Await A) : Await A :=
  match deadline with
  | Some d => if d <=? io.1 then (d, Err preauth_timed_out) else io
  | None => io
  end.

(** Noise of ct-common: a handshake under one of the Origin's keys reads message 1 and its payload. *)
Class NoiseOps := {
  Handshake : Type;
  read_message1 : list byte -> list byte -> option (Handshake * list byte);
  write_message2 : Handshake -> result (list byte) string;
  Transport : Type;
  into_transport_mode : Handshake -> result Transport string;
  decrypt : Transport -> list byte -> result (list byte) string * Transport;
  encrypt : Transport -> list byte -> result (list byte) string * Transport
}.

(** [ct_common::noise::frame]: a two-byte length. *)
Definition frame (body : list byte) : list byte := be_bytes 2 (Zlen body) ++ body.

Inductive ServeError := DirectConnectRefused (d : DirectTokenDecision) | Failed (text : string).

Section Noise.
Context `{NoiseOps} `{LinkOps} `{AuthOps}.

Fixpoint origin_handshake_any_with_payload (candidates : list (list byte)) (msg1 : list byte) : option (Handshake * list byte) :=
  match candidates with
  | [] => None
  | key :: candidates =>
      match read_message1 key msg1 with
      | Some x => Some x
      | None => origin_handshake_any_with_payload candidates msg1
      end
  end.

(** What the world answers during one session: message 1, the writing of message 2, the gate's
    client and the times of its two awaits, the dial of the Origin, the write of the prefix and the
    pump's end. *)
Record Session := {
  msg1 : Await (list byte); msg2_written : Await unit; client : Client; gate_read_at : Z; gate_written_at : Z;
  origin : result unit string; prefix_written : result unit string; pump : result unit string
}.
Definition preauth_client (deadline : option Z) (s : Session) : Client :=
  {| message := (preauth deadline (gate_read_at s, message (client s))).2;
     answer := fun text => (preauth deadline (gate_written_at s, answer (client s) text)).2;
     io := io (client s); unix_now := unix_now (client s); asked_at := asked_at (client s);
     recorded_at := recorded_at (client s); drawn := drawn (client s) |}.

Definition fail (e : result unit string) : result unit ServeError := map_err Failed e.

Definition serve_noise_stream_with_policy (s : Session) (origin_keys : list (list byte)) (g : LocalAuthGate) (d : Disk)
    (direct_policy : option DirectTokenPolicy) (revoked : RevocationView) (preauth_deadline : option Z)
  : result unit ServeError * LocalAuthGate * Disk * list Effect :=
  match (preauth preauth_deadline (msg1 s)).2 with
  | Err e => (Err (Failed e), g, d, [TunnelsFailed])
  | Ok m1 =>
      match origin_handshake_any_with_payload origin_keys m1 with
      | None => (Err (Failed "no origin identity matched the client handshake"), g, d, [TunnelsFailed])
      | Some (hs, hs_payload) =>
          match check_direct_token direct_policy revoked hs_payload with
          | (Err refused, ev) => (Err (DirectConnectRefused refused), g, d, ev ++ [TunnelsFailed])
          | (Ok _, ev) =>
              match (let* m2 := write_message2 hs in
                     let* _ := (preauth preauth_deadline (msg2_written s)).2 in Ok m2) with
              | Err e => (Err (Failed e), g, d, ev ++ [TunnelsFailed])
              | Ok m2 =>
                  let ev := ev ++ [Message2Sent (frame m2)] in
                  match into_transport_mode hs with
                  | Err e => (Err (Failed e), g, d, ev ++ [TunnelsFailed])
                  | Ok _ =>
                      let ev := ev ++ [TunnelsOpened] in
                      let '(outcome, g, d, _) := run_local_auth_gate (preauth_client preauth_deadline s) g d in
                      match outcome with
                      | Err e => (Err (Failed e), g, d, ev)
                      | Ok Closed => (Ok tt, g, d, ev)
                      | Ok (Proceed gate_prefix) =>
                          match origin s with
                          | Err e => (Err (Failed e), g, d, ev)
                          | Ok _ =>
                              let ev := ev ++ [OriginDialed] in
                              match gate_prefix with
                              | Some prefix =>
                                  match prefix_written s with
                                  | Err e => (Err (Failed e), g, d, ev)
                                  | Ok _ => (fail (pump s), g, d, ev ++ [PrefixToOrigin prefix; Pumped])
                                  end
                              | None => (fail (pump s), g, d, ev ++ [Pumped])
                              end
                          end
                      end
                  end
              end
          end
      end
  end.

(** *** The UDP bridge *)

(** What completes first while both directions run: a frame from the client and the send of its
    datagram, or a datagram from the Origin and the write of its frame. *)
Inductive UdpEvent :=
| FrameRead (body : result (list byte) string) (sent : result unit string)
| DatagramRead (datagram : result (list byte) string) (written : result unit string).
Record Bridge := { ts : Transport; to_origin : list (list byte); to_client : list (list byte) }.

(** The end of the bridge, or the bridge after the event. *)
Definition udp_event (ev : UdpEvent) (b : Bridge) : result unit string + Bridge :=
  match ev with
  | FrameRead (Err _) _ => inl (Ok tt)
  | FrameRead (Ok fr) sent =>
      match decrypt (ts b) fr with
      | (Err e, _) => inl (Err e)
      | (Ok plain, ts) =>
          match sent with
          | Err e => inl (Err e)
          | Ok _ => inr {| ts := ts; to_origin := to_origin b ++ [plain]; to_client := to_client b |}
          end
      end
  | DatagramRead (Err e) _ => inl (Err e)
  | DatagramRead (Ok dgram) written =>
      match encrypt (ts b) dgram with
      | (Err e, _) => inl (Err e)
      | (Ok ct, ts) =>
          match written with
          | Err e => inl (Err e)
          | Ok _ => inr {| ts := ts; to_origin := to_origin b; to_client := to_client b ++ [frame ct] |}
          end
      end
  end.
Fixpoint udp_bridge (l : list UdpEvent) (b : Bridge) : option (result unit string) * Bridge :=
  match l with
  | [] => (None, b)
  | ev :: l => match udp_event ev b with inl r => (Some r, b) | inr b => udp_bridge l b end
  end.

(** The part of [serve_noise_udp_with_policy] before the bridge; [bound]: the socket. *)
Definition serve_noise_udp_with_policy (s : Session) (origin_keys : list (list byte))
    (direct_policy : option DirectTokenPolicy) (revoked : RevocationView) (preauth_deadline : option Z)
    (bound : result unit string) (l : list UdpEvent) : option (result unit ServeError) * list Effect * option Bridge :=
  match (preauth preauth_deadline (msg1 s)).2 with
  | Err e => (Some (Err (Failed e)), [], None)
  | Ok m1 =>
      match origin_handshake_any_with_payload origin_keys m1 with
      | None => (Some (Err (Failed "no origin identity matched the client handshake")), [], None)
      | Some (hs, hs_payload) =>
          match check_direct_token direct_policy revoked hs_payload with
          | (Err refused, ev) => (Some (Err (DirectConnectRefused refused)), ev, None)
          | (Ok _, ev) =>
              match (let* m2 := write_message2 hs in
                     let* _ := (preauth preauth_deadline (msg2_written s)).2 in Ok m2) with
              | Err e => (Some (Err (Failed e)), ev, None)
              | Ok m2 =>
                  let ev := ev ++ [Message2Sent (frame m2)] in
                  match (let* ts := into_transport_mode hs in let* _ := bound in Ok ts) with
                  | Err e => (Some (Err (Failed e)), ev, None)
                  | Ok ts =>
                      let '(r, b) := udp_bridge l {| ts := ts; to_origin := []; to_client := [] |} in
                      (fail <$> r, ev ++ [OriginDialed], Some b)
                  end
              end
          end
      end
  end.
End Noise.

(** ** The listener *)

Record DirectLimits := { max_connections : nat; setup_timeout : Z; linger : Z }.
Definition DEFAULT : DirectLimits := {| max_connections := 256; setup_timeout := 10 * SECOND; linger := 30 * SECOND |}.
Definition DIRECT_REFUSED_CLOSE_CODE : Z := 1.

(** The deadline of a connection's setup, and whether it was met. *)
Definition setup_deadline (limits : DirectLimits) (accepted_at : Z) : Z := accepted_at + setup_timeout limits.
Definition setup_within {A} (deadline : Z) (setup : Z * option A) : option A :=
  if setup.1 <=? deadline then setup.2 else None.

(** How a connection ends after its session ended at [ended_at]: when, and the agent's own close. *)
Definition close_connection (limits : DirectLimits) (served : result unit ServeError) (ended_at client_closes_at : Z)
  : Z * option (Z * string) :=
  match served with
  | Err (DirectConnectRefused _) => (ended_at, Some (DIRECT_REFUSED_CLOSE_CODE, "direct-connect refused (#45)"%string))
  | Err (Failed _) => (ended_at, Some (0, "failed"%string))
  | Ok _ =>
      if client_closes_at <=? ended_at + linger limits then (Z.max ended_at client_closes_at, None)
      else (ended_at + linger limits, Some (0, "served"%string))
  end.

(** The accept loop: the tasks that run, the ones that ended and were not reaped, the counter of
    refused connections, the last time it was logged and the lines. *)
Record Listener := { running : nat; ended : nat; refused_total : Z; last_logged : Z; lines : list string }.
Definition listener0 : Listener := {| running := 0; ended := 0; refused_total := 0; last_logged := 0; lines := [] |}.

Definition note_direct_refused_at_capacity (max : nat) (now : Z) (l : Listener) : Listener :=
  let total := wrap 64 (refused_total l + 1) in
  if last_logged l + 60 <=? now then
    {| running := running l; ended := ended l; refused_total := total; last_logged := now;
       lines := lines l ++ [("ct-agent: direct listener at its connection cap (" +:+ show (Z.of_nat max)
         +:+ "); refusing new direct connections (" +:+ show total
         +:+ " refused so far, ct_agent_direct_refused_at_capacity_total)")%string] |}
  else {| running := running l; ended := ended l; refused_total := total; last_logged := last_logged l; lines := lines l |}.

Inductive ListenerEvent := Incoming (now : Z) | TaskJoined | TaskEnded.

(** [TaskEnded]: a connection's task ends, by itself; the other two are the loop's branches. *)
Definition listener_event (limits : DirectLimits) (ev : ListenerEvent) (l : Listener) : option Listener :=
  match ev with
  | TaskEnded =>
      match running l with
      | S n => Some {| running := n; ended := S (ended l); refused_total := refused_total l;
                       last_logged := last_logged l; lines := lines l |}
      | O => None
      end
  | TaskJoined =>
      match ended l with
      | S n => Some {| running := running l; ended := n; refused_total := refused_total l;
                       last_logged := last_logged l; lines := lines l |}
      | O => None
      end
  | Incoming now =>
      let l := {| running := running l; ended := 0; refused_total := refused_total l;
                  last_logged := last_logged l; lines := lines l |} in
      if (max_connections limits <=? running l + ended l)%nat then
        Some (note_direct_refused_at_capacity (max_connections limits) now l)
      else Some {| running := S (running l); ended := 0; refused_total := refused_total l;
                   last_logged := last_logged l; lines := lines l |}
  end.
Fixpoint listen (limits : DirectLimits) (l : Listener) (evs : list ListenerEvent) : option Listener :=
  match evs with
  | [] => Some l
  | ev :: evs => let? l := listener_event limits ev l in listen limits l evs
  end.

(** ** Who is admitted *)

Lemma parse_token payload t :
  parse_direct_handshake_payload payload = Token t <-> payload = to_u8 1 :: t /\ length t = 32%nat.
Proof.
  unfold parse_direct_handshake_payload. destruct payload as [|b rest]; [naive_solver|].
  unfold DIRECT_HS_PAYLOAD_TOKEN_V1, DIRECT_HS_PAYLOAD_TOKEN_V1_LEN. destruct (Z.eqb_spec (u8 b) 1) as [Hb|Hb].
  - assert (b = to_u8 1) as -> by (apply u8_inj; by rewrite Hb).
    destruct (Z.eqb_spec (Zlen (to_u8 1 :: rest)) 33) as [Hl|Hl]; cbn [negb length] in *.
    + split; [intros [= <-]; split; [done|lia]|]. by intros [[= <-] _].
    + split; [done|]. intros [[= <-] Ht]. lia.
  - split; [done|]. intros [[= -> _] _]. done.
Qed.

(** Empty, or under another tag: no token. *)
Definition no_token (payload : list byte) : Prop := match payload with [] => True | b :: _ => u8 b <> 1 end.

Lemma parse_legacy payload : parse_direct_handshake_payload payload = Legacy <-> no_token payload.
Proof.
  unfold parse_direct_handshake_payload, no_token, DIRECT_HS_PAYLOAD_TOKEN_V1. destruct payload as [|b rest]; [done|].
  destruct (Z.eqb_spec (u8 b) 1); [|done]. split; [by destruct (negb _)|done].
Qed.

(** On the direct path: not revoked, and this tunnel's own token; or none, if none is required. *)
Definition admitted (policy : option DirectTokenPolicy) (revoked : RevocationView) (payload : list byte) : Prop :=
  match policy with
  | None => True
  | Some p =>
      revoked = false /\
      (payload = to_u8 1 :: own_token p /\ length (own_token p) = 32%nat \/ no_token payload /\ require_token p = false)
  end.

Lemma check_direct_token_Ok policy revoked payload :
  (check_direct_token policy revoked payload).1 = Ok tt <-> admitted policy revoked payload.
Proof.
  unfold check_direct_token, admitted. destruct policy as [p|]; [|done]. unfold decide_direct, routing_token_eq_ct.
  destruct revoked; [naive_solver|].
  pose proof (parse_token payload) as Ht. pose proof (parse_legacy payload) as Hl.
  destruct (parse_direct_handshake_payload payload) as [|t|].
  - assert (no_token payload) as Hn by by apply Hl. destruct (require_token p); simpl; [|naive_solver].
    split; [done|]. intros [_ [[-> Hp]|[_ ?]]]; [|done]. by destruct (proj2 (Ht (own_token p)) (conj eq_refl Hp)).
  - destruct (proj1 (Ht t) eq_refl) as [-> Hlen]. destruct (ct_eq t (own_token p)) eqn:Ec; simpl.
    + apply ct_eq_spec in Ec as <-. naive_solver.
    + split; [done|]. intros [_ [[[= ->] _]|[Hn _]]]; [|by destruct Hn].
      by rewrite (proj2 (ct_eq_spec _ _) eq_refl) in Ec.
  - split; [done|]. intros [_ [[-> Hp]|[Hn _]]]; [|by apply Hl in Hn].
    discriminate (proj2 (Ht (own_token p)) (conj eq_refl Hp)).
Qed.

(** Nothing of the check itself reaches the Origin or completes the handshake. *)
Lemma check_direct_token_quiet policy revoked payload e :
  e ∈ (check_direct_token policy revoked payload).2 -> e <> OriginDialed /\ forall m, e <> Message2Sent m.
Proof.
  unfold check_direct_token. destruct policy as [p|]; simpl; [|by intros ?%not_elem_of_nil].
  destruct (decide_direct p revoked _); simpl; rewrite ?elem_of_cons, ?elem_of_nil; try naive_solver.
  destruct (debug p); rewrite ?elem_of_cons, ?elem_of_nil; naive_solver.
Qed.

Definition in_time {A} (deadline : option Z) (io : Await A) (a : A) : Prop :=
  io.2 = Ok a /\ forall d, deadline = Some d -> io.1 < d.

Lemma preauth_Ok {A} deadline (io : Await A) a : (preauth deadline io).2 = Ok a <-> in_time deadline io a.
Proof.
  unfold preauth, in_time. destruct deadline as [d|]; [|naive_solver].
  destruct (Z.leb_spec d io.1); simpl; [|naive_solver]. split; [done|]. intros [_ Hd]. specialize (Hd d eq_refl). lia.
Qed.

Section Sessions.
Context `{NoiseOps} `{LinkOps} `{AuthOps}.

(** The handshake is completed: in time, under one of the Origin's keys, by an admitted client. *)
Definition handshaken (s : Session) (keys : list (list byte)) (policy : option DirectTokenPolicy) (revoked : RevocationView)
    (deadline : option Z) (m2 : list byte) : Prop :=
  exists m1 hs payload, in_time deadline (msg1 s) m1 /\
    origin_handshake_any_with_payload keys m1 = Some (hs, payload) /\ admitted policy revoked payload /\
    write_message2 hs = Ok m2 /\ in_time deadline (msg2_written s) tt /\ is_ok (into_transport_mode hs) = true.

(** What a session did before the gate: failed with its effects, or completed the handshake. *)
Definition before_gate (s : Session) (keys : list (list byte)) (policy : option DirectTokenPolicy) (revoked : RevocationView)
    (deadline : option Z) : result (list byte) ServeError * list Effect :=
  match (preauth deadline (msg1 s)).2 with
  | Err e => (Err (Failed e), [TunnelsFailed])
  | Ok m1 =>
      match origin_handshake_any_with_payload keys m1 with
      | None => (Err (Failed "no origin identity matched the client handshake"), [TunnelsFailed])
      | Some (hs, payload) =>
          let '(checked, ev) := check_direct_token policy revoked payload in
          match checked with
          | Err refused => (Err (DirectConnectRefused refused), ev ++ [TunnelsFailed])
          | Ok _ =>
              match (let* m2 := write_message2 hs in let* _ := (preauth deadline (msg2_written s)).2 in Ok m2) with
              | Err e => (Err (Failed e), ev ++ [TunnelsFailed])
              | Ok m2 =>
                  match into_transport_mode hs with
                  | Err e => (Err (Failed e), (ev ++ [Message2Sent (frame m2)]) ++ [TunnelsFailed])
                  | Ok _ => (Ok m2, (ev ++ [Message2Sent (frame m2)]) ++ [TunnelsOpened])
                  end
              end
          end
      end
  end.

Lemma serve_before_gate s keys g d policy revoked deadline :
  let '(r, ev) := before_gate s keys policy revoked deadline in
  match r with
  | Err e => serve_noise_stream_with_policy s keys g d policy revoked deadline = (Err e, g, d, ev)
  | Ok _ =>
      let '(outcome, g', d', _) := run_local_auth_gate (preauth_client deadline s) g d in
      exists r' ev', serve_noise_stream_with_policy s keys g d policy revoked deadline = (r', g', d', ev ++ ev') /\
        (OriginDialed ∈ ev' <-> is_ok (origin s) = true /\ exists prefix, outcome = Ok (Proceed prefix))
  end.
Proof.
  unfold before_gate, serve_noise_stream_with_policy.
  destruct (preauth deadline (msg1 s)).2 as [m1|e]; [|done].
  destruct (origin_handshake_any_with_payload keys m1) as [[hs payload]|]; [|done].
  destruct (check_direct_token policy revoked payload) as [[[]|e] ev]; [|done].
  destruct (let* m2 := write_message2 hs in _) as [m2|e]; [|done].
  destruct (into_transport_mode hs) as [tr|e]; [|done].
  destruct (run_local_auth_gate _ g d) as [[[[[prefix|]|e] g'] d'] w].
  - destruct (origin s) as [[]|e]; [destruct prefix as [b|]; [destruct (prefix_written s) as [[]|e]|]|].
    all: eexists _, _; split; [rewrite <-?app_assoc; try done; by rewrite app_nil_r|].
    all: cbn [app is_ok]; rewrite ?elem_of_cons, ?elem_of_nil; naive_solver.
  - eexists _, []. rewrite app_nil_r. split; [done|]. rewrite elem_of_nil. naive_solver.
  - eexists _, []. rewrite app_nil_r. split; [done|]. rewrite elem_of_nil. naive_solver.
Qed.

Lemma before_gate_handshaken s keys policy revoked deadline m2 :
  (before_gate s keys policy revoked deadline).1 = Ok m2 <-> handshaken s keys policy revoked deadline m2.
Proof.
  unfold before_gate, handshaken. setoid_rewrite <-preauth_Ok. setoid_rewrite <-check_direct_token_Ok.
  destruct (preauth deadline (msg1 s)).2 as [m1|e]; [|naive_solver].
  destruct (origin_handshake_any_with_payload keys m1) as [[hs payload]|] eqn:Eh; [|naive_solver].
  transitivity ((check_direct_token policy revoked payload).1 = Ok tt /\ write_message2 hs = Ok m2 /\
    (preauth deadline (msg2_written s)).2 = Ok tt /\ is_ok (into_transport_mode hs) = true).
  - destruct (check_direct_token policy revoked payload) as [[[]|refused] ev]; simpl; [|naive_solver].
    destruct (write_message2 hs) as [m|e]; simpl; [|split; [done|]; by intros (_ & ? & _)].
    destruct (preauth deadline (msg2_written s)).2 as [[]|e]; simpl; [|split; [done|]; by intros (_ & _ & ? & _)].
    destruct (into_transport_mode hs); simpl; split; try done; [by intros [= <-]|by intros (_ & [= <-] & _)|by intros (_ & _ & _ & ?)].
  - split; [intros Hr; by exists m1, hs, payload|]. intros (m0 & hs0 & p0 & [= <-] & E & Hr). rewrite Eh in E. by injection E as <- <-.
Qed.

Lemma before_gate_no_dial s keys policy revoked deadline : OriginDialed ∉ (before_gate s keys policy revoked deadline).2.
Proof.
  unfold before_gate. destruct (preauth deadline (msg1 s)).2 as [m1|e]; [|set_solver].
  destruct (origin_handshake_any_with_payload keys m1) as [[hs payload]|]; [|set_solver].
  pose proof (check_direct_token_quiet policy revoked payload) as Hq.
  destruct (check_direct_token policy revoked payload) as [[[]|refused] ev]; simpl in *.
  - destruct (let* m2 := write_message2 hs in _) as [m2|e]; [|set_solver]. destruct (into_transport_mode hs); set_solver.
  - set_solver.
Qed.

Lemma before_gate_refused s keys policy revoked deadline m1 hs payload :
  in_time deadline (msg1 s) m1 -> origin_handshake_any_with_payload keys m1 = Some (hs, payload) ->
  ~ admitted policy revoked payload ->
  exists refused ev, before_gate s keys policy revoked deadline = (Err (DirectConnectRefused refused), ev) /\
    forall m, Message2Sent m ∉ ev.
Proof.
  intros E1%preauth_Ok E2 Hn. unfold before_gate. rewrite E1, E2. rewrite <-check_direct_token_Ok in Hn.
  pose proof (check_direct_token_quiet policy revoked payload) as Hq.
  destruct (check_direct_token policy revoked payload) as [[[]|refused] ev]; [done|].
  exists refused, (ev ++ [TunnelsFailed]). split; [done|]. set_solver.
Qed.

(** a client reaches the Origin over a Noise stream exactly when its handshake under one of the
    Origin's keys, the routing token it carries and the local-auth gate are all in order and in
    time: on the direct path the token must be this tunnel's and not be revoked, or be left out
    where the operator allows it.  A client that is not admitted never gets message 2. *)
Theorem origin_dialed_iff s keys g d policy revoked deadline r g' d' ev :
  serve_noise_stream_with_policy s keys g d policy revoked deadline = (r, g', d', ev) ->
  (OriginDialed ∈ ev <->
   (exists m2, handshaken s keys policy revoked deadline m2) /\ origin s = Ok tt /\
   exists prefix, (run_local_auth_gate (preauth_client deadline s) g d).1.1.1 = Ok (Proceed prefix)) /\
  (forall m1 hs payload, in_time deadline (msg1 s) m1 -> origin_handshake_any_with_payload keys m1 = Some (hs, payload) ->
   ~ admitted policy revoked payload ->
   (exists refused, r = Err (DirectConnectRefused refused)) /\ forall m, Message2Sent m ∉ ev).
Proof.
  intros E. pose proof (serve_before_gate s keys g d policy revoked deadline) as Hs.
  pose proof (before_gate_handshaken s keys policy revoked deadline) as Hh.
  pose proof (before_gate_no_dial s keys policy revoked deadline) as Hd. split.
  - destruct (before_gate s keys policy revoked deadline) as [[m2|e] ev0]; simpl in *.
    + destruct (run_local_auth_gate _ g d) as [[[outcome g1] d1] w]. destruct Hs as (r' & ev' & Hs & Hev).
      rewrite E in Hs. injection Hs as -> -> -> ->. rewrite elem_of_app, Hev. simpl.
      assert (is_ok (origin s) = true <-> origin s = Ok tt) as -> by (destruct (origin s) as [[]|]; naive_solver).
      pose proof (proj1 (Hh m2) eq_refl). naive_solver.
    + rewrite E in Hs. injection Hs as -> -> -> ->. split; [done|]. intros [[m2 Hm] _]. by apply Hh in Hm.
  - intros m1 hs payload Hm1 Ho Hn. destruct (before_gate_refused _ _ _ _ _ _ _ _ Hm1 Ho Hn) as (x & ev0 & E0 & Hm).
    rewrite E0, E in Hs. injection Hs as -> -> -> ->. eauto.
Qed.
End Sessions.

(** ** The belief about the token, over interleaved registration loops *)

(** What each of the loops (the QUIC loop and the fallback workers) reports, in order. *)
Record Loops := { view : RevocationView; trackers : gmap nat RevocationTracker }.
Definition report (l : Loops) (r : nat * RegistrationOutcome) : Loops :=
  let '(_, a, v) := apply r.2 (default 0 (trackers l !! r.1)) (view l) in
  {| view := v; trackers := <[r.1 := a]> (trackers l) |}.
Definition reports (h : list (nat * RegistrationOutcome)) : Loops := fold_left report h {| view := false; trackers := ∅ |}.

(** The ambiguous refusals of loop [i] since its last clear answer. *)
Fixpoint strikes_from (i : nat) (n : Z) (h : list (nat * RegistrationOutcome)) : Z :=
  match h with
  | [] => n
  | (j, o) :: h =>
      strikes_from i
        (if (i =? j)%nat then
           match o with Succeeded | RefusedDefinitive => 0 | RefusedAmbiguous => n + 1 | Transient => n end
         else n) h
  end.
Definition strikes (i : nat) (h : list (nat * RegistrationOutcome)) : Z := strikes_from i 0 h.

Lemma strikes_snoc i h r : strikes i (h ++ [r]) = strikes_from i (strikes i h) [r].
Proof. unfold strikes. generalize 0. induction h as [|[j o] h IH]; intros n; [done|]. apply IH. Qed.
Lemma strikes_nonneg i h : 0 <= strikes i h.
Proof.
  unfold strikes. assert (0 <= 0) as Hn by lia. revert Hn. generalize 0 at 2 4. induction h as [|[j o] h IH]; intros n Hn; [done|].
  apply IH. destruct (i =? j)%nat; [|done]. destruct o; lia.
Qed.
Lemma reports_snoc h r : reports (h ++ [r]) = report (reports h) r.
Proof. unfold reports. by rewrite fold_left_app. Qed.

Lemma tracker_strikes h i : default 0 (trackers (reports h) !! i) = Z.min U32_MAX (strikes i h).
Proof.
  induction h as [|[j o] h IH] using rev_ind; [done|].
  rewrite reports_snoc, strikes_snoc. pose proof (strikes_nonneg i h). simpl.
  unfold report. simpl. destruct (Nat.eqb_spec i j) as [->|Hne].
  - rewrite IH. unfold apply, U32_MAX in *.
    destruct o; cbn [view_clear view_set]; [| |destruct (AMBIGUOUS_REFUSALS_BEFORE_REVOKED <=? _); cbn [view_set]|];
      cbn [trackers]; rewrite lookup_insert_eq; cbn [default strikes_from]; rewrite ?Nat.eqb_refl; unfold Datatypes.id; lia.
  - destruct (apply o _ _) as [[t a] v]. simpl. by rewrite lookup_insert_ne.
Qed.

(** Whatever the loops report in whatever order, the token is believed revoked exactly when,
    after the last accepted registration of any loop, one loop got a definitive refusal, or the third
    ambiguous one in a row of its own; answers that are no verdict change nothing. *)
Theorem revoked_iff h :
  view (reports h) = true <->
  exists before r after, h = before ++ r :: after /\ Forall (fun r => r.2 <> Succeeded) after /\
    (r.2 = RefusedDefinitive \/ r.2 = RefusedAmbiguous /\ 2 <= strikes r.1 before).
Proof.
  induction h as [|[j o] h IH] using rev_ind.
  { split; [done|]. intros (b & r & a & E & _). by destruct b. }
  pose proof (snoc_split (fun r : nat * RegistrationOutcome => r.2 <> Succeeded)
    (fun before r => r.2 = RefusedDefinitive \/ r.2 = RefusedAmbiguous /\ 2 <= strikes r.1 before) h (j, o)) as Hs.
  simpl in Hs. rewrite reports_snoc.
  pose proof (tracker_strikes h j) as Ht. pose proof (strikes_nonneg j h).
  rewrite Hs, <-IH. clear Hs IH.
  unfold report, apply. cbn [fst snd]. rewrite Ht. destruct o; cbn [view_set view_clear]; [naive_solver|naive_solver| |naive_solver].
  destruct (Z.leb_spec AMBIGUOUS_REFUSALS_BEFORE_REVOKED (Z.min U32_MAX (Z.min U32_MAX (strikes j h) + 1))) as [Hc|Hc];
    unfold AMBIGUOUS_REFUSALS_BEFORE_REVOKED, U32_MAX in Hc; cbn [view_set view].
  - split; [|done]. intros _. left. right. split; [done|lia].
  - split; [by right|]. intros [[?|[_ ?]]|[_ ?]]; [done|lia|done].
Qed.

(** ** The cap of the listener *)

Definition incoming (ev : ListenerEvent) : bool := match ev with Incoming _ => true | _ => false end.

(** At every moment at most the configured number of direct connections is served, a new one is
    refused exactly when that many really run -- ended tasks that were not reaped do not count -- and
    every refused one is counted. *)
Theorem listener_capped limits evs l :
  listen limits listener0 evs = Some l ->
  (running l <= max_connections limits)%nat /\
  (forall now, exists l', listener_event limits (Incoming now) l = Some l' /\
     if (running l <? max_connections limits)%nat then running l' = S (running l) /\ refused_total l' = refused_total l
     else running l' = running l /\ refused_total l' = wrap 64 (refused_total l + 1)).
Proof.
  intros Hl. assert (running l <= max_connections limits)%nat as Hle.
  { revert Hl. assert (running listener0 <= max_connections limits)%nat as H0 by (simpl; lia). revert H0.
    generalize listener0. induction evs as [|ev evs IH]; intros l0 H0; simpl; [by intros [= <-]|].
    destruct (listener_event limits ev l0) as [l1|] eqn:E; [|done]. apply IH.
    destruct ev as [now| |]; simpl in E.
    - destruct (Nat.leb_spec (max_connections limits) (running l0 + 0)); injection E as <-; simpl.
      + unfold note_direct_refused_at_capacity. by destruct (_ <=? now).
      + lia.
    - destruct (ended l0); [done|]. by injection E as <-.
    - destruct (running l0); [done|]. injection E as <-. simpl. lia. }
  split; [done|]. intros now. simpl. rewrite Nat.add_0_r.
  destruct (Nat.leb_spec (max_connections limits) (running l)), (Nat.ltb_spec (running l) (max_connections limits)); try lia;
    eexists; (split; [done|]); [|done].
  unfold note_direct_refused_at_capacity. by destruct (_ <=? now).
Qed.

(** ** Concrete inputs *)

(** Toy Noise: message 1 is the key and the payload. *)
Definition toy_noise : NoiseOps :=
  {| Handshake := unit; Transport := unit;
     read_message1 key m := if bool_decide (take (length key) m = key) then Some (tt, drop (length key) m) else None;
     write_message2 _ := Ok (map to_u8 [2; 2]); into_transport_mode _ := Ok tt;
     decrypt _ c := (Ok c, tt); encrypt _ c := (Ok c, tt) |}.
#[local] Existing Instances toy_noise toy_auth.

Definition demo_tunnel_token : RoutingToken := replicate 32 Byte.x0a.
Definition demo_policy : DirectTokenPolicy := {| own_token := demo_tunnel_token; require_token := true; debug := false |}.
Definition demo_origin_keys : list (list byte) := [replicate 32 Byte.x01; replicate 32 Byte.x02].
(** A client that pinned the second key and shows [payload], three seconds after it was accepted. *)
Definition demo_session (payload : list byte) : Session :=
  {| msg1 := (3 * SECOND, Ok (replicate 32 Byte.x02 ++ payload)); msg2_written := (3 * SECOND, Ok tt);
     client := demo_client 1000; gate_read_at := 4 * SECOND; gate_written_at := 4 * SECOND;
     origin := Ok tt; prefix_written := Ok tt; pump := Ok tt |}.

Lemma origin_dialed_iff_witness :
  (exists r g d ev,
     serve_noise_stream_with_policy (demo_session (to_u8 1 :: demo_tunnel_token)) demo_origin_keys demo_gate None
       (Some demo_policy) false (Some (10 * SECOND)) = (r, g, d, ev) /\ OriginDialed ∈ ev) /\
  exists r g d ev refused,
    serve_noise_stream_with_policy (demo_session []) demo_origin_keys demo_gate None
      (Some demo_policy) false (Some (10 * SECOND)) = (r, g, d, ev) /\ r = Err (DirectConnectRefused refused).
Proof.
  split.
  - destruct (serve_noise_stream_with_policy (demo_session (to_u8 1 :: demo_tunnel_token)) _ _ _ _ _ _)
      as [[[r g] d] ev] eqn:E. exists r, g, d, ev. split; [done|].
    apply (origin_dialed_iff _ _ _ _ _ _ _ _ _ _ _ E). split; [|split; [done|eexists; vm_compute; reflexivity]].
    exists (map to_u8 [2; 2]), (replicate 32 Byte.x02 ++ to_u8 1 :: demo_tunnel_token), tt, (to_u8 1 :: demo_tunnel_token).
    split; [split; [done|by intros x [= <-]]|]. split; [by vm_compute|]. split; [split; [done|by left]|].
    split; [done|]. split; [split; [done|by intros x [= <-]]|done].
  - destruct (serve_noise_stream_with_policy (demo_session []) _ _ _ _ _ _) as [[[r g] d] ev] eqn:E.
    destruct (proj2 (origin_dialed_iff _ _ _ _ _ _ _ _ _ _ _ E) (replicate 32 Byte.x02 ++ []) tt []) as [[x ->] _].
    + split; [done|]. intros y [= <-]. done.
    + vm_compute. reflexivity.
    + intros [_ [[? _]|[_ ?]]]; done.
    + by exists (Err (DirectConnectRefused x)), g, d, ev, x.
Defined.

(** Two connections fit; one has ended when the third arrives. *)
Lemma listener_capped_witness :
  let limits := {| max_connections := 2; setup_timeout := 10 * SECOND; linger := 30 * SECOND |} in
  exists l, listen limits listener0 [Incoming 1; Incoming 2; Incoming 100; TaskEnded; Incoming 200] = Some l /\
    refused_total l = 1 /\ (running l <= 2)%nat.
Proof.
  intros limits. destruct (listen limits listener0 [Incoming 1; Incoming 2; Incoming 100; TaskEnded; Incoming 200]) as [l|] eqn:E.
  - exists l. split; [done|]. split; [by vm_compute in E; injection E as <-|].
    exact (proj1 (listener_capped limits _ l E)).
  - by vm_compute in E.
Defined.
