(* ===== verification/EdgeWire.v ===== *)
(** * EdgeWire: what the agent says to the edge ([transport.rs])

    The registration and binding messages and how their acks are read, the ping phase of a parked
    registration, the ClientHellos of the dials, and the memo that keeps client configs so that
    redials resume their TLS sessions.  A stream is the list of bytes that will ever arrive on it;
    TLS, QUIC and SHA-256 are parameters. *)
From S2P Require Import Prelude Text ForwardWire.

#[local] Open Scope Z_scope.

(** ** Messages *)

Notation RoutingToken := (list byte) (only parsing).
Definition ch (s : string) : list byte := as_bytes s.

(** The roles of the two messages with one layout each: [role | token], [role | token | host]. *)
Definition tunnel_message (role : string) (token : RoutingToken) : list byte := ch role ++ token.
Definition host_message (role : string) (token : RoutingToken) (host : string) : list byte :=
  ch role ++ token ++ be_bytes 2 (wrap 16 (Zlen (as_bytes host))) ++ as_bytes host.
Definition direct_message (token : RoutingToken) (addr : string) (cert : list byte) : list byte :=
  ch "D" ++ token ++ be_bytes 1 (wrap 8 (Zlen (as_bytes addr))) ++ as_bytes addr
    ++ be_bytes 2 (wrap 16 (Zlen cert)) ++ cert.

(** How an exchange failed; [RegistrationRefused] is the edge's typed NO. *)
Inductive EdgeError :=
| RegistrationRefused
| Told (text : string)
| AckTimedOut (what : string)
| Broken (io : string).
Definition is_registration_refusal (e : EdgeError) : bool := match e with RegistrationRefused => true | _ => false end.

(** What comes back within [REGISTER_ACK_TIMEOUT]: nothing, an error, or these bytes and the end. *)
Inductive Reply := Stalled | Failed (io : string) | Arrived (bytes : list byte).

Definition quic_control_exchange (max_ack : Z) (what : string) (r : Reply) : result (list byte) EdgeError :=
  match r with
  | Stalled => Err (AckTimedOut what)
  | Failed io => Err (Broken io)
  | Arrived ack => if Zlen ack <=? max_ack then Ok ack else Err (Broken "stream too long")
  end.
(** [read_exact] of the two bytes of an ack. *)
Definition stream_ack (what : string) (r : Reply) : result (list byte * list byte) EdgeError :=
  match r with
  | Stalled => Err (AckTimedOut what)
  | Failed io => Err (Broken io)
  | Arrived bytes => map_err (fun _ => Broken "early eof") (read_exact 2 bytes)
  end.

Definition bytes_eqb (a b : list byte) : bool := bool_decide (a = b).
Definition starts_with (p l : list byte) : bool := bytes_eqb p (take (length p) l).

(** Every exchange gives the message it sends, if it sends one, and how it ends. *)
Definition register_tunnel (token : RoutingToken) (r : Reply) : option (list byte) * result unit EdgeError :=
  (Some (tunnel_message "A" token),
   let* ack := quic_control_exchange 8 "tunnel registration" r in
   if bytes_eqb ack (ch "OK") then Ok tt
   else if starts_with (ch "NO") ack then Err RegistrationRefused
   else Err (Told "edge rejected tunnel registration")).

Definition bind_hostname (token : RoutingToken) (host : string) (r : Reply) : option (list byte) * result unit EdgeError :=
  if (Zlen (as_bytes host) =? 0) || (253 <? Zlen (as_bytes host)) then (None, Err (Told "hostname length out of range (1..=253)"))
  else
    (Some (host_message "H" token host),
     let* ack := quic_control_exchange 8 "hostname binding" r in
     if bytes_eqb ack (ch "OK") then Ok tt else Err (Told "edge rejected hostname binding")).

Definition advertise_direct_listener (token : RoutingToken) (addr : string) (cert : list byte) (r : Reply)
  : option (list byte) * result unit EdgeError :=
  (Some (direct_message token addr cert),
   let* ack := quic_control_exchange 8 "direct-listener advertisement" r in
   if bytes_eqb ack (ch "OK") then Ok tt else Err (Told "direct-listener advertisement rejected")).

(** Over a stream; what is left of it follows the ack. *)
Definition register_tunnel_stream_with_role (role : string) (token : RoutingToken) (r : Reply)
  : option (list byte) * result (list byte) EdgeError :=
  (Some (tunnel_message role token),
   let* (ack, rest) := stream_ack "tunnel registration" r in
   if bytes_eqb ack (ch "OK") then Ok rest
   else if bytes_eqb ack (ch "NO") then Err RegistrationRefused
   else Err (Told "edge rejected tunnel registration")).
Definition register_tunnel_stream := register_tunnel_stream_with_role "A".
Definition register_tunnel_stream_ping_capable := register_tunnel_stream_with_role "K".

Definition register_tunnel_stream_browser_with_role (role : string) (token : RoutingToken) (host : string) (r : Reply)
  : option (list byte) * result (list byte) EdgeError :=
  if U16_MAX <? Zlen (as_bytes host) then (None, Err (Told "hostname too long for the browser-register frame"))
  else
    (Some (host_message role token host),
     let* (ack, rest) := stream_ack "browser hostname registration" r in
     if bytes_eqb ack (ch "OK") then Ok rest else Err (Told "edge rejected browser hostname registration")).
Definition register_tunnel_stream_browser := register_tunnel_stream_browser_with_role "B".
Definition register_tunnel_stream_browser_ping_capable := register_tunnel_stream_browser_with_role "L".
Definition register_tunnel_stream_browser_framed_capable := register_tunnel_stream_browser_with_role "F".

(** ** The ping phase *)

Definition TCP_PING_MAGIC : Z := 249.
Definition TCP_PONG_MAGIC : Z := 250.
Definition TCP_PING_STOP : Z := 251.

Inductive PingError := PingEof | UnexpectedByte (b : Z).

(** The pongs written, and the bytes left on the stream after the STOP. *)
Fixpoint ping_loop (fuel : nat) (r : list byte) : list (list byte) * result (list byte) PingError :=
  match fuel with
  | O => ([], Err PingEof)
  | S fuel =>
      match read_exact 1 r with
      | Err _ => ([], Err PingEof)
      | Ok (disc, r) =>
          if be_value disc =? TCP_PING_MAGIC then
            match read_exact 8 r with
            | Err _ => ([], Err PingEof)
            | Ok (counter, r) =>
                let '(pongs, end_) := ping_loop fuel r in ((to_u8 TCP_PONG_MAGIC :: counter) :: pongs, end_)
            end
          else if be_value disc =? TCP_PING_STOP then ([], Ok r)
          else ([], Err (UnexpectedByte (be_value disc)))
      end
  end.
Definition await_ping_phase_end (r : list byte) : list (list byte) * result (list byte) PingError :=
  ping_loop (S (length r)) r.

(** ** The ClientHellos *)

Record ClientHello := { alpns : list string; sni : string }.
Definition DEFAULT_SNI : string := "localhost".
Definition CHANNEL_FALLBACK_SNI : string := "edge-cdn.invalid".
Definition CHANNEL_FALLBACK_ALPN : string := "h2".

Definition tcp_tls_connect : ClientHello := {| alpns := ["ct-edge"%string]; sni := DEFAULT_SNI |}.
(** [front_door_sni]: the process-wide override. *)
Definition tcp_tls_connect_channel_sni (front_door_sni : option string) : ClientHello :=
  {| alpns := ["ct-edge-channel-ka"; "ct-edge-channel"]%string; sni := default DEFAULT_SNI front_door_sni |}.
Definition tcp_tls_connect_relay_sni (front_door_sni : option string) : ClientHello :=
  {| alpns := ["ct-edge-relay"%string]; sni := default DEFAULT_SNI front_door_sni |}.
Definition tcp_tls_connect_channel_boring : ClientHello :=
  {| alpns := [CHANNEL_FALLBACK_ALPN; "http/1.1"%string]; sni := CHANNEL_FALLBACK_SNI |}.
Definition ka_negotiated (alpn : option string) : bool :=
  match alpn with Some p => String.eqb p "ct-edge-channel-ka" || String.eqb p "http/1.1" | None => false end.

(** What [ServerName::try_from] makes of a name is a parameter. *)
Inductive ServerName := DnsName | IpName.
Inductive SniError := IpAddressGiven (v : string) | NotAHostname (v e : string).
Definition validate_front_door_sni (server_name : string -> result ServerName string) (raw : string) : result string SniError :=
  let v := trim raw in
  match server_name v with
  | Ok DnsName => Ok v
  | Ok IpName => Err (IpAddressGiven v)
  | Err e => Err (NotAHostname v e)
  end.

(** ** Keeping client configs *)

Definition CLIENT_CONFIG_MEMO_CAP : nat := 64.

Section Memo.
Context {K V E : Type} `{EqDecision K}.

Notation ClientConfigMemo := (list (K * V)) (only parsing).

(** [entries.iter().position(..)] and [entries.remove(at)] in one. *)
Fixpoint take_hit (key : K) (entries : ClientConfigMemo) : option (K * V * ClientConfigMemo) :=
  match entries with
  | [] => None
  | (k, v) :: entries =>
      if decide (k = key) then Some (k, v, entries)
      else let? (k', v', rest) := take_hit key entries in Some (k', v', (k, v) :: rest)
  end.

Definition get_or_build (keep : bool) (key : K) (build : result V E) (entries : ClientConfigMemo) : result V E * ClientConfigMemo :=
  if negb keep then (build, entries)
  else
    match take_hit key entries with
    | Some (k, v, rest) => (Ok v, rest ++ [(k, v)])
    | None =>
        match build with
        | Err e => (Err e, entries)
        | Ok config =>
            let entries := if (CLIENT_CONFIG_MEMO_CAP <=? length entries)%nat then drop 1 entries else entries in
            (Ok config, entries ++ [(key, config)])
        end
    end.

(** The calls on one memo: keep, key, and what building would give. *)
Fixpoint run_memo (calls : list (bool * K * result V E)) (entries : ClientConfigMemo) : list (result V E) * ClientConfigMemo :=
  match calls with
  | [] => ([], entries)
  | (keep, key, build) :: calls =>
      let '(r, entries) := get_or_build keep key build entries in
      let '(rs, entries) := run_memo calls entries in (r :: rs, entries)
  end.
End Memo.

(** [ClientConfig] of rustls, as far as the source sets it: the resumption store is named by the
    dial that made it.  A QUIC config adds the transport posture. *)
Record ClientConfig := { roots : list (list byte); alpn_protocols : list string; enable_early_data : bool; store : nat }.
Record QuicConfig := { crypto : ClientConfig; keep_alive_interval : option Z; max_idle_timeout : Z }.

(** [ClientSessionStore] of the kept configs: TLS 1.3 tickets pass to the store of rustls, TLS 1.2
    sessions never do. *)
Record SessionStore (S : Type) := {
  set_tls12_session : string -> list byte -> S -> S;
  tls12_session : string -> S -> option (list byte);
  insert_tls13_ticket : string -> list byte -> S -> S;
  take_tls13_ticket : string -> S -> option (list byte) * S
}.
Arguments set_tls12_session {S}. Arguments tls12_session {S}. Arguments insert_tls13_ticket {S}. Arguments take_tls13_ticket {S}.
Definition Tls13TicketsOnly {S} (inner : SessionStore S) : SessionStore S :=
  {| set_tls12_session := fun _ _ s => s; tls12_session := fun _ _ => None;
     insert_tls13_ticket := insert_tls13_ticket inner; take_tls13_ticket := take_tls13_ticket inner |}.

Definition AGENT_KEEPALIVE : Z := 5 * SECOND.
Definition AGENT_MAX_IDLE : Z := 30 * SECOND.

Record TlsTcpConfigKey := { tls_anchor : list byte; tls_alpns : list string }.
Record QuicConfigKey := { quic_anchor : list byte; keep_alive : option Z; max_idle : Z }.
#[global] Instance TlsTcpConfigKey_eq_dec : EqDecision TlsTcpConfigKey.
Proof. solve_decision. Defined.
#[global] Instance QuicConfigKey_eq_dec : EqDecision QuicConfigKey.
Proof. solve_decision. Defined.

Section Dials.
(** SHA-256, and what [RootCertStore::add] says to a certificate. *)
Context (sha256 : list byte -> list byte) (root_add : list byte -> result unit string).

(** [serial]: the dial this is. *)
Definition build_edge_rustls_config (serial : nat) (edge_cert : list byte) (offer : list string) : result ClientConfig string :=
  let* _ := root_add edge_cert in
  Ok {| roots := [edge_cert]; alpn_protocols := offer; enable_early_data := false; store := serial |}.
(** [IdleTimeout::try_from]: milliseconds in a QUIC varint. *)
Definition build_quic_client_config (serial : nat) (edge_cert : list byte) (ka : option Z) (idle : Z) : result QuicConfig string :=
  let* config := build_edge_rustls_config serial edge_cert [] in
  if 2 ^ 62 <=? idle / MILLI then Err "agent max_idle_timeout out of range"%string
  else Ok {| crypto := config; keep_alive_interval := ka; max_idle_timeout := idle |}.

(** The two memos of the process. *)
Record Memos := { tls_tcp : list (TlsTcpConfigKey * ClientConfig); quic : list (QuicConfigKey * QuicConfig) }.
Definition no_memos : Memos := {| tls_tcp := []; quic := [] |}.

Definition edge_tls_client_config (serial : nat) (keep : bool) (edge_cert : list byte) (offer : list string) (m : Memos)
  : result ClientConfig string * Memos :=
  let key := {| tls_anchor := sha256 edge_cert; tls_alpns := offer |} in
  let '(r, entries) := get_or_build keep key (build_edge_rustls_config serial edge_cert offer) (tls_tcp m) in
  (r, {| tls_tcp := entries; quic := quic m |}).
Definition quic_client_config (serial : nat) (keep : bool) (edge_cert : list byte) (ka : option Z) (idle : Z) (m : Memos)
  : result QuicConfig string * Memos :=
  let key := {| quic_anchor := sha256 edge_cert; keep_alive := ka; max_idle := idle |} in
  let '(r, entries) := get_or_build keep key (build_quic_client_config serial edge_cert ka idle) (quic m) in
  (r, {| tls_tcp := tls_tcp m; quic := entries |}).

(** A dial and the rustls config it uses. *)
Inductive Dial :=
| TlsTcp (keep : bool) (edge_cert : list byte) (hello : ClientHello)
| Quic (keep : bool) (edge_cert : list byte) (ka : option Z) (idle : Z).
Definition dial_cert (d : Dial) : list byte := match d with TlsTcp _ c _ | Quic _ c _ _ => c end.
Definition dial_config (serial : nat) (d : Dial) (m : Memos) : result ClientConfig string * Memos :=
  match d with
  | TlsTcp keep cert hello => edge_tls_client_config serial keep cert (alpns hello) m
  | Quic keep cert ka idle =>
      let '(r, m) := quic_client_config serial keep cert ka idle m in ((let* c := r in Ok (crypto c)), m)
  end.
Fixpoint dial_all (serial : nat) (ds : list Dial) (m : Memos) : list (result ClientConfig string) * Memos :=
  match ds with
  | [] => ([], m)
  | d :: ds =>
      let '(r, m) := dial_config serial d m in
      let '(rs, m) := dial_all (S serial) ds m in (r :: rs, m)
  end.
End Dials.

(** ** The handshake counters *)

Definition TLS_TCP_HANDSHAKE_LOG_FLOOR : Z := 16.
Record Handshakes := { full : Z; resumed : Z; seen : Z; summaries : list string }.
Definition is_power_of_two (n : Z) : bool := (0 <? n) && (Z.land n (n - 1) =? 0).
Definition note_tls_tcp_handshake (was_resumed : bool) (h : Handshakes) : Handshakes :=
  let full' := if was_resumed then full h else wrap 64 (full h + 1) in
  let resumed' := if was_resumed then wrap 64 (resumed h + 1) else resumed h in
  let n := wrap 64 (seen h + 1) in
  {| full := full'; resumed := resumed'; seen := n;
     summaries := summaries h ++
       (if (TLS_TCP_HANDSHAKE_LOG_FLOOR <=? n) && is_power_of_two n then
          [("ct-agent: " +:+ show n +:+ " TLS-TCP handshakes to the edge so far, " +:+ show resumed' +:+ " of them resumed (#290)")%string]
        else []) |}.

(** ** The ping phase is byte-exact *)

Definition ping (counter : list byte) : list byte := to_u8 TCP_PING_MAGIC :: counter.
Definition pong (counter : list byte) : list byte := to_u8 TCP_PONG_MAGIC :: counter.

Lemma read_one b r : read_exact 1 (b :: r) = Ok ([b], r).
Proof. apply (read_exact_app 1 [b] r). done. Qed.

Lemma ping_loop_sound fuel : forall r pongs rest,
  ping_loop fuel r = (pongs, Ok rest) ->
  exists counters, Forall (fun c => length c = 8%nat) counters /\
    r = concat (map ping counters) ++ to_u8 TCP_PING_STOP :: rest /\ pongs = map pong counters.
Proof.
  induction fuel as [|fuel IH]; intros r pongs rest E; simpl in E; [done|].
  destruct r as [|b r]; [done|]. rewrite read_one, be_value_single in E.
  destruct (Z.eqb_spec (u8 b) TCP_PING_MAGIC) as [Eb|_].
  - destruct (read_exact 8 r) as [[c r']|] eqn:Er; [|done]. apply read_exact_Ok in Er as [-> Hc]. specialize (Hc ltac:(lia)).
    destruct (ping_loop fuel r') as [ps e] eqn:Ep. simplify_eq. destruct (IH _ _ _ Ep) as (cs & Hcs & -> & ->).
    exists (c :: cs). split_and!; [constructor; [lia|done]| |done]. simpl.
    rewrite <-(to_u8_u8 b), Eb. by rewrite <-app_assoc.
  - destruct (Z.eqb_spec (u8 b) TCP_PING_STOP) as [Eb|_]; simplify_eq. exists []. split_and!; [done| |done].
    simpl. by rewrite <-Eb, to_u8_u8.
Qed.

Lemma ping_loop_complete counters rest : Forall (fun c => length c = 8%nat) counters ->
  forall fuel, (length counters < fuel)%nat ->
  ping_loop fuel (concat (map ping counters) ++ to_u8 TCP_PING_STOP :: rest) = (map pong counters, Ok rest).
Proof.
  induction 1 as [|c cs Hc _ IH]; intros fuel Hf; (destruct fuel as [|fuel]; [simpl in Hf; lia|]).
  - simpl map. simpl concat. rewrite app_nil_l. cbn [ping_loop]. by rewrite read_one, be_value_single.
  - simpl map. simpl concat. cbn [ping_loop app]. rewrite read_one, be_value_single.
    replace (u8 (to_u8 TCP_PING_MAGIC) =? TCP_PING_MAGIC) with true by done.
    rewrite <-app_assoc, (read_exact_app 8) by lia. rewrite IH by (simpl in Hf; lia). done.
Qed.

(** The end of the ping phase is byte-exact: it succeeds on exactly the streams that are pings
    followed by the STOP byte, every ping was answered with a pong of its own counter in order, and
    not one byte after the STOP was read - what follows starts at the first relayed byte.  Every
    other stream is an error. *)
Theorem ping_phase_exact r pongs rest :
  await_ping_phase_end r = (pongs, Ok rest) <->
  exists counters, Forall (fun c => length c = 8%nat) counters /\
    r = concat (map ping counters) ++ to_u8 TCP_PING_STOP :: rest /\ pongs = map pong counters.
Proof.
  unfold await_ping_phase_end. split; [apply ping_loop_sound|]. intros (counters & Hc & -> & ->).
  apply ping_loop_complete; [done|]. rewrite length_app. simpl.
  enough (length counters <= length (concat (map ping counters)))%nat by lia.
  clear. induction counters as [|c cs IH]; simpl; [lia|]. rewrite length_app. lia.
Qed.

(** ** Acks over a stream *)

Lemma bytes_eqb_true a b : bytes_eqb a b = true <-> a = b.
Proof. apply bool_decide_eq_true. Qed.

Lemma stream_ack_Ok what r ack rest : stream_ack what r = Ok (ack, rest) -> r = Arrived (ack ++ rest).
Proof.
  destruct r as [| |bytes]; simpl; [done..|]. destruct (read_exact 2 bytes) as [[a b]|] eqn:E; [|done]. simpl. intros [= <- <-].
  by apply read_exact_Ok in E as [-> _].
Qed.
Lemma stream_ack_arrived what ack rest : Zlen ack = 2 -> stream_ack what (Arrived (ack ++ rest)) = Ok (ack, rest).
Proof. intros Hl. simpl. by rewrite read_exact_app. Qed.

Lemma tunnel_ack_Ok role token r msg rest :
  register_tunnel_stream_with_role role token r = (msg, Ok rest) <-> msg = Some (tunnel_message role token) /\ r = Arrived (ch "OK" ++ rest).
Proof.
  unfold register_tunnel_stream_with_role. split.
  - destruct (stream_ack _ r) as [[ack rest']|] eqn:Ea; simpl; [|done]. destruct (bytes_eqb ack (ch "OK")) eqn:Eo.
    + intros [= <- <-]. apply bytes_eqb_true in Eo as ->. by apply stream_ack_Ok in Ea.
    + by destruct (bytes_eqb ack (ch "NO")).
  - intros [-> ->]. by rewrite stream_ack_arrived.
Qed.
Lemma tunnel_ack_refused role token r msg :
  register_tunnel_stream_with_role role token r = (msg, Err RegistrationRefused) <->
  msg = Some (tunnel_message role token) /\ exists rest, r = Arrived (ch "NO" ++ rest).
Proof.
  unfold register_tunnel_stream_with_role. split.
  - destruct (stream_ack _ r) as [[ack rest]|e] eqn:Ea; simpl.
    + destruct (bytes_eqb ack (ch "OK")); [done|]. destruct (bytes_eqb ack (ch "NO")) eqn:En; [|done].
      intros [= <-]. apply bytes_eqb_true in En as ->. apply stream_ack_Ok in Ea as ->. by eauto.
    + intros [= <- ->]. destruct r as [| |bytes]; [done..|]. simpl in Ea. by destruct (read_exact 2 bytes) as [[]|].
  - intros [-> [rest ->]]. by rewrite stream_ack_arrived.
Qed.
Lemma browser_ack_Ok role token host r msg rest :
  register_tunnel_stream_browser_with_role role token host r = (msg, Ok rest) -> r = Arrived (ch "OK" ++ rest).
Proof.
  unfold register_tunnel_stream_browser_with_role. case_match; [done|].
  destruct (stream_ack _ r) as [[ack rest']|] eqn:Ea; simpl; [|done]. destruct (bytes_eqb ack (ch "OK")) eqn:Eo; [|done].
  intros [= <- <-]. apply bytes_eqb_true in Eo as ->. by apply stream_ack_Ok in Ea.
Qed.
(** A browser registration is never refused with the typed error. *)
Lemma browser_ack_untyped role token host r msg e :
  register_tunnel_stream_browser_with_role role token host r = (msg, Err e) -> is_registration_refusal e = false.
Proof.
  unfold register_tunnel_stream_browser_with_role. case_match; [by intros; simplify_eq|].
  destruct (stream_ack _ r) as [[ack rest]|e'] eqn:Ea; simpl.
  - destruct (bytes_eqb ack (ch "OK")); [done|]. by intros [= <- <-].
  - intros [= <- ->]. destruct r as [| |bytes]; simplify_eq/=; [done..|]. destruct (read_exact 2 bytes) as [[]|]; by simplify_eq/=.
Qed.

(** ** Kept configs *)

Section MemoLemmas.
Context {K V E : Type} `{EqDecision K}.
Implicit Types (entries : list (K * V)) (build : result V E).

Lemma take_hit_Some key entries k v rest :
  take_hit key entries = Some (k, v, rest) ->
  k = key /\ exists l1 l2, entries = l1 ++ (key, v) :: l2 /\ rest = l1 ++ l2 /\ key ∉ l1.*1.
Proof.
  revert rest. induction entries as [|[k0 v0] es IH]; intros rest E0; simpl in E0; [done|].
  destruct (decide (k0 = key)) as [->|Hne].
  - simplify_eq. split; [done|]. exists [], rest. split_and!; [done..|]. by apply not_elem_of_nil.
  - destruct (take_hit key es) as [[[k1 v1] rest']|] eqn:Et; [|done]. simplify_eq/=.
    destruct (IH _ eq_refl) as (-> & l1 & l2 & -> & -> & Hn). split; [done|]. exists ((k0, v0) :: l1), l2.
    split_and!; [done..|]. simpl. rewrite not_elem_of_cons. by split.
Qed.
Lemma take_hit_None key entries : take_hit key entries = None <-> key ∉ entries.*1.
Proof.
  induction entries as [|[k0 v0] es IH]; simpl.
  - split; [|done]. intros _. apply not_elem_of_nil.
  - rewrite not_elem_of_cons. destruct (decide (k0 = key)) as [->|Hne]; [split; [done|by intros [? _]]|].
    rewrite <-IH. destruct (take_hit key es) as [[[k1 v1] rest']|]; simpl; naive_solver.
Qed.

(** One entry per key, and no more than the cap. *)
Definition memo_ok entries : Prop := NoDup entries.*1 /\ (length entries <= CLIENT_CONFIG_MEMO_CAP)%nat.

Lemma get_or_build_cases keep key build entries out entries' :
  get_or_build keep key build entries = (out, entries') ->
  entries' = entries /\ out = build /\ (keep = false \/ exists e, build = Err e) \/
  (exists l1 v l2, entries = l1 ++ (key, v) :: l2 /\ out = Ok v /\ entries' = l1 ++ l2 ++ [(key, v)]) \/
  (exists v, key ∉ entries.*1 /\ build = Ok v /\ out = Ok v /\
     entries' = (if (CLIENT_CONFIG_MEMO_CAP <=? length entries)%nat then drop 1 entries else entries) ++ [(key, v)]).
Proof.
  unfold get_or_build. destruct keep; simpl; [|intros; simplify_eq; auto].
  destruct (take_hit key entries) as [[[k v] rest]|] eqn:Et; intros E0.
  - apply take_hit_Some in Et as (-> & l1 & l2 & -> & -> & _). simplify_eq. right. left.
    exists l1, v, l2. by rewrite <-app_assoc.
  - apply take_hit_None in Et. destruct build as [v|e]; simplify_eq; [|left; eauto]. right. right. by exists v.
Qed.

Lemma get_or_build_ok keep key build entries out entries' :
  memo_ok entries -> get_or_build keep key build entries = (out, entries') -> memo_ok entries'.
Proof.
  intros [Hn Hl] E0. destruct (get_or_build_cases _ _ _ _ _ _ E0) as [(-> & _)|[(l1 & v & l2 & -> & _ & ->)|(v & Hk & _ & _ & ->)]].
  - done.
  - assert (l1 ++ (key, v) :: l2 ≡ₚ l1 ++ l2 ++ [(key, v)]) as Hp by (by rewrite (Permutation_cons_append l2)).
    split; [by rewrite <-Hp|by rewrite <-Hp].
  - unfold memo_ok. case_match eqn:Ec.
    + destruct entries as [|e es]; [done|]. clear Ec E0. simpl in Hn, Hl, Hk |- *. rewrite drop_0, fmap_app, length_app. simpl.
      apply NoDup_cons in Hn as [_ Hn]. apply not_elem_of_cons in Hk as [_ Hk]. split; [|lia].
      apply NoDup_app. split_and!; [done| |apply NoDup_singleton]. intros x Hx ->%list_elem_of_singleton. done.
    + apply Nat.leb_gt in Ec. rewrite fmap_app, length_app. simpl. split; [|lia].
      apply NoDup_app. split_and!; [done| |apply NoDup_singleton]. intros x Hx ->%list_elem_of_singleton. done.
Qed.

Lemma run_memo_ok calls : forall entries outs entries',
  memo_ok entries -> run_memo (E := E) calls entries = (outs, entries') -> memo_ok entries'.
Proof.
  induction calls as [|[[keep key] build] calls IH]; intros entries outs entries' Hok E0; simpl in E0; [by simplify_eq|].
  destruct (get_or_build keep key build entries) as [r es] eqn:Eg. destruct (run_memo calls es) as [rs es'] eqn:Er.
  simplify_eq. eapply IH; [|exact Er]. by eapply get_or_build_ok.
Qed.
Lemma memo_ok_nil : memo_ok ([] : list (K * V)).
Proof. split; [apply NoDup_nil_2|simpl; lia]. Qed.

(** [key] is kept with [v], and at most [n] entries were used after it. *)
Definition recent (key : K) (v : V) (n : nat) entries : Prop :=
  exists l1 l2, entries = l1 ++ (key, v) :: l2 /\ (length l2 <= n)%nat.

Lemma memo_unique key v v' entries : NoDup entries.*1 -> (key, v) ∈ entries -> (key, v') ∈ entries -> v' = v.
Proof.
  induction entries as [|[k w] es IH]; intros Hn H1 H2; [by apply not_elem_of_nil in H1|].
  simpl in Hn. apply NoDup_cons in Hn as [Hk Hn].
  assert (forall u, (k, u) ∉ es) as Hk' by (intros u Hu; by apply Hk, (list_elem_of_fmap_2 fst _ (k, u))).
  apply elem_of_cons in H1 as [E1|H1]; apply elem_of_cons in H2 as [E2|H2]; simplify_eq; try done.
  - by apply Hk' in H2.
  - by apply Hk' in H1.
  - by apply IH.
Qed.

Lemma recent_hit key v n entries build : memo_ok entries -> recent key v n entries ->
  exists entries', get_or_build true key build entries = (Ok v, entries') /\ recent key v 0 entries'.
Proof.
  intros [Hn _] (l1 & l2 & Ee & _). unfold get_or_build. simpl.
  assert ((key, v) ∈ entries) as Hin by (rewrite Ee; set_solver).
  destruct (take_hit key entries) as [[[k v'] rest]|] eqn:Et.
  - apply take_hit_Some in Et as (-> & l1' & l2' & El & _ & _).
    assert (v' = v) as -> by (eapply memo_unique; [exact Hn|exact Hin|rewrite El; set_solver]).
    eexists. split; [done|]. by exists rest, [].
  - apply take_hit_None in Et. exfalso. by apply Et, (list_elem_of_fmap_2 fst _ (key, v)).
Qed.

Lemma middle_other {A} (x y : A) l1 l2 m1 m2 : x <> y -> l1 ++ x :: l2 = m1 ++ y :: m2 ->
  (exists q, m1 = l1 ++ x :: q /\ l2 = q ++ y :: m2) \/ (exists q, l1 = m1 ++ y :: q /\ m2 = q ++ x :: l2).
Proof.
  intros Hne [(q & -> & Eq)|(q & -> & Eq)]%app_eq_inv; destruct q as [|z q]; simplify_eq/=; eauto.
Qed.

Lemma recent_step key v n entries keep key' build out entries' :
  memo_ok entries -> recent key v n entries -> (S n < CLIENT_CONFIG_MEMO_CAP)%nat ->
  get_or_build keep key' build entries = (out, entries') -> recent key v (S n) entries'.
Proof.
  intros Hok Hr Hn E0.
  destruct (get_or_build_cases _ _ _ _ _ _ E0) as [(-> & _)|[(m1 & v' & m2 & El & _ & ->)|(v' & Hkey & _ & _ & ->)]].
  - destruct Hr as (l1 & l2 & -> & Hl2). exists l1, l2. split; [done|lia].
  - destruct Hr as (l1 & l2 & Er & Hl2). destruct (decide (key' = key)) as [->|Hne].
    + assert (v' = v) as -> by (apply (memo_unique key v v' entries); [apply Hok|rewrite Er; set_solver|rewrite El; set_solver]).
      exists (m1 ++ m2), []. rewrite <-app_assoc. split; [done|simpl; lia].
    + rewrite El in Er. symmetry in Er. apply middle_other in Er as [(q & -> & ->)|(q & -> & ->)]; [| |congruence].
      * exists l1, (q ++ m2 ++ [(key', v')]). rewrite <-app_assoc. split; [done|]. rewrite !length_app in *. simpl in *. lia.
      * exists (m1 ++ q), (l2 ++ [(key', v')]). rewrite <-!app_assoc. split; [done|]. rewrite length_app. simpl. lia.
  - destruct Hr as (l1 & l2 & -> & Hl2).
    assert (exists q, (if (CLIENT_CONFIG_MEMO_CAP <=? length (l1 ++ (key, v) :: l2))%nat then drop 1 (l1 ++ (key, v) :: l2)
      else l1 ++ (key, v) :: l2) = q ++ (key, v) :: l2) as [q ->].
    { destruct (Nat.leb_spec CLIENT_CONFIG_MEMO_CAP (length (l1 ++ (key, v) :: l2))) as [Hc|_]; [|by exists l1].
      destruct l1 as [|e l1]; [|by exists l1]. simpl length in Hc. lia. }
    exists q, (l2 ++ [(key', v')]). rewrite <-app_assoc. split; [done|]. rewrite length_app. simpl. lia.
Qed.

Lemma recent_run key v calls : forall n entries outs entries',
  memo_ok entries -> recent key v n entries -> (n + length calls < CLIENT_CONFIG_MEMO_CAP)%nat ->
  run_memo (E := E) calls entries = (outs, entries') -> recent key v (n + length calls) entries'.
Proof.
  induction calls as [|[[keep key'] build] calls IH]; intros n entries outs entries' Hok Hr Hn E0; simpl in E0, Hn.
  { simplify_eq. by rewrite Nat.add_0_r. }
  destruct (get_or_build keep key' build entries) as [r es] eqn:Eg. destruct (run_memo calls es) as [rs es'] eqn:Er. simplify_eq.
  simpl. rewrite <-Nat.add_succ_comm. eapply (IH (S n)); [by eapply get_or_build_ok| |lia|exact Er]. eapply recent_step; [exact Hok|exact Hr|lia|exact Eg].
Qed.
End MemoLemmas.

(** Redials resume.  In any history of a memo, what a call kept under a key is what every later
    call for that key gets - the same config, so the same session store - as long as fewer than
    [CLIENT_CONFIG_MEMO_CAP] other calls came between; nothing is built again. *)
Theorem memo_resumes {K V E} `{EqDecision K} (before between : list (bool * K * result V E)) key (b b' : result V E) v m1 :
  get_or_build true key b (run_memo before []).2 = (Ok v, m1) ->
  (length between < CLIENT_CONFIG_MEMO_CAP)%nat ->
  (get_or_build true key b' (run_memo between m1).2).1 = Ok v /\ (length m1 <= CLIENT_CONFIG_MEMO_CAP)%nat.
Proof.
  intros E1 Hn. destruct (run_memo before []) as [o0 m0] eqn:E0. destruct (run_memo between m1) as [o2 m2] eqn:E2. simpl in *.
  assert (memo_ok m0) as Hm0 by (eapply run_memo_ok; [apply memo_ok_nil|exact E0]).
  assert (memo_ok m1) as Hm1 by (eapply get_or_build_ok; [exact Hm0|exact E1]).
  assert (recent key v 0 m1) as Hr.
  { unfold get_or_build in E1. simpl in E1. destruct (take_hit key m0) as [[[k v'] rest]|] eqn:Et.
    - apply take_hit_Some in Et as (-> & _). simplify_eq. by exists rest, [].
    - destruct b as [w|e]; simplify_eq. eexists _, []. split; [done|simpl; lia]. }
  destruct (recent_hit key v _ m2 b' (run_memo_ok _ _ _ _ Hm1 E2) (recent_run _ _ _ _ _ _ _ Hm1 Hr Hn E2)) as (m3 & -> & _).
  split; [done|apply Hm1].
Qed.

(** Every config in use was built by a dial with the very key it is used under. *)
Section Anchors.
Context (sha256 : list byte -> list byte) (root_add : list byte -> result unit string).

Definition dial_key (d : Dial) : TlsTcpConfigKey + QuicConfigKey :=
  match d with
  | TlsTcp _ cert hello => inl {| tls_anchor := sha256 cert; tls_alpns := alpns hello |}
  | Quic _ cert ka idle => inr {| quic_anchor := sha256 cert; keep_alive := ka; max_idle := idle |}
  end.

(** [c] is the config that dial number [store c] of the history built, under [key]. *)
Definition built_in (ds : list Dial) (key : TlsTcpConfigKey + QuicConfigKey) (c : ClientConfig) : Prop :=
  exists d, ds !! store c = Some d /\ dial_key d = key /\ root_add (dial_cert d) = Ok tt /\
    c = {| roots := [dial_cert d]; alpn_protocols := match d with TlsTcp _ _ hello => alpns hello | Quic _ _ _ _ => [] end;
           enable_early_data := false; store := store c |}.
Definition memos_ok (ds : list Dial) (m : Memos) : Prop :=
  Forall (fun '(k, c) => built_in ds (inl k) c) (tls_tcp m) /\ Forall (fun '(k, q) => built_in ds (inr k) (crypto q)) (quic m).

Lemma get_or_build_Forall {K V E} `{EqDecision K} (P : K -> V -> Prop) keep key (build : result V E) entries out entries' :
  get_or_build keep key build entries = (out, entries') ->
  Forall (fun '(k, v) => P k v) entries -> (forall v, build = Ok v -> P key v) ->
  Forall (fun '(k, v) => P k v) entries' /\ (forall v, out = Ok v -> P key v).
Proof.
  intros E0 Hall Hb. destruct (get_or_build_cases _ _ _ _ _ _ E0) as [(-> & -> & _)|[(l1 & v & l2 & -> & -> & ->)|(v & _ & -> & -> & ->)]].
  - done.
  - apply Forall_app in Hall as [H1 H2]. apply Forall_cons in H2 as [Hv H2]. split; [|by intros w [= <-]].
    rewrite !Forall_app, Forall_singleton. done.
  - split; [|by intros w [= <-]; apply Hb]. apply Forall_app. split; [|by apply Forall_singleton, Hb].
    case_match; [by apply Forall_drop|done].
Qed.

Lemma dial_config_built ds serial d m out m' :
  ds !! serial = Some d -> memos_ok ds m -> dial_config sha256 root_add serial d m = (out, m') ->
  memos_ok ds m' /\ (forall c, out = Ok c -> built_in ds (dial_key d) c).
Proof.
  intros Hd [H1 H2] E0. destruct d as [keep cert hello|keep cert ka idle]; simpl in E0.
  - unfold edge_tls_client_config in E0. destruct (get_or_build _ _ _ _) as [r es] eqn:Eg. simplify_eq.
    apply (get_or_build_Forall (fun k c => built_in ds (inl k) c)) in Eg as [G1 G2]; [by repeat split|done|].
    unfold build_edge_rustls_config. intros c. destruct (root_add cert) as [[]|] eqn:Ea; [|done]. intros [= <-].
    eexists. split; [exact Hd|by split_and!].
  - unfold quic_client_config in E0. destruct (get_or_build _ _ _ _) as [r es] eqn:Eg. simplify_eq.
    apply (get_or_build_Forall (fun k q => built_in ds (inr k) (crypto q))) in Eg as [G1 G2]; [|done|].
    + split; [by split|]. intros c. destruct r as [q|]; [|done]. intros [= <-]. by apply G2.
    + unfold build_quic_client_config, build_edge_rustls_config. intros q. destruct (root_add cert) as [[]|] eqn:Ea; [|done].
      simpl. case_match; [done|]. intros [= <-]. eexists. split; [exact Hd|by split_and!].
Qed.

Lemma dial_all_built ds rest : forall before m outs m',
  ds = before ++ rest -> memos_ok ds m -> dial_all sha256 root_add (length before) rest m = (outs, m') ->
  Forall2 (fun d out => forall c, out = Ok c -> built_in ds (dial_key d) c) rest outs.
Proof.
  induction rest as [|d rest IH]; intros before m outs m' Eds Hm E0; simpl in E0; [simplify_eq; constructor|].
  destruct (dial_config sha256 root_add (length before) d m) as [r m1] eqn:Ed.
  destruct (dial_all sha256 root_add (S (length before)) rest m1) as [rs m2] eqn:Ea. simplify_eq.
  destruct (dial_config_built (before ++ d :: rest) (length before) d m r m1) as [Hm1 Hr]; [|done|done|].
  { by rewrite lookup_app_r, Nat.sub_diag by lia. }
  constructor; [exact Hr|]. apply (IH (before ++ [d]) m1 rs m'); [by rewrite <-app_assoc|done|].
  rewrite length_app, Nat.add_1_r. exact Ea.
Qed.
End Anchors.

(** Sessions never cross trust anchors.  In any history of dials, kept or not, over TCP and
    over QUIC: a config trusts exactly the certificate of its dial and offers its ALPN list, never
    early data; and two dials share a session store only if they are of the same kind, trust the
    same certificate and have the same offer - provided SHA-256 told apart the certificates dialed. *)
Theorem sessions_keep_to_their_anchor sha256 root_add (ds : list Dial) outs m :
  (forall c c', c ∈ map dial_cert ds -> c' ∈ map dial_cert ds -> sha256 c = sha256 c' -> c = c') ->
  dial_all sha256 root_add 0 ds no_memos = (outs, m) ->
  (forall i d c, ds !! i = Some d -> outs !! i = Some (Ok c) ->
     roots c = [dial_cert d] /\ enable_early_data c = false /\
     alpn_protocols c = match d with TlsTcp _ _ hello => alpns hello | Quic _ _ _ _ => [] end) /\
  (forall i j d d' c c', ds !! i = Some d -> ds !! j = Some d' -> outs !! i = Some (Ok c) -> outs !! j = Some (Ok c') ->
     store c = store c' -> c = c' /\ dial_cert d = dial_cert d' /\ dial_key sha256 d = dial_key sha256 d').
Proof.
  intros Hinj E0. pose proof (dial_all_built sha256 root_add ds ds [] no_memos outs m eq_refl) as Hall.
  specialize (Hall ltac:(split; constructor) E0).
  assert (forall i d c, ds !! i = Some d -> outs !! i = Some (Ok c) -> exists d0, ds !! store c = Some d0 /\
    dial_key sha256 d0 = dial_key sha256 d /\ dial_cert d0 = dial_cert d /\
    c = {| roots := [dial_cert d0]; alpn_protocols := match d0 with TlsTcp _ _ hello => alpns hello | Quic _ _ _ _ => [] end;
           enable_early_data := false; store := store c |}) as Hb.
  { intros i d c Hd Hc. destruct (Forall2_lookup_lr _ _ _ _ _ _ Hall Hd Hc c eq_refl) as (d0 & H0 & Hk & _ & Hc0).
    exists d0. split_and!; try done.
    apply Hinj; [apply (list_elem_of_fmap_2 dial_cert), (list_elem_of_lookup_2 _ _ _ H0)|
                 apply (list_elem_of_fmap_2 dial_cert), (list_elem_of_lookup_2 _ _ _ Hd)|].
    destruct d0, d; simplify_eq/=; done. }
  split.
  - intros i d c Hd Hc. destruct (Hb i d c Hd Hc) as (d0 & _ & Hk & Hcert & ->). simpl. rewrite Hcert.
    split_and!; [done|done|]. destruct d0, d; simplify_eq/=; done.
  - intros i j d d' c c' Hd Hd' Hc Hc' Es. destruct (Hb i d c Hd Hc) as (d0 & H0 & Hk & Hcert & Ec).
    destruct (Hb j d' c' Hd' Hc') as (d1 & H1 & Hk' & Hcert' & Ec'). rewrite <-Es, H0 in H1. simplify_eq.
    split_and!; [rewrite Ec, Ec'; by rewrite Es|congruence|congruence].
Qed.

(** ** The theorems at work *)

Definition demo_dials : list Dial :=
  [TlsTcp true (ch "edge") tcp_tls_connect; TlsTcp true (ch "edge") tcp_tls_connect;
   Quic true (ch "edge") (Some AGENT_KEEPALIVE) AGENT_MAX_IDLE; TlsTcp true (ch "other") tcp_tls_connect].
Definition demo_outs := (dial_all (fun c => c) (fun _ => Ok tt) 0 demo_dials no_memos).
(** The redial resumes; QUIC and the other edge have stores of their own. *)
Example demo_stores : map (fun r => match r with Ok c => store c | Err _ => 99%nat end) demo_outs.1 = [0; 0; 2; 3]%nat.
Proof. by vm_compute. Qed.

Lemma sessions_keep_to_their_anchor_witness :
  exists c, demo_outs.1 !! 3%nat = Some (Ok c) /\ roots c = [ch "other"].
Proof.
  destruct (dial_all (fun c => c) (fun _ => Ok tt) 0 demo_dials no_memos) as [outs m] eqn:E.
  pose proof (sessions_keep_to_their_anchor (fun c => c) (fun _ => Ok tt) demo_dials outs m (fun _ _ _ _ Heq => Heq) E) as [H1 _].
  assert (exists c, demo_outs.1 !! 3%nat = Some (Ok c)) as [c Hc] by (eexists; by vm_compute).
  exists c. split; [exact Hc|]. unfold demo_outs in Hc. rewrite E in Hc. exact (proj1 (H1 3%nat _ c eq_refl Hc)).
Defined.

Lemma memo_resumes_witness :
  (get_or_build true "edge"%string (Err tt) (run_memo (E := unit) [(true, "other"%string, Ok 2); (true, "edge"%string, Ok 3)]
     [("edge"%string, 1)]).2).1 = Ok 1.
Proof.
  refine (proj1 (memo_resumes (V := Z) (E := unit) [] [(true, "other"%string, Ok 2); (true, "edge"%string, Ok 3)]
    "edge"%string (Ok 1) (Err tt) 1 _ _ _)); [reflexivity|]. unfold CLIENT_CONFIG_MEMO_CAP. simpl. lia.
Defined.
