(* ===== verification/JoinConfig.v ===== *)
(** * JoinConfig: the settings of a plane-brokered join ([channel_run/join_config.rs])

    Which addresses a member binds, advertises and dials, whether it is relay-only, the ladders of
    rungs it tries, and the addresses the background refresher learns for the names behind them.
    DNS, ct-common's address filter, rustls' host names and libp2p's multiaddrs are parameters. *)
From S2P Require Import Prelude Text Codec Net EnvFlag CliConfig.
From S2P Require Grants PeerPin EdgeWire.

#[local] Open Scope Z_scope.

(** ** Addresses *)

Definition is_unspecified (ip : IpAddr) : bool :=
  match ip with V4 a b c d => (a =? 0) && (b =? 0) && (c =? 0) && (d =? 0) | V6 segs => bool_decide (segs = [0; 0; 0; 0; 0; 0; 0; 0]) end.
Definition is_multicast (ip : IpAddr) : bool :=
  match ip with V4 a _ _ _ => between 224 a 239 | V6 segs => Z.land (default 0 (head segs)) 65280 =? 65280 end.
Definition is_private (a b : Z) : bool := (a =? 10) || ((a =? 172) && between 16 b 31) || ((a =? 192) && (b =? 168)).
Definition is_link_local (a b : Z) : bool := (a =? 169) && (b =? 254).
Definition is_globally_routable (ip : IpAddr) : bool :=
  if is_loopback ip || is_unspecified ip || is_multicast ip then false
  else match ip with
       | V4 a b _ _ => if is_private a b || is_link_local a b then false else negb ((a =? 100) && between 64 b 127)
       | V6 segs =>
           let s0 := default 0 (head segs) in
           negb (Z.land s0 65024 =? 64512) && negb (Z.land s0 65472 =? 65152)
       end.
Definition relay_only_mode (explicit : bool) (listen_addr : SocketAddr) : bool :=
  explicit || negb (is_globally_routable (sock_ip listen_addr)).
Definition is_ipv4 (ip : IpAddr) : bool := match ip with V4 _ _ _ _ => true | _ => false end.

Definition resolve_socket_addr (dns : string -> result (list SocketAddr) string) (raw : string) : result SocketAddr string :=
  match parse_socket raw with
  | Some sa => Ok sa
  | None =>
      let* l := map_err (fun e => debug_str raw +:+ " is not an IP:port and did not resolve as host:port: " +:+ e)%string (dns raw) in
      ok_or (head l) (debug_str raw +:+ " resolved to no addresses")%string
  end.

Section Guards.
(** [ct_common::channel::is_global_unicast]. *)
Context (is_global_unicast : SocketAddr -> bool).
Definition own_endpoint_looks_reachable (advertised : string) (observed : option SocketAddr) : bool :=
  match observed with
  | None => true
  | Some obs =>
      if negb (is_global_unicast obs) then true
      else match parse_socket advertised with
           | None => true
           | Some adv =>
               if negb (Bool.eqb (is_ipv4 (sock_ip adv)) (is_ipv4 (sock_ip obs))) then true
               else bool_decide (sock_ip adv = sock_ip obs)
           end
  end.
Definition upgrade_safe_endpoint (ep : string) : option SocketAddr :=
  let? addr := parse_socket ep in if is_global_unicast addr then Some addr else None.
End Guards.

(** ** The ladders *)

Inductive ChannelDialKind := Direct | FrontDoor | FrontDoorBoring.
#[global] Instance ChannelDialKind_eq_dec : EqDecision ChannelDialKind.
Proof. solve_decision. Defined.
Definition is_front_door (k : ChannelDialKind) : bool := match k with Direct => false | _ => true end.
Definition label (k : ChannelDialKind) : string :=
  match k with Direct => "direct" | FrontDoor => "front-door(:443)" | FrontDoorBoring => "front-door-boring-alpn(:443)" end.
Record ChannelDialRung := { endpoint : SocketAddr; rung_kind : ChannelDialKind }.

Definition ladder (direct : SocketAddr) (front_door : option SocketAddr) (front_door_only : bool) : list ChannelDialRung :=
  (if front_door_only && match front_door with Some _ => true | None => false end then [] else [{| endpoint := direct; rung_kind := Direct |}])
  ++ match front_door with
     | Some fd => [{| endpoint := fd; rung_kind := FrontDoor |}; {| endpoint := fd; rung_kind := FrontDoorBoring |}]
     | None => []
     end.

(** ** The settings *)

Inductive ChannelRole := RoleInitiate | RoleAccept.
Definition role_from (o : option string) : result ChannelRole string :=
  let r := option_map (fun s => to_ascii_lowercase (trim s)) o in
  match r with
  | Some s =>
      if bool_decide (s ∈ ["initiate"; "initiator"]%string) then Ok RoleInitiate
      else if bool_decide (s ∈ ["accept"; "responder"; "listen"]%string) then Ok RoleAccept
      else Err ("CT_CHANNEL_ROLE must be initiate|accept, got " +:+ debug_option r)%string
  | None => Err ("CT_CHANNEL_ROLE must be initiate|accept, got " +:+ debug_option r)%string
  end.
(** The switches read by hand. *)
Definition truthy (o : option string) : bool :=
  match option_map trim o with
  | Some t => String.eqb t "1" || eq_ignore_ascii_case t "true" || eq_ignore_ascii_case t "yes"
  | None => false
  end.
Definition accept_race_enabled_from : option string -> bool := truthy.
(** [f(k)] unless blank, trimmed. *)
Definition unless_blank (f : Lookup) (k : string) : option string := let? s := f k in if is_empty (trim s) then None else Some (trim s).
(** [Some] of a parsed value, [None] when unset or blank, an error when it does not parse. *)
Definition optional {A} (o : option string) (parse : string -> result A string) : result (option A) string :=
  match o with Some s => let* a := parse s in Ok (Some a) | None => Ok None end.
Definition cert_from (key : string) (raw : string) : result (list byte) string :=
  let* der := ok_or (hex_bytes raw)
    (key +:+ " must be hex DER -- got " +:+ show (str_len raw) +:+ " character(s), "
     +:+ if Z.odd (str_len raw) then "an odd count (one nibble lost?)" else "with a non-hex character in it")%string in
  let* _ := map_err (fun why => "invalid " +:+ key +:+ ": " +:+ why)%string (der_certificate_shape der) in
  Ok der.

Section Join.
Context `{Grants.ChannelCodec}.
Context {Multiaddr : Type} (parse_multiaddr : string -> result Multiaddr string)
  (dns : string -> result (list SocketAddr) string) (server_name : string -> result EdgeWire.ServerName string)
  (valid_key : list byte -> bool) (verdict : Grants.SignedChannelGrant -> list byte -> PeerPin.GrantVerdict).

Record ChannelJoinCliConfig := {
  role : ChannelRole; broker_addr : SocketAddr; broker_raw : string; relay_addr : SocketAddr; relay_raw : string;
  own_grant : Grants.SignedChannelGrant; holder_key : list byte; own_noise_private : list byte;
  listen_addr : SocketAddr; advertise_addr : SocketAddr; relay_only : bool;
  front_door : option SocketAddr; front_door_raw : option string; front_door_cert : option (list byte); front_door_sni : option string;
  circuit_relay : option Multiaddr; relay_gate_addr : option SocketAddr; relay_gate_cert : option (list byte);
  experimental_dcutr : bool; direct_upgrade : bool; accept_race : bool; relay_addr_direct : option SocketAddr;
  front_door_only : bool; call_reconnect : bool; peer_pin : option PeerPin.PeerPin }.

Definition parse_circuit_relay (value : option string) : result (option Multiaddr) string :=
  optional (let? s := value in if is_empty (trim s) then None else Some (trim s))
    (fun s => map_err (fun e => "CT_CHANNEL_CIRCUIT_RELAY invalid multiaddr: " +:+ e)%string (parse_multiaddr s)).
Definition sni_error (e : EdgeWire.SniError) : string :=
  match e with
  | EdgeWire.IpAddressGiven v => debug_str v +:+ " is an IP address; a DNS hostname is required"
  | EdgeWire.NotAHostname v e => debug_str v +:+ " is not a valid DNS hostname (" +:+ e +:+ ")"
  end%string.

Definition required_addr (f : Lookup) (k what : string) : result SocketAddr string :=
  let* raw := ok_or (f k) (required k what) in
  map_err (fun e => k +:+ " invalid (" +:+ what +:+ "): " +:+ e)%string (resolve_socket_addr dns (trim raw)).
Definition optional_addr (f : Lookup) (k : string) : result (option SocketAddr) string :=
  optional (unless_blank f k) (fun s => map_err (fun e => k +:+ " invalid: " +:+ e)%string (resolve_socket_addr dns s)).
Definition raw_of (f : Lookup) (k : string) : string := trim (default ""%string (f k)).
Definition UNBOUND : SocketAddr := {| sock_ip := V4 0 0 0 0; sock_port := 0; sock_scope := 0 |}.
Definition listen_from (f : Lookup) (relay_only_explicit : bool) : result SocketAddr string :=
  match unless_blank f "CT_CHANNEL_LISTEN" with
  | Some s => ok_or (parse_socket s) "CT_CHANNEL_LISTEN invalid: invalid socket address syntax"%string
  | None =>
      if relay_only_explicit then Ok UNBOUND
      else Err ("CT_CHANNEL_LISTEN required (advertised host:port) — or set CT_CHANNEL_RELAY_ONLY=1 "
                +:+ "for a relay-only member with no dialable address")%string
  end.

Definition join_from_lookup (f : Lookup) : result ChannelJoinCliConfig string :=
  let* role := role_from (f "CT_CHANNEL_ROLE"%string) in
  let* broker := required_addr f "CT_CHANNEL_BROKER" "edge rendezvous host:port" in
  let* relay := required_addr f "CT_CHANNEL_RELAY" "edge relay host:port" in
  let front_door_raw := let s := raw_of f "CT_CHANNEL_FRONT_DOOR" in if is_empty s then None else Some s in
  let explicit := truthy (f "CT_CHANNEL_RELAY_ONLY"%string) in
  let* listen := listen_from f explicit in
  let* advertise := optional_addr f "CT_CHANNEL_ADVERTISE" in
  let advertise := default listen advertise in
  let* grant_bytes := ok_or (let? s := f "CT_CHANNEL_GRANT"%string in hex_bytes s) "CT_CHANNEL_GRANT required (hex signed grant)"%string in
  let* grant := map_err (fun e => "CT_CHANNEL_GRANT malformed: " +:+ e)%string (Grants.decode grant_bytes) in
  let* holder := req_key f "CT_CHANNEL_HOLDER_KEY" "64 hex" in
  let* noise := req_hex32 f "CT_CHANNEL_NOISE_KEY" "64 hex" in
  let* front_door := optional_addr f "CT_CHANNEL_FRONT_DOOR" in
  let* front_door_cert := optional (unless_blank f "CT_CHANNEL_FRONT_DOOR_CERT") (cert_from "CT_CHANNEL_FRONT_DOOR_CERT") in
  let* circuit := parse_circuit_relay (f "CT_CHANNEL_CIRCUIT_RELAY"%string) in
  let* gate := optional_addr f "CT_CHANNEL_RELAY_GATE" in
  let* gate_cert := optional (unless_blank f "CT_CHANNEL_RELAY_GATE_CERT") (cert_from "CT_CHANNEL_RELAY_GATE_CERT") in
  let* relay_direct := optional_addr f "CT_CHANNEL_RELAY_DIRECT" in
  let only := truthy (f "CT_CHANNEL_FRONT_DOOR_ONLY"%string) in
  if only && (match front_door with None => true | _ => false end || match front_door_cert with None => true | _ => false end) then
    Err "CT_CHANNEL_FRONT_DOOR_ONLY requires CT_CHANNEL_FRONT_DOOR and CT_CHANNEL_FRONT_DOOR_CERT"%string
  else
    let* sni := optional (unless_blank f "CT_CHANNEL_FRONT_DOOR_SNI")
      (fun s => map_err (fun e => "CT_CHANNEL_FRONT_DOOR_SNI invalid: " +:+ sni_error e)%string (EdgeWire.validate_front_door_sni server_name s)) in
    let* pin := PeerPin.from_lookup valid_key f in
    let* _ := match pin with Some p => PeerPin.check_own_grant (verdict grant) p | None => Ok tt end in
    Ok {| role := role; broker_addr := broker; broker_raw := raw_of f "CT_CHANNEL_BROKER"; relay_addr := relay;
          relay_raw := raw_of f "CT_CHANNEL_RELAY"; own_grant := grant; holder_key := holder; own_noise_private := noise;
          listen_addr := listen; advertise_addr := advertise; relay_only := relay_only_mode explicit advertise;
          front_door := front_door; front_door_raw := front_door_raw; front_door_cert := front_door_cert; front_door_sni := sni;
          circuit_relay := circuit; relay_gate_addr := gate; relay_gate_cert := gate_cert;
          experimental_dcutr := flag (f "CT_CHANNEL_EXPERIMENTAL_DCUTR"%string) false;
          direct_upgrade := truthy (f "CT_CHANNEL_DIRECT_UPGRADE"%string); accept_race := accept_race_enabled_from (f "CT_CHANNEL_ACCEPT_RACE"%string);
          relay_addr_direct := relay_direct; front_door_only := only; call_reconnect := flag (f "CT_CHANNEL_CALL_RECONNECT"%string) true;
          peer_pin := pin |}.

Definition without_boring_under_sni (c : ChannelJoinCliConfig) (rungs : list ChannelDialRung) : list ChannelDialRung :=
  match front_door_sni c with
  | Some _ => filter (fun r => rung_kind r <> FrontDoorBoring) rungs
  | None => rungs
  end.
Definition broker_ladder (c : ChannelJoinCliConfig) : list ChannelDialRung :=
  without_boring_under_sni c (ladder (broker_addr c) (front_door c) (front_door_only c)).
Definition relay_ladder (c : ChannelJoinCliConfig) : list ChannelDialRung :=
  without_boring_under_sni c (ladder (relay_addr c) (front_door c) (front_door_only c)).
End Join.

(** ** What the refresher learned *)

(** Process-wide: the address last learned for each name, and the names with a lookup under way -- each
    with the address its caller started from, which the lookup's thread keeps. *)
Record JoinAddrs := { last_good : list (string * SocketAddr); in_flight : list (string * SocketAddr) }.
Definition lookup_name {A} (l : list (string * A)) (raw : string) : option A := snd <$> List.find (fun e => String.eqb e.1 raw) l.
Definition join_addr_known (s : JoinAddrs) (raw : string) (start : SocketAddr) : SocketAddr :=
  match parse_socket raw with
  | Some sa => sa
  | None => default start (lookup_name (last_good s) raw)
  end.
(** [resolve(raw)], and what came of it within the wait. *)
Definition join_addr_for_attempt (resolve : string -> result SocketAddr string) (raw : string) (last : SocketAddr) : SocketAddr :=
  match parse_socket raw with
  | Some sa => sa
  | None => match resolve raw with Ok a => a | Err _ => last end
  end.
Definition join_addr_now (raw : string) (last : SocketAddr) (within : option (result SocketAddr string)) : SocketAddr :=
  match parse_socket raw with
  | Some sa => sa
  | None => match within with Some (Ok a) => a | _ => last end
  end.
Definition set_name (l : list (string * SocketAddr)) (raw : string) (now : SocketAddr) : list (string * SocketAddr) :=
  match lookup_name l raw with
  | Some _ => map (fun e => if String.eqb e.1 raw then (e.1, now) else e) l
  | None => l ++ [(raw, now)]
  end.
Definition join_addr_remember (raw : string) (start now : SocketAddr) (s : JoinAddrs) : JoinAddrs :=
  if bool_decide (now = default start (lookup_name (last_good s) raw)) then s
  else {| last_good := set_name (last_good s) raw now; in_flight := in_flight s |}.

(** [join_addr_refresh] up to its wait claims the name; the lookup's own thread ends with an answer --
    remembered before the claim is dropped, whether anybody still waits or not -- or without one. *)
Inductive JoinEvent := Refresh (raw : string) (start : SocketAddr) | LookupEnds (raw : string) (r : option SocketAddr).
Definition claimed (s : JoinAddrs) (raw : string) : bool := match lookup_name (in_flight s) raw with Some _ => true | None => false end.
Definition release (raw : string) (s : JoinAddrs) : JoinAddrs :=
  {| last_good := last_good s; in_flight := filter (fun e => e.1 <> raw) (in_flight s) |}.
Definition join_event (e : JoinEvent) (s : JoinAddrs) : option JoinAddrs :=
  match e with
  | Refresh raw start =>
      Some (match parse_socket raw with
            | Some _ => s
            | None => if claimed s raw then s
                      else {| last_good := last_good s; in_flight := in_flight s ++ [(raw, start)] |}
            end)
  | LookupEnds raw r =>
      let? start := lookup_name (in_flight s) raw in
      Some (release raw (match r with Some now => join_addr_remember raw start now s | None => s end))
  end.
Fixpoint join_run (es : list JoinEvent) (s : JoinAddrs) : option JoinAddrs :=
  match es with [] => Some s | e :: es => let? s := join_event e s in join_run es s end.
Definition NO_ADDRS : JoinAddrs := {| last_good := []; in_flight := [] |}.

Definition raw_for (direct_raw : string) (front_door_raw : option string) (k : ChannelDialKind) : option string :=
  if is_front_door k then front_door_raw else Some direct_raw.
Definition ladder_known (s : JoinAddrs) (start : list ChannelDialRung) (direct_raw : string) (front_door_raw : option string)
  : list ChannelDialRung :=
  map (fun r => {| endpoint := match raw_for direct_raw front_door_raw (rung_kind r) with
                               | Some raw => join_addr_known s raw (endpoint r)
                               | None => endpoint r
                               end; rung_kind := rung_kind r |}) start.
Definition add_name (names : list (string * SocketAddr)) (raw : string) (a : SocketAddr) : list (string * SocketAddr) :=
  if existsb (fun n => String.eqb n.1 raw) names then names else names ++ [(raw, a)].
Definition ladder_names (start : list ChannelDialRung) (direct_raw : string) (front_door_raw : option string) : list (string * SocketAddr) :=
  foldl (fun names r => match raw_for direct_raw front_door_raw (rung_kind r) with
                        | Some raw => add_name names raw (endpoint r)
                        | None => names
                        end) [] start.
(** [JoinRefresher::spawn]: the names to refresh; no task for none. *)
Definition refresher_todo (names : list (string * SocketAddr)) : list (string * SocketAddr) :=
  foldl (fun todo n => match parse_socket n.1 with Some _ => todo | None => add_name todo n.1 n.2 end) [] names.

(** ** The refresher's loop *)

Definition JOIN_RESOLVE_TIMEOUT : Z := 5 * SECOND.
Definition JOIN_REFRESH_INTERVAL : Z := 30 * SECOND.
Definition JOIN_REFRESH_MIN_GAP : Z := 1 * SECOND.
(** A round: when the sleep was over or a kick came, and how long each wait for a name took. *)
Record Round := { kicked_after : option Z; waits : list Z }.
(** The instants at which the rounds begin, from the top of the loop. *)
Fixpoint round_starts (now : Z) (rounds : list Round) : list Z :=
  match rounds with
  | [] => []
  | r :: rounds =>
      let at_ := now + match kicked_after r with Some k => Z.min k JOIN_REFRESH_INTERVAL | None => JOIN_REFRESH_INTERVAL end in
      at_ :: round_starts (at_ + sum_of (fun w => Z.min w JOIN_RESOLVE_TIMEOUT) (waits r) + JOIN_REFRESH_MIN_GAP) rounds
  end.

(** ** The ladders of a member *)

Section Ladders.
Context `{Grants.ChannelCodec} {Multiaddr : Type} (parse_multiaddr : string -> result Multiaddr string)
  (dns : string -> result (list SocketAddr) string) (server_name : string -> result EdgeWire.ServerName string)
  (valid_key : list byte -> bool) (verdict : Grants.SignedChannelGrant -> list byte -> PeerPin.GrantVerdict).

(** The rungs in their order. *)
Definition rungs_of (direct : SocketAddr) (c : ChannelJoinCliConfig (Multiaddr := Multiaddr)) : list ChannelDialRung :=
  (if front_door_only c then [] else [{| endpoint := direct; rung_kind := Direct |}])
  ++ match front_door c with
     | Some fd => {| endpoint := fd; rung_kind := FrontDoor |}
                  :: match front_door_sni c with Some _ => [] | None => [{| endpoint := fd; rung_kind := FrontDoorBoring |}] end
     | None => []
     end.

Lemma ladder_rungs direct c : (front_door_only c = true -> front_door c <> None) ->
  without_boring_under_sni c (ladder direct (front_door c) (front_door_only c)) = rungs_of direct c.
Proof.
  unfold without_boring_under_sni, ladder, rungs_of.
  destruct (front_door_only c), (front_door c) as [fd|], (front_door_sni c); intros Hf; try reflexivity; by destruct (Hf eq_refl).
Qed.

(** Settings that are accepted give a member that can dial and is who it says: both ladders are the
    direct port, the front door and its disguised form, in this order, without the direct port exactly
    under [CT_CHANNEL_FRONT_DOOR_ONLY] -- which needs the front door and its certificate -- and without
    the disguise exactly under another host name, so never empty; a member that is not relay-only
    advertises a routable address; and a link pin's operator has signed this member's own grant. *)
Theorem accepted_settings_can_dial f c : join_from_lookup parse_multiaddr dns server_name valid_key verdict f = Ok c ->
  broker_ladder c = rungs_of (broker_addr c) c /\ relay_ladder c = rungs_of (relay_addr c) c /\
  broker_ladder c <> [] /\ relay_ladder c <> [] /\
  (front_door_only c = true -> is_Some (front_door c) /\ is_Some (front_door_cert c)) /\
  (relay_only c = false -> is_globally_routable (sock_ip (advertise_addr c)) = true) /\
  (forall operator, peer_pin c = Some (PeerPin.Link operator) ->
     verdict (own_grant c) operator <> PeerPin.BadKey /\ verdict (own_grant c) operator <> PeerPin.BadSignature).
Proof.
  unfold join_from_lookup.
  intros (ro & _ & (br & _ & (re & _ & (li & _ & (ad & _ & (gb & _ & (g & _ & (ho & _ & (no & _ & (fd & _ & (fc & _ &
    (ci & _ & (ga & _ & (gc & _ & (rd & _ & Hc)%rbind_Ok)%rbind_Ok)%rbind_Ok)%rbind_Ok)%rbind_Ok)%rbind_Ok)%rbind_Ok)%rbind_Ok)%rbind_Ok)%rbind_Ok)%rbind_Ok)%rbind_Ok)%rbind_Ok)%rbind_Ok)%rbind_Ok.
  set (only := truthy (f "CT_CHANNEL_FRONT_DOOR_ONLY"%string)) in *.
  destruct (only && _) eqn:Eo; [done|]. apply rbind_Ok in Hc as (sni & _ & (pin & _ & ([] & Hpin & [= <-])%rbind_Ok)%rbind_Ok).
  assert (only = true -> is_Some fd /\ is_Some fc) as Hboth.
  { intros ->. cbn in Eo. destruct fd, fc; done || (split; by eexists). }
  match goal with |- context [broker_ladder ?x] => set (c := x) end.
  assert (forall d, rungs_of d c <> []) as Hne.
  { intros d. unfold rungs_of. change (front_door_only c) with only. change (front_door c) with fd. destruct only eqn:E; [|done].
    destruct (Hboth eq_refl) as [[x ->] _]. done. }
  unfold broker_ladder, relay_ladder. rewrite !ladder_rungs by (cbn; intros Ht; destruct (Hboth Ht) as [[x ->] _]; done).
  split; [done|]. split; [done|]. split; [apply Hne|]. split; [apply Hne|]. split; [done|]. split.
  - cbn. unfold relay_only_mode. intros [_ Hr]%orb_false_iff. by apply negb_false_iff in Hr.
  - cbn. intros operator ->. cbn in Hpin. by destruct (verdict g operator).
Qed.
End Ladders.

(** Learning an address changes no rung but its endpoint. *)
Lemma ladder_known_kinds s start direct fd : map rung_kind (ladder_known s start direct fd) = map rung_kind start.
Proof. unfold ladder_known. rewrite map_map. by apply map_ext. Qed.

(** ** The addresses learned *)

Lemma lookup_name_cons {A} n (a : A) l raw : lookup_name ((n, a) :: l) raw = if String.eqb n raw then Some a else lookup_name l raw.
Proof. unfold lookup_name. cbn. by destruct (String.eqb n raw). Qed.
Lemma lookup_name_app {A} (l1 l2 : list (string * A)) raw :
  lookup_name (l1 ++ l2) raw = match lookup_name l1 raw with Some a => Some a | None => lookup_name l2 raw end.
Proof. induction l1 as [|[n a] l1 IH]; [done|]. cbn [app]. rewrite !lookup_name_cons. by destruct (String.eqb n raw). Qed.
Lemma lookup_name_In {A} (l : list (string * A)) raw a : lookup_name l raw = Some a -> (raw, a) ∈ l.
Proof.
  induction l as [|[n b] l IH]; [done|]. rewrite lookup_name_cons. destruct (String.eqb_spec n raw) as [->|]; [intros [= ->]; left|].
  intros Hl. right. by apply IH.
Qed.
Lemma lookup_name_None {A} (l : list (string * A)) raw : lookup_name l raw = None <-> raw ∉ map fst l.
Proof.
  induction l as [|[n b] l IH]; [split; [intros _ ?%elem_of_nil; done|done]|]. rewrite lookup_name_cons. cbn [map fst].
  rewrite not_elem_of_cons. destruct (String.eqb_spec n raw) as [->|Hne]; [by split; [|intros []]|]. rewrite IH. naive_solver.
Qed.

Lemma lookup_set_name l raw now raw' : lookup_name (set_name l raw now) raw' = if String.eqb raw raw' then Some now else lookup_name l raw'.
Proof.
  unfold set_name. destruct (lookup_name l raw) as [old|] eqn:E.
  - induction l as [|[n a] l IH]; [done|]. rewrite lookup_name_cons in E. cbn [map fst].
    destruct (String.eqb_spec n raw) as [->|Hne].
    + rewrite !lookup_name_cons. destruct (String.eqb_spec raw raw') as [<-|Hr]; [done|]. clear -Hr.
      induction l as [|[m b] l IH]; [done|]. cbn [map fst]. destruct (String.eqb_spec m raw) as [->|]; rewrite !lookup_name_cons, IH; [|done].
      by destruct (String.eqb_spec raw raw').
    + rewrite !lookup_name_cons, (IH E). destruct (String.eqb_spec n raw') as [<-|]; [|done]. by destruct (String.eqb_spec raw n).
  - rewrite lookup_name_app, lookup_name_cons. destruct (String.eqb_spec raw raw') as [<-|]; [by rewrite E|]. by destruct (lookup_name l raw').
Qed.

Lemma join_run_snoc es e s : join_run (es ++ [e]) s = let? s1 := join_run es s in join_event e s1.
Proof.
  revert s. induction es as [|e0 es IH]; intros s; cbn [app join_run]; [by destruct (join_event e s)|].
  destruct (join_event e0 s); [apply IH|done].
Qed.

(** The answers to the lookups of a name, oldest first. *)
Definition answers_for (raw : string) (es : list JoinEvent) : list SocketAddr :=
  omap (fun e => match e with LookupEnds r (Some a) => if String.eqb r raw then Some a else None | _ => None end) es.

(** What is known of a name: the newest answer, or none that differed from the address its asker had. *)
Definition learned (es : list JoinEvent) (raw : string) (known : option SocketAddr) : Prop :=
  match known with
  | Some a => last (answers_for raw es) = Some a
  | None => forall a, a ∈ answers_for raw es -> Refresh raw a ∈ es
  end.
Definition learned_ok (es : list JoinEvent) (s : JoinAddrs) : Prop :=
  (forall raw, learned es raw (lookup_name (last_good s) raw)) /\
  NoDup (map fst (in_flight s)) /\ forall raw a, (raw, a) ∈ in_flight s -> Refresh raw a ∈ es /\ parse_socket raw = None.

Lemma learned_more es e raw known : answers_for raw [e] = [] -> learned es raw known -> learned (es ++ [e]) raw known.
Proof.
  intros Ha. unfold learned, answers_for. rewrite omap_app. fold (answers_for raw [e]) (answers_for raw es). rewrite Ha, app_nil_r.
  destruct known; [done|]. intros Hl a Hin. apply elem_of_app. left. by apply Hl.
Qed.
Lemma learned_answer es raw start now s : Refresh raw start ∈ es -> (forall raw, learned es raw (lookup_name (last_good s) raw)) ->
  forall raw', learned (es ++ [LookupEnds raw (Some now)]) raw' (lookup_name (last_good (join_addr_remember raw start now s)) raw').
Proof.
  intros Hs Hk raw'. destruct (String.eqb_spec raw raw') as [<-|Hne].
  - assert (answers_for raw (es ++ [LookupEnds raw (Some now)]) = answers_for raw es ++ [now]) as Ha
      by (unfold answers_for; rewrite omap_app; cbn; by rewrite String.eqb_refl).
    unfold join_addr_remember. case_bool_decide as Hd.
    + specialize (Hk raw). unfold learned in *. rewrite Ha. destruct (lookup_name (last_good s) raw) as [a|]; cbn in Hd; subst now; [by rewrite last_snoc|].
      intros a [Hin|<-%list_elem_of_singleton]%elem_of_app; apply elem_of_app; left; [by apply Hk|done].
    + cbn [last_good]. rewrite lookup_set_name, String.eqb_refl. unfold learned. by rewrite Ha, last_snoc.
  - assert (lookup_name (last_good (join_addr_remember raw start now s)) raw' = lookup_name (last_good s) raw') as ->.
    { unfold join_addr_remember. case_bool_decide; [done|]. cbn [last_good]. rewrite lookup_set_name. by destruct (String.eqb_spec raw raw'). }
    apply learned_more; [|done]. unfold answers_for. cbn. by destruct (String.eqb_spec raw raw').
Qed.

Lemma learned_step es e s s' : learned_ok es s -> join_event e s = Some s' -> learned_ok (es ++ [e]) s'.
Proof.
  intros (Hk & Hn & Hf).
  assert (forall raw a, (raw, a) ∈ in_flight s -> Refresh raw a ∈ es ++ [e] /\ parse_socket raw = None) as Hf'
    by (intros raw a Hin; destruct (Hf raw a Hin) as [? ?]; split; [apply elem_of_app; by left|done]).
  destruct e as [raw a|raw r]; cbn [join_event].
  - assert (forall raw', learned (es ++ [Refresh raw a]) raw' (lookup_name (last_good s) raw')) as Hk' by (intros raw'; by apply learned_more).
    intros [= <-]. destruct (parse_socket raw) eqn:Ep; [by split|].
    unfold claimed. destruct (lookup_name (in_flight s) raw) eqn:El; [by split|].
    split; [exact Hk'|]. cbn. rewrite map_app. cbn. split.
    + apply NoDup_app. split; [done|]. split; [|apply NoDup_singleton]. intros x Hx ->%list_elem_of_singleton. by apply lookup_name_None in El.
    + intros raw' a' [Hin|Hin]%elem_of_app; [by apply Hf'|]. apply list_elem_of_singleton in Hin. injection Hin as -> ->.
      split; [apply elem_of_app; right; by left|done].
  - destruct (lookup_name (in_flight s) raw) as [st|] eqn:El; [|done]. intros [= <-].
    destruct (Hf raw st (lookup_name_In _ _ _ El)) as [Hs _].
    assert (in_flight (match r with Some now => join_addr_remember raw st now s | None => s end) = in_flight s) as Hi
      by (destruct r; [|done]; unfold join_addr_remember; by case_bool_decide).
    split; [|split]; cbn [release last_good in_flight].
    + destruct r as [now|]; [by apply learned_answer|]. intros raw'. by apply learned_more.
    + rewrite Hi. clear -Hn. induction (in_flight s) as [|[n a] l IH]; [done|]. cbn [map fst] in Hn. apply NoDup_cons in Hn as [Hni Hn].
      rewrite filter_cons. destruct (decide _); [|by apply IH]. cbn. constructor; [|by apply IH]. intros Hin. apply Hni.
      apply list_elem_of_fmap in Hin as ([m b] & -> & [_ Hin]%list_elem_of_filter). apply list_elem_of_fmap. by exists (m, b).
    + intros raw' a'. rewrite Hi. intros [_ Hin]%list_elem_of_filter. by apply Hf'.
Qed.

(** C33: The dial path never waits for a name, and no name ever has two lookups under way, so answers cannot
    overtake each other.  Whenever it looks, whatever address it started with itself, the address of a name
    is the one the newest finished lookup answered -- also when nobody waited for the answer any more, and
    failed lookups taking nothing away -- or its own from the start; the latter only while every answer so
    far was an address that a caller who asked for the name had started with, so that for callers that all
    started with the same address it is the newest answer there too. *)
Theorem known_address_is_the_newest es s raw start : join_run es NO_ADDRS = Some s -> parse_socket raw = None ->
  NoDup (map fst (in_flight s)) /\
  (last (answers_for raw es) = Some (join_addr_known s raw start) \/
   join_addr_known s raw start = start /\ (forall a, a ∈ answers_for raw es -> Refresh raw a ∈ es)).
Proof.
  intros Hr Hp. assert (learned_ok es s) as (Hk & Hn & _).
  - revert s Hr. induction es as [|e es IH] using rev_ind; intros s Hr.
    + injection Hr as <-. split; [by intros raw' a ?%elem_of_nil|]. split; [constructor|]. by intros ? ? ?%elem_of_nil.
    + rewrite join_run_snoc in Hr. destruct (join_run es NO_ADDRS) as [s1|] eqn:E; [|done]. by eapply learned_step; [apply IH|].
  - split; [done|]. unfold join_addr_known. rewrite Hp. specialize (Hk raw). destruct (lookup_name (last_good s) raw); [by left|by right].
Qed.

(** Rounds are at least the gap apart, and at most the interval, the waits and the gap. *)
Lemma rounds_are_apart now r1 r2 rounds a b rest : (forall r, r ∈ r1 :: r2 :: rounds -> Forall (fun w => 0 <= w) (waits r) /\ match kicked_after r with Some k => 0 <= k | None => True end) ->
  round_starts now (r1 :: r2 :: rounds) = a :: b :: rest -> JOIN_REFRESH_MIN_GAP <= b - a <= JOIN_REFRESH_INTERVAL + Zlen (waits r1) * JOIN_RESOLVE_TIMEOUT + JOIN_REFRESH_MIN_GAP.
Proof.
  intros Hr. cbn [round_starts]. intros [= <- <- _].
  destruct (Hr r1 ltac:(left)) as [Hw _]. destruct (Hr r2 ltac:(right; left)) as [_ Hk].
  assert (0 <= sum_of (fun w => Z.min w JOIN_RESOLVE_TIMEOUT) (waits r1) <= Zlen (waits r1) * JOIN_RESOLVE_TIMEOUT) as Hs.
  { clear -Hw. induction Hw as [|w l Hw _ IH]; [by rewrite sum_of_nil|]. rewrite sum_of_cons, length_cons. unfold JOIN_RESOLVE_TIMEOUT, SECOND in *. lia. }
  destruct (kicked_after r2); unfold JOIN_REFRESH_INTERVAL, JOIN_REFRESH_MIN_GAP, JOIN_RESOLVE_TIMEOUT, SECOND in *; lia.
Qed.

(** ** Concrete inputs *)

#[local] Existing Instances Grants.demo_ed25519 Grants.demo_codec.
Definition demo_addr (last port : Z) : SocketAddr := {| sock_ip := V4 192 0 2 last; sock_port := port; sock_scope := 0 |}.
Definition demo_dns (s : string) : result (list SocketAddr) string :=
  if String.eqb s "edge.example:4433" then Ok [demo_addr 1 4433] else Err "no such host"%string.
Definition demo_grant_hex : string :=
  Grants.issue_member_grant {| Grants.key := Grants.demo_seed Byte.x07 |} (Grants.demo_seed Byte.x01) (Grants.demo_seed Byte.x02) PeerGrant.Accept 4000.
Definition demo_join_env (k : string) : option string :=
  if String.eqb k "CT_CHANNEL_ROLE" then Some " Listen"%string
  else if String.eqb k "CT_CHANNEL_BROKER" then Some "edge.example:4433"%string
  else if String.eqb k "CT_CHANNEL_RELAY" then Some "192.0.2.1:4434"%string
  else if String.eqb k "CT_CHANNEL_LISTEN" then Some "0.0.0.0:5000"%string
  else if String.eqb k "CT_CHANNEL_ADVERTISE" then Some "198.51.100.7:5000"%string
  else if String.eqb k "CT_CHANNEL_GRANT" then Some demo_grant_hex
  else if String.eqb k "CT_CHANNEL_HOLDER_KEY" then Some (Grants.demo_hex Byte.x02)
  else if String.eqb k "CT_CHANNEL_NOISE_KEY" then Some (Grants.demo_hex Byte.x03)
  else if String.eqb k "CT_CHANNEL_FRONT_DOOR" then Some "192.0.2.1:443"%string else None.
Definition demo_join : result (ChannelJoinCliConfig (Multiaddr := unit)) string :=
  join_from_lookup (fun _ => Ok tt) demo_dns (fun _ => Ok EdgeWire.DnsName) (fun _ => true) (fun _ _ => PeerPin.Verifies) demo_join_env.
Lemma accepted_settings_can_dial_witness : exists c, demo_join = Ok c /\ relay_only c = false /\
  broker_ladder c = [{| endpoint := demo_addr 1 4433; rung_kind := Direct |}; {| endpoint := demo_addr 1 443; rung_kind := FrontDoor |};
                     {| endpoint := demo_addr 1 443; rung_kind := FrontDoorBoring |}].
Proof.
  destruct demo_join as [c|e] eqn:E; [|exfalso; revert E; vm_compute; discriminate]. exists c. split; [reflexivity|].
  assert (option_map (fun c => (relay_only c, rungs_of (broker_addr c) c)) (match demo_join with Ok c => Some c | Err _ => None end) =
    Some (false, [{| endpoint := demo_addr 1 4433; rung_kind := Direct |}; {| endpoint := demo_addr 1 443; rung_kind := FrontDoor |};
                  {| endpoint := demo_addr 1 443; rung_kind := FrontDoorBoring |}])) as Hd by (vm_compute; reflexivity).
  rewrite E in Hd. cbn [option_map] in Hd. injection Hd as Hr Hb. split; [exact Hr|].
  destruct (accepted_settings_can_dial (fun _ => Ok tt) demo_dns (fun _ => Ok EdgeWire.DnsName) (fun _ => true) (fun _ _ => PeerPin.Verifies) demo_join_env c E)
    as (Hl & _). rewrite Hl. exact Hb.
Defined.

Definition demo_name : string := "edge.example:4433".
Definition demo_join_events : list JoinEvent :=
  [Refresh demo_name (demo_addr 1 4433); Refresh demo_name (demo_addr 1 4433); LookupEnds demo_name (Some (demo_addr 2 4433));
   Refresh demo_name (demo_addr 1 4433); LookupEnds demo_name None].
Lemma known_address_is_the_newest_witness : exists s, join_run demo_join_events NO_ADDRS = Some s /\
  join_addr_known s demo_name (demo_addr 1 4433) = demo_addr 2 4433.
Proof.
  destruct (join_run demo_join_events NO_ADDRS) as [s|] eqn:E; [|exfalso; revert E; vm_compute; discriminate]. exists s. split; [reflexivity|].
  destruct (known_address_is_the_newest demo_join_events s demo_name (demo_addr 1 4433) E) as [_ [Hk|[_ Hk]]]; [vm_compute; reflexivity| |].
  - assert (last (answers_for demo_name demo_join_events) = Some (demo_addr 2 4433)) as Hl by (vm_compute; reflexivity).
    rewrite Hl in Hk. by injection Hk.
  - exfalso. specialize (Hk (demo_addr 2 4433) ltac:(vm_compute; by left)). unfold demo_join_events in Hk.
    rewrite !elem_of_cons, elem_of_nil in Hk. destruct Hk as [H|[H|[H|[H|[H|[]]]]]]; discriminate H.
Defined.

(** Two ladders that started from different addresses of one name: a lookup that confirms the first's is
    not remembered, and the second keeps dialing its own. *)
Example confirmed_address_is_not_shared : exists s,
  join_run [Refresh demo_name (demo_addr 1 4433); LookupEnds demo_name (Some (demo_addr 1 4433))] NO_ADDRS = Some s /\
  join_addr_known s demo_name (demo_addr 9 4433) = demo_addr 9 4433.
Proof. eexists. split; vm_compute; reflexivity. Qed.
