(* ===== verification/Dialing.v ===== *)
(** * Dialing: candidates, one dial, and the admission over the ladder ([channel_run/dialing.rs])

    What a member offers for a direct upgrade and which of an offer it dials, how a dial ends, and the
    walk over the rungs of [JoinConfig] that presents a join until one rung is answered.  quinn, rustls
    and the join protocol of ct-common are the parameters of a class; DNS, the routing table and
    ct-common's address filters are arguments. *)
From S2P Require Import Prelude Text Net.
From S2P Require Import Retry JoinConfig.

#[local] Open Scope Z_scope.

(** ** What an admission says ([ct_common::channel_wire]) *)

Record Admission := {
  peer_endpoint : string; peer_noise_pubkey : option (list byte); peer_holder : option (list byte);
  peer_attestation : option (list byte); observed_reflexive : option SocketAddr }.
Inductive ChannelJoinOutcome :=
| PeerAdmitted (a : Admission)
| JoinRefused (category : option string)
| JoinParkExpired.

(** [reject_refused_outcome]. *)
Definition reject_refused_outcome (o : ChannelJoinOutcome) : result ChannelJoinOutcome BoxError :=
  match o with
  | JoinRefused category => Err (boxed_with_category "edge broker refused the channel join" category)
  | JoinParkExpired =>
      let t := "channel park expired with no partner within the edge park window (#21) -- re-parking"%string in
      Err {| text := t; chain := [ParkExpired t] |}
  | o => Ok o
  end.

(** ** Why a dial failed *)

Inductive ChannelDialError := Unreachable | FrontDoorFailed (e : BoxError) | Failed (e : BoxError).
Definition show_dial_error (e : ChannelDialError) : string :=
  match e with
  | Unreachable => "peer unreachable on the direct path"
  | FrontDoorFailed e => "front-door TLS connect failed: " +:+ text e
  | Failed e => "direct dial failed: " +:+ text e
  end.
(** [Into<BoxError>]: the error and what [source()] walks behind it. *)
Definition dial_error_boxed (e : ChannelDialError) : BoxError :=
  {| text := show_dial_error e;
     chain := match e with
              | Unreachable => [OtherError]
              | FrontDoorFailed e => ConnectFailed :: chain e
              | Failed e => DialFailed :: chain e
              end |}.

(** [dial_peer_direct] over what its steps answer; [None]: the handshake outlived the timeout. *)
Definition dial_peer_direct {C} (dialer connect : result unit BoxError) (connecting : option (result C BoxError)) : result C ChannelDialError :=
  let* _ := map_err Failed dialer in
  let* _ := map_err Failed connect in
  match connecting with Some r => map_err Failed r | None => Err Unreachable end.

(** ** The direct upgrade of a relayed session *)

(** [reflexive_query_addr] and the answer of the edge's echo, as [whoami_via] reads it: a length byte
    and that many bytes of text. *)
Definition reflexive_query_addr (dns : string -> result (list SocketAddr) string) (relay_gate : SocketAddr) (override : option string)
  : result SocketAddr string :=
  match unless_blank (fun _ => override) "" with
  | Some s => resolve_socket_addr dns s
  | None => Ok {| sock_ip := sock_ip relay_gate; sock_port := 4433; sock_scope := 0 |}
  end.
Definition whoami_answer (received : list byte) : option SocketAddr :=
  match received with
  | [] => None
  | n :: rest =>
      let body := take (Z.to_nat (u8 n)) rest in
      if bool_decide (length body = Z.to_nat (u8 n)) && utf8_valid body then parse_socket (String.string_of_list_byte body) else None
  end.

(** The two halves of an offer, and which of them is dialed. *)
Definition split_offered_candidates (ep : string) : string * option string :=
  match split_once "000" ep with
  | Some (reflexive, local) => (reflexive, if is_empty local then None else Some local)
  | None => (ep, None)
  end.

Section Upgrade.
Context (is_global_unicast : SocketAddr -> bool) (same_local_subnet : IpAddr -> IpAddr -> bool).

Definition select_upgrade_candidate (local_egress_ip : option IpAddr) (ep : string) : option SocketAddr :=
  let '(reflexive, local) := split_offered_candidates ep in
  match (let? local := local in let? candidate := parse_socket local in let? mine := local_egress_ip in
         if same_local_subnet mine (sock_ip candidate) then Some candidate else None) with
  | Some candidate => Some candidate
  | None => upgrade_safe_endpoint is_global_unicast reflexive
  end.

(** The shared endpoint: where its socket is bound, as far as it says, and where to ask. *)
Record DirectUpgrade := { local_addr : option SocketAddr; reflexive_edge : option string }.
Definition build_upgrade_candidate (observed : option SocketAddr) (edge : option string) (bound : option (option SocketAddr))
  : option DirectUpgrade :=
  let? addr := observed in
  if negb (is_global_unicast addr) then None
  else let? local := bound in Some {| local_addr := local; reflexive_edge := edge |}.

(** [query_target], and how long the lookup of a name took. *)
Definition query_target (dns : string -> result (list SocketAddr) string) (lookup : string -> result (list SocketAddr) string * Z)
    (u : DirectUpgrade) (relay : SocketAddr) : result SocketAddr string * Z :=
  match unless_blank (fun _ => reflexive_edge u) "" with
  | None => (reflexive_query_addr dns relay None, 0)
  | Some raw =>
      match parse_socket raw with
      | Some literal => (Ok literal, 0)
      | None =>
          let v4 := match local_addr u with Some a => is_ipv4 (sock_ip a) | None => true end in
          let '(answer, took) := lookup raw in
          (let* found := map_err (fun e => debug_str raw +:+ " is not an IP:port and did not resolve as host:port: " +:+ e)%string answer in
           ok_or (match List.find (fun a => Bool.eqb (is_ipv4 (sock_ip a)) v4) found with Some a => Some a | None => head found end)
             (debug_str raw +:+ " resolved to no addresses")%string, took)
      end
  end.

(** A future under [tokio::time::timeout]: its answer if it is there in time, and when this is known. *)
Definition within {A} (bound : Z) (r : A * Z) : option A * Z := if r.2 <=? bound then (Some r.1, r.2) else (None, bound).

(** [own_reflexive]: the echo's answer ([None] for any failure) and how long it took, per address
    asked; the answer and how long the whole took. *)
Definition UPGRADE_REFLEXIVE_TIMEOUT : Z := 3 * SECOND.
Definition own_reflexive (dns : string -> result (list SocketAddr) string) (lookup : string -> result (list SocketAddr) string * Z)
    (whoami : SocketAddr -> option SocketAddr * Z) (u : DirectUpgrade) (relay : SocketAddr) (timeout : Z) : option SocketAddr * Z :=
  match within timeout (query_target dns lookup u relay) with
  | (Some (Ok edge), took) =>
      let '(found, more) := within (sat_sub timeout took) (whoami edge) in
      (match found with Some (Some a) => Some a | _ => None end, took + more)
  | (_, took) => (None, took)
  end.
Definition offer (show_socket : SocketAddr -> string) (dns : string -> result (list SocketAddr) string)
    (lookup : string -> result (list SocketAddr) string * Z) (whoami : SocketAddr -> option SocketAddr * Z) (u : DirectUpgrade)
    (relay : SocketAddr) : option string :=
  let? reflexive := (own_reflexive dns lookup whoami u relay UPGRADE_REFLEXIVE_TIMEOUT).1 in
  if is_global_unicast reflexive then Some (show_socket reflexive) else None.
End Upgrade.

(** ** The ladder *)

(** [dial_ladder], the answers of the world threaded through the dials. *)
Fixpoint dial_loop {W C} (dial : ChannelDialRung -> W -> result C ChannelDialError * W)
    (rungs : list ChannelDialRung) (last : option ChannelDialError) (w : W) : result C ChannelDialError * W :=
  match rungs with
  | [] => (Err (default Unreachable last), w)
  | rung :: rungs =>
      match dial rung w with
      | (Ok c, w) => (Ok c, w)
      | (Err e, w) => dial_loop dial rungs (Some e) w
      end
  end.
Definition dial_ladder {W C} (rungs : list ChannelDialRung) (dial : ChannelDialRung -> W -> result C ChannelDialError * W)
  : W -> result C ChannelDialError * W := dial_loop dial rungs None.

(** One join exchange: a fresh bi-stream of a QUIC connection, or the TLS stream itself for the
    rendezvous or for the relay leg; with the phase it is marked with. *)
Inductive Phase := Rendezvous | Relay.
Inductive Exchange :=
| QuicJoin (marker : option Phase)
| StreamJoin (finish_send_after_sig : bool) (marker : option Phase) (ka_tick_wait : bool)
| RelayStreamJoin (marker : option Phase).

(** quinn and rustls, and the client half of the join; a TLS stream is known by whether a keepalive
    generation of the protocol was negotiated on it. *)
Class JoinNet (W : Type) := {
  tls_connect : bool -> SocketAddr -> W -> result bool BoxError * W;
  quic_connect : SocketAddr -> W -> result unit ChannelDialError * W;
  exchange : Exchange -> W -> result ChannelJoinOutcome BoxError * W
}.

(** [phase_marker_enabled_from] decides on the switch; a legacy edge gets none on the TLS leg. *)
Definition phase_marker_enabled_from (v : option string) : bool := EnvFlag.flag v true.
Definition phase_marker_for (enabled ka : bool) (phase : Phase) : option Phase := if enabled && ka then Some phase else None.
(** [present_channel_join_marked]: QUIC negotiates nothing, so only the switch counts. *)
Definition marked_exchange (enabled : bool) (phase : Phase) : Exchange := QuicJoin (if enabled then Some phase else None).

Inductive Act :=
| TlsDial (boring : bool) (addr : SocketAddr)
| QuicDial (addr : SocketAddr)
| Parks (e : Exchange)        (** the exchange, counted as parked while it lasts *)
| Logged (line : string).

Section Ladder.
Context {W : Type} `{JoinNet W} (markers : bool) (show_socket : SocketAddr -> string).

Definition Logging : Type := list Act * W.
Definition log (acts : list Act) (l : Logging) : Logging := (l.1 ++ acts, l.2).
Definition lift {A} (f : W -> A * W) (l : Logging) : A * Logging := let '(a, w) := f l.2 in (a, (l.1, w)).

(** The exchange on one rung. *)
Definition rung_exchange (rung : ChannelDialRung) (l : Logging) : result ChannelJoinOutcome ChannelDialError * Logging :=
  let addr := endpoint rung in
  if is_front_door (rung_kind rung) then
    let boring := bool_decide (rung_kind rung = FrontDoorBoring) in
    match lift (tls_connect boring addr) (log [TlsDial boring addr] l) with
    | (Err e, l) => (Err (FrontDoorFailed e), l)
    | (Ok ka, l) =>
        let e := StreamJoin false (phase_marker_for markers ka Rendezvous) ka in
        let '(r, l) := lift (exchange e) (log [Parks e] l) in (map_err Failed r, l)
    end
  else
    match lift (quic_connect addr) (log [QuicDial addr] l) with
    | (Err e, l) => (Err e, l)
    | (Ok _, l) =>
        let e := marked_exchange markers Rendezvous in
        let '(r, l) := lift (exchange e) (log [Parks e] l) in (map_err Failed r, l)
    end.
(** The closure of the ladder: a refusal is the rung's failure, a park expiry is not. *)
Definition rung_result (o : ChannelJoinOutcome) : result ChannelJoinOutcome ChannelDialError :=
  match o with
  | JoinParkExpired => Ok JoinParkExpired
  | o => map_err Failed (reject_refused_outcome o)
  end.
Definition rung_line (rung : ChannelDialRung) (r : result ChannelJoinOutcome ChannelDialError) : string :=
  "ct-agent channel: " +:+ label (rung_kind rung) +:+ " rung " +:+ show_socket (endpoint rung) +:+
  match r with Ok _ => " succeeded" | Err e => " failed: " +:+ show_dial_error e end.
Definition join_rung (rung : ChannelDialRung) (l : Logging) : result ChannelJoinOutcome ChannelDialError * Logging :=
  let l := log [Logged ("ct-agent channel: dialing " +:+ label (rung_kind rung) +:+ " rung " +:+ show_socket (endpoint rung))%string] l in
  let '(r, l) := rung_exchange rung l in
  let r := let* o := r in rung_result o in
  (r, log [Logged (rung_line rung r)] l).

Definition present_channel_join_via_ladder (rungs : list ChannelDialRung) (w : W) : result ChannelJoinOutcome BoxError * Logging :=
  let '(r, l) := dial_ladder rungs join_rung ([], w) in (map_err dial_error_boxed r, l).
End Ladder.

(** ** Theorems: the walk *)

(** The dials among the acts, and the dial of a rung. *)
Definition dials (acts : list Act) : list Act := List.filter (fun a => match a with TlsDial _ _ | QuicDial _ => true | _ => false end) acts.
Definition dial_of (rung : ChannelDialRung) : Act :=
  match rung_kind rung with
  | Direct => QuicDial (endpoint rung)
  | FrontDoor => TlsDial false (endpoint rung)
  | FrontDoorBoring => TlsDial true (endpoint rung)
  end.
Definition answered (o : ChannelJoinOutcome) : Prop := match o with JoinRefused _ => False | _ => True end.

Section Walk.
Context {W : Type} `{JoinNet W} (markers : bool) (show_socket : SocketAddr -> string).
Notation step := (join_rung markers show_socket).

(** What the world answers on a rung, whatever the walk makes of it: the error of its transport or of its
    exchange, or the edge's answer. *)
Definition meets (rung : ChannelDialRung) (l : Logging (W := W)) (x : result ChannelJoinOutcome ChannelDialError) (l' : Logging (W := W)) : Prop :=
  exists l0 l1, l0.2 = l.2 /\ rung_exchange markers rung l0 = (x, l1) /\ l1.2 = l'.2.
(** A rung fails with an error of its own, or because the edge refused the join there. *)
Definition fails_with (rung : ChannelDialRung) (l : Logging (W := W)) (e : ChannelDialError) (l' : Logging (W := W)) : Prop :=
  meets rung l (Err e) l' \/
  exists category, meets rung l (Ok (JoinRefused category)) l' /\ e = Failed (boxed_with_category "edge broker refused the channel join" category).
(** Every rung of [tried] failed, one after the other, the last with [last]. *)
Inductive all_fail : list ChannelDialRung -> Logging (W := W) -> option ChannelDialError -> Logging (W := W) -> Prop :=
| fail_nil l : all_fail [] l None l
| fail_snoc tried rung l last l1 e l2 : all_fail tried l last l1 -> step rung l1 = (Err e, l2) -> fails_with rung l1 e l2 ->
    all_fail (tried ++ [rung]) l (Some e) l2.

Lemma join_rung_dials rung l r l' : step rung l = (r, l') -> dials l'.1 = dials l.1 ++ [dial_of rung].
Proof.
  unfold join_rung, rung_exchange, dial_of, lift, log. intros Hs.
  destruct (rung_kind rung); cbn in Hs; repeat (case_match; simplify_eq/=);
    unfold dials; rewrite ?List.filter_app; cbn; by rewrite ?app_nil_r, <-?app_assoc.
Qed.
Lemma join_rung_meets rung l r l' : step rung l = (r, l') ->
  match r with Ok o => answered o /\ meets rung l (Ok o) l' | Err e => fails_with rung l e l' end.
Proof.
  unfold join_rung. set (l0 := log _ l). destruct (rung_exchange markers rung l0) as [x l1] eqn:E. intros [= <- <-].
  assert (forall acts, meets rung l x (log acts l1)) as Hm by (intros acts; by exists l0, l1).
  destruct x as [[a|category|]|e]; cbn; [by split|right; by exists category|by split|by left].
Qed.

Lemma all_fail_dials tried l last l' : all_fail tried l last l' -> dials l'.1 = dials l.1 ++ map dial_of tried.
Proof.
  induction 1 as [|? ? ? ? ? ? ? _ IH Hs _]; [by rewrite app_nil_r|].
  by rewrite (join_rung_dials _ _ _ _ Hs), IH, map_app, app_assoc.
Qed.

Lemma dial_loop_spec rungs tried l0 last l r l' : all_fail tried l0 last l -> dial_loop step rungs last l = (r, l') ->
  (exists passed rung rest last1 l1 o, rungs = passed ++ rung :: rest /\ all_fail (tried ++ passed) l0 last1 l1 /\ step rung l1 = (Ok o, l') /\ r = Ok o) \/
  exists last1, all_fail (tried ++ rungs) l0 last1 l' /\ r = Err (default Unreachable last1).
Proof.
  revert tried last l. induction rungs as [|rung rungs IH]; intros tried last l Hf; cbn [dial_loop].
  - intros [= <- <-]. right. exists last. by rewrite app_nil_r.
  - destruct (step rung l) as [[o|e] l1] eqn:E.
    + intros [= <- <-]. left. exists [], rung, rungs, last, l, o. rewrite app_nil_r. by repeat split.
    + intros Hd. eapply (IH (tried ++ [rung])) in Hd; [|eapply fail_snoc; [done|exact E|exact (join_rung_meets _ _ _ _ E)]].
      destruct Hd as [(p & r1 & rest & e1 & l2 & o & -> & Hf1 & Hs & ->)|(e1 & Hf1 & ->)].
      * left. exists (rung :: p), r1, rest, e1, l2, o. split; [done|]. split; [|done]. by rewrite cons_middle, app_assoc.
      * right. exists e1. by rewrite cons_middle, app_assoc.
Qed.

(** C39: The ladder is walked to the first rung that answers: the rungs are dialed once each, in order, and
    none after it.  A rung answers when the edge admits the join there or lets its park expire, which ends
    the walk and is its outcome; the edge's refusal is a failure of the rung like an error of its
    transport.  When no rung answers all were dialed, and the error is the last one's, also where an
    earlier rung was refused. *)
Theorem ladder_takes_the_first_answer rungs w r l : present_channel_join_via_ladder markers show_socket rungs w = (r, l) ->
  (exists before rung after last l1 o, rungs = before ++ rung :: after /\ all_fail before ([], w) last l1 /\ meets rung l1 (Ok o) l /\
     r = Ok o /\ answered o /\ dials l.1 = map dial_of (before ++ [rung])) \/
  exists last, all_fail rungs ([], w) last l /\ r = Err (dial_error_boxed (default Unreachable last)) /\ dials l.1 = map dial_of rungs.
Proof.
  unfold present_channel_join_via_ladder, dial_ladder. destruct (dial_loop step rungs None ([], w)) as [r1 l1] eqn:E. intros [= <- <-].
  apply (dial_loop_spec rungs [] ([], w)) in E as [(p & rung & rest & last & l2 & o & -> & Hf & Hs & ->)|(last & Hf & ->)]; [| |constructor].
  - left. exists p, rung, rest, last, l2, o. pose proof (join_rung_dials _ _ _ _ Hs) as Hd. apply join_rung_meets in Hs as [Ho Hm].
    repeat split; [done|done|done|]. rewrite Hd, map_app, (all_fail_dials _ _ _ _ Hf). done.
  - right. exists last. repeat split; [done|]. by rewrite (all_fail_dials _ _ _ _ Hf).
Qed.
End Walk.

(** A refusal by the last rung is reported as one, and so is an own grant's end. *)
Lemma last_refusal_is_reported category :
  let e := dial_error_boxed (Failed (boxed_with_category "edge broker refused the channel join" category)) in
  is_definitive_admission_refusal e = true /\ exists t, admission_refusal e = Some (t, category).
Proof. split; [done|]. by eexists. Qed.

(** ** Theorems: what is offered and dialed *)

Section Offers.
Context (is_global_unicast : SocketAddr -> bool) (same_local_subnet : IpAddr -> IpAddr -> bool).

(** Whatever a peer offers, the only address dialed for it is one the offer itself names, and either
    a globally routable one or one in this host's own subnet. *)
Theorem dialed_candidate_is_guarded egress ep a : select_upgrade_candidate is_global_unicast same_local_subnet egress ep = Some a ->
  (exists half, (half = ep \/ half = (split_offered_candidates ep).1 \/ (split_offered_candidates ep).2 = Some half) /\ parse_socket half = Some a) /\
  (is_global_unicast a = true \/ exists mine, egress = Some mine /\ same_local_subnet mine (sock_ip a) = true).
Proof.
  unfold select_upgrade_candidate. destruct (split_offered_candidates ep) as [reflexive local].
  assert (upgrade_safe_endpoint is_global_unicast reflexive = Some a ->
    (exists half, (half = ep \/ half = reflexive \/ local = Some half) /\ parse_socket half = Some a) /\
    (is_global_unicast a = true \/ exists mine, egress = Some mine /\ same_local_subnet mine (sock_ip a) = true)) as Hr.
  { unfold upgrade_safe_endpoint. destruct (parse_socket reflexive) eqn:E; [|done]. destruct (is_global_unicast _) eqn:G; [|done].
    intros [= ->]. split; [|by left]. exists reflexive. split; [auto|done]. }
  destruct local as [local|]; [|done]. destruct (parse_socket local) as [c|] eqn:E; [|done].
  destruct egress as [mine|]; [|done]. destruct (same_local_subnet mine (sock_ip c)) eqn:G; [|done].
  intros [= <-]. split; [exists local; split; [auto|done]|right; by exists mine].
Qed.

(** Learning the own address never takes longer than it may, whatever is asked and answered. *)
Lemma own_reflexive_is_bounded dns lookup whoami u relay timeout : 0 <= timeout ->
  (forall s, 0 <= (lookup s).2) -> (forall a, 0 <= (whoami a).2) ->
  0 <= (own_reflexive dns lookup whoami u relay timeout).2 <= timeout.
Proof.
  intros Ht Hl Hw. unfold own_reflexive, within. destruct (query_target dns lookup u relay) as [[a|e] took] eqn:E; cbn [snd fst];
    assert (0 <= took) by (unfold query_target in E; repeat case_match; simplify_eq/=; try lia; match goal with H : lookup ?s = _ |- _ => specialize (Hl s); rewrite H in Hl; done end);
    destruct (Z.leb_spec took timeout); cbn; try lia.
  destruct (whoami a) as [x t] eqn:Ew. specialize (Hw a). rewrite Ew in Hw. cbn in *. unfold sat_sub.
  destruct (Z.leb_spec t (Z.max 0 (timeout - took))); cbn; lia.
Qed.

(** Nothing but a globally routable address is offered, and only by a member seen on one. *)
Lemma offer_is_global show_socket dns lookup whoami u relay s : offer is_global_unicast show_socket dns lookup whoami u relay = Some s ->
  exists a, s = show_socket a /\ is_global_unicast a = true.
Proof.
  unfold offer. destruct (own_reflexive _ _ _ _ _ _).1 as [a|]; [|done]. destruct (is_global_unicast a) eqn:G; [|done].
  intros [= <-]. by exists a.
Qed.
End Offers.

(** ** Concrete inputs *)

Definition demo_rungs : list ChannelDialRung := ladder (demo_addr 1 4433) (Some (demo_addr 2 443)) false.
Definition demo_show (a : SocketAddr) : string := (show_ip (sock_ip a) +:+ ":" +:+ show (sock_port a))%string.
Definition demo_admission : Admission :=
  {| peer_endpoint := "192.0.2.9:7000"; peer_noise_pubkey := Some (repeat (to_u8 7) 32); peer_holder := Some (repeat (to_u8 8) 32);
     peer_attestation := Some (repeat (to_u8 9) 64); observed_reflexive := None |}.
(** A network that blocks the direct port and admits over the front door. *)
Definition demo_net (direct : result unit ChannelDialError) (over_quic over_tls : ChannelJoinOutcome) : JoinNet unit :=
  {| tls_connect boring _ w := (if boring : bool then Err {| text := "tls handshake eof"; chain := [IoError "UnexpectedEof" None] |} else Ok true, w);
     quic_connect _ w := (direct, w);
     exchange e w := (Ok match e with QuicJoin _ => over_quic | _ => over_tls end, w) |}.

Lemma ladder_takes_the_first_answer_witness :
  exists before rung after last l1 o, demo_rungs = before ++ rung :: after /\
    all_fail (H := demo_net (Err Unreachable) JoinParkExpired (PeerAdmitted demo_admission)) true demo_show before ([], tt) last l1 /\ answered o /\
    before <> [] /\ after <> [].
Proof.
  pose (H := demo_net (Err Unreachable) JoinParkExpired (PeerAdmitted demo_admission)).
  destruct (present_channel_join_via_ladder (H := H) true demo_show demo_rungs tt) as [r l] eqn:E.
  destruct (ladder_takes_the_first_answer (H := H) true demo_show demo_rungs tt r l E)
    as [(before & rung & after & last & l1 & o & Hr & Hf & _ & _ & Ho & Hd)|(last & _ & Hr & _)].
  - exists before, rung, after, last, l1, o. split; [exact Hr|]. split; [exact Hf|]. split; [exact Ho|].
    revert Hd. vm_compute in E. injection E as <- <-.
    assert (length (before ++ [rung]) = 2%nat -> before <> [] /\ after <> []) as Hn.
    { intros Hl. rewrite length_app in Hl. cbn in Hl. split; [intros ->; done|intros ->].
      apply (f_equal length) in Hr. rewrite length_app in Hr. change (length demo_rungs) with 3%nat in Hr. cbn in Hr. lia. }
    intros Hd. apply Hn. apply (f_equal length) in Hd. rewrite length_map in Hd. by rewrite <-Hd.
  - vm_compute in E. injection E as <- <-. discriminate Hr.
Defined.

(** A refusal the whole edge agrees on is not reported as one when the last rung is blocked: with the
    own grant revoked the loops above see a transport failure, which neither backs off as a refusal nor
    ends them. *)
Example blocked_rung_hides_a_refusal :
  let H := demo_net (Ok tt) (JoinRefused (Some GRANT_REVOKED_CATEGORY)) (JoinRefused (Some GRANT_REVOKED_CATEGORY)) in
  exists e l, present_channel_join_via_ladder (H := H) true demo_show demo_rungs tt = (Err e, l) /\
    is_definitive_admission_refusal e = false /\ own_grant_refusal e (Some 100) 200 = None /\ is_revoked_grant_refusal e = false.
Proof. eexists _, _. split; [vm_compute; reflexivity|]. by vm_compute. Qed.

Definition demo_subnet (mine ip : IpAddr) : bool := bool_decide (mine = ip).
Lemma dialed_candidate_is_guarded_witness :
  select_upgrade_candidate (fun _ => false) demo_subnet (Some (V4 192 168 0 7))
    ("192.0.2.1:4001" +:+ String "000" "192.168.0.7:4002")%string = Some {| sock_ip := V4 192 168 0 7; sock_port := 4002; sock_scope := 0 |} /\
  (false = true \/ exists mine, Some (V4 192 168 0 7) = Some mine /\ demo_subnet mine (V4 192 168 0 7) = true).
Proof.
  split; [vm_compute; reflexivity|].
  exact (proj2 (dialed_candidate_is_guarded (fun _ => false) demo_subnet (Some (V4 192 168 0 7))
    ("192.0.2.1:4001" +:+ String "000" "192.168.0.7:4002")%string {| sock_ip := V4 192 168 0 7; sock_port := 4002; sock_scope := 0 |}
    ltac:(vm_compute; reflexivity))).
Defined.
