(* ===== verification/Connectivity.v ===== *)
(** * Connectivity: the relay leg, the race for it, and the relay-only join loop ([channel_run/connectivity.rs])

    Parking a relay leg is a step function whose states are the awaits of [park_relay_leg_until]; the
    acceptor's race of its direct accept against that leg is the step function around it.  Each step
    says which connections it makes, presents a join on or closes.  [run_dcutr_join_loop] runs over
    turns of what one join and the clock answer. *)
From S2P Require Import Prelude Text Net.
From S2P Require Import Retry JoinConfig Dialing.
From S2P Require ServeLoop.

#[local] Open Scope Z_scope.

(** ** Parking a relay leg *)

Inductive RelayFallback := Quic | QuicLazy (addr : SocketAddr) | Ladder (rungs : list ChannelDialRung).
(** [ParkedRelayLeg]: what an admitted session runs over. *)
Inductive ParkedRelayLeg := QuicLeg | StreamLeg.
Inductive RelayLegPark := LegAdmitted (leg : ParkedRelayLeg) | LegAbandoned.

Definition RELAY_LEG_CLOSE_TIMEOUT : Z := 2 * SECOND.
Definition RELAY_PAIR_BOUND_DEFAULT : Z := 45 * SECOND.
Definition RELAY_PAIR_BOUND_MIN_SECS : Z := 35.
Definition RELAY_PAIR_BOUND_MAX_SECS : Z := 300.
Definition relay_pair_bound_from_env (value : option string) : Z :=
  match (let? s := value in let? n := parse_uint U64_MAX (trim s) in if 1 <=? n then Some n else None) with
  | Some n => Z.max RELAY_PAIR_BOUND_MIN_SECS (Z.min n RELAY_PAIR_BOUND_MAX_SECS) * SECOND
  | None => RELAY_PAIR_BOUND_DEFAULT
  end.

(** What a leg does to the network: a dial, the join presented on the connection, and the explicit
    close of that connection -- QUIC's with a reason, or the shutdown of a TLS stream. *)
Inductive LegAct :=
(* [CloseStream] is the begin of the shutdown ([close_stream_relay_leg]); it is over, written or
   given up after [RELAY_LEG_CLOSE_TIMEOUT], with [ShutdownOver]. *)
| LegDial (rung : ChannelDialRung)
| LegPresent (e : Exchange)
| CloseQuic
| CloseStream.

(** The awaits: a dial outside the ladder, a dial on it with the rungs left and the last error, the
    answer to the join on either kind of connection, the shutdown of a stream that is given up. *)
Inductive LegPc :=
| LazyDialing
| RungDialing (rung : ChannelDialRung) (later : list ChannelDialRung) (last : option BoxError)
| OnQuic
| OnStream
| StreamClosing (outcome : result RelayLegPark BoxError)
| LegDone (r : result RelayLegPark BoxError).
Inductive LegEvent :=
| LegDialed (r : result bool ChannelDialError)       (** connected; on TLS, with a keepalive generation *)
| LegAnswer (r : result ChannelJoinOutcome BoxError) (** of the exchange *)
| PairBound                                          (** the wait for a partner on a TLS leg is over *)
| ShutdownOver.                                      (** the shutdown finished, or its timeout did *)

Definition relay_park_expired : BoxError :=
  let t := "edge relay park expired with no partner within the park window (#21) -- re-park the relay leg"%string in
  {| text := t; chain := [ParkExpired t] |}.
(** The answer to the join: an admitted leg, or the error of its kind. *)
Definition leg_answer (leg : ParkedRelayLeg) (r : result ChannelJoinOutcome BoxError) : result RelayLegPark BoxError :=
  let* o := r in
  match o with
  | PeerAdmitted _ => Ok (LegAdmitted leg)
  | JoinRefused category =>
      Err (boxed_with_category match leg with
                               | QuicLeg => "edge relay refused the channel join"
                               | StreamLeg => "edge relay refused the channel join over the :443 front door"
                               end category)
  | JoinParkExpired => Err relay_park_expired
  end.
(** [RelayPairTimeout]. *)
Definition relay_pair_timeout (bound : Z) : BoxError :=
  {| text := "relay leg found no partner within " +:+ show (bound / SECOND) +:+ "s -- closed it (CT_CHANNEL_RELAY_PAIR_SECS)"; chain := [OtherError] |}.
Definition rung_error (e : ChannelDialError) : BoxError :=
  match e with Unreachable => dial_error_boxed Unreachable | FrontDoorFailed e | Failed e => e end.

Section Leg.
Context (markers : bool) (pair_bound : Z).

(** The next rung of [park_relay_leg_via_ladder], or the error when none is left. *)
Definition next_rung (rungs : list ChannelDialRung) (last : option BoxError) : LegPc * list LegAct :=
  match rungs with
  | [] => (LegDone (Err (default {| text := "relay ladder had no rungs to dial"; chain := [OtherError] |} last)), [])
  | rung :: later => (RungDialing rung later last, [LegDial rung])
  end.
Definition present_on_quic : LegPc * list LegAct := (OnQuic, [LegPresent (marked_exchange markers Relay)]).
(** [park_relay_leg_until] up to its first await, and a poll of it: [abandoned] is what the abandon
    future says, which every [select!] looks at first. *)
Definition leg_start (relay : RelayFallback) : LegPc * list LegAct :=
  match relay with
  | Quic => present_on_quic
  | QuicLazy addr => (LazyDialing, [LegDial {| endpoint := addr; rung_kind := Direct |}])
  | Ladder rungs => next_rung rungs None
  end.
Definition leg_abandon (pc : LegPc) : LegPc * list LegAct :=
  match pc with
  | LazyDialing | RungDialing _ _ _ => (LegDone (Ok LegAbandoned), [])
  | OnQuic => (LegDone (Ok LegAbandoned), [CloseQuic])
  | OnStream => (StreamClosing (Ok LegAbandoned), [CloseStream])
  | pc => (pc, [])
  end.
Definition leg_event (e : LegEvent) (pc : LegPc) : option (LegPc * list LegAct) :=
  match pc, e with
  | LazyDialing, LegDialed (Ok _) => Some present_on_quic
  | LazyDialing, LegDialed (Err e) => Some (LegDone (Err (rung_error e)), [])
  | RungDialing rung later _, LegDialed (Ok ka) =>
      Some (if is_front_door (rung_kind rung)
            then (OnStream, [LegPresent (RelayStreamJoin (phase_marker_for markers ka Relay))])
            else present_on_quic)
  | RungDialing _ later _, LegDialed (Err e) => Some (next_rung later (Some (rung_error e)))
  | OnQuic, LegAnswer r => Some (LegDone (leg_answer QuicLeg r), [])
  | OnStream, LegAnswer r => Some (LegDone (leg_answer StreamLeg r), [])
  | OnStream, PairBound => Some (StreamClosing (Err (relay_pair_timeout pair_bound)), [CloseStream])
  | StreamClosing r, ShutdownOver => Some (LegDone r, [])
  | _, _ => None
  end.
Definition leg_step (abandoned : bool) (e : LegEvent) (pc : LegPc) : option (LegPc * list LegAct) :=
  match pc, abandoned with
  | StreamClosing _, _ | _, false => leg_event e pc
  | LegDone _, true => None
  | _, true => Some (leg_abandon pc)
  end.

(** ** The acceptor's race *)

(** [leg.close()] of an admitted leg. *)
Definition close_leg (leg : ParkedRelayLeg) : LegAct := match leg with QuicLeg => CloseQuic | StreamLeg => CloseStream end.

Inductive RacePc :=
| Racing (leg : LegPc)
| DirectOnly (relay_err : BoxError)          (** the relay leg failed *)
| RelayOnly (leg : LegPc)                    (** the direct path gave up *)
| ClosingLoser (leg : LegPc)                 (** direct won; the leg was told to abandon *)
| DirectSession
| RelaySession (leg : ParkedRelayLeg)
| RaceFailed (e : BoxError).
Inductive RaceEvent :=
| RelayEvent (e : LegEvent)
| DirectEnds (r : result unit BoxError)      (** accepted and handshaken, or not within the window *)
| LoserBound.                                (** twice the close timeout is over *)

Definition abandoned_undecided : BoxError :=
  {| text := "relay leg abandoned before the race was decided (#22)"; chain := [OtherError] |}.
(** Direct won and the leg has been polled once more: wait for it, or start the session. *)
Definition loser_polled (leg : LegPc) : RacePc * list LegAct :=
  match leg with
  | LegDone (Ok (LegAdmitted l)) => (DirectSession, [close_leg l])
  | LegDone _ => (DirectSession, [])
  | leg => (ClosingLoser leg, [])
  end.
Definition then_polled (next : LegPc * list LegAct) : RacePc * list LegAct :=
  let '(pc, acts) := loser_polled next.1 in (pc, next.2 ++ acts).
Definition relay_polled (alone : bool) (next : LegPc * list LegAct) : RacePc * list LegAct :=
  (match next.1 with
   | LegDone (Ok (LegAdmitted leg)) => RelaySession leg
   | LegDone (Ok LegAbandoned) => RaceFailed abandoned_undecided
   | LegDone (Err e) => if alone then RaceFailed e else DirectOnly e
   | leg => if alone then RelayOnly leg else Racing leg
   end, next.2).

Definition race_start (relay : RelayFallback) : RacePc * list LegAct := relay_polled false (leg_start relay).
Definition race_step (e : RaceEvent) (pc : RacePc) : option (RacePc * list LegAct) :=
  match pc, e with
  | Racing leg, RelayEvent e => let? next := leg_step false e leg in Some (relay_polled false next)
  | Racing leg, DirectEnds (Ok _) => Some (then_polled (leg_abandon leg))
  | Racing leg, DirectEnds (Err _) => Some (RelayOnly leg, [])
  | DirectOnly _, DirectEnds (Ok _) => Some (DirectSession, [])
  | DirectOnly relay_err, DirectEnds (Err _) => Some (RaceFailed relay_err, [])
  | RelayOnly leg, RelayEvent e => let? next := leg_step false e leg in Some (relay_polled true next)
  | ClosingLoser leg, RelayEvent e => let? next := leg_step true e leg in Some (then_polled next)
  | ClosingLoser leg, LoserBound => Some (DirectSession, [])
  | _, _ => None
  end.
Fixpoint race_run (es : list RaceEvent) (s : RacePc * list LegAct) : option (RacePc * list LegAct) :=
  match es with
  | [] => Some s
  | e :: es => let? next := race_step e s.1 in race_run es (next.1, s.2 ++ next.2)
  end.
End Leg.

(** [dial_relay_preferring_direct]: the addresses dialed, and the answer. *)
Definition dial_relay_preferring_direct {C} (direct : option SocketAddr) (fallback : SocketAddr)
    (dial : SocketAddr -> option (result C BoxError)) (dial_fallback : result C BoxError) : list SocketAddr * result C BoxError :=
  match direct with
  | Some a => match dial a with
              | Some (Ok c) => ([a], Ok c)
              | _ => ([a; fallback], dial_fallback)
              end
  | None => ([fallback], dial_fallback)
  end.

(** ** The join loop of a relay-only member *)

Inductive DcutrLoopAction :=
| RetryReset (delay consecutive_refusals : Z)
| RetryBounded (next_attempt delay : Z)
| StopLoop.
Definition DCUTR_RETRY_BACKOFF : Z := 200 * MILLI.
Definition ONE_SHOT_DCUTR_ADMISSION_RETRIES : Z := 2.
Definition MAX_CONSECUTIVE_DCUTR_DIAL_FAILURES : Z := 20.

Definition dial_failure_action (consecutive : Z) : option Z :=
  if MAX_CONSECUTIVE_DCUTR_DIAL_FAILURES <=? consecutive then None
  else Some (admission_retry_backoff DCUTR_RETRY_BACKOFF true (sat_sub consecutive 1)).

Section Loop.
Context {T F : Type} `{JitterLaws F} (names_park_expiry : BoxError -> bool).
Context (label : string) (serve_loop : bool) (own_expires_at : option Z).

Definition dcutr_loop_action (r : result T BoxError) (attempt max_one_shot_retries consecutive_refusals : Z) : DcutrLoopAction :=
  let refused := match r with Err e => is_definitive_admission_refusal e | Ok _ => false end in
  let expired := match r with Err e => ServeLoop.is_park_expired names_park_expiry e | Ok _ => false end in
  if serve_loop then
    if expired then RetryReset 0 0
    else if refused then
      RetryReset (admission_retry_backoff DCUTR_RETRY_BACKOFF true consecutive_refusals) (wrap 32 (consecutive_refusals + 1))
    else RetryReset DCUTR_RETRY_BACKOFF 0
  else if refused then StopLoop
  else if negb (is_ok r) && (attempt <? max_one_shot_retries) then
    RetryBounded (attempt + 1) (if expired then 0 else DCUTR_RETRY_BACKOFF)
  else StopLoop.

Definition own_expiry_ends_dcutr_loop (at_ : Z) : BoxError :=
  let reason := ("this member's channel grant expired (expires_at " +:+ show at_ +:+ ")")%string in
  {| text := reason; chain := [OwnGrantEnded reason] |}.
Definition own_grant_ended (reason : string) : BoxError := {| text := reason; chain := [OwnGrantEnded reason] |}.
Definition giving_up (dials : Z) (e : BoxError) : BoxError :=
  {| text := label +:+ ": giving up after " +:+ show dials +:+ " consecutive dial failures: " +:+ text e; chain := [OtherError] |}.

(** What one turn meets: the clock at its top, how the join ended ([None]: the own grant's timer fired
    first), the clock then, the random number of the wait, and whether the timer cut that wait. *)
Record Turn := { top : Z; joined : option (result (result T BoxError) BoxError); after_join : Z; rand01 : F; wait_cut : bool }.
Inductive LoopAct := Joins | Waits (d : Z).

(** [backoff_within_grant]: the error when the own grant's timer cuts the wait. *)
Definition backoff_within_grant (t : Turn) : option BoxError :=
  match own_expires_at with
  | Some at_ => if wait_cut t then Some (own_expiry_ends_dcutr_loop at_) else None
  | None => None
  end.
(** What the loop does after a join: end, or wait ([guarded]: unless the own grant ends first) and go on
    with these counts of the attempt, of refusals and of failed dials in a row. *)
Inductive Verdict := Ends (r : result T BoxError) | GoesOn (guarded : bool) (delay attempt refusals dials : Z).
Definition turn_verdict (t : Turn) (j : result (result T BoxError) BoxError) (attempt refusals dials : Z) : Verdict :=
  match j with
  | Err e =>
      if serve_loop then
        let dials := ServeLoop.bump dials in
        match dial_failure_action dials with
        | Some delay => GoesOn true (equal_jitter delay (rand01 t)) attempt refusals dials
        | None => Ends (Err (giving_up dials e))
        end
      else Ends (Err e)
  | Ok r =>
      match (match own_expires_at, r with
             | Some _, Err e => own_grant_refusal e own_expires_at (after_join t)
             | _, _ => None
             end) with
      | Some reason => Ends (Err (own_grant_ended reason))
      | None =>
          match dcutr_loop_action r attempt ONE_SHOT_DCUTR_ADMISSION_RETRIES refusals with
          | RetryReset delay refusals => GoesOn true (equal_jitter delay (rand01 t)) 0 refusals 0
          | RetryBounded next delay => GoesOn false delay next refusals 0
          | StopLoop => Ends r
          end
      end
  end.
Definition expired_at_top (t : Turn) : bool := match own_expires_at with Some at_ => at_ <=? top t | None => false end.
Definition own_end : BoxError := own_expiry_ends_dcutr_loop (default 0 own_expires_at).
(** [run_dcutr_join_loop]; [None]: the turns are not enough to end it. *)
Fixpoint dcutr_loop (turns : list Turn) (attempt refusals dials : Z) : list LoopAct * option (result T BoxError) :=
  match turns with
  | [] => ([], None)
  | t :: turns =>
      if expired_at_top t then ([], Some (Err own_end))
      else
        match joined t with
        | None => ([Joins], match own_expires_at with Some _ => Some (Err own_end) | None => None end)
        | Some j =>
            match turn_verdict t j attempt refusals dials with
            | Ends r => ([Joins], Some r)
            | GoesOn guarded d attempt refusals dials =>
                match (if guarded then backoff_within_grant t else None) with
                | Some e => ([Joins; Waits d], Some (Err e))
                | None =>
                    let '(acts, r) := dcutr_loop turns attempt refusals dials in
                    (Joins :: Waits d :: acts, r)
                end
            end
        end
  end.
Definition run_dcutr_join_loop (turns : list Turn) : list LoopAct * option (result T BoxError) := dcutr_loop turns 0 0 0.
End Loop.

(** ** Theorems: the race *)

Definition relay_events (es : list RaceEvent) : list LegEvent := omap (fun e => match e with RelayEvent e => Some e | _ => None end) es.
Definition direct_wins (es : list RaceEvent) : bool := existsb (fun e => match e with DirectEnds (Ok _) => true | _ => false end) es.
Definition direct_gave_up (es : list RaceEvent) : bool := existsb (fun e => match e with DirectEnds (Err _) => true | _ => false end) es.
(** Whether a connection is left on which a join was presented and that was not closed. *)
Definition held (acts : list LegAct) : bool :=
  fold_left (fun h a => match a with LegPresent _ => true | CloseQuic | CloseStream => false | LegDial _ => h end) acts false.
Definition undecided (leg : LegPc) : bool := match leg with LegDone _ => false | _ => true end.
Definition presenting (leg : LegPc) : bool := match leg with OnQuic | OnStream => true | _ => false end.

Section Race.
Context (markers : bool) (pair_bound : Z) (relay : RelayFallback).
Notation step := (race_step markers pair_bound).
Notation run := (race_run markers pair_bound).
Notation on_leg := (leg_event markers pair_bound).

(** The relay leg on its own, never told to abandon. *)
Fixpoint leg_run (es : list LegEvent) (pc : LegPc) : option LegPc :=
  match es with [] => Some pc | e :: es => let? next := on_leg e pc in leg_run es next.1 end.
Definition alone (es : list RaceEvent) : option LegPc := leg_run (relay_events es) (leg_start markers relay).1.

Lemma leg_run_snoc es e pc : leg_run (es ++ [e]) pc = let? pc := leg_run es pc in let? next := on_leg e pc in Some next.1.
Proof.
  revert pc. induction es as [|e1 es IH]; intros pc; cbn; [by destruct (on_leg e pc)|]. by destruct (on_leg e1 pc).
Qed.
Lemma held_app acts l : held (acts ++ l) = fold_left (fun h a => match a with LegPresent _ => true | CloseQuic | CloseStream => false | LegDial _ => h end) l (held acts).
Proof. unfold held. by rewrite fold_left_app. Qed.
Lemma leg_event_held e pc pc' acts l : on_leg e pc = Some (pc', l) -> held acts = presenting pc ->
  undecided pc' = true -> held (acts ++ l) = presenting pc'.
Proof.
  intros He Hh Hu. rewrite held_app. unfold leg_event, next_rung, present_on_quic in He.
  repeat (case_match; simplify_eq/=); done.
Qed.
Lemma leg_abandon_held pc acts : held acts = presenting pc -> undecided pc = true -> held (acts ++ (leg_abandon pc).2) = false /\
  match (leg_abandon pc).1 with LegDone (Ok LegAbandoned) | StreamClosing _ => True | _ => False end.
Proof. intros Hh Hu. rewrite held_app, Hh. by destruct pc. Qed.

(** What is known after the events [es], which did [acts]. *)
Definition race_inv (es : list RaceEvent) (s : RacePc * list LegAct) : Prop :=
  match s.1 with
  | Racing leg => alone es = Some leg /\ undecided leg = true /\ held s.2 = presenting leg /\ direct_wins es = false
  | DirectOnly e => alone es = Some (LegDone (Err e)) /\ direct_wins es = false
  | RelayOnly leg => alone es = Some leg /\ undecided leg = true /\ held s.2 = presenting leg /\ direct_wins es = false /\ direct_gave_up es = true
  | ClosingLoser leg => (exists r, leg = StreamClosing r) /\ held s.2 = false /\ direct_wins es = true
  | DirectSession => direct_wins es = true /\ (held s.2 = false \/ exists e, alone es = Some (LegDone (Err e)))
  | RelaySession leg => alone es = Some (LegDone (Ok (LegAdmitted leg))) /\ direct_wins es = false
  | RaceFailed e => alone es = Some (LegDone (Err e)) /\ direct_wins es = false /\ direct_gave_up es = true
  end.

(** A leg nobody abandons never ends as abandoned. *)
Definition not_abandoned (pc : LegPc) : Prop := match pc with StreamClosing (Ok _) | LegDone (Ok LegAbandoned) => False | _ => True end.
Lemma leg_event_not_abandoned e pc next : on_leg e pc = Some next -> not_abandoned pc -> not_abandoned next.1.
Proof.
  unfold leg_event, next_rung, present_on_quic, leg_answer. intros He Hs.
  repeat (case_match; simplify_eq/=); try done; repeat match goal with r : result _ _ |- _ => destruct r; simplify_eq/= | o : ChannelJoinOutcome |- _ => destruct o; simplify_eq/= end; done.
Qed.
Lemma alone_not_abandoned es pc : alone es = Some pc -> not_abandoned pc.
Proof.
  unfold alone. assert (not_abandoned (leg_start markers relay).1) as Hs by (destruct relay as [|?|[]]; done).
  revert Hs. generalize (leg_start markers relay).1. induction (relay_events es) as [|e es' IH]; intros p0 Hs; cbn; [by intros [= <-]|].
  destruct (on_leg e p0) as [n|] eqn:E; [|done]. apply IH. by eapply leg_event_not_abandoned.
Qed.

Lemma alone_relay es e : alone (es ++ [RelayEvent e]) = let? pc := alone es in let? next := on_leg e pc in Some next.1.
Proof. unfold alone, relay_events. rewrite omap_app. apply leg_run_snoc. Qed.
Lemma alone_direct es r : alone (es ++ [DirectEnds r]) = alone es.
Proof. unfold alone, relay_events. rewrite omap_app. cbn. by rewrite app_nil_r. Qed.
Lemma direct_wins_app es e : direct_wins (es ++ [e]) = direct_wins es || match e with DirectEnds (Ok _) => true | _ => false end.
Proof. unfold direct_wins. rewrite existsb_app. cbn. by rewrite orb_false_r. Qed.
Lemma direct_gave_up_app es e : direct_gave_up (es ++ [e]) = direct_gave_up es || match e with DirectEnds (Err _) => true | _ => false end.
Proof. unfold direct_gave_up. rewrite existsb_app. cbn. by rewrite orb_false_r. Qed.

Lemma race_relay_step es acts leg e next only : alone es = Some leg -> undecided leg = true -> held acts = presenting leg ->
  direct_wins es = false -> (only = true -> direct_gave_up es = true) -> on_leg e leg = Some next ->
  race_inv (es ++ [RelayEvent e]) ((relay_polled only next).1, acts ++ (relay_polled only next).2).
Proof.
  intros Ha Hu Hh Hd Hg He. pose proof (alone_relay es e) as Hr. rewrite Ha, He in Hr.
  pose proof (alone_not_abandoned _ _ Hr) as Hn. unfold relay_polled, race_inv. destruct next as [pc l]. cbn [fst snd] in *.
  assert (undecided pc = true -> held (acts ++ l) = presenting pc) as Hl by (intros ?; by eapply leg_event_held).
  destruct pc as [| | | | |[[]|]]; destruct only; cbn in *; rewrite ?direct_wins_app, ?direct_gave_up_app, ?Hd; cbn;
    first [done|repeat split; rewrite ?(Hg eq_refl); auto].
Qed.

Lemma leg_step_live e leg : undecided leg = true -> leg_step markers pair_bound false e leg = on_leg e leg.
Proof. by destruct leg. Qed.
Lemma race_inv_step es s e next : race_inv es s -> step e s.1 = Some next -> race_inv (es ++ [e]) (next.1, s.2 ++ next.2).
Proof.
  destruct s as [pc acts]. unfold race_inv at 1. cbn [fst snd]. intros Hi Hs.
  destruct pc as [leg|re|leg|leg| |leg|e0]; cbn in Hs.
  - destruct Hi as (Ha & Hu & Hh & Hd). destruct e as [e|[[]|d]|]; [| | |done].
    + rewrite leg_step_live in Hs by done. destruct (on_leg e leg) as [n|] eqn:E; [|done]. injection Hs as <-. by eapply race_relay_step.
    + injection Hs as <-. pose proof (leg_abandon_held leg acts Hh Hu) as [Hc Hp]. unfold then_polled, loser_polled.
      destruct (leg_abandon leg) as [pc l]. cbn [fst snd] in *. unfold race_inv.
      destruct pc as [| | | |r|[[]|]]; cbn [fst snd]; try done; rewrite ?app_nil_r, direct_wins_app, Hd; cbn; eauto.
    + injection Hs as <-. unfold race_inv. cbn. rewrite alone_direct, direct_wins_app, direct_gave_up_app, app_nil_r, Hd, orb_true_r. done.
  - destruct Hi as [Ha Hd]. destruct e as [|[[]|d]|]; simplify_eq/=; unfold race_inv; cbn;
      rewrite alone_direct, ?direct_wins_app, ?direct_gave_up_app, Hd, ?orb_true_r; eauto.
  - destruct Hi as (Ha & Hu & Hh & Hd & Hg). destruct e as [e|r|]; [|done..].
    rewrite leg_step_live in Hs by done. destruct (on_leg e leg) as [n|] eqn:E; [|done]. injection Hs as <-. by eapply race_relay_step.
  - destruct Hi as ([r ->] & Hh & Hd). destruct e as [e|[]|]; try done; cbn in Hs.
    + destruct e; try done. injection Hs as <-. unfold then_polled, loser_polled. cbn. unfold race_inv.
      destruct r as [[]|]; cbn; rewrite direct_wins_app, Hd, ?app_nil_r; cbn; auto. split; [done|]. left. rewrite fold_left_app. by destruct leg.
    + injection Hs as <-. unfold race_inv. cbn. rewrite direct_wins_app, Hd, app_nil_r. auto.
  - done.
  - done.
  - done.
Qed.

Lemma race_run_inv es s : run es (race_start markers relay) = Some s -> race_inv es s.
Proof.
  assert (race_inv [] (race_start markers relay)) as H0 by (unfold race_inv, alone; destruct relay as [| |[]]; done).
  revert H0. generalize (race_start markers relay) as s0.
  enough (forall s0 done, race_inv done s0 -> run es s0 = Some s -> race_inv (done ++ es) s) as Hx by (intros s0 ?; by apply (Hx s0 [])).
  induction es as [|e es IH]; intros s0 dn Hi; cbn; [intros [= <-]; by rewrite app_nil_r|].
  destruct (step e s0.1) as [n|] eqn:E; [|done]. intros Hr. rewrite cons_middle, app_assoc. eapply IH; [|done]. by eapply race_inv_step.
Qed.

Definition decided (pc : RacePc) : bool := match pc with DirectSession | RelaySession _ | RaceFailed _ => true | _ => false end.
(** C37: The race is decided once, by its two paths.  The session runs on the relay leg only if the leg was
    admitted on its own account and no direct connection had come; it runs on the direct connection only
    if one came, and then no connection is left on which a join is presented, unless the leg had already
    failed by itself; the race fails only when both paths did, with the leg's error; and from a decision
    on nothing happens any more. *)
Theorem race_is_decided_once es pc acts : run es (race_start markers relay) = Some (pc, acts) ->
  match pc with
  | RelaySession leg => alone es = Some (LegDone (Ok (LegAdmitted leg))) /\ direct_wins es = false
  | DirectSession => direct_wins es = true /\ (held acts = false \/ exists e, alone es = Some (LegDone (Err e)))
  | RaceFailed e => alone es = Some (LegDone (Err e)) /\ direct_wins es = false /\ direct_gave_up es = true
  | ClosingLoser _ => direct_wins es = true /\ held acts = false
  | Racing _ | DirectOnly _ | RelayOnly _ => direct_wins es = false
  end /\ forall e, decided pc = true -> step e pc = None.
Proof.
  intros Hi%race_run_inv. split; [|by destruct pc]. unfold race_inv in Hi. cbn in Hi. destruct pc; tauto.
Qed.

(** How many steps are left at most. *)
Definition leg_left (pc : LegPc) : nat :=
  match pc with LazyDialing => 3 | RungDialing _ later _ => 3 + length later | OnQuic => 1 | OnStream => 2 | StreamClosing _ => 1 | LegDone _ => 0 end.
Definition race_left (pc : RacePc) : nat :=
  match pc with
  | Racing leg => leg_left leg + 2
  | DirectOnly _ => 1
  | RelayOnly leg => leg_left leg
  | ClosingLoser leg => match leg with LegDone _ | StreamClosing _ => 1 | _ => 2 end
  | _ => 0
  end.
Lemma leg_event_left e leg next : on_leg e leg = Some next -> (leg_left next.1 < leg_left leg)%nat.
Proof. unfold leg_event, next_rung, present_on_quic. intros. repeat (case_match; simplify_eq/=); lia. Qed.
Lemma relay_polled_left e leg m (only : bool) : leg_step markers pair_bound false e leg = Some m ->
  (race_left (relay_polled only m).1 < leg_left leg + if only then 0 else 2)%nat.
Proof.
  intros Hs. assert (on_leg e leg = Some m) as Hl%leg_event_left by (by destruct leg).
  unfold relay_polled. destruct m as [pc l]; cbn [fst snd] in *. destruct pc as [| | | | |[[]|]], only; cbn in *; lia.
Qed.
Lemma then_polled_left leg : undecided leg = true -> (race_left (then_polled (leg_abandon leg)).1 <= 1)%nat.
Proof. destruct leg as [| | | |[[]|]|]; cbn; try done; lia. Qed.
Lemma race_step_left e pc next : step e pc = Some next -> (race_left next.1 < race_left pc)%nat.
Proof.
  destruct pc as [leg|re|leg|leg| |leg|e0]; cbn [race_step race_left]; try done.
  - destruct e as [e|[[]|d]|]; [| | |done].
    + destruct (leg_step _ _ false e leg) as [m|] eqn:Hs; [|done]. intros [= <-]. exact (relay_polled_left _ _ _ false Hs).
    + intros [= <-]. destruct (undecided leg) eqn:Hu; [pose proof (then_polled_left leg Hu); lia|]. destruct leg as [| | | | |[[]|]]; try done; cbn; lia.
    + intros [= <-]. cbn. lia.
  - destruct e as [|[[]|d]|]; intros; simplify_eq/=; lia.
  - destruct e as [e|r|]; [|done..]. destruct (leg_step _ _ false e leg) as [m|] eqn:Hs; [|done]. intros [= <-].
    eapply (relay_polled_left _ _ _ true) in Hs. lia.
  - destruct e as [e|r|]; [|done|intros [= <-]; destruct leg; cbn; lia].
    destruct leg as [| | | |r|r]; [..|done]; try (intros [= <-]; cbn; lia).
    destruct e; try done. intros [= <-]. destruct r as [[]|]; cbn; lia.
Qed.

(** The race always ends: it takes no more steps than there are rungs, and five; and until it is decided
    the answer it waits for is one it can take. *)
Theorem race_ends es pc acts : run es (race_start markers relay) = Some (pc, acts) ->
  (length es <= (match relay with Ladder rungs => length rungs | _ => 0 end) + 5)%nat /\
  (decided pc = false -> exists e, step e pc <> None).
Proof.
  intros Hr. split.
  - assert (forall s, run es s = Some (pc, acts) -> (length es + race_left pc <= race_left s.1)%nat) as Hx.
    { clear Hr. induction es as [|e es IH]; intros s; cbn; [by intros [= ->]|].
      destruct (step e s.1) as [n|] eqn:E; [|done]. intros Hn. apply IH in Hn. apply race_step_left in E. cbn in Hn. lia. }
    apply Hx in Hr. destruct relay as [| |[]]; cbn in *; lia.
  - apply race_run_inv in Hr. unfold race_inv in Hr. cbn in Hr. destruct pc as [leg|re|leg|leg| |leg|e0]; try done; intros _.
    + by exists (DirectEnds (Ok tt)).
    + by exists (DirectEnds (Ok tt)).
    + destruct Hr as (_ & Hu & _). destruct leg as [|rung later last| | | |]; try done.
      * by exists (RelayEvent (LegDialed (Ok true))).
      * by exists (RelayEvent (LegDialed (Ok true))).
      * by exists (RelayEvent (LegAnswer (Ok JoinParkExpired))).
      * by exists (RelayEvent (LegAnswer (Ok JoinParkExpired))).
      * by exists (RelayEvent ShutdownOver).
    + by exists LoserBound.
Qed.
End Race.

(** The loser's shutdown is always waited for: its own timeout is over before the race's. *)
Lemma loser_is_waited_for (takes : Z) : 0 <= takes ->
  let '(shut, at_) := within RELAY_LEG_CLOSE_TIMEOUT (tt, takes) in (within (2 * RELAY_LEG_CLOSE_TIMEOUT) (shut, at_)).1 = Some shut.
Proof.
  intros Ht. unfold within. cbn [fst snd]. unfold RELAY_LEG_CLOSE_TIMEOUT, SECOND. destruct (Z.leb_spec takes (2 * 1000000000)); cbn [fst snd];
    by rewrite (proj2 (Z.leb_le _ _)) by lia.
Qed.

Lemma pair_bound_range v : 35 * SECOND <= relay_pair_bound_from_env v <= 300 * SECOND.
Proof.
  unfold relay_pair_bound_from_env, RELAY_PAIR_BOUND_DEFAULT, RELAY_PAIR_BOUND_MIN_SECS, RELAY_PAIR_BOUND_MAX_SECS, SECOND.
  destruct (let? s := v in _) as [n|]; lia.
Qed.

(** ** Theorems: the join loop *)

Section LoopTheorems.
Context {T F : Type} `{JitterLaws F} (names_park_expiry : BoxError -> bool) (label : string).
Notation loop serve own := (dcutr_loop (T := T) names_park_expiry label serve own).
Notation verdict serve own := (turn_verdict (T := T) names_park_expiry label serve own).
Notation Turn := (Turn (T := T) (F := F)).
Notation MAX := MAX_CONSECUTIVE_DCUTR_DIAL_FAILURES.

Definition dial_failed (t : Turn) : Prop := exists e, joined t = Some (Err e).
Definition own_grant_over (own : option Z) (e : BoxError) : Prop := is_own_grant_end (chain e) = true /\ is_Some own.

(** One turn of a serving member: it goes on with its dials counted, or ends for one of two reasons. *)
Lemma serve_verdict own t j attempt refusals dials : 0 <= dials < MAX ->
  match verdict true own t j attempt refusals dials with
  | Ends r => exists e, r = Err e /\ (own_grant_over own e \/ exists e0, j = Err e0 /\ dials + 1 = MAX /\ e = giving_up label MAX e0)
  | GoesOn guarded _ _ _ dials' =>
      guarded = true /\ (dials' = 0 \/ (exists e0, j = Err e0) /\ dials' = dials + 1 /\ dials' < MAX)
  end.
Proof.
  unfold MAX_CONSECUTIVE_DCUTR_DIAL_FAILURES. intros Hd. unfold turn_verdict. destruct j as [r|e].
  - destruct (match own with Some _ => _ | None => _ end) as [reason|] eqn:Eo.
    + eexists. split; [done|]. left. split; [done|]. by destruct own.
    + unfold dcutr_loop_action. destruct r as [v|e]; [by split; [|left]|].
      destruct (ServeLoop.is_park_expired _ e); [by split; [|left]|]. by destruct (is_definitive_admission_refusal e); (split; [|left]).
  - unfold dial_failure_action, ServeLoop.bump, U32_MAX, MAX_CONSECUTIVE_DCUTR_DIAL_FAILURES. rewrite Z.min_r by lia.
    destruct (Z.leb_spec 20 (dials + 1)).
    + eexists. split; [done|]. right. exists e. split; [done|]. assert (dials + 1 = 20) as -> by lia. done.
    + split; [done|]. right. split; [by exists e|]. lia.
Qed.

Lemma own_end_over own : is_Some own -> own_grant_over own (own_end own).
Proof. by split. Qed.

Lemma serve_ends own turns attempt refusals dials acts r : 0 <= dials < MAX ->
  loop true own turns attempt refusals dials = (acts, Some r) ->
  exists e, r = Err e /\ (own_grant_over own e \/
    exists before failed rest last, turns = before ++ failed ++ rest /\ Forall dial_failed failed /\ e = giving_up label MAX last /\
      (Zlen failed = MAX \/ before = [] /\ Zlen failed = MAX - dials)).
Proof.
  revert attempt refusals dials acts. induction turns as [|t turns IH]; intros attempt refusals dials acts Hd; cbn [dcutr_loop]; [done|].
  assert (is_Some own -> exists e, Err (own_end own) = Err (A := T) e /\ (own_grant_over own e \/
    exists before failed rest last, t :: turns = before ++ failed ++ rest /\ Forall dial_failed failed /\ e = giving_up label MAX last /\
      (Zlen failed = MAX \/ before = [] /\ Zlen failed = MAX - dials))) as Hown by (intros ?; eexists; split; [done|left; by apply own_end_over]).
  destruct (expired_at_top own t) eqn:Et; [intros [= _ <-]; apply Hown; by destruct own|].
  destruct (joined t) as [j|] eqn:Ej; [|destruct own; [intros [= _ <-]; by apply Hown|done]].
  pose proof (serve_verdict own t j attempt refusals dials Hd) as Hv.
  destruct (verdict true own t j attempt refusals dials) as [r1|g d a rf dl].
  - intros [= _ <-]. destruct Hv as (e & -> & [?|(e0 & -> & Hn & ->)]); eexists; (split; [done|]); [by left|right].
    exists [], [t], turns, e0. split; [done|]. split; [by repeat econstructor|]. split; [done|]. right. split; [done|]. cbn. lia.
  - destruct Hv as [-> Hv]. unfold backoff_within_grant.
    destruct (match own with Some _ => _ | None => _ end) as [e|] eqn:Eb.
    { intros [= _ <-]. destruct own; [|done]. destruct (wait_cut t); [|done]. injection Eb as <-. by apply Hown. }
    destruct (loop true own turns a rf dl) as [acts1 r1] eqn:El. intros [= _ ->].
    destruct (IH a rf dl acts1) as (e & -> & Hc); [unfold MAX_CONSECUTIVE_DCUTR_DIAL_FAILURES in *; lia|done|].
    exists e. split; [done|]. destruct Hc as [?|(before & failed & rest & last & -> & Hf & -> & Hl)]; [by left|right].
    destruct Hl as [Hl|[-> Hl]].
    + exists (t :: before), failed, rest, last. repeat split; [done|]. by left.
    + destruct Hv as [->|((e0 & ->) & -> & _)].
      * exists [t], failed, rest, last. repeat split; [done|]. left. lia.
      * exists [], (t :: failed), rest, last. split; [done|]. split; [constructor; [by exists e0|done]|]. split; [done|].
        right. split; [done|]. rewrite length_cons. lia.
Qed.

(** A serving relay-only member ends its loop for two reasons only: its own grant is over -- and then
    the error says so to whoever maps it to the exit status -- or twenty dials in a row have failed.
    Sessions, refusals, expired parks and lost connections never end it, and it never ends well. *)
Theorem serving_loop_ends_for_cause own (turns : list Turn) acts r : run_dcutr_join_loop names_park_expiry label true own turns = (acts, Some r) ->
  exists e, r = Err e /\ (own_grant_over own e \/
    exists before failed rest last, turns = before ++ failed ++ rest /\ Forall dial_failed failed /\ Zlen failed = MAX /\
      e = giving_up label MAX last).
Proof.
  intros (e & -> & Hc)%serve_ends; [|by vm_compute]. exists e. split; [done|]. destruct Hc as [?|(b & f & rest & last & -> & Hf & -> & Hl)]; [by left|right].
  exists b, f, rest, last. repeat split; [done|]. destruct Hl as [?|[_ ?]]; [done|lia].
Qed.

(** What a one-shot join retries: an error that is no refusal and no failed dial. *)
Definition retryable (j : result (result T BoxError) BoxError) : bool :=
  match j with Ok (Err e) => negb (is_definitive_admission_refusal e) | _ => false end.
Definition outcome (j : result (result T BoxError) BoxError) : result T BoxError := let* r := j in r.
Definition joins (acts : list LoopAct) : Z := Zlen (List.filter (fun a => match a with Joins => true | Waits _ => false end) acts).

Lemma one_shot_verdict t j attempt refusals dials : verdict false None t j attempt refusals dials =
  if retryable j && (attempt <? ONE_SHOT_DCUTR_ADMISSION_RETRIES) then
    GoesOn false (if match j with Ok (Err e) => ServeLoop.is_park_expired names_park_expiry e | _ => false end then 0 else DCUTR_RETRY_BACKOFF)
      (attempt + 1) refusals 0
  else Ends (outcome j).
Proof.
  unfold turn_verdict, dcutr_loop_action, retryable, outcome. destruct j as [[v|e]|e]; cbn; try done.
  destruct (is_definitive_admission_refusal e); cbn; [done|]. by destruct (attempt <? _).
Qed.

Lemma one_shot_loop turns attempt refusals dials : 0 <= attempt <= ONE_SHOT_DCUTR_ADMISSION_RETRIES ->
  Forall (fun t : Turn => is_Some (joined t)) turns -> ONE_SHOT_DCUTR_ADMISSION_RETRIES - attempt < Zlen turns ->
  exists tried t j rest acts, turns = tried ++ t :: rest /\ joined t = Some j /\
    loop false None turns attempt refusals dials = (acts, Some (outcome j)) /\ joins acts = Zlen tried + 1 /\
    Forall (fun t => exists j, joined t = Some j /\ retryable j = true) tried /\
    attempt + Zlen tried <= ONE_SHOT_DCUTR_ADMISSION_RETRIES /\
    (retryable j = true -> attempt + Zlen tried = ONE_SHOT_DCUTR_ADMISSION_RETRIES).
Proof.
  revert attempt refusals dials. induction turns as [|t turns IH]; intros attempt refusals dials Ha Hj Hl; [cbn in Hl; lia|].
  inversion Hj as [|? ? [j Et] Hj']; subst. cbn [dcutr_loop expired_at_top]. rewrite Et, one_shot_verdict.
  destruct (retryable j) eqn:Er; cbn [andb]; [destruct (Z.ltb_spec attempt ONE_SHOT_DCUTR_ADMISSION_RETRIES) as [Hlt|Hge]|].
  - destruct (IH (attempt + 1) refusals 0) as (tried & t1 & j1 & rest & acts & -> & Ht & Hrun & Hn & Hf & Hle & Hr); [lia|done|rewrite length_cons in Hl; lia|].
    rewrite Hrun. exists (t :: tried), t1, j1, rest. eexists. split; [done|]. split; [done|]. split; [done|]. rewrite length_cons.
    split; [unfold joins in *; cbn; lia|]. split; [constructor; [by exists j|done]|]. split; [lia|intros Hx; specialize (Hr Hx); lia].
  - exists [], t, j, turns. eexists. repeat split; try done; solve [constructor | cbn; lia | congruence].
  - exists [], t, j, turns. eexists. repeat split; try done; solve [constructor | cbn; lia | congruence].
Qed.

(** C38: A one-shot relay-only join always returns, after at most three joins: what it returns is what the
    last of them answered, every join before it failed in a way that may pass, and it stops early for
    everything else -- a session that ran, a refusal, a dial that failed. *)
Theorem one_shot_join_returns (turns : list Turn) : Forall (fun t => is_Some (joined t)) turns -> 3 <= Zlen turns ->
  exists tried t j rest acts, turns = tried ++ t :: rest /\ joined t = Some j /\
    run_dcutr_join_loop names_park_expiry label false None turns = (acts, Some (outcome j)) /\ joins acts = Zlen tried + 1 /\ joins acts <= 3 /\
    Forall (fun t => exists j, joined t = Some j /\ retryable j = true) tried /\ (retryable j = true -> joins acts = 3).
Proof.
  intros Hj Hl. destruct (one_shot_loop turns 0 0 0) as (tried & t & j & rest & acts & Ht & Hjt & Hr & Hn & Hf & Hle & Hx);
    [by vm_compute|done|unfold ONE_SHOT_DCUTR_ADMISSION_RETRIES; lia|].
  unfold ONE_SHOT_DCUTR_ADMISSION_RETRIES in *. exists tried, t, j, rest, acts. repeat split; try done; [lia|]. intros E. specialize (Hx E). lia.
Qed.

(** Only an expired park is retried at once: after anything else a serving member waits at least a tenth
    of a second, and never more than thirty. *)
Lemma serving_waits own t j attempt refusals dials g d a rf dl : 0 <= refusals -> 0 <= dials < MAX ->
  verdict true own t j attempt refusals dials = GoesOn g d a rf dl ->
  0 <= d <= 30 * SECOND /\ (d < 100 * MILLI -> exists e, j = Ok (Err e) /\ ServeLoop.is_park_expired names_park_expiry e = true).
Proof.
  intros Hr Hd. assert (forall n, 0 <= n -> 200 * MILLI <= admission_retry_backoff DCUTR_RETRY_BACKOFF true n <= 30 * SECOND) as Hb.
  { intros n Hn. rewrite (proj1 (admission_backoffs_closed_form DCUTR_RETRY_BACKOFF n ltac:(by vm_compute) Hn)).
    assert (1 <= 2 ^ Z.min n 16) by (pose proof (Z.pow_pos_nonneg 2 (Z.min n 16)); lia).
    unfold DCUTR_RETRY_BACKOFF, MILLI, SECOND in *. lia. }
  assert (forall b x, 200 * MILLI <= b <= 30 * SECOND -> 100 * MILLI <= equal_jitter b x <= 30 * SECOND) as Hj.
  { intros b x Hb0. pose proof (equal_jitter_range b x ltac:(unfold MILLI, SECOND in *; lia)).
    assert (100 * MILLI <= b / 2) by (apply Z.div_le_lower_bound; lia). lia. }
  unfold turn_verdict. destruct j as [r|e].
  - destruct (match own with Some _ => _ | None => _ end); [done|]. unfold dcutr_loop_action.
    destruct r as [v|e]; cbn [is_ok].
    + intros [= _ <- _ _ _]. pose proof (Hj DCUTR_RETRY_BACKOFF (rand01 t) ltac:(by vm_compute)). split; [unfold MILLI in *; lia|lia].
    + destruct (ServeLoop.is_park_expired names_park_expiry e) eqn:Ep.
      * intros [= _ <- _ _ _]. pose proof (equal_jitter_range 0 (rand01 t) ltac:(lia)) as Hz. split; [change (0 / 2) with 0 in Hz; unfold SECOND; lia|]. intros _. by exists e.
      * destruct (is_definitive_admission_refusal e); intros [= _ <- _ _ _].
        -- pose proof (Hj _ (rand01 t) (Hb refusals Hr)). split; [unfold MILLI in *; lia|lia].
        -- pose proof (Hj DCUTR_RETRY_BACKOFF (rand01 t) ltac:(by vm_compute)). split; [unfold MILLI in *; lia|lia].
  - unfold dial_failure_action. destruct (_ <=? _); [done|]. intros [= _ <- _ _ _].
    pose proof (Hj _ (rand01 t) (Hb (sat_sub (ServeLoop.bump dials) 1) ltac:(unfold sat_sub; lia))). split; [unfold MILLI in *; lia|lia].
Qed.
End LoopTheorems.

(** ** Concrete inputs *)

(** The direct connection comes while the leg is parked behind the front door: the stream is shut down
    before the session starts; without it the admitted leg is taken. *)
Definition demo_relay : RelayFallback := Ladder demo_rungs.
Definition demo_blocked : list RaceEvent := [RelayEvent (LegDialed (Err Unreachable)); RelayEvent (LegDialed (Ok true))].
Definition demo_direct_wins : list RaceEvent := demo_blocked ++ [DirectEnds (Ok tt); RelayEvent ShutdownOver].
Definition demo_relay_wins : list RaceEvent :=
  demo_blocked ++ [DirectEnds (Err {| text := "no direct connection within 8s"; chain := [OtherError] |});
                   RelayEvent (LegAnswer (Ok (PeerAdmitted demo_admission)))].
Example direct_wins_run : race_run true RELAY_PAIR_BOUND_DEFAULT demo_direct_wins (race_start true demo_relay) =
  Some (DirectSession, [LegDial (nth 0 demo_rungs {| endpoint := demo_addr 0 0; rung_kind := Direct |});
                        LegDial (nth 1 demo_rungs {| endpoint := demo_addr 0 0; rung_kind := Direct |});
                        LegPresent (RelayStreamJoin (Some Relay)); CloseStream]).
Proof. by vm_compute. Qed.

Lemma race_is_decided_once_witness :
  alone true RELAY_PAIR_BOUND_DEFAULT demo_relay demo_relay_wins = Some (LegDone (Ok (LegAdmitted StreamLeg))) /\ direct_wins demo_relay_wins = false.
Proof.
  exact (proj1 (race_is_decided_once true RELAY_PAIR_BOUND_DEFAULT demo_relay demo_relay_wins (RelaySession StreamLeg)
    [LegDial (nth 0 demo_rungs {| endpoint := demo_addr 0 0; rung_kind := Direct |});
     LegDial (nth 1 demo_rungs {| endpoint := demo_addr 0 0; rung_kind := Direct |}); LegPresent (RelayStreamJoin (Some Relay))]
    ltac:(vm_compute; reflexivity))).
Defined.
Lemma race_ends_witness : (length demo_relay_wins <= 3 + 5)%nat.
Proof.
  exact (proj1 (race_ends true RELAY_PAIR_BOUND_DEFAULT demo_relay demo_relay_wins (RelaySession StreamLeg)
    [LegDial (nth 0 demo_rungs {| endpoint := demo_addr 0 0; rung_kind := Direct |});
     LegDial (nth 1 demo_rungs {| endpoint := demo_addr 0 0; rung_kind := Direct |}); LegPresent (RelayStreamJoin (Some Relay))]
    ltac:(vm_compute; reflexivity))).
Defined.

Definition demo_turn (j : result (result unit BoxError) BoxError) : Turn (T := unit) (F := Z) :=
  {| top := 10; joined := Some j; after_join := 11; rand01 := 2 ^ 52; wait_cut := false |}.
Definition demo_refused : BoxError := dial_error_boxed (Failed (boxed_with_category "edge broker refused the channel join" (Some GRANT_VERIFY_CATEGORY))).
Definition demo_lost : BoxError := {| text := "connection lost"; chain := [OtherError] |}.

(** Refusals are waited out longer and longer, and the own grant's expiry ends the loop. *)
Example refusals_back_off :
  (run_dcutr_join_loop (fun _ => false) "relay-gate" true (Some 100)
    (repeat (demo_turn (Ok (Err demo_refused))) 3 ++ [{| top := 100; joined := None; after_join := 100; rand01 := 0; wait_cut := false |}])) =
  ([Joins; Waits (150 * MILLI); Joins; Waits (300 * MILLI); Joins; Waits (600 * MILLI)],
   Some (Err (own_expiry_ends_dcutr_loop 100))).
Proof. by vm_compute. Qed.

Lemma serving_loop_ends_for_cause_witness :
  exists e, (run_dcutr_join_loop (T := unit) (fun _ => false) "relay-gate" true None (repeat (demo_turn (Err demo_lost)) 20)).2 = Some (Err e) /\
    (own_grant_over None e \/ exists before failed rest last, repeat (demo_turn (Err demo_lost)) 20 = before ++ failed ++ rest /\
       Forall dial_failed failed /\ Zlen failed = MAX_CONSECUTIVE_DCUTR_DIAL_FAILURES /\ e = giving_up "relay-gate" MAX_CONSECUTIVE_DCUTR_DIAL_FAILURES last).
Proof.
  destruct (run_dcutr_join_loop (T := unit) (fun _ => false) "relay-gate" true None (repeat (demo_turn (Err demo_lost)) 20)) as [acts [r|]] eqn:E.
  - destruct (serving_loop_ends_for_cause (fun _ => false) "relay-gate" None _ _ _ E) as (e & -> & He). exists e. split; [reflexivity|exact He].
  - exfalso. vm_compute in E. discriminate E.
Defined.

Lemma one_shot_join_returns_witness :
  Forall (fun t => is_Some (joined t)) (repeat (demo_turn (Ok (Err demo_lost))) 3) /\
  exists tried t j rest acts, repeat (demo_turn (Ok (Err demo_lost))) 3 = tried ++ t :: rest /\ joined t = Some j /\
    run_dcutr_join_loop (fun _ => false) "relay-gate" false None (repeat (demo_turn (Ok (Err demo_lost))) 3) = (acts, Some (outcome j)) /\
    joins acts = Zlen tried + 1 /\ joins acts <= 3.
Proof.
  assert (Forall (fun t => is_Some (joined t)) (repeat (demo_turn (Ok (Err demo_lost))) 3)) as Hj.
  { repeat (apply Forall_cons; split; [eexists; reflexivity|]). apply Forall_nil. exact I. }
  split; [exact Hj|].
  destruct (one_shot_join_returns (T := unit) (F := Z) (fun _ => false) "relay-gate" (repeat (demo_turn (Ok (Err demo_lost))) 3) Hj ltac:(vm_compute; discriminate))
    as (tried & t & j & rest & acts & H1 & H2 & H3 & H4 & H5 & _).
  exists tried, t, j, rest, acts. repeat split; assumption.
Defined.
