(* ===== verification/Session.v ===== *)
(** * Session: one channel session over an established transport ([channel_run/session.rs])

    The Noise handshake under its timeout, the pump raced against a failure of the own side and the end
    of the session's grant, and the drain of the stream before the caller may exit -- as a step function
    of the awaits of [run_channel_session_on_stream] with the clock.  The handshake, the pump and the
    transport are the environment's events.  Instants are nanoseconds. *)
From S2P Require Import Prelude Text.

#[local] Open Scope Z_scope.

Record IoErr := { kind : string; msg : string }.

(** ** Traffic counters *)

Definition count (total n : Z) : Z := wrap 64 (total + n).
(** [CountingWriter::poll_write]: the total and what the caller sees. *)
Definition counting_write (inner : Poll (result Z IoErr)) (total : Z) : Poll (result Z IoErr) * Z :=
  (inner, match inner with Ready (Ok n) => count total n | _ => total end).
(** [CountingReader::poll_read]: what the inner poll left filled in the buffer, of which [before] was. *)
Definition counting_read (inner : Poll (result unit IoErr)) (before filled total : Z) : Poll (result unit IoErr) * Z :=
  (inner, match inner with Ready (Ok _) => count total (filled - before) | _ => total end).
Definition traffic_status_line (uptime sent recv : Z) : string :=
  "ct-agent channel: status uptime=" +:+ show uptime +:+ "s sent=" +:+ show sent +:+ "B recv=" +:+ show recv +:+ "B".
(** [PROCESS_START], set once; [process_uptime_secs]. *)
Definition mark_process_start (now : Z) (start : option Z) : option Z := match start with Some t => Some t | None => Some now end.
Definition process_uptime_secs (now : Z) (start : option Z) : Z * option Z :=
  let t := default now start in (sat_sub now t / SECOND, Some t).

(** [LocalFailSignal::poll_read]: whether the sender is still there, and what it sent. *)
Definition local_poll {A} (polled : Poll (result A IoErr)) (sender : bool) : bool * option IoErr :=
  match polled with
  | Ready (Err e) => if sender then (false, Some e) else (false, None)
  | _ => (sender, None)
  end.

(** ** The session *)

Definition A2A_HANDSHAKE_TIMEOUT : Z := 10 * SECOND.
Definition RELAY_DRAIN_TIMEOUT : Z := 30 * SECOND.
Definition LOCAL_FAILURE_GRACE : Z := 2 * SECOND.
Definition LOCAL_FAILURE_DRAIN : Z := 2 * SECOND.
Definition SEND_DRAIN_TIMEOUT : Z := 30 * SECOND.

(** Where the session stands: the handshake until its deadline; the pump; the pump while the peer may
    still end the session, after [why]; [graceful_stream_drain]'s shutdown and its read to the end, with
    the outcome; and returned. *)
Inductive SessionPc :=
| Handshaking (deadline : Z)
| Pumping
| Grace (why : IoErr) (deadline : Z)
| ShuttingDown (outcome : result unit IoErr) (gave_up : bool)
| ReadingOut (outcome : result unit IoErr) (deadline : Z)
| Returned (outcome : result unit IoErr).
Inductive SessionEvent :=
| HandshakeEnds (r : result unit string)
| PumpEnds (r : result unit IoErr)
| LocalFails (e : IoErr)     (** the first read error of the own side *)
| GrantEnds                  (** in the record of this session, if it runs inside one *)
| DeadlineReached
| ShutdownEnds
| ReadToEnd.
Inductive SessionAct := StatusLine | OpenEvent | CloseEvent (ok : bool) | CountUp | CountDown.

Record Session := { pc : SessionPc; grant_ended : bool }.

Definition grant_end_error : IoErr :=
  {| kind := "PermissionDenied"; msg := "the channel grant ended and the peer did not close the session" |}.
Definition deadline_of (pc : SessionPc) : option Z :=
  match pc with Handshaking d | Grace _ d | ReadingOut _ d => Some d | _ => None end.
Definition close_acts (s : Session) (outcome : result unit IoErr) : list SessionAct :=
  [StatusLine; CloseEvent (is_ok outcome && negb (grant_ended s)); CountDown].
Definition at_ (s : Session) (pc : SessionPc) : Session := {| pc := pc; grant_ended := grant_ended s |}.

(** One event at [now].  Timers fire at their deadline, so nothing happens after it but that. *)
Definition session_step (has_record : bool) (e : SessionEvent) (now : Z) (s : Session) : option (Session * list SessionAct) :=
  if (match deadline_of (pc s) with Some d => d <? now | None => false end) then None
  else match e, pc s with
  | HandshakeEnds (Ok _), Handshaking _ => Some (at_ s Pumping, [StatusLine; OpenEvent; CountUp])
  | HandshakeEnds (Err m), Handshaking _ => Some (at_ s (Returned (Err {| kind := "InvalidData"; msg := m |})), [])
  | DeadlineReached, Handshaking d =>
      if now =? d then Some (at_ s (Returned (Err {| kind := "TimedOut"; msg := "a2a Noise_IK handshake timed out (#126)" |})), []) else None
  | PumpEnds r, Pumping | PumpEnds r, Grace _ _ => Some (at_ s (ShuttingDown r false), [])
  | LocalFails e, Pumping => Some (at_ s (Grace e (now + LOCAL_FAILURE_GRACE)), [])
  | GrantEnds, Pumping =>
      if has_record && negb (grant_ended s) then
        Some ({| pc := Grace grant_end_error (now + LOCAL_FAILURE_GRACE); grant_ended := true |}, [])
      else None
  | GrantEnds, (Handshaking _ | Returned _) => None
  | GrantEnds, pc => if has_record && negb (grant_ended s) then Some ({| pc := pc; grant_ended := true |}, []) else None
  | DeadlineReached, Grace why d => if now =? d then Some (at_ s (ShuttingDown (Err why) true), []) else None
  | ShutdownEnds, ShuttingDown outcome gave_up =>
      Some (at_ s (ReadingOut outcome (now + if gave_up then LOCAL_FAILURE_DRAIN else RELAY_DRAIN_TIMEOUT)), [])
  | ReadToEnd, ReadingOut outcome _ => Some (at_ s (Returned outcome), close_acts s outcome)
  | DeadlineReached, ReadingOut outcome d => if now =? d then Some (at_ s (Returned outcome), close_acts s outcome) else None
  | _, _ => None
  end.
Definition session_start (now : Z) : Session := {| pc := Handshaking (now + A2A_HANDSHAKE_TIMEOUT); grant_ended := false |}.
(** Events with their times, from a time on. *)
Fixpoint session_run (has_record : bool) (es : list (Z * SessionEvent)) (now : Z) (s : Session * list SessionAct) : option (Session * list SessionAct) :=
  match es with
  | [] => Some s
  | (t, e) :: es =>
      if t <? now then None
      else let? next := session_step has_record e t s.1 in session_run has_record es t (next.1, s.2 ++ next.2)
  end.

(** The same with a clock that runs to [until]: a timer that is due fires by itself, at its deadline, and
    the events are those of the handshake, the pump, the own side, the grant and the transport. *)
Definition fire (has_record : bool) (by_ : Z) (s : Session * list SessionAct) : Session * list SessionAct :=
  match deadline_of (pc s.1) with
  | Some d =>
      if d <=? by_ then
        match session_step has_record DeadlineReached d s.1 with Some next => (next.1, s.2 ++ next.2) | None => s end
      else s
  | None => s
  end.
Fixpoint session_until (has_record : bool) (es : list (Z * SessionEvent)) (now until : Z) (s : Session * list SessionAct)
  : option (Session * list SessionAct) :=
  match es with
  | [] => Some (fire has_record until s)
  | (t, e) :: es =>
      if (t <? now) || (until <? t) then None
      else
        let s := fire has_record (t - 1) s in
        match e with
        | DeadlineReached => None
        | _ => let? next := session_step has_record e t s.1 in session_until has_record es t until (next.1, s.2 ++ next.2)
        end
  end.

(** [open_relay_channel_streams]: a stalled relay is named as such. *)
Definition relay_stream_error (e : IoErr) : IoErr :=
  if String.eqb (kind e) "TimedOut" then {| kind := "TimedOut"; msg := "relay channel stream setup stalled after admission (#139)" |} else e.
(** [run_channel_session] over a QUIC connection: the stream, the session on it, and the wait for the
    peer's acknowledgement, counted as a tail; when it returns. *)
Definition run_channel_session {S} (opened : result S IoErr) (session : result unit IoErr) (ended stopped_after : Z) : result unit IoErr * Z :=
  match opened, session with
  | Err e, _ => (Err e, ended)
  | Ok _, Err e => (Err e, ended)
  | Ok _, Ok _ => (Ok tt, ended + Z.min stopped_after SEND_DRAIN_TIMEOUT)
  end.

(** ** Theorems *)

(** What was reported so far, by where the session stands. *)
Definition reported (s : Session) (acts : list SessionAct) : Prop :=
  match pc s with
  | Handshaking _ => acts = []
  | Returned (Err e) => acts = [] \/ acts = [StatusLine; OpenEvent; CountUp; StatusLine; CloseEvent false; CountDown]
  | Returned (Ok _) => acts = [StatusLine; OpenEvent; CountUp; StatusLine; CloseEvent (negb (grant_ended s)); CountDown]
  | _ => acts = [StatusLine; OpenEvent; CountUp]
  end.

Lemma session_step_reported record e now s next acts : reported s acts -> session_step record e now s = Some next -> reported next.1 (acts ++ next.2).
Proof.
  unfold session_step, close_acts, at_. destruct s as [[]], next; destruct e; cbn; intros Hr Hs; repeat first [case_match | progress simplify_eq/=];
    unfold reported in *; cbn in *; subst; rewrite ?app_nil_r; repeat match goal with o : result unit IoErr |- _ => destruct o end; auto.
Qed.

Lemma session_run_inv (P : Session -> list SessionAct -> Prop) record :
  (forall e now s next acts, P s acts -> session_step record e now s = Some next -> P next.1 (acts ++ next.2)) ->
  forall es now s0 s, P s0.1 s0.2 -> session_run record es now s0 = Some s -> P s.1 s.2.
Proof.
  intros Hstep es. induction es as [|[t e] es IH]; intros now s0 s Hp; cbn; [by intros [= <-]|].
  destruct (t <? now); [done|]. destruct (session_step record e t s0.1) as [n|] eqn:E; [|done]. intros Hr. refine (IH t _ s _ Hr). cbn [fst snd]. by apply (Hstep e t s0.1).
Qed.

(** A session is reported once: a handshake that failed leaves no trace, and a session that ran is
    opened and closed exactly once in the events, counted exactly while it runs -- its drain included --
    and reported as fine only if it ended well and no grant cut it short. *)
Theorem session_is_reported_once record es now s acts : session_run record es now (session_start now, []) = Some (s, acts) ->
  match pc s with
  | Handshaking _ => acts = []
  | Returned (Err e) => acts = [] \/ acts = [StatusLine; OpenEvent; CountUp; StatusLine; CloseEvent false; CountDown]
  | Returned (Ok _) => acts = [StatusLine; OpenEvent; CountUp; StatusLine; CloseEvent (negb (grant_ended s)); CountDown]
  | _ => acts = [StatusLine; OpenEvent; CountUp]
  end.
Proof. intros Hr. by apply (session_run_inv reported record (session_step_reported record)) in Hr. Qed.

Definition drain_of (gave_up : bool) : Z := if gave_up then LOCAL_FAILURE_DRAIN else RELAY_DRAIN_TIMEOUT.

(** How a run goes on, from each place on. *)
Lemma fire_reading record by_ o d ended acts : d <= by_ -> exists acts',
  fire record by_ ({| pc := ReadingOut o d; grant_ended := ended |}, acts) = ({| pc := Returned o; grant_ended := ended |}, acts').
Proof.
  intros Hd. unfold fire, session_step. cbn. rewrite (proj2 (Z.leb_le _ _)), Z.ltb_irrefl, Z.eqb_refl by done. by eexists.
Qed.
Lemma fire_grace record by_ why d ended acts : d <= by_ ->
  fire record by_ ({| pc := Grace why d; grant_ended := ended |}, acts) = ({| pc := ShuttingDown (Err why) true; grant_ended := ended |}, acts).
Proof.
  intros Hd. unfold fire, session_step. cbn. rewrite (proj2 (Z.leb_le _ _)), Z.ltb_irrefl, Z.eqb_refl by done. cbn. by rewrite app_nil_r.
Qed.
Lemma fire_early record by_ pc d ended acts : deadline_of pc = Some d -> by_ < d ->
  fire record by_ ({| pc := pc; grant_ended := ended |}, acts) = ({| pc := pc; grant_ended := ended |}, acts).
Proof. unfold fire. cbn. intros -> Hlt. by rewrite (proj2 (Z.leb_gt _ _)). Qed.
Lemma returned_is_over record e t o ended : session_step record e t {| pc := Returned o; grant_ended := ended |} = None.
Proof. unfold session_step. cbn. by destruct e as [[]| | | | | |]. Qed.
Lemma returned_stays record es now until o ended acts s : session_until record es now until ({| pc := Returned o; grant_ended := ended |}, acts) = Some s ->
  es = [] /\ pc s.1 = Returned o.
Proof.
  destruct es as [|[t e] es]; cbn; [by intros [= <-]|]. destruct (_ || _); [done|]. unfold session_step. cbn. by destruct e as [[]| | | | | |].
Qed.
Lemma reading_out_until record es now until outcome d ended acts s : now <= d ->
  session_until record es now until ({| pc := ReadingOut outcome d; grant_ended := ended |}, acts) = Some s ->
  (forall t, (t, ShutdownEnds) ∉ es) /\ (pc s.1 = Returned outcome \/ until < d /\ pc s.1 = ReadingOut outcome d).
Proof.
  revert now ended acts. induction es as [|[t e] es IH]; intros now ended acts Hd; cbn [session_until].
  - destruct (Z.le_gt_cases d until).
    + destruct (fire_reading record until outcome d ended acts) as (acts' & ->); [done|]. intros [= <-]. split; [by intros t ?%elem_of_nil|by left].
    + rewrite (fire_early _ _ _ d) by done. intros [= <-]. split; [by intros t ?%elem_of_nil|by right].
  - destruct (Z.ltb_spec t now); [done|]. destruct (until <? t); [done|]. cbn [orb].
    destruct (Z.le_gt_cases d (t - 1)).
    + destruct (fire_reading record (t - 1) outcome d ended acts) as (acts' & ->); [done|]. cbn [fst]. rewrite returned_is_over. by destruct e.
    + rewrite (fire_early _ _ _ d) by done. cbn [fst]. unfold session_step. cbn. rewrite (proj2 (Z.ltb_ge d t)) by lia. destruct e as [[]| | | | | |]; try done; cbn.
      * destruct (record && negb ended); [|done]. intros [Hn Hp]%IH; [|lia]. split; [|done]. intros x [|Hin]%elem_of_cons; [done|by eapply Hn].
      * intros Hr. apply returned_stays in Hr as [-> Hp]. split; [|by left]. intros x [|[]%elem_of_nil]%elem_of_cons. done.
Qed.
Lemma shutting_down_until record es now until outcome g ended acts s : now <= until ->
  session_until record es now until ({| pc := ShuttingDown outcome g; grant_ended := ended |}, acts) = Some s ->
  pc s.1 = ShuttingDown outcome g /\ (forall t, (t, ShutdownEnds) ∉ es) \/
  exists t, (t, ShutdownEnds) ∈ es /\ now <= t <= until /\
    (pc s.1 = Returned outcome \/ until < t + drain_of g /\ pc s.1 = ReadingOut outcome (t + drain_of g)).
Proof.
  revert now ended acts. induction es as [|[t e] es IH]; intros now ended acts Hle; cbn [session_until].
  - intros [= <-]. left. split; [done|]. by intros t ?%elem_of_nil.
  - destruct (Z.ltb_spec t now); [done|]. destruct (Z.ltb_spec until t); [done|]. cbn [orb]. unfold fire. cbn [deadline_of pc fst].
    unfold session_step. cbn. destruct e as [[]| | | | | |]; try done; cbn.
    + destruct (record && negb ended); [|done]. intros [[Hp Hn]|(t' & Hin & Ht & Hp)]%IH; [| |lia].
      * left. split; [done|]. intros x [|Hin]%elem_of_cons; [done|by eapply Hn].
      * right. exists t'. split; [by right|]. split; [lia|done].
    + intros [_ Hp]%reading_out_until; [|unfold LOCAL_FAILURE_DRAIN, RELAY_DRAIN_TIMEOUT, SECOND; by destruct g; lia]. right. exists t. split; [by left|].
      split; [lia|]. destruct g; exact Hp.
Qed.

(** Why the pump was left: it did not end within its grace, or it ended by itself with [outcome]. *)
Definition left_for (why : IoErr) (es : list (Z * SessionEvent)) (limit until : Z) (gave_up : bool) (outcome : result unit IoErr) : Prop :=
  if gave_up then outcome = Err why /\ limit <= until else exists t, (t, PumpEnds outcome) ∈ es /\ t <= limit.
(** Where a session stands whose pump was left: in its shutdown, or in the wait for the peer's close,
    which is over after the drain. *)
Definition closing (es : list (Z * SessionEvent)) (from until : Z) (gave_up : bool) (outcome : result unit IoErr) (pc : SessionPc) : Prop :=
  pc = ShuttingDown outcome gave_up /\ (forall t, (t, ShutdownEnds) ∉ es) \/
  exists t, (t, ShutdownEnds) ∈ es /\ from <= t <= until /\
    (pc = Returned outcome \/ until < t + drain_of gave_up /\ pc = ReadingOut outcome (t + drain_of gave_up)).

Lemma closing_cons es t e from until g o pc : e <> ShutdownEnds -> closing es from until g o pc -> closing ((t, e) :: es) from until g o pc.
Proof.
  intros Hne [[Hp Hn]|(t' & Hin & Hr)]; [left; split; [done|]|right; exists t'; split; [by right|done]].
  intros x [He|Hin]%elem_of_cons; [congruence|by eapply Hn].
Qed.
Lemma grace_until record es now until why d ended acts s : now <= d -> now <= until ->
  session_until record es now until ({| pc := Grace why d; grant_ended := ended |}, acts) = Some s ->
  until < d /\ pc s.1 = Grace why d \/ exists gave_up outcome, left_for why es d until gave_up outcome /\ closing es now until gave_up outcome (pc s.1).
Proof.
  revert now ended acts. induction es as [|[t e] es IH]; intros now ended acts Hd Hle; cbn [session_until].
  - destruct (Z.le_gt_cases d until); [|rewrite (fire_early _ _ _ d) by done; intros [= <-]; by left].
    rewrite fire_grace by done. intros [= <-]. right. exists true, (Err why). split; [done|]. left. split; [done|]. by intros t ?%elem_of_nil.
  - destruct (Z.ltb_spec t now); [done|]. destruct (Z.ltb_spec until t); [done|]. cbn [orb].
    destruct (Z.le_gt_cases d (t - 1)).
    + rewrite fire_grace by done. intros Hr. right. exists true, (Err why). split; [split; [done|lia]|].
      assert (session_until record ((t, e) :: es) now until ({| pc := ShuttingDown (Err why) true; grant_ended := ended |}, acts) = Some s) as Hr'.
      { cbn [session_until]. rewrite (proj2 (Z.ltb_ge t now)), (proj2 (Z.ltb_ge until t)) by lia. exact Hr. }
      by apply shutting_down_until in Hr'.
    + rewrite (fire_early _ _ _ d) by done. cbn [fst]. unfold session_step. cbn. rewrite (proj2 (Z.ltb_ge d t)) by lia. destruct e as [[]|r| | | | |]; try done; cbn.
      * intros Hr%shutting_down_until; [|lia]. right. exists false, r. split; [exists t; split; [by left|lia]|]. apply closing_cons; [done|].
        destruct Hr as [?|(t' & ? & ? & ?)]; [by left|]. right. exists t'. split; [done|]. split; [lia|done].
      * destruct (record && negb ended); [|done]. intros [|(g & o & Hl & Hc)]%IH; [by left| |lia..]. right. exists g, o. split.
        -- destruct g; [done|]. destruct Hl as (x & Hin & ?). exists x. split; [by right|done].
        -- apply closing_cons; [done|]. destruct Hc as [?|(t' & ? & ? & ?)]; [by left|]. right. exists t'. split; [done|]. split; [lia|done].
Qed.

(** C40: Once the own side failed, or the session's grant ended, the peer cannot keep the session: with the
    clock at any later time the pump is left after two seconds at the latest, and then only the stream's
    own shutdown can hold the session; when that is over, the session returns, two seconds later at the
    latest, with that very error -- thirty seconds when the pump did end by itself, with what it said. *)
Theorem failed_session_returns record (failure : SessionEvent) es t0 until now acts ended s :
  match failure with LocalFails _ => True | GrantEnds => record = true /\ ended = false | _ => False end ->
  session_until record ((t0, failure) :: es) now until ({| pc := Pumping; grant_ended := ended |}, acts) = Some s ->
  let why := match failure with LocalFails e => e | _ => grant_end_error end in
  let limit := t0 + LOCAL_FAILURE_GRACE in
  until < limit /\ pc s.1 = Grace why limit \/
  exists gave_up outcome, left_for why es limit until gave_up outcome /\ closing es t0 until gave_up outcome (pc s.1).
Proof.
  intros Hf. cbn [session_until]. destruct (Z.ltb_spec t0 now); [done|]. destruct (Z.ltb_spec until t0); [done|]. cbn [orb].
  destruct failure; try done; cbn; [|destruct Hf as [-> ->]; cbn]; intros Hr; (eapply grace_until; [| |exact Hr]); unfold LOCAL_FAILURE_GRACE, SECOND; lia.
Qed.

(** Nothing bounds that shutdown: a peer that stops reading holds a session that already gave it up for as
    long as it likes. *)
Lemma stalled_shutdown_holds_the_session wait : 0 <= wait ->
  let es := [(0, LocalFails {| kind := "TimedOut"; msg := "no peer grant" |}); (LOCAL_FAILURE_GRACE, DeadlineReached)] in
  exists s acts, session_run false es 0 ({| pc := Pumping; grant_ended := false |}, []) = Some (s, acts) /\
    forall e, session_step false e (LOCAL_FAILURE_GRACE + wait) s <> None <-> e = ShutdownEnds.
Proof.
  intros Hw es. eexists _, _. split; [vm_compute; reflexivity|]. intros e. unfold session_step. cbn. by destruct e as [[]| | | | | |]; cbn; split.
Qed.

(** The own side's first read error is reported, once. *)
Lemma failure_is_signalled_once {A} (polls : list (Poll (result A IoErr))) :
  omap id (snd (fold_left (fun '(s, sent) p => let '(s, o) := local_poll p s in (s, sent ++ [o])) polls (true, []))) =
  match omap (fun p => match p with Ready (Err e) => Some e | _ => None end) polls with e :: _ => [e] | [] => [] end.
Proof.
  assert (forall s (sent : list (option IoErr)), omap id (snd (fold_left (fun '(s, sent) p => let '(s, o) := local_poll (A := A) p s in (s, sent ++ [o])) polls (s, sent))) =
    omap id sent ++ if s then match omap (fun p => match p with Ready (Err e) => Some e | _ => None end) polls with e :: _ => [e] | [] => [] end else []) as Hx.
  { induction polls as [|p polls IH]; intros s sent; cbn; [destruct s; by rewrite app_nil_r|].
    destruct p as [[a|e]|]; cbn; [|destruct s|]; rewrite IH, omap_app; cbn; rewrite ?app_nil_r; done. }
  by rewrite Hx.
Qed.

(** ** Concrete inputs *)

Definition demo_failure : IoErr := {| kind := "TimedOut"; msg := "no peer grant" |}.
Lemma session_is_reported_once_witness :
  exists s acts, session_run true [(1, HandshakeEnds (Ok tt)); (2, PumpEnds (Ok tt)); (3, GrantEnds); (4, ShutdownEnds); (5, ReadToEnd)] 0 (session_start 0, []) = Some (s, acts) /\
    acts = [StatusLine; OpenEvent; CountUp; StatusLine; CloseEvent false; CountDown].
Proof.
  destruct (session_run true [(1, HandshakeEnds (Ok tt)); (2, PumpEnds (Ok tt)); (3, GrantEnds); (4, ShutdownEnds); (5, ReadToEnd)] 0 (session_start 0, []))
    as [[s acts]|] eqn:E.
  - exists s, acts. split; [reflexivity|]. pose proof (session_is_reported_once true _ 0 s acts E) as Hx. vm_compute in E. injection E as <- <-. exact Hx.
  - exfalso. vm_compute in E. discriminate E.
Defined.
(** A peer that never says another word. *)
Lemma failed_session_returns_witness :
  exists s, session_until false [(1, LocalFails demo_failure); (2 + LOCAL_FAILURE_GRACE, ShutdownEnds)] 0 (6 * SECOND) ({| pc := Pumping; grant_ended := false |}, []) = Some s /\
    pc s.1 = Returned (Err demo_failure).
Proof.
  destruct (session_until false [(1, LocalFails demo_failure); (2 + LOCAL_FAILURE_GRACE, ShutdownEnds)] 0 (6 * SECOND) ({| pc := Pumping; grant_ended := false |}, []))
    as [s|] eqn:E; [|exfalso; vm_compute in E; discriminate E].
  exists s. split; [reflexivity|].
  destruct (failed_session_returns false (LocalFails demo_failure) [(2 + LOCAL_FAILURE_GRACE, ShutdownEnds)] 1 (6 * SECOND) 0 [] false s I E)
    as [[Hlt _]|(g & o & Hl & [[_ Hn]|(t & Hin & _ & [Hp|[Hlt _]])])].
  - exfalso. vm_compute in Hlt. discriminate Hlt.
  - exfalso. apply (Hn (2 + LOCAL_FAILURE_GRACE)). by left.
  - destruct g; [destruct Hl as [-> _]; exact Hp|]. destruct Hl as (t' & Hin' & _). by apply list_elem_of_singleton in Hin'.
  - exfalso. apply list_elem_of_singleton in Hin. injection Hin as ->. destruct g; [vm_compute in Hlt; discriminate Hlt|].
    destruct Hl as (t' & Hin' & _). by apply list_elem_of_singleton in Hin'.
Defined.
