(* ===== verification/ChannelJoin.v ===== *)
(** * ChannelJoin: from an admission to a session ([channel_run/mod.rs])

    What an admission must prove before a session may run, the gate each session's own side gets, the leg
    it takes, and what a pairing the pin refuses does instead; the relay-only joins, which of the modes a
    process runs, and the direct-address configuration.  The attestation check, URLs and sockets are
    parameters; the session itself is [Session]. *)
From S2P Require Import Prelude Text Net EnvFlag CliConfig.
From S2P Require Import Retry JoinConfig Dialing Connectivity.
From S2P Require PeerPin PeerGrant GrantWatch ForwardPolicy Codec.

#[local] Open Scope Z_scope.

Definition FORWARD_ENV : string := "CT_CHANNEL_FORWARD".
Definition REVOCATION_ENV : string := "CT_CHANNEL_REVOCATION".
Definition CP_URL_ENV : string := "CT_AGENT_CP_URL".
(** A [str] as an error value. *)
Definition plain (t : string) : BoxError := {| text := t; chain := [OtherError] |}.

(** ** The gate of a session's own side *)

(** [reqwest::Url::parse]: the scheme and the host. *)
Section Gate.
Context (url_parse : string -> option (string * option string)).

(** [trim_matches(['[', ']'])]. *)
Fixpoint trim_brackets_start (l : list ascii) : list ascii :=
  match l with c :: l' => if bool_decide (c ∈ ["["; "]"]%char) then trim_brackets_start l' else l | [] => [] end.
Definition trim_brackets (s : string) : string :=
  String.string_of_list_ascii (reverse (trim_brackets_start (reverse (trim_brackets_start (String.list_ascii_of_string s))))).

Definition check_cp_url (url : string) : result unit string :=
  let bad (why : string) := (CP_URL_ENV +:+ " " +:+ debug_str url +:+ " " +:+ why +:+ " (the grant re-check needs https, or http to a loopback host)")%string in
  match url_parse (trim url) with
  | None => Err (bad "is not a URL")
  | Some (scheme, host) =>
      if String.eqb scheme "https" then Ok tt
      else if String.eqb scheme "http" then
        let host := trim_brackets (default ""%string host) in
        if eq_ignore_ascii_case host "localhost" || match parse_ip host with Some ip => is_loopback ip | None => false end then Ok tt
        else Err (bad "is plain http to a non-loopback host")
      else Err (bad "is not an http(s) URL")
  end.
Definition resolve_cp (cp_url : option string) (required : bool) : result (option string) string :=
  match cp_url with
  | Some u => let* _ := check_cp_url u in Ok (Some u)
  | None =>
      if required then
        Err (REVOCATION_ENV +:+ "=require but no control-plane URL (" +:+ CP_URL_ENV +:+ ") is set: a revoked grant could not end this forward -- refusing to join")%string
      else Ok None
  end.
Definition revocation_required (v : option string) : result bool string :=
  match option_map trim v with
  | None => Ok false
  | Some o =>
      if String.eqb o "" || String.eqb o "warn" then Ok false
      else if String.eqb o "require" then Ok true
      else Err (REVOCATION_ENV +:+ "=" +:+ debug_str o +:+ " is not understood (use `require` or `warn`)")%string
  end.

(** What a gate checks of its peer: the operator's key, the attested holder, this member's role, and the
    control plane it asks about the peer's grant.  [own_expiry] bounds every session. *)
Record GateCheck := { gate_operator : list byte; gate_peer_holder : list byte; gate_role : ChannelRole; gate_watch : option (string * GrantWatch.WatchConfig) }.
Record GatePlan := { gate_check : option GateCheck; own_expiry : Z }.

Definition forward_session_configured_from (env : Lookup) : bool :=
  match env FORWARD_ENV with Some _ => true | None => false end || ForwardPolicy.forward_allow_configured (env ForwardPolicy.FORWARD_ALLOW_ENV).
Definition is_accept (r : ChannelRole) : bool := match r with RoleAccept => true | RoleInitiate => false end.
(** The re-check of a forward's accept side. *)
Definition watch_from (env : Lookup) : result (option (string * GrantWatch.WatchConfig)) string :=
  let cp_url := let? s := env CP_URL_ENV in if is_empty (trim s) then None else Some s in
  let* required := revocation_required (env REVOCATION_ENV) in
  let* cp := resolve_cp cp_url required in
  match cp with
  | Some cp_url => let* config := GrantWatch.from_lookup env in Ok (Some (cp_url, GrantWatch.requiring config required))
  | None => Ok None
  end.
Definition NO_OPERATOR : string :=
  "the peer's grant must be checked (" +:+ PeerGrant.REQUIRE_PEER_GRANT_ENV +:+ " is on, or this is a forward) but " +:+
  PeerGrant.OPERATOR_PUBKEY_ENV +:+ " is not a 64-hex operator public key -- refusing to join".
Definition gate_local_from (env : Lookup) (role : ChannelRole) (peer_holder : list byte) (own_expires_at : Z) : result GatePlan string :=
  let forward := forward_session_configured_from env in
  let* watch := if forward && is_accept role then watch_from env else Ok None in
  let* policy := map_err (fun _ => NO_OPERATOR) (PeerGrant.policy_from_lookup_for env forward) in
  Ok {| gate_check := option_map (fun op => {| gate_operator := op; gate_peer_holder := peer_holder; gate_role := role; gate_watch := watch |}) policy;
        own_expiry := own_expires_at |}.

(** The check at the start of the process. *)
Definition check_revocation_config_from (forward : bool) (role cp_url mode : option string) (env : Lookup) : result unit string :=
  let* required := revocation_required mode in
  let accept := match option_map (fun r => to_ascii_lowercase (trim r)) role with
                | Some r => bool_decide (r ∈ ["accept"; "responder"; "listen"]%string)
                | None => false
                end in
  if forward && accept then
    let cp := let? s := cp_url in if is_empty (trim s) then None else Some (trim s) in
    let* _ := resolve_cp cp required in
    let* _ := GrantWatch.from_lookup env in
    Ok tt
  else Ok tt.
Definition check_revocation_config (env : Lookup) : result unit string :=
  check_revocation_config_from (forward_session_configured_from env) (env "CT_CHANNEL_ROLE"%string) (env CP_URL_ENV) (env REVOCATION_ENV) env.
End Gate.

(** ** From an admission to a session *)

Definition CHANNEL_ACCEPT_TIMEOUT : Z := 8 * SECOND.

Section Join.
(** ct-common's attestation check, its sentinel for a member without an address and its address filter;
    the link derivation of [PeerPin]; the URL parser. *)
Context (attested : list byte -> list byte -> list byte -> list byte -> bool) (relay_only_endpoint : string).
Context (is_global_unicast : SocketAddr -> bool) (channel_id_for_link : list byte -> list byte -> list byte -> list byte).
Context (url_parse : string -> option (string * option string)).

(** [ChannelJoinRequest]: what this member's own grant says, and the endpoint it advertises. *)
Record Request := { req_channel : list byte; req_holder : list byte; req_expires_at : Z; req_endpoint : string }.

(** The attested peer of an admission to the broker, and of one to a relay. *)
Record Verified := { v_holder : list byte; v_noise : list byte }.
Definition attestation_failed (dash : string) : BoxError :=
  plain ("peer Noise-key attestation failed " +:+ dash +:+ " refusing to pin a possibly-substituted key (#101)")%string.
Definition verified_admission (req : Request) (o : ChannelJoinOutcome) : result (Admission * Verified) BoxError :=
  match o with
  | PeerAdmitted a =>
      let* noise := ok_or (peer_noise_pubkey a) (plain "broker admitted the join but relayed no peer Noise key (registry has none)") in
      let* holder := ok_or (peer_holder a) (plain "broker relayed a Noise key without the peer holder — cannot verify (#101)") in
      let* attestation := ok_or (peer_attestation a) (plain "broker relayed a Noise key without an attestation (#101)") in
      if negb (attested (req_channel req) holder noise attestation) then Err (attestation_failed "—")
      else Ok (a, {| v_holder := holder; v_noise := noise |})
  | JoinRefused category => Err (boxed_with_category "edge broker refused the channel join" category)
  | JoinParkExpired =>
      let t := "channel park expired with no partner within the edge park window (#21) -- re-parking"%string in
      Err {| text := t; chain := [ParkExpired t] |}
  end.
Definition verify_relayed_dcutr_peer (req : Request) (noise : list byte) (holder attestation : option (list byte)) : result Verified BoxError :=
  let* holder := ok_or holder (plain "relay admitted the DCUtR join but relayed no peer holder -- cannot verify (#101)") in
  let* attestation := ok_or attestation (plain "relay admitted the DCUtR join but relayed no attestation (#101)") in
  if negb (attested (req_channel req) holder noise attestation) then Err (attestation_failed "--")
  else Ok {| v_holder := holder; v_noise := noise |}.
(** The admission to a relay, with the words each of the three joins has for a missing key. *)
Definition relayed_admission (no_key : string) (req : Request) (o : ChannelJoinOutcome) : result Verified BoxError :=
  match o with
  | PeerAdmitted a =>
      match peer_noise_pubkey a with
      | Some noise => verify_relayed_dcutr_peer req noise (peer_holder a) (peer_attestation a)
      | None => Err (plain no_key)
      end
  | JoinRefused category => Err (boxed_with_category "edge relay refused the channel join" category)
  | JoinParkExpired => Err relay_park_expired
  end.

(** What a join does: run a session over a leg with the attested peer's key behind a gate, or take the leg
    of a refused pairing and close it. *)
Inductive JoinLeg := DirectLeg | RelayLeg | RaceLeg.
Inductive JoinAct :=
| SessionRuns (leg : JoinLeg) (peer : Verified) (gate : GatePlan)
| PinRefuses (event : PeerPin.RefusedEvent) (closes : PeerPin.Leg).

(** What the network answers: a dial of the peer, the accept window, and the session over a leg. *)
Record JoinWorld := {
  dial : SocketAddr -> result unit ChannelDialError;
  incoming : option (option (result unit BoxError));   (** [None]: the window closed; [Some None]: the listener did *)
  session : JoinLeg -> result unit BoxError }.
Definition dial_answer (r : result unit ChannelDialError) : PeerPin.Dial :=
  match r with Ok _ => PeerPin.Dialed | Err Unreachable => PeerPin.Unreachable | Err _ => PeerPin.DialError end.
Definition window_answer (o : option (option (result unit BoxError))) : PeerPin.AcceptWindow :=
  match o with
  | None => PeerPin.NothingCame
  | Some None => PeerPin.ListenerClosed
  | Some (Some (Ok _)) => PeerPin.Accepted
  | Some (Some (Err _)) => PeerPin.BrokenIncoming
  end.

(** The leg of a session: its role, the peer's endpoint, the own listener. *)
Definition session_leg (w : JoinWorld) (role : ChannelRole) (endpoint : string) (listener reachable accept_race : bool) : result JoinLeg BoxError :=
  match role with
  | RoleInitiate =>
      if String.eqb endpoint relay_only_endpoint then Ok RelayLeg
      else
        let* addr := ok_or (parse_socket endpoint) (plain ("broker returned an unparseable peer endpoint: " +:+ debug_str endpoint)%string) in
        match dial w addr with
        | Ok _ => Ok DirectLeg
        | Err Unreachable => Ok RelayLeg
        | Err (FrontDoorFailed e | Failed e) => Err e
        end
  | RoleAccept =>
      if negb listener then Ok RelayLeg
      else if negb reachable then Ok RelayLeg
      else if accept_race then Ok RaceLeg
      else match incoming w with
           | Some (Some (Ok _)) => Ok DirectLeg
           | Some (Some (Err e)) => Err e
           | Some None => Err (plain "channel listener closed with no incoming")
           | None => Ok RelayLeg
           end
  end.

(** [run_channel_join_with_admission]. *)
Definition run_channel_join_with_admission (env : Lookup) (w : JoinWorld) (admission : ChannelJoinOutcome) (req : Request) (role : ChannelRole)
    (listener accept_race : bool) (pin : option PeerPin.PeerPin) : list JoinAct * result unit BoxError :=
  match verified_admission req admission with
  | Err e => ([], Err e)
  | Ok (a, peer) =>
      let reachable := own_endpoint_looks_reachable is_global_unicast (req_endpoint req) (observed_reflexive a) in
      match PeerPin.check_peer_pin channel_id_for_link pin (req_channel req) (req_holder req) (v_holder peer) (v_noise peer) with
      | (Err refused, event) =>
          let leg := PeerPin.refused_leg relay_only_endpoint (negb (is_accept role)) (peer_endpoint a) (fun x => dial_answer (dial w x))
                       (listener && reachable) (window_answer (incoming w)) in
          (match event with Some ev => [PinRefuses ev leg] | None => [] end, Err refused)
      | (Ok _, _) =>
          match gate_local_from url_parse env role (v_holder peer) (req_expires_at req) with
          | Err e => ([], Err (plain e))
          | Ok gate =>
              match session_leg w role (peer_endpoint a) listener reachable accept_race with
              | Err e => ([], Err e)
              | Ok leg => ([SessionRuns leg peer gate], session w leg)
              end
          end
      end
  end.

(** The relay-only joins: [upgraded] is the DCUtR session behind the pin ([join_via_relay_dcutr]), else
    [join_via_relay_without_dcutr], which does not look at it. *)
Definition DCUTR_NO_KEY : string := "DCUtR relay join needs the peer's relayed Noise key (register the member's key, #101)".
Definition RELAY_NO_KEY : string := "relay-only join needs the peer's relayed Noise key (register the member's key, #101)".
Definition join_via_relay_dcutr (env : Lookup) (w : JoinWorld) (admission : ChannelJoinOutcome) (req : Request) (role : ChannelRole)
    (pin : option PeerPin.PeerPin) : list JoinAct * result unit BoxError :=
  match relayed_admission DCUTR_NO_KEY req admission with
  | Err e => ([], Err e)
  | Ok peer =>
      match PeerPin.check_peer_pin channel_id_for_link pin (req_channel req) (req_holder req) (v_holder peer) (v_noise peer) with
      | (Err refused, event) => (match event with Some ev => [PinRefuses ev PeerPin.RelayLeg] | None => [] end, Err refused)
      | (Ok _, _) =>
          match gate_local_from url_parse env role (v_holder peer) (req_expires_at req) with
          | Err e => ([], Err (plain e))
          | Ok gate => ([SessionRuns RelayLeg peer gate], session w RelayLeg)
          end
      end
  end.
Definition join_via_relay_without_dcutr (env : Lookup) (w : JoinWorld) (admission : ChannelJoinOutcome) (req : Request) (role : ChannelRole)
  : list JoinAct * result unit BoxError :=
  match relayed_admission RELAY_NO_KEY req admission with
  | Err e => ([], Err e)
  | Ok peer =>
      match gate_local_from url_parse env role (v_holder peer) (req_expires_at req) with
      | Err e => ([], Err (plain e))
      | Ok gate => ([SessionRuns RelayLeg peer gate], session w RelayLeg)
      end
  end.
End Join.

(** ** Which mode a process runs *)

Inductive DcutrKnob := RelayGate (upgrade : bool) | CircuitRelay (upgrade : bool).
Definition knob_upgrade (k : DcutrKnob) : bool := match k with RelayGate u | CircuitRelay u => u end.
Definition dcutr_knob (relay_only relay_gate circuit_relay experimental_dcutr : bool) : option DcutrKnob :=
  if negb relay_only then None
  else if relay_gate then Some (RelayGate experimental_dcutr)
  else if circuit_relay then Some (CircuitRelay experimental_dcutr)
  else None.

(** What [run_channel_join_command] runs: a relay-only loop, the persistent caller, the forward's sessions,
    one session, or the serve loop; with whether the pin is handed to the joins it makes. *)
Inductive CommandMode :=
| RelayGateLoop (upgrade : bool)
| CircuitRelayLoop (upgrade : bool)
| PersistentCaller (slug : string)
| ForwardSessions (spec : string)
| OneSession
| ServeSessions.
Record ModeSettings := {
  m_relay_only : bool; m_relay_gate : bool; m_relay_gate_cert : bool; m_circuit_relay : bool; m_experimental_dcutr : bool;
  m_serve_loop : bool; m_call_reconnect : bool; m_call_service : option string; m_call_persistent : bool; m_forward : option string }.
Definition command_mode (m : ModeSettings) : result CommandMode string :=
  match dcutr_knob (m_relay_only m) (m_relay_gate m) (m_circuit_relay m) (m_experimental_dcutr m) with
  | Some (RelayGate upgrade) =>
      if m_relay_gate_cert m then Ok (RelayGateLoop upgrade) else Err "CT_CHANNEL_RELAY_GATE set without CT_CHANNEL_RELAY_GATE_CERT"%string
  | Some (CircuitRelay upgrade) => Ok (CircuitRelayLoop upgrade)
  | None =>
      if m_serve_loop m then Ok ServeSessions
      else match m_call_service m with
           | Some slug => if m_call_reconnect m && m_call_persistent m then Ok (PersistentCaller (trim slug))
                          else match m_forward m with Some raw => Ok (ForwardSessions raw) | None => Ok OneSession end
           | None => match m_forward m with Some raw => Ok (ForwardSessions raw) | None => Ok OneSession end
           end
  end.

(** [one_shot_session]: a session a grant end cut short is an error; [None] when no grant ended. *)
Definition one_shot_session (ran : result unit BoxError) (grant_end : option string) : result unit BoxError :=
  match ran, grant_end with
  | Ok _, Some reason => let t := ("the session was cut short: " +:+ reason)%string in Err {| text := t; chain := [IoError "PermissionDenied" None] |}
  | ran, _ => ran
  end.

(** ** The handshake of the relay gate *)

Section RelayGate.
(** The holder's signature; ct-common's refusal categories; libp2p's peer ids. *)
Context (sign : list byte -> list byte) (decode_refusal_category : list byte -> option string) (peer_id : string -> result string string).
Context (REFUSAL_CATEGORY_MAX_LEN : nat).

Definition gate_io (what : string) : BoxError := {| text := what; chain := [IoError "UnexpectedEof" None] |}.
(** [read_exact] from what the edge sent before it closed. *)
Definition read_exact (n : nat) (l : list byte) : result (list byte * list byte) BoxError :=
  if (n <=? length l)%nat then Ok (take n l, drop n l) else Err (gate_io "early eof").
Definition GATE_REFUSED : string := "relay-gate: pre-auth refused (grant not authorized -- see the edge's own log)".

(** [dial_relay_gate_over_443] once TLS stands: what is written, and the relay-node's peer id or the
    error.  [tail_in_time]: the rest after a refusal came within two seconds. *)
Definition relay_gate_handshake (grant received : list byte) (tail_in_time : bool) : list (list byte) * result string BoxError :=
  match read_exact 32 received with
  | Err e => ([grant], Err e)
  | Ok (challenge, rest) =>
      let written := [grant; sign challenge] in
      (written,
       let* (ack, rest) := read_exact 2 rest in
       if negb (bool_decide (ack = as_bytes "OK")) then
         let category :=
           if bool_decide (ack = as_bytes "NO") && tail_in_time then decode_refusal_category (take (S REFUSAL_CATEGORY_MAX_LEN) rest) else None in
         Err (boxed_with_category GATE_REFUSED category)
       else
         let* (len, rest) := read_exact 2 rest in
         let* (id, _) := read_exact (Z.to_nat (be_value len)) rest in
         if negb (utf8_valid id) then Err (plain "relay-gate: relay-node peer id not utf8")
         else map_err (fun e => plain ("relay-gate: malformed relay-node peer id " +:+ debug_str (String.string_of_list_byte id) +:+ ": " +:+ e)%string)
                (peer_id (String.string_of_list_byte id)))
  end.
End RelayGate.

(** ** The direct-address mode *)

Record ChannelRunConfig := {
  run_role : ChannelRole; run_addr : SocketAddr; run_own_noise : list byte; run_peer_noise : list byte; run_peer_cert : option (list byte) }.
Definition KEY_HINT : string := "64 hex chars".
Definition run_from_lookup (f : Lookup) : result ChannelRunConfig string :=
  let* role := role_from (f "CT_CHANNEL_ROLE"%string) in
  let* raw := ok_or (f "CT_CHANNEL_ADDR"%string) "CT_CHANNEL_ADDR required (host:port)"%string in
  let* addr := ok_or (parse_socket (trim raw)) "CT_CHANNEL_ADDR invalid: invalid socket address syntax"%string in
  let* own := req_hex32 f "CT_CHANNEL_NOISE_KEY" KEY_HINT in
  let* peer := req_hex32 f "CT_CHANNEL_PEER_NOISE_KEY" KEY_HINT in
  if match f PeerPin.PEER_PIN_ENV with Some v => negb (is_empty (trim v)) | None => false end then
    Err (PeerPin.PEER_PIN_ENV +:+ " applies to the brokered join (CT_CHANNEL_BROKER); the direct-address mode pins the peer by CT_CHANNEL_PEER_NOISE_KEY already -- unset " +:+
         PeerPin.PEER_PIN_ENV +:+ " here")%string
  else
    let* cert :=
      match (let? h := f "CT_CHANNEL_PEER_CERT"%string in if is_empty (trim h) then None else Some h) with
      | Some h =>
          let* der := ok_or (hex_bytes h) "CT_CHANNEL_PEER_CERT must be hex DER"%string in
          let* _ := map_err (fun why => "invalid CT_CHANNEL_PEER_CERT: " +:+ why)%string (der_certificate_shape der) in
          Ok (Some der)
      | None => Ok None
      end in
    Ok {| run_role := role; run_addr := addr; run_own_noise := own; run_peer_noise := peer; run_peer_cert := cert |}.

(** ** Theorems: the gate *)

Section GateTheorems.
Context (url_parse : string -> option (string * option string)).

Lemma check_cp_url_trim u : is_ok (check_cp_url url_parse (trim u)) = is_ok (check_cp_url url_parse u).
Proof. unfold check_cp_url. rewrite trim_idem. by repeat case_match. Qed.

Lemma is_ok_rbind {A B E} (r : result A E) (k : A -> result B E) : is_ok (let* a := r in k a) = match r with Ok a => is_ok (k a) | Err _ => false end.
Proof. by destruct r. Qed.

(** The check at the start decides on a forward's accept side as the join does. *)
Lemma startup_decides_as_the_join env role : forward_session_configured_from env = true -> role_from (env "CT_CHANNEL_ROLE"%string) = Ok role -> is_accept role = true ->
  is_ok (check_revocation_config url_parse env) = is_ok (watch_from url_parse env) && is_ok (GrantWatch.from_lookup env).
Proof.
  intros Hf Hr Ha. unfold check_revocation_config, check_revocation_config_from, watch_from. rewrite Hf, !is_ok_rbind.
  destruct (revocation_required (env REVOCATION_ENV)) as [required|]; [|done]. unfold role_from in Hr.
  destruct (option_map _ (env "CT_CHANNEL_ROLE"%string)) as [s|]; [|done].
  destruct (bool_decide (s ∈ ["initiate"; "initiator"]%string)); [by simplify_eq|]. destruct (bool_decide _); [|done]. cbn [andb].
  destruct (env CP_URL_ENV) as [u|]; [|unfold resolve_cp; by destruct required, (GrantWatch.from_lookup env)].
  destruct (is_empty (trim u)); [unfold resolve_cp; by destruct required, (GrantWatch.from_lookup env)|].
  unfold resolve_cp. rewrite !is_ok_rbind. pose proof (check_cp_url_trim u) as Ht.
  destruct (check_cp_url url_parse (trim u)), (check_cp_url url_parse u); try done; cbn; by destruct (GrantWatch.from_lookup env).
Qed.

(** What would stop a join for its revocation re-check stops the process at its start: after a passed
    check no session of this role fails for anything but a missing operator key, and on the accept side
    of a forward the check passes exactly when the join's own would and the times of the re-check are
    well formed. *)
Theorem startup_check_covers_the_join env role peer expires : role_from (env "CT_CHANNEL_ROLE"%string) = Ok role ->
  (is_ok (check_revocation_config url_parse env) = true ->
     gate_local_from url_parse env role peer expires = Err NO_OPERATOR \/ is_ok (gate_local_from url_parse env role peer expires) = true) /\
  (forward_session_configured_from env && is_accept role = true ->
     is_ok (check_revocation_config url_parse env) = is_ok (watch_from url_parse env) && is_ok (GrantWatch.from_lookup env)).
Proof.
  intros Hr. split; [|intros [Hf Ha]%andb_true_iff; by eapply startup_decides_as_the_join].
  intros Hc. unfold gate_local_from. destruct (forward_session_configured_from env && is_accept role) eqn:E.
  - apply andb_true_iff in E as [Hf Ha]. rewrite (startup_decides_as_the_join env role) in Hc by done.
    destruct (watch_from url_parse env); [|done]. cbn. destruct (PeerGrant.policy_from_lookup_for _ _); [by right|by left].
  - cbn. destruct (PeerGrant.policy_from_lookup_for _ _); [by right|by left].
Qed.

(** No forward runs without the check of the peer's grant, and under [CT_CHANNEL_REVOCATION=require]
    none is accepted without asking the control plane, strictly; without it one is asked whenever one is
    configured; and every session is bounded by this member's own grant. *)
Theorem forward_gate_is_complete env role peer expires plan : gate_local_from url_parse env role peer expires = Ok plan ->
  own_expiry plan = expires /\
  (forward_session_configured_from env = true -> exists c, gate_check plan = Some c /\ gate_peer_holder c = peer /\ gate_role c = role /\
     (is_accept role = true ->
       ((exists u, env CP_URL_ENV = Some u /\ is_empty (trim u) = false) -> is_Some (gate_watch c)) /\
       (revocation_required (env REVOCATION_ENV) = Ok true -> exists u cfg, gate_watch c = Some (u, cfg) /\ GrantWatch.require cfg = true))).
Proof.
  unfold gate_local_from. intros (watch & Hw & (policy & Hp & [= <-])%rbind_Ok)%rbind_Ok. split; [done|]. intros Hf. rewrite Hf in *. cbn [andb] in Hw.
  unfold PeerGrant.policy_from_lookup_for in Hp. cbn in Hp. destruct (Codec.hex_decode 32 _) as [op|]; [|done]. injection Hp as <-. eexists. split; [done|].
  split; [done|]. split; [done|]. intros Ha. rewrite Ha in Hw. cbn [gate_watch].
  unfold watch_from in Hw. apply rbind_Ok in Hw as (required & Hreq & (cp & Hcp & Hw)%rbind_Ok). split.
  - intros (u & Hu & He). rewrite Hu, He in Hcp. unfold resolve_cp in Hcp. apply rbind_Ok in Hcp as (_ & _ & [= <-]).
    apply rbind_Ok in Hw as (cfg & _ & [= <-]). done.
  - intros Hr. rewrite Hr in Hreq. injection Hreq as <-. unfold resolve_cp in Hcp. destruct (let? s := env CP_URL_ENV in _) as [u|]; [|done].
    apply rbind_Ok in Hcp as (_ & _ & [= <-]). apply rbind_Ok in Hw as (cfg & _ & [= <-]). by eexists _, _.
Qed.
End GateTheorems.

(** ** Theorems: who gets a session *)

Section JoinTheorems.
Context (attested : list byte -> list byte -> list byte -> list byte -> bool) (relay_only_endpoint : string).
Context (is_global_unicast : SocketAddr -> bool) (channel_id_for_link : list byte -> list byte -> list byte -> list byte).
Context (url_parse : string -> option (string * option string)).
Notation join := (run_channel_join_with_admission attested relay_only_endpoint is_global_unicast channel_id_for_link url_parse).
Notation pinned := (PeerPin.check_peer_pin channel_id_for_link).

Lemma verified_admission_Ok req o a peer : verified_admission attested req o = Ok (a, peer) ->
  o = PeerAdmitted a /\ peer_noise_pubkey a = Some (v_noise peer) /\ peer_holder a = Some (v_holder peer) /\
  exists att, peer_attestation a = Some att /\ attested (req_channel req) (v_holder peer) (v_noise peer) att = true.
Proof.
  destruct o as [a'| |]; [|done..]. cbn. destruct (peer_noise_pubkey a') eqn:En; [|done]. destruct (peer_holder a') eqn:Eh; [|done].
  destruct (peer_attestation a') as [att|] eqn:Ea; [|done]. cbn. destruct (attested _ _ _ _) eqn:E; [|done]. intros [= <- <-]. cbn. eauto 10.
Qed.

(** C34: Whatever the edge answers, a join runs at most one session, and only with the peer whose Noise key
    its holder attested for this very channel, whom the pin names, behind the gate of this session's role;
    the key it pins is the attested one. *)
Theorem session_is_with_the_attested_peer env w admission req role listener race pin acts r :
  join env w admission req role listener race pin = (acts, r) -> (exists leg peer gate, SessionRuns leg peer gate ∈ acts) ->
  exists a leg peer gate att, acts = [SessionRuns leg peer gate] /\ r = session w leg /\ admission = PeerAdmitted a /\
    peer_noise_pubkey a = Some (v_noise peer) /\ peer_holder a = Some (v_holder peer) /\
    peer_attestation a = Some att /\ attested (req_channel req) (v_holder peer) (v_noise peer) att = true /\
    pinned pin (req_channel req) (req_holder req) (v_holder peer) (v_noise peer) = (Ok tt, None) /\
    gate_local_from url_parse env role (v_holder peer) (req_expires_at req) = Ok gate.
Proof.
  unfold run_channel_join_with_admission. destruct (verified_admission attested req admission) as [[a peer]|e] eqn:Ev;
    [|intros [= <- _] (? & ? & ? & ?%elem_of_nil); done].
  destruct (pinned _ _ _ _ _) as [[[]|refused] ev] eqn:Ep; [|intros [= <- _] (? & ? & ? & Hin); destruct ev; set_solver].
  destruct (gate_local_from _ _ _ _ _) as [gate|] eqn:Eg; [|intros [= <- _] (? & ? & ? & ?%elem_of_nil); done].
  destruct (session_leg _ _ _ _ _ _ _) as [leg|]; [|intros [= <- _] (? & ? & ? & ?%elem_of_nil); done]. intros [= <- <-] _.
  apply verified_admission_Ok in Ev as (-> & Hn & Hh & att & Ha & Hv). exists a, leg, peer, gate, att. repeat split; try done.
  unfold PeerPin.check_peer_pin in *. destruct pin; [|by simplify_eq]. destruct (PeerPin.check _ _ _ _ _ _); by simplify_eq.
Qed.

(** C35: A pairing the pin refuses takes the very leg its session would have taken, and closes it.  With
    the same settings and answers but no pin the join would have run one session over the leg taken, or,
    where none is taken, failed before it had one -- provided the settings of its gate are sound; they
    are not looked at for a pairing that gets no session, which then takes a leg although an unpinned
    join has none.  With the accept race on there is no single leg to take: the refused pairing waits for
    the connection in its window, and uses up the relay leg only when none came. *)
Theorem refused_pairing_takes_the_same_leg env w admission req role listener race pin a peer refused event :
  verified_admission attested req admission = Ok (a, peer) ->
  pinned (Some pin) (req_channel req) (req_holder req) (v_holder peer) (v_noise peer) = (Err refused, Some event) ->
  let taken := session_leg relay_only_endpoint w role (peer_endpoint a) listener
                 (own_endpoint_looks_reachable is_global_unicast (req_endpoint req) (observed_reflexive a)) race in
  (exists leg, join env w admission req role listener race (Some pin) = ([PinRefuses event leg], Err refused) /\
     match taken with
     | Ok DirectLeg => leg = PeerPin.DirectLeg
     | Ok RelayLeg => leg = PeerPin.RelayLeg
     | Ok RaceLeg => race = true /\
         leg = match incoming w with Some (Some (Ok _)) => PeerPin.DirectLeg | None => PeerPin.RelayLeg | _ => PeerPin.NoLeg end
     | Err _ => leg = PeerPin.NoLeg
     end) /\
  forall gate, gate_local_from url_parse env role (v_holder peer) (req_expires_at req) = Ok gate ->
    join env w admission req role listener race None =
      match taken with Ok leg => ([SessionRuns leg peer gate], session w leg) | Err e => ([], Err e) end.
Proof.
  intros Hv Hp taken. split.
  - unfold run_channel_join_with_admission. rewrite Hv, Hp. eexists. split; [done|]. subst taken.
    unfold PeerPin.refused_leg, session_leg. destruct role; cbn.
    + destruct (String.eqb _ _); [done|]. destruct (parse_socket _) as [x|]; [|done]. cbn. by destruct (dial w x) as [|[]].
    + destruct listener; [|done]. cbn. destruct (own_endpoint_looks_reachable _ _ _); [|done]. cbn.
      destruct race; [split; [done|]|]; by destruct (incoming w) as [[[]|]|].
  - intros gate Hg. unfold run_channel_join_with_admission. rewrite Hv. cbn [PeerPin.check_peer_pin]. by rewrite Hg.
Qed.

(** C36: The relay-only join without the experimental upgrade does not look at the pin: a peer the pin
    refuses -- whom the join with the upgrade turns away -- gets a session there. *)
Theorem fenced_relay_join_skips_the_pin env w admission req role pin peer gate refused event :
  relayed_admission attested DCUTR_NO_KEY req admission = Ok peer ->
  pinned (Some pin) (req_channel req) (req_holder req) (v_holder peer) (v_noise peer) = (Err refused, Some event) ->
  gate_local_from url_parse env role (v_holder peer) (req_expires_at req) = Ok gate ->
  join_via_relay_dcutr attested channel_id_for_link url_parse env w admission req role (Some pin) = ([PinRefuses event PeerPin.RelayLeg], Err refused) /\
  join_via_relay_without_dcutr attested url_parse env w admission req role = ([SessionRuns RelayLeg peer gate], session w RelayLeg).
Proof.
  intros Hv Hp Hg. unfold join_via_relay_dcutr, join_via_relay_without_dcutr. rewrite Hv, Hp.
  assert (relayed_admission attested RELAY_NO_KEY req admission = Ok peer) as ->; [|by rewrite Hg].
  revert Hv. unfold relayed_admission. destruct admission as [x| |]; [|done..]. by destruct (peer_noise_pubkey x).
Qed.
End JoinTheorems.

(** ** Theorems: the relay gate *)

Section RelayGateTheorems.
Context (sign : list byte -> list byte) (decode_refusal_category : list byte -> option string) (peer_id : string -> result string string).
Context (REFUSAL_CATEGORY_MAX_LEN : nat).

Lemma read_some_Ok n l a b : read_exact n l = Ok (a, b) -> l = a ++ b /\ length a = n.
Proof.
  unfold read_exact. destruct (Nat.leb_spec n (length l)); [|done]. intros [= <- <-]. rewrite take_drop, length_take. split; [done|lia].
Qed.
Lemma read_some_app n a b : length a = n -> read_exact n (a ++ b) = Ok (a, b).
Proof. intros <-. unfold read_exact. rewrite length_app, (proj2 (Nat.leb_le _ _)) by lia. by rewrite take_app_length, drop_app_length. Qed.

(** The gate is passed only by the edge's own [OK], the holder signs nothing but the edge's challenge, and
    a [NO] is a definitive refusal with the edge's category. *)
Lemma relay_gate_passes_iff grant received timely written r :
  relay_gate_handshake sign decode_refusal_category peer_id REFUSAL_CATEGORY_MAX_LEN grant received timely = (written, r) ->
  (forall id, r = Ok id -> exists challenge len raw rest, received = challenge ++ as_bytes "OK" ++ len ++ raw ++ rest /\
     length challenge = 32%nat /\ length len = 2%nat /\ length raw = Z.to_nat (be_value len) /\
     written = [grant; sign challenge] /\ peer_id (String.string_of_list_byte raw) = Ok id) /\
  (forall challenge rest, received = challenge ++ as_bytes "NO" ++ rest -> length challenge = 32%nat ->
     exists e, r = Err e /\ is_definitive_admission_refusal e = true).
Proof.
  unfold relay_gate_handshake. intros Hr. split.
  - intros id ->. destruct (read_exact 32 received) as [[challenge rest]|] eqn:E; [|done]. apply read_some_Ok in E as [-> Hc]. injection Hr as <- Hr.
    apply rbind_Ok in Hr as ([ack rest1] & [-> _]%read_some_Ok & Hr).
    destruct (bool_decide_reflect (ack = as_bytes "OK")) as [->|]; [|done]. cbn [negb] in Hr.
    apply rbind_Ok in Hr as ([len rest2] & [-> Hl]%read_some_Ok & ([raw rest3] & [-> Hw]%read_some_Ok & Hr)%rbind_Ok).
    destruct (utf8_valid raw); [|done]. cbn [negb] in Hr. exists challenge, len, raw, rest3. repeat split; try done.
    by destruct (peer_id _); simplify_eq/=.
  - intros challenge rest -> Hc. rewrite read_some_app, (read_some_app 2 (as_bytes "NO")) in Hr by done.
    injection Hr as _ <-. eexists. split; [reflexivity|done].
Qed.
End RelayGateTheorems.

(** ** Concrete inputs *)

Definition demo_url (s : string) : option (string * option string) :=
  if String.eqb s "https://cp.example" then Some ("https", Some "cp.example")%string
  else if String.eqb s "http://[::1]:8080" then Some ("http", Some "[::1]")%string
  else if String.eqb s "http://cp.example" then Some ("http", Some "cp.example")%string else None.
Example plain_http_is_for_loopback : (is_ok (check_cp_url demo_url " https://cp.example "), is_ok (check_cp_url demo_url "http://[::1]:8080"), is_ok (check_cp_url demo_url "http://cp.example")) = (true, true, false).
Proof. by vm_compute. Qed.

Definition demo_forward_env (k : string) : option string :=
  if String.eqb k FORWARD_ENV then Some "127.0.0.1:1=127.0.0.1:2"%string
  else if String.eqb k "CT_CHANNEL_ROLE" then Some " Accept "%string
  else if String.eqb k CP_URL_ENV then Some " https://cp.example "%string
  else if String.eqb k REVOCATION_ENV then Some "require"%string
  else if String.eqb k PeerGrant.OPERATOR_PUBKEY_ENV then Some (Codec.hex_encode (repeat (to_u8 1) 32))
  else None.
Definition demo_key (n : Z) : list byte := repeat (to_u8 n) 32.
(** The control plane's address is checked trimmed, and used as it stands. *)
Definition demo_plan : GatePlan :=
  {| gate_check := Some {| gate_operator := demo_key 1; gate_peer_holder := demo_key 8; gate_role := RoleAccept;
       gate_watch := Some (" https://cp.example "%string, {| GrantWatch.interval := 30 * SECOND; GrantWatch.grace := 90 * SECOND; GrantWatch.require := true |}) |};
     own_expiry := 1000 |}.
Example gate_uses_the_address_untrimmed : gate_local_from demo_url demo_forward_env RoleAccept (demo_key 8) 1000 = Ok demo_plan.
Proof. by vm_compute. Qed.

Lemma startup_check_covers_the_join_witness :
  role_from (demo_forward_env "CT_CHANNEL_ROLE"%string) = Ok RoleAccept /\ is_ok (check_revocation_config demo_url demo_forward_env) = true /\
  (gate_local_from demo_url demo_forward_env RoleAccept (demo_key 8) 1000 = Err NO_OPERATOR \/
   is_ok (gate_local_from demo_url demo_forward_env RoleAccept (demo_key 8) 1000) = true).
Proof.
  split; [vm_compute; reflexivity|]. split; [vm_compute; reflexivity|].
  exact (proj1 (startup_check_covers_the_join demo_url demo_forward_env RoleAccept (demo_key 8) 1000 ltac:(vm_compute; reflexivity)) ltac:(vm_compute; reflexivity)).
Defined.
Lemma forward_gate_is_complete_witness :
  own_expiry demo_plan = 1000 /\ exists c u cfg, gate_check demo_plan = Some c /\ gate_watch c = Some (u, cfg) /\ GrantWatch.require cfg = true.
Proof.
  destruct (forward_gate_is_complete demo_url demo_forward_env RoleAccept (demo_key 8) 1000 demo_plan gate_uses_the_address_untrimmed) as [He Hf].
  split; [exact He|]. destruct (Hf ltac:(vm_compute; reflexivity)) as (c & Hc & _ & _ & Ha).
  destruct (Ha eq_refl) as [_ Hr]. destruct (Hr ltac:(vm_compute; reflexivity)) as (u & cfg & Hu & Hq). exists c, u, cfg. split; [exact Hc|]. split; [exact Hu|exact Hq].
Defined.

Definition demo_attested (channel holder noise att : list byte) : bool := bool_decide (att = holder ++ noise).
Definition demo_request : Request := {| req_channel := demo_key 3; req_holder := demo_key 4; req_expires_at := 1000; req_endpoint := "192.0.2.5:7000" |}.
Definition demo_peer : Admission :=
  {| peer_endpoint := "192.0.2.9:7000"; peer_noise_pubkey := Some (demo_key 7); peer_holder := Some (demo_key 8);
     peer_attestation := Some (demo_key 8 ++ demo_key 7); observed_reflexive := None |}.
Definition demo_join_world : JoinWorld :=
  {| dial _ := Err Unreachable; incoming := None; session _ := Ok tt |}.
Definition demo_link_id (operator own peer : list byte) : list byte := operator ++ own ++ peer.
Definition demo_pin (holder : Z) : PeerPin.PeerPin := PeerPin.Peers [{| PeerPin.holder := demo_key holder; PeerPin.noise := None |}].
Definition demo_verified : Verified := {| v_holder := demo_key 8; v_noise := demo_key 7 |}.

Lemma session_is_with_the_attested_peer_witness :
  exists a leg peer gate att, PeerAdmitted demo_peer = PeerAdmitted a /\ leg = RelayLeg /\ peer_noise_pubkey a = Some (v_noise peer) /\
    peer_attestation a = Some att /\ demo_attested (demo_key 3) (v_holder peer) (v_noise peer) att = true /\
    gate_local_from demo_url demo_forward_env RoleInitiate (v_holder peer) 1000 = Ok gate.
Proof.
  destruct (run_channel_join_with_admission demo_attested "relay-only" (fun _ => true) demo_link_id demo_url demo_forward_env demo_join_world
    (PeerAdmitted demo_peer) demo_request RoleInitiate false false (Some (demo_pin 8))) as [acts r] eqn:E.
  destruct (session_is_with_the_attested_peer demo_attested "relay-only" (fun _ => true) demo_link_id demo_url demo_forward_env demo_join_world
    (PeerAdmitted demo_peer) demo_request RoleInitiate false false (Some (demo_pin 8)) acts r E) as (a & leg & peer & gate & att & Ha & _ & Had & Hn & _ & Hatt & Hv & _ & Hg).
  - vm_compute in E. injection E as <- _. eexists _, _, _. left.
  - exists a, leg, peer, gate, att. split; [exact Had|]. split; [|split; [exact Hn|]; split; [exact Hatt|]; split; [exact Hv|exact Hg]].
    vm_compute in E. injection E as <- _. injection Ha as <- _ _. reflexivity.
Defined.

Definition demo_refusal : result unit BoxError * option PeerPin.RefusedEvent :=
  PeerPin.check_peer_pin demo_link_id (Some (demo_pin 6)) (demo_key 3) (demo_key 4) (demo_key 8) (demo_key 7).
Lemma refused_pairing_takes_the_same_leg_witness :
  exists refused event leg, demo_refusal = (Err refused, Some event) /\
    run_channel_join_with_admission demo_attested "relay-only" (fun _ => true) demo_link_id demo_url demo_forward_env demo_join_world
      (PeerAdmitted demo_peer) demo_request RoleInitiate false false (Some (demo_pin 6)) = ([PinRefuses event leg], Err refused) /\
    leg = PeerPin.RelayLeg.
Proof.
  destruct demo_refusal as [[[]|refused] [event|]] eqn:E; try (exfalso; vm_compute in E; discriminate E).
  destruct (refused_pairing_takes_the_same_leg demo_attested "relay-only" (fun _ => true) demo_link_id demo_url demo_forward_env demo_join_world
    (PeerAdmitted demo_peer) demo_request RoleInitiate false false (demo_pin 6) demo_peer demo_verified refused event ltac:(vm_compute; reflexivity) E)
    as [(leg & Hj & Hl) _].
  exists refused, event, leg. split; [reflexivity|]. split; [exact Hj|]. vm_compute in Hl. exact Hl.
Defined.

(** The settings that lead to the fenced join, with the pin's peer turned away on the other path only. *)
Lemma fenced_relay_join_skips_the_pin_witness :
  command_mode {| m_relay_only := true; m_relay_gate := true; m_relay_gate_cert := true; m_circuit_relay := false; m_experimental_dcutr := false;
                  m_serve_loop := true; m_call_reconnect := false; m_call_service := None; m_call_persistent := false; m_forward := None |} = Ok (RelayGateLoop false) /\
  exists refused event, demo_refusal = (Err refused, Some event) /\
    join_via_relay_without_dcutr demo_attested demo_url demo_forward_env demo_join_world (PeerAdmitted demo_peer) demo_request RoleAccept =
      ([SessionRuns RelayLeg demo_verified demo_plan], Ok tt).
Proof.
  split; [reflexivity|].
  destruct demo_refusal as [[[]|refused] [event|]] eqn:E; try (exfalso; vm_compute in E; discriminate E).
  exists refused, event. split; [reflexivity|].
  exact (proj2 (fenced_relay_join_skips_the_pin demo_attested demo_link_id demo_url demo_forward_env demo_join_world (PeerAdmitted demo_peer) demo_request
    RoleAccept (demo_pin 6) demo_verified demo_plan refused event ltac:(vm_compute; reflexivity) E gate_uses_the_address_untrimmed)).
Defined.
