(* ===== verification/P2p.v ===== *)
(** * P2p: the relay node's bind policy, the circuit transport and the hole punch ([p2p.rs])

    What a relay node may listen on; the transport that hands out one connection already made, the
    candidates the punch is seeded with; the drivers that reserve a circuit or dial through one, as
    step functions over what the libp2p swarm reports; and which offered address the responder dials.
    libp2p itself -- swarms, multiaddr syntax, peer ids -- is a parameter. *)
From S2P Require Import Prelude Text Net.
From S2P Require Import Retry JoinConfig Dialing ChannelJoin.
From S2P Require PeerPin Capability.

#[local] Open Scope Z_scope.

(** ** Multiaddrs *)

(** The components the code looks at; [OtherProtocol] is any other one, as printed. *)
Inductive Protocol :=
| Ip4 (a b c d : Z)
| Ip6 (segments : list Z)
| Tcp (port : Z)
| Udp (port : Z)
| QuicV1
| P2p (peer : string)
| P2pCircuit
| Memory (n : Z)
| OtherProtocol (text : string).
#[global] Instance Protocol_eq_dec : EqDecision Protocol.
Proof. solve_decision. Defined.
Definition Multiaddr : Type := list Protocol.

Definition ip_of (p : Protocol) : option IpAddr :=
  match p with Ip4 a b c d => Some (V4 a b c d) | Ip6 segs => Some (V6 segs) | _ => None end.
Definition port_of (p : Protocol) : option Z := match p with Tcp port | Udp port => Some port | _ => None end.
(** [Iterator::find_map]. *)
Fixpoint find_map {A B} (f : A -> option B) (l : list A) : option B :=
  match l with [] => None | x :: l => match f x with Some y => Some y | None => find_map f l end end.

(** ** What a relay node may listen on *)

Definition RELAY_ALLOW_PUBLIC_BIND_ENV : string := "CT_RELAY_ALLOW_PUBLIC_BIND".

(** [Ipv4Addr::is_loopback], [is_private], [is_link_local]. *)
Definition v4_internal (a b : Z) : bool :=
  (a =? 127) || ((a =? 10) || ((a =? 172) && between 16 b 31) || ((a =? 192) && (b =? 168))) || ((a =? 169) && (b =? 254)).
Definition is_internal_bind_ip (ip : IpAddr) : bool :=
  match ip with
  | V4 a b _ _ => v4_internal a b
  | V6 segs =>
      if bool_decide (take 6 segs = [0; 0; 0; 0; 0; 65535]) then          (** [to_ipv4_mapped] *)
        let hi := default 0 (segs !! 6%nat) in v4_internal (Z.shiftr hi 8) (Z.land hi 255)
      else
      let s0 := default 0 (head segs) in
      is_loopback (V6 segs) || (Z.land s0 65024 =? 64512) || (Z.land s0 65472 =? 65152)
  end.

Section Bind.
Context (show_socket : SocketAddr -> string) (multiaddr : string -> option Multiaddr).

Definition not_internal (addr : SocketAddr) : string :=
  "relay-node: refusing to bind " +:+ show_socket addr +:+ ": not a loopback/private address (RFC 1918, unique-local fc00::/7, link-local) -- this relay is unguarded and must only be reachable through the edge's :443 relay-gate; set "
  +:+ RELAY_ALLOW_PUBLIC_BIND_ENV +:+ "=1 to bind a public address deliberately (ct-agent#173)".
Definition relay_bind_policy (addr : SocketAddr) (allow_public : bool) : result unit string :=
  if is_internal_bind_ip (sock_ip addr) || allow_public then Ok tt else Err (not_internal addr).
Definition relay_listen_socket_addr (listen : string) : option SocketAddr :=
  let? ma := multiaddr listen in
  let? ip := find_map ip_of ma in
  Some {| sock_ip := ip; sock_port := default 0 (find_map port_of ma); sock_scope := 0 |}.
Definition relay_listen_policy (listen : string) (allow_public : bool) : result bool string :=
  match relay_listen_socket_addr listen with
  | Some addr => let* _ := relay_bind_policy addr allow_public in Ok (is_internal_bind_ip (sock_ip addr))
  | None =>
      if allow_public then Ok false
      else Err ("relay-node: refusing to bind " +:+ listen +:+ ": CT_RELAY_LISTEN must name an /ip4/ or /ip6/ address so its reachability can be classified (set "
                +:+ RELAY_ALLOW_PUBLIC_BIND_ENV +:+ "=1 to skip the check deliberately) (ct-agent#173)")%string
  end.

(** [relay_node_key_seed]: pairs as [u8::from_str_radix] reads them. *)
Definition relay_node_key_seed (hex : string) : option (list byte) := Capability.parse_routing_token_hex hex.
(** The identity of the node's swarm: the configured seed, or ([None]) a fresh one. *)
Definition relay_identity (env : string -> option string) : result (option (list byte)) string :=
  match (let? hex := env "CT_RELAY_NODE_KEY"%string in if is_empty (trim hex) then None else Some hex) with
  | Some hex => match relay_node_key_seed hex with
                | Some seed => Ok (Some seed)
                | None => Err "CT_RELAY_NODE_KEY: expected 64 hex chars (32 bytes)"%string
                end
  | None => Ok None
  end.

(** The [relay-node] command up to [nat_lab_relay]: the line it prints, or its error. *)
Definition relay_node_start (env : string -> option string) : result (string * string) string :=
  let* listen := ok_or (env "CT_RELAY_LISTEN"%string)
    "relay-node requires CT_RELAY_LISTEN (an internal-only address, e.g. /ip4/127.0.0.1/tcp/4437 -- never a publicly reachable one)"%string in
  let* internal := relay_listen_policy listen (EnvFlag.flag (env RELAY_ALLOW_PUBLIC_BIND_ENV) false) in
  Ok (listen, if internal then "ct-agent relay-node: binding " +:+ listen +:+ " (internal address, ct-agent#173 policy: ok)"
              else "ct-agent relay-node: WARNING binding " +:+ listen +:+ ", which is NOT an internal address -- allowed only because "
                   +:+ RELAY_ALLOW_PUBLIC_BIND_ENV +:+ "=1 is set; this relay is unguarded and is now reachable by anyone who can reach that address (ct-agent#173)")%string.

(** [multiaddr_is_global_unicast], over ct-common's filter. *)
Definition multiaddr_is_global_unicast (is_global_unicast : SocketAddr -> bool) (ma : Multiaddr) : bool :=
  match find_map ip_of ma with
  | Some ip => is_global_unicast {| sock_ip := ip; sock_port := 0; sock_scope := 0 |}
  | None => false
  end.
End Bind.

(** ** Seeding the candidates of the punch *)

(** [SeedExternalAddr::poll]: the candidates not told yet. *)
Definition seed_poll (pending : list Multiaddr) : Poll Multiaddr * list Multiaddr :=
  match reverse pending with
  | addr :: told => (Ready addr, reverse told)
  | [] => (Pending, [])
  end.
Definition relay_gate_reflexive_candidates (own_reflexive_udp : option SocketAddr) : list Multiaddr :=
  match own_reflexive_udp with
  | Some addr => [ [match sock_ip addr with V4 a b c d => Ip4 a b c d | V6 segs => Ip6 segs end; Udp (sock_port addr); QuicV1] ]
  | None => []
  end.

(** ** The transport with one connection ([PreConnectedTransport]) *)

Section Transport.
Context {S : Type}.
Inductive ListenState := Idle | Requested (id : Z) (addr : Multiaddr) | AddressSent (id : Z) (addr : Multiaddr) | Done.
Record PreConnectedTransport := { stream : option S; listen : ListenState }.
Inductive TransportEvent := NewAddress (id : Z) (addr : Multiaddr) | Incoming (id : Z) (s : S) (local send_back : Multiaddr).

Definition new_transport (s : S) : PreConnectedTransport := {| stream := Some s; listen := Idle |}.
(** [Err]: [MultiaddrNotSupported]. *)
Definition listen_on (id : Z) (addr : Multiaddr) (t : PreConnectedTransport) : result unit Multiaddr * PreConnectedTransport :=
  match stream t, listen t with
  | Some _, Idle => (Ok tt, {| stream := stream t; listen := Requested id addr |})
  | _, _ => (Err addr, t)
  end.
Definition remove_listener (id : Z) (t : PreConnectedTransport) : bool * PreConnectedTransport :=
  match listen t with
  | Requested lid _ | AddressSent lid _ =>
      if lid =? id then (true, {| stream := stream t; listen := Done |}) else (false, t)
  | _ => (false, t)
  end.
Definition dial_transport (addr : Multiaddr) (t : PreConnectedTransport) : result S Multiaddr * PreConnectedTransport :=
  match stream t with
  | Some s => (Ok s, {| stream := None; listen := listen t |})
  | None => (Err addr, t)
  end.
Definition transport_poll (t : PreConnectedTransport) : Poll TransportEvent * PreConnectedTransport :=
  match listen t with
  | Requested id addr => (Ready (NewAddress id addr), {| stream := stream t; listen := AddressSent id addr |})
  | AddressSent id addr =>
      match stream t with
      | Some s => (Ready (Incoming id s addr addr), {| stream := None; listen := Done |})
      | None => (Pending, {| stream := None; listen := Done |})
      end
  | Idle | Done => (Pending, t)
  end.

(** What the swarm calls, and what it got. *)
Inductive Call := ListenOn (id : Z) (addr : Multiaddr) | RemoveListener (id : Z) | DialAddr (addr : Multiaddr) | PollTransport.
Inductive Got := Announced (id : Z) | HandedIn (id : Z) (s : S) | HandedOut (s : S) | Nothing.
Definition transport_call (c : Call) (t : PreConnectedTransport) : Got * PreConnectedTransport :=
  match c with
  | ListenOn id addr => (Nothing, (listen_on id addr t).2)
  | RemoveListener id => (Nothing, (remove_listener id t).2)
  | DialAddr addr => let '(r, t) := dial_transport addr t in (match r with Ok s => HandedOut s | Err _ => Nothing end, t)
  | PollTransport =>
      let '(r, t) := transport_poll t in
      (match r with Ready (NewAddress id _) => Announced id | Ready (Incoming id s _ _) => HandedIn id s | Pending => Nothing end, t)
  end.
Fixpoint transport_run (cs : list Call) (t : PreConnectedTransport) : list Got * PreConnectedTransport :=
  match cs with
  | [] => ([], t)
  | c :: cs => let '(g, t) := transport_call c t in let '(gs, t) := transport_run cs t in (g :: gs, t)
  end.
End Transport.
Arguments PreConnectedTransport : clear implicits.
Arguments TransportEvent : clear implicits.
Arguments Got : clear implicits.

(** ** The drivers *)

Definition DCUTR_SETUP_TIMEOUT : Z := 30 * SECOND.
(** What the swarm reports, as far as the drivers tell it apart. *)
Inductive SwarmEvent := ReservationAccepted | Connected (peer : string) | OtherEvent | SwarmEnded.

Section Drivers.
Context {S : Type} (show_duration : Z -> string).

(** [dcutr_reserve_and_accept_on]: the task that drives the swarm -- whether it runs, and the two
    channels it sends on -- and the caller. *)
Inductive ReserveCaller :=
| AwaitsReservation
| HoldsDriver                    (** reserved: the guard and the receiver are the caller's *)
| ReserveFailed (e : string)
| SessionOver.
Record Reserve := { r_running : bool; r_reserved : bool; r_inbound : option S; r_caller : ReserveCaller }.
Inductive ReserveEvent := RSwarm (e : SwarmEvent) | RInbound (s : S) | RTimeout | RGuardDropped.
Definition reserve_start : Reserve := {| r_running := true; r_reserved := false; r_inbound := None; r_caller := AwaitsReservation |}.
Definition reserve_event (e : ReserveEvent) (r : Reserve) : option Reserve :=
  match e with
  | RSwarm ev =>
      if r_running r then
        Some match ev with
             | ReservationAccepted =>
                 {| r_running := true; r_reserved := true; r_inbound := r_inbound r;
                    r_caller := match r_caller r with AwaitsReservation => HoldsDriver | c => c end |}
             | SwarmEnded =>
                 {| r_running := false; r_reserved := r_reserved r; r_inbound := r_inbound r;
                    r_caller := match r_caller r with
                                | AwaitsReservation => ReserveFailed "client driver ended before its relay reservation was accepted"
                                | c => c
                                end |}
             | _ => r
             end
      else None
  | RInbound s =>
      if r_running r then
        Some {| r_running := true; r_reserved := r_reserved r; r_inbound := match r_inbound r with Some s => Some s | None => Some s end;
                r_caller := r_caller r |}
      else None
  | RTimeout =>
      match r_caller r with
      | AwaitsReservation =>
          Some {| r_running := false; r_reserved := r_reserved r; r_inbound := r_inbound r;
                  r_caller := ReserveFailed ("relay reservation not accepted within " +:+ show_duration DCUTR_SETUP_TIMEOUT) |}
      | _ => None
      end
  | RGuardDropped =>
      match r_caller r with
      | HoldsDriver => Some {| r_running := false; r_reserved := r_reserved r; r_inbound := r_inbound r; r_caller := SessionOver |}
      | _ => None
      end
  end.

(** [dcutr_dial_via_relay_on]. *)
Inductive DialPc := Dials | AwaitsTarget | OpensStream | Driving | DriverOver.
Inductive DialCaller := AwaitsStream | HoldsStream (s : S) | DialFailed (e : string) | DialSessionOver.
Record DialRelay := { d_pc : DialPc; d_caller : DialCaller }.
Inductive DialEvent := DDialStarted (ok : bool) | DSwarm (e : SwarmEvent) | DOpened (r : result S string) | DTimeout | DGuardDropped.
Definition dial_start : DialRelay := {| d_pc := Dials; d_caller := AwaitsStream |}.
Definition not_opened (target : string) : string := "channel stream to " +:+ target +:+ " did not open through the relay".
(** The sender is dropped, or the driver ends, before it sent: the caller fails and drops the driver. *)
Definition driver_gone (target : string) (d : DialRelay) : DialRelay :=
  {| d_pc := DriverOver; d_caller := match d_caller d with AwaitsStream => DialFailed (not_opened target) | c => c end |}.
Definition dial_event (target : string) (e : DialEvent) (d : DialRelay) : option DialRelay :=
  match d_pc d, e with
  | Dials, DDialStarted true => Some {| d_pc := AwaitsTarget; d_caller := d_caller d |}
  | Dials, DDialStarted false => Some (driver_gone target d)
  | AwaitsTarget, DSwarm (Connected peer) =>
      Some (if String.eqb peer target then {| d_pc := OpensStream; d_caller := d_caller d |} else d)
  | OpensStream, DOpened (Ok s) => Some {| d_pc := Driving; d_caller := HoldsStream s |}
  | OpensStream, DOpened (Err _) => Some (driver_gone target d)
  | (AwaitsTarget | OpensStream | Driving), DSwarm SwarmEnded => Some (driver_gone target d)
  | (AwaitsTarget | OpensStream | Driving), DSwarm _ => Some d
  | _, DTimeout =>
      match d_caller d with
      | AwaitsStream =>
          Some {| d_pc := DriverOver;
                  d_caller := DialFailed ("channel stream to " +:+ target +:+ " not open within " +:+ show_duration DCUTR_SETUP_TIMEOUT) |}
      | _ => None
      end
  | _, DGuardDropped =>
      match d_caller d with HoldsStream _ => Some {| d_pc := DriverOver; d_caller := DialSessionOver |} | _ => None end
  | _, _ => None
  end.
Fixpoint dial_run (target : string) (es : list DialEvent) (d : DialRelay) : option DialRelay :=
  match es with [] => Some d | e :: es => let? d := dial_event target e d in dial_run target es d end.
Fixpoint reserve_run (es : list ReserveEvent) (r : Reserve) : option Reserve :=
  match es with [] => Some r | e :: es => let? r := reserve_event e r in reserve_run es r end.
End Drivers.

(** ** Which address the responder dials *)

Section Upgrade.
Context (multiaddr : string -> option Multiaddr) (show_multiaddr : Multiaddr -> string).

Definition dcutr_upgrade_target (offered : string) (trusted_circuit : Multiaddr) : option string :=
  let? addr := multiaddr offered in
  match reverse addr with
  | P2p peer :: protos => if decide (reverse protos = trusted_circuit) then Some peer else None
  | _ => None
  end.
(** The circuit of the relay gate's client, and what the initiator advertises. *)
Definition pre_connected_relay_addr : Multiaddr := [Memory 1].
Definition relay_gate_circuit (relay_peer : string) : Multiaddr := pre_connected_relay_addr ++ [P2p relay_peer; P2pCircuit].
Definition advertise (circuit_relay : Multiaddr) (own_peer : string) : string := show_multiaddr (circuit_relay ++ [P2p own_peer]).
(** The responder's closures: whether it says Ready, and the dial behind it. *)
Definition dcutr_accepts (offered : string) (trusted : Multiaddr) : bool :=
  match dcutr_upgrade_target offered trusted with Some _ => true | None => false end.
Definition dcutr_dial (offered : string) (trusted : Multiaddr) : option (Multiaddr * string) :=
  let? target := dcutr_upgrade_target offered trusted in
  let? addr := multiaddr offered in
  Some (addr, target).
End Upgrade.

(** ** The join over the relay gate ([join_via_relay_gate_dcutr]) *)

Section GateJoin.
Context (attested : list byte -> list byte -> list byte -> list byte -> bool) (is_global_unicast : SocketAddr -> bool).
Context (channel_id_for_link : list byte -> list byte -> list byte -> list byte) (url_parse : string -> option (string * option string)).
Context (dns : string -> result (list SocketAddr) string).

(** What the network answers after the admission: the stream on the relay, the gate's handshake with the
    relay node's peer id, the edge's echo, and the session over the relay with the swarm's seeds. *)
Record GateWorld := {
  relay_streams : result unit BoxError; gate_dial : result string BoxError; udp_reflexive : SocketAddr -> option SocketAddr;
  gate_session : list Multiaddr -> Multiaddr -> result unit BoxError }.
Inductive GateAct :=
| GatePinRefuses (event : PeerPin.RefusedEvent)     (** and the relay connection is closed *)
| GateDialed
| GateSession (peer : Verified) (gate : GatePlan) (seeds : list Multiaddr) (circuit : Multiaddr).

Definition GATE_NO_KEY : string := "DCUtR relay-gate join needs the peer's relayed Noise key (register the member's key, #101)".
Definition own_reflexive_udp (env : string -> option string) (w : GateWorld) (relay_gate_addr : SocketAddr) : option SocketAddr :=
  match reflexive_query_addr dns relay_gate_addr (env "CT_CHANNEL_REFLEXIVE_EDGE"%string) with
  | Ok addr => let? a := udp_reflexive w addr in if is_global_unicast a then Some a else None
  | Err _ => None
  end.
Definition join_via_relay_gate_dcutr (env : string -> option string) (w : GateWorld) (admission : ChannelJoinOutcome) (req : Request)
    (role : ChannelRole) (relay_gate_addr : SocketAddr) (pin : option PeerPin.PeerPin) : list GateAct * result unit BoxError :=
  match relayed_admission attested GATE_NO_KEY req admission with
  | Err e => ([], Err e)
  | Ok peer =>
      match PeerPin.check_peer_pin channel_id_for_link pin (req_channel req) (req_holder req) (v_holder peer) (v_noise peer) with
      | (Err refused, event) => (match event with Some ev => [GatePinRefuses ev] | None => [] end, Err refused)
      | (Ok _, _) =>
          match gate_local_from url_parse env role (v_holder peer) (req_expires_at req) with
          | Err e => ([], Err (plain e))
          | Ok gate =>
              match relay_streams w with
              | Err e => ([], Err e)
              | Ok _ =>
                  match gate_dial w with
                  | Err e => ([GateDialed], Err e)
                  | Ok relay_peer =>
                      let seeds := relay_gate_reflexive_candidates (own_reflexive_udp env w relay_gate_addr) in
                      let circuit := relay_gate_circuit relay_peer in
                      ([GateDialed; GateSession peer gate seeds circuit], gate_session w seeds circuit)
                  end
              end
          end
      end
  end.
End GateJoin.

(** ** Theorems: the bind policy *)

(** The internal blocks as prefixes of the address taken as a number. *)
Definition v4_value (a b c d : Z) : Z := ((a * 256 + b) * 256 + c) * 256 + d.
Definition v6_value (segs : list Z) : Z := fold_left (fun n s => n * 65536 + s) segs 0.
Definition in_block (bits value : Z) (block : Z * Z) : bool := value / 2 ^ (bits - block.2) =? block.1 / 2 ^ (bits - block.2).
Definition BLOCKS4 : list (Z * Z) :=
  [(v4_value 127 0 0 0, 8); (v4_value 10 0 0 0, 8); (v4_value 172 16 0 0, 12); (v4_value 192 168 0 0, 16); (v4_value 169 254 0 0, 16)].
Definition MAPPED : Z := 65535 * 2 ^ 32.
Definition BLOCKS6 : list (Z * Z) :=
  [(1, 128); (v6_value [64512; 0; 0; 0; 0; 0; 0; 0], 7); (v6_value [65152; 0; 0; 0; 0; 0; 0; 0], 10)] ++
  map (fun b => (MAPPED + b.1, 96 + b.2)) BLOCKS4.
Definition in_internal_block (ip : IpAddr) : bool :=
  match ip with
  | V4 a b c d => existsb (in_block 32 (v4_value a b c d)) BLOCKS4
  | V6 segs => existsb (in_block 128 (v6_value segs)) BLOCKS6
  end.
Definition ip_ok (ip : IpAddr) : Prop :=
  match ip with
  | V4 a b c d => Forall (fun x => 0 <= x < 256) [a; b; c; d]
  | V6 segs => length segs = 8%nat /\ Forall (fun x => 0 <= x < 65536) segs
  end.

(** A quotient by a power of two drops the low digits. *)
Lemma div_low q r m : 0 <= r < m -> (q * m + r) / m = q.
Proof. intros. symmetry. apply (Z.div_unique _ m q r); lia. Qed.

Lemma v4_internal_block a b c d : Forall (fun x => 0 <= x < 256) [a; b; c; d] ->
  v4_internal a b = existsb (in_block 32 (v4_value a b c d)) BLOCKS4.
Proof.
  intros Hr. repeat (apply Forall_cons in Hr as [? Hr]).
  assert (E8 : v4_value a b c d / 2 ^ (32 - 8) = a)
    by (replace (v4_value a b c d) with (a * 2 ^ (32 - 8) + ((b * 256 + c) * 256 + d)) by (unfold v4_value; lia); apply div_low; lia).
  assert (E16 : v4_value a b c d / 2 ^ (32 - 16) = a * 256 + b)
    by (replace (v4_value a b c d) with ((a * 256 + b) * 2 ^ (32 - 16) + (c * 256 + d)) by (unfold v4_value; lia); apply div_low; lia).
  assert (E12 : v4_value a b c d / 2 ^ (32 - 12) = a * 16 + b / 16).
  { pose proof (Z.div_mod b 16 ltac:(lia)). pose proof (Z.mod_pos_bound b 16 ltac:(lia)).
    replace (v4_value a b c d) with ((a * 16 + b / 16) * 2 ^ (32 - 12) + ((b mod 16 * 256 + c) * 256 + d)) by (unfold v4_value; lia).
    apply div_low. lia. }
  unfold BLOCKS4, in_block. cbn [existsb fst snd]. rewrite E8, E12, E16.
  pose proof (Z.div_mod b 16 ltac:(lia)). pose proof (Z.mod_pos_bound b 16 ltac:(lia)).
  unfold v4_internal, between. apply Bool.eq_iff_eq_true. rewrite !orb_true_iff, !andb_true_iff, !Z.eqb_eq, !Z.leb_le.
  change (v4_value 127 0 0 0 / 2 ^ (32 - 8)) with 127. change (v4_value 10 0 0 0 / 2 ^ (32 - 8)) with 10.
  change (v4_value 172 16 0 0 / 2 ^ (32 - 12)) with (172 * 16 + 1). change (v4_value 192 168 0 0 / 2 ^ (32 - 16)) with (192 * 256 + 168).
  change (v4_value 169 254 0 0 / 2 ^ (32 - 16)) with (169 * 256 + 254).
  split; intros; lia.
Qed.

Lemma land_block x k n : 0 <= k -> 0 <= n -> 0 <= x < 2 ^ (n + k) -> Z.land x (Z.shiftl (Z.ones n) k) = x / 2 ^ k * 2 ^ k.
Proof.
  intros Hk Hn Hx. transitivity (Z.shiftl (Z.land (Z.shiftr x k) (Z.ones n)) k).
  - apply Z.bits_inj'. intros i Hi. rewrite Z.land_spec, !Z.shiftl_spec by done.
    destruct (Z.lt_ge_cases i k); [by rewrite !(Z.testbit_neg_r _ (i - k)) by lia; rewrite andb_false_r|].
    rewrite Z.land_spec, Z.shiftr_spec by lia. by replace (i - k + k) with i by lia.
  - rewrite Z.land_ones, Z.shiftr_div_pow2, Z.shiftl_mul_pow2 by done. f_equal. apply Z.mod_small.
    split; [apply Z.div_pos; lia|]. apply Z.div_lt_upper_bound; [lia|].
    rewrite Z.mul_comm, <- Z.pow_add_r by lia. lia.
Qed.

(** The two halves of a mapped block's test. *)
Lemma mapped_block h l base n : 0 <= n <= 32 -> 0 <= l < 2 ^ 32 -> 0 <= base < 2 ^ 32 -> 0 <= h ->
  in_block 128 (h * 2 ^ 32 + l) (MAPPED + base, 96 + n) = (h =? 65535) && in_block 32 l (base, n).
Proof.
  intros Hn Hl Hb Hh. unfold in_block, MAPPED. cbn [fst snd]. replace (128 - (96 + n)) with (32 - n) by lia.
  set (k := 32 - n). assert (Hp : 2 ^ 32 = 2 ^ n * 2 ^ k) by (rewrite <- Z.pow_add_r by lia; f_equal; lia).
  assert (0 < 2 ^ k) by lia. assert (0 < 2 ^ n) by lia.
  assert (E : forall q r, (q * 2 ^ 32 + r) / 2 ^ k = q * 2 ^ n + r / 2 ^ k).
  { intros q r. rewrite Hp, Z.mul_assoc, Z.add_comm, Z.div_add by lia. lia. }
  rewrite !E.
  assert (0 <= l / 2 ^ k < 2 ^ n) by (split; [apply Z.div_pos; lia|apply Z.div_lt_upper_bound; lia]).
  assert (0 <= base / 2 ^ k < 2 ^ n) by (split; [apply Z.div_pos; lia|apply Z.div_lt_upper_bound; lia]).
  apply Bool.eq_iff_eq_true. rewrite andb_true_iff, !Z.eqb_eq. split; [|by intros [-> ->]].
  intros Heq. assert (h = 65535) by nia. subst. split; lia.
Qed.

Lemma existsb_andb {A} (b : bool) (f : A -> bool) l : existsb (fun x => b && f x) l = b && existsb f l.
Proof. induction l as [|x l IH]; simpl; [by rewrite andb_false_r|]. rewrite IH. by destruct b. Qed.

Lemma blocks4_bounded : Forall (fun b => 0 <= b.1 < 2 ^ 32 /\ 0 <= b.2 <= 32) BLOCKS4.
Proof. repeat constructor; vm_compute; done. Qed.

Lemma v6_internal_block segs : ip_ok (V6 segs) -> is_internal_bind_ip (V6 segs) = in_internal_block (V6 segs).
Proof.
  intros [Hl Hr]. do 8 (destruct segs as [|? segs]; [done|]). destruct segs; [|done]. clear Hl.
  repeat (apply Forall_cons in Hr as [? Hr]). clear Hr.
  rename z into s0, z0 into s1, z1 into s2, z2 into s3, z3 into s4, z4 into s5, z5 into s6, z6 into s7.
  set (h := ((((s0 * 65536 + s1) * 65536 + s2) * 65536 + s3) * 65536 + s4) * 65536 + s5).
  set (l := s6 * 65536 + s7). set (v := v6_value [s0; s1; s2; s3; s4; s5; s6; s7]).
  assert (Hv : v = h * 2 ^ 32 + l) by (unfold v, h, l, v6_value; simpl; lia).
  assert (Hdiv : forall k, 0 <= k -> v / 2 ^ (112 + k) = s0 / 2 ^ k).
  { intros k Hk. rewrite Z.pow_add_r, <- Z.div_div by lia. f_equal.
    replace v with (s0 * 2 ^ 112 + ((((((s1 * 65536 + s2) * 65536 + s3) * 65536 + s4) * 65536 + s5) * 65536 + s6) * 65536 + s7))
      by (unfold v, v6_value; simpl; lia).
    apply div_low. lia. }
  assert (Hm : existsb (in_block 128 v) (map (fun b => (MAPPED + b.1, 96 + b.2)) BLOCKS4) =
               (h =? 65535) && v4_internal (s6 / 256) (s6 mod 256)).
  { pose proof (Z.div_mod s6 256 ltac:(lia)). pose proof (Z.mod_pos_bound s6 256 ltac:(lia)).
    pose proof (Z.div_mod s7 256 ltac:(lia)). pose proof (Z.mod_pos_bound s7 256 ltac:(lia)).
    rewrite (v4_internal_block (s6 / 256) (s6 mod 256) (s7 / 256) (s7 mod 256)) by (repeat constructor; lia).
    replace (v4_value (s6 / 256) (s6 mod 256) (s7 / 256) (s7 mod 256)) with l by (unfold v4_value, l; lia).
    rewrite <- existsb_andb, Hv. generalize blocks4_bounded. generalize BLOCKS4. intros bs Hb.
    induction Hb as [|[b n] bs [] _ IH]; [done|]. cbn [map existsb fst snd]. rewrite IH.
    rewrite mapped_block by (cbn [fst snd] in *; unfold h, l; lia). done. }
  unfold in_internal_block. fold v. unfold BLOCKS6. rewrite existsb_app, Hm. cbn [existsb].
  assert (H128 : in_block 128 v (1, 128) = (v =? 1)) by (unfold in_block; cbn [fst snd]; by rewrite Z.sub_diag, !Z.div_1_r).
  assert (H7 : in_block 128 v (v6_value [64512; 0; 0; 0; 0; 0; 0; 0], 7) = (s0 / 2 ^ 9 =? 126)) by (unfold in_block; cbn [fst snd]; change (128 - 7) with (112 + 9); by rewrite (Hdiv 9) by done).
  assert (H10 : in_block 128 v (v6_value [65152; 0; 0; 0; 0; 0; 0; 0], 10) = (s0 / 2 ^ 6 =? 1018)) by (unfold in_block; cbn [fst snd]; change (128 - 10) with (112 + 6); by rewrite (Hdiv 6) by done).
  rewrite H128, H7, H10. clear H128 H7 H10 Hdiv Hm.
  pose proof (land_block s0 9 7 ltac:(lia) ltac:(lia) ltac:(lia)) as L9. pose proof (land_block s0 6 10 ltac:(lia) ltac:(lia) ltac:(lia)) as L6.
  change (Z.shiftl (Z.ones 7) 9) with 65024 in L9. change (Z.shiftl (Z.ones 10) 6) with 65472 in L6.
  unfold is_internal_bind_ip. cbn [take is_loopback head default id].
  change (default 0 ([s0; s1; s2; s3; s4; s5; s6; s7] !! 6%nat)) with s6. rewrite L9, L6.
  case_bool_decide as Hmap.
  - injection Hmap as -> -> -> -> -> ->. rewrite Z.shiftr_div_pow2, (Z.land_ones _ 8) by lia.
    replace (h =? 65535) with true by done. replace (v =? 1) with false by (symmetry; apply Z.eqb_neq; unfold v, v6_value; simpl; lia). done.
  - assert (h =? 65535 = false) as -> by (apply Z.eqb_neq; intros Heq; apply Hmap; unfold h in *; repeat f_equal; lia).
    rewrite andb_false_l, !orb_false_r, <- orb_assoc. f_equal; [|f_equal].
    + case_bool_decide as E; [injection E as -> -> -> -> -> -> -> ->; done|]. symmetry. apply Z.eqb_neq. intros Heq. apply E.
      unfold v, v6_value in *. simpl in *. repeat f_equal; lia.
    + apply Bool.eq_iff_eq_true. rewrite !Z.eqb_eq. lia.
    + apply Bool.eq_iff_eq_true. rewrite !Z.eqb_eq. lia.
Qed.

Lemma internal_is_block ip : ip_ok ip -> is_internal_bind_ip ip = in_internal_block ip.
Proof. destruct ip as [a b c d|segs]; [apply v4_internal_block|apply v6_internal_block]. Qed.

Lemma find_map_Some {A B} (f : A -> option B) l y : find_map f l = Some y -> exists x, x ∈ l /\ f x = Some y.
Proof.
  induction l as [|x l IH]; [done|]. simpl. destruct (f x) as [z|] eqn:E.
  - intros [= ->]. exists x. split; [constructor|done].
  - intros (x' & ? & ?)%IH. exists x'. split; [by constructor|done].
Qed.

(** A relay node without the override listens only on an address inside the loopback, private and
    link-local blocks -- taken as prefixes of the address as a number, IPv4-mapped IPv6 addresses in the
    block of the address they carry -- and refuses every other one, and every address without an IP; with
    the override it says which of the two it is. *)
Theorem relay_node_is_internal (show_socket : SocketAddr -> string) (multiaddr : string -> option Multiaddr) listen allow :
  (forall ma p ip, multiaddr listen = Some ma -> p ∈ ma -> ip_of p = Some ip -> ip_ok ip) ->
  let inside := match relay_listen_socket_addr multiaddr listen with Some a => in_internal_block (sock_ip a) | None => false end in
  match relay_listen_policy show_socket multiaddr listen allow with
  | Ok internal => internal = inside /\ (inside = true \/ allow = true)
  | Err _ => inside = false /\ allow = false
  end.
Proof.
  intros Hok. unfold relay_listen_policy, relay_bind_policy.
  destruct (relay_listen_socket_addr multiaddr listen) as [addr|] eqn:Ha; simpl; [|by destruct allow; auto].
  assert (is_internal_bind_ip (sock_ip addr) = in_internal_block (sock_ip addr)) as <-.
  { apply internal_is_block. unfold relay_listen_socket_addr in Ha. destruct (multiaddr listen) as [ma|] eqn:Em; [|done].
    destruct (find_map ip_of ma) as [ip|] eqn:Ef; [|done]. injection Ha as <-. simpl.
    apply find_map_Some in Ef as (p & Hp & Hip). by eapply Hok. }
  destruct (is_internal_bind_ip (sock_ip addr)), allow; simpl; auto.
Qed.

(** ** Theorems: the transport *)

Section TransportTheorems.
Context {S : Type}.
Implicit Types (t : PreConnectedTransport S) (gs : list (Got S)).

Definition handed gs : list S := omap (fun g => match g with HandedIn _ s | HandedOut s => Some s | _ => None end) gs.
Definition announced (t : PreConnectedTransport S) gs : Prop :=
  match listen t with AddressSent id _ => Announced id ∈ gs | _ => True end.

Lemma transport_call_inv c t g t' before : transport_call c t = (g, t') -> announced t before ->
  announced t' (before ++ [g]) /\
  handed [g] ++ option_list (stream t') = option_list (stream t) /\
  (forall id s, g = HandedIn id s -> Announced id ∈ before).
Proof.
  unfold announced. destruct t as [st ls]. destruct c as [id addr|id|addr|]; simpl.
  - unfold listen_on. simpl. intros [= <- <-] Hann. destruct st, ls; simpl; rewrite ?elem_of_app; split_and!; try done; by left.
  - unfold remove_listener. simpl. destruct ls as [|lid a|lid a|]; simpl; try (intros [= <- <-] Hann; by split_and!);
      destruct (Z.eqb_spec lid id); intros [= <- <-] Hann; simpl; rewrite ?elem_of_app; split_and!; try done; by left.
  - unfold dial_transport. simpl. destruct st; intros [= <- <-] Hann; simpl; destruct ls; simpl; rewrite ?elem_of_app; split_and!; try done; by left.
  - unfold transport_poll. simpl. destruct ls as [|lid a|lid a|]; simpl.
    + intros [= <- <-] Hann. by split_and!.
    + intros [= <- <-] Hann. simpl. rewrite elem_of_app, list_elem_of_singleton. split_and!; try done. by right.
    + destruct st; intros [= <- <-] Hann; simpl; split_and!; try done. by intros ?? [= <- _].
    + intros [= <- <-] Hann. by split_and!.
Qed.

Lemma transport_run_inv cs : forall t gs t' before, transport_run cs t = (gs, t') -> announced t before ->
  handed gs ++ option_list (stream t') = option_list (stream t) /\
  (forall g1 id s g2, gs = g1 ++ HandedIn id s :: g2 -> Announced id ∈ before ++ g1).
Proof.
  induction cs as [|c cs IH]; intros t gs t' before Hr Hann; simpl in Hr.
  - injection Hr as <- <-. split; [done|]. by intros [|??] ???.
  - destruct (transport_call c t) as [g t1] eqn:Hc. destruct (transport_run cs t1) as [gs1 t2] eqn:Hr1. injection Hr as <- <-.
    destruct (transport_call_inv _ _ _ _ _ Hc Hann) as (Hann1 & Hs & Hin). destruct (IH _ _ _ _ Hr1 Hann1) as [Hs1 Hin1]. split.
    + change (g :: gs1) with ([g] ++ gs1). unfold handed in *. rewrite omap_app, <- app_assoc, Hs1. done.
    + intros [|g0 g1] id s g2 [= -> Hg]; [rewrite app_nil_r; by eapply Hin|]. subst. specialize (Hin1 _ _ _ _ eq_refl).
      by rewrite <- app_assoc in Hin1.
Qed.

(** Whatever the swarm calls in whatever order, the one connection is handed out once at most, to a
    dial or as an incoming one, and as an incoming one only on a listener whose address was announced
    before; and it is lost only by being handed out. *)
Theorem connection_is_handed_out_once cs (s : S) gs t : transport_run cs (new_transport s) = (gs, t) ->
  (handed gs = [] /\ stream t = Some s \/ handed gs = [s] /\ stream t = None) /\
  (forall g1 id s' g2, gs = g1 ++ HandedIn id s' :: g2 -> Announced id ∈ g1).
Proof.
  intros Hr. destruct (transport_run_inv _ _ _ _ [] Hr) as [Hs Hin]; [done|]. split; [|done].
  simpl in Hs. destruct (stream t) as [s'|]; simpl in Hs.
  - destruct (handed gs) as [|a [|]]; simplify_eq/=; auto.
  - rewrite app_nil_r in Hs. auto.
Qed.
End TransportTheorems.

(** ** Theorems: the drivers *)

Section DriverTheorems.
Context {S : Type} (show_duration : Z -> string).

Definition reserve_inv (es : list (ReserveEvent (S := S))) (r : Reserve (S := S)) : Prop :=
  (r_running r = true -> r_caller r = AwaitsReservation \/ r_caller r = HoldsDriver) /\
  (r_caller r = AwaitsReservation -> r_running r = true /\ r_reserved r = false) /\
  (r_caller r = HoldsDriver -> RSwarm ReservationAccepted ∈ es) /\
  r_inbound r = head (omap (fun e => match e with RInbound s => Some s | _ => None end) es) /\
  (RTimeout ∈ es \/ RGuardDropped ∈ es -> r_running r = false).

Lemma reserve_step_inv es r e r' : reserve_inv es r -> reserve_event show_duration e r = Some r' -> reserve_inv (es ++ [e]) r'.
Proof.
  unfold reserve_inv. intros (Hrun & Haw & Hh & Hin & Ht) He. rewrite omap_app, !elem_of_app, !list_elem_of_singleton.
  destruct r as [run res inb c], c, run; simpl in Hrun, Haw, Hh, Hin, Ht; try (by destruct (Haw eq_refl)); try (by destruct (Hrun eq_refl)).
  all: destruct e as [[]|s| |]; simpl in He; try discriminate He; injection He as <-; simpl; rewrite ?app_nil_r, ?Hin;
    split_and!; try done; try (by destruct (omap _ es)); clear Hin; intuition congruence.
Qed.

(** The member that reserves a circuit never waits for good and leaves nothing behind: the wait is over
    when its thirty seconds are, at the latest; whenever it failed, and whenever its session is over, the
    task that drives the swarm has stopped; it goes on only with a reservation that was accepted; and of
    the streams peers open through the circuit exactly the first is the session's. *)
Theorem reservation_leaves_no_task (es : list (ReserveEvent (S := S))) r : reserve_run show_duration es reserve_start = Some r ->
  match r_caller r with
  | AwaitsReservation => r_running r = true /\ is_Some (reserve_event show_duration RTimeout r)
  | HoldsDriver => RSwarm ReservationAccepted ∈ es
  | ReserveFailed _ | SessionOver => r_running r = false
  end /\
  (RTimeout ∈ es \/ RGuardDropped ∈ es -> r_running r = false) /\
  r_inbound r = head (omap (fun e => match e with RInbound s => Some s | _ => None end) es).
Proof.
  intros Hr. assert (Hinv : reserve_inv es r).
  { change es with ([] ++ es). revert Hr. assert (Hi : reserve_inv [] (reserve_start (S := S))) by (unfold reserve_inv; simpl; rewrite !elem_of_nil; naive_solver).
    revert Hi. generalize (reserve_start (S := S)) at 1 2. generalize (@nil (ReserveEvent (S := S))).
    induction es as [|e es IH]; intros before r0 Hi Hr; simpl in Hr; [injection Hr as <-; by rewrite app_nil_r|].
    destruct (reserve_event show_duration e r0) as [r1|] eqn:He; [|done]. rewrite cons_middle, app_assoc.
    eapply IH; [|done]. by eapply reserve_step_inv. }
  destruct Hinv as (Hrun & Haw & Hh & Hin & Ht). split_and!; try done.
  destruct (r_caller r) eqn:Hc.
  - split; [by apply Haw|]. simpl. rewrite Hc. by eexists.
  - by apply Hh.
  - destruct (r_running r); [|done]. by destruct Hrun.
  - destruct (r_running r); [|done]. by destruct Hrun.
Qed.

Definition dial_inv (target : string) (es : list (DialEvent (S := S))) (d : DialRelay (S := S)) : Prop :=
  match d_caller d with
  | AwaitsStream => d_pc d = Dials \/ d_pc d = AwaitsTarget \/ d_pc d = OpensStream
  | HoldsStream s => (d_pc d = Driving \/ d_pc d = DriverOver) /\ DOpened (Ok s) ∈ es
  | DialFailed _ | DialSessionOver => d_pc d = DriverOver
  end /\
  (d_pc d = OpensStream \/ d_pc d = Driving \/ (exists s, d_caller d = HoldsStream s) -> DSwarm (Connected target) ∈ es) /\
  (DTimeout ∈ es \/ DGuardDropped ∈ es -> d_pc d = DriverOver).

Lemma dial_step_inv target es d e d' : dial_inv target es d -> dial_event show_duration target e d = Some d' -> dial_inv target (es ++ [e]) d'.
Proof.
  unfold dial_inv. intros (Hc & Hcon & Ht) He. rewrite !elem_of_app, !list_elem_of_singleton.
  destruct d as [pc c], c, pc; simpl in Hc; try (exfalso; clear -Hc; naive_solver).
  all: destruct e as [[]|[|peer| |]|[]| |]; simpl in He; try discriminate He; injection He as <-; unfold driver_gone;
    simpl; rewrite ?elem_of_app, ?list_elem_of_singleton; simpl in *; try naive_solver.
  destruct (String.eqb peer target) eqn:E; [apply String.eqb_eq in E as ->|]; simpl; rewrite ?elem_of_app; naive_solver.
Qed.

(** A dial through the relay ends in a stream only when the relayed connection to the very member it
    dialed stood before, and the stream it hands out is the one that was opened; when it fails, when its
    time is over and when its session ends, the task that drives the swarm has stopped; and while it still
    waits, the end of its time ends the wait. *)
Theorem relayed_dial_reaches_its_target target (es : list (DialEvent (S := S))) d : dial_run show_duration target es dial_start = Some d ->
  match d_caller d with
  | AwaitsStream => is_Some (dial_event show_duration target DTimeout d)
  | HoldsStream s => DOpened (Ok s) ∈ es /\ DSwarm (Connected target) ∈ es
  | DialFailed _ | DialSessionOver => d_pc d = DriverOver
  end /\ (DTimeout ∈ es \/ DGuardDropped ∈ es -> d_pc d = DriverOver).
Proof.
  intros Hr. assert (Hinv : dial_inv target es d).
  { change es with ([] ++ es). revert Hr. assert (Hi : dial_inv target [] (dial_start (S := S))) by (unfold dial_inv; simpl; rewrite !elem_of_nil; naive_solver).
    revert Hi. generalize (dial_start (S := S)) at 1 2. generalize (@nil (DialEvent (S := S))).
    induction es as [|e es IH]; intros before d0 Hi Hr; simpl in Hr; [injection Hr as <-; by rewrite app_nil_r|].
    destruct (dial_event show_duration target e d0) as [d1|] eqn:He; [|done]. rewrite cons_middle, app_assoc.
    eapply IH; [|done]. by eapply dial_step_inv. }
  destruct Hinv as (Hc & Hcon & Ht). split; [|done]. destruct d as [pc [ |s|e| ]]; simpl in *.
  - destruct Hc as [-> | [-> | ->]]; by eexists.
  - destruct Hc as [_ Hc]. split; [done|]. apply Hcon. right. right. by exists s.
  - done.
  - done.
Qed.
End DriverTheorems.

(** ** Theorems: the upgrade and the gate *)

Lemma upgrade_target_pinned multiaddr offered trusted peer :
  dcutr_upgrade_target multiaddr offered trusted = Some peer <-> multiaddr offered = Some (trusted ++ [P2p peer]).
Proof.
  unfold dcutr_upgrade_target. split.
  - destruct (multiaddr offered) as [addr|]; [|done]. intros H.
    destruct (reverse addr) as [|[] protos] eqn:E; try done. destruct (decide (reverse protos = trusted)) as [<-|]; [|done].
    injection H as <-. f_equal. rewrite <- (reverse_involutive addr), E. by rewrite reverse_cons.
  - intros ->. rewrite reverse_snoc. by rewrite decide_True by apply reverse_involutive.
Qed.

(** Whatever the peer offers, the responder says Ready only for, and dials nothing but, its own
    configured relay circuit followed by one peer: no relay of the offer's choosing is ever contacted.
    The offer of a member on the same circuit is accepted and leads to that member. *)
Theorem upgrade_is_pinned_to_the_relay multiaddr show_multiaddr trusted own :
  multiaddr (advertise show_multiaddr trusted own) = Some (trusted ++ [P2p own]) ->
  (forall offered addr target, dcutr_dial multiaddr offered trusted = Some (addr, target) -> addr = trusted ++ [P2p target]) /\
  (forall offered, dcutr_accepts multiaddr offered trusted = true <-> is_Some (dcutr_dial multiaddr offered trusted)) /\
  dcutr_accepts multiaddr (advertise show_multiaddr trusted own) trusted = true /\
  dcutr_dial multiaddr (advertise show_multiaddr trusted own) trusted = Some (trusted ++ [P2p own], own).
Proof.
  intros Hadv. assert (Hdial : forall offered, dcutr_dial multiaddr offered trusted =
    option_map (fun t => (trusted ++ [P2p t], t)) (dcutr_upgrade_target multiaddr offered trusted)).
  { intros offered. unfold dcutr_dial. destruct (dcutr_upgrade_target multiaddr offered trusted) as [t|] eqn:E; [|done].
    apply upgrade_target_pinned in E. by rewrite E. }
  unfold dcutr_accepts. split_and!.
  - intros offered addr target. rewrite Hdial. destruct (dcutr_upgrade_target _ _ _); simpl; naive_solver.
  - intros offered. rewrite Hdial. destruct (dcutr_upgrade_target _ _ _); simpl; naive_solver.
  - by rewrite (proj2 (upgrade_target_pinned _ _ _ own) Hadv).
  - by rewrite Hdial, (proj2 (upgrade_target_pinned _ _ _ own) Hadv).
Qed.

(** A join over the relay gate turns away whom the pin refuses before anything is opened towards the
    gate, runs a session only with the attested peer the pin names behind the gate of its role, and seeds
    the punch with an address only if it is a global one -- the one the edge saw for UDP. *)
Theorem gate_join_is_pinned attested is_global_unicast channel_id_for_link url_parse dns env w admission req role addr pin acts r :
  join_via_relay_gate_dcutr attested is_global_unicast channel_id_for_link url_parse dns env w admission req role addr pin = (acts, r) ->
  (acts = [] /\ is_ok r = false) \/
  exists peer, relayed_admission attested GATE_NO_KEY req admission = Ok peer /\
    let verdict := PeerPin.check_peer_pin channel_id_for_link pin (req_channel req) (req_holder req) (v_holder peer) (v_noise peer) in
    (exists refused event, verdict = (Err refused, Some event) /\ acts = [GatePinRefuses event] /\ r = Err refused) \/
    (verdict.1 = Ok tt /\ exists gate, gate_local_from url_parse env role (v_holder peer) (req_expires_at req) = Ok gate /\
      ((exists e, gate_dial w = Err e /\ acts = [GateDialed] /\ r = Err e) \/
       exists relay_peer seeds, gate_dial w = Ok relay_peer /\ acts = [GateDialed; GateSession peer gate seeds (relay_gate_circuit relay_peer)] /\
         r = gate_session w seeds (relay_gate_circuit relay_peer) /\
         (seeds = [] \/ exists a p, own_reflexive_udp is_global_unicast dns env w addr = Some a /\ is_global_unicast a = true /\
            seeds = [[p; Udp (sock_port a); QuicV1]] /\ ip_of p = Some (sock_ip a)))).
Proof.
  unfold join_via_relay_gate_dcutr. destruct (relayed_admission _ _ _ _) as [peer|e]; [|intros [= <- <-]; by left].
  destruct (PeerPin.check_peer_pin _ _ _ _ _ _) as [[[]|refused] event] eqn:Hpin; swap 1 2.
  - destruct event as [ev|]; intros [= <- <-]; [|by left]. right. exists peer. split; [done|]. left. rewrite Hpin. by eexists _, _.
  - destruct (gate_local_from _ _ _ _ _) as [gate|e] eqn:Hg; [|intros [= <- <-]; by left].
    destruct (relay_streams w) as [[]|e]; [|intros [= <- <-]; by left].
    destruct (gate_dial w) as [relay_peer|e] eqn:Hd; intros [= <- <-]; right; exists peer; (split; [done|]); right; rewrite Hpin;
      (split; [done|]); exists gate; (split; [done|]); [|left; by exists e].
    right. eexists relay_peer, _. split_and!; try done.
    destruct (own_reflexive_udp _ _ _ _ _) as [a|] eqn:Ha; [|by left]. right. exists a. simpl.
    assert (is_global_unicast a = true).
    { unfold own_reflexive_udp in Ha. destruct (reflexive_query_addr _ _ _); [|done]. destruct (udp_reflexive w _) as [b|]; [|done].
      destruct (is_global_unicast b) eqn:Eb; [|done]. by injection Ha as ->. }
    destruct (sock_ip a); eexists _; split_and!; done.
Qed.

(** ** Concrete runs *)

Definition demo_circuit : Multiaddr := relay_gate_circuit "R".
Definition demo_multiaddr (s : string) : option Multiaddr :=
  if String.eqb s "/ip4/172.20.0.9/tcp/4437" then Some [Ip4 172 20 0 9; Tcp 4437]
  else if String.eqb s "/ip4/203.0.113.7/tcp/4437" then Some [Ip4 203 0 113 7; Tcp 4437]
  else if String.eqb s "/ip6/::ffff:192.168.1.2/tcp/1" then Some [Ip6 [0; 0; 0; 0; 0; 65535; 49320; 258]; Tcp 1]
  else if String.eqb s "circuit/p2p/A" then Some (demo_circuit ++ [P2p "A"])
  else if String.eqb s "evil/p2p/A" then Some [Ip4 203 0 113 7; Tcp 1; P2p "X"; P2pCircuit; P2p "A"]
  else None.
Definition demo_show_multiaddr (ma : Multiaddr) : string := "circuit/p2p/A".

Lemma relay_node_is_internal_witness :
  relay_listen_policy (fun _ => "addr"%string) demo_multiaddr "/ip6/::ffff:192.168.1.2/tcp/1" false = Ok true /\
  match relay_listen_policy (fun _ => "addr"%string) demo_multiaddr "/ip4/203.0.113.7/tcp/4437" false with
  | Ok _ => False
  | Err _ => in_internal_block (V4 203 0 113 7) = false
  end.
Proof.
  split; [reflexivity|].
  assert (H := relay_node_is_internal (fun _ => "addr"%string) demo_multiaddr "/ip4/203.0.113.7/tcp/4437" false).
  assert (Hok : forall ma p ip, demo_multiaddr "/ip4/203.0.113.7/tcp/4437" = Some ma -> p ∈ ma -> ip_of p = Some ip -> ip_ok ip).
  { intros ma p ip [= <-] Hp Hip. repeat (apply elem_of_cons in Hp as [->|Hp]; [try discriminate Hip; injection Hip as <-; repeat constructor; lia|]).
    by apply elem_of_nil in Hp. }
  specialize (H Hok). vm_compute in H. exact (proj1 H).
Defined.

Definition demo_calls : list Call :=
  [ListenOn 7 demo_circuit; PollTransport; DialAddr demo_circuit; PollTransport; ListenOn 8 demo_circuit; DialAddr demo_circuit].
Lemma connection_is_handed_out_once_witness :
  exists gs t, transport_run demo_calls (new_transport 5) = (gs, t) /\ gs = [Nothing; Announced 7; HandedOut 5; Nothing; Nothing; Nothing] /\
    (handed gs = [] /\ stream t = Some 5 \/ handed gs = [5] /\ stream t = None).
Proof.
  destruct (transport_run demo_calls (new_transport 5)) as [gs t] eqn:E. exists gs, t. split; [reflexivity|].
  split; [vm_compute in E; injection E as <- _; reflexivity|]. exact (proj1 (connection_is_handed_out_once demo_calls 5 gs t E)).
Defined.

Definition demo_reserve : list (ReserveEvent (S := Z)) := [RSwarm OtherEvent; RSwarm ReservationAccepted; RInbound 1; RInbound 2; RGuardDropped].
Lemma reservation_leaves_no_task_witness : exists r, reserve_run (fun _ => "30s"%string) demo_reserve reserve_start = Some r /\
  r_running r = false /\ r_inbound r = Some 1.
Proof.
  destruct (reserve_run (fun _ => "30s"%string) demo_reserve reserve_start) as [r|] eqn:E; [|discriminate E]. exists r. split; [reflexivity|].
  destruct (reservation_leaves_no_task (fun _ => "30s"%string) demo_reserve r E) as (_ & Hrun & Hin).
  split; [apply Hrun; right; unfold demo_reserve; set_solver|exact Hin].
Defined.

Definition demo_dial_events : list (DialEvent (S := Z)) :=
  [DDialStarted true; DSwarm (Connected "R"); DSwarm (Connected "A"); DOpened (Ok 3)].
Lemma relayed_dial_reaches_its_target_witness : exists d, dial_run (fun _ => "30s"%string) "A" demo_dial_events dial_start = Some d /\
  d_caller d = HoldsStream 3 /\ DSwarm (Connected "A") ∈ demo_dial_events.
Proof.
  eexists. split; [reflexivity|]. split; [reflexivity|].
  exact (proj2 (proj1 (relayed_dial_reaches_its_target (fun _ => "30s"%string) "A" demo_dial_events {| d_pc := Driving; d_caller := HoldsStream 3 |} eq_refl))).
Defined.

Lemma upgrade_is_pinned_to_the_relay_witness :
  dcutr_dial demo_multiaddr "circuit/p2p/A" demo_circuit = Some (demo_circuit ++ [P2p "A"], "A"%string) /\
  dcutr_accepts demo_multiaddr "evil/p2p/A" demo_circuit = false.
Proof.
  split; [|reflexivity].
  exact (proj2 (proj2 (proj2 (upgrade_is_pinned_to_the_relay demo_multiaddr demo_show_multiaddr demo_circuit "A" eq_refl)))).
Defined.

Definition demo_gate_world : GateWorld :=
  {| relay_streams := Ok tt; gate_dial := Ok "R"%string;
     udp_reflexive _ := Some {| sock_ip := V4 203 0 113 7; sock_port := 6000; sock_scope := 0 |}; gate_session _ _ := Ok tt |}.
Definition demo_gate_join (pin : Z) : list GateAct * result unit BoxError :=
  join_via_relay_gate_dcutr demo_attested (fun _ => true) demo_link_id demo_url (fun _ => Err "no"%string) demo_forward_env demo_gate_world
    (PeerAdmitted demo_peer) demo_request RoleInitiate {| sock_ip := V4 198 51 100 1; sock_port := 443; sock_scope := 0 |} (Some (demo_pin pin)).
Lemma gate_join_is_pinned_witness :
  (exists event refused, demo_gate_join 6 = ([GatePinRefuses event], Err refused)) /\
  exists gate, demo_gate_join 8 =
    ([GateDialed; GateSession demo_verified gate [[Ip4 203 0 113 7; Udp 6000; QuicV1]] demo_circuit], Ok tt).
Proof.
  split.
  - destruct (demo_gate_join 6) as [acts r] eqn:E.
    destruct (gate_join_is_pinned _ _ _ _ _ _ _ _ _ _ _ _ _ _ E) as [[-> Hr]|(peer & Hpeer & [(refused & event & _ & -> & ->)|[Hv _]])].
    + exfalso. vm_compute in E. discriminate E.
    + exists event, refused. reflexivity.
    + exfalso. vm_compute in Hpeer. injection Hpeer as <-. vm_compute in Hv. discriminate Hv.
  - eexists. vm_compute. reflexivity.
Defined.
