(* ===== verification/SuperPeer.v ===== *)
(** * SuperPeer: the LAN relay of datagrams ([super_peer.rs])

    [run_with_cap] and one return-path task per LAN client, as a step function over what the sockets
    report: the loop and every task stand at one of their awaits, and the map of clients is the mutex'
    content.  The log records what came in on each socket and what went out. *)
From S2P Require Import Prelude Text Net.

#[local] Open Scope Z_scope.

Definition IDLE_TIMEOUT : Z := 120 * SECOND.
Definition MAX_DATAGRAM : Z := 65536.
Definition MAX_SUPER_PEER_CLIENTS : nat := 256.

(** ** The relay's state *)

Notation Datagram := (list byte).
(** What one read into the buffer keeps of a datagram. *)
Definition received (d : Datagram) : Datagram := take (Z.to_nat MAX_DATAGRAM) d.

Inductive IoErrorKind := ConnectionReset | ConnectionRefused | OtherKind (text : string).

(** Where the loop of [run_with_cap] stands: at [recv_from], at the lock of the map, at
    [connected_upstream_socket] with the lock held, at the [send], or returned. *)
Inductive MainPc :=
| Receiving
| Locking (from : SocketAddr) (buf : Datagram)
| Opening (from : SocketAddr) (buf : Datagram)
| Forwarding (sock : nat) (from : SocketAddr) (buf : Datagram)
| Returned (e : IoErrorKind).

(** A return-path task: at [recv] under its timeout, at [send_to], or at the lock on its way out. *)
Inductive TaskPc := Reading (deadline : Z) | Replying (buf : Datagram) | Leaving.
Record ReturnPath := { task_client : SocketAddr; task_pc : TaskPc }.

Inductive Act :=
| FromClient (from : SocketAddr) (d : Datagram)     (** came in on the front socket *)
| Opened (sock : nat) (client : SocketAddr)
| Refused (client : SocketAddr)                     (** at the cap *)
| ToUpstream (sock : nat) (d : Datagram)
| FromUpstream (sock : nat) (d : Datagram)
| ToClient (client : SocketAddr) (d : Datagram)
| Evicted (client : SocketAddr).

(** A task has the name of the socket it reads: sockets are numbered as they are opened. *)
Record Relay := {
  main : MainPc;
  clients : gmap SocketAddr nat;
  tasks : gmap nat ReturnPath;
  sockets : nat;
  clock : Z;
  log : list Act }.

Definition init : Relay :=
  {| main := Receiving; clients := ∅; tasks := ∅; sockets := 0; clock := 0; log := [] |}.

Definition goto (pc : MainPc) (acts : list Act) (r : Relay) : Relay :=
  {| main := pc; clients := clients r; tasks := tasks r; sockets := sockets r; clock := clock r; log := log r ++ acts |}.
Definition task_goto (sock : nat) (t : ReturnPath) (pc : TaskPc) (acts : list Act) (r : Relay) : Relay :=
  {| main := main r; clients := clients r; tasks := <[sock := {| task_client := task_client t; task_pc := pc |}]> (tasks r);
     sockets := sockets r; clock := clock r; log := log r ++ acts |}.

(** ** [run_with_cap] *)

Definition on_front (res : result (SocketAddr * Datagram) IoErrorKind) (r : Relay) : option Relay :=
  match main r with
  | Receiving => Some
      match res with
      | Ok (from, d) => goto (Locking from (received d)) [FromClient from d] r
      | Err (ConnectionReset | ConnectionRefused) => r
      | Err e => goto (Returned e) [] r
      end
  | _ => None
  end.

(** The critical section, from the lock to its release or to the bind of a new socket. *)
Definition on_lock (max_clients : nat) (r : Relay) : option Relay :=
  match main r with
  | Locking from buf => Some
      match clients r !! from with
      | Some sock => goto (Forwarding sock from buf) [] r
      | None =>
          if (max_clients <=? size (clients r))%nat then goto Receiving [Refused from] r
          else goto (Opening from buf) [] r
      end
  | _ => None
  end.

(** [connected_upstream_socket] returns: on success the return path is spawned and the entry made. *)
Definition on_opened (ok : bool) (r : Relay) : option Relay :=
  match main r with
  | Opening from buf => Some
      (if ok then
         let sock := sockets r in
         {| main := Forwarding sock from buf; clients := <[from := sock]> (clients r);
            tasks := <[sock := {| task_client := from; task_pc := Reading (clock r + IDLE_TIMEOUT) |}]> (tasks r);
            sockets := S sock; clock := clock r; log := log r ++ [Opened sock from] |}
       else goto Receiving [] r)
  | _ => None
  end.

Definition on_forwarded (ok : bool) (r : Relay) : option Relay :=
  match main r with
  | Forwarding sock _ buf => Some (goto Receiving (if ok then [ToUpstream sock buf] else []) r)
  | _ => None
  end.

(** ** [spawn_return_path] *)

Definition on_upstream (sock : nat) (res : result Datagram IoErrorKind) (r : Relay) : option Relay :=
  match tasks r !! sock with
  | Some t =>
      match task_pc t with
      | Reading _ => Some
          match res with
          | Ok d => task_goto sock t (Replying (received d)) [FromUpstream sock d] r
          | Err _ => task_goto sock t Leaving [] r
          end
      | _ => None
      end
  | None => None
  end.

Definition on_idle (sock : nat) (r : Relay) : option Relay :=
  match tasks r !! sock with
  | Some t =>
      match task_pc t with
      | Reading deadline => if deadline <=? clock r then Some (task_goto sock t Leaving [] r) else None
      | _ => None
      end
  | None => None
  end.

Definition on_replied (sock : nat) (ok : bool) (r : Relay) : option Relay :=
  match tasks r !! sock with
  | Some t =>
      match task_pc t with
      | Replying d => Some
          (if ok then task_goto sock t (Reading (clock r + IDLE_TIMEOUT)) [ToClient (task_client t) d] r
           else task_goto sock t Leaving [] r)
      | _ => None
      end
  | None => None
  end.

(** The task takes the lock, unless the loop holds it, removes its entry and is over. *)
Definition on_evict (sock : nat) (r : Relay) : option Relay :=
  match main r, tasks r !! sock with
  | Opening _ _, _ => None
  | _, Some {| task_client := c; task_pc := Leaving |} =>
      Some {| main := main r; clients := delete c (clients r); tasks := delete sock (tasks r);
              sockets := sockets r; clock := clock r; log := log r ++ [Evicted c] |}
  | _, _ => None
  end.

(** ** All of it *)

Inductive Event :=
| Front (res : result (SocketAddr * Datagram) IoErrorKind)
| Locked
| UpstreamOpened (ok : bool)
| Forwarded (ok : bool)
| Upstream (sock : nat) (res : result Datagram IoErrorKind)
| Idles (sock : nat)
| Replied (sock : nat) (ok : bool)
| Evicts (sock : nat)
| Passes (ns : Z).

Definition step (max_clients : nat) (e : Event) (r : Relay) : option Relay :=
  match e with
  | Front res => on_front res r
  | Locked => on_lock max_clients r
  | UpstreamOpened ok => on_opened ok r
  | Forwarded ok => on_forwarded ok r
  | Upstream sock res => on_upstream sock res r
  | Idles sock => on_idle sock r
  | Replied sock ok => on_replied sock ok r
  | Evicts sock => on_evict sock r
  | Passes ns =>
      if 0 <=? ns then
        Some {| main := main r; clients := clients r; tasks := tasks r; sockets := sockets r; clock := clock r + ns; log := log r |}
      else None
  end.
Fixpoint run_with_cap (max_clients : nat) (es : list Event) (r : Relay) : option Relay :=
  match es with
  | [] => Some r
  | e :: es => let? r := step max_clients e r in run_with_cap max_clients es r
  end.
Definition run (es : list Event) : option Relay := run_with_cap MAX_SUPER_PEER_CLIENTS es init.

(** ** What passed for one client, read off the log *)

(** The sockets opened for [c]. *)
Definition sockets_of (c : SocketAddr) (l : list Act) : list nat :=
  omap (fun a => match a with Opened k c' => if decide (c = c') then Some k else None | _ => None end) l.
Definition sent_by (c : SocketAddr) (l : list Act) : list Datagram :=
  omap (fun a => match a with FromClient c' d => if decide (c = c') then Some (received d) else None | _ => None end) l.
Definition answered (c : SocketAddr) (l : list Act) : list Datagram :=
  omap (fun a => match a with ToClient c' d => if decide (c = c') then Some d else None | _ => None end) l.
Definition passed_up (ks : list nat) (l : list Act) : list Datagram :=
  omap (fun a => match a with ToUpstream k d => if decide (k ∈ ks) then Some d else None | _ => None end) l.
Definition heard_on (ks : list nat) (l : list Act) : list Datagram :=
  omap (fun a => match a with FromUpstream k d => if decide (k ∈ ks) then Some (received d) else None | _ => None end) l.

#[global] Arguments sockets_of _ _ : simpl never.
#[global] Arguments sent_by _ _ : simpl never.
#[global] Arguments answered _ _ : simpl never.
#[global] Arguments passed_up _ _ : simpl never.
#[global] Arguments heard_on _ _ : simpl never.

(** ** Lemmas *)

(** [omap f] of a log that grew. *)
Lemma omap_snoc {A B} (f : A -> option B) (l : list A) a : omap f (l ++ [a]) = omap f l ++ match f a with Some b => [b] | None => [] end.
Proof. rewrite omap_app. cbn. by destruct (f a). Qed.
Lemma omap_same {A B} (f g : A -> option B) (l : list A) : (forall a, a ∈ l -> f a = g a) -> omap f l = omap g l.
Proof.
  induction l as [|a l IH]; intros H; [done|]. cbn. rewrite (H a) by left. rewrite IH; [done|]. intros b Hb. apply H. by right.
Qed.

(** What waits in the loop for [c], and in the task that serves it. *)
Definition in_loop (c : SocketAddr) (r : Relay) : list Datagram :=
  match main r with
  | Locking from buf | Opening from buf | Forwarding _ from buf => if decide (c = from) then [buf] else []
  | _ => []
  end.
Definition in_task (c : SocketAddr) (r : Relay) : list Datagram :=
  match clients r !! c with
  | Some k => match tasks r !! k with Some {| task_pc := Replying d |} => [d] | _ => [] end
  | None => []
  end.

(** The socket an act names. *)
Definition names (a : Act) : option nat :=
  match a with Opened k _ | ToUpstream k _ | FromUpstream k _ => Some k | _ => None end.

Record Inv (max : nat) (r : Relay) : Prop := {
  inv_task : forall k t, tasks r !! k = Some t -> clients r !! task_client t = Some k;
  inv_client : forall c k, clients r !! c = Some k -> exists t, tasks r !! k = Some t /\ task_client t = c;
  inv_names : forall a k, a ∈ log r -> names a = Some k -> (k < sockets r)%nat;
  inv_owner : forall k c, clients r !! c = Some k -> Opened k c ∈ log r;
  inv_once : forall k c c', Opened k c ∈ log r -> Opened k c' ∈ log r -> c = c';
  inv_main : forall k c d, main r = Forwarding k c d -> Opened k c ∈ log r;
  inv_opening : forall c d, main r = Opening c d -> clients r !! c = None /\ (size (clients r) < max)%nat;
  inv_cap : (size (clients r) <= max)%nat;
  inv_size : size (tasks r) = size (clients r);
  inv_up : forall c, passed_up (sockets_of c (log r)) (log r) ++ in_loop c r `sublist_of` sent_by c (log r);
  inv_down : forall c, answered c (log r) ++ in_task c r `sublist_of` heard_on (sockets_of c (log r)) (log r) }.

Lemma sockets_of_spec c l k : k ∈ sockets_of c l <-> Opened k c ∈ l.
Proof.
  unfold sockets_of. rewrite list_elem_of_omap. split.
  - intros (a & Ha & E). destruct a; try done. destruct (decide _); [|done]. by injection E as <-; subst.
  - intros H. exists (Opened k c). split; [done|]. by destruct (decide _).
Qed.

Definition socket_opened (c : SocketAddr) (a : Act) : list nat :=
  match a with Opened k c' => if decide (c = c') then [k] else [] | _ => [] end.
Lemma sockets_snoc c l a : sockets_of c (l ++ [a]) = sockets_of c l ++ socket_opened c a.
Proof. unfold sockets_of. rewrite omap_snoc. by destruct a; try done; cbn; destruct (decide _). Qed.

(** A socket nothing names yet changes nothing of what passed. *)
Lemma up_fresh ks ks' l :
  (forall a k, a ∈ l -> names a = Some k -> k ∉ ks') -> passed_up (ks ++ ks') l = passed_up ks l.
Proof.
  intros H. unfold passed_up. apply omap_same. intros a Ha. destruct a as [| | |k d| | |]; try done.
  specialize (H _ k Ha eq_refl). repeat destruct (decide _); set_solver.
Qed.
Lemma heard_fresh ks ks' l :
  (forall a k, a ∈ l -> names a = Some k -> k ∉ ks') -> heard_on (ks ++ ks') l = heard_on ks l.
Proof.
  intros H. unfold heard_on. apply omap_same. intros a Ha. destruct a as [| | | |k d| |]; try done.
  specialize (H _ k Ha eq_refl). repeat destruct (decide _); set_solver.
Qed.

Lemma inv_init max : Inv max init.
Proof.
  split; cbn; try done; try (intros *; rewrite lookup_empty; done); try (intros *; intros []%not_elem_of_nil); try (rewrite map_size_empty; lia).
Qed.

Lemma in_task_goto max k t pc acts r c :
  Inv max r -> tasks r !! k = Some t ->
  in_task c (task_goto k t pc acts r) = if decide (c = task_client t) then match pc with Replying d => [d] | _ => [] end else in_task c r.
Proof.
  intros I Hk. unfold in_task. cbn. destruct (decide _) as [->|N].
  - by rewrite (inv_task _ _ I _ _ Hk), lookup_insert_eq.
  - destruct (clients r !! c) as [k'|] eqn:E; [|done]. rewrite lookup_insert_ne; [done|]. intros <-.
    destruct (inv_client _ _ I _ _ E) as (t' & Ht & <-). congruence.
Qed.
Lemma in_task_at max k t r :
  Inv max r -> tasks r !! k = Some t -> in_task (task_client t) r = match task_pc t with Replying d => [d] | _ => [] end.
Proof. intros I Hk. unfold in_task. rewrite (inv_task _ _ I _ _ Hk), Hk. by destruct t. Qed.

(** What one more act adds to what passed for [c]. *)
Ltac grown := unfold passed_up, sent_by, answered, heard_on; rewrite ?sockets_snoc; cbn [socket_opened]; rewrite ?app_nil_r, ?omap_snoc; cbn match;
  rewrite ?app_nil_r.

(** A step of the loop that opens nothing. *)
Lemma inv_loop max pc acts r :
  Inv max r ->
  (forall c, passed_up (sockets_of c (log r ++ acts)) (log r ++ acts) ++ in_loop c (goto pc acts r) `sublist_of` sent_by c (log r ++ acts)) ->
  match acts with
  | [] | [FromClient _ _] | [Refused _] => True
  | [ToUpstream k _] => (k < sockets r)%nat
  | _ => False
  end ->
  (forall k c d, pc = Forwarding k c d -> Opened k c ∈ log r) ->
  (forall c d, pc = Opening c d -> clients r !! c = None /\ (size (clients r) < max)%nat) ->
  Inv max (goto pc acts r).
Proof.
  intros I Hup Ha Hf Ho.
  assert (Hin : forall k c, Opened k c ∈ log r ++ acts <-> Opened k c ∈ log r).
  { intros. rewrite elem_of_app. split; [|by left]. intros [|H]; [done|]. exfalso.
    destruct acts as [|[] [|]]; set_solver. }
  split; cbn; try apply I; try done.
  - intros a k [H|H]%elem_of_app; [by apply (inv_names _ _ I)|]. intros E.
    destruct acts as [|[] [|]]; try done; [set_solver|..]; apply list_elem_of_singleton in H as ->; try done. by injection E as <-.
  - intros k c E. apply Hin. by apply (inv_owner _ _ I).
  - intros k c c'. rewrite !Hin. apply (inv_once _ _ I).
  - intros k c d E. apply Hin. by apply (Hf _ _ d).
  - intros c. change (in_task c (goto pc acts r)) with (in_task c r). pose proof (inv_down _ _ I c) as D.
    destruct acts as [|[] [|]]; try done; [by rewrite app_nil_r|..]; grown; exact D.
Qed.

(** A step of a return path that goes on. *)
Lemma inv_path max k t pc acts r :
  Inv max r -> tasks r !! k = Some t ->
  (forall c, answered c (log r ++ acts) ++ in_task c (task_goto k t pc acts r) `sublist_of` heard_on (sockets_of c (log r ++ acts)) (log r ++ acts)) ->
  match acts with
  | [] | [ToClient _ _] => True
  | [FromUpstream k' _] => k' = k
  | _ => False
  end ->
  Inv max (task_goto k t pc acts r).
Proof.
  intros I Hk Hd Ha.
  assert (Hin : forall k c, Opened k c ∈ log r ++ acts <-> Opened k c ∈ log r).
  { intros. rewrite elem_of_app. split; [|by left]. intros [|H]; [done|]. exfalso.
    destruct acts as [|[] [|]]; set_solver. }
  pose proof (inv_task _ _ I _ _ Hk) as Hc.
  split; cbn; try apply I; try done.
  - intros k' t'. destruct (decide (k' = k)) as [->|N].
    + rewrite lookup_insert_eq. by intros [= <-].
    + rewrite lookup_insert_ne by done. apply I.
  - intros c k' E. destruct (inv_client _ _ I _ _ E) as (t' & Ht & <-). destruct (decide (k' = k)) as [->|N].
    + rewrite lookup_insert_eq. eexists. split; [done|]. cbn. congruence.
    + rewrite lookup_insert_ne by done. by exists t'.
  - intros a k' [H|H]%elem_of_app; [by apply (inv_names _ _ I)|]. intros E.
    destruct acts as [|[] [|]]; try done; [set_solver|..]; apply list_elem_of_singleton in H as ->; try done. injection E as <-. subst.
    by apply (inv_names _ _ I (Opened k (task_client t))); [apply (inv_owner _ _ I)|].
  - intros k' c E. apply Hin. by apply (inv_owner _ _ I).
  - intros k' c c'. rewrite !Hin. apply (inv_once _ _ I).
  - intros k' c d E. apply Hin. by apply (inv_main _ _ I _ _ d).
  - rewrite map_size_insert_Some by done. apply I.
  - intros c. change (in_loop c (task_goto k t pc acts r)) with (in_loop c r). pose proof (inv_up _ _ I c) as U.
    destruct acts as [|[] [|]]; try done; [by rewrite app_nil_r|..]; grown; exact U.
Qed.

(** The loop and the task say where they stand. *)
Lemma inv_opened max r c d k :
  Inv max r -> main r = Opening c d -> k = sockets r ->
  Inv max {| main := Forwarding k c d; clients := <[c := k]> (clients r);
             tasks := <[k := {| task_client := c; task_pc := Reading (clock r + IDLE_TIMEOUT) |}]> (tasks r);
             sockets := S k; clock := clock r; log := log r ++ [Opened k c] |}.
Proof.
  intros I Hm ->. destruct (inv_opening _ _ I _ _ Hm) as [Hn Hs].
  assert (Hfresh : forall a k, a ∈ log r -> names a = Some k -> forall c', k ∉ socket_opened c' (Opened (sockets r) c)).
  { intros a k Ha Hk c'. cbn. pose proof (inv_names _ _ I _ _ Ha Hk). destruct (decide _); [|set_solver].
    intros ->%list_elem_of_singleton. lia. }
  assert (Hold : forall c' k, clients r !! c' = Some k -> k <> sockets r).
  { intros c' k E ->. pose proof (inv_names _ _ I _ _ (inv_owner _ _ I _ _ E) eq_refl). lia. }
  split; cbn.
  - intros k t. destruct (decide (k = sockets r)) as [->|N].
    + rewrite lookup_insert_eq. intros [= <-]. cbn. by rewrite lookup_insert_eq.
    + rewrite lookup_insert_ne by done. intros E. pose proof (inv_task _ _ I _ _ E) as T.
      rewrite lookup_insert_ne; [done|]. congruence.
  - intros c' k. destruct (decide (c' = c)) as [->|N].
    + rewrite lookup_insert_eq. intros [= <-]. rewrite lookup_insert_eq. by eexists.
    + rewrite lookup_insert_ne by done. intros E. rewrite lookup_insert_ne by (intros <-; by apply (Hold c' (sockets r))). by apply I.
  - intros a k [H| ->%list_elem_of_singleton]%elem_of_app; [|by intros [= <-]; lia]. intros E.
    pose proof (inv_names _ _ I _ _ H E). lia.
  - intros k c'. destruct (decide (c' = c)) as [->|N].
    + rewrite lookup_insert_eq. intros [= <-]. set_solver.
    + rewrite lookup_insert_ne by done. intros E. apply elem_of_app. left. by apply I.
  - intros k c1 c2 H1 H2. apply elem_of_app in H1 as [H1|[= -> ->]%list_elem_of_singleton], H2 as [H2|[= ?]%list_elem_of_singleton]; subst.
    + by apply (inv_once _ _ I k).
    + pose proof (inv_names _ _ I _ _ H1 eq_refl). lia.
    + pose proof (inv_names _ _ I _ _ H2 eq_refl). lia.
    + done.
  - intros k c' d' [= <- <- <-]. set_solver.
  - done.
  - rewrite map_size_insert_None by done. lia.
  - rewrite !map_size_insert_None; [f_equal; apply I|done|]. destruct (tasks r !! sockets r) as [t|] eqn:E; [|done].
    by destruct (Hold _ _ (inv_task _ _ I _ _ E)).
  - intros c'. pose proof (inv_up _ _ I c') as U. unfold in_loop in *. rewrite Hm in U. cbn [main].
    rewrite sockets_snoc. unfold passed_up at 1. unfold sent_by. rewrite !omap_snoc. cbn match. rewrite !app_nil_r.
    change (omap _ (log r)) with (passed_up (sockets_of c' (log r) ++ socket_opened c' (Opened (sockets r) c)) (log r)) at 1.
    rewrite up_fresh; [exact U|]. intros; by eapply Hfresh.
  - intros c'. pose proof (inv_down _ _ I c') as D.
    rewrite sockets_snoc. unfold heard_on at 1. unfold answered. rewrite !omap_snoc. cbn match. rewrite !app_nil_r.
    change (omap _ (log r)) with (heard_on (sockets_of c' (log r) ++ socket_opened c' (Opened (sockets r) c)) (log r)) at 2.
    rewrite heard_fresh by (intros; by eapply Hfresh).
    replace (in_task c' _) with (in_task c' r); [exact D|]. unfold in_task. cbn.
    destruct (decide (c' = c)) as [->|N].
    + by rewrite lookup_insert_eq, lookup_insert_eq, Hn.
    + rewrite lookup_insert_ne by done. destruct (clients r !! c') as [k|] eqn:E; [|done].
      by rewrite lookup_insert_ne by (intros <-; by apply (Hold c' (sockets r))).
Qed.

Lemma inv_evicted max k t r :
  Inv max r -> tasks r !! k = Some t -> task_pc t = Leaving -> (forall c d, main r <> Opening c d) ->
  Inv max {| main := main r; clients := delete (task_client t) (clients r); tasks := delete k (tasks r);
             sockets := sockets r; clock := clock r; log := log r ++ [Evicted (task_client t)] |}.
Proof.
  intros I Hk Hl Hm. pose proof (inv_task _ _ I _ _ Hk) as Hc.
  assert (Hin : forall k c, Opened k c ∈ log r ++ [Evicted (task_client t)] <-> Opened k c ∈ log r) by (intros; set_solver).
  split; cbn; try done.
  - intros k' t' [N E]%lookup_delete_Some. apply lookup_delete_Some. pose proof (inv_task _ _ I _ _ E) as T. split; [congruence|done].
  - intros c k' [N E]%lookup_delete_Some. destruct (inv_client _ _ I _ _ E) as (t' & Ht & <-). exists t'. split; [|done].
    apply lookup_delete_Some. split; [congruence|done].
  - intros a k' [H| ->%list_elem_of_singleton]%elem_of_app; [by apply (inv_names _ _ I)|done].
  - intros k' c [N E]%lookup_delete_Some. apply Hin. by apply I.
  - intros k' c c'. rewrite !Hin. apply I.
  - intros k' c d E. apply Hin. by apply (inv_main _ _ I _ _ d).
  - intros c d E. by apply Hm in E.
  - rewrite map_size_delete_Some by done. pose proof (inv_cap _ _ I). lia.
  - rewrite !map_size_delete_Some by done. f_equal. apply I.
  - intros c. pose proof (inv_up _ _ I c) as U. grown. exact U.
  - intros c. pose proof (inv_down _ _ I c) as D. grown. etrans; [|exact D]. apply sublist_app; [done|].
    unfold in_task. cbn. destruct (decide (c = task_client t)) as [->|N].
    + rewrite lookup_delete_eq. apply sublist_nil_l.
    + rewrite lookup_delete_ne by done. destruct (clients r !! c) as [k'|] eqn:E; [|done].
      destruct (inv_client _ _ I _ _ E) as (t' & Ht & <-). rewrite lookup_delete_ne by congruence. done.
Qed.

Lemma inv_front max res r r' : Inv max r -> on_front res r = Some r' -> Inv max r'.
Proof.
  intros I. unfold on_front. destruct (main r) eqn:Hm; try done. intros [= <-].
  assert (Hn : forall c, in_loop c r = []) by (intros; unfold in_loop; by rewrite Hm).
  destruct res as [[from d]|[]]; try done; apply inv_loop; try done; intros c; pose proof (inv_up _ _ I c) as U; rewrite Hn, app_nil_r in U.
  - unfold in_loop. cbn. grown. destruct (decide (c = from)); cbn; [by apply sublist_app|by rewrite !app_nil_r].
  - unfold in_loop. cbn. by rewrite !app_nil_r.
Qed.

Lemma inv_lock max r r' : Inv max r -> on_lock max r = Some r' -> Inv max r'.
Proof.
  intros I. unfold on_lock. destruct (main r) as [|from d| | |] eqn:Hm; try done. intros [= <-].
  pose proof (inv_up _ _ I) as U. unfold in_loop in U. rewrite Hm in U.
  destruct (clients r !! from) as [k|] eqn:E; [|destruct (Nat.leb_spec max (size (clients r)))]; apply inv_loop; try done.
  - intros c. rewrite app_nil_r. apply U.
  - intros k' c d' [= <- <- <-]. by apply I.
  - intros c. unfold in_loop. cbn. grown. etrans; [|apply (U c)]. by apply sublist_inserts_r.
  - intros c. rewrite app_nil_r. apply U.
  - by intros c d' [= <- <-].
Qed.

Lemma inv_forwarded max ok r r' : Inv max r -> on_forwarded ok r = Some r' -> Inv max r'.
Proof.
  intros I. unfold on_forwarded. destruct (main r) as [| | |k from d|] eqn:Hm; try done. intros [= <-].
  pose proof (inv_up _ _ I) as U. unfold in_loop in U. rewrite Hm in U. pose proof (inv_main _ _ I _ _ _ Hm) as Hk.
  destruct ok; apply inv_loop; try done.
  - intros c. unfold in_loop. cbn. grown. specialize (U c). destruct (decide (k ∈ _)) as [Hc|Hc].
    + apply sockets_of_spec in Hc. rewrite (inv_once _ _ I _ _ _ Hc Hk) in *. destruct (decide _); [rewrite ?app_nil_r in *; exact U|done].
    + destruct (decide (c = from)) as [->|]; [|rewrite ?app_nil_r in *; exact U]. by apply sockets_of_spec in Hk.
  - by apply (inv_names _ _ I _ _ Hk).
  - intros c. unfold in_loop. cbn. rewrite !app_nil_r. etrans; [|apply (U c)]. by apply sublist_inserts_r.
Qed.

Lemma inv_upstream max k res r r' : Inv max r -> on_upstream k res r = Some r' -> Inv max r'.
Proof.
  intros I. unfold on_upstream. destruct (tasks r !! k) as [t|] eqn:Hk; [|done]. destruct (task_pc t) eqn:Hp; try done. intros [= <-].
  pose proof (in_task_at _ _ _ _ I Hk) as Ht. rewrite Hp in Ht.
  assert (Ho : k ∈ sockets_of (task_client t) (log r)) by (apply sockets_of_spec, I, I, Hk).
  destruct res as [d|]; eapply inv_path; try done; intros c; rewrite (in_task_goto max) by done; pose proof (inv_down _ _ I c) as D.
  - grown. destruct (decide (c = task_client t)) as [->|N].
    + rewrite Ht, app_nil_r in D. destruct (decide _); [by apply sublist_app|done].
    + destruct (decide (k ∈ _)) as [Hc|]; [|rewrite ?app_nil_r in *; exact D]. exfalso. apply N. apply sockets_of_spec in Hc, Ho. by apply (inv_once _ _ I k).
  - rewrite !app_nil_r. destruct (decide _) as [->|]; [|exact D]. by rewrite Ht in D.
Qed.

Lemma inv_idle max k r r' : Inv max r -> on_idle k r = Some r' -> Inv max r'.
Proof.
  intros I. unfold on_idle. destruct (tasks r !! k) as [t|] eqn:Hk; [|done]. destruct (task_pc t) eqn:Hp; try done.
  destruct (_ <=? _); [|done]. intros [= <-]. pose proof (in_task_at _ _ _ _ I Hk) as Ht. rewrite Hp in Ht.
  eapply inv_path; try done; intros c; rewrite (in_task_goto max) by done; pose proof (inv_down _ _ I c) as D.
  rewrite !app_nil_r. destruct (decide _) as [->|]; [|rewrite ?app_nil_r in *; exact D]. by rewrite Ht in D.
Qed.

Lemma inv_replied max k ok r r' : Inv max r -> on_replied k ok r = Some r' -> Inv max r'.
Proof.
  intros I. unfold on_replied. destruct (tasks r !! k) as [t|] eqn:Hk; [|done]. destruct (task_pc t) as [|d|] eqn:Hp; try done. intros [= <-].
  pose proof (in_task_at _ _ _ _ I Hk) as Ht. rewrite Hp in Ht.
  destruct ok; eapply inv_path; try done; intros c; rewrite (in_task_goto max) by done; pose proof (inv_down _ _ I c) as D.
  - grown. destruct (decide _) as [->|N]; cbn; rewrite ?app_nil_r; [|rewrite ?app_nil_r in *; exact D]. by rewrite Ht in D.
  - rewrite !app_nil_r. destruct (decide _) as [->|]; [|exact D]. rewrite Ht in D. etrans; [|exact D]. apply sublist_app; [done|apply sublist_nil_l].
Qed.

Lemma inv_evict max k r r' : Inv max r -> on_evict k r = Some r' -> Inv max r'.
Proof.
  intros I. unfold on_evict. destruct (tasks r !! k) as [[c pc]|] eqn:Hk; [|by destruct (main r)].
  destruct (main r) eqn:Hm; destruct pc; try done; intros [= <-]; rewrite <- Hm; apply (inv_evicted _ k {| task_client := c; task_pc := Leaving |}); try done; intros; congruence.
Qed.

Lemma inv_step max e r r' : Inv max r -> step max e r = Some r' -> Inv max r'.
Proof.
  intros I. destruct e; cbn [step].
  - by apply inv_front.
  - by apply inv_lock.
  - unfold on_opened. destruct (main r) as [| |from d| |] eqn:Hm; try done. intros [= <-]. destruct ok; [by apply inv_opened|].
    apply inv_loop; try done. intros c. unfold in_loop. cbn. rewrite !app_nil_r. etrans; [|apply I]. by apply sublist_inserts_r.
  - by apply inv_forwarded.
  - by apply inv_upstream.
  - by apply inv_idle.
  - by apply inv_replied.
  - by apply inv_evict.
  - destruct (0 <=? ns); [|done]. intros [= <-]. destruct I. by split.
Qed.
Lemma inv_run max es r r' : Inv max r -> run_with_cap max es r = Some r' -> Inv max r'.
Proof.
  revert r. induction es as [|e es IH]; cbn; intros r I; [by intros [= <-]|].
  destruct (step max e r) eqn:E; [|done]. apply IH. by apply (inv_step _ _ _ _ I E).
Qed.

(** ** Properties *)

(** the LAN clients of a super-peer do not meet.  Whatever the order of events, the datagrams
    passed to the edge on the sockets opened for one client are datagrams that client sent, unchanged,
    in their order and at most once each; what the client is answered is, in the same way, what the edge
    sent to those sockets; and no socket is ever two clients'.  (A datagram of UDP fits the buffer.) *)
Theorem each_client_has_its_own_flow max es r c :
  run_with_cap max es init = Some r ->
  passed_up (sockets_of c (log r)) (log r) `sublist_of` sent_by c (log r) /\
  answered c (log r) `sublist_of` heard_on (sockets_of c (log r)) (log r) /\
  (forall c' k, k ∈ sockets_of c (log r) -> k ∈ sockets_of c' (log r) -> c = c') /\
  (forall d, Zlen d <= U16_MAX -> received d = d).
Proof.
  intros H. pose proof (inv_run _ _ _ _ (inv_init max) H) as I. repeat split.
  - etrans; [|apply (inv_up _ _ I c)]. by apply sublist_inserts_r.
  - etrans; [|apply (inv_down _ _ I c)]. by apply sublist_inserts_r.
  - intros c' k H1%sockets_of_spec H2%sockets_of_spec. by apply (inv_once _ _ I k).
  - intros d Hd. apply take_ge. apply Nat2Z.inj_le. rewrite Z2Nat.id by done. unfold U16_MAX, MAX_DATAGRAM in *. lia.
Qed.

(** the cap holds whatever is sent to the relay: no more clients are mapped, and no more return
    paths run, than the ceiling.  A client with a mapping is always forwarded; one without is refused
    exactly when the map is full, and then nothing is opened for it. *)
Theorem cap_bounds_the_sockets max es r :
  run_with_cap max es init = Some r ->
  (size (clients r) <= max)%nat /\ size (tasks r) = size (clients r) /\
  forall from d r', main r = Locking from d -> on_lock max r = Some r' ->
    main r' = match clients r !! from with
              | Some k => Forwarding k from d
              | None => if decide (size (clients r) = max) then Receiving else Opening from d
              end /\
    clients r' = clients r /\ tasks r' = tasks r /\ sockets r' = sockets r.
Proof.
  intros H. pose proof (inv_run _ _ _ _ (inv_init max) H) as I. pose proof (inv_cap _ _ I) as Hc. split; [done|]. split; [apply I|].
  intros from d r' Hm. unfold on_lock. rewrite Hm. intros [= <-]. destruct (clients r !! from); [done|].
  destruct (Nat.leb_spec max (size (clients r))); destruct (decide _); done || lia.
Qed.

(** The relay serves: the events of one datagram, when every call succeeds. *)
Definition served (mapped : bool) (from : SocketAddr) (d : Datagram) : list Event :=
  [Front (Ok (from, d)); Locked] ++ (if mapped then [] else [UpstreamOpened true]) ++ [Forwarded true].

(** losing a mapping is no failure for the client: whenever the loop waits for a datagram, the next
    one of any client is forwarded -- over the socket of its mapping, or, unless the map is full, over a
    fresh one whose return path then runs for [IDLE_TIMEOUT] -- and the loop waits for the next. *)
Theorem an_evicted_client_returns max es r from d :
  run_with_cap max es init = Some r -> main r = Receiving ->
  let mapped := bool_decide (is_Some (clients r !! from)) in
  mapped = true \/ (size (clients r) < max)%nat ->
  exists r', run_with_cap max (served mapped from d) r = Some r' /\ main r' = Receiving /\
    let k := default (sockets r) (clients r !! from) in
    clients r' !! from = Some k /\ k ∈ sockets_of from (log r') /\
    (exists l, log r' = log r ++ l ++ [ToUpstream k (received d)]) /\
    (mapped = false -> tasks r' !! k = Some {| task_client := from; task_pc := Reading (clock r + IDLE_TIMEOUT) |}).
Proof.
  intros H Hm mapped Hroom. pose proof (inv_run _ _ _ _ (inv_init max) H) as I. subst mapped.
  unfold served. destruct (clients r !! from) as [k|] eqn:E.
  - rewrite bool_decide_true by done. cbn. unfold on_front. rewrite Hm. cbn. unfold on_lock. cbn. rewrite E. cbn.
    eexists. split; [done|]. cbn. split; [done|]. split; [done|]. split; [|split; [|done]].
    + apply sockets_of_spec. pose proof (inv_owner _ _ I _ _ E). set_solver.
    + exists [FromClient from d]. by rewrite <- !app_assoc.
  - rewrite bool_decide_false in * by (intros [? [=]]). destruct Hroom as [|Hroom]; [done|]. cbn. unfold on_front. rewrite Hm. cbn.
    unfold on_lock. cbn. rewrite E. destruct (Nat.leb_spec max (size (clients r))); [lia|]. cbn.
    eexists. split; [done|]. cbn. rewrite !lookup_insert_eq. split; [done|]. split; [done|]. split; [|split; [|done]].
    + apply sockets_of_spec. set_solver.
    + exists [FromClient from d; Opened (sockets r) from]. by rewrite <- !app_assoc.
Qed.

(** The events of the task that reads socket [k]. *)
Definition of_task (k : nat) (e : Event) : bool :=
  match e with Upstream k' _ | Idles k' | Replied k' _ | Evicts k' => Nat.eqb k' k | _ => false end.

Lemma task_kept max e r r' k t :
  Inv max r -> tasks r !! k = Some t -> of_task k e = false -> step max e r = Some r' -> tasks r' !! k = Some t.
Proof.
  intros I Hk Ho Hs. assert (Hne : sockets r <> k).
  { intros <-. pose proof (inv_names _ _ I _ _ (inv_owner _ _ I _ _ (inv_task _ _ I _ _ Hk)) eq_refl). lia. }
  destruct e; cbn in *; unfold on_front, on_lock, on_opened, on_forwarded, on_upstream, on_idle, on_replied, on_evict in *;
    repeat case_match; simplify_eq; cbn; try done; try (by rewrite lookup_insert_ne); try apply Nat.eqb_neq in Ho;
    try (by rewrite lookup_insert_ne); by rewrite lookup_delete_ne.
Qed.
Lemma tasks_kept max es r r' k t :
  Inv max r -> tasks r !! k = Some t -> forallb (fun e => negb (of_task k e)) es = true ->
  run_with_cap max es r = Some r' -> Inv max r' /\ tasks r' !! k = Some t.
Proof.
  revert r. induction es as [|e es IH]; cbn; intros r I Hk Ho; [by intros [= <-]|].
  apply andb_true_iff in Ho as [He Ho]. apply negb_true_iff in He. destruct (step max e r) as [r1|] eqn:E; [|done].
  apply IH; [by apply (inv_step _ _ _ _ I E)|by apply (task_kept max e r)|done].
Qed.

(** the idle clock of a mapping listens to one direction only.  Whatever the client goes on sending,
    and however much of it is forwarded, the deadline stays where the last answer put it: once it has
    passed without the edge having sent anything, the mapping is evicted. *)
Theorem idle_clock_ignores_the_client max es es' r r' k c deadline :
  run_with_cap max es init = Some r -> tasks r !! k = Some {| task_client := c; task_pc := Reading deadline |} ->
  forallb (fun e => negb (of_task k e)) es' = true -> run_with_cap max es' r = Some r' ->
  deadline <= clock r' -> (forall from d, main r' <> Opening from d) ->
  exists r'', run_with_cap max [Idles k; Evicts k] r' = Some r'' /\ clients r'' !! c = None /\ tasks r'' !! k = None.
Proof.
  intros H Hk Ho H' Hd Hm. pose proof (inv_run _ _ _ _ (inv_init max) H) as I.
  destruct (tasks_kept max es' r r' k _ I Hk Ho H') as [I' Hk']. cbn. unfold on_idle. rewrite Hk'. cbn.
  destruct (Z.leb_spec deadline (clock r')); [|lia]. unfold on_evict. cbn. rewrite lookup_insert_eq.
  destruct (main r') eqn:E; try (by destruct (Hm from buf)); eexists; (split; [done|]); cbn; by rewrite !lookup_delete_eq.
Qed.

(** ** On concrete events *)

#[local] Definition a : SocketAddr := {| sock_ip := V4 10 0 0 2; sock_port := 5000; sock_scope := 0 |}.
#[local] Definition b : SocketAddr := {| sock_ip := V4 10 0 0 3; sock_port := 5000; sock_scope := 0 |}.
#[local] Definition hello (who : string) : Datagram := as_bytes who.
#[local] Definition two_clients : list Event :=
  served false a (hello "a1") ++ served false b (hello "b1") ++ [Upstream 1 (Ok (hello "rb")); Upstream 0 (Ok (hello "ra")); Replied 0 true]
  ++ served true a (hello "a2") ++ [Replied 1 true].
#[local] Definition after_two : Relay := default init (run_with_cap 2 two_clients init).
#[local] Definition after_one : Relay := default init (run_with_cap 2 (served false a (hello "a1")) init).

Lemma each_client_has_its_own_flow_witness :
  passed_up (sockets_of a (log after_two)) (log after_two) = [hello "a1"; hello "a2"] /\
  answered b (log after_two) = [hello "rb"] /\
  passed_up (sockets_of a (log after_two)) (log after_two) `sublist_of` sent_by a (log after_two).
Proof.
  split; [vm_compute; reflexivity|]. split; [vm_compute; reflexivity|].
  apply (each_client_has_its_own_flow 2 two_clients). vm_compute. reflexivity.
Defined.

#[local] Definition full : Relay := default init (run_with_cap 1 (served false a (hello "a1") ++ [Front (Ok (b, hello "b1"))]) init).
Lemma cap_bounds_the_sockets_witness :
  main full = Locking b (hello "b1") /\ main (default init (on_lock 1 full)) = Receiving.
Proof.
  split; [vm_compute; reflexivity|].
  destruct (cap_bounds_the_sockets 1 (served false a (hello "a1") ++ [Front (Ok (b, hello "b1"))]) full) as (_ & _ & H); [vm_compute; reflexivity|].
  destruct (H b (hello "b1") (default init (on_lock 1 full))) as [H1 _]; [vm_compute; reflexivity..|].
  rewrite H1. vm_compute. reflexivity.
Defined.

#[local] Definition gone : Relay :=
  default init (run_with_cap 1 (served false a (hello "a1") ++ [Upstream 0 (Err ConnectionRefused); Evicts 0]) init).
Lemma an_evicted_client_returns_witness :
  clients gone !! a = None /\
  exists r', run_with_cap 1 (served false a (hello "a2")) gone = Some r' /\ clients r' !! a = Some 1%nat.
Proof.
  split; [vm_compute; reflexivity|].
  destruct (an_evicted_client_returns 1 (served false a (hello "a1") ++ [Upstream 0 (Err ConnectionRefused); Evicts 0]) gone a (hello "a2"))
    as (r' & H & _ & Hk & _); [vm_compute; reflexivity..|right; vm_compute; lia|].
  exists r'. split; [exact H|]. etrans; [exact Hk|]. vm_compute. reflexivity.
Defined.

(** The client sends every minute, is forwarded each time, and is evicted after two. *)
#[local] Definition minutes : list Event :=
  [Passes (60 * SECOND)] ++ served true a (hello "a2") ++ [Passes (60 * SECOND)] ++ served true a (hello "a3").
#[local] Definition after_minutes : Relay := default init (run_with_cap 2 minutes after_one).
Lemma idle_clock_ignores_the_client_witness :
  passed_up (sockets_of a (log after_minutes)) (log after_minutes) = [hello "a1"; hello "a2"; hello "a3"] /\
  exists r'', run_with_cap 2 [Idles 0; Evicts 0] after_minutes = Some r'' /\ clients r'' !! a = None.
Proof.
  split; [vm_compute; reflexivity|].
  destruct (idle_clock_ignores_the_client 2 (served false a (hello "a1")) minutes after_one after_minutes 0 a IDLE_TIMEOUT)
    as (r'' & H & Hc & _); [vm_compute; reflexivity..|vm_compute; discriminate|intros from d; vm_compute; discriminate|].
  by exists r''.
Defined.
