(* ===== verification/FallbackWorker.v ===== *)
(** * FallbackWorker: one worker of the TLS-TCP fallback ([serve.rs], [ladder.rs])

    The rungs it tries, one attempt on a rung (connect, register with the best role the edge takes,
    wait parked, relay one client), the pacing between attempts and the budget from the
    environment.  What an attempt does is logged, so that the order of its steps can be stated. *)
From S2P Require Import Prelude Text Net Retry ForwardWire EdgeWire DirectConnect.

#[local] Open Scope Z_scope.

(** ** The rungs ([ladder.rs]) *)

Inductive EdgeRung := QuicRung (a : SocketAddr) | TlsTcpRung (a : SocketAddr).
Definition with_port (a : SocketAddr) (port : Z) : SocketAddr :=
  {| sock_ip := sock_ip a; sock_port := port; sock_scope := 0 |}.
Definition edge_ladder (edge : SocketAddr) (fallback_443 : bool) : list EdgeRung :=
  [QuicRung edge; TlsTcpRung edge] ++
    (if fallback_443 && negb (sock_port edge =? 443) then [TlsTcpRung (with_port edge 443)] else []).
Definition tcp_rungs (edge : SocketAddr) (fallback_443 : bool) : list SocketAddr :=
  omap (fun r => match r with TlsTcpRung a => Some a | QuicRung _ => None end) (edge_ladder edge fallback_443).

(** ** The budget *)

Definition RECONNECT_BASE : Z := 500 * MILLI.
Definition RECONNECT_MAX : Z := 30 * SECOND.
Definition RECONNECT_BASE_FLOOR : Z := 100 * MILLI.
Definition RECONNECT_MAX_ATTEMPTS : Z := U32_MAX.

Definition parse_millis (raw : option string) : option Z :=
  let? s := raw in let? n := parse_uint U64_MAX (trim s) in Some (n * MILLI).
Definition parse_reconnect_backoff_bounds (base_raw max_raw : option string) : Z * Z :=
  let base := match parse_millis base_raw with Some d => Z.max d RECONNECT_BASE_FLOOR | None => RECONNECT_BASE end in
  (base, Z.max (default RECONNECT_MAX (parse_millis max_raw)) base).
Definition parse_reconnect_max_attempts (raw : option string) : Z :=
  match (let? s := raw in parse_uint U32_MAX (trim s)) with
  | Some n => if n =? 0 then U32_MAX else n
  | None => RECONNECT_MAX_ATTEMPTS
  end.

(** [FallbackBudget::from_env], of the three variables; each worker starts a [Backoff] with it. *)
Definition from_env (base_ms max_ms max_attempts : option string) : Backoff :=
  let '(base, max) := parse_reconnect_backoff_bounds base_ms max_ms in
  new_backoff base max (parse_reconnect_max_attempts max_attempts).

(** ** One attempt *)

Record AgentConfig := {
  token : list byte; browser_forward : bool; hostname : option string; framed_fallback : bool;
  terminator : bool; origin_is_udp : bool
}.
Definition binds_hostname (c : AgentConfig) : bool := bool_decide (is_Some (hostname c)) && browser_forward c.

Inductive AttemptError :=
| DialFailed (e : string) | RegisterFailed (e : EdgeError) | PingPhase (e : PingError) | ClosedBeforeClient | RelayFailed (e : string).
Inductive TcpServed := Consumed | Plain.
Inductive TcpAttemptEnd := NotRegistered (e : AttemptError) | Registered (parked_for : Z) (consumed : bool) (e : AttemptError).

(** What the relay is: raw with the terminator or without, framed, Noise to a TCP or UDP origin. *)
Inductive Relay := RawRelay (terminator : bool) | FramedRelay | NoiseRelay (udp : bool).
Inductive Act :=
| Dialed | Said (msg : list byte) | Noted (o : RegistrationOutcome) | SetRegistered (hostname_bound : bool)
| Ponged (pongs : list (list byte)) | FiredConsumed | Relayed (how : Relay) (bytes : list byte).

(** The world of an attempt: its connections - what arrives on each -, the first read of a plain
    park, the relay's result, and how long the registration lasted. *)
Record Link := { conn : nat -> result Reply string; first_read : nat; relay : result unit string; lasted : Z }.

Definition Log (A : Type) : Type := list Act * result A TcpAttemptEnd.
#[global] Instance log_ret : MRet Log := fun A a => ([], Ok a).
#[global] Instance log_bind : MBind Log := fun A B f m =>
  match m with
  | (l, Ok a) => (l ++ (f a).1, (f a).2)
  | (l, Err e) => (l, Err e)
  end.
Definition log (a : Act) : Log unit := ([a], Ok tt).
Definition stop {A} (e : TcpAttemptEnd) : Log A := ([], Err e).

Definition await_first_relayed_bytes (n : nat) (r : list byte) : result (list byte * list byte) AttemptError :=
  match r with
  | [] => Err ClosedBeforeClient
  | _ => let k := Nat.max 1 (Nat.min 4096 n) in Ok (take k r, drop k r)
  end.

Section Attempt.
Context (cfg : AgentConfig) (w : Link).

(** The [i]th connection of the attempt, and a registration on it: what is left of its stream. *)
Definition dial (i : nat) : Log Reply :=
  match conn w i with
  | Ok r => _ ← log Dialed; mret r
  | Err e => stop (NotRegistered (DialFailed e))
  end.
Definition say (x : option (list byte) * result (list byte) EdgeError) : Log (result (list byte) EdgeError) :=
  match x with
  | (Some msg, r) => _ ← log (Said msg); mret r
  | (None, r) => mret r
  end.
Definition note_refusal {A} (e : EdgeError) : Log A :=
  _ ← log (Noted (classify_failure (is_registration_refusal e) false)); stop (NotRegistered (RegisterFailed e)).
Definition finish (was_consumed : bool) (how : Relay) (bytes : list byte) : Log TcpServed :=
  _ ← log (Relayed how bytes);
  match relay w with
  | Ok _ => mret (if was_consumed then Consumed else Plain)
  | Err e => stop (Registered (lasted w) was_consumed (RelayFailed e))
  end.
(** The park of a ping-capable role, up to the signal. *)
Definition park_with_pings (rest : list byte) : Log (list byte) :=
  let '(pongs, r) := await_ping_phase_end rest in
  _ ← log (Ponged pongs);
  match r with
  | Ok rest => _ ← log FiredConsumed; mret rest
  | Err e => stop (Registered (lasted w) false (PingPhase e))
  end.

(** The framed role, when it applies: registered, or the connection the next role goes on and the
    number of connections made. *)
Definition try_framed (host : string) (first : Reply) : Log (list byte + Reply * nat) :=
  if framed_fallback cfg && negb (terminator cfg) then
    r ← say (register_tunnel_stream_browser_framed_capable (token cfg) host first);
    match r with
    | Ok rest => mret (inl rest)
    | Err _ => again ← dial 1; mret (inr (again, 2%nat))
    end
  else mret (inr (first, 1%nat)).
(** What is left of the stream, [framed] and [ping_capable]. *)
Definition register_browser (host : string) : Log (list byte * bool * bool) :=
  first ← dial 0;
  x ← try_framed host first;
  match x with
  | inl rest => mret (rest, true, true)
  | inr (stream, i) =>
      r ← say (register_tunnel_stream_browser_ping_capable (token cfg) host stream);
      match r with
      | Ok rest => mret (rest, false, true)
      | Err _ =>
          again ← dial i;
          r ← say (register_tunnel_stream_browser (token cfg) host again);
          match r with
          | Ok rest => mret (rest, false, false)
          | Err e => note_refusal e
          end
      end
  end.

Definition register_noise : Log (list byte * bool) :=
  first ← dial 0;
  r ← say (register_tunnel_stream_ping_capable (token cfg) first);
  match r with
  | Ok rest => mret (rest, true)
  | Err _ =>
      again ← dial 1;
      r ← say (register_tunnel_stream (token cfg) again);
      match r with
      | Ok rest => mret (rest, false)
      | Err e => note_refusal e
      end
  end.

Definition tcp_connect_register_serve : Log TcpServed :=
  match (if browser_forward cfg then hostname cfg else None) with
  | Some host =>
      '(rest, framed, ping_capable) ← register_browser host;
      _ ← log (Noted Succeeded);
      _ ← log (SetRegistered true);
      rest ← (if framed || ping_capable then park_with_pings rest else mret rest);
      finish (framed || ping_capable) (if framed then FramedRelay else RawRelay (terminator cfg)) rest
  | None =>
      '(rest, ping_capable) ← register_noise;
      _ ← log (Noted Succeeded);
      _ ← log (SetRegistered false);
      if (ping_capable : bool) then
        (rest ← park_with_pings rest; finish true (NoiseRelay (origin_is_udp cfg)) rest)
      else
        match await_first_relayed_bytes (first_read w) rest with
        | Ok (first, stream) => finish false (NoiseRelay (origin_is_udp cfg)) (first ++ stream)
        | Err e => stop (Registered (lasted w) false e)
        end
  end.
End Attempt.

(** ** The worker *)

Definition SHORT_REGISTRATION : Z := 2 * SECOND.
Definition SHORT_REGISTRATION_STRIKES : Z := 3.
Definition SHORT_REGISTRATION_PAUSE : Z := 500 * MILLI.

Section Worker.
Context {F : Type} `{JitterLaws F}.

Record Worker := { backoff : Backoff; short_lived : Z }.

(** What the rungs of a turn came to. *)
Inductive Walk := WorkerEnds | Served | ParkEnded (parked_for : Z) | AllFailed.
Fixpoint walk_rungs (ends : list (Log TcpServed)) : list Act * Walk :=
  match ends with
  | [] => ([], AllFailed)
  | (acts, r) :: ends =>
      match r with
      | Ok Consumed | Err (Registered _ true _) => (acts, WorkerEnds)
      | Ok Plain => (acts, Served)
      | Err (Registered parked_for false _) => (acts, ParkEnded parked_for)
      | Err (NotRegistered _) => let '(more, x) := walk_rungs ends in (acts ++ more, x)
      end
  end.

(** How a turn goes on: the worker is done, or gives up, or sleeps before the next turn. *)
Inductive Turn := Done | GaveUp | Next (sleep : Z) (w : Worker).

Definition back_off (rand01 : F) (b : Backoff) (short : Z) : Turn :=
  match next_delay_jittered rand01 b with
  | (Some d, b) => Next d {| backoff := b; short_lived := short |}
  | (None, _) => GaveUp
  end.
Definition worker_turn (rand01 : F) (x : Walk) (wk : Worker) : Turn :=
  let held := {| backoff := reset (backoff wk); short_lived := 0 |} in
  match x with
  | WorkerEnds => Done
  | Served => Next 0 held
  | ParkEnded parked_for =>
      if SHORT_REGISTRATION <=? parked_for then Next 0 held
      else
        let short := wrap 32 (short_lived wk + 1) in
        if short <? SHORT_REGISTRATION_STRIKES then Next SHORT_REGISTRATION_PAUSE {| backoff := backoff wk; short_lived := short |}
        else back_off rand01 (backoff wk) short
  | AllFailed => back_off rand01 (backoff wk) (short_lived wk)
  end.

(** A worker over the worlds of its turns: the rungs' links and the random sample.  It ends [Done],
    [GaveUp], or is still at it; [elapsed] is the time the registrations and the sleeps took. *)
Record TurnWorld := { edge : SocketAddr; link : SocketAddr -> Link; rand : F }.
Context (cfg : AgentConfig) (fallback_443 : bool).

Definition turn_walk (t : TurnWorld) : list Act * Walk :=
  walk_rungs ((fun a => tcp_connect_register_serve cfg (link t a)) <$> tcp_rungs (edge t) fallback_443).
Definition park_time (x : Walk) : Z := match x with ParkEnded d => d | _ => 0 end.

Inductive WorkerEnd := EndedOk | EndedGaveUp | Running (w : Worker).
Fixpoint run_worker (ts : list TurnWorld) (wk : Worker) : list Act * WorkerEnd * Z * nat :=
  match ts with
  | [] => ([], Running wk, 0, 0%nat)
  | t :: ts =>
      let '(acts, x) := turn_walk t in
      match worker_turn (rand t) x wk with
      | Done => (acts, EndedOk, 0, 1%nat)
      | GaveUp => (acts, EndedGaveUp, park_time x, 1%nat)
      | Next sleep wk' =>
          let '(more, end_, elapsed, n) := run_worker ts wk' in (acts ++ more, end_, park_time x + sleep + elapsed, S n)
      end
  end.
End Worker.

(** ** What an attempt does *)

(** Before the edge accepted there are dials, messages and what a refusal says about the token;
    [amb]: what an ambiguous refusal takes. *)
Definition before_ok (amb : Prop) (a : Act) : Prop :=
  match a with Dialed | Said _ => True | Noted o => o = Transient \/ o = RefusedAmbiguous /\ amb | _ => False end.
Definition not_registered (e : TcpAttemptEnd) : Prop := exists x, e = NotRegistered x.

(** A registering step: what it logs, and what it ends with. *)
Definition registers {A} (amb : Prop) (Q : A -> Prop) (m : Log A) : Prop :=
  Forall (before_ok amb) m.1 /\ match m.2 with Ok a => Q a | Err e => not_registered e end.

Lemma registers_ret {A} amb (Q : A -> Prop) a : Q a -> registers amb Q (mret a).
Proof. by split; [constructor|]. Qed.
Lemma registers_bind {A B} amb (Q : A -> Prop) (Q' : B -> Prop) m (f : A -> Log B) :
  registers amb Q m -> (forall a, Q a -> registers amb Q' (f a)) -> registers amb Q' (m ≫= f).
Proof.
  destruct m as [l [a|e]]; intros [H1 H2] Hf; [|done]. destruct (Hf a H2) as [G1 G2].
  split; [by apply Forall_app|exact G2].
Qed.

Lemma registers_weaken {A} (amb : Prop) (Q : A -> Prop) m : registers False Q m -> registers amb Q m.
Proof.
  intros [H1 H2]. split; [|done]. eapply Forall_impl; [exact H1|]. intros []; simpl; naive_solver.
Qed.

Section AttemptLemmas.
Context (cfg : AgentConfig) (w : Link).

(** The stream of a connection whose registration was accepted. *)
Definition accepted (rest : list byte) : Prop := exists i, conn w i = Ok (Arrived (ch "OK" ++ rest)).

Lemma dial_registers amb i : registers amb (fun r => conn w i = Ok r) (dial w i).
Proof.
  unfold dial. destruct (conn w i) as [r|e]; split; simpl; [by repeat constructor|done|constructor|by eexists].
Qed.
Lemma say_registers amb x : registers amb (fun r => x = (x.1, r)) (say x).
Proof. destruct x as [[msg|] r]; split; simpl; by repeat constructor. Qed.
Lemma note_refusal_registers {A} (amb : Prop) e (Q : A -> Prop) :
  (is_registration_refusal e = true -> amb) -> registers amb Q (note_refusal e).
Proof.
  intros He. split; [|by eexists]. constructor; [|constructor]. simpl. unfold classify_failure.
  destruct (is_registration_refusal e); simpl; auto.
Qed.

Lemma try_framed_registers host first :
  conn w 0 = Ok first ->
  registers False (fun x => match x with
    | inl rest => accepted rest /\ terminator cfg = false
    | inr (stream, _) => exists i, conn w i = Ok stream
    end) (try_framed cfg w host first).
Proof.
  intros E0. unfold try_framed. destruct (framed_fallback cfg && negb (terminator cfg)) eqn:Ef; [|apply registers_ret; by exists 0%nat].
  apply andb_true_iff in Ef as [_ Et%negb_true_iff].
  eapply registers_bind; [apply say_registers|]. intros [rest|e] Er.
  - apply browser_ack_Ok in Er as ->. apply registers_ret. split; [by exists 0%nat|done].
  - eapply registers_bind; [apply dial_registers|]. intros again E1. apply registers_ret. by exists 1%nat.
Qed.

Lemma register_browser_registers host :
  registers False (fun '(rest, framed, _) => accepted rest /\ (framed = true -> terminator cfg = false)) (register_browser cfg w host).
Proof.
  unfold register_browser. eapply registers_bind; [apply dial_registers|]. intros first E0.
  eapply registers_bind; [by apply try_framed_registers|]. intros [rest|[stream i]].
  { intros [Ha Ht]. by apply registers_ret. }
  intros [j Ej]. eapply registers_bind; [apply say_registers|]. intros [rest|e] Er.
  { apply browser_ack_Ok in Er as ->. apply registers_ret. split; [by exists j|done]. }
  eapply registers_bind; [apply dial_registers|]. intros again Ei.
  eapply registers_bind; [apply say_registers|]. intros [rest|e'] Er'.
  - apply browser_ack_Ok in Er' as ->. apply registers_ret. split; [by exists i|done].
  - apply note_refusal_registers. by rewrite (browser_ack_untyped _ _ _ _ _ _ Er').
Qed.

(** The edge answered NO to the plain registration on the second connection. *)
Definition refused_plainly : Prop :=
  (exists first msg e, conn w 0 = Ok first /\ register_tunnel_stream_ping_capable (token cfg) first = (msg, Err e)) /\
  exists rest, conn w 1 = Ok (Arrived (ch "NO" ++ rest)).

Lemma register_noise_registers :
  registers refused_plainly (fun '(rest, _) => accepted rest) (register_noise cfg w).
Proof.
  unfold register_noise. eapply registers_bind; [apply dial_registers|]. intros first E0.
  eapply registers_bind; [apply say_registers|]. intros [rest|e] Er.
  { apply tunnel_ack_Ok in Er as [_ ->]. apply registers_ret. by exists 0%nat. }
  eapply registers_bind; [apply dial_registers|]. intros again E1.
  eapply registers_bind; [apply say_registers|]. intros [rest|e'] Er'.
  - apply tunnel_ack_Ok in Er' as [_ ->]. apply registers_ret. by exists 1%nat.
  - apply note_refusal_registers. destruct e'; try done. intros _. apply tunnel_ack_refused in Er' as [_ [rest ->]].
    split; [eexists _, _, _; split; [exact E0|exact Er]|by exists rest].
Qed.

Definition relay_ok (how : Relay) : Prop :=
  match how with
  | FramedRelay => terminator cfg = false
  | RawRelay t => t = terminator cfg
  | NoiseRelay udp => udp = origin_is_udp cfg
  end.

(** What follows an accepted registration whose stream goes on with [rest]. *)
Inductive parked_as (rest : list byte) : list Act -> result TcpServed TcpAttemptEnd -> Prop :=
| park_lost pongs e : parked_as rest [Ponged pongs] (Err (Registered (lasted w) false e))
| plain_lost e : parked_as rest [] (Err (Registered (lasted w) false e))
| client_relayed pongs how bytes r : await_ping_phase_end rest = (pongs, Ok bytes) -> relay_ok how ->
    r = Ok Consumed \/ (exists e, r = Err (Registered (lasted w) true e)) ->
    parked_as rest [Ponged pongs; FiredConsumed; Relayed how bytes] r
| plain_relayed how r : relay_ok how -> r = Ok Plain \/ (exists e, r = Err (Registered (lasted w) false e)) ->
    parked_as rest [Relayed how rest] r.

Lemma finish_cases was_consumed how bytes :
  exists r, finish w was_consumed how bytes = ([Relayed how bytes], r) /\
    (r = Ok (if was_consumed then Consumed else Plain) \/ exists e, r = Err (Registered (lasted w) was_consumed e)).
Proof. unfold finish. destruct (relay w); eexists; (split; [reflexivity|]); eauto. Qed.

Lemma ping_park rest how : relay_ok how ->
  let m := park_with_pings w rest ≫= finish w true how in parked_as rest m.1 m.2.
Proof.
  intros Hh. unfold park_with_pings. destruct (await_ping_phase_end rest) as [pongs [bytes|e]] eqn:Ep; [|by constructor].
  destruct (finish_cases true how bytes) as (r & Er & Hr). cbn -[finish]. rewrite Er. by eapply client_relayed.
Qed.

Definition refusal_counts : Prop := (if browser_forward cfg then hostname cfg else None) = None /\ refused_plainly.

(** How the whole attempt is cut. *)
Definition attempt_cut (acts : list Act) (r : result TcpServed TcpAttemptEnd) : Prop :=
  exists pre post, acts = pre ++ post /\ Forall (before_ok refusal_counts) pre /\
    match r with
    | Err (NotRegistered _) => post = []
    | _ => exists rest b park, accepted rest /\ post = Noted Succeeded :: SetRegistered b :: park /\ parked_as rest park r
    end.

Lemma attempt_continue {A} (m : Log A) (k : A -> Log TcpServed) Q :
  registers refusal_counts Q m ->
  (forall a, Q a -> exists rest b park, accepted rest /\ (k a).1 = Noted Succeeded :: SetRegistered b :: park /\ parked_as rest park (k a).2) ->
  attempt_cut (m ≫= k).1 (m ≫= k).2.
Proof.
  destruct m as [l [a|e]]; intros [Hl Hq] Hk; simpl in *.
  - exists l, (k a).1. split_and!; [done..|]. destruct (Hk a Hq) as (rest & b & park & Ha & El & Hp).
    destruct (k a) as [l' [x|e]]; simpl in *; [eauto 10|]. destruct e; [by inversion Hp; subst; naive_solver|eauto 10].
  - exists l, []. rewrite app_nil_r. split_and!; [done..|]. by destruct Hq as [x ->].
Qed.

Lemma attempt_shape : attempt_cut (tcp_connect_register_serve cfg w).1 (tcp_connect_register_serve cfg w).2.
Proof.
  unfold tcp_connect_register_serve.
  destruct (if browser_forward cfg then hostname cfg else None) as [host|] eqn:Eh.
  - eapply attempt_continue; [apply registers_weaken, register_browser_registers|].
    intros [[rest framed] ping_capable] [Ha Ht].
    assert (relay_ok (if framed then FramedRelay else RawRelay (terminator cfg))) as Hh by (destruct framed; simpl; auto).
    exists rest, true. destruct (framed || ping_capable).
    + eexists. split_and!; [done|reflexivity|]. by apply ping_park.
    + eexists. split_and!; [done|reflexivity|]. cbn -[finish].
      destruct (finish_cases false (if framed then FramedRelay else RawRelay (terminator cfg)) rest) as (r & -> & Hr).
      by apply plain_relayed.
  - assert (refusal_counts <-> refused_plainly) as Hrc by (unfold refusal_counts; rewrite Eh; naive_solver).
    eapply attempt_continue; [destruct register_noise_registers as [H1 H2]; split; [|exact H2]|].
    { eapply Forall_impl; [exact H1|]. intros []; simpl; naive_solver. }
    intros [rest ping_capable] Ha. exists rest, false. destruct ping_capable.
    + eexists. split_and!; [done|reflexivity|]. by apply ping_park.
    + unfold await_first_relayed_bytes. destruct rest as [|b0 rest].
      { eexists. split_and!; [done|reflexivity|]. by constructor. }
      eexists. split_and!; [done|reflexivity|]. cbn -[finish take drop]. rewrite take_drop.
      destruct (finish_cases false (NoiseRelay (origin_is_udp cfg)) (b0 :: rest)) as (r & -> & Hr). by apply plain_relayed.
Qed.
End AttemptLemmas.

(** The relayed client sees an untouched stream.  Whatever the edge sends and whichever role it
    takes: what an attempt relays is exactly what followed the edge's OK - and, on a ping-capable
    registration, the pings and the STOP byte - on one of its connections, not a byte more or
    less; the terminator applies to a raw relay, and a framed relay happens only without one. *)
Theorem relay_is_byte_exact cfg w how bytes :
  Relayed how bytes ∈ (tcp_connect_register_serve cfg w).1 ->
  exists i park, conn w i = Ok (Arrived (ch "OK" ++ park ++ bytes)) /\
    (park = [] \/ exists counters, Forall (fun c => length c = 8%nat) counters /\
       park = concat (map ping counters) ++ [to_u8 TCP_PING_STOP]) /\
    match how with
    | FramedRelay => terminator cfg = false
    | RawRelay t => t = terminator cfg
    | NoiseRelay udp => udp = origin_is_udp cfg
    end.
Proof.
  destruct (attempt_shape cfg w) as (pre & post & -> & Hpre & Hr). intros [Hin|Hin]%elem_of_app.
  { by apply (proj1 (Forall_forall _ _) Hpre) in Hin. }
  assert (exists rest b park, accepted w rest /\ post = Noted Succeeded :: SetRegistered b :: park /\
    parked_as cfg w rest park (tcp_connect_register_serve cfg w).2) as (rest & b & park & [i Hi] & -> & Hp).
  { destruct (tcp_connect_register_serve cfg w).2 as [|[]]; [done| |done]. subst. by apply not_elem_of_nil in Hin. }
  destruct Hp as [pongs e|e|pongs how' bytes' r Ep Hh _|how' r Hh _]; set_unfold; destruct_or?; simplify_eq.
  - apply ping_phase_exact in Ep as (counters & Hc & -> & _). exists i, (concat (map ping counters) ++ [to_u8 TCP_PING_STOP]).
    split_and!; [by rewrite <-app_assoc|by right; exists counters|done].
  - exists i, []. auto.
Qed.

(** Which refusals over the fallback count against the token.  Never as definitive; as ambiguous
    exactly when the agent serves no browser hostname, its ping-capable registration failed, and
    the edge answered NO to the plain one on the second connection.  So an agent in browser mode
    never learns over the fallback that its token was revoked. *)
Theorem fallback_refusals_counted cfg w :
  let acts := (tcp_connect_register_serve cfg w).1 in
  Noted RefusedDefinitive ∉ acts /\
  (Noted RefusedAmbiguous ∈ acts <->
   (browser_forward cfg = false \/ hostname cfg = None) /\
   (exists first msg e, conn w 0 = Ok first /\ register_tunnel_stream_ping_capable (token cfg) first = (msg, Err e)) /\
   exists rest, conn w 1 = Ok (Arrived (ch "NO" ++ rest))).
Proof.
  intros acts.
  assert (forall o, o <> Succeeded -> Noted o ∈ acts -> o = Transient \/ o = RefusedAmbiguous /\ refusal_counts cfg w) as Hno.
  { unfold acts. destruct (attempt_shape cfg w) as (pre & post & -> & Hpre & Hr). intros o Ho [Hin|Hin]%elem_of_app.
    { by apply (proj1 (Forall_forall _ _) Hpre) in Hin. }
    exfalso. assert (exists rest b park, post = Noted Succeeded :: SetRegistered b :: park /\
      parked_as cfg w rest park (tcp_connect_register_serve cfg w).2) as (rest & b & park & -> & Hp).
    { destruct (tcp_connect_register_serve cfg w).2 as [|[]]; [naive_solver| |naive_solver]. subst. by apply not_elem_of_nil in Hin. }
    destruct Hp; set_unfold; naive_solver. }
  split; [intros Hin; destruct (Hno RefusedDefinitive) as [|[]]; done|]. split.
  - intros Hin. destruct (Hno RefusedAmbiguous) as [|[_ [Hh Hr]]]; [done..|]. split; [|exact Hr].
    destruct (browser_forward cfg); auto.
  - intros (Hh & (first & msg & e & E0 & Ek) & rest & E1). unfold acts, tcp_connect_register_serve.
    assert ((if browser_forward cfg then hostname cfg else None) = None) as -> by (destruct (browser_forward cfg); naive_solver).
    unfold register_noise, dial. rewrite E0. cbn -[register_tunnel_stream register_tunnel_stream_ping_capable]. rewrite Ek.
    assert (register_tunnel_stream (token cfg) (Arrived (ch "NO" ++ rest)) = (Some (tunnel_message "A" (token cfg)), Err RegistrationRefused)) as Ea
      by (apply tunnel_ack_refused; eauto).
    remember (ch "NO" ++ rest) as ack eqn:Eack. clear Eack.
    destruct msg; cbn -[register_tunnel_stream register_tunnel_stream_ping_capable]; rewrite E1; cbn -[register_tunnel_stream register_tunnel_stream_ping_capable]; rewrite Ea; cbn; set_solver.
Qed.

(** ** What a worker does *)

(** At most one signal, and nothing but the relay after it. *)
Definition fires_last (l : list Act) : Prop :=
  forall pre post, l = pre ++ FiredConsumed :: post -> FiredConsumed ∉ pre /\ exists how bytes, post = [Relayed how bytes].

Lemma fires_last_none l : FiredConsumed ∉ l -> fires_last l.
Proof. intros Hn pre post ->. exfalso. apply Hn. set_solver. Qed.
Lemma fires_last_app l1 l2 : FiredConsumed ∉ l1 -> fires_last l2 -> fires_last (l1 ++ l2).
Proof.
  intros Hn Hl pre post E. apply app_eq_inv in E as [(q & -> & E)|(q & -> & E)].
  - destruct q as [|a q]; simpl in E.
    + destruct (Hl [] post (eq_sym E)) as [_ Hp]. rewrite app_nil_r in *. by split.
    + simplify_eq. exfalso. apply Hn. set_solver.
  - destruct (Hl q post E) as [H1 H2]. split; [|done]. rewrite elem_of_app. by intros [?|?].
Qed.

(** The end of an attempt that relayed a signalled client. *)
Definition signalled (r : result TcpServed TcpAttemptEnd) : bool :=
  match r with Ok Consumed | Err (Registered _ true _) => true | _ => false end.

Lemma attempt_signal cfg w :
  let '(acts, r) := tcp_connect_register_serve cfg w in
  fires_last acts /\ (FiredConsumed ∈ acts <-> signalled r = true).
Proof.
  destruct (attempt_shape cfg w) as (pre & post & Ea & Hpre & Hr).
  destruct (tcp_connect_register_serve cfg w) as [acts r]. simpl in *. subst acts.
  assert (FiredConsumed ∉ pre) as Hn by (intros Hin; by apply (proj1 (Forall_forall _ _) Hpre) in Hin).
  enough (fires_last post /\ (FiredConsumed ∈ post <-> signalled r = true)) as [H1 H2].
  { split; [by apply fires_last_app|]. rewrite <-H2. set_solver. }
  assert (post = [] /\ signalled r = false \/ exists rest b park, post = Noted Succeeded :: SetRegistered b :: park /\
    parked_as cfg w rest park r) as [[-> ->]|(rest & b & park & -> & Hp)] by (destruct r as [|[]]; naive_solver).
  { split; [apply fires_last_none|]; set_solver. }
  change (Noted Succeeded :: SetRegistered b :: park) with ([Noted Succeeded; SetRegistered b] ++ park).
  enough (fires_last park /\ (FiredConsumed ∈ park <-> signalled r = true)) as [H1 H2].
  { split; [apply fires_last_app; set_solver|set_solver]. }
  destruct Hp as [pongs e|e|pongs how bytes r _ _ Hr'|how r _ Hr'].
  - split; [apply fires_last_none|]; set_solver.
  - split; [apply fires_last_none|]; set_solver.
  - split.
    + apply (fires_last_app [Ponged pongs]); [set_solver|]. intros [|a pre'] post' E; simplify_eq/=; [split; [set_solver|eauto]|].
      destruct pre' as [|a' [|? ?]]; simplify_eq/=.
    + destruct Hr' as [->|[e ->]]; set_solver.
  - split; [apply fires_last_none; set_solver|]. destruct Hr' as [->|[e ->]]; simpl; split; set_solver.
Qed.

Lemma walk_signal cfg (links : list Link) acts x :
  walk_rungs (tcp_connect_register_serve cfg <$> links) = (acts, x) ->
  fires_last acts /\ (FiredConsumed ∈ acts <-> x = WorkerEnds).
Proof.
  revert acts x. induction links as [|l links IH]; intros acts x E; simpl in E.
  { simplify_eq. split; [apply fires_last_none|]; set_solver. }
  pose proof (attempt_signal cfg l) as Hs. destruct (tcp_connect_register_serve cfg l) as [a r]. destruct Hs as [H1 H2].
  destruct r as [[]|[e|d [] e]]; simplify_eq/=; try (split; [done|]; rewrite H2; done).
  destruct (walk_rungs _) as [more y] eqn:Ew. simplify_eq. destruct (IH _ _ eq_refl) as [G1 G2].
  assert (FiredConsumed ∉ a) as Hn by (by rewrite H2).
  split; [by apply fires_last_app|]. rewrite <-G2. set_solver.
Qed.

Lemma walk_parked cfg links acts d :
  walk_rungs (tcp_connect_register_serve cfg <$> links) = (acts, ParkEnded d) -> exists l, l ∈ links /\ d = lasted l.
Proof.
  revert acts. induction links as [|l links IH]; intros acts E; simpl in E; [done|].
  destruct (attempt_shape cfg l) as (pre & post & _ & _ & Hr).
  destruct (tcp_connect_register_serve cfg l) as [a r]. simpl in Hr. destruct r as [[]|[e|d' [] e]]; simplify_eq/=.
  - destruct (walk_rungs _) as [more y] eqn:Ew. simplify_eq. destruct (IH _ eq_refl) as (l' & Hl' & ->). exists l'. set_solver.
  - exists l. split; [left|]. destruct Hr as (rest & b & park & _ & _ & Hp).
    inversion Hp; subst; try done; destruct_or?; simplify_eq; naive_solver.
Qed.

Section WorkerTheorems.
Context {F : Type} `{JitterLaws F} (cfg : AgentConfig) (fallback_443 : bool).

(** A worker whose registration was consumed is done.  In any run the signal to the pool is fired
    at most once; nothing follows it but the relay of that one client - no dial, no further
    registration - and the worker then ends well.  Without a signal it never ends well: it runs on,
    or gave up. *)
Theorem consumed_worker_is_done (ts : list (TurnWorld (F := F))) wk acts end_ elapsed n :
  run_worker cfg fallback_443 ts wk = (acts, end_, elapsed, n) ->
  (FiredConsumed ∈ acts <-> end_ = EndedOk) /\
  (forall pre post, acts = pre ++ FiredConsumed :: post -> FiredConsumed ∉ pre /\ exists how bytes, post = [Relayed how bytes]).
Proof.
  revert wk acts end_ elapsed n. induction ts as [|t ts IH]; intros wk acts end_ elapsed n E; simpl in E.
  { simplify_eq. split; [set_solver|]. apply fires_last_none. set_solver. }
  destruct (turn_walk cfg fallback_443 t) as [a x] eqn:Ew.
  assert (fires_last a /\ (FiredConsumed ∈ a <-> x = WorkerEnds)) as [H1 H2].
  { unfold turn_walk in Ew. rewrite (list_fmap_compose (link t) (tcp_connect_register_serve cfg)) in Ew. by eapply walk_signal. }
  assert (forall sleep w', worker_turn (rand t) x wk = Next sleep w' \/ worker_turn (rand t) x wk = GaveUp -> FiredConsumed ∉ a) as Hn.
  { intros sleep w' Hw. rewrite H2. intros ->. by destruct Hw. }
  destruct (worker_turn (rand t) x wk) as [| |sleep wk'] eqn:Et.
  - simplify_eq. split; [|exact H1]. rewrite H2. split; [done|]. intros _. destruct x; simpl in Et; try done;
      unfold back_off in Et; repeat case_match; done.
  - simplify_eq. specialize (Hn 0 wk (or_intror eq_refl)). split; [split; [done|done]|by apply fires_last_none].
  - specialize (Hn sleep wk' (or_introl eq_refl)). destruct (run_worker cfg fallback_443 ts wk') as [[[more end_'] el] k] eqn:Er.
    simplify_eq. destruct (IH _ _ _ _ _ Er) as [G1 G2]. split; [rewrite <-G1; set_solver|]. by apply fires_last_app.
Qed.

(** The budget of a worker: the base at its floor or above, the cap at the base or above. *)
Definition paced (b : Backoff) : Prop :=
  RECONNECT_BASE_FLOOR <= base b /\ base b <= max b /\ max b <= 2 ^ 50 /\ 0 <= attempt b.

Lemma from_env_paced b m n : max (from_env b m n) <= 2 ^ 50 -> paced (from_env b m n).
Proof.
  unfold from_env, parse_reconnect_backoff_bounds, paced. intros Hm. split_and!; [|apply Z.le_max_r|exact Hm|done].
  simpl. destruct (parse_millis b); [apply Z.le_max_r|done].
Qed.

Lemma jittered_paced (r : F) b :
  paced b ->
  match next_delay_jittered r b with
  | (Some d, b') => 50 * MILLI <= d <= max b /\ paced b' /\ max b' = max b /\ attempt b' = attempt b + 1 /\
      max_attempts b' = max_attempts b
  | (None, _) => max_attempts b <= attempt b
  end.
Proof.
  intros (Hb & Hbm & Hm & Ha). assert (0 <= RECONNECT_BASE_FLOOR) as Hfl by done.
  unfold next_delay_jittered. rewrite next_delay_spec; [|lia|unfold DURATION_MAX, SECOND; lia|done].
  destruct (Z.leb_spec (max_attempts b) (attempt b)) as [Hg|Hg]; [done|].
  assert (1 <= 2 ^ Z.min (attempt b) 31) as Hp by (apply (Z.pow_le_mono_r 2 0); lia).
  set (d := Z.min (base b * 2 ^ Z.min (attempt b) 31) (max b)).
  assert (RECONNECT_BASE_FLOOR <= d <= max b) as Hd by (unfold d; nia). simpl. split; [|unfold paced; split_and!; simpl; lia].
  destruct (equal_jitter_range d r ltac:(lia)) as [H1 H2]. split; [|lia].
  etransitivity; [|exact H1]. apply Z.div_le_lower_bound; unfold RECONNECT_BASE_FLOOR in *; lia.
Qed.

Lemma back_off_cases (r : F) b short :
  paced b ->
  match back_off r b short with
  | Done => False
  | GaveUp => max_attempts b <= attempt b
  | Next d w => 50 * MILLI <= d /\ paced (backoff w) /\ attempt (backoff w) <= attempt b + 1 /\
      max_attempts (backoff w) = max_attempts b
  end.
Proof.
  intros Hp. pose proof (jittered_paced r b Hp) as Hj. unfold back_off.
  destruct (next_delay_jittered r b) as [[d|] b']; simpl; [|done]. destruct Hj as ([Hd _] & Hp' & _ & Ha & Hm). split_and!; [done|done|lia|done].
Qed.

Lemma turn_cases (r : F) x wk :
  paced (backoff wk) -> x <> Served -> 0 <= park_time x ->
  match worker_turn r x wk with
  | Done => True
  | GaveUp => max_attempts (backoff wk) <= attempt (backoff wk)
  | Next d w => 50 * MILLI <= park_time x + d /\ paced (backoff w) /\
      attempt (backoff w) <= attempt (backoff wk) + 1 /\ max_attempts (backoff w) = max_attempts (backoff wk)
  end.
Proof.
  intros Hp Hx Ht. pose proof Hp as (Hb & Hbm & Hm & Ha). destruct x as [| |d|]; simpl in *; [done..| |].
  - destruct (Z.leb_spec SHORT_REGISTRATION d) as [Hd|_].
    { simpl. split; [unfold SHORT_REGISTRATION, RECONNECT_BASE_FLOOR, MILLI, SECOND in *; lia|]. unfold paced. split_and!; simpl; lia. }
    destruct (_ <? _).
    { simpl. split; [unfold SHORT_REGISTRATION_PAUSE, RECONNECT_BASE_FLOOR, MILLI in *; lia|]. unfold paced. split_and!; simpl; lia. }
    pose proof (back_off_cases r (backoff wk) (wrap 32 (short_lived wk + 1)) Hp) as Hbo. destruct (back_off _ _ _); naive_solver lia.
  - pose proof (back_off_cases r (backoff wk) (short_lived wk) Hp) as Hbo. destruct (back_off _ _ _); naive_solver lia.
Qed.

Lemma run_worker_paced (ts : list (TurnWorld (F := F))) : forall wk acts end_ elapsed n, paced (backoff wk) ->
  Forall (fun t => forall a, 0 <= lasted (link t a)) ts -> Forall (fun t => (turn_walk cfg fallback_443 t).2 <> Served) ts ->
  run_worker cfg fallback_443 ts wk = (acts, end_, elapsed, n) ->
  (Z.of_nat n - 1) * (50 * MILLI) <= elapsed /\
  (end_ = EndedGaveUp -> max_attempts (backoff wk) - attempt (backoff wk) < Z.of_nat n).
Proof.
  induction ts as [|t ts IH]; intros wk acts end_ elapsed n Hp Ht Hs E; simpl in E.
  { simplify_eq. split; [unfold MILLI; lia|done]. }
  apply Forall_cons in Ht as [Ht Hts]. apply Forall_cons in Hs as [Hs Hss].
  destruct (turn_walk cfg fallback_443 t) as [a x] eqn:Ew. simpl in Hs.
  assert (0 <= park_time x) as Hx.
  { destruct x as [| |d|]; simpl; try lia. unfold turn_walk in Ew. rewrite (list_fmap_compose (link t) (tcp_connect_register_serve cfg)) in Ew.
    apply walk_parked in Ew as (l & (a0 & -> & _)%list_elem_of_fmap & ->). apply Ht. }
  pose proof (turn_cases (rand t) x wk Hp Hs Hx) as Hc. destruct (worker_turn (rand t) x wk) as [| |sleep wk'].
  - simplify_eq. split; [unfold MILLI; lia|done].
  - simplify_eq. split; [unfold MILLI; lia|intros; lia].
  - destruct (run_worker cfg fallback_443 ts wk') as [[[more end_'] el] k] eqn:Er. simplify_eq.
    destruct Hc as (Hd & Hp' & Ha & Hma). destruct (IH _ _ _ _ _ Hp' Hts Hss Er) as [G1 G2].
    split; [lia|]. intros He. specialize (G2 He). lia.
Qed.

(** A worker does not hammer the edge.  Take any values of the environment whose cap is at most
    2^50 nanoseconds, and any run in which no plain tunnel was served: however the attempts fail,
    [n] turns of the worker take at least [(n - 1) * 50] milliseconds, and it gives up only after
    more turns than the attempts configured - with none configured, never before 2^32 turns. *)
Theorem worker_is_patient base_ms max_ms attempts (ts : list (TurnWorld (F := F))) acts end_ elapsed n :
  let b := from_env base_ms max_ms attempts in
  max b <= 2 ^ 50 ->
  Forall (fun t => forall a, 0 <= lasted (link t a)) ts ->
  Forall (fun t => (turn_walk cfg fallback_443 t).2 <> Served) ts ->
  run_worker cfg fallback_443 ts {| backoff := b; short_lived := 0 |} = (acts, end_, elapsed, n) ->
  (Z.of_nat n - 1) * (50 * MILLI) <= elapsed /\ (end_ = EndedGaveUp -> parse_reconnect_max_attempts attempts < Z.of_nat n).
Proof.
  intros b Hm Ht Hs E.
  destruct (run_worker_paced ts {| backoff := b; short_lived := 0 |} _ _ _ _ (from_env_paced _ _ _ Hm) Ht Hs E) as [G1 G2]. split; [exact G1|]. intros He. specialize (G2 He).
  simpl in G2. unfold b, from_env in G2. destruct (parse_reconnect_backoff_bounds base_ms max_ms). simpl in G2. lia.
Qed.
End WorkerTheorems.

(** ** The theorems at work *)

(** A Noise agent; the edge takes the ping-capable role, pings once, and a client says hello. *)
Definition demo_cfg : AgentConfig :=
  {| token := ch "0123456789abcdef0123456789abcdef"; browser_forward := false; hostname := None; framed_fallback := false;
     terminator := false; origin_is_udp := false |}.
Definition demo_link : Link :=
  {| conn := fun _ => Ok (Arrived (ch "OK" ++ ping (ch "12345678") ++ [to_u8 TCP_PING_STOP] ++ ch "hello"));
     first_read := 1; relay := Ok tt; lasted := 0 |}.
Definition dead_link : Link := {| conn := fun _ => Err "refused"%string; first_read := 1; relay := Ok tt; lasted := 0 |}.
Definition demo_turn (l : Link) : TurnWorld (F := Z) :=
  {| edge := {| sock_ip := V4 192 0 2 1; sock_port := 4433; sock_scope := 0 |}; link := fun _ => l; rand := 0 |}.

Lemma relay_is_byte_exact_witness :
  exists i park, conn demo_link i = Ok (Arrived (ch "OK" ++ park ++ ch "hello")).
Proof.
  destruct (relay_is_byte_exact demo_cfg demo_link (NoiseRelay false) (ch "hello")) as (i & park & E & _).
  { apply list_elem_of_In. vm_compute. tauto. }
  exists i, park. exact E.
Defined.

Definition demo_worker_run := run_worker demo_cfg true [demo_turn dead_link; demo_turn demo_link] {| backoff := from_env None None None; short_lived := 0 |}.

Lemma consumed_worker_is_done_witness :
  exists acts elapsed n, demo_worker_run = (acts, EndedOk, elapsed, n) /\ FiredConsumed ∈ acts.
Proof.
  destruct demo_worker_run as [[[acts end_] elapsed] n] eqn:E. pose proof E as E'. vm_compute in E'.
  exists acts, elapsed, n. assert (end_ = EndedOk) as -> by (by injection E' as _ <- _ _).
  split; [exact eq_refl|]. exact (proj2 (proj1 (consumed_worker_is_done demo_cfg true _ _ _ _ _ _ E)) eq_refl).
Defined.

Lemma worker_is_patient_witness :
  exists acts elapsed n, demo_worker_run = (acts, EndedOk, elapsed, n) /\ (Z.of_nat n - 1) * (50 * MILLI) <= elapsed.
Proof.
  destruct demo_worker_run as [[[acts end_] elapsed] n] eqn:E. pose proof E as E'. vm_compute in E'.
  exists acts, elapsed, n. assert (end_ = EndedOk) as -> by (by injection E' as _ <- _ _).
  split; [exact eq_refl|].
  refine (proj1 (worker_is_patient demo_cfg true None None None _ _ _ _ _ _ _ _ E)).
  - vm_compute. discriminate.
  - repeat constructor; intros a; vm_compute; discriminate.
  - repeat constructor; vm_compute; discriminate.
Defined.
