(* ===== verification/FallbackPool.v ===== *)
(** * FallbackPool: the TLS-TCP fallback ([serve.rs], [ladder.rs])

    When UDP is blocked, a pool of workers keeps registrations parked at the edge, each good for one
    client, and probes whether QUIC answers again: [run_tcp_fallback_pool_on] as a step function over
    what its [select!] can see, beside the workers' own steps; [FallbackWorker] models one worker. *)
From S2P Require Import Prelude Net Retry DirectConnect.

#[local] Open Scope Z_scope.

(** ** When QUIC is trusted again *)

Definition QUIC_REPROBE_INTERVAL : Z := 30 * SECOND.
Definition QUIC_REPROBE_TIMEOUT : Z := 5 * SECOND.
Definition QUIC_STABLE_AFTER : Z := 120 * SECOND.
Definition QUIC_REPROBE_MAX_DOUBLINGS : Z := 4.

Record ReprobePolicy := { interval : Z; confirmations : Z }.
Definition reprobe_policy_after (flaps : Z) : ReprobePolicy :=
  {| interval := QUIC_REPROBE_INTERVAL * 2 ^ Z.min flaps QUIC_REPROBE_MAX_DOUBLINGS;
     confirmations := if flaps =? 0 then 1 else 2 |}.
Definition next_quic_flaps (flaps session : Z) : Z :=
  if session <? QUIC_STABLE_AFTER then Z.min U32_MAX (flaps + 1) else 0.

Inductive ReprobeOutcome := Unanswered | Answered | Registered | RegisterFailed.
(** [answered]: the dial within its timeout; [registered]: the edge accepts the registration. *)
Definition quic_reprobe (answered register registered : bool) : ReprobeOutcome :=
  if negb answered then Unanswered
  else if negb register then Answered
  else if registered then Registered else RegisterFailed.

(** ** The pool *)

(** A task of the [JoinSet]: its registration is parked (or being made), its client is relayed and
    the signal was sent, or it has ended and was not joined. *)
Inductive Task := Parked | Relaying | Ended (ok : bool) | Panicked.
Definition is_finished (t : Task) : bool := match t with Ended _ | Panicked => true | _ => false end.

Record PoolConfig := { pool_size : nat; tcp_fallback_max_serving : nat; reprobe : option ReprobePolicy }.
Definition slots (cfg : PoolConfig) : nat := Nat.max (pool_size cfg) 1.
Definition max_serving (cfg : PoolConfig) : nat := Nat.max (tcp_fallback_max_serving cfg) 1.

(** [consumed]: the channel of the workers' signals.  [probe]: whether the probe in flight registers. *)
Record Pool := {
  workers : gmap nat Task; handles : gset nat; serving : gset nat; consumed : list nat; next_id : nat;
  given_up : nat; probe_ok_streak : Z; next_probe : option Z; probe : option bool
}.

Definition spawn_one (p : Pool) : Pool :=
  {| workers := <[next_id p := Parked]> (workers p); handles := {[next_id p]} ∪ handles p; serving := serving p;
     consumed := consumed p; next_id := S (next_id p); given_up := given_up p;
     probe_ok_streak := probe_ok_streak p; next_probe := next_probe p; probe := probe p |}.

Definition target (cfg : PoolConfig) (p : Pool) : nat := slots cfg - given_up p.
(** [handles.len() - serving.len()]. *)
Definition parked (p : Pool) : nat := size (handles p) - size (serving p).

(** The loop of [top_up!]; [fuel] as many rounds as there are slots. *)
Fixpoint top_up_loop (cfg : PoolConfig) (fuel : nat) (p : Pool) : Pool :=
  match fuel with
  | O => p
  | S fuel =>
      if (parked p <? target cfg p)%nat && (size (handles p) <? target cfg p + max_serving cfg)%nat
      then top_up_loop cfg fuel (spawn_one p) else p
  end.
Definition top_up (cfg : PoolConfig) (p : Pool) : Pool := top_up_loop cfg (slots cfg) p.

Definition new_pool (cfg : PoolConfig) (now : Z) : Pool :=
  top_up cfg
    {| workers := ∅; handles := ∅; serving := ∅; consumed := []; next_id := 0; given_up := 0;
       probe_ok_streak := 0; next_probe := (fun r => now + interval r) <$> reprobe cfg; probe := None |}.

(** Booking signals: one, or all that are queued. *)
Definition book (id : nat) (p : Pool) : Pool :=
  {| workers := workers p; handles := handles p;
     serving := if decide (id ∈ handles p) then {[id]} ∪ serving p else serving p;
     consumed := consumed p; next_id := next_id p; given_up := given_up p;
     probe_ok_streak := probe_ok_streak p; next_probe := next_probe p; probe := probe p |}.
Definition set_consumed (q : list nat) (p : Pool) : Pool :=
  {| workers := workers p; handles := handles p; serving := serving p; consumed := q; next_id := next_id p;
     given_up := given_up p; probe_ok_streak := probe_ok_streak p; next_probe := next_probe p; probe := probe p |}.
Definition drain_consumed (p : Pool) : Pool := foldl (fun p id => book id p) (set_consumed [] p) (consumed p).

Definition set_workers (m : gmap nat Task) (p : Pool) : Pool :=
  {| workers := m; handles := handles p; serving := serving p; consumed := consumed p; next_id := next_id p;
     given_up := given_up p; probe_ok_streak := probe_ok_streak p; next_probe := next_probe p; probe := probe p |}.
Definition set_probe (streak : Z) (at_ : option Z) (pr : option bool) (p : Pool) : Pool :=
  {| workers := workers p; handles := handles p; serving := serving p; consumed := consumed p; next_id := next_id p;
     given_up := given_up p; probe_ok_streak := streak; next_probe := at_; probe := pr |}.

(** [workers.join_next()] gave the end of a worker, or of one that panicked. *)
Definition release (id : nat) (ok : bool) (p : Pool) : Pool :=
  let p := drain_consumed (set_workers (delete id (workers p)) p) in
  {| workers := workers p; handles := handles p ∖ {[id]}; serving := serving p ∖ {[id]}; consumed := consumed p;
     next_id := next_id p; given_up := if ok then given_up p else S (given_up p);
     probe_ok_streak := probe_ok_streak p; next_probe := next_probe p; probe := probe p |}.
Definition release_panicked (id : nat) (p : Pool) : Pool :=
  let before := workers p in
  let p := drain_consumed (set_workers (delete id (workers p)) p) in
  let alive := filter (fun i => negb (match before !! i with Some t => is_finished t | None => true end)) (handles p) in
  {| workers := workers p; handles := alive; serving := filter (fun i => i ∈ alive) (serving p); consumed := consumed p;
     next_id := next_id p; given_up := S (given_up p);
     probe_ok_streak := probe_ok_streak p; next_probe := next_probe p; probe := probe p |}.

(** The end of the pool: the tasks that go on, detached; or none left. *)
Inductive FallbackExit := QuicRecovered (left : gmap nat Task) | AllWorkersGaveUp.

(** The queued signals are booked, then every worker that is not serving is cut, as one step of the
    pool.  In the code the workers run on other threads: one that is consumed after the last
    [try_recv] and before its [abort] is cut although it relays.  That gap of a few instructions is
    not among the steps here. *)
Definition hand_over (p : Pool) : FallbackExit :=
  let p := drain_consumed p in
  QuicRecovered (filter (fun '(id, t) => id ∈ serving p \/ id ∉ handles p) (workers p)).

Definition probe_ended (cfg : PoolConfig) (o : ReprobeOutcome) (p : Pool) : FallbackExit + Pool :=
  match o with
  | Unanswered | RegisterFailed => inr (set_probe 0 (next_probe p) None p)
  | Answered => inr (set_probe (probe_ok_streak p + 1) (next_probe p) None p)
  | Registered => inl (hand_over (set_probe (probe_ok_streak p) (next_probe p) None p))
  end.

(** What happens: the workers' own steps, and the branches of the [select!]. *)
Inductive PoolEvent :=
| WorkerConsumed (id : nat) | WorkerEnded (id : nat) (ok : bool) | WorkerPanicked (id : nat)
| Joined (id : nat) | SignalReceived | ProbeDue (now : Z) | ProbeEnded (answered registered : bool).

(** The head of the loop. *)
Definition loop_head (p : Pool) : FallbackExit + Pool :=
  if decide (handles p = ∅) then inl AllWorkersGaveUp else inr p.

Definition pool_event (cfg : PoolConfig) (ev : PoolEvent) (p : Pool) : option (FallbackExit + Pool) :=
  match ev with
  | WorkerConsumed id =>
      match workers p !! id with
      | Some Parked => Some (inr (set_consumed (consumed p ++ [id]) (set_workers (<[id := Relaying]> (workers p)) p)))
      | _ => None
      end
  | WorkerEnded id ok =>
      match workers p !! id with
      | Some Parked | Some Relaying => Some (inr (set_workers (<[id := Ended ok]> (workers p)) p))
      | _ => None
      end
  | WorkerPanicked id =>
      match workers p !! id with
      | Some Parked | Some Relaying => Some (inr (set_workers (<[id := Panicked]> (workers p)) p))
      | _ => None
      end
  | Joined id =>
      match workers p !! id with
      | Some (Ended ok) => Some (loop_head (top_up cfg (release id ok p)))
      | Some Panicked => Some (loop_head (top_up cfg (release_panicked id p)))
      | _ => None
      end
  | SignalReceived =>
      match consumed p with
      | id :: q => Some (loop_head (top_up cfg (book id (set_consumed q p))))
      | [] => None
      end
  | ProbeDue now =>
      match probe p, next_probe p, reprobe cfg with
      | None, Some at_, Some policy =>
          if at_ <=? now then
            Some (loop_head (set_probe (probe_ok_streak p) (Some (now + interval policy))
                               (Some (confirmations policy <=? probe_ok_streak p + 1)) p))
          else None
      | _, _, _ => None
      end
  | ProbeEnded answered registered =>
      match probe p with
      | Some register =>
          Some (match probe_ended cfg (quic_reprobe answered register registered) p with
                | inl x => inl x
                | inr p => loop_head p
                end)
      | None => None
      end
  end.

(** ** Invariants *)

Record pool_ok (cfg : PoolConfig) (p : Pool) : Prop := {
  ok_serving : serving p ⊆ handles p;
  ok_handles : forall id, id ∈ handles p -> is_Some (workers p !! id);
  ok_running : forall id t, workers p !! id = Some t -> is_finished t = false -> id ∈ handles p;
  ok_fresh : forall id, is_Some (workers p !! id) \/ id ∈ consumed p -> (id < next_id p)%nat;
  ok_relaying : forall id, workers p !! id = Some Relaying -> id ∈ serving p \/ id ∈ consumed p;
  ok_parked : forall id, workers p !! id = Some Parked -> id ∉ serving p /\ id ∉ consumed p;
  ok_count : (size (handles p ∖ serving p) <= slots cfg)%nat;
  ok_total : (size (handles p) <= slots cfg + max_serving cfg)%nat
}.

(** As many registrations are parked as the budget of the pool allows. *)
Definition filled (cfg : PoolConfig) (p : Pool) : Prop :=
  (target cfg p <= size (handles p ∖ serving p) \/ target cfg p + max_serving cfg <= size (handles p))%nat.

Lemma parked_size p : serving p ⊆ handles p -> parked p = size (handles p ∖ serving p).
Proof.
  intros Hs. unfold parked. rewrite size_difference by done. done.
Qed.

Lemma spawn_parked p : serving p ⊆ handles p -> next_id p ∉ handles p -> parked (spawn_one p) = S (parked p).
Proof.
  intros Hs Hn. unfold parked. simpl. rewrite size_union by set_solver. rewrite size_singleton.
  pose proof (subseteq_size _ _ Hs). lia.
Qed.

Lemma fresh_handle cfg p : pool_ok cfg p -> next_id p ∉ handles p.
Proof.
  intros Hp Hin. assert (next_id p < next_id p)%nat; [|lia]. apply (ok_fresh _ _ Hp). left. by apply (ok_handles _ _ Hp).
Qed.

Lemma spawn_ok cfg p :
  pool_ok cfg p -> (parked p < slots cfg)%nat -> (size (handles p) < slots cfg + max_serving cfg)%nat -> pool_ok cfg (spawn_one p).
Proof.
  intros Hp Hc Ht. pose proof (fresh_handle _ _ Hp) as Hf. pose proof (spawn_parked p (ok_serving _ _ Hp) Hf) as Hs.
  destruct Hp as [H1 H2 H3 H4 H5 H6 H7 H8].
  assert (forall id, is_Some (workers p !! id) \/ id ∈ consumed p -> id <> next_id p) as Hne by (intros id Hid ->; apply H4 in Hid; lia).
  rewrite parked_size in Hs by (simpl; set_solver).
  split; simpl in *.
  - set_solver.
  - intros id [->%elem_of_singleton|Hid]%elem_of_union; [by rewrite lookup_insert_eq|]. 
    rewrite lookup_insert_ne by (intros <-; by apply Hf). by apply H2.
  - intros id t. rewrite lookup_insert_Some. intros [[<- <-]|[_ E]] Hf'; [set_solver|]. apply elem_of_union. right. by eapply H3.
  - intros id [[t E]|Hq]; [|assert (id < next_id p)%nat by (by apply H4; right); lia].
    apply lookup_insert_Some in E as [[<- _]|[_ E]]; [lia|]. assert (id < next_id p)%nat by (apply H4; left; by eexists). lia.
  - intros id. rewrite lookup_insert_Some. intros [[_ [=]]|[_ E]]. by apply H5.
  - intros id. rewrite lookup_insert_Some. intros [[<- _]|[_ E]]; [|by apply H6].
    split; [set_solver|]. intros Hq. by apply (Hne (next_id p)); [right|].
  - lia.
  - rewrite size_union, size_singleton by set_solver. lia.
Qed.

Lemma top_up_loop_ok cfg fuel : forall p,
  pool_ok cfg p -> pool_ok cfg (top_up_loop cfg fuel p) /\ ((target cfg p <= parked p + fuel)%nat -> filled cfg (top_up_loop cfg fuel p)).
Proof.
  induction fuel as [|fuel IH]; intros p Hp; simpl.
  - split; [done|]. intros Ht. left. rewrite <-parked_size by apply Hp. lia.
  - destruct (Nat.ltb_spec (parked p) (target cfg p)) as [Hc|Hc]; simpl;
      [destruct (Nat.ltb_spec (size (handles p)) (target cfg p + max_serving cfg)) as [Ht|Ht]|].
    + destruct (IH (spawn_one p)) as [Hok Hf].
      { apply spawn_ok; [done|unfold target in *; lia..]. }
      split; [done|]. intros Hb. apply Hf. rewrite spawn_parked; [|apply Hp|by eapply fresh_handle].
      unfold target in *. simpl in *. lia.
    + split; [done|]. intros _. by right.
    + split; [done|]. intros _. left. by rewrite <-parked_size by apply Hp.
Qed.

Lemma top_up_ok cfg p : pool_ok cfg p -> pool_ok cfg (top_up cfg p) /\ filled cfg (top_up cfg p).
Proof.
  intros Hp. destruct (top_up_loop_ok cfg (slots cfg) p Hp) as [H1 H2]. split; [done|]. apply H2. unfold target. lia.
Qed.

(** Booking signals. *)
Lemma drain_spec p :
  let p' := drain_consumed p in
  workers p' = workers p /\ handles p' = handles p /\ consumed p' = [] /\ next_id p' = next_id p /\ given_up p' = given_up p /\
  forall i, i ∈ serving p' <-> i ∈ serving p \/ i ∈ consumed p /\ i ∈ handles p.
Proof.
  unfold drain_consumed.
  assert (forall q p0, let p' := foldl (fun p id => book id p) p0 q in
    workers p' = workers p0 /\ handles p' = handles p0 /\ consumed p' = consumed p0 /\ next_id p' = next_id p0 /\
    given_up p' = given_up p0 /\ forall i, i ∈ serving p' <-> i ∈ serving p0 \/ i ∈ q /\ i ∈ handles p0) as Hf.
  { induction q as [|id q IH]; intros p0; simpl; [split_and!; set_solver|].
    destruct (IH (book id p0)) as (-> & -> & -> & -> & -> & Hs). simpl in *. split_and!; [done..|].
    intros i. rewrite Hs. destruct (decide (id ∈ handles p0)); set_solver. }
  destruct (Hf (consumed p) (set_consumed [] p)) as (-> & -> & -> & -> & -> & Hs). by split_and!.
Qed.

Lemma book_ok cfg id q p : consumed p = id :: q -> pool_ok cfg p -> pool_ok cfg (book id (set_consumed q p)).
Proof.
  intros Eq [H1 H2 H3 H4 H5 H6 H7 H8].
  split; simpl; try done.
  - destruct (decide (id ∈ handles p)); set_solver.
  - intros i [Hi|Hi]; apply H4; [by left|right; rewrite Eq; by right].
  - intros i Ei. destruct (decide (i = id)) as [->|Hne].
    + left. rewrite decide_True by (by eapply H3). set_solver.
    + destruct (H5 i Ei) as [Hs|Hc]; [left; destruct (decide (id ∈ handles p)); set_solver|].
      rewrite Eq in Hc. right. set_solver.
  - intros i Ei. destruct (H6 i Ei) as [Hs Hc]. rewrite Eq in Hc. destruct (decide (id ∈ handles p)); set_solver.
  - etransitivity; [|exact H7]. apply subseteq_size. destruct (decide (id ∈ handles p)); set_solver.
Qed.

(** What [joined] and [joined_panicked] leave before the pool is topped up: some handles removed,
    with every task that still runs kept. *)
Lemma removed_ok cfg id p (alive : gset nat) p' :
  pool_ok cfg p -> alive ⊆ handles p -> id ∉ alive ->
  (forall i t, i <> id -> workers p !! i = Some t -> is_finished t = false -> i ∈ alive) ->
  workers p' = delete id (workers p) -> handles p' = alive -> consumed p' = [] -> next_id p' = next_id p ->
  (forall i, i ∈ serving p' <-> i ∈ alive /\ (i ∈ serving p \/ i ∈ consumed p)) ->
  pool_ok cfg p'.
Proof.
  intros [H1 H2 H3 H4 H5 H6 H7 H8] Ha Hid Hrun Ew Eh Ec En Hs.
  split; rewrite ?Ew, ?Eh, ?Ec, ?En.
  - intros i Hi. by apply Hs.
  - intros i Hi. rewrite lookup_delete_ne by (by intros ->). apply H2. by apply Ha.
  - intros i t [Hne E]%lookup_delete_Some Hf. by eapply Hrun.
  - intros i [[t [_ E]%lookup_delete_Some]|Hi%not_elem_of_nil]; [|done]. apply H4. left. by eexists.
  - intros i [Hne E]%lookup_delete_Some. left. apply Hs. split; [by eapply Hrun|by apply H5].
  - intros i [Hne E]%lookup_delete_Some. destruct (H6 i E) as [Hn1 Hn2]. rewrite Hs. split; [|by intros ?%not_elem_of_nil].
    intros [_ [?|?]]; done.
  - etransitivity; [|exact H7]. apply subseteq_size. intros i. rewrite !elem_of_difference, Hs. set_solver.
  - etransitivity; [|exact H8]. by apply subseteq_size.
Qed.

Lemma release_ok cfg id ok p : pool_ok cfg p -> pool_ok cfg (release id ok p).
Proof.
  intros Hp. destruct (drain_spec (set_workers (delete id (workers p)) p)) as (E1 & E2 & E3 & E4 & _ & Hs).
  eapply (removed_ok cfg id p (handles p ∖ {[id]})); simpl; try done; [set_solver|set_solver| |by rewrite E2|].
  - intros i t Hne E Hf. apply elem_of_difference. split; [by eapply ok_running|set_solver].
  - intros i. rewrite elem_of_difference, Hs. simpl. pose proof (ok_serving _ _ Hp). set_solver.
Qed.

Lemma release_panicked_handles id p i :
  i ∈ handles (release_panicked id p) <-> i ∈ handles p /\ exists t, workers p !! i = Some t /\ is_finished t = false.
Proof.
  destruct (drain_spec (set_workers (delete id (workers p)) p)) as (_ & E2 & _).
  cbn [release_panicked handles]. rewrite elem_of_filter, E2. cbn [set_workers handles].
  destruct (workers p !! i) as [t|] eqn:Ei; simpl.
  - destruct (is_finished t) eqn:Ef; simpl.
    + split; [by intros [? _]|]. intros (_ & t0 & [= <-] & ?). congruence.
    + split; [intros [_ ?]; eauto|by intros [? _]].
  - split; [by intros [? _]|]. by intros (_ & t & ? & _).
Qed.

Lemma release_panicked_ok cfg id p :
  pool_ok cfg p -> workers p !! id = Some Panicked -> pool_ok cfg (release_panicked id p).
Proof.
  intros Hp Eid. destruct (drain_spec (set_workers (delete id (workers p)) p)) as (E1 & E2 & E3 & E4 & _ & Hs).
  apply (removed_ok cfg id p (handles (release_panicked id p))); try done.
  - intros i Hi. by apply release_panicked_handles in Hi as [? _].
  - rewrite release_panicked_handles. intros [_ (t & Et & Hf)]. rewrite Eid in Et. by injection Et as <-.
  - intros i t Hne E Hf. apply release_panicked_handles. split; [by eapply ok_running|by exists t].
  - intros i. cbn [release_panicked serving]. rewrite elem_of_filter, Hs.
    change (filter _ _) with (handles (release_panicked id p)). simpl. pose proof (ok_serving _ _ Hp).
    pose proof (release_panicked_handles id p i). set_solver.
Qed.

(** A task takes a step of its own. *)
Lemma task_step_ok cfg id t t' q p :
  pool_ok cfg p -> workers p !! id = Some t -> is_finished t = false ->
  (t' = Relaying /\ q = consumed p ++ [id] \/ is_finished t' = true /\ q = consumed p) ->
  pool_ok cfg (set_consumed q (set_workers (<[id := t']> (workers p)) p)).
Proof.
  intros [H1 H2 H3 H4 H5 H6 H7 H8] Et Hf Hcase.
  assert (forall i, i ∈ consumed p -> i ∈ q) as Hq by (destruct Hcase as [[_ ->]|[_ ->]]; set_solver).
  split; simpl; try done.
  - intros i Hi. destruct (decide (i = id)) as [->|Hne]; [by rewrite lookup_insert_eq|]. rewrite lookup_insert_ne by done. by apply H2.
  - intros i t0. rewrite lookup_insert_Some. intros [[<- <-]|[_ E]] Hf'; [by eapply H3|by eapply H3].
  - assert (id < next_id p)%nat by (apply H4; left; by eexists).
    intros i [[t0 E]|Hi].
    + apply lookup_insert_Some in E as [[<- _]|[_ E]]; [done|]. apply H4. left. by eexists.
    + destruct Hcase as [[_ ->]|[_ ->]]; [|by apply H4; right].
      apply elem_of_app in Hi as [Hi| ->%list_elem_of_singleton]; [apply H4; by right|done].
  - intros i. rewrite lookup_insert_Some. intros [[<- ->]|[_ E]].
    + destruct Hcase as [[_ ->]|[? _]]; [right; set_solver|done].
    + destruct (H5 i E); [by left|right; by apply Hq].
  - intros i. rewrite lookup_insert_Some. intros [[<- ->]|[Hne E]]; [destruct Hcase as [[? _]|[? _]]; done|].
    destruct (H6 i E) as [Hs Hc]. split; [done|]. destruct Hcase as [[_ ->]|[_ ->]]; set_solver.
Qed.

(** ** Reachable pools *)

(** The outcome of a probe, for the log. *)
Definition outcome_of (ev : PoolEvent) (p : Pool) : list ReprobeOutcome :=
  match ev, probe p with
  | ProbeEnded answered registered, Some register => [quic_reprobe answered register registered]
  | _, _ => []
  end.
Inductive pool_reach (cfg : PoolConfig) : Pool -> list ReprobeOutcome -> Prop :=
| pool_start now : pool_reach cfg (new_pool cfg now) []
| pool_step p log ev p' :
    pool_reach cfg p log -> pool_event cfg ev p = Some (inr p') -> pool_reach cfg p' (log ++ outcome_of ev p).

(** How many probes in a row were answered last. *)
Definition answered_run (log : list ReprobeOutcome) : Z :=
  foldl (fun n o => match o with Answered => n + 1 | _ => 0 end) 0 log.
Lemma answered_run_snoc log o : answered_run (log ++ [o]) = match o with Answered => answered_run log + 1 | _ => 0 end.
Proof. unfold answered_run. by rewrite foldl_app. Qed.

Record pool_inv (cfg : PoolConfig) (p : Pool) (log : list ReprobeOutcome) : Prop := {
  inv_ok : pool_ok cfg p;
  inv_filled : filled cfg p;
  inv_streak : probe_ok_streak p = answered_run log;
  inv_probe : forall register, probe p = Some register ->
    exists policy, reprobe cfg = Some policy /\ register = (confirmations policy <=? probe_ok_streak p + 1)
}.

(** The fields that neither topping up nor booking touches. *)
Lemma top_up_loop_fields cfg fuel : forall p,
  let p' := top_up_loop cfg fuel p in
  probe_ok_streak p' = probe_ok_streak p /\ probe p' = probe p /\ handles p ⊆ handles p' /\ given_up p' = given_up p /\
  next_probe p' = next_probe p.
Proof.
  induction fuel as [|fuel IH]; intros p; simpl; [done|]. destruct (_ && _); [|done].
  destruct (IH (spawn_one p)) as (-> & -> & Hh & -> & ->). split_and!; try done. simpl in Hh. set_solver.
Qed.
Lemma top_up_fields cfg p :
  let p' := top_up cfg p in
  probe_ok_streak p' = probe_ok_streak p /\ probe p' = probe p /\ handles p ⊆ handles p' /\ given_up p' = given_up p /\
  next_probe p' = next_probe p.
Proof. apply top_up_loop_fields. Qed.
Lemma drain_probe p : probe_ok_streak (drain_consumed p) = probe_ok_streak p /\ probe (drain_consumed p) = probe p.
Proof.
  unfold drain_consumed. assert (forall q p0, let p' := foldl (fun p id => book id p) p0 q in
    probe_ok_streak p' = probe_ok_streak p0 /\ probe p' = probe p0) as Hf; [|apply (Hf (consumed p) (set_consumed [] p))].
  induction q as [|id q IH]; intros p0; simpl; [done|]. apply (IH (book id p0)).
Qed.

Lemma pool_ok_empty cfg nxt st pr :
  pool_ok cfg {| workers := ∅; handles := ∅; serving := ∅; consumed := []; next_id := 0; given_up := 0;
                 probe_ok_streak := st; next_probe := nxt; probe := pr |}.
Proof.
  split; cbn [workers handles serving consumed next_id]; try set_solver.
  - intros id [[t E]|H%not_elem_of_nil]; [by rewrite lookup_empty in E|done].
  - rewrite (difference_diag_L (∅ : gset nat)), size_empty. lia.
  - rewrite size_empty. lia.
Qed.

Lemma loop_head_inr p p' : loop_head p = inr p' -> p' = p.
Proof. unfold loop_head. case_decide; [done|]. by intros [= ->]. Qed.

(** Changing only the probe's fields keeps the rest. *)
Lemma probe_fields_ok cfg s a pr p : pool_ok cfg p -> filled cfg p ->
  pool_ok cfg (set_probe s a pr p) /\ filled cfg (set_probe s a pr p).
Proof. intros [] Hf. split; [by split|done]. Qed.

Lemma release_probe id ok p : probe_ok_streak (release id ok p) = probe_ok_streak p /\ probe (release id ok p) = probe p.
Proof. by destruct (drain_probe (set_workers (delete id (workers p)) p)). Qed.
Lemma release_panicked_probe id p :
  probe_ok_streak (release_panicked id p) = probe_ok_streak p /\ probe (release_panicked id p) = probe p.
Proof. by destruct (drain_probe (set_workers (delete id (workers p)) p)). Qed.

Lemma same_probe_inv cfg p log p' :
  pool_inv cfg p log -> pool_ok cfg p' -> filled cfg p' -> probe_ok_streak p' = probe_ok_streak p -> probe p' = probe p ->
  pool_inv cfg p' log.
Proof. intros [_ _ Hs Hp] Hok Hf E1 E2. split; rewrite ?E1, ?E2; done. Qed.

(** A worker's own step. *)
Lemma worker_step_inv cfg p log id t t' q :
  pool_inv cfg p log -> workers p !! id = Some t -> is_finished t = false ->
  (t' = Relaying /\ q = consumed p ++ [id] \/ is_finished t' = true /\ q = consumed p) ->
  pool_inv cfg (set_consumed q (set_workers (<[id := t']> (workers p)) p)) log.
Proof.
  intros Hinv Et Hf Hc. apply (same_probe_inv cfg p); try done; [|apply Hinv].
  eapply task_step_ok; eauto. apply Hinv.
Qed.

(** The pool is topped up after a change that touched no probe. *)
Lemma top_up_inv cfg p log q :
  pool_inv cfg p log -> pool_ok cfg q -> probe_ok_streak q = probe_ok_streak p -> probe q = probe p -> pool_inv cfg (top_up cfg q) log.
Proof.
  intros Hinv Hq Es Ep. destruct (top_up_ok cfg q Hq) as [H1 H2]. destruct (top_up_fields cfg q) as (E1 & E2 & _).
  apply (same_probe_inv cfg p); congruence.
Qed.

(** What is left of the pool when a worker was joined, before it is topped up. *)
Lemma joined_released cfg id p r :
  pool_ok cfg p -> pool_event cfg (Joined id) p = Some r ->
  exists q, r = loop_head (top_up cfg q) /\ pool_ok cfg q /\ probe_ok_streak q = probe_ok_streak p /\ probe q = probe p /\
    (given_up q <= given_up p + 1)%nat /\
    forall i t, i <> id -> workers p !! i = Some t -> is_finished t = false -> i ∈ handles q.
Proof.
  intros Hok E. simpl in E. destruct (drain_spec (set_workers (delete id (workers p)) p)) as (_ & E2 & _ & _ & Eg & _).
  destruct (workers p !! id) as [[| |ok|]|] eqn:Et; simplify_eq.
  - exists (release id ok p). destruct (release_probe id ok p). split_and!; try done; [by apply release_ok| |].
    + simpl. rewrite Eg. simpl. destruct ok; lia.
    + intros i t Hne Ei Hf. simpl. rewrite E2. apply elem_of_difference. split; [exact (ok_running _ _ Hok i t Ei Hf)|set_solver].
  - exists (release_panicked id p). destruct (release_panicked_probe id p). split_and!; try done; [by apply release_panicked_ok| |].
    + simpl. rewrite Eg. simpl. lia.
    + intros i t Hne Ei Hf. apply release_panicked_handles. split; [by eapply ok_running|by exists t].
Qed.

Lemma join_inv cfg p log id p' :
  pool_inv cfg p log -> pool_event cfg (Joined id) p = Some (inr p') -> pool_inv cfg p' log.
Proof.
  intros Hinv E. destruct (joined_released _ _ _ _ (inv_ok _ _ _ Hinv) E) as (q & Eq & Hq & E1 & E2 & _).
  symmetry in Eq. apply loop_head_inr in Eq as ->. by apply (top_up_inv cfg p).
Qed.

Lemma probe_due_inv cfg p log now p' :
  pool_inv cfg p log -> pool_event cfg (ProbeDue now) p = Some (inr p') -> pool_inv cfg p' log.
Proof.
  intros [Hok Hf Hs Hp] E. simpl in E. destruct (probe p) as [|] eqn:Ep; [done|].
  destruct (next_probe p) as [at_|]; [|done]. destruct (reprobe cfg) as [policy|] eqn:Er; [|done].
  destruct (at_ <=? now); [|done]. injection E as ->%loop_head_inr.
  destruct (probe_fields_ok cfg (probe_ok_streak p) (Some (now + interval policy))
              (Some (confirmations policy <=? probe_ok_streak p + 1)) p Hok Hf).
  split; [done|done|done|]. simpl. intros register [= <-]. by exists policy.
Qed.

Lemma probe_ended_inv cfg p log a r p' :
  pool_inv cfg p log -> pool_event cfg (ProbeEnded a r) p = Some (inr p') ->
  pool_inv cfg p' (log ++ outcome_of (ProbeEnded a r) p).
Proof.
  intros [Hok Hf Hs Hp] E. simpl in E. unfold outcome_of. destruct (probe p) as [register|] eqn:Ep; [|done].
  unfold quic_reprobe in *. injection E as E.
  destruct a, register, r; simpl in E; try done; apply loop_head_inr in E as ->;
    (split; [by apply probe_fields_ok..| |done]); rewrite answered_run_snoc; simpl; lia.
Qed.

Lemma pool_event_inv cfg p log ev p' :
  pool_inv cfg p log -> pool_event cfg ev p = Some (inr p') -> pool_inv cfg p' (log ++ outcome_of ev p).
Proof.
  intros Hinv E. destruct ev as [id|id ok|id|id| |now|a r]; [..|by apply probe_ended_inv]; simpl; rewrite app_nil_r.
  - simpl in E. destruct (workers p !! id) as [[]|] eqn:Et; simplify_eq. eapply worker_step_inv; eauto.
  - simpl in E. destruct (workers p !! id) as [[]|] eqn:Et; simplify_eq;
      apply (worker_step_inv cfg p log id _ (Ended ok) (consumed p) Hinv Et); auto.
  - simpl in E. destruct (workers p !! id) as [[]|] eqn:Et; simplify_eq;
      apply (worker_step_inv cfg p log id _ Panicked (consumed p) Hinv Et); auto.
  - by eapply join_inv.
  - simpl in E. destruct (consumed p) as [|id q] eqn:Eq; [done|]. injection E as ->%loop_head_inr.
    apply (top_up_inv cfg p); try done. apply book_ok; [done|apply Hinv].
  - by eapply probe_due_inv.
Qed.

Lemma pool_reach_inv cfg p log : pool_reach cfg p log -> pool_inv cfg p log.
Proof.
  induction 1 as [now|p log ev p' _ IH E]; [|by eapply pool_event_inv].
  unfold new_pool. match goal with |- pool_inv _ (top_up cfg ?q) _ =>
    destruct (top_up_ok cfg q) as [H1 H2]; [apply pool_ok_empty|]; destruct (top_up_fields cfg q) as (E1 & E2 & _) end.
  split; [done|done|by rewrite E1|by rewrite E2].
Qed.

Lemma loop_head_nonempty p p' : loop_head p = inr p' -> handles p' <> ∅.
Proof. unfold loop_head. case_decide; [done|]. by intros [= <-]. Qed.

Lemma pool_handles cfg p log : pool_reach cfg p log -> handles p <> ∅.
Proof.
  induction 1 as [now|p log ev p' Hr IH E].
  - unfold new_pool. match goal with |- context [top_up cfg ?q] =>
      destruct (top_up_ok cfg q (pool_ok_empty _ _ _ _)) as [_ Hf]; destruct (top_up_fields cfg q) as (_ & _ & _ & Eg & _) end.
    intros Eh. unfold filled, target, max_serving in Hf. rewrite Eg, Eh in Hf. cbn [given_up] in Hf.
    assert (size (∅ : gset nat) = 0%nat) as Hz by apply size_empty. unfold slots in Hf.
    destruct Hf as [Hf|Hf]; [|lia]. rewrite (subseteq_empty_difference_L (∅ : gset nat)) in Hf by set_solver. lia.
  - destruct ev as [id|id ok|id|id| |now|a r]; simpl in E;
      repeat (case_match; simplify_eq/=); try done; try (by eapply loop_head_nonempty).
Qed.

(** ** What the pool guarantees *)

Definition running (t : Task) : Prop := is_finished t = false.

(** The registrations the pool keeps.  Whatever the workers, the probes and the order of the
    events, [handles.len() - serving.len()] never underflows, at most [slots] registrations are
    counted as parked and at most [slots + max_serving] tasks run; and the pool is never short: it
    has as many parked as the workers that did not give up allow, or is at its cap.  Once the queued
    signals are read, no task that relays a client is counted as parked. *)
Theorem pool_stays_filled cfg p log :
  pool_reach cfg p log ->
  (size (serving p) <= size (handles p))%nat /\ (parked p <= slots cfg)%nat /\
  (size (handles p) <= slots cfg + max_serving cfg)%nat /\
  (target cfg p <= parked p \/ target cfg p + max_serving cfg <= size (handles p))%nat /\
  (consumed p = [] -> forall id, workers p !! id = Some Relaying -> id ∈ serving p).
Proof.
  intros Hr. destruct (pool_reach_inv _ _ _ Hr) as [Hok Hf _ _]. pose proof (ok_serving _ _ Hok) as Hs.
  unfold filled in Hf. rewrite <-parked_size in Hf by done. split_and!; try done.
  - by apply subseteq_size.
  - rewrite parked_size by done. apply Hok.
  - apply Hok.
  - intros Ec id Eid. destruct (ok_relaying _ _ Hok id Eid) as [?|Hc]; [done|]. rewrite Ec in Hc. by apply not_elem_of_nil in Hc.
Qed.

(** A hand-over decides on the signals queued. *)
Lemma hand_over_left cfg p left :
  pool_ok cfg p -> hand_over p = QuicRecovered left ->
  (forall id, workers p !! id = Some Relaying -> left !! id = Some Relaying) /\ (forall id, left !! id <> Some Parked).
Proof.
  intros Hok. unfold hand_over. destruct (drain_spec p) as (-> & -> & _ & _ & _ & Hs). intros [= <-].
  assert (forall id t, workers p !! id = Some t -> running t -> id ∈ handles p) as Hrun by (intros; by eapply ok_running).
  split.
  - intros id Eid. apply map_lookup_filter_Some. split; [done|]. left. apply Hs.
    destruct (ok_relaying _ _ Hok id Eid); [by left|right]. split; [done|by eapply Hrun].
  - intros id [Eid [Hin|Hn]]%map_lookup_filter_Some; [|by eapply Hn, Hrun].
    apply Hs in Hin. destruct (ok_parked _ _ Hok id Eid). naive_solver.
Qed.

(** The pool ends for want of workers only when the last one gave up. *)
Lemma joined_all_gone cfg p id x :
  pool_ok cfg p -> pool_event cfg (Joined id) p = Some (inl x) ->
  x = AllWorkersGaveUp /\ (slots cfg <= given_up p + 1)%nat /\ forall i t, workers p !! i = Some t -> i <> id -> is_finished t = true.
Proof.
  intros Hok E. destruct (joined_released _ _ _ _ Hok E) as (q & Eq & Hq & _ & _ & Hg & Hrun).
  unfold loop_head in Eq. case_decide as Eh; [|done]. injection Eq as ->.
  destruct (top_up_ok cfg q Hq) as [_ Hf]. destruct (top_up_fields cfg q) as (_ & _ & Hh & Eg & _).
  rewrite Eh in Hh. split_and!; [done| |].
  - unfold filled, target, max_serving in Hf. rewrite Eg, Eh in Hf. rewrite (subseteq_empty_difference_L (∅ : gset nat)) in Hf by set_solver.
    assert (size (∅ : gset nat) = 0%nat) as Hz by apply size_empty. lia.
  - intros i t Ei Hne. destruct (is_finished t) eqn:Ef; [done|]. specialize (Hrun i t Hne Ei Ef). set_solver.
Qed.

(** C15: Why the pool ends.  QUIC takes over only when a probe that completes the streak of answered
    probes of its policy registered, and then no client is cut: every task that relays one is left
    to finish - the ones whose signal is still queued too - and none that is parked stays behind.
    Otherwise the pool ends only when its last worker was joined: all of the slots gave up and no
    other task runs. *)
Theorem pool_ends_for_cause cfg p log ev x :
  pool_reach cfg p log -> pool_event cfg ev p = Some (inl x) ->
  match x with
  | QuicRecovered rest =>
      ev = ProbeEnded true true /\
      (exists policy, reprobe cfg = Some policy /\ confirmations policy <= answered_run log + 1) /\
      (forall id, workers p !! id = Some Relaying -> rest !! id = Some Relaying) /\
      (forall id, rest !! id <> Some Parked)
  | AllWorkersGaveUp =>
      exists id, ev = Joined id /\ (slots cfg <= given_up p + 1)%nat /\
        forall i t, workers p !! i = Some t -> i <> id -> is_finished t = true
  end.
Proof.
  intros Hr E. destruct (pool_reach_inv _ _ _ Hr) as [Hok Hf Hs Hp]. pose proof (pool_handles _ _ _ Hr) as Hne.
  assert (forall q, handles p ⊆ handles q -> loop_head q <> inl x) as Hgo.
  { intros q Hq. unfold loop_head. case_decide; [set_solver|done]. }
  destruct ev as [id|id ok|id|id| |now|a r]; simpl in E.
  1-3: repeat case_match; done.
  - destruct (joined_all_gone cfg p id x Hok E) as (-> & ? & ?). by exists id.
  - destruct (consumed p) as [|id q]; [done|]. injection E as E. exfalso. eapply Hgo; [|exact E].
    destruct (top_up_fields cfg (book id (set_consumed q p))) as (_ & _ & Hh & _). exact Hh.
  - exfalso. repeat case_match; try done. injection E as E. eapply Hgo; [|exact E]. done.
  - destruct (probe p) as [register|] eqn:Ep; [|done]. destruct (Hp register eq_refl) as (policy & Er & ->). injection E as E.
    destruct a, (confirmations policy <=? probe_ok_streak p + 1) eqn:Ec, r; simpl in E;
      try (exfalso; eapply Hgo; [|exact E]; done).
    injection E as <-. destruct (hand_over_left cfg (set_probe (probe_ok_streak p) (next_probe p) None p) _
      (proj1 (probe_fields_ok _ _ _ _ _ Hok Hf)) eq_refl) as [Hl1 Hl2].
    split_and!; [done| |exact Hl1|exact Hl2]. exists policy. split; [done|]. rewrite <-Hs. lia.
Qed.

(** ** The theorems at work *)

Fixpoint run_events (cfg : PoolConfig) (evs : list PoolEvent) (p : Pool) (log : list ReprobeOutcome) : option (Pool * list ReprobeOutcome) :=
  match evs with
  | [] => Some (p, log)
  | ev :: evs =>
      match pool_event cfg ev p with
      | Some (inr p') => run_events cfg evs p' (log ++ outcome_of ev p)
      | _ => None
      end
  end.
Lemma run_events_reach cfg evs : forall p log p' log',
  pool_reach cfg p log -> run_events cfg evs p log = Some (p', log') -> pool_reach cfg p' log'.
Proof.
  induction evs as [|ev evs IH]; intros p log p' log' Hr E; simpl in E; [by simplify_eq|].
  destruct (pool_event cfg ev p) as [[|q]|] eqn:Eq; try done. eapply IH; [by eapply pool_step|exact E].
Qed.

Definition demo_pool : PoolConfig := {| pool_size := 2; tcp_fallback_max_serving := 1; reprobe := Some (reprobe_policy_after 1) |}.
(** A client arrives and is booked, another one arrives; QUIC answered one probe and a second is under way. *)
Definition demo_events : list PoolEvent :=
  [WorkerConsumed 0; SignalReceived; ProbeDue 200_000_000_000; ProbeEnded true false; WorkerConsumed 1; ProbeDue 400_000_000_000].

Definition demo_run : option (Pool * list ReprobeOutcome) := run_events demo_pool demo_events (new_pool demo_pool 0) [].
Lemma demo_some : exists p log, demo_run = Some (p, log) /\ workers p !! 1%nat = Some Relaying /\ size (handles p) = 3%nat /\ parked p = 2%nat
  /\ match pool_event demo_pool (ProbeEnded true true) p with
     | Some (inl (QuicRecovered rest)) => map_to_list rest = [(1%nat, Relaying); (0%nat, Relaying)] | _ => False end.
Proof. eexists _, _. split; [vm_compute; reflexivity|]. by vm_compute. Qed.

Lemma pool_stays_filled_witness :
  exists p log, demo_run = Some (p, log) /\ (parked p <= 2)%nat /\ (size (handles p) <= 3)%nat.
Proof.
  destruct demo_some as (p & log & E & _). exists p, log. split; [exact E|].
  destruct (pool_stays_filled demo_pool p log) as (_ & H1 & H2 & _).
  { exact (run_events_reach _ _ _ _ _ _ (pool_start demo_pool 0) E). }
  exact (conj H1 H2).
Defined.
Lemma pool_ends_for_cause_witness :
  exists p log (rest : gmap nat Task), demo_run = Some (p, log) /\ rest !! 1%nat = Some Relaying /\ (forall id, rest !! id <> Some Parked).
Proof.
  destruct demo_some as (p & log & E & Hw & _ & _ & Hx). exists p, log.
  destruct (pool_event demo_pool (ProbeEnded true true) p) as [[[rest|]|]|] eqn:Ex; try contradiction.
  exists rest. split; [exact E|].
  pose proof (pool_ends_for_cause demo_pool p log _ _ (run_events_reach _ _ _ _ _ _ (pool_start demo_pool 0) E) Ex) as (_ & _ & H1 & H2).
  exact (conj (H1 _ Hw) H2).
Defined.
