(* ===== verification/Agent.v ===== *)
(** * Agent: the registration loop and its status ([serve.rs], [status.rs])

    [run_agent]'s reconnect loop: dial the edge over QUIC, else MASQUE, else run the TLS-TCP fallback
    until QUIC recovers; register, serve until the connection drops, back off, go round.  Each step is
    logged with the status it was taken under, which is what [/status], [/healthz] and [/metrics]
    read. *)
From S2P Require Import Prelude Text Retry EdgeWire DirectConnect FallbackWorker FallbackPool.

#[local] Open Scope Z_scope.

(** ** The status *)

Definition HEALTHZ_MAX_SILENCE_SECS : Z := 90.
Definition TRANSPORTS : list string := ["quic"; "masque"; "tcp-fallback"; "none"]%string.

Record AgentStatus := {
  transport : string; registered_since : option Z; last_seen : option Z; reconnects : Z;
  last_error : option string; update_state : string
}.
Definition new_status : AgentStatus :=
  {| transport := "none"; registered_since := None; last_seen := None; reconnects := 0; last_error := None; update_state := "" |}.

Definition set_transport (t : string) (s : AgentStatus) : string * AgentStatus :=
  (transport s,
   {| transport := t; registered_since := registered_since s; last_seen := last_seen s; reconnects := reconnects s;
      last_error := last_error s; update_state := update_state s |}).
Definition set_registered (since : option Z) (s : AgentStatus) : AgentStatus :=
  {| transport := transport s; registered_since := since; last_seen := last_seen s; reconnects := reconnects s;
     last_error := last_error s; update_state := update_state s |}.
Definition note_reconnect (s : AgentStatus) : AgentStatus :=
  {| transport := transport s; registered_since := registered_since s; last_seen := last_seen s;
     reconnects := wrap 64 (reconnects s + 1); last_error := last_error s; update_state := update_state s |}.
Definition set_last_error (e : string) (s : AgentStatus) : AgentStatus :=
  {| transport := transport s; registered_since := registered_since s; last_seen := last_seen s; reconnects := reconnects s;
     last_error := Some e; update_state := update_state s |}.
Definition note_keepalive_at (now : Z) (s : AgentStatus) : AgentStatus :=
  {| transport := transport s; registered_since := registered_since s; last_seen := Some now; reconnects := reconnects s;
     last_error := last_error s; update_state := update_state s |}.
Definition set_update_state (u : string) (s : AgentStatus) : AgentStatus :=
  {| transport := transport s; registered_since := registered_since s; last_seen := last_seen s; reconnects := reconnects s;
     last_error := last_error s; update_state := u |}.
Definition set_registered_now (now : Z) (s : AgentStatus) : AgentStatus := note_keepalive_at now (set_registered (Some now) s).
Definition registered (s : AgentStatus) : bool := bool_decide (is_Some (registered_since s)).

Definition healthz_at (now : Z) (s : AgentStatus) : result unit string :=
  if negb (registered s) then
    Err (match last_error s with
         | Some e => ("not registered with an edge (transport=" +:+ transport s +:+ ", last error: " +:+ e +:+ ")")%string
         | None => ("not registered with an edge (transport=" +:+ transport s +:+ ")")%string
         end)
  else
    match last_seen s with
    | None => Err "registered but the edge has not been observed alive yet"%string
    | Some seen =>
        let silence := sat_sub now seen in
        if silence <? HEALTHZ_MAX_SILENCE_SECS then Ok tt
        else Err ("registered over " +:+ transport s +:+ " but nothing heard from the edge for " +:+ show silence +:+ "s (limit "
                  +:+ show HEALTHZ_MAX_SILENCE_SECS +:+ "s)")%string
    end.

Definition flag (b : bool) : string := if b then "1" else "0".
(** The [ct_agent_transport] series. *)
Definition transport_series (s : AgentStatus) : list (string * string) :=
  map (fun t => (t, flag (String.eqb t (transport s)))) TRANSPORTS.

Definition status_url (listen : string) : string := ("http://" +:+ trim listen +:+ "/status")%string.

(** ** One turn of the loop *)

Inductive Event :=
| RegistrationFailed (error : string) | TransportSwitch (from to : string) | FallbackExhausted
| RegisteredEvent (transport : string) (hostname_bound : bool) | Disconnected (reason : string).
Inductive Step :=
| DialsQuic | DialsMasque | RunsFallback (policy : ReprobePolicy) (recovered : bool)
| Registers (msg : list byte) (accepted : bool) | SpawnsHostBind (host : string) | Serves (session : Z) | Emits (e : Event).

(** The outcomes of a turn's dials, exchanges and session, its clocks and its random sample;
    [pool_status]: what the workers of a fallback pool left in the status (never the transport). *)
Record Masque := { proxy_addr : string; first_dial : result unit string; moved : bool; second_dial : result unit string }.
Record TurnInput (F : Type) := {
  quic_dial : result unit string; masque : option Masque; pool_end : FallbackExit; pool_status : AgentStatus -> AgentStatus; ack : Reply;
  error_text : EdgeError -> string; clock : Z; session : Z; close_reason : option string; rand01 : F
}.
Arguments quic_dial {F}. Arguments masque {F}. Arguments pool_end {F}. Arguments pool_status {F}. Arguments ack {F}. Arguments error_text {F}.
Arguments clock {F}. Arguments session {F}. Arguments close_reason {F}. Arguments rand01 {F}.

Record Agent := {
  policy : Backoff; ambiguous : Z; view : bool; quic_flaps : Z; status : AgentStatus; trace : list (AgentStatus * Step)
}.

Definition did (x : Step) (a : Agent) : Agent :=
  {| policy := policy a; ambiguous := ambiguous a; view := view a; quic_flaps := quic_flaps a; status := status a;
     trace := trace a ++ [(status a, x)] |}.
Definition with_status (s : AgentStatus) (a : Agent) : Agent :=
  {| policy := policy a; ambiguous := ambiguous a; view := view a; quic_flaps := quic_flaps a; status := s; trace := trace a |}.
Definition with_policy (p : Backoff) (a : Agent) : Agent :=
  {| policy := p; ambiguous := ambiguous a; view := view a; quic_flaps := quic_flaps a; status := status a; trace := trace a |}.
Definition with_flaps (n : Z) (a : Agent) : Agent :=
  {| policy := policy a; ambiguous := ambiguous a; view := view a; quic_flaps := n; status := status a; trace := trace a |}.
Definition noted (o : RegistrationOutcome) (a : Agent) : Agent :=
  let '(_, amb, v) := note o (ambiguous a) (view a) in
  {| policy := policy a; ambiguous := amb; view := v; quic_flaps := quic_flaps a; status := status a; trace := trace a |}.

Definition switch_transport (to : string) (a : Agent) : Agent :=
  let '(from, s) := set_transport to (status a) in
  let a := with_status s a in
  if String.eqb from to then a else did (Emits (TransportSwitch from to)) a.
Definition failed (error : string) (a : Agent) : Agent :=
  did (Emits (RegistrationFailed error)) (with_status (set_last_error error (status a)) a).

Section Loop.
Context {F : Type} `{Jitter F} (cfg : AgentConfig).

Inductive TurnEnd := GoRound (sleep : Z) (a : Agent) | Exits (error : string) (a : Agent).

(** [policy.after_failure]. *)
Definition retry_or (gave_up : string) (w : TurnInput F) (a : Agent) : TurnEnd :=
  match after_failure (rand01 w) (policy a) with
  | (After d, p) => GoRound d (with_policy p a)
  | (GiveUp, p) => Exits gave_up (with_policy p a)
  end.

Definition try_dial_via_masque (m : option Masque) (a : Agent) : bool * Agent :=
  match m with
  | None => (false, a)
  | Some m =>
      let a := did DialsMasque a in
      match first_dial m with
      | Ok _ => (true, a)
      | Err e =>
          let '(second, a) := if moved m then (second_dial m, did DialsMasque a) else (Err e, a) in
          match second with
          | Ok _ => (true, a)
          | Err e => (false, failed ("MASQUE dial to " +:+ proxy_addr m +:+ " failed: " +:+ e)%string a)
          end
      end
  end.

Definition register_failed (w : TurnInput F) (e : EdgeError) (a : Agent) : Agent :=
  let a := noted (classify_failure (is_registration_refusal e) true) a in
  let a := with_status (set_registered None (status a)) a in
  let a := failed ("registration failed: " +:+ error_text w e)%string a in
  with_status (note_reconnect (status a)) a.
(** Registering over the connection, unless the fallback pool did. *)
Definition register (pre_registered : bool) (w : TurnInput F) (a : Agent) : TurnEnd + Agent :=
  if pre_registered then inr a
  else
    match register_tunnel (token cfg) (ack w) with
    | (_, Ok _) => inr (did (Registers (tunnel_message "A" (token cfg)) true) a)
    | (_, Err e) =>
        let a := did (Registers (tunnel_message "A" (token cfg)) false) a in
        inl (retry_or "ct-agent: gave up re-registering with the edge" w (register_failed w e a))
    end.

(** An accepted registration, up to the session. *)
Definition announce (w : TurnInput F) (a : Agent) : Agent :=
  let a := noted Succeeded a in
  let a := with_policy (after_success (policy a)) a in
  let a := match hostname cfg with
           | Some host => if browser_forward cfg then did (SpawnsHostBind host) a else a
           | None => a
           end in
  let a := with_status (set_registered_now (clock w) (status a)) a in
  did (Emits (RegisteredEvent (transport (status a)) (binds_hostname cfg))) a.
Definition connection_dropped (w : TurnInput F) (a : Agent) : Agent :=
  let reason := default "edge connection dropped"%string (close_reason w) in
  let a := with_status (set_last_error reason (set_registered None (status a))) a in
  let a := did (Emits (Disconnected reason)) a in
  with_status (note_reconnect (status a)) a.
Definition serve (w : TurnInput F) (a : Agent) : TurnEnd :=
  let a := announce w a in
  let a := did (Serves (session w)) a in
  let a := with_flaps (next_quic_flaps (quic_flaps a) (session w)) a in
  retry_or "ct-agent: gave up reconnecting after the connection dropped" w (connection_dropped w a).

Definition register_and_serve (pre_registered : bool) (w : TurnInput F) (a : Agent) : TurnEnd :=
  match register pre_registered w a with
  | inl e => e
  | inr a => serve w a
  end.

Definition after_pool (w : TurnInput F) (a : Agent) : Agent :=
  with_status (set_transport (transport (status a)) (pool_status w (status a))).2 a.

Definition quic_recovered (w : TurnInput F) (p : ReprobePolicy) (a : Agent) : Agent :=
  let a := after_pool w (did (RunsFallback p true) a) in
  let a := with_policy (after_success (policy a)) a in
  with_status (note_reconnect (status a)) a.
Definition all_gave_up (w : TurnInput F) (p : ReprobePolicy) (a : Agent) : Agent :=
  let a := after_pool w (did (RunsFallback p false) a) in
  let a := did (Emits FallbackExhausted) a in
  with_status (note_reconnect (set_registered None (status a))) a.

Definition agent_turn (w : TurnInput F) (a : Agent) : TurnEnd :=
  let a := did DialsQuic a in
  match quic_dial w with
  | Ok _ => register_and_serve false w (switch_transport "quic" a)
  | Err e =>
      let a := failed ("edge dial failed: " +:+ e)%string a in
      let '(via_masque, a) := try_dial_via_masque (masque w) a in
      if via_masque then register_and_serve false w (switch_transport "masque" a)
      else
        let a := switch_transport "tcp-fallback" a in
        let p := reprobe_policy_after (quic_flaps a) in
        match pool_end w with
        | QuicRecovered _ => register_and_serve true w (switch_transport "quic" (quic_recovered w p a))
        | AllWorkersGaveUp =>
            retry_or "ct-agent: gave up: the TLS-TCP fallback pool and the reconnect loop both exhausted their budgets" w
              (all_gave_up w p a)
        end
  end.

(** [run_agent_tcp_fallback_with_ctx], the mode without QUIC: one pool after the other; the sleeps. *)
Fixpoint run_agent_tcp_fallback (outer : Backoff) (rands : list F) : list Z * bool :=
  match rands with
  | [] => ([], true)
  | r :: rands =>
      match next_delay_jittered r outer with
      | (Some d, outer) => let '(ds, more) := run_agent_tcp_fallback outer rands in (d :: ds, more)
      | (None, _) => ([], false)
      end
  end.

(** [bind_hostname_with_retry], given the answer to each try, whether the connection is gone by then,
    and the sample: the sleeps, and how it ended. *)
Inductive BindEnd := Bound | ConnectionGone | BindGaveUp | StillTrying.
Fixpoint bind_loop (host : string) (answers : list (Reply * bool * F)) (backoff : Backoff) : list Z * BindEnd :=
  match answers with
  | [] => ([], StillTrying)
  | (reply, gone, r) :: answers =>
      match (bind_hostname (token cfg) host reply).2 with
      | Ok _ => ([], Bound)
      | Err _ =>
          if (gone : bool) then ([], ConnectionGone)
          else
            match next_delay_jittered r backoff with
            | (Some d, backoff) => let '(ds, e) := bind_loop host answers backoff in (d :: ds, e)
            | (None, _) => ([], BindGaveUp)
            end
      end
  end.
Definition HOST_BIND_RETRY_BASE : Z := 1 * SECOND.
Definition HOST_BIND_RETRY_MAX : Z := 15 * SECOND.
Definition HOST_BIND_RETRY_ATTEMPTS : Z := 8.
Definition bind_hostname_with_retry (host : string) (answers : list (Reply * bool * F)) : list Z * BindEnd :=
  bind_loop host answers (new_backoff HOST_BIND_RETRY_BASE HOST_BIND_RETRY_MAX HOST_BIND_RETRY_ATTEMPTS).

Definition new_agent (p : Backoff) : Agent :=
  {| policy := p; ambiguous := 0; view := false; quic_flaps := 0; status := new_status; trace := [] |}.

(** How it ends, the number of turns, and the time slept. *)
Fixpoint run_agent (ws : list (TurnInput F)) (a : Agent) : TurnEnd * nat * Z :=
  match ws with
  | [] => (GoRound 0 a, 0%nat, 0)
  | w :: ws =>
      match agent_turn w a with
      | GoRound sleep a => let '(e, n, slept) := run_agent ws a in (e, S n, sleep + slept)
      | Exits e a => (Exits e a, 1%nat, 0)
      end
  end.
End Loop.

(** ** Invariants of the loop *)

Definition steps (a : Agent) : list Step := map snd (trace a).

(** Every connection served was registered before, once: [waiting] says whether one is. *)
Fixpoint alternates (waiting : bool) (l : list Step) : option bool :=
  match l with
  | [] => Some waiting
  | (Registers _ true | RunsFallback _ true) :: l => if waiting then None else alternates true l
  | Serves _ :: l => if waiting then alternates false l else None
  | _ :: l => alternates waiting l
  end.

(** The status under which a step may be taken. *)
Definition entry_ok (e : AgentStatus * Step) : Prop :=
  match e.2 with
  | Serves _ => registered e.1 = true /\ last_seen e.1 = registered_since e.1 /\ (transport e.1 = "quic" \/ transport e.1 = "masque")%string
  | RunsFallback _ _ => transport e.1 = "tcp-fallback"%string
  | _ => True
  end.

(** How many of the last sessions in a row were short. *)
Definition short_streak (l : list Step) : nat :=
  foldl (fun n x => match x with Serves d => if d <? QUIC_STABLE_AFTER then S n else 0%nat | _ => n end) 0%nat l.
Definition flaps_of (n : nat) : Z := Z.min U32_MAX (Z.of_nat n).

Record agent_inv (waiting : bool) (a : Agent) : Prop := {
  inv_alternates : alternates false (steps a) = Some waiting;
  inv_entries : Forall entry_ok (trace a);
  inv_flaps : quic_flaps a = flaps_of (short_streak (steps a));
  inv_policies : forall pre st p r post, trace a = pre ++ (st, RunsFallback p r) :: post ->
    p = reprobe_policy_after (flaps_of (short_streak (map snd pre)))
}.

Lemma alternates_app l1 l2 w : alternates w (l1 ++ l2) = (let? w := alternates w l1 in alternates w l2).
Proof.
  revert w. induction l1 as [|x l1 IH]; intros w; simpl; [done|].
  destruct x as [| |p []|m []| |d|e]; try apply IH; by destruct w; try apply IH.
Qed.
Lemma short_streak_snoc l x :
  short_streak (l ++ [x]) = match x with Serves d => if d <? QUIC_STABLE_AFTER then S (short_streak l) else 0%nat | _ => short_streak l end.
Proof. unfold short_streak. by rewrite foldl_app. Qed.

(** A step that serves nothing. *)
Lemma did_inv w w' x a :
  agent_inv w a -> alternates w [x] = Some w' -> entry_ok (status a, x) ->
  match x with
  | Serves _ => False
  | RunsFallback p _ => p = reprobe_policy_after (quic_flaps a)
  | _ => True
  end -> agent_inv w' (did x a).
Proof.
  intros [H1 H2 H3 H4] Hx He Hs.
  assert (steps (did x a) = steps a ++ [x]) as Es by (unfold steps; simpl; by rewrite map_app).
  split; rewrite ?Es; simpl.
  - by rewrite alternates_app, H1.
  - by apply Forall_app; split; [|constructor].
  - rewrite short_streak_snoc. by destruct x.
  - intros pre st p r post E. destruct post as [|y post _] using rev_ind.
    + apply app_inj_tail in E as [Et [= _ ->]]. rewrite Hs, H3. unfold steps. by rewrite Et.
    + rewrite app_comm_cons, app_assoc in E. apply app_inj_tail in E as [E _]. by eapply H4.
Qed.
(** Changes that leave the trace and the flaps alone. *)
Lemma same_trace_inv w a a' : agent_inv w a -> trace a' = trace a -> quic_flaps a' = quic_flaps a -> agent_inv w a'.
Proof. intros [H1 H2 H3 H4] Et Ef. split; unfold steps in *; rewrite ?Et, ?Ef; done. Qed.

(** Serving: the step and the new count of flaps. *)
Lemma serve_inv d a :
  agent_inv true a -> entry_ok (status a, Serves d) ->
  agent_inv false (with_flaps (next_quic_flaps (quic_flaps a) d) (did (Serves d) a)).
Proof.
  intros [H1 H2 H3 H4] He. set (a' := with_flaps _ _).
  assert (steps a' = steps a ++ [Serves d]) as Es by (unfold steps; simpl; by rewrite map_app).
  split; rewrite ?Es; simpl.
  - by rewrite alternates_app, H1.
  - by apply Forall_app; split; [|constructor].
  - rewrite short_streak_snoc, H3. unfold next_quic_flaps, flaps_of. destruct (d <? QUIC_STABLE_AFTER); unfold U32_MAX; lia.
  - intros pre st p r post E. destruct post as [|y post _] using rev_ind.
    + by apply app_inj_tail in E as [_ [=]].
    + rewrite app_comm_cons, app_assoc in E. apply app_inj_tail in E as [E _]. by eapply H4.
Qed.

Lemma switch_inv w t a : agent_inv w a -> agent_inv w (switch_transport t a).
Proof.
  intros Ha. unfold switch_transport. simpl.
  destruct (String.eqb (transport (status a)) t); [by eapply same_trace_inv|]. apply (did_inv w); [by eapply same_trace_inv|done..].
Qed.
Lemma switch_transport_transport t a : transport (status (switch_transport t a)) = t.
Proof. unfold switch_transport. simpl. by destruct (String.eqb _ t). Qed.
Lemma failed_inv w e a : agent_inv w a -> agent_inv w (failed e a).
Proof. intros Ha. apply (did_inv w); [by eapply same_trace_inv|done..]. Qed.

Section Turns.
Context {F : Type} `{Jitter F} (cfg : AgentConfig).

Definition turn_agent (e : TurnEnd) : Agent := match e with GoRound _ a | Exits _ a => a end.
(** Between two turns nothing is registered. *)
Definition idle (a : Agent) : Prop := agent_inv false a /\ registered (status a) = false.

Lemma retry_or_idle g (w : TurnInput F) a : idle a -> idle (turn_agent (retry_or g w a)).
Proof.
  intros [Ha Hr]. unfold retry_or. destruct (after_failure (rand01 w) (policy a)) as [[] p]; split; try done; by eapply same_trace_inv.
Qed.

Lemma noted_inv x o a : agent_inv x a -> agent_inv x (noted o a).
Proof. intros Ha. unfold noted. destruct (note o (ambiguous a) (view a)) as [[l amb] v]. by eapply same_trace_inv. Qed.
Lemma noted_status o a : status (noted o a) = status a.
Proof. unfold noted. by destruct (note o (ambiguous a) (view a)) as [[l amb] v]. Qed.

Lemma announce_inv (w : TurnInput F) a : agent_inv true a ->
  agent_inv true (announce cfg w a) /\ transport (status (announce cfg w a)) = transport (status a) /\
  registered_since (status (announce cfg w a)) = Some (clock w) /\ last_seen (status (announce cfg w a)) = Some (clock w).
Proof.
  intros Ha. unfold announce. set (a1 := with_policy _ (noted Succeeded a)).
  assert (agent_inv true a1) as H1 by (apply (same_trace_inv true (noted Succeeded a)); [by apply noted_inv|done..]).
  assert (status a1 = status a) as E1 by apply noted_status.
  set (a2 := match hostname cfg with Some host => if browser_forward cfg then did (SpawnsHostBind host) a1 else a1 | None => a1 end).
  assert (agent_inv true a2 /\ status a2 = status a1) as [H2 E2].
  { unfold a2. destruct (hostname cfg), (browser_forward cfg); try done. split; [by apply (did_inv true)|done]. }
  split_and!; [|simpl; by rewrite E2, E1|done..].
  apply (did_inv true); [apply (same_trace_inv true a2); done|done..].
Qed.

Lemma dropped_idle (w : TurnInput F) a : agent_inv false a -> idle (connection_dropped w a).
Proof.
  intros Ha. split; [|done]. unfold connection_dropped. set (a1 := with_status _ a).
  apply (same_trace_inv false (did (Emits (Disconnected (default "edge connection dropped"%string (close_reason w)))) a1)); [|done..].
  apply (did_inv false); [by apply (same_trace_inv false a)|done..].
Qed.

Lemma serve_idle (w : TurnInput F) a :
  agent_inv true a -> (transport (status a) = "quic" \/ transport (status a) = "masque")%string -> idle (turn_agent (serve cfg w a)).
Proof.
  intros Ha Ht. unfold serve. destruct (announce_inv w a Ha) as (H1 & Et & Er & El).
  apply retry_or_idle, dropped_idle, (serve_inv (session w) (announce cfg w a)); [done|]. unfold entry_ok, registered.
  change (status (did (Serves (session w)) (announce cfg w a))) with (status (announce cfg w a)). cbn [fst snd]. by rewrite Et, Er, El.
Qed.

Lemma register_and_serve_idle (w : TurnInput F) pre a :
  agent_inv pre a -> (transport (status a) = "quic" \/ transport (status a) = "masque")%string ->
  idle (turn_agent (register_and_serve cfg pre w a)).
Proof.
  intros Ha Ht. unfold register_and_serve, register. destruct pre; [by apply serve_idle|].
  destruct (register_tunnel (token cfg) (ack w)) as [msg [u|e]].
  - apply serve_idle; [by apply (did_inv false)|done].
  - apply retry_or_idle. unfold register_failed. set (a1 := noted _ _).
    assert (agent_inv false a1) as H1 by (apply noted_inv; by apply (did_inv false)).
    split; [|done]. set (a2 := failed _ _).
    apply (same_trace_inv false a2); [|done..]. apply failed_inv. by apply (same_trace_inv false a1).
Qed.

Lemma masque_inv m a b a' : agent_inv false a -> try_dial_via_masque m a = (b, a') -> agent_inv false a'.
Proof.
  intros Ha. unfold try_dial_via_masque. destruct m as [m|]; [|by intros [= _ <-]].
  assert (agent_inv false (did DialsMasque a)) as H1 by (by apply (did_inv false)).
  destruct (first_dial m) as [|e]; [by intros [= _ <-]|].
  destruct (moved m); simpl; [destruct (second_dial m)|]; intros [= _ <-]; try (apply failed_inv); try done; by apply (did_inv false).
Qed.

Lemma agent_turn_idle (w : TurnInput F) a : idle a -> idle (turn_agent (agent_turn cfg w a)).
Proof.
  intros [Ha _]. unfold agent_turn. assert (agent_inv false (did DialsQuic a)) as H1 by (by apply (did_inv false)).
  destruct (quic_dial w) as [|e].
  { apply register_and_serve_idle; [by apply switch_inv|left; apply switch_transport_transport]. }
  destruct (try_dial_via_masque (masque w) _) as [b a1] eqn:Em. apply masque_inv in Em; [|by apply failed_inv]. destruct b.
  { apply register_and_serve_idle; [by apply switch_inv|right; apply switch_transport_transport]. }
  assert (agent_inv false (switch_transport "tcp-fallback" a1)) as H2 by (by apply switch_inv).
  pose proof (switch_transport_transport "tcp-fallback" a1) as Et. set (a2 := switch_transport "tcp-fallback" a1) in *.
  destruct (pool_end w).
  - apply register_and_serve_idle; [|left; apply switch_transport_transport]. apply switch_inv.
    apply (same_trace_inv true (did (RunsFallback (reprobe_policy_after (quic_flaps a2)) true) a2)); [|done..].
    by apply (did_inv false).
  - apply retry_or_idle. split; [|done]. unfold all_gave_up. set (a3 := after_pool _ _).
    apply (same_trace_inv false (did (Emits FallbackExhausted) a3)); [|done..]. apply (did_inv false); [|done..].
    apply (same_trace_inv false (did (RunsFallback (reprobe_policy_after (quic_flaps a2)) false) a2)); [|done..].
    by apply (did_inv false).
Qed.

Lemma run_agent_idle (ws : list (TurnInput F)) : forall a, idle a -> idle (turn_agent (run_agent cfg ws a).1.1).
Proof.
  induction ws as [|w ws IH]; intros a Ha; simpl; [done|].
  pose proof (agent_turn_idle w a Ha) as Ht. destruct (agent_turn cfg w a) as [d a'|e a']; [|done].
  specialize (IH a' Ht). by destruct (run_agent cfg ws a') as [[e n] slept].
Qed.
Lemma new_agent_idle p : idle (new_agent p).
Proof. split; [|done]. split; try done. intros pre st q r post E. by destruct pre. Qed.

(** The agent serves only what it registered, and says so.  Whatever the dials, the edge, the
    fallback pools and the sessions do: accepted registrations - its own or the one a fallback pool
    hands over - and sessions alternate, so no connection is served unregistered and none is
    registered twice; while it serves, the status reads registered over QUIC or MASQUE and healthy
    for the next [HEALTHZ_MAX_SILENCE_SECS] at least; a fallback pool runs under the status
    [tcp-fallback]; and between two turns, or when it gave up, nothing reads registered. *)
Theorem agent_serves_only_registered (ws : list (TurnInput F)) p :
  let a := turn_agent (run_agent cfg ws (new_agent p)).1.1 in
  alternates false (steps a) = Some false /\
  (forall st d, (st, Serves d) ∈ trace a ->
     (transport st = "quic" \/ transport st = "masque")%string /\
     exists t, registered_since st = Some t /\ forall now, now < t + HEALTHZ_MAX_SILENCE_SECS -> healthz_at now st = Ok tt) /\
  (forall st q r, (st, RunsFallback q r) ∈ trace a -> transport st = "tcp-fallback"%string) /\
  registered (status a) = false.
Proof.
  intros a. destruct (run_agent_idle ws (new_agent p) (new_agent_idle p)) as [[H1 H2 _ _] Hr]. fold a in H1, H2, Hr.
  rewrite Forall_forall in H2. split_and!; [done| | |done].
  - intros st d Hin. apply H2 in Hin as (Hreg & Hseen & Ht). simpl in *. split; [done|]. unfold registered in Hreg.
    apply bool_decide_eq_true in Hreg as [t Et]. exists t. split; [done|]. intros now Hnow.
    unfold healthz_at, registered. rewrite Hseen, Et. simpl.
    destruct (Z.ltb_spec (sat_sub now t) HEALTHZ_MAX_SILENCE_SECS) as [_|Hs]; [done|]. unfold sat_sub, HEALTHZ_MAX_SILENCE_SECS in *. lia.
  - intros st q r Hin. by apply H2 in Hin.
Qed.

(** QUIC has to earn its trust back.  Every stint on the fallback probes QUIC under a policy that
    follows from the sessions before it alone: after [k] short sessions in a row - failed dials, other
    stints and refusals change nothing - the interval is 30 seconds doubled [k] times, at most 4, so
    never over 8 minutes, and one answered probe is enough only if the last session was not short. *)
Theorem quic_trust_is_earned (ws : list (TurnInput F)) p pre st q r post :
  trace (turn_agent (run_agent cfg ws (new_agent p)).1.1) = pre ++ (st, RunsFallback q r) :: post ->
  let k := short_streak (map snd pre) in
  interval q = 30 * SECOND * 2 ^ Z.min (Z.of_nat k) 4 /\ interval q <= 480 * SECOND /\
  (confirmations q = 1 <-> k = 0%nat) /\ (confirmations q = 2 <-> k <> 0%nat).
Proof.
  intros E k. destruct (run_agent_idle ws (new_agent p) (new_agent_idle p)) as [[_ _ _ H4] _].
  specialize (H4 _ _ _ _ _ E). fold k in H4. subst q. unfold reprobe_policy_after, flaps_of, QUIC_REPROBE_INTERVAL, QUIC_REPROBE_MAX_DOUBLINGS.
  cbn [interval confirmations].
  assert (Z.min (Z.min U32_MAX (Z.of_nat k)) 4 = Z.min (Z.of_nat k) 4) as -> by (unfold U32_MAX; lia).
  split; [done|]. split.
  - assert (2 ^ Z.min (Z.of_nat k) 4 <= 2 ^ 4) by (apply Z.pow_le_mono_r; lia). unfold SECOND. lia.
  - destruct (Z.eqb_spec (Z.min U32_MAX (Z.of_nat k)) 0) as [Hk|Hk]; unfold U32_MAX in Hk; split; split; intros; lia.
Qed.
End Turns.

(** ** The budgets *)

Lemma switch_policy t a : policy (switch_transport t a) = policy a.
Proof. unfold switch_transport. simpl. by destruct (String.eqb _ t). Qed.
Lemma noted_policy o a : policy (noted o a) = policy a.
Proof. unfold noted. by destruct (note o (ambiguous a) (view a)) as [[l amb] v]. Qed.
Lemma masque_policy m a : policy (try_dial_via_masque m a).2 = policy a.
Proof.
  unfold try_dial_via_masque. destruct m as [m|]; [|done]. destruct (first_dial m); [done|].
  destruct (moved m); simpl; [|done]. by destruct (second_dial m).
Qed.

Section Budgets.
Context {F : Type} `{JitterLaws F} (cfg : AgentConfig).

(** Every turn ends in one step of the budget, which an accepted registration refilled or not. *)
Definition refilled (a0 a : Agent) : Prop := policy a0 = policy a \/ policy a0 = reset (policy a).

Lemma serve_retry (w : TurnInput F) a : exists g a0, serve cfg w a = retry_or g w a0 /\ refilled a0 a.
Proof.
  eexists _, _. split; [reflexivity|]. right.
  change (policy (announce cfg w a) = reset (policy a)). rewrite <-(noted_policy Succeeded a). unfold announce.
  by destruct (hostname cfg), (browser_forward cfg).
Qed.
Lemma register_and_serve_retry (w : TurnInput F) pre a :
  exists g a0, register_and_serve cfg pre w a = retry_or g w a0 /\ refilled a0 a.
Proof.
  unfold register_and_serve, register. destruct pre; [apply serve_retry|].
  destruct (register_tunnel (token cfg) (ack w)) as [msg [u|e]]; [apply (serve_retry w (did _ a))|].
  eexists _, _. split; [reflexivity|]. left. unfold register_failed.
  change (policy (noted (classify_failure (is_registration_refusal e) true) (did (Registers (tunnel_message "A" (token cfg)) false) a)) = policy a).
  by rewrite noted_policy.
Qed.
Lemma agent_turn_retry (w : TurnInput F) a : exists g a0, agent_turn cfg w a = retry_or g w a0 /\ refilled a0 a.
Proof.
  unfold agent_turn. destruct (quic_dial w) as [|e].
  { destruct (register_and_serve_retry w false (switch_transport "quic" (did DialsQuic a))) as (g & a3 & E & Hr).
    exists g, a3. unfold refilled in *. rewrite switch_policy in Hr. by split. }
  pose proof (masque_policy (masque w) (failed ("edge dial failed: " +:+ e)%string (did DialsQuic a))) as Ep.
  destruct (try_dial_via_masque (masque w) _) as [b a1]. simpl in Ep. destruct b.
  { destruct (register_and_serve_retry w false (switch_transport "masque" a1)) as (g & a3 & E & Hr).
    exists g, a3. unfold refilled in *. rewrite switch_policy, Ep in Hr. by split. }
  set (p := reprobe_policy_after _). destruct (pool_end w).
  - destruct (register_and_serve_retry w true (switch_transport "quic" (quic_recovered w p (switch_transport "tcp-fallback" a1)))) as (g & a3 & E & Hr).
    exists g, a3. split; [exact E|]. unfold refilled in *. rewrite switch_policy in Hr. simpl in Hr. rewrite switch_policy, Ep in Hr.
    destruct Hr as [->| ->]; by right.
  - eexists _, _. split; [reflexivity|]. left. simpl. by rewrite switch_policy, Ep.
Qed.

Lemma turn_budget (w : TurnInput F) a : paced (policy a) ->
  match agent_turn cfg w a with
  | GoRound d a' => 50 * MILLI <= d <= max (policy a) /\ paced (policy a') /\ max (policy a') = max (policy a) /\
      attempt (policy a') <= attempt (policy a) + 1 /\ max_attempts (policy a') = max_attempts (policy a)
  | Exits _ _ => max_attempts (policy a) <= attempt (policy a)
  end.
Proof.
  intros Hp. destruct (agent_turn_retry w a) as (g & a0 & -> & Hr).
  assert (paced (policy a0) /\ max (policy a0) = max (policy a) /\ attempt (policy a0) <= attempt (policy a) /\
    max_attempts (policy a0) = max_attempts (policy a)) as (Hp0 & Em & Ha & Ema).
  { destruct Hr as [->| ->]; [done|]. destruct Hp as (? & ? & ? & ?). unfold paced. split_and!; simpl; lia. }
  unfold retry_or, after_failure. pose proof (jittered_paced (rand01 w) (policy a0) Hp0) as Hj.
  destruct (next_delay_jittered (rand01 w) (policy a0)) as [[d|] p']; simpl; [|lia].
  destruct Hj as (Hd & Hp' & Em' & Ha' & Hma'). split_and!; try done; lia.
Qed.

(** The agent keeps trying, at a pace.  With any environment whose cap is at most 2^50
    nanoseconds, [n] turns of the loop sleep at least [(n - 1) * 50] milliseconds and at most
    [(n - 1)] times the cap, so an edge that is back is dialed again within the cap; and the agent
    exits only after more turns than the attempts configured - by default after 2^32 turns. *)
Theorem agent_keeps_trying base_ms max_ms attempts (ws : list (TurnInput F)) e n slept :
  let b := from_env base_ms max_ms attempts in
  max b <= 2 ^ 50 ->
  run_agent cfg ws (new_agent b) = (e, n, slept) ->
  (Z.of_nat n - 1) * (50 * MILLI) <= slept <= Z.of_nat n * max b /\
  match e with
  | Exits _ _ => parse_reconnect_max_attempts attempts < Z.of_nat n
  | GoRound _ _ => n = length ws
  end.
Proof.
  intros b Hm E.
  assert (forall a e n slept, paced (policy a) -> run_agent cfg ws a = (e, n, slept) ->
    (Z.of_nat n - 1) * (50 * MILLI) <= slept <= Z.of_nat n * max (policy a) /\
    match e with
    | Exits _ _ => max_attempts (policy a) - attempt (policy a) < Z.of_nat n
    | GoRound _ _ => n = length ws
    end) as Hrun.
  { clear -H0. induction ws as [|w ws IH]; intros a e n slept Hp E; simpl in E; [simplify_eq; split; [unfold MILLI; lia|done]|].
    pose proof (turn_budget w a Hp) as Ht. assert (0 <= max (policy a)) as Hmax by (destruct Hp as (H1 & ? & _); unfold RECONNECT_BASE_FLOOR, MILLI in *; lia).
    destruct (agent_turn cfg w a) as [d a'|x a'].
    - destruct (run_agent cfg ws a') as [[e' n'] s'] eqn:Er. simplify_eq. destruct Ht as (Hd & Hp' & Em & Ha & Hma).
      destruct (IH _ _ _ _ Hp' Er) as [G1 G2]. rewrite Em in G1. split; [split; [lia|nia]|].
      destruct e; simpl; lia.
    - simplify_eq. split; [unfold MILLI; lia|lia]. }
  destruct (Hrun (new_agent b) e n slept (from_env_paced _ _ _ Hm) E) as [G1 G2]. split; [exact G1|].
  destruct e; [exact G2|]. simpl in G2. unfold b, from_env in G2. destruct (parse_reconnect_backoff_bounds base_ms max_ms). simpl in G2. lia.
Qed.

(** The hostname's retries still ahead after [8 - m] failures, in seconds. *)
Fixpoint bind_budget (m : nat) : Z :=
  match m with O => 0 | S k => Z.min (2 ^ (8 - Z.of_nat m)) 15 + bind_budget k end.

Lemma bind_budget_nonneg m : 0 <= bind_budget m.
Proof. induction m as [|m IH]; [done|]. cbn [bind_budget]. pose proof (Z.pow_nonneg 2 (8 - Z.of_nat (S m)) ltac:(lia)). lia. Qed.

Definition bind_policy (m : nat) : Backoff :=
  {| base := HOST_BIND_RETRY_BASE; max := HOST_BIND_RETRY_MAX; max_attempts := HOST_BIND_RETRY_ATTEMPTS; attempt := 8 - Z.of_nat m |}.
Lemma bind_delay (r : F) m :
  (m <= 8)%nat ->
  match m with
  | O => (next_delay_jittered r (bind_policy m)).1 = None
  | S k => exists d, next_delay_jittered r (bind_policy m) = (Some d, bind_policy k) /\ 0 <= d <= Z.min (2 ^ (8 - Z.of_nat m)) 15 * SECOND
  end.
Proof.
  intros Hm. unfold next_delay_jittered. rewrite next_delay_spec by (simpl; unfold HOST_BIND_RETRY_BASE, HOST_BIND_RETRY_MAX, DURATION_MAX, SECOND; lia).
  cbn [bind_policy base max max_attempts attempt]. unfold HOST_BIND_RETRY_ATTEMPTS.
  destruct m as [|k]; [done|]. destruct (Z.leb_spec 8 (8 - Z.of_nat (S k))) as [|_]; [lia|].
  rewrite (Z.min_l (8 - Z.of_nat (S k)) 31) by lia. pose proof (Z.pow_nonneg 2 (8 - Z.of_nat (S k)) ltac:(lia)) as Hp.
  set (d := Z.min _ HOST_BIND_RETRY_MAX). eexists. split.
  { unfold bind_policy. simpl. do 2 f_equal. f_equal. unfold HOST_BIND_RETRY_ATTEMPTS. lia. }
  assert (0 <= d <= Z.min (2 ^ (8 - Z.of_nat (S k))) 15 * SECOND) as Hd
    by (unfold d, HOST_BIND_RETRY_BASE, HOST_BIND_RETRY_MAX, SECOND; lia).
  assert (d <= 2 ^ 50) as Hd' by (unfold d, HOST_BIND_RETRY_MAX, SECOND; lia).
  destruct (equal_jitter_range d r ltac:(lia)) as [H1 H2]. assert (0 <= d / 2) by (apply Z.div_pos; lia). lia.
Qed.

Lemma bind_loop_bounded host (answers : list (Reply * bool * F)) : forall m ds e,
  (m <= 8)%nat -> bind_loop cfg host answers (bind_policy m) = (ds, e) ->
  (length ds <= m)%nat /\ 0 <= foldr Z.add 0 ds <= bind_budget m * SECOND /\ ((m < length answers)%nat -> e <> StillTrying).
Proof.
  assert (forall m l e, ((m < l)%nat -> e <> StillTrying) ->
    (length ([] : list Z) <= m)%nat /\ 0 <= foldr Z.add 0 [] <= bind_budget m * SECOND /\ ((m < l)%nat -> e <> StillTrying)) as Hnil.
  { intros m l e He. pose proof (bind_budget_nonneg m). simpl. unfold SECOND. split_and!; [lia..|done]. }
  induction answers as [|[[reply gone] r] answers IH]; intros m ds e Hm E; simpl in E.
  { simplify_eq. apply Hnil. simpl. lia. }
  destruct (bind_hostname (token cfg) host reply).2; [by simplify_eq; apply Hnil|].
  destruct gone; [by simplify_eq; apply Hnil|].
  pose proof (bind_delay r m Hm) as Hd. destruct m as [|m].
  { destruct (next_delay_jittered r (bind_policy 0)) as [d b]. simpl in Hd. subst d. by simplify_eq; apply Hnil. }
  destruct Hd as (d & Ed & Hd). rewrite Ed in E. destruct (bind_loop cfg host answers (bind_policy m)) as [ds' e'] eqn:El. simplify_eq.
  destruct (IH m ds' e ltac:(lia) El) as (G1 & G2 & G3). cbn [bind_budget foldr length]. split_and!; [lia|lia|lia|]. intros Hl. apply G3. lia.
Qed.

(** Binding the hostname ends.  However the edge answers: with nine answers the retries are over -
    bound, the connection gone, or given up - after at most eight sleeps of at most 75 seconds in
    all, the window the source names. *)
Theorem host_bind_ends host (answers : list (Reply * bool * F)) ds e :
  bind_hostname_with_retry cfg host answers = (ds, e) -> (9 <= length answers)%nat ->
  e <> StillTrying /\ (length ds <= 8)%nat /\ foldr Z.add 0 ds <= 75 * SECOND.
Proof.
  intros E Hl. destruct (bind_loop_bounded host answers 8 ds e ltac:(lia) E) as (H1 & H2 & H3).
  change (bind_budget 8) with 75 in H2. split_and!; [apply H3; lia|done|lia].
Qed.
End Budgets.

(** ** The theorems at work *)

(** A QUIC session of ten seconds, then UDP is blocked and the fallback runs until QUIC answers. *)
Definition demo_input (quic : result unit string) : TurnInput Z :=
  {| quic_dial := quic; masque := None; pool_end := QuicRecovered ∅; pool_status := fun s => s; ack := Arrived (ch "OK");
     error_text := fun _ => ""%string; clock := 1000; session := 10 * SECOND; close_reason := None; rand01 := 0 |}.
Definition demo_inputs : list (TurnInput Z) := [demo_input (Ok tt); demo_input (Err "blocked"%string)].
#[local] Notation demo_agent_run := (run_agent demo_cfg demo_inputs (new_agent (from_env None None None))).

Example demo_steps :
  map (fun x => match x with Serves _ => 1%nat | RunsFallback _ _ => 2%nat | _ => 0%nat end) (steps (turn_agent demo_agent_run.1.1))
  = [0; 0; 0; 0; 1; 0; 0; 0; 0; 2; 0; 0; 1; 0]%nat.
Proof. by vm_compute. Qed.
Lemma demo_stint : exists pre st q r post,
  trace (turn_agent demo_agent_run.1.1) = pre ++ (st, RunsFallback q r) :: post /\ short_streak (map snd pre) = 1%nat.
Proof.
  exists (take 9 (trace (turn_agent demo_agent_run.1.1))). eexists _, _, _, (drop 10 (trace (turn_agent demo_agent_run.1.1))).
  split; [vm_compute; reflexivity|by vm_compute].
Qed.

Lemma quic_trust_is_earned_witness :
  exists pre st q r post, trace (turn_agent demo_agent_run.1.1) = pre ++ (st, RunsFallback q r) :: post /\ confirmations q = 2.
Proof.
  destruct demo_stint as (pre & st & q & r & post & E & Hk). exists pre, st, q, r, post. split; [exact E|].
  destruct (quic_trust_is_earned demo_cfg demo_inputs (from_env None None None) pre st q r post E) as (_ & _ & _ & H2). apply H2. rewrite Hk. discriminate.
Defined.
Lemma agent_keeps_trying_witness :
  exists e n slept, demo_agent_run = (e, n, slept) /\ (Z.of_nat n - 1) * (50 * MILLI) <= slept.
Proof.
  destruct demo_agent_run as [[e n] slept] eqn:E. exists e, n, slept. split; [exact eq_refl|].
  refine (proj1 (proj1 (agent_keeps_trying demo_cfg None None None demo_inputs e n slept _ E))). vm_compute. discriminate.
Defined.
Lemma host_bind_ends_witness :
  exists ds e, bind_hostname_with_retry demo_cfg "host.example" (repeat (Arrived (ch "NO"), false, 0) 9) = (ds, e) /\
    length ds = 8%nat /\ foldr Z.add 0 ds <= 75 * SECOND.
Proof.
  destruct (bind_hostname_with_retry demo_cfg "host.example" (repeat (Arrived (ch "NO"), false, 0) 9)) as [ds e] eqn:E.
  exists ds, e. split; [exact eq_refl|]. pose proof E as E'. vm_compute in E'. split; [by injection E' as <- _|].
  refine (proj2 (proj2 (host_bind_ends demo_cfg _ _ ds e E _))). simpl. lia.
Defined.
