(* ===== verification/SshOwner.v ===== *)
(** * SshOwner: the owner key of an SSH tunnel ([ssh_owner.rs])

    The key file of the state directory (on [SecretFile]'s disk), the policy from the environment,
    and the preamble that the agent and [ct-agent ssh] run inside the terminated TLS session: both
    halves, over a stream.  HMAC-SHA256 and the random bytes come from outside. *)
From S2P Require Import Prelude Text Codec EnvFlag SecretFile.

#[local] Open Scope Z_scope.

Definition OWNER_KEY_FILE : string := "ssh-owner.key".
Definition OWNER_AUTH_ENV : string := "CT_AGENT_SSH_OWNER_AUTH".
Definition MAGIC : list byte := as_bytes "CTSSH1".
Definition VERSION : byte := Byte.x01.
Definition DOMAIN : list byte := as_bytes "ct-agent-ssh-owner-v1".
Definition NONCE_LEN : nat := 32.
Definition TAG_LEN : nat := 32.
Definition CHALLENGE_LEN : nat := length MAGIC + 1 + NONCE_LEN.

(** ** The key as text *)

(** [OwnerKey]: 32 bytes. *)
Notation OwnerKey := (list byte) (only parsing).

Definition to_hex (k : OwnerKey) : string := hex_encode k.
Definition from_hex (s : string) : result OwnerKey string :=
  let t := trim s in
  if negb (String.length t =? 64)%nat || negb (forall_char is_ascii_hexdigit t) then Err "owner key must be 64 hex digits"%string
  else ok_or (hex_pairs (String.list_ascii_of_string t)) "invalid digit found in string"%string.

(** ** The key file *)

Inductive OwnerError := BadKey (why : string) | AtPath (e : IoError) | AtDir (e : IoError) | AtTemp (e : IoError).

Section KeyFile.
(** A link is read where it leads, outside the directory. *)
Context (outside : string -> result (list byte) IoError).

Definition read_to_string (name : string) : IO IoError string :=
  call unchanged (fun d =>
    (let* bytes := match dir d !! name with
      | Some (File i) => ok_or (content <$> inodes d !! i) NotFound
      | Some (Symlink target) => outside target
      | None => Err NotFound
      end in
     if utf8_valid bytes then Ok (String.string_of_list_byte bytes) else Err (Os "stream did not contain valid UTF-8"), d)).

Definition load (path : string) : IO OwnerError (option OwnerKey) :=
  text ← attempt (read_to_string path);
  match text with
  | Ok s => match from_hex s with Ok k => mret (Some k) | Err e => throw (BadKey e) end
  | Err NotFound => mret None
  | Err e => throw (AtPath e)
  end.

(** [Path::with_extension] of a file name. *)
Definition with_extension (name ext : string) : string :=
  match rsplit_once "." name with
  | Some (stem, _) => if is_empty stem then (name +:+ "." +:+ ext)%string else (stem +:+ "." +:+ ext)%string
  | None => (name +:+ "." +:+ ext)%string
  end.

(** Creating the directory and setting its mode leave the names in it alone. *)
Definition on_the_directory : IO IoError unit := call unchanged (fun d => (Ok tt, d)).

Definition save (k : OwnerKey) (path : string) : IO OwnerError unit :=
  let tmp := with_extension path "key.tmp" in
  _ ← io_map_err AtDir on_the_directory;
  _ ← attempt (E := IoError) on_the_directory;
  removed ← attempt (remove_file tmp);
  match removed with
  | Err NotFound | Ok _ =>
      f ← io_map_err AtTemp (create_new tmp 384);
      _ ← io_map_err AtTemp (_ ← write_all f (as_bytes (to_hex k)); write_all f [Byte.x0a]);
      _ ← io_map_err AtTemp (sync_all f);
      _ ← io_map_err AtPath (rename tmp path);
      _ ← attempt (E := IoError) (set_permissions path 384);
      mret tt
  | Err e => throw (AtTemp e)
  end.

(** [generate]'s random bytes are given. *)
Definition load_or_generate (random : OwnerKey) : IO OwnerError (OwnerKey * bool) :=
  found ← load OWNER_KEY_FILE;
  match found with
  | Some k => mret (k, false)
  | None => _ ← save random OWNER_KEY_FILE; mret (random, true)
  end.

(** ** The policy *)

Inductive OwnerAuth := Required (k : OwnerKey) | Off.
Inductive PolicyError := NoStateDir | KeyFile (e : OwnerError).

(** The warning of an unrecognised value goes through the list of keys already reported. *)
Definition owner_auth_disabled (warned : list string) (value : option string) : bool * list string :=
  let '(on, warned, _) := flag_named warned OWNER_AUTH_ENV value true in (negb on, warned).
(** The disk is the one of [state_dir]. *)
Definition owner_auth_from_env (warned : list string) (value : option string) (state_dir : option string) (random : OwnerKey)
  : IO PolicyError (OwnerAuth * bool) :=
  if (owner_auth_disabled warned value).1 then mret (Off, false)
  else
    match state_dir with
    | Some _ => '(k, generated) ← io_map_err KeyFile (load_or_generate random); mret (Required k, generated)
    | None => throw NoStateDir
    end.
End KeyFile.

(** ** The preamble *)

Definition challenge_frame (nonce : list byte) : list byte := MAGIC ++ [VERSION] ++ nonce.
Definition starts_with_magic (head : list byte) : bool :=
  (length MAGIC <=? length head)%nat && bool_decide (take (length MAGIC) head = MAGIC).
Definition parse_challenge (frame : list byte) : result (list byte) string :=
  if negb (length frame =? CHALLENGE_LEN)%nat || negb (starts_with_magic frame) then Err "malformed owner-auth challenge"%string
  else
    match frame !! length MAGIC with
    | Some v =>
        if bool_decide (v = VERSION) then Ok (drop (length MAGIC + 1) frame)
        else Err ("unsupported owner-auth version " +:+ show (u8 v))%string
    | None => Err "malformed owner-auth challenge"%string
    end.

(** One end of the stream: what arrives and how that ends, what the writes and flushes to come
    answer (all well when the list is empty) and what was sent.  A failing write may have sent a
    part. *)
Inductive ReadEnd := Closed (e : string) | Silent.
Record Wire := { arrives : list byte; ends : ReadEnd; writes : list (option (string * nat)); sent : list byte }.
Definition HS (A : Type) : Type := Wire -> result A string * Wire.
#[global] Instance hs_ret : MRet HS := fun A a s => (Ok a, s).
#[global] Instance hs_bind : MBind HS := fun A B f m s =>
  match m s with
  | (Ok a, s) => f a s
  | (Err e, s) => (Err e, s)
  end.
Definition hs_fail {A} (e : string) : HS A := fun s => (Err e, s).
Definition lift {A} (r : result A string) : HS A := fun s => (r, s).

Definition colon (what e : string) : string := (what +:+ ": " +:+ e)%string.
Definition send (what : string) (bytes : list byte) : HS unit := fun s =>
  let go r k := (r, {| arrives := arrives s; ends := ends s; writes := tail (writes s); sent := sent s ++ take k bytes |}) in
  match writes s with
  | Some (e, k) :: _ => go (Err (colon what e)) k
  | _ => go (Ok tt) (length bytes)
  end.
Definition flush (what : string) : HS unit := send what [].
(** [let _ = ..]: the result of a call is dropped. *)
Definition ignore (m : HS unit) : HS unit := fun s => (Ok tt, (m s).2).

Definition read_exact_timeout (n : nat) (what : string) : HS (list byte) := fun s =>
  let rest l := {| arrives := l; ends := ends s; writes := writes s; sent := sent s |} in
  if (n <=? length (arrives s))%nat then (Ok (take n (arrives s)), rest (drop n (arrives s)))
  else
    (Err (match ends s with
          | Closed e => colon what e
          | Silent => colon what "no data within 10s"
          end), rest []).

Definition OWNER_AUTH_REQUIRED : string :=
  "the agent requires owner authentication (#214): run `ct-agent ssh-owner show` on the agent host and pass the key with --owner-key-file <file> (or CT_AGENT_SSH_OWNER_KEY); see `ct-agent ssh-config --owner-key`".

Inductive ClientPreamble := Authenticated | Passthrough (head : list byte).

Section Handshake.
Context (hmac : list byte -> list byte -> list byte).

Definition tag (k : OwnerKey) (nonce : list byte) : list byte := hmac k (DOMAIN ++ nonce).
Definition verify (k : OwnerKey) (nonce t : list byte) : bool := bool_decide (hmac k (DOMAIN ++ nonce) = t).

Definition server_handshake (nonce : list byte) (k : OwnerKey) : HS unit :=
  _ ← send "owner-auth challenge" (challenge_frame nonce);
  _ ← flush "owner-auth challenge";
  t ← read_exact_timeout TAG_LEN "owner-auth response";
  if verify k nonce t then
    _ ← send "owner-auth verdict" [Byte.x01];
    flush "owner-auth verdict"
  else
    _ ← ignore (send "" [Byte.x00]);
    _ ← ignore (flush "");
    hs_fail "owner authentication failed (wrong or missing owner key)".

Definition client_handshake (key : option OwnerKey) : HS ClientPreamble :=
  head ← read_exact_timeout (length MAGIC) "waiting for the agent's first bytes";
  if negb (starts_with_magic head) then mret (Passthrough head)
  else
    rest ← read_exact_timeout (CHALLENGE_LEN - length MAGIC) "owner-auth challenge";
    nonce ← lift (parse_challenge (head ++ rest));
    k ← lift (ok_or key OWNER_AUTH_REQUIRED);
    _ ← send "owner-auth response" (tag k nonce);
    _ ← flush "owner-auth response";
    verdict ← read_exact_timeout 1 "owner-auth verdict";
    if bool_decide (verdict = [Byte.x01]) then mret Authenticated
    else hs_fail "owner authentication refused by the agent (wrong owner key for this hostname?)".
End Handshake.

(** ** The key text reads back *)

Lemma hex_char_hexdigit c : hex_char c = true -> is_ascii_hexdigit c = true.
Proof.
  unfold hex_char, is_ascii_hexdigit, is_ascii_digit. intros [->| ->]%orb_true_iff; [done|]. by rewrite !orb_true_r.
Qed.

Lemma from_hex_trim s k : length k = 32%nat -> trim s = to_hex k -> from_hex s = Ok k.
Proof.
  intros Hl Ht. unfold from_hex. rewrite Ht. unfold to_hex. rewrite hex_encode_length, Hl. cbn [Nat.mul Nat.add Nat.eqb negb orb].
  replace (forall_char is_ascii_hexdigit (hex_encode k)) with true.
  - pose proof (hex_decode_encode 32 k Hl) as Hd. unfold hex_decode in Hd.
    rewrite list_ascii_length, hex_encode_length, Hl in Hd. cbn [negb orb]. case_decide; [lia|]. by rewrite Hd.
  - symmetry. pose proof (hex_encode_chars k) as Hc. unfold forall_char in *. rewrite forallb_forall in *.
    intros x Hx. by apply hex_char_hexdigit, Hc.
Qed.

Lemma to_hex_ends k : k <> [] -> exists a t m z, String.list_ascii_of_string (to_hex k) = a :: t /\
  String.list_ascii_of_string (to_hex k) = m ++ [z] /\ visible a = true /\ visible z = true.
Proof.
  intros Hk. pose proof (hex_visible k) as Hv. unfold to_hex, forall_char in *. rewrite forallb_forall in Hv.
  pose proof (list_ascii_length (hex_encode k)) as Hl. rewrite hex_encode_length in Hl.
  destruct (String.list_ascii_of_string (hex_encode k)) as [|a t] eqn:E; [destruct k; simpl in *; [done|lia]|].
  destruct (exists_last (l := a :: t)) as (m & z & Ez); [done|].
  exists a, t, m, z. split; [done|]. split; [done|]. split; apply Hv; [by left|]. rewrite Ez. apply in_app_iff. by right; left.
Qed.

Lemma ascii_utf8 l : Forall (fun b => u8 b <= 127) l -> utf8_valid l = true.
Proof.
  induction 1 as [|b l Hb _ IH]; [done|]. cbn [utf8_valid]. by rewrite (proj2 (Z.leb_le _ _) Hb).
Qed.
Lemma u8_byte_of_ascii a : u8 (byte_of_ascii a) = code a.
Proof.
  unfold u8, code. f_equal. pose proof (byte_of_ascii_via_N a) as E. symmetry in E.
  apply Byte.to_of_N in E. done.
Qed.

(** What [save] writes: the key in hexadecimal and a line feed. *)
Definition key_text (k : OwnerKey) : list byte := as_bytes (to_hex k) ++ [Byte.x0a].

Lemma key_text_utf8 k : utf8_valid (key_text k) = true.
Proof.
  apply ascii_utf8. apply Forall_app. split; [|by repeat constructor].
  unfold as_bytes, String.list_byte_of_string. apply Forall_map, Forall_forall. intros a Ha. simpl. rewrite u8_byte_of_ascii.
  pose proof (hex_encode_chars k) as Hc. unfold forall_char in Hc. rewrite forallb_forall in Hc.
  apply list_elem_of_In, Hc in Ha. unfold hex_char in Ha. apply orb_true_iff in Ha. rewrite !between_spec in Ha. lia.
Qed.

Lemma key_text_string k : String.list_ascii_of_string (String.string_of_list_byte (key_text k)) =
  String.list_ascii_of_string (to_hex k) ++ ["010"%char].
Proof.
  unfold String.string_of_list_byte. rewrite list_ascii_of_string_of. unfold key_text. rewrite map_app. f_equal.
  unfold as_bytes, String.list_byte_of_string. rewrite map_map. rewrite (map_ext _ id), map_id; [done|].
  intros x. apply ascii_of_byte_of_ascii.
Qed.

Lemma key_text_reads_back k : length k = 32%nat -> from_hex (String.string_of_list_byte (key_text k)) = Ok k.
Proof.
  intros Hl. apply from_hex_trim; [done|].
  destruct (to_hex_ends k) as (a & t & m & z & E1 & E2 & Ha & Hz); [by destruct k|].
  unfold trim. rewrite key_text_string, E1. cbn [app]. rewrite trim_start_visible by done.
  rewrite app_comm_cons, <-E1, E2, reverse_snoc. cbn [trim_end_l]. rewrite reverse_snoc.
  transitivity (String.string_of_list_ascii (reverse (trim_end_l (z :: reverse m)))).
  - destruct m; done.
  - rewrite trim_end_visible, <-reverse_snoc, reverse_involutive, <-E2 by done. apply string_of_list_ascii_of.
Qed.

(** ** What [save] may change *)

Section Save.
Context (d0 : Disk) (k : OwnerKey) (path : string).
Let tmp := with_extension path "key.tmp".
Context (Hne : path <> tmp).

(** No old file is written to, and every new one is closed to others. *)
Record kept (d : Disk) : Prop := {
  kept_old : inodes d0 ⊆ inodes d;
  kept_next : forall i, (next d <= i)%nat -> inodes d !! i = None;
  kept_closed : forall i n, inodes d !! i = Some n -> inodes d0 !! i = None -> closed n
}.
Definition before (d : Disk) : Prop := kept d /\ forall e, e ∈ candidates d path -> e ∈ candidates d0 path.
(** A complete new key file. *)
Definition key_file (d : Disk) (i : nat) : Prop :=
  inodes d0 !! i = None /\ exists n, inodes d !! i = Some n /\ content n = key_text k /\ synced n = true.
Definition sound (d : Disk) : Prop :=
  kept d /\ forall e, e ∈ candidates d path -> e ∈ candidates d0 path \/ exists i, e = Some (File i) /\ key_file d i.
Definition installing (i : nat) (text : list byte) (s : bool) (d : Disk) : Prop :=
  before d /\ inodes d0 !! i = None /\ dir d !! tmp = Some (File i) /\
  exists n, inodes d !! i = Some n /\ content n = text /\ synced n = s.
Definition in_place (d : Disk) : Prop := sound d /\ exists i, dir d !! path = Some (File i) /\ key_file d i.

Lemma before_sound d : before d -> sound d.
Proof. intros [Hk Hc]. split; [done|]. eauto. Qed.
Lemma installing_sound i c s d : installing i c s d -> sound d.
Proof. intros [Hb _]. by apply before_sound. Qed.

Lemma kept_set_dir D d : kept d -> kept (set_dir D d).
Proof. intros []. by split. Qed.
Lemma kept_update i n n' d : kept d -> inodes d0 !! i = None -> inodes d !! i = Some n -> closed n' ->
  kept (set_inodes (<[i := n']> (inodes d)) d).
Proof.
  intros [Ho Hf Hc] Hi En Hn. split; simpl.
  - by apply insert_subseteq_r.
  - intros j Hj. rewrite lookup_insert_ne by (intros ->; rewrite Hf in En by done; done). by apply Hf.
  - intros j m. rewrite lookup_insert_Some. intros [[<- <-]|[_ Ej]] Hj; [done|by eapply Hc].
Qed.
Lemma installing_update i n c s d c' s' n' : installing i c s d -> inodes d !! i = Some n ->
  mode n' = mode n -> content n' = c' -> synced n' = s' ->
  installing i c' s' (set_inodes (<[i := n']> (inodes d)) d).
Proof.
  intros ([Hk Hb] & Hi & Ht & _) En Em <- <-. split_and!; [split|done|done|].
  - eapply kept_update; [done..|]. unfold closed. rewrite Em. by apply (kept_closed d Hk i).
  - exact Hb.
  - exists n'. simpl. by rewrite lookup_insert_eq.
Qed.

(** *** Its calls *)

Lemma triple_nothing P (Q : result unit IoError -> Disk -> Prop) :
  (forall d, P d -> sound d) -> (forall r d, P d -> Q r d) -> triple sound P on_the_directory Q.
Proof. intros HI HQ. apply triple_call; [done|intros; by apply HQ|]. intros d r d' [= <- <-] Hd. by apply HQ. Qed.

Lemma triple_remove_temp : triple sound before (remove_file tmp) (fun _ => before).
Proof.
  apply triple_call; [apply before_sound|done|]. intros d r d'. destruct (dir d !! tmp); intros [= <- <-] [Hk Hb]; [|done].
  split; [by apply kept_set_dir|]. intros x. rewrite candidates_set, lookup_delete_ne by done.
  intros [->|He]; [apply Hb, candidates_dir|by apply Hb].
Qed.

Lemma triple_create_temp : triple sound before (create_new tmp 384)
  (fun r d => match r with Ok i => installing i [] false d | Err _ => before d end).
Proof.
  apply triple_call; [apply before_sound|done|]. intros d r d'. destruct (dir d !! tmp) eqn:Et; intros [= <- <-] [Hk Hb]; [done|].
  destruct Hk as [Ho Hf Hc]. pose proof (Hf (next d) (le_n _)) as Hn. unfold installing. simpl.
  assert (inodes d0 !! next d = None) as H0 by by eapply lookup_weaken_None.
  split_and!; [|done|by rewrite lookup_insert_eq|eexists; by rewrite lookup_insert_eq].
  split; [split; simpl|].
  - etransitivity; [exact Ho|]. by apply insert_subseteq.
  - intros i Hi. rewrite lookup_insert_ne by lia. apply Hf. lia.
  - intros i n. rewrite lookup_insert_Some. intros [[<- <-]|[_ Ei]] Hi; [|by eapply Hc].
    unfold closed. simpl. rewrite Z.land_comm, Z.land_assoc. apply Z.land_0_l.
  - intros e He. apply Hb. revert He. unfold candidates. simpl. rewrite !elem_of_cons, lookup_insert_ne by done. naive_solver.
Qed.

Lemma append_installing i text c s d : installing i c s d -> installing i (c ++ text) false (append_to i text d).
Proof.
  intros Hd. pose proof Hd as (_ & _ & _ & n & En & <- & _). unfold append_to. rewrite En. by eapply installing_update.
Qed.
Lemma triple_append i text c s : triple sound (installing i c s) (write_all i text)
  (fun r d => match r with Ok _ => installing i (c ++ text) false d | Err _ => sound d end).
Proof.
  apply triple_call; [apply installing_sound| |].
  - intros e n d Hd. eapply installing_sound, append_installing, Hd.
  - intros d r d' [= <- <-] Hd. by eapply append_installing.
Qed.
Lemma triple_sync_key i c s : triple sound (installing i c s) (sync_all i)
  (fun r d => match r with Ok _ => installing i c true d | Err _ => sound d end).
Proof.
  apply triple_call; [apply installing_sound|intros e n d Hd; eapply installing_sound, Hd|]. intros d r d' [= <- <-] Hd.
  pose proof Hd as (_ & _ & _ & n & En & <- & _). unfold sync_inode. rewrite En. by eapply installing_update.
Qed.

Lemma triple_rename_key i : triple sound (installing i (key_text k) true) (rename tmp path)
  (fun r d => match r with Ok _ => in_place d | Err _ => sound d end).
Proof.
  apply triple_call; [apply installing_sound|intros e n d Hd; eapply installing_sound, Hd|].
  intros d r d' E ([Hk Hb] & Hi & Ht & n & En). rewrite Ht in E. injection E as <- <-.
  assert (key_file (set_dir (<[path := File i]> (delete tmp (dir d))) d) i) as Hf by (split; [done|by exists n]).
  split; [split; [by apply kept_set_dir|]|exists i; split; [simpl; by rewrite lookup_insert_eq|done]].
  intros e. rewrite candidates_set, lookup_insert_eq. intros [->|He]; [right; by exists i|left; by apply Hb].
Qed.

Lemma triple_permissions : triple sound in_place (set_permissions path 384) (fun _ => in_place).
Proof.
  apply triple_call; [by intros d []|done|]. intros d r d' E [[Hk Hs] (i & Ed & Hi & n & En & Hc & Hy)].
  rewrite Ed, En in E. injection E as <- <-.
  set (n' := {| mode := 384; content := content n; synced := synced n |}).
  assert (forall j, key_file d j -> key_file (set_inodes (<[i := n']> (inodes d)) d) j) as Hkf.
  { intros j (Hj & m & Em & Hcm & Hym). split; [done|]. simpl. destruct (decide (i = j)) as [<-|Hij].
    - exists n'. rewrite lookup_insert_eq. split; [done|]. simpl. by simplify_eq.
    - exists m. by rewrite lookup_insert_ne. }
  split; [split|].
  - by eapply kept_update.
  - intros e He. destruct (Hs e He) as [|(j & -> & Hj)]; [by left|right]. eauto.
  - exists i. split; [done|]. apply Hkf. split; [done|]. by exists n.
Qed.

Definition saved (r : result unit OwnerError) (d : Disk) : Prop := match r with Ok _ => in_place d | Err _ => sound d end.

(** A call whose error is only converted. *)
Lemma triple_converted {A} (P : Disk -> Prop) (m : IO IoError A) (R : A -> Disk -> Prop) (f : A -> IO OwnerError unit) g :
  triple sound P m (fun r d => match r with Ok a => R a d | Err _ => sound d end) ->
  (forall a, triple sound (R a) (f a) saved) -> triple sound P (x ← io_map_err g m; f x) saved.
Proof.
  intros Hm Hf. eapply triple_bind with (R := fun r d => match r with Ok a => R a d | Err _ => sound d end); [|done|done].
  eapply triple_conseq; [apply triple_map_err, Hm|done|done|]. intros r d (r' & -> & Hr). by destruct r'.
Qed.
(** ... or dropped. *)
Lemma triple_dropped {A} (P R : Disk -> Prop) (m : IO IoError A) (f : result A IoError -> IO OwnerError unit) :
  triple sound P m (fun _ => R) -> (forall x, triple sound R (f x) saved) -> triple sound P (x ← attempt m; f x) saved.
Proof.
  intros Hm Hf. eapply triple_bind with (R := fun r d => is_ok r = true /\ R d); [| |by intros e d []].
  - eapply triple_conseq; [apply triple_attempt, Hm|done|done|]. intros r d (r' & -> & Hr). by split.
  - intros a. eapply triple_conseq; [apply Hf|done|by intros d []|done].
Qed.

Lemma triple_save : triple sound before (save k path) saved.
Proof.
  eapply triple_converted with (R := fun _ => before); [|intros []].
  { apply triple_nothing; [apply before_sound|]. intros r d Hd. destruct r; [done|by apply before_sound]. }
  eapply triple_dropped; [by apply triple_nothing; [apply before_sound|intros r d Hd; exact Hd]|intros _].
  eapply triple_dropped; [apply triple_remove_temp|]. fold tmp. intros removed.
  assert (triple sound before (f ← io_map_err AtTemp (create_new tmp 384);
      _ ← io_map_err AtTemp (_ ← write_all f (as_bytes (to_hex k)); write_all f [Byte.x0a]);
      _ ← io_map_err AtTemp (sync_all f); _ ← io_map_err AtPath (rename tmp path);
      _ ← attempt (E := IoError) (set_permissions path 384); mret tt) saved) as Hrun.
  { eapply triple_converted; [eapply triple_conseq; [apply triple_create_temp|done|done|]; intros [i|e] d Hd; [exact Hd|by apply before_sound]|].
    intros i. simpl. eapply triple_converted with (R := fun _ => installing i (key_text k) false); [|intros []].
    { eapply triple_bind; [apply triple_append| |done]. intros []. apply triple_append. }
    eapply triple_converted with (R := fun _ => installing i (key_text k) true); [apply triple_sync_key|intros []].
    eapply triple_converted with (R := fun _ => in_place); [apply triple_rename_key|intros []].
    eapply triple_dropped; [apply triple_permissions|intros _].
    eapply triple_conseq; [apply (triple_ret sound tt in_place)|done|done|by intros r d [-> Hd]]. }
  destruct removed as [u|[]]; try exact Hrun;
    (eapply triple_conseq; [apply (triple_throw sound _ before)|done|done|intros r d [-> Hd]; by apply before_sound]).
Qed.

Lemma before_start : disk_ok d0 -> before d0.
Proof. intros [Hn Hd]. split; [|done]. split; [done|done|]. intros i n Ei Ej. congruence. Qed.
End Save.

(** ** The key in force *)

Section Key.
Context (outside : string -> result (list byte) IoError).

(** What [load] makes of a disk that answers. *)
Definition stored (d : Disk) : result (option OwnerKey) OwnerError :=
  (load outside OWNER_KEY_FILE {| disk := d; history := []; answers := [] |}).1.

(** Loading leaves the disk as it is. *)
Lemma load_run path w r w' : load outside path w = (r, w') -> disk w' = disk w /\ history w' = disk w :: history w.
Proof.
  unfold load, mbind, io_bind, attempt, read_to_string, call. destruct (answers w) as [|[|e n] rest]; simpl.
  3: { destruct e; intros [= <- <-]; done. }
  all: destruct (rbind _ _) as [s|[]]; [destruct (from_hex s)|..]; intros [= <- <-]; done.
Qed.
Lemma load_answered w : (forall e n, head (answers w) <> Some (Fails e n)) ->
  (load outside OWNER_KEY_FILE w).1 = stored (disk w).
Proof.
  intros Ha. unfold stored, load, mbind, io_bind, attempt, read_to_string, call. destruct (answers w) as [|[|e n] rest]; simpl.
  3: by destruct (Ha e n).
  all: destruct (rbind _ _) as [s|[]]; [destruct (from_hex s)|..]; done.
Qed.
(** A file that is there is never taken for a missing one. *)
Lemma load_present w i :
  disk_ok (disk w) -> dir (disk w) !! OWNER_KEY_FILE = Some (File i) -> (forall n, head (answers w) <> Some (Fails NotFound n)) ->
  (load outside OWNER_KEY_FILE w).1 <> Ok None.
Proof.
  intros Hok Ed Ha. destruct (no_dangling _ Hok OWNER_KEY_FILE i) as [n En].
  { rewrite <-Ed. apply candidates_dir. }
  unfold load, mbind, io_bind, attempt, read_to_string, call. destruct (answers w) as [|[|e n'] rest]; simpl.
  3: { destruct e; try done. by destruct (Ha n'). }
  all: rewrite Ed, En; simpl; destruct (utf8_valid (content n)); simpl; [destruct (from_hex _)|]; done.
Qed.

Lemma stored_in_place d k : length k = 32%nat ->
  (exists i n, dir d !! OWNER_KEY_FILE = Some (File i) /\ inodes d !! i = Some n /\ content n = key_text k) -> stored d = Ok (Some k).
Proof.
  intros Hl (i & n & Ed & En & Hc). unfold stored, load, mbind, io_bind, attempt, read_to_string, call. simpl.
  rewrite Ed, En. simpl. rewrite Hc, key_text_utf8. simpl. by rewrite key_text_reads_back.
Qed.

(** What [load_or_generate] does to the disk, and what is stored when it answered. *)
Lemma load_or_generate_run random w r w' :
  disk_ok (disk w) -> history w = [] -> length random = 32%nat -> load_or_generate outside random w = (r, w') ->
  Forall (sound (disk w) random OWNER_KEY_FILE) (disk w' :: history w') /\
  match r with
  | Ok (k, g) => stored (disk w') = Ok (Some k) \/ g = false /\ exists e n, head (answers w) = Some (Fails e n)
  | Err _ => True
  end /\
  ((load outside OWNER_KEY_FILE w).1 <> Ok None -> disk w' = disk w).
Proof.
  intros Hok Hh Hl E. unfold load_or_generate, mbind, io_bind in E.
  destruct (load outside OWNER_KEY_FILE w) as [l w1] eqn:E1. destruct (load_run _ _ _ _ E1) as [Ed Eh]. rewrite Hh in Eh.
  pose proof (before_start (disk w) OWNER_KEY_FILE Hok) as Hb.
  pose proof (before_sound (disk w) random OWNER_KEY_FILE _ Hb) as Hs.
  assert (forall x, l = Ok x -> stored (disk w) = Ok x \/ exists e n, head (answers w) = Some (Fails e n)) as Hl'.
  { intros x ->. destruct (head (answers w)) as [[|e n]|] eqn:Ea; [left|right; eauto|left];
      (rewrite <-load_answered, E1; [done|by rewrite Ea]). }
  destruct l as [[k|]|e].
  - injection E as <- <-. rewrite Ed, Eh. split; [by rewrite !Forall_cons|]. split; [|done].
    destruct (Hl' _ eq_refl) as [Hst|Hf]; [by left|by right].
  - destruct (save random OWNER_KEY_FILE w1) as [rs w2] eqn:E2.
    destruct (triple_save (disk w) random OWNER_KEY_FILE ltac:(done) w1 rs w2 E2) as [(h & Eh2 & Hh2) Hr]; [by rewrite Ed|].
    assert (w' = w2) as -> by (by destruct rs; injection E as <- <-).
    rewrite Eh2, Eh. split; [|split; [|done]].
    + constructor; [destruct rs; [apply Hr|exact Hr]|]. apply Forall_app. split; [done|]. by apply Forall_singleton.
    + destruct rs as [[]|e]; injection E as <-; [|done]. left. apply stored_in_place; [done|].
      destruct Hr as (_ & i & Ei & _ & n & En & Hc & _). by exists i, n.
  - injection E as <- <-. rewrite Ed, Eh. split; [by rewrite !Forall_cons|done].
Qed.
End Key.

(** The owner key is private and lasts: while it is loaded or generated, whatever fails and
    whenever the process stops, no file that existed is written to, every file created is closed
    to group and others, and the key's name leads - after a power loss too - to what it led to or
    to the complete new key; a key file that exists is never replaced; and the key that came out of
    a start is the one the next start loads. *)
Theorem owner_key_is_kept outside random w r w' :
  disk_ok (disk w) -> history w = [] -> length random = 32%nat -> load_or_generate outside random w = (r, w') ->
  (forall d i n, d ∈ disk w' :: history w' -> inodes d !! i = Some n ->
     inodes (disk w) !! i = Some n \/ inodes (disk w) !! i = None /\ closed n) /\
  (forall d x, d ∈ disk w' :: history w' -> after_power_loss d OWNER_KEY_FILE x ->
     after_power_loss (disk w) OWNER_KEY_FILE x \/ x = Some (key_text random)) /\
  (forall i, dir (disk w) !! OWNER_KEY_FILE = Some (File i) -> (forall n, head (answers w) <> Some (Fails NotFound n)) ->
     disk w' = disk w) /\
  (forall k g other w2, r = Ok (k, g) -> (forall e n, head (answers w) <> Some (Fails e n)) ->
     disk w2 = disk w' -> (forall e n, head (answers w2) <> Some (Fails e n)) ->
     (load_or_generate outside other w2).1 = Ok (k, false)).
Proof.
  intros Hok Hh Hl E. destruct (load_or_generate_run outside random w r w' Hok Hh Hl E) as (Hs & Hr & Hd).
  rewrite Forall_forall in Hs. split_and!.
  - intros d i n Hd' En. destruct (Hs d Hd') as [[Ho _ Hc] _]. destruct (inodes (disk w) !! i) as [n0|] eqn:E0.
    + left. pose proof (lookup_weaken _ _ _ _ E0 Ho). congruence.
    + right. split; [done|]. by eapply Hc.
  - intros d x Hd' (e & He & Hx). destruct (Hs d Hd') as [[Ho _ _] Hc]. destruct (Hc e He) as [H0|(i & -> & _ & n & En & Hn & Hy)].
    + left. exists e. split; [done|]. destruct e as [[i|]|]; [|done..]. destruct Hx as (n & c & En & -> & Hcn).
      destruct (no_dangling _ Hok _ i H0) as [n0 E0]. exists n0, c. split; [done|]. split; [done|].
      pose proof (lookup_weaken _ _ _ _ E0 Ho). by simplify_eq.
    + right. destruct Hx as (n' & c & En' & -> & Hcn). simplify_eq. f_equal. rewrite <-Hn. by apply Hcn.
  - intros i Ei Ha. by apply Hd, (load_present outside w i).
  - intros k g other w2 -> Ha E2 Ha2. destruct Hr as [Hst|(_ & e & n & Hf)]; [|by destruct (Ha e n)].
    unfold load_or_generate, mbind, io_bind. rewrite <-E2, <-load_answered in Hst by done.
    destruct (load outside OWNER_KEY_FILE w2) as [l w3]. simpl in Hst. by subst l.
Qed.

(** ** The two halves of the preamble *)

Lemma challenge_frame_parses nonce : length nonce = NONCE_LEN -> parse_challenge (challenge_frame nonce) = Ok nonce.
Proof. intros Hn. unfold parse_challenge, challenge_frame, starts_with_magic. by rewrite !length_app, Hn. Qed.
Lemma challenge_frame_splits nonce : length nonce = NONCE_LEN ->
  starts_with_magic (take (length MAGIC) (challenge_frame nonce)) = true /\
  length (challenge_frame nonce) = CHALLENGE_LEN.
Proof. intros Hn. unfold challenge_frame, starts_with_magic. split; [done|]. by rewrite !length_app, Hn. Qed.

Lemma hs_bind_ok {A B} (m : HS A) (f : A -> HS B) s b s2 :
  (x ← m; f x) s = (Ok b, s2) -> exists a s1, m s = (Ok a, s1) /\ f a s1 = (Ok b, s2).
Proof. unfold mbind, hs_bind. destruct (m s) as [[a|e] s1]; [|done]. eauto. Qed.
Lemma send_ok what bytes s s1 : send what bytes s = (Ok tt, s1) ->
  arrives s1 = arrives s /\ sent s1 = sent s ++ bytes /\ (writes s = [] -> writes s1 = []).
Proof.
  unfold send. destruct (writes s) as [|[[e n]|] ws]; intros [= <-]; simpl; rewrite firstn_all; done.
Qed.
Lemma read_ok n what s l s1 : read_exact_timeout n what s = (Ok l, s1) ->
  arrives s = l ++ arrives s1 /\ length l = n /\ sent s1 = sent s /\ writes s1 = writes s.
Proof.
  unfold read_exact_timeout. destruct (n <=? length (arrives s))%nat eqn:E; [|done]. intros [= <- <-]. simpl.
  apply Nat.leb_le in E. by rewrite take_drop, length_take_le.
Qed.

Lemma hs_step {A B} (m : HS A) (f : A -> HS B) s a s1 : m s = (Ok a, s1) -> (x ← m; f x) s = f a s1.
Proof. unfold mbind, hs_bind. by intros ->. Qed.
Lemma send_well what bytes s : writes s = [] ->
  send what bytes s = (Ok tt, {| arrives := arrives s; ends := ends s; writes := []; sent := sent s ++ bytes |}).
Proof. unfold send. intros ->. by rewrite firstn_all. Qed.
Lemma read_some l rest what n e ws snt : length l = n ->
  read_exact_timeout n what {| arrives := l ++ rest; ends := e; writes := ws; sent := snt |} =
  (Ok l, {| arrives := rest; ends := e; writes := ws; sent := snt |}).
Proof.
  intros <-. unfold read_exact_timeout. cbn [arrives writes ends sent].
  by rewrite length_app, (proj2 (Nat.leb_le _ _)), take_app_length, drop_app_length by lia.
Qed.

Section Meet.
Context (hmac : list byte -> list byte -> list byte).

(** The agent lets in only who sends the tag, and reads no further. *)
Lemma server_lets_in nonce k s s' : server_handshake hmac nonce k s = (Ok tt, s') ->
  arrives s = tag hmac k nonce ++ arrives s' /\ length (tag hmac k nonce) = TAG_LEN.
Proof.
  unfold server_handshake. intros ([] & s1 & E1 & E)%hs_bind_ok. apply send_ok in E1 as [<- _].
  apply hs_bind_ok in E as ([] & s2 & E2 & E). apply send_ok in E2 as [<- _].
  apply hs_bind_ok in E as (t & s3 & E3 & E). apply read_ok in E3 as (-> & Ht & _).
  unfold verify in E. case_bool_decide as Ev.
  - apply hs_bind_ok in E as ([] & s4 & E4 & E). apply send_ok in E4 as [<- _]. apply send_ok in E as [<- _].
    unfold tag. by rewrite Ev.
  - apply hs_bind_ok in E as ([] & s4 & _ & E). apply hs_bind_ok in E as ([] & s5 & _ & E). done.
Qed.

(** What it says when nothing fails to be sent. *)
Definition verdict (k : OwnerKey) (nonce a : list byte) : list byte :=
  if (TAG_LEN <=? length a)%nat then [if verify hmac k nonce (take TAG_LEN a) then Byte.x01 else Byte.x00] else [].
Lemma server_says nonce k s r s' : writes s = [] -> server_handshake hmac nonce k s = (r, s') ->
  sent s' = sent s ++ challenge_frame nonce ++ verdict k nonce (arrives s) /\
  (r = Ok tt <-> verdict k nonce (arrives s) = [Byte.x01]).
Proof.
  destruct s as [a e ws snt]. simpl. intros ->.
  unfold server_handshake, mbind, hs_bind, flush, ignore, send, read_exact_timeout, verdict.
  cbn [writes arrives ends sent tail]. rewrite !firstn_all, !app_nil_r. destruct (TAG_LEN <=? length a)%nat.
  - destruct (verify hmac k nonce (take TAG_LEN a)); intros [= <- <-]; cbn [sent take snd app];
      rewrite ?take_nil, ?app_nil_r, <-?app_assoc; naive_solver.
  - intros [= <- <-]. cbn [sent]. rewrite app_nil_r. naive_solver.
Qed.

(** The client's half, on what an agent with the preamble sent. *)
Lemma client_run nonce key c more r c' : length nonce = NONCE_LEN -> writes c = [] ->
  arrives c = challenge_frame nonce ++ more -> client_handshake hmac key c = (r, c') ->
  match key with
  | None => r = Err OWNER_AUTH_REQUIRED /\ sent c' = sent c
  | Some k => sent c' = sent c ++ tag hmac k nonce /\ (r = Ok Authenticated <-> exists x, more = Byte.x01 :: x) /\
      (forall v x, more = v :: x -> arrives c' = x)
  end.
Proof.
  intros Hn. destruct c as [a e ws snt]. cbn [writes arrives sent]. intros -> -> E.
  pose proof (challenge_frame_splits nonce Hn) as [Hm Hl]. unfold client_handshake in E.
  rewrite <-(take_drop (length MAGIC) (challenge_frame nonce)), <-app_assoc in E.
  erewrite hs_step in E by (apply read_some; rewrite length_take, Hl; done). rewrite Hm in E. cbn [negb] in E.
  erewrite hs_step in E by (apply read_some; by rewrite length_drop, Hl). rewrite take_drop in E.
  erewrite hs_step in E by (unfold lift; by rewrite challenge_frame_parses).
  destruct key as [k|]; [|by injection E as <- <-].
  erewrite hs_step in E by done. erewrite hs_step in E by by apply send_well. erewrite hs_step in E by by apply send_well.
  cbn [arrives sent writes ends] in E. rewrite app_nil_r in E. destruct more as [|v x].
  - injection E as <- <-. split; [done|]. split; [|done]. split; [by destruct e|]. by intros (x & ?).
  - erewrite hs_step in E by (by apply (read_some [v])).
    case_bool_decide as Hv; injection E as <- <-; cbn [arrives sent];
      (split; [done|]; split; [|by intros ? ? [= _ ->]]; split; try done).
    + intros _. exists x. by injection Hv as ->.
    + intros (y & [= -> ->]). done.
Qed.
End Meet.

(** The two halves of the preamble agree: between an agent and a client that send each other
    their bytes, the agent lets the stream through iff the client's tag is the one of the agent's
    key, the client goes on to ssh iff the agent let it through, and then each goes on reading
    exactly where the preamble ended; a client without a key sends nothing. *)
Theorem preamble_agrees hmac nonce k key s c r_s s' r_c c' banner ssh :
  length nonce = NONCE_LEN -> (forall k m, length (hmac k m) = TAG_LEN) ->
  writes s = [] -> writes c = [] -> sent s = [] -> sent c = [] ->
  server_handshake hmac nonce k s = (r_s, s') -> client_handshake hmac key c = (r_c, c') ->
  arrives s = sent c' ++ ssh -> arrives c = sent s' ++ banner ->
  (key = None -> ssh = []) -> (r_s <> Ok tt -> banner = []) ->
  (r_s = Ok tt <-> exists k', key = Some k' /\ tag hmac k' nonce = tag hmac k nonce) /\
  (r_c = Ok Authenticated <-> r_s = Ok tt) /\
  (r_s = Ok tt -> arrives s' = ssh /\ arrives c' = banner) /\
  (key = None -> sent c' = []).
Proof.
  intros Hn Hh Hws Hwc Hss Hsc Es Ec As Ac Hssh Hb.
  destruct (server_says hmac nonce k s r_s s' Hws Es) as [Hsent Hok]. rewrite Hss in Hsent. cbn [app] in Hsent.
  rewrite Hsent, <-app_assoc in Ac. pose proof (client_run hmac nonce key c _ r_c c' Hn Hwc Ac Ec) as Hc.
  destruct key as [k'|].
  - destruct Hc as (Hs' & Hr & Hx). rewrite Hsc in Hs'. cbn [app] in Hs'. rewrite Hs' in As.
    assert (verdict hmac k nonce (arrives s) = [if verify hmac k nonce (tag hmac k' nonce) then Byte.x01 else Byte.x00]) as Hv.
    { unfold verdict. rewrite As, length_app. unfold tag at 1 2. rewrite Hh, take_app_length' by (by rewrite Hh).
      by replace (TAG_LEN <=? TAG_LEN + length ssh)%nat with true by (symmetry; apply Nat.leb_le; lia). }
    rewrite Hv in *. unfold verify in *. change (hmac k (DOMAIN ++ nonce)) with (tag hmac k nonce) in *.
    split_and!; [| | |done].
    + rewrite Hok. case_bool_decide as Et; naive_solver.
    + rewrite Hr, Hok. case_bool_decide; naive_solver.
    + intros Ho. split; [|by eapply Hx]. subst r_s. apply server_lets_in in Es as [Ea _]. rewrite As in Ea.
      apply app_inj_1 in Ea as [_ ->]; [done|]. unfold tag. by rewrite !Hh.
  - destruct Hc as [-> Hs']. rewrite Hsc in Hs'. rewrite Hs', (Hssh eq_refl) in As. rewrite As in Hok. unfold verdict in Hok. cbn [length Nat.leb TAG_LEN] in Hok.
    split_and!; [|naive_solver|naive_solver|done]. split; [naive_solver|]. by intros (? & ? & _).
Qed.

(** ** Concrete runs *)

Definition toy_hmac (k m : list byte) : list byte := take 32 (k ++ m ++ replicate 32 Byte.x00).
Lemma toy_hmac_length k m : length (toy_hmac k m) = TAG_LEN.
Proof. unfold toy_hmac. rewrite length_take_le; [done|]. rewrite !length_app, length_replicate. unfold TAG_LEN. lia. Qed.

Definition demo_key (b : byte) : list byte := replicate 32 b.
Definition demo_nonce : list byte := replicate 32 Byte.x05.
Definition demo_wire (l : list byte) : Wire := {| arrives := l; ends := Closed "early eof"; writes := []; sent := [] |}.

(** The right key, then ssh's byte 53 and sshd's 54. *)
Lemma preamble_agrees_witness :
  let s := demo_wire (toy_hmac (demo_key Byte.x07) (DOMAIN ++ demo_nonce) ++ [Byte.x53]) in
  let c := demo_wire (challenge_frame demo_nonce ++ [Byte.x01; Byte.x54]) in
  (server_handshake toy_hmac demo_nonce (demo_key Byte.x07) s).1 = Ok tt /\
  (client_handshake toy_hmac (Some (demo_key Byte.x07)) c).1 = Ok Authenticated /\
  arrives (server_handshake toy_hmac demo_nonce (demo_key Byte.x07) s).2 = [Byte.x53] /\
  arrives (client_handshake toy_hmac (Some (demo_key Byte.x07)) c).2 = [Byte.x54].
Proof.
  intros s c.
  assert (server_handshake toy_hmac demo_nonce (demo_key Byte.x07) s = (Ok tt,
    {| arrives := [Byte.x53]; ends := Closed "early eof"; writes := []; sent := challenge_frame demo_nonce ++ [Byte.x01] |})) as Es
    by (vm_compute; reflexivity).
  assert (client_handshake toy_hmac (Some (demo_key Byte.x07)) c = (Ok Authenticated,
    {| arrives := [Byte.x54]; ends := Closed "early eof"; writes := []; sent := demo_key Byte.x07 |})) as Ec
    by (vm_compute; reflexivity).
  assert (arrives s = demo_key Byte.x07 ++ [Byte.x53]) as As by (vm_compute; reflexivity).
  assert (arrives c = (challenge_frame demo_nonce ++ [Byte.x01]) ++ [Byte.x54]) as Ac by (vm_compute; reflexivity).
  destruct (preamble_agrees toy_hmac demo_nonce (demo_key Byte.x07) (Some (demo_key Byte.x07)) s c _ _ _ _ [Byte.x54] [Byte.x53]
    eq_refl toy_hmac_length eq_refl eq_refl eq_refl eq_refl Es Ec As Ac ltac:(done) ltac:(by intros [])) as (_ & H2 & H3 & _).
  rewrite Es, Ec. split_and!; [done|by apply H2|by apply H3|by apply H3].
Defined.

(** A first start, which generates the key, and the next one. *)
Definition no_links (target : string) : result (list byte) IoError := Err NotFound.
Lemma owner_key_is_kept_witness :
  disk_ok demo_disk /\
  exists w', load_or_generate no_links (demo_key Byte.xab) (demo_world []) = (Ok (demo_key Byte.xab, true), w') /\
    length (history w') = 10%nat /\
    (load_or_generate no_links (demo_key Byte.xcd) {| disk := disk w'; history := []; answers := [] |}).1 = Ok (demo_key Byte.xab, false) /\
    forall d x, d ∈ disk w' :: history w' -> after_power_loss d OWNER_KEY_FILE x ->
      after_power_loss demo_disk OWNER_KEY_FILE x \/ x = Some (key_text (demo_key Byte.xab)).
Proof.
  split; [exact demo_disk_ok|].
  destruct (load_or_generate no_links (demo_key Byte.xab) (demo_world [])) as [r w'] eqn:E.
  assert (r = Ok (demo_key Byte.xab, true) /\ length (history w') = 10%nat) as [-> Hl].
  { apply (f_equal (fun p => (fst p, length (history (snd p))))) in E. vm_compute in E. injection E as E1 E2.
    split; [by rewrite <-E1|exact (eq_sym E2)]. }
  exists w'. split; [done|]. split; [done|].
  destruct (owner_key_is_kept no_links (demo_key Byte.xab) (demo_world []) _ _ demo_disk_ok eq_refl eq_refl E) as (_ & H2 & _ & H4).
  split; [by apply (H4 _ true)|exact H2].
Defined.
