(* ===== verification/Origin.v ===== *)
(** * Origin: from a relayed stream to the Origin ([serve.rs], [config.rs])

    Where the Origin is dialed and how a move is followed, the TLS pair that is reloaded when it
    changes on disk, the sniff, and one relayed stream up to the Origin, with the owner's preamble of
    [SshOwner] in between.  rustls and the PEM parsers are parameters; instants are nanoseconds. *)
From S2P Require Import Prelude Text Net SshOwner.

#[local] Open Scope Z_scope.

(** ** Dial targets *)

(** [LEARNED_ADDRS]: the address last resolved for each host, process-wide. *)
Notation Learned := (list (string * SocketAddr)) (only parsing).
Fixpoint learned_addr (t : Learned) (h : string) : option SocketAddr :=
  match t with
  | [] => None
  | (x, a) :: t => if String.eqb x h then Some a else learned_addr t h
  end.
Fixpoint remember_addr (t : Learned) (h : string) (addr : SocketAddr) : Learned :=
  match t with
  | [] => [(h, addr)]
  | (x, a) :: t => if String.eqb x h then (x, addr) :: t else (x, a) :: remember_addr t h addr
  end.

(** [tokio::time::timeout(RESOLVE_TIMEOUT, lookup_addrs(host))]. *)
Inductive Lookup := Answers (l : list SocketAddr) | LookupFailed | LookupTimedOut.

Record DialTarget := { startup : SocketAddr; host : option string }.
Definition literal (addr : SocketAddr) : DialTarget := {| startup := addr; host := None |}.

Definition resolve_addr (var s : string) (answer : result (list SocketAddr) string) : result SocketAddr string :=
  match answer with
  | Err e => Err ("invalid " +:+ var +:+ " '" +:+ s +:+ "': " +:+ e)%string
  | Ok l => ok_or (head l) (var +:+ " '" +:+ s +:+ "' resolved to no address")%string
  end.
(** [DialTarget::parse]; [resolver]: the system's [to_socket_addrs]. *)
Definition parse_target (resolver : string -> result (list SocketAddr) string) (var s : string) : result DialTarget string :=
  let s := trim s in
  match parse_socket s with
  | Some addr => Ok (literal addr)
  | None => let* a := resolve_addr var s (resolver s) in Ok {| startup := a; host := Some s |}
  end.

Definition current (o : DialTarget) (t : Learned) : SocketAddr :=
  match host o with
  | Some h => default (startup o) (learned_addr t h)
  | None => startup o
  end.

(** The table may move while the lookup is awaited: [t] before it, [t'] after. *)
Definition resolve_again (o : DialTarget) (t : Learned) (l : Lookup) (t' : Learned) : option SocketAddr * Learned :=
  match host o with
  | None => (None, t)
  | Some h =>
      match l with
      | Answers (a :: rest) =>
          if bool_decide (current o t ∈ a :: rest) then (None, t') else (Some a, remember_addr t' h a)
      | _ => (None, t')
      end
  end.

(** [AgentConfig::resolve_edge_or], for an edge host or a literal edge. *)
Definition resolve_edge_or (edge_host : option string) (edge last : SocketAddr) (t : Learned) (l : Lookup) (t' : Learned)
  : SocketAddr * Learned :=
  match edge_host with
  | None => (edge, t)
  | Some h =>
      let known := default last (learned_addr t h) in
      match l with
      | Answers (a :: rest) =>
          let chosen := if bool_decide (known ∈ a :: rest) then known else a in
          (chosen, remember_addr t' h chosen)
      | _ => (known, t')
      end
  end.

(** What a dial of five seconds comes to. *)
Inductive Connected := Up | Refused (e : string) | Stalled.
Inductive DialError := ConnectFailed (e : string) | ConnectStalled (addr : SocketAddr).
Definition dial_origin_addr (addr : SocketAddr) (c : Connected) : result SocketAddr DialError :=
  match c with
  | Up => Ok addr
  | Refused e => Err (ConnectFailed e)
  | Stalled => Err (ConnectStalled addr)
  end.

(** One [connect_origin]: what the dials would come to, the lookup's answer, and what the rest of the
    process remembered while this connection awaited its first dial and its lookup. *)
Record DialWorld := {
  first_dial : SocketAddr -> Connected; lookup : Lookup; second_dial : SocketAddr -> Connected;
  during_dial : list (string * SocketAddr); during_lookup : list (string * SocketAddr)
}.
Definition remembers (t : Learned) (l : list (string * SocketAddr)) : Learned :=
  fold_left (fun t '(h, a) => remember_addr t h a) l t.

(** The connection, the table, and the addresses dialed. *)
Definition connect_origin (o : DialTarget) (t : Learned) (w : DialWorld) : result SocketAddr DialError * Learned * list SocketAddr :=
  let addr := current o t in
  let t1 := remembers t (during_dial w) in
  match dial_origin_addr addr (first_dial w addr) with
  | Ok tcp => (Ok tcp, t1, [addr])
  | Err first =>
      match resolve_again o t1 (lookup w) (remembers t1 (during_lookup w)) with
      | (None, t2) => (Err first, t2, [addr])
      | (Some moved, t2) => (dial_origin_addr moved (second_dial w moved), t2, [addr; moved])
      end
  end.

(** Connections one after another. *)
Fixpoint connections (o : DialTarget) (t : Learned) (ws : list DialWorld) : list (result SocketAddr DialError * list SocketAddr) :=
  match ws with
  | [] => []
  | w :: ws => let '(r, t, dialed) := connect_origin o t w in (r, dialed) :: connections o t ws
  end.

(** ** The sniff *)

Definition looks_like_tls_client_hello (first : list byte) : bool :=
  match first with
  | kind :: major :: minor :: l1 :: l2 :: rest =>
      let record_len := u8 l1 * 256 + u8 l2 in
      let plausible_len := (6 <=? record_len) && (record_len <=? 16 * 1024 + 2048) in
      let hello := match rest with t :: _ => u8 t =? 1 | [] => true end in
      (u8 kind =? 22) && (u8 major =? 3) && ((0 <=? u8 minor) && (u8 minor <=? 4)) && plausible_len && hello
  | _ => false
  end.

(** [Prefixed]: the bytes to replay, how many were, and the stream behind; [chunk] is what the inner
    stream would give at once. *)
Record Prefixed := { prefix : list byte; pos : nat; inner : list byte }.
Definition new_prefixed (p inner : list byte) : Prefixed := {| prefix := p; pos := 0; inner := inner |}.
Definition poll_read (remaining chunk : nat) (p : Prefixed) : list byte * Prefixed :=
  if (pos p <? length (prefix p))%nat then
    let n := Nat.min remaining (length (prefix p) - pos p) in
    (take n (drop (pos p) (prefix p)), {| prefix := prefix p; pos := pos p + n; inner := inner p |})
  else
    let n := Nat.min remaining chunk in
    (take n (inner p), {| prefix := prefix p; pos := pos p; inner := drop n (inner p) |}).

(** ** The TLS pair of the terminator *)

Definition ORIGIN_TLS_RELOAD_CHECK_INTERVAL : Z := 30 * SECOND.

(** The two files at one moment: what reading gives, and [file_mtime]. *)
Record Files := { cert_bytes : result (list byte) string; key_bytes : result (list byte) string;
                  cert_file_mtime : option Z; key_file_mtime : option Z }.

Section Terminator.
Context {Config : Type}.
(** rustls: the certificates of a PEM text, its private key, [with_single_cert]. *)
Context (pem_certs : list byte -> result (list (list byte)) string) (pem_key : list byte -> result (list byte) string).
Context (single_cert : list (list byte) -> list byte -> result Config string).
Context (cert key : string).

Definition build_origin_server_config (f : Files) : result Config string :=
  let* bytes := map_err (fun e => "cannot read certificate " +:+ cert +:+ ": " +:+ e)%string (cert_bytes f) in
  let* chain := map_err (fun e => "cannot parse certificate " +:+ cert +:+ ": " +:+ e)%string (pem_certs bytes) in
  match chain with
  | [] => Err ("no certificate found in " +:+ cert)%string
  | _ =>
      let* key_der := map_err (fun e => "cannot read private key " +:+ key +:+ ": " +:+ e)%string
        (let* b := key_bytes f in pem_key b) in
      map_err (fun e => "certificate " +:+ cert +:+ " and key " +:+ key +:+ " rejected: " +:+ e)%string (single_cert chain key_der)
  end.

Record TerminatorState := {
  config : Config; cert_mtime : option Z; key_mtime : option Z; last_check : Z; reload_failure_logged : bool
}.
Inductive TerminatorLine := Reloaded | ReloadFailed (e : string).

(** [OriginTerminator::load]: the pair is read at one moment and its times at a later one. *)
Definition load_terminator (built stated : Files) (now : Z) : result TerminatorState string :=
  let* c := build_origin_server_config built in
  Ok {| config := c; cert_mtime := cert_file_mtime stated; key_mtime := key_file_mtime stated; last_check := now;
        reload_failure_logged := false |}.

(** [acceptor] at [now]: the times are read first, then the pair. *)
Definition acceptor (now : Z) (stated built : Files) (st : TerminatorState) : Config * TerminatorState * list TerminatorLine :=
  if ORIGIN_TLS_RELOAD_CHECK_INTERVAL <=? now - last_check st then
    if bool_decide (cert_file_mtime stated <> cert_mtime st) || bool_decide (key_file_mtime stated <> key_mtime st) then
      match build_origin_server_config built with
      | Ok c =>
          (c, {| config := c; cert_mtime := cert_file_mtime stated; key_mtime := key_file_mtime stated; last_check := now;
                 reload_failure_logged := false |}, [Reloaded])
      | Err e =>
          (config st, {| config := config st; cert_mtime := cert_mtime st; key_mtime := key_mtime st; last_check := now;
                         reload_failure_logged := true |},
           if reload_failure_logged st then [] else [ReloadFailed e])
      end
    else
      (config st, {| config := config st; cert_mtime := cert_mtime st; key_mtime := key_mtime st; last_check := now;
                     reload_failure_logged := reload_failure_logged st |}, [])
  else (config st, st, []).

(** A look: an accepted connection, with the clock and the files as [acceptor] finds them. *)
Record Look := { at_ : Z; stated : Files; built : Files }.
(** The pairs handed out, the state, and the lines written. *)
Fixpoint run_looks (st : TerminatorState) (l : list Look) : list Config * TerminatorState * list TerminatorLine :=
  match l with
  | [] => ([], st, [])
  | x :: l =>
      let '(c, st1, line) := acceptor (at_ x) (stated x) (built x) st in
      let '(cs, st2, lines) := run_looks st1 l in (c :: cs, st2, line ++ lines)
  end.
End Terminator.

(** ** One relayed stream *)

Inductive EventKind := ORIGIN_TLS_TERMINATED | SSH_OWNER_AUTH_REFUSED.
Inductive ServeAct :=
| OriginDialed (a : SocketAddr) | ToOrigin (bytes : list byte) | ToClient (bytes : list byte) | Emit (k : EventKind) | EmitLimited (k : EventKind).
Inductive ServeError :=
| ReadFailed (e : string) | HandshakeFailed (e : string) | NoHandshake | OwnerAuthFailed (e : string) | NoClientHello
| OriginFailed (e : DialError) | WriteFailed (e : string) | CopyFailed (e : string).

(** What the TLS library makes of the bytes that reach it: the server name and the plaintext
    stream, an error, or nothing within the ten seconds. *)
Inductive TlsOutcome := TlsUp (sni : option string) (plain : Wire) | TlsFailed (e : string) | TlsStalled.
(** [copy_bidirectional]: it ends well when both sides are done, or fails after so many bytes. *)
Inductive Copy := Whole | Broken (up down : nat) (e : string).

(** The world of one stream: the client's bytes, its first read, the dial, how [write_all] of the
    first chunk ends, the copy, what the Origin answers, the nonce drawn and the terminator's look. *)
Record StreamWorld := {
  client : list byte; first_read : result nat string; dialing : DialWorld; first_write : result unit string;
  copying : Copy; origin_says : list byte; nonce : list byte; look : Look
}.

Section Serve.
Context {Config : Type}.
Context (pem_certs : list byte -> result (list (list byte)) string) (pem_key : list byte -> result (list byte) string).
Context (single_cert : list (list byte) -> list byte -> result Config string).
Context (tls_accept : Config -> list byte -> TlsOutcome) (hmac : list byte -> list byte -> list byte).

(** [OriginTerminator], as the stream finds it. *)
Record OriginTerminator := { cert_path : string; key_path : string; state : TerminatorState (Config := Config); owner_auth : OwnerAuth }.
(** The table of addresses, the terminator's state once its acceptor was asked, and what was done. *)
Record SState := { learned : list (string * SocketAddr); left_state : option (TerminatorState (Config := Config)); acts : list ServeAct }.
Definition S_ (A : Type) : Type := SState -> result A ServeError * SState.
#[global] Instance s_ret : MRet S_ := fun A a s => (Ok a, s).
#[global] Instance s_bind : MBind S_ := fun A B f m s =>
  match m s with
  | (Ok a, s) => f a s
  | (Err e, s) => (Err e, s)
  end.
Definition fail {A} (e : ServeError) : S_ A := fun s => (Err e, s).
Definition act (a : ServeAct) : S_ unit := fun s =>
  (Ok tt, {| learned := learned s; left_state := left_state s; acts := acts s ++ [a] |}).
Fixpoint act_all (l : list ServeAct) : S_ unit :=
  match l with
  | [] => mret tt
  | a :: l => _ ← act a; act_all l
  end.

Context (w : StreamWorld).

Definition dial (o : DialTarget) : S_ unit := fun s =>
  let '(r, t, dialed) := connect_origin o (learned s) (dialing w) in
  (map_err OriginFailed (let* _ := r in Ok tt),
   {| learned := t; left_state := left_state s; acts := acts s ++ map OriginDialed dialed |}).

(** Whatever is left of the client's stream, and the Origin's answer. *)
Definition copy_bidirectional (rest : list byte) : S_ unit :=
  match copying w with
  | Whole => _ ← act (ToOrigin rest); act (ToClient (origin_says w))
  | Broken up down e => _ ← act (ToOrigin (take up rest)); _ ← act (ToClient (take down (origin_says w))); fail (CopyFailed e)
  end.

Definition accept_config (t : OriginTerminator) : S_ Config := fun s =>
  let '(c, st, _) := acceptor pem_certs pem_key single_cert (cert_path t) (key_path t)
    (at_ (look w)) (stated (look w)) (built (look w)) (state t) in
  (Ok c, {| learned := learned s; left_state := Some st; acts := acts s |}).

(** Everything a reader of [Prefixed] gets. *)
Definition replayed (p : Prefixed) : list byte := drop (pos p) (prefix p) ++ inner p.

Definition terminate_tls_then_forward (c : Prefixed) (o : DialTarget) (t : OriginTerminator) : S_ unit :=
  config ← accept_config t;
  match tls_accept config (replayed c) with
  | TlsFailed e => fail (HandshakeFailed e)
  | TlsStalled => fail NoHandshake
  | TlsUp sni plain =>
      _ ← act (EmitLimited ORIGIN_TLS_TERMINATED);
      rest ← match owner_auth t with
        | Required k =>
            match server_handshake hmac (nonce w) k plain with
            | (Ok _, plain) => mret (arrives plain)
            | (Err e, _) => _ ← act (EmitLimited SSH_OWNER_AUTH_REFUSED); fail (OwnerAuthFailed e)
            end
        | Off => mret (arrives plain)
        end;
      _ ← dial o;
      copy_bidirectional rest
  end.

Definition serve_raw (o : DialTarget) (first rest : list byte) : S_ unit :=
  _ ← dial o;
  _ ← (match first_write w with Ok _ => act (ToOrigin first) | Err e => fail (WriteFailed e) end);
  copy_bidirectional rest.

Definition serve_duplex_to_origin (o : DialTarget) (terminator : option OriginTerminator) : S_ unit :=
  match first_read w with
  | Err e => fail (ReadFailed e)
  | Ok n =>
      let first := take (Nat.max 1 (Nat.min 4096 n)) (client w) in
      let rest := drop (length first) (client w) in
      match first with
      | [] => mret tt
      | _ =>
          match terminator with
          | None => serve_raw o first rest
          | Some t =>
              if looks_like_tls_client_hello first then terminate_tls_then_forward (new_prefixed first rest) o t
              else
                match owner_auth t with
                | Required _ => _ ← act (Emit SSH_OWNER_AUTH_REFUSED); fail NoClientHello
                | Off => serve_raw o first rest
                end
          end
      end
  end.
End Serve.

(** ** Following a move *)

Lemma learned_remember t h a h' : learned_addr (remember_addr t h a) h' = if String.eqb h h' then Some a else learned_addr t h'.
Proof.
  induction t as [|[x b] t IH]; simpl; [done|]. destruct (String.eqb_spec x h) as [->|Hx]; simpl.
  - by destruct (String.eqb_spec h h').
  - rewrite IH. destruct (String.eqb_spec x h') as [->|]; [|done]. by destruct (String.eqb_spec h h') as [->|].
Qed.

Lemma remembers_other h l t : h ∉ l.*1 -> learned_addr (remembers t l) h = learned_addr t h.
Proof.
  revert t. induction l as [|[x a] l IH]; intros t Hl; [done|]. cbn [remembers fold_left].
  change (learned_addr (remembers (remember_addr t x a) l) h = learned_addr t h).
  rewrite IH by set_solver. rewrite learned_remember. destruct (String.eqb_spec x h) as [->|]; [|done]. set_solver.
Qed.

(** Connections that do not overlap: the table is theirs alone. *)
Definition alone (reach : SocketAddr -> Connected) (l : list SocketAddr) (w : DialWorld) : Prop :=
  first_dial w = reach /\ second_dial w = reach /\ lookup w = Answers l /\ during_dial w = [] /\ during_lookup w = [].

Lemma connect_alone o t reach l w : alone reach l w ->
  connect_origin o t w =
    match dial_origin_addr (current o t) (reach (current o t)) with
    | Ok a => (Ok a, t, [current o t])
    | Err e =>
        match host o, l with
        | Some h, a :: _ =>
            if bool_decide (current o t ∈ l) then (Err e, t, [current o t])
            else (dial_origin_addr a (reach a), remember_addr t h a, [current o t; a])
        | _, _ => (Err e, t, [current o t])
        end
    end.
Proof.
  intros (E1 & E2 & E3 & E4 & E5). unfold connect_origin, resolve_again. rewrite E1, E2, E3, E4, E5. cbn [remembers fold_left]. destruct (dial_origin_addr _ _); [done|].
  destruct (host o); [|done]. destruct l; [done|]. by destruct (bool_decide _).
Qed.

Lemma current_up o t reach ws l : reach (current o t) = Up -> Forall (alone reach l) ws ->
  connections o t ws = (fun _ => (Ok (current o t), [current o t])) <$> ws.
Proof.
  intros Hu. induction 1 as [|w ws Hw _ IH]; [done|]. cbn [connections fmap list_fmap].
  rewrite (connect_alone o t reach l w Hw), Hu. simpl. by rewrite IH.
Qed.

Lemma concat_singles {A B C} (r : C) (x : B) (ws : list A) : length (concat ((fun _ => (r, [x])) <$> ws).*2) = length ws.
Proof. induction ws as [|w ws IH]; [done|]. cbn [fmap list_fmap concat app length]. by rewrite <-IH. Qed.

(** The first connection that finds the Origin moved takes the others along. *)
Lemma connections_moved o h t reach a l w ws :
  host o = Some h -> Forall (alone reach (a :: l)) (w :: ws) -> (forall x, x ∈ a :: l -> reach x = Up) -> reach (current o t) <> Up ->
  connections o t (w :: ws) = (Ok a, [current o t; a]) :: ((fun _ => (Ok a, [a])) <$> ws).
Proof.
  intros Hh Hws Hup Hd. apply Forall_cons in Hws as [Hw Hws]. cbn [connections].
  rewrite (connect_alone o t reach (a :: l) w Hw), Hh, bool_decide_false by (intros Hin; by apply Hd, Hup).
  assert (current o (remember_addr t h a) = a) as Hc by (unfold current; by rewrite Hh, learned_remember, String.eqb_refl).
  rewrite (Hup a) by left. destruct (reach (current o t)) eqn:Er; [done|..]; cbn [dial_origin_addr];
    rewrite (current_up o (remember_addr t h a) reach ws (a :: l)), Hc by (rewrite ?Hc; auto using list_elem_of_here); done.
Qed.

(** A move of the Origin costs one failed dial: when its name leads to addresses that answer,
    every connection, one after another, reaches one of them or the address already known, and all
    of them together take at most one dial more than there are connections; when the name did not
    move, a connection that fails dials once. *)
Theorem move_costs_one_dial o h t reach a l ws :
  host o = Some h -> Forall (alone reach (a :: l)) ws ->
  ((forall x, x ∈ a :: l -> reach x = Up) ->
   Forall (fun c => exists x, c.1 = Ok x /\ reach x = Up /\ (x = a \/ x = current o t)) (connections o t ws) /\
   (length (concat (connections o t ws).*2) <= length ws + 1)%nat) /\
  (current o t ∈ a :: l -> (connections o t ws).*2 = (fun _ => [current o t]) <$> ws).
Proof.
  intros Hh Hws.
  split.
  - intros Hup. destruct (reach (current o t)) eqn:Er.
    { rewrite (current_up o t reach ws (a :: l)) by done. split; [|rewrite concat_singles; lia].
      apply Forall_fmap, Forall_forall. intros w _. exists (current o t). eauto. }
    all: destruct ws as [|w ws]; [split; [constructor|simpl; lia]|];
      rewrite (connections_moved o h t reach a l w ws) by (done || by rewrite Er);
      (split; [|cbn [fmap list_fmap snd concat app length]; rewrite concat_singles; lia]);
      constructor; [|apply Forall_fmap, Forall_forall; intros x _]; exists a; split_and!; auto using list_elem_of_here.
  - intros Hin. induction Hws as [|w ws Hw Hws IH]; [done|]. cbn [connections]. rewrite (connect_alone o t reach (a :: l) w Hw).
    destruct (dial_origin_addr _ _); [|rewrite Hh, bool_decide_true by done]; cbn [fmap list_fmap snd]; by rewrite IH.
Qed.

(** A second connection that was still dialing the old address when another one learned the new one
    is not redialed, although the name leads there: [resolve_again] compares the answers with the
    address known by then, not with the one just dialed. *)
Lemma move_is_missed_by_the_second o h t a l w e :
  host o = Some h -> dial_origin_addr (current o t) (first_dial w (current o t)) = Err e ->
  during_dial w = [(h, a)] -> lookup w = Answers (a :: l) ->
  exists t', connect_origin o t w = (Err e, t', [current o t]).
Proof.
  intros Hh Hd Hdu Hl. unfold connect_origin, resolve_again. rewrite Hd, Hdu, Hl, Hh. cbn [remembers fold_left].
  rewrite bool_decide_true; [eauto|]. unfold current. rewrite Hh, learned_remember, String.eqb_refl. left.
Qed.

(** ** The terminator serves the last pair that was good *)

Section Reload.
Context {Config : Type}.
Context (pem_certs : list byte -> result (list (list byte)) string) (pem_key : list byte -> result (list byte) string).
Context (single_cert : list (list byte) -> list byte -> result Config string) (cert key : string).
Notation build := (build_origin_server_config pem_certs pem_key single_cert cert key).
Notation acceptor := (acceptor pem_certs pem_key single_cert cert key).
Notation run_looks := (run_looks pem_certs pem_key single_cert cert key).
Notation State := (TerminatorState (Config := Config)).

Lemma acceptor_serves now f g (st : State) c st' lines : acceptor now f g st = (c, st', lines) ->
  config st' = c /\ (c = config st \/ build g = Ok c) /\ ((exists e, build g = Err e) -> c = config st).
Proof.
  unfold Origin.acceptor. destruct (_ <=? _); [|intros [= <- <- <-]; auto].
  destruct (_ || _); [|intros [= <- <- <-]; auto].
  destruct (build g) as [c'|e]; intros [= <- <- <-]; split_and!; auto. by intros [].
Qed.

(** Once the files are those the state was built from - their times are - nothing is reloaded. *)
Lemma acceptor_settled now f g (st : State) : cert_mtime st = cert_file_mtime f -> key_mtime st = key_file_mtime f ->
  exists st', acceptor now f g st = (config st, st', []) /\
    config st' = config st /\ cert_mtime st' = cert_mtime st /\ key_mtime st' = key_mtime st.
Proof.
  intros Ec Ek. unfold Origin.acceptor. destruct (_ <=? _); [|by eexists].
  rewrite !bool_decide_false by congruence. by eexists.
Qed.
Lemma looks_settled f l (st : State) : Forall (fun x => stated x = f) l ->
  cert_mtime st = cert_file_mtime f -> key_mtime st = key_file_mtime f -> (run_looks st l).1.1 = (fun _ => config st) <$> l.
Proof.
  intros Hl. revert st. induction Hl as [|x l Hx _ IH]; intros st Ec Ek; [done|]. cbn [Origin.run_looks].
  destruct (acceptor_settled (at_ x) (stated x) (built x) st) as (st' & -> & Hc & Hm & Hk); [by rewrite Hx..|].
  specialize (IH st'). rewrite Hc in IH. destruct (run_looks st' l) as [[cs st2] ls]. simpl in *. rewrite IH by congruence. done.
Qed.

Lemma run_looks_app l1 l2 (st : State) : run_looks st (l1 ++ l2) =
  let '(cs1, st1, ls1) := run_looks st l1 in let '(cs2, st2, ls2) := run_looks st1 l2 in (cs1 ++ cs2, st2, ls1 ++ ls2).
Proof.
  revert st. induction l1 as [|x l1 IH]; intros st; cbn [app Origin.run_looks]; [by destruct (run_looks st l2) as [[]]|].
  destruct (acceptor _ _ _ st) as [[c st1] line]. rewrite IH. destruct (run_looks st1 l1) as [[cs1 st2] ls1].
  destruct (run_looks st2 l2) as [[cs2 st3] ls2]. by rewrite app_assoc.
Qed.

Lemma run_looks_good l (st : State) cs st' lines : run_looks st l = (cs, st', lines) ->
  length cs = length l /\ Forall (fun c => c = config st \/ exists x, x ∈ l /\ build (built x) = Ok c) (config st' :: cs).
Proof.
  revert st cs st' lines. induction l as [|x l IH]; intros st cs st' lines; cbn [Origin.run_looks].
  { intros [= <- <- <-]. split; [done|]. repeat constructor. }
  destruct (acceptor _ _ _ st) as [[c st1] line] eqn:Ea. destruct (run_looks st1 l) as [[cs1 st2] ls1] eqn:Er.
  intros [= <- <- <-]. apply acceptor_serves in Ea as (Hc & Hor & _). destruct (IH _ _ _ _ Er) as [Hl Hf].
  split; [simpl; by rewrite Hl|]. assert (forall d, d = config st1 \/ (exists y, y ∈ l /\ build (built y) = Ok d) ->
    d = config st \/ (exists y, y ∈ x :: l /\ build (built y) = Ok d)) as Hmono.
  { intros d [->|(y & Hy & E)]; [rewrite Hc; destruct Hor as [?|?]; [by left|right; exists x; split; [left|done]]|].
    right. exists y. split; [by right|done]. }
  apply Forall_cons in Hf as [H2 Hf]. constructor; [by apply Hmono|]. constructor; [apply Hmono; by left|].
  eapply Forall_impl; [exact Hf|exact Hmono].
Qed.

(** Failures are reported once between two reloads. *)
Fixpoint reported_once (logged : bool) (l : list TerminatorLine) : Prop :=
  match l with
  | [] => True
  | Reloaded :: l => reported_once false l
  | ReloadFailed _ :: l => logged = false /\ reported_once true l
  end.
Lemma run_looks_reports l (st : State) cs st' lines : run_looks st l = (cs, st', lines) -> reported_once (reload_failure_logged st) lines.
Proof.
  revert st cs st' lines. induction l as [|x l IH]; intros st cs st' lines; cbn [Origin.run_looks]; [by intros [= <- <- <-]|].
  destruct (acceptor _ _ _ st) as [[c st1] line] eqn:Ea. destruct (run_looks st1 l) as [[cs1 st2] ls1] eqn:Er.
  intros [= <- <- <-]. specialize (IH _ _ _ _ Er). revert Ea. unfold Origin.acceptor.
  destruct (_ <=? _); [|by intros [= <- <- <-]]. destruct (_ || _); [|by intros [= <- <- <-]].
  destruct (build _); [by intros [= <- <- <-]|]. destruct (reload_failure_logged st) eqn:El; by intros [= <- <- <-].
Qed.
End Reload.

(** The terminator serves the last pair that was good: from a pair that loaded, every connection
    gets a configuration built from the files as some connection up to it, or the start, found them;
    a pair that does not load changes nothing and is reported once until one loads again; and once
    the files stay as they are and load, a connection thirty seconds after the last check - all
    that follow, too - gets exactly that pair, unless their times are the ones recorded already. *)
Theorem terminator_serves_last_good {Config} pem_certs pem_key single_cert cert key
    (f0 g0 : Files) now (st0 : TerminatorState (Config := Config)) l cs st lines :
  load_terminator pem_certs pem_key single_cert cert key f0 g0 now = Ok st0 ->
  run_looks pem_certs pem_key single_cert cert key st0 l = (cs, st, lines) ->
  let build := build_origin_server_config pem_certs pem_key single_cert cert key in
  (forall i c, cs !! i = Some c -> build f0 = Ok c \/ exists x, x ∈ take (S i) l /\ build (built x) = Ok c) /\
  (forall x c st' line, acceptor pem_certs pem_key single_cert cert key (at_ x) (stated x) (built x) st = (c, st', line) ->
     (exists e, build (built x) = Err e) -> c = config st) /\
  reported_once false lines /\
  (forall x l2 f c, Forall (fun y => stated y = f /\ built y = f) (x :: l2) -> build f = Ok c ->
     last_check st + ORIGIN_TLS_RELOAD_CHECK_INTERVAL <= at_ x ->
     cert_mtime st <> cert_file_mtime f \/ key_mtime st <> key_file_mtime f ->
     (run_looks pem_certs pem_key single_cert cert key st (x :: l2)).1.1 = (fun _ => c) <$> x :: l2).
Proof.
  intros Hl Er build. apply rbind_Ok in Hl as (c0 & Hb & [= Hst]). split_and!.
  - intros i c Hi. rewrite <-(take_drop (S i) l), run_looks_app in Er.
    destruct (run_looks _ _ _ _ _ st0 (take (S i) l)) as [[cs1 st1] ls1] eqn:E1.
    destruct (run_looks _ _ _ _ _ st1 (drop (S i) l)) as [[cs2 st2] ls2] eqn:E2. injection Er as <- <- <-.
    destruct (run_looks_good _ _ _ _ _ _ _ _ _ _ E1) as [Hlen Hf]. destruct (run_looks_good _ _ _ _ _ _ _ _ _ _ E2) as [Hlen2 _].
    apply lookup_lt_Some in Hi as Hlt. rewrite length_app, Hlen, Hlen2, length_take, length_drop in Hlt.
    rewrite lookup_app_l in Hi by (rewrite Hlen, length_take; lia).
    apply Forall_cons in Hf as [_ Hf]. rewrite Forall_lookup in Hf. destruct (Hf i c Hi) as [->|?]; [|by right].
    left. by rewrite <-Hst.
  - intros x c st' line Ea He. by apply acceptor_serves in Ea as (_ & _ & Hc); apply Hc.
  - apply run_looks_reports in Er. by rewrite <-Hst in Er.
  - intros x l2 f c Hf Hc Hdue Hnew. apply Forall_cons in Hf as [[Hx Hx'] Hf]. cbn [run_looks].
    unfold acceptor at 1. rewrite (proj2 (Z.leb_le _ _)) by lia. rewrite Hx, Hx'.
    replace (bool_decide _ || bool_decide _) with true.
    2: { symmetry. apply orb_true_iff. destruct Hnew as [Hn|Hn]; [left|right]; apply bool_decide_true; congruence. }
    fold build. rewrite Hc.
    match goal with |- context [run_looks _ _ _ _ _ ?s l2] => pose proof (looks_settled pem_certs pem_key single_cert cert key f l2 s) as Hs; destruct (run_looks _ _ _ _ _ s l2) as [[cs2 st2] ls2] end.
    simpl in *. rewrite Hs; [done| |done..]. eapply Forall_impl; [exact Hf|]. by intros y [].
Qed.

(** At the start the pair is read before its times: a renewal in between is never picked up, however
    long the agent runs. *)
Lemma renewal_during_load_is_missed {Config} pem_certs pem_key single_cert cert key
    (f0 f1 : Files) now (st0 : TerminatorState (Config := Config)) l :
  load_terminator pem_certs pem_key single_cert cert key f0 f1 now = Ok st0 -> Forall (fun x => stated x = f1) l ->
  build_origin_server_config pem_certs pem_key single_cert cert key f0 = Ok (config st0) /\
  (run_looks pem_certs pem_key single_cert cert key st0 l).1.1 = (fun _ => config st0) <$> l.
Proof.
  intros Hl Hf. apply rbind_Ok in Hl as (c0 & Hb & [= <-]). split; [done|]. by apply (looks_settled _ _ _ _ _ f1).
Qed.

(** ** What reaches the Origin *)

(** A reader of [Prefixed] gets the bytes that were sniffed and then the stream, however it reads. *)
Lemma poll_read_replays remaining chunk p : (pos p <= length (prefix p))%nat ->
  let '(bytes, p') := poll_read remaining chunk p in
  bytes ++ replayed p' = replayed p /\ (pos p' <= length (prefix p'))%nat /\
  ((remaining > 0)%nat -> (chunk > 0)%nat -> bytes = [] -> replayed p = []).
Proof.
  intros Hp. unfold poll_read, replayed. destruct (pos p <? length (prefix p))%nat eqn:E; simpl.
  - apply Nat.ltb_lt in E. split_and!; [|lia|].
    + rewrite app_assoc. f_equal. rewrite <-drop_drop. apply take_drop.
    + intros Hr _ Hb. apply (f_equal length) in Hb. rewrite length_take, length_drop in Hb. simpl in Hb. lia.
  - apply Nat.ltb_ge in E. rewrite !drop_ge by lia. simpl. split_and!; [apply take_drop|done|].
    intros Hr Hc Hb. apply (f_equal length) in Hb. rewrite length_take in Hb. destruct (inner p); [done|simpl in Hb; lia].
Qed.

Definition to_origin (l : list ServeAct) : list byte := concat (omap (fun a => match a with ToOrigin b => Some b | _ => None end) l).
Definition to_client (l : list ServeAct) : list byte := concat (omap (fun a => match a with ToClient b => Some b | _ => None end) l).
(** An act that reaches the Origin, or carries its bytes. *)
Definition touches_origin (a : ServeAct) : bool :=
  match a with OriginDialed _ | ToOrigin _ | ToClient _ => true | _ => false end.

Section Admission.
Context {Config : Type}.
Context (pem_certs : list byte -> result (list (list byte)) string) (pem_key : list byte -> result (list byte) string).
Context (single_cert : list (list byte) -> list byte -> result Config string).
Context (tls_accept : Config -> list byte -> TlsOutcome) (hmac : list byte -> list byte -> list byte).
Notation Terminator := (OriginTerminator (Config := Config)).
Notation serve := (serve_duplex_to_origin pem_certs pem_key single_cert tls_accept hmac).

Definition handed_out (w : StreamWorld) (t : Terminator) : Config :=
  (acceptor pem_certs pem_key single_cert (cert_path t) (key_path t) (at_ (look w)) (stated (look w)) (built (look w)) (state t)).1.1.
(** The first chunk the agent looks at. *)
Definition sniffed (w : StreamWorld) : list byte :=
  match first_read w with Ok n => take (Nat.max 1 (Nat.min 4096 n)) (client w) | Err _ => [] end.

(** Which bytes the Origin may get: the client's own; with a terminator that asks for no key, the
    client's or the plaintext; with one that does, the plaintext behind the tag of the key. *)
Inductive admitted (w : StreamWorld) : option Terminator -> list byte -> Prop :=
| AdmitRaw : client w <> [] -> admitted w None (client w)
| AdmitStripped t : owner_auth t = Off -> client w <> [] -> looks_like_tls_client_hello (sniffed w) = false ->
    admitted w (Some t) (client w)
| AdmitTls t sni plain : owner_auth t = Off -> looks_like_tls_client_hello (sniffed w) = true ->
    tls_accept (handed_out w t) (client w) = TlsUp sni plain -> admitted w (Some t) (arrives plain)
| AdmitOwner t k sni plain rest : owner_auth t = Required k -> looks_like_tls_client_hello (sniffed w) = true ->
    tls_accept (handed_out w t) (client w) = TlsUp sni plain ->
    arrives plain = tag hmac k (nonce w) ++ rest -> length (tag hmac k (nonce w)) = TAG_LEN -> admitted w (Some t) rest.

(** What a piece of the relay may do, given the bytes [b] meant for the Origin. *)
Definition carries (w : StreamWorld) (b : list byte) (m : S_ (Config := Config) unit) : Prop :=
  forall s r s', m s = (r, s') -> exists l, acts s' = acts s ++ l /\ to_origin l `prefix_of` b /\
    to_client l `prefix_of` origin_says w /\ (r = Ok tt -> to_origin l = b /\ to_client l = origin_says w).

Lemma to_origin_app a b : to_origin (a ++ b) = to_origin a ++ to_origin b.
Proof. unfold to_origin. by rewrite omap_app, concat_app. Qed.
Lemma to_client_app a b : to_client (a ++ b) = to_client a ++ to_client b.
Proof. unfold to_client. by rewrite omap_app, concat_app. Qed.

Lemma copy_carries w b : carries w b (copy_bidirectional w b).
Proof.
  intros s r s'. unfold copy_bidirectional. destruct (copying w) as [|up down e]; intros [= <- <-]; cbn [acts].
  - exists [ToOrigin b; ToClient (origin_says w)]. unfold to_origin, to_client. simpl.
    rewrite !app_nil_r, <-app_assoc. done.
  - exists [ToOrigin (take up b); ToClient (take down (origin_says w))]. unfold to_origin, to_client. simpl.
    rewrite !app_nil_r, <-app_assoc. split_and!; [done|apply prefix_take..|done].
Qed.

Lemma dial_run w o (s : SState (Config := Config)) r s' : dial w o s = (r, s') -> exists l, acts s' = acts s ++ map OriginDialed l.
Proof. unfold dial. destruct (connect_origin _ _ _) as [[x t] l]. intros [= <- <-]. by exists l. Qed.
Lemma dialed_carries_nothing l : to_origin (map OriginDialed l) = [] /\ to_client (map OriginDialed l) = [].
Proof. unfold to_origin, to_client. by induction l. Qed.

Lemma dial_carries w o b (m : S_ unit) : carries w b m -> carries w b (_ ← dial w o; m).
Proof.
  intros Hm s r s'. unfold mbind, s_bind. destruct (dial w o s) as [[[]|e] s1] eqn:Ed;
    apply dial_run in Ed as (l & El); destruct (dialed_carries_nothing l) as [H1 H2].
  - intros Er. destruct (Hm _ _ _ Er) as (l' & E & Ho & Hc & Hr). exists (map OriginDialed l ++ l').
    rewrite to_origin_app, to_client_app, H1, H2. split; [by rewrite E, El, app_assoc|done].
  - intros [= <- <-]. exists (map OriginDialed l). rewrite H1, H2. split_and!; [done|apply prefix_nil..|done].
Qed.

Lemma raw_carries w o first rest : carries w (first ++ rest) (serve_raw w o first rest).
Proof.
  apply dial_carries. intros s r s'. unfold mbind at 1, s_bind at 1. destruct (first_write w) as [[]|e].
  - unfold act. intros Er. destruct (copy_carries _ _ _ _ _ Er) as (l & E & Ho & Hc & Hr). exists (ToOrigin first :: l).
    change (to_origin (ToOrigin first :: l)) with (first ++ to_origin l). change (to_client (ToOrigin first :: l)) with (to_client l).
    split_and!; [rewrite E; cbn [acts]; by rewrite <-app_assoc|by apply prefix_app|done|].
    intros Hr'. by destruct (Hr Hr') as [-> ->].
  - intros [= <- <-]. exists []. unfold to_origin, to_client. simpl. split_and!; [by rewrite app_nil_r|apply prefix_nil..|done].
Qed.

Notation untouched l := (Forall (fun a => touches_origin a = false) l).
(** The outcome of a stream: the Origin never touched, or given what was admitted. *)
Definition outcome (w : StreamWorld) (t : option Terminator) (m : S_ (Config := Config) unit) : Prop :=
  forall s r s', m s = (r, s') -> exists l, acts s' = acts s ++ l /\
    (untouched l /\ (r = Ok tt -> client w = []) \/
     exists b, admitted w t b /\ to_origin l `prefix_of` b /\ to_client l `prefix_of` origin_says w /\
       (r = Ok tt -> to_origin l = b /\ to_client l = origin_says w)).

Lemma carried w t b m : admitted w t b -> carries w b m -> outcome w t m.
Proof. intros Hb Hm s r s' E. destruct (Hm _ _ _ E) as (l & El & H). exists l. eauto 10. Qed.
Lemma failed w t e : outcome w t (fail e).
Proof. intros s r s' [= <- <-]. exists []. rewrite app_nil_r. split; [done|]. left. by split; [constructor|]. Qed.
Lemma after_note w t a (m : S_ unit) : touches_origin a = false -> outcome w t m -> outcome w t (_ ← act a; m).
Proof.
  intros Ha Hm s r s' E. destruct (Hm _ _ _ E) as (l & El & H). cbn [acts] in El. rewrite <-app_assoc in El. exists (a :: l).
  split; [exact El|]. destruct H as [[Hu Hc]|(b & Hb)]; [left; split; [by constructor|done]|right]. exists b.
  by destruct a.
Qed.

Lemma after_accept w t t' (f : Config -> S_ (Config := Config) unit) : outcome w t (f (handed_out w t')) ->
  outcome w t (c ← accept_config pem_certs pem_key single_cert w t'; f c).
Proof.
  intros Hf s r s'. unfold mbind, s_bind, accept_config, handed_out in *.
  destruct (acceptor _ _ _ _ _ _ _ _ _) as [[c st] lines]. intros E. exact (Hf _ _ _ E).
Qed.

Lemma tls_outcome w t o first rest : sniffed w = first -> client w = first ++ rest -> looks_like_tls_client_hello first = true ->
  outcome w (Some t) (terminate_tls_then_forward pem_certs pem_key single_cert tls_accept hmac w (new_prefixed first rest) o t).
Proof.
  intros Hf Hcl Hh. apply after_accept. change (replayed (new_prefixed first rest)) with (first ++ rest). rewrite <-Hcl.
  destruct (tls_accept (handed_out w t) (client w)) as [sni plain|e|] eqn:Et; [|apply failed..].
  apply after_note; [done|]. destruct (owner_auth t) as [k|] eqn:Eo.
  - destruct (server_handshake hmac (nonce w) k plain) as [[[]|e] plain'] eqn:Es.
    + apply server_lets_in in Es as [Ha Hl]. eapply carried; [by eapply AdmitOwner; rewrite ?Hf|]. apply dial_carries, copy_carries.
    + intros s r s' E. destruct (after_note w (Some t) (EmitLimited SSH_OWNER_AUTH_REFUSED) (fail (OwnerAuthFailed e))
        eq_refl (failed _ _ _) s (Err (OwnerAuthFailed e)) s') as (l & El & H); [by injection E as <- <-|].
      exists l. split; [done|]. by injection E as <- <-.
  - eapply carried; [by eapply AdmitTls; rewrite ?Hf|]. apply dial_carries, copy_carries.
Qed.

Lemma first_and_rest k (l : list byte) : l = take k l ++ drop (length (take k l)) l.
Proof.
  rewrite length_take. destruct (decide (k <= length l)%nat).
  - rewrite Nat.min_l by done. by rewrite take_drop.
  - rewrite Nat.min_r, take_ge, drop_all by lia. by rewrite app_nil_r.
Qed.

Lemma serve_outcome w o t : outcome w t (serve w o t).
Proof.
  unfold serve_duplex_to_origin. pose proof (eq_refl (sniffed w)) as Hs. unfold sniffed at 1 in Hs.
  destruct (first_read w) as [n|e] eqn:En; [|apply failed]. cbv zeta.
  assert (client w = sniffed w ++ drop (length (sniffed w)) (client w)) as Hcl.
  { rewrite <-Hs. apply first_and_rest. }
  rewrite Hs. destruct (sniffed w) as [|x l] eqn:Ef.
  { intros s r s' [= <- <-]. exists []. rewrite app_nil_r. split; [done|]. left. split; [constructor|]. intros _.
    destruct (client w); [done|]. apply (f_equal length) in Hs. rewrite length_take in Hs. simpl in Hs. lia. }
  assert (client w <> []) as Hne by (by rewrite Hcl). rewrite <-Ef in *. clear Ef.
  destruct t as [t|].
  - destruct (looks_like_tls_client_hello (sniffed w)) eqn:Eh; [by apply tls_outcome|].
    destruct (owner_auth t) as [k|] eqn:Eo; [apply after_note; [done|apply failed]|].
    eapply carried; [by apply AdmitStripped|]. rewrite Hcl at 1. apply raw_carries.
  - eapply carried; [by apply AdmitRaw|]. rewrite Hcl at 1. apply raw_carries.
Qed.
End Admission.

(** C16: The Origin is not even dialed for a stream that is not admitted, and what it gets is what was
    admitted: the client's own bytes, unchanged and from the first one, where nothing is terminated;
    the plaintext of its TLS session; and where an owner's key is required, exactly the plaintext
    that follows the tag of that key on the nonce just drawn - never a stream the sniff did not take
    for TLS.  When the relay ends well the Origin got all of it and the client all of the answer. *)
Theorem origin_gets_only_what_is_admitted {Config} pem_certs pem_key single_cert tls_accept hmac
    w o (t : option (OriginTerminator (Config := Config))) s r s' :
  acts s = [] -> serve_duplex_to_origin pem_certs pem_key single_cert tls_accept hmac w o t s = (r, s') ->
  ((exists a, a ∈ acts s' /\ touches_origin a = true) \/ client w <> [] /\ r = Ok tt ->
   exists b, admitted pem_certs pem_key single_cert tls_accept hmac w t b /\
     to_origin (acts s') `prefix_of` b /\ to_client (acts s') `prefix_of` origin_says w /\
     (r = Ok tt -> to_origin (acts s') = b /\ to_client (acts s') = origin_says w)) /\
  (forall t' k b, t = Some t' -> owner_auth t' = Required k -> admitted pem_certs pem_key single_cert tls_accept hmac w t b ->
     exists sni plain, tls_accept (handed_out pem_certs pem_key single_cert w t') (client w) = TlsUp sni plain /\
       arrives plain = tag hmac k (nonce w) ++ b).
Proof.
  intros Hs E. destruct (serve_outcome _ _ _ _ _ _ _ _ _ _ _ E) as (l & El & H). rewrite Hs in El. simpl in El. rewrite El. split.
  - intros Ht. destruct H as [[Hu Hc]|H]; [|done]. exfalso. destruct Ht as [(a & Ha & Hta)|[Hne Hr]]; [|by apply Hne, Hc].
    rewrite Forall_forall in Hu. by rewrite (Hu a Ha) in Hta.
  - intros t' k b -> Ho Hb. inversion Hb; subst; try congruence. exists sni, plain. split; [done|]. congruence.
Qed.

(** ** Concrete runs *)

Definition demo_addr (n : Z) : SocketAddr := {| sock_ip := V4 10 0 0 n; sock_port := 443; sock_scope := 0 |}.
Definition demo_target : DialTarget := {| startup := demo_addr 1; host := Some "origin:443"%string |}.
Definition demo_reach (a : SocketAddr) : Connected := if bool_decide (a = demo_addr 2) then Up else Refused "connection refused".
Definition demo_dialing : DialWorld :=
  {| first_dial := demo_reach; lookup := Answers [demo_addr 2]; second_dial := demo_reach; during_dial := []; during_lookup := [] |}.

(** Three connections after the Origin moved from 10.0.0.1 to 10.0.0.2. *)
Lemma move_costs_one_dial_witness :
  (connections demo_target [] [demo_dialing; demo_dialing; demo_dialing]).*2 =
    [[demo_addr 1; demo_addr 2]; [demo_addr 2]; [demo_addr 2]] /\
  (length (concat (connections demo_target [] [demo_dialing; demo_dialing; demo_dialing]).*2) <= 4)%nat.
Proof.
  split; [reflexivity|].
  apply (move_costs_one_dial demo_target "origin:443" [] demo_reach (demo_addr 2) [] [demo_dialing; demo_dialing; demo_dialing]).
  - reflexivity.
  - repeat constructor.
  - intros x Hx. apply list_elem_of_singleton in Hx as ->. reflexivity.
Defined.

(** A pair is a byte each; they match when they are equal. *)
Definition toy_certs (b : list byte) : result (list (list byte)) string := Ok [b].
Definition toy_key (b : list byte) : result (list byte) string := Ok b.
Definition toy_single (chain : list (list byte)) (k : list byte) : result (list byte) string :=
  if bool_decide (chain = [k]) then Ok k else Err "key mismatch"%string.
Definition demo_files (c k : byte) (t u : Z) : Files :=
  {| cert_bytes := Ok [c]; key_bytes := Ok [k]; cert_file_mtime := Some t; key_file_mtime := Some u |}.
Definition demo_look (at_s : Z) (f : Files) : Look := {| at_ := at_s * SECOND; stated := f; built := f |}.
Definition demo_state : TerminatorState :=
  {| config := [Byte.x01]; cert_mtime := Some 1; key_mtime := Some 1; last_check := 0; reload_failure_logged := false |}.
(** The renewal writes the certificate first, and the key after two connections saw the half of it. *)
Definition demo_looks : list Look :=
  [demo_look 10 (demo_files Byte.x01 Byte.x01 1 1); demo_look 31 (demo_files Byte.x02 Byte.x01 2 1);
   demo_look 62 (demo_files Byte.x02 Byte.x01 2 1)].

Lemma terminator_serves_last_good_witness :
  exists st, run_looks toy_certs toy_key toy_single "c" "k" demo_state demo_looks =
      ([[Byte.x01]; [Byte.x01]; [Byte.x01]], st, [ReloadFailed "certificate c and key k rejected: key mismatch"]) /\
    reported_once false [ReloadFailed "certificate c and key k rejected: key mismatch"] /\
    (run_looks toy_certs toy_key toy_single "c" "k" st
       [demo_look 93 (demo_files Byte.x02 Byte.x02 2 2); demo_look 94 (demo_files Byte.x02 Byte.x02 2 2)]).1.1 = [[Byte.x02]; [Byte.x02]].
Proof.
  destruct (run_looks toy_certs toy_key toy_single "c" "k" demo_state demo_looks) as [[cs st] lines] eqn:E.
  destruct (terminator_serves_last_good toy_certs toy_key toy_single "c" "k" (demo_files Byte.x01 Byte.x01 1 1)
    (demo_files Byte.x01 Byte.x01 1 1) 0 demo_state demo_looks cs st lines eq_refl E) as (_ & _ & H3 & H4).
  vm_compute in E. injection E as <- <- <-. eexists. split; [reflexivity|]. split; [exact H3|].
  apply (H4 (demo_look 93 (demo_files Byte.x02 Byte.x02 2 2)) [demo_look 94 (demo_files Byte.x02 Byte.x02 2 2)]
    (demo_files Byte.x02 Byte.x02 2 2) [Byte.x02]).
  - repeat constructor.
  - reflexivity.
  - vm_compute. discriminate.
  - left. discriminate.
Defined.

(** Behind the ClientHello lies the plaintext; the owner's tag, then ssh's byte 53. *)
Definition demo_hello : list byte := [Byte.x16; Byte.x03; Byte.x01; Byte.x00; Byte.x10; Byte.x01].
Definition toy_tls (c : list byte) (l : list byte) : TlsOutcome := TlsUp None (demo_wire (drop 6 l)).
Definition demo_stream (plain : list byte) : StreamWorld :=
  {| client := demo_hello ++ plain; first_read := Ok 100%nat; dialing := demo_dialing; first_write := Ok tt; copying := Whole;
     origin_says := [Byte.x54]; nonce := demo_nonce; look := demo_look 10 (demo_files Byte.x01 Byte.x01 1 1) |}.
Definition demo_terminator : OriginTerminator (Config := list byte) :=
  {| cert_path := "c"; key_path := "k"; state := demo_state; owner_auth := Required (demo_key Byte.x07) |}.
Definition demo_start : SState (Config := list byte) := {| learned := []; left_state := None; acts := [] |}.

Lemma origin_gets_only_what_is_admitted_witness :
  exists s', serve_duplex_to_origin toy_certs toy_key toy_single toy_tls toy_hmac (demo_stream (demo_key Byte.x07 ++ [Byte.x53]))
      demo_target (Some demo_terminator) demo_start = (Ok tt, s') /\
    acts s' = [EmitLimited ORIGIN_TLS_TERMINATED; OriginDialed (demo_addr 1); OriginDialed (demo_addr 2);
               ToOrigin [Byte.x53]; ToClient [Byte.x54]] /\
    exists b, admitted toy_certs toy_key toy_single toy_tls toy_hmac (demo_stream (demo_key Byte.x07 ++ [Byte.x53])) (Some demo_terminator) b /\
      to_origin (acts s') = b.
Proof.
  destruct (serve_duplex_to_origin toy_certs toy_key toy_single toy_tls toy_hmac (demo_stream (demo_key Byte.x07 ++ [Byte.x53]))
    demo_target (Some demo_terminator) demo_start) as [r s'] eqn:E.
  assert (r = Ok tt) as -> by (apply (f_equal fst) in E; vm_compute in E; by rewrite <-E).
  exists s'. split; [reflexivity|].
  destruct (origin_gets_only_what_is_admitted toy_certs toy_key toy_single toy_tls toy_hmac
    (demo_stream (demo_key Byte.x07 ++ [Byte.x53])) demo_target (Some demo_terminator) demo_start (Ok tt) s' eq_refl E) as [H1 _].
  split; [apply (f_equal (fun p => acts (snd p))) in E; vm_compute in E; symmetry; exact E|].
  destruct H1 as (b & Hb & _ & _ & Hr); [right; split; [discriminate|reflexivity]|].
  exists b. split; [exact Hb|]. apply Hr. reflexivity.
Defined.
