(* ===== verification/FramedRelay.v ===== *)
(** * FramedRelay: the framed hop of the TLS-TCP fallback ([serve.rs])

    [serve_framed_duplex_to_origin]: the edge's frames unframed towards the Origin, the Origin's bytes
    framed towards the edge, and the one writer that owns the edge direction with its keepalives, its
    verdict on a silent peer and its bound on a half-closed relay.  Each of the three halves is a step
    function of its await; an event is one completion.  ct-common's codec and its keepalive tracker are
    parameters. *)
From S2P Require Import Prelude.

#[local] Open Scope Z_scope.

(** ** What ct-common provides *)

(** The frames its reader answers, with the verdict on acknowledging a keepalive. *)
Inductive Frame := FData (d : list byte) | FKeepalive (counter : Z) (should_ack : bool) | FKeepaliveAck (counter : Z) | FFin.
#[global] Instance Frame_eq_decision : EqDecision Frame.
Proof. solve_decision. Defined.
(** The calls on its writer that succeeded, with the time, and between them the acknowledgements that
    were noted for the status; the writer's [fin_sent] says whether its FIN is among them. *)
Inductive Call := WData (p : list byte) | WFlush | WKeepalive (c : Z) | WKeepaliveAck (c : Z) | WFin | WShutdown | NoteKeepalive (c : Z).
Definition fin_sent (calls : list (Z * Call)) : bool := existsb (fun c => match c.2 with WFin => true | _ => false end) calls.

(** [KeepaliveTracker]: what was sent and is not yet acknowledged; times are milliseconds. *)
Class TrackerOps (T : Type) := {
  new_tracker : T;
  tracker_sent : Z -> Z -> T -> T;
  tracker_ack : Z -> T -> T;
  oldest_outstanding_age_ms : Z -> T -> option Z
}.
Class TrackerLaws (T : Type) `{TrackerOps T} := {
  outstanding : T -> list (Z * Z);
  outstanding_new : outstanding new_tracker = [];
  outstanding_sent c t tr : outstanding (tracker_sent c t tr) ⊆ (c, t) :: outstanding tr;
  outstanding_ack c tr p : p ∈ outstanding (tracker_ack c tr) -> p ∈ outstanding tr /\ p.1 <> c;
  oldest_is_outstanding now tr age : oldest_outstanding_age_ms now tr = Some age ->
    exists c t, (c, t) ∈ outstanding tr /\ age = sat_sub now t
}.

Definition FRAMED_CHUNK : Z := 16 * 1024.
Definition FRAMED_WRITE_QUEUE : Z := 16.

Inductive EdgeWrite := Data (payload : list byte) (flush : bool) | Ack (c : Z) | AckReceived (c : Z) | Fin | PeerFin.

Section Relay.
Context {T : Type} `{TrackerOps T}.
Context (KEEPALIVE_INTERVAL KEEPALIVE_DEAD_AFTER POST_PEER_FIN_IDLE_BOUND : Z).

(** ** The writer *)

Record Writer := { calls : list (Z * Call); tracker : T; counter : Z; peer_fin : bool; start : Z; last_write : Z; last_data : Z }.
(** A piece of the writer: the answers of its calls to come (all well when there are none). *)
Definition W (A : Type) : Type := list (option string) -> Writer -> result A string * list (option string) * Writer.
#[global] Instance w_ret : MRet W := fun A a io w => (Ok a, io, w).
#[global] Instance w_bind : MBind W := fun A B f m io w =>
  match m io w with
  | (Ok a, io, w) => f a io w
  | (Err e, io, w) => (Err e, io, w)
  end.
Definition set_calls (c : list (Z * Call)) (w : Writer) : Writer :=
  {| calls := c; tracker := tracker w; counter := counter w; peer_fin := peer_fin w; start := start w;
     last_write := last_write w; last_data := last_data w |}.
Definition call (now : Z) (c : Call) : W unit := fun io w =>
  match io with
  | Some e :: io => (Err e, io, w)
  | _ => (Ok tt, tail io, set_calls (calls w ++ [(now, c)]) w)
  end.
Definition update (f : Writer -> Writer) : W unit := fun io w => (Ok tt, io, f w).

Definition wrote (now : Z) (w : Writer) : Writer :=
  {| calls := calls w; tracker := tracker w; counter := counter w; peer_fin := peer_fin w; start := start w;
     last_write := now; last_data := last_data w |}.
Definition wrote_data (now : Z) (w : Writer) : Writer :=
  {| calls := calls w; tracker := tracker w; counter := counter w; peer_fin := peer_fin w; start := start w;
     last_write := now; last_data := now |}.
Definition acked (now c : Z) (w : Writer) : Writer :=
  {| calls := calls w ++ [(now, NoteKeepalive c)]; tracker := tracker_ack c (tracker w); counter := counter w; peer_fin := peer_fin w; start := start w;
     last_write := last_write w; last_data := last_data w |}.
Definition peer_finned (now : Z) (w : Writer) : Writer :=
  {| calls := calls w; tracker := new_tracker; counter := counter w; peer_fin := true; start := start w;
     last_write := last_write w; last_data := if peer_fin w then last_data w else now |}.

Definition apply_edge_write (now : Z) (ev : EdgeWrite) : W unit :=
  match ev with
  | Data payload flush =>
      _ ← call now (WData payload);
      _ ← (if flush then call now WFlush else mret tt);
      update (wrote_data now)
  | Ack c => _ ← call now (WKeepaliveAck c); update (wrote now)
  | AckReceived c => update (acked now c)
  | Fin => _ ← call now WFin; update (wrote now)
  | PeerFin => update (peer_finned now)
  end.

Definition now_ms (w : Writer) (t : Z) : Z := (t - start w) / MILLI.

(** The keepalive arm. *)
Definition keepalive_arm (now : Z) : W unit := fun io w =>
  let c := wrap 64 (counter w + 1) in
  (_ ← call now (WKeepalive c);
   update (fun w =>
     {| calls := calls w; tracker := if peer_fin w then tracker w else tracker_sent c (now_ms w now) (tracker w); counter := c;
        peer_fin := peer_fin w; start := start w; last_write := now; last_data := last_data w |})) io w.
(** The progress-idle arm. *)
Definition idle_arm (now : Z) : W unit := _ ← call now WFin; update (wrote now).

Inductive RelayError := ReadErr (e : string) | DialErr (e : string) | OriginErr (e : string) | EdgeErr (e : string) | DialedTwice | DeadPeer (age : Z).
(** Where the writer stands: at the [select!], with the deadline computed for it, or draining the
    queue before it judges. *)
Inductive WriterAt := Selecting (deadline : option Z) | Draining.

(** ** The relay *)

Inductive UpAt := UpReading | UpDialing (d : list byte) | UpWriting (d : list byte) | UpSending (ev : EdgeWrite) | UpLast | UpDone.
Inductive DownAt := DownWaiting | DownReading | DownSending (payload : list byte) (flush : bool) | DownFin | DownDone.
(** The oneshot that hands over the Origin's read half. *)
Inductive DialTx := Held | Handed | Dropped.

Record Relay := {
  up : UpAt; origin_w : bool; dial_tx : DialTx; down : DownAt; queue : list EdgeWrite; writer : Writer; writer_at : WriterAt;
  clock : Z; result_ : option (result unit RelayError);
  (* what happened: the frames read, the dials, the bytes the Origin got and was half-closed after, the
     bytes it said *)
  frames : list Frame; dials : nat; to_origin : list byte; origin_shut : bool; said : list byte
}.

Definition set_up (u : UpAt) (r : Relay) : Relay :=
  {| up := u; origin_w := origin_w r; dial_tx := dial_tx r; down := down r; queue := queue r; writer := writer r; writer_at := writer_at r;
     clock := clock r; result_ := result_ r; frames := frames r; dials := dials r; to_origin := to_origin r; origin_shut := origin_shut r; said := said r |}.
Definition set_down (d : DownAt) (said' : list byte) (r : Relay) : Relay :=
  {| up := up r; origin_w := origin_w r; dial_tx := dial_tx r; down := d; queue := queue r; writer := writer r; writer_at := writer_at r;
     clock := clock r; result_ := result_ r; frames := frames r; dials := dials r; to_origin := to_origin r; origin_shut := origin_shut r; said := said' |}.
Definition set_queue (q : list EdgeWrite) (r : Relay) : Relay :=
  {| up := up r; origin_w := origin_w r; dial_tx := dial_tx r; down := down r; queue := q; writer := writer r; writer_at := writer_at r;
     clock := clock r; result_ := result_ r; frames := frames r; dials := dials r; to_origin := to_origin r; origin_shut := origin_shut r; said := said r |}.
Definition set_writer (w : Writer) (a : WriterAt) (r : Relay) : Relay :=
  {| up := up r; origin_w := origin_w r; dial_tx := dial_tx r; down := down r; queue := queue r; writer := w; writer_at := a;
     clock := clock r; result_ := result_ r; frames := frames r; dials := dials r; to_origin := to_origin r; origin_shut := origin_shut r; said := said r |}.
Definition finish (x : result unit RelayError) (r : Relay) : Relay :=
  {| up := up r; origin_w := origin_w r; dial_tx := dial_tx r; down := down r; queue := queue r; writer := writer r; writer_at := writer_at r;
     clock := clock r; result_ := Some x; frames := frames r; dials := dials r; to_origin := to_origin r; origin_shut := origin_shut r; said := said r |}.
Definition set_clock (t : Z) (r : Relay) : Relay :=
  {| up := up r; origin_w := origin_w r; dial_tx := dial_tx r; down := down r; queue := queue r; writer := writer r; writer_at := writer_at r;
     clock := t; result_ := result_ r; frames := frames r; dials := dials r; to_origin := to_origin r; origin_shut := origin_shut r; said := said r |}.
Definition got_frame (f : Frame) (r : Relay) : Relay :=
  {| up := up r; origin_w := origin_w r; dial_tx := dial_tx r; down := down r; queue := queue r; writer := writer r; writer_at := writer_at r;
     clock := clock r; result_ := result_ r; frames := frames r ++ [f]; dials := dials r; to_origin := to_origin r; origin_shut := origin_shut r; said := said r |}.
Definition dialed (tx : DialTx) (r : Relay) : Relay :=
  {| up := up r; origin_w := true; dial_tx := tx; down := down r; queue := queue r; writer := writer r; writer_at := writer_at r;
     clock := clock r; result_ := result_ r; frames := frames r; dials := S (dials r); to_origin := to_origin r; origin_shut := origin_shut r; said := said r |}.
Definition wrote_origin (d : list byte) (r : Relay) : Relay :=
  {| up := up r; origin_w := origin_w r; dial_tx := dial_tx r; down := down r; queue := queue r; writer := writer r; writer_at := writer_at r;
     clock := clock r; result_ := result_ r; frames := frames r; dials := dials r; to_origin := to_origin r ++ d; origin_shut := origin_shut r; said := said r |}.
(** The write half is taken and shut, when there is one. *)
Definition shut_origin (r : Relay) : Relay :=
  {| up := up r; origin_w := false; dial_tx := dial_tx r; down := down r; queue := queue r; writer := writer r; writer_at := writer_at r;
     clock := clock r; result_ := result_ r; frames := frames r; dials := dials r;
     to_origin := to_origin r; origin_shut := origin_shut r || origin_w r; said := said r |}.
(** A sender still held is dropped. *)
Definition drop_dial (r : Relay) : Relay :=
  {| up := up r; origin_w := origin_w r; dial_tx := match dial_tx r with Held => Dropped | x => x end; down := down r; queue := queue r;
     writer := writer r; writer_at := writer_at r; clock := clock r; result_ := result_ r; frames := frames r; dials := dials r;
     to_origin := to_origin r; origin_shut := origin_shut r; said := said r |}.

(** *** Edge to Origin *)

Definition on_frame (f : Frame) (r : Relay) : Relay :=
  let r := got_frame f r in
  match f with
  | FData [] => r
  | FData d => if origin_w r then set_up (UpWriting d) r else set_up (UpDialing d) r
  | FKeepalive c should_ack => if should_ack then set_up (UpSending (Ack c)) r else r
  | FKeepaliveAck c => set_up (UpSending (AckReceived c)) r
  | FFin => set_up (UpSending PeerFin) (drop_dial (shut_origin r))
  end.
Definition up_frame (x : result (option Frame) string) (r : Relay) : option Relay :=
  match up r with
  | UpReading => Some
      match x with
      | Ok (Some f) => on_frame f r
      | Ok None => set_up UpLast (shut_origin r)
      | Err e => finish (Err (ReadErr e)) r
      end
  | _ => None
  end.
Definition up_dialed (x : result unit string) (r : Relay) : option Relay :=
  match up r with
  | UpDialing d => Some
      match x with
      | Ok _ =>
          match dial_tx r with
          | Held => set_up (UpWriting d) (dialed Handed r)
          | tx => finish (Err DialedTwice) (dialed tx r)
          end
      | Err e => finish (Err (DialErr e)) r
      end
  | _ => None
  end.
Definition up_written (x : result unit string) (r : Relay) : option Relay :=
  match up r with
  | UpWriting d => Some
      match x with
      | Ok _ => set_up UpReading (wrote_origin d r)
      | Err e => finish (Err (OriginErr e)) r
      end
  | _ => None
  end.
(** A send completes when the queue has room. *)
Definition push (ev : EdgeWrite) (r : Relay) : option Relay :=
  if Zlen (queue r) <? FRAMED_WRITE_QUEUE then Some (set_queue (queue r ++ [ev]) r) else None.
Definition up_send (r : Relay) : option Relay :=
  match up r with
  | UpSending ev => let? r := push ev r in Some (set_up UpReading r)
  | UpLast => let? r := push PeerFin r in Some (drop_dial (set_up UpDone r))
  | _ => None
  end.

(** *** Origin to edge *)

Definition down_start (r : Relay) : option Relay :=
  match down r, dial_tx r with
  | DownWaiting, Handed => Some (set_down DownReading (said r) r)
  | DownWaiting, Dropped => Some (set_down DownFin (said r) r)
  | _, _ => None
  end.
(** A read into the buffer of [FRAMED_CHUNK] bytes. *)
Definition down_read (x : result (list byte) string) (r : Relay) : option Relay :=
  match down r with
  | DownReading =>
      match x with
      | Ok [] => Some (set_down DownFin (said r) r)
      | Ok bytes =>
          if Zlen bytes <=? FRAMED_CHUNK then Some (set_down (DownSending bytes (Zlen bytes <? FRAMED_CHUNK)) (said r ++ bytes) r) else None
      | Err e => Some (finish (Err (OriginErr e)) r)
      end
  | _ => None
  end.
Definition down_send (r : Relay) : option Relay :=
  match down r with
  | DownSending payload flush => let? r := push (Data payload flush) r in Some (set_down DownReading (said r) r)
  | DownFin => let? r := push Fin r in Some (set_down DownDone (said r) r)
  | _ => None
  end.

(** *** The writer *)

Definition deadline_at (now : Z) (w : Writer) : option Z :=
  (fun age => now + sat_sub KEEPALIVE_DEAD_AFTER (age * MILLI)) <$> oldest_outstanding_age_ms (now_ms w now) (tracker w).
Definition loop_top (io : list (option string)) (r : Relay) : Relay :=
  if fin_sent (calls (writer r)) && peer_fin (writer r) then
    match call (clock r) WShutdown io (writer r) with
    | (Ok _, _, w) => finish (Ok tt) (set_writer w (writer_at r) r)
    | (Err e, _, w) => finish (Err (EdgeErr e)) (set_writer w (writer_at r) r)
    end
  else set_writer (writer r) (Selecting (deadline_at (clock r) (writer r))) r.
(** An arm, and the way back to the top of the loop. *)
Definition run_arm (m : W unit) (io : list (option string)) (r : Relay) : Relay :=
  match m io (writer r) with
  | (Ok _, io, w) => loop_top io (set_writer w (writer_at r) r)
  | (Err e, _, w) => finish (Err (EdgeErr e)) (set_writer w (writer_at r) r)
  end.

Definition readers_gone (r : Relay) : bool :=
  match up r, down r with UpDone, DownDone => true | _, _ => false end.
Definition writer_recv (io : list (option string)) (r : Relay) : option Relay :=
  match writer_at r, queue r with
  | Selecting _, ev :: q => Some (run_arm (apply_edge_write (clock r) ev) io (set_queue q r))
  | Selecting _, [] =>
      if readers_gone r then
        Some match call (clock r) WShutdown io (writer r) with
             | (Ok _, _, w) => finish (Ok tt) (set_writer w (writer_at r) r)
             | (Err e, _, w) => finish (Err (EdgeErr e)) (set_writer w (writer_at r) r)
             end
      else None
  | Draining, _ => None
  end.
Definition writer_keepalive (io : list (option string)) (r : Relay) : option Relay :=
  match writer_at r with
  | Selecting _ =>
      if last_write (writer r) + KEEPALIVE_INTERVAL <=? clock r then Some (run_arm (keepalive_arm (clock r)) io r) else None
  | Draining => None
  end.
Definition writer_idle (io : list (option string)) (r : Relay) : option Relay :=
  match writer_at r with
  | Selecting _ =>
      if peer_fin (writer r) && negb (fin_sent (calls (writer r))) && (last_data (writer r) + POST_PEER_FIN_IDLE_BOUND <=? clock r)
      then Some (run_arm (idle_arm (clock r)) io r) else None
  | Draining => None
  end.
Definition writer_deadline (r : Relay) : option Relay :=
  match writer_at r with
  | Selecting (Some d) => if d <=? clock r then Some (set_writer (writer r) Draining r) else None
  | _ => None
  end.
(** [try_recv] while the queue has something, then the verdict. *)
Definition writer_drain (io : list (option string)) (r : Relay) : option Relay :=
  match writer_at r, queue r with
  | Draining, ev :: q =>
      Some match apply_edge_write (clock r) ev io (writer r) with
           | (Ok _, _, w) => set_writer w Draining (set_queue q r)
           | (Err e, _, w) => finish (Err (EdgeErr e)) (set_writer w Draining (set_queue q r))
           end
  | Draining, [] =>
      Some match oldest_outstanding_age_ms (now_ms (writer r) (clock r)) (tracker (writer r)) with
           | Some age => if KEEPALIVE_DEAD_AFTER / MILLI <=? age then finish (Err (DeadPeer age)) r else loop_top io r
           | None => loop_top io r
           end
  | Selecting _, _ => None
  end.

(** *** The steps *)

Inductive Happening :=
| UpFrame (x : result (option Frame) string) | UpDialed (x : result unit string) | UpWritten (x : result unit string) | UpSend
| DownStart | DownRead (x : result (list byte) string) | DownSend
| WriterRecv (io : list (option string)) | WriterKeepalive (io : list (option string)) | WriterIdle (io : list (option string))
| WriterDeadline | WriterDrain (io : list (option string)).

(** Something happens, or completes, at a time. *)
Definition happens (e : Happening) (r : Relay) : option Relay :=
  match e with
  | UpFrame x => up_frame x r
  | UpDialed x => up_dialed x r
  | UpWritten x => up_written x r
  | UpSend => up_send r
  | DownStart => down_start r
  | DownRead x => down_read x r
  | DownSend => down_send r
  | WriterRecv io => writer_recv io r
  | WriterKeepalive io => writer_keepalive io r
  | WriterIdle io => writer_idle io r
  | WriterDeadline => writer_deadline r
  | WriterDrain io => writer_drain io r
  end.
Definition step (t : Z) (e : Happening) (r : Relay) : option Relay :=
  match result_ r with
  | Some _ => None
  | None => if clock r <=? t then happens e (set_clock t r) else None
  end.

Definition new_writer (now : Z) : Writer :=
  {| calls := []; tracker := new_tracker; counter := 0; peer_fin := false; start := now; last_write := now; last_data := now |}.
Definition serve_framed_duplex_to_origin (now : Z) : Relay :=
  {| up := UpReading; origin_w := false; dial_tx := Held; down := DownWaiting; queue := []; writer := new_writer now;
     writer_at := Selecting None; clock := now; result_ := None; frames := []; dials := 0; to_origin := []; origin_shut := false; said := [] |}.

Inductive reachable (now : Z) : Relay -> Prop :=
| Starts : reachable now (serve_framed_duplex_to_origin now)
| Goes_on r t e r' : reachable now r -> step t e r = Some r' -> reachable now r'.

Fixpoint run (r : Relay) (l : list (Z * Happening)) : option Relay :=
  match l with
  | [] => Some r
  | (t, e) :: l => let? r := step t e r in run r l
  end.

(** ** What the writer may do

    [effect] is a queued command that went through; [moved] lists the moves from a queue and a writer
    at the time [now]: to which queue, writer, result and await. *)
Definition effect (now : Z) (ev : EdgeWrite) (w : Writer) : Writer :=
  match ev with
  | Data p flush => wrote_data now (set_calls (calls w ++ (now, WData p) :: (if flush then [(now, WFlush)] else [])) w)
  | Ack c => wrote now (set_calls (calls w ++ [(now, WKeepaliveAck c)]) w)
  | AckReceived c => acked now c w
  | Fin => wrote now (set_calls (calls w ++ [(now, WFin)]) w)
  | PeerFin => peer_finned now w
  end.
Definition kept_alive (now : Z) (w : Writer) : Writer :=
  let c := wrap 64 (counter w + 1) in
  {| calls := calls w ++ [(now, WKeepalive c)];
     tracker := if peer_fin w then tracker w else tracker_sent c (now_ms w now) (tracker w); counter := c;
     peer_fin := peer_fin w; start := start w; last_write := now; last_data := last_data w |}.
Definition finned (now : Z) (w : Writer) : Writer := wrote now (set_calls (calls w ++ [(now, WFin)]) w).
Definition shut_down (now : Z) (w : Writer) : Writer := set_calls (calls w ++ [(now, WShutdown)]) w.
Definition both_fins (w : Writer) : bool := fin_sent (calls w) && peer_fin w.

Inductive settles (now : Z) (w : Writer) : Writer -> option (result unit RelayError) -> WriterAt -> Prop :=
| Over a : both_fins w = true -> settles now w (shut_down now w) (Some (Ok tt)) a
| ShutFails e a : both_fins w = true -> settles now w w (Some (Err (EdgeErr e))) a
| Waits d : both_fins w = false -> settles now w w None (Selecting d).
Inductive moved (now : Z) (gone : bool) (q : list EdgeWrite) (w : Writer) (a : WriterAt)
  : list EdgeWrite -> Writer -> option (result unit RelayError) -> WriterAt -> Prop :=
| Pops ev q' w' res a' : q = ev :: q' -> settles now (effect now ev w) w' res a' -> moved now gone q w a q' w' res a'
| PopsDraining ev q' : q = ev :: q' -> moved now gone q w a q' (effect now ev w) None Draining
| PopFails ev q' cs e a' : q = ev :: q' -> (cs = [] \/ exists p, ev = Data p true /\ cs = [(now, WData p)]) ->
    moved now gone q w a q' (set_calls (calls w ++ cs) w) (Some (Err (EdgeErr e))) a'
| KeepsAlive w' res a' : settles now (kept_alive now w) w' res a' -> moved now gone q w a q w' res a'
| Fails e : moved now gone q w a q w (Some (Err (EdgeErr e))) a
| EndsIdle w' res a' : peer_fin w = true -> fin_sent (calls w) = false -> last_data w + POST_PEER_FIN_IDLE_BOUND <= now ->
    settles now (finned now w) w' res a' -> moved now gone q w a q w' res a'
| BothGone d : q = [] -> gone = true -> a = Selecting d -> moved now gone q w a q (shut_down now w) (Some (Ok tt)) a
| Judges : moved now gone q w a q w None Draining
| Dead age : q = [] -> oldest_outstanding_age_ms (now_ms w now) (tracker w) = Some age -> KEEPALIVE_DEAD_AFTER / MILLI <= age ->
    moved now gone q w a q w (Some (Err (DeadPeer age))) a
| Acquits w' res a' : q = [] -> settles now w w' res a' -> moved now gone q w a q w' res a'.

Definition after_writer (q : list EdgeWrite) (w : Writer) (res : option (result unit RelayError)) (a : WriterAt) (r : Relay) : Relay :=
  {| up := up r; origin_w := origin_w r; dial_tx := dial_tx r; down := down r; queue := q; writer := w; writer_at := a;
     clock := clock r; result_ := res; frames := frames r; dials := dials r; to_origin := to_origin r; origin_shut := origin_shut r; said := said r |}.

Lemma apply_effect now ev io w : match apply_edge_write now ev io w with
  | (Ok _, _, w') => w' = effect now ev w
  | (Err _, _, w') => exists cs, w' = set_calls (calls w ++ cs) w /\ (cs = [] \/ exists p, ev = Data p true /\ cs = [(now, WData p)])
  end.
Proof.
  assert (w = set_calls (calls w ++ []) w) as Hw by (rewrite app_nil_r; by destruct w).
  destruct ev as [p f|c|c| |]; unfold apply_edge_write, mbind, w_bind, call, update; simpl; [|destruct io as [|[e|] io]|..]; try done.
  - destruct io as [|[e|] io]; [destruct f; [|done]; simpl; by rewrite <-app_assoc|by exists []; auto|].
    destruct f; [|done]. destruct io as [|[e|] io]; simpl; [by rewrite <-app_assoc| |by rewrite <-app_assoc].
    exists [(now, WData p)]. split; [done|]. right. by exists p.
  - by exists []; auto.
  - destruct io as [|[e|] io]; [done| |done]. by exists []; auto.
Qed.
Lemma keepalive_effect now io w : match keepalive_arm now io w with
  | (Ok _, _, w') => w' = kept_alive now w
  | (Err _, _, w') => w' = w
  end.
Proof. unfold keepalive_arm, mbind, w_bind, call, update. by destruct io as [|[e|] io]. Qed.
Lemma idle_effect now io w : match idle_arm now io w with
  | (Ok _, _, w') => w' = finned now w
  | (Err _, _, w') => w' = w
  end.
Proof. unfold idle_arm, mbind, w_bind, call, update. by destruct io as [|[e|] io]. Qed.

Lemma loop_top_settles io r w : result_ r = None -> exists w' res a,
  loop_top io (set_writer w (writer_at r) r) = after_writer (queue r) w' res a r /\ settles (clock r) w w' res a.
Proof.
  intros Hr. unfold loop_top, call. cbn [writer set_writer]. fold (both_fins w). destruct (both_fins w) eqn:Eb.
  - destruct io as [|[e|] io]; cbn [clock]; do 3 eexists; (split; [reflexivity|]); by constructor.
  - do 3 eexists. split; [unfold after_writer, set_writer; simpl; by rewrite Hr|]. by constructor.
Qed.

Definition is_writer (e : Happening) : bool :=
  match e with WriterRecv _ | WriterKeepalive _ | WriterIdle _ | WriterDeadline | WriterDrain _ => true | _ => false end.
Lemma writer_moves e r r' : is_writer e = true -> result_ r = None -> happens e r = Some r' ->
  exists q w res a, r' = after_writer q w res a r /\ moved (clock r) (readers_gone r) (queue r) (writer r) (writer_at r) q w res a.
Proof.
  intros He Hr.
  destruct e as [| | | | | | |io|io|io| |io]; try done; cbn [happens]; unfold writer_recv, writer_keepalive, writer_idle, writer_deadline, writer_drain.
  - destruct (writer_at r) as [d|] eqn:Ea; [|by destruct (queue r)]. destruct (queue r) as [|ev q] eqn:Eq.
    + destruct (readers_gone r) eqn:Eg; [|done]. unfold call. destruct io as [|[e|] io]; intros [= <-];
        (do 4 eexists; split; [unfold after_writer, finish, set_writer; simpl; by rewrite Eq|]); rewrite ?Ea; by econstructor.
    + intros [= <-]. unfold run_arm. pose proof (apply_effect (clock r) ev io (writer r)) as Hap. cbn [writer set_queue].
      destruct (apply_edge_write (clock r) ev io (writer r)) as [[[[]|e] io'] w'].
      * destruct (loop_top_settles io' (set_queue q r) w') as (w2 & res & a & -> & Hs); [done|].
        exists q, w2, res, a. split; [done|]. eapply Pops; [done|]. by rewrite <-Hap.
      * destruct Hap as (cs & -> & Hcs). do 4 eexists. split; [reflexivity|]. by eapply PopFails.
  - destruct (writer_at r) as [d|] eqn:Ea; [|done]. destruct (_ <=? _); [|done]. intros [= <-]. unfold run_arm.
    pose proof (keepalive_effect (clock r) io (writer r)) as Hap. destruct (keepalive_arm _ _ _) as [[[[]|e] io'] w']; subst w'.
    + destruct (loop_top_settles io' r (kept_alive (clock r) (writer r))) as (w2 & res & a & -> & Hs); [done|].
      exists (queue r), w2, res, a. split; [done|]. by apply KeepsAlive.
    + do 4 eexists. split; [reflexivity|]. rewrite Ea. apply Fails.
  - destruct (writer_at r) as [d|] eqn:Ea; [|done]. destruct (peer_fin (writer r)) eqn:Ep; [|done].
    destruct (fin_sent _) eqn:Ef; [done|]. destruct (_ <=? _) eqn:El; [|done]. apply Z.leb_le in El. intros [= <-]. unfold run_arm.
    pose proof (idle_effect (clock r) io (writer r)) as Hap. destruct (idle_arm _ _ _) as [[[[]|e] io'] w']; subst w'.
    + destruct (loop_top_settles io' r (finned (clock r) (writer r))) as (w2 & res & a & -> & Hs); [done|].
      exists (queue r), w2, res, a. split; [done|]. by apply EndsIdle.
    + do 4 eexists. split; [reflexivity|]. rewrite Ea. apply Fails.
  - destruct (writer_at r) as [[d|]|] eqn:Ea; [|done..]. destruct (_ <=? _); [|done]. intros [= <-].
    do 4 eexists. split; [unfold after_writer, set_writer; by rewrite Hr|]. apply Judges.
  - destruct (writer_at r) as [d|] eqn:Ea; [done|]. destruct (queue r) as [|ev q] eqn:Eq; intros [= <-].
    + destruct (oldest_outstanding_age_ms _ _) as [age|] eqn:Eo; [destruct (_ <=? _) eqn:El|].
      1: { apply Z.leb_le in El. do 4 eexists. split; [unfold after_writer, finish; by rewrite Eq, Ea|]. by apply Dead. }
      all: destruct (loop_top_settles io r (writer r)) as (w2 & res & a & E & Hs); [done|];
        rewrite Ea, Eq in E; exists [], w2, res, a; (split; [|by apply Acquits]); rewrite <-E; f_equal; by destruct r; simpl in *; subst.
    + pose proof (apply_effect (clock r) ev io (writer r)) as Hap.
      destruct (apply_edge_write (clock r) ev io (writer r)) as [[[[]|e] io'] w'].
      * subst w'. do 4 eexists. split; [unfold after_writer, set_writer, set_queue; simpl; by rewrite Hr|]. by eapply PopsDraining.
      * destruct Hap as (cs & -> & Hcs). do 4 eexists. split; [reflexivity|]. by eapply PopFails.
Qed.

(** ** Invariants of a relay *)

(** The Origin's bytes on the wire, in the queue and in hand; and where data and FINs stand among them. *)
Definition payloads (l : list (Z * Call)) : list byte := concat (omap (fun c => match c.2 with WData p => Some p | _ => None end) l).
Definition queued (q : list EdgeWrite) : list byte := concat (omap (fun e => match e with Data p _ => Some p | _ => None end) q).
Definition in_hand (d : DownAt) : list byte := match d with DownSending p _ => p | _ => [] end.
Definition marks (l : list (Z * Call)) : list bool :=
  omap (fun c => match c.2 with WData _ => Some false | WFin => Some true | _ => None end) l.
Definition queue_marks (q : list EdgeWrite) : list bool :=
  omap (fun e => match e with Data _ _ => Some false | Fin => Some true | _ => None end) q.
(** Data, then at most one FIN. *)
Definition ordered (l : list bool) : Prop := exists n, l = replicate n false \/ l = replicate n false ++ [true].

(** The bytes of the frames read, and of the one being handled. *)
Definition received (l : list Frame) : list byte := concat (omap (fun f => match f with FData d => Some d | _ => None end) l).
Definition handling (u : UpAt) : list byte := match u with UpDialing d | UpWriting d => d | _ => [] end.
(** The codec answers no data after the peer's FIN. *)
Definition codec_ok (l : list Frame) : Prop := forall a d b, l = a ++ FData d :: b -> d <> [] -> FFin ∉ a.

Definition failed (r : Relay) : bool := match result_ r with Some (Err _) => true | _ => false end.

Record down_inv (r : Relay) : Prop := {
  dn_bytes : failed r = false -> said r = payloads (calls (writer r)) ++ queued (queue r) ++ in_hand (down r);
  dn_prefix : payloads (calls (writer r)) `prefix_of` said r;
  dn_order : ordered (marks (calls (writer r)));
  dn_marks : result_ r = None -> exists n, marks (calls (writer r)) ++ queue_marks (queue r) =
    replicate n false ++ match down r with DownDone => [true] | _ => [] end;
  dn_select : result_ r = None -> writer_at r <> Draining -> both_fins (writer r) = false
}.
Definition over_reading (r : Relay) : Prop := FFin ∈ frames r \/ up r = UpLast \/ up r = UpDone.
Record up_inv (r : Relay) : Prop := {
  up_bytes : received (frames r) = to_origin r ++ handling (up r);
  up_hand : handling (up r) <> [] -> exists l, frames r = l ++ [FData (handling (up r))];
  up_dials : result_ r <> Some (Err DialedTwice) -> dials r = match dial_tx r with Handed => 1%nat | _ => 0%nat end;
  up_lazy : dials r <> 0%nat -> received (frames r) <> [];
  up_twice : result_ r = Some (Err DialedTwice) -> ~ codec_ok (frames r);
  up_dialing d : result_ r = None -> up r = UpDialing d -> d <> [] /\ origin_w r = false;
  up_open : result_ r = None -> ~ over_reading r -> dial_tx r = Held /\ origin_w r = false \/ dial_tx r = Handed /\ origin_w r = true;
  up_closed : result_ r = None -> over_reading r -> origin_w r = false;
  up_shut : result_ r <> Some (Err DialedTwice) -> origin_w r = false -> dials r <> 0%nat -> origin_shut r = true;
  up_peer : peer_fin (writer r) = true \/ PeerFin ∈ queue r \/ up r = UpSending PeerFin -> over_reading r;
  up_released : FFin ∈ frames r -> dial_tx r <> Held;
  up_sends ev : up r = UpSending ev -> queued [ev] = [] /\ queue_marks [ev] = [];
  up_gone : result_ r = None -> up r = UpDone -> PeerFin ∈ queue r \/ peer_fin (writer r) = true
}.

Lemma settles_peer now w w' res a : settles now w w' res a -> peer_fin w' = peer_fin w.
Proof. by destruct 1. Qed.
Lemma effect_peer now ev w : peer_fin (effect now ev w) = match ev with PeerFin => true | _ => peer_fin w end.
Proof. by destruct ev. Qed.
Lemma moved_peer now gone q w a q' w' res a' : moved now gone q w a q' w' res a' ->
  (peer_fin w' = true \/ PeerFin ∈ q' -> peer_fin w = true \/ PeerFin ∈ q) /\
  (res = None -> peer_fin w = true \/ PeerFin ∈ q -> PeerFin ∈ q' \/ peer_fin w' = true) /\
  res <> Some (Err DialedTwice).
Proof.
  destruct 1 as [ev q' w' res a' -> Hs|ev q' ->|ev q' cs e a' -> Hcs|w' res a' Hs|e|w' res a' Hp Hf Hl Hs|d Hq Hg Ha| |age Hq Ho Hd|w' res a' Hq Hs];
    try (by split_and!; [tauto|first [done|tauto]|done]).
  2: { rewrite effect_peer. split_and!; [| |done]; rewrite elem_of_cons; destruct ev; naive_solver. }
  2: { split_and!; [|done..]. cbn. rewrite elem_of_cons. tauto. }
  all: pose proof (settles_peer _ _ _ _ _ Hs) as Ep; assert (res <> Some (Err DialedTwice)) by (by destruct Hs).
  1: { rewrite effect_peer in Ep. rewrite Ep. split_and!; [| |done]; rewrite elem_of_cons; destruct ev; naive_solver. }
  all: rewrite Ep; split_and!; [tauto| |done]; tauto.
Qed.

Lemma up_inv_writer r q w res a : result_ r = None -> moved (clock r) (readers_gone r) (queue r) (writer r) (writer_at r) q w res a ->
  up_inv r -> up_inv (after_writer q w res a r).
Proof.
  intros Hr Hm [Hb Hh Hd Hl Ht Hdi Ho Hc Hs Hp Hre Hse Hg]. destruct (moved_peer _ _ _ _ _ _ _ _ _ Hm) as (H1 & H2 & H3).
  split; unfold over_reading in *; cbn [after_writer up origin_w dial_tx frames dials to_origin origin_shut result_ writer queue]; auto.
  - intros _. apply Hd. congruence.
  - intros _. apply Hs. congruence.
  - intros [Hx|[Hx|Hx]]; apply Hp; [destruct (H1 (or_introl Hx))|destruct (H1 (or_intror Hx))|]; auto.
  - intros Hn Hu. destruct (Hg Hr Hu); apply H2; auto.
Qed.

Lemma payloads_app a b : payloads (a ++ b) = payloads a ++ payloads b.
Proof. unfold payloads. by rewrite omap_app, concat_app. Qed.
Lemma marks_app a b : marks (a ++ b) = marks a ++ marks b.
Proof. unfold marks. by rewrite omap_app. Qed.
Lemma queued_app a b : queued (a ++ b) = queued a ++ queued b.
Proof. unfold queued. by rewrite omap_app, concat_app. Qed.
Lemma queue_marks_app a b : queue_marks (a ++ b) = queue_marks a ++ queue_marks b.
Proof. unfold queue_marks. by rewrite omap_app. Qed.

(** What a queued command adds to the wire. *)
Lemma effect_calls now ev w : exists cs, calls (effect now ev w) = calls w ++ cs /\
  payloads cs = queued [ev] /\ marks cs = queue_marks [ev].
Proof. destruct ev as [p []|c|c| |]; [eexists; split; [reflexivity|done]..|]. exists []. simpl. by rewrite app_nil_r. Qed.

Definition res_failed (res : option (result unit RelayError)) : bool := match res with Some (Err _) => true | _ => false end.

(** [settles] writes nothing but the shutdown. *)
Lemma settles_calls now w w' res a : settles now w w' res a ->
  payloads (calls w') = payloads (calls w) /\ marks (calls w') = marks (calls w) /\
  (res = None -> calls w' = calls w /\ (a <> Draining -> both_fins w' = false)).
Proof.
  destruct 1; unfold shut_down; cbn [calls set_calls]; rewrite ?payloads_app, ?marks_app; cbn; rewrite ?app_nil_r; naive_solver.
Qed.
Lemma fin_sent_marks l : fin_sent l = true <-> true ∈ marks l.
Proof.
  unfold fin_sent, marks. rewrite existsb_exists. split.
  - intros ([t c] & Hc & E). destruct c; try done. apply list_elem_of_omap. exists (t, WFin). split; [by apply list_elem_of_In|done].
  - intros ([t c] & Hc & E)%list_elem_of_omap. exists (t, c). split; [by apply list_elem_of_In|]. by destruct c.
Qed.
Lemma ordered_prefix a b n (l : list bool) : a ++ b = replicate n false ++ l -> l = [] \/ l = [true] -> ordered a.
Proof.
  intros E Hl. revert n E. induction a as [|x a IH]; intros n E; [exists 0%nat; by left|].
  destruct n as [|n]; cbn [replicate app] in E.
  - destruct Hl as [->| ->]; [done|]. injection E as -> E. apply app_eq_nil in E as [-> _]. exists 0%nat. by right.
  - injection E as -> E. destruct (IH n E) as (m & [->| ->]); exists (S m); auto.
Qed.

Lemma queued_cons e q : queued (e :: q) = queued [e] ++ queued q.
Proof. apply (queued_app [e] q). Qed.
Lemma queue_marks_cons e q : queue_marks (e :: q) = queue_marks [e] ++ queue_marks q.
Proof. apply (queue_marks_app [e] q). Qed.
Lemma in_hand_marks r n : marks (calls (writer r)) ++ queue_marks (queue r) =
    replicate n false ++ match down r with DownDone => [true] | _ => [] end -> ordered (marks (calls (writer r))).
Proof. intros E. eapply ordered_prefix; [exact E|]. destruct (down r); auto. Qed.

(** What a move does to the bytes and the marks: the wire gains what the queue loses. *)
Lemma moved_down now gone q w a q' w' res a' : moved now gone q w a q' w' res a' ->
  (res_failed res = false -> payloads (calls w') ++ queued q' = payloads (calls w) ++ queued q) /\
  (exists k, payloads (calls w') ++ k = payloads (calls w) ++ queued q) /\
  (res = None -> marks (calls w') ++ queue_marks q' = marks (calls w) ++ queue_marks q) /\
  ((exists k, marks (calls w') ++ k = marks (calls w) ++ queue_marks q) \/ fin_sent (calls w) = false /\ marks (calls w') = marks (calls w) ++ [true]) /\
  (res = None -> a' <> Draining -> both_fins w' = false).
Proof.
  destruct 1 as [ev q' w' res a' -> Hs|ev q' ->|ev q' cs e a' -> Hcs|w' res a' Hs|e|w' res a' Hp Hf Hl Hs|d Hq Hg Ha| |age Hq Ho Hd|w' res a' Hq Hs].
  1,2: destruct (effect_calls now ev w) as (cs & Ec & Ep & Em).
  1: apply settles_calls in Hs as (E1 & E2 & E3).
  1: rewrite E1, E2.
  1,2: rewrite Ec, payloads_app, marks_app, (queued_cons ev), (queue_marks_cons ev), Ep, Em, <-!app_assoc.
  - split_and!; [done|exists (queued q'); by rewrite <-!app_assoc|done|left; exists (queue_marks q'); by rewrite <-!app_assoc|by intros Hn; apply E3].
  - split_and!; [done|exists (queued q'); by rewrite <-!app_assoc|done|left; exists (queue_marks q'); by rewrite <-!app_assoc|done].
  - cbn [calls set_calls]. rewrite payloads_app, marks_app, (queued_cons ev), (queue_marks_cons ev), <-!app_assoc.
    destruct Hcs as [->|(p & -> & ->)]; split_and!; try done; try left; eexists; rewrite <-!app_assoc; reflexivity.
  - apply settles_calls in Hs as (E1 & E2 & E3). cbn [calls kept_alive] in E1, E2.
    rewrite payloads_app, app_nil_r in E1. rewrite marks_app, app_nil_r in E2. rewrite E1, E2.
    split_and!; [done|by eexists|done|left; by eexists|intros Hn; by apply E3].
  - split_and!; [done|by eexists|done|left; by eexists|done].
  - assert (both_fins (finned now w) = true) as Hb.
    { unfold both_fins, finned, fin_sent. cbn. rewrite existsb_app. cbn. by rewrite orb_true_r, Hp. }
    assert (res <> None) as Hn by (destruct Hs; congruence).
    apply settles_calls in Hs as (E1 & E2 & _). unfold finned in E1, E2. cbn [calls wrote set_calls] in E1, E2.
    rewrite payloads_app, app_nil_r in E1. rewrite marks_app in E2. rewrite E1, E2.
    split_and!; [done|by eexists|done|by right|done].
  - unfold shut_down. cbn [calls set_calls]. rewrite payloads_app, marks_app, !app_nil_r.
    split_and!; [done|by eexists|done|left; by eexists|done].
  - split_and!; [done|by eexists|done|left; by eexists|done].
  - split_and!; [done|by eexists|done|left; by eexists|done].
  - apply settles_calls in Hs as (E1 & E2 & E3). rewrite E1, E2.
    split_and!; [done|by eexists|done|left; by eexists|intros Hn; by apply E3].
Qed.

Lemma down_inv_writer r q w res a : result_ r = None -> moved (clock r) (readers_gone r) (queue r) (writer r) (writer_at r) q w res a ->
  down_inv r -> down_inv (after_writer q w res a r).
Proof.
  intros Hr Hm [Hb Hp Ho Hma Hs]. destruct (moved_down _ _ _ _ _ _ _ _ _ Hm) as (H1 & (k & H2) & H3 & H4 & H5).
  assert (failed r = false) as Hf by (unfold failed; by rewrite Hr). specialize (Hb Hf). destruct (Hma Hr) as (n & Hn).
  split; cbn [after_writer writer queue down said result_ writer_at].
  - unfold failed. cbn. intros Hnf. rewrite Hb, !app_assoc. f_equal. symmetry. apply H1. exact Hnf.
  - exists (k ++ in_hand (down r)). rewrite Hb, !app_assoc. f_equal. by symmetry.
  - destruct H4 as [(k' & H4)|[Hfin ->]]; [eapply ordered_prefix; [rewrite H4; exact Hn|destruct (down r); auto]|].
    destruct Ho as (m & [->|E]); [by exists m; right|]. exfalso. apply not_true_iff_false in Hfin. apply Hfin, fin_sent_marks.
    rewrite E. apply elem_of_app. right. left.
  - intros Hnone. exists n. by rewrite H3.
  - done.
Qed.

(** A step of a reader leaves the other's state alone; at most it fails, or queues something. *)
Lemma down_inv_same r r' q : result_ r = None -> down_inv r ->
  writer r' = writer r -> writer_at r' = writer_at r -> down r' = down r -> said r' = said r -> queue r' = queue r ++ q ->
  queued q = [] -> queue_marks q = [] -> down_inv r'.
Proof.
  intros Hr [Hb Hp Ho Hm Hs] Ew Ea Ed Es Eq Hq Hqm. specialize (Hb ltac:(unfold failed; by rewrite Hr)).
  split; rewrite ?Ew, ?Ea, ?Ed, ?Es, ?Eq; auto.
  - intros _. rewrite queued_app, Hq, app_nil_r. exact Hb.
  - intros _. rewrite queue_marks_app, Hqm, app_nil_r. by apply Hm.
Qed.
Lemma up_inv_same r r' q : result_ r = None -> up_inv r ->
  writer r' = writer r -> up r' = up r -> origin_w r' = origin_w r -> dial_tx r' = dial_tx r -> frames r' = frames r ->
  dials r' = dials r -> to_origin r' = to_origin r -> origin_shut r' = origin_shut r -> queue r' = queue r ++ q ->
  PeerFin ∉ q -> result_ r' <> Some (Err DialedTwice) -> up_inv r'.
Proof.
  intros Hr [Hb Hh Hd Hl Ht Hdi Ho Hc Hs Hp Hre Hse Hg] Ew Eu Eo Etx Ef Ed Eto Esh Eq Hq Hres.
  assert (result_ r <> Some (Err DialedTwice)) as Hne by congruence.
  split; unfold over_reading in *; rewrite ?Ew, ?Eu, ?Eo, ?Etx, ?Ef, ?Ed, ?Eto, ?Esh; auto.
  - rewrite Eq, elem_of_app. intros [Hx|[[Hx|Hx]|Hx]]; [| |done|]; apply Hp; auto.
  - intros _ Hu. rewrite Eq, elem_of_app. destruct (Hg Hr Hu); auto.
Qed.

Lemma push_Some ev r r' : push ev r = Some r' -> r' = set_queue (queue r ++ [ev]) r /\ Zlen (queue r) < FRAMED_WRITE_QUEUE.
Proof. unfold push. destruct (_ <? _) eqn:E; [|done]. intros [= <-]. split; [done|]. by apply Z.ltb_lt. Qed.

Lemma down_inv_down e r r' : result_ r = None -> down_inv r ->
  match e with DownStart | DownRead _ | DownSend => True | _ => False end -> happens e r = Some r' -> down_inv r'.
Proof.
  intros Hr Hi. pose proof Hi as [Hb Hp Ho Hm Hs]. specialize (Hb ltac:(unfold failed; by rewrite Hr)). destruct (Hm Hr) as (n & Hn).
  destruct e as [| | | | |x| | | | | |]; try done; intros _; cbn [happens]; unfold down_start, down_read, down_send.
  - destruct (down r) eqn:Ed; [|done..]. destruct (dial_tx r); intros [= <-]; split; cbn; auto; intros _; by exists n.
  - destruct (down r) eqn:Ed; [done| |done..]. destruct x as [[|b l]|e].
    + intros [= <-]. split; cbn; auto; intros _; by exists n.
    + destruct (_ <=? _); [|done]. intros [= <-]. split; cbn; auto.
      * intros _. rewrite Hb. cbn. by rewrite app_nil_r, <-app_assoc.
      * by apply prefix_app_r.
    + intros [= <-]. split; cbn; auto; done.
  - destruct (down r) as [| |p f| |] eqn:Ed; [done..| | |done].
    + destruct (push _ _) as [r1|] eqn:E; [|done]. apply push_Some in E as [-> _]. intros [= <-]. split; cbn -[queued queue_marks]; auto.
      * intros _. rewrite Hb, queued_app. cbn. by rewrite !app_nil_r.
      * intros _. rewrite queue_marks_app, app_assoc, Hn. exists (S n). rewrite replicate_S_end, app_nil_r. by rewrite <-app_assoc.
    + destruct (push _ _) as [r1|] eqn:E; [|done]. apply push_Some in E as [-> _]. intros [= <-]. split; cbn -[queued queue_marks]; auto.
      * intros _. rewrite Hb, queued_app. cbn. by rewrite !app_nil_r.
      * intros _. rewrite queue_marks_app, app_assoc, Hn. exists n. by rewrite app_nil_r.
Qed.

Lemma received_app a b : received (a ++ b) = received a ++ received b.
Proof. unfold received. by rewrite omap_app, concat_app. Qed.

Definition is_up (e : Happening) : bool :=
  match e with UpFrame _ | UpDialed _ | UpWritten _ | UpSend => true | _ => false end.
Lemma down_inv_up e r r' : result_ r = None -> down_inv r -> up_inv r -> is_up e = true -> happens e r = Some r' -> down_inv r'.
Proof.
  intros Hr Hi Hu. assert (forall r', writer r' = writer r -> writer_at r' = writer_at r -> down r' = down r -> said r' = said r ->
    queue r' = queue r -> down_inv r') as Hsame.
  { intros r1 E1 E2 E3 E4 E5. apply (down_inv_same r r1 []); rewrite ?app_nil_r; auto. }
  destruct e as [x|x|x| | | | | | | | | ]; try done; intros _; cbn [happens].
  - unfold up_frame. destruct (up r); try done. intros [= <-]. destruct x as [[f|]|e]; [|by apply Hsame..].
    destruct f as [[|b l]|c []|c|]; cbn; try (by apply Hsame). by destruct (origin_w r); apply Hsame.
  - unfold up_dialed. destruct (up r); try done. destruct x; [destruct (dial_tx r)|]; intros [= <-]; by apply Hsame.
  - unfold up_written. destruct (up r); try done. destruct x; intros [= <-]; by apply Hsame.
  - unfold up_send. destruct (up r) as [| | |ev| |] eqn:Eu; try done.
    all: destruct (push _ _) as [r1|] eqn:E; [|done]; apply push_Some in E as [-> _]; intros [= <-].
    + destruct (up_sends r Hu ev Eu). by apply (down_inv_same r _ [ev]).
    + by apply (down_inv_same r _ [PeerFin]).
Qed.

Lemma received_data d : received [FData d] = d.
Proof. unfold received. cbn. apply app_nil_r. Qed.
(** A frame that changes nothing else. *)
Lemma up_inv_seen f u r : result_ r = None -> up_inv r -> up r = UpReading -> f <> FFin -> received [f] = [] ->
  u = UpReading \/ (exists ev, u = UpSending ev /\ ev <> PeerFin /\ queued [ev] = [] /\ queue_marks [ev] = []) ->
  up_inv (set_up u (got_frame f r)).
Proof.
  intros Hr [Hb Hh Hd Hl Ht Hdi Ho Hc Hs Hp Hre Hse Hg] Eu Hf Hrec Hcase. unfold over_reading in *. rewrite Eu in *.
  assert (handling u = []) as Hhu by (by destruct Hcase as [->|(ev & -> & _)]).
  assert ((FFin ∈ frames r ++ [f] \/ u = UpLast \/ u = UpDone) <-> (FFin ∈ frames r \/ UpReading = UpLast \/ UpReading = UpDone)) as Hov.
  { rewrite elem_of_app, list_elem_of_singleton. destruct Hcase as [->|(ev & -> & _)]; naive_solver. }
  split; unfold over_reading; cbn -[received queued queue_marks]; rewrite ?Hov, ?received_app, ?Hrec, ?app_nil_r; auto.
  - by rewrite Hhu.
  - by rewrite Hhu.
  - rewrite Hr. done.
  - intros d _ ->. by destruct Hcase as [?|(ev & ? & _)].
  - intros [Hx|[Hx|Hx]]; [apply Hp; auto..|]. destruct Hcase as [->|(ev & -> & Hn & _)]; naive_solver.
  - rewrite elem_of_app, list_elem_of_singleton. intros [?|?]; [by apply Hre|done].
  - intros ev ->. destruct Hcase as [?|(ev' & [= ->] & _ & ?)]; done.
  - intros _ ->. by destruct Hcase as [?|(ev' & ? & _)].
Qed.

Lemma codec_data l d : d <> [] -> FFin ∈ l -> ~ codec_ok (l ++ [FData d]).
Proof. intros Hd Hl Hok. by apply (Hok l d []). Qed.

Lemma up_inv_up e r r' : result_ r = None -> up_inv r -> is_up e = true -> happens e r = Some r' -> up_inv r'.
Proof.
  intros Hr Hi. pose proof Hi as [Hb Hh Hd Hl Ht Hdi Ho Hc Hs Hp Hre Hse Hg].
  assert (result_ r <> Some (Err DialedTwice)) as Hne by congruence. specialize (Hd Hne). specialize (Hs Hne).
  specialize (Ho Hr). specialize (Hc Hr). specialize (Hg Hr).
  assert (forall x, x <> DialedTwice -> up_inv (finish (Err x) r)) as Hfin.
  { intros x Hx. apply (up_inv_same r _ []); rewrite ?app_nil_r; auto; [by apply not_elem_of_nil|cbn; congruence]. }
  destruct e as [x|x|x| | | | | | | | | ]; try done; intros _; cbn [happens].
  - unfold up_frame. destruct (up r) eqn:Eu; try done. intros [= <-]. cbn [handling] in *. rewrite app_nil_r in Hb.
    destruct x as [[f|]|e]; [|..|by apply Hfin].
    + destruct f as [[|b l]|c ack|c|]; cbn [on_frame].
      * replace (got_frame (FData []) r) with (set_up UpReading (got_frame (FData []) r)) by (unfold set_up; cbn; by rewrite <-Eu).
        apply up_inv_seen; auto.
      * set (u := if origin_w r then UpWriting (b :: l) else UpDialing (b :: l)).
        replace (if origin_w (got_frame _ r) then _ else _) with (set_up u (got_frame (FData (b :: l)) r)) by (unfold u; cbn; by destruct (origin_w r)).
        assert (handling u = b :: l) as Hu by (unfold u; by destruct (origin_w r)).
        assert (forall ev, u <> UpSending ev) as Hu2 by (unfold u; by destruct (origin_w r)).
        assert (u <> UpLast /\ u <> UpDone) as [Hu3 Hu4] by (unfold u; by destruct (origin_w r)).
        assert (FFin ∈ frames r ++ [FData (b :: l)] <-> FFin ∈ frames r) as Hin.
        { rewrite elem_of_app, list_elem_of_singleton. split; [by intros [?|?]|by left]. }
        assert (over_reading (set_up u (got_frame (FData (b :: l)) r)) <-> over_reading r) as Hov.
        { unfold over_reading. cbn. rewrite Hin, Eu. split; intros [?|[?|?]]; auto; done. }
        split; rewrite ?Hov; cbn -[received queued queue_marks over_reading]; rewrite ?Hin, ?received_app, ?received_data, ?Hu; auto.
        -- by rewrite Hb.
        -- intros _. by exists (frames r).
        -- intros _ Hn. by destruct (received (frames r)).
        -- unfold u. intros d _. destruct (origin_w r) eqn:Eo; [done|]. by intros [= <-].
        -- intros [?|[?|Hx]]; [auto..|]. by destruct (Hu2 PeerFin).
        -- intros ev Hx. by destruct (Hu2 ev).
      * destruct ack.
        -- apply up_inv_seen; auto. right. by eexists.
        -- replace (got_frame (FKeepalive c false) r) with (set_up UpReading (got_frame (FKeepalive c false) r)) by (unfold set_up; cbn; by rewrite <-Eu).
           apply up_inv_seen; auto.
      * apply up_inv_seen; auto. right. by eexists.
      * assert (over_reading (set_up (UpSending PeerFin) (drop_dial (shut_origin (got_frame FFin r))))) as Hov.
        { left. cbn. apply elem_of_app. right. left. }
        split; cbn -[received queued queue_marks over_reading]; rewrite ?received_app; auto.
        -- by rewrite Hb.
        -- done.
        -- intros _. by destruct (dial_tx r).
        -- intros Hx. change (received [FFin]) with (@nil byte). rewrite app_nil_r. auto.
        -- done.
        -- intros _ _ Hx. destruct (origin_w r) eqn:Eo; [by rewrite orb_true_r|]. by rewrite Hs.
        -- by destruct (dial_tx r).
        -- by intros ev [= <-].
        -- done.
    + assert (over_reading (set_up UpLast (shut_origin r))) as Hov by (right; by left).
      split; cbn -[received queued queue_marks over_reading]; auto.
      * by rewrite app_nil_r.
      * done.
      * intros _ _ Hx. destruct (origin_w r) eqn:Eo; [by rewrite orb_true_r|]. by rewrite Hs.
      * done.
      * done.
  - unfold up_dialed. destruct (up r) as [|d| | | |] eqn:Eu; try done. destruct (Hdi d Hr eq_refl) as [Hdn Ho'].
    destruct (Hh ltac:(exact Hdn)) as (l & El). cbn [handling] in El.
    assert (received (frames r) <> []) as Hrec.
    { rewrite El, received_app, received_data. intros Hn. by apply app_eq_nil in Hn as [_ ->]. }
    assert (forall tx, tx <> Held -> dial_tx r <> Held -> up_inv (finish (Err DialedTwice) (dialed tx r))) as Htwice.
    { intros tx Htx' Htx. assert (FFin ∈ frames r) as Hff.
      { destruct (decide (FFin ∈ frames r)) as [?|Hn]; [done|exfalso].
        destruct Ho as [[? ?]|[? ?]]; [|congruence..]. intros [?|[?|?]]; [done|congruence..]. }
      assert (~ codec_ok (frames r)) as Hcod.
      { rewrite El in *. apply codec_data; [done|]. apply elem_of_app in Hff as [?|Hx]; [done|by apply list_elem_of_singleton in Hx]. }
      split; cbn -[received queued queue_marks over_reading]; rewrite ?Eu; cbn [handling]; auto; try done. }
    destruct x as [[]|e]; [|intros [= <-]; by apply Hfin]. destruct (dial_tx r) eqn:Etx; intros [= <-].
    + assert (~ over_reading r) as Hnov by (intros [Hf|[?|?]]; [by apply Hre|congruence..]).
      assert (~ over_reading (set_up (UpWriting d) (dialed Handed r))) as Hnov'.
      { intros [Hf|[?|?]]; [by apply Hnov; left|done..]. }
      split; cbn -[received queued queue_marks over_reading]; auto.
      * done.
      * done.
      * intros [?|[?|?]]; [exfalso; auto..|done].
      * done.
      * done.
    + by apply Htwice.
    + by apply Htwice.
  - unfold up_written. destruct (up r) as [| |d| | |] eqn:Eu; try done. destruct x as [[]|e]; intros [= <-]; [|by apply Hfin].
    assert (over_reading (set_up UpReading (wrote_origin d r)) <-> over_reading r) as Hov.
    { unfold over_reading. cbn. rewrite Eu. split; intros [?|[?|?]]; auto; done. }
    split; rewrite ?Hov; cbn -[received queued queue_marks over_reading]; auto; try done.
    + by rewrite app_nil_r.
    + intros [?|[?|?]]; [apply Hp; auto..|done].
  - unfold up_send. destruct (up r) as [| | |ev| |] eqn:Eu; try done.
    all: destruct (push _ _) as [r1|] eqn:E; [|done]; apply push_Some in E as [-> _]; intros [= <-].
    + assert (over_reading (set_up UpReading (set_queue (queue r ++ [ev]) r)) <-> over_reading r) as Hov.
      { unfold over_reading. cbn. rewrite Eu. split; intros [?|[?|?]]; auto; done. }
      split; rewrite ?Hov; cbn -[received queued queue_marks over_reading]; auto; try done.
      rewrite elem_of_app, list_elem_of_singleton. intros [?|[[?|<-]|?]]; [apply Hp; auto..|done].
    + assert (over_reading (drop_dial (set_up UpDone (set_queue (queue r ++ [PeerFin]) r)))) as Hov by (right; by right).
      assert (over_reading r) as Hovr by (right; by left).
      split; cbn -[received queued queue_marks over_reading]; auto; try done.
      * intros _. by destruct (dial_tx r).
      * by destruct (dial_tx r).
      * intros _ _. rewrite elem_of_app, list_elem_of_singleton. auto.
Qed.

Lemma inv_clock t r : (up_inv r -> up_inv (set_clock t r)) /\ (down_inv r -> down_inv (set_clock t r)).
Proof. split; intros []; by split. Qed.

Lemma step_cases t e r r' : step t e r = Some r' -> result_ r = None /\ clock r <= t /\ happens e (set_clock t r) = Some r'.
Proof. unfold step. destruct (result_ r); [done|]. destruct (_ <=? _) eqn:E; [|done]. apply Z.leb_le in E. done. Qed.

Lemma up_inv_down e r r' : result_ r = None -> up_inv r ->
  match e with DownStart | DownRead _ | DownSend => True | _ => False end -> happens e r = Some r' -> up_inv r'.
Proof.
  intros Hr Hi. assert (forall d s, up_inv (set_down d s r)) as Hset.
  { intros d s. apply (up_inv_same r _ []); rewrite ?app_nil_r; auto; [by apply not_elem_of_nil|cbn; by rewrite Hr]. }
  assert (forall d s ev, ev <> PeerFin -> up_inv (set_down d s (set_queue (queue r ++ [ev]) r))) as Hpush.
  { intros d s ev Hev. apply (up_inv_same r _ [ev]); auto; [by intros ?%list_elem_of_singleton|cbn; by rewrite Hr]. }
  destruct e as [| | | | |x| | | | | |]; try done; intros _; cbn [happens]; unfold down_start, down_read, down_send.
  - destruct (down r), (dial_tx r); try done; intros [= <-]; apply Hset.
  - destruct (down r); try done. destruct x as [[|b l]|e]; [intros [= <-]; apply Hset|destruct (_ <=? _); [|done]; intros [= <-]; apply Hset|].
    intros [= <-]. apply (up_inv_same r _ []); rewrite ?app_nil_r; auto. by apply not_elem_of_nil.
  - destruct (down r); try done; (destruct (push _ _) as [r1|] eqn:E; [|done]); apply push_Some in E as [-> _]; intros [= <-]; by apply Hpush.
Qed.

Lemma reachable_inv now r : reachable now r -> up_inv r /\ down_inv r.
Proof.
  induction 1 as [|r t e r' _ [Hu Hd] Hs].
  - split; split; cbn; try done.
    + intros _ _. by left.
    + intros [?|[Hf|?]]; [done|by apply not_elem_of_nil in Hf|done].
    + intros Hf. by apply not_elem_of_nil in Hf.
    + exists 0%nat. by left.
    + intros _. by exists 0%nat.
  - apply step_cases in Hs as (Hr & _ & Hs). apply (inv_clock t) in Hu, Hd.
    destruct (is_writer e) eqn:Ew; [|destruct (is_up e) eqn:Eu].
    + destruct (writer_moves e (set_clock t r) r' Ew Hr Hs) as (q & w & res & a & -> & Hm).
      split; [by apply up_inv_writer|by apply down_inv_writer].
    + split; [exact (up_inv_up e (set_clock t r) r' Hr Hu Eu Hs)|exact (down_inv_up e (set_clock t r) r' Hr Hd Hu Eu Hs)].
    + assert (match e with DownStart | DownRead _ | DownSend => True | _ => False end) as Hdn by by destruct e.
      split; [exact (up_inv_down e (set_clock t r) r' Hr Hu Hdn Hs)|exact (down_inv_down e (set_clock t r) r' Hr Hd Hdn Hs)].
Qed.

(** ** How a relay ends *)

Lemma both_fins_shut_down now w : both_fins (shut_down now w) = both_fins w.
Proof. unfold both_fins, shut_down, fin_sent. cbn [calls set_calls peer_fin]. by rewrite existsb_app, orb_false_r. Qed.
Lemma settles_ok now w w' res a : settles now w w' res a -> res = Some (Ok tt) -> both_fins w' = true /\ last_data w' = last_data w.
Proof. destruct 1; try done. intros _. by rewrite both_fins_shut_down. Qed.

(** An end that is well: both FINs passed, and nothing the Origin said was cut off but by the bound. *)
Lemma moved_ok now gone q w a q' w' a' : moved now gone q w a q' w' (Some (Ok tt)) a' ->
  both_fins w' = true /\ (marks (calls w') ++ queue_marks q' = marks (calls w) ++ queue_marks q \/
    last_data w' + POST_PEER_FIN_IDLE_BOUND <= now) \/
  q = [] /\ gone = true /\ a <> Draining.
Proof.
  inversion 1 as [ev q1 w1 res a1 -> Hs| | |w1 res a1 Hs| |w1 res a1 Hp Hf Hl Hs|d Hq Hg Ha| | |w1 res a1 Hq Hs]; subst; try (right; by subst).
  all: left; destruct (settles_ok _ _ _ _ _ Hs eq_refl) as [Hb Hld]; (split; [exact Hb|]); apply settles_calls in Hs as (_ & Em & _); rewrite Em.
  - destruct (effect_calls now ev w) as (cs & Ec & _ & Em'). left. by rewrite Ec, marks_app, (queue_marks_cons ev q'), Em', <-app_assoc.
  - left. cbn [calls kept_alive]. by rewrite marks_app, app_nil_r.
  - right. by rewrite Hld.
  - by left.
Qed.

Lemma marks_done m k n l : m ++ k = replicate n false ++ l -> l = [] \/ l = [true] -> true ∈ m -> l = [true] /\ k = [].
Proof.
  revert n. induction m as [|x m IH]; intros n E Hl Hin; [by apply not_elem_of_nil in Hin|].
  destruct n as [|n]; cbn [replicate app] in E.
  - destruct Hl as [->| ->]; [done|]. injection E as -> E. by apply app_eq_nil in E as [-> ->].
  - injection E as -> E. apply (IH n E Hl). apply elem_of_cons in Hin as [?|?]; done.
Qed.
Lemma no_marks_nothing q : queue_marks q = [] -> queued q = [].
Proof.
  unfold queue_marks, queued. induction q as [|e q IH]; [done|]. destruct e; cbn; try done; exact IH.
Qed.

Definition ended_well (r : Relay) : Prop :=
  both_fins (writer r) = true /\
  (down r = DownDone /\ payloads (calls (writer r)) = said r \/ last_data (writer r) + POST_PEER_FIN_IDLE_BOUND <= clock r).

Lemma writer_ends_well r q w a : result_ r = None -> up_inv r -> down_inv r ->
  moved (clock r) (readers_gone r) (queue r) (writer r) (writer_at r) q w (Some (Ok tt)) a ->
  ended_well (after_writer q w (Some (Ok tt)) a r).
Proof.
  intros Hr Hu Hd Hm. destruct (dn_marks r Hd Hr) as (n & Hn).
  assert (match down r with DownDone => [true] | _ => [] end = [] \/ match down r with DownDone => [true] | _ => [] end = [true]) as Hl
    by (destruct (down r); auto).
  destruct (moved_ok _ _ _ _ _ _ _ _ Hm) as [[Hb Hor]|(Hq & Hg & Ha)].
  - split; [exact Hb|]. destruct Hor as [Hc|Hi]; [left|by right]. rewrite Hn in Hc.
    assert (true ∈ marks (calls w)) as Hin by (apply fin_sent_marks; exact (proj1 (proj1 (andb_true_iff _ _) Hb))).
    destruct (marks_done _ _ _ _ Hc Hl Hin) as [Ed Eq]. assert (down r = DownDone) as Edd by (by destruct (down r)).
    split; [exact Edd|]. destruct (moved_down _ _ _ _ _ _ _ _ _ Hm) as (Hp & _). specialize (Hp eq_refl).
    cbn [said writer after_writer]. rewrite (dn_bytes r Hd) by (unfold failed; by rewrite Hr).
    rewrite Edd. cbn [in_hand]. rewrite app_nil_r, <-Hp, (no_marks_nothing q Eq). by rewrite app_nil_r.
  - exfalso. unfold readers_gone in Hg. destruct (up r) eqn:Eu; try done. destruct (down r) eqn:Ed; try done.
    pose proof (dn_select r Hd Hr Ha) as Hb. destruct (up_gone r Hu Hr Eu) as [Hin|Hp]; [rewrite Hq in Hin; by apply not_elem_of_nil in Hin|].
    assert (fin_sent (calls (writer r)) = true) as Hf.
    { apply fin_sent_marks. rewrite Hq, app_nil_r in Hn. rewrite Hn. apply elem_of_app. right. left. }
    unfold both_fins in Hb. by rewrite Hf, Hp in Hb.
Qed.

Lemma happens_ended e r r' : is_writer e = false -> result_ r = None -> happens e r = Some r' -> result_ r' <> Some (Ok tt) /\ forall age, result_ r' <> Some (Err (DeadPeer age)).
Proof.
  intros He Hr. destruct e; try done; cbn [happens]; unfold up_frame, up_dialed, up_written, up_send, down_start, down_read, down_send, push.
  all: repeat (case_match; try done); intros E; simplify_eq; try (unfold on_frame; repeat case_match);
    split; [|intros age|..]; cbn; rewrite ?Hr; done.
Qed.

Lemma reachable_ends_well now r : reachable now r -> result_ r = Some (Ok tt) -> ended_well r.
Proof.
  intros Hre Hok. destruct Hre as [|r t e r' Hre Hs]; [done|]. apply step_cases in Hs as (Hr & _ & Hs).
  destruct (reachable_inv now r Hre) as [Hu Hd]. apply (inv_clock t) in Hu, Hd.
  destruct (is_writer e) eqn:Ew; [|by destruct (happens_ended e (set_clock t r) r' Ew Hr Hs)].
  destruct (writer_moves e (set_clock t r) r' Ew Hr Hs) as (q & w & res & a & -> & Hm). cbn [result_ after_writer] in Hok. subst res.
  exact (writer_ends_well (set_clock t r) q w a Hr Hu Hd Hm).
Qed.

(** Until it fails, a relay whose edge direction is over holds no write half of the Origin. *)
Lemma reachable_closed now r : reachable now r -> failed r = false -> over_reading r -> origin_w r = false.
Proof.
  intros Hre Hf Ho. destruct (result_ r) as [[[]|e]|] eqn:Er; [|by unfold failed in Hf; rewrite Er in Hf|].
  2: { by apply (up_closed r (proj1 (reachable_inv now r Hre)) Er). }
  destruct Hre as [|r t e r' Hre Hs]; [done|]. apply step_cases in Hs as (Hr & _ & Hs).
  destruct (reachable_inv now r Hre) as [Hu _]. apply (inv_clock t) in Hu.
  destruct (is_writer e) eqn:Ew; [|by destruct (happens_ended e (set_clock t r) r' Ew Hr Hs)].
  destruct (writer_moves e (set_clock t r) r' Ew Hr Hs) as (q & w & res & a & -> & Hm). by apply (up_closed _ Hu Hr).
Qed.

(** Once the peer's FIN was processed, nothing it sent is left in hand. *)
Lemma nothing_in_hand r : up_inv r -> codec_ok (frames r) -> over_reading r -> to_origin r = received (frames r).
Proof.
  intros Hu Hc Ho. rewrite (up_bytes r Hu). destruct (handling (up r)) as [|b l] eqn:E; [by rewrite app_nil_r|]. exfalso.
  destruct (up_hand r Hu) as [fs Hf]; [by rewrite E|]. rewrite E in Hf.
  apply (Hc fs (b :: l) []); [done|done|]. destruct Ho as [Hin|[Hu'|Hu']]; [|by rewrite Hu' in E..].
  rewrite Hf in Hin. apply elem_of_app in Hin as [?|Hin]; [done|]. by apply list_elem_of_singleton in Hin.
Qed.
End Relay.

(** ** The verdict on a silent peer *)

Section Verdict.
Context {T : Type} `{TrackerLaws T}.
Context (KEEPALIVE_INTERVAL KEEPALIVE_DEAD_AFTER POST_PEER_FIN_IDLE_BOUND : Z).
Notation Relay := (Relay (T := T)).
Notation Writer := (Writer (T := T)).

(** A keepalive sent at [t] for which no acknowledgement was noted since. *)
Definition unanswered (c t : Z) (l : list (Z * Call)) : Prop :=
  exists before after, l = before ++ (t, WKeepalive c) :: after /\ forall t', (t', NoteKeepalive c) ∉ after.
Lemma unanswered_app c t l l' : unanswered c t l -> (forall t', (t', NoteKeepalive c) ∉ l') -> unanswered c t (l ++ l').
Proof.
  intros (b & a & -> & Ha) Hl. exists b, (a ++ l'). split; [by rewrite <-app_assoc|].
  intros t' [Hx|Hx]%elem_of_app; [by apply (Ha t')|by apply (Hl t')].
Qed.

Record tracked (now : Z) (w : Writer) : Prop := {
  tr_sent c ms : (c, ms) ∈ outstanding (tracker w) ->
    exists t, ms = now_ms w t /\ t <= now /\ unanswered c t (calls w);
  tr_judged : peer_fin w = true -> outstanding (tracker w) = []
}.

Definition quiet (l : list (Z * Call)) : Prop := forall t c, (t, NoteKeepalive c) ∉ l.
Lemma quiet_one t x : (forall c, x <> NoteKeepalive c) -> quiet [(t, x)].
Proof. intros Hx t' c [= -> <-]%list_elem_of_singleton. by apply (Hx c). Qed.
Lemma quiet_app a b : quiet a -> quiet b -> quiet (a ++ b).
Proof. intros Ha Hb t c [Hx|Hx]%elem_of_app; [by apply (Ha t c)|by apply (Hb t c)]. Qed.

Lemma tracked_more now w w' l : tracked now w -> calls w' = calls w ++ l -> quiet l ->
  tracker w' = tracker w -> start w' = start w -> peer_fin w' = peer_fin w -> tracked now w'.
Proof.
  intros [Hs Hj] Ec Hq Et Es Ep. split; rewrite Et, ?Ep; [|done]. intros c ms Hin. destruct (Hs c ms Hin) as (t & -> & Ht & Hu).
  exists t. unfold now_ms. rewrite Es, Ec. split; [done|]. split; [done|]. apply unanswered_app; [done|]. intros t'. apply Hq.
Qed.
Lemma tracked_later now t w : tracked now w -> now <= t -> tracked t w.
Proof. intros [Hs Hj] Ht. split; [|done]. intros c ms Hin. destruct (Hs c ms Hin) as (t' & ? & ? & ?). exists t'. split_and!; [done|lia|done]. Qed.

Lemma settles_tracked now w w' res a : settles now w w' res a -> tracked now w -> tracked now w'.
Proof.
  destruct 1; intros Hw; try exact Hw. eapply (tracked_more now w _ [(now, WShutdown)]); try done. by apply quiet_one.
Qed.
Lemma effect_tracked now ev w : tracked now w -> tracked now (effect now ev w).
Proof.
  intros Hw. destruct ev as [p f|c|c| |].
  - eapply (tracked_more now w _ ((now, WData p) :: if f then [(now, WFlush)] else [])); try done.
    apply (quiet_app [_]); [by apply quiet_one|]. destruct f; [by apply quiet_one|]. by intros t c ?%not_elem_of_nil.
  - eapply (tracked_more now w _ [(now, WKeepaliveAck c)]); try done. by apply quiet_one.
  - destruct Hw as [Hs Hj]. split; cbn [tracker effect acked peer_fin calls].
    + intros c' ms Hin. apply outstanding_ack in Hin as [Hin Hne]. destruct (Hs c' ms Hin) as (t & -> & Ht & Hu).
      exists t. split; [done|]. split; [done|]. apply unanswered_app; [done|]. intros t' [= _ E]%list_elem_of_singleton. by apply Hne.
    + intros Hp. pose proof (Hj Hp) as Ho. destruct (outstanding (tracker_ack c (tracker w))) as [|p l] eqn:E; [done|].
      destruct (outstanding_ack c (tracker w) p) as [Hin _]; [rewrite E; left|]. rewrite Ho in Hin. by apply not_elem_of_nil in Hin.
  - eapply (tracked_more now w _ [(now, WFin)]); try done. by apply quiet_one.
  - split; cbn [tracker effect peer_finned]; rewrite outstanding_new; [|done]. by intros c ms ?%not_elem_of_nil.
Qed.
Lemma keepalive_tracked now w : tracked now w -> tracked now (kept_alive now w).
Proof.
  intros Hw. unfold kept_alive. destruct (peer_fin w) eqn:Ep.
  - eapply (tracked_more now w _ [(now, WKeepalive (wrap 64 (counter w + 1)))]); try done. by apply quiet_one.
  - split; cbn; [|congruence]. intros c ms Hin. apply outstanding_sent, elem_of_cons in Hin as [[= -> ->]|Hin].
    + exists now. split; [done|]. split; [lia|]. exists (calls w), []. split; [done|]. by intros t ?%not_elem_of_nil.
    + destruct (tr_sent now w Hw c ms Hin) as (t & -> & Ht & Hu). exists t. split; [done|]. split; [done|].
      apply unanswered_app; [done|]. intros t'. by apply quiet_one.
Qed.

Lemma moved_tracked now gone q w a q' w' res a' :
  moved KEEPALIVE_DEAD_AFTER POST_PEER_FIN_IDLE_BOUND now gone q w a q' w' res a' -> tracked now w -> tracked now w'.
Proof.
  destruct 1 as [ev q' w' res a' -> Hs|ev q' ->|ev q' cs e a' -> Hcs|w' res a' Hs|e|w' res a' Hp Hf Hl Hs|d Hq Hg Ha| |age Hq Ho Hd|w' res a' Hq Hs];
    intros Hw; try exact Hw; try (eapply settles_tracked; [exact Hs|]).
  - by apply effect_tracked.
  - by apply effect_tracked.
  - eapply (tracked_more now w _ cs); try done. destruct Hcs as [->|(p & _ & ->)]; [by intros t c ?%not_elem_of_nil|by apply quiet_one].
  - by apply keepalive_tracked.
  - eapply (tracked_more now w _ [(now, WFin)]); try done. by apply quiet_one.
  - eapply (tracked_more now w _ [(now, WShutdown)]); try done. by apply quiet_one.
  - exact Hw.
Qed.

Notation reachable := (reachable KEEPALIVE_INTERVAL KEEPALIVE_DEAD_AFTER POST_PEER_FIN_IDLE_BOUND).

Lemma readers_keep_writer e (r r' : Relay) : is_writer e = false ->
  happens KEEPALIVE_INTERVAL KEEPALIVE_DEAD_AFTER POST_PEER_FIN_IDLE_BOUND e r = Some r' -> writer r' = writer r /\ clock r' = clock r /\ writer_at r' = writer_at r.
Proof.
  intros He. destruct e; try done; cbn [happens]; unfold up_frame, up_dialed, up_written, up_send, down_start, down_read, down_send, push.
  all: repeat (case_match; try done); intros E; simplify_eq; try (unfold on_frame; repeat case_match); done.
Qed.

Lemma reachable_tracked now r : reachable now r -> tracked (clock r) (writer r).
Proof.
  induction 1 as [|r t e r' _ IH Hs].
  - split; cbn; rewrite outstanding_new; [|done]. by intros c ms ?%not_elem_of_nil.
  - apply step_cases in Hs as (Hr & Ht & Hs). apply (tracked_later _ t) in IH; [|done].
    destruct (is_writer e) eqn:Ew.
    + destruct (writer_moves KEEPALIVE_INTERVAL KEEPALIVE_DEAD_AFTER POST_PEER_FIN_IDLE_BOUND e (set_clock t r) r' Ew Hr Hs) as (q & w & res & a & -> & Hm).
      eapply moved_tracked; [exact Hm|exact IH].
    + apply readers_keep_writer in Hs as (-> & -> & _); [exact IH|done].
Qed.

(** *** The wire only grows, and only data is progress *)

Definition datas (l : list (Z * Call)) : list (list byte) := omap (fun c => match c.2 with WData p => Some p | _ => None end) l.
Lemma datas_app a b : datas (a ++ b) = datas a ++ datas b.
Proof. unfold datas. by rewrite omap_app. Qed.
Definition grows (w w' : Writer) : Prop :=
  exists cs, calls w' = calls w ++ cs /\ (peer_fin w = true -> datas cs = [] -> last_data w' = last_data w /\ peer_fin w' = true).
Lemma grows_refl w : grows w w.
Proof. exists []. by rewrite app_nil_r. Qed.
Lemma grows_trans a b c : grows a b -> grows b c -> grows a c.
Proof.
  intros (l1 & E1 & H1) (l2 & E2 & H2). exists (l1 ++ l2). split; [by rewrite E2, E1, app_assoc|].
  intros Hp [Hd1 Hd2]%(eq_trans (eq_sym (datas_app l1 l2)))%app_eq_nil. destruct (H1 Hp Hd1) as [<- Hp1]. by apply H2.
Qed.
Lemma settles_grows now w w' res a : settles now w w' res a -> grows w w'.
Proof. destruct 1; try apply grows_refl. exists [(now, WShutdown)]. done. Qed.
Lemma effect_grows now ev w : grows w (effect now ev w).
Proof.
  destruct ev as [p f|c|c| |]; [exists ((now, WData p) :: if f then [(now, WFlush)] else [])|eexists..|exists []]; (split; [try done|]); cbn; try done.
  - by rewrite app_nil_r.
  - by intros ->.
Qed.
Lemma moved_grows now gone q w a q' w' res a' : moved KEEPALIVE_DEAD_AFTER POST_PEER_FIN_IDLE_BOUND now gone q w a q' w' res a' -> grows w w'.
Proof.
  destruct 1 as [ev q' w' res a' -> Hs|ev q' ->|ev q' cs e a' -> Hcs|w' res a' Hs|e|w' res a' Hp Hf Hl Hs|d Hq Hg Ha| |age Hq Ho Hd|w' res a' Hq Hs];
    try apply grows_refl; try (eapply grows_trans; [|eapply settles_grows, Hs]); try apply effect_grows; try apply grows_refl.
  - exists cs. done.
  - eexists. split; [reflexivity|]. done.
  - eexists. split; [reflexivity|]. done.
  - eexists. split; [reflexivity|]. done.
Qed.

Notation step := (step KEEPALIVE_INTERVAL KEEPALIVE_DEAD_AFTER POST_PEER_FIN_IDLE_BOUND).
Notation run := (run KEEPALIVE_INTERVAL KEEPALIVE_DEAD_AFTER POST_PEER_FIN_IDLE_BOUND).
Lemma step_grows t e r r' : step t e r = Some r' -> grows (writer r) (writer r') /\ clock r <= clock r'.
Proof.
  intros (Hr & Ht & Hs)%step_cases. destruct (is_writer e) eqn:Ew.
  - destruct (writer_moves KEEPALIVE_INTERVAL KEEPALIVE_DEAD_AFTER POST_PEER_FIN_IDLE_BOUND e (set_clock t r) r' Ew Hr Hs) as (q & w & res & a & -> & Hm).
    split; [exact (moved_grows _ _ _ _ _ _ _ _ _ Hm)|exact Ht].
  - apply readers_keep_writer in Hs as (-> & -> & _); [|done]. split; [apply grows_refl|exact Ht].
Qed.
Lemma run_grows l r r' : run r l = Some r' -> grows (writer r) (writer r') /\ clock r <= clock r'.
Proof.
  revert r. induction l as [|[t e] l IH]; intros r; cbn; [intros [= <-]; split; [apply grows_refl|lia]|].
  destruct (step t e r) as [r1|] eqn:Es; [|done]. intros Hl. apply step_grows in Es as [Hg Hc]. apply IH in Hl as [Hg' Hc'].
  split; [by eapply grows_trans|lia].
Qed.
Lemma run_reachable now l r r' : reachable now r -> run r l = Some r' -> reachable now r'.
Proof.
  revert r. induction l as [|[t e] l IH]; intros r Hr; cbn; [by intros [= <-]|].
  destruct (step t e r) as [r1|] eqn:Es; [|done]. apply IH. by eapply Goes_on.
Qed.
End Verdict.

(** ** Properties *)

(** C17: The framed relay is faithful, whatever the order in which its parts run: the Origin is
    dialed only for data, and has got the beginning of the data the edge sent, in order; as long as the
    codec answers no data after the peer's FIN ([codec_ok], its rule) it is dialed at most once, and once
    the peer's FIN was processed it has got all of that data and is half-closed; the edge has got the
    beginning of what the Origin said, in order, with at most one FIN and no data after it; and a relay that
    ends well has passed both FINs, all the edge sent, and everything the Origin said, unless it made no
    progress for the whole bound after the peer's FIN. *)
Theorem framed_relay_is_faithful {T} `{TrackerOps T} interval dead_after idle_bound now (r : Relay (T := T)) :
  reachable interval dead_after idle_bound now r ->
  to_origin r `prefix_of` received (frames r) /\
  (dials r <> 0%nat -> received (frames r) <> []) /\
  (codec_ok (frames r) -> (dials r <= 1)%nat /\
    (peer_fin (writer r) = true -> to_origin r = received (frames r))) /\
  (failed r = false -> peer_fin (writer r) = true -> dials r <> 0%nat -> origin_shut r = true) /\
  payloads (calls (writer r)) `prefix_of` said r /\
  ordered (marks (calls (writer r))) /\
  (result_ r = Some (Ok tt) -> ended_well idle_bound r).
Proof.
  intros Hr. destruct (reachable_inv _ _ _ _ _ Hr) as [Hu Hd].
  assert (peer_fin (writer r) = true -> over_reading r) as Hover by (intros Hp; apply (up_peer r Hu); by left).
  split_and!.
  - rewrite (up_bytes r Hu). by exists (handling (up r)).
  - apply (up_lazy r Hu).
  - intros Hc. split; [|intros Hp; apply nothing_in_hand; auto].
    assert (result_ r = Some (Err DialedTwice) \/ result_ r <> Some (Err DialedTwice)) as [E|Hn]
      by (destruct (result_ r) as [[|[]]|]; auto); [by destruct (up_twice r Hu E)|].
    rewrite (up_dials r Hu Hn). destruct (dial_tx r); lia.
  - intros Hn Hp. apply (up_shut r Hu); [intros E; by unfold failed in Hn; rewrite E in Hn|].
    apply (reachable_closed _ _ _ _ _ Hr Hn); auto.
  - apply (dn_prefix r Hd).
  - apply (dn_order r Hd).
  - exact (reachable_ends_well _ _ _ _ _ Hr).
Qed.

(** The verdict on a silent peer is fair: a relay is given up as dead only while the peer has
    not sent its FIN, with every queued acknowledgement counted, and because a keepalive was sent at least
    [KEEPALIVE_DEAD_AFTER] ago - up to the two milliseconds the readings are cut to - and no
    acknowledgement of it was noted since. *)
Theorem dead_verdict_is_fair {T} `{TrackerLaws T} interval dead_after idle_bound now (r : Relay (T := T)) age :
  reachable interval dead_after idle_bound now r -> result_ r = Some (Err (DeadPeer age)) ->
  peer_fin (writer r) = false /\ queue r = [] /\
  exists c t, unanswered c t (calls (writer r)) /\ dead_after - 2 * MILLI < clock r - t.
Proof.
  intros Hre Hres. destruct Hre as [|r t e r' Hre Hs]; [done|]. pose proof (reachable_tracked _ _ _ _ _ Hre) as Htr.
  apply step_cases in Hs as (Hr & Ht & Hs). apply (tracked_later _ t) in Htr; [|done].
  destruct (is_writer e) eqn:Ew; [|by destruct (happens_ended interval dead_after idle_bound e (set_clock t r) r' Ew Hr Hs) as [_ Hn]; destruct (Hn age)].
  destruct (writer_moves interval dead_after idle_bound e (set_clock t r) r' Ew Hr Hs) as (q & w & res & a & -> & Hm).
  cbn [result_ after_writer] in Hres. subst res. inversion Hm; subst; try (by match goal with Hx : settles _ _ _ _ _ |- _ => inversion Hx end).
  match goal with Ho : oldest_outstanding_age_ms _ _ = Some age |- _ => apply oldest_is_outstanding in Ho as (c & ms & Hin & ->) end.
  destruct (tr_sent _ _ Htr c ms Hin) as (t0 & -> & Ht0 & Hun). cbn [writer clock queue after_writer set_clock] in *. split_and!; [|done|].
  - destruct (peer_fin (writer r)) eqn:Ep; [|done]. rewrite (tr_judged _ _ Htr Ep) in Hin. by apply not_elem_of_nil in Hin.
  - exists c, t0. split; [exact Hun|]. unfold now_ms, sat_sub in *.
    pose proof (Z.div_mod (t - start (writer r)) MILLI ltac:(done)). pose proof (Z.mod_pos_bound (t - start (writer r)) MILLI ltac:(done)).
    pose proof (Z.div_mod (t0 - start (writer r)) MILLI ltac:(done)). pose proof (Z.mod_pos_bound (t0 - start (writer r)) MILLI ltac:(done)).
    pose proof (Z.div_mod dead_after MILLI ltac:(done)). pose proof (Z.mod_pos_bound dead_after MILLI ltac:(done)).
    unfold MILLI in *. lia.
Qed.

(** A half-closed relay ends: once the peer's FIN was processed, whatever else happens - its own
    keepalives, answers, a silent Origin - nothing but data written postpones the end: at any time the idle
    bound has passed since the last progress, the writer at its [select!] sends its FIN, shuts the
    hop down and the relay ends well. *)
Theorem half_closed_relay_ends {T} `{TrackerLaws T} interval dead_after idle_bound now (r r' : Relay (T := T)) l d :
  reachable interval dead_after idle_bound now r -> peer_fin (writer r) = true ->
  run interval dead_after idle_bound r l = Some r' -> datas (calls (writer r')) = datas (calls (writer r)) ->
  result_ r' = None -> writer_at r' = Selecting d ->
  last_data (writer r') = last_data (writer r) /\
  forall t, clock r' <= t -> last_data (writer r) + idle_bound <= t ->
    exists r2, step interval dead_after idle_bound t (WriterIdle []) r' = Some r2 /\ result_ r2 = Some (Ok tt) /\
      calls (writer r2) = calls (writer r') ++ [(t, WFin); (t, WShutdown)].
Proof.
  intros Hr Hp Hrun Hdat Hlive Hat. pose proof (run_reachable _ _ _ _ _ _ _ Hr Hrun) as Hr'.
  destruct (run_grows _ _ _ _ _ _ Hrun) as [(cs & Ec & Hg) _]. rewrite Ec, datas_app in Hdat.
  destruct (Hg Hp) as [Hld Hp']; [apply (app_inv_head (datas (calls (writer r)))); by rewrite Hdat, app_nil_r|].
  split; [exact Hld|]. intros t Ht Hb. destruct (reachable_inv _ _ _ _ _ Hr') as [_ Hd].
  assert (fin_sent (calls (writer r')) = false) as Hf.
  { pose proof (dn_select r' Hd Hlive ltac:(by rewrite Hat)) as Hbf. unfold both_fins in Hbf. rewrite Hp', andb_true_r in Hbf. exact Hbf. }
  unfold step. rewrite Hlive, (proj2 (Z.leb_le _ _)) by lia. cbn [happens]. unfold writer_idle. cbn [writer_at set_clock writer clock].
  rewrite Hat, Hp', Hf, (proj2 (Z.leb_le _ _)) by lia. cbn [negb andb].
  eexists. split; [reflexivity|]. unfold run_arm, idle_arm, mbind, w_bind, call, update, loop_top. cbn [tail writer set_clock set_writer].
  assert (fin_sent (calls (writer r') ++ [(t, WFin)]) = true) as Hf2 by (unfold fin_sent; rewrite existsb_app; apply orb_true_r).
  cbn -[fin_sent]. rewrite Hf2, Hp'. cbn. split; [done|]. by rewrite <-app_assoc.
Qed.

(** ** Concrete runs *)

(** A tracker that keeps what is outstanding, oldest first. *)
#[global] Instance list_tracker : TrackerOps (list (Z * Z)) := {
  new_tracker := [];
  tracker_sent c t l := l ++ [(c, t)];
  tracker_ack c l := filter (fun p => p.1 <> c) l;
  oldest_outstanding_age_ms now l := (fun p => sat_sub now p.2) <$> head l
}.
#[global] Instance list_tracker_laws : TrackerLaws (list (Z * Z)).
Proof.
  refine {| outstanding := fun l => l |}.
  - done.
  - intros c t l x. cbn. set_solver.
  - intros c l p Hp. cbn in Hp. apply list_elem_of_filter in Hp as [? ?]. done.
  - intros now l age. cbn. destruct l as [|[c t] l]; [done|]. cbn. intros [= <-]. exists c, t. split; [left|done].
Defined.

Notation demo_interval := (8 * SECOND) (only parsing).
Notation demo_dead := (24 * SECOND) (only parsing).
Notation demo_bound := (60 * SECOND) (only parsing).
Notation demo_run l := (run demo_interval demo_dead demo_bound (serve_framed_duplex_to_origin 0 (T := list (Z * Z))) l) (only parsing).

Definition demo_request : list (Z * Happening) :=
  [(0, UpFrame (Ok (Some (FData [])))); (0, UpFrame (Ok (Some (FData [Byte.x41])))); (1, UpDialed (Ok tt)); (1, UpWritten (Ok tt)); (2, DownStart)].
Definition demo_answer : list (Z * Happening) :=
  [(2, DownRead (Ok [Byte.x42; Byte.x43])); (2, DownSend); (3, WriterRecv []); (4, DownRead (Ok [])); (4, DownSend); (4, WriterRecv [])].
Definition demo_peer_fin : list (Z * Happening) := [(5, UpFrame (Ok (Some FFin))); (5, UpSend); (6, WriterRecv [])].

(** A request, its answer and both FINs. *)
Lemma framed_relay_is_faithful_witness :
  exists r, demo_run (demo_request ++ demo_answer ++ demo_peer_fin) = Some r /\
    reachable demo_interval demo_dead demo_bound 0 r /\ result_ r = Some (Ok tt) /\
    map snd (calls (writer r)) = [WData [Byte.x42; Byte.x43]; WFlush; WFin; WShutdown] /\
    to_origin r = received (frames r) /\ ended_well demo_bound r.
Proof.
  destruct (demo_run (demo_request ++ demo_answer ++ demo_peer_fin)) as [r|] eqn:E; [|vm_compute in E; discriminate].
  exists r. split; [reflexivity|].
  assert (reachable demo_interval demo_dead demo_bound 0 r) as Hr by exact (run_reachable _ _ _ _ _ _ _ (Starts _ _ _ 0) E).
  assert (result_ r = Some (Ok tt) /\ map snd (calls (writer r)) = [WData [Byte.x42; Byte.x43]; WFlush; WFin; WShutdown]) as [Hok Hc].
  { apply (f_equal (option_map (fun r => (result_ r, map snd (calls (writer r)))))) in E. vm_compute in E. injection E as E1 E2.
    split; [exact (eq_sym E1)|exact (eq_sym E2)]. }
  destruct (framed_relay_is_faithful demo_interval demo_dead demo_bound 0 r Hr) as (_ & _ & H3 & _ & _ & _ & H7).
  pose proof (H7 Hok) as Hw. split_and!; [exact Hr|exact Hok|exact Hc| |exact Hw].
  apply H3; [|by apply (proj1 (andb_true_iff _ _) (proj1 Hw))].
  assert (frames r = [FData []; FData [Byte.x41]; FFin]) as ->.
  { apply (f_equal (option_map frames)) in E. vm_compute in E. injection E as E. exact (eq_sym E). }
  intros l x l' El Hx Hin. clear -El Hx Hin.
  repeat (destruct l as [|? l]; simplify_list_eq; try (by set_solver)).
Defined.

(** A peer that answers none of three keepalives. *)
Definition demo_silence : list (Z * Happening) :=
  [(8 * SECOND, WriterKeepalive []); (16 * SECOND, WriterKeepalive []); (24 * SECOND, WriterKeepalive []);
   (32 * SECOND, WriterDeadline); (32 * SECOND, WriterDrain [])].
Lemma dead_verdict_is_fair_witness :
  exists r, demo_run demo_silence = Some r /\ result_ r = Some (Err (DeadPeer 24000)) /\
    peer_fin (writer r) = false /\ exists c t, unanswered c t (calls (writer r)) /\ 24 * SECOND - 2 * MILLI < clock r - t.
Proof.
  destruct (demo_run demo_silence) as [r|] eqn:E; [|vm_compute in E; discriminate].
  exists r. split; [reflexivity|].
  assert (reachable demo_interval demo_dead demo_bound 0 r) as Hr by exact (run_reachable _ _ _ _ _ _ _ (Starts _ _ _ 0) E).
  assert (result_ r = Some (Err (DeadPeer 24000))) as Hres.
  { apply (f_equal (option_map result_)) in E. vm_compute in E. injection E as E1. exact (eq_sym E1). }
  destruct (dead_verdict_is_fair demo_interval demo_dead demo_bound 0 r 24000 Hr Hres) as (H1 & _ & H3).
  split_and!; [exact Hres|exact H1|exact H3].
Defined.

(** A half-closed relay whose Origin says nothing: one keepalive, then the bound. *)
Lemma half_closed_relay_ends_witness :
  exists r r', demo_run (demo_request ++ demo_peer_fin) = Some r /\
    run demo_interval demo_dead demo_bound r [(20 * SECOND, WriterKeepalive [])] = Some r' /\
    exists r2, step demo_interval demo_dead demo_bound (60 * SECOND + 6) (WriterIdle []) r' = Some r2 /\ result_ r2 = Some (Ok tt).
Proof.
  destruct (demo_run (demo_request ++ demo_peer_fin)) as [r|] eqn:E; [|vm_compute in E; discriminate].
  assert (reachable demo_interval demo_dead demo_bound 0 r) as Hr by exact (run_reachable _ _ _ _ _ _ _ (Starts _ _ _ 0) E).
  destruct (run demo_interval demo_dead demo_bound r [(20 * SECOND, WriterKeepalive [])]) as [r'|] eqn:E'.
  2: { vm_compute in E. injection E as <-. vm_compute in E'. discriminate. }
  exists r, r'. split; [reflexivity|]. split; [exact E'|].
  assert (peer_fin (writer r) = true /\ last_data (writer r) = 6 /\ datas (calls (writer r)) = []) as (Hp & Hld & Hd).
  { apply (f_equal (option_map (fun r => (peer_fin (writer r), last_data (writer r), datas (calls (writer r)))))) in E.
    vm_compute in E. injection E as E1 E2 E3. split_and!; [exact (eq_sym E1)|exact (eq_sym E2)|exact (eq_sym E3)]. }
  assert (result_ r' = None /\ writer_at r' = Selecting None /\ clock r' = 20 * SECOND /\ datas (calls (writer r')) = []) as (H1 & H2 & H3 & H4).
  { vm_compute in E. injection E as <-. apply (f_equal (option_map (fun r => (result_ r, writer_at r, clock r, datas (calls (writer r)))))) in E'.
    vm_compute in E'. injection E' as E1 E2 E3 E4. split_and!; [exact (eq_sym E1)|exact (eq_sym E2)|exact (eq_sym E3)|exact (eq_sym E4)]. }
  destruct (half_closed_relay_ends demo_interval demo_dead demo_bound 0 r r' [(20 * SECOND, WriterKeepalive [])] None Hr Hp E'
    ltac:(rewrite H4, Hd; reflexivity) H1 H2) as [_ Hstep].
  destruct (Hstep (60 * SECOND + 6)) as (r2 & Hs & Hok & _); [rewrite H3; vm_compute; discriminate|rewrite Hld; vm_compute; discriminate|].
  exists r2. split; [exact Hs|exact Hok].
Defined.
